(* ===== verification/_CoqProject ===== *)
-Q . S2P
Prelude.v
Crypto.v
SplitToken.v
Utf8.v
AttachTicket.v
Arrow.v
ArrowRecord.v
OpaqueSeal.v
ArrowCompute.v
Text.v
Strtod.v
Wire.v
Protocol.v
AttachService.v
Metadata.v
Exchange.v
Storage.v
StorageSpec.v
StorageConc.v
StorageClient.v
Attachment.v
WireSchema.v
FunctionSpec.v
Arguments.v
Settings.v
Json.v
Pushdown.v
PushdownEval.v
PushdownRows.v
PushdownBounds.v
PushdownState.v
Producer.v
Functions.v
Dispatch.v
ArgCheck.v
Calls.v
Aggregate.v
AggregateSpec.v
AggregateWindow.v
Buffering.v
Plan.v
Init.v
PushdownView.v
SqlScalar.v
SqlParse.v
SqlGenerated.v
Constraints.v
Capabilities.v
Columns.v
Contents.v
MemoryCatalog.v
Bind.v
ConstraintsSpec.v
ConstraintsServed.v
MemoryTables.v
Numeric.v
Versions.v
Statistics.v
Tables.v
Macros.v
Catalogs.v
Projection.v
ArgSchema.v
FunctionInfo.v
Discovery.v
Attaching.v
Service.v
TableAnswers.v
Worker.v
