(* ===== verification/Prelude.v ===== *)
(** * Verification of the vgi C++ worker SDK

    The repository is an SDK for worker processes of the VGI protocol.  DuckDB
    (the engine, the client) attaches a worker's catalog, lists what it declares
    and calls its functions, by Arrow record batches over a transport of the
    [vgi_rpc] library.  A worker is a [Dispatcher] ([src/dispatcher.cpp]) in
    which functions are registered; each protocol method is a handler of it.

    ** What the parts are and how they meet

    - A request reaches a handler through [opaque::Call::open]
      ([OpaqueSeal], [src/opaque_seal.cpp]), which opens every sealed attach and
      transaction value it carries.  An attach may carry a ticket that stands
      for a whole attach request ([AttachTicket], [src/attach_ticket.cpp];
      [Utf8] for its strict text; [AttachService],
      [src/attach_ticket_service.cpp], for [seal_attach] and
      [redeem_attach_ticket]).  The attach value itself -- catalog, id, options,
      secrets kept in the storage -- is [Attachment] ([src/catalog.cpp]).
    - Cells are read and rows are built by [Wire] and [WireSchema]
      ([src/wire.cpp]); the records of the protocol, and the answer's envelope
      with [conform], are [Protocol] ([src/generated/], [src/methods.cpp],
      [src/dispatcher.cpp]).  [Metadata] is cache control and batch metadata
      ([src/cache_control.cpp]).
    - What a function declares is [FunctionSpec] ([src/function.cpp],
      [src/arg_schema.cpp], [include/vgi/types.h]), what it is to the worker is
      [Functions] ([include/vgi/function.h], [table_function.h], [buffering.h],
      [aggregate.h], [copy_to.h], [copy_from.h]).  The registries and the choice
      among overloads are [Dispatch], the checks of a call's arguments
      [ArgCheck] ([src/function_dispatch.cpp], [src/dispatcher.cpp]); the
      arguments, settings and secrets of a call are [Arguments]
      ([src/arguments.cpp]) and [Settings] ([src/settings.cpp]).
    - A scan is driven by [Producer] ([TableProduce] of
      [src/function_dispatch.cpp]), a table-in-out function by [Exchange] (the
      same file).  The filters pushed into a scan: [Json] (the
      document reader), [Pushdown] (the tree and its parser), [PushdownEval]
      and [PushdownRows] (evaluation and its meaning), [PushdownBounds]
      (bounds and values of a column), [PushdownState] (snapshot and deltas),
      [PushdownView] (what a worker is told), all of [src/pushdown.cpp].
    - A scan is handed out in splits, each a token ([SplitToken],
      [src/split_token.cpp]).
    - State between calls lives in [FunctionStorage] ([src/storage.cpp]):
      [Storage] is the files, [StorageSpec] the abstract store and the
      refinement, [StorageConc] the system calls of appends and pops
      interleaved, [StorageClient] the class of storages and the programs
      [prog] over it; handlers that keep state are such programs.
    - The SQL of constraints and generated columns is [SqlScalar] with
      [SqlParse] and [SqlGenerated] ([src/sql_scalar.cpp]); constraint records
      and catalog capabilities are [Constraints], [ConstraintsSpec],
      [ConstraintsServed] and [Capabilities] ([src/constraints.cpp]).
    - [Crypto] ([vgi_rpc]'s cryptography), [Arrow], [ArrowRecord] and
      [ArrowCompute] (Apache Arrow) and [Text] (the standard library's number
      conversions) are what the sources call.

    Then the handlers, which put these together:

    - [Calls] reads what a request says of its call; [Bind] answers a bind,
      [Init] an init in each of its phases, [Plan] the split plan and what is
      asked of a scan before it, [Projection] a projection into a table
      function, [TableAnswers] the statistics of a scan
      ([src/function_dispatch.cpp], [src/table_in_out.cpp]); [Buffering] the
      buffered functions ([src/buffering.cpp]); [Aggregate], [AggregateSpec] and
      [AggregateWindow] the aggregates ([src/aggregate.cpp]).
    - What a worker declares: [Columns] ([src/column_metadata.h],
      [src/column_expressions.h]), [Tables], [Macros], [Versions] and [Catalogs]
      ([src/catalog.cpp], [include/vgi/catalog.h]), [Statistics]
      ([src/statistics.cpp], [src/partition.cpp]), [ArgSchema]
      ([src/arg_schema.cpp]) and [FunctionInfo], the record of a function and
      the listings; [Numeric] is the arithmetic on types that authors share
      ([src/numeric.cpp]).
    - What a client is shown: [Attaching] opens a catalog, [Discovery] answers
      every [catalog_*] question of an attached one ([src/catalog.cpp]),
      [Contents] what a handler of contents gives
      ([src/catalog_contents.cpp]); [MemoryCatalog] and [MemoryTables] are the
      catalog that keeps its tables in memory ([src/memory_catalog.cpp]).
    - [Service] is the boundary of every call ([src/dispatcher.cpp]): its sealed
      values are opened, a ticket is redeemed, a call of a catalog in memory is
      routed there, the answer is given its envelope.  [Worker] starts it all
      ([src/worker.cpp], [src/landing.cpp]): command line, environment and hooks
      to the server that is built and the configuration that is served, with
      [Strtod] for the one number it reads as a double.
    ** How the code is read

    A function that may throw is a function into [result] (this file); a handler
    that uses the storage is a [StorageClient.prog], a tree of storage calls.
    Integers are [Z] with the width where it matters written at the place;
    bytes and [std::string]s are [bytes], texts that are only names [string].
    An Arrow array is its type and its values ([Arrow.array]); a
    dictionary-encoded array is the values its indices name, so that an index
    out of range of its dictionary has no representation.  What C++ leaves
    undefined and the code does is the error [Undefined_behaviour].  Third-party
    code -- Arrow, nlohmann::json, std::regex, libsodium through [vgi_rpc] -- is
    a class of operations ([Arrow], [Compute], [Crypto], [JsonParser], [Regex],
    ...) with its documented laws in a second class where a theorem relies on
    them; concrete instances ([table_arrow], [toy_crypto], [toy_compute], ...)
    show that the laws can hold and run the witnesses.  The laws of Arrow's compute
    functions ([ComputeLaws]) speak of the functions that filters are made of, and
    of each at the types of its operands: what [add_checked] gives on floats says
    nothing of what it gives on doubles, and nothing is said of a function that
    does not work row by row.

    ** What the theorems show

    Each property has the id of its claim in its comment.  Safety: a sealed
    value, ticket or token opens only for whom it was made; an unsealed attach
    value says nothing of a secret; what a filter keeps is what it is true of;
    a scan never emits a row a required filter is not true of; appends and pops
    never publish or take an id twice under any interleaving; what validation of
    constraints and of arguments lets through keeps the declared rules.  Round
    trips: tickets, tokens, attach values, constraint records, answers,
    arguments.  Refinement: the filesystem storage implements the abstract
    store, whichever processes call it, on a disk that works, for fewer than
    2^61 items, and as long as no process pops a queue that it popped before
    another one cleared the scope: such a process keeps a stale cursor and misses
    items ([stale_cursor_after_clear]).  Equivalence: strict UTF-8,
    vectorised evaluation against its row-wise meaning.  Functional: the choice
    of overloads, registries, secrets, capabilities, generated columns.
    Termination: the SQL parser.

    Of the handlers.  Refinement: an aggregation over many calls is the fold of
    the function's steps, in any partition; an ATTACH answers what the declared
    catalog says, at the version that its range resolves to.  Round trips: a
    plan is redeemed for what was planned; tables, macros and functions are read
    back from what discovery sends; a ticketed ATTACH is the one that was
    sealed.  Safety: work is divided once; a call reaches the catalog its
    attachment is of and no other, and is answered what that one says; announced
    counts hide nothing; two executions never share an id; a worker
    serves nothing that its transport cannot guard.  Invariants: a sink has the
    arguments and settings that were bound; a window's rows survive between calls; a
    version tells the contents of a catalog in memory.  Liveness: what a
    producer owes is delivered, one batch a tick, and then the scan ends.

    Where the code and its documentation part, the theorem says what holds and an
    example beside it what does not: bounds of arguments hold of numbers and let
    NaN pass ([ArgCheck.nan_unbounded]); the secrets a bind asks for are those of
    the function it routed to only if the name means that one
    ([Bind.same_function], [Bind.overload_secrets_forgotten]); the five documented
    forms of a version request are answered as documented, and a text that is none
    of them may be taken for a major number ([Versions.trailing_text_is_a_major]).
    ** Fuel

    Recursion that is not structural carries fuel, and a lemma says when it is
    enough; [Out_of_fuel] is an error of the model alone.  [OpaqueSeal]: the
    nesting depth of the request's records.  [Pushdown] and [PushdownEval]:
    [kMaxDepth], which the code checks itself.  [SqlScalar]: the length of the
    text for the lexer, of the tokens for the parser, the number of columns plus
    one for [visit] ([SqlParse.parse_total], [SqlGenerated]).  [Storage]:
    [kMaxClaimAttempts], the code's own bound, and three rounds for the two
    caches of [queue_pop].  [Service]: the nesting of the request, as
    [OpaqueSeal].  Numbers as text: more digits than the width has.

    ** What is not modelled

    - The transports and the server loop, which are [vgi_rpc]'s; the client log
      and the trace; the registration of each method with [vgi_rpc], of which the
      boundary ([Service]) and the handlers are modelled.
    - The parameter schemas the transport checks requests against
      ([src/generated/vgi_service.hpp]); [sweep_stale] and the permissions of the
      storage's directory ([src/storage.cpp]); the shims of [src/portable.cpp].
    - The fixtures under [example-worker/] are clients of the SDK, the tests,
      scripts and vendored packages are no part of it. *)

From stdpp Require Export strings base tactics list gmap option numbers fin_maps.
From Stdlib Require Export Ascii ZArith Lia.
#[global] Open Scope Z_scope.
#[global] Open Scope list_scope.
#[global] Set Default Proof Using "Type".

(** ** Exceptions and fallible code

    A C++ function that may throw is a function into [result].  The
    exceptions are the ones the sources raise, with the message where the
    source builds one.  [Out_of_fuel] is no exception of the program: it is
    what a loop or recursion bounded by a fuel argument answers when the bound
    is hit, and each such definition has a lemma saying when it is not.
    [Undefined_behaviour] is no exception either: it stands for what C++ leaves
    undefined, where the source does it -- the value of an empty optional --,
    and no handler catches it. *)
Inductive exn : Type :=
| Invalid_argument (what : string)
| Runtime_error (what : string)
| Attach_ticket_invalid (detail : string)
| Attach_ticket_expired (detail : string)
| Invalid_request (message : string) (violations : list (string * string))
| Action_denied (message : string)
| Not_implemented (message : string)
| Opaque_not_recognized (field : string)
| Json_error (what : string)
| Undefined_behaviour (what : string)
| Out_of_fuel.

(** What a handler of [std::exception] catches. *)
Definition std_exception (e : exn) : bool :=
  match e with Undefined_behaviour _ | Out_of_fuel => false | _ => true end.

#[global] Instance exn_eq_dec : EqDecision exn.
Proof. solve_decision. Defined.

Inductive result (A : Type) : Type :=
| Ok (val : A)
| Throw (err : exn).
Arguments Ok {A} val.
Arguments Throw {A} err.

#[global] Instance result_eq_dec `{EqDecision A} : EqDecision (result A).
Proof. solve_decision. Defined.

#[global] Instance result_ret : MRet result := @Ok.
#[global] Instance result_bind : MBind result := λ A B f r,
  match r with Ok a => f a | Throw e => Throw e end.

Definition throw_if (b : bool) (e : exn) : result unit :=
  if b then Throw e else Ok tt.

Definition is_ok {A} (r : result A) : bool :=
  match r with Ok _ => true | Throw _ => false end.

Definition from_opt {A} (e : exn) (o : option A) : result A :=
  match o with Some a => Ok a | None => Throw e end.

Lemma bind_Ok {A B} (r : result A) (f : A → result B) b :
  (r ≫= f) = Ok b ↔ ∃ a, r = Ok a ∧ f a = Ok b.
Proof. destruct r; simpl; naive_solver. Qed.

Lemma bind_Throw {A B} (r : result A) (f : A → result B) e :
  (r ≫= f) = Throw e ↔ r = Throw e ∨ ∃ a, r = Ok a ∧ f a = Throw e.
Proof. destruct r; simpl; naive_solver. Qed.

Lemma throw_if_Ok b e u : throw_if b e = Ok u ↔ b = false.
Proof. destruct b, u; naive_solver. Qed.

Lemma throw_if_Throw b e e' : throw_if b e = Throw e' ↔ b = true ∧ e = e'.
Proof. destruct b; naive_solver. Qed.

Lemma from_opt_Ok {A} e (o : option A) a : from_opt e o = Ok a ↔ o = Some a.
Proof. destruct o; naive_solver. Qed.

Lemma from_opt_Throw {A} e (o : option A) e' :
  from_opt e o = Throw e' ↔ o = None ∧ e = e'.
Proof. destruct o; naive_solver. Qed.

Lemma bind_pair_Ok {A A' B} (r : result (A * A')) (f : A → A' → result B) b :
  (r ≫= λ '(x, y), f x y) = Ok b ↔ ∃ x y, r = Ok (x, y) ∧ f x y = Ok b.
Proof. rewrite bind_Ok. split; [intros ([x y] & ? & ?)|intros (x & y & ? & ?)]; eauto. Qed.

Lemma bind_throw_if_Ok {B} b e (r : result B) x :
  (throw_if b e;; r) = Ok x ↔ b = false ∧ r = Ok x.
Proof. destruct b; simpl; naive_solver. Qed.

Lemma bind_throw_if_Throw {B} b e (r : result B) x :
  (throw_if b e;; r) = Throw x ↔ (b = true ∧ e = x) ∨ (b = false ∧ r = Throw x).
Proof. destruct b; simpl; naive_solver. Qed.

(** The exceptions a computation can raise. *)
Definition throws_only {A} (P : exn → Prop) (r : result A) : Prop :=
  match r with Ok _ => True | Throw e => P e end.

Lemma throws_only_bind {A B} P (r : result A) (f : A → result B) :
  throws_only P r → (∀ a, throws_only P (f a)) → throws_only P (r ≫= f).
Proof. destruct r; simpl; auto. Qed.

Lemma throws_only_throw_if P b e : P e → throws_only P (throw_if b e).
Proof. by destruct b. Qed.

Lemma throws_only_from_opt {A} P e (o : option A) : P e → throws_only P (from_opt e o).
Proof. by destruct o. Qed.

Lemma throws_only_Ok {A} P (a : A) : throws_only P (Ok a).
Proof. done. Qed.

Lemma throws_only_weaken {A} (P Q : exn → Prop) (r : result A) :
  (∀ e, P e → Q e) → throws_only P r → throws_only Q r.
Proof. destruct r; simpl; auto. Qed.

Create HintDb throws.
#[export] Hint Resolve throws_only_bind throws_only_throw_if throws_only_from_opt
  throws_only_Ok : throws.

(** [inv_result] turns every hypothesis that a computation returned (or
    threw) into what its steps returned, and simplifies. *)
Ltac inv_result_step :=
  match goal with
  | H : Ok _ = Ok _ |- _ => apply (inj Ok) in H || (injection H as H)
  | H : mret _ = Ok _ |- _ => unfold mret, result_ret in H
  | H : Ok _ = Throw _ |- _ => discriminate H
  | H : Throw _ = Ok _ |- _ => discriminate H
  | H : mbind _ _ = Ok _ |- _ =>
      apply bind_Ok in H; let a := fresh "a" in let E := fresh "E" in destruct H as (a & E & H)
  | H : throw_if _ _ = Ok _ |- _ => apply throw_if_Ok in H
  | H : from_opt _ _ = Ok _ |- _ => apply from_opt_Ok in H
  end.
Ltac inv_result := repeat (inv_result_step; simplify_eq/=).

(** ** Byte strings

    A [std::string] that is parsed or encoded byte by byte is a [bytes]; one
    that is only compared and concatenated is a [string].  [bz] reads a byte
    as an unsigned char, [zb] is the cast of an integer to a char, which keeps
    the low eight bits. *)
Abbreviation bytes := (list ascii).

Definition bs (s : string) : bytes := String.list_ascii_of_string s.
Definition str (b : bytes) : string := String.string_of_list_ascii b.

Definition bz (c : ascii) : Z := Z.of_N (N_of_ascii c).
Definition zb (z : Z) : ascii := ascii_of_N (Z.to_N (z mod 256)).

Definition NUL : ascii := zb 0.

Lemma bz_range c : 0 ≤ bz c < 256.
Proof. unfold bz. pose proof (N_ascii_bounded c). lia. Qed.

Lemma bz_zb z : bz (zb z) = z mod 256.
Proof.
  unfold bz, zb. assert (0 ≤ z mod 256 < 256) by (apply Z.mod_pos_bound; lia).
  rewrite N_ascii_embedding by lia. lia.
Qed.

Lemma zb_bz c : zb (bz c) = c.
Proof.
  unfold zb. rewrite Z.mod_small by apply bz_range. unfold bz.
  rewrite N2Z.id. apply ascii_N_embedding.
Qed.

Lemma bz_inj c d : bz c = bz d → c = d.
Proof. intros H. rewrite <- (zb_bz c), <- (zb_bz d). by f_equal. Qed.

Lemma zb_inj x y : 0 ≤ x < 256 → 0 ≤ y < 256 → zb x = zb y → x = y.
Proof.
  intros Hx Hy H. apply (f_equal bz) in H. rewrite !bz_zb, !Z.mod_small in H by lia. done.
Qed.

Lemma zb_mod z : zb (z mod 256) = zb z.
Proof. unfold zb. by rewrite Z.mod_mod by lia. Qed.

Lemma bs_app s t : bs (s +:+ t) = bs s ++ bs t.
Proof. induction s; simpl; [done|]. unfold bs in *. simpl. by f_equal. Qed.

Lemma str_bs s : str (bs s) = s.
Proof. apply String.string_of_list_ascii_of_string. Qed.

Lemma bs_str b : bs (str b) = b.
Proof. apply String.list_ascii_of_string_of_list_ascii. Qed.

(** Little-endian integers of [n] bytes: the loops of [put_u16], [put_u32],
    [put_i64] and [Reader::take_le]. *)
Fixpoint le_bytes (n : nat) (v : Z) : bytes :=
  match n with
  | O => []
  | S n => zb (Z.land v 255) :: le_bytes n (Z.shiftr v 8)
  end.

Fixpoint le_value (b : bytes) : Z :=
  match b with
  | [] => 0
  | c :: r => Z.lor (bz c) (Z.shiftl (le_value r) 8)
  end.

Lemma le_bytes_length n v : length (le_bytes n v) = n.
Proof. revert v. induction n; intros; simpl; auto. Qed.

Lemma land_255 v : Z.land v 255 = v mod 256.
Proof. change 255 with (Z.ones 8). by rewrite Z.land_ones by lia. Qed.

Lemma lor_shiftl a b k : 0 ≤ k → 0 ≤ a < 2 ^ k → Z.lor a (Z.shiftl b k) = a + 2 ^ k * b.
Proof.
  intros Hk Ha. pose proof (Z.add_lor_land a (Z.shiftl b k)) as Hadd.
  assert (Z.land a (Z.shiftl b k) = 0) as Hland.
  { apply Z.bits_inj'. intros n Hn. rewrite Z.land_spec, Z.bits_0.
    destruct (decide (n < k)) as [H|H].
    - rewrite (Z.shiftl_spec_low b) by done. apply andb_false_r.
    - destruct (decide (a = 0)) as [->|]; [by rewrite Z.bits_0|].
      rewrite (Z.bits_above_log2 a n); [done|lia|].
      apply Z.log2_lt_pow2; [lia|]. apply Z.lt_le_trans with (2 ^ k); [lia|].
      apply Z.pow_le_mono_r; lia. }
  rewrite Z.shiftl_mul_pow2 in * by lia. lia.
Qed.

Lemma lor_byte a b : 0 ≤ a < 256 → Z.lor a (Z.shiftl b 8) = a + 256 * b.
Proof. intros Ha. by rewrite lor_shiftl by (done || lia). Qed.

Lemma le_value_cons c r : le_value (c :: r) = bz c + 256 * le_value r.
Proof. simpl. by rewrite lor_byte by apply bz_range. Qed.

Lemma le_bytes_S n v : le_bytes (S n) v = zb v :: le_bytes n (v / 256).
Proof.
  simpl. rewrite land_255, zb_mod. f_equal. by rewrite Z.shiftr_div_pow2 by lia.
Qed.

Lemma le_value_le_bytes n v : le_value (le_bytes n v) = v mod 256 ^ Z.of_nat n.
Proof.
  revert v. induction n as [|n IH]; intros v; [by rewrite Z.mod_1_r|].
  rewrite le_bytes_S, le_value_cons, IH, bz_zb, Nat2Z.inj_succ, Z.pow_succ_r by lia.
  by rewrite Z.rem_mul_r by lia.
Qed.

Lemma le_value_range b : 0 ≤ le_value b < 256 ^ Z.of_nat (length b).
Proof.
  induction b as [|c b IH]; [simpl; lia|].
  rewrite le_value_cons. cbn [length]. rewrite Nat2Z.inj_succ, Z.pow_succ_r by lia.
  pose proof (bz_range c). nia.
Qed.

Lemma le_bytes_le_value b : le_bytes (length b) (le_value b) = b.
Proof.
  induction b as [|c b IH]; [done|]. cbn [length].
  rewrite le_bytes_S, le_value_cons. f_equal.
  - rewrite <- zb_mod, Z.mul_comm, Z.mod_add by lia. by rewrite zb_mod, zb_bz.
  - rewrite Z.mul_comm, Z.div_add by lia.
    rewrite Z.div_small by apply bz_range. by rewrite Z.add_0_l.
Qed.

(** ** Machine integers *)
Definition is_int64 (z : Z) : Prop := - 2 ^ 63 ≤ z < 2 ^ 63.
Definition is_uint64 (z : Z) : Prop := 0 ≤ z < 2 ^ 64.
(** [static_cast<uint64_t>] and [static_cast<int64_t>]. *)
Definition to_uint64 (z : Z) : Z := z mod 2 ^ 64.
Definition to_int64 (z : Z) : Z := (z + 2 ^ 63) mod 2 ^ 64 - 2 ^ 63.

#[global] Instance is_int64_dec z : Decision (is_int64 z).
Proof. unfold is_int64. apply _. Defined.

Lemma to_int64_range z : is_int64 (to_int64 z).
Proof. unfold is_int64, to_int64. pose proof (Z.mod_pos_bound (z + 2^63) (2^64)). lia. Qed.

Lemma to_int64_id z : is_int64 z → to_int64 z = z.
Proof. unfold is_int64, to_int64. intros. rewrite Z.mod_small; lia. Qed.

Lemma to_int64_mod z : to_int64 (z mod 2 ^ 64) = to_int64 z.
Proof. unfold to_int64. by rewrite Z.add_mod_idemp_l by lia. Qed.

Lemma to_uint64_to_int64 z : 0 ≤ z < 2 ^ 64 → to_uint64 (to_int64 z) = z.
Proof.
  unfold to_uint64, to_int64. intros H. rewrite Zminus_mod_idemp_l.
  replace (z + 2 ^ 63 - 2 ^ 63) with z by lia. by apply Z.mod_small.
Qed.

(** ** Lists *)
Lemma app_inj_len {A} (a b c d : list A) :
  length a = length c → a ++ b = c ++ d → a = c ∧ b = d.
Proof. intros. by apply app_inj_1. Qed.

Lemma take_app_len {A} n (l k : list A) : length l = n → take n (l ++ k) = l.
Proof. intros <-. apply take_app_length. Qed.

Lemma drop_app_len {A} n (l k : list A) : length l = n → drop n (l ++ k) = k.
Proof. intros <-. apply drop_app_length. Qed.

Lemma singleton_eq {A} (a b : A) : [a] = [b] → a = b.
Proof. congruence. Qed.

Lemma NoDup_all_eq {A} (l : list A) (x : A) :
  NoDup l → x ∈ l → (∀ y, y ∈ l → y = x) → l = [x].
Proof.
  intros Hnd Hin Hall. destruct l as [|a [|b l]]; [by apply elem_of_nil in Hin| |].
  - by rewrite (Hall a) by (by left).
  - apply NoDup_cons in Hnd as [Hnd _]. destruct Hnd.
    rewrite (Hall a), <- (Hall b) by (repeat first [by left|right]). by left.
Qed.

Lemma NoDup_fst_inj {A B} (l : list (A * B)) k v w :
  NoDup l.*1 → (k, v) ∈ l → (k, w) ∈ l → v = w.
Proof.
  induction l as [|[k' u] l IH]; cbn; [set_solver|]. intros Hnd. inversion_clear Hnd as [|? ? Hk Hl].
  assert (∀ x, (k', x) ∉ l) as Hno
    by (intros x Hx; apply Hk, list_elem_of_fmap; by exists (k', x)).
  rewrite !elem_of_cons. intros [Hv|Hv] [Hw|Hw]; simplify_eq; [done| | |by apply IH].
  - by destruct (Hno w).
  - by destruct (Hno v).
Qed.

(** Splitting at a separator that neither prefix holds. *)
Lemma split_inj {A} (x : A) (a b c d : list A) :
  x ∉ a → x ∉ c → a ++ x :: b = c ++ x :: d → a = c ∧ b = d.
Proof.
  revert c. induction a as [|y a IH]; intros [|z c] Ha Hc H; simpl in *.
  - naive_solver.
  - injection H as <- _. set_solver.
  - injection H as -> _. set_solver.
  - injection H as -> H. destruct (IH c) as [-> ->]; [set_solver..|done].
Qed.

(** Discharge a decidable proposition about concrete data by evaluation. *)
Ltac by_decide :=
  match goal with |- ?P => refine (bool_decide_unpack P _); vm_compute; exact I end.

(** ** Filtered lists *)

Lemma NoDup_map_filter {X Y} (f : X → Y) (Q : X → Prop) `{!∀ x, Decision (Q x)} (l : list X) :
  NoDup (map f l) → NoDup (map f (filter Q l)).
Proof.
  induction l as [|x l IH]; [done|]. cbn [map]. intros Hnd. apply NoDup_cons in Hnd as [Hx Hl].
  rewrite filter_cons. destruct (decide (Q x)); [|by apply IH]. cbn. constructor; [|by apply IH].
  intros (y & Hy & Hin)%list_elem_of_fmap. apply Hx. apply list_elem_of_fmap. exists y.
  apply list_elem_of_filter in Hin as [_ Hin]. done.
Qed.

(** ** The first of the best *)

(** One step of a search for the first element of the greatest score, among
    those that have one. *)
Definition better {A} (score : A → option Z) (best : option (A * Z)) (x : A) : option (A * Z) :=
  match score x, best with
  | None, _ => best
  | Some s, None => Some (x, s)
  | Some s, Some (_, b) => if b <? s then Some (x, s) else best
  end.
Definition first_best {A} (score : A → option Z) (l : list A) : option A := fst <$> foldl (better score) None l.

Lemma foldl_better_None {A} (score : A → option Z) l :
  foldl (better score) None l = None ↔ ∀ x, x ∈ l → score x = None.
Proof.
  induction l as [|x l IH] using rev_ind; [set_solver|]. rewrite foldl_app. cbn. unfold better at 1.
  destruct (score x) as [s|] eqn:Hs.
  - split; [by destruct (foldl _ _ _) as [[? b]|]; [destruct (b <? s)|]|]. intros H.
    rewrite (H x) in Hs; [done|]. set_solver.
  - rewrite IH. split; [|set_solver]. intros H y [Hy|Hy]%elem_of_app; [by apply H|].
    by apply list_elem_of_singleton in Hy as ->.
Qed.

(** [x] is at place [i] with score [s], and none before it is as good, none after it better. *)
Definition best_at {A} (score : A → option Z) (l : list A) (i : nat) (x : A) (s : Z) : Prop :=
  l !! i = Some x ∧ score x = Some s ∧
  ∀ j y t, l !! j = Some y → score y = Some t → t < s ∨ t = s ∧ (i <= j)%nat.

Lemma lookup_snoc_cases {A} (l : list A) z j y :
  (l ++ [z]) !! j = Some y → l !! j = Some y ∨ j = length l ∧ y = z.
Proof.
  intros [Hj|[Hj Hz]]%lookup_app_Some; [by left|]. right.
  apply list_lookup_singleton_Some in Hz as [Hz ->]. split; [lia|done].
Qed.

Lemma best_at_kept {A} (score : A → option Z) l z i x s :
  best_at score l i x s → (∀ t, score z = Some t → t ≤ s) → best_at score (l ++ [z]) i x s.
Proof.
  intros (Hi & Hs & Hall) Hz. split_and!; [by apply lookup_app_l_Some|done|].
  intros j y t [Hj|[-> ->]]%lookup_snoc_cases Ht; [by apply (Hall j y)|].
  apply lookup_lt_Some in Hi. specialize (Hz t Ht). lia.
Qed.

Lemma best_at_new {A} (score : A → option Z) l z s :
  score z = Some s → (∀ j y t, l !! j = Some y → score y = Some t → t < s) → best_at score (l ++ [z]) (length l) z s.
Proof.
  intros Hs Hall. split_and!; [by apply list_lookup_middle|done|].
  intros j y t [Hj|[-> ->]]%lookup_snoc_cases Ht; [left; by eapply Hall|]. rewrite Hs in Ht. injection Ht as <-. by right.
Qed.

Lemma foldl_better_Some {A} (score : A → option Z) l x s :
  foldl (better score) None l = Some (x, s) → ∃ i, best_at score l i x s.
Proof.
  revert x s. induction l as [|z l IH] using rev_ind; [done|]. intros x s. rewrite foldl_app. cbn.
  unfold better at 1. destruct (score z) as [t|] eqn:Hz.
  - destruct (foldl _ _ _) as [[y b]|] eqn:Hf.
    + destruct (IH _ _ eq_refl) as (i & Hb). destruct (Z.ltb_spec b t); intros [= <- <-].
      * exists (length l). apply best_at_new; [done|]. destruct Hb as (_ & _ & Hall).
        intros j y' u Hj Hu. destruct (Hall j y' u Hj Hu); lia.
      * exists i. apply best_at_kept; [done|]. intros u. rewrite Hz. intros [= <-]. done.
    + intros [= <- <-]. exists (length l). apply best_at_new; [done|]. intros j y u Hj%list_elem_of_lookup_2 Hu.
      rewrite foldl_better_None in Hf. by rewrite (Hf y Hj) in Hu.
  - intros Hf. destruct (IH _ _ Hf) as (i & Hb). exists i. apply best_at_kept; [done|]. by rewrite Hz.
Qed.

Lemma best_at_unique {A} (score : A → option Z) l i x s i' x' s' :
  best_at score l i x s → best_at score l i' x' s' → i = i' ∧ x = x' ∧ s = s'.
Proof.
  intros (Hi & Hs & H) (Hi' & Hs' & H'). pose proof (H _ _ _ Hi' Hs'). pose proof (H' _ _ _ Hi Hs).
  assert (i = i') as -> by lia. split_and!; [done|congruence|lia].
Qed.

Lemma first_best_None {A} (score : A → option Z) l : first_best score l = None ↔ ∀ x, x ∈ l → score x = None.
Proof. unfold first_best. rewrite fmap_None. apply foldl_better_None. Qed.

Lemma first_best_Some {A} (score : A → option Z) l x : first_best score l = Some x ↔ ∃ i s, best_at score l i x s.
Proof.
  unfold first_best. split.
  - intros ([y s] & Hf & ->)%fmap_Some. apply foldl_better_Some in Hf as (i & Hb). by exists i, s.
  - intros (i & s & Hb). destruct (foldl _ _ _) as [[y t]|] eqn:Hf.
    + apply foldl_better_Some in Hf as (i' & Hb'). destruct (best_at_unique _ _ _ _ _ _ _ _ Hb Hb') as (_ & -> & _). done.
    + destruct Hb as (Hi & Hs & _). apply list_elem_of_lookup_2 in Hi.
      rewrite foldl_better_None in Hf. by rewrite (Hf x Hi) in Hs.
Qed.
