(* ===== verification/Crypto.v ===== *)
(** * The vgi_rpc library the sources are written against

    [vgi_rpc::crypto] and [vgi_rpc::AuthContext] come from another repository.
    The functions the sources call are the fields of the class [Crypto] and
    [Base64url]; what the sources rely on is the laws of [CryptoLaws] and
    [Base64urlLaws].  [toy_crypto] and [hex_base64url] are concrete instances
    that satisfy the laws; the witnesses of the theorems run on them. *)

From S2P Require Import Prelude.

Definition kAeadNonceBytes : nat := 24.
Definition kAeadTagBytes : nat := 16.
Definition kAeadKeyBytes : nat := 32.

(** [aead_seal_with_nonce key plaintext aad nonce] is [nonce || ciphertext ||
    tag].  The library's [aead_seal] draws the nonce from the OS; a caller of
    it is modelled with the nonce as an argument. *)
Class Crypto := {
  sha256 : bytes → bytes;
  aead_seal_with_nonce : bytes → bytes → bytes → bytes → bytes;
  aead_open : bytes → bytes → bytes → option bytes;
}.

(** The documented behaviour of SHA-256 (32-byte digests) and of
    XChaCha20-Poly1305: what was sealed opens under the same key and AAD, a
    sealed text is 40 bytes longer than the plaintext, and -- encryption and
    tag being functions of key, nonce, plaintext and AAD -- whatever opens is
    the sealed text of what it opens to, for the nonce it starts with. *)
Class CryptoLaws (C : Crypto) : Prop := {
  sha256_length m : length (sha256 m) = 32%nat;
  aead_open_seal key pt aad nonce :
    length nonce = kAeadNonceBytes →
    aead_open key (aead_seal_with_nonce key pt aad nonce) aad = Some pt;
  aead_seal_length key pt aad nonce :
    length nonce = kAeadNonceBytes →
    length (aead_seal_with_nonce key pt aad nonce) =
      (kAeadNonceBytes + length pt + kAeadTagBytes)%nat;
  aead_open_inv key c aad pt :
    aead_open key c aad = Some pt →
    ∃ nonce, length nonce = kAeadNonceBytes ∧ c = aead_seal_with_nonce key pt aad nonce;
}.

(** An AEAD forgery: a sealed text that opens under an AAD it was not sealed
    with.  Theorems about who can open a value say that either the right
    caller opens it or this has happened. *)
Definition aead_forgery `{Crypto} : Prop :=
  ∃ key pt aad aad' nonce, aad ≠ aad' ∧ length nonce = kAeadNonceBytes ∧
    is_Some (aead_open key (aead_seal_with_nonce key pt aad nonce) aad').

(** [base64url_encode] and [base64url_decode]: unpadded RFC 4648 base64url. *)
Class Base64url := {
  base64url_encode : bytes → bytes;
  base64url_decode : bytes → option bytes;
}.

Definition b64url_char (c : ascii) : bool :=
  let z := bz c in
  bool_decide (48 ≤ z ≤ 57) || bool_decide (65 ≤ z ≤ 90) || bool_decide (97 ≤ z ≤ 122)
  || bool_decide (z = 45) || bool_decide (z = 95).

Class Base64urlLaws (B : Base64url) : Prop := {
  base64url_decode_encode x : base64url_decode (base64url_encode x) = Some x;
  base64url_alphabet x : forallb b64url_char (base64url_encode x) = true;
  base64url_length x : Z.of_nat (length (base64url_encode x)) mod 4 ≠ 1;
  base64url_nonempty x : x ≠ [] → base64url_encode x ≠ [];
}.

(** The caller of an RPC ([vgi_rpc::AuthContext]). *)
Record AuthContext := mkAuth {
  authenticated : bool;
  domain : bytes;
  principal : option bytes;
}.

Definition anonymous : AuthContext := mkAuth false [] None.

(** [std::string("\0anonymous", 10)] for an anonymous caller, else
    [0x01 domain 0x00 principal].  Both [split_token.cpp] and [opaque_seal.cpp]
    define this function; the sealed values of both carry it in their AAD. *)
Definition caller_tail (auth : AuthContext) : bytes :=
  if negb (authenticated auth) then NUL :: bs "anonymous"
  else [zb 1] ++ domain auth ++ [NUL] ++ default [] (principal auth).

Definition nul_free (b : bytes) : Prop := NUL ∉ b.
#[global] Instance nul_free_dec b : Decision (nul_free b).
Proof. unfold nul_free. apply _. Defined.

(** Two callers are the same to a sealed value when both are anonymous or both
    are authenticated with the same domain and principal. *)
Definition same_caller (a b : AuthContext) : Prop :=
  authenticated a = authenticated b ∧
  (authenticated a = true → domain a = domain b ∧ default [] (principal a) = default [] (principal b)).

Lemma nul_split_inj (a b c d : bytes) :
  nul_free a → nul_free c → a ++ NUL :: b = c ++ NUL :: d → a = c ∧ b = d.
Proof. apply split_inj. Qed.

Lemma caller_tail_inj a b :
  nul_free (domain a) → nul_free (domain b) →
  caller_tail a = caller_tail b → same_caller a b.
Proof.
  unfold caller_tail, same_caller.
  destruct (authenticated a), (authenticated b); simpl; intros Ha Hb H;
    try (exfalso; discriminate H); [|done].
  injection H as H. apply nul_split_inj in H; naive_solver.
Qed.

Lemma nul_free_nil : nul_free [].
Proof. unfold nul_free. set_solver. Qed.

(** ** Concrete instances *)

(** A toy AEAD: the plaintext in clear between the nonce and a checksum of
    key, AAD and plaintext.  It satisfies the laws, and hides nothing. *)
Definition checksum (n : nat) (b : bytes) : bytes :=
  le_bytes n (fold_left (λ acc c, (acc * 257 + bz c + 1) mod 2 ^ 256) b 7).

Definition toy_seal (key pt aad nonce : bytes) : bytes :=
  nonce ++ pt ++ checksum kAeadTagBytes (key ++ le_bytes 8 (Z.of_nat (length aad)) ++ aad ++ pt ++ nonce).

Definition toy_open (key c aad : bytes) : option bytes :=
  let nonce := take kAeadNonceBytes c in
  let pt := take (length c - 40)%nat (drop kAeadNonceBytes c) in
  if bool_decide (40 ≤ length c)%nat && bool_decide (c = toy_seal key pt aad nonce)
  then Some pt else None.

Definition toy_crypto : Crypto :=
  {| sha256 := checksum 32; aead_seal_with_nonce := toy_seal; aead_open := toy_open |}.

Lemma toy_seal_length key pt aad nonce :
  length nonce = kAeadNonceBytes →
  length (toy_seal key pt aad nonce) = (kAeadNonceBytes + length pt + kAeadTagBytes)%nat.
Proof.
  intros H. unfold toy_seal, checksum. rewrite !length_app, le_bytes_length. lia.
Qed.

Lemma toy_open_seal key pt aad nonce :
  length nonce = kAeadNonceBytes →
  toy_open key (toy_seal key pt aad nonce) aad = Some pt.
Proof.
  intros H. unfold toy_open. rewrite toy_seal_length by done.
  assert (take kAeadNonceBytes (toy_seal key pt aad nonce) = nonce) as -> by by apply take_app_len.
  assert (drop kAeadNonceBytes (toy_seal key pt aad nonce) = drop kAeadNonceBytes
    (nonce ++ pt ++ checksum kAeadTagBytes (key ++ le_bytes 8 (Z.of_nat (length aad)) ++ aad ++ pt ++ nonce)))
    as -> by done.
  rewrite drop_app_len by done. rewrite take_app_len by (unfold kAeadNonceBytes, kAeadTagBytes; lia).
  rewrite !bool_decide_true; [done|done|unfold kAeadNonceBytes, kAeadTagBytes; lia].
Qed.

#[global] Instance toy_crypto_laws : CryptoLaws toy_crypto.
Proof.
  split; simpl.
  - done.
  - apply toy_open_seal.
  - apply toy_seal_length.
  - intros key c aad pt. unfold toy_open.
    destruct (bool_decide _) eqn:H1; [|done]. simpl.
    destruct (bool_decide (c = _)) eqn:H2; [|done].
    apply bool_decide_eq_true in H1, H2. intros [= <-].
    eexists. split; [|exact H2]. rewrite length_take. unfold kAeadNonceBytes. lia.
Qed.

(** Lower-case hexadecimal stands in for base64url: the same laws. *)
Definition hex_digit (z : Z) : ascii := if z <? 10 then zb (48 + z) else zb (87 + z).
Definition hex_value (c : ascii) : option Z :=
  let z := bz c in
  if (48 <=? z) && (z <=? 57) then Some (z - 48)
  else if (97 <=? z) && (z <=? 102) then Some (z - 87) else None.

Definition hex_encode (b : bytes) : bytes :=
  concat (map (λ c, [hex_digit (Z.shiftr (bz c) 4); hex_digit (Z.land (bz c) 15)]) b).

Fixpoint hex_decode (b : bytes) : option bytes :=
  match b with
  | [] => Some []
  | c :: d :: r =>
      x ← hex_value c; y ← hex_value d; r ← hex_decode r; Some (zb (16 * x + y) :: r)
  | _ => None
  end.

Lemma hex_digits_of c :
  hex_value (hex_digit (Z.shiftr (bz c) 4)) = Some (Z.shiftr (bz c) 4) ∧
  hex_value (hex_digit (Z.land (bz c) 15)) = Some (Z.land (bz c) 15) ∧
  zb (16 * Z.shiftr (bz c) 4 + Z.land (bz c) 15) = c ∧
  b64url_char (hex_digit (Z.shiftr (bz c) 4)) = true ∧
  b64url_char (hex_digit (Z.land (bz c) 15)) = true.
Proof. destruct c as [[] [] [] [] [] [] [] []]; vm_compute; done. Qed.

Lemma hex_decode_encode b : hex_decode (hex_encode b) = Some b.
Proof.
  induction b as [|c b IH]; [done|].
  destruct (hex_digits_of c) as (H1 & H2 & H3 & _).
  change (hex_encode (c :: b)) with
    (hex_digit (Z.shiftr (bz c) 4) :: hex_digit (Z.land (bz c) 15) :: hex_encode b).
  cbn [hex_decode]. rewrite H1, H2. simpl. rewrite IH. simpl. by rewrite H3.
Qed.

Lemma hex_encode_length b : length (hex_encode b) = (2 * length b)%nat.
Proof. unfold hex_encode. induction b; simpl; lia. Qed.

Definition hex_base64url : Base64url :=
  {| base64url_encode := hex_encode; base64url_decode := hex_decode |}.

#[global] Instance hex_base64url_laws : Base64urlLaws hex_base64url.
Proof.
  split; simpl.
  - apply hex_decode_encode.
  - intros x. induction x as [|c x IH]; [done|].
    destruct (hex_digits_of c) as (_ & _ & _ & H1 & H2).
    change (hex_encode (c :: x)) with
      (hex_digit (Z.shiftr (bz c) 4) :: hex_digit (Z.land (bz c) 15) :: hex_encode x).
    cbn [forallb]. by rewrite H1, H2.
  - intros x. rewrite hex_encode_length, Nat2Z.inj_mul.
    intros H. pose proof (Z.div_mod (Z.of_nat 2 * Z.of_nat (length x)) 4 ltac:(lia)). lia.
  - intros [|c x]; done.
Qed.
