(* ===== verification/SplitToken.v ===== *)
(** * Split tokens ([src/split_token.cpp], [src/split_token.h])

    The envelope a worker puts around a scan split.  [build] stamps a payload,
    [open] verifies a token; both are modelled whole, with the AEAD of
    [Crypto].  The theorems: [open] returns a payload exactly on the tokens
    [build] makes for the same bind, snapshot, key and caller; the snapshot
    error means exactly a token of this bind under another anchor; a sealed
    token opens for no other caller; and the bind identity that is hashed is
    unambiguous when its fields hold no NUL byte, and ambiguous otherwise. *)

From S2P Require Import Prelude Crypto.

Module SplitToken.

Definition kFormatVersion : Z := 1.
Definition kFlagPayloadSealed : Z := 1.
Definition kFingerprintLen : nat := 16.
Definition kHeaderLen : nat := 4 + kFingerprintLen.
Definition kAadPrefix : bytes := bs "vgi.split_token.v1".
Definition kSealVersion : ascii := zb 1.

(** ** Operations *)

(** What [feed] puts into the hash for one labelled field. *)
Definition feed (label : string) (value : bytes) : bytes :=
  bs label ++ [NUL] ++ value ++ [NUL].

Definition put_u16_le (v : Z) : bytes := [zb (Z.land v 255); zb (Z.land (Z.shiftr v 8) 255)].

Definition identity_tail (auth : AuthContext) : bytes :=
  if negb (authenticated auth) then NUL :: bs "anonymous"
  else
    let out := [zb 1] ++ domain auth ++ [NUL] in
    match principal auth with Some p => out ++ p | None => out end.

Definition token_aad (body : bytes) (auth : AuthContext) : bytes := body ++ identity_tail auth.

(** The bytes [bind_fingerprint] hashes. *)
Definition bind_message (schema_path : list bytes) (function_name arguments settings : bytes) : bytes :=
  kAadPrefix ++ [NUL] ++ concat (map (feed "schema_path") schema_path) ++
  feed "function_name" function_name ++ feed "arguments" arguments ++ feed "settings" settings.

Definition bind_fingerprint `{Crypto} (schema_path : list bytes)
    (function_name arguments settings : bytes) : bytes :=
  take kFingerprintLen (sha256 (bind_message schema_path function_name arguments settings)).

Definition anchor_for (catalog_version : option Z) : bytes :=
  le_bytes 8 (to_uint64 (default 0 catalog_version)).

(** Version, flags, anchor length, fingerprint and anchor: what [build] has
    written when it comes to the payload. *)
Definition header (sealed : bool) (fingerprint anchor : bytes) : bytes :=
  zb kFormatVersion :: zb (if sealed then kFlagPayloadSealed else 0) ::
  put_u16_le (Z.of_nat (length anchor)) ++ fingerprint ++ anchor.

Definition build `{Crypto} (payload fingerprint anchor : bytes) (signing_key : option bytes)
    (auth : AuthContext) (nonce : bytes) : result bytes :=
  throw_if (negb (length fingerprint =? kFingerprintLen)%nat)
    (Invalid_argument "split token: fingerprint must be 16 bytes");;
  throw_if (65535 <? Z.of_nat (length anchor))
    (Invalid_argument "split token: consistency anchor exceeds u16");;
  let out := header (bool_decide (is_Some signing_key)) fingerprint anchor in
  match signing_key with
  | Some key =>
      let aad := token_aad out auth in
      Ok (out ++ [kSealVersion] ++ aead_seal_with_nonce key payload aad nonce)
  | None => Ok (out ++ payload)
  end.

Inductive OpenError := NoError | Invalid | SnapshotExpired.
#[global] Instance OpenError_eq_dec : EqDecision OpenError.
Proof. solve_decision. Defined.

Record OpenResult := mkOpen { payload : option bytes; error : OpenError }.
#[global] Instance OpenResult_eq_dec : EqDecision OpenResult.
Proof. solve_decision. Defined.

Definition byte_at (token : bytes) (i : nat) : Z := from_option bz 0 (token !! i).

Definition open `{Crypto} (token expected_fingerprint current_anchor : bytes)
    (signing_key : option bytes) (auth : AuthContext) : OpenResult :=
  let invalid := mkOpen None Invalid in
  if (length token <? kHeaderLen)%nat then invalid else
  if negb (byte_at token 0 =? kFormatVersion) then invalid else
  let flags := byte_at token 1 in
  if negb (Z.land flags (Z.lnot kFlagPayloadSealed) =? 0) then invalid else
  let sealed := negb (Z.land flags kFlagPayloadSealed =? 0) in
  if negb (Bool.eqb (bool_decide (is_Some signing_key)) sealed) then invalid else
  let anchor_len := Z.to_nat (Z.lor (byte_at token 2) (Z.shiftl (byte_at token 3) 8)) in
  let end_of_anchor := (kHeaderLen + anchor_len)%nat in
  if (length token <? end_of_anchor)%nat then invalid else
  let fingerprint := take kFingerprintLen (drop 4 token) in
  if negb (bool_decide (fingerprint = expected_fingerprint)) then invalid else
  if negb (anchor_len =? length current_anchor)%nat
     || negb (bool_decide (take anchor_len (drop kHeaderLen token) = current_anchor))
  then mkOpen None SnapshotExpired else
  let payload := drop end_of_anchor token in
  match signing_key with
  | Some key =>
      match payload with
      | c :: rest =>
          if negb (bool_decide (c = kSealVersion)) then invalid else
          match aead_open key rest (token_aad (take end_of_anchor token) auth) with
          | None => invalid
          | Some opened => mkOpen (Some opened) NoError
          end
      | [] => invalid
      end
  | None => mkOpen (Some payload) NoError
  end.

(** ** Lemmas *)

Lemma identity_tail_caller auth : identity_tail auth = caller_tail auth.
Proof.
  unfold identity_tail, caller_tail. destruct (authenticated auth); [|done].
  simpl. destruct (principal auth); simpl; rewrite <- ?app_assoc; by rewrite ?app_nil_r.
Qed.

Lemma put_u16_le_bytes v : put_u16_le v = le_bytes 2 v.
Proof. done. Qed.

Lemma header_length sealed fp anchor :
  length fp = kFingerprintLen →
  length (header sealed fp anchor) = (kHeaderLen + length anchor)%nat.
Proof. intros H. unfold header. cbn [length put_u16_le app]. rewrite length_app, H. unfold kHeaderLen. lia. Qed.

Lemma flags_cases (c : ascii) :
  Z.land (bz c) (Z.lnot 1) = 0 → c = zb (if Z.land (bz c) 1 =? 0 then 0 else 1).
Proof. destruct c as [[] [] [] [] [] [] [] []]; vm_compute; congruence. Qed.

Lemma flags_header (b : bool) :
  Z.land (bz (zb (if b then 1 else 0))) (Z.lnot 1) = 0 ∧
  negb (Z.land (bz (zb (if b then 1 else 0))) 1 =? 0) = b.
Proof. by destruct b. Qed.

Lemma u16_read a b n :
  0 ≤ n < 65536 → [a; b] = put_u16_le n → Z.lor (bz a) (Z.shiftl (bz b) 8) = n.
Proof.
  intros Hn H. pose proof (le_value_le_bytes 2 n) as Hl. rewrite put_u16_le_bytes in H.
  rewrite <- H, !le_value_cons in Hl. rewrite lor_byte by apply bz_range.
  simpl in Hl. change (256 ^ Z.of_nat 2) with 65536 in Hl.
  rewrite Z.mod_small in Hl by done. lia.
Qed.

Lemma u16_write a b : put_u16_le (Z.lor (bz a) (Z.shiftl (bz b) 8)) = [a; b].
Proof.
  pose proof (le_bytes_le_value [a; b]) as H. cbn [length] in H.
  rewrite put_u16_le_bytes, <- H at 1. do 2 f_equal.
  rewrite !le_value_cons, lor_byte by apply bz_range. simpl. lia.
Qed.

Lemma u16_range a b : 0 ≤ Z.lor (bz a) (Z.shiftl (bz b) 8) < 65536.
Proof. rewrite lor_byte by apply bz_range. pose proof (bz_range a). pose proof (bz_range b). lia. Qed.

(** What [open] does with the part of a token after a well-formed header. *)
Definition open_payload `{Crypto} (hdr rest : bytes) (signing_key : option bytes)
    (auth : AuthContext) : OpenResult :=
  match signing_key with
  | Some key =>
      match rest with
      | c :: rest =>
          if negb (bool_decide (c = kSealVersion)) then mkOpen None Invalid else
          match aead_open key rest (token_aad hdr auth) with
          | None => mkOpen None Invalid
          | Some opened => mkOpen (Some opened) NoError
          end
      | [] => mkOpen None Invalid
      end
  | None => mkOpen (Some rest) NoError
  end.

Lemma open_header `{Crypto} sealed fp anchor rest fp' cur key auth :
  length fp = kFingerprintLen → Z.of_nat (length anchor) ≤ 65535 →
  open (header sealed fp anchor ++ rest) fp' cur key auth =
    if negb (Bool.eqb (bool_decide (is_Some key)) sealed) then mkOpen None Invalid
    else if negb (bool_decide (fp = fp')) then mkOpen None Invalid
    else if negb (bool_decide (anchor = cur)) then mkOpen None SnapshotExpired
    else open_payload (header sealed fp anchor) rest key auth.
Proof.
  intros Hfp Han. pose proof (header_length sealed fp anchor Hfp) as Hlen.
  unfold open. set (tok := header sealed fp anchor ++ rest).
  assert (length tok = (kHeaderLen + length anchor + length rest)%nat) as Htok
    by (unfold tok; rewrite length_app; lia).
  assert (byte_at tok 0 = 1) as -> by done.
  assert (byte_at tok 1 = bz (zb (if sealed then 1 else 0))) as -> by done.
  destruct (flags_header sealed) as [Hf1 Hf2].
  change kFlagPayloadSealed with 1. rewrite Hf1, Hf2.
  set (alen := Z.to_nat _).
  assert (alen = length anchor) as ->.
  { unfold alen. cbn [byte_at]. unfold byte_at. cbn.
    rewrite (u16_read _ _ (Z.of_nat (length anchor))); [lia|lia|done]. }
  rewrite (proj2 (Nat.ltb_ge _ _)) by lia. rewrite (proj2 (Nat.ltb_ge _ _)) by lia.
  assert (take kFingerprintLen (drop 4 tok) = fp) as ->.
  { unfold tok, header. cbn [drop app put_u16_le]. rewrite <- app_assoc. by apply take_app_len. }
  assert (take (kHeaderLen + length anchor) tok = header sealed fp anchor) as ->
    by by apply take_app_len.
  assert (drop (kHeaderLen + length anchor) tok = rest) as -> by by apply drop_app_len.
  assert (take (length anchor) (drop kHeaderLen tok) = anchor) as ->.
  { unfold tok, header. cbn [drop app put_u16_le kHeaderLen Nat.add].
    rewrite <- app_assoc, drop_app_len by done. by apply take_app_len. }
  change (negb (1 =? kFormatVersion)) with false. change (negb (0 =? 0)) with false. cbv iota.
  destruct (negb (Bool.eqb _ _)); [done|]. destruct (negb (bool_decide (fp = fp'))); [done|].
  destruct (decide (anchor = cur)) as [->|Hne].
  - rewrite Nat.eqb_refl, !bool_decide_true by done. done.
  - rewrite (bool_decide_false (anchor = cur)) by done. by rewrite orb_true_r.
Qed.

Lemma open_shape `{Crypto} token fp' cur key auth :
  open token fp' cur key auth = mkOpen None Invalid ∨
  ∃ sealed fp anchor rest, token = header sealed fp anchor ++ rest ∧
    length fp = kFingerprintLen ∧ Z.of_nat (length anchor) ≤ 65535.
Proof.
  unfold open. destruct (length token <? kHeaderLen)%nat eqn:Hl; [by left|].
  apply Nat.ltb_ge in Hl. unfold kHeaderLen, kFingerprintLen in Hl.
  destruct token as [|v [|f [|a [|b r]]]]; try (simpl in Hl; lia).
  unfold byte_at. cbn [lookup list_lookup from_option].
  destruct (negb (bz v =? kFormatVersion)) eqn:Hv; [by left|].
  destruct (negb (Z.land (bz f) (Z.lnot kFlagPayloadSealed) =? 0)) eqn:Hf; [by left|].
  destruct (negb (Bool.eqb _ _)); [by left|].
  set (n := Z.lor _ _) in *. pose proof (u16_range a b) as Hn. fold n in Hn.
  destruct (_ <? kHeaderLen + Z.to_nat n)%nat eqn:Hl2; [by left|].
  apply Nat.ltb_ge in Hl2. cbn [length] in Hl, Hl2. unfold kHeaderLen, kFingerprintLen in Hl2.
  right. exists (negb (Z.land (bz f) 1 =? 0)), (take 16 r), (take (Z.to_nat n) (drop 16 r)),
    (drop (Z.to_nat n) (drop 16 r)).
  assert (length (take (Z.to_nat n) (drop 16 r)) = Z.to_nat n) as Hlen
    by (rewrite length_take, length_drop; lia).
  split_and!; [|rewrite length_take; unfold kFingerprintLen; lia|lia].
  unfold header. rewrite Hlen, Z2Nat.id by lia.
  apply negb_false_iff, Z.eqb_eq in Hv, Hf. change kFlagPayloadSealed with 1 in *.
  rewrite (flags_cases f) at 1 by done. rewrite <- (zb_bz v), Hv.
  subst n. rewrite u16_write. cbn [app]. repeat f_equal.
  - by destruct (_ =? _).
  - by rewrite <- app_assoc, !take_drop.
Qed.

Lemma build_Ok `{Crypto} p fp anchor key auth nonce token :
  build p fp anchor key auth nonce = Ok token ↔
  length fp = kFingerprintLen ∧ Z.of_nat (length anchor) ≤ 65535 ∧
  token = header (bool_decide (is_Some key)) fp anchor ++
    match key with
    | Some k => [kSealVersion] ++ aead_seal_with_nonce k p
        (token_aad (header (bool_decide (is_Some key)) fp anchor) auth) nonce
    | None => p
    end.
Proof.
  unfold build. rewrite bind_Ok. split.
  - intros (u & H1 & H2). apply throw_if_Ok, negb_false_iff, Nat.eqb_eq in H1.
    apply bind_Ok in H2 as (u' & H2 & H3). apply throw_if_Ok, Z.ltb_ge in H2.
    destruct key; naive_solver.
  - intros (H1 & H2 & ->). exists tt. rewrite throw_if_Ok, H1. split; [done|].
    apply bind_Ok. exists tt. rewrite throw_if_Ok. split; [by apply Z.ltb_ge|].
    by destruct key.
Qed.

Lemma open_payload_Some `{C : Crypto} `{!CryptoLaws C} hdr rest key auth p :
  (open_payload hdr rest key auth = mkOpen (Some p) NoError) ↔
  ∃ nonce, length nonce = kAeadNonceBytes ∧
    rest = match key with
           | Some k => [kSealVersion] ++ aead_seal_with_nonce k p (token_aad hdr auth) nonce
           | None => p
           end.
Proof.
  unfold open_payload. split.
  - destruct key as [k|].
    + destruct rest as [|c rest]; [done|]. case_bool_decide as Hc; [|done]. simpl.
      destruct (aead_open _ _ _) as [p'|] eqn:Ho; [|done]. intros [= ->].
      apply aead_open_inv in Ho as (nonce & Hn & ->). exists nonce. by subst.
    + intros [= ->]. by exists (replicate kAeadNonceBytes NUL).
  - intros (nonce & Hn & ->). destruct key as [k|]; [|done]. cbn [app].
    rewrite bool_decide_true by done. simpl. by rewrite aead_open_seal.
Qed.

Lemma open_payload_not_expired `{Crypto} hdr rest key auth :
  error (open_payload hdr rest key auth) ≠ SnapshotExpired.
Proof.
  unfold open_payload. destruct key, rest; simpl; try done.
  by case_bool_decide; simpl; [case_match|].
Qed.

(** A tail of labelled fields is unambiguous when no value holds a NUL. *)
Lemma feed_inj label v w (a b : bytes) :
  nul_free v → nul_free w → feed label v ++ a = feed label w ++ b → v = w ∧ a = b.
Proof.
  intros Hv Hw H. unfold feed in H. rewrite <- !app_assoc in H.
  apply app_inv_head in H. cbn [app] in H. injection H as H.
  by apply nul_split_inj in H.
Qed.

Lemma feed_labels_differ v w (a b : bytes) :
  feed "schema_path" v ++ a ≠ feed "function_name" w ++ b.
Proof. intros H. discriminate H. Qed.

Lemma feed_paths_inj (p q : list bytes) f g (a b : bytes) :
  Forall nul_free p → Forall nul_free q →
  concat (map (feed "schema_path") p) ++ feed "function_name" f ++ a =
  concat (map (feed "schema_path") q) ++ feed "function_name" g ++ b →
  p = q ∧ feed "function_name" f ++ a = feed "function_name" g ++ b.
Proof.
  intros Hp. revert q. induction Hp as [|v p Hv Hp IH]; intros q Hq H;
    destruct Hq as [|w q Hw Hq]; cbn [map concat] in H; rewrite <- ?app_assoc in H.
  - done.
  - symmetry in H. by apply feed_labels_differ in H.
  - by apply feed_labels_differ in H.
  - apply feed_inj in H as [-> H]; [|done..]. by apply IH in H as [-> ?].
Qed.

Lemma token_aad_inj hdr auth auth' :
  nul_free (domain auth) → nul_free (domain auth') →
  token_aad hdr auth = token_aad hdr auth' → same_caller auth auth'.
Proof.
  unfold token_aad. rewrite !identity_tail_caller. intros ? ? H.
  apply app_inv_head in H. by apply caller_tail_inj.
Qed.

(** What was built opens where its anchor holds, and has expired elsewhere. *)
Lemma open_build `{C : Crypto} `{!CryptoLaws C} token fp anchor cur key auth nonce p :
  length nonce = kAeadNonceBytes → build p fp anchor key auth nonce = Ok token →
  open token fp cur key auth = if bool_decide (anchor = cur) then mkOpen (Some p) NoError else mkOpen None SnapshotExpired.
Proof.
  intros Hn (Hfp & Han & ->)%build_Ok. rewrite open_header by done.
  rewrite eqb_reflx, (bool_decide_true (fp = fp)) by done. simpl. case_bool_decide; [|done]. subst cur. simpl.
  apply open_payload_Some. by exists nonce.
Qed.

(** ** Properties *)

(** C24.  [open] gives back a payload exactly on the tokens [build] makes of
    that payload for the same fingerprint, anchor, key state and caller: the
    round trip, and that no other byte string is accepted. *)
Theorem open_iff_build `{C : Crypto} `{!CryptoLaws C} token fp anchor key auth p :
  open token fp anchor key auth = mkOpen (Some p) NoError ↔
  ∃ nonce, length nonce = kAeadNonceBytes ∧ build p fp anchor key auth nonce = Ok token.
Proof.
  split.
  - intros H. destruct (open_shape token fp anchor key auth) as
      [Hi|(s & fp' & an & rest & -> & Hfp & Han)]; [congruence|].
    rewrite open_header in H by done.
    destruct (Bool.eqb (bool_decide _) s) eqn:Hs; [|done]. simpl in H.
    case_bool_decide as Hf; [|done]. simpl in H. case_bool_decide as Ha; [|done]. simpl in H.
    apply open_payload_Some in H as (nonce & Hn & Hr). apply eqb_prop in Hs.
    exists nonce. split; [done|]. apply build_Ok. subst. by split_and!.
  - intros (nonce & Hn & Hb). rewrite (open_build _ _ _ _ _ _ nonce p) by done. by rewrite bool_decide_true.
Qed.

(**  [SnapshotExpired] -- the one error a client may answer by planning
    again -- is the result exactly for a token of this bind and key state with
    a different anchor, whatever follows its header. *)
Theorem open_expired_iff `{C : Crypto} token fp current key auth :
  error (open token fp current key auth) = SnapshotExpired ↔
  ∃ anchor rest, anchor ≠ current ∧ length fp = kFingerprintLen ∧
    Z.of_nat (length anchor) ≤ 65535 ∧
    token = header (bool_decide (is_Some key)) fp anchor ++ rest.
Proof.
  split.
  - intros H. destruct (open_shape token fp current key auth) as
      [Hi|(s & fp' & an & rest & -> & Hfp & Han)]; [by rewrite Hi in H|].
    rewrite open_header in H by done.
    destruct (Bool.eqb (bool_decide _) s) eqn:Hs; [|done]. apply eqb_prop in Hs.
    simpl in H. case_bool_decide as Hf; [|done]. simpl in H.
    case_bool_decide as Ha; simpl in H; [by apply open_payload_not_expired in H|].
    exists an, rest. by subst.
  - intros (an & rest & Hne & Hfp & Han & ->). rewrite open_header by done.
    rewrite eqb_reflx, (bool_decide_true (fp = fp)) by done.
    by rewrite (bool_decide_false (an = current)) by done.
Qed.

(**  A token sealed for one caller opens for no other: if it opens under
    [auth'], then [auth'] is the caller it was built for, or the AEAD has been
    forged.  (A domain does not hold a NUL byte.) *)
Theorem open_same_caller `{C : Crypto} `{!CryptoLaws C} token fp anchor k auth auth' nonce p p' :
  nul_free (domain auth) → nul_free (domain auth') → length nonce = kAeadNonceBytes →
  build p fp anchor (Some k) auth nonce = Ok token →
  open token fp anchor (Some k) auth' = mkOpen (Some p') NoError →
  same_caller auth auth' ∨ aead_forgery.
Proof.
  intros Hd Hd' Hn Hb Ho. apply build_Ok in Hb as (Hfp & Han & ->).
  rewrite open_header in Ho by done.
  rewrite eqb_reflx, (bool_decide_true (fp = fp)), (bool_decide_true (anchor = anchor)) in Ho
    by done.
  cbn [negb open_payload app] in Ho. rewrite (bool_decide_true (kSealVersion = kSealVersion)) in Ho by done.
  rewrite (bool_decide_true (is_Some (Some k))) in Ho by done. cbn [negb] in Ho.
  set (hdr := header true fp anchor) in *.
  destruct (aead_open _ _ _) as [q|] eqn:Ha; [|done].
  destruct (decide (token_aad hdr auth = token_aad hdr auth')) as [He|He].
  - left. by eapply token_aad_inj.
  - right. exists k, p, (token_aad hdr auth), (token_aad hdr auth'), nonce.
    split_and!; [done..|]. by rewrite Ha.
Qed.

(**  What is hashed into the bind fingerprint determines the schema path,
    the function and the arguments and settings, when none of the names and
    values before the settings holds a NUL byte. *)
Theorem bind_message_inj p p' f f' a a' s s' :
  Forall nul_free p → Forall nul_free p' → nul_free f → nul_free f' →
  nul_free a → nul_free a' →
  bind_message p f a s = bind_message p' f' a' s' →
  p = p' ∧ f = f' ∧ a = a' ∧ s = s'.
Proof.
  intros Hp Hp' Hf Hf' Ha Ha' H. unfold bind_message in H.
  apply app_inv_head in H. apply app_inv_head in H.
  apply feed_paths_inj in H as [-> H]; [|done..].
  apply feed_inj in H as [-> H]; [|done..]. apply feed_inj in H as [-> H]; [|done..].
  unfold feed in H. apply app_inv_head in H. cbn [app] in H. injection H as H.
  by apply app_inv_tail in H.
Qed.

(**  Without that side condition the framing is ambiguous: two different
    pairs of arguments and settings give one fingerprint, whatever the hash.
    The arguments are an Arrow IPC stream, in which NUL bytes are ordinary. *)
Theorem bind_fingerprint_ambiguous `{C : Crypto} path f :
  ∃ a s a' s', (a, s) ≠ (a', s') ∧
    bind_fingerprint path f a s = bind_fingerprint path f a' s'.
Proof.
  exists (bs "X" ++ [NUL] ++ bs "settings" ++ [NUL] ++ bs "Y"), (bs "Z"),
    (bs "X"), (bs "Y" ++ [NUL] ++ bs "settings" ++ [NUL] ++ bs "Z").
  split; [by intros H; discriminate H|].
  unfold bind_fingerprint, bind_message. do 4 f_equal.
Qed.

(** ** Witnesses *)
#[local] Existing Instance toy_crypto.
Definition demo_fp : bytes := bs "0123456789abcdef".
Definition demo_alice : AuthContext := mkAuth true (bs "login") (Some (bs "alice")).
Definition demo_nonce : bytes := bs "nonce-nonce-nonce-nonce-".
Definition demo_key : bytes := bs "an AEAD key of thirty-two bytes.".
Definition demo_token : bytes :=
  match build (bs "rows 1-9") demo_fp (anchor_for (Some 7)) (Some demo_key) demo_alice demo_nonce with
  | Ok t => t | Throw _ => [] end.

Example open_iff_build_witness :
  open demo_token demo_fp (anchor_for (Some 7)) (Some demo_key) demo_alice
    = mkOpen (Some (bs "rows 1-9")) NoError.
Proof.
  apply (open_iff_build (C := toy_crypto)). exists demo_nonce. split; [reflexivity|].
  vm_compute. reflexivity.
Defined.

Example open_same_caller_witness : same_caller demo_alice demo_alice ∨ aead_forgery.
Proof.
  apply (open_same_caller (C := toy_crypto) demo_token demo_fp (anchor_for (Some 7)) demo_key
    demo_alice demo_alice demo_nonce (bs "rows 1-9") (bs "rows 1-9")).
  - by_decide.
  - by_decide.
  - reflexivity.
  - vm_compute. reflexivity.
  - vm_compute. reflexivity.
Defined.

Example bind_message_inj_witness :
  [bs "main"] = [bs "main"] ∧ bs "f" = bs "f" ∧ bs "1" = bs "1" ∧ bs "x" = bs "x".
Proof.
  apply (bind_message_inj [bs "main"] [bs "main"] (bs "f") (bs "f") (bs "1") (bs "1") (bs "x") (bs "x"));
    [by_decide..|reflexivity].
Defined.

End SplitToken.
