(* ===== verification/Utf8.v ===== *)
(** * Strict UTF-8 ([valid_utf8] of [src/attach_ticket.cpp])

    The byte-mask loop the attach-ticket parser runs on every text field, and
    the theorem that it accepts exactly the encodings of sequences of Unicode
    scalar values: no overlong form, no surrogate, nothing past U+10FFFF. *)

From S2P Require Import Prelude.

Module Utf8.

(** ** The loop *)

(** [extra] and the initial [cp] the leading byte selects. *)
Definition lead_byte (c : Z) : option (nat * Z) :=
  if Z.land c 0xE0 =? 0xC0 then Some (1%nat, Z.land c 0x1F)
  else if Z.land c 0xF0 =? 0xE0 then Some (2%nat, Z.land c 0x0F)
  else if Z.land c 0xF8 =? 0xF0 then Some (3%nat, Z.land c 0x07)
  else None.

(** The inner loop over the continuation bytes: the code point and what
    follows it. *)
Fixpoint continuation (extra : nat) (cp : Z) (s : bytes) : option (Z * bytes) :=
  match extra with
  | O => Some (cp, s)
  | S extra =>
      match s with
      | [] => None
      | cc :: s =>
          if negb (Z.land (bz cc) 0xC0 =? 0x80) then None
          else continuation extra (Z.lor (Z.shiftl cp 6) (Z.land (bz cc) 0x3F)) s
      end
  end.

Definition bad_code_point (extra : nat) (cp : Z) : bool :=
  ((extra =? 1)%nat && (cp <? 0x80)) || ((extra =? 2)%nat && (cp <? 0x800)) ||
  ((extra =? 3)%nat && (cp <? 0x10000)) || (0x10FFFF <? cp) ||
  ((0xD800 <=? cp) && (cp <=? 0xDFFF)).

(** [s] is the part of the string from index [i] on; every turn consumes at
    least one byte, so its length is enough fuel. *)
Fixpoint valid_utf8_loop (fuel : nat) (s : bytes) : bool :=
  match fuel, s with
  | _, [] => true
  | O, _ => false
  | S fuel, c :: rest =>
      if bz c <? 0x80 then valid_utf8_loop fuel rest
      else
        match lead_byte (bz c) with
        | None => false
        | Some (extra, cp) =>
            if (length s <=? extra)%nat then false
            else
              match continuation extra cp rest with
              | None => false
              | Some (cp, rest) =>
                  if bad_code_point extra cp then false else valid_utf8_loop fuel rest
              end
        end
  end.

Definition valid_utf8 (s : bytes) : bool := valid_utf8_loop (length s) s.

(** ** Reference: the encoding of a Unicode scalar value *)

Definition scalar_value (cp : Z) : Prop := 0 ≤ cp ≤ 0x10FFFF ∧ ¬ (0xD800 ≤ cp ≤ 0xDFFF).

Definition encode_scalar (cp : Z) : bytes :=
  if cp <? 0x80 then [zb cp]
  else if cp <? 0x800 then [zb (0xC0 + cp / 64); zb (0x80 + cp mod 64)]
  else if cp <? 0x10000 then
    [zb (0xE0 + cp / 4096); zb (0x80 + (cp / 64) mod 64); zb (0x80 + cp mod 64)]
  else
    [zb (0xF0 + cp / 262144); zb (0x80 + (cp / 4096) mod 64); zb (0x80 + (cp / 64) mod 64);
     zb (0x80 + cp mod 64)].

Definition encode_text (cps : list Z) : bytes := concat (map encode_scalar cps).

(** ** Lemmas *)

(** The mask tests, by evaluation over the 256 bytes. *)
Lemma lead_byte_spec c :
  lead_byte (bz c) =
    if (192 <=? bz c) && (bz c <? 224) then Some (1%nat, bz c - 192)
    else if (224 <=? bz c) && (bz c <? 240) then Some (2%nat, bz c - 224)
    else if (240 <=? bz c) && (bz c <? 248) then Some (3%nat, bz c - 240)
    else None.
Proof. destruct c as [[] [] [] [] [] [] [] []]; vm_compute; done. Qed.

Lemma cont_byte_spec c :
  (Z.land (bz c) 0xC0 =? 0x80) = ((128 <=? bz c) && (bz c <? 192)) ∧
  Z.land (bz c) 0x3F = bz c mod 64.
Proof. destruct c as [[] [] [] [] [] [] [] []]; vm_compute; done. Qed.

Lemma cont_step cp c : Z.lor (Z.shiftl cp 6) (Z.land (bz c) 0x3F) = 64 * cp + bz c mod 64.
Proof.
  destruct (cont_byte_spec c) as [_ ->]. rewrite Z.lor_comm, lor_shiftl; [lia|lia|].
  apply Z.mod_pos_bound. lia.
Qed.

Lemma continuation_S extra cp c s :
  continuation (S extra) cp (c :: s) =
    if (128 <=? bz c) && (bz c <? 192)
    then continuation extra (64 * cp + bz c mod 64) s else None.
Proof.
  cbn [continuation]. destruct (cont_byte_spec c) as [-> _]. rewrite cont_step.
  by destruct (_ && _).
Qed.

Lemma zb_bz_eq c z : bz c = z → c = zb z.
Proof. intros <-. symmetry. apply zb_bz. Qed.

Lemma bz_zb_small z : 0 ≤ z < 256 → bz (zb z) = z.
Proof. intros. rewrite bz_zb. by apply Z.mod_small. Qed.

(** More fuel than bytes changes nothing. *)
Lemma continuation_length extra cp s cp' r :
  continuation extra cp s = Some (cp', r) → length s = (extra + length r)%nat.
Proof.
  revert cp s. induction extra as [|e IH]; intros cp s H; simpl in H; [naive_solver|].
  destruct s as [|c s]; [done|]. destruct (negb _); [done|]. apply IH in H. simpl. lia.
Qed.

Lemma valid_utf8_fuel f g s :
  (length s ≤ f)%nat → (length s ≤ g)%nat → valid_utf8_loop f s = valid_utf8_loop g s.
Proof.
  revert g s. induction f as [|f IH]; intros g s Hf Hg.
  - destruct s; [by destruct g|simpl in Hf; lia].
  - destruct s as [|c s]; [by destruct g|]. destruct g as [|g]; [simpl in Hg; lia|].
    simpl in Hf, Hg. cbn [valid_utf8_loop]. destruct (bz c <? 128); [apply IH; lia|].
    destruct (lead_byte (bz c)) as [[e cp]|]; [|done]. destruct (_ <=? e)%nat; [done|].
    destruct (continuation e cp s) as [[cp' r]|] eqn:Hc; [|done].
    apply continuation_length in Hc. destruct (bad_code_point _ _); [done|]. apply IH; lia.
Qed.

Ltac zify_div := Z.div_mod_to_equations; lia.

Lemma bad_code_point_false e cp :
  bad_code_point e cp = false ↔
  (e = 1%nat → 0x80 ≤ cp) ∧ (e = 2%nat → 0x800 ≤ cp) ∧ (e = 3%nat → 0x10000 ≤ cp) ∧
  cp ≤ 0x10FFFF ∧ ¬ (0xD800 ≤ cp ≤ 0xDFFF).
Proof.
  unfold bad_code_point. destruct (Nat.eqb_spec e 1), (Nat.eqb_spec e 2), (Nat.eqb_spec e 3);
    try lia; simpl; rewrite ?orb_false_r, ?orb_false_iff, ?andb_false_iff; lia.
Qed.

(** The sequences the inner loop accepts, by number of continuation bytes. *)
Lemma continuation_inv e cp s cp' r :
  continuation e cp s = Some (cp', r) →
  match e with
  | O => cp' = cp ∧ s = r
  | S e => ∃ c s', s = c :: s' ∧ 128 ≤ bz c < 192 ∧
      continuation e (64 * cp + bz c mod 64) s' = Some (cp', r)
  end.
Proof.
  destruct e as [|e]; [simpl; naive_solver|]. destruct s as [|c s]; [done|].
  rewrite continuation_S. destruct (_ && _) eqn:Hc; [|done]. intros H.
  exists c, s. split_and!; [done|lia..|done].
Qed.

Ltac continuation_inv :=
  repeat match goal with
  | H : continuation _ _ _ = Some _ |- _ =>
      apply continuation_inv in H; cbv beta iota in H;
      first [ destruct H as (? & ? & ? & ? & H) | destruct H as [? ?] ]; subst
  end.

(** One turn of the loop reads one scalar value ... *)
Lemma decode_scalar e cp c s cp' r :
  lead_byte (bz c) = Some (e, cp) →
  continuation e cp s = Some (cp', r) → bad_code_point e cp' = false →
  scalar_value cp' ∧ c :: s = encode_scalar cp' ++ r.
Proof.
  rewrite lead_byte_spec. intros Hl Hc Hb.
  apply bad_code_point_false in Hb as (H1 & H2 & H3 & H4 & H5).
  pose proof (bz_range c) as Hr.
  destruct ((192 <=? bz c) && _) eqn:G1; [|destruct ((224 <=? bz c) && _) eqn:G2;
    [|destruct ((240 <=? bz c) && _) eqn:G3; [|done]]];
    injection Hl as <- <-; continuation_inv; simplify_eq;
    (split; [unfold scalar_value; split; [zify_div|done]|]).
  all: unfold encode_scalar; repeat (case_match; [try zify_div|]); try zify_div.
  all: cbn [app]; repeat (apply (f_equal2 cons); [apply zb_bz_eq; zify_div|]); done.
Qed.

Lemma loop_decode f c s :
  valid_utf8_loop (S f) (c :: s) = true →
  ∃ cp r, scalar_value cp ∧ c :: s = encode_scalar cp ++ r ∧ valid_utf8_loop f r = true.
Proof.
  cbn [valid_utf8_loop]. pose proof (bz_range c).
  destruct (Z.ltb_spec (bz c) 128) as [Hc|Hc].
  { intros Hv. exists (bz c), s. split; [unfold scalar_value; lia|]. split; [|done].
    unfold encode_scalar. rewrite (proj2 (Z.ltb_lt _ _)) by done. by rewrite zb_bz. }
  destruct (lead_byte (bz c)) as [[e cp]|] eqn:Hl; [|done].
  destruct (_ <=? e)%nat; [done|]. destruct (continuation e cp s) as [[cp' r]|] eqn:Hs; [|done].
  destruct (bad_code_point e cp') eqn:Hb; [done|]. intros Hv. exists cp', r.
  by destruct (decode_scalar e cp c s cp' r) as [? ?].
Qed.

(** ... and reads every scalar value in one turn. *)
Lemma lead_byte_zb h e :
  (0 ≤ h < 32 ∧ e = 1%nat) ∨ (0 ≤ h < 16 ∧ e = 2%nat) ∨ (0 ≤ h < 8 ∧ e = 3%nat) →
  lead_byte (bz (zb (match e with 1%nat => 192 | 2%nat => 224 | _ => 240 end + h))) = Some (e, h).
Proof.
  rewrite lead_byte_spec.
  intros [[Hh ->]|[[Hh ->]|[Hh ->]]]; rewrite bz_zb_small by lia;
    repeat (case_match; [try (do 2 f_equal; lia); lia|]); lia.
Qed.

Lemma continuation_zb e cp m s :
  0 ≤ m < 64 →
  continuation (S e) cp (zb (128 + m) :: s) = continuation e (64 * cp + m) s.
Proof.
  intros Hm. rewrite continuation_S, bz_zb_small by lia.
  rewrite (proj2 (andb_true_iff _ _)) by lia.
  f_equal. zify_div.
Qed.

Lemma loop_multi f c s e h cp r :
  128 ≤ bz c → lead_byte (bz c) = Some (e, h) → continuation e h s = Some (cp, r) →
  bad_code_point e cp = false → valid_utf8_loop (S f) (c :: s) = valid_utf8_loop f r.
Proof.
  intros Hc Hl Hs Hb. cbn [valid_utf8_loop].
  rewrite (proj2 (Z.ltb_ge _ _)) by done. rewrite Hl.
  apply continuation_length in Hs as Hlen.
  rewrite (proj2 (Nat.leb_gt _ _)) by (cbn [length]; lia). by rewrite Hs, Hb.
Qed.

Lemma loop_encode f cp r :
  scalar_value cp →
  valid_utf8_loop (S f) (encode_scalar cp ++ r) = valid_utf8_loop f r.
Proof.
  intros [Hr Hs]. unfold encode_scalar.
  destruct (Z.ltb_spec cp 0x80); [|destruct (Z.ltb_spec cp 0x800);
    [|destruct (Z.ltb_spec cp 0x10000)]]; cbn [app].
  - cbn [valid_utf8_loop]. rewrite bz_zb_small by lia. by rewrite (proj2 (Z.ltb_lt _ _)) by lia.
  - apply (loop_multi _ _ _ 1 (cp / 64) cp).
    + rewrite bz_zb_small; zify_div.
    + apply (lead_byte_zb (cp / 64) 1). left. split; [zify_div|done].
    + rewrite continuation_zb by zify_div. cbn [continuation]. do 2 f_equal. zify_div.
    + apply bad_code_point_false. lia.
  - apply (loop_multi _ _ _ 2 (cp / 4096) cp).
    + rewrite bz_zb_small; zify_div.
    + apply (lead_byte_zb (cp / 4096) 2). right; left. split; [zify_div|done].
    + rewrite !continuation_zb by zify_div. cbn [continuation]. do 2 f_equal. zify_div.
    + apply bad_code_point_false. lia.
  - apply (loop_multi _ _ _ 3 (cp / 262144) cp).
    + rewrite bz_zb_small; zify_div.
    + apply (lead_byte_zb (cp / 262144) 3). right; right. split; [zify_div|done].
    + rewrite !continuation_zb by zify_div. cbn [continuation]. do 2 f_equal. zify_div.
    + apply bad_code_point_false. lia.
Qed.

Lemma encode_scalar_length cp : (0 < length (encode_scalar cp))%nat.
Proof. unfold encode_scalar. repeat case_match; simpl; lia. Qed.

Lemma valid_utf8_loop_encode cps f :
  Forall scalar_value cps → (length (encode_text cps) ≤ f)%nat →
  valid_utf8_loop f (encode_text cps) = true.
Proof.
  intros H. revert f. induction H as [|cp cps Hcp H IH]; intros f Hf; [by destruct f|].
  unfold encode_text in *. cbn [map concat] in *. rewrite length_app in Hf.
  pose proof (encode_scalar_length cp). destruct f as [|f]; [lia|].
  rewrite loop_encode by done. apply IH. lia.
Qed.

Lemma valid_utf8_loop_decode f s :
  valid_utf8_loop f s = true → ∃ cps, Forall scalar_value cps ∧ s = encode_text cps.
Proof.
  revert s. induction f as [|f IH]; intros [|c s] Hv; [by exists []|done|by exists []|].
  apply loop_decode in Hv as (cp & r & Hcp & -> & Hv). apply IH in Hv as (cps & Hcps & ->).
  exists (cp :: cps). split; [by constructor|done].
Qed.

(** ** Property *)

(**  [valid_utf8] accepts a byte string exactly when it is the UTF-8
    encoding of a sequence of Unicode scalar values. *)
Theorem valid_utf8_iff s :
  valid_utf8 s = true ↔ ∃ cps, Forall scalar_value cps ∧ s = encode_text cps.
Proof.
  split; [apply valid_utf8_loop_decode|].
  intros (cps & H & ->). by apply valid_utf8_loop_encode.
Qed.

End Utf8.
