(* ===== verification/AttachTicket.v ===== *)
(** * Attach tickets ([src/attach_ticket.cpp], [include/vgi/attach_ticket.h])

    A user's ATTACH sealed so that a runner can replay it.  The payload codec
    ([encode_attach_ticket_payload], the strict [Reader], [decode_payload]),
    [mint_attach_ticket] and [open_attach_ticket] with its normative order of
    checks.  Doubles are IEEE binary64 ([SpecFloat]); a ticket's nonce is an
    argument of [mint]. *)

From Stdlib Require Import SpecFloat.
From S2P Require Import Prelude Crypto Utf8.

Module AttachTicket.

Definition kAadDomain : bytes := bs "vgi.attach_ticket.v1" ++ [NUL].
Definition kMaxText : Z := 0xFFFF.
Definition kAttachTicketPrefix : bytes := bs "vgia1.".
Definition kAttachTicketOption : string := "vgi_attach_ticket".
Definition kAttachTicketEnvelopeVersion : ascii := zb 1.
Definition kAttachTicketMaxOptionsBytes : Z := 16 * 1024.
Definition kAttachTicketMaxChars : Z := 32 * 1024.
Definition kAttachTicketClockSkewSeconds : Z := 60.

Record AttachTicketClaims := mkClaims {
  issued_at : Z;
  expires_at : Z;
  ticket_id : bytes;
  catalog_name : bytes;
  data_version_spec : bytes;
  implementation_version : bytes;
  options_ipc : bytes;
}.
#[global] Instance AttachTicketClaims_eq_dec : EqDecision AttachTicketClaims.
Proof. solve_decision. Defined.

(** ** The payload *)

Definition is_ticket_id (id : bytes) : bool :=
  (length id =? 32)%nat &&
  forallb (λ c, ((48 <=? bz c) && (bz c <=? 57)) || ((97 <=? bz c) && (bz c <=? 102))) id.

Definition put_u16 (value : Z) : bytes := le_bytes 2 value.
Definition put_u32 (value : Z) : bytes := le_bytes 4 value.
Definition put_i64 (value : Z) : bytes := le_bytes 8 (to_uint64 value).

Definition put_text (value : bytes) (field : string) : result bytes :=
  throw_if (kMaxText <? Z.of_nat (length value))
    (Invalid_argument (field +:+ " is longer than 65535 bytes"));;
  Ok (put_u16 (Z.of_nat (length value)) ++ value).

Definition encode_attach_ticket_payload (claims : AttachTicketClaims) : result bytes :=
  throw_if (kAttachTicketMaxOptionsBytes <? Z.of_nat (length (options_ipc claims)))
    (Invalid_argument "options are too large; a ticket carries at most 16384");;
  t1 ← put_text (ticket_id claims) "ticket_id";
  t2 ← put_text (catalog_name claims) "catalog_name";
  t3 ← put_text (data_version_spec claims) "data_version_spec";
  t4 ← put_text (implementation_version claims) "implementation_version";
  Ok (put_i64 (issued_at claims) ++ put_i64 (expires_at claims) ++ t1 ++ t2 ++ t3 ++ t4 ++
      put_u32 (Z.of_nat (length (options_ipc claims))) ++ options_ipc claims).

(** The [Reader]: its state is the part of the payload from [pos_] on. *)
Definition reader (A : Type) : Type := bytes → result (A * bytes).

Definition take_bytes (n : nat) : reader bytes := λ s,
  throw_if (length s <? n)%nat (Attach_ticket_invalid "attach ticket payload is truncated");;
  Ok (take n s, drop n s).

Definition take_le (n : nat) : reader Z := λ s,
  '(b, s) ← take_bytes n s; Ok (le_value b, s).

Definition text : reader bytes := λ s,
  '(len, s) ← take_le 2 s;
  '(value, s) ← take_bytes (Z.to_nat len) s;
  throw_if (negb (Utf8.valid_utf8 value))
    (Attach_ticket_invalid "attach ticket payload is not UTF-8");;
  Ok (value, s).

Definition empty_lifetime (issued expires : Z) : bool :=
  negb (expires =? 0) && (expires <=? issued).

Definition decode_payload (payload : bytes) : result AttachTicketClaims :=
  '(i, s) ← take_le 8 payload;
  '(e, s) ← take_le 8 s;
  '(id, s) ← text s;
  '(name, s) ← text s;
  '(dv, s) ← text s;
  '(iv, s) ← text s;
  '(options_len, s) ← take_le 4 s;
  throw_if (kAttachTicketMaxOptionsBytes <? options_len)
    (Attach_ticket_invalid "attach ticket options exceed 16 KiB");;
  '(opts, s) ← take_bytes (Z.to_nat options_len) s;
  throw_if (negb (length s =? 0)%nat)
    (Attach_ticket_invalid "attach ticket payload has trailing bytes");;
  let claims := mkClaims (to_int64 i) (to_int64 e) id name dv iv opts in
  throw_if (negb (is_ticket_id id))
    (Attach_ticket_invalid "attach ticket id is not 32 lowercase hex");;
  throw_if (length name =? 0)%nat (Attach_ticket_invalid "attach ticket names no catalog");;
  throw_if (empty_lifetime (issued_at claims) (expires_at claims))
    (Attach_ticket_invalid "attach ticket lifetime is empty");;
  Ok claims.

(** ** Keys, AAD, base64url *)

Definition attach_ticket_key `{Crypto} (raw : bytes) : bytes :=
  if (length raw =? kAeadKeyBytes)%nat then raw else sha256 raw.

Definition attach_ticket_aad (principal : bytes) : bytes := kAadDomain ++ principal.

Definition b64url_strict `{Base64url} (text : bytes) : result bytes :=
  let alphabet := negb (length text =? 0)%nat && forallb b64url_char text in
  throw_if (negb alphabet || (Z.of_nat (length text) mod 4 =? 1))
    (Attach_ticket_invalid "attach ticket is not unpadded base64url");;
  match base64url_decode text with
  | Some raw =>
      if bool_decide (base64url_encode raw = text) then Ok raw
      else Throw (Attach_ticket_invalid "attach ticket is not canonical base64url")
  | None => Throw (Attach_ticket_invalid "attach ticket is not canonical base64url")
  end.

(** ** Minting and opening *)

Definition mint_attach_ticket `{Crypto} `{Base64url} (key principal : bytes)
    (claims : AttachTicketClaims) (nonce : bytes) : result bytes :=
  throw_if (length principal =? 0)%nat (Invalid_argument "a ticket needs a principal");;
  throw_if (length (catalog_name claims) =? 0)%nat
    (Invalid_argument "a ticket needs a catalog name");;
  throw_if (negb (is_ticket_id (ticket_id claims)))
    (Invalid_argument "ticket_id must be 32 lowercase hex");;
  throw_if (empty_lifetime (issued_at claims) (expires_at claims))
    (Invalid_argument "expires_at must be 0 or after issued_at");;
  payload ← encode_attach_ticket_payload claims;
  let aad := attach_ticket_aad principal in
  let envelope := kAttachTicketEnvelopeVersion :: aead_seal_with_nonce key payload aad nonce in
  let token := kAttachTicketPrefix ++ base64url_encode envelope in
  throw_if (kAttachTicketMaxChars <? Z.of_nat (length token))
    (Invalid_argument "the ticket would be too long; at most 32768 characters are accepted");;
  Ok token.

Abbreviation double := spec_float.
Definition double_of_Z (z : Z) : double := binary_normalize 53 1024 z 0 false.
Definition double_add (x y : double) : double := SFadd 53 1024 x y.

(** The two comparisons against the clock. *)
Definition not_yet_valid (claims : AttachTicketClaims) (current : double) : bool :=
  SFltb (double_add current (double_of_Z kAttachTicketClockSkewSeconds))
    (double_of_Z (issued_at claims)).
Definition expired (claims : AttachTicketClaims) (current : double) : bool :=
  negb (expires_at claims =? 0) &&
  SFleb (double_add (double_of_Z (expires_at claims)) (double_of_Z kAttachTicketClockSkewSeconds))
    current.

Definition open_attach_ticket `{Crypto} `{Base64url} (key token principal : bytes)
    (current : double) : result AttachTicketClaims :=
  throw_if (negb (bool_decide (take (length kAttachTicketPrefix) token = kAttachTicketPrefix)))
    (Attach_ticket_invalid "not an attach ticket");;
  throw_if (kAttachTicketMaxChars <? Z.of_nat (length token))
    (Attach_ticket_invalid "attach ticket is too long");;
  envelope ← b64url_strict (drop (length kAttachTicketPrefix) token);
  throw_if (length principal =? 0)%nat
    (Attach_ticket_invalid "an anonymous caller cannot redeem an attach ticket");;
  throw_if ((length envelope <? 1 + kAeadNonceBytes + kAeadTagBytes)%nat
            || negb (bool_decide (head envelope = Some kAttachTicketEnvelopeVersion)))
    (Attach_ticket_invalid "attach ticket failed verification");;
  payload ← from_opt (Attach_ticket_invalid "attach ticket failed verification")
    (aead_open key (drop 1 envelope) (attach_ticket_aad principal));
  claims ← decode_payload payload;
  throw_if (not_yet_valid claims current)
    (Attach_ticket_expired "attach ticket is not yet valid");;
  throw_if (expired claims current) (Attach_ticket_expired "attach ticket has expired");;
  Ok claims.

Definition attach_ticket_principal (auth : AuthContext) : bytes :=
  if negb (authenticated auth) then [] else default [] (principal auth).

(** [std::tolower] in the "C" locale. *)
Definition lower_char (c : ascii) : ascii :=
  if (65 <=? bz c) && (bz c <=? 90) then zb (bz c + 32) else c.
Definition lower (s : string) : string := str (map lower_char (bs s)).

Definition is_reserved_attach_option (name : string) : bool :=
  bool_decide (lower name = kAttachTicketOption).

(** ** The codec *)

#[local] Arguments put_u16 : simpl never.
#[local] Arguments put_u32 : simpl never.
#[local] Arguments put_i64 : simpl never.
#[local] Arguments Z.of_nat : simpl never.

Lemma take_bytes_Ok n s b r :
  take_bytes n s = Ok (b, r) ↔ length b = n ∧ s = b ++ r.
Proof.
  unfold take_bytes. rewrite bind_throw_if_Ok, Nat.ltb_ge. split.
  - intros [Hn [= <- <-]]. rewrite length_take, take_drop. split; [lia|done].
  - intros [<- ->]. rewrite length_app. split; [lia|].
    by rewrite take_app_len, drop_app_len.
Qed.

Lemma take_le_Ok n s v r :
  take_le n s = Ok (v, r) ↔ 0 ≤ v < 256 ^ Z.of_nat n ∧ s = le_bytes n v ++ r.
Proof.
  unfold take_le. rewrite bind_pair_Ok. split.
  - intros (b & s' & H & [= <- <-]). apply take_bytes_Ok in H as [<- ->].
    split; [apply le_value_range|]. by rewrite le_bytes_le_value.
  - intros [Hv ->]. exists (le_bytes n v), r. rewrite take_bytes_Ok, le_bytes_length.
    by rewrite le_value_le_bytes, Z.mod_small.
Qed.

Lemma text_Ok s t r :
  text s = Ok (t, r) ↔
  Utf8.valid_utf8 t = true ∧ Z.of_nat (length t) ≤ kMaxText ∧
  s = put_u16 (Z.of_nat (length t)) ++ t ++ r.
Proof.
  unfold text. rewrite bind_pair_Ok. split.
  - intros (n & s1 & H1 & H). apply take_le_Ok in H1 as [Hn ->].
    apply bind_pair_Ok in H as (v & s2 & H2 & H). apply take_bytes_Ok in H2 as [Hl ->].
    apply bind_throw_if_Ok in H as [Hv [= <- <-]]. apply negb_false_iff in Hv.
    split; [done|]. change (256 ^ Z.of_nat 2) with 65536 in Hn. unfold kMaxText, put_u16.
    split; [lia|]. by rewrite Hl, Z2Nat.id by lia.
  - intros (Hv & Hl & ->). unfold kMaxText in Hl. exists (Z.of_nat (length t)), (t ++ r).
    rewrite take_le_Ok. change (256 ^ Z.of_nat 2) with 65536. split; [split; [lia|done]|].
    apply bind_pair_Ok. exists t, r. rewrite take_bytes_Ok, Nat2Z.id. split; [done|].
    by rewrite Hv.
Qed.

Lemma put_text_Ok v f b :
  put_text v f = Ok b ↔
  Z.of_nat (length v) ≤ kMaxText ∧ b = put_u16 (Z.of_nat (length v)) ++ v.
Proof. unfold put_text. rewrite bind_throw_if_Ok, Z.ltb_ge. naive_solver. Qed.

(** The claims a ticket may carry: the field rules of the format. *)
Definition claims_ok (c : AttachTicketClaims) : Prop :=
  is_int64 (issued_at c) ∧ is_int64 (expires_at c) ∧
  is_ticket_id (ticket_id c) = true ∧ catalog_name c ≠ [] ∧
  empty_lifetime (issued_at c) (expires_at c) = false ∧
  Utf8.valid_utf8 (ticket_id c) = true ∧ Utf8.valid_utf8 (catalog_name c) = true ∧
  Utf8.valid_utf8 (data_version_spec c) = true ∧ Utf8.valid_utf8 (implementation_version c) = true.

Lemma encode_Ok c p :
  encode_attach_ticket_payload c = Ok p ↔
  Z.of_nat (length (options_ipc c)) ≤ kAttachTicketMaxOptionsBytes ∧
  Z.of_nat (length (ticket_id c)) ≤ kMaxText ∧ Z.of_nat (length (catalog_name c)) ≤ kMaxText ∧
  Z.of_nat (length (data_version_spec c)) ≤ kMaxText ∧
  Z.of_nat (length (implementation_version c)) ≤ kMaxText ∧
  p = put_i64 (issued_at c) ++ put_i64 (expires_at c) ++
      (put_u16 (Z.of_nat (length (ticket_id c))) ++ ticket_id c) ++
      (put_u16 (Z.of_nat (length (catalog_name c))) ++ catalog_name c) ++
      (put_u16 (Z.of_nat (length (data_version_spec c))) ++ data_version_spec c) ++
      (put_u16 (Z.of_nat (length (implementation_version c))) ++ implementation_version c) ++
      put_u32 (Z.of_nat (length (options_ipc c))) ++ options_ipc c.
Proof.
  unfold encode_attach_ticket_payload. rewrite bind_throw_if_Ok, Z.ltb_ge. split.
  - intros [H0 H]. apply bind_Ok in H as (t1 & H1 & H).
    apply bind_Ok in H as (t2 & H2 & H). apply bind_Ok in H as (t3 & H3 & H).
    apply bind_Ok in H as (t4 & H4 & H). injection H as <-.
    apply put_text_Ok in H1 as [? ->], H2 as [? ->], H3 as [? ->], H4 as [? ->]. done.
  - intros (H0 & H1 & H2 & H3 & H4 & ->). split; [done|].
    do 4 (apply bind_Ok; eexists; split; [by apply put_text_Ok|]). done.
Qed.

Lemma put_i64_read z r v s :
  is_int64 z → take_le 8 (put_i64 z ++ r) = Ok (v, s) ↔ v = to_uint64 z ∧ s = r.
Proof.
  intros Hz. pose proof (Z.mod_pos_bound z (2 ^ 64) ltac:(lia)) as Hm.
  split.
  - intros H. apply take_le_Ok in H as [Hv H].
    apply app_inj_len in H as [H ->]; [|by unfold put_i64; rewrite !le_bytes_length].
    split; [|done]. apply (f_equal le_value) in H. unfold put_i64 in H.
    rewrite !le_value_le_bytes in H. change (256 ^ Z.of_nat 8) with (2 ^ 64) in *.
    rewrite (Z.mod_small v) in H by done. rewrite <- H. unfold to_uint64.
    by rewrite Z.mod_mod by lia.
  - intros [-> ->]. apply take_le_Ok. split; [exact Hm|done].
Qed.

Lemma to_int64_to_uint64 z : is_int64 z → to_int64 (to_uint64 z) = z.
Proof. intros Hz. unfold to_uint64. rewrite to_int64_mod. by apply to_int64_id. Qed.

Lemma put_i64_to_int64 v : 0 ≤ v < 2 ^ 64 → put_i64 (to_int64 v) = le_bytes 8 v.
Proof. intros. unfold put_i64. by rewrite to_uint64_to_int64. Qed.

Lemma decode_sound p c :
  decode_payload p = Ok c → claims_ok c ∧ encode_attach_ticket_payload c = Ok p.
Proof.
  unfold decode_payload. intros H.
  apply bind_pair_Ok in H as (i & s1 & Hi & H). apply bind_pair_Ok in H as (e & s2 & He & H).
  apply bind_pair_Ok in H as (id & s3 & Hid & H). apply bind_pair_Ok in H as (nm & s4 & Hnm & H).
  apply bind_pair_Ok in H as (dv & s5 & Hdv & H). apply bind_pair_Ok in H as (iv & s6 & Hiv & H).
  apply bind_pair_Ok in H as (ol & s7 & Hol & H). apply bind_throw_if_Ok in H as [Hmax H].
  apply bind_pair_Ok in H as (op & s8 & Hop & H).
  do 4 (let G := fresh "G" in apply bind_throw_if_Ok in H as [G H]).
  injection H as <-. cbn [issued_at expires_at] in *.
  apply take_le_Ok in Hi as [Hi ->], He as [He ->], Hol as [Hol ->].
  apply text_Ok in Hid as (? & ? & ->), Hnm as (? & ? & ->), Hdv as (? & ? & ->),
    Hiv as (? & ? & ->). apply take_bytes_Ok in Hop as [Hlop ->].
  apply negb_false_iff in G, G0. apply Nat.eqb_eq, nil_length_inv in G as ->.
  apply Nat.eqb_neq in G1. apply Z.ltb_ge in Hmax.
  change (256 ^ Z.of_nat 8) with (2 ^ 64) in *.
  split.
  - unfold claims_ok. cbn. split_and!; try done; try apply to_int64_range.
    by intros ->.
  - apply encode_Ok. cbn. split_and!; try done; [lia|].
    rewrite !put_i64_to_int64 by done. unfold put_u32. rewrite Hlop, Z2Nat.id by lia.
    rewrite <- !app_assoc. by rewrite app_nil_r.
Qed.

Lemma decode_complete p c :
  claims_ok c → encode_attach_ticket_payload c = Ok p → decode_payload p = Ok c.
Proof.
  intros (Hi & He & Hid & Hnm & Hlt & Hu1 & Hu2 & Hu3 & Hu4) H.
  apply encode_Ok in H as (Ho & H1 & H2 & H3 & H4 & ->).
  unfold decode_payload. rewrite <- !app_assoc.
  apply bind_pair_Ok. do 2 eexists. split; [apply put_i64_read; [done|by split]|].
  apply bind_pair_Ok. do 2 eexists. split; [apply put_i64_read; [done|by split]|].
  do 4 (apply bind_pair_Ok; do 2 eexists; split; [apply text_Ok; split_and!; [| |reflexivity]; done|]).
  apply bind_pair_Ok. exists (Z.of_nat (length (options_ipc c))), (options_ipc c).
  unfold kAttachTicketMaxOptionsBytes in *. split.
  { apply take_le_Ok. change (256 ^ Z.of_nat 4) with 4294967296. split; [lia|done]. }
  apply bind_throw_if_Ok. split; [apply Z.ltb_ge; lia|].
  apply bind_pair_Ok. exists (options_ipc c), []. split.
  { apply take_bytes_Ok. by rewrite Nat2Z.id, app_nil_r. }
  cbn [issued_at expires_at]. rewrite !to_int64_to_uint64 by done.
  rewrite Hid, Hlt. destruct c as [? ? ? [|] ? ? ?]; done.
Qed.

(** ** Minting and opening *)

Lemma b64url_strict_Ok `{B : Base64url} `{!Base64urlLaws B} t raw :
  b64url_strict t = Ok raw ↔ t = base64url_encode raw ∧ t ≠ [].
Proof.
  unfold b64url_strict. rewrite bind_throw_if_Ok. split.
  - intros [Ha H]. destruct (base64url_decode t) as [raw'|]; [|done].
    case_bool_decide as He; [|done]. injection H as ->. split; [done|]. by intros ->.
  - intros [-> Hne]. rewrite base64url_alphabet, base64url_decode_encode.
    rewrite bool_decide_true by done. split; [|done].
    apply orb_false_iff. split.
    + by destruct (base64url_encode raw).
    + apply Z.eqb_neq, base64url_length.
Qed.

Definition mintable (principal : bytes) (c : AttachTicketClaims) : Prop :=
  principal ≠ [] ∧ catalog_name c ≠ [] ∧ is_ticket_id (ticket_id c) = true ∧
  empty_lifetime (issued_at c) (expires_at c) = false.

Lemma length_0_bool {A} (l : list A) : (length l =? 0)%nat = false ↔ l ≠ [].
Proof. by destruct l. Qed.

Lemma mint_Ok `{Crypto} `{Base64url} key pr c nonce token :
  mint_attach_ticket key pr c nonce = Ok token ↔
  mintable pr c ∧ ∃ p, encode_attach_ticket_payload c = Ok p ∧
    token = kAttachTicketPrefix ++ base64url_encode (kAttachTicketEnvelopeVersion ::
      aead_seal_with_nonce key p (attach_ticket_aad pr) nonce) ∧
    Z.of_nat (length token) ≤ kAttachTicketMaxChars.
Proof.
  unfold mint_attach_ticket, mintable. rewrite !bind_throw_if_Ok, !length_0_bool, negb_false_iff.
  rewrite bind_Ok. setoid_rewrite bind_throw_if_Ok. setoid_rewrite Z.ltb_ge. split.
  - intros (? & ? & ? & ? & p & Hp & Hl & [= <-]). split; [done|]. by exists p.
  - intros ((? & ? & ? & ?) & p & Hp & -> & Hl). split_and!; try done. by exists p.
Qed.

(** [open_attach_ticket] up to the clock. *)
Definition unseal `{Crypto} `{Base64url} (key token principal : bytes) : result AttachTicketClaims :=
  throw_if (negb (bool_decide (take (length kAttachTicketPrefix) token = kAttachTicketPrefix)))
    (Attach_ticket_invalid "not an attach ticket");;
  throw_if (kAttachTicketMaxChars <? Z.of_nat (length token))
    (Attach_ticket_invalid "attach ticket is too long");;
  envelope ← b64url_strict (drop (length kAttachTicketPrefix) token);
  throw_if (length principal =? 0)%nat
    (Attach_ticket_invalid "an anonymous caller cannot redeem an attach ticket");;
  throw_if ((length envelope <? 1 + kAeadNonceBytes + kAeadTagBytes)%nat
            || negb (bool_decide (head envelope = Some kAttachTicketEnvelopeVersion)))
    (Attach_ticket_invalid "attach ticket failed verification");;
  payload ← from_opt (Attach_ticket_invalid "attach ticket failed verification")
    (aead_open key (drop 1 envelope) (attach_ticket_aad principal));
  decode_payload payload.

Lemma open_unseal `{Crypto} `{Base64url} key token pr now :
  open_attach_ticket key token pr now =
  (claims ← unseal key token pr;
   throw_if (not_yet_valid claims now) (Attach_ticket_expired "attach ticket is not yet valid");;
   throw_if (expired claims now) (Attach_ticket_expired "attach ticket has expired");;
   Ok claims).
Proof.
  unfold open_attach_ticket, unseal.
  do 2 (match goal with |- mbind _ (throw_if ?b ?e) = _ => destruct (throw_if b e) end;
    [|done]; cbn [mbind result_bind]).
  destruct (b64url_strict _) as [env|]; [|done]. cbn [mbind result_bind].
  do 2 (match goal with |- mbind _ (throw_if ?b ?e) = _ => destruct (throw_if b e) end;
    [|done]; cbn [mbind result_bind]).
  destruct (from_opt _ _); [|done]. cbn [mbind result_bind].
  by destruct (decode_payload _).
Qed.

(** A ticket made for [principal] with these claims. *)
Definition authentic `{Crypto} `{Base64url} (key token principal : bytes)
    (c : AttachTicketClaims) : Prop :=
  claims_ok c ∧
  ∃ nonce, length nonce = kAeadNonceBytes ∧ mint_attach_ticket key principal c nonce = Ok token.

Lemma unseal_Ok `{C : Crypto} `{!CryptoLaws C} `{B : Base64url} `{!Base64urlLaws B} key token pr c :
  unseal key token pr = Ok c ↔ authentic key token pr c.
Proof.
  unfold unseal, authentic. split.
  - intros H. apply bind_throw_if_Ok in H as [Hpre H]. apply bind_throw_if_Ok in H as [Hlen H].
    apply bind_Ok in H as (env & Henv & H). apply bind_throw_if_Ok in H as [Hpr H].
    apply bind_throw_if_Ok in H as [Hv H]. apply bind_Ok in H as (p & Hp & H).
    apply decode_sound in H as [Hc He]. split; [done|].
    apply negb_false_iff, bool_decide_eq_true in Hpre.
    apply b64url_strict_Ok in Henv as [Henv _].
    apply orb_false_iff in Hv as [_ Hv]. apply negb_false_iff, bool_decide_eq_true in Hv.
    apply from_opt_Ok, aead_open_inv in Hp as (nonce & Hn & Hs).
    destruct env as [|v env]; [done|]. injection Hv as ->.
    change (drop 1 (kAttachTicketEnvelopeVersion :: env)) with env in Hs. subst env.
    exists nonce. split; [done|]. apply mint_Ok.
    pose proof Hc as (_ & _ & ? & ? & ? & _).
    split; [by split_and!; [apply length_0_bool|..]|]. exists p. split; [done|].
    rewrite <- Henv. split; [|by apply Z.ltb_ge]. by rewrite <- Hpre at 1; rewrite take_drop.
  - intros (Hc & nonce & Hn & Hm). apply mint_Ok in Hm as ((Hpr & _) & p & Hp & Ht & Hl).
    set (env := _ :: _) in Ht.
    assert (take (length kAttachTicketPrefix) token = kAttachTicketPrefix) as ->
      by (subst token; by apply take_app_len).
    assert (drop (length kAttachTicketPrefix) token = base64url_encode env) as ->
      by (subst token; by apply drop_app_len).
    rewrite bool_decide_true by done. rewrite (proj2 (Z.ltb_ge _ _)) by done.
    cbn [negb throw_if mbind result_bind].
    rewrite (proj2 (b64url_strict_Ok (base64url_encode env) env))
      by (split; [done|by apply base64url_nonempty]).
    cbn [mbind result_bind]. rewrite (proj2 (length_0_bool pr)) by done.
    cbn [throw_if mbind result_bind].
    assert ((length env <? 1 + kAeadNonceBytes + kAeadTagBytes)%nat = false) as ->.
    { apply Nat.ltb_ge. subst env. cbn [length]. rewrite aead_seal_length by done. lia. }
    subst env. cbn [head orb]. rewrite bool_decide_true by done. cbn [negb throw_if mbind result_bind].
    match goal with |- context [drop 1 (?c :: ?l)] => change (drop 1 (c :: l)) with l end.
    rewrite aead_open_seal by done. cbn. by apply decode_complete.
Qed.

(** Everything up to the clock fails with the one [attach_ticket_invalid]. *)
Definition is_invalid (e : exn) : Prop := ∃ d, e = Attach_ticket_invalid d.

#[local] Hint Extern 0 (is_invalid _) => eexists; reflexivity : throws.

Lemma take_bytes_throws n s : throws_only is_invalid (take_bytes n s).
Proof. unfold take_bytes. eauto with throws. Qed.
#[local] Hint Resolve take_bytes_throws : throws.

Lemma take_le_throws n s : throws_only is_invalid (take_le n s).
Proof. unfold take_le. apply throws_only_bind; [auto with throws|]. by intros []. Qed.
#[local] Hint Resolve take_le_throws : throws.

Lemma text_throws s : throws_only is_invalid (text s).
Proof.
  unfold text. apply throws_only_bind; [auto with throws|]. intros [].
  apply throws_only_bind; [auto with throws|]. intros []. eauto with throws.
Qed.
#[local] Hint Resolve text_throws : throws.

Lemma decode_throws p : throws_only is_invalid (decode_payload p).
Proof.
  unfold decode_payload.
  repeat (apply throws_only_bind; [auto with throws|intros []]). done.
Qed.
#[local] Hint Resolve decode_throws : throws.

Lemma b64url_strict_throws `{Base64url} t : throws_only is_invalid (b64url_strict t).
Proof.
  unfold b64url_strict. apply throws_only_bind; [auto with throws|]. intros [].
  destruct (base64url_decode t); [case_bool_decide|]; cbn; auto with throws.
Qed.
#[local] Hint Resolve b64url_strict_throws : throws.

Lemma unseal_throws `{Crypto} `{Base64url} key token pr :
  throws_only is_invalid (unseal key token pr).
Proof.
  unfold unseal. do 6 (apply throws_only_bind; [auto with throws|intros ?]). auto with throws.
Qed.

Lemma text_inj a b x y :
  Z.of_nat (length a) ≤ kMaxText → Z.of_nat (length b) ≤ kMaxText →
  put_u16 (Z.of_nat (length a)) ++ a ++ x = put_u16 (Z.of_nat (length b)) ++ b ++ y →
  a = b ∧ x = y.
Proof.
  intros Ha Hb H. apply app_inj_len in H as [Hl H]; [|by unfold put_u16; rewrite !le_bytes_length].
  apply (f_equal le_value) in Hl. unfold put_u16, kMaxText in *.
  rewrite !le_value_le_bytes in Hl. change (256 ^ Z.of_nat 2) with 65536 in Hl.
  rewrite !Z.mod_small in Hl by lia. by apply app_inj_len in H; [|lia].
Qed.

(** ** Properties *)

(**  The strict parse accepts exactly the encodings of well-formed claims:
    [decode_payload] inverts [encode_attach_ticket_payload], and a payload
    with trailing bytes, a bad length, an ill-formed text or a broken field
    rule is no encoding and is refused. *)
Theorem decode_payload_iff p c :
  decode_payload p = Ok c ↔ claims_ok c ∧ encode_attach_ticket_payload c = Ok p.
Proof.
  split; [apply decode_sound|]. intros [Hc He]. by apply decode_complete.
Qed.

Lemma open_ticket_Ok `{C : Crypto} `{!CryptoLaws C} `{B : Base64url} `{!Base64urlLaws B} key token pr now c :
  open_attach_ticket key token pr now = Ok c ↔
  authentic key token pr c ∧ not_yet_valid c now = false ∧ expired c now = false.
Proof.
  rewrite open_unseal, bind_Ok. setoid_rewrite unseal_Ok. split.
  - intros (c' & Ha & H). rewrite !bind_throw_if_Ok in H. naive_solver.
  - intros (Ha & H1 & H2). exists c. by rewrite H1, H2.
Qed.

(**  [open_attach_ticket] returns claims exactly for the tickets minted
    with these claims, under this key, for this principal, and live now. *)
Theorem open_attach_ticket_iff `{C : Crypto} `{!CryptoLaws C} `{B : Base64url} `{!Base64urlLaws B}
    key token pr now c :
  open_attach_ticket key token pr now = Ok c ↔
  authentic key token pr c ∧ not_yet_valid c now = false ∧ expired c now = false.
Proof. apply open_ticket_Ok. Qed.

(**  Every failure is [attach_ticket_invalid], and the ticket is then of
    no claims for this principal; or [attach_ticket_expired], raised only for
    an authentic ticket of the calling principal outside its lifetime. *)
Theorem open_attach_ticket_errors `{C : Crypto} `{!CryptoLaws C} `{B : Base64url}
    `{!Base64urlLaws B} key token pr now e :
  open_attach_ticket key token pr now = Throw e →
  (is_invalid e ∧ ∀ c, ¬ authentic key token pr c) ∨
  (∃ d c, e = Attach_ticket_expired d ∧ authentic key token pr c ∧
     (not_yet_valid c now = true ∨ expired c now = true)).
Proof.
  rewrite open_unseal. destruct (unseal key token pr) as [c|e'] eqn:Hu; cbn [mbind result_bind].
  - apply unseal_Ok in Hu. rewrite !bind_throw_if_Throw. naive_solver.
  - intros [= ->]. left. pose proof (unseal_throws key token pr) as Ht. rewrite Hu in Ht.
    split; [done|]. intros c Ha. apply unseal_Ok in Ha. congruence.
Qed.

(**  A ticket is bound to its principal by the AAD alone: a caller whose
    principal differs does not open it, unless the AEAD has been forged. *)
Theorem open_attach_ticket_principal `{C : Crypto} `{!CryptoLaws C} `{B : Base64url}
    `{!Base64urlLaws B} key pr pr' c c' nonce token now :
  length nonce = kAeadNonceBytes → mint_attach_ticket key pr c nonce = Ok token →
  open_attach_ticket key token pr' now = Ok c' → pr = pr' ∨ aead_forgery.
Proof.
  intros Hn Hm Ho. destruct (decide (pr = pr')) as [|Hne]; [by left|right].
  apply mint_Ok in Hm as (_ & p & Hp & Ht & _). rewrite open_unseal in Ho.
  apply bind_Ok in Ho as (c2 & Ho & _). apply unseal_Ok in Ho as (_ & nonce' & Hn' & Hm).
  apply mint_Ok in Hm as (_ & p' & Hp' & Ht' & _). rewrite Ht in Ht'.
  apply app_inv_head, (f_equal base64url_decode) in Ht'.
  rewrite !base64url_decode_encode in Ht'. injection Ht' as Ht'.
  exists key, p, (attach_ticket_aad pr), (attach_ticket_aad pr'), nonce.
  split_and!; [|done|].
  - unfold attach_ticket_aad. intros H. by apply app_inv_head in H.
  - rewrite Ht', aead_open_seal by done. by eexists.
Qed.

(**  Minting does not check its texts for UTF-8, and opening does: a
    ticket minted over a text that is not UTF-8 opens for nobody. *)
Theorem mint_not_utf8 `{C : Crypto} `{!CryptoLaws C} `{B : Base64url} `{!Base64urlLaws B}
    key pr c nonce token now :
  length nonce = kAeadNonceBytes → mint_attach_ticket key pr c nonce = Ok token →
  Utf8.valid_utf8 (data_version_spec c) = false →
  ∃ d, open_attach_ticket key token pr now = Throw (Attach_ticket_invalid d).
Proof.
  intros Hn Hm Hu. rewrite open_unseal.
  destruct (unseal key token pr) as [c'|e] eqn:Ho; cbn [mbind result_bind].
  - exfalso. apply unseal_Ok in Ho as (Hc' & nonce' & Hn' & Hm').
    apply mint_Ok in Hm as (Hmt & p & Hp & Ht & _), Hm' as (_ & p' & Hp' & Ht' & _).
    rewrite Ht in Ht'. apply app_inv_head, (f_equal base64url_decode) in Ht'.
    rewrite !base64url_decode_encode in Ht'. injection Ht' as Ht'.
    assert (p = p') as <-.
    { pose proof (aead_open_seal key p (attach_ticket_aad pr) nonce Hn) as H1.
      rewrite Ht', aead_open_seal in H1 by done. by injection H1. }
    apply encode_Ok in Hp as (_ & H1 & H2 & H3 & H4 & ->).
    apply encode_Ok in Hp' as (_ & H1' & H2' & H3' & H4' & He).
    rewrite <- !app_assoc in He.
    do 2 (apply app_inj_len in He as [_ He]; [|by unfold put_i64; rewrite !le_bytes_length]).
    apply text_inj in He as [_ He]; [|done..]. apply text_inj in He as [_ He]; [|done..].
    apply text_inj in He as [He _]; [|done..].
    destruct Hc' as (_ & _ & _ & _ & _ & _ & _ & Hdv & _). congruence.
  - pose proof (unseal_throws key token pr) as Ht. rewrite Ho in Ht. destruct Ht as [d ->].
    by exists d.
Qed.

(** ** Witnesses *)
#[local] Existing Instance toy_crypto.
#[local] Existing Instance hex_base64url.
Definition demo_key : bytes := bs "VGI_SIGNING_KEY".
Definition demo_nonce : bytes := bs "abcdefghijklmnopqrstuvwx".
Definition demo_claims : AttachTicketClaims :=
  mkClaims 1700000000 1700003600 (bs "0123456789abcdef0123456789abcdef") (bs "sales")
    (bs "v1") [] (bs "options").
Definition bad_claims : AttachTicketClaims :=
  mkClaims 1700000000 0 (bs "0123456789abcdef0123456789abcdef") (bs "sales") [zb 255] [] [].
Definition mint_or_nil (c : AttachTicketClaims) : bytes :=
  match mint_attach_ticket demo_key (bs "alice") c demo_nonce with Ok t => t | Throw _ => [] end.

Example open_attach_ticket_iff_witness :
  open_attach_ticket demo_key (mint_or_nil demo_claims) (bs "alice") (double_of_Z 1700000100)
    = Ok demo_claims.
Proof.
  apply (open_attach_ticket_iff (C := toy_crypto) (B := hex_base64url)).
  split; [|by vm_compute].
  split.
  - unfold claims_ok. split_and!; by vm_compute.
  - exists demo_nonce. by vm_compute.
Defined.

Example open_attach_ticket_errors_witness :
  let e := Attach_ticket_expired "attach ticket has expired" in
  (is_invalid e ∧ ∀ c, ¬ authentic demo_key (mint_or_nil demo_claims) (bs "alice") c) ∨
  (∃ d c, e = Attach_ticket_expired d ∧ authentic demo_key (mint_or_nil demo_claims) (bs "alice") c ∧
     (not_yet_valid c (double_of_Z 1700003660) = true ∨ expired c (double_of_Z 1700003660) = true)).
Proof.
  apply (open_attach_ticket_errors (C := toy_crypto) (B := hex_base64url)). by vm_compute.
Defined.

Example open_attach_ticket_principal_witness : bs "alice" = bs "alice" ∨ aead_forgery.
Proof.
  apply (open_attach_ticket_principal (C := toy_crypto) (B := hex_base64url)
    demo_key (bs "alice") (bs "alice") demo_claims demo_claims demo_nonce (mint_or_nil demo_claims)
    (double_of_Z 1700000100)); by vm_compute.
Defined.

Example mint_not_utf8_witness :
  ∃ d, open_attach_ticket demo_key (mint_or_nil bad_claims) (bs "alice") (double_of_Z 1700000100)
    = Throw (Attach_ticket_invalid d).
Proof.
  apply (mint_not_utf8 (C := toy_crypto) (B := hex_base64url) demo_key (bs "alice") bad_claims
    demo_nonce); by vm_compute.
Defined.

End AttachTicket.
