(* ===== verification/Arrow.v ===== *)
(** * The Arrow data the sources read and build

    Apache Arrow is a library the sources call.  Its data are represented
    here: data types, fields, arrays as a type with a list of values, record
    batches.  What the sources call on them that is not plain access -- type
    equality, the lookup of a field by name, the IPC stream reader and writer
    -- is the fields of the class [Arrow], with the documented behaviour the
    sources rely on in [ArrowLaws].  [toy_arrow] is a concrete instance. *)

From Stdlib Require Import SpecFloat.
From S2P Require Import Prelude.

Inductive dtype : Type :=
| T_null | T_bool
| T_int8 | T_int16 | T_int32 | T_int64
| T_uint8 | T_uint16 | T_uint32 | T_uint64
| T_half_float | T_float | T_double
| T_decimal128 (precision scale : Z) | T_decimal256 (precision scale : Z)
| T_string | T_large_string | T_string_view
| T_binary | T_large_binary
| T_date32 | T_date64 | T_time32 (unit : nat) | T_time64 (unit : nat)
| T_timestamp (unit : nat) (zone : string) | T_duration (unit : nat)
| T_interval_months | T_interval_day_time | T_interval_month_day_nano
| T_list (item : field) | T_large_list (item : field)
| T_fixed_size_list (item : field) (size : Z)
| T_list_view (item : field) | T_large_list_view (item : field)
| T_struct (fields : list field) | T_map (key item : field)
| T_sparse_union | T_dense_union | T_run_end_encoded
| T_dictionary (index value : dtype)
| T_extension (name : string) (storage : dtype)
with field : Type :=
| Field (name : string) (type : dtype) (nullable : bool) (metadata : list (string * string)).

Definition f_name (f : field) : string := let 'Field n _ _ _ := f in n.
Definition f_type (f : field) : dtype := let 'Field _ t _ _ := f in t.
Definition f_nullable (f : field) : bool := let 'Field _ _ n _ := f in n.
Definition f_metadata (f : field) : list (string * string) := let 'Field _ _ _ m := f in m.

Definition floating_type (t : dtype) : bool :=
  match t with T_half_float | T_float | T_double => true | _ => false end.

(** [arrow::is_integer] on a type id. *)
Definition is_integer (t : dtype) : bool :=
  match t with
  | T_uint8 | T_int8 | T_uint16 | T_int16 | T_uint32 | T_int32 | T_uint64 | T_int64 => true
  | _ => false
  end.

(** One value of an array.  A dictionary-encoded array holds the values its
    indices name. *)
Inductive value : Type :=
| V_null
| V_bool (b : bool)
| V_int (z : Z)
| V_float (f : spec_float)
| V_text (s : bytes)
| V_list (l : list value)
| V_struct (l : list value).

Lemma value_ind' (Q : value → Prop) :
  Q V_null → (∀ b, Q (V_bool b)) → (∀ z, Q (V_int z)) → (∀ f, Q (V_float f)) → (∀ s, Q (V_text s)) →
  (∀ l, Forall Q l → Q (V_list l)) → (∀ l, Forall Q l → Q (V_struct l)) → ∀ v, Q v.
Proof.
  intros H1 H2 H3 H4 H5 H6 H7. fix IH 1.
  intros [|b|z|f|s|l|l]; [exact H1|apply H2|apply H3|apply H4|apply H5|apply H6|apply H7];
    induction l as [|v l IHl]; constructor; [apply IH|exact IHl|apply IH|exact IHl].
Qed.

Definition is_null (v : value) : bool := match v with V_null => true | _ => false end.

Record array := mkArray { a_type : dtype; a_values : list value }.

(** [b_metadata] is the metadata of the schema, which may be absent. *)
Record batch := mkBatch {
  b_schema : list field;
  b_metadata : option (list (string * string));
  b_rows : Z;
  b_columns : list array;
}.

(** Arrow's own functions, as the sources call them.  [get_field_index] is
    [Schema::GetFieldIndex] (none for -1), [get_all_field_indices] is [Schema::GetAllFieldIndices]; [read_stream] opens an IPC stream and
    reads its first batch (none when the stream holds only a schema);
    [dictionary_of] is [DictionaryArray::FromArrays] for the one index 0 of an
    index type, [null_array] and [empty_array] append one null and one empty
    value with the builder of a type ([MakeBuilder]);
    [validate] is [RecordBatch::Validate], none for a valid batch;
    [write_stream] writes a batch as a stream.  A [string] on the left is the
    text of an error status. *)
Class Arrow := {
  type_equals : dtype → dtype → bool;
  type_to_string : dtype → string;
  get_field_index : list field → string → option nat;
  get_all_field_indices : list field → string → list nat;
  read_stream : bytes → string + option batch;
  validate : batch → option string;
  write_stream : batch → string + bytes;
  dictionary_of : dtype → dtype → array → string + array;
  null_array : dtype → string + array;
  empty_array : dtype → string + array;
}.

(** A request record: one row of binary columns.  The round trip of the stream
    format is only relied on for these. *)
Definition binary_cell (f : field) (c : array) : Prop :=
  (∃ n nullable, f = Field n T_binary nullable []) ∧
  (∃ v, c = mkArray T_binary [v] ∧ (v = V_null ∨ ∃ s, v = V_text s)).

Definition binary_record (b : batch) : Prop :=
  b_metadata b = None ∧ b_rows b = 1 ∧ Forall2 binary_cell (b_schema b) (b_columns b).

Class ArrowLaws (A : Arrow) : Prop := {
  type_equals_floating a b : type_equals a b = true → floating_type a = floating_type b;
  get_field_index_found s n i :
    get_field_index s n = Some i → f_name <$> s !! i = Some n;
  get_field_index_unique s n i :
    f_name <$> s !! i = Some n →
    (∀ j, f_name <$> s !! j = Some n → j = i) → get_field_index s n = Some i;
  get_all_field_indices_spec s n i :
    i ∈ get_all_field_indices s n ↔ f_name <$> s !! i = Some n;
  write_read_stream b s : write_stream b = inr s → s ≠ [] ∧ read_stream s = inr (Some b);
  dictionary_of_spec t i a d : dictionary_of t i a = inr d →
    t = T_dictionary i (a_type a) ∧ d = mkArray t (a_values a);
  null_array_spec t a : null_array t = inr a → a = mkArray t [V_null];
  empty_array_spec t a : empty_array t = inr a → a_type a = t ∧ length (a_values a) = 1%nat;
  get_all_field_indices_NoDup s n : NoDup (get_all_field_indices s n);
  read_write_stream b :
    binary_record b → validate b = None ∧
    ∃ s, write_stream b = inr s ∧ s ≠ [] ∧ read_stream s = inr (Some b);
}.

(** [unwrap] and [check_ok]: an error status is thrown with what was being done. *)
Definition unwrap {A} (r : string + A) (what : string) : result A :=
  match r with inl status => Throw (Runtime_error (what +:+ ": " +:+ status)) | inr a => Ok a end.

(** [wire::decode_ipc] and [wire::encode_ipc]. *)
Definition decode_ipc `{Arrow} (b : bytes) : result (option batch) :=
  match b with [] => Ok None | _ => unwrap (read_stream b) "reading an embedded IPC value" end.
Definition encode_ipc `{Arrow} (b : batch) : result bytes :=
  match validate b with
  | Some status => Throw (Runtime_error ("encoding an invalid IPC batch: " +:+ status))
  | None => unwrap (write_stream b) "writing an embedded IPC batch"
  end.

Lemma decode_encode_ipc `{A : Arrow} `{!ArrowLaws A} b :
  binary_record b → ∃ s, encode_ipc b = Ok s ∧ decode_ipc s = Ok (Some b).
Proof.
  intros Hb. destruct (read_write_stream b Hb) as (Hv & s & Hw & Hs & Hr).
  exists s. unfold decode_ipc, encode_ipc. rewrite Hv, Hw. split; [done|].
  destruct s; [done|]. by rewrite Hr.
Qed.

(** ** A concrete instance

    Lookup by name gives the index of the only field of that name.  The stream
    format is a toy one, able to carry the batches the witnesses use: one row
    of binary columns. *)
Fixpoint find_indices (s : list field) (n : string) (i : nat) : list nat :=
  match s with
  | [] => []
  | f :: s => if bool_decide (f_name f = n) then i :: find_indices s n (S i)
              else find_indices s n (S i)
  end.

Definition unique_index (s : list field) (n : string) : option nat :=
  match find_indices s n 0 with [i] => Some i | _ => None end.

Lemma find_indices_spec s n k i :
  i ∈ find_indices s n k ↔ ∃ j, i = (k + j)%nat ∧ f_name <$> s !! j = Some n.
Proof.
  revert k. induction s as [|f s IH]; intros k; simpl.
  - split; [set_solver|]. intros (j & _ & H). by destruct j.
  - case_bool_decide as Hf; rewrite ?elem_of_cons, IH; split.
    + intros [->|(j & -> & Hj)]; [exists 0%nat; split; [lia|by rewrite <- Hf]|].
      exists (S j). split; [lia|done].
    + intros (j & -> & Hj). destruct j as [|j]; [left; lia|].
      right. exists j. split; [lia|done].
    + intros (j & -> & Hj). exists (S j). split; [lia|done].
    + intros (j & -> & Hj). destruct j as [|j]; [simpl in Hj; congruence|].
      exists j. split; [lia|done].
Qed.

Lemma find_indices_NoDup s n k : NoDup (find_indices s n k).
Proof.
  revert k. induction s as [|f s IH]; intros k; simpl; [constructor|].
  case_bool_decide; [|done]. constructor; [|done].
  intros (j & Hj & _)%find_indices_spec. lia.
Qed.

Lemma unique_index_found s n i : unique_index s n = Some i → f_name <$> s !! i = Some n.
Proof.
  unfold unique_index. destruct (find_indices s n 0) as [|j [|]] eqn:E; [done| |done].
  intros [= ->]. destruct (proj1 (find_indices_spec s n 0 i)) as (j & -> & Hj); [|done].
  rewrite E. set_solver.
Qed.

Lemma unique_index_unique s n i :
  f_name <$> s !! i = Some n →
  (∀ j, f_name <$> s !! j = Some n → j = i) → unique_index s n = Some i.
Proof.
  intros Hi Hu. unfold unique_index.
  assert (∀ j, j ∈ find_indices s n 0 → j = i) as Hall
    by (intros j (j' & -> & Hj)%find_indices_spec; by apply Hu).
  assert (i ∈ find_indices s n 0) as Hin by (apply find_indices_spec; by exists i).
  pose proof (find_indices_NoDup s n 0) as Hnd.
  destruct (find_indices s n 0) as [|a [|b l]].
  - set_solver.
  - f_equal. apply Hall. set_solver.
  - exfalso. apply NoDup_cons in Hnd as [Hnd _]. apply Hnd.
    rewrite (Hall a), (Hall b) by set_solver. set_solver.
Qed.

Definition enc_len (n : nat) : bytes := replicate n (zb 1) ++ [zb 0].
Definition enc_bytes (s : bytes) : bytes := enc_len (length s) ++ s.
Definition enc_cell (f : field) (c : array) : bytes :=
  enc_bytes (bs (f_name f)) ++ [zb (if f_nullable f then 1 else 0)] ++
  match a_values c with [V_text s] => zb 1 :: enc_bytes s | _ => [zb 0] end.
Definition toy_write (b : batch) : bytes :=
  enc_len (length (b_schema b)) ++ concat (zip_with enc_cell (b_schema b) (b_columns b)).

Fixpoint dec_len (s : bytes) : option (nat * bytes) :=
  match s with
  | [] => None
  | c :: s => if bool_decide (c = zb 0) then Some (O, s)
              else '(n, s) ← dec_len s; Some (S n, s)
  end.
Definition dec_bytes (s : bytes) : option (bytes * bytes) :=
  '(n, s) ← dec_len s; Some (take n s, drop n s).
Definition dec_cell (s : bytes) : option (field * array * bytes) :=
  '(n, s) ← dec_bytes s;
  match s with
  | nl :: tag :: s =>
      let f := Field (str n) T_binary (bool_decide (nl = zb 1)) [] in
      if bool_decide (tag = zb 1) then
        '(v, s) ← dec_bytes s; Some (f, mkArray T_binary [V_text v], s)
      else Some (f, mkArray T_binary [V_null], s)
  | _ => None
  end.
Fixpoint dec_cells (n : nat) (s : bytes) : option (list field * list array * bytes) :=
  match n with
  | O => Some ([], [], s)
  | S n => '(f, c, s) ← dec_cell s; '(fs, cs, s) ← dec_cells n s; Some (f :: fs, c :: cs, s)
  end.
Definition toy_read (s : bytes) : string + option batch :=
  match '(n, s) ← dec_len s; dec_cells n s with
  | Some (fs, cs, []) => inr (Some (mkBatch fs None 1 cs))
  | _ => inl "not a stream"%string
  end.

Lemma dec_enc_len n s : dec_len (enc_len n ++ s) = Some (n, s).
Proof. unfold enc_len. induction n as [|n IH]; simpl in *; [done|by rewrite IH]. Qed.

Lemma dec_enc_bytes b s : dec_bytes (enc_bytes b ++ s) = Some (b, s).
Proof.
  unfold dec_bytes, enc_bytes. rewrite <- app_assoc, dec_enc_len. simpl.
  by rewrite take_app_len, drop_app_len.
Qed.

Lemma dec_enc_cell f c s : binary_cell f c → dec_cell (enc_cell f c ++ s) = Some (f, c, s).
Proof.
  intros [(n & nl & ->) (v & -> & Hv)]. unfold dec_cell, enc_cell. cbn [f_name f_nullable a_values].
  rewrite <- app_assoc, dec_enc_bytes. cbn [mbind option_bind app].
  destruct Hv as [->|[t ->]]; cbn [app].
  - rewrite (bool_decide_false (zb 0 = zb 1)) by done. rewrite str_bs. by destruct nl.
  - rewrite (bool_decide_true (zb 1 = zb 1)) by done. rewrite dec_enc_bytes. simpl.
    rewrite str_bs. by destruct nl.
Qed.

Lemma toy_read_write b : binary_record b → toy_read (toy_write b) = inr (Some b).
Proof.
  destruct b as [fs md n cs]. intros (Hm & Hn & H). cbn in Hm, Hn, H. subst n md.
  unfold toy_read, toy_write. cbn [b_schema b_columns]. rewrite dec_enc_len.
  cbn [mbind option_bind].
  enough (∀ s, dec_cells (length fs) (concat (zip_with enc_cell fs cs) ++ s) = Some (fs, cs, s)) as E
    by (specialize (E []); rewrite app_nil_r in E; by rewrite E).
  induction H as [|f c fs cs Hc H IH]; intros s; [done|].
  cbn [zip_with concat length dec_cells]. rewrite <- app_assoc, dec_enc_cell by done.
  cbn [mbind option_bind]. by rewrite IH.
Qed.

(** Whether a batch is one the toy format carries. *)
Definition binary_cellb (f : field) (c : array) : bool :=
  match f, c with
  | Field _ T_binary _ [], mkArray T_binary [V_null] | Field _ T_binary _ [], mkArray T_binary [V_text _] => true
  | _, _ => false
  end.
Fixpoint binary_cellsb (fs : list field) (cs : list array) : bool :=
  match fs, cs with
  | [], [] => true
  | f :: fs, c :: cs => binary_cellb f c && binary_cellsb fs cs
  | _, _ => false
  end.
Definition binary_recordb (b : batch) : bool :=
  match b_metadata b with None => (b_rows b =? 1) && binary_cellsb (b_schema b) (b_columns b) | Some _ => false end.

Lemma binary_recordb_spec b : binary_recordb b = true ↔ binary_record b.
Proof.
  unfold binary_recordb, binary_record. destruct (b_metadata b); [naive_solver|].
  rewrite andb_true_iff, Z.eqb_eq.
  enough (binary_cellsb (b_schema b) (b_columns b) = true ↔ Forall2 binary_cell (b_schema b) (b_columns b)) as ->
    by naive_solver.
  generalize (b_columns b). induction (b_schema b) as [|f fs IH]; intros [|c cs]; cbn.
  - by split.
  - split; [done|by inversion 1].
  - split; [done|by inversion 1].
  - rewrite andb_true_iff, IH, Forall2_cons. enough (binary_cellb f c = true ↔ binary_cell f c) by naive_solver.
    unfold binary_cell. split.
    + destruct f as [n t nl md]. destruct t; try done. destruct md; [|done]. destruct c as [u vs].
      destruct u; try done. destruct vs as [|v vs]; [done|]. cbn.
      destruct v; try done; destruct vs; try done; intros _; split; eauto 10.
    + by intros [(n & nl & ->) (v & -> & [-> | [s ->]])].
Qed.

(** Structural equality of the flat types stands in for [DataType::Equals]. *)
Definition flat_equals (a b : dtype) : bool :=
  match a, b with
  | T_bool, T_bool | T_int8, T_int8 | T_int16, T_int16 | T_int32, T_int32 | T_int64, T_int64
  | T_uint8, T_uint8 | T_uint16, T_uint16 | T_uint32, T_uint32 | T_uint64, T_uint64
  | T_float, T_float | T_double, T_double | T_string, T_string | T_binary, T_binary => true
  | _, _ => false
  end.

Definition toy_arrow : Arrow :=
  {| type_equals := flat_equals; type_to_string := λ _, "type"%string;
     get_field_index := unique_index; get_all_field_indices := λ s n, find_indices s n 0;
     read_stream := toy_read;
     validate := λ _, None;
     write_stream := λ b, if binary_recordb b then inr (toy_write b) else inl "not supported"%string;
     dictionary_of := λ t i a,
       match t with
       | T_dictionary T_int16 T_string =>
           match i, a_type a with T_int16, T_string => inr (mkArray t (a_values a)) | _, _ => inl "types"%string end
       | _ => inl "types"%string
       end;
     null_array := λ t, inr (mkArray t [V_null]); empty_array := λ t, inr (mkArray t [V_null]) |}.

#[global] Instance toy_arrow_laws : ArrowLaws toy_arrow.
Proof.
  split; simpl.
  - by intros [] [].
  - apply unique_index_found.
  - apply unique_index_unique.
  - intros s n i. rewrite find_indices_spec. split; [intros (j & -> & H); exact H|by exists i].
  - intros b s. destruct (binary_recordb b) eqn:Hb; [|done]. apply binary_recordb_spec in Hb. intros [= <-].
    split; [|by apply toy_read_write]. unfold toy_write, enc_len. by destruct (length (b_schema b)).
  - intros t i a d. destruct t as [| | | | | | | | | | | | | | | | | | | | | | | | | | | | | | | | | | | | | | |[] []|]; try done.
    destruct i; try done. destruct a as [[] vs]; cbn; try done. by intros [= <-].
  - by intros t a [= <-].
  - by intros t a [= <-].
  - intros s n. apply find_indices_NoDup.
  - intros b Hb. split; [done|]. exists (toy_write b). rewrite (proj2 (binary_recordb_spec b) Hb).
    split_and!; [done| |by apply toy_read_write].
    unfold toy_write, enc_len. by destruct (length (b_schema b)).
Qed.
