(* ===== verification/ArrowRecord.v ===== *)
(** * Records of several columns, and the equality of schemas

    Two more of Arrow's functions, with the behaviour the sources rely on:
    [Schema::Equals] and [StructArray::Make]; and where the stream reader stands
    after the first batch.  [table_arrow] is a concrete instance whose stream
    format carries a table of sample batches besides the binary records of
    [toy_arrow]; its [Equals] is the structural equality of data types, which
    is decided here. *)

From Stdlib Require Import SpecFloat.
From S2P Require Import Prelude Arrow.

(** [schema_equals] is [Schema::Equals] (with the metadata, or without),
    [struct_array] is [StructArray::Make], [stream_rest] is what a stream reader
    over a buffer has not read after its first [ReadNext] -- for a stream that
    was written, the end-of-stream marker or nothing --, and [validate_full] is
    [RecordBatch::ValidateFull], none for a valid batch. *)
Class ArrowRecord := {
  schema_equals : bool → list field → list field → bool;
  struct_array : list array → list field → string + array;
  stream_rest : bytes → bytes;
  validate_full : batch → option string;
}.

Definition kEndOfStream : bytes := [zb 255; zb 255; zb 255; zb 255; zb 0; zb 0; zb 0; zb 0].

Class ArrowRecordLaws (A : Arrow) (R : ArrowRecord) : Prop := {
  schema_equals_refl m s : schema_equals m s s = true;
  schema_equals_fields s t : schema_equals false s t = true →
    map f_name s = map f_name t ∧ map f_type s = map f_type t ∧ map f_nullable s = map f_nullable t;
  type_equals_refl t : type_equals t t = true;
  struct_array_spec cs fs a : struct_array cs fs = inr a →
    Forall (λ c, length (a_values c) = 1%nat) cs →
    a = mkArray (T_struct fs) [V_struct (mjoin (map a_values cs))];
  stream_rest_spec b s : write_stream b = inr s → stream_rest s = [] ∨ stream_rest s = kEndOfStream;
  validate_full_binary b s : write_stream b = inr s → validate_full b = None;
}.

(** ** Structural equality *)

Section list_eqb.
Context {X : Type} (eqb : X → X → bool).
Fixpoint list_eqb (a b : list X) : bool :=
  match a, b with
  | [], [] => true
  | x :: a, y :: b => eqb x y && list_eqb a b
  | _, _ => false
  end.
Lemma list_eqb_spec a : Forall (λ x, ∀ y, eqb x y = true ↔ x = y) a → ∀ b, list_eqb a b = true ↔ a = b.
Proof.
  induction 1 as [|x a Hx _ IH]; intros [|y b]; cbn; [done..|]. rewrite andb_true_iff, Hx, IH.
  split; [by intros [-> ->]|by intros [= -> ->]].
Qed.
End list_eqb.

Fixpoint dtype_eqb (a b : dtype) {struct a} : bool :=
  match a, b with
  | T_null, T_null | T_bool, T_bool | T_int8, T_int8 | T_int16, T_int16 | T_int32, T_int32 | T_int64, T_int64
  | T_uint8, T_uint8 | T_uint16, T_uint16 | T_uint32, T_uint32 | T_uint64, T_uint64
  | T_half_float, T_half_float | T_float, T_float | T_double, T_double | T_string, T_string
  | T_large_string, T_large_string | T_string_view, T_string_view | T_binary, T_binary
  | T_large_binary, T_large_binary | T_date32, T_date32 | T_date64, T_date64
  | T_interval_months, T_interval_months | T_interval_day_time, T_interval_day_time
  | T_interval_month_day_nano, T_interval_month_day_nano | T_sparse_union, T_sparse_union
  | T_dense_union, T_dense_union | T_run_end_encoded, T_run_end_encoded => true
  | T_decimal128 p s, T_decimal128 q t | T_decimal256 p s, T_decimal256 q t => (p =? q) && (s =? t)
  | T_time32 u, T_time32 v | T_time64 u, T_time64 v | T_duration u, T_duration v => (u =? v)%nat
  | T_timestamp u z, T_timestamp v w => (u =? v)%nat && bool_decide (z = w)
  | T_list f, T_list g | T_large_list f, T_large_list g | T_list_view f, T_list_view g
  | T_large_list_view f, T_large_list_view g => field_eqb f g
  | T_fixed_size_list f n, T_fixed_size_list g m => field_eqb f g && (n =? m)
  | T_struct fs, T_struct gs => list_eqb field_eqb fs gs
  | T_map k i, T_map l j => field_eqb k l && field_eqb i j
  | T_dictionary i v, T_dictionary j w => dtype_eqb i j && dtype_eqb v w
  | T_extension n s, T_extension m t => bool_decide (n = m) && dtype_eqb s t
  | _, _ => false
  end
with field_eqb (f g : field) {struct f} : bool :=
  match f, g with
  | Field n t b m, Field n' t' b' m' =>
      bool_decide (n = n') && dtype_eqb t t' && Bool.eqb b b' && bool_decide (m = m')
  end.

Section dtype_ind.
Context (Pt : dtype → Prop) (Pf : field → Prop).
Context (Hflat : ∀ t, match t with
  | T_list f | T_large_list f | T_list_view f | T_large_list_view f | T_fixed_size_list f _ => Pf f
  | T_struct fs => Forall Pf fs
  | T_map k i => Pf k ∧ Pf i
  | T_dictionary i v => Pt i ∧ Pt v
  | T_extension _ s => Pt s
  | _ => True end → Pt t).
Context (Hfield : ∀ n t b m, Pt t → Pf (Field n t b m)).

Fixpoint dtype_ind' (t : dtype) : Pt t :=
  Hflat t (match t return match t with
    | T_list f | T_large_list f | T_list_view f | T_large_list_view f | T_fixed_size_list f _ => Pf f
    | T_struct fs => Forall Pf fs
    | T_map k i => Pf k ∧ Pf i
    | T_dictionary i v => Pt i ∧ Pt v
    | T_extension _ s => Pt s
    | _ => True end with
  | T_list f => field_ind' f | T_large_list f => field_ind' f | T_list_view f => field_ind' f
  | T_large_list_view f => field_ind' f | T_fixed_size_list f _ => field_ind' f
  | T_struct fs => (fix each (fs : list field) : Forall Pf fs :=
      match fs with [] => Forall_nil_2 Pf | f :: fs => Forall_cons_2 Pf f fs (field_ind' f) (each fs) end) fs
  | T_map k i => conj (field_ind' k) (field_ind' i)
  | T_dictionary i v => conj (dtype_ind' i) (dtype_ind' v)
  | T_extension _ s => dtype_ind' s
  | _ => I end)
with field_ind' (f : field) : Pf f :=
  match f with Field n t b m => Hfield n t b m (dtype_ind' t) end.
End dtype_ind.

Lemma dtype_eqb_spec a : ∀ b, dtype_eqb a b = true ↔ a = b.
Proof.
  apply (dtype_ind' (λ a, ∀ b, dtype_eqb a b = true ↔ a = b) (λ f, ∀ g, field_eqb f g = true ↔ f = g)); clear a.
  - intros [] Ha b; destruct b; try (by split); cbn [dtype_eqb];
      rewrite ?andb_true_iff, ?Z.eqb_eq, ?Nat.eqb_eq, ?bool_decide_eq_true, ?Ha;
      try (destruct Ha as [H1 H2]; rewrite H1, H2); try (by naive_solver).
    rewrite (list_eqb_spec field_eqb) by done. naive_solver.
  - intros n t b m Ht [n' t' b' m']. cbn [field_eqb].
    rewrite !andb_true_iff, !bool_decide_eq_true, Ht, Bool.eqb_true_iff. naive_solver.
Qed.

#[global] Instance dtype_eq_dec : EqDecision dtype.
Proof. refine (λ a b, cast_if (decide (dtype_eqb a b = true))); by rewrite <- dtype_eqb_spec. Defined.
#[global] Instance field_eq_dec : EqDecision field.
Proof. solve_decision. Defined.

Fixpoint value_eqb (a b : value) {struct a} : bool :=
  match a, b with
  | V_null, V_null => true
  | V_bool x, V_bool y => Bool.eqb x y
  | V_int x, V_int y => x =? y
  | V_float x, V_float y => match x, y with
      | S754_zero s, S754_zero t | S754_infinity s, S754_infinity t => Bool.eqb s t
      | S754_nan, S754_nan => true
      | S754_finite s m e, S754_finite t n f => Bool.eqb s t && (m =? n)%positive && (e =? f)
      | _, _ => false end
  | V_text s, V_text t => bool_decide (s = t)
  | V_list l, V_list k | V_struct l, V_struct k => list_eqb value_eqb l k
  | _, _ => false
  end.

Lemma value_eqb_spec a : ∀ b, value_eqb a b = true ↔ a = b.
Proof.
  induction a as [|x|x|x|s|l IH|l IH] using value_ind'; intros b; destruct b as [|y|y|y|t|k|k];
    try (by split); cbn [value_eqb].
  - rewrite Bool.eqb_true_iff. naive_solver.
  - rewrite Z.eqb_eq. naive_solver.
  - destruct x, y; try (by split); rewrite ?andb_true_iff, ?Bool.eqb_true_iff, ?Pos.eqb_eq, ?Z.eqb_eq; naive_solver.
  - rewrite bool_decide_eq_true. naive_solver.
  - rewrite (list_eqb_spec value_eqb) by done. naive_solver.
  - rewrite (list_eqb_spec value_eqb) by done. naive_solver.
Qed.

#[global] Instance value_eq_dec : EqDecision value.
Proof. refine (λ a b, cast_if (decide (value_eqb a b = true))); by rewrite <- value_eqb_spec. Defined.
#[global] Instance array_eq_dec : EqDecision array.
Proof. solve_decision. Defined.
#[global] Instance batch_eq_dec : EqDecision batch.
Proof. solve_decision. Defined.

(** ** A concrete instance *)

Definition plain_field (f : field) : field := let 'Field n t b _ := f in Field n t b [].

(** The batches of [table] are written as their place in it, after a byte that
    no other batch starts with. *)
Section table.
Context (table : list batch).

Definition table_write (b : batch) : string + bytes :=
  if binary_recordb b then inr (zb 2 :: toy_write b)
  else match list_find (λ c, c = b) table with
       | Some (i, _) => inr (zb 3 :: enc_len i)
       | None => inl "not supported"%string
       end.
Definition table_read (s : bytes) : string + option batch :=
  match s with
  | c :: s =>
      if bool_decide (c = zb 2) then toy_read s
      else match dec_len s with
           | Some (i, []) => match table !! i with Some b => inr (Some b) | None => inl "no such batch"%string end
           | _ => inl "not a stream"%string
           end
  | [] => inl "empty"%string
  end.

Lemma table_read_write b s : table_write b = inr s → s ≠ [] ∧ table_read s = inr (Some b).
Proof.
  unfold table_write. destruct (binary_recordb b) eqn:Hb.
  - apply binary_recordb_spec in Hb. intros [= <-]. split; [done|]. by apply toy_read_write.
  - destruct (list_find _ table) as [[i c]|] eqn:Hf; [|done]. intros [= <-]. split; [done|].
    apply list_find_Some in Hf as (Hi & -> & _). cbn [table_read]. rewrite bool_decide_false by done.
    pose proof (dec_enc_len i []) as Hd. rewrite app_nil_r in Hd. by rewrite Hd, Hi.
Qed.

Definition table_arrow : Arrow :=
  {| type_equals := dtype_eqb; type_to_string := λ _, "type"%string;
     get_field_index := unique_index; get_all_field_indices := λ s n, find_indices s n 0;
     read_stream := table_read; validate := λ _, None; write_stream := table_write;
     dictionary_of := λ t i a,
       match t with
       | T_dictionary j v => if dtype_eqb i j && dtype_eqb (a_type a) v then inr (mkArray t (a_values a)) else inl "types"%string
       | _ => inl "types"%string
       end;
     null_array := λ t, inr (mkArray t [V_null]); empty_array := λ t, inr (mkArray t [V_null]) |}.

#[global] Instance table_arrow_laws : ArrowLaws table_arrow.
Proof.
  split; simpl.
  - by intros a b ->%dtype_eqb_spec.
  - apply unique_index_found.
  - apply unique_index_unique.
  - intros s n i. rewrite find_indices_spec. split; [intros (j & -> & H); exact H|by exists i].
  - apply table_read_write.
  - intros t i a d. destruct t; try done. destruct (_ && _) eqn:E; [|done].
    apply andb_true_iff in E as [->%dtype_eqb_spec ->%dtype_eqb_spec]. by intros [= <-].
  - by intros t a [= <-].
  - by intros t a [= <-].
  - intros s n. apply find_indices_NoDup.
  - intros b Hb. split; [done|]. exists (zb 2 :: toy_write b). unfold table_write.
    rewrite (proj2 (binary_recordb_spec b) Hb). split_and!; [done..|]. by apply toy_read_write.
Qed.

Definition table_record : ArrowRecord :=
  {| schema_equals := λ m s t, if m then list_eqb field_eqb s t else list_eqb field_eqb (map plain_field s) (map plain_field t);
     struct_array := λ cs fs, inr (mkArray (T_struct fs) [V_struct (mjoin (map a_values cs))]);
     stream_rest := λ _, []; validate_full := λ _, None |}.

Lemma field_eqb_spec f g : field_eqb f g = true ↔ f = g.
Proof.
  destruct f as [n t b m], g as [n' t' b' m']. cbn [field_eqb].
  rewrite !andb_true_iff, !bool_decide_eq_true, dtype_eqb_spec, Bool.eqb_true_iff. naive_solver.
Qed.

Lemma fields_eqb_spec s t : list_eqb field_eqb s t = true ↔ s = t.
Proof. apply list_eqb_spec, Forall_forall. intros f _ g. apply field_eqb_spec. Qed.

#[global] Instance table_record_laws : ArrowRecordLaws table_arrow table_record.
Proof.
  split; simpl.
  - by intros [] s; apply fields_eqb_spec.
  - intros s t E%fields_eqb_spec.
    assert (∀ B (g : field → B), (∀ f, g f = g (plain_field f)) → map g s = map g t) as H.
    { intros B g Hg. rewrite (map_ext g (g ∘ plain_field) Hg s), (map_ext g (g ∘ plain_field) Hg t).
      by rewrite <- !(map_map plain_field g), E. }
    split_and!; apply H; by intros [].
  - intros t. by apply dtype_eqb_spec.
  - by intros cs fs a [= <-].
  - by left.
  - done.
Qed.

End table.
