(* ===== verification/OpaqueSeal.v ===== *)
(** * Sealed opaque data ([src/opaque_seal.cpp], [src/opaque_seal.h])

    The attach and transaction values a client stores and sends back: the seal
    and open of each, with the caller and the parent attach in the AAD, and
    [Call::open], which opens every opaque value a request carries -- at the
    top level, in its [request] record and in a nested [bind_call] -- before a
    handler sees it. *)

From S2P Require Import Prelude Crypto Arrow.

Module OpaqueSeal.

Definition kAttachDomain : bytes := bs "vgi.attach_opaque_data.v1" ++ [NUL].
Definition kTransactionDomain : bytes := bs "vgi.transaction_opaque_data.v1" ++ [NUL].
Definition kAttachField : string := "attach_opaque_data".
Definition kTransactionField : string := "transaction_opaque_data".
Definition kAttachEnvelopeVersion : ascii := zb 2.
Definition kTransactionEnvelopeVersion : ascii := zb 2.

(** ** Seal and open *)

Definition reject {A} (field : string) : result A := Throw (Opaque_not_recognized field).

Definition seal `{Crypto} (key : bytes) (version : ascii) (plaintext aad nonce : bytes) : bytes :=
  [version] ++ aead_seal_with_nonce key plaintext aad nonce.

Definition open `{Crypto} (key : bytes) (version : ascii) (envelope aad : bytes) (field : string)
    : result bytes :=
  if (length envelope <? 1 + kAeadNonceBytes + kAeadTagBytes)%nat
     || negb (bool_decide (head envelope = Some version))
  then reject field
  else
    match aead_open key (drop 1 envelope) aad with
    | None => reject field
    | Some opened => Ok opened
    end.

Definition identity_tail (auth : AuthContext) : bytes :=
  if negb (authenticated auth) then NUL :: bs "anonymous"
  else [zb 1] ++ domain auth ++ [NUL] ++ default [] (principal auth).

Definition attach_aad (auth : AuthContext) : bytes := kAttachDomain ++ identity_tail auth.
Definition transaction_aad (auth : AuthContext) (attach_envelope : bytes) : bytes :=
  kTransactionDomain ++ identity_tail auth ++ [NUL] ++ attach_envelope.

Definition seal_attach `{Crypto} (key plaintext : bytes) (auth : AuthContext) (nonce : bytes) : bytes :=
  seal key kAttachEnvelopeVersion plaintext (attach_aad auth) nonce.
Definition open_attach `{Crypto} (key envelope : bytes) (auth : AuthContext) : result bytes :=
  open key kAttachEnvelopeVersion envelope (attach_aad auth) kAttachField.
Definition seal_transaction `{Crypto} (key plaintext : bytes) (auth : AuthContext)
    (attach_envelope nonce : bytes) : bytes :=
  seal key kTransactionEnvelopeVersion plaintext (transaction_aad auth attach_envelope) nonce.
Definition open_transaction `{Crypto} (key envelope : bytes) (auth : AuthContext)
    (attach_envelope : bytes) : result bytes :=
  open key kTransactionEnvelopeVersion envelope (transaction_aad auth attach_envelope)
    kTransactionField.

(** ** One RPC call *)

(** A [Call]: the key and caller it was made with, and the attach value the
    request carried, once [open] has seen it. *)
Record Call := mkCall {
  key_ : option bytes;
  auth_ : AuthContext;
  attach_as_sent_ : option bytes;
}.

Definition one_binary (value : bytes) : array := mkArray T_binary [V_text value].

Definition is_binary_column (b : batch) (i : nat) : bool :=
  match b_columns b !! i with Some (mkArray T_binary _) => true | _ => false end.

Definition cell_at (c : array) : option bytes :=
  match a_values c with V_text s :: _ => Some s | _ => None end.
Definition binary_at (b : batch) (i : nat) : option bytes := b_columns b !! i ≫= cell_at.

Definition set_sent (sent : option bytes) (v : option bytes) : option bytes :=
  match sent, v with None, Some s => Some s | _, _ => sent end.

Section open_batch.
Context `{Crypto} `{Arrow}.
Variables (key : bytes) (auth : AuthContext).

(** The shape test at the top of [open_batch]. *)
Definition check_field (b : batch) (name : string) : result unit :=
  match get_field_index (b_schema b) name with
  | Some i => if negb (b_rows b =? 1) || negb (is_binary_column b i) then reject name else Ok tt
  | None => Ok tt
  end.

(** The attach value at this level, if its column carries one. *)
Definition attach_at (b : batch) : option bytes :=
  match get_field_index (b_schema b) kAttachField with
  | Some i => if is_binary_column b i then binary_at b i else None
  | None => None
  end.

(** One turn of the loop over the columns: the column that replaces this one,
    whether it changed, and the attach value seen so far.  [rec] is the
    recursive call on a nested record. *)
Definition open_column
    (rec : option batch → option bytes → option bytes → result (option batch * bool * option bytes))
    (attach_here : option bytes) (name : string) (c : array) (sent : option bytes)
    : result (array * bool * option bytes) :=
  match a_type c, cell_at c with
  | T_binary, Some v =>
      if bool_decide (name = kAttachField) then
        p ← open_attach key v auth; Ok (one_binary p, true, sent)
      else if bool_decide (name = kTransactionField) then
        match attach_here with
        | None => reject kTransactionField
        | Some a => p ← open_transaction key v auth a; Ok (one_binary p, true, sent)
        end
      else if bool_decide (name = "request"%string) || bool_decide (name = "bind_call"%string) then
        inner ← decode_ipc v;
        '(opened, changed, sent) ← rec inner attach_here sent;
        match opened with
        | Some o => if (changed : bool) then s ← encode_ipc o; Ok (one_binary s, true, sent)
                    else Ok (c, false, sent)
        | None => Ok (c, false, sent)
        end
      else Ok (c, false, sent)
  | _, _ => Ok (c, false, sent)
  end.

Fixpoint open_columns rec (attach_here : option bytes) (fields : list field) (cols : list array)
    (sent : option bytes) : result (list array * bool * option bytes) :=
  match fields, cols with
  | f :: fields, c :: cols =>
      '(c, ch, sent) ← open_column rec attach_here (f_name f) c sent;
      '(cs, chs, sent) ← open_columns rec attach_here fields cols sent;
      Ok (c :: cs, ch || chs, sent)
  | _, _ => Ok ([], false, sent)
  end.

(** [Call::open_batch].  The flag says whether a new batch was made (the code
    compares the returned pointer with the argument); the last component is
    [attach_as_sent_].  [fuel] bounds the nesting of records. *)
Fixpoint open_batch (fuel : nat) (b : option batch) (outer_attach sent : option bytes)
    : result (option batch * bool * option bytes) :=
  match b, fuel with
  | None, _ => Ok (None, false, sent)
  | _, O => Throw Out_of_fuel
  | Some b, S fuel =>
      check_field b kAttachField;;
      check_field b kTransactionField;;
      if negb (b_rows b =? 1) then Ok (Some b, false, sent) else
      let here := match attach_at b with Some s => Some s | None => outer_attach end in
      let sent := set_sent sent (attach_at b) in
      '(cols, changed, sent) ← open_columns (open_batch fuel) here (b_schema b) (b_columns b) sent;
      if (changed : bool) then Ok (Some (mkBatch (b_schema b) (b_metadata b) 1 cols), true, sent)
      else Ok (Some b, false, sent)
  end.
End open_batch.

(** [Call::open]: without a key, or without a batch, the request is unchanged. *)
Definition call_open `{Crypto} `{Arrow} (fuel : nat) (c : Call) (request : option batch)
    : result (option batch * Call) :=
  match key_ c, request with
  | Some key, Some b =>
      '(opened, _, sent) ← open_batch key (auth_ c) fuel (Some b) None (attach_as_sent_ c);
      Ok (opened, mkCall (key_ c) (auth_ c) sent)
  | _, _ => Ok (request, c)
  end.

Definition call_seal_attach `{Crypto} (c : Call) (plaintext nonce : bytes) : bytes :=
  match key_ c with None => plaintext | Some key => seal_attach key plaintext (auth_ c) nonce end.

Definition call_seal_transaction `{Crypto} (c : Call) (plaintext nonce : bytes) : bytes :=
  match key_ c with
  | None => plaintext
  | Some key => seal_transaction key plaintext (auth_ c) (default [] (attach_as_sent_ c)) nonce
  end.

(** ** Lemmas *)

Lemma open_Ok `{C : Crypto} `{!CryptoLaws C} key v env aad field p :
  open key v env aad field = Ok p ↔
  ∃ nonce, length nonce = kAeadNonceBytes ∧ env = seal key v p aad nonce.
Proof.
  unfold open, seal. split.
  - destruct (_ || _) eqn:Hc; [done|]. apply orb_false_iff in Hc as [_ Hv].
    apply negb_false_iff, bool_decide_eq_true in Hv.
    destruct (aead_open _ _ _) as [p'|] eqn:Ho; [|done]. intros [= ->].
    apply aead_open_inv in Ho as (nonce & Hn & Hs). exists nonce. split; [done|].
    destruct env as [|c env]; [done|]. injection Hv as ->. by rewrite <- Hs.
  - intros (nonce & Hn & ->).
    replace (length _ <? _)%nat with false.
    2: { symmetry. apply Nat.ltb_ge. cbn [length app]. rewrite aead_seal_length by done. lia. }
    cbn [app head orb]. rewrite bool_decide_true by done. cbn [negb].
    match goal with |- context [drop 1 (?c :: ?l)] => change (drop 1 (c :: l)) with l end.
    by rewrite aead_open_seal.
Qed.

Lemma open_throws `{Crypto} key v env aad field :
  throws_only (eq (Opaque_not_recognized field)) (open key v env aad field).
Proof. unfold open, reject. destruct (_ || _); [done|]. by destruct (aead_open _ _ _). Qed.

Lemma opaque_identity_tail auth : identity_tail auth = caller_tail auth.
Proof. done. Qed.

Lemma transaction_aad_inj a b e e' :
  nul_free (domain a) → nul_free (domain b) →
  nul_free (default [] (principal a)) → nul_free (default [] (principal b)) →
  transaction_aad a e = transaction_aad b e' → same_caller a b ∧ e = e'.
Proof.
  unfold transaction_aad, identity_tail, same_caller. intros Ha Hb Hpa Hpb H.
  apply app_inv_head in H.
  destruct (authenticated a), (authenticated b); cbn [negb app] in H |- *;
    try (exfalso; discriminate H).
  - injection H as H. rewrite <- !app_assoc in H. cbn [app] in H.
    apply nul_split_inj in H as [-> H]; [|done..]. apply nul_split_inj in H as [-> ->]; done.
  - by simplify_eq/=.
Qed.

(** What the loop leaves in a column. *)
Definition opened_cell `{Crypto} (key : bytes) (auth : AuthContext) (here : option bytes)
    (name : string) (c c' : array) : Prop :=
  a_type c = T_binary →
  match cell_at c with
  | None => c' = c
  | Some v =>
      (name = kAttachField → ∃ p, open_attach key v auth = Ok p ∧ c' = one_binary p) ∧
      (name = kTransactionField →
       ∃ a p, here = Some a ∧ open_transaction key v auth a = Ok p ∧ c' = one_binary p)
  end.

Lemma open_column_spec `{Crypto} `{Arrow} key auth rec here name c sent c' ch sent' :
  open_column key auth rec here name c sent = Ok (c', ch, sent') →
  opened_cell key auth here name c c' ∧ (ch = false → c' = c).
Proof.
  unfold open_column, opened_cell. destruct (a_type c) eqn:Ht; try naive_solver.
  destruct (cell_at c) as [v|] eqn:Hv; [|naive_solver].
  case_bool_decide as Ha; [|case_bool_decide as Hx].
  - intros H1. apply bind_Ok in H1 as (p & Hp & [= <- <- <-]). split; [|done].
    intros _. split; [naive_solver|]. intros ->. discriminate Ha.
  - destruct here as [a|]; [|done]. intros H1. apply bind_Ok in H1 as (p & Hp & [= <- <- <-]).
    split; [|done]. intros _. split; [done|]. intros _. by exists a, p.
  - intros H1. split; [intros _; by split; intros ->|]. intros ->. revert H1.
    destruct (_ || _); [|by intros [= <- _]].
    intros H1. apply bind_Ok in H1 as (inner & _ & H1).
    apply bind_Ok in H1 as ([[o chg] s2] & _ & H1).
    destruct o as [o|], chg; simplify_eq/=; try done.
    by apply bind_Ok in H1 as (s & _ & [= _ <- _]).
Qed.

Lemma open_columns_spec `{Crypto} `{Arrow} key auth rec here fields cols sent cols' ch sent' :
  open_columns key auth rec here fields cols sent = Ok (cols', ch, sent') →
  (∀ i f c, fields !! i = Some f → cols !! i = Some c →
     ∃ c', cols' !! i = Some c' ∧ opened_cell key auth here (f_name f) c c') ∧
  (ch = false → length fields = length cols → cols' = cols).
Proof.
  revert cols sent cols' ch sent'.
  induction fields as [|f fields IH]; intros cols sent cols' ch sent' H1; cbn in H1.
  { simplify_eq. split; [intros i; by rewrite lookup_nil|]. by destruct cols. }
  destruct cols as [|c cols].
  { simplify_eq. split; [intros i f' c ?; by rewrite lookup_nil|done]. }
  apply bind_Ok in H1 as ([[c1 ch1] s1] & Hc & H1).
  apply bind_Ok in H1 as ([[cs chs] s2] & Hcs & H1). simplify_eq/=.
  apply open_column_spec in Hc as [Hc Hcc]. apply IH in Hcs as [Hcs Hcsc]. split.
  - intros [|i] f' c' Hf Hc'; simplify_eq/=; [by eexists|by eapply Hcs].
  - intros [-> ->]%orb_false_iff [= Hl]. by rewrite Hcc, Hcsc.
Qed.

Lemma check_field_Ok `{Arrow} `{!ArrowLaws _} b name i :
  NoDup (f_name <$> b_schema b) → f_name <$> b_schema b !! i = Some name →
  check_field b name = Ok tt → b_rows b = 1 ∧ is_binary_column b i = true.
Proof.
  intros Hnd Hi. unfold check_field. rewrite (get_field_index_unique _ _ i Hi).
  - destruct (negb (b_rows b =? 1)) eqn:Hr; [done|]. destruct (is_binary_column b i); [|done].
    intros _. split; [lia|done].
  - intros j Hj. rewrite <- list_lookup_fmap in Hi, Hj. by eapply NoDup_lookup.
Qed.

Lemma is_binary_column_true b i :
  is_binary_column b i = true → ∃ c, b_columns b !! i = Some c ∧ a_type c = T_binary.
Proof.
  unfold is_binary_column. destruct (b_columns b !! i) as [[t vs]|]; [|done].
  destruct t; try done. by eexists.
Qed.

(** How deep a request's records nest: the recursion of [open_batch] follows the
    [request] and [bind_call] columns that decode to a record. *)
Fixpoint nested_within `{Arrow} (n : nat) (b : option batch) : Prop :=
  match b, n with
  | None, _ => True
  | Some _, O => False
  | Some b, S n =>
      ∀ i f c v inner, b_schema b !! i = Some f → b_columns b !! i = Some c →
        f_name f = "request"%string ∨ f_name f = "bind_call"%string →
        cell_at c = Some v → decode_ipc v = Ok inner → nested_within n inner
  end.

Lemma decode_ipc_fuel `{Arrow} v : decode_ipc v ≠ Throw Out_of_fuel.
Proof. unfold decode_ipc, unwrap. destruct v; [done|]. by destruct (read_stream _). Qed.

Lemma encode_ipc_fuel `{Arrow} b : encode_ipc b ≠ Throw Out_of_fuel.
Proof. unfold encode_ipc, unwrap. destruct (validate b); [done|]. by destruct (write_stream b). Qed.

Lemma open_fuel `{Crypto} key v env aad field : open key v env aad field ≠ Throw Out_of_fuel.
Proof. intros E. pose proof (open_throws key v env aad field) as Ht. by rewrite E in Ht. Qed.

Lemma check_field_fuel `{Arrow} b name : check_field b name ≠ Throw Out_of_fuel.
Proof. unfold check_field. destruct (get_field_index _ _); [|done]. by destruct (_ || _). Qed.

Lemma bind_not_fuel {A B} (r : result A) (f : A → result B) :
  r ≠ Throw Out_of_fuel → (∀ a, r = Ok a → f a ≠ Throw Out_of_fuel) → (r ≫= f) ≠ Throw Out_of_fuel.
Proof. intros Hr Hf Hb. apply bind_Throw in Hb as [?|(a & Ha & ?)]; [done|by eapply Hf]. Qed.

Definition rec_agrees `{Arrow} (rec rec' : option batch → option bytes → option bytes →
    result (option batch * bool * option bytes)) (name : string) (c : array) : Prop :=
  name = "request"%string ∨ name = "bind_call"%string →
  ∀ v inner here sent, cell_at c = Some v → decode_ipc v = Ok inner →
    rec inner here sent = rec' inner here sent ∧ rec' inner here sent ≠ Throw Out_of_fuel.

Lemma open_column_fuel `{Crypto} `{Arrow} key auth rec rec' here name c sent :
  rec_agrees rec rec' name c →
  open_column key auth rec here name c sent = open_column key auth rec' here name c sent ∧
  open_column key auth rec' here name c sent ≠ Throw Out_of_fuel.
Proof.
  intros Hrec. unfold open_column. destruct (a_type c); try by split.
  destruct (cell_at c) as [v|] eqn:Hv; [|by split].
  case_bool_decide; [split; [done|]; apply bind_not_fuel; [apply open_fuel|done]|].
  case_bool_decide.
  { destruct here; split; try done. apply bind_not_fuel; [apply open_fuel|done]. }
  destruct (_ || _) eqn:Hn; [|by split].
  apply orb_true_iff in Hn. rewrite !bool_decide_eq_true in Hn.
  destruct (decode_ipc v) as [inner|] eqn:Hd; cbn [mbind result_bind].
  - destruct (Hrec Hn v inner here sent Hv Hd) as [-> Hr]. split; [done|].
    apply bind_not_fuel; [done|]. intros [[[o|] []] s] _; try done.
    apply bind_not_fuel; [apply encode_ipc_fuel|done].
  - split; [done|]. intros [= ->]. by apply (decode_ipc_fuel v).
Qed.

Lemma open_columns_fuel `{Crypto} `{Arrow} key auth rec rec' here fields cols sent :
  (∀ i f c, fields !! i = Some f → cols !! i = Some c → rec_agrees rec rec' (f_name f) c) →
  open_columns key auth rec here fields cols sent = open_columns key auth rec' here fields cols sent ∧
  open_columns key auth rec' here fields cols sent ≠ Throw Out_of_fuel.
Proof.
  revert cols sent. induction fields as [|f fields IH]; intros [|c cols] sent Hrec; try by split.
  cbn [open_columns].
  destruct (open_column_fuel key auth rec rec' here (f_name f) c sent (Hrec 0%nat f c eq_refl eq_refl))
    as [-> Hc].
  destruct (open_column key auth rec' here (f_name f) c sent) as [[[c' ch] s]|e];
    cbn [mbind result_bind]; [|by split; [|intros [= ->]]].
  destruct (IH cols s) as [-> Hs]; [intros i; apply (Hrec (S i))|].
  split; [done|]. apply bind_not_fuel; [done|]. by intros [[]].
Qed.

(** ** Properties *)

(**  An opaque value opens to [p] exactly when it is a seal of [p], with
    this key, for this caller and -- for a transaction -- under this attach
    envelope. *)
Theorem open_iff_seal `{C : Crypto} `{!CryptoLaws C} key auth env p :
  (open_attach key env auth = Ok p ↔
   ∃ nonce, length nonce = kAeadNonceBytes ∧ env = seal_attach key p auth nonce) ∧
  ∀ attach, open_transaction key env auth attach = Ok p ↔
    ∃ nonce, length nonce = kAeadNonceBytes ∧ env = seal_transaction key p auth attach nonce.
Proof. split; [apply open_Ok|intros; apply open_Ok]. Qed.

(**  A transaction sealed for one caller under one attach envelope opens
    for that caller under that envelope only, unless the AEAD is forged.
    (Domains and principals hold no NUL byte.) *)
Theorem open_transaction_bound `{C : Crypto} `{!CryptoLaws C} key auth auth' a a' p p' nonce :
  nul_free (domain auth) → nul_free (domain auth') →
  nul_free (default [] (principal auth)) → nul_free (default [] (principal auth')) →
  length nonce = kAeadNonceBytes →
  open_transaction key (seal_transaction key p auth a nonce) auth' a' = Ok p' →
  (same_caller auth auth' ∧ a = a') ∨ aead_forgery.
Proof.
  intros Hd Hd' Hp Hp' Hn Ho.
  destruct (decide (transaction_aad auth a = transaction_aad auth' a')) as [He|He].
  - left. by eapply transaction_aad_inj.
  - right. apply open_Ok in Ho as (nonce' & Hn' & Hs).
    exists key, p, (transaction_aad auth a), (transaction_aad auth' a'), nonce.
    split_and!; [done..|]. injection Hs as Hs. rewrite Hs, aead_open_seal by done. by eexists.
Qed.

(**  Nothing slips past the boundary: when [Call::open] accepts a request,
    each of its attach and transaction fields is one row of binary, and holds
    no value or, in place of the value sent, its plaintext -- opened for this
    caller, a transaction under the attach value of the same request. *)
Theorem call_open_opens `{C : Crypto} `{A : Arrow} `{!ArrowLaws A} fuel c key b ob c' i name :
  key_ c = Some key → NoDup (f_name <$> b_schema b) → length (b_columns b) = length (b_schema b) →
  call_open fuel c (Some b) = Ok (ob, c') →
  f_name <$> b_schema b !! i = Some name → name = kAttachField ∨ name = kTransactionField →
  b_rows b = 1 ∧ ∃ col b' col', b_columns b !! i = Some col ∧ a_type col = T_binary ∧
    ob = Some b' ∧ b_columns b' !! i = Some col' ∧
    opened_cell key (auth_ c) (attach_at b) name col col'.
Proof.
  intros Hk Hnd Hlen Ho Hi Hname. unfold call_open in Ho. rewrite Hk in Ho.
  apply bind_Ok in Ho as ([[o ch] s] & Ho & H1). simplify_eq/=.
  destruct fuel as [|fuel]; [done|]. cbn [open_batch] in Ho.
  apply bind_Ok in Ho as ([] & Hca & Ho). apply bind_Ok in Ho as ([] & Hct & Ho).
  assert (b_rows b = 1 ∧ is_binary_column b i = true) as [Hr Hbin]
    by (destruct Hname; subst; by eapply check_field_Ok).
  split; [done|]. rewrite Hr in Ho. cbn [negb Z.eqb] in Ho.
  apply is_binary_column_true in Hbin as (col & Hcol & Ht).
  apply bind_Ok in Ho as ([[cols ch'] s'] & Hcols & Ho). cbn beta iota in Ho.
  apply open_columns_spec in Hcols as [Hcols Hsame].
  destruct (b_schema b !! i) as [f|] eqn:Hf; [|done]. injection Hi as Hi.
  destruct (Hcols i f col Hf Hcol) as (col' & Hcol' & Hop). rewrite Hi in Hop.
  assert (match attach_at b with Some s => Some s | None => None end = attach_at b) as Hh
    by by destruct (attach_at b).
  rewrite Hh in Hop. destruct ch'; simplify_eq/=.
  - by exists col, (mkBatch (b_schema b) (b_metadata b) 1 cols), col'.
  - rewrite Hsame in Hcol' by done. by exists col, b, col'.
Qed.

(**  [Call::open] terminates on every request whose records nest finitely
    deep: fuel for that depth is enough, and more fuel gives the same answer. *)
Theorem open_batch_terminates `{Crypto} `{Arrow} key auth n m b outer sent :
  nested_within n b → (n ≤ m)%nat →
  open_batch key auth m b outer sent = open_batch key auth n b outer sent ∧
  open_batch key auth n b outer sent ≠ Throw Out_of_fuel.
Proof.
  revert m b outer sent. induction n as [|n IH]; intros m [b|] outer sent Hb Hm; [done|by destruct m| |by destruct m].
  destruct m as [|m]; [lia|]. cbn [open_batch].
  destruct (check_field b kAttachField) as [[]|] eqn:Ha; cbn [mbind result_bind].
  2: { split; [done|]. intros [= ->]. by apply (check_field_fuel b kAttachField). }
  destruct (check_field b kTransactionField) as [[]|] eqn:Hx; cbn [mbind result_bind].
  2: { split; [done|]. intros [= ->]. by apply (check_field_fuel b kTransactionField). }
  destruct (negb (b_rows b =? 1)); [done|].
  match goal with |- context [open_columns _ _ _ ?h _ _ ?s] =>
    destruct (open_columns_fuel key auth (open_batch key auth m) (open_batch key auth n)
      h (b_schema b) (b_columns b) s) as [-> Hc] end.
  { intros i f c Hf Hc Hn v inner here s Hv Hd. apply IH; [by eapply Hb|lia]. }
  split; [done|]. apply bind_not_fuel; [done|]. by intros [[? []] ?].
Qed.

(** ** Witnesses *)
#[local] Existing Instance toy_crypto.
#[local] Existing Instance toy_arrow.
Definition demo_key : bytes := bs "an AEAD key of thirty-two bytes.".
Definition demo_nonce : bytes := bs "abcdefghijklmnopqrstuvwx".
Definition demo_auth : AuthContext := mkAuth true (bs "login") (Some (bs "alice")).
Definition demo_attach : bytes := seal_attach demo_key (bs "catalog") demo_auth demo_nonce.
Definition demo_txn : bytes := seal_transaction demo_key (bs "txn 1") demo_auth demo_attach demo_nonce.
Definition binary_field (n : string) : field := Field n T_binary true [].
Definition demo_request : batch :=
  mkBatch [binary_field kAttachField; binary_field kTransactionField; binary_field "sql"] None 1
    [one_binary demo_attach; one_binary demo_txn; one_binary (bs "SELECT 1")].
Definition demo_call : Call := mkCall (Some demo_key) demo_auth None.

Example open_transaction_bound_witness :
  (same_caller demo_auth demo_auth ∧ demo_attach = demo_attach) ∨ aead_forgery.
Proof.
  apply (open_transaction_bound (C := toy_crypto) demo_key demo_auth demo_auth demo_attach demo_attach
    (bs "txn 1") (bs "txn 1") demo_nonce); first [by_decide | by vm_compute].
Defined.

Example call_open_opens_witness :
  b_rows demo_request = 1 ∧ ∃ col b' col', b_columns demo_request !! 1%nat = Some col ∧
    a_type col = T_binary ∧
    Some (mkBatch (b_schema demo_request) None 1
      [one_binary (bs "catalog"); one_binary (bs "txn 1"); one_binary (bs "SELECT 1")]) = Some b' ∧
    b_columns b' !! 1%nat = Some col' ∧
    opened_cell demo_key demo_auth (attach_at demo_request) kTransactionField col col'.
Proof.
  apply (call_open_opens (C := toy_crypto) (A := toy_arrow) 1 demo_call demo_key demo_request _
    (mkCall (Some demo_key) demo_auth (Some demo_attach)) 1 kTransactionField); try by vm_compute.
  - by_decide.
  - by right.
Defined.

(** The request inside a record of its own, as a bind sends it. *)
Definition demo_outer : batch :=
  mkBatch [binary_field "request"] None 1 [one_binary (toy_write demo_request)].

Example open_batch_terminates_witness :
  nested_within 2 (Some demo_outer) ∧
  open_batch demo_key demo_auth 7 (Some demo_outer) None None =
    open_batch demo_key demo_auth 2 (Some demo_outer) None None.
Proof.
  assert (nested_within 2 (Some demo_outer)) as Hn.
  { intros [|i] f c v inner Hf Hc Hname Hv Hd; [|by destruct i].
    vm_compute in Hf, Hc. injection Hf as <-. injection Hc as <-.
    vm_compute in Hv. injection Hv as <-.
    assert (inner = Some demo_request) as -> by (vm_compute in Hd |- *; by injection Hd as <-).
    intros [|[|[|i]]] f c v inner Hf Hc Hname' _ _; vm_compute in Hf;
      (injection Hf as <-; by destruct Hname') || by destruct i. }
  split; [done|]. apply (open_batch_terminates (H := toy_crypto) (H0 := toy_arrow)); [done|lia].
Defined.

Example open_iff_seal_witness :
  open_attach demo_key demo_attach demo_auth = Ok (bs "catalog") ∧
  ∃ nonce, length nonce = kAeadNonceBytes ∧
    demo_attach = seal_attach demo_key (bs "catalog") demo_auth nonce.
Proof.
  destruct (open_iff_seal (C := toy_crypto) demo_key demo_auth demo_attach (bs "catalog")) as [H _].
  split; [by vm_compute|]. apply H. by vm_compute.
Defined.

End OpaqueSeal.
