(* ===== verification/ArrowCompute.v ===== *)
(** * The Arrow compute functions the sources call

    Kernels, casts and filters are Arrow's: the class [Compute].  A kernel is
    called by name on data -- arrays or a scalar that stands for any number of
    rows -- and may fail.  [ComputeLaws] says what is documented of the ones
    the sources rely on: kernels and casts work row by row, Kleene's and the
    comparison kernels compute what they are named for, a filter keeps the rows
    whose mask is true. *)

From Stdlib Require Import SpecFloat.
From S2P Require Import Prelude Arrow.

Inductive datum : Type :=
| D_array (a : array)
| D_scalar (t : dtype) (v : value).

Definition datum_type (d : datum) : dtype :=
  match d with D_array a => a_type a | D_scalar t _ => t end.

(** The value for a row. *)
Definition at_row (d : datum) (i : nat) : value :=
  match d with D_array a => default V_null (a_values a !! i) | D_scalar _ v => v end.

(** An array of [n] rows, or a scalar. *)
Definition fits (n : nat) (d : datum) : Prop :=
  match d with D_array a => length (a_values a) = n | D_scalar _ _ => True end.

Definition is_true (v : value) : bool := match v with V_bool true => true | _ => false end.

(** The types of which an integer, and a string or list, can be a value. *)
Definition int_type (t : dtype) : bool :=
  match t with T_bool | T_struct _ => false | _ => negb (floating_type t) end.
Definition other_type (t : dtype) : bool := int_type t && negb (is_integer t).

(** A value is of a type as far as the sources' type tests go: a float is the
    value of a floating type, a boolean that of the boolean type, an integer
    type has only integers, a struct is the value of a struct type, and its
    fields are of their types. *)
Fixpoint plain_typed (t : dtype) (v : value) {struct v} : Prop :=
  match v with
  | V_null => True
  | V_float _ => floating_type t = true
  | V_struct l =>
      match t with
      | T_struct fs =>
          (fix each (fs : list field) (l : list value) {struct l} : Prop :=
             match fs, l with
             | f :: fs, v :: l =>
                 match f_type f with T_dictionary _ s => plain_typed s v | t => plain_typed t v end ∧ each fs l
             | _, _ => True
             end) fs l
      | _ => False
      end
  | V_bool _ => t = T_bool
  | V_int _ => int_type t = true
  | V_text _ | V_list _ => other_type t = true
  end.

(** A dictionary-encoded value is one of the dictionary's type. *)
Definition value_typed (t : dtype) (v : value) : Prop :=
  match t with T_dictionary _ s => plain_typed s v | t => plain_typed t v end.
Definition array_typed (a : array) : Prop := Forall (value_typed (a_type a)) (a_values a).
Definition datum_typed (d : datum) : Prop :=
  match d with D_array a => array_typed a | D_scalar t v => value_typed t v end.

(** The type of the values, dictionary encoding aside. *)
Fixpoint value_type (t : dtype) : dtype :=
  match t with T_dictionary _ v => value_type v | _ => t end.

(** A type without dictionaries of dictionaries. *)
Fixpoint simple_type (t : dtype) : Prop :=
  match t with
  | T_dictionary _ s => value_type s = s ∧ simple_type s
  | T_struct fs =>
      (fix each (fs : list field) : Prop :=
         match fs with [] => True | Field _ t _ _ :: fs => simple_type t ∧ each fs end) fs
  | _ => True
  end.
Definition decoded_type (t : dtype) : Prop := value_type t = t ∧ simple_type t.

Definition boolean_kernels : list string :=
  ["and_kleene"; "or_kleene"; "invert"; "is_null"; "is_valid"; "equal"; "not_equal"; "less";
   "less_equal"; "greater"; "greater_equal"]%string.
Definition arithmetic_kernels : list string := ["add_checked"; "subtract_checked"; "multiply_checked"; "negate_checked"]%string.
(** The kernels the sources call by name, each of which works row by row. *)
Definition row_kernels : list string := boolean_kernels ++ "if_else"%string :: arithmetic_kernels.

Class Compute := {
  (** [arrow::MakeArrayFromScalar] *)
  make_array : dtype → value → nat → string + array;
  (** [arrow::compute::CallFunction] *)
  call_function : string → list datum → string + datum;
  (** [arrow::compute::Cast] *)
  cast : datum → dtype → string + datum;
  (** [arrow::compute::Filter] with [DROP] *)
  filter_rows : batch → array → string + batch;
  (** [arrow::Concatenate] and [arrow::compute::Unique] *)
  concatenate : list array → string + array;
  unique : array → string + array;
  (** [Scalar::Equals] *)
  scalar_equals : value → value → bool;
  (** [StructArray::field]: what it holds under a null parent is not specified. *)
  struct_field : array → nat → array;
  (** What a kernel -- by the types of its operands -- and a cast do to the values of
      one row, and the type of a kernel's result. *)
  kernel_type : string → list dtype → dtype;
  kernel : string → list dtype → list value → value;
  cast_value : dtype → dtype → value → value;
}.

(** Three-valued logic. *)
Definition kleene_and (a b : value) : value :=
  match a, b with
  | V_bool false, _ | _, V_bool false => V_bool false
  | V_bool true, V_bool true => V_bool true
  | _, _ => V_null
  end.
Definition kleene_or (a b : value) : value :=
  match a, b with
  | V_bool true, _ | _, V_bool true => V_bool true
  | V_bool false, V_bool false => V_bool false
  | _, _ => V_null
  end.
Definition kleene_not (a : value) : value :=
  match a with V_bool x => V_bool (negb x) | _ => V_null end.

Definition int_compare (f : Z → Z → bool) (l r : value) : value :=
  match l, r with V_int a, V_int b => V_bool (f a b) | _, _ => V_null end.

(** Keeping the values of the rows whose mask is true. *)
Fixpoint keep {A} (mask : list value) (l : list A) : list A :=
  match mask, l with
  | m :: mask, x :: l => if is_true m then x :: keep mask l else keep mask l
  | _, _ => []
  end.

(** [kernel_type] and [kernel] are of the kernels of [row_kernels]; of arithmetic no
    more is said than that a row's result is a function of the operands' types and
    values: what it rounds to is the type's. *)
Class ComputeLaws (C : Compute) : Prop := {
  call_typed f args d : f ∈ row_kernels → call_function f args = inr d → Forall datum_typed args → datum_typed d;
  call_type f args d : f ∈ row_kernels → call_function f args = inr d →
    datum_type d = kernel_type f (map (λ a, value_type (datum_type a)) args);
  kernel_type_decoded f ts : f ∈ row_kernels → Forall decoded_type ts → decoded_type (kernel_type f ts);
  kernel_type_bool f ts : f ∈ boolean_kernels → kernel_type f ts = T_bool;
  kernel_type_if_else c t : kernel_type "if_else" [c; t; t] = t;
  cast_typed d t d' : cast d t = inr d' → datum_typed d → datum_typed d';
  struct_field_typed a fs i f : array_typed a → a_type a = T_struct fs → fs !! i = Some f →
    a_type (struct_field a i) = f_type f ∧ array_typed (struct_field a i);
  make_array_spec t v n a : make_array t v n = inr a → a = mkArray t (replicate n v);
  call_rows f args d n : f ∈ row_kernels → call_function f args = inr d → Forall (fits n) args →
    fits n d ∧ ∀ i, (i < n)%nat → at_row d i = kernel f (map datum_type args) (map (λ a, at_row a i) args);
  cast_rows d t d' n : cast d t = inr d' → fits n d →
    fits n d' ∧ datum_type d' = t ∧
    (∀ a, d = D_array a → ∃ a', d' = D_array a') ∧
    ∀ i, (i < n)%nat → at_row d' i = cast_value (datum_type d) t (at_row d i);
  cast_value_null s t : cast_value s t V_null = V_null;
  cast_value_decoded s t v : cast_value s t v = cast_value (value_type s) t v;
  cast_value_dictionary i s v : cast_value (T_dictionary i s) s v = v;
  cast_value_double s f : cast_value s T_double (V_float f) = V_float f;
  cast_value_int64 s z : is_integer (value_type s) = true → cast_value s T_int64 (V_int z) = V_int z;
  cast_int64_range d d' n i z : cast d T_int64 = inr d' → is_integer (value_type (datum_type d)) = true →
    fits n d → (i < n)%nat → at_row d i = V_int z → is_int64 z;
  kernel_and ts a b : kernel "and_kleene" ts [a; b] = kleene_and a b;
  kernel_or ts a b : kernel "or_kleene" ts [a; b] = kleene_or a b;
  kernel_invert ts a : kernel "invert" ts [a] = kleene_not a;
  kernel_is_null ts a : kernel "is_null" ts [a] = V_bool (is_null a);
  kernel_is_valid ts a : kernel "is_valid" ts [a] = V_bool (negb (is_null a));
  kernel_if_else ts c a b : kernel "if_else" ts [c; a; b] =
    match c with V_bool true => a | V_bool false => b | _ => V_null end;
  kernel_null f ts a b : f ∈ ["equal"; "not_equal"; "less"; "less_equal"; "greater"; "greater_equal"]%string →
    is_null a || is_null b = true → kernel f ts [a; b] = V_null;
  kernel_equal t u a b : is_integer t = true → is_integer u = true → kernel "equal" [t; u] [V_int a; V_int b] = V_bool (a =? b);
  kernel_equal_bool ts a b : kernel "equal" ts [V_bool a; V_bool b] = V_bool (Bool.eqb a b);
  kernel_not_equal t u a b : is_integer t = true → is_integer u = true → kernel "not_equal" [t; u] [V_int a; V_int b] = V_bool (negb (a =? b));
  kernel_less t u a b : is_integer t = true → is_integer u = true → kernel "less" [t; u] [V_int a; V_int b] = V_bool (a <? b);
  kernel_less_equal t u a b : is_integer t = true → is_integer u = true → kernel "less_equal" [t; u] [V_int a; V_int b] = V_bool (a <=? b);
  kernel_greater t u a b : is_integer t = true → is_integer u = true → kernel "greater" [t; u] [V_int a; V_int b] = V_bool (b <? a);
  kernel_greater_equal t u a b : is_integer t = true → is_integer u = true → kernel "greater_equal" [t; u] [V_int a; V_int b] = V_bool (b <=? a);
  filter_rows_spec b m b' : filter_rows b m = inr b' →
    b_schema b' = b_schema b ∧ b_metadata b' = b_metadata b ∧
    b_rows b' = Z.of_nat (length (keep (a_values m) (a_values m))) ∧
    b_columns b' = map (λ c, mkArray (a_type c) (keep (a_values m) (a_values c))) (b_columns b);
  concatenate_spec l a : concatenate l = inr a → a_values a = concat (map a_values l);
  unique_spec a a' : unique a = inr a' → ∀ v, v ∈ a_values a' ↔ v ∈ a_values a;
  struct_field_length a i : length (a_values (struct_field a i)) = length (a_values a);
  struct_field_valid a i j l : a_values a !! j = Some (V_struct l) →
    a_values (struct_field a i) !! j = Some (default V_null (l !! i));
}.

(** ** A concrete instance *)

Definition toy_kernel (f : string) (args : list value) : value :=
  match args with
  | [a] =>
      if bool_decide (f = "invert"%string) then kleene_not a
      else if bool_decide (f = "is_null"%string) then V_bool (is_null a)
      else if bool_decide (f = "is_valid"%string) then V_bool (negb (is_null a))
      else V_null
  | [a; b] =>
      if bool_decide (f = "and_kleene"%string) then kleene_and a b
      else if bool_decide (f = "or_kleene"%string) then kleene_or a b
      else
        match a, b with
        | V_int x, V_int y =>
            if bool_decide (f = "equal"%string) then V_bool (x =? y)
            else if bool_decide (f = "not_equal"%string) then V_bool (negb (x =? y))
            else if bool_decide (f = "less"%string) then V_bool (x <? y)
            else if bool_decide (f = "less_equal"%string) then V_bool (x <=? y)
            else if bool_decide (f = "greater"%string) then V_bool (y <? x)
            else if bool_decide (f = "greater_equal"%string) then V_bool (y <=? x)
            else if bool_decide (f = "add_checked"%string) then V_int (x + y)
            else V_null
        | V_bool x, V_bool y => if bool_decide (f = "equal"%string) then V_bool (Bool.eqb x y) else V_null
        | _, _ => V_null
        end
  | [c; a; b] =>
      if bool_decide (f = "if_else"%string)
      then match c with V_bool true => a | V_bool false => b | _ => V_null end else V_null
  | _ => V_null
  end.

(** The rows of an argument list: the first array's, or one for scalars. *)
Fixpoint rows_of (args : list datum) : option nat :=
  match args with
  | [] => None
  | D_array a :: _ => Some (length (a_values a))
  | _ :: args => rows_of args
  end.

(** Whether the toy instance handles a value of a type. *)
Definition toy_castable (t : dtype) (v : value) : bool :=
  match t with
  | T_dictionary _ _ => false
  | T_struct _ => is_null v
  | _ =>
      match v with
      | V_null => true
      | V_float _ => floating_type t
      | V_struct _ => false
      | V_bool _ => match t with T_bool => true | _ => false end
      | V_int z => match t with T_int64 => bool_decide (is_int64 z) | _ => int_type t end
      | V_text _ | V_list _ => other_type t
      end
  end.

Definition toy_datum (t : dtype) (d : datum) : string + datum :=
  match d with
  | D_array a => if forallb (toy_castable t) (a_values a) then inr (D_array (mkArray t (a_values a)))
                 else inl "not supported"%string
  | D_scalar _ v => if toy_castable t v then inr (D_scalar t v) else inl "not supported"%string
  end.

Definition toy_type (f : string) (args : list dtype) : dtype :=
  match args with
  | [a; _] => if bool_decide (f = "add_checked"%string) then a else T_bool
  | [_; a; _] => if bool_decide (f = "if_else"%string) then a else T_bool
  | _ => T_bool
  end.

Definition toy_call (f : string) (args : list datum) : string + datum :=
  toy_datum (toy_type f (map (λ a, value_type (datum_type a)) args))
    match rows_of args with
    | Some n => D_array (mkArray T_null (map (λ i, toy_kernel f (map (λ a, at_row a i) args)) (seq 0 n)))
    | None => D_scalar T_null (toy_kernel f (map (λ a, at_row a 0) args))
    end.

Definition toy_cast (d : datum) (t : dtype) : string + datum := toy_datum t d.

Definition toy_filter (b : batch) (m : array) : string + batch :=
  inr (mkBatch (b_schema b) (b_metadata b) (Z.of_nat (length (keep (a_values m) (a_values m))))
    (map (λ c, mkArray (a_type c) (keep (a_values m) (a_values c))) (b_columns b))).

Definition toy_struct_field (a : array) (i : nat) : array :=
  mkArray match a_type a with
          | T_struct fs => match fs !! i with Some f => f_type f | None => T_null end
          | _ => T_null
          end
    (map (λ v, match v with V_struct l => default V_null (l !! i) | _ => V_null end) (a_values a)).

Definition toy_scalar_equals (a b : value) : bool :=
  match a, b with
  | V_int x, V_int y => x =? y
  | V_bool x, V_bool y => Bool.eqb x y
  | V_text x, V_text y => bool_decide (x = y)
  | _, _ => false
  end.

Definition toy_compute : Compute :=
  {| make_array t v n := inr (mkArray t (replicate n v));
     call_function := toy_call; cast := toy_cast; filter_rows := toy_filter;
     concatenate l := inr (mkArray T_null (concat (map a_values l)));
     unique := inr; scalar_equals := toy_scalar_equals; struct_field := toy_struct_field;
     kernel_type := toy_type; kernel f _ args := toy_kernel f args; cast_value _ _ v := v |}.

Lemma simple_field fs i f : simple_type (T_struct fs) → fs !! i = Some f → simple_type (f_type f).
Proof.
  revert i. induction fs as [|[n t nl md] fs IH]; intros i; [done|]. cbn. intros [Ht Hfs].
  destruct i as [|i]; cbn; [by intros [= <-]|by apply IH].
Qed.

Lemma simple_value_type t : simple_type t → decoded_type (value_type t).
Proof.
  unfold decoded_type. induction t; try done. cbn. intros [He Hs]. by rewrite !He.
Qed.

Lemma rows_of_fits args n m : rows_of args = Some m → Forall (fits n) args → m = n.
Proof.
  induction args as [|[a|t v] args IH]; cbn; [done| |]; intros Hr Hf; inversion_clear Hf as [|? ? Ha Hf'].
  - cbn in Ha. congruence.
  - by apply IH.
Qed.

Lemma rows_of_none args i : rows_of args = None → map (λ a, at_row a i) args = map (λ a, at_row a 0) args.
Proof.
  induction args as [|[a|t v] args IH]; cbn; [done..|]. intros Hr. f_equal. by apply IH.
Qed.

Lemma toy_castable_typed t v : toy_castable t v = true → value_typed t v.
Proof.
  unfold toy_castable, value_typed. destruct t, v; cbn; try done; by rewrite ?negb_true_iff.
Qed.

Lemma toy_datum_inv t d d' : toy_datum t d = inr d' →
  datum_typed d' ∧ datum_type d' = t ∧ (∀ n, fits n d → fits n d') ∧ (∀ i, at_row d' i = at_row d i) ∧
  (∀ a, d = D_array a → ∃ a', d' = D_array a') ∧
  ∀ n i, fits n d → (i < n)%nat → toy_castable t (at_row d i) = true.
Proof.
  destruct d as [a|s v]; cbn.
  - destruct (forallb _ _) eqn:Hall; [|done]. intros [= <-]. rewrite forallb_forall in Hall.
    assert (∀ v, v ∈ a_values a → toy_castable t v = true) as Hin by (intros v Hv; by apply Hall, list_elem_of_In).
    split_and!; try done.
    + apply Forall_forall. intros v Hv. by apply toy_castable_typed, Hin.
    + intros b _. by eexists.
    + intros n i Hn Hi. apply Hin. destruct (a_values a !! i) eqn:Hv; cbn; [by eapply list_elem_of_lookup_2|].
      apply lookup_ge_None in Hv. lia.
  - destruct (toy_castable t v) eqn:Hv; [|done]. intros [= <-].
    split_and!; try done. by apply toy_castable_typed.
Qed.

Lemma plain_struct_field fs l i f :
  plain_typed (T_struct fs) (V_struct l) → fs !! i = Some f →
  value_typed (f_type f) (default V_null (l !! i)).
Proof.
  cbn. revert l i. induction fs as [|g fs IH]; intros l i; [done|].
  destruct l as [|v l]; intros Hl Hi; [by destruct (f_type f)|].
  destruct i as [|i]; cbn in Hi |- *; [|by apply IH; [destruct Hl|]].
  injection Hi as ->. destruct Hl as [Hv _]. unfold value_typed. by destruct (f_type f).
Qed.

#[global] Instance toy_compute_laws : ComputeLaws toy_compute.
Proof.
  split; cbn [make_array call_function cast filter_rows concatenate unique struct_field kernel kernel_type
    cast_value toy_compute]; try done.
  - intros f args d _ Hd%toy_datum_inv _. apply Hd.
  - intros f args d _ (_ & -> & _)%toy_datum_inv. done.
  - intros f ts _ Hts. unfold toy_type. rewrite Forall_forall in Hts.
    assert (decoded_type T_bool) by done.
    destruct ts as [|? [|? [|? []]]]; cbn; try done; case_bool_decide; try done; apply Hts; set_solver.
  - intros f ts Hf. unfold toy_type. destruct ts as [|? [|? [|? []]]]; cbn; try done;
      case_bool_decide as E; try done; subst f; exfalso; revert Hf; apply (bool_decide_unpack _); by vm_compute.
  - intros d t d' Hd%toy_datum_inv _. apply Hd.
  - intros a fs i f Ha Ht Hf. unfold toy_struct_field. rewrite Ht, Hf. split; [done|].
    apply Forall_forall. cbn. intros w (v & -> & Hv)%list_elem_of_fmap.
    unfold array_typed in Ha. rewrite Ht, Forall_forall in Ha. specialize (Ha v Hv).
    destruct v; try (by destruct (f_type f)). by eapply plain_struct_field.
  - intros t v n a [= <-]. done.
  - intros f args d n _ (_ & _ & Hfit & Hat & _)%toy_datum_inv Hf.
    destruct (rows_of args) as [m|] eqn:Hr.
    + apply (rows_of_fits args n m Hr) in Hf as ->. split.
      { apply Hfit. cbn. by rewrite length_map, length_seq. }
      intros i Hi. rewrite Hat. cbn. by rewrite (list_lookup_fmap _ (seq 0 n)), lookup_seq_lt.
    + split; [by apply Hfit|]. intros i _. rewrite Hat. cbn. by rewrite (rows_of_none args i Hr).
  - intros d t d' n (_ & Ht & Hfit & Hat & Harr & _)%toy_datum_inv Hn. split_and!; auto.
  - intros d d' n i z (_ & _ & _ & _ & _ & Hc)%toy_datum_inv _ Hn Hi Hz. specialize (Hc n i Hn Hi).
    rewrite Hz in Hc. cbn in Hc. by apply (bool_decide_eq_true_1 _).
  - intros f ts a b Hf Hn. unfold toy_kernel.
    repeat (apply elem_of_cons in Hf as [->|Hf]; [by destruct a, b|]). set_solver.
  - intros b m b' [= <-]. done.
  - intros l a [= <-]. done.
  - by intros a a' [= <-].
  - intros a i. unfold toy_struct_field. cbn. by rewrite length_map.
  - intros a i j l Hj. unfold toy_struct_field. cbn. by rewrite (list_lookup_fmap _ (a_values a)), Hj.
Qed.
