(* ===== verification/Text.v ===== *)
(** * Numbers as text: [std::to_string], [strtoll], [strtoull]

    The standard library's conversions, as far as the sources use them: log
    ids and group ids become file names and keys, and are read back.  And the
    order of strings, that of [std::map]. *)

From S2P Require Import Prelude.

Definition is_digit (c : ascii) : bool := bool_decide (48 ≤ bz c ≤ 57).
Definition is_space (c : ascii) : bool := bool_decide (bz c = 32) || bool_decide (9 ≤ bz c ≤ 13).

(** The digits of [n] put before [acc]; [fuel] is the most digits there can be:
    20 for a 64-bit integer. *)
Fixpoint dec_loop (fuel : nat) (n : Z) (acc : bytes) : bytes :=
  match fuel with
  | O => acc
  | S fuel =>
      let acc := zb (48 + n mod 10) :: acc in
      if n <? 10 then acc else dec_loop fuel (n / 10) acc
  end.

Definition to_string (z : Z) : bytes :=
  if z <? 0 then zb 45 :: dec_loop 20 (- z) [] else dec_loop 20 z [].

Fixpoint read_digits (l : bytes) (acc : Z) : Z :=
  match l with
  | c :: l => if is_digit c then read_digits l (10 * acc + (bz c - 48)) else acc
  | [] => acc
  end.

Fixpoint skip_spaces (l : bytes) : bytes :=
  match l with c :: r => if is_space c then skip_spaces r else l | [] => [] end.

(** A sign, and the digits after it. *)
Definition read_sign (l : bytes) : bool * bytes :=
  match l with
  | c :: r => if bool_decide (bz c = 45) then (true, r)
              else if bool_decide (bz c = 43) then (false, r) else (false, l)
  | [] => (false, [])
  end.

(** [strtoll(s, nullptr, 10)]: a number out of range is clamped. *)
Definition strtoll (l : bytes) : Z :=
  let '(neg, r) := read_sign (skip_spaces l) in
  let n := read_digits r 0 in
  if neg then Z.max (- 2 ^ 63) (- n) else Z.min (2 ^ 63 - 1) n.

(** [strtoull(s, nullptr, 10)]: a minus sign negates modulo [2^64]. *)
Definition strtoull (l : bytes) : Z :=
  let '(neg, r) := read_sign (skip_spaces l) in
  let n := Z.min (2 ^ 64 - 1) (read_digits r 0) in
  if neg then (- n) mod 2 ^ 64 else n.

(** ** Lemmas *)

Lemma digit_char z : 0 ≤ z < 10 → is_digit (zb (48 + z)) = true ∧ bz (zb (48 + z)) = 48 + z.
Proof.
  intros Hz. unfold is_digit. rewrite bz_zb, Z.mod_small by lia.
  split; [apply bool_decide_eq_true|]; lia.
Qed.

Lemma dec_loop_read fuel n acc :
  0 ≤ n < 10 ^ Z.of_nat fuel → (0 < fuel)%nat →
  read_digits (dec_loop fuel n acc) 0 = read_digits acc n.
Proof.
  revert n acc. induction fuel as [|fuel IH]; intros n acc Hn Hf; [lia|]. cbn [dec_loop].
  pose proof (Z.mod_pos_bound n 10 ltac:(lia)) as Hm.
  destruct (digit_char (n mod 10) Hm) as [Hd Hb].
  destruct (Z.ltb_spec n 10).
  - cbn [read_digits]. rewrite Hd, Hb. f_equal. rewrite Z.mod_small; lia.
  - rewrite Nat2Z.inj_succ, Z.pow_succ_r in Hn by lia.
    pose proof (Z.div_mod n 10 ltac:(lia)) as Hdm.
    destruct fuel as [|fuel]; [lia|].
    rewrite IH; [|split; [apply Z.div_pos; lia|apply Z.div_lt_upper_bound; lia]|lia].
    cbn [read_digits]. rewrite Hd, Hb. f_equal. lia.
Qed.

Lemma dec_loop_digits fuel n acc :
  (0 < fuel)%nat → 0 ≤ n → ∃ c l, dec_loop fuel n acc = c :: l ++ acc ∧ Forall (λ c, is_digit c = true) (c :: l).
Proof.
  revert n acc. induction fuel as [|fuel IH]; intros n acc Hf Hn; [lia|]. cbn [dec_loop].
  destruct (digit_char (n mod 10)) as [Hd _]; [apply Z.mod_pos_bound; lia|].
  destruct (n <? 10); [by exists (zb (48 + n mod 10)), []; split; [|repeat constructor]|].
  destruct fuel as [|fuel]; [by exists (zb (48 + n mod 10)), []; split; [|repeat constructor]|].
  destruct (IH (n / 10) (zb (48 + n mod 10) :: acc)) as (c & l & -> & Hl); [lia|apply Z.div_pos; lia|].
  exists c, (l ++ [zb (48 + n mod 10)]). rewrite <- app_assoc. split; [done|].
  rewrite app_comm_cons. apply Forall_app. split; [done|by repeat constructor].
Qed.

Lemma digit_not_sign c : is_digit c = true → is_space c = false ∧ bz c ≠ 45 ∧ bz c ≠ 43.
Proof.
  unfold is_digit, is_space. rewrite bool_decide_eq_true. intros Hc. split; [|lia].
  apply orb_false_iff. rewrite !bool_decide_eq_false. lia.
Qed.

Lemma strtoll_digit c l :
  is_digit c = true → strtoll (c :: l) = Z.min (2 ^ 63 - 1) (read_digits (c :: l) 0).
Proof.
  intros Hc. destruct (digit_not_sign c Hc) as (Hs & H1 & H2). unfold strtoll.
  cbn [skip_spaces]. rewrite Hs. unfold read_sign.
  by rewrite (bool_decide_false (bz c = 45)), (bool_decide_false (bz c = 43)) by done.
Qed.

Lemma read_digits_zeros k l : read_digits (replicate k (zb 48) ++ l) 0 = read_digits l 0.
Proof. induction k as [|k IH]; [done|]. cbn [replicate app read_digits]. exact IH. Qed.

(** What follows the digits of a file name. *)
Definition no_digit (r : bytes) : Prop := match r with c :: _ => is_digit c = false | [] => True end.

Lemma read_digits_end r n : no_digit r → read_digits r n = n.
Proof. destruct r as [|c r]; [done|]. by intros Hc; cbn in *; rewrite Hc. Qed.

Lemma dec_loop_app fuel n acc r : dec_loop fuel n (acc ++ r) = dec_loop fuel n acc ++ r.
Proof.
  revert n acc. induction fuel as [|fuel IH]; intros; cbn [dec_loop]; [done|].
  destruct (n <? 10); [done|]. by rewrite <- IH.
Qed.

Lemma strtoll_padded k z r :
  0 ≤ z < 2 ^ 63 → no_digit r → strtoll (replicate k (zb 48) ++ to_string z ++ r) = z.
Proof.
  intros Hz Hr. unfold to_string. destruct (Z.ltb_spec z 0); [lia|].
  assert (read_digits (replicate k (zb 48) ++ dec_loop 20 z [] ++ r) 0 = z) as Hread.
  { rewrite read_digits_zeros, <- dec_loop_app. cbn [app].
    rewrite dec_loop_read by lia. by apply read_digits_end. }
  destruct (dec_loop_digits 20 z []) as (c & l & E & Hl); [lia..|].
  destruct k as [|k]; cbn [replicate app] in *; rewrite ?E in *; cbn [app] in *.
  - rewrite strtoll_digit, Hread; [lia|by inversion Hl].
  - rewrite strtoll_digit, Hread; [lia|done].
Qed.

Lemma strtoll_to_string z : is_int64 z → strtoll (to_string z) = z.
Proof.
  unfold is_int64. intros Hz. destruct (decide (0 ≤ z)).
  - pose proof (strtoll_padded 0 z [] ltac:(lia) I) as H. by rewrite app_nil_r in H.
  - unfold to_string. destruct (Z.ltb_spec z 0); [|lia]. unfold strtoll.
    change (skip_spaces (zb 45 :: ?l)) with (zb 45 :: l). unfold read_sign.
    rewrite bool_decide_true by done. rewrite dec_loop_read by lia. cbn [read_digits]. lia.
Qed.

Lemma to_string_inj y z : is_int64 y → is_int64 z → to_string y = to_string z → y = z.
Proof. intros Hy Hz E. by rewrite <- (strtoll_to_string y), E, strtoll_to_string. Qed.

Lemma to_string_digits z :
  0 ≤ z → ∃ c l, to_string z = c :: l ∧ Forall (λ c, is_digit c = true) (c :: l).
Proof.
  intros Hz. unfold to_string. destruct (Z.ltb_spec z 0); [lia|].
  destruct (dec_loop_digits 20 z []) as (c & l & -> & Hl); [lia..|].
  exists c, l. by rewrite app_nil_r.
Qed.

(** ** The order of strings *)

(** That of [std::string]: by bytes. *)
Fixpoint lex_le (a b : bytes) : bool :=
  match a, b with
  | [], _ => true
  | _, [] => false
  | x :: a, y :: b => (bz x <? bz y) || ((bz x =? bz y) && lex_le a b)
  end.
Definition string_le (a b : string) : Prop := lex_le (bs a) (bs b) = true.

#[global] Instance string_le_dec a b : Decision (string_le a b).
Proof. unfold string_le. apply _. Defined.

Lemma lex_le_refl a : lex_le a a = true.
Proof. induction a as [|x a IH]; [done|]. cbn. by rewrite Z.eqb_refl, IH, orb_true_r. Qed.

Lemma lex_le_total a b : lex_le a b = true ∨ lex_le b a = true.
Proof.
  revert b. induction a as [|x a IH]; intros [|y b]; cbn; auto.
  destruct (Z.ltb_spec (bz x) (bz y)), (Z.ltb_spec (bz y) (bz x)); cbn; auto.
  rewrite !(proj2 (Z.eqb_eq _ _)) by lia. cbn. apply IH.
Qed.

Lemma lex_le_antisym a b : lex_le a b = true → lex_le b a = true → a = b.
Proof.
  revert b. induction a as [|x a IH]; intros [|y b]; cbn; [done..|].
  intros H1 H2. assert (bz x = bz y) as E.
  { apply orb_true_iff in H1 as [H1|[H1 _]%andb_true_iff], H2 as [H2|[H2 _]%andb_true_iff]; lia. }
  rewrite E, Z.ltb_irrefl, Z.eqb_refl in H1, H2. cbn in H1, H2.
  f_equal; [by apply bz_inj|by apply IH].
Qed.

Lemma lex_le_trans a b c : lex_le a b = true → lex_le b c = true → lex_le a c = true.
Proof.
  revert b c. induction a as [|x a IH]; intros [|y b] [|z c]; cbn; [done..|].
  intros [H1|[H1 H1']%andb_true_iff]%orb_true_iff [H2|[H2 H2']%andb_true_iff]%orb_true_iff;
    apply orb_true_iff; [left; lia..|right]. apply andb_true_iff. split; [lia|by eapply IH].
Qed.

#[global] Instance string_le_total : Total string_le.
Proof. intros a b. apply lex_le_total. Qed.
#[global] Instance string_le_trans : Transitive string_le.
Proof. intros a b c. apply lex_le_trans. Qed.
#[global] Instance string_le_antisym : AntiSymm (=) string_le.
Proof. intros a b H1 H2. rewrite <- (str_bs a), <- (str_bs b). f_equal. by apply lex_le_antisym. Qed.
