(* ===== verification/Strtod.v ===== *)
(** * Reading a double ([strtod], [llround])

    The two functions of the C library that the command line of a worker is read with:
    a decimal or hexadecimal number, rounded to the nearest double, and a double rounded
    to an integer. *)

From S2P Require Import Prelude Text.
From Stdlib Require Import SpecFloat.

Module Strtod.

Definition fold_case (c : ascii) : ascii := if bool_decide (65 ≤ bz c ≤ 90) then zb (bz c + 32) else c.
Definition digit_value (c : ascii) : option Z :=
  let l := bz (fold_case c) in
  if bool_decide (48 ≤ l ≤ 57) then Some (l - 48) else if bool_decide (97 ≤ l ≤ 102) then Some (l - 87) else None.
Definition digit_in (base : Z) (c : ascii) : option Z :=
  v ← digit_value c; if bool_decide (v < base) then Some v else None.

(** The digits of a run, onto [acc]: the number, how many there were, and what follows. *)
Fixpoint read_run (base : Z) (l : bytes) (acc n : Z) : Z * Z * bytes :=
  match l with
  | c :: r => match digit_in base c with Some v => read_run base r (base * acc + v) (n + 1) | None => (acc, n, l) end
  | [] => (acc, n, [])
  end.

(** Digits with at most one point among them: the number without the point, how many
    digits came after it, and what follows; nothing if there is no digit. *)
Definition read_mantissa (base : Z) (l : bytes) : option (Z * Z * bytes) :=
  let '(whole, n, r) := read_run base l 0 0 in
  match r with
  | c :: r' =>
      if bool_decide (c = "."%char) then
        let '(m, k, r'') := read_run base r' whole 0 in
        if bool_decide (n + k = 0) then None else Some (m, k, r'')
      else if bool_decide (n = 0) then None else Some (whole, 0, r)
  | [] => if bool_decide (n = 0) then None else Some (whole, 0, r)
  end.

(** An exponent: its mark, a sign and digits; without digits it is no exponent. *)
Definition read_exponent (mark : ascii) (l : bytes) : Z * bytes :=
  match l with
  | c :: r =>
      let '(neg, r) := read_sign r in
      let '(e, n, r) := read_run 10 r 0 0 in
      if bool_decide (fold_case c = mark) && negb (bool_decide (n = 0)) then ((if neg then - e else e), r) else (0, l)
  | [] => (0, [])
  end.

(** The double nearest to [num / den], halves to even. *)
Definition rounded (neg : bool) (num den : Z) : spec_float :=
  if bool_decide (num = 0) then S754_zero neg else
  let '(m, e, loc) := SFdiv_core_binary 53 1024 num 0 den 0 in binary_round_aux 53 1024 neg m e loc.
Definition scaled (neg : bool) (m base e : Z) : spec_float :=
  if bool_decide (m = 0) then S754_zero neg else rounded neg (m * base ^ Z.max 0 e) (base ^ Z.max 0 (- e)).

Definition starts (word : string) (l : bytes) : option bytes :=
  let n := String.length word in
  if bool_decide (map fold_case (take n l) = bs word) then Some (drop n l) else None.
(** [nan(...)]: letters, digits and underscores up to the parenthesis. *)
Fixpoint payload_end (l : bytes) : option bytes :=
  match l with
  | c :: r =>
      if bool_decide (c = ")"%char) then Some r
      else if bool_decide (48 ≤ bz c ≤ 57) || bool_decide (97 ≤ bz (fold_case c) ≤ 122) || bool_decide (c = "_"%char) then payload_end r
      else None
  | [] => None
  end.
Definition after_nan (r : bytes) : bytes :=
  match r with
  | c :: p => if bool_decide (c = "("%char) then default r (payload_end p) else r
  | [] => r
  end.

Definition read_decimal (neg : bool) (l : bytes) : option (spec_float * bytes) :=
  '(m, k, r) ← read_mantissa 10 l;
  let '(e, r) := read_exponent "e" r in Some (scaled neg m 10 (e - k), r).
Definition read_hexadecimal (neg : bool) (l : bytes) : option (spec_float * bytes) :=
  r ← starts "0x" l; '(m, k, r) ← read_mantissa 16 r;
  let '(e, r) := read_exponent "p" r in Some (scaled neg m 2 (e - 4 * k), r).
Definition read_named (neg : bool) (l : bytes) : option (spec_float * bytes) :=
  match starts "infinity" l, starts "inf" l, starts "nan" l with
  | Some r, _, _ | None, Some r, _ => Some (S754_infinity neg, r)
  | None, None, Some r => Some (S754_nan, after_nan r)
  | None, None, None => None
  end.

(** The number and what follows it; [None] if there is none to read. *)
Definition strtod (s : bytes) : option (spec_float * bytes) :=
  let '(neg, l) := read_sign (skip_spaces s) in
  match read_named neg l, read_hexadecimal neg l with
  | Some r, _ | None, Some r => Some r
  | None, None => read_decimal neg l
  end.

(** [llround] of a double in range: halves away from zero. *)
Definition llround (f : spec_float) : Z :=
  match f with
  | S754_finite neg m e =>
      let v := if bool_decide (0 ≤ e) then Zpos m * 2 ^ e else (Zpos m + 2 ^ (- e - 1)) / 2 ^ (- e) in
      if neg then - v else v
  | _ => 0
  end.
Definition double_of (z : Z) : spec_float := binary_normalize 53 1024 z 0 false.
Definition times (a b : spec_float) : spec_float := SFmul 53 1024 a b.

Definition is_finite (f : spec_float) : bool := match f with S754_zero _ | S754_finite _ _ _ => true | _ => false end.

Example strtod_reads :
  strtod (bs " +0.25s") = Some (S754_finite false 4503599627370496 (-54), bs "s") ∧
  strtod (bs "1e400") = Some (S754_infinity false, []) ∧ strtod (bs "0x1p3") = Some (double_of 8, []) ∧
  strtod (bs "-0e") = Some (S754_zero true, bs "e") ∧ strtod (bs "nan(x)y") = Some (S754_nan, bs "y") ∧
  strtod (bs "0.1") = Some (S754_finite false 7205759403792794 (-56), []) ∧ strtod (bs ".") = None.
Proof. vm_compute. repeat split. Qed.

Example llround_rounds : llround (times (S754_finite false 7205759403792794 (-56)) (double_of 1000)) = 100 ∧ llround (S754_finite true 5 (-1)) = -3.
Proof. by vm_compute. Qed.

End Strtod.
