(* ===== verification/Wire.v ===== *)
(** * Reading parameters and building results ([src/wire.cpp])

    The accessors that read one cell of a request batch, with the checks that
    keep a wrong batch an exception, and [ResultBuilder], which makes the one
    row of a response.  The theorems: [finish] lets through exactly the rows the
    schema admits, nested nulls included, and what was set is what the accessors
    read back.

    A dictionary-encoded array is represented by the values its indices name, so
    an index outside its dictionary, which the accessors refuse, has no
    representation here. *)

From Stdlib Require Import SpecFloat.
From S2P Require Import Prelude Text Arrow.

Module Wire.

Definition fail {A} (what : string) : result A := Throw (Runtime_error what).

Definition param (field : string) (what : string) : string := "param '" +:+ field +:+ "'" +:+ what.

(** ** Cells *)

Definition first (a : array) : value := default V_null (head (a_values a)).

Definition text_of (v : value) : option bytes := match v with V_text s => Some s | _ => None end.
Definition bool_of (v : value) : option bool := match v with V_bool x => Some x | _ => None end.
Definition int_of (v : value) : option Z := match v with V_int z => Some z | _ => None end.
Definition float_of (v : value) : option spec_float := match v with V_float f => Some f | _ => None end.

(** The elements that are not null. *)
Definition ints_of (l : list value) : list Z := omap int_of l.
Definition texts_of (l : list value) : list bytes := omap text_of l.

Definition is_string_type (t : dtype) : bool := match t with T_string => true | _ => false end.
Definition is_binary_type (t : dtype) : bool := match t with T_binary => true | _ => false end.
Definition is_bool_type (t : dtype) : bool := match t with T_bool => true | _ => false end.
Definition is_int64_type (t : dtype) : bool := match t with T_int64 => true | _ => false end.
Definition is_double_type (t : dtype) : bool := match t with T_double => true | _ => false end.
Definition is_dictionary_type (t : dtype) : bool := match t with T_dictionary _ _ => true | _ => false end.

Section accessors.
Context `{Arrow}.

(** [RecordBatch::GetColumnByName] *)
Definition column_by_name (b : batch) (field : string) : option array :=
  i ← get_field_index (b_schema b) field; b_columns b !! i.

Definition has_column (b : option batch) (field : string) : bool :=
  match b with Some b => bool_decide (is_Some (column_by_name b field)) | None => false end.

Fixpoint names_joined (names : list string) : string :=
  match names with
  | [] => ""
  | [x] => x
  | x :: names => x +:+ ", " +:+ names_joined names
  end.

Definition column (b : option batch) (field : string) : result array :=
  match b with
  | None => fail (param field " requested from a null params batch")
  | Some b =>
      match column_by_name b field with
      | Some a => Ok a
      | None => fail ("no param '" +:+ field +:+ "'; params carry [" +:+
                      names_joined (map f_name (b_schema b)) +:+ "]")
      end
  end.

(** The column, if it is an array of the kind expected and has a row. *)
Definition typed_column (ok : dtype → bool) (expected : string) (b : option batch) (field : string) : result array :=
  arr ← column b field;
  if negb (ok (a_type arr))
  then fail (param field (" is " +:+ type_to_string (a_type arr) +:+ ", expected " +:+ expected))
  else if bool_decide (length (a_values arr) < 1)%nat then fail (param field " batch has no rows")
  else Ok arr.

(** A cell that must be there, and one that may be null or absent. *)
Definition required {A} (ok : dtype → bool) (expected : string) (get : value → option A)
    (b : option batch) (field : string) : result A :=
  arr ← typed_column ok expected b field;
  from_opt (Runtime_error (param field " is null but not optional")) (get (first arr)).

Definition optional {A} (ok : dtype → bool) (expected : string) (get : value → option A)
    (b : option batch) (field : string) : result (option A) :=
  if negb (has_column b field) then Ok None else
  arr ← typed_column ok expected b field; Ok (get (first arr)).

Definition get_string := required is_string_type "string" text_of.
Definition get_optional_string := optional is_string_type "string" text_of.
Definition get_binary := required is_binary_type "binary" text_of.
Definition get_bool := required is_bool_type "boolean" bool_of.
Definition get_optional_bool := optional is_bool_type "boolean" bool_of.
Definition get_int64 := required is_int64_type "int64" int_of.
Definition get_optional_int64 := optional is_int64_type "int64" int_of.
Definition get_optional_double := optional is_double_type "float64" float_of.

Definition get_optional_binary (b : option batch) (field : string) : result (option bytes) :=
  if negb (has_column b field) then Ok None else
  arr ← column b field;
  match a_type arr with
  | T_dictionary _ t =>
      if is_null (first arr) then Ok None
      else if negb (is_binary_type t) then fail (param field " is not a binary dictionary")
      else Ok (text_of (first arr))
  | T_large_binary => Ok (text_of (first arr))
  | _ =>
      narrow ← typed_column is_binary_type "binary or large_binary" b field;
      Ok (text_of (first narrow))
  end.

(** The string an enumeration's dictionary names. *)
Definition enum_value (arr : array) (field : string) : result bytes :=
  match a_type arr with
  | T_dictionary i t =>
      if negb (is_string_type t) then fail (param field " is a dictionary of non-strings")
      else if negb match i with T_int16 => true | _ => false end
      then fail (param field " has non-int16 dictionary indices")
      else from_opt (Runtime_error (param field " dictionary index is out of range")) (text_of (first arr))
  | _ => fail (param field " is a dictionary of non-strings")
  end.

Definition get_enum (b : option batch) (field : string) : result bytes :=
  arr ← typed_column is_dictionary_type "dictionary" b field;
  if is_null (first arr) then fail (param field " is null but not optional") else enum_value arr field.

Definition get_optional_enum (b : option batch) (field : string) : result (option bytes) :=
  if negb (has_column b field) then Ok None else
  arr ← typed_column is_dictionary_type "dictionary" b field;
  if is_null (first arr) then Ok None else v ← enum_value arr field; Ok (Some v).

(** ** Structs and lists *)

Definition get_struct_binary (b : option batch) (field child : string) : result (option bytes) :=
  if negb (has_column b field) then Ok None else
  arr ← column b field;
  match a_type arr, first arr with
  | T_struct fs, V_struct vs =>
      match get_field_index fs child with
      | None => Ok None
      | Some i =>
          match fs !! i, vs !! i with
          | Some f, Some v => Ok (if is_binary_type (f_type f) then text_of v else None)
          | _, _ => Ok None
          end
      end
  | _, _ => Ok None
  end.

(** The elements of the list at row 0 with the elements' type; none for no row or a null. *)
Definition list_at_0 (arr : array) (field : string) : result (option (dtype * list value)) :=
  match a_type arr with
  | T_list item => Ok match first arr with V_list l => Some (f_type item, l) | _ => None end
  | _ => fail (param field " is not a list")
  end.

Definition get_int64_list (b : option batch) (field : string) : result (list Z) :=
  if negb (has_column b field) then Ok [] else
  arr ← column b field;
  l ← list_at_0 arr field;
  match l with
  | None => Ok []
  | Some (t, l) => if is_int64_type t then Ok (ints_of l) else fail (param field " is not a list of int64")
  end.

Definition get_string_list (b : option batch) (field : string) : result (list bytes) :=
  if negb (has_column b field) then Ok [] else
  arr ← column b field;
  l ← list_at_0 arr field;
  match l with
  | None => Ok []
  | Some (t, l) =>
      if is_string_type t
      then mapM (λ v, from_opt (Runtime_error (param field " contains a null path component")) (text_of v)) l
      else fail (param field " is not a list of strings")
  end.

Definition get_optional_string_list (b : option batch) (field : string) : result (option (list (option bytes))) :=
  if negb (has_column b field) then Ok None else
  arr ← column b field;
  l ← list_at_0 arr field;
  match l with
  | None => Ok None
  | Some (t, l) =>
      if is_string_type t then Ok (Some (map text_of l)) else fail (param field " is not a list of strings")
  end.

(** The schema path: [main] when the peer sends none, else nonempty. *)
Definition get_schema_path (b : option batch) (field : string) : result (list bytes) :=
  if negb (has_column b field) then Ok [bs "main"] else
  arr ← column b field;
  l ← list_at_0 arr field;
  match l with
  | None => Ok [bs "main"]
  | Some _ =>
      path ← get_string_list b field;
      if bool_decide (length path = 0%nat) then fail (param field " is an empty schema path")
      else if existsb (λ c, bool_decide (length c = 0%nat)) path
      then fail (param field " contains an empty path component")
      else Ok path
  end.

Definition get_binary_list (b : option batch) (field : string) : result (list bytes) :=
  if negb (has_column b field) then Ok [] else
  arr ← column b field;
  l ← list_at_0 arr field;
  match l with
  | None => Ok []
  | Some (t, l) =>
      match t with
      | T_large_binary | T_binary => Ok (texts_of l)
      | _ => fail (param field " is not a list of binary")
      end
  end.

Definition get_ipc (b : option batch) (field : string) : result (option batch) :=
  o ← get_optional_binary b field;
  match o with Some s => decode_ipc s | None => Ok None end.

End accessors.

(** ** Building a row *)

Record ResultBuilder := mkBuilder {
  rb_schema : list field;
  rb_metadata : option (list (string * string));
  rb_arrays : list (option array);
}.

Definition new_builder (schema : list field) (metadata : option (list (string * string))) : ResultBuilder :=
  mkBuilder schema metadata (replicate (length schema) None).

(** What an [arrow::ListBuilder] makes of one list. *)
Definition item_field (t : dtype) : field := Field "item" t true [].
Definition list_array (t : dtype) (l : list value) : array := mkArray (T_list (item_field t)) [V_list l].

Section builder.
Context `{Arrow}.

Definition field_index (field : string) (r : ResultBuilder) : result nat :=
  from_opt (Runtime_error ("result schema has no field '" +:+ field +:+ "'")) (get_field_index (rb_schema r) field).

Definition put (i : nat) (a : array) (r : ResultBuilder) : ResultBuilder :=
  mkBuilder (rb_schema r) (rb_metadata r) (<[i := Some a]> (rb_arrays r)).

Definition set_ (field : string) (a : array) (r : ResultBuilder) : result ResultBuilder :=
  i ← field_index field r; Ok (put i a r).

Definition type_at (i : nat) (r : ResultBuilder) : dtype :=
  match rb_schema r !! i with Some f => f_type f | None => T_null end.

Definition set_string (field : string) (v : bytes) := set_ field (mkArray T_string [V_text v]).
Definition set_bool (field : string) (v : bool) := set_ field (mkArray T_bool [V_bool v]).
Definition set_int64 (field : string) (v : Z) := set_ field (mkArray T_int64 [V_int v]).

Definition set_binary (field : string) (v : bytes) (r : ResultBuilder) : result ResultBuilder :=
  i ← field_index field r;
  let values := mkArray T_binary [V_text v] in
  a ← match type_at i r with
      | T_dictionary _ _ as t =>
          unwrap (dictionary_of t T_int32 values) ("building dictionary result field '" +:+ field +:+ "'")
      | _ => Ok values
      end;
  Ok (put i a r).

Definition set_array (field : string) (v : option array) (r : ResultBuilder) : result ResultBuilder :=
  i ← field_index field r;
  match v with
  | Some (mkArray t (x :: _)) =>
      if negb (type_equals t (type_at i r))
      then fail ("result field '" +:+ field +:+ "' is " +:+ type_to_string (type_at i r) +:+ ", given " +:+ type_to_string t)
      else Ok (put i (mkArray t [x]) r)
  | _ => fail ("result field '" +:+ field +:+ "' given no value")
  end.

Definition set_null (field : string) (r : ResultBuilder) : result ResultBuilder :=
  i ← field_index field r;
  a ← unwrap (null_array (type_at i r)) ("building null result field '" +:+ field +:+ "'");
  Ok (put i a r).

Definition set_binary_list (field : string) (l : list bytes) (r : ResultBuilder) : result ResultBuilder :=
  i ← field_index field r;
  let t := match type_at i r with
           | T_list (Field _ T_large_binary _ _) => T_large_binary
           | _ => T_binary
           end in
  Ok (put i (list_array t (map V_text l)) r).

Definition set_string_list (field : string) (l : list bytes) := set_ field (list_array T_string (map V_text l)).
Definition set_int32_list (field : string) (l : list Z) := set_ field (list_array T_int32 (map V_int l)).
Definition set_int64_list (field : string) (l : list Z) := set_ field (list_array T_int64 (map V_int l)).

Definition list_of (t : dtype) : dtype := T_list (item_field t).
Definition set_int32_list_list (field : string) (l : list (list Z)) :=
  set_ field (list_array (list_of T_int32) (map (λ g, V_list (map V_int g)) l)).
Definition set_string_list_list (field : string) (l : list (list bytes)) :=
  set_ field (list_array (list_of T_string) (map (λ g, V_list (map V_text g)) l)).
Definition set_string_list_list_list (field : string) (l : list (list (list bytes))) :=
  set_ field (list_array (list_of (list_of T_string))
    (map (λ g, V_list (map (λ p, V_list (map V_text p)) g)) l)).

Definition map_array (t : dtype) (l : list (bytes * value)) : array :=
  mkArray (T_map (Field "key" T_string false []) (Field "value" t true []))
    [V_list (map (λ e, V_struct [V_text e.1; e.2]) l)].
Definition set_int64_map (field : string) (l : list (bytes * Z)) :=
  set_ field (map_array T_int64 (map (λ e, (e.1, V_int e.2)) l)).
Definition set_string_map (field : string) (l : list (bytes * bytes)) :=
  set_ field (map_array T_string (map (λ e, (e.1, V_text e.2)) l)).

Definition set_optional_string (field : string) (v : option bytes) (r : ResultBuilder) : result ResultBuilder :=
  match v with Some v => set_string field v r | None => set_null field r end.

Definition set_enum (field : string) (v : bytes) (r : ResultBuilder) : result ResultBuilder :=
  i ← field_index field r;
  match type_at i r with
  | T_dictionary _ _ as t =>
      a ← unwrap (dictionary_of t T_int16 (mkArray T_string [V_text v])) ("assembling enum field '" +:+ field +:+ "'");
      Ok (put i a r)
  | t => fail ("result field '" +:+ field +:+ "' is " +:+ type_to_string t +:+ ", not a dictionary")
  end.

(** The default of a field that was not set. *)
Definition default_field (i : nat) (f : field) (r : ResultBuilder) : result ResultBuilder :=
  if f_nullable f then set_null (f_name f) r
  else
    match f_type f with
    | T_string => set_string (f_name f) [] r
    | T_binary => set_binary (f_name f) [] r
    | T_bool => set_bool (f_name f) false r
    | T_int64 => set_int64 (f_name f) 0 r
    | T_map _ _ => set_string_map (f_name f) [] r
    | T_list _ as t => Ok (put i (mkArray t [V_list []]) r)
    | t => a ← unwrap (empty_array t) ("building default for '" +:+ f_name f +:+ "'"); Ok (put i a r)
    end.

Fixpoint fill_from (i : nat) (fields : list field) (r : ResultBuilder) : result ResultBuilder :=
  match fields with
  | [] => Ok r
  | f :: fields =>
      r ← match rb_arrays r !! i with Some (Some _) => Ok r | _ => default_field i f r end;
      fill_from (S i) fields r
  end.
Definition fill_defaults (r : ResultBuilder) : result ResultBuilder := fill_from 0 (rb_schema r) r.

(** A null where the schema has none, at any depth. *)
Fixpoint check_null_at (f : field) (v : value) (path : string) {struct v} : result unit :=
  match v with
  | V_null => if f_nullable f then Ok tt
              else fail ("result field '" +:+ path +:+ "' is non-nullable but holds a null")
  | V_list l =>
      match f_type f with
      | T_list item | T_large_list item =>
          (fix each (l : list value) : result unit :=
             match l with
             | [] => Ok tt
             | v :: l => check_null_at item v (path +:+ ".item");; each l
             end) l
      | T_map key item =>
          (fix each (l : list value) : result unit :=
             match l with
             | [] => Ok tt
             | e :: l =>
                 match e with
                 | V_struct [k; v] => check_null_at key k (path +:+ ".key");; check_null_at item v (path +:+ ".value")
                 | _ => Ok tt
                 end;; each l
             end) l
      | _ => Ok tt
      end
  | V_struct vs =>
      match f_type f with
      | T_struct fs =>
          (fix each (fs : list field) (vs : list value) {struct vs} : result unit :=
             match fs, vs with
             | f :: fs, v :: vs => check_null_at f v (path +:+ "." +:+ f_name f);; each fs vs
             | _, _ => Ok tt
             end) fs vs
      | _ => Ok tt
      end
  | _ => Ok tt
  end.

Fixpoint check_nulls (f : field) (rows : list value) : result unit :=
  match rows with
  | [] => Ok tt
  | v :: rows => check_null_at f v (f_name f);; check_nulls f rows
  end.

Fixpoint finish_columns (fields : list field) (arrays : list (option array)) : result (list array) :=
  match fields, arrays with
  | f :: fields, a :: arrays =>
      match a with
      | None => fail ("result field '" +:+ f_name f +:+ "' was never set")
      | Some a => check_nulls f (a_values a);; l ← finish_columns fields arrays; Ok (a :: l)
      end
  | _, _ => Ok []
  end.

Definition finish (r : ResultBuilder) : result batch :=
  columns ← finish_columns (rb_schema r) (rb_arrays r);
  Ok (mkBatch (rb_schema r) (rb_metadata r) 1 columns).

End builder.

(** ** Where a null may not be *)

Inductive bad_null : field → value → Prop :=
| bad_here f : f_nullable f = false → bad_null f V_null
| bad_list f item l v : f_type f = T_list item ∨ f_type f = T_large_list item →
    v ∈ l → bad_null item v → bad_null f (V_list l)
| bad_key f key item l k v : f_type f = T_map key item → V_struct [k; v] ∈ l → bad_null key k → bad_null f (V_list l)
| bad_value f key item l k v : f_type f = T_map key item → V_struct [k; v] ∈ l → bad_null item v → bad_null f (V_list l)
| bad_struct f fs vs i g v : f_type f = T_struct fs → fs !! i = Some g → vs !! i = Some v → bad_null g v →
    bad_null f (V_struct vs).

Lemma seq_Ok (r s : result unit) : (r;; s) = Ok tt ↔ r = Ok tt ∧ s = Ok tt.
Proof. destruct r as [[]|]; cbn; naive_solver. Qed.

Lemma loop_Ok {X} (check : X → result unit) (l : list X) :
  (fix each (l : list X) : result unit := match l with [] => Ok tt | v :: l => check v;; each l end) l = Ok tt ↔
  ∀ v, v ∈ l → check v = Ok tt.
Proof.
  induction l as [|v l IH]; [by split; [intros _ v ?%elem_of_nil|]|]. rewrite seq_Ok, IH. split.
  - intros [H1 H2] w [->|Hw]%elem_of_cons; auto.
  - intros H. split; [apply H; by left|]. intros w Hw. apply H. by right.
Qed.

Lemma pairs_Ok (check : field → value → string → result unit) path fs vs :
  (fix each (fs : list field) (vs : list value) {struct vs} : result unit :=
     match fs, vs with
     | f :: fs, v :: vs => check f v (path +:+ "." +:+ f_name f);; each fs vs
     | _, _ => Ok tt
     end) fs vs = Ok tt ↔
  ∀ i f v, fs !! i = Some f → vs !! i = Some v → check f v (path +:+ "." +:+ f_name f) = Ok tt.
Proof.
  revert fs. induction vs as [|v vs IH]; intros [|f fs]; try (by split; [intros _ i g w; destruct i|]).
  rewrite seq_Ok, IH. split.
  - intros [H1 H2] [|i] g w; cbn; [by intros [= <-] [= <-]|apply H2].
  - intros H. split; [by apply (H 0%nat)|]. intros i g w. apply (H (S i)).
Qed.

(** An entry of a map. *)
Definition check_entry (key item : field) (path : string) (e : value) : result unit :=
  match e with
  | V_struct [k; v] => check_null_at key k (path +:+ ".key");; check_null_at item v (path +:+ ".value")
  | _ => Ok tt
  end.

Lemma check_null_list f l path :
  check_null_at f (V_list l) path = Ok tt ↔
  match f_type f with
  | T_list item | T_large_list item => ∀ v, v ∈ l → check_null_at item v (path +:+ ".item") = Ok tt
  | T_map key item => ∀ e, e ∈ l → check_entry key item path e = Ok tt
  | _ => True
  end.
Proof.
  cbn. destruct (f_type f); try (by split); [apply loop_Ok..|]. exact (loop_Ok (check_entry key item path) l).
Qed.

Lemma check_null_struct f vs path :
  check_null_at f (V_struct vs) path = Ok tt ↔
  match f_type f with
  | T_struct fs => ∀ i g v, fs !! i = Some g → vs !! i = Some v → check_null_at g v (path +:+ "." +:+ f_name g) = Ok tt
  | _ => True
  end.
Proof. cbn. destruct (f_type f); try (by split). apply (pairs_Ok check_null_at). Qed.

Lemma bad_null_checked f v : bad_null f v → ∀ path, check_null_at f v path ≠ Ok tt.
Proof.
  induction 1 as [f Hn|f item l v Ht Hv _ IH|f key item l k v Ht Hv _ IH|f key item l k v Ht Hv _ IH|
                  f fs vs i g v Ht Hg Hv _ IH]; intros path.
  - cbn. by rewrite Hn.
  - rewrite check_null_list. intros H. destruct Ht as [Ht|Ht]; rewrite Ht in H; by eapply IH, H.
  - rewrite check_null_list, Ht. intros H. specialize (H _ Hv). cbn in H. apply seq_Ok in H as [H _]. by eapply IH.
  - rewrite check_null_list, Ht. intros H. specialize (H _ Hv). cbn in H. apply seq_Ok in H as [_ H]. by eapply IH.
  - rewrite check_null_struct, Ht. intros H. by eapply IH, H.
Qed.

(** The induction also gives the members of a struct, for the entries of a map. *)
Definition complete (v : value) : Prop := ∀ f path, ¬ bad_null f v → check_null_at f v path = Ok tt.

Lemma check_null_complete_ v : complete v ∧ match v with V_struct l => Forall complete l | _ => True end.
Proof.
  induction v as [| | | | |l IH|l IH] using value_ind'; (split; [intros g path Hb; try done|try done]).
  - cbn. destruct (f_nullable g) eqn:Hn; [done|]. destruct Hb. by constructor.
  - rewrite Forall_forall in IH. apply check_null_list.
    destruct (f_type g) eqn:Ht; try done; intros v Hv.
    + apply IH; [done|]. intros H. apply Hb. eapply bad_list; [by left|done..].
    + apply IH; [done|]. intros H. apply Hb. eapply bad_list; [by right|done..].
    + destruct v as [| | | | | |[|k [|x []]]]; try done.
      apply IH in Hv as Hc. destruct Hc as [_ Hc]. rewrite !Forall_cons in Hc. destruct Hc as (Hk & Hx & _).
      cbn. apply seq_Ok. split; [apply Hk|apply Hx]; intros H; apply Hb;
        [by eapply bad_key|by eapply bad_value].
  - rewrite Forall_forall in IH. apply check_null_struct.
    destruct (f_type g) eqn:Ht; try done; intros i h v Hg Hv.
    apply IH; [by eapply list_elem_of_lookup_2|]. intros H. apply Hb. by eapply bad_struct.
  - eapply Forall_impl; [exact IH|]. by intros v [H _].
Qed.

Lemma check_null_at_spec f v path : check_null_at f v path = Ok tt ↔ ¬ bad_null f v.
Proof.
  split; [intros H Hb; by eapply bad_null_checked|]. apply check_null_complete_.
Qed.

Lemma check_nulls_spec f rows : check_nulls f rows = Ok tt ↔ ∀ v, v ∈ rows → ¬ bad_null f v.
Proof.
  induction rows as [|v rows IH]; cbn; [by split; [intros _ v ?%elem_of_nil|]|].
  rewrite seq_Ok, check_null_at_spec, IH. split.
  - intros [H1 H2] w [->|Hw]%elem_of_cons; auto.
  - intros H. split; [apply H; by left|]. intros w Hw. apply H. by right.
Qed.

(** ** What was set is read back *)

(** One call of a setter. *)
Inductive cell : Type :=
| Cell_string (s : bytes) | Cell_optional_string (o : option bytes) | Cell_binary (s : bytes) | Cell_null
| Cell_bool (x : bool) | Cell_int64 (z : Z) | Cell_enum (s : bytes)
| Cell_string_list (l : list bytes) | Cell_string_list_list (l : list (list bytes))
| Cell_binary_list (l : list bytes) | Cell_array (a : option array) | Cell_int64_list (l : list Z)
| Cell_string_map (l : list (bytes * bytes)) | Cell_int64_map (l : list (bytes * Z))
| Cell_string_list_list_list (l : list (list (list bytes))).

Section builders.
Context `{A : Arrow}.

Definition set_cell (field : string) (c : cell) : ResultBuilder → result ResultBuilder :=
  match c with
  | Cell_string s => set_string field s
  | Cell_optional_string o => set_optional_string field o
  | Cell_binary s => set_binary field s
  | Cell_null => set_null field
  | Cell_bool x => set_bool field x
  | Cell_int64 z => set_int64 field z
  | Cell_enum s => set_enum field s
  | Cell_string_list l => set_string_list field l
  | Cell_string_list_list l => set_string_list_list field l
  | Cell_binary_list l => set_binary_list field l
  | Cell_array a => set_array field a
  | Cell_int64_list l => set_int64_list field l
  | Cell_string_map l => set_string_map field l
  | Cell_int64_map l => set_int64_map field l
  | Cell_string_list_list_list l => set_string_list_list_list field l
  end.

Fixpoint set_cells (cells : list (string * cell)) (r : ResultBuilder) : result ResultBuilder :=
  match cells with
  | [] => Ok r
  | (field, c) :: cells => r ← set_cell field c r; set_cells cells r
  end.

Definition build (schema : list field) (metadata : option (list (string * string))) (cells : list (string * cell))
    : result batch :=
  r ← set_cells cells (new_builder schema metadata); finish r.

(** The same with [fill_defaults] before [finish]. *)
Definition build_filled (schema : list field) (metadata : option (list (string * string))) (cells : list (string * cell))
    : result batch :=
  r ← set_cells cells (new_builder schema metadata); r ← fill_defaults r; finish r.

(** What the accessors answer of a cell of a field of type [t]. *)
Definition reads (t : dtype) (b : option batch) (field : string) (c : cell) : Prop :=
  match c with
  | Cell_string s => get_string b field = Ok s ∧ get_optional_string b field = Ok (Some s)
  | Cell_optional_string o => (o = None → t = T_string) → get_optional_string b field = Ok o
  | Cell_binary s => get_optional_binary b field = Ok (Some s) ∧
      ((∀ i u, t ≠ T_dictionary i u) → get_binary b field = Ok s)
  | Cell_null => (t = T_binary ∨ t = T_large_binary ∨ t = T_dictionary T_int32 T_binary →
      get_optional_binary b field = Ok None) ∧ (t = T_string → get_optional_string b field = Ok None) ∧
      (t = T_int64 → get_optional_int64 b field = Ok None)
  | Cell_bool x => get_bool b field = Ok x ∧ get_optional_bool b field = Ok (Some x)
  | Cell_int64 z => get_int64 b field = Ok z ∧ get_optional_int64 b field = Ok (Some z)
  | Cell_enum s => get_enum b field = Ok s ∧ get_optional_enum b field = Ok (Some s)
  | Cell_string_list l => get_string_list b field = Ok l ∧ get_optional_string_list b field = Ok (Some (map Some l)) ∧
      (l ≠ [] → Forall (λ c, c ≠ []) l → get_schema_path b field = Ok l)
  | Cell_string_list_list l => ∃ a, column b field = Ok a ∧
      a = list_array (list_of T_string) (map (λ g, V_list (map V_text g)) l)
  | Cell_binary_list l => get_binary_list b field = Ok l
  | Cell_array a => ∃ u x rest, a = Some (mkArray u (x :: rest)) ∧ column b field = Ok (mkArray u [x])
  | Cell_int64_list l => get_int64_list b field = Ok l
  | Cell_string_map l => column b field = Ok (map_array T_string (map (λ e, (e.1, V_text e.2)) l))
  | Cell_int64_map l => column b field = Ok (map_array T_int64 (map (λ e, (e.1, V_int e.2)) l))
  | Cell_string_list_list_list l =>
      column b field = Ok (list_array (list_of (list_of T_string)) (map (λ g, V_list (map (λ p, V_list (map V_text p)) g)) l))
  end.

Definition wf_builder (r : ResultBuilder) : Prop := length (rb_arrays r) = length (rb_schema r).

Definition no_bad_null (schema : list field) (columns : list array) : Prop :=
  ∀ i f c v, schema !! i = Some f → columns !! i = Some c → v ∈ a_values c → ¬ bad_null f v.

Lemma finish_columns_Ok fields arrays l :
  length arrays = length fields →
  finish_columns fields arrays = Ok l ↔ arrays = map Some l ∧ no_bad_null fields l.
Proof using Type.
  revert arrays l. induction fields as [|f fields IH]; intros [|a arrays] l; cbn; try done; intros Hl.
  - split; [intros [= <-]|by destruct l as [|c l]; [|intros [? _]]]. split; [done|]. by intros [|i].
  - injection Hl as Hl. split.
    + destruct a as [a|]; [|done]. intros ([] & Hc & H)%bind_Ok. apply bind_Ok in H as (l' & Hl' & [= <-]).
      apply IH in Hl' as [-> Hb]; [|done]. split; [done|]. rewrite check_nulls_spec in Hc.
      intros [|i] g c v; cbn; [intros [= <-] [= <-]; apply Hc|apply Hb].
    + destruct l as [|c l]; [by intros [? _]|]. intros [[= -> ->] Hb].
      assert (check_nulls f (a_values c) = Ok tt) as ->
        by (apply check_nulls_spec; intros v; by apply (Hb 0%nat)).
      cbn. assert (finish_columns fields (map Some l) = Ok l) as ->; [|done].
      apply IH; [done|]. split; [done|]. intros i. apply (Hb (S i)).
Qed.

Lemma finish_Ok r b :
  wf_builder r →
  finish r = Ok b ↔
  ∃ columns, rb_arrays r = map Some columns ∧ no_bad_null (rb_schema r) columns ∧
    b = mkBatch (rb_schema r) (rb_metadata r) 1 columns.
Proof using Type.
  intros Hw. unfold finish. rewrite bind_Ok. split.
  - intros (l & [H1 H2]%finish_columns_Ok & [= <-]); [by exists l|done].
  - intros (l & H1 & H2 & ->). exists l. split; [by apply finish_columns_Ok|done].
Qed.

(** *** The array a setter leaves *)

Definition cell_holds (t : dtype) (c : cell) (a : array) : Prop :=
  match c with
  | Cell_string s | Cell_optional_string (Some s) => a = mkArray T_string [V_text s]
  | Cell_optional_string None | Cell_null => a = mkArray t [V_null]
  | Cell_binary s => a_values a = [V_text s] ∧
      (a_type a = T_binary ∧ (∀ i u, t ≠ T_dictionary i u) ∨ a_type a = t ∧ t = T_dictionary T_int32 T_binary)
  | Cell_bool x => a = mkArray T_bool [V_bool x]
  | Cell_int64 z => a = mkArray T_int64 [V_int z]
  | Cell_enum s => a = mkArray (T_dictionary T_int16 T_string) [V_text s]
  | Cell_string_list l => a = list_array T_string (map V_text l)
  | Cell_string_list_list l => a = list_array (list_of T_string) (map (λ g, V_list (map V_text g)) l)
  | Cell_binary_list l => a = list_array T_binary (map V_text l) ∨ a = list_array T_large_binary (map V_text l)
  | Cell_array v => ∃ u x rest, v = Some (mkArray u (x :: rest)) ∧ a = mkArray u [x]
  | Cell_int64_list l => a = list_array T_int64 (map V_int l)
  | Cell_string_map l => a = map_array T_string (map (λ e, (e.1, V_text e.2)) l)
  | Cell_int64_map l => a = map_array T_int64 (map (λ e, (e.1, V_int e.2)) l)
  | Cell_string_list_list_list l =>
      a = list_array (list_of (list_of T_string)) (map (λ g, V_list (map (λ p, V_list (map V_text p)) g)) l)
  end.

Lemma unwrap_Ok {X} (r : string + X) w x : unwrap r w = Ok x ↔ r = inr x.
Proof using Type. destruct r; cbn; naive_solver. Qed.

Lemma set_Ok field a r r' :
  set_ field a r = Ok r' → ∃ i, get_field_index (rb_schema r) field = Some i ∧ r' = put i a r.
Proof using Type.
  unfold set_, field_index. intros (i & Hi & [= <-])%bind_Ok. apply from_opt_Ok in Hi. by exists i.
Qed.

Context `{!ArrowLaws A}.

Lemma set_cell_Ok field c r r' :
  set_cell field c r = Ok r' →
  ∃ i a, get_field_index (rb_schema r) field = Some i ∧ r' = put i a r ∧ cell_holds (type_at i r) c a.
Proof using Type*.
  assert (∀ a, set_ field a r = Ok r' → (∀ i, cell_holds (type_at i r) c a) →
    ∃ i a, get_field_index (rb_schema r) field = Some i ∧ r' = put i a r ∧ cell_holds (type_at i r) c a) as Hset.
  { intros a (i & Hi & ->)%set_Ok Ha. by exists i, a. }
  assert (set_null field r = Ok r' → ∃ i a, get_field_index (rb_schema r) field = Some i ∧ r' = put i a r ∧
    a = mkArray (type_at i r) [V_null]) as Hnull.
  { unfold set_null, field_index. intros (i & Hi%from_opt_Ok & H)%bind_Ok. apply bind_Ok in H as (a & Ha & [= <-]).
    apply unwrap_Ok, null_array_spec in Ha. by exists i, a. }
  destruct c; cbn [set_cell cell_holds] in *; try (intros H; by eapply Hset).
  - destruct o; [intros H; by eapply Hset|exact Hnull].
  - unfold set_binary, field_index. intros (i & Hi%from_opt_Ok & H)%bind_Ok. apply bind_Ok in H as (a & Ha & [= <-]).
    exists i, a. split_and!; [done|done| |]; destruct (type_at i r) eqn:Ht; try (injection Ha as <-; by auto).
    + apply unwrap_Ok, dictionary_of_spec in Ha as [_ ->]. done.
    + apply unwrap_Ok, dictionary_of_spec in Ha as [E ->]. right. cbn in E. by rewrite E.
  - exact Hnull.
  - unfold set_enum, field_index. intros (i & Hi%from_opt_Ok & H)%bind_Ok.
    destruct (type_at i r) eqn:Ht; try done. apply bind_Ok in H as (a & Ha & [= <-]).
    apply unwrap_Ok, dictionary_of_spec in Ha as [E ->]. cbn in E. exists i. eexists. by rewrite E.
  - unfold set_binary_list, field_index. intros (i & Hi%from_opt_Ok & [= <-])%bind_Ok. eexists i, _.
    split_and!; [done|done|]. destruct (type_at i r); try (by left). destruct item as [? [] ? ?]; (by left) || (by right).
  - unfold set_array, field_index. intros (i & Hi%from_opt_Ok & H)%bind_Ok.
    destruct a as [[u [|x rest]]|]; try done. destruct (type_equals _ _); [|done]. injection H as <-.
    eexists i, _. split_and!; [done|done|]. by exists u, x, rest.
Qed.

Lemma set_cells_Ok cells r r' :
  set_cells cells r = Ok r' → wf_builder r → NoDup cells.*1 →
  rb_schema r' = rb_schema r ∧ rb_metadata r' = rb_metadata r ∧ wf_builder r' ∧
  (∀ i, (∀ f, f ∈ cells.*1 → get_field_index (rb_schema r) f ≠ Some i) → rb_arrays r' !! i = rb_arrays r !! i) ∧
  ∀ f c, (f, c) ∈ cells → ∃ i a, get_field_index (rb_schema r) f = Some i ∧
    rb_arrays r' !! i = Some (Some a) ∧ cell_holds (type_at i r) c a.
Proof using Type*.
  revert r. induction cells as [|[f c] cells IH]; intros r Hs Hw Hnd; cbn [set_cells] in Hs.
  { injection Hs as <-. split_and!; [done..|]. by intros ? ? ?%elem_of_nil. }
  apply bind_Ok in Hs as (r1 & Hs1 & Hs). apply set_cell_Ok in Hs1 as (i & a & Hi & -> & Ha).
  rewrite fmap_cons in Hnd. apply NoDup_cons in Hnd as [Hf Hnd].
  assert (wf_builder (put i a r)) as Hw1 by (unfold wf_builder; cbn; by rewrite length_insert).
  destruct (IH _ Hs Hw1 Hnd) as (I1 & I2 & I3 & I4 & I5). cbn in I1, I2.
  assert (∀ g j, g ∈ cells.*1 → get_field_index (rb_schema r) g = Some j → j ≠ i) as Hne.
  { intros g j Hg Hj ->. apply Hf. apply get_field_index_found in Hi, Hj. rewrite Hi in Hj.
    by injection Hj as ->. }
  split_and!; [done|done|done| |].
  - intros j Hj. rewrite I4 by (intros g Hg; apply Hj; right; exact Hg). cbn.
    rewrite list_lookup_insert_ne; [done|]. intros ->. by apply (Hj f); [left|].
  - intros g d [[= -> ->]|Hg]%elem_of_cons; [|by apply I5].
    exists i, a. split_and!; [done| |done].
    rewrite I4 by (intros h Hh E; by apply (Hne h i)). cbn. apply list_lookup_insert_eq.
    rewrite Hw. apply get_field_index_found in Hi. destruct (rb_schema r !! i) eqn:E; [|done].
    by eapply lookup_lt_Some.
Qed.

Lemma build_column schema md cells b f c :
  build schema md cells = Ok b → NoDup cells.*1 → (f, c) ∈ cells →
  b_schema b = schema ∧ b_rows b = 1 ∧
  ∃ i a g, get_field_index schema f = Some i ∧ schema !! i = Some g ∧ column_by_name b f = Some a ∧
    cell_holds (f_type g) c a.
Proof using Type*.
  unfold build. intros (r & Hr & Hf)%bind_Ok Hnd Hin.
  assert (wf_builder (new_builder schema md)) as Hw by (unfold wf_builder; cbn; by rewrite length_replicate).
  destruct (set_cells_Ok _ _ _ Hr Hw Hnd) as (S1 & S2 & S3 & _ & S5). cbn in S1, S2.
  apply finish_Ok in Hf as (cols & Hc & _ & ->); [|done]. cbn. split_and!; [done|done|].
  destruct (S5 f c Hin) as (i & a & Hi & Ha & Hh). cbn in Hi. exists i, a.
  pose proof (get_field_index_found _ _ _ Hi) as Hg. destruct (schema !! i) as [g|] eqn:Eg; [|done].
  exists g. split_and!; [done|done| |].
  - unfold column_by_name. cbn. rewrite S1, Hi. cbn. rewrite Hc in Ha. rewrite list_lookup_fmap in Ha.
    destruct (cols !! i); [by injection Ha as ->|done].
  - unfold type_at in Hh. cbn in Hh. by rewrite Eg in Hh.
Qed.

(** *** Defaults leave what was set *)

Lemma default_field_put i f r r' :
  rb_schema r !! i = Some f → NoDup (map f_name (rb_schema r)) → default_field i f r = Ok r' → ∃ a, r' = put i a r.
Proof using Type*.
  intros Hi Hnd.
  assert (∀ k, get_field_index (rb_schema r) (f_name f) = Some k → k = i) as Hk.
  { intros k Hk%get_field_index_found. apply (NoDup_lookup _ _ _ (f_name f) Hnd); rewrite list_lookup_fmap; [done|by rewrite Hi]. }
  assert (∀ a, set_ (f_name f) a r = Ok r' → ∃ a, r' = put i a r) as Hset.
  { intros a (k & ->%Hk & ->)%set_Ok. by exists a. }
  assert (∀ t, type_at i r = t → f_type f = t) as Hty by (intros t; unfold type_at; by rewrite Hi).
  unfold default_field. destruct (f_nullable f).
  { unfold set_null, field_index. intros (k & Hk'%from_opt_Ok%Hk & H)%bind_Ok. subst k.
    apply bind_Ok in H as (a & _ & [= <-]). by exists a. }
  destruct (f_type f) eqn:Ht; try (by apply Hset); try (intros [= <-]; by eexists);
    try (intros (a & _ & [= <-])%bind_Ok; by exists a).
  unfold set_binary, field_index. intros (k & Hk'%from_opt_Ok%Hk & H)%bind_Ok. subst k.
  apply bind_Ok in H as (a & _ & [= <-]). by exists a.
Qed.

Lemma fill_from_keeps i fields r r' :
  fill_from i fields r = Ok r' → (∀ k f, fields !! k = Some f → rb_schema r !! (i + k)%nat = Some f) →
  NoDup (map f_name (rb_schema r)) →
  rb_schema r' = rb_schema r ∧ rb_metadata r' = rb_metadata r ∧ length (rb_arrays r') = length (rb_arrays r) ∧
  ∀ j a, rb_arrays r !! j = Some (Some a) → rb_arrays r' !! j = Some (Some a).
Proof using Type*.
  revert i r. induction fields as [|f fields IH]; intros i r H Hf Hnd; cbn in H; [by injection H as <-|].
  apply bind_Ok in H as (r1 & H1 & H).
  assert (r1 = r ∨ (∃ a, r1 = put i a r) ∧ ∀ a, rb_arrays r !! i ≠ Some (Some a)) as Hr.
  { destruct (rb_arrays r !! i) as [[a|]|] eqn:Ha; [left; by injection H1 as <-| |]; right;
      (split; [eapply default_field_put; [|done|exact H1]; rewrite <- (Nat.add_0_r i); by apply Hf|by intros a]). }
  assert (∀ k g, fields !! k = Some g → rb_schema r !! (S i + k)%nat = Some g) as Hf'.
  { intros k g Hk. rewrite Nat.add_succ_comm. by apply Hf. }
  destruct Hr as [->|[[a ->] Ha]]; [by apply (IH (S i))|].
  destruct (IH (S i) _ H Hf' Hnd) as (I1 & I2 & I3 & I4). cbn in I1, I2, I3. rewrite length_insert in I3. split_and!; [done..|].
  intros j b Hj. apply I4. cbn. rewrite list_lookup_insert_ne; [done|]. intros ->. by apply (Ha b).
Qed.

Lemma build_filled_column schema md cells b :
  build_filled schema md cells = Ok b → NoDup cells.*1 → NoDup (map f_name schema) →
  b_schema b = schema ∧ b_rows b = 1 ∧
  ∀ f c, (f, c) ∈ cells → ∃ a g, g ∈ schema ∧ f_name g = f ∧ column_by_name b f = Some a ∧ cell_holds (f_type g) c a.
Proof using Type*.
  unfold build_filled. intros (r & Hr & (r' & Hfill & Hf)%bind_Ok)%bind_Ok Hnd Hns.
  assert (wf_builder (new_builder schema md)) as Hw by (unfold wf_builder; cbn; by rewrite length_replicate).
  destruct (set_cells_Ok _ _ _ Hr Hw Hnd) as (S1 & S2 & S3 & _ & S5). cbn in S1, S2.
  unfold fill_defaults in Hfill. rewrite S1 in Hfill.
  destruct (fill_from_keeps 0 schema r r' Hfill) as (F1 & F2 & F3 & F4); [by rewrite S1|by rewrite S1|].
  apply finish_Ok in Hf as (cols & Hc & _ & ->); [|unfold wf_builder in *; by rewrite F1, F3]. cbn. rewrite F1, S1. split_and!; [done|done|].
  intros f c Hin. destruct (S5 f c Hin) as (i & a & Hi & Ha & Hh). cbn in Hi. pose proof (get_field_index_found _ _ _ Hi) as Hg.
  destruct (schema !! i) as [g|] eqn:Eg; [|done]. injection Hg as Hg. exists a, g.
  split_and!; [by eapply list_elem_of_lookup_2|done| |].
  - unfold column_by_name. cbn. rewrite Hi. cbn. apply F4 in Ha. rewrite Hc, list_lookup_fmap in Ha.
    destruct (cols !! i); [by injection Ha as ->|done].
  - unfold type_at in Hh. cbn in Hh. by rewrite Eg in Hh.
Qed.

Lemma mapM_texts e (l : list bytes) : mapM (λ v, from_opt e (text_of v)) (map V_text l) = Ok l.
Proof using Type. induction l as [|s l IH]; [done|]. cbn. by rewrite IH. Qed.

Lemma texts_of_texts l : texts_of (map V_text l) = l.
Proof using Type. induction l as [|s l IH]; [done|]. cbn. unfold texts_of in IH. by rewrite IH. Qed.

Lemma ints_of_ints l : ints_of (map V_int l) = l.
Proof using Type. induction l as [|z l IH]; [done|]. cbn. unfold ints_of in IH. by rewrite IH. Qed.

Lemma cell_reads t b f c a : column_by_name b f = Some a → cell_holds t c a → reads t (Some b) f c.
Proof using Type.
  intros Hc Hh. assert (has_column (Some b) f = true) as Hhas by (unfold has_column; rewrite Hc; by apply bool_decide_eq_true).
  assert (column (Some b) f = Ok a) as Hcol by (cbn; by rewrite Hc).
  destruct c; cbn [cell_holds reads] in *; unfold get_string, get_optional_string, get_binary, get_bool,
    get_optional_bool, get_int64, get_optional_int64, get_enum, get_optional_enum, get_optional_binary,
    get_string_list, get_optional_string_list, get_binary_list, required, optional, typed_column; rewrite ?Hhas, ?Hcol.
  - by subst.
  - intros Ho. destruct o; subst; cbn; [done|]. by rewrite Ho.
  - destruct a as [u vs]. destruct Hh as [Hv [[Hu Ht]|[Hu Ht]]]; cbn in Hv, Hu; subst; cbn; [done|].
    split; [done|]. intros H. by destruct (H T_int32 T_binary).
  - subst. split_and!; [intros [->|[->| ->]]; done|by intros ->|by intros ->].
  - by subst.
  - by subst.
  - by subst.
  - subst. unfold get_schema_path. rewrite Hhas, Hcol. cbn. unfold get_string_list. rewrite Hhas, Hcol. cbn.
    rewrite mapM_texts. split_and!; [done|by rewrite map_map|]. intros Hl Hf. cbn. rewrite bool_decide_false by by destruct l.
    destruct (existsb _ l) eqn:Hex; [|done]. apply existsb_exists in Hex as (c & Hin%list_elem_of_In & Hn%bool_decide_eq_true).
    rewrite Forall_forall in Hf. by destruct (Hf c Hin), c.
  - by exists a.
  - destruct Hh as [->| ->]; cbn; by rewrite texts_of_texts.
  - destruct Hh as (u & x & rest & -> & ->). by exists u, x, rest.
  - subst. unfold get_int64_list. rewrite Hhas, Hcol. cbn. by rewrite ints_of_ints.
  - by subst.
  - by subst.
  - by subst.
Qed.

(** *** The batch that is built, and its way through a stream *)

Lemma cell_one_row t c a : cell_holds t c a → ∃ v, a_values a = [v].
Proof using Type.
  destruct c; cbn; try (intros ->; by eexists).
  - destruct o; intros ->; by eexists.
  - intros [-> _]; by eexists.
  - intros [->| ->]; by eexists.
  - intros (u & x & rest & _ & ->). by eexists.
Qed.

Lemma build_shape schema md cells b :
  build schema md cells = Ok b → NoDup cells.*1 →
  b_schema b = schema ∧ b_metadata b = md ∧ b_rows b = 1 ∧ length (b_columns b) = length schema ∧
  no_bad_null schema (b_columns b).
Proof using Type*.
  unfold build. intros (r & Hr & Hf)%bind_Ok Hnd.
  assert (wf_builder (new_builder schema md)) as Hw by (unfold wf_builder; cbn; by rewrite length_replicate).
  destruct (set_cells_Ok _ _ _ Hr Hw Hnd) as (S1 & S2 & S3 & _ & _). cbn in S1, S2.
  apply finish_Ok in Hf as (cols & Hc & Hn & ->); [|done]. cbn. rewrite S1 in Hn. split_and!; try done.
  unfold wf_builder in S3. by rewrite Hc, length_map, S1 in S3.
Qed.

(** Every field is set: every column is of one row. *)
Lemma build_one_row schema md cells b :
  build schema md cells = Ok b → NoDup cells.*1 → NoDup (map f_name schema) →
  (∀ f, f ∈ schema → f_name f ∈ cells.*1) →
  ∀ i f a, schema !! i = Some f → b_columns b !! i = Some a →
    ∃ c v, (f_name f, c) ∈ cells ∧ cell_holds (f_type f) c a ∧ a_values a = [v].
Proof using Type*.
  intros Hb Hnd Hns Hall i f a Hf Ha.
  assert (f_name f ∈ cells.*1) as Hin by (apply Hall; by eapply list_elem_of_lookup_2).
  apply list_elem_of_fmap in Hin as ([n c] & Hn & Hin). cbn in Hn. subst n.
  destruct (build_column _ _ _ _ _ _ Hb Hnd Hin) as (Hs & _ & j & a' & g & Hj & Hg & Hcol & Hh).
  assert (j = i) as ->.
  { pose proof (get_field_index_found _ _ _ Hj) as Hfound. rewrite Hg in Hfound. injection Hfound as Hfound.
    eapply (NoDup_lookup (map f_name schema)); [done|rewrite list_lookup_fmap, Hg; cbn; by rewrite Hfound|].
    by rewrite list_lookup_fmap, Hf. }
  rewrite Hf in Hg. injection Hg as <-. unfold column_by_name in Hcol. rewrite Hs, Hj in Hcol. cbn in Hcol.
  rewrite Ha in Hcol. injection Hcol as <-. destruct (cell_one_row _ _ _ Hh) as [v Hv]. by exists c, v.
Qed.

(** The cell of a field [g] of the schema, read back. *)
Lemma built_reads schema md cells b g c :
  build schema md cells = Ok b → NoDup cells.*1 → NoDup (map f_name schema) → g ∈ schema → (f_name g, c) ∈ cells →
  ∃ i a, get_field_index schema (f_name g) = Some i ∧ b_columns b !! i = Some a ∧ cell_holds (f_type g) c a ∧
    reads (f_type g) (Some b) (f_name g) c.
Proof using Type*.
  intros Hb Hnd Hns [j Hj]%list_elem_of_lookup Hin.
  destruct (build_column _ _ _ _ _ _ Hb Hnd Hin) as (Hs & _ & i & a & h & Hi & Hh & Hcol & Ha).
  assert (j = i) as ->.
  { pose proof (get_field_index_found _ _ _ Hi) as Hfound. rewrite Hh in Hfound. injection Hfound as Hfound.
    eapply (NoDup_lookup (map f_name schema)); [done|by rewrite list_lookup_fmap, Hj|].
    rewrite list_lookup_fmap, Hh. cbn. by rewrite Hfound. }
  rewrite Hj in Hh. injection Hh as ->. exists i, a. split_and!; [done| |done|by eapply cell_reads].
  unfold column_by_name in Hcol. by rewrite Hs, Hi in Hcol.
Qed.

Lemma build_filled_reads schema md cells b :
  build_filled schema md cells = Ok b → NoDup cells.*1 → NoDup (map f_name schema) →
  b_schema b = schema ∧ b_rows b = 1 ∧
  ∀ f c, (f, c) ∈ cells → ∃ g, g ∈ schema ∧ f_name g = f ∧ reads (f_type g) (Some b) f c.
Proof using Type*.
  intros Hb Hnd Hns. destruct (build_filled_column _ _ _ _ Hb Hnd Hns) as (Hs & Hr & Hc). split_and!; [done..|].
  intros f c (a & g & Hg & Hn & Hcol & Hh)%Hc. exists g. split_and!; [done..|]. by eapply cell_reads.
Qed.

Lemma encode_ipc_read b s :
  encode_ipc b = Ok s → write_stream b = inr s ∧ s ≠ [] ∧ read_stream s = inr (Some b) ∧ decode_ipc s = Ok (Some b).
Proof using Type*.
  unfold encode_ipc. destruct (validate b); [done|]. intros Hw%unwrap_Ok.
  destruct (write_read_stream _ _ Hw) as [Hs Hr]. split_and!; [done..|]. unfold decode_ipc. destruct s; [done|].
  by rewrite Hr.
Qed.

(** [finish] makes the row exactly when every field was set and no null
    stands where the schema declares none, at any depth of lists, maps and
    structs; the batch is then the arrays set, under the schema. *)
Theorem finish_exact r b :
  wf_builder r →
  finish r = Ok b ↔
  ∃ columns, rb_arrays r = map Some columns ∧ no_bad_null (rb_schema r) columns ∧
    b = mkBatch (rb_schema r) (rb_metadata r) 1 columns.
Proof using Type. apply finish_Ok. Qed.

(** What was set is read back: of a row built by any setters of distinct
    fields, each accessor answers what its setter was given -- a string, binary
    or enumeration, an optional one, a list, or a null where the schema's type is the
    accessor's. *)
Theorem build_reads schema md cells b f c :
  build schema md cells = Ok b → NoDup cells.*1 → (f, c) ∈ cells →
  ∃ i g, get_field_index schema f = Some i ∧ schema !! i = Some g ∧ reads (f_type g) (Some b) f c.
Proof using Type*.
  intros Hb Hnd Hin. destruct (build_column schema md cells b f c Hb Hnd Hin) as (_ & _ & i & a & g & Hi & Hg & Hc & Hh).
  exists i, g. split_and!; [done|done|]. by eapply cell_reads.
Qed.

End builders.

(** ** At work *)

Definition sample_row : list (string * cell) :=
  [("name", Cell_string (bs "t")); ("owner", Cell_optional_string None); ("kind", Cell_enum (bs "CHECK"));
   ("path", Cell_string_list [bs "main"])]%string.
Definition sample_fields : list field :=
  [Field "name" T_string false []; Field "owner" T_string true [];
   Field "kind" (T_dictionary T_int16 T_string) false []; Field "path" (T_list (Field "item" T_string false [])) false []].
Definition sample_built : batch :=
  mkBatch sample_fields None 1
    [mkArray T_string [V_text (bs "t")]; mkArray T_string [V_null];
     mkArray (T_dictionary T_int16 T_string) [V_text (bs "CHECK")]; list_array T_string [V_text (bs "main")]].

Lemma build_reads_witness :
  @build toy_arrow sample_fields None sample_row = Ok sample_built ∧
  @get_enum toy_arrow (Some sample_built) "kind" = Ok (bs "CHECK").
Proof.
  split; [reflexivity|].
  destruct (@build_reads toy_arrow _ sample_fields None sample_row sample_built "kind" (Cell_enum (bs "CHECK")))
    as (i & g & _ & _ & H).
  - reflexivity.
  - apply (bool_decide_unpack _). reflexivity.
  - right. right. left.
  - apply H.
Defined.

Lemma finish_exact_witness :
  wf_builder (new_builder [Field "x" T_int64 false []] None) ∧
  ¬ ∃ b, finish (put 0 (mkArray T_int64 [V_null]) (new_builder [Field "x" T_int64 false []] None)) = Ok b.
Proof.
  split; [reflexivity|]. intros [b Hb].
  apply (finish_exact (put 0 (mkArray T_int64 [V_null]) (new_builder [Field "x" T_int64 false []] None)) b) in Hb
    as (cols & Hc & Hn & _); [|reflexivity].
  destruct cols as [|c cols]; [done|]. injection Hc as <- _.
  apply (Hn 0%nat (Field "x" T_int64 false []) (mkArray T_int64 [V_null]) V_null); [done|done|by left|by constructor].
Defined.

End Wire.
