(* ===== verification/Protocol.v ===== *)
(** * The protocol: methods and answers ([src/methods.cpp],
    [src/generated/vgi_service.hpp], [include/vgi/generated/vgi_protocol_schemas.hpp])

    The methods of the protocol with the record each answers with, as the
    generated table lists them; the params schemas and summaries, which only the
    server's registration uses, are left out.  A handler builds its record with
    [build_payload] and wraps it with [envelope_of]; [conform] re-declares the
    answer under the envelope its method is registered with.  The theorem: what a
    handler set is what the client reads. *)

From S2P Require Import Prelude Arrow ArrowRecord Wire.
Import Wire.

Module Protocol.

Definition fld (name : string) (t : dtype) (nullable : bool) : field := Field name t nullable [].
Definition enum_type : dtype := T_dictionary T_int16 T_string.
Definition map_of (k v : dtype) : dtype := T_map (Field "key" k false []) (Field "value" v true []).

(** ** The records *)

Definition ResultEnvelopeSchema : list field :=
  [fld "result" T_binary false].
Definition OptionalResultEnvelopeSchema : list field :=
  [fld "result" T_binary true].
Definition CatalogQueryPrepareResultSchema : list field :=
  [fld "status" T_string false; fld "reason_code" T_string true; fld "reason_detail" T_string true;
   fld "prepared_query_token" T_binary true; fld "output_schema" T_binary true;
   fld "result_ordering" T_string true; fld "validated_catalog_version" T_int64 true;
   fld "validated_catalog_etag" T_string true; fld "context_digest" T_binary true;
   fld "expires_at_epoch_ms" T_int64 true; fld "estimated_rows" T_int64 true;
   fld "estimated_bytes" T_int64 true].
Definition ScanSplitSchema : list field :=
  [fld "payload" T_binary false; fld "token" T_binary false; fld "estimated_rows" T_int64 true;
   fld "rows_exact" T_bool false; fld "estimated_bytes" T_int64 true; fld "key_value" T_binary true;
   fld "range_index" T_int64 true; fld "column_bounds" T_binary true; fld "partition_bounds" T_binary true;
   fld "column_statistics" T_binary true; fld "location_ids" (list_of T_int64) true;
   fld "start_position" T_binary true; fld "end_position" T_binary true].
Definition GlobalInitResponseSchema : list field :=
  [fld "execution_id" T_binary false; fld "opaque_data" T_binary true; fld "max_workers" T_int64 false].
Definition AggregateBindResultSchema : list field :=
  [fld "output_schema" T_binary false; fld "execution_id" T_binary false].
Definition AggregateCombineResultSchema : list field :=
  [].
Definition AggregateDestructorResultSchema : list field :=
  [].
Definition AggregateFinalizeResultSchema : list field :=
  [fld "result_batch" T_binary false].
Definition AggregateStreamingChunkResultSchema : list field :=
  [fld "result_batch" T_binary false].
Definition AggregateStreamingCloseResultSchema : list field :=
  [].
Definition AggregateStreamingOpenResultSchema : list field :=
  [fld "execution_id" T_binary false].
Definition AggregateUpdateResultSchema : list field :=
  [].
Definition AggregateWindowResultSchema : list field :=
  [fld "result_batch" T_binary false].
Definition AggregateWindowBatchResultSchema : list field :=
  [fld "result_batch" T_binary false].
Definition AggregateWindowDestructorResultSchema : list field :=
  [].
Definition AggregateWindowInitResultSchema : list field :=
  [].
Definition BindResultSchema : list field :=
  [fld "output_schema" T_binary false; fld "opaque_data" T_binary true;
   fld "lookup_secret_types" (list_of T_string) false; fld "lookup_scopes" (list_of T_string) false;
   fld "lookup_names" (list_of T_string) false; fld "projection_expression_profiles" (list_of T_string) false;
   fld "repeatability" enum_type false].
Definition CatalogAttachResultSchema : list field :=
  [fld "attach_opaque_data" T_binary false; fld "supports_transactions" T_bool false;
   fld "supports_time_travel" T_bool false; fld "catalog_version_frozen" T_bool false;
   fld "catalog_version" T_int64 false; fld "attach_opaque_data_required" T_bool false;
   fld "default_schema" T_string true; fld "settings" (list_of T_binary) false;
   fld "secret_types" (list_of T_binary) false; fld "attach_catalogs" (list_of T_binary) false;
   fld "comment" T_string true; fld "tags" (map_of T_string T_string) false;
   fld "supports_column_statistics" T_bool false; fld "global_functions" (list_of T_binary) false;
   fld "global_function_prefix" T_string false; fld "resolved_data_version" T_string true;
   fld "resolved_implementation_version" T_string true; fld "supports_catalog_contents" T_bool false;
   fld "catalog_capabilities" T_binary true; fld "selected_capabilities" T_binary true;
   fld "query_pushdown" (T_struct [fld "encoding" T_string false; fld "semantic_profiles" (list_of T_string) false; fld "execution_modes" (list_of T_string) false; fld "backend_engine" T_string false; fld "backend_version" T_string false; fld "capability_revision" T_string false; fld "default_evaluation_context" (T_struct [fld "timezone" T_string false; fld "collation" T_string false; fld "default_order" T_string false; fld "default_null_order" T_string false; fld "preserve_insertion_order" T_bool false]) false; fld "max_query_bytes" T_int64 false]) true].
Definition CatalogCatalogsResultSchema : list field :=
  [fld "items" (list_of T_binary) false].
Definition CatalogContentsResultSchema : list field :=
  [fld "catalog_version" T_int64 false; fld "etag" T_string true; fld "not_modified" T_bool false;
   fld "schemas" T_binary true; fld "tables" T_binary true; fld "views" T_binary true;
   fld "functions" T_binary true; fld "macros" T_binary true; fld "indexes" T_binary true].
Definition CatalogCopyFromFormatsResultSchema : list field :=
  [fld "items" (list_of T_binary) false].
Definition CatalogDependenciesResultSchema : list field :=
  [fld "catalog_version" T_int64 false; fld "objects" (list_of T_binary) false;
   fld "dependencies" (list_of T_binary) false].
Definition CatalogIndexGetResultSchema : list field :=
  [fld "items" (list_of T_binary) false].
Definition CatalogIndexOptionDefinitionsResultSchema : list field :=
  [fld "schema" T_binary false; fld "defaults" T_binary false; fld "create_names" (list_of T_string) false;
   fld "alter_names" (list_of T_string) false].
Definition CatalogMacroGetResultSchema : list field :=
  [fld "items" (list_of T_binary) false].
Definition CatalogSchemaContentsFunctionsResultSchema : list field :=
  [fld "items" (list_of T_binary) false].
Definition CatalogSchemaContentsIndexesResultSchema : list field :=
  [fld "items" (list_of T_binary) false].
Definition CatalogSchemaContentsMacrosResultSchema : list field :=
  [fld "items" (list_of T_binary) false].
Definition CatalogSchemaContentsTablesResultSchema : list field :=
  [fld "items" (list_of T_binary) false].
Definition CatalogSchemaContentsViewsResultSchema : list field :=
  [fld "items" (list_of T_binary) false].
Definition CatalogSchemaGetResultSchema : list field :=
  [fld "items" (list_of T_binary) false].
Definition CatalogSchemaOptionDefinitionsResultSchema : list field :=
  [fld "schema" T_binary false; fld "defaults" T_binary false; fld "create_names" (list_of T_string) false;
   fld "alter_names" (list_of T_string) false].
Definition CatalogSchemasResultSchema : list field :=
  [fld "items" (list_of T_binary) false].
Definition CatalogTableConstraintsApplyResultSchema : list field :=
  [fld "table" T_binary false; fld "definition_revision" T_binary false;
   fld "constraints" (list_of T_binary) false].
Definition CatalogTableGetResultSchema : list field :=
  [fld "items" (list_of T_binary) false].
Definition CatalogTableOptionDefinitionsResultSchema : list field :=
  [fld "schema" T_binary false; fld "defaults" T_binary false; fld "create_names" (list_of T_string) false;
   fld "alter_names" (list_of T_string) false].
Definition CatalogTransactionBeginResultSchema : list field :=
  [fld "transaction_opaque_data" T_binary true].
Definition CatalogVersionResultSchema : list field :=
  [fld "version" T_int64 false].
Definition CatalogViewGetResultSchema : list field :=
  [fld "items" (list_of T_binary) false].
Definition TableBufferingCombineResultSchema : list field :=
  [fld "finalize_state_ids" (list_of T_binary) false].
Definition TableBufferingDestructorResultSchema : list field :=
  [].
Definition TableBufferingProcessResultSchema : list field :=
  [fld "state_id" T_binary false].
Definition TableFunctionCardinalityResultSchema : list field :=
  [fld "estimate" T_int64 true; fld "max" T_int64 true].
Definition TableFunctionDynamicToStringResultSchema : list field :=
  [fld "keys" (list_of T_string) false; fld "values" (list_of T_string) false].
Definition TableFunctionPlanResultSchema : list field :=
  [fld "splits" (list_of T_binary) false; fld "next_cursors" (list_of T_binary) true;
   fld "execution_id" T_binary true; fld "init_opaque_data" T_binary true; fld "max_workers" T_int64 true;
   fld "estimated_total_splits" T_int64 true; fld "estimated_total_rows" T_int64 true;
   fld "estimated_total_bytes" T_int64 true; fld "catalog_version" T_int64 true; fld "scope" T_string false;
   fld "locations" (list_of T_string) true; fld "key_grouping" T_binary true;
   fld "range_partitioning" T_binary true; fld "partitioning" (list_of T_binary) true;
   fld "sort_order" (list_of T_binary) true; fld "cache_max_age_seconds" T_int64 true;
   fld "start_position" T_binary true; fld "end_position" T_binary true].
Definition TableFunctionProjectionResultSchema : list field :=
  [fld "accepted_indices" (list_of T_int64) false; fld "bind_result" T_binary true].

(** ** The methods *)

(** How a method is served. *)
Inductive handler : Type := Unary | Void | Stream.

Record VgiMethod := mkMethod {
  m_name : string;
  (** The envelope it answers in, and the record in the envelope. *)
  m_result : option (list field);
  m_payload : option (list field);
  m_handler : handler;
}.

Definition VGI_METHODS : list VgiMethod :=
  [mkMethod "aggregate_bind" (Some ResultEnvelopeSchema) (Some AggregateBindResultSchema) Unary;
   mkMethod "aggregate_combine" (Some ResultEnvelopeSchema) (Some AggregateCombineResultSchema) Unary;
   mkMethod "aggregate_destructor" (Some ResultEnvelopeSchema) (Some AggregateDestructorResultSchema) Unary;
   mkMethod "aggregate_finalize" (Some ResultEnvelopeSchema) (Some AggregateFinalizeResultSchema) Unary;
   mkMethod "aggregate_streaming_chunk" (Some ResultEnvelopeSchema) (Some AggregateStreamingChunkResultSchema) Unary;
   mkMethod "aggregate_streaming_close" (Some ResultEnvelopeSchema) (Some AggregateStreamingCloseResultSchema) Unary;
   mkMethod "aggregate_streaming_open" (Some ResultEnvelopeSchema) (Some AggregateStreamingOpenResultSchema) Unary;
   mkMethod "aggregate_update" (Some ResultEnvelopeSchema) (Some AggregateUpdateResultSchema) Unary;
   mkMethod "aggregate_window" (Some ResultEnvelopeSchema) (Some AggregateWindowResultSchema) Unary;
   mkMethod "aggregate_window_batch" (Some ResultEnvelopeSchema) (Some AggregateWindowBatchResultSchema) Unary;
   mkMethod "aggregate_window_destructor" (Some ResultEnvelopeSchema) (Some AggregateWindowDestructorResultSchema) Unary;
   mkMethod "aggregate_window_init" (Some ResultEnvelopeSchema) (Some AggregateWindowInitResultSchema) Unary;
   mkMethod "bind" (Some ResultEnvelopeSchema) (Some BindResultSchema) Unary;
   mkMethod "catalog_attach" (Some ResultEnvelopeSchema) (Some CatalogAttachResultSchema) Unary;
   mkMethod "catalog_catalogs" (Some ResultEnvelopeSchema) (Some CatalogCatalogsResultSchema) Unary;
   mkMethod "catalog_contents" (Some ResultEnvelopeSchema) (Some CatalogContentsResultSchema) Unary;
   mkMethod "catalog_copy_from_formats" (Some ResultEnvelopeSchema) (Some CatalogCopyFromFormatsResultSchema) Unary;
   mkMethod "catalog_create" None None Void;
   mkMethod "catalog_dependencies" (Some ResultEnvelopeSchema) (Some CatalogDependenciesResultSchema) Unary;
   mkMethod "catalog_detach" None None Void;
   mkMethod "catalog_drop" None None Void;
   mkMethod "catalog_index_create" None None Void;
   mkMethod "catalog_index_drop" None None Void;
   mkMethod "catalog_index_get" (Some ResultEnvelopeSchema) (Some CatalogIndexGetResultSchema) Unary;
   mkMethod "catalog_index_option_definitions" (Some ResultEnvelopeSchema) (Some CatalogIndexOptionDefinitionsResultSchema) Unary;
   mkMethod "catalog_macro_create" None None Void;
   mkMethod "catalog_macro_drop" None None Void;
   mkMethod "catalog_macro_get" (Some ResultEnvelopeSchema) (Some CatalogMacroGetResultSchema) Unary;
   mkMethod "catalog_query_prepare" (Some ResultEnvelopeSchema) (Some CatalogQueryPrepareResultSchema) Unary;
   mkMethod "catalog_query_release" None None Void;
   mkMethod "catalog_schema_alter_metadata" None None Void;
   mkMethod "catalog_schema_alter_options" None None Void;
   mkMethod "catalog_schema_contents_functions" (Some ResultEnvelopeSchema) (Some CatalogSchemaContentsFunctionsResultSchema) Unary;
   mkMethod "catalog_schema_contents_indexes" (Some ResultEnvelopeSchema) (Some CatalogSchemaContentsIndexesResultSchema) Unary;
   mkMethod "catalog_schema_contents_macros" (Some ResultEnvelopeSchema) (Some CatalogSchemaContentsMacrosResultSchema) Unary;
   mkMethod "catalog_schema_contents_tables" (Some ResultEnvelopeSchema) (Some CatalogSchemaContentsTablesResultSchema) Unary;
   mkMethod "catalog_schema_contents_views" (Some ResultEnvelopeSchema) (Some CatalogSchemaContentsViewsResultSchema) Unary;
   mkMethod "catalog_schema_create" None None Void;
   mkMethod "catalog_schema_drop" None None Void;
   mkMethod "catalog_schema_get" (Some ResultEnvelopeSchema) (Some CatalogSchemaGetResultSchema) Unary;
   mkMethod "catalog_schema_option_definitions" (Some ResultEnvelopeSchema) (Some CatalogSchemaOptionDefinitionsResultSchema) Unary;
   mkMethod "catalog_schemas" (Some ResultEnvelopeSchema) (Some CatalogSchemasResultSchema) Unary;
   mkMethod "catalog_table_alter_layout" None None Void;
   mkMethod "catalog_table_alter_options" None None Void;
   mkMethod "catalog_table_column_add" None None Void;
   mkMethod "catalog_table_column_comment_set" None None Void;
   mkMethod "catalog_table_column_default_drop" None None Void;
   mkMethod "catalog_table_column_default_set" None None Void;
   mkMethod "catalog_table_column_drop" None None Void;
   mkMethod "catalog_table_column_rename" None None Void;
   mkMethod "catalog_table_column_statistics_get" (Some OptionalResultEnvelopeSchema) None Unary;
   mkMethod "catalog_table_column_type_change" None None Void;
   mkMethod "catalog_table_comment_set" None None Void;
   mkMethod "catalog_table_constraints_apply" (Some ResultEnvelopeSchema) (Some CatalogTableConstraintsApplyResultSchema) Unary;
   mkMethod "catalog_table_create" None None Void;
   mkMethod "catalog_table_delete_function_get" (Some ResultEnvelopeSchema) None Unary;
   mkMethod "catalog_table_drop" None None Void;
   mkMethod "catalog_table_get" (Some ResultEnvelopeSchema) (Some CatalogTableGetResultSchema) Unary;
   mkMethod "catalog_table_insert_function_get" (Some ResultEnvelopeSchema) None Unary;
   mkMethod "catalog_table_not_null_drop" None None Void;
   mkMethod "catalog_table_not_null_set" None None Void;
   mkMethod "catalog_table_option_definitions" (Some ResultEnvelopeSchema) (Some CatalogTableOptionDefinitionsResultSchema) Unary;
   mkMethod "catalog_table_rename" None None Void;
   mkMethod "catalog_table_scan_branches_get" (Some ResultEnvelopeSchema) None Unary;
   mkMethod "catalog_table_scan_function_get" (Some ResultEnvelopeSchema) None Unary;
   mkMethod "catalog_table_update_function_get" (Some ResultEnvelopeSchema) None Unary;
   mkMethod "catalog_transaction_begin" (Some ResultEnvelopeSchema) (Some CatalogTransactionBeginResultSchema) Unary;
   mkMethod "catalog_transaction_commit" None None Void;
   mkMethod "catalog_transaction_rollback" None None Void;
   mkMethod "catalog_version" (Some ResultEnvelopeSchema) (Some CatalogVersionResultSchema) Unary;
   mkMethod "catalog_view_column_comment_set" None None Void;
   mkMethod "catalog_view_comment_set" None None Void;
   mkMethod "catalog_view_create" None None Void;
   mkMethod "catalog_view_drop" None None Void;
   mkMethod "catalog_view_get" (Some ResultEnvelopeSchema) (Some CatalogViewGetResultSchema) Unary;
   mkMethod "catalog_view_rename" None None Void;
   mkMethod "init" None None Stream;
   mkMethod "table_buffering_combine" (Some ResultEnvelopeSchema) (Some TableBufferingCombineResultSchema) Unary;
   mkMethod "table_buffering_destructor" (Some ResultEnvelopeSchema) (Some TableBufferingDestructorResultSchema) Unary;
   mkMethod "table_buffering_process" (Some ResultEnvelopeSchema) (Some TableBufferingProcessResultSchema) Unary;
   mkMethod "table_function_cardinality" (Some ResultEnvelopeSchema) (Some TableFunctionCardinalityResultSchema) Unary;
   mkMethod "table_function_dynamic_to_string" (Some ResultEnvelopeSchema) (Some TableFunctionDynamicToStringResultSchema) Unary;
   mkMethod "table_function_plan" (Some ResultEnvelopeSchema) (Some TableFunctionPlanResultSchema) Unary;
   mkMethod "table_function_projection" (Some ResultEnvelopeSchema) (Some TableFunctionProjectionResultSchema) Unary;
   mkMethod "table_function_statistics" (Some OptionalResultEnvelopeSchema) None Unary]%string.

Inductive MethodKind : Type := K_Void | K_Result | K_Binary | K_Stream.

Definition kind_of (m : VgiMethod) : MethodKind :=
  match m_handler m with
  | Stream => K_Stream
  | Void => K_Void
  | Unary => match m_payload m with Some _ => K_Result | None => K_Binary end
  end.

Record MethodSpec := mkSpec { s_name : string; s_kind : MethodKind; s_payload : option (list field); s_optional_result : bool }.

Definition protocol_methods : list MethodSpec :=
  map (λ m, mkSpec (m_name m) (kind_of m) (m_payload m)
              (match m_result m with Some (f :: _) => f_nullable f | _ => false end)) VGI_METHODS.

Definition envelope_schema : list field := OptionalResultEnvelopeSchema.

(** None for a method whose answer is no record. *)
Definition payload_schema_of (method : string) : result (option (list field)) :=
  s ← from_opt (Runtime_error ("no such protocol method: " +:+ method))
        (List.find (λ s, bool_decide (s_name s = method)) protocol_methods);
  Ok (s_payload s).
(** ** Answers *)

Section answers.
Context `{A : Arrow}.

(** [ResultBuilder(payload_schema_of(method))] with what is set, defaults for the rest. *)
Definition build_payload (method : string) (cells : list (string * cell)) : result batch :=
  schema ← payload_schema_of method;
  schema ← from_opt (Undefined_behaviour "a builder without a schema") schema;
  build_filled schema None cells.

Definition envelope_of (payload : batch) : result batch :=
  s ← encode_ipc payload; build envelope_schema None [("result"%string, Cell_binary s)].

Definition answer_payload (method : string) (cells : list (string * cell)) : result batch :=
  payload ← build_payload method cells; envelope_of payload.

(** [Schema::Equals] *)
Class SchemaEquals := schema_same : list field → list field → bool.

Definition has_null (a : array) : bool := existsb is_null (a_values a).

Definition conform `{SchemaEquals} (answer : option batch) (declared : list field) (method : string) : result (option batch) :=
  match answer with
  | None => Ok None
  | Some b =>
      if schema_same (b_schema b) declared || negb (schema_same (b_schema b) envelope_schema) then Ok answer
      else
        throw_if (existsb (λ e : field * array, negb (f_nullable e.1) && has_null e.2) (zip declared (b_columns b)))
          (Runtime_error (method +:+ " answered null, but its return is not optional"));;
        Ok (Some (mkBatch declared None (b_rows b) (b_columns b)))
  end.

(** *** What the client reads *)

(** The record in an answer. *)
Definition read_payload (answer : batch) : result (option batch) := get_ipc (Some answer) "result".

Lemma envelope_read `{!ArrowLaws A} payload b : envelope_of payload = Ok b → read_payload b = Ok (Some payload).
Proof using Type.
  unfold envelope_of. intros (s & Hs & Hb)%bind_Ok. apply encode_ipc_read in Hs as (_ & _ & _ & Hd).
  destruct (built_reads envelope_schema None _ b (fld "result" T_binary true) (Cell_binary s) Hb) as (_ & _ & _ & _ & _ & Hr & _).
  - by_decide.
  - by_decide.
  - by left.
  - by left.
  - unfold read_payload, get_ipc. cbn in Hr. by rewrite Hr.
Qed.

(** No record has two fields of a name. *)
Lemma payload_names method schema : payload_schema_of method = Ok (Some schema) → NoDup (map f_name schema).
Proof using Type.
  unfold payload_schema_of. intros (spec & [Hin _]%from_opt_Ok%List.find_some & [= Hs])%bind_Ok.
  assert (forallb (λ s, from_option (λ l, bool_decide (NoDup (map f_name l))) true (s_payload s)) protocol_methods = true)
    as Hall by (vm_compute; reflexivity).
  rewrite forallb_forall in Hall. specialize (Hall spec Hin). rewrite Hs in Hall. by apply bool_decide_eq_true in Hall.
Qed.

Lemma answer_payload_reads `{!ArrowLaws A} method cells answer :
  answer_payload method cells = Ok answer → NoDup cells.*1 →
  ∃ schema payload, payload_schema_of method = Ok (Some schema) ∧ read_payload answer = Ok (Some payload) ∧
    b_schema payload = schema ∧ b_rows payload = 1 ∧
    ∀ f c, (f, c) ∈ cells → ∃ g, g ∈ schema ∧ f_name g = f ∧ reads (f_type g) (Some payload) f c.
Proof using Type.
  unfold answer_payload, build_payload.
  intros (payload & (schema & Hs & (s & ->%from_opt_Ok & Hb)%bind_Ok)%bind_Ok & He)%bind_Ok Hnd.
  destruct (build_filled_reads _ _ _ _ Hb Hnd (payload_names _ _ Hs)) as (H1 & H2 & H3).
  exists s, payload. split_and!; [done|by apply envelope_read|done..].
Qed.

Lemma answer_payload_envelope `{!ArrowLaws A} method cells answer :
  answer_payload method cells = Ok answer → b_schema answer = envelope_schema.
Proof using Type.
  intros (payload & _ & He)%bind_Ok. unfold envelope_of in He. apply bind_Ok in He as (s & _ & Hb).
  by destruct (build_column _ _ _ _ "result" (Cell_binary s) Hb) as (Hn & _); [by_decide|by left|].
Qed.

Lemma singleton_index `{!ArrowLaws A} f : get_field_index [f] (f_name f) = Some 0%nat.
Proof using Type. apply get_field_index_unique; [done|]. intros [|[|j]]; done. Qed.

(** Under either envelope the record is found. *)
Lemma conform_read `{!ArrowLaws A} `{SchemaEquals} answer declared method served :
  b_schema answer = envelope_schema → declared = ResultEnvelopeSchema ∨ declared = OptionalResultEnvelopeSchema →
  conform (Some answer) declared method = Ok (Some served) → read_payload served = read_payload answer.
Proof using Type.
  intros Ha Hd Hc. unfold conform in Hc. destruct (_ || _); [congruence|].
  apply bind_throw_if_Ok in Hc as [_ [= <-]]. unfold read_payload, get_ipc, get_optional_binary, typed_column, has_column, column, column_by_name.
  cbn [b_schema b_columns]. rewrite Ha.
  assert (get_field_index envelope_schema "result" = Some 0%nat) as H1 by exact (singleton_index (fld "result" T_binary true)).
  assert (get_field_index ResultEnvelopeSchema "result" = Some 0%nat) as H2 by exact (singleton_index (fld "result" T_binary false)).
  change OptionalResultEnvelopeSchema with envelope_schema in Hd. destruct Hd as [-> | ->]; by rewrite ?H1, ?H2.
Qed.

(** What a handler sets of its method's record is what the client reads of the
    answer the server sends, cell by cell, whichever envelope the method is
    registered with; the record has the schema the protocol gives it, and one row. *)
Theorem answer_reads `{!ArrowLaws A} `{SchemaEquals} method cells answer declared served :
  answer_payload method cells = Ok answer → NoDup cells.*1 →
  declared = ResultEnvelopeSchema ∨ declared = OptionalResultEnvelopeSchema →
  conform (Some answer) declared method = Ok (Some served) →
  ∃ schema payload, payload_schema_of method = Ok (Some schema) ∧ read_payload served = Ok (Some payload) ∧
    b_schema payload = schema ∧ b_rows payload = 1 ∧
    ∀ f c, (f, c) ∈ cells → ∃ g, g ∈ schema ∧ f_name g = f ∧ reads (f_type g) (Some payload) f c.
Proof using Type.
  intros Ha Hnd Hd Hc. rewrite (conform_read answer declared method served) by eauto using answer_payload_envelope.
  by apply answer_payload_reads.
Qed.

End answers.

(** ** The answer to a sunk batch *)

Definition sample_answer : batch :=
  match answer_payload (A := table_arrow []) "table_buffering_process" [("state_id"%string, Cell_binary (bs "s1"))] with
  | Ok b => b
  | Throw _ => mkBatch [] None 0 []
  end.

Lemma answer_reads_witness :
  let same : SchemaEquals := list_eqb field_eqb in
  ∃ served payload, conform (H := same) (Some sample_answer) ResultEnvelopeSchema "table_buffering_process" = Ok (Some served) ∧
    b_schema served = ResultEnvelopeSchema ∧ read_payload (A := table_arrow []) served = Ok (Some payload) ∧
    get_optional_binary (H := table_arrow []) (Some payload) "state_id" = Ok (Some (bs "s1")).
Proof.
  set (same := list_eqb field_eqb : SchemaEquals).
  set (served := mkBatch ResultEnvelopeSchema None 1 (b_columns sample_answer)).
  assert (conform (H := same) (Some sample_answer) ResultEnvelopeSchema "table_buffering_process" = Ok (Some served)) as Hc
    by (vm_compute; reflexivity).
  destruct (answer_reads (A := table_arrow []) (H := same) "table_buffering_process" [("state_id"%string, Cell_binary (bs "s1"))]
              sample_answer ResultEnvelopeSchema served)
    as (schema & payload & _ & Hp & _ & _ & Hr).
  - vm_compute. reflexivity.
  - by_decide.
  - by left.
  - exact Hc.
  - exists served, payload. split; [exact Hc|]. split; [reflexivity|]. split; [exact Hp|].
    destruct (Hr "state_id"%string (Cell_binary (bs "s1"))) as (g & _ & _ & Hg & _); [by left|]. exact Hg.
Defined.

(** A null where the method has none is refused, and stays where it may. *)
Example conform_null :
  let same : SchemaEquals := list_eqb field_eqb in
  let null := mkBatch envelope_schema None 1 [mkArray T_binary [V_null]] in
  conform (H := same) (Some null) ResultEnvelopeSchema "bind" = Throw (Runtime_error "bind answered null, but its return is not optional") ∧
  conform (H := same) (Some null) envelope_schema "table_function_statistics" = Ok (Some null).
Proof. vm_compute. done. Qed.

End Protocol.
