(* ===== verification/AttachService.v ===== *)
(** * Sealing and redeeming an attach ([src/attach_ticket_service.cpp], [src/attach_ticket.cpp])

    [seal_attach] validates a request, caps its lifetime and mints a ticket;
    [redeem_attach_ticket] puts the attach that was sealed in the place of the
    one that carries the ticket.  The theorems are about the two together. *)

From S2P Require Import Prelude Text Utf8 Crypto AttachTicket Arrow ArrowRecord Wire.

Module AttachService.
Import AttachTicket Wire.

(** ** Redeeming *)

(** A string of row 0 in any of Arrow's string layouts. *)
Definition string_value (column : array) : option bytes :=
  match a_values column with
  | [] => None
  | v :: _ =>
      match a_type column with
      | T_string | T_large_string | T_string_view => text_of v
      | _ => None
      end
  end.

(** The first column spelled as the ticket key. *)
Fixpoint ticket_column (schema : list field) : option nat :=
  match schema with
  | [] => None
  | f :: schema => if is_reserved_attach_option (f_name f) then Some 0%nat else S <$> ticket_column schema
  end.

(** The names of the other columns. *)
Definition others (schema : list field) (ticket : nat) : list string :=
  map f_name (take ticket schema ++ drop (S ticket) schema).

Definition option_field (name : string) : string := "options." +:+ name.

Definition check_alone (schema : list field) (ticket : nat) : result () :=
  throw_if (bool_decide (others schema ticket ≠ []))
    (Invalid_request (kAttachTicketOption +:+ " must be the only attach option")
       (map (λ n, (option_field n, "not allowed alongside " +:+ kAttachTicketOption)) (others schema ticket))).

(** A status that is not ok is thrown ([VGI_RPC_THROW_NOT_OK], [vgi_rpc::unwrap]). *)
Definition ok_or_throw {X} (r : string + X) : result X :=
  match r with inl status => fail status | inr x => Ok x end.

Definition binary_array (s : bytes) : array := mkArray T_binary [V_text s].
Definition string_array (s : bytes) : array := mkArray T_string [V_text s].
Definition text_or_null (s : bytes) : array :=
  mkArray T_string [match s with [] => V_null | _ => V_text s end].

(** [Slice(0, 1)] *)
Definition slice1 (a : array) : array := mkArray (a_type a) (take 1 (a_values a)).

Section redeem.
Context `{Arrow} `{ArrowRecord} `{Crypto} `{Base64url}.

Definition restored_options (options_ipc : bytes) : result array :=
  match options_ipc with
  | [] => ok_or_throw (null_array T_binary)
  | _ =>
      match decode_ipc options_ipc with
      | Ok _ => Ok (binary_array options_ipc)
      | Throw e =>
          Throw (if std_exception e then Attach_ticket_invalid "attach ticket options are not an Arrow IPC record" else e)
      end
  end.

(** The column that takes the place of [column]. *)
Definition restored_column (claims : AttachTicketClaims) (options : array) (name : string) (column : array) : array :=
  if bool_decide (name = "name"%string) then string_array (catalog_name claims)
  else if bool_decide (name = "options"%string) then options
  else if bool_decide (name = "data_version_spec"%string) then text_or_null (data_version_spec claims)
  else if bool_decide (name = "implementation_version"%string) then text_or_null (implementation_version claims)
  else slice1 column.

Definition restored (claims : AttachTicketClaims) (options : array) (request : batch) : batch :=
  mkBatch (b_schema request) None 1
    (zip_with (λ f c, restored_column claims options (f_name f) c) (b_schema request) (b_columns request)).

(** The options of the request, if they carry a ticket, and the ticket's column. *)
Definition ticket_options (request : batch) : result (option (batch * nat)) :=
  encoded ← get_optional_binary (Some request) "options";
  match encoded with
  | None | Some [] => Ok None
  | Some encoded =>
      options ← decode_ipc encoded;
      match options with
      | None => Ok None
      | Some options =>
          if b_rows options <? 1 then Ok None
          else Ok ((λ i, (options, i)) <$> ticket_column (b_schema options))
      end
  end.

Definition redeem_attach_ticket (request : option batch) (key : option bytes) (principal : bytes) (now : double) :
    result (option batch) :=
  match request with
  | None => Ok None
  | Some request =>
      o ← ticket_options request;
      match o with
      | None => Ok None
      | Some (options, i) =>
          check_alone (b_schema options) i;;
          column ← from_opt (Undefined_behaviour "a column past the end of a batch") (b_columns options !! i);
          token ← from_opt (Attach_ticket_invalid (kAttachTicketOption +:+ " must be a string")) (string_value column);
          key ← from_opt (Attach_ticket_invalid "this worker does not redeem attach tickets") key;
          claims ← open_attach_ticket key token principal now;
          options ← restored_options (options_ipc claims);
          let r := restored claims options request in
          match validate_full r with
          | Some status => fail status
          | None => Ok (Some r)
          end
      end
  end.

End redeem.

(** ** Sealing *)

Record AttachOptionSpec := mkOption {
  ao_name : string;
  ao_description : bytes;
  ao_type : option dtype;
  ao_default : option array;
  ao_required : bool;
  ao_secret : bool;
}.

Definition violation : Type := string * string.

(** The names of the options of a one-row record. *)
Definition option_names (options : option batch) : list string :=
  match options with Some b => if b_rows b =? 1 then map f_name (b_schema b) else [] | None => [] end.

Definition name_violation (specs : list AttachOptionSpec) (name : string) : option violation :=
  if is_reserved_attach_option name then Some (option_field name, "a ticket cannot seal another ticket"%string)
  else if bool_decide (lower name ∉ map (λ s, lower (ao_name s)) specs)
  then Some (option_field name, "not an attach option this catalog declares"%string)
  else None.

Definition required_violation (names : list string) (spec : AttachOptionSpec) : option violation :=
  if ao_required spec && bool_decide (lower (ao_name spec) ∉ map lower names)
  then Some (option_field (ao_name spec), "required"%string) else None.

Definition option_violations (catalog : bytes) (specs : option (list AttachOptionSpec)) (names : list string) :
    list violation :=
  match specs with
  | None => [("catalog_name"%string, "no catalog named '" +:+ str catalog +:+ "'")]
  | Some specs => omap (name_violation specs) names ++ omap (required_violation names) specs
  end.

Definition rows_violation (options : option batch) : list violation :=
  match options with
  | Some b => if 1 <? b_rows b then [("options", "must be a one-row record")]%string else []
  | None => []
  end.

Definition ttl_violation (ttl : Z) : list violation :=
  if ttl <? 0 then [("ttl_seconds", "must be 0 (as long as allowed) or positive")]%string else [].

Definition size_violation (options_ipc : bytes) : list violation :=
  if kAttachTicketMaxOptionsBytes <? Z.of_nat (length options_ipc)
  then [("options"%string, str (to_string (Z.of_nat (length options_ipc))) +:+ " bytes; a ticket carries at most 16384")]
  else [].

(** Signed arithmetic of 64 bits, undefined past its range. *)
Definition int64_or_undefined (z : Z) : result Z :=
  if bool_decide (is_int64 z) then Ok z else Throw (Undefined_behaviour "signed overflow").

Definition lifetime (ttl : Z) (ceiling : option Z) : option Z :=
  if ttl =? 0 then ceiling else Some match ceiling with Some c => Z.min ttl c | None => ttl end.

Definition expiry (issued : Z) (life : option Z) : result Z :=
  match life with Some l => int64_or_undefined (issued + l) | None => Ok 0 end.

Definition kMicro : nat := 2.
Definition attach_ticket_schema : list field :=
  [Field "ticket" T_string false []; Field "expires_at" (T_timestamp kMicro "UTC") true []].
Definition result_envelope : list field := [Field "result" T_binary false []].

Definition invalid_seal (violations : list violation) : exn := Invalid_request "seal_attach request is invalid" violations.

Section seal.
Context `{Arrow} `{Crypto} `{Base64url}.

(** The request as [seal_attach] reads it. *)
Record SealRequest := mkSeal {
  sr_catalog : bytes;
  sr_options : option bytes;
  sr_data_version : bytes;
  sr_implementation : bytes;
  sr_ttl : Z;
}.

Definition read_seal (batch : option batch) : result SealRequest :=
  request ← get_ipc batch "request";
  request ← from_opt (Invalid_argument "seal_attach: empty request") request;
  let request := Some request in
  catalog ← get_string request "catalog_name";
  encoded ← get_optional_binary request "options";
  data_version ← get_string request "data_version_spec";
  implementation ← get_string request "implementation_version";
  ttl ← get_int64 request "ttl_seconds";
  Ok (mkSeal catalog encoded data_version implementation ttl).

Definition decode_options (encoded : option bytes) : result (option batch) :=
  match encoded with None | Some [] => Ok None | Some s => decode_ipc s end.

(** The bytes that are sealed: those of the request, if it has an option. *)
Definition sealed_options (encoded : option bytes) (names : list string) : bytes :=
  match names with [] => [] | _ => default [] encoded end.

Definition seal_violations (specs : option (list AttachOptionSpec)) (r : SealRequest) (options : option batch) : list violation :=
  ttl_violation (sr_ttl r) ++ rows_violation options ++
  option_violations (sr_catalog r) specs (option_names options) ++
  size_violation (sealed_options (sr_options r) (option_names options)).

(** The claims of the ticket: [issued] is the clock, [id] the random id. *)
Definition seal_claims (ceiling : option Z) (r : SealRequest) (options : option batch) (issued : Z) (id : bytes) :
    result AttachTicketClaims :=
  expires ← expiry issued (lifetime (sr_ttl r) ceiling);
  Ok (mkClaims issued expires id (sr_catalog r) (sr_data_version r) (sr_implementation r)
        (sealed_options (sr_options r) (option_names options))).

Definition expires_cell (expires : Z) : result value :=
  if expires =? 0 then Ok V_null else micros ← int64_or_undefined (expires * 1000000); Ok (V_int micros).

(** [random_id] and [nonce] are what the random generator gives. *)
Definition seal_attach (declared : bytes → option (list AttachOptionSpec)) (key : bytes) (ceiling : option Z)
    (req : option batch) (auth : AuthContext) (issued : Z) (random_id nonce : bytes) : result batch :=
  let principal := attach_ticket_principal auth in
  throw_if (length principal =? 0)%nat (Action_denied "an anonymous caller cannot seal an attach ticket");;
  r ← read_seal req;
  options ← decode_options (sr_options r);
  let violations := seal_violations (declared (sr_catalog r)) r options in
  throw_if (bool_decide (violations ≠ [])) (invalid_seal violations);;
  claims ← seal_claims ceiling r options issued random_id;
  token ← (match mint_attach_ticket key principal claims nonce with
           | Throw (Invalid_argument what) => Throw (invalid_seal [("request"%string, what)])
           | r => r
           end : result bytes);
  expires ← expires_cell (expires_at claims);
  payload ← encode_ipc (mkBatch attach_ticket_schema None 1
                          [string_array token; mkArray (T_timestamp kMicro "UTC") [expires]]);
  Ok (mkBatch result_envelope None 1 [binary_array payload]).

End seal.

(** ** The ceiling *)

Definition is_blank (c : ascii) : bool := bool_decide (bz c = 32) || bool_decide (bz c = 9).
Fixpoint skip_blanks (s : bytes) : bytes :=
  match s with c :: r => if is_blank c then skip_blanks r else s | [] => [] end.
Definition trim (s : bytes) : bytes := rev (skip_blanks (rev (skip_blanks s))).

(** What [strtoll] leaves unread; the whole text if it reads no digit. *)
Fixpoint skip_digits (s : bytes) : bytes :=
  match s with c :: r => if is_digit c then skip_digits r else s | [] => [] end.
Definition strtoll_end (s : bytes) : bytes :=
  let r := (read_sign (skip_spaces s)).2 in
  match r with c :: _ => if is_digit c then skip_digits r else s | [] => s end.

(** [environment] is [VGI_RPC_GRANT_MAX_TTL_SECONDS], if it is set. *)
Definition attach_ticket_max_ttl (grant_keys_max_ttl : option Z) (environment : option bytes) : result (option Z) :=
  match grant_keys_max_ttl, environment with
  | Some t, _ => Ok (Some t)
  | None, None => Ok None
  | None, Some raw =>
      let text := trim raw in
      if bool_decide (text = []) then Ok None
      else if bool_decide (strtoll_end text ≠ []) || (strtoll text <=? 0)
      then Throw (Invalid_argument ("VGI_RPC_GRANT_MAX_TTL_SECONDS='" +:+ str text +:+ "' must be a positive integer"))
      else Ok (Some (strtoll text))
  end.

(** ** Lemmas *)

Definition nonempty (s : bytes) : option bytes := match s with [] => None | _ => Some s end.

Definition sealed_fields : list string := ["name"; "options"; "data_version_spec"; "implementation_version"]%string.

Definition is_Ok {X} (r : result X) : Prop := match r with Ok _ => True | Throw _ => False end.

Lemma ticket_column_Some schema i :
  ticket_column schema = Some i → ∃ f, schema !! i = Some f ∧ is_reserved_attach_option (f_name f) = true.
Proof.
  revert i. induction schema as [|f l IH]; intros i; cbn [ticket_column]; [done|].
  destruct (is_reserved_attach_option (f_name f)) eqn:E.
  - intros [= <-]. by exists f.
  - intros (j & (g & Hg & Hr)%IH & ->)%fmap_Some. by exists g.
Qed.

Lemma others_alone f : others [f] 0 = [].
Proof. done. Qed.

Lemma check_alone_one f : check_alone [f] 0 = Ok tt.
Proof. done. Qed.

Lemma int64_or_undefined_Ok z x : int64_or_undefined z = Ok x ↔ is_int64 z ∧ x = z.
Proof. unfold int64_or_undefined. case_bool_decide; split; [by intros [= <-]|by intros [_ ->]|done|by intros [? _]]. Qed.

(** The lifetime is what was asked for, within the ceiling. *)
Lemma expiry_Ok issued ttl ceiling e :
  expiry issued (lifetime ttl ceiling) = Ok e →
  match lifetime ttl ceiling with
  | Some l => e = issued + l ∧ is_int64 e ∧ (ttl ≠ 0 → l ≤ ttl) ∧ (∀ c, ceiling = Some c → l ≤ c)
  | None => e = 0 ∧ ttl = 0 ∧ ceiling = None
  end.
Proof.
  unfold expiry, lifetime. destruct (Z.eqb_spec ttl 0) as [->|Ht]; [destruct ceiling as [c|]|].
  - intros [? ->]%int64_or_undefined_Ok. split_and!; [done..|]. by intros c' [= ->].
  - by intros [= <-].
  - intros [? ->]%int64_or_undefined_Ok. split_and!; [done..|intros _; destruct ceiling; lia|].
    intros c ->. lia.
Qed.

Section laws.
Context `{A : Arrow} `{R : ArrowRecord} `{!ArrowLaws A} `{C : Crypto} `{!CryptoLaws C} `{B : Base64url} `{!Base64urlLaws B}.

(** What a ticket that was sealed holds. *)
Lemma seal_attach_Ok declared key ceiling req auth issued id nonce out :
  seal_attach declared key ceiling req auth issued id nonce = Ok out →
  ∃ r options c token micros payload,
    read_seal req = Ok r ∧ decode_options (sr_options r) = Ok options ∧
    seal_violations (declared (sr_catalog r)) r options = [] ∧
    seal_claims ceiling r options issued id = Ok c ∧
    mint_attach_ticket key (attach_ticket_principal auth) c nonce = Ok token ∧
    encode_ipc (mkBatch attach_ticket_schema None 1 [string_array token; mkArray (T_timestamp kMicro "UTC") [micros]]) =
      Ok payload ∧
    out = mkBatch result_envelope None 1 [binary_array payload].
Proof using Type.
  unfold seal_attach. cbv zeta. intros [_ (r & Hr & (options & Ho & [Hv H]%bind_throw_if_Ok)%bind_Ok)%bind_Ok]%bind_throw_if_Ok.
  apply bool_decide_eq_false in Hv. apply bind_Ok in H as (c & Hc & H). apply bind_Ok in H as (token & Ht & H).
  assert (mint_attach_ticket key (attach_ticket_principal auth) c nonce = Ok token) as Hm
    by by destruct (mint_attach_ticket _ _ _ _) as [|[]].
  apply bind_Ok in H as (micros & _ & (payload & Hp & [= <-])%bind_Ok).
  exists r, options, c, token, micros, payload. split_and!; [done|done| |done..].
  destruct (seal_violations _ _ _); [done|by destruct Hv].
Qed.

Lemma column_unique b name i a :
  b_columns b !! i = Some a → (∀ j, f_name <$> b_schema b !! j = Some name ↔ j = i) → column_by_name b name = Some a.
Proof using Type*.
  intros Ha Hi. unfold column_by_name.
  rewrite (get_field_index_unique _ _ i); [done|by apply Hi|]. intros j Hj. by apply Hi.
Qed.

(** The cells of the response. *)
Lemma response_reads token micros payload :
  let ticket := mkBatch attach_ticket_schema None 1 [string_array token; mkArray (T_timestamp kMicro "UTC") [micros]] in
  encode_ipc ticket = Ok payload →
  get_ipc (Some (mkBatch result_envelope None 1 [binary_array payload])) "result" = Ok (Some ticket) ∧
  get_string (Some ticket) "ticket" = Ok token.
Proof using Type*.
  intros ticket (_ & _ & _ & Hd)%encode_ipc_read. split.
  - assert (column_by_name (mkBatch result_envelope None 1 [binary_array payload]) "result" = Some (binary_array payload)) as Hc.
    { apply (column_unique _ _ 0); [done|]. intros [|[|]]; done. }
    unfold get_ipc, get_optional_binary, has_column, column, typed_column. unfold column. rewrite Hc. cbn. exact Hd.
  - assert (column_by_name ticket "ticket" = Some (string_array token)) as Hc.
    { apply (column_unique _ _ 0); [done|]. intros [|[|[|]]]; done. }
    unfold get_string, required, typed_column, column. by rewrite Hc.
Qed.

(** A ticket opens for its principal while it is live. *)
Lemma minted_opens key pr c nonce token now :
  length nonce = kAeadNonceBytes → mint_attach_ticket key pr c nonce = Ok token → claims_ok c →
  not_yet_valid c now = false → expired c now = false → open_attach_ticket key token pr now = Ok c.
Proof using Type*.
  intros Hn Hm Hc H1 H2. apply open_ticket_Ok. split_and!; [split; [done|by exists nonce]|done..].
Qed.

(** The columns of the restored request. *)
Lemma restored_column_by_name c arr req name col :
  length (b_columns req) = length (b_schema req) → column_by_name req name = Some col →
  column_by_name (restored c arr req) name = Some (restored_column c arr name col).
Proof using Type*.
  intros Hlen (i & Hi & Hc)%bind_Some. unfold column_by_name. cbn [b_schema b_columns restored]. rewrite Hi. cbn.
  pose proof (get_field_index_found _ _ _ Hi) as Hn. apply fmap_Some in Hn as (f & Hf & ->).
  apply lookup_zip_with_Some. by exists f, col.
Qed.

Lemma restored_options_Ok options arr :
  restored_options options = Ok arr → arr = mkArray T_binary [match options with [] => V_null | _ => V_text options end].
Proof using Type*.
  unfold restored_options. destruct options as [|x l].
  - unfold ok_or_throw. destruct (null_array T_binary) as [|a] eqn:E; [done|]. intros [= <-]. by apply null_array_spec.
  - destruct (decode_ipc _); [|done]. by intros [= <-].
Qed.

Lemma restored_name c arr col : restored_column c arr "name" col = string_array (catalog_name c).
Proof using Type. done. Qed.
Lemma restored_options_column c arr col : restored_column c arr "options" col = arr.
Proof using Type. done. Qed.
Lemma restored_data_version c arr col : restored_column c arr "data_version_spec" col = text_or_null (data_version_spec c).
Proof using Type. done. Qed.
Lemma restored_implementation c arr col :
  restored_column c arr "implementation_version" col = text_or_null (implementation_version c).
Proof using Type. done. Qed.

(** What is read of the request that was restored: the four fields that were
    sealed, and the first row of every other column. *)
Definition restores (sealed : SealRequest) (options : bytes) (request r : batch) : Prop :=
  b_schema r = b_schema request ∧ b_rows r = 1 ∧
  ∀ name col, column_by_name request name = Some col →
    (name = "name"%string → get_string (Some r) name = Ok (sr_catalog sealed)) ∧
    (name = "options"%string → get_optional_binary (Some r) name = Ok (nonempty options)) ∧
    (name = "data_version_spec"%string → get_optional_string (Some r) name = Ok (nonempty (sr_data_version sealed))) ∧
    (name = "implementation_version"%string → get_optional_string (Some r) name = Ok (nonempty (sr_implementation sealed))) ∧
    (name ∉ sealed_fields → column_by_name r name = Some (slice1 col)).

Lemma restored_restores sealed c arr request :
  length (b_columns request) = length (b_schema request) → restored_options (options_ipc c) = Ok arr →
  catalog_name c = sr_catalog sealed → data_version_spec c = sr_data_version sealed →
  implementation_version c = sr_implementation sealed → restores sealed (options_ipc c) request (restored c arr request).
Proof using Type*.
  intros Hlen ->%restored_options_Ok Hc Hd Hi. split; [done|]. split; [done|]. intros name col Hcol.
  pose proof (restored_column_by_name c (mkArray T_binary [match options_ipc c with [] => V_null | _ => V_text (options_ipc c) end])
    _ _ _ Hlen Hcol) as Hr.
  unfold get_string, get_optional_string, get_optional_binary, required, optional, has_column, typed_column, column. rewrite Hr.
  rewrite <- Hc, <- Hd, <- Hi. split_and!.
  1-4: intros ->; cbn -[restored_column];
    rewrite ?restored_name, ?restored_options_column, ?restored_data_version, ?restored_implementation; cbn.
  - done.
  - by destruct (options_ipc c).
  - by destruct (data_version_spec c).
  - by destruct (implementation_version c).
  - intros Hname. unfold restored_column.
    repeat (case_bool_decide as E; [destruct Hname; rewrite E; by_decide|clear E]). done.
Qed.

Lemma seal_claims_Ok ceiling r options issued id c :
  seal_claims ceiling r options issued id = Ok c →
  ∃ e, expiry issued (lifetime (sr_ttl r) ceiling) = Ok e ∧
    c = mkClaims issued e id (sr_catalog r) (sr_data_version r) (sr_implementation r)
          (sealed_options (sr_options r) (option_names options)).
Proof using Type. unfold seal_claims. intros (e & He & [= <-])%bind_Ok. by exists e. Qed.

(** The sealed options are a record, unless there are none. *)
Lemma sealed_options_record r options :
  decode_options (sr_options r) = Ok options →
  let sealed := sealed_options (sr_options r) (option_names options) in
  sealed = [] ∨ (sr_options r = Some sealed ∧ ∃ b, decode_ipc sealed = Ok (Some b)).
Proof using Type.
  unfold decode_options, sealed_options. destruct (sr_options r) as [[|x l]|] eqn:E.
  - by intros [= <-]; left.
  - intros Hd. destruct options as [b|]; [|by left]. destruct (option_names (Some b)); [by left|]. right. cbn. by eauto.
  - by intros [= <-]; left.
Qed.

Lemma seal_claims_ok ceiling r options issued id c key pr nonce token :
  seal_claims ceiling r options issued id = Ok c → is_int64 issued → mint_attach_ticket key pr c nonce = Ok token →
  Forall (λ t, Utf8.valid_utf8 t = true) [id; sr_catalog r; sr_data_version r; sr_implementation r] → claims_ok c.
Proof using Type.
  intros (e & He & ->)%seal_claims_Ok Hi ((_ & Hcat & Hid & Hlt) & _)%mint_Ok Hutf.
  rewrite !Forall_cons in Hutf. destruct Hutf as (? & ? & ? & ? & _). unfold claims_ok. cbn in *. split_and!; try done.
  apply expiry_Ok in He. destruct (lifetime _ _); [apply He|]. destruct He as (-> & _). done.
Qed.

(** An attach that was sealed is the attach that is redeemed: a ticket that
    [seal_attach] issued, presented alone by its own principal under the same
    key while it is live, restores the catalog, the options byte for byte and
    the versions it was asked for, and keeps every other column of the new
    request.  Its lifetime is the one asked for, within the ceiling; it never
    expires only when neither says so. *)
Theorem sealed_attach_redeems declared key ceiling req auth issued id nonce out :
  seal_attach declared key ceiling req auth issued id nonce = Ok out →
  length nonce = kAeadNonceBytes → is_int64 issued →
  ∃ r c ticket token,
    read_seal req = Ok r ∧ get_ipc (Some out) "result" = Ok (Some ticket) ∧ get_string (Some ticket) "ticket" = Ok token ∧
    (options_ipc c = [] ∨ sr_options r = Some (options_ipc c)) ∧ issued_at c = issued ∧
    (match lifetime (sr_ttl r) ceiling with
     | Some l => expires_at c = issued + l ∧ (sr_ttl r ≠ 0 → l ≤ sr_ttl r) ∧ (∀ m, ceiling = Some m → l ≤ m)
     | None => expires_at c = 0 ∧ sr_ttl r = 0 ∧ ceiling = None
     end) ∧
    ∀ request options f now,
      ticket_options request = Ok (Some (options, 0%nat)) → b_schema options = [f] → b_columns options = [string_array token] →
      length (b_columns request) = length (b_schema request) →
      Forall (λ t, Utf8.valid_utf8 t = true) [id; sr_catalog r; sr_data_version r; sr_implementation r] →
      not_yet_valid c now = false → expired c now = false →
      redeem_attach_ticket (Some request) (Some key) (attach_ticket_principal auth) now =
        (arr ← restored_options (options_ipc c);
         match validate_full (restored c arr request) with
         | Some status => fail status
         | None => Ok (Some (restored c arr request))
         end) ∧
      (∀ arr, restored_options (options_ipc c) = Ok arr → restores r (options_ipc c) request (restored c arr request)) ∧
      (options_ipc c ≠ [] → is_Ok (restored_options (options_ipc c))).
Proof using Type*.
  intros (r & options & c & token & micros & payload & Hr & Hd & _ & Hc & Hm & Hp & ->)%seal_attach_Ok Hn Hi.
  destruct (response_reads _ _ _ Hp) as [Hres Hticket]. destruct (seal_claims_Ok _ _ _ _ _ _ Hc) as (e & He & Ec).
  pose proof (expiry_Ok _ _ _ _ He) as Hlife. pose proof (proj1 (mint_Ok _ _ _ _ _) Hm) as ((_ & Hcat & Hid & Hlt) & _).
  pose proof (sealed_options_record _ _ Hd) as Hso. cbv zeta in Hso.
  assert (sealed_options (sr_options r) (option_names options) = options_ipc c) as Eo by by subst c. rewrite Eo in Hso.
  exists r, c, (mkBatch attach_ticket_schema None 1 [string_array token; mkArray (T_timestamp kMicro "UTC") [micros]]), token.
  split_and!; [done|exact Hres|exact Hticket| |by subst c| |].
  - destruct Hso as [?|[? _]]; auto.
  - subst c. cbn [expires_at]. destruct (lifetime _ _); [destruct Hlife as (? & ? & ? & ?)|]; by auto.
  - intros request opts f now Hto Hs Hcols Hlen Hutf Hny Hex. split_and!.
    + unfold redeem_attach_ticket. rewrite Hto. cbn [mbind result_bind]. rewrite Hs, Hcols.
      cbn [lookup list_lookup from_opt]. rewrite check_alone_one. cbn [mbind result_bind string_value string_array a_values a_type text_of from_opt].
      rewrite (minted_opens _ _ c nonce); try done. by eapply seal_claims_ok.
    + intros arr Harr. apply restored_restores; try done; by subst c.
    + intros Hne. destruct Hso as [?|[_ [b Hb]]]; [done|]. unfold restored_options. destruct (options_ipc c); [done|]. by rewrite Hb.
Qed.

(** A request is restored exactly when its options hold a ticket and nothing
    else, the ticket is text, this worker has a key, the ticket was minted under
    it for the calling principal and is live, and what it seals is readable; the
    restored request is then made of the claims of that ticket alone. *)
Theorem redeem_iff request key pr now r :
  redeem_attach_ticket (Some request) key pr now = Ok (Some r) ↔
  ∃ options i column token k c arr,
    ticket_options request = Ok (Some (options, i)) ∧ others (b_schema options) i = [] ∧ b_columns options !! i = Some column ∧
    string_value column = Some token ∧ key = Some k ∧ authentic k token pr c ∧
    not_yet_valid c now = false ∧ expired c now = false ∧ restored_options (options_ipc c) = Ok arr ∧
    r = restored c arr request ∧ validate_full r = None.
Proof using Type*.
  unfold redeem_attach_ticket, check_alone. split.
  - intros ([[options i]|] & Ho & H)%bind_Ok; [|done]. apply bind_throw_if_Ok in H as [Hoth H].
    apply bool_decide_eq_false in Hoth. apply bind_Ok in H as (column & Hcol%from_opt_Ok & H).
    apply bind_Ok in H as (token & Ht%from_opt_Ok & H). apply bind_Ok in H as (k & Hk%from_opt_Ok & H).
    apply bind_Ok in H as (c & (Ha & H1 & H2)%open_ticket_Ok & (arr & Harr & H)%bind_Ok).
    destruct (validate_full _) eqn:Hv; [done|]. injection H as <-.
    exists options, i, column, token, k, c, arr. split_and!; try done. by destruct (others _ _); [|destruct Hoth].
  - intros (options & i & column & token & k & c & arr & Ho & Hoth & Hcol & Ht & -> & Ha & H1 & H2 & Harr & -> & Hv).
    rewrite Ho. cbn. rewrite Hoth, Hcol. cbn. rewrite Ht. cbn. rewrite (proj2 (open_ticket_Ok _ _ _ _ c)) by done. cbn.
    rewrite Harr. cbn. by rewrite Hv.
Qed.

End laws.

(** ** At work *)

Definition alice : AuthContext := mkAuth true (bs "login") (Some (bs "alice")).
Definition sample_bytes (i : nat) : bytes := zb 3 :: enc_len i.
Definition sample_id : bytes := bs "0123456789abcdef0123456789abcdef".
Definition sample_issued : Z := 1700000000.

Definition sample_options : batch := mkBatch [Field "password" T_string true []] None 1 [string_array (bs "secret")].
Definition sample_seal : batch :=
  mkBatch [Field "catalog_name" T_string false []; Field "options" T_binary true []; Field "data_version_spec" T_string false [];
           Field "implementation_version" T_string false []; Field "ttl_seconds" T_int64 false []] None 1
    [string_array (bs "sales"); binary_array (sample_bytes 0); string_array (bs "v1"); string_array [];
     mkArray T_int64 [V_int 86400]].
Definition sample_claims : AttachTicketClaims :=
  mkClaims sample_issued (sample_issued + 3600) sample_id (bs "sales") (bs "v1") [] (sample_bytes 0).
Definition sample_token : bytes :=
  match @mint_attach_ticket toy_crypto hex_base64url demo_key (bs "alice") sample_claims demo_nonce with
  | Ok t => t | Throw _ => [] end.
Definition sample_ticket : batch :=
  mkBatch attach_ticket_schema None 1
    [string_array sample_token; mkArray (T_timestamp kMicro "UTC") [V_int ((sample_issued + 3600) * 1000000)]].
Definition ticket_option : batch := mkBatch [Field "VGI_attach_ticket" T_string true []] None 1 [string_array sample_token].

Definition sample_batches : list batch := [sample_options; sample_seal; sample_ticket; ticket_option].
Definition sample_arrow : Arrow := table_arrow sample_batches.

Definition seal_call : batch := mkBatch [Field "request" T_binary false []] None 1 [binary_array (sample_bytes 1)].
Definition declared (catalog : bytes) : option (list AttachOptionSpec) :=
  if bool_decide (catalog = bs "sales") then Some [mkOption "Password" [] (Some T_string) None true true] else None.

Definition attach_call : batch :=
  mkBatch [Field "name" T_string false []; Field "options" T_binary true []; Field "data_version_spec" T_string true [];
           Field "implementation_version" T_string true []; Field "client_capabilities" T_binary true []] None 1
    [string_array (bs "anything"); binary_array (sample_bytes 3); text_or_null []; text_or_null []; binary_array (bs "capabilities")].
Definition restored_call : batch :=
  mkBatch (b_schema attach_call) None 1
    [string_array (bs "sales"); binary_array (sample_bytes 0); string_array (bs "v1"); text_or_null [];
     binary_array (bs "capabilities")].

Lemma sealed_attach_redeems_witness :
  @seal_attach sample_arrow toy_crypto hex_base64url declared demo_key (Some 3600) (Some seal_call) alice sample_issued
    sample_id demo_nonce = Ok (mkBatch result_envelope None 1 [binary_array (sample_bytes 2)]) ∧
  @redeem_attach_ticket sample_arrow table_record toy_crypto hex_base64url (Some attach_call) (Some demo_key) (bs "alice")
    (double_of_Z (sample_issued + 100)) = Ok (Some restored_call).
Proof.
  assert (@seal_attach sample_arrow toy_crypto hex_base64url declared demo_key (Some 3600) (Some seal_call) alice sample_issued
    sample_id demo_nonce = Ok (mkBatch result_envelope None 1 [binary_array (sample_bytes 2)])) as E by (vm_compute; reflexivity).
  split; [exact E|].
  destruct (@sealed_attach_redeems sample_arrow table_record _ toy_crypto _ hex_base64url _ _ _ _ _ _ _ _ _ _ E) as
    (r & c & ticket & token & _).
  { reflexivity. }
  { split; vm_compute; [discriminate|reflexivity]. }
  vm_compute. reflexivity.
Defined.

Lemma redeem_iff_witness :
  ∃ c token, @string_value (mkArray T_string [V_text token]) = Some token ∧
    @authentic toy_crypto hex_base64url demo_key token (bs "alice") c ∧ catalog_name c = bs "sales".
Proof.
  assert (@redeem_attach_ticket sample_arrow table_record toy_crypto hex_base64url (Some attach_call) (Some demo_key)
    (bs "alice") (double_of_Z (sample_issued + 100)) = Ok (Some restored_call)) as E by (vm_compute; reflexivity).
  apply (@redeem_iff sample_arrow table_record _ toy_crypto _ hex_base64url _ attach_call (Some demo_key)) in E
    as (options & i & column & token & k & c & arr & _ & _ & _ & _ & [= <-] & Ha & _ & _ & _ & Hr & _).
  exists c, token. split; [done|]. split; [exact Ha|].
  apply (f_equal (λ b, b_columns b !! 0%nat ≫= string_value)) in Hr.
  unfold restored_call, restored in Hr. cbn in Hr. unfold restored_column in Hr. rewrite bool_decide_true in Hr by done.
  cbn in Hr. by injection Hr as <-.
Defined.

(** ** Where it goes wrong *)

(** Without a ceiling, a lifetime that reaches past the range of [int64_t] is
    added to the clock all the same. *)
Example seal_overflow :
  let seal := mkBatch (b_schema sample_seal) None 1
    [string_array (bs "sales"); binary_array (sample_bytes 0); string_array (bs "v1"); string_array []; mkArray T_int64 [V_int (2 ^ 63 - 1)]] in
  @seal_attach (table_arrow [sample_options; seal]) toy_crypto hex_base64url declared demo_key None (Some seal_call) alice
    sample_issued sample_id demo_nonce = Throw (Undefined_behaviour "signed overflow").
Proof. vm_compute. reflexivity. Qed.

(** A lifetime within it overflows when the expiry is told in microseconds. *)
Example seal_overflow_micros :
  let seal := mkBatch (b_schema sample_seal) None 1
    [string_array (bs "sales"); binary_array (sample_bytes 0); string_array (bs "v1"); string_array []; mkArray T_int64 [V_int (10 ^ 13)]] in
  @seal_attach (table_arrow [sample_options; seal]) toy_crypto hex_base64url declared demo_key None (Some seal_call) alice
    sample_issued sample_id demo_nonce = Throw (Undefined_behaviour "signed overflow").
Proof. vm_compute. reflexivity. Qed.

End AttachService.
