(* ===== verification/Metadata.v ===== *)
(** * Metadata of batches, and cache control ([src/cache_control.cpp])

    Key-value metadata as the SDK reads and writes it, a [std::map] of it laid
    out in the order of its keys, base64 (Arrow's, a parameter), and the
    [vgi.cache.*] keys a function advertises. *)

From stdpp Require Import sorting.
From S2P Require Import Prelude Text Crypto Arrow.

Module Metadata.

(** ** Key-value metadata *)

Abbreviation metadata := (list (string * string)).

(** [FindKey]: the first of its name. *)
Fixpoint find_key (m : metadata) (key : string) : option string :=
  match m with
  | [] => None
  | (k, v) :: m => if bool_decide (k = key) then Some v else find_key m key
  end.

(** [metadata_value] and [tick_metadata]: nothing for no metadata. *)
Definition metadata_value (m : option metadata) (key : string) : option string := m ≫= λ m, find_key m key.
#[global] Arguments metadata_value : simpl never.

(** A [std::map], and its entries in the order of the keys. *)
Definition key_le (a b : string * string) : Prop := string_le a.1 b.1.
#[global] Instance key_le_dec a b : Decision (key_le a b).
Proof. unfold key_le. apply _. Defined.

Definition items (m : gmap string string) : metadata := merge_sort key_le (map_to_list m).

Lemma find_key_Some m key v : NoDup m.*1 → find_key m key = Some v ↔ (key, v) ∈ m.
Proof.
  induction m as [|[k w] m IH]; cbn; [set_solver|]. rewrite NoDup_cons. intros [Hk Hn]. rewrite elem_of_cons.
  case_bool_decide as E.
  - subst k. split; [intros [= ->]; by left|]. intros [[= ->]|Hin]; [done|].
    destruct Hk. by apply (list_elem_of_fmap_2 fst) in Hin.
  - rewrite IH by done. naive_solver.
Qed.

Lemma find_key_app m n key : find_key (m ++ n) key = match find_key m key with Some v => Some v | None => find_key n key end.
Proof. induction m as [|[k v] m IH]; cbn; [done|]. by case_bool_decide. Qed.

Lemma find_key_filter (P : string → Prop) `{!∀ e : string * string, Decision (P e.1)} m key :
  P key → find_key (filter (λ e, P e.1) m) key = find_key m key.
Proof.
  intros Hk. induction m as [|[k v] m IH]; [done|]. rewrite filter_cons. cbn.
  case_decide as Hp; cbn [find_key fst] in *; case_bool_decide as E; try done; by subst.
Qed.

Lemma find_key_absent m key : key ∉ m.*1 → find_key m key = None.
Proof.
  induction m as [|[k v] m IH]; cbn; [done|]. rewrite not_elem_of_cons. intros [H1 H2].
  rewrite bool_decide_false by done. by apply IH.
Qed.

Lemma items_lookup m key : find_key (items m) key = m !! key.
Proof.
  assert (items m ≡ₚ map_to_list m) as Hp by apply merge_sort_Permutation.
  assert (NoDup (items m).*1) as Hn by (rewrite Hp; apply NoDup_fst_map_to_list).
  apply option_eq. intros v. by rewrite find_key_Some, Hp, elem_of_map_to_list.
Qed.

(** ** Base64 *)

Class Base64 := { base64_encode : bytes → string; base64_decode : string → option bytes }.
Class Base64Laws (B : Base64) : Prop := {
  base64_decode_encode b : base64_decode (base64_encode b) = Some b;
  base64_encode_nil : base64_encode [] = ""%string;
  base64_nul_free b : nul_free (bs (base64_encode b));
}.

(** Hexadecimal stands in for it. *)
Definition hex_base64 : Base64 := {| base64_encode b := str (hex_encode b); base64_decode s := hex_decode (bs s) |}.
#[global] Instance hex_base64_laws : Base64Laws hex_base64.
Proof.
  split; intros; cbn; rewrite ?bs_str; [apply hex_decode_encode|done|].
  unfold nul_free. induction b as [|c b IH]; [by intros ?%elem_of_nil|].
  destruct (hex_digits_of c) as (_ & _ & _ & H4 & H5).
  change (hex_encode (c :: b)) with
    (hex_digit (Z.shiftr (bz c) 4) :: hex_digit (Z.land (bz c) 15) :: hex_encode b).
  intros [E|[E|?]%elem_of_cons]%elem_of_cons; [..|done]; [rewrite <- E in H4|rewrite <- E in H5]; done.
Qed.

(** [wire::base64_decode]: of what is not base64, Arrow's newer versions have
    [ValueOrDie] end the process. *)
Definition wire_base64_decode `{Base64} (encoded : string) : result bytes :=
  from_opt (Undefined_behaviour "ValueOrDie") (base64_decode encoded).


(** ** Cache control *)

Definition kTtl : string := "vgi.cache.ttl".
Definition kExpires : string := "vgi.cache.expires".
Definition kNoStore : string := "vgi.cache.no_store".
Definition kScope : string := "vgi.cache.scope".
Definition kEtag : string := "vgi.cache.etag".
Definition kLastModified : string := "vgi.cache.last_modified".
Definition kRevalidatable : string := "vgi.cache.revalidatable".
Definition kStaleWhileRevalidate : string := "vgi.cache.stale_while_revalidate".
Definition kStaleIfError : string := "vgi.cache.stale_if_error".
Definition kNotModified : string := "vgi.cache.not_modified".
Definition kPartitionScope : string := "vgi.cache.partition_scope".
Definition kPerValue : string := "vgi.cache.per_value".

Record CacheControl := mkCache {
  ttl_seconds : option Z;
  expires : option string;
  scope : string;
  no_store : bool;
  etag : option string;
  last_modified : option string;
  revalidatable : bool;
  stale_while_revalidate : option Z;
  stale_if_error : option Z;
  not_modified : bool;
  partition_scope : bool;
  per_value : bool;
}.

Definition number (z : Z) : string := str (to_string z).
Definition set_opt (key : string) (v : option string) (m : gmap string string) : gmap string string :=
  match v with Some v => <[key := v]> m | None => m end.
Definition set_flag (key : string) (b : bool) (m : gmap string string) : gmap string string :=
  if b then <[key := "1"%string]> m else m.

Definition to_metadata (c : CacheControl) : gmap string string :=
  let m := set_opt kTtl ((λ t, number (if t <? 0 then 0 else t)) <$> ttl_seconds c) ∅ in
  let m := set_opt kExpires (expires c) m in
  let m := set_flag kNoStore (no_store c) m in
  let m := <[kScope := scope c]> m in
  let m := set_opt kEtag (etag c) m in
  let m := set_opt kLastModified (last_modified c) m in
  let m := set_flag kRevalidatable (revalidatable c) m in
  let m := set_opt kStaleWhileRevalidate (number <$> stale_while_revalidate c) m in
  let m := set_opt kStaleIfError (number <$> stale_if_error c) m in
  let m := set_flag kNotModified (not_modified c) m in
  let m := set_flag kPartitionScope (partition_scope c) m in
  set_flag kPerValue (per_value c) m.

Definition cache_metadata (control : option CacheControl) : option metadata := (λ c, items (to_metadata c)) <$> control.

Lemma set_opt_lookup key v m k : set_opt key v m !! k = if bool_decide (k = key) then from_option Some (m !! k) v else m !! k.
Proof. destruct v; cbn; case_bool_decide; subst; rewrite ?lookup_insert_eq, ?lookup_insert_ne; done. Qed.
Lemma set_flag_lookup key b m k : set_flag key b m !! k = if bool_decide (k = key) then (if b then Some "1"%string else m !! k) else m !! k.
Proof. destruct b; cbn; case_bool_decide; subst; rewrite ?lookup_insert_eq, ?lookup_insert_ne; done. Qed.

(** The keys a cache control can set. *)
Definition cache_keys : list string :=
  [kTtl; kExpires; kNoStore; kScope; kEtag; kLastModified; kRevalidatable; kStaleWhileRevalidate; kStaleIfError; kNotModified;
   kPartitionScope; kPerValue].

Lemma to_metadata_keys c k : is_Some (to_metadata c !! k) → k ∈ cache_keys.
Proof.
  unfold to_metadata, cache_keys. cbv zeta. intros H.
  repeat first
    [rewrite set_opt_lookup in H; case_bool_decide; [set_solver|]
    |rewrite set_flag_lookup in H; case_bool_decide; [set_solver|]
    |rewrite lookup_insert in H; case_decide; [set_solver|]].
  rewrite lookup_empty in H. by destruct H.
Qed.

End Metadata.
