(* ===== verification/Exchange.v ===== *)
(** * Table-in-out exchanges ([src/function_dispatch.cpp], [src/table_in_out.cpp])

    One input batch in, one reply out.  A function that continues its output
    over several replies says that there is more, and the client asks for it with
    continuation ticks.  The function itself, with the state of one that
    resumes, is the author's: a parameter.  The theorems: ticks and real input
    alternate as the replies say, and the provenance of a reply has an entry for
    each of its rows. *)

From S2P Require Import Prelude Text Crypto Arrow Wire Metadata.

Module Exchange.
Import Metadata.

(** What the drivers need of Arrow's tables: [Table::FromRecordBatches] with
    [CombineChunksToBatch], and [MakeArrayOfNull]. *)
Class ArrowTable := {
  combine_batches : list batch → string + batch;
  nulls : dtype → nat → string + array;
}.

(** The values of a column, none past the last. *)
Definition column_values (b : batch) (i : nat) : list value := from_option a_values [] (b_columns b !! i).

Class ArrowTableLaws (T : ArrowTable) : Prop := {
  combine_batches_spec bs b : combine_batches bs = inr b →
    b_rows b = foldr Z.add 0 (map b_rows bs) ∧ ∀ i, column_values b i = mjoin (map (λ c, column_values c i) bs);
  nulls_spec t n a : nulls t n = inr a → a = mkArray t (replicate n V_null);
}.

(** A schema with its metadata. *)
Abbreviation schema_with_metadata := (list field * option metadata)%type.

(** ** What a function emits *)

Record EmittedBatch := mkEmitted {
  eb_batch : option batch;
  eb_parent_rows : option (list Z);
  eb_cache_control : option CacheControl;
  eb_metadata : gmap string string;
  eb_more : bool;
}.

(** An input with its metadata, and a reply with its. *)
Record AnnotatedBatch := mkAnnotated { ab_batch : option batch; ab_metadata : option metadata }.
Abbreviation reply := (batch * option metadata)%type.

Definition kParentRow : string := "vgi_rpc.parent_row#b64".
Definition kIfNoneMatch : string := "vgi.cache.if_none_match".
Definition kIfModifiedSince : string := "vgi.cache.if_modified_since".
Definition kStatus : string := "vgi.status".
Definition kHaveMoreOutput : string := "HAVE_MORE_OUTPUT".
Definition kContinue : string := "CONTINUE".
Definition kCachePrefix : string := "vgi.cache.".

(** The validators of a conditional request: all that changes of the
    parameters from turn to turn. *)
Record validators := mkValidators { if_none_match : option string; if_modified_since : option string }.
Definition no_validators : validators := mkValidators None None.

(** A table-in-out function, with its state if it continues its output. *)
Record Continuation (S : Type) := mkContinuation {
  initial_state : result S;
  c_process : validators → option batch → S → result (list EmittedBatch * S);
  c_resume : validators → S → result (list EmittedBatch * S);
}.
Arguments initial_state {S}. Arguments c_process {S}. Arguments c_resume {S}. Arguments mkContinuation {S}.

Record TableInOutFunction (S : Type) := mkFunction {
  fn_name : string;
  fn_cache_control : option CacheControl;
  fn_process : validators → option batch → result (list EmittedBatch);
  fn_finish : result (list EmittedBatch);
  fn_continuation : option (Continuation S);
}.
Arguments fn_name {S}. Arguments fn_cache_control {S}. Arguments fn_process {S}. Arguments fn_finish {S}.
Arguments fn_continuation {S}. Arguments mkFunction {S}.

(** The four bytes of an [int32_t], the least first. *)
Definition parent_row_bytes (row : Z) : bytes := le_bytes 4 (row mod 2 ^ 32).
Definition encode_parent_rows `{Base64} (rows : list Z) : string := base64_encode (mjoin (map parent_row_bytes rows)).

(** The rows [0 .. n-1], as [int32_t]s. *)
Definition to_int32 (z : Z) : Z := (z + 2 ^ 31) mod 2 ^ 32 - 2 ^ 31.
Definition identity_rows (n : Z) : list Z := map to_int32 (seqZ 0 n).

Section exchange.
Context `{A : Arrow} `{T : ArrowTable} `{B : Base64} {S : Type}.

(** ** Merging what was emitted into one reply *)

Record merged := mkMerged {
  m_batches : list batch;
  m_parents : list Z;
  m_have : bool;
  m_metadata : gmap string string;
}.

Definition has_cache_keys (item : EmittedBatch) : bool :=
  bool_decide (is_Some (eb_cache_control item)) ||
  existsb (λ e : string * string, String.prefix kCachePrefix e.1) (map_to_list (eb_metadata item)).

Definition merge_item (name : string) (continued : bool) (item : EmittedBatch) (m : merged) : result merged :=
  throw_if (continued && has_cache_keys item)
    (Runtime_error ("table-in-out '" +:+ name +:+
       "': cache control is only valid on an input's first reply, not on one answering a continuation tick"));;
  match eb_batch item with
  | None => Ok m
  | Some b =>
      '(parents, have) ←
        (match eb_parent_rows item with
         | Some rows =>
             throw_if (negb (bool_decide (Z.of_nat (length rows) = b_rows b)))
               (Runtime_error ("table-in-out '" +:+ name +:+ "' emitted " +:+ number (Z.of_nat (length rows)) +:+
                               " parent rows for " +:+ number (b_rows b) +:+ " output rows"));;
             Ok (rows, true)
         | None => Ok (identity_rows (b_rows b), m_have m)
         end : result (list Z * bool));
      let cached := match eb_cache_control item with
                    | Some c => to_metadata c ∪ m_metadata m
                    | None => m_metadata m
                    end in
      Ok (mkMerged (m_batches m ++ [b]) (m_parents m ++ parents) have (eb_metadata item ∪ cached))
  end.

Fixpoint merge_items (name : string) (continued : bool) (items : list EmittedBatch) (m : merged) : result merged :=
  match items with
  | [] => Ok m
  | item :: items => m ← merge_item name continued item m; merge_items name continued items m
  end.

Fixpoint empty_columns (schema : list field) : result (list array) :=
  match schema with
  | [] => Ok []
  | f :: schema =>
      match nulls (f_type f) 0 with
      | inl status => Wire.fail ("table-in-out: " +:+ status)
      | inr a => l ← empty_columns schema; Ok (a :: l)
      end
  end.
Definition make_empty (schema : schema_with_metadata) : result batch :=
  columns ← empty_columns schema.1; Ok (mkBatch schema.1 schema.2 0 columns).

Definition concatenate (batches : list batch) : result batch :=
  match combine_batches batches with inl status => Wire.fail ("table-in-out: " +:+ status) | inr b => Ok b end.

(** The function-wide advertisement, overridden by what the batches say. *)
Definition merge_cache (cache : option metadata) (m : gmap string string) : metadata :=
  filter (λ e, m !! e.1 = None) (default [] cache) ++ items m.

Definition emit_merged (fn : TableInOutFunction S) (can_resume : bool) (cache : option metadata) (schema : schema_with_metadata)
    (emitted : list EmittedBatch) (continued : bool) : result (reply * bool) :=
  let more := existsb eb_more emitted in
  throw_if (more && negb can_resume)
    (Runtime_error ("table-in-out '" +:+ fn_name fn +:+
       "' emitted more output but cannot resume; derive it from ResumableTableInOutFunction"));;
  let cache := if continued then None else cache in
  m ← merge_items (fn_name fn) continued emitted (mkMerged [] [] false ∅);
  match m_batches m with
  | [] =>
      empty ← make_empty schema;
      Ok ((empty, if more then Some [(kStatus, kHaveMoreOutput)] else None), more)
  | first :: rest =>
      b ← (match rest with [] => Ok first | _ => concatenate (m_batches m) end : result batch);
      let md := if m_have m then <[kParentRow := encode_parent_rows (m_parents m)]> (m_metadata m) else m_metadata m in
      let md := if more then <[kStatus := kHaveMoreOutput]> md else md in
      Ok ((b, if bool_decide (md = ∅) then cache else Some (merge_cache cache md)), more)
  end.

(** ** The exchange *)

Record TableInOutExchange := mkExchange {
  fn_ : TableInOutFunction S;
  output_schema_ : schema_with_metadata;
  cache_ : option metadata;
  continuation_ : option S;
  more_pending_ : bool;
}.

Definition open_continuation (fn : TableInOutFunction S) : result (option S) :=
  match fn_continuation fn with Some c => s ← initial_state c; Ok (Some s) | None => Ok None end.

Definition open_exchange (fn : TableInOutFunction S) (schema : schema_with_metadata) : result TableInOutExchange :=
  s ← open_continuation fn; Ok (mkExchange fn schema (cache_metadata (fn_cache_control fn)) s false).

Definition is_tick (input : AnnotatedBatch) : bool := bool_decide (metadata_value (ab_metadata input) kStatus = Some kContinue).

(** What the function makes of an input, and its next state. *)
Definition call_function (x : TableInOutExchange) (input : AnnotatedBatch) : result (list EmittedBatch * option S) :=
  let v := mkValidators (metadata_value (ab_metadata input) kIfNoneMatch) (metadata_value (ab_metadata input) kIfModifiedSince) in
  match fn_continuation (fn_ x), continuation_ x with
  | Some c, Some s =>
      '(out, s) ← (if is_tick input then c_resume c no_validators s else c_process c v (ab_batch input) s);
      Ok (out, Some s)
  | _, _ =>
      if is_tick input then Throw (Undefined_behaviour "a call through a null continuation")
      else out ← fn_process (fn_ x) v (ab_batch input); Ok (out, None)
  end.

Definition exchange (x : TableInOutExchange) (input : AnnotatedBatch) : result (reply * TableInOutExchange) :=
  let tick := is_tick input in
  throw_if (tick && negb (more_pending_ x))
    (Runtime_error (fn_name (fn_ x) +:+ ": continuation tick received, but no output is pending"));;
  throw_if (tick && match ab_batch input with Some b => negb (b_rows b =? 0) | None => false end)
    (Runtime_error (fn_name (fn_ x) +:+ ": a continuation tick must have no rows, got " +:+
                    number (from_option b_rows 0 (ab_batch input))));;
  throw_if (negb tick && more_pending_ x)
    (Runtime_error (fn_name (fn_ x) +:+ ": input received while output is pending; expected a continuation tick"));;
  '(emitted, s) ← call_function x input;
  '(r, more) ← emit_merged (fn_ x) (bool_decide (is_Some (continuation_ x))) (cache_ x) (output_schema_ x) emitted tick;
  Ok (r, mkExchange (fn_ x) (output_schema_ x) (cache_ x) s more).

(** ** Finalize *)

Fixpoint finalize_batches (name : string) (emitted : list EmittedBatch) : result (list batch) :=
  match emitted with
  | [] => Ok []
  | item :: emitted =>
      throw_if (eb_more item)
        (Runtime_error ("table-in-out '" +:+ name +:+ "': more output is only valid from process() or resume(), not finish()"));;
      rows ← finalize_batches name emitted;
      Ok (match eb_batch item with Some b => b :: rows | None => rows end)
  end.

(** ** What merging makes *)

(** The input row of each row of an item's batch. *)
Definition provenance (item : EmittedBatch) : list Z :=
  match eb_batch item with
  | Some b => default (identity_rows (b_rows b)) (eb_parent_rows item)
  | None => []
  end.
Definition annotated (items : list EmittedBatch) : bool :=
  existsb (λ i, match eb_batch i, eb_parent_rows i with Some _, Some _ => true | _, _ => false end) items.

Lemma merge_item_Ok name continued item m m' :
  merge_item name continued item m = Ok m' →
  (continued && has_cache_keys item = false) ∧
  m_batches m' = m_batches m ++ option_list (eb_batch item) ∧ m_parents m' = m_parents m ++ provenance item ∧
  m_have m' = m_have m || annotated [item] ∧
  (∀ b rows, eb_batch item = Some b → eb_parent_rows item = Some rows → Z.of_nat (length rows) = b_rows b) ∧
  ∀ k, eb_metadata item !! k = None → k ∉ cache_keys ∨ eb_cache_control item = None → m_metadata m' !! k = m_metadata m !! k.
Proof using Type.
  unfold merge_item, provenance, annotated. intros [Hc H]%bind_throw_if_Ok. split; [done|]. cbn [existsb].
  destruct (eb_batch item) as [b|]; cycle 1.
  { injection H as <-. cbn. rewrite !app_nil_r, orb_false_r. split_and!; try done. }
  apply bind_Ok in H as ([parents have] & Hp & [= <-]). cbn.
  assert (parents = default (identity_rows (b_rows b)) (eb_parent_rows item) ∧
    have = m_have m || (match eb_parent_rows item with Some _ => true | None => false end || false) ∧
    ∀ rows, eb_parent_rows item = Some rows → Z.of_nat (length rows) = b_rows b) as (-> & -> & Hlen).
  { destruct (eb_parent_rows item) as [rows|]; cbn.
    - apply bind_throw_if_Ok in Hp as [Hl [= <- <-]]. rewrite orb_true_r.
      rewrite negb_false_iff, bool_decide_eq_true in Hl. split_and!; [done|done|by intros ? [= <-]].
    - injection Hp as <- <-. rewrite orb_false_r. by split_and!. }
  split_and!; [done..|intros ? rows [= <-]; apply Hlen|]. intros k Hk Hck. rewrite lookup_union_r by done.
  destruct (eb_cache_control item) as [c|]; [|done]. apply lookup_union_r.
  destruct Hck as [Hck|]; [|done]. apply eq_None_not_Some. intros Hs. by apply Hck, (to_metadata_keys c).
Qed.

Lemma merge_items_Ok name continued items m m' :
  merge_items name continued items m = Ok m' →
  Forall (λ i, continued && has_cache_keys i = false) items ∧
  m_batches m' = m_batches m ++ omap eb_batch items ∧ m_parents m' = m_parents m ++ mjoin (map provenance items) ∧
  m_have m' = m_have m || annotated items ∧
  Forall (λ i, ∀ b rows, eb_batch i = Some b → eb_parent_rows i = Some rows → Z.of_nat (length rows) = b_rows b) items ∧
  ∀ k, Forall (λ i, eb_metadata i !! k = None ∧ (k ∉ cache_keys ∨ eb_cache_control i = None)) items →
    m_metadata m' !! k = m_metadata m !! k.
Proof using Type.
  revert m. induction items as [|i items IH]; intros m; cbn [merge_items].
  - intros [= ->]. cbn. rewrite !app_nil_r, orb_false_r. by split_and!.
  - intros (m1 & (H1 & H2 & H3 & H4 & H5 & H6)%merge_item_Ok & (I1 & I2 & I3 & I4 & I5 & I6)%IH)%bind_Ok.
    rewrite I2, I3, I4, H2, H3, H4. cbn. split_and!; [by constructor| | | |by constructor|].
    + by destruct (eb_batch i); rewrite <- ?app_assoc.
    + by rewrite <- app_assoc.
    + unfold annotated. cbn. by rewrite orb_false_r, orb_assoc.
    + intros k [[Hk Hc] Hr]%Forall_cons. rewrite I6 by done. by apply H6.
Qed.

Lemma empty_columns_length schema l : empty_columns schema = Ok l → length l = length schema.
Proof using Type.
  revert l. induction schema as [|f schema IH]; intros l; cbn [empty_columns]; [by intros [= <-]|].
  destruct (nulls _ _); [done|]. intros (l' & Hl & [= <-])%bind_Ok. cbn. f_equal. by apply IH.
Qed.

(** ** One turn *)

(** What a turn needs and what it does. *)
Lemma exchange_Ok x input r x' :
  exchange x input = Ok (r, x') →
  is_tick input = more_pending_ x ∧
  ∃ emitted s, call_function x input = Ok (emitted, s) ∧ fn_ x' = fn_ x ∧ cache_ x' = cache_ x ∧
    output_schema_ x' = output_schema_ x ∧ continuation_ x' = s ∧
    emit_merged (fn_ x) (bool_decide (is_Some (continuation_ x))) (cache_ x) (output_schema_ x) emitted (is_tick input) =
      Ok (r, more_pending_ x').
Proof using Type.
  unfold exchange. intros [H1 [_ [H2 H]%bind_throw_if_Ok]%bind_throw_if_Ok]%bind_throw_if_Ok.
  split; [by destruct (is_tick input), (more_pending_ x)|].
  apply bind_Ok in H as ([emitted s] & Hc & ([r' more] & He & [= -> <-])%bind_Ok). exists emitted, s. by split_and!.
Qed.

(** What [emit_merged] answers. *)
Lemma emit_merged_Ok fn can cache schema emitted continued b md more :
  emit_merged fn can cache schema emitted continued = Ok ((b, md), more) →
  more = existsb eb_more emitted ∧
  ∃ m, merge_items (fn_name fn) continued emitted (mkMerged [] [] false ∅) = Ok m ∧
  ((m_batches m = [] ∧ make_empty schema = Ok b ∧ md = (if more then Some [(kStatus, kHaveMoreOutput)] else None)) ∨
   (m_batches m ≠ [] ∧ (m_batches m = [b] ∨ combine_batches (m_batches m) = inr b) ∧
    ∃ md', md' = (let md := if m_have m then <[kParentRow := encode_parent_rows (m_parents m)]> (m_metadata m) else m_metadata m in
                  if more then <[kStatus := kHaveMoreOutput]> md else md) ∧
      ∀ k, metadata_value md k = match md' !! k with
                                 | Some v => Some v
                                 | None => metadata_value (if continued then None else cache) k
                                 end)).
Proof using Type.
  unfold emit_merged. cbv zeta. intros [_ (m & Hm & H)%bind_Ok]%bind_throw_if_Ok.
  assert (more = existsb eb_more emitted) as ->.
  { destruct (m_batches m); apply bind_Ok in H as (? & _ & H); by injection H. }
  split; [done|]. exists m. split; [done|]. destruct (m_batches m) as [|first rest] eqn:Eb.
  - left. apply bind_Ok in H as (e & He & [= -> <-]). done.
  - right. split; [done|]. apply bind_Ok in H as (b' & Hb & H). injection H as -> Hmd. split.
    { destruct rest; [left; by injection Hb as ->|right].
      unfold concatenate in Hb. destruct (combine_batches _); [done|by injection Hb as ->]. }
    eexists. split; [done|]. intros k. rewrite <- Hmd. set (md' := if existsb eb_more emitted then _ else _).
    destruct (bool_decide_reflect (md' = ∅)) as [->|_]; [by rewrite lookup_empty|].
    unfold metadata_value at 1. cbn. unfold merge_cache. rewrite find_key_app, items_lookup.
    destruct (md' !! k) as [v|] eqn:Hk.
    + rewrite find_key_absent; [done|]. intros ([k' w] & -> & Hin)%list_elem_of_fmap.
      apply list_elem_of_filter in Hin as [Hin _]. cbn in *. congruence.
    + rewrite (find_key_filter (λ k, md' !! k = None)) by done.
      destruct (if continued then None else cache) as [c|]; unfold metadata_value; cbn; [by destruct (find_key c k)|done].
Qed.

(** ** A stream of turns *)

Inductive run (x0 : TableInOutExchange) : list (AnnotatedBatch * reply) → TableInOutExchange → Prop :=
  | run_nil : run x0 [] x0
  | run_turn trace x input r x' : run x0 trace x → exchange x input = Ok (r, x') → run x0 (trace ++ [(input, r)]) x'.

Definition says_more (r : reply) : bool := bool_decide (metadata_value r.2 kStatus = Some kHaveMoreOutput).

(** A function that leaves the status to [eb_more]. *)
Definition quiet (fn : TableInOutFunction S) : Prop :=
  ∀ x input emitted s, fn_ x = fn → call_function x input = Ok (emitted, s) → Forall (λ i, eb_metadata i !! kStatus = None) emitted.

Lemma cache_key_absent control k : k ∉ cache_keys → metadata_value (cache_metadata control) k = None.
Proof using Type.
  intros Hk. destruct control as [c|]; [|done]. unfold metadata_value; cbn. rewrite items_lookup. apply eq_None_not_Some. by intros ?%to_metadata_keys.
Qed.

Lemma emit_says_more fn can control schema emitted continued r more :
  emit_merged fn can (cache_metadata control) schema emitted continued = Ok (r, more) →
  Forall (λ i, eb_metadata i !! kStatus = None) emitted → says_more r = more.
Proof using Type.
  destruct r as [b md]. intros (Hmore & m & Hm & H)%emit_merged_Ok Hq. unfold says_more. cbn.
  destruct H as [(_ & _ & ->)|(_ & _ & md' & -> & Hmd)]; [by destruct more|].
  apply merge_items_Ok in Hm as (_ & _ & _ & _ & _ & Hk). rewrite Hmd. cbv zeta.
  destruct more; [by rewrite lookup_insert_eq|].
  assert (m_metadata m !! kStatus = None) as Hs.
  { rewrite Hk; [done|]. eapply Forall_impl; [exact Hq|]. intros i Hi. split; [done|]. left. by_decide. }
  assert ((if m_have m then <[kParentRow:=encode_parent_rows (m_parents m)]> (m_metadata m) else m_metadata m) !! kStatus = None) as ->.
  { destruct (m_have m); [|done]. by rewrite lookup_insert_ne. }
  destruct continued; [done|]. by rewrite cache_key_absent by by_decide.
Qed.

(** A reply to a tick advertises nothing of the cache. *)
Lemma emit_continued fn can cache schema emitted b md more k :
  emit_merged fn can cache schema emitted true = Ok ((b, md), more) → String.prefix kCachePrefix k = true →
  metadata_value md k = None.
Proof using Type.
  intros (_ & m & Hm & H)%emit_merged_Ok Hp.
  assert (k ≠ kStatus ∧ k ≠ kParentRow) as [Hs Hr] by (split; intros ->; by vm_compute in Hp).
  destruct H as [(_ & _ & ->)|(_ & _ & md' & -> & Hmd)].
  { destruct more; [|done]. unfold metadata_value; cbn. by rewrite bool_decide_false. }
  apply merge_items_Ok in Hm as (Hc & _ & _ & _ & _ & Hk). rewrite Hmd.
  assert (m_metadata m !! k = None) as Hn.
  { rewrite Hk; [done|]. eapply Forall_impl; [exact Hc|]. intros i. cbn. unfold has_cache_keys.
    intros [Hn He]%orb_false_iff. rewrite bool_decide_eq_false in Hn. split; [|right; by apply eq_None_not_Some].
    destruct (eb_metadata i !! k) as [v|] eqn:E; [|done]. exfalso. apply elem_of_map_to_list in E.
    apply not_true_iff_false in He. apply He, existsb_exists. exists (k, v). split; [by apply list_elem_of_In|done]. }
  cbv zeta. destruct more, (m_have m); by rewrite ?lookup_insert_ne, Hn by done.
Qed.

(** What a stream keeps from its opening. *)
Lemma run_keeps fn schema x0 trace x :
  open_exchange fn schema = Ok x0 → run x0 trace x → fn_ x = fn ∧ cache_ x = cache_metadata (fn_cache_control fn) ∧
    output_schema_ x = schema.
Proof using Type.
  intros (s & _ & [= <-])%bind_Ok. induction 1 as [|trace x input r x' _ IH Hx]; [done|].
  apply exchange_Ok in Hx as (_ & emitted & s' & _ & -> & -> & -> & _). done.
Qed.

(** C26. Ticks and real input alternate as the replies say: from the opening of
    the stream, an input is accepted as a continuation tick exactly when the
    reply before it said HAVE_MORE_OUTPUT, the first input is a real one, and
    what is pending is what the last reply said.  Each turn answers with one
    batch, and the reply to a tick carries no cache control. *)
Theorem exchange_alternates fn schema x0 trace x :
  open_exchange fn schema = Ok x0 → quiet fn → run x0 trace x →
  map (λ t, is_tick t.1) trace ++ [more_pending_ x] = false :: map (λ t, says_more t.2) trace ∧
  Forall (λ t, is_tick t.1 = true → ∀ k, String.prefix kCachePrefix k = true → metadata_value t.2.2 k = None) trace.
Proof using Type.
  intros Ho Hq Hrun. induction Hrun as [|trace x input r x' Hrun [IH1 IH2] Hx].
  { apply bind_Ok in Ho as (s & _ & [= <-]). by split. }
  destruct (run_keeps _ _ _ _ _ Ho Hrun) as (Hfn & Hca & _).
  apply exchange_Ok in Hx as (Htick & emitted & s & Hcall & Hfn' & Hca' & _ & _ & He). rewrite Hca in He. split.
  - rewrite !map_app. cbn. rewrite Htick, IH1. cbn. do 2 f_equal. f_equal. symmetry.
    eapply emit_says_more; [exact He|]. by eapply Hq.
  - apply Forall_app_2; [done|]. apply Forall_singleton. cbn. intros Ht k Hk. rewrite Ht in He. destruct r as [b md].
    by eapply emit_continued.
Qed.

(** ** Provenance *)

Definition is_int32 (z : Z) : Prop := - 2 ^ 31 ≤ z < 2 ^ 31.

(** How the engine reads the raw array. *)
Fixpoint decode_rows (raw : bytes) : list Z :=
  match raw with
  | a :: b :: c :: d :: raw => to_int32 (le_value [a; b; c; d]) :: decode_rows raw
  | _ => []
  end.

Lemma to_int32_id z : is_int32 z → to_int32 (z mod 2 ^ 32) = z.
Proof using Type.
  unfold is_int32, to_int32. intros H. rewrite Zplus_mod_idemp_l. rewrite Z.mod_small by lia. lia.
Qed.

Lemma to_int32_range z : is_int32 (to_int32 z).
Proof using Type. unfold is_int32, to_int32. pose proof (Z.mod_pos_bound (z + 2 ^ 31) (2 ^ 32)). lia. Qed.

Lemma decode_rows_encode rows : Forall is_int32 rows → decode_rows (mjoin (map parent_row_bytes rows)) = rows.
Proof using Type.
  induction 1 as [|r rows Hr _ IH]; [done|].
  change (mjoin (map parent_row_bytes (r :: rows))) with (parent_row_bytes r ++ mjoin (map parent_row_bytes rows)).
  pose proof (le_value_le_bytes 4 (r mod 2 ^ 32)) as Hv. pose proof (le_bytes_length 4 (r mod 2 ^ 32)) as Hl.
  unfold parent_row_bytes at 1. destruct (le_bytes 4 (r mod 2 ^ 32)) as [|a [|b [|c [|d [|]]]]]; try discriminate Hl.
  cbn [app decode_rows]. rewrite Hv, IH. f_equal. rewrite Z.mod_mod by done. by apply to_int32_id.
Qed.

Lemma identity_rows_length n : 0 ≤ n → Z.of_nat (length (identity_rows n)) = n.
Proof using Type. intros. unfold identity_rows. rewrite length_map, length_seqZ. lia. Qed.

(** The batches a function emits, with a row count that is none of a batch excluded. *)
Definition emitted_batches (emitted : list EmittedBatch) : list batch := omap eb_batch emitted.
Definition well_formed (emitted : list EmittedBatch) : Prop :=
  Forall (λ b, 0 ≤ b_rows b) (emitted_batches emitted) ∧
  Forall (λ i, ∀ rows, eb_parent_rows i = Some rows → Forall is_int32 rows) emitted.

Lemma provenance_int32 emitted : well_formed emitted → Forall is_int32 (mjoin (map provenance emitted)).
Proof using Type.
  intros [_ H]. induction H as [|i l Hi _ IH]; [constructor|]. cbn. apply Forall_app_2; [|done]. unfold provenance.
  destruct (eb_batch i) as [b|]; [|constructor]. destruct (eb_parent_rows i) as [rows|]; [by apply Hi|].
  cbn. unfold identity_rows. apply Forall_map, Forall_forall. intros. apply to_int32_range.
Qed.

Lemma provenance_length emitted :
  well_formed emitted →
  Forall (λ i, ∀ b rows, eb_batch i = Some b → eb_parent_rows i = Some rows → Z.of_nat (length rows) = b_rows b) emitted →
  Z.of_nat (length (mjoin (map provenance emitted))) = foldr Z.add 0 (map b_rows (emitted_batches emitted)).
Proof using Type.
  intros [Hw _]. unfold emitted_batches in *. induction 1 as [|i l Hi _ IH]; [done|].
  change (mjoin (map provenance (i :: l))) with (provenance i ++ mjoin (map provenance l)).
  rewrite length_app, Nat2Z.inj_add. unfold provenance at 1. cbn [omap list_omap] in *.
  destruct (eb_batch i) as [b|]; [|by apply IH].
  apply Forall_cons in Hw as [Hb Hw]. cbn [map foldr]. rewrite IH by done. f_equal.
  destruct (eb_parent_rows i) as [rows|]; cbn; [by eapply Hi|by apply identity_rows_length].
Qed.

(** A turn answers with the rows of everything the function emitted for it,
    in order, or with no rows if it emitted no batch; and when any of these
    batches says where its rows come from, the provenance that travels with the
    reply decodes to one input row for each row of the reply: what the batches
    said, and the row's own number for the batches that said nothing. *)
Theorem reply_provenance `{!ArrowTableLaws T} `{!Base64Laws B} x input b md x' :
  exchange x input = Ok ((b, md), x') →
  ∃ emitted s, call_function x input = Ok (emitted, s) ∧ continuation_ x' = s ∧ more_pending_ x' = existsb eb_more emitted ∧
    (emitted_batches emitted = [] → b_rows b = 0 ∧ b_schema b = (output_schema_ x).1) ∧
    (emitted_batches emitted ≠ [] →
       b_rows b = foldr Z.add 0 (map b_rows (emitted_batches emitted)) ∧
       ∀ i, column_values b i = mjoin (map (λ c, column_values c i) (emitted_batches emitted))) ∧
    (annotated emitted = true → well_formed emitted →
       ∃ encoded raw, metadata_value md kParentRow = Some encoded ∧ base64_decode encoded = Some raw ∧
         decode_rows raw = mjoin (map provenance emitted) ∧ Z.of_nat (length (decode_rows raw)) = b_rows b).
Proof using Type.
  intros (_ & emitted & s & Hcall & _ & _ & _ & Hs & He)%exchange_Ok. exists emitted, s.
  apply emit_merged_Ok in He as (Hmore & m & Hm & H).
  apply merge_items_Ok in Hm as (_ & Hb & Hp & Hh & Hl & _). cbn [m_batches m_parents m_have app orb] in Hb, Hp, Hh.
  fold (emitted_batches emitted) in Hb. rewrite Hb in H.
  assert (emitted_batches emitted ≠ [] → b_rows b = foldr Z.add 0 (map b_rows (emitted_batches emitted)) ∧
    ∀ i, column_values b i = mjoin (map (λ c, column_values c i) (emitted_batches emitted))) as Hrows.
  { intros Hne. destruct H as [(? & _)|(_ & [Hc|Hc] & _)]; [done| |by apply combine_batches_spec in Hc].
    rewrite Hc. cbn. split; [lia|]. intros i. by rewrite app_nil_r. }
  split_and!; try done.
  - intros Hnil. destruct H as [(_ & He & _)|(? & _)]; [|done].
    unfold make_empty in He. apply bind_Ok in He as (cs & _ & [= <-]). done.
  - intros Ha Hw. assert (emitted_batches emitted ≠ []) as Hne.
    { intros Hnil. clear -Ha Hnil. unfold emitted_batches in Hnil. induction emitted as [|i l IH]; [done|].
      cbn in *. destruct (eb_batch i); [done|by apply IH]. }
    destruct H as [(? & _)|(_ & _ & md' & -> & Hmd)]; [done|]. rewrite Hh, Ha, Hp in Hmd. cbv zeta in Hmd.
    eexists _, _. split_and!.
    + rewrite Hmd. destruct (more_pending_ x'); rewrite ?lookup_insert_ne by done; by rewrite lookup_insert_eq.
    + unfold encode_parent_rows. apply base64_decode_encode.
    + by apply decode_rows_encode, provenance_int32.
    + rewrite decode_rows_encode by by apply provenance_int32. rewrite provenance_length by done. symmetry. by apply Hrows.
Qed.

End exchange.

(** ** A concrete table, and a function at work *)

Definition same_width (bs : list batch) : bool :=
  match bs with
  | [] => false
  | b :: bs => forallb (λ c, bool_decide (length (b_columns c) = length (b_columns b))) bs
  end.

Definition toy_table : ArrowTable :=
  {| combine_batches bs :=
       match bs with
       | b :: _ =>
           if same_width bs
           then inr (mkBatch (b_schema b) None (foldr Z.add 0 (map b_rows bs))
                       (imap (λ i c, mkArray (a_type c) (mjoin (map (λ d, column_values d i) bs))) (b_columns b)))
           else inl "schemas differ"%string
       | [] => inl "no batches"%string
       end;
     nulls t n := inr (mkArray t (replicate n V_null)) |}.

#[global] Instance toy_table_laws : ArrowTableLaws toy_table.
Proof.
  split; [|by intros t n a [= <-]]. cbn [combine_batches toy_table]. intros [|c cs] b; [done|].
  destruct (same_width (c :: cs)) eqn:Hw; [|done]. intros [= <-]. split; [done|]. intros i.
  unfold column_values at 1. cbn [b_columns]. rewrite list_lookup_imap.
  destruct (b_columns c !! i) as [a|] eqn:Hi; [done|]. cbn [fmap option_fmap option_map from_option].
  symmetry. apply lookup_ge_None in Hi. cbn [same_width] in Hw. rewrite forallb_forall in Hw.
  assert (∀ d, d ∈ c :: cs → column_values d i = []) as Hall.
  { intros d Hd. unfold column_values. rewrite lookup_ge_None_2; [done|].
    apply elem_of_cons in Hd as [->|Hd]; [done|]. apply list_elem_of_In, Hw, bool_decide_eq_true in Hd. lia. }
  clear Hw Hi. induction (c :: cs) as [|d l IH]; [done|]. cbn. rewrite (Hall d) by by left.
  apply IH. intros e He. apply Hall. by right.
Qed.

Definition numbers_schema : list field := [Field "n" T_int64 true []].
Definition numbers (l : list Z) : batch := mkBatch numbers_schema None (Z.of_nat (length l)) [mkArray T_int64 (map V_int l)].
Definition page (l : list Z) (rows : option (list Z)) (more : bool) : EmittedBatch := mkEmitted (Some (numbers l)) rows None ∅ more.

(** Two pages for each input: the state is the page that comes next. *)
Definition paged : TableInOutFunction nat :=
  mkFunction "paged" (Some (mkCache (Some 60) None "catalog" false None None false None None false false false))
    (λ _ _, Throw (Runtime_error "resumable")) (Ok [])
    (Some (mkContinuation (Ok 0%nat)
             (λ _ _ s, Ok ([page [10; 11] (Some [1; 0]) true; page [12] None false], 1%nat))
             (λ _ s, Ok ([page [20] (Some [1]) false], 2%nat)))).

Definition real_input : AnnotatedBatch := mkAnnotated (Some (numbers [1; 2])) None.
Definition tick_input : AnnotatedBatch := mkAnnotated (Some (numbers [])) (Some [(kStatus, kContinue)]).

Definition paged_open : TableInOutExchange :=
  mkExchange paged (numbers_schema, None) (cache_metadata (fn_cache_control paged)) (Some 0%nat) false.
Definition turn (x : TableInOutExchange (S := nat)) (input : AnnotatedBatch) : option (reply * TableInOutExchange) :=
  match @exchange toy_table hex_base64 nat x input with Ok r => Some r | Throw _ => None end.

Lemma paged_quiet : @quiet nat paged.
Proof.
  intros [fn sch ca s p] input emitted s' Hfn. cbn in Hfn. subst fn. unfold call_function. cbn. destruct s as [s|].
  - destruct (is_tick input); intros [= <- <-]; repeat constructor.
  - by destruct (is_tick input).
Qed.

Lemma exchange_alternates_witness :
  ∃ r1 x1 r2 x2, turn paged_open real_input = Some (r1, x1) ∧ turn x1 tick_input = Some (r2, x2) ∧
    says_more r1 = true ∧ says_more r2 = false ∧ turn x1 real_input = None ∧ turn x2 tick_input = None.
Proof.
  destruct (@exchange toy_table hex_base64 nat paged_open real_input) as [[r1 x1]|] eqn:E1; [|by vm_compute in E1].
  assert (∃ r2 x2, @exchange toy_table hex_base64 nat x1 tick_input = Ok (r2, x2)) as (r2 & x2 & E2).
  { vm_compute in E1. injection E1 as <- <-. vm_compute. by eexists _, _. }
  destruct (@exchange_alternates toy_table hex_base64 nat paged (numbers_schema, None) paged_open [(real_input, r1); (tick_input, r2)] x2)
    as [H _].
  - reflexivity.
  - exact paged_quiet.
  - apply (run_turn paged_open [(real_input, r1)] x1); [|exact E2]. apply (run_turn paged_open [] paged_open); [constructor|exact E1].
  - exists r1, x1, r2, x2. unfold turn at 1 2. rewrite E1, E2. clear H.
    split; [reflexivity|]. split; [reflexivity|].
    vm_compute in E1. injection E1 as <- <-. vm_compute in E2. injection E2 as <- <-. by vm_compute.
Defined.

Lemma reply_provenance_witness :
  ∃ b md x' raw, turn paged_open real_input = Some ((b, md), x') ∧ column_values b 0 = map V_int [10; 11; 12] ∧
    (metadata_value md kParentRow ≫= hex_decode ∘ bs) = Some raw ∧ decode_rows raw = [1; 0; 0].
Proof.
  destruct (@exchange toy_table hex_base64 nat paged_open real_input) as [[[b md] x']|] eqn:E; [|by vm_compute in E].
  destruct (@reply_provenance toy_table hex_base64 nat _ _ paged_open real_input b md x' E) as
    (emitted & s & Hcall & _ & _ & _ & Hrows & Hpar).
  vm_compute in Hcall. injection Hcall as <- <-.
  destruct Hrows as [_ Hrows]; [discriminate|]. destruct Hpar as (enc & raw & Henc & Hraw & Hdec & _); [reflexivity| |].
  { split; repeat constructor; try discriminate; intros rows [= <-]; repeat constructor; discriminate. }
  exists b, md, x', raw. unfold turn. rewrite E. split; [reflexivity|].
  split; [rewrite Hrows; reflexivity|]. rewrite Henc. split; [exact Hraw|]. rewrite Hdec. reflexivity.
Defined.

End Exchange.
