(* ===== verification/Storage.v ===== *)
(** * State that outlives a process ([src/storage.cpp], [include/vgi/storage.h])

    [FilesystemStorage]: key/value files, append-only logs and claimable
    queues under a base directory that several worker processes share.  The
    disk is a map from paths to contents; a process adds the two caches of
    [queue_pop].  An operation is a function of process and disk.  Directories
    hold nothing of their own: creating one changes nothing, and a missing one
    reads like an empty one, as the code treats it. *)

From stdpp Require Import sorting.
From S2P Require Import Prelude Text.

Module Storage.

Abbreviation path := (list bytes).
Abbreviation files := (gmap (list bytes) bytes).

(** What the operating system may refuse: writing a file, renaming, creating. *)
Class Disk := {
  disk_write : path → bytes → bool;
  disk_rename : path → path → bool;
  disk_create : path → bool;
}.

(** A disk that refuses nothing. *)
Class Healthy (D : Disk) : Prop := {
  healthy_write p v : disk_write p v = true;
  healthy_rename p q : disk_rename p q = true;
  healthy_create p : disk_create p = true;
}.

(** One worker process. *)
Record Proc := mkProc {
  pid : Z;
  queue_cursors_ : gmap bytes Z;
  queue_highs_ : gmap bytes Z;
}.

Definition new_proc (p : Z) : Proc := mkProc p ∅ ∅.

(** ** Names *)

Definition kDigits : bytes := bs "0123456789abcdef".
Definition digit_at (i : Z) : ascii := default NUL (kDigits !! Z.to_nat i).

Definition hex (b : bytes) : bytes :=
  concat (map (λ c, [digit_at (Z.shiftr (bz c) 4); digit_at (Z.land (bz c) 15)]) b).

(** [p / name]: an empty name adds no component. *)
Definition path_append (p : path) (name : bytes) : path :=
  match name with [] => p | _ => p ++ [name] end.

(** The text of a path, in error messages. *)
Fixpoint path_string (p : path) : string :=
  match p with [] => "" | c :: p => "/" +:+ str c +:+ path_string p end.

(** A path with a suffix added to its last component. *)
Fixpoint path_suffix (p : path) (suffix : bytes) : path :=
  match p with
  | [] => [suffix]
  | [c] => [c ++ suffix]
  | c :: p => c :: path_suffix p suffix
  end.

Definition pad (id : Z) : bytes :=
  replicate (20 - Nat.min 20 (length (to_string id))) (zb 48) ++ to_string id.

Definition entry_name (id : Z) : bytes := pad id ++ bs ".entry".
Definition claim_name (id : Z) : bytes := pad id ++ bs ".claim".
Definition used_name (id : Z) : bytes := pad id ++ bs ".used".

Definition kQueueNamespace : bytes := bs "__queue".
Definition kMaxClaimAttempts : Z := 4096.

Section storage.
Context `{D : Disk}.
Variable base_ : path.

Definition kv_path (scope key : bytes) : path :=
  path_append (path_append base_ (hex scope)) (bs "kv_" ++ hex key).

Definition log_dir (scope ns key : bytes) : path :=
  path_append (path_append base_ (hex scope)) (bs "log_" ++ hex ns ++ bs "__" ++ hex key).

(** ** The disk *)

Definition exists_ (p : path) (fs : files) : bool := bool_decide (is_Some (fs !! p)).

Definition read_file (p : path) (fs : files) : bytes := default [] (fs !! p).

Definition rename (p q : path) (fs : files) : option files :=
  match fs !! p with
  | Some v => if disk_rename p q then Some (<[q := v]> (delete p fs)) else None
  | None => None
  end.

Definition remove_all (p : path) (fs : files) : files :=
  filter (λ kv, ¬ p `prefix_of` kv.1) fs.

(** The name of a path in a directory. *)
Definition name_in (dir p : path) : option bytes :=
  match last p with
  | Some n => if bool_decide (p = dir ++ [n]) then Some n else None
  | None => None
  end.

(** [fs::directory_iterator]: the files of a directory, in no useful order. *)
Definition listing (dir : path) (fs : files) : list (bytes * bytes) :=
  omap (λ '(p, v), n ← name_in dir p; Some (n, v)) (map_to_list fs).

Definition write_file_atomically (proc : Z) (p : path) (v : bytes) (fs : files)
    : files * result unit :=
  let tmp := path_suffix p (bs ".tmp." ++ to_string proc) in
  if negb (disk_write tmp v) then
    (delete tmp fs, Throw (Runtime_error ("vgi storage: cannot write " +:+ path_string tmp)))
  else
    let fs := <[tmp := v]> fs in
    match rename tmp p fs with
    | Some fs => (fs, Ok tt)
    | None => (delete tmp fs, Throw (Runtime_error ("vgi storage: cannot publish " +:+ path_string p)))
    end.

(** [portable::TryClaimFile]: an exclusive create. *)
Definition TryClaimFile (p : path) (fs : files) : files * result bool :=
  match fs !! p with
  | Some _ => (fs, Ok false)
  | None =>
      if disk_create p then (<[p := []]> fs, Ok true)
      else (fs, Throw (Runtime_error ("vgi storage: cannot claim " +:+ path_string p)))
  end.

(** ** Key/value *)

Definition kv_get (scope key : bytes) (fs : files) : option bytes :=
  let p := kv_path scope key in
  if negb (exists_ p fs) then None else Some (read_file p fs).

Definition kv_put (proc : Z) (scope key v : bytes) (fs : files) : files * result unit :=
  write_file_atomically proc (kv_path scope key) v fs.

Definition kv_del (scope key : bytes) (fs : files) : files := delete (kv_path scope key) fs.

(** ** Logs *)

Definition highest_id (dir : path) (fs : files) : Z :=
  foldr (λ f highest, Z.max highest (strtoll f.1)) 0 (listing dir fs).

(** [attempts] is the [limit - id] of the loop. *)
Fixpoint claim_loop (proc : Z) (dir : path) (attempts : nat) (id : Z) (v : bytes) (fs : files)
    : files * result Z :=
  match attempts with
  | O => (fs, Throw (Runtime_error ("vgi storage: could not claim a log id under " +:+ path_string dir)))
  | S attempts =>
      let reservation := path_append dir (claim_name id) in
      match TryClaimFile reservation fs with
      | (fs, Throw e) => (fs, Throw e)
      | (fs, Ok false) => claim_loop proc dir attempts (id + 1) v fs
      | (fs, Ok true) =>
          let entry := path_append dir (entry_name id) in
          let used := path_append dir (used_name id) in
          if exists_ entry fs || exists_ used fs then
            claim_loop proc dir attempts (id + 1) v (delete reservation fs)
          else
            match write_file_atomically proc entry v fs with
            | (fs, Throw e) => (fs, Throw e)
            | (fs, Ok _) =>
                match rename reservation used fs with
                | Some fs => (fs, Ok id)
                | None =>
                    (fs, Throw (Runtime_error
                      ("vgi storage: cannot finalize log id under " +:+ path_string dir)))
                end
            end
      end
  end.

Definition claim_from (proc : Z) (dir : path) (from : Z) (v : bytes) (fs : files)
    : files * result Z :=
  claim_loop proc dir (Z.to_nat kMaxClaimAttempts) from v fs.

Definition append (proc : Z) (scope ns key v : bytes) (fs : files) : files * result Z :=
  let dir := log_dir scope ns key in
  claim_from proc dir (highest_id dir fs + 1) v fs.

(** A file name that is a published entry, with its id. *)
Definition entry_id (name : bytes) : option Z :=
  if bool_decide (length name < 6)%nat
     || negb (bool_decide (drop (length name - 6) name = bs ".entry"))
  then None else Some (strtoll name).

Definition id_le (a b : Z * bytes) : Prop := a.1 ≤ b.1.
#[global] Instance id_le_dec : RelDecision id_le.
Proof. intros a b. unfold id_le. apply _. Defined.

Definition scan (scope ns key : bytes) (after_id limit : Z) (fs : files)
    : list (Z * bytes) :=
  let found := omap (λ f, id ← entry_id f.1;
                          if bool_decide (after_id < id) then Some (id, f.2) else None)
                    (listing (log_dir scope ns key) fs) in
  take (Z.to_nat (Z.min limit (Z.of_nat (length found)))) (merge_sort id_le found).

(** ** Queues *)

Fixpoint push_loop (proc : Z) (dir : path) (next : Z) (items : list bytes) (fs : files)
    : files * result unit :=
  match items with
  | [] => (fs, Ok tt)
  | item :: items =>
      match claim_from proc dir next item fs with
      | (fs, Ok id) => push_loop proc dir (id + 1) items fs
      | (fs, Throw e) => (fs, Throw e)
      end
  end.

Definition queue_push (proc : Z) (scope : bytes) (items : list bytes) (fs : files)
    : files * result unit :=
  match items with
  | [] => (fs, Ok tt)
  | _ =>
      let dir := log_dir scope kQueueNamespace [] in
      push_loop proc dir (highest_id dir fs + 1) items fs
  end.

Definition exists_dir (dir : path) (fs : files) : bool :=
  negb (bool_decide (listing dir fs = [])).

(** What one pass over the ids ends with: an item and the new cursor, or the
    lowest id still being written. *)
Inductive probed : Type :=
| Popped (value : bytes) (cursor : Z)
| Drained (pending : option Z).

(** The loop over [cursor + 1 .. high]; [n] is the number of ids left. *)
Fixpoint probe (proc : Z) (dir : path) (n : nat) (id : Z) (pending : option Z) (fs : files)
    : files * probed :=
  match n with
  | O => (fs, Drained pending)
  | S n =>
      let p := path_append dir (entry_name id) in
      let claimed := path_suffix p (bs ".claimed." ++ to_string proc) in
      match rename p claimed fs with
      | None =>
          let pending :=
            if exists_ (path_append dir (claim_name id)) fs
            then match pending with Some x => Some x | None => Some id end
            else pending in
          probe proc dir n (id + 1) pending fs
      | Some fs =>
          let cursor := match pending with Some x => x - 1 | None => id end in
          (delete claimed fs, Popped (read_file claimed fs) cursor)
      end
  end.

Definition set_cursor (scope : bytes) (c : Z) (p : Proc) : Proc :=
  mkProc (pid p) (<[scope := c]> (queue_cursors_ p)) (queue_highs_ p).
Definition set_high (scope : bytes) (h : Z) (p : Proc) : Proc :=
  mkProc (pid p) (queue_cursors_ p) (<[scope := h]> (queue_highs_ p)).

Definition cursor_of (scope : bytes) (p : Proc) : Z := default 0 (queue_cursors_ p !! scope).
Definition queue_high (scope : bytes) (dir : path) (fs : files) (p : Proc) : Z :=
  default (highest_id dir fs) (queue_highs_ p !! scope).

(** The outer loop: another pass when the re-read high-water mark has moved. *)
Fixpoint pop_loop (fuel : nat) (scope : bytes) (dir : path) (p : Proc) (fs : files)
    : files * Proc * result (option bytes) :=
  match fuel with
  | O => (fs, p, Throw Out_of_fuel)
  | S fuel =>
      let high := queue_high scope dir fs p in
      let p := set_high scope high p in
      let cursor := cursor_of scope p in
      match probe (pid p) dir (Z.to_nat (high - cursor)) (cursor + 1) None fs with
      | (fs, Popped v c) => (fs, set_cursor scope c p, Ok (Some v))
      | (fs, Drained (Some pending)) => (fs, set_cursor scope (pending - 1) p, Ok None)
      | (fs, Drained None) =>
          let now := highest_id dir fs in
          let p := set_high scope now p in
          if now <=? high then (fs, p, Ok None) else pop_loop fuel scope dir p fs
      end
  end.

Definition queue_pop (scope : bytes) (p : Proc) (fs : files)
    : files * Proc * result (option bytes) :=
  let dir := log_dir scope kQueueNamespace [] in
  if negb (exists_dir dir fs) then (fs, p, Ok None)
  else pop_loop 3 scope dir (set_cursor scope (cursor_of scope p) p) fs.

(** ** Clearing a scope *)

Definition clear (scope : bytes) (p : Proc) (fs : files) : files * Proc :=
  match scope with
  | [] => (fs, p)
  | _ =>
      (remove_all (path_append base_ (hex scope)) fs,
       mkProc (pid p) (delete scope (queue_cursors_ p)) (delete scope (queue_highs_ p)))
  end.

End storage.

Definition transaction_scope (transaction_opaque_data : bytes) : bytes :=
  bs "txn:" ++ transaction_opaque_data.

(** ** Lemmas: names *)

Lemma entry_name_strtoll id r :
  0 ≤ id < 2 ^ 63 → no_digit r → strtoll (pad id ++ r) = id.
Proof. intros. unfold pad. rewrite <- app_assoc. by apply strtoll_padded. Qed.

Lemma strtoll_names id :
  0 ≤ id < 2 ^ 63 → strtoll (entry_name id) = id ∧ strtoll (claim_name id) = id ∧
  strtoll (used_name id) = id ∧ ∀ r, strtoll (entry_name id ++ r) = id.
Proof.
  intros Hid. unfold entry_name, claim_name, used_name.
  split_and!; [by apply entry_name_strtoll..|].
  intros r. rewrite <- app_assoc. by apply entry_name_strtoll.
Qed.

Lemma suffix_inj (a b c d : bytes) : length c = length d → a ++ c = b ++ d → a = b ∧ c = d.
Proof. intros. by apply app_inj_2. Qed.

Lemma entry_ne_used i j : entry_name i ≠ used_name j.
Proof.
  unfold entry_name, used_name. intros E. apply (f_equal (λ l, last l)) in E.
  by rewrite !last_app in E.
Qed.

Lemma entry_ne_claim i j : entry_name i ≠ claim_name j.
Proof.
  unfold entry_name, claim_name. intros E. apply (f_equal (λ l, last l)) in E.
  by rewrite !last_app in E.
Qed.

Lemma used_ne_claim i j : used_name i ≠ claim_name j.
Proof.
  unfold used_name, claim_name. intros E. apply (f_equal (λ l, last l)) in E.
  by rewrite !last_app in E.
Qed.

Lemma entry_id_entry id : 0 ≤ id < 2 ^ 63 → entry_id (entry_name id) = Some id.
Proof.
  intros Hid. unfold entry_id. rewrite (proj1 (strtoll_names id Hid)).
  unfold entry_name. rewrite length_app. change (length (bs ".entry")) with 6%nat.
  rewrite bool_decide_false by lia. cbn [orb].
  replace (length (pad id) + 6 - 6)%nat with (length (pad id)) by lia.
  rewrite drop_app_length. by rewrite bool_decide_true.
Qed.

Lemma entry_id_used id : entry_id (used_name id) = None.
Proof.
  unfold entry_id. destruct (bool_decide (length _ < 6)%nat); [done|].
  rewrite bool_decide_false; [done|]. intros E. apply (f_equal (λ l, last l)) in E.
  revert E. unfold used_name. rewrite length_app, drop_app. change (length (bs ".used")) with 5%nat.
  rewrite last_app. destruct (length (pad id) + 5 - 6 - length (pad id))%nat as [|n] eqn:En; [done|lia].
Qed.

Lemma digits_no_char c z : is_digit c = false → 0 ≤ z → c ∉ pad z.
Proof.
  intros Hc Hz Hin. unfold pad in Hin. apply elem_of_app in Hin as [Hin|Hin].
  - apply elem_of_replicate in Hin as [-> _]. done.
  - destruct (to_string_digits z Hz) as (d & l & E & Hl). rewrite E in Hin.
    rewrite Forall_forall in Hl. specialize (Hl c Hin). congruence.
Qed.

Lemma path_append_snoc p n : n ≠ [] → path_append p n = p ++ [n].
Proof. by destruct n. Qed.

Lemma path_append_name dir id :
  path_append dir (entry_name id) = dir ++ [entry_name id] ∧
  path_append dir (claim_name id) = dir ++ [claim_name id] ∧
  path_append dir (used_name id) = dir ++ [used_name id].
Proof.
  split_and!; apply path_append_snoc; unfold entry_name, claim_name, used_name; by destruct (pad id).
Qed.

Lemma path_suffix_snoc dir n sfx : path_suffix (dir ++ [n]) sfx = dir ++ [n ++ sfx].
Proof.
  induction dir as [|c dir IH]; [done|]. cbn [app path_suffix]. rewrite IH. by destruct dir.
Qed.

Lemma hex_char_inj c d :
  [digit_at (Z.shiftr (bz c) 4); digit_at (Z.land (bz c) 15)] =
  [digit_at (Z.shiftr (bz d) 4); digit_at (Z.land (bz d) 15)] → c = d.
Proof.
  assert (∀ e, ∃ h l, 0 ≤ h < 16 ∧ 0 ≤ l < 16 ∧ Z.shiftr (bz e) 4 = h ∧ Z.land (bz e) 15 = l ∧
    bz e = 16 * h + l) as Hsplit.
  { intros e. exists (bz e / 16), (bz e mod 16). pose proof (bz_range e).
    change 15 with (Z.ones 4). rewrite Z.land_ones, Z.shiftr_div_pow2 by lia. change (2 ^ 4) with 16.
    pose proof (Z.mod_pos_bound (bz e) 16). pose proof (Z.div_mod (bz e) 16).
    assert (0 ≤ bz e / 16 < 16) by (split; [apply Z.div_pos|apply Z.div_lt_upper_bound]; lia). lia. }
  assert (∀ i j, 0 ≤ i < 16 → 0 ≤ j < 16 → digit_at i = digit_at j → i = j) as Hd.
  { intros i j Hi Hj E. assert (∀ k, 0 ≤ k < 16 → ∃ n, k = Z.of_nat n ∧ (n < 16)%nat) as Hn
      by (intros k ?; exists (Z.to_nat k); lia).
    destruct (Hn i Hi) as (n & -> & H1), (Hn j Hj) as (m & -> & H2).
    do 16 (destruct n as [|n]; [do 16 (destruct m as [|m]; [by vm_compute in E|]); lia|]). lia. }
  destruct (Hsplit c) as (h & l & ? & ? & -> & -> & Hc), (Hsplit d) as (h' & l' & ? & ? & -> & -> & Hd').
  intros [= E1 E2]. apply Hd in E1 as ->; [|done..]. apply Hd in E2 as ->; [|done..].
  apply bz_inj. lia.
Qed.

Lemma hex_inj (a b : bytes) : hex a = hex b → a = b.
Proof.
  unfold hex. revert b. induction a as [|c a IH]; intros [|d b] E; try done.
  cbn [map concat] in E. apply app_inj_len in E as [E1 E2]; [|done].
  apply hex_char_inj in E1 as ->. by rewrite (IH b E2).
Qed.

Lemma hex_alphabet (c : ascii) (a : bytes) : c ∈ hex a → c ∈ kDigits.
Proof.
  unfold hex. induction a as [|d a IH]; [set_solver|]. cbn [map concat]. rewrite elem_of_app.
  assert (∀ e, digit_at (Z.shiftr (bz e) 4) ∈ kDigits ∧ digit_at (Z.land (bz e) 15) ∈ kDigits) as Hd.
  { intros e. split; apply (bool_decide_unpack _); destruct e as [[] [] [] [] [] [] [] []];
      vm_compute; exact I. }
  destruct (Hd d). intros [Hin|Hin]; [set_solver|by apply IH].
Qed.

Lemma hex_no_underscore (a : bytes) : zb 95 ∉ hex a.
Proof. intros H%hex_alphabet. revert H. apply (bool_decide_unpack _). by vm_compute. Qed.

Lemma hex_ne_nil (s : bytes) : s ≠ [] → hex s ≠ [].
Proof. by destruct s. Qed.

(** The directory of a scope: the base directory itself for the empty scope. *)
Definition scope_dir (base : path) (scope : bytes) : path := path_append base (hex scope).

Lemma hex_not_name (s : bytes) (c : ascii) l : c ∉ kDigits → hex s ≠ c :: l.
Proof. intros Hc E. apply Hc, (hex_alphabet _ s). rewrite E. set_solver. Qed.

Lemma scope_dir_inj base s s' n n' r r' :
  (∀ t, hex t ≠ n) → (∀ t, hex t ≠ n') →
  scope_dir base s ++ n :: r = scope_dir base s' ++ n' :: r' → s = s' ∧ n = n' ∧ r = r'.
Proof.
  intros Hn Hn'. unfold scope_dir.
  destruct (hex s) as [|c x] eqn:E, (hex s') as [|c' x'] eqn:E'; cbn [path_append];
    rewrite <- ?app_assoc; intros H; apply app_inv_head in H; cbn [app] in H; simplify_eq.
  - by rewrite (hex_inj s s') by congruence.
  - by destruct (Hn s').
  - by destruct (Hn' s).
  - by rewrite (hex_inj s s') by congruence.
Qed.

Lemma kv_path_eq base s k : kv_path base s k = scope_dir base s ++ [bs "kv_" ++ hex k].
Proof. done. Qed.

Lemma log_dir_eq base s ns k :
  log_dir base s ns k = scope_dir base s ++ [bs "log_" ++ hex ns ++ bs "__" ++ hex k].
Proof. done. Qed.

Lemma kv_name_not_hex k t : hex t ≠ bs "kv_" ++ hex k.
Proof. apply hex_not_name, (bool_decide_unpack _). by vm_compute. Qed.

Lemma log_name_not_hex x t : hex t ≠ bs "log_" ++ x.
Proof. apply hex_not_name, (bool_decide_unpack _). by vm_compute. Qed.

(** No two keys share a file, no two logs a directory, and no key lies in one. *)
Lemma kv_path_inj base s s' k k' : kv_path base s k = kv_path base s' k' → s = s' ∧ k = k'.
Proof.
  rewrite !kv_path_eq. intros H.
  apply scope_dir_inj in H as (-> & H & _); [|apply kv_name_not_hex..].
  apply app_inv_head in H. by apply hex_inj in H.
Qed.

Lemma log_path_inj base s s' ns ns' k k' n n' :
  log_dir base s ns k ++ [n] = log_dir base s' ns' k' ++ [n'] →
  s = s' ∧ ns = ns' ∧ k = k' ∧ n = n'.
Proof.
  rewrite !log_dir_eq, <- !app_assoc. cbn [app]. intros H.
  apply scope_dir_inj in H as (-> & H & [= ->]); [|apply log_name_not_hex..].
  apply app_inv_head in H. apply split_inj in H as [H1 H2]; [|apply hex_no_underscore..].
  injection H2 as H2. apply hex_inj in H1, H2. by subst.
Qed.

Lemma kv_log_ne base s s' k ns k' n : kv_path base s k ≠ log_dir base s' ns k' ++ [n].
Proof.
  rewrite kv_path_eq, log_dir_eq, <- !app_assoc. cbn [app]. intros H.
  apply scope_dir_inj in H as (_ & _ & H); [done|apply kv_name_not_hex|apply log_name_not_hex].
Qed.

(** A scope's directory holds the files of that scope and of no other. *)
Lemma scope_dir_prefix base s s' n r :
  s ≠ [] → (∀ t, hex t ≠ n) →
  (path_append base (hex s) `prefix_of` scope_dir base s' ++ n :: r) ↔ s = s'.
Proof.
  intros Hs Hn. unfold scope_dir. rewrite (path_append_snoc base (hex s)) by by apply hex_ne_nil.
  split.
  - intros [k Hk]. destruct (hex s') as [|c x] eqn:E; cbn [path_append] in Hk;
      rewrite <- ?app_assoc in Hk; apply app_inv_head in Hk; cbn [app] in Hk; simplify_eq.
    + by destruct (Hn s).
    + apply hex_inj. congruence.
  - intros <-. rewrite path_append_snoc by by apply hex_ne_nil. apply prefix_app_r. done.
Qed.

(** ** Lemmas: directories *)

Lemma elem_of_listing (dir : path) (fs : files) (n v : bytes) :
  (n, v) ∈ listing dir fs ↔ fs !! (dir ++ [n]) = Some v.
Proof.
  unfold listing. rewrite list_elem_of_omap. split.
  - intros ([p w] & Hp & Hn). apply elem_of_map_to_list in Hp.
    unfold name_in in Hn. destruct (last p) as [m|]; [|done].
    case_bool_decide as Hpm; [|done]. by simplify_eq/=.
  - intros Hv. exists (dir ++ [n], v). split; [by apply elem_of_map_to_list|].
    unfold name_in. rewrite last_snoc. by rewrite bool_decide_true.
Qed.

Lemma listing_NoDup (dir : path) (fs : files) : NoDup (listing dir fs).*1.
Proof.
  unfold listing. pose proof (NoDup_fst_map_to_list fs) as Hnd.
  induction (map_to_list fs) as [|[p v] l IH]; [constructor|]. inversion_clear Hnd as [|? ? Hp Hnd'].
  cbn [omap list_omap]. destruct (name_in dir p) as [n|] eqn:Hn; cbn; [|by apply IH].
  constructor; [|by apply IH]. intros Hin. apply Hp.
  apply list_elem_of_fmap in Hin as ([n' w] & -> & Hin).
  apply list_elem_of_omap in Hin as ([p' w'] & Hin & Hn').
  unfold name_in in Hn, Hn'. destruct (last p) as [m|]; [|done]. case_bool_decide as E; [|done].
  cbn in Hn'. destruct (last p') as [m'|]; [|done]. case_bool_decide as E'; [|done].
  simplify_eq/=. apply list_elem_of_fmap. by eexists (_, _).
Qed.

Lemma highest_id_spec (dir : path) (fs : files) :
  0 ≤ highest_id dir fs ∧
  (∀ n v, fs !! (dir ++ [n]) = Some v → strtoll n ≤ highest_id dir fs) ∧
  (highest_id dir fs = 0 ∨ ∃ n v, fs !! (dir ++ [n]) = Some v ∧ strtoll n = highest_id dir fs).
Proof.
  setoid_rewrite <- elem_of_listing. unfold highest_id.
  induction (listing dir fs) as [|[n v] l (IH0 & IH1 & IH2)]; cbn [foldr fst].
  - split_and!; [lia|set_solver|by left].
  - split_and!; [lia| |].
    + intros m w [[= -> ->]|Hin]%elem_of_cons; [lia|]. specialize (IH1 m w Hin). lia.
    + destruct (Z.max_spec (strtoll n) (foldr (λ f highest, Z.max highest (strtoll f.1)) 0 l))
        as [[? E]|[? E]]; rewrite (Z.max_comm _ (strtoll n)), E.
      * destruct IH2 as [?|(m & w & ? & ?)]; [by left|right; exists m, w; set_solver].
      * right. exists n, v. set_solver.
Qed.

Lemma highest_id_eq (dir : path) (fs : files) h :
  0 ≤ h → (∀ n v, fs !! (dir ++ [n]) = Some v → strtoll n ≤ h) →
  (h = 0 ∨ ∃ n v, fs !! (dir ++ [n]) = Some v ∧ strtoll n = h) → highest_id dir fs = h.
Proof.
  intros H0 Hle Hex. destruct (highest_id_spec dir fs) as (G0 & Gle & Gex).
  apply Z.le_antisymm.
  - destruct Gex as [->|(n & v & Hn & <-)]; [lia|by eapply Hle].
  - destruct Hex as [->|(n & v & Hn & <-)]; [lia|by eapply Gle].
Qed.

(** ** Lemmas: writing and claiming *)

Section healthy.
Context `{D : Disk} `{!Healthy D}.

Lemma rename_Some (p q : path) (fs : files) v :
  fs !! p = Some v → rename p q fs = Some (<[q := v]> (delete p fs)).
Proof using Type*. intros Hv. unfold rename. by rewrite Hv, healthy_rename. Qed.

Lemma write_file_Ok (proc : Z) (p : path) (v : bytes) (fs : files) :
  fs !! path_suffix p (bs ".tmp." ++ to_string proc) = None →
  path_suffix p (bs ".tmp." ++ to_string proc) ≠ p →
  write_file_atomically proc p v fs = (<[p := v]> fs, Ok tt).
Proof using Type*.
  intros Htmp Hne. unfold write_file_atomically. rewrite healthy_write. cbn [negb].
  erewrite rename_Some by apply lookup_insert_eq. by rewrite delete_insert_id.
Qed.

(** An id no name of the directory starts with is claimed at the first attempt,
    published, and spent. *)
Lemma claim_fresh (proc : Z) (dir : path) (id : Z) (v : bytes) (fs : files) (n : nat) :
  0 ≤ id < 2 ^ 63 →
  (∀ m w, fs !! (dir ++ [m]) = Some w → strtoll m ≠ id) →
  claim_loop proc dir (S n) id v fs =
    (<[dir ++ [used_name id] := []]> (<[dir ++ [entry_name id] := v]> fs), Ok id).
Proof using Type*.
  intros Hid Hfree. destruct (strtoll_names id Hid) as (He & Hc & Hu & Htmp).
  assert (∀ m, strtoll m = id → fs !! (dir ++ [m]) = None) as Hnone.
  { intros m Hm. destruct (fs !! (dir ++ [m])) eqn:E; [|done]. by apply Hfree in E. }
  cbn [claim_loop]. destruct (path_append_name dir id) as (-> & -> & ->).
  unfold TryClaimFile. rewrite Hnone, healthy_create by done.
  assert (∀ x, entry_name id ++ bs ".tmp." ++ x ≠ claim_name id) as Htc.
  { intros x E. unfold entry_name, claim_name in E. rewrite <- app_assoc in E.
    apply app_inv_head in E. discriminate E. }
  assert (∀ m m', m ≠ m' → dir ++ [m] ≠ dir ++ [m']) as Hne
    by (intros m m' Hm E; apply app_inv_head in E; congruence).
  assert (claim_name id ≠ entry_name id) by (symmetry; apply entry_ne_claim).
  assert (claim_name id ≠ used_name id) by (symmetry; apply used_ne_claim).
  unfold exists_. rewrite !lookup_insert_ne, !Hnone by auto. cbn [bool_decide orb].
  rewrite !bool_decide_false by (by intros [? ?]). cbn [orb].
  rewrite write_file_Ok.
  - erewrite rename_Some; [|rewrite lookup_insert_ne by auto; apply lookup_insert_eq].
    f_equal. apply map_eq. intros q.
    destruct (decide (q = dir ++ [used_name id])) as [->|]; [by rewrite !lookup_insert_eq|].
    rewrite !(lookup_insert_ne _ _ q) by done.
    destruct (decide (q = dir ++ [claim_name id])) as [->|].
    { rewrite lookup_delete_eq, lookup_insert_ne by auto using entry_ne_claim.
      symmetry. by apply Hnone. }
    rewrite lookup_delete_ne by done.
    destruct (decide (q = dir ++ [entry_name id])) as [->|]; [by rewrite !lookup_insert_eq|].
    by rewrite !(lookup_insert_ne _ _ q) by done.
  - rewrite path_suffix_snoc, lookup_insert_ne; [by apply Hnone|].
    apply Hne. intros E. by eapply Htc.
  - rewrite path_suffix_snoc. apply Hne. intros E.
    apply (f_equal length) in E. rewrite !length_app in E. simpl in E. lia.
Qed.

End healthy.

(** ** A log directory and the log it holds

    [entries] is the log (or what is left of the queue), in order; ids below
    [next] are spent. *)
Definition before (a b : Z * bytes) : Prop := a.1 < b.1.

Record log_sim (dir : path) (next : Z) (entries : list (Z * bytes)) (fs : files) : Prop := {
  sim_next : 1 ≤ next ≤ 2 ^ 62;
  sim_sorted : StronglySorted before entries;
  sim_entry id v : (id, v) ∈ entries → 1 ≤ id < next ∧ fs !! (dir ++ [entry_name id]) = Some v;
  sim_used id : 1 ≤ id < next → is_Some (fs !! (dir ++ [used_name id]));
  sim_names n v : fs !! (dir ++ [n]) = Some v →
    ∃ id, 1 ≤ id < next ∧ (n = used_name id ∨ (n = entry_name id ∧ (id, v) ∈ entries));
}.

Section log.
Context (dir : path) (next : Z) (entries : list (Z * bytes)) (fs : files).
Hypothesis Hsim : log_sim dir next entries fs.

Lemma sim_strtoll (n v : bytes) : fs !! (dir ++ [n]) = Some v → 1 ≤ strtoll n < next.
Proof using Hsim.
  intros (id & Hid & Hn)%(sim_names _ _ _ _ Hsim). pose proof (sim_next _ _ _ _ Hsim).
  destruct (strtoll_names id ltac:(lia)) as (He & _ & Hu & _).
  destruct Hn as [->|[-> _]]; lia.
Qed.

Lemma sim_highest : highest_id dir fs = next - 1.
Proof using Hsim.
  pose proof (sim_next _ _ _ _ Hsim). apply highest_id_eq; [lia| |].
  - intros n v H1%sim_strtoll. lia.
  - destruct (decide (next = 1)); [left; lia|right].
    destruct (sim_used _ _ _ _ Hsim (next - 1)) as [v Hv]; [lia|].
    exists (used_name (next - 1)), v. split; [done|].
    by destruct (strtoll_names (next - 1) ltac:(lia)) as (_ & _ & -> & _).
Qed.

Lemma sim_no_claim (id : Z) : fs !! (dir ++ [claim_name id]) = None.
Proof using Hsim.
  destruct (fs !! _) eqn:E; [|done]. apply (sim_names _ _ _ _ Hsim) in E as (j & _ & [H|[H _]]).
  - by destruct (used_ne_claim j id).
  - by destruct (entry_ne_claim j id).
Qed.

Lemma name_inj (i j : Z) : 0 ≤ i < 2 ^ 63 → 0 ≤ j < 2 ^ 63 → entry_name i = entry_name j → i = j.
Proof.
  intros Hi Hj E. destruct (strtoll_names i Hi) as (<- & _), (strtoll_names j Hj) as (<- & _).
  by rewrite E.
Qed.

Lemma used_name_inj (i j : Z) : 0 ≤ i < 2 ^ 63 → 0 ≤ j < 2 ^ 63 → used_name i = used_name j → i = j.
Proof.
  intros Hi Hj E. destruct (strtoll_names i Hi) as (_ & _ & <- & _), (strtoll_names j Hj) as (_ & _ & <- & _).
  by rewrite E.
Qed.

Lemma sim_entry_iff (id : Z) (v : bytes) :
  1 ≤ id < 2 ^ 63 → fs !! (dir ++ [entry_name id]) = Some v ↔ (id, v) ∈ entries.
Proof using Hsim.
  intros Hid. split; [|intros Hin; by apply (sim_entry _ _ _ _ Hsim) in Hin as [_ ?]].
  intros (j & Hj & [H|[H Hin]])%(sim_names _ _ _ _ Hsim).
  - by destruct (entry_ne_used id j).
  - pose proof (sim_next _ _ _ _ Hsim). apply name_inj in H as ->; [done|lia..].
Qed.

(** Publishing under [next]. *)
Lemma sim_publish (v : bytes) :
  next < 2 ^ 62 →
  log_sim dir (next + 1) (entries ++ [(next, v)])
    (<[dir ++ [used_name next] := []]> (<[dir ++ [entry_name next] := v]> fs)).
Proof using Hsim.
  intros Hlt. destruct Hsim as [Hn Hs He Hu Hnames].
  assert (∀ m m', m ≠ m' → dir ++ [m] ≠ dir ++ [m']) as Hne
    by (intros m m' Hm E; apply app_inv_head in E; congruence).
  split.
  - lia.
  - apply StronglySorted_app_2; [|done|by repeat constructor].
    intros [i x] [j y] Hi Hj. apply list_elem_of_singleton in Hj. simplify_eq.
    apply He in Hi as [Hi _]. unfold before. simpl. lia.
  - intros id w [Hin|Hin]%elem_of_app.
    + destruct (He id w Hin) as [Hid Hw]. split; [lia|].
      rewrite lookup_insert_ne by (apply Hne; intros E; symmetry in E; by apply entry_ne_used in E).
      rewrite lookup_insert_ne; [done|]. apply Hne. intros E. apply name_inj in E; lia.
    + apply list_elem_of_singleton in Hin. simplify_eq. split; [lia|].
      rewrite lookup_insert_ne by (apply Hne; intros E; symmetry in E; by apply entry_ne_used in E).
      by rewrite lookup_insert_eq.
  - intros id Hid. destruct (decide (id = next)) as [->|]; [by rewrite lookup_insert_eq|].
    rewrite lookup_insert_ne by (apply Hne; intros E; apply used_name_inj in E; lia).
    rewrite lookup_insert_ne by (apply Hne, entry_ne_used). apply Hu. lia.
  - intros n w Hw. apply lookup_insert_Some in Hw as [[E <-]|[_ Hw]].
    { exists next. split; [lia|]. left. apply app_inv_head in E. congruence. }
    apply lookup_insert_Some in Hw as [[E <-]|[_ Hw]].
    { exists next. split; [lia|]. right. apply app_inv_head in E. split; [congruence|set_solver]. }
    destruct (Hnames n w Hw) as (id & Hid & Hc). exists id. split; [lia|]. set_solver.
Qed.

(** Taking the first entry. *)
Lemma sim_take (id : Z) (v : bytes) (rest : list (Z * bytes)) :
  entries = (id, v) :: rest → log_sim dir next rest (delete (dir ++ [entry_name id]) fs).
Proof using Hsim.
  intros ->. destruct Hsim as [Hn Hs He Hu Hnames].
  apply StronglySorted_inv in Hs as [Hs Hfirst]. rewrite Forall_forall in Hfirst.
  assert (∀ m m', m ≠ m' → dir ++ [m] ≠ dir ++ [m']) as Hne
    by (intros m m' Hm E; apply app_inv_head in E; congruence).
  destruct (He id v) as [Hid _]; [set_solver|]. split.
  - done.
  - done.
  - intros j w Hj. destruct (He j w) as [Hj1 Hj2]; [set_solver|]. split; [done|].
    rewrite lookup_delete_ne; [done|]. apply Hne. intros E.
    apply name_inj in E; [|lia..]. specialize (Hfirst _ Hj). unfold before in Hfirst. simpl in Hfirst. lia.
  - intros j Hj. rewrite lookup_delete_ne by (apply Hne, entry_ne_used). by apply Hu.
  - intros n w [Hd Hw]%lookup_delete_Some. destruct (Hnames n w Hw) as (j & Hj & Hc).
    exists j. split; [done|]. destruct Hc as [->|[-> Hin]]; [by left|right].
    split; [done|]. apply elem_of_cons in Hin as [Hin|]; [|done]. simplify_eq.
Qed.

End log.

(** ** The operations on a log that is simulated *)

Implicit Types (entries rest : list (Z * bytes)) (v w x scope : bytes) (id next i j h c : Z).
Implicit Types (p q : Proc) (fs : files).

(** Nothing outside the directory has changed. *)
Definition frame (dir : path) (fs fs' : files) : Prop :=
  ∀ p : path, (∀ n, p ≠ dir ++ [n]) → fs' !! p = fs !! p.

Fixpoint number (next : Z) (items : list bytes) : list (Z * bytes) :=
  match items with [] => [] | v :: items => (next, v) :: number (next + 1) items end.

Lemma frame_publish (dir : path) (a b : bytes) (v w : bytes) (fs : files) :
  frame dir fs (<[dir ++ [a] := v]> (<[dir ++ [b] := w]> fs)).
Proof. intros p Hp. by rewrite !lookup_insert_ne by (by intros E; symmetry in E; apply Hp in E). Qed.

Section operations.
Context `{D : Disk} `{!Healthy D}.
Context (dir : path).

Lemma claim_sim (proc next : Z) entries (v : bytes) (fs : files) :
  log_sim dir next entries fs → next < 2 ^ 62 →
  ∃ fs', claim_from proc dir next v fs = (fs', Ok next) ∧
    log_sim dir (next + 1) (entries ++ [(next, v)]) fs' ∧ frame dir fs fs'.
Proof using Type*.
  intros Hsim Hlt. pose proof (sim_next _ _ _ _ Hsim). unfold claim_from.
  change (Z.to_nat kMaxClaimAttempts) with (S 4095). rewrite claim_fresh.
  - eexists. split_and!; [done|by apply sim_publish|apply frame_publish].
  - lia.
  - intros m w Hm%(sim_strtoll _ _ _ _ Hsim). lia.
Qed.

Lemma push_sim (proc next : Z) entries (items : list bytes) (fs : files) :
  log_sim dir next entries fs → next + Z.of_nat (length items) ≤ 2 ^ 62 →
  ∃ fs', push_loop proc dir next items fs = (fs', Ok tt) ∧
    log_sim dir (next + Z.of_nat (length items)) (entries ++ number next items) fs' ∧
    frame dir fs fs'.
Proof using Type*.
  revert next entries fs. induction items as [|v items IH]; intros next entries fs Hsim Hlt.
  - exists fs. cbn [push_loop number length]. rewrite app_nil_r, Z.add_0_r. split_and!; done.
  - cbn [length] in Hlt. destruct (claim_sim proc next entries v fs Hsim) as (fs1 & Hc & H1 & Hf1); [lia|].
    destruct (IH (next + 1) _ fs1 H1) as (fs2 & Hp & H2 & Hf2); [lia|].
    exists fs2. cbn [push_loop number length]. rewrite Hc, Hp. split_and!; [done| |].
    + rewrite <- app_assoc in H2. cbn [app] in H2.
      by replace (next + Z.of_nat (S (length items))) with (next + 1 + Z.of_nat (length items)) by lia.
    + intros p Hp'. by rewrite Hf2, Hf1.
Qed.

Lemma claimed_name_free next entries (id : Z) (x : bytes) (fs : files) :
  log_sim dir next entries fs → 0 ≤ id < 2 ^ 63 →
  fs !! (dir ++ [entry_name id ++ bs ".claimed." ++ x]) = None.
Proof using Type.
  intros Hsim Hid. destruct (fs !! _) as [w|] eqn:E; [|done].
  apply (sim_names _ _ _ _ Hsim) in E as (j & Hj & Hn). pose proof (sim_next _ _ _ _ Hsim).
  destruct (strtoll_names j ltac:(lia)) as (He & _ & Hu & _).
  destruct (strtoll_names id Hid) as (_ & _ & _ & Hx).
  specialize (Hx (bs ".claimed." ++ x)). destruct Hn as [Hn|[Hn _]]; rewrite Hn in Hx.
  - assert (j = id) as -> by lia. unfold entry_name, used_name in Hn.
    rewrite <- app_assoc in Hn. by apply app_inv_head in Hn.
  - assert (j = id) as -> by lia. apply (f_equal length) in Hn.
    rewrite length_app in Hn. cbn in Hn. lia.
Qed.

Lemma probe_sim (proc next : Z) entries (n : nat) (id : Z) (fs : files) :
  log_sim dir next entries fs → 1 ≤ id → id + Z.of_nat n < 2 ^ 63 →
  (∀ i v, (i, v) ∈ entries → id ≤ i) →
  probe proc dir n id None fs =
    match entries with
    | (i, v) :: _ => if i <? id + Z.of_nat n then (delete (dir ++ [entry_name i]) fs, Popped v i)
                     else (fs, Drained None)
    | [] => (fs, Drained None)
    end.
Proof using Type*.
  intros Hsim. revert id. induction n as [|n IH]; intros id Hid Hn Hlow.
  { cbn [probe]. destruct entries as [|[i v] rest]; [done|].
    destruct (Z.ltb_spec i (id + Z.of_nat 0)); [|done].
    specialize (Hlow i v ltac:(set_solver)). lia. }
  cbn [probe]. destruct (path_append_name dir id) as (-> & -> & _). rewrite path_suffix_snoc.
  destruct (fs !! (dir ++ [entry_name id])) as [w|] eqn:E.
  - rewrite (rename_Some _ _ _ w E). unfold read_file. rewrite lookup_insert_eq.
    rewrite delete_insert_id.
    2: { rewrite lookup_delete_ne; [apply (claimed_name_free next entries); [done|lia]|].
         intros E'. apply app_inv_head in E'. injection E' as E'. apply (f_equal length) in E'.
         rewrite length_app in E'. cbn in E'. lia. }
    apply (sim_entry_iff _ _ _ _ Hsim) in E; [|lia].
    destruct entries as [|[i v] rest]; [set_solver|].
    assert (i = id ∧ v = w) as [-> ->].
    { apply elem_of_cons in E as [E|E]; [by simplify_eq|].
      pose proof (sim_sorted _ _ _ _ Hsim) as Hs. apply StronglySorted_inv in Hs as [_ Hs].
      rewrite Forall_forall in Hs. specialize (Hs _ E). unfold before in Hs. cbn in Hs.
      specialize (Hlow i v ltac:(set_solver)). lia. }
    destruct (Z.ltb_spec id (id + Z.of_nat (S n))); [done|lia].
  - unfold rename. rewrite E. unfold exists_. rewrite (sim_no_claim _ _ _ _ Hsim).
    rewrite bool_decide_false by by intros [? ?]. rewrite IH; [|lia..|].
    + replace (id + Z.of_nat (S n)) with (id + 1 + Z.of_nat n) by lia. done.
    + intros i v Hin. specialize (Hlow i v Hin). destruct (decide (i = id)) as [->|]; [|lia].
      apply (sim_entry_iff _ _ _ _ Hsim) in Hin; [congruence|lia].
Qed.

(** A process's caches are right about a queue: everything up to the cursor
    has been taken, and no id at or above [next] has been seen. *)
Record proc_sim (scope : bytes) (next : Z) (entries : list (Z * bytes)) (p : Proc) : Prop := {
  ps_cursor : 0 ≤ cursor_of scope p < next;
  ps_taken id v : (id, v) ∈ entries → cursor_of scope p < id;
  ps_high h : queue_highs_ p !! scope = Some h → h < next;
}.

(** Two processes agree on every other scope. *)
Definition same_elsewhere (scope : bytes) (p q : Proc) : Prop :=
  pid p = pid q ∧ ∀ s, s ≠ scope →
    queue_cursors_ p !! s = queue_cursors_ q !! s ∧ queue_highs_ p !! s = queue_highs_ q !! s.

Lemma cursor_set scope c p : cursor_of scope (set_cursor scope c p) = c.
Proof using Type. unfold cursor_of, set_cursor. cbn. by rewrite lookup_insert_eq. Qed.

Lemma proc_sim_set scope next entries p c h :
  proc_sim scope next entries p → 0 ≤ c < next → h < next → (∀ id v, (id, v) ∈ entries → c < id) →
  proc_sim scope next entries (set_cursor scope c (set_high scope h p)).
Proof using Type.
  intros [Hc Ht Hh] Hc' Hh' Ht'. split; rewrite ?cursor_set; [done|done|].
  intros h' H. cbn in H. rewrite lookup_insert_eq in H. by simplify_eq.
Qed.

Lemma same_set scope p c h : same_elsewhere scope p (set_cursor scope c (set_high scope h p)).
Proof using Type. split; [done|]. intros s Hs. cbn. by rewrite !lookup_insert_ne. Qed.

Lemma proc_sim_new scope next entries k :
  1 ≤ next → (∀ id v, (id, v) ∈ entries → 0 < id) → proc_sim scope next entries (new_proc k).
Proof using Type.
  intros Hn He. assert (cursor_of scope (new_proc k) = 0) as Hc by done.
  split; rewrite ?Hc; [lia|done|done].
Qed.

(** What a pop leaves and answers when it ends in a good state. *)
Definition pop_result scope next entries p fs (r : files * Proc * result (option bytes)) : Prop :=
  ∃ fs' p', r = (fs', p', Ok (snd <$> head entries)) ∧
    log_sim dir next (tail entries) fs' ∧ proc_sim scope next (tail entries) p' ∧
    frame dir fs fs' ∧ same_elsewhere scope p p'.

Lemma same_elsewhere_trans scope p q (r : Proc) :
  same_elsewhere scope p q → same_elsewhere scope q r → same_elsewhere scope p r.
Proof using Type.
  intros [H1 H2] [H3 H4]. split; [congruence|]. intros s Hs.
  destruct (H2 s Hs), (H4 s Hs). split; congruence.
Qed.

Lemma same_set_high scope p h : same_elsewhere scope p (set_high scope h p).
Proof using Type. split; [done|]. intros s Hs. cbn. by rewrite !lookup_insert_ne. Qed.

Lemma same_set_cursor scope p c : same_elsewhere scope p (set_cursor scope c p).
Proof using Type. split; [done|]. intros s Hs. cbn. by rewrite !lookup_insert_ne. Qed.

Lemma proc_sim_set_high scope next entries p h :
  proc_sim scope next entries p → h < next → proc_sim scope next entries (set_high scope h p).
Proof using Type.
  intros [Hc Ht Hh] Hlt. split; [done..|]. intros h' H'. cbn in H'.
  rewrite lookup_insert_eq in H'. by simplify_eq.
Qed.

(** A pass that reaches the first entry takes it; one that does not finds nothing. *)
Lemma pass_sim scope next entries p fs h :
  log_sim dir next entries fs → proc_sim scope next entries p → h < next →
  probe (pid p) dir (Z.to_nat (h - cursor_of scope p)) (cursor_of scope p + 1) None fs =
    match entries with
    | (i, v) :: _ => if i <=? h then (delete (dir ++ [entry_name i]) fs, Popped v i)
                     else (fs, Drained None)
    | [] => (fs, Drained None)
    end.
Proof using All.
  intros Hsim [Hc Ht Hh] Hlt. pose proof (sim_next _ _ _ _ Hsim).
  rewrite (probe_sim _ next entries); [|done|lia..|].
  - destruct entries as [|[i v] rest]; [done|].
    specialize (Ht i v ltac:(set_solver)).
    destruct (Z.ltb_spec i (cursor_of scope p + 1 + Z.of_nat (Z.to_nat (h - cursor_of scope p)))),
      (Z.leb_spec i h); (done || lia).
  - intros i v Hin. specialize (Ht i v Hin). lia.
Qed.

(** The item is taken: the cursor is now at its id. *)
Lemma taken_sim scope next i v rest p fs h :
  log_sim dir next ((i, v) :: rest) fs → proc_sim scope next ((i, v) :: rest) p → h < next →
  pop_result scope next ((i, v) :: rest) p fs
    (delete (dir ++ [entry_name i]) fs, set_cursor scope i (set_high scope h p), Ok (Some v)).
Proof using All.
  intros Hsim Hps Hlt. eexists _, _. split_and!; [done|by eapply sim_take| | |apply same_set].
  - destruct (sim_entry _ _ _ _ Hsim i v ltac:(set_solver)) as [Hi _]. split; rewrite ?cursor_set.
    + lia.
    + intros id w Hin. pose proof (sim_sorted _ _ _ _ Hsim) as Hs.
      apply StronglySorted_inv in Hs as [_ Hs]. rewrite Forall_forall in Hs. by apply (Hs (id, w)).
    + intros h' H'. cbn in H'. rewrite lookup_insert_eq in H'. by simplify_eq.
  - intros q Hq. by rewrite lookup_delete_ne by (intros E; symmetry in E; by apply Hq in E).
Qed.

(** The last pass: the high-water mark is the real one. *)
Lemma pop_last scope next entries p fs (k : nat) :
  log_sim dir next entries fs → proc_sim scope next entries p →
  queue_high scope dir fs p = next - 1 →
  pop_result scope next entries p fs (pop_loop (S k) scope dir p fs).
Proof using Type*.
  intros Hsim Hps Hh. cbn [pop_loop]. rewrite Hh.
  change (cursor_of scope (set_high scope (next - 1) p)) with (cursor_of scope p).
  change (pid (set_high scope (next - 1) p)) with (pid p).
  rewrite (pass_sim _ next entries) by (done || lia).
  destruct entries as [|[i v] rest].
  - rewrite (sim_highest _ _ _ _ Hsim). rewrite (proj2 (Z.leb_le _ _)) by lia.
    eexists _, _. split_and!; [done|done| |done|].
    + repeat apply proc_sim_set_high; (done || lia).
    + eapply same_elsewhere_trans; apply same_set_high.
  - destruct (sim_entry _ _ _ _ Hsim i v ltac:(set_solver)) as [Hi _].
    rewrite (proj2 (Z.leb_le _ _)) by lia. apply taken_sim; (done || lia).
Qed.

Lemma pop_loop_sim scope next entries p fs (k : nat) :
  log_sim dir next entries fs → proc_sim scope next entries p →
  pop_result scope next entries p fs (pop_loop (S (S k)) scope dir p fs).
Proof using Type*.
  intros Hsim Hps. pose proof (sim_highest _ _ _ _ Hsim) as Hhigh.
  assert (queue_high scope dir fs p < next) as Hlt.
  { unfold queue_high. destruct (queue_highs_ p !! scope) eqn:E; cbn; [by eapply ps_high|lia]. }
  destruct (decide (queue_high scope dir fs p = next - 1)); [by apply pop_last|].
  remember (S k) as k'. cbn [pop_loop]. set (h := queue_high scope dir fs p) in *.
  change (cursor_of scope (set_high scope h p)) with (cursor_of scope p).
  change (pid (set_high scope h p)) with (pid p).
  rewrite (pass_sim _ next entries) by done.
  assert (pop_result scope next entries p fs (pop_loop k' scope dir
    (set_high scope (next - 1) (set_high scope h p)) fs)) as Hrec.
  { subst k'. destruct (pop_last scope next entries (set_high scope (next - 1) (set_high scope h p)) fs k)
      as (fs' & p' & -> & ? & ? & ? & ?).
    - done.
    - repeat apply proc_sim_set_high; (done || lia).
    - unfold queue_high. cbn. by rewrite lookup_insert_eq.
    - eexists _, _. split_and!; try done.
      eapply same_elsewhere_trans; [|done]. eapply same_elsewhere_trans; apply same_set_high. }
  assert ((next - 1 <=? h) = false) as Hle by lia.
  destruct entries as [|[i v] rest]; [by rewrite Hhigh, Hle|].
  destruct (Z.leb_spec i h); [by apply taken_sim|by rewrite Hhigh, Hle].
Qed.

End operations.

(** ** Reading a log *)

Lemma NoDup_omap {A B} (f : A → option B) (l : list A) :
  NoDup l → (∀ (x y : A) (z : B), x ∈ l → y ∈ l → f x = Some z → f y = Some z → x = y) → NoDup (omap f l).
Proof.
  induction l as [|x l IH]; intros Hnd Hinj; [constructor|]. inversion_clear Hnd as [|? ? Hx Hl].
  cbn [omap list_omap]. destruct (f x) as [b|] eqn:E; [constructor|]; [|apply IH..]; try done.
  - intros (y & Hy & Ey)%list_elem_of_omap. apply Hx.
    rewrite (Hinj x y b); [done|by left|by right|done|done].
  - intros y z w Hy Hz. apply Hinj; by right.
  - intros y z w Hy Hz. apply Hinj; by right.
Qed.

Lemma before_NoDup entries : StronglySorted before entries → NoDup entries.
Proof.
  induction 1 as [|e l Hs IH Hf]; [constructor|]. constructor; [|done]. intros Hin.
  rewrite Forall_forall in Hf. specialize (Hf e Hin). unfold before in Hf. lia.
Qed.

Lemma before_filter entries (P : Z * bytes → Prop) `{∀ e, Decision (P e)} :
  StronglySorted before entries → StronglySorted before (filter P entries).
Proof.
  induction 1 as [|e l Hs IH Hf]; [constructor|]. rewrite filter_cons.
  destruct (decide (P e)); [|done]. constructor; [done|].
  rewrite Forall_forall in Hf |- *. intros y Hy. apply list_elem_of_filter in Hy as [_ Hy]. by apply Hf.
Qed.

Lemma before_unique (l k : list (Z * bytes)) :
  StronglySorted before l → Sorted id_le k → k ≡ₚ l → k = l.
Proof.
  intros Hl Hk Hp. apply (StronglySorted_unique_strong id_le); [| | |done].
  - intros x y Hx Hy H1 H2. rewrite Hp in Hx. revert Hx Hy. clear Hp Hk.
    induction Hl as [|e l Hs IH Hf]; [set_solver|]. rewrite Forall_forall in Hf.
    rewrite !elem_of_cons. unfold before in Hf. unfold id_le in H1, H2.
    intros [->|Hx] [->|Hy]; [done| | |by apply IH].
    + specialize (Hf y Hy). lia.
    + specialize (Hf x Hx). lia.
  - apply Sorted_StronglySorted; [|done]. intros a b c. unfold id_le. lia.
  - clear Hp Hk. induction Hl as [|e l Hs IH Hf]; constructor; [done|].
    eapply Forall_impl; [exact Hf|]. unfold before, id_le. intros. lia.
Qed.

Lemma found_spec (dir : path) next entries fs (after : Z) :
  log_sim dir next entries fs →
  omap (λ f, id ← entry_id f.1; if bool_decide (after < id) then Some (id, f.2) else None)
    (listing dir fs) ≡ₚ filter (λ e, after < e.1) entries.
Proof.
  intros Hsim. pose proof (sim_next _ _ _ _ Hsim) as Hnext.
  assert (∀ n v id, (n, v) ∈ listing dir fs → entry_id n = Some id →
    n = entry_name id ∧ (id, v) ∈ entries) as Hname.
  { intros n v id Hn He. apply elem_of_listing, (sim_names _ _ _ _ Hsim) in Hn
      as (j & Hj & [->|[-> Hin]]); [by rewrite entry_id_used in He|].
    rewrite entry_id_entry in He by lia. by simplify_eq. }
  apply NoDup_Permutation.
  - apply NoDup_omap; [eapply NoDup_fmap_1, listing_NoDup|].
    intros [n v] [m w] z Hn Hm H1 H2. cbn in H1, H2.
    destruct (entry_id n) as [a|] eqn:Ea; [|done]. destruct (entry_id m) as [b|] eqn:Eb; [|done].
    cbn in H1, H2. case_bool_decide; [|done]. case_bool_decide; [|done]. simplify_eq.
    destruct (Hname n _ _ Hn Ea) as [-> _], (Hname m _ _ Hm Eb) as [-> _]. done.
  - apply NoDup_filter, before_NoDup, (sim_sorted _ _ _ _ Hsim).
  - intros [id v]. rewrite list_elem_of_omap, list_elem_of_filter. split.
    + intros ([n w] & Hn & H1). cbn in H1. destruct (entry_id n) as [a|] eqn:Ea; [|done].
      cbn in H1. case_bool_decide; [|done]. simplify_eq. by destruct (Hname n _ _ Hn Ea).
    + intros [Hlt Hin]. destruct (sim_entry _ _ _ _ Hsim id v Hin) as [Hid Hv].
      exists (entry_name id, v). split; [by apply elem_of_listing|]. cbn [fst snd].
      rewrite entry_id_entry by lia. cbn. by rewrite bool_decide_true.
Qed.

Lemma scan_sim (base : path) scope (ns key : bytes) next entries fs (after limit : Z) :
  log_sim (log_dir base scope ns key) next entries fs →
  scan base scope ns key after limit fs =
    let l := filter (λ e, after < e.1) entries in
    take (Z.to_nat (Z.min limit (Z.of_nat (length l)))) l.
Proof.
  intros Hsim. unfold scan. pose proof (found_spec _ _ _ _ after Hsim) as Hp.
  rewrite (Permutation_length Hp).
  f_equal. apply before_unique; [apply before_filter, (sim_sorted _ _ _ _ Hsim)| |].
  - apply Sorted_merge_sort. intros a b. unfold id_le. lia.
  - by rewrite merge_sort_Permutation.
Qed.

End Storage.
