(* ===== verification/StorageSpec.v ===== *)
(** * What the storage promises, and that the filesystem keeps it

    [store] is the abstract state: a map of values, and for each log its next id
    and its entries.  [spec] gives each operation of [FunctionStorage] on it in
    one line.  [exec] runs the operations of [Storage] for any of several
    worker processes on one disk.  The refinement: the same answers, one
    operation at a time, unless a process pops with a cursor that a clear by
    another has made stale.  [StorageConc] looks inside the operations. *)

From S2P Require Import Prelude Text Storage.
Import Storage.

Module StorageSpec.

Implicit Types (base : path) (s ns k v m : bytes) (q N : Z) (fs : files).

(** ** The abstract store *)

Record store := mkStore {
  s_kv : gmap (bytes * bytes) bytes;
  s_logs : gmap (bytes * bytes * bytes) (Z * list (Z * bytes));
}.

Definition empty_store : store := mkStore ∅ ∅.

Definition log_of (st : store) (scope ns key : bytes) : Z * list (Z * bytes) :=
  default (1, []) (s_logs st !! (scope, ns, key)).

Definition set_log (scope ns key : bytes) (l : Z * list (Z * bytes)) (st : store) : store :=
  mkStore (s_kv st) (<[(scope, ns, key) := l]> (s_logs st)).

Inductive op : Type :=
| Kv_get (scope key : bytes)
| Kv_put (scope key value : bytes)
| Kv_del (scope key : bytes)
| Append (scope ns key value : bytes)
| Scan (scope ns key : bytes) (after_id limit : Z)
| Queue_push (scope : bytes) (items : list bytes)
| Queue_pop (scope : bytes)
| Clear (scope : bytes).

Inductive out : Type :=
| Done
| Value (v : option bytes)
| Id (id : Z)
| Entries (l : list (Z * bytes)).

Definition spec (o : op) (st : store) : store * out :=
  match o with
  | Kv_get s k => (st, Value (s_kv st !! (s, k)))
  | Kv_put s k v => (mkStore (<[(s, k) := v]> (s_kv st)) (s_logs st), Done)
  | Kv_del s k => (mkStore (delete (s, k) (s_kv st)) (s_logs st), Done)
  | Append s ns k v =>
      let '(next, l) := log_of st s ns k in
      (set_log s ns k (next + 1, l ++ [(next, v)]) st, Id next)
  | Scan s ns k after limit =>
      let l := filter (λ e, after < e.1) (log_of st s ns k).2 in
      (st, Entries (take (Z.to_nat (Z.min limit (Z.of_nat (length l)))) l))
  | Queue_push s items =>
      let '(next, l) := log_of st s kQueueNamespace [] in
      (match items with
       | [] => st
       | _ => set_log s kQueueNamespace [] (next + Z.of_nat (length items), l ++ number next items) st
       end, Done)
  | Queue_pop s =>
      let '(next, l) := log_of st s kQueueNamespace [] in
      (match l with [] => st | _ :: l => set_log s kQueueNamespace [] (next, l) st end,
       Value (snd <$> head l))
  | Clear s =>
      (match s with
       | [] => st
       | _ => mkStore (filter (λ kv, kv.1.1 ≠ s) (s_kv st)) (filter (λ kv, kv.1.1.1 ≠ s) (s_logs st))
       end, Done)
  end.

Fixpoint run_spec (ops : list op) (st : store) : list out :=
  match ops with
  | [] => []
  | o :: ops => let '(st, r) := spec o st in r :: run_spec ops st
  end.

(** ** The processes and their disk *)

Record world := mkWorld { w_files : files; w_procs : gmap Z Proc }.

Definition empty_world : world := mkWorld ∅ ∅.

Definition proc_at (w : world) (q : Z) : Proc := default (new_proc q) (w_procs w !! q).

Section exec.
Context `{D : Disk}.
Variable base : path.

(** Process [q] calls one operation. *)
Definition exec (q : Z) (o : op) (w : world) : world * result out :=
  let fs := w_files w in
  let p := proc_at w q in
  let update fs p := mkWorld fs (<[q := p]> (w_procs w)) in
  match o with
  | Kv_get s k => (w, Ok (Value (kv_get base s k fs)))
  | Kv_put s k v => let '(fs, r) := kv_put base q s k v fs in (update fs p, r ≫= λ _, Ok Done)
  | Kv_del s k => (update (kv_del base s k fs) p, Ok Done)
  | Append s ns k v => let '(fs, r) := append base q s ns k v fs in (update fs p, r ≫= λ id, Ok (Id id))
  | Scan s ns k after limit => (w, Ok (Entries (scan base s ns k after limit fs)))
  | Queue_push s items => let '(fs, r) := queue_push base q s items fs in (update fs p, r ≫= λ _, Ok Done)
  | Queue_pop s => let '(fs, p, r) := queue_pop base s p fs in (update fs p, r ≫= λ o, Ok (Value o))
  | Clear s => let '(fs, p) := clear base s p fs in (update fs p, Ok Done)
  end.

Fixpoint run (tr : list (Z * op)) (w : world) : list (result out) :=
  match tr with
  | [] => []
  | (q, o) :: tr => let '(w, r) := exec q o w in r :: run tr w
  end.

End exec.

(** ** The simulation *)

(** Who keeps a place in the queue of a scope: the processes that popped from it
    since they cleared it themselves, and those of them since whose pop another process
    cleared it, so that what they keep is of a queue that is gone. *)
Record cursors := mkCursors { cu_popped : gset (Z * bytes); cu_stale : gset (Z * bytes) }.
Definition no_cursors : cursors := mkCursors ∅ ∅.

Definition noted (q : Z) (o : op) (c : cursors) : cursors :=
  match o with
  | Queue_pop s => mkCursors ({[ (q, s) ]} ∪ cu_popped c) (cu_stale c)
  | Clear ((_ :: _) as s) =>
      mkCursors (cu_popped c ∖ {[ (q, s) ]})
        ((filter (λ e, e.2 = s) (cu_popped c) ∪ cu_stale c) ∖ {[ (q, s) ]})
  | _ => c
  end.

Definition queue_ok (c : cursors) (q : Z) (s : bytes) : Prop := (q, s) ∉ cu_stale c.

Definition op_ok (c : cursors) (q : Z) (o : op) : Prop :=
  match o with Queue_pop s => queue_ok c q s | _ => True end.
#[export] Instance op_ok_dec c q o : Decision (op_ok c q o).
Proof. unfold op_ok, queue_ok. destruct o; apply _. Defined.

(** No process pops a queue that it popped before another process cleared its scope,
    unless it cleared the scope itself since. *)
Fixpoint trace_ok (c : cursors) (tr : list (Z * op)) : Prop :=
  match tr with
  | [] => True
  | (q, o) :: tr => op_ok c q o ∧ trace_ok (noted q o c) tr
  end.
#[export] Instance trace_ok_dec tr c : Decision (trace_ok c tr).
Proof. revert c. induction tr as [|[q o] tr IH]; intros c; cbn [trace_ok]; apply _. Defined.

(** How many ids an operation takes. *)
Definition weight (o : op) : Z :=
  match o with
  | Append _ _ _ _ => 1
  | Queue_push _ items => Z.of_nat (length items)
  | _ => 0
  end.
Definition total_weight (tr : list (Z * op)) : Z := foldr (λ e n, weight e.2 + n) 0 tr.

Definition known_path (base p : path) : Prop :=
  (∃ s k, p = kv_path base s k) ∨ (∃ s ns k n, p = log_dir base s ns k ++ [n]).

Record sim (base : path) (c : cursors) (N : Z) (st : store) (w : world) : Prop := {
  sim_paths p v : w_files w !! p = Some v → known_path base p;
  sim_kv s k : w_files w !! kv_path base s k = s_kv st !! (s, k);
  sim_log s ns k : log_sim (log_dir base s ns k) (log_of st s ns k).1 (log_of st s ns k).2 (w_files w);
  sim_bound s ns k : (log_of st s ns k).1 ≤ 1 + N;
  sim_procs q s : queue_ok c q s →
    proc_sim s (log_of st s kQueueNamespace []).1 (log_of st s kQueueNamespace []).2 (proc_at w q);
  sim_fresh q s : (q, s) ∉ cu_popped c →
    queue_cursors_ (proc_at w q) !! s = None ∧ queue_highs_ (proc_at w q) !! s = None;
}.

Lemma log_of_set (st : store) s ns k l (s' ns' k' : bytes) :
  log_of (set_log s ns k l st) s' ns' k' =
    if decide ((s', ns', k') = (s, ns, k)) then l else log_of st s' ns' k'.
Proof.
  unfold log_of, set_log. cbn [s_logs]. case_decide as E.
  - rewrite E. by rewrite lookup_insert_eq.
  - by rewrite lookup_insert_ne.
Qed.

Lemma log_sim_same (dir : path) (n : Z) (l : list (Z * bytes)) (fs fs' : files) :
  (∀ m, fs' !! (dir ++ [m]) = fs !! (dir ++ [m])) → log_sim dir n l fs → log_sim dir n l fs'.
Proof.
  intros E [H1 H2 H3 H4 H5]. split; [done|done| | |].
  - intros id v Hin. rewrite E. by apply H3.
  - intros id Hid. rewrite E. by apply H4.
  - intros m v. rewrite E. apply H5.
Qed.

Lemma frame_log base s ns k (s' ns' k' : bytes) (n : Z) (l : list (Z * bytes)) (fs fs' : files) :
  frame (log_dir base s ns k) fs fs' → (s', ns', k') ≠ (s, ns, k) →
  log_sim (log_dir base s' ns' k') n l fs → log_sim (log_dir base s' ns' k') n l fs'.
Proof.
  intros Hf Hne. apply log_sim_same. intros m. apply Hf. intros m' E.
  apply log_path_inj in E as (-> & -> & -> & _). done.
Qed.

Lemma proc_at_update fs q (p : Proc) (w : world) (q' : Z) :
  proc_at (mkWorld fs (<[q := p]> (w_procs w))) q' = if decide (q' = q) then p else proc_at w q'.
Proof.
  unfold proc_at. cbn [w_procs]. case_decide as E; [subst; by rewrite lookup_insert_eq|].
  by rewrite lookup_insert_ne.
Qed.

Lemma proc_at_same fs q (w : world) (q' : Z) : proc_at (mkWorld fs (<[q := proc_at w q]> (w_procs w))) q' = proc_at w q'.
Proof. rewrite proc_at_update. by case_decide; subst. Qed.

Lemma proc_sim_grow s (n n' : Z) (l l' : list (Z * bytes)) (p : Proc) :
  proc_sim s n l p → n ≤ n' → (∀ id v, (id, v) ∈ l' → (id, v) ∈ l ∨ n ≤ id) → proc_sim s n' l' p.
Proof.
  intros [Hc Ht Hh] Hn Hl. split.
  - lia.
  - intros id v [Hin|Hin]%Hl; [by eapply Ht|lia].
  - intros h Hh'. specialize (Hh h Hh'). lia.
Qed.

Lemma number_ge (n : Z) (items : list bytes) (id : Z) v : (id, v) ∈ number n items → n ≤ id.
Proof.
  revert n. induction items as [|x items IH]; intros n; cbn [number]; [set_solver|].
  intros [[= -> ->]|Hin]%elem_of_cons; [lia|]. specialize (IH _ Hin). lia.
Qed.

Lemma frame_known base s ns k fs fs' (p : path) v :
  frame (log_dir base s ns k) fs fs' → (∀ p v, fs !! p = Some v → known_path base p) →
  fs' !! p = Some v → known_path base p.
Proof.
  intros Hf Hk Hp. destruct (decide (p = log_dir base s ns k ++ [default [] (last p)])) as [E|Hne].
  - right. eexists _, _, _, _. exact E.
  - apply (Hk p v). rewrite <- Hf; [done|]. intros n ->. by rewrite last_snoc in Hne.
Qed.

(** An operation on one log. *)
Lemma sim_step_log base cl N (N' : Z) st w s ns k (n' : Z) (l' : list (Z * bytes)) fs' q (p' : Proc) :
  sim base cl N st w →
  let dir := log_dir base s ns k in
  let n := (log_of st s ns k).1 in
  let l := (log_of st s ns k).2 in
  log_sim dir n' l' fs' → frame dir (w_files w) fs' →
  n ≤ n' → n' ≤ 1 + N' → N ≤ N' →
  (∀ id v, (id, v) ∈ l' → (id, v) ∈ l ∨ n ≤ id) →
  same_elsewhere s (proc_at w q) p' →
  (queue_ok cl q s → (ns, k) = (kQueueNamespace, []) → proc_sim s n' l' p') →
  ((ns, k) ≠ (kQueueNamespace, []) → p' = proc_at w q) →
  p' = proc_at w q ∨ (q, s) ∈ cu_popped cl →
  sim base cl N' (set_log s ns k (n', l') st) (mkWorld fs' (<[q := p']> (w_procs w))).
Proof.
  intros [Hpaths Hkv Hlog Hb Hps Hfr] dir n l Hsim' Hf Hn Hn' HN Hl Hsame Hp' Hother Hpopped. split; cbn [w_files].
  - intros p v. by eapply frame_known.
  - intros s' k'. rewrite <- Hkv. apply Hf. intros m E. by apply kv_log_ne in E.
  - intros s' ns' k'. rewrite log_of_set. case_decide as E; [by simplify_eq|].
    by eapply frame_log.
  - intros s' ns' k'. rewrite log_of_set. case_decide; [done|]. specialize (Hb s' ns' k'). lia.
  - intros q' s' Hok. rewrite log_of_set, proc_at_update.
    case_decide as E; [simplify_eq|]; (case_decide as Eq; [subst q'|]).
    + by apply Hp'.
    + eapply proc_sim_grow; [by apply Hps|done|done].
    + destruct (decide (s' = s)) as [->|Hs].
      * rewrite Hother by (intros ?; simplify_eq). by apply Hps.
      * destruct Hsame as [Hpid Hsame]. destruct (Hsame s' Hs) as [H1 H2].
        specialize (Hps q s' Hok). destruct Hps as [P1 P2 P3]. unfold cursor_of in *.
        rewrite H1 in P1, P2. rewrite H2 in P3. by split.
    + by apply Hps.
  - intros q' s' Hno. rewrite proc_at_update. case_decide as E; [subst q'|by apply Hfr].
    destruct (decide (s' = s)) as [->|Hs]; [destruct Hpopped as [->|Hp]; [by apply Hfr|done]|].
    destruct Hsame as [_ Hsame]. destruct (Hsame s' Hs) as [<- <-]. by apply Hfr.
Qed.

Lemma same_elsewhere_refl s (p : Proc) : same_elsewhere s p p.
Proof. done. Qed.

Lemma sim_more base cl N (N' : Z) st w : N ≤ N' → sim base cl N st w → sim base cl N' st w.
Proof.
  intros HN [H1 H2 H3 H4 H5 H6]. split; try done.
  intros s ns k. specialize (H4 s ns k). lia.
Qed.

Lemma sim_same_files base cl N st w q :
  sim base cl N st w → sim base cl N st (mkWorld (w_files w) (<[q := proc_at w q]> (w_procs w))).
Proof.
  intros [H1 H2 H3 H4 H5 H6]. split; try done; intros q' s Hok; rewrite proc_at_same; [by apply H5|by apply H6].
Qed.

Lemma sim_popped base cl N st w e :
  sim base cl N st w → sim base (mkCursors ({[ e ]} ∪ cu_popped cl) (cu_stale cl)) N st w.
Proof. intros [H1 H2 H3 H4 H5 H6]. split; try done. intros q' s' Hno. apply H6. cbn in Hno. set_solver. Qed.

Lemma exists_dir_sim (dir : path) (n : Z) (l : list (Z * bytes)) fs :
  log_sim dir n l fs → exists_dir dir fs = false → l = [].
Proof.
  intros Hl He. destruct l as [|[id v] l]; [done|].
  destruct (sim_entry _ _ _ _ Hl id v) as [_ Hv]; [set_solver|].
  apply elem_of_listing in Hv. unfold exists_dir in He.
  apply negb_false_iff, bool_decide_eq_true in He. rewrite He in Hv. set_solver.
Qed.

Lemma remove_all_lookup (d p : path) fs :
  remove_all d fs !! p = if decide (d `prefix_of` p) then None else fs !! p.
Proof.
  unfold remove_all. case_decide.
  - apply map_lookup_filter_None. right. intros v _ Hn. by apply Hn.
  - destruct (fs !! p) as [v|] eqn:E.
    + by apply map_lookup_filter_Some.
    + apply map_lookup_filter_None. by left.
Qed.

Lemma log_of_clear st s s' ns k :
  s ≠ [] → log_of (spec (Clear s) st).1 s' ns k = if decide (s' = s) then (1, []) else log_of st s' ns k.
Proof.
  intros Hs. destruct s as [|x s]; [done|]. cbn [spec fst]. unfold log_of. cbn [s_logs].
  case_decide as E.
  - replace (filter _ (s_logs st) !! (s', ns, k)) with (@None (Z * list (Z * bytes))); [done|].
    symmetry. apply map_lookup_filter_None. right. intros l _ Hn. cbn in Hn. by apply Hn.
  - f_equal. destruct (s_logs st !! (s', ns, k)) as [l|] eqn:El.
    + by apply map_lookup_filter_Some.
    + apply map_lookup_filter_None. by left.
Qed.

Lemma kv_clear st s s' k :
  s ≠ [] → s_kv (spec (Clear s) st).1 !! (s', k) = if decide (s' = s) then None else s_kv st !! (s', k).
Proof.
  intros Hs. destruct s as [|x s]; [done|]. cbn [spec fst s_kv]. case_decide as E.
  - apply map_lookup_filter_None. right. intros l _ Hn. cbn in Hn. by apply Hn.
  - destruct (s_kv st !! (s', k)) as [v|] eqn:Ev.
    + by apply map_lookup_filter_Some.
    + apply map_lookup_filter_None. by left.
Qed.

Lemma empty_log_sim (dir : path) fs : (∀ m, fs !! (dir ++ [m]) = None) → log_sim dir 1 [] fs.
Proof.
  intros Hn. split; [lia|constructor|set_solver|lia|]. intros m v Hm. by rewrite Hn in Hm.
Qed.

Section steps.
Context `{D : Disk} `{!Healthy D}.
Context (base : path) (cl : cursors) (N : Z).

(** A step of process [q] that the abstract store mirrors. *)
Definition mirrored (q : Z) (o : op) (st : store) (w : world) : Prop :=
  (exec base q o w).2 = Ok (spec o st).2 ∧
  sim base (noted q o cl) (N + weight o) (spec o st).1 (exec base q o w).1.

Lemma step_append q s ns k v st w :
  sim base cl N st w → N + 1 < 2 ^ 61 → mirrored q (Append s ns k v) st w.
Proof using Type*.
  intros Hsim HN. pose proof (sim_log _ _ _ _ _ Hsim s ns k) as Hl.
  pose proof (sim_bound _ _ _ _ _ Hsim s ns k) as Hb.
  pose proof (sim_procs _ _ _ _ _ Hsim) as Hps.
  unfold mirrored. cbn [exec spec weight noted]. unfold append. rewrite (sim_highest _ _ _ _ Hl).
  destruct (log_of st s ns k) as [n l] eqn:E. cbn [fst snd] in *.
  replace (n - 1 + 1) with n by lia.
  destruct (claim_sim (log_dir base s ns k) q n l v _ Hl) as (fs' & -> & Hl' & Hf); [lia|].
  split; [done|]. cbn [fst].
  eapply sim_step_log; rewrite ?E; cbn [fst snd]; eauto using same_elsewhere_refl; try lia.
  - intros id x [Hin|Hin]%elem_of_app; [by left|right]. apply list_elem_of_singleton in Hin.
    by simplify_eq.
  - intros Hok [= -> ->]. specialize (Hps q s Hok). rewrite E in Hps. cbn [fst snd] in Hps.
    eapply proc_sim_grow; [done|lia|]. intros id x [Hin|Hin]%elem_of_app; [by left|right].
    apply list_elem_of_singleton in Hin. by simplify_eq.
Qed.

Lemma step_push q s (items : list bytes) st w :
  sim base cl N st w → N + Z.of_nat (length items) < 2 ^ 61 → mirrored q (Queue_push s items) st w.
Proof using Type*.
  intros Hsim HN. pose proof (sim_log _ _ _ _ _ Hsim s kQueueNamespace []) as Hl.
  pose proof (sim_bound _ _ _ _ _ Hsim s kQueueNamespace []) as Hb.
  pose proof (sim_procs _ _ _ _ _ Hsim) as Hps.
  unfold mirrored. cbn [exec spec weight noted]. unfold queue_push.
  destruct items as [|x items].
  { cbn. rewrite Z.add_0_r. destruct (log_of _ _ _ _). split; [done|]. by apply sim_same_files. }
  rewrite (sim_highest _ _ _ _ Hl).
  destruct (log_of st s kQueueNamespace []) as [n l] eqn:E. cbn [fst snd] in *.
  replace (n - 1 + 1) with n by lia.
  destruct (push_sim (log_dir base s kQueueNamespace []) q n l (x :: items) _ Hl) as (fs' & -> & Hl' & Hf);
    [lia|].
  split; [done|]. cbn [fst].
  eapply sim_step_log; rewrite ?E; cbn [fst snd]; eauto using same_elsewhere_refl; try lia.
  - intros id y [Hin|Hin]%elem_of_app; [by left|right]. by eapply number_ge.
  - intros Hok _. specialize (Hps q s Hok). rewrite E in Hps. cbn [fst snd] in Hps.
    eapply proc_sim_grow; [done|lia|].
    intros id y [Hin|Hin]%elem_of_app; [by left|right]. by eapply number_ge.
Qed.

Lemma step_pop q s st w :
  sim base cl N st w → queue_ok cl q s → mirrored q (Queue_pop s) st w.
Proof using Type*.
  intros Hsim Hok. pose proof (sim_log _ _ _ _ _ Hsim s kQueueNamespace []) as Hl.
  pose proof (sim_bound _ _ _ _ _ Hsim s kQueueNamespace []) as Hb.
  pose proof (sim_procs _ _ _ _ _ Hsim q s Hok) as Hps.
  unfold mirrored. cbn [exec spec weight noted]. rewrite Z.add_0_r. apply (sim_popped _ _ _ _ _ (q, s)) in Hsim.
  set (cl' := mkCursors _ _) in *. assert ((q, s) ∈ cu_popped cl') as Hin by (cbn; set_solver).
  unfold queue_pop. destruct (log_of st s kQueueNamespace []) as [n l] eqn:E. cbn [fst snd] in *.
  destruct (exists_dir _ _) eqn:He; cbn [negb].
  2: { apply (exists_dir_sim _ _ _ _ Hl) in He as ->. split; [done|]. by apply sim_same_files. }
  destruct (pop_loop_sim (log_dir base s kQueueNamespace []) s n l
    (set_cursor s (cursor_of s (proc_at w q)) (proc_at w q)) (w_files w) 1 Hl)
    as (fs' & p' & -> & Hl' & Hp' & Hf & Hsame).
  { destruct Hps as [P1 P2 P3]. split; rewrite ?cursor_set; done. }
  assert (same_elsewhere s (proc_at w q) p') as Hsame'
    by (eapply same_elsewhere_trans; [apply same_set_cursor|done]).
  split; [done|]. cbn [fst].
  assert (sim base cl' N (set_log s kQueueNamespace [] (n, tail l) st)
    (mkWorld fs' (<[q := p']> (w_procs w)))) as Hres.
  { eapply sim_step_log; rewrite ?E; cbn [fst snd]; eauto; try lia; try done.
    intros id v Hin'. left. destruct l; [done|by right]. }
  destruct l as [|e l]; [|done].
  destruct Hres as [R1 R2 R3 R4 R5 R6].
  assert (∀ s' ns k, log_of (set_log s kQueueNamespace [] (n, []) st) s' ns k = log_of st s' ns k) as Hlog.
  { intros s' ns k. rewrite log_of_set. case_decide; by simplify_eq. }
  split; [done|exact R2|..].
  - intros s' ns k. rewrite <- Hlog. apply R3.
  - intros s' ns k. rewrite <- Hlog. apply R4.
  - intros q' s' Hok'. rewrite <- Hlog. by apply R5.
  - exact R6.
Qed.

Lemma kv_tmp_free q s k st w :
  sim base cl N st w →
  w_files w !! path_suffix (kv_path base s k) (bs ".tmp." ++ to_string q) = None ∧
  path_suffix (kv_path base s k) (bs ".tmp." ++ to_string q) ≠ kv_path base s k.
Proof using All.
  intros Hsim. rewrite kv_path_eq, path_suffix_snoc. split.
  - destruct (w_files w !! _) as [v|] eqn:E; [|done].
    apply (sim_paths _ _ _ _ _ Hsim) in E as [(s' & k' & E)|(s' & ns & k' & m & E)].
    + rewrite kv_path_eq in E. apply app_inj_2 in E as [_ E]; [|done]. apply singleton_eq in E.
      rewrite <- app_assoc in E. apply app_inv_head in E.
      assert (zb 46 ∈ hex k') as Hin by (rewrite <- E; set_solver).
      apply hex_alphabet in Hin. revert Hin. apply (bool_decide_unpack _). by vm_compute.
    + rewrite log_dir_eq, <- (app_assoc (scope_dir base s')) in E.
      change ([bs "log_" ++ hex ns ++ bs "__" ++ hex k'] ++ [m]) with
        ((bs "log_" ++ hex ns ++ bs "__" ++ hex k') :: [m]) in E.
      apply scope_dir_inj in E as (_ & _ & E); [done| |apply log_name_not_hex].
      intros t. rewrite <- app_assoc. apply hex_not_name, (bool_decide_unpack _). by vm_compute.
  - intros E. apply app_inj_2 in E as [_ E]; [|done]. apply singleton_eq in E.
    apply (f_equal length) in E. rewrite !length_app in E. cbn in E. lia.
Qed.

(** An operation on the values alone. *)
Lemma sim_step_kv st w q s k fs' kv' :
  sim base cl N st w →
  (∀ p, p ≠ kv_path base s k → fs' !! p = w_files w !! p) →
  kv' !! (s, k) = fs' !! kv_path base s k →
  (∀ x, x ≠ (s, k) → kv' !! x = s_kv st !! x) →
  sim base cl N (mkStore kv' (s_logs st)) (mkWorld fs' (<[q := proc_at w q]> (w_procs w))).
Proof using All.
  intros [H1 H2 H3 H4 H5 H6] Hfs Hkv Hkv'. split; cbn [w_files s_kv].
  - intros p v Hp. destruct (decide (p = kv_path base s k)) as [->|Hne]; [by left; eexists _, _|].
    rewrite Hfs in Hp by done. by eapply H1.
  - intros s' k'. destruct (decide ((s', k') = (s, k))) as [E|Hne]; [by simplify_eq|].
    rewrite Hkv' by done. rewrite <- H2. apply Hfs. intros E. by apply kv_path_inj in E as [-> ->].
  - intros s' ns k'. eapply log_sim_same; [|apply H3]. intros m. apply Hfs.
    intros E. symmetry in E. by apply kv_log_ne in E.
  - apply H4.
  - intros q' s' Hok. rewrite proc_at_same. by apply H5.
  - intros q' s' Hno. rewrite proc_at_same. by apply H6.
Qed.

Lemma step_kv_put q s k v st w : sim base cl N st w → mirrored q (Kv_put s k v) st w.
Proof using Type*.
  intros Hsim. unfold mirrored. cbn [exec spec weight noted]. rewrite Z.add_0_r.
  unfold kv_put. destruct (kv_tmp_free q s k st w Hsim). rewrite write_file_Ok by done.
  split; [done|]. eapply (sim_step_kv _ _ _ s k); [done|..].
  - intros p Hp. by rewrite lookup_insert_ne.
  - by rewrite !lookup_insert_eq.
  - intros x Hx. by rewrite lookup_insert_ne.
Qed.

Lemma step_kv_del q s k st w : sim base cl N st w → mirrored q (Kv_del s k) st w.
Proof using Type*.
  intros Hsim. unfold mirrored. cbn [exec spec weight noted]. rewrite Z.add_0_r.
  split; [done|]. eapply (sim_step_kv _ _ _ s k); [done|..]; unfold kv_del.
  - intros p Hp. by rewrite lookup_delete_ne.
  - by rewrite !lookup_delete_eq.
  - intros x Hx. by rewrite lookup_delete_ne.
Qed.

Lemma step_clear q s st w : sim base cl N st w → mirrored q (Clear s) st w.
Proof using Type*.
  intros Hsim. unfold mirrored. cbn [weight]. rewrite Z.add_0_r.
  destruct (decide (s = [])) as [->|Hs].
  { cbn [exec spec clear noted]. split; [done|]. exact (sim_same_files _ _ _ _ _ q Hsim). }
  assert (noted q (Clear s) cl = mkCursors (cu_popped cl ∖ {[ (q, s) ]})
    ((filter (λ e, e.2 = s) (cu_popped cl) ∪ cu_stale cl) ∖ {[ (q, s) ]})) as -> by by destruct s.
  assert (clear base s (proc_at w q) (w_files w) = (remove_all (path_append base (hex s)) (w_files w),
    mkProc (pid (proc_at w q)) (delete s (queue_cursors_ (proc_at w q)))
      (delete s (queue_highs_ (proc_at w q))))) as Hc by by destruct s.
  cbn [exec]. rewrite Hc. split; [by destruct s|]. cbn [fst]. clear Hc.
  destruct Hsim as [H1 H2 H3 H4 H5 H6].
  assert (∀ s' x r, (∀ t, hex t ≠ x) → path_append base (hex s) `prefix_of` scope_dir base s' ++ x :: r ↔ s = s')
    as Hpre by (intros; by apply scope_dir_prefix).
  split; cbn [w_files].
  - intros p v. rewrite remove_all_lookup. case_decide; [done|]. apply H1.
  - intros s' k. rewrite kv_clear, remove_all_lookup, kv_path_eq by done.
    rewrite <- kv_path_eq, H2. specialize (Hpre s' (bs "kv_" ++ hex k) [] (kv_name_not_hex k)).
    rewrite kv_path_eq. repeat case_decide; naive_solver.
  - intros s' ns k. rewrite log_of_clear by done.
    assert (∀ m, remove_all (path_append base (hex s)) (w_files w) !! (log_dir base s' ns k ++ [m]) =
      if decide (s' = s) then None else w_files w !! (log_dir base s' ns k ++ [m])) as Hl.
    { intros m. rewrite remove_all_lookup, log_dir_eq, <- app_assoc.
      specialize (Hpre s' (bs "log_" ++ hex ns ++ bs "__" ++ hex k) [m] (log_name_not_hex _)).
      repeat case_decide; naive_solver. }
    case_decide; [apply empty_log_sim; intros m; by rewrite Hl|].
    eapply log_sim_same; [|apply H3]. done.
  - intros s' ns k. rewrite log_of_clear by done. specialize (H4 s' ns k).
    pose proof (H4' := H3 s ns k). case_decide; cbn; [|done].
    pose proof (sim_next _ _ _ _ (H3 s' ns k)). lia.
  - intros q' s' Hok. rewrite log_of_clear by done. rewrite proc_at_update. unfold queue_ok in Hok. cbn [cu_stale] in Hok.
    assert (∀ p, queue_cursors_ p !! s = None → queue_highs_ p !! s = None → proc_sim s 1 [] p) as Hnew.
    { intros p Hc Hh. split; unfold cursor_of; rewrite ?Hc; [cbn; lia|set_solver|]. intros h Hh'. by rewrite Hh in Hh'. }
    destruct (decide (s' = s)) as [->|Hne].
    + cbn [fst snd]. case_decide as E; [apply Hnew; cbn; by rewrite lookup_delete_eq|].
      assert ((q', s) ∉ cu_popped cl) as Hno by (intros Hp; apply Hok; set_solver).
      destruct (H6 _ _ Hno). by apply Hnew.
    + assert (queue_ok cl q' s') as Hok' by (unfold queue_ok; set_solver).
      pose proof (H5 q' s' Hok') as Hps. case_decide; [subst q'|done].
      destruct Hps as [P1 P2 P3]. unfold cursor_of in *.
      split; unfold cursor_of; cbn [queue_cursors_ queue_highs_]; by rewrite lookup_delete_ne.
  - intros q' s' Hno. rewrite proc_at_update. cbn [cu_popped] in Hno.
    case_decide as E; [subst q'; cbn; destruct (decide (s' = s)) as [->|Hne]; [by rewrite !lookup_delete_eq|]|].
    + rewrite !lookup_delete_ne by done. apply H6. set_solver.
    + apply H6. set_solver.
Qed.

Lemma step_read q o st w :
  sim base cl N st w →
  match o with Kv_get _ _ | Scan _ _ _ _ _ => True | _ => False end → mirrored q o st w.
Proof using Type*.
  intros Hsim Ho. unfold mirrored. destruct o as [s k| | | |s ns k a lim| | |]; try done;
    cbn [exec spec weight noted]; rewrite Z.add_0_r; (split; [|done]); cbn [snd fst].
  - unfold kv_get, exists_, read_file. rewrite (sim_kv _ _ _ _ _ Hsim).
    destruct (s_kv st !! (s, k)) as [v|]; [|by rewrite bool_decide_false by by intros [? ?]].
    by rewrite bool_decide_true by by eexists.
  - by rewrite (scan_sim _ _ _ _ _ _ _ _ _ (sim_log _ _ _ _ _ Hsim s ns k)).
Qed.

Lemma step_mirrored q o st w :
  sim base cl N st w → op_ok cl q o → N + weight o < 2 ^ 61 → mirrored q o st w.
Proof using Type*.
  intros Hsim Hok HN. destruct o; [by apply step_read|by apply step_kv_put|by apply step_kv_del| | | | |].
  - by apply step_append.
  - by apply step_read.
  - by apply step_push.
  - by apply step_pop.
  - by apply step_clear.
Qed.

End steps.

Lemma run_refines `{D : Disk} `{!Healthy D} base (tr : list (Z * op)) cl N st w :
  sim base cl N st w → trace_ok cl tr → N + total_weight tr < 2 ^ 61 →
  run base tr w = Ok <$> run_spec (snd <$> tr) st.
Proof.
  revert cl N st w. induction tr as [|[q o] tr IH]; intros cl N st w Hsim Hok HN; [done|].
  assert (total_weight ((q, o) :: tr) = weight o + total_weight tr) as Htw by done.
  rewrite Htw in HN. destruct Hok as [Ho Htr]. cbn [run run_spec fmap list_fmap snd].
  assert (0 ≤ weight o ∧ 0 ≤ total_weight tr) as [Hw Hw'].
  { assert (∀ o, 0 ≤ weight o) as Hpos by (intros []; cbn; lia). split; [done|].
    clear -Hpos. unfold total_weight. induction tr as [|[q o] tr IH]; cbn [foldr snd]; [lia|].
    specialize (Hpos o). lia. }
  destruct (step_mirrored base cl N q o st w Hsim Ho) as [Hout Hnext]; [lia|].
  destruct (exec base q o w) as [w' r] eqn:Ew, (spec o st) as [st' r'] eqn:Es. cbn [fst snd] in *.
  subst r. rewrite fmap_cons. f_equal. apply (IH _ _ _ _ Hnext Htr). lia.
Qed.

Lemma empty_sim base : sim base no_cursors 0 empty_store empty_world.
Proof.
  split.
  - intros p v. cbn. by rewrite lookup_empty.
  - intros s k. cbn. by rewrite !lookup_empty.
  - intros s ns k. apply empty_log_sim. intros m. cbn. by rewrite lookup_empty.
  - done.
  - intros q s _. apply proc_sim_new; [done|set_solver].
  - done.
Qed.

(** ** Claiming an id among other workers' *)

(** An id is taken when it is reserved, published, or spent. *)
Definition taken (dir : path) (fs : files) (id : Z) : Prop :=
  is_Some (fs !! (dir ++ [claim_name id])) ∨ is_Some (fs !! (dir ++ [entry_name id])) ∨
  is_Some (fs !! (dir ++ [used_name id])).

(** No temporary of this process is left over. *)
Definition no_leftover (proc : Z) (dir : path) (fs : files) : Prop :=
  ∀ id : Z, fs !! (dir ++ [entry_name id ++ bs ".tmp." ++ to_string proc]) = None.

Lemma exists_path (p : path) fs : exists_ p fs = true ↔ is_Some (fs !! p).
Proof. apply bool_decide_eq_true. Qed.

(** Publishing under a reserved id that no one has published under. *)
Lemma claim_here `{D : Disk} `{!Healthy D} (proc : Z) (dir : path) (id : Z) v fs (n : nat) :
  no_leftover proc dir fs → ¬ taken dir fs id →
  claim_loop proc dir (S n) id v fs =
    (<[dir ++ [used_name id] := []]> (<[dir ++ [entry_name id] := v]> fs), Ok id).
Proof.
  intros Htmp Hfree. unfold taken in Hfree.
  rewrite <- !not_eq_None_Some in Hfree.
  assert (fs !! (dir ++ [claim_name id]) = None) as Hc by (apply dec_stable; tauto).
  assert (fs !! (dir ++ [entry_name id]) = None) as He by (apply dec_stable; tauto).
  assert (fs !! (dir ++ [used_name id]) = None) as Hu by (apply dec_stable; tauto).
  assert (∀ x y : bytes, x ≠ y → dir ++ [x] ≠ dir ++ [y]) as Hne
    by (intros x y Hm E; apply app_inv_head in E; congruence).
  assert (∀ x, entry_name id ++ bs ".tmp." ++ x ≠ claim_name id) as Htc.
  { intros x E. unfold entry_name, claim_name in E. rewrite <- app_assoc in E.
    apply app_inv_head in E. discriminate E. }
  assert (claim_name id ≠ entry_name id) by (symmetry; apply entry_ne_claim).
  assert (claim_name id ≠ used_name id) by (symmetry; apply used_ne_claim).
  cbn [claim_loop]. destruct (path_append_name dir id) as (-> & -> & ->).
  unfold TryClaimFile. rewrite Hc, healthy_create.
  unfold exists_. rewrite !lookup_insert_ne, He, Hu by auto.
  rewrite !bool_decide_false by (by intros [? ?]). cbn [orb].
  rewrite write_file_Ok.
  - erewrite rename_Some; [|rewrite lookup_insert_ne by auto; apply lookup_insert_eq].
    f_equal. f_equal.
    rewrite insert_insert_ne by (apply Hne; auto). rewrite delete_insert_id; [done|].
    rewrite lookup_insert_ne; [done|]. apply Hne. auto.
  - rewrite path_suffix_snoc, lookup_insert_ne; [apply Htmp|].
    apply Hne. intros E. by eapply Htc.
  - rewrite path_suffix_snoc. apply Hne. intros E.
    apply (f_equal length) in E. rewrite !length_app in E. simpl in E. lia.
Qed.

Lemma claim_skips `{D : Disk} `{!Healthy D} (proc : Z) (dir : path) (id : Z) v fs (n : nat) :
  taken dir fs id → claim_loop proc dir (S n) id v fs = claim_loop proc dir n (id + 1) v fs.
Proof.
  intros Ht. cbn [claim_loop]. destruct (path_append_name dir id) as (-> & -> & ->).
  unfold TryClaimFile. destruct (fs !! (dir ++ [claim_name id])) as [w|] eqn:Hc; [done|].
  rewrite healthy_create. unfold exists_.
  assert (∀ x, x ≠ claim_name id → <[dir ++ [claim_name id] := []]> fs !! (dir ++ [x]) = fs !! (dir ++ [x]))
    as Hl by (intros x Hx; apply lookup_insert_ne; intros E; apply app_inv_head in E; congruence).
  rewrite !Hl by (apply entry_ne_claim || apply used_ne_claim).
  unfold taken in Ht. rewrite Hc in Ht.
  replace (_ || _) with true; [by rewrite delete_insert_id|].
  symmetry. apply orb_true_iff. rewrite !bool_decide_eq_true.
  destruct Ht as [[? ?]|?]; [done|done].
Qed.

Instance taken_dec (dir : path) fs (id : Z) : Decision (taken dir fs id).
Proof. unfold taken. apply _. Defined.

Lemma claim_loop_least `{D : Disk} `{!Healthy D} (proc : Z) (dir : path) v fs (n : nat) (from : Z) :
  no_leftover proc dir fs →
  match claim_loop proc dir n from v fs with
  | (fs', Ok id) =>
      from ≤ id < from + Z.of_nat n ∧ ¬ taken dir fs id ∧ (∀ j : Z, from ≤ j < id → taken dir fs j) ∧
      fs' = <[dir ++ [used_name id] := []]> (<[dir ++ [entry_name id] := v]> fs)
  | (fs', Throw e) =>
      (∀ j : Z, from ≤ j < from + Z.of_nat n → taken dir fs j) ∧ fs' = fs ∧
      e = Runtime_error ("vgi storage: could not claim a log id under " +:+ path_string dir)
  end.
Proof.
  intros Htmp. revert from. induction n as [|n IH]; intros from.
  { cbn. split; [lia|done]. }
  destruct (decide (taken dir fs from)) as [Ht|Hf].
  - rewrite claim_skips by done. specialize (IH (from + 1)).
    assert (∀ j b, from + 1 ≤ b → (∀ i : Z, from + 1 ≤ i < b → taken dir fs i) → from ≤ j < b → taken dir fs j) as Hext.
    { intros j b Hb Hall Hj. destruct (decide (j = from)) as [->|]; [done|]. apply Hall. lia. }
    destruct (claim_loop proc dir n (from + 1) v fs) as [fs' [id|e]].
    + destruct IH as (Hr & Hnt & Hall & Hfs). split_and!; [lia..|done| |done].
      intros j Hj. apply (Hext j id); [lia|done|done].
    + destruct IH as (Hall & Hfs & He). split; [|done]. intros j Hj.
      apply (Hext j (from + 1 + Z.of_nat n)); [lia|done|lia].
  - rewrite claim_here by done. split_and!; [lia..|done|lia|done].
Qed.

(** ** Properties *)

(** C1. On a disk that works, any number of worker processes calling the
    storage, one operation at a time, get from the files the answers the
    abstract store gives: values by key, logs with increasing ids replayed in
    order, queues first in first out across all processes, and a clear that
    discards one scope.  Two conditions: no process pops a queue that it popped before
    another process cleared the scope, unless it cleared the scope itself since
    ([stale_cursor_after_clear] shows what becomes of one that does); and fewer than
    [2^61] items are appended and pushed in all. *)
Theorem storage_refines `{D : Disk} `{!Healthy D} base (tr : list (Z * op)) :
  trace_ok no_cursors tr → total_weight tr < 2 ^ 61 →
  run base tr empty_world = Ok <$> run_spec (snd <$> tr) empty_store.
Proof. intros Hok HN. eapply run_refines; [apply empty_sim|done|lia]. Qed.

(**  Among the reservations, entries and tombstones of other workers,
    [claim_from] publishes under the least id at or above [from] that none of
    them holds, touching no other file, and gives up -- having changed nothing
    -- exactly when [kMaxClaimAttempts] ids in a row are taken. *)
Theorem claim_from_least `{D : Disk} `{!Healthy D} (proc : Z) (dir : path) (from : Z) v fs :
  no_leftover proc dir fs →
  match claim_from proc dir from v fs with
  | (fs', Ok id) =>
      from ≤ id < from + kMaxClaimAttempts ∧ ¬ taken dir fs id ∧
      (∀ j : Z, from ≤ j < id → taken dir fs j) ∧
      fs' = <[dir ++ [used_name id] := []]> (<[dir ++ [entry_name id] := v]> fs)
  | (fs', Throw e) =>
      (∀ j : Z, from ≤ j < from + kMaxClaimAttempts → taken dir fs j) ∧ fs' = fs ∧
      e = Runtime_error ("vgi storage: could not claim a log id under " +:+ path_string dir)
  end.
Proof.
  intros Htmp. unfold claim_from. assert (0 ≤ kMaxClaimAttempts) as Hm by done.
  rewrite <- (Z2Nat.id kMaxClaimAttempts Hm). rewrite Nat2Z.id.
  generalize (Z.to_nat kMaxClaimAttempts). intros n. by apply claim_loop_least.
Qed.

(**  A write that fails -- the temporary cannot be written, or not be moved
    into place -- raises, and leaves every value as it was. *)
Theorem failed_put_keeps_values `{D : Disk} base (proc : Z) s k v fs fs' (e : exn) :
  (∀ p v, fs !! p = Some v → known_path base p) →
  kv_put base proc s k v fs = (fs', Throw e) →
  ∀ s' k', kv_get base s' k' fs' = kv_get base s' k' fs.
Proof.
  intros Hk Hput s' k'. set (tmp := path_suffix (kv_path base s k) (bs ".tmp." ++ to_string proc)).
  assert (kv_path base s' k' ≠ tmp) as Hne.
  { intros E. unfold tmp in E. rewrite !kv_path_eq, path_suffix_snoc in E.
    apply scope_dir_inj in E as (_ & E & _); [|apply kv_name_not_hex|].
    - rewrite <- app_assoc in E. apply app_inv_head in E.
      assert (zb 46 ∈ hex k') as Hin by (rewrite E; set_solver).
      apply hex_alphabet in Hin. revert Hin. apply (bool_decide_unpack _). by vm_compute.
    - intros t. rewrite <- app_assoc. apply hex_not_name, (bool_decide_unpack _). by vm_compute. }
  enough (fs' !! kv_path base s' k' = fs !! kv_path base s' k') as E
    by (unfold kv_get, exists_, read_file; by rewrite E).
  unfold kv_put, write_file_atomically in Hput. fold tmp in Hput.
  destruct (disk_write tmp v); cbn [negb] in Hput.
  - destruct (rename _ _ _); simplify_eq. by rewrite lookup_delete_ne, lookup_insert_ne.
  - simplify_eq. by rewrite lookup_delete_ne.
Qed.

(** The disk that refuses nothing. *)
Definition good_disk : Disk := {| disk_write _ _ := true; disk_rename _ _ := true; disk_create _ := true |}.
Definition demo_base : path := [bs "tmp"; bs "vgi-cpp-worker-1000"].

(**  [clear] forgets the queue cursor of the process that calls it only.
    After process 1 clears a scope process 2 has popped from, an item pushed
    there is invisible to process 2, while process 3 gets it: the trace breaks the
    condition of [storage_refines] on pops, and nothing else. *)
Theorem stale_cursor_after_clear :
  run (D := good_disk) demo_base
    [(1, Queue_push (bs "q") [bs "a"]); (2, Queue_pop (bs "q")); (1, Clear (bs "q"));
     (1, Queue_push (bs "q") [bs "b"]); (2, Queue_pop (bs "q")); (3, Queue_pop (bs "q"))] empty_world =
  Ok <$> [Done; Value (Some (bs "a")); Done; Done; Value None; Value (Some (bs "b"))].
Proof. by vm_compute. Qed.

(** ** Witnesses *)

#[local] Instance good_disk_healthy : Healthy good_disk.
Proof. by split. Qed.
(** A full disk: no file can be written. *)
Definition full_disk : Disk := {| disk_write _ _ := false; disk_rename _ _ := true; disk_create _ := true |}.

(** Three processes share a queue, a log and a value. *)
Definition demo_trace : list (Z * op) :=
  [(1, Queue_push (bs "q") [bs "a"; bs "b"; bs "c"]); (2, Queue_pop (bs "q")); (3, Queue_pop (bs "q"));
   (1, Queue_push (bs "q") [bs "d"]); (2, Queue_pop (bs "q")); (3, Queue_pop (bs "q"));
   (1, Queue_pop (bs "q")); (1, Append (bs "s") (bs "rows") [] (bs "x"));
   (2, Append (bs "s") (bs "rows") [] (bs "y")); (3, Scan (bs "s") (bs "rows") [] 0 10);
   (1, Kv_put (bs "s") (bs "k") (bs "v")); (2, Kv_get (bs "s") (bs "k")); (2, Clear (bs "s"));
   (3, Kv_get (bs "s") (bs "k")); (2, Clear (bs "q")); (3, Queue_push (bs "q") [bs "e"; bs "f"]);
   (4, Queue_pop (bs "q")); (2, Queue_pop (bs "q"))].

Example storage_refines_witness :
  run (D := good_disk) demo_base demo_trace empty_world =
  Ok <$> [Done; Value (Some (bs "a")); Value (Some (bs "b")); Done; Value (Some (bs "c"));
          Value (Some (bs "d")); Value None; Id 1; Id 2; Entries [(1, bs "x"); (2, bs "y")]; Done;
          Value (Some (bs "v")); Done; Value None; Done; Done; Value (Some (bs "e")); Value (Some (bs "f"))].
Proof.
  rewrite (storage_refines (D := good_disk) demo_base demo_trace); [by vm_compute| |by vm_compute].
  apply (bool_decide_unpack _). vm_compute. exact I.
Defined.

Definition demo_dir : path := log_dir demo_base (bs "s") (bs "rows") [].
(** Id 1 is published, id 2 reserved by a worker that is still writing. *)
Definition demo_racing : files :=
  <[demo_dir ++ [claim_name 2] := []]> {[ demo_dir ++ [entry_name 1] := bs "x" ]}.

Lemma demo_racing_no_leftover : no_leftover 7 demo_dir demo_racing.
Proof.
  intros id. destruct (demo_racing !! _) eqn:El; [exfalso|done].
  unfold demo_racing in El. apply lookup_insert_Some in El as [[El _]|[_ El]].
  - apply app_inv_head, singleton_eq, (f_equal last) in El.
    unfold entry_name in El. rewrite !last_app in El. discriminate El.
  - apply lookup_singleton_Some in El as [El _]. apply app_inv_head, singleton_eq, (f_equal last) in El.
    unfold entry_name in El. rewrite !last_app in El. discriminate El.
Qed.

Example claim_from_least_witness :
  ∃ fs', claim_from (D := good_disk) 7 demo_dir 1 (bs "y") demo_racing = (fs', Ok 3) ∧
    ¬ taken demo_dir demo_racing 3 ∧ (∀ j : Z, 1 ≤ j < 3 → taken demo_dir demo_racing j).
Proof.
  pose proof (claim_from_least (D := good_disk) 7 demo_dir 1 (bs "y") demo_racing
    demo_racing_no_leftover) as Hc.
  assert ((claim_from (D := good_disk) 7 demo_dir 1 (bs "y") demo_racing).2 = Ok 3) as E
    by (vm_compute; reflexivity).
  destruct (claim_from (D := good_disk) 7 demo_dir 1 (bs "y") demo_racing) as [fs' r].
  cbn [snd] in E. subst r. exists fs'. split; [exact eq_refl|].
  destruct Hc as (_ & Hn & Hall & _). split; [exact Hn|exact Hall].
Defined.

Definition demo_values : files := {[ kv_path demo_base (bs "s") (bs "k") := bs "good" ]}.

Example failed_put_keeps_values_witness :
  kv_get demo_base (bs "s") (bs "k")
    (kv_put (D := full_disk) demo_base 7 (bs "s") (bs "k") (bs "lost") demo_values).1 = Some (bs "good").
Proof.
  rewrite (failed_put_keeps_values (D := full_disk) demo_base 7 (bs "s") (bs "k") (bs "lost") demo_values
    _ (Runtime_error ("vgi storage: cannot write " +:+ path_string
        (path_suffix (kv_path demo_base (bs "s") (bs "k")) (bs ".tmp." ++ to_string 7))))).
  - by vm_compute.
  - intros p v Hp. unfold demo_values in Hp. apply lookup_singleton_Some in Hp as [<- _]. left. by eexists _, _.
  - done.
Defined.

End StorageSpec.
