(* ===== verification/StorageConc.v ===== *)
(** * The storage under concurrency ([src/storage.cpp])

    [claim_from] and [queue_pop] cut at their system calls.  A log directory is
    its reservations, entries and tombstones by id (the names of [Storage] are
    injective in the id); a process is in the middle of an append or of a pop;
    a step lets one process make one call.  Where an append starts looking is
    arbitrary: the directory walk it comes from is not atomic.  The temporary
    a value is written to and the name it is claimed under are a process's own,
    so that writing the one and reading and removing the other are no steps of
    their own. *)

From S2P Require Import Prelude.

Module StorageConc.

(** The files of one log directory: [.claim], [.entry] and [.used]. *)
Record dir := mkDir {
  claims : gset Z;
  entries : gmap Z bytes;
  used : gset Z;
}.

Definition empty_dir : dir := mkDir ∅ ∅ ∅.

(** [highest_id]: any name counts. *)
Definition highest (d : dir) : Z :=
  foldr Z.max 0 (elements (claims d) ++ elements (dom (entries d)) ++ elements (used d)).

(** Where a process is in its code. *)
Inductive pc : Type :=
| A_claim (id : Z) (v : bytes) (attempts : nat)
| A_entry (id : Z) (v : bytes) (attempts : nat)
| A_used (id : Z) (v : bytes) (attempts : nat)
| A_unclaim (id : Z) (v : bytes) (attempts : nat)
| A_publish (id : Z) (v : bytes)
| A_finalize (id : Z) (v : bytes)
| A_done (id : Z) (v : bytes)
| A_failed
| P_idle (cursor : Z) (high : option Z) (answer : option (option (Z * bytes)))
| P_probe (cursor high id : Z) (pending : option Z)
| P_check (cursor high id : Z) (pending : option Z)
| P_reread (cursor high : Z).

Inductive event : Type :=
| Published (id : Z) (v : bytes)
| Popped (id : Z) (v : bytes).

(** One call of a process; [ok] is whether the disk lets it. *)
Definition tstep (ok : bool) (t : pc) (d : dir) : option (pc * dir * list event) :=
  match t with
  | A_claim id v O => Some (A_failed, d, [])
  | A_claim id v (S n) =>
      if bool_decide (id ∈ claims d) then Some (A_claim (id + 1) v n, d, [])
      else if ok then Some (A_entry id v n, mkDir ({[id]} ∪ claims d) (entries d) (used d), [])
      else Some (A_failed, d, [])
  | A_entry id v n =>
      if bool_decide (is_Some (entries d !! id)) then Some (A_unclaim id v n, d, [])
      else Some (A_used id v n, d, [])
  | A_used id v n =>
      if bool_decide (id ∈ used d) then Some (A_unclaim id v n, d, [])
      else Some (A_publish id v, d, [])
  | A_unclaim id v n =>
      Some (A_claim (id + 1) v n, mkDir (claims d ∖ {[id]}) (entries d) (used d), [])
  | A_publish id v =>
      if ok then Some (A_finalize id v, mkDir (claims d) (<[id := v]> (entries d)) (used d), [Published id v])
      else Some (A_failed, d, [])
  | A_finalize id v =>
      if ok && bool_decide (id ∈ claims d)
      then Some (A_done id v, mkDir (claims d ∖ {[id]}) (entries d) ({[id]} ∪ used d), [])
      else Some (A_failed, d, [])
  | A_done _ _ | A_failed => None
  | P_idle c high _ =>
      Some (P_probe c (default (highest d) high) (c + 1) None, d, [])
  | P_probe c high id pending =>
      if high <? id then
        match pending with
        | Some x => Some (P_idle (x - 1) (Some high) (Some None), d, [])
        | None => Some (P_reread c high, d, [])
        end
      else
        match entries d !! id with
        | Some v =>
            if ok then
              Some (P_idle (match pending with Some x => x - 1 | None => id end) (Some high)
                      (Some (Some (id, v))),
                    mkDir (claims d) (delete id (entries d)) (used d), [Popped id v])
            else Some (P_check c high id pending, d, [])
        | None => Some (P_check c high id pending, d, [])
        end
  | P_check c high id pending =>
      let pending :=
        if bool_decide (id ∈ claims d)
        then match pending with Some x => Some x | None => Some id end
        else pending in
      Some (P_probe c high (id + 1) pending, d, [])
  | P_reread c high =>
      let now := highest d in
      if now <=? high then Some (P_idle c (Some now) (Some None), d, [])
      else Some (P_probe c now (c + 1) None, d, [])
  end.

(** ** All processes *)

Record state := mkState {
  threads : gmap nat pc;
  disk : dir;
  trace : list event;
}.

Definition initial : state := mkState ∅ empty_dir [].

(** An append about to claim, or a process that has popped nothing. *)
Definition fresh (t : pc) : Prop :=
  (∃ from v n, 1 ≤ from ∧ t = A_claim from v n) ∨ t = P_idle 0 None None.

Inductive step : state → state → Prop :=
| Step_start i t s : threads s !! i = None → fresh t →
    step s (mkState (<[i := t]> (threads s)) (disk s) (trace s))
| Step_run i ok t t' d' evs s : threads s !! i = Some t → tstep ok t (disk s) = Some (t', d', evs) →
    step s (mkState (<[i := t']> (threads s)) d' (trace s ++ evs)).

Definition reachable (s : state) : Prop := rtc step initial s.

Definition published (tr : list event) : list (Z * bytes) :=
  omap (λ e, match e with Published id v => Some (id, v) | _ => None end) tr.
Definition popped (tr : list event) : list (Z * bytes) :=
  omap (λ e, match e with Popped id v => Some (id, v) | _ => None end) tr.

(** ** The invariant *)

(** The ids a process has reserved, and those it may still publish under. *)
Definition before_publish (t : pc) : option Z :=
  match t with
  | A_entry id _ _ | A_used id _ _ | A_unclaim id _ _ | A_publish id _ => Some id
  | _ => None
  end.
Definition holds (t : pc) : option Z :=
  match t with A_finalize id _ => Some id | _ => before_publish t end.

(** What a process knows. *)
Definition knows (t : pc) (d : dir) (tr : list event) : Prop :=
  match t with
  | A_publish id _ => id ∉ used d
  | A_finalize id v | A_done id v => (id, v) ∈ published tr
  | P_idle _ _ (Some (Some (id, v))) => (id, v) ∈ popped tr
  | _ => True
  end.

Record inv (s : state) : Prop := {
  inv_holds i t id : threads s !! i = Some t → holds t = Some id → id ∈ claims (disk s);
  inv_excl i j t u id : threads s !! i = Some t → threads s !! j = Some u →
    holds t = Some id → holds u = Some id → i = j;
  inv_knows i t : threads s !! i = Some t → knows t (disk s) (trace s);
  inv_spent id v : (id, v) ∈ published (trace s) →
    id ∈ used (disk s) ∨
    (id ∈ claims (disk s) ∧ ∀ i t, threads s !! i = Some t → before_publish t ≠ Some id);
  inv_pub_once : NoDup (published (trace s)).*1;
  inv_pop_once : NoDup (popped (trace s)).*1;
  inv_entries id v : entries (disk s) !! id = Some v ↔
    (id, v) ∈ published (trace s) ∧ id ∉ (popped (trace s)).*1;
  inv_popped id v : (id, v) ∈ popped (trace s) → (id, v) ∈ published (trace s);
}.

Lemma published_app a b : published (a ++ b) = published a ++ published b.
Proof. apply omap_app. Qed.
Lemma popped_app a b : popped (a ++ b) = popped a ++ popped b.
Proof. apply omap_app. Qed.

Lemma fresh_holds t : fresh t → holds t = None ∧ before_publish t = None ∧ ∀ d tr, knows t d tr.
Proof. intros [(from & v & n & _ & ->)| ->]; done. Qed.

Lemma inv_initial : inv initial.
Proof.
  split; cbn; try (intros *; rewrite lookup_empty; done).
  - set_solver.
  - constructor.
  - constructor.
  - intros id v. rewrite lookup_empty. set_solver.
  - set_solver.
Qed.

Lemma before_publish_holds t id : before_publish t = Some id → holds t = Some id.
Proof. by destruct t. Qed.

(** A process moves on without touching the directory, holding no id it did not
    hold before. *)
Lemma inv_move s i t' :
  inv s →
  (∀ id, holds t' = Some id → ∃ t, threads s !! i = Some t ∧ holds t = Some id) →
  (∀ id, before_publish t' = Some id → ∃ t, threads s !! i = Some t ∧ before_publish t = Some id) →
  knows t' (disk s) (trace s) →
  inv (mkState (<[i := t']> (threads s)) (disk s) (trace s)).
Proof.
  intros [H1 H2 H3 H4 H5 H6 H7 H8] Hh Hb Hk.
  assert (∀ j t id, <[i := t']> (threads s) !! j = Some t → holds t = Some id →
    ∃ u, threads s !! j = Some u ∧ holds u = Some id) as Hold.
  { intros j t id [[<- <-]|[_ Hj]]%lookup_insert_Some Ht; [by apply Hh|by eexists]. }
  split; cbn; try done.
  - intros j t id Hj Ht. destruct (Hold j t id Hj Ht) as (u & Hu & Hhu). by eapply H1.
  - intros j k t u id Hj Hk' Ht Hu. destruct (Hold j t id Hj Ht) as (t0 & Hj0 & Ht0).
    destruct (Hold k u id Hk' Hu) as (u0 & Hk0 & Hu0). by eapply H2.
  - intros j t [[<- <-]|[_ Hj]]%lookup_insert_Some; [done|by eapply H3].
  - intros id v Hin. destruct (H4 id v Hin) as [|[Hc Hno]]; [by left|right]. split; [done|].
    intros j t [[<- <-]|[_ Hj]]%lookup_insert_Some Ht; [|by eapply Hno].
    destruct (Hb id Ht) as (u & Hu & Hbu). by eapply Hno.
Qed.

(** Creating a reservation that is not there. *)
Lemma inv_claim s i t id v n :
  inv s → threads s !! i = Some t → holds t = None → id ∉ claims (disk s) →
  inv (mkState (<[i := A_entry id v n]> (threads s))
    (mkDir ({[id]} ∪ claims (disk s)) (entries (disk s)) (used (disk s))) (trace s)).
Proof.
  intros [H1 H2 H3 H4 H5 H6 H7 H8] Hi Hno Hid. split; cbn; try done.
  - intros j u x [[<- <-]|[_ Hj]]%lookup_insert_Some Hu; [cbn in Hu; set_solver|].
    apply elem_of_union_r. by eapply H1.
  - intros j k t1 t2 x [[<- <-]|[Hj' Hj]]%lookup_insert_Some [[<- <-]|[Hk' Hk]]%lookup_insert_Some Ht Hu;
      [done| | |by eapply H2]; cbn in Ht, Hu; simplify_eq; exfalso; apply Hid; by eapply H1.
  - intros j u [[<- <-]|[_ Hj]]%lookup_insert_Some; [done|].
    specialize (H3 j u Hj). by destruct u.
  - intros x w Hin. destruct (H4 x w Hin) as [|[Hc Hn]]; [by left|right]. split; [set_solver|].
    intros j u [[<- <-]|[_ Hj]]%lookup_insert_Some; [cbn|by eapply Hn]. congruence.
Qed.

(** Removing a reservation one holds, under which nothing was published. *)
Lemma inv_unclaim s i id v n :
  inv s → threads s !! i = Some (A_unclaim id v n) →
  inv (mkState (<[i := A_claim (id + 1) v n]> (threads s))
    (mkDir (claims (disk s) ∖ {[id]}) (entries (disk s)) (used (disk s))) (trace s)).
Proof.
  intros [H1 H2 H3 H4 H5 H6 H7 H8] Hi. split; cbn; try done.
  - intros j u x [[<- <-]|[Hj' Hj]]%lookup_insert_Some Hu; [done|].
    apply elem_of_difference. split; [by eapply H1|]. rewrite elem_of_singleton. intros ->.
    apply Hj'. by eapply (H2 i j).
  - intros j k t1 t2 x [[<- <-]|[Hj' Hj]]%lookup_insert_Some [[<- <-]|[Hk' Hk]]%lookup_insert_Some Ht Hu;
      [done|done|done|by eapply H2].
  - intros j u [[<- <-]|[_ Hj]]%lookup_insert_Some; [done|].
    specialize (H3 j u Hj). by destruct u.
  - intros x w Hin. destruct (H4 x w Hin) as [|[Hc Hn]]; [by left|right]. split.
    + apply elem_of_difference. split; [done|]. rewrite elem_of_singleton. intros ->. by apply (Hn i _ Hi).
    + intros j u [[<- <-]|[_ Hj]]%lookup_insert_Some; [done|by eapply Hn].
Qed.

(** Publishing under an id one holds and that is not spent: it is new. *)
Lemma inv_publish s i id v :
  inv s → threads s !! i = Some (A_publish id v) →
  inv (mkState (<[i := A_finalize id v]> (threads s))
    (mkDir (claims (disk s)) (<[id := v]> (entries (disk s))) (used (disk s)))
    (trace s ++ [Published id v])).
Proof.
  intros [H1 H2 H3 H4 H5 H6 H7 H8] Hi.
  assert (id ∉ (published (trace s)).*1) as Hnew.
  { intros Hin. apply list_elem_of_fmap in Hin as ([x w] & -> & Hin). cbn in *.
    destruct (H4 _ _ Hin) as [Hu|[_ Hn]]; [by apply (H3 i _ Hi)|by apply (Hn i _ Hi)]. }
  assert (id ∉ (popped (trace s)).*1) as Hnopop.
  { intros Hin. apply Hnew. apply list_elem_of_fmap in Hin as ([x w] & -> & Hin).
    apply list_elem_of_fmap. exists (x, w). by split; [|apply H8]. }
  split; cbn [threads disk trace claims entries used]; rewrite ?published_app, ?popped_app; cbn [published popped omap list_omap];
    rewrite ?app_nil_r; try done.
  - intros j u x [[<- <-]|[_ Hj]]%lookup_insert_Some Hu; [|by eapply H1].
    eapply H1; [exact Hi|done].
  - intros j k t1 t2 x [[<- <-]|[Hj' Hj]]%lookup_insert_Some [[<- <-]|[Hk' Hk]]%lookup_insert_Some Ht Hu;
      [done|by eapply (H2 i k _ _ x Hi)|by eapply (H2 j i _ _ x Hj)|by eapply H2].
  - intros j u [[<- <-]|[_ Hj]]%lookup_insert_Some.
    + cbn. rewrite published_app. set_solver.
    + specialize (H3 j u Hj). destruct u as [| | | | | | | |? ? [[[]|]|]| | |]; cbn in *;
        rewrite ?published_app, ?popped_app; set_solver.
  - intros x w [Hin|Hin]%elem_of_app.
    + destruct (H4 x w Hin) as [|[Hc Hn]]; [by left|right]. split; [done|].
      intros j u [[<- <-]|[_ Hj]]%lookup_insert_Some; [done|by eapply Hn].
    + apply list_elem_of_singleton in Hin. simplify_eq. right. split; [by eapply H1|].
      intros j u [[<- <-]|[Hj' Hj]]%lookup_insert_Some Hu; [done|].
      apply Hj'. eapply (H2 i j); [done|done|done|by apply before_publish_holds].
  - rewrite fmap_app, NoDup_app. cbn. split_and!; [done|set_solver|repeat constructor; set_solver].
  - intros x w. rewrite lookup_insert_Some, elem_of_app, list_elem_of_singleton, H7.
    split; [intros [[-> ->]|[? [? ?]]]; tauto|].
    intros [[Hin|[= -> ->]] Hnp]; [right|by left]. split; [|done].
    intros ->. apply Hnew, list_elem_of_fmap. by exists (x, w).
  - intros x w Hin. apply elem_of_app. left. by apply H8.
Qed.

(** The tombstone takes the place of the reservation. *)
Lemma inv_finalize s i id v :
  inv s → threads s !! i = Some (A_finalize id v) →
  inv (mkState (<[i := A_done id v]> (threads s))
    (mkDir (claims (disk s) ∖ {[id]}) (entries (disk s)) ({[id]} ∪ used (disk s))) (trace s)).
Proof.
  intros [H1 H2 H3 H4 H5 H6 H7 H8] Hi. split; cbn; try done.
  - intros j u x [[<- <-]|[Hj' Hj]]%lookup_insert_Some Hu; [done|].
    apply elem_of_difference. split; [by eapply H1|]. rewrite elem_of_singleton. intros ->.
    apply Hj'. by eapply (H2 i j).
  - intros j k t1 t2 x [[<- <-]|[Hj' Hj]]%lookup_insert_Some [[<- <-]|[Hk' Hk]]%lookup_insert_Some Ht Hu;
      [done|done|done|by eapply H2].
  - intros j u [[<- <-]|[Hj' Hj]]%lookup_insert_Some; [by apply (H3 i _ Hi)|].
    pose proof (H3 j u Hj) as Hk. destruct u as [| | | |x w| | | | | | |]; try done. cbn in *.
    rewrite elem_of_union, elem_of_singleton. intros [->|?]; [|done].
    apply Hj'. by eapply (H2 i j).
  - intros x w Hin. destruct (decide (x = id)) as [->|]; [left; set_solver|].
    destruct (H4 x w Hin) as [|[Hc Hn]]; [left; set_solver|right]. split; [set_solver|].
    intros j u [[<- <-]|[_ Hj]]%lookup_insert_Some; [done|by eapply Hn].
Qed.

(** Taking an entry. *)
Lemma inv_pop s i t id v c h :
  inv s → threads s !! i = Some t → holds t = None → entries (disk s) !! id = Some v →
  inv (mkState (<[i := P_idle c h (Some (Some (id, v)))]> (threads s))
    (mkDir (claims (disk s)) (delete id (entries (disk s))) (used (disk s)))
    (trace s ++ [Popped id v])).
Proof.
  intros [H1 H2 H3 H4 H5 H6 H7 H8] Hi Hno He. apply H7 in He as [Hpub Hnp].
  split; cbn [threads disk trace claims entries used]; rewrite ?published_app, ?popped_app; cbn [published popped omap list_omap];
    rewrite ?app_nil_r; try done.
  - intros j u x [[<- <-]|[_ Hj]]%lookup_insert_Some Hu; [done|by eapply H1].
  - intros j k t1 t2 x [[<- <-]|[Hj' Hj]]%lookup_insert_Some [[<- <-]|[Hk' Hk]]%lookup_insert_Some Ht Hu;
      [done|done|done|by eapply H2].
  - intros j u [[<- <-]|[_ Hj]]%lookup_insert_Some.
    + cbn. rewrite popped_app. set_solver.
    + specialize (H3 j u Hj). destruct u as [| | | | | | | |? ? [[[]|]|]| | |]; cbn in *;
        rewrite ?published_app, ?popped_app; set_solver.
  - intros x w Hin. destruct (H4 x w Hin) as [|[Hc Hn]]; [by left|right]. split; [done|].
    intros j u [[<- <-]|[_ Hj]]%lookup_insert_Some; [done|by eapply Hn].
  - rewrite fmap_app, NoDup_app. cbn. split_and!; [done|set_solver|repeat constructor; set_solver].
  - intros x w. rewrite lookup_delete_Some, H7, fmap_app, elem_of_app. cbn.
    rewrite list_elem_of_singleton. naive_solver.
  - intros x w [Hin|Hin]%elem_of_app; [by apply H8|]. apply list_elem_of_singleton in Hin. by simplify_eq.
Qed.

Lemma mkState_eta s : mkState (threads s) (disk s) (trace s) = s.
Proof. by destruct s. Qed.

Lemma dir_eta d : mkDir (claims d) (entries d) (used d) = d.
Proof. by destruct d. Qed.

(** A step of a process that leaves the directory alone. *)
Lemma inv_quiet s i t t' :
  inv s → threads s !! i = Some t →
  (holds t' = None ∨ (holds t' = holds t ∧ before_publish t' = before_publish t)) →
  knows t' (disk s) (trace s) →
  inv (mkState (<[i := t']> (threads s)) (disk s) (trace s ++ [])).
Proof.
  intros Hinv Hi Hh Hk. rewrite app_nil_r. apply inv_move; [done| | |done].
  - intros id Hid. exists t. split; [done|]. destruct Hh as [Hh|[Hh _]]; congruence.
  - intros id Hid. exists t. split; [done|]. destruct Hh as [Hh|[_ Hh]]; [|congruence].
    apply before_publish_holds in Hid. congruence.
Qed.

Lemma inv_run s i ok t t' d' evs :
  inv s → threads s !! i = Some t → tstep ok t (disk s) = Some (t', d', evs) →
  inv (mkState (<[i := t']> (threads s)) d' (trace s ++ evs)).
Proof.
  intros Hinv Hi Ht. destruct t as [id v [|n]|id v n|id v n|id v n|id v|id v| | |c h a|c h id p|c h id p|c h];
    cbn in Ht; try done.
  - simplify_eq. apply (inv_quiet _ _ _ _ Hinv Hi); [by left|done].
  - case_bool_decide; [simplify_eq; apply (inv_quiet _ _ _ _ Hinv Hi); [by left|done]|].
    destruct ok; simplify_eq; [|apply (inv_quiet _ _ _ _ Hinv Hi); [by left|done]].
    rewrite app_nil_r. by eapply inv_claim.
  - case_bool_decide; simplify_eq; apply (inv_quiet _ _ _ _ Hinv Hi); by auto.
  - case_bool_decide; simplify_eq; apply (inv_quiet _ _ _ _ Hinv Hi); by auto.
  - simplify_eq. rewrite app_nil_r. by eapply inv_unclaim.
  - destruct ok; simplify_eq; [by apply inv_publish|].
    apply (inv_quiet _ _ _ _ Hinv Hi); [by left|done].
  - destruct (ok && _); simplify_eq; [rewrite app_nil_r; by apply inv_finalize|].
    apply (inv_quiet _ _ _ _ Hinv Hi); [by left|done].
  - simplify_eq. apply (inv_quiet _ _ _ _ Hinv Hi); [by left|done].
  - destruct (h <? id); [destruct p; simplify_eq; apply (inv_quiet _ _ _ _ Hinv Hi); by auto|].
    destruct (entries (disk s) !! id) as [v|] eqn:He;
      [destruct ok|]; simplify_eq; [by eapply inv_pop|..];
      apply (inv_quiet _ _ _ _ Hinv Hi); by auto.
  - simplify_eq. apply (inv_quiet _ _ _ _ Hinv Hi); by auto.
  - destruct (highest (disk s) <=? h); simplify_eq; apply (inv_quiet _ _ _ _ Hinv Hi); by auto.
Qed.

Lemma inv_step s s' : inv s → step s s' → inv s'.
Proof.
  intros Hinv Hs. destruct Hs as [i t s Hi Hf|i ok t t' d' evs s Hi Ht]; [|by eapply inv_run].
  destruct (fresh_holds t Hf) as (Hh & Hb & Hk). apply inv_move; [done| | |done]; congruence.
Qed.

Lemma reachable_inv s : reachable s → inv s.
Proof.
  unfold reachable. intros Hr. pose proof inv_initial as Hinit. revert Hinit.
  induction Hr as [|s1 s2 s3 Hs Hr IH]; [done|]. intros Hinv. apply IH. by eapply inv_step.
Qed.

(** What has been published is there, or was popped. *)
Lemma inv_there s id v :
  inv s → (id, v) ∈ published (trace s) ↔
    entries (disk s) !! id = Some v ∨ (id, v) ∈ popped (trace s).
Proof.
  intros [_ _ _ _ H5 H6 H7 H8]. rewrite H7. split.
  - intros Hp. destruct (decide (id ∈ (popped (trace s)).*1)) as [Hin|]; [right|by left].
    apply list_elem_of_fmap in Hin as ([x w] & -> & Hin). cbn in *.
    by rewrite (NoDup_fst_inj _ x v w H5 Hp (H8 x w Hin)).
  - intros [[Hp _]|Hp]; [done|by apply H8].
Qed.

(** ** A popper past an id *)

(** From here on the process looks at larger ids only. *)
Definition beyond (k : Z) (t : pc) : Prop :=
  match t with
  | P_idle c _ a => k ≤ c ∧ match a with Some (Some (id, _)) => k < id | _ => True end
  | P_probe c _ id p | P_check c _ id p =>
      k ≤ c ∧ k < id ∧ match p with Some x => k < x | None => True end
  | P_reread c _ => k ≤ c
  | _ => False
  end.

Lemma beyond_tstep k ok t d t' d' evs :
  beyond k t → tstep ok t d = Some (t', d', evs) → beyond k t'.
Proof.
  intros Hb Ht. destruct t as [| | | | | | | |c h a|c h id p|c h id p|c h]; try done; cbn in Hb, Ht.
  - simplify_eq. cbn. lia.
  - destruct Hb as (Hc & Hid & Hp). destruct (h <? id); [destruct p; simplify_eq; cbn; lia|].
    destruct (entries d !! id) as [v|]; [destruct ok|]; simplify_eq; cbn; [|done..].
    destruct p; lia.
  - destruct Hb as (Hc & Hid & Hp). simplify_eq. cbn. case_bool_decide; destruct p; lia.
  - destruct (highest d <=? h); simplify_eq; cbn; lia.
Qed.

Lemma beyond_steps k i s s' :
  rtc step s s' → (∃ t, threads s !! i = Some t ∧ beyond k t) → ∃ t, threads s' !! i = Some t ∧ beyond k t.
Proof.
  induction 1 as [|s1 s2 s3 Hs _ IH]; [done|]. intros (t & Ht & Hb). apply IH.
  destruct Hs as [j u s Hj Hf|j ok u u' d' evs s Hj Hu]; cbn.
  - exists t. by rewrite lookup_insert_ne by congruence.
  - destruct (decide (j = i)) as [->|]; [|exists t; by rewrite lookup_insert_ne].
    simplify_eq. exists u'. rewrite lookup_insert_eq. split; [done|]. by eapply beyond_tstep.
Qed.

(** ** Schedules *)

Inductive action : Type := Start (i : nat) (t : pc) | Run (i : nat).

Definition freshb (t : pc) : bool :=
  match t with
  | A_claim from _ _ => 1 <=? from
  | P_idle c None None => c =? 0
  | _ => false
  end.

Definition act (a : action) (s : state) : option state :=
  match a with
  | Start i t =>
      match threads s !! i with
      | None => if freshb t then Some (mkState (<[i := t]> (threads s)) (disk s) (trace s)) else None
      | Some _ => None
      end
  | Run i =>
      match threads s !! i with
      | Some t =>
          match tstep true t (disk s) with
          | Some (t', d', evs) => Some (mkState (<[i := t']> (threads s)) d' (trace s ++ evs))
          | None => None
          end
      | None => None
      end
  end.

Fixpoint schedule (l : list action) (s : state) : option state :=
  match l with [] => Some s | a :: l => act a s ≫= schedule l end.

Lemma act_step a s s' : act a s = Some s' → step s s'.
Proof.
  destruct a as [i t|i]; cbn.
  - destruct (threads s !! i) eqn:Hi; [done|]. destruct (freshb t) eqn:Hf; [|done]. intros [= <-].
    apply Step_start; [done|]. destruct t; cbn in Hf; try done.
    + left. eexists _, _, _. split; [|done]. lia.
    + right. destruct high, answer; try done. f_equal. lia.
  - destruct (threads s !! i) as [t|] eqn:Hi; [|done].
    destruct (tstep true t (disk s)) as [[[t' d'] evs]|] eqn:Ht; [|done]. intros [= <-].
    by eapply Step_run.
Qed.

Lemma schedule_steps l s s' : schedule l s = Some s' → rtc step s s'.
Proof.
  revert s. induction l as [|a l IH]; intros s; cbn; [intros [= ->]; constructor|].
  destruct (act a s) as [s1|] eqn:Ha; [|done]. intros Hl. eapply rtc_l; [by eapply act_step|by apply IH].
Qed.

(** Process 0 reserves id 1 and stops before publishing; process 1 appends
    under id 2; process 2 probes id 1, and finds no entry; process 0 publishes
    and finalizes; process 2 finds no reservation either, and pops id 2; it
    then pops again. *)
Definition race : list action :=
  [Start 0 (A_claim 1 (bs "first") 4096); Run 0; Run 0; Run 0;
   Start 1 (A_claim 1 (bs "second") 4096); Run 1; Run 1; Run 1; Run 1; Run 1; Run 1;
   Start 2 (P_idle 0 None None); Run 2; Run 2;
   Run 0; Run 0;
   Run 2; Run 2;
   Run 2; Run 2; Run 2].

(** ** Properties *)

(** C22.  However the system calls of appending and popping processes
    interleave, and whichever of them the disk refuses: no id is published
    twice, so no batch is written over another; no id is popped twice; and what
    has been published is there to be read or has been popped, with the value
    it was published with -- nothing is lost from the log. *)
Theorem log_safe s :
  reachable s →
  NoDup (published (trace s)).*1 ∧ NoDup (popped (trace s)).*1 ∧
  ∀ id v, (id, v) ∈ published (trace s) ↔
    entries (disk s) !! id = Some v ∨ (id, v) ∈ popped (trace s).
Proof.
  intros Hinv%reachable_inv. split_and!; [apply Hinv..|]. intros id v. by apply inv_there.
Qed.

(**  What a process is told is so: an append that returns an id has
    published its value under it, which is still there or was popped; a pop
    that returns an item took it, and no other pop did. *)
Theorem answers_true s i t :
  reachable s → threads s !! i = Some t →
  match t with
  | A_done id v => entries (disk s) !! id = Some v ∨ (id, v) ∈ popped (trace s)
  | P_idle _ _ (Some (Some (id, v))) =>
      (id, v) ∈ published (trace s) ∧ entries (disk s) !! id = None ∧
      ∀ w, (id, w) ∈ popped (trace s) → w = v
  | _ => True
  end.
Proof.
  intros Hinv%reachable_inv Hi. pose proof (inv_knows s Hinv i t Hi) as Hk.
  destruct t as [| | | | | |id v| |c h [[[id v]|]|]| | |]; try done; cbn in Hk.
  - by apply inv_there.
  - split_and!; [by apply inv_popped| |].
    + destruct (entries (disk s) !! id) as [w|] eqn:He; [|done].
      apply (inv_entries s Hinv) in He as [_ Hn]. destruct Hn.
      apply list_elem_of_fmap. by exists (id, v).
    + intros w Hw. by apply (NoDup_fst_inj _ id w v (inv_pop_once s Hinv)).
Qed.

(**  A pop can pass an item by for good: in a reachable state the entry of
    id 1 is there, both appends are done and the popping process has been told
    that the queue is empty -- and whatever happens from there, it is never
    given that item.  An id without an entry at the rename and without a
    reservation at the check need not have been popped: its append may have
    finished in between. *)
Theorem pop_strands_item :
  ∃ s, reachable s ∧ entries (disk s) !! 1 = Some (bs "first") ∧
    threads s !! 0%nat = Some (A_done 1 (bs "first")) ∧
    threads s !! 1%nat = Some (A_done 2 (bs "second")) ∧
    threads s !! 2%nat = Some (P_idle 2 (Some 2) (Some None)) ∧
    ∀ s' c h v, rtc step s s' → threads s' !! 2%nat ≠ Some (P_idle c h (Some (Some (1, v)))).
Proof.
  destruct (schedule race initial) as [s|] eqn:Hs; [|by vm_compute in Hs].
  assert ((λ s, (entries (disk s) !! 1, threads s !! 0%nat, threads s !! 1%nat, threads s !! 2%nat))
    <$> schedule race initial = Some (Some (bs "first"), Some (A_done 1 (bs "first")),
      Some (A_done 2 (bs "second")), Some (P_idle 2 (Some 2) (Some None)))) as Hv by (by vm_compute).
  rewrite Hs in Hv. cbn in Hv. injection Hv as H1 H2 H3 H4.
  exists s. apply schedule_steps in Hs. split_and!; [exact Hs|done..|].
  intros s' c h v Hr Ht. destruct (beyond_steps 1 2%nat s s' Hr) as (t & Ht' & Hb).
  { eexists. split; [exact H4|]. cbn. lia. }
  rewrite Ht in Ht'. injection Ht' as <-. cbn in Hb. lia.
Qed.

(** ** Witnesses *)

Definition race_end : state := default initial (schedule race initial).

Lemma race_reachable : reachable race_end.
Proof.
  unfold race_end. destruct (schedule race initial) as [s|] eqn:Hs; [by eapply schedule_steps|].
  by vm_compute in Hs.
Qed.

Example log_safe_witness :
  published (trace race_end) = [(2, bs "second"); (1, bs "first")] ∧
  NoDup (published (trace race_end)).*1 ∧ (1, bs "first") ∈ published (trace race_end).
Proof.
  destruct (log_safe race_end race_reachable) as (Hp & _ & Hall).
  split; [by vm_compute|]. split; [exact Hp|]. apply Hall. left. by vm_compute.
Defined.

Example answers_true_witness :
  entries (disk race_end) !! 1 = Some (bs "first") ∨ (1, bs "first") ∈ popped (trace race_end).
Proof. exact (answers_true race_end 0 (A_done 1 (bs "first")) race_reachable eq_refl). Defined.

End StorageConc.
