(* ===== verification/StorageClient.v ===== *)
(** * Programs that use the storage

    The handlers that keep state between calls do so through [FunctionStorage]
    only.  A handler is a tree of calls ([prog]): what it does next depends on
    what the storage answered.  [StorageImpl] is what a handler may rely on, an
    implementation that mirrors [StorageSpec.spec]; the files of [Storage] are
    one.  The theorem: whatever the handlers, and however their calls fall on the
    worker processes, they answer over the files as over the abstract store -- so
    that what is proved of a handler over the store holds of the program. *)

From S2P Require Import Prelude Text Storage StorageSpec.
Import Storage StorageSpec.

Module StorageClient.

(** ** Programs *)

Inductive prog (A : Type) : Type :=
| Ret (a : A)
| Fail (e : exn)
| Call (o : op) (k : result out → prog A).
Arguments Ret {A}. Arguments Fail {A}. Arguments Call {A}.

Fixpoint p_bind {A B} (m : prog A) (f : A → prog B) : prog B :=
  match m with
  | Ret a => f a
  | Fail e => Fail e
  | Call o k => Call o (λ r, p_bind (k r) f)
  end.
#[global] Instance prog_ret : MRet prog := @Ret.
#[global] Instance prog_bind : MBind prog := λ A B f m, p_bind m f.

(** [try { m } catch (const std::exception&) { a }] *)
Fixpoint catch {A} (m : prog A) (a : A) : prog A :=
  match m with
  | Ret b => Ret b
  | Fail e => if std_exception e then Ret a else Fail e
  | Call o k => Call o (λ r, catch (k r) a)
  end.

Definition lift {A} (r : result A) : prog A := match r with Ok a => Ret a | Throw e => Fail e end.

(** The calls of the interface; each answers with its own kind of [out]. *)
Definition call {A} (o : op) (read : out → A) : prog A :=
  Call o (λ r, match r with Ok v => Ret (read v) | Throw e => Fail e end).

Definition value_of (v : out) : option bytes := match v with Value v => v | _ => None end.
Definition id_of (v : out) : Z := match v with Id i => i | _ => 0 end.
Definition entries_of (v : out) : list (Z * bytes) := match v with Entries l => l | _ => [] end.

Definition kv_get (scope key : bytes) : prog (option bytes) := call (Kv_get scope key) value_of.
Definition kv_put (scope key v : bytes) : prog unit := call (Kv_put scope key v) (λ _, ()).
Definition kv_del (scope key : bytes) : prog unit := call (Kv_del scope key) (λ _, ()).
Definition append (scope ns key v : bytes) : prog Z := call (Append scope ns key v) id_of.
Definition scan (scope ns key : bytes) (after_id limit : Z) : prog (list (Z * bytes)) :=
  call (Scan scope ns key after_id limit) entries_of.
Definition clear (scope : bytes) : prog unit := call (Clear scope) (λ _, ()).

(** A range-based for loop of calls. *)
Fixpoint for_each {A} (l : list A) (f : A → prog unit) : prog unit :=
  match l with [] => Ret tt | a :: l => f a;; for_each l f end.
Fixpoint for_map {A B} (l : list A) (f : A → prog B) : prog (list B) :=
  match l with [] => Ret [] | a :: l => b ← f a; bs ← for_map l f; Ret (b :: bs) end.
Fixpoint for_fold {A S} (l : list A) (f : S → A → prog S) (s : S) : prog S :=
  match l with [] => Ret s | a :: l => s ← f s a; for_fold l f s end.

(** ** Implementations *)

Class StorageImpl (W : Type) := {
  impl_call : Z → op → W → W * result out;
  (** [impl_sim cl N st w]: [w] stands for the store [st]; [cl] says who keeps
      a place in which queues, [N] how many ids were given out. *)
  impl_sim : cursors → Z → store → W → Prop;
}.
Class StorageImplLaws (W : Type) (I : StorageImpl W) : Prop := {
  impl_step cl N q o st w :
    impl_sim cl N st w → op_ok cl q o → N + weight o < 2 ^ 61 →
    (impl_call q o w).2 = Ok (spec o st).2 ∧
    impl_sim (noted q o cl) (N + weight o) (spec o st).1 (impl_call q o w).1;
}.

(** The store itself. *)
Definition store_impl : StorageImpl store :=
  {| impl_call _ o st := ((spec o st).1, Ok (spec o st).2); impl_sim _ _ st w := st = w |}.
#[global] Instance store_impl_laws : StorageImplLaws store store_impl.
Proof. split. by intros ? ? ? ? ? ? [= ->] _ _. Qed.

(** The files of a directory that the processes share. *)
Definition files_impl `{D : Disk} (base : path) : StorageImpl world :=
  {| impl_call := exec base; impl_sim := sim base |}.
#[global] Instance files_impl_laws `{D : Disk} `{!Healthy D} base : StorageImplLaws world (files_impl base).
Proof. split. intros. by apply (step_mirrored base). Qed.

(** ** Running *)

Section run.
Context {W : Type} {I : StorageImpl W} {A : Type}.

(** Process [q] runs a program. *)
Fixpoint run (q : Z) (m : prog A) (w : W) : W * result A :=
  match m with
  | Ret a => (w, Ok a)
  | Fail e => (w, Throw e)
  | Call o k => let '(w, r) := impl_call q o w in run q (k r) w
  end.

(** One program after the other, each by a process. *)
Fixpoint serve (session : list (Z * prog A)) (w : W) : list (result A) :=
  match session with
  | [] => []
  | (q, m) :: session => let '(w, r) := run q m w in r :: serve session w
  end.
End run.

(** Over the abstract store: what a program answers and leaves, and its calls. *)
Definition answer {A} (m : prog A) (st : store) : result A := (run (I := store_impl) 0 m st).2.
Definition after {A} (m : prog A) (st : store) : store := (run (I := store_impl) 0 m st).1.

Fixpoint calls {A} (m : prog A) (st : store) : list op :=
  match m with
  | Call o k => o :: calls (k (Ok (spec o st).2)) (spec o st).1
  | _ => []
  end.

Fixpoint session_calls {A} (session : list (Z * prog A)) (st : store) : list (Z * op) :=
  match session with
  | [] => []
  | (q, m) :: session => map (pair q) (calls m st) ++ session_calls session (after m st)
  end.

(** *** Equations *)

Lemma run_bind {W} {I : StorageImpl W} {A B} q (m : prog A) (f : A → prog B) w :
  run q (m ≫= f) w =
    match run q m w with
    | (w, Ok a) => run q (f a) w
    | (w, Throw e) => (w, Throw e)
    end.
Proof.
  revert w. induction m as [a|e|o k IH]; intros w; [done..|].
  cbn. destruct (impl_call q o w) as [w1 r]. apply IH.
Qed.

Lemma answer_bind {A B} (m : prog A) (f : A → prog B) st :
  answer (m ≫= f) st = a ← answer m st; answer (f a) (after m st).
Proof. unfold answer, after. rewrite run_bind. by destruct (run 0 m st) as [st' []]. Qed.

Lemma after_bind {A B} (m : prog A) (f : A → prog B) st :
  after (m ≫= f) st = match answer m st with Ok a => after (f a) (after m st) | Throw _ => after m st end.
Proof. unfold answer, after. rewrite run_bind. by destruct (run 0 m st) as [st' []]. Qed.

Lemma answer_ret {A} (a : A) st : answer (Ret a) st = Ok a.
Proof. done. Qed.
Lemma after_ret {A} (a : A) st : after (Ret a) st = st.
Proof. done. Qed.
Lemma answer_lift {A} (r : result A) st : answer (lift r) st = r.
Proof. by destruct r. Qed.
Lemma after_lift {A} (r : result A) st : after (lift r) st = st.
Proof. by destruct r. Qed.

Lemma answer_call {A} o (read : out → A) st : answer (call o read) st = Ok (read (spec o st).2).
Proof. done. Qed.
Lemma after_call {A} o (read : out → A) st : after (call o read) st = (spec o st).1.
Proof. done. Qed.

(** A program that catches everything answers, unless the behaviour is undefined. *)
Lemma answer_catch {A} (m : prog A) a st :
  answer (catch m a) st = match answer m st with Ok b => Ok b | Throw e => if std_exception e then Ok a else Throw e end.
Proof.
  unfold answer. generalize 0 as q. intros q. revert st. induction m as [b|e|o k IH]; intros st.
  - done.
  - cbn. by destruct (std_exception e).
  - cbn. apply IH.
Qed.

Lemma after_catch {A} (m : prog A) a st : after (catch m a) st = after m st.
Proof.
  unfold after. generalize 0 as q. intros q. revert st. induction m as [b|e|o k IH]; intros st.
  - done.
  - cbn. by destruct (std_exception e).
  - cbn. apply IH.
Qed.

Create Rewrite HintDb storage.
#[global] Hint Rewrite @answer_bind @after_bind @answer_ret @after_ret @answer_lift @after_lift @answer_call @after_call : storage.

(** *** Programs that write nothing *)

Definition reads_only {A} (m : prog A) : Prop := ∀ st, after m st = st.

Lemma reads_only_bind {A B} (m : prog A) (f : A → prog B) :
  reads_only m → (∀ a, reads_only (f a)) → reads_only (m ≫= f).
Proof. intros Hm Hf st. rewrite after_bind, Hm. destruct (answer m st); [apply Hf|done]. Qed.
Lemma reads_only_ret {A} (a : A) : reads_only (Ret a).
Proof. done. Qed.
Lemma reads_only_fail {A} e : reads_only (Fail (A := A) e).
Proof. done. Qed.
Lemma reads_only_lift {A} (r : result A) : reads_only (lift r).
Proof. by destruct r. Qed.
Lemma reads_only_kv_get scope key : reads_only (kv_get scope key).
Proof. done. Qed.
Lemma reads_only_scan scope ns key after_id limit : reads_only (scan scope ns key after_id limit).
Proof. intros st. unfold scan. rewrite after_call. cbn. by destruct (log_of st scope ns key). Qed.

Create HintDb reads_only.
#[global] Hint Resolve reads_only_bind reads_only_ret reads_only_fail reads_only_lift reads_only_kv_get reads_only_scan : reads_only.

(** Follows a program down to its calls. *)
Ltac reads_only := repeat (intros; first [case_match | apply reads_only_bind | eauto with reads_only]).

(** *** Both at once *)

Definition outcome {A} (m : prog A) (st : store) : store * result A := run (I := store_impl) 0 m st.

Lemma outcome_split {A} (m : prog A) st : outcome m st = (after m st, answer m st).
Proof. unfold outcome, after, answer. by destruct (run _ _ _). Qed.
Lemma outcome_bind {A B} (m : prog A) (f : A → prog B) st :
  outcome (m ≫= f) st = match outcome m st with (st, Ok a) => outcome (f a) st | (st, Throw e) => (st, Throw e) end.
Proof. apply run_bind. Qed.
Lemma outcome_ret {A} (a : A) st : outcome (Ret a) st = (st, Ok a).
Proof. done. Qed.
Lemma outcome_lift {A} (r : result A) st : outcome (lift r) st = (st, r).
Proof. by destruct r. Qed.
Lemma outcome_reads {A} (m : prog A) st : reads_only m → outcome m st = (st, answer m st).
Proof. intros Hm. by rewrite outcome_split, Hm. Qed.
Lemma outcome_kv_get scope key st : outcome (kv_get scope key) st = (st, Ok (s_kv st !! (scope, key))).
Proof. done. Qed.
Lemma outcome_kv_put scope key v st :
  outcome (kv_put scope key v) st = (mkStore (<[(scope, key) := v]> (s_kv st)) (s_logs st), Ok tt).
Proof. done. Qed.
Lemma outcome_kv_del scope key st :
  outcome (kv_del scope key) st = (mkStore (delete (scope, key) (s_kv st)) (s_logs st), Ok tt).
Proof. done. Qed.

Create Rewrite HintDb outcome.
#[global] Hint Rewrite @outcome_bind @outcome_ret @outcome_lift outcome_kv_get outcome_kv_put outcome_kv_del : outcome.

(** What a program that answered has answered at each step. *)
Lemma answer_bind_Ok {A B} (m : prog A) (f : A → prog B) st b :
  answer (m ≫= f) st = Ok b ↔ ∃ a, answer m st = Ok a ∧ answer (f a) (after m st) = Ok b.
Proof. rewrite answer_bind. apply bind_Ok. Qed.

Lemma answer_lift_Ok {A B} (r : result A) (f : A → prog B) st b :
  answer (lift r ≫= f) st = Ok b ↔ ∃ a, r = Ok a ∧ answer (f a) st = Ok b.
Proof. rewrite answer_bind_Ok. setoid_rewrite answer_lift. by setoid_rewrite after_lift. Qed.

Lemma answer_read_Ok {A B} (m : prog A) (f : A → prog B) st b :
  reads_only m → answer (m ≫= f) st = Ok b ↔ ∃ a, answer m st = Ok a ∧ answer (f a) st = Ok b.
Proof. intros Hm. by rewrite answer_bind_Ok, Hm. Qed.

(** *** The refinement *)

Lemma run_any_process {A} q (m : prog A) st : run (I := store_impl) q m st = (after m st, answer m st).
Proof.
  unfold after, answer. revert st. induction m as [a|e|o k IH]; intros st; [done..|]. cbn. apply IH.
Qed.

Lemma weight_pos o : 0 ≤ weight o.
Proof. destruct o; cbn; lia. Qed.

Lemma total_weight_pos tr : 0 ≤ total_weight tr.
Proof.
  unfold total_weight. induction tr as [|[q o] tr IH]; cbn [foldr snd]; [done|]. pose proof (weight_pos o). lia.
Qed.

Lemma run_sim {W} {I : StorageImpl W} `{!StorageImplLaws W I} {A} q (m : prog A) cl N st w :
  impl_sim cl N st w → trace_ok cl (map (pair q) (calls m st)) →
  N + total_weight (map (pair q) (calls m st)) < 2 ^ 61 →
  ∃ cl' N', (run q m w).2 = answer m st ∧ impl_sim cl' N' (after m st) (run q m w).1 ∧
    cl' = foldl (λ cl o, noted q o cl) cl (calls m st) ∧ N' = N + total_weight (map (pair q) (calls m st)).
Proof.
  revert cl N st w. induction m as [a|e|o k IH]; intros cl N st w Hsim Hok HN.
  1,2: exists cl, N; split_and!; [done..|cbn; lia].
  cbn [calls map trace_ok fst snd] in Hok. destruct Hok as [Ho Hok].
  cbn [calls map] in HN. change (total_weight ((q, o) :: ?l)) with (weight o + total_weight l) in HN.
  destruct (impl_step cl N q o st w Hsim Ho) as [Hr Hs].
  { pose proof (total_weight_pos (map (pair q) (calls (k (Ok (spec o st).2)) (spec o st).1))). lia. }
  cbn [run]. destruct (impl_call q o w) as [w1 r]. cbn [fst snd] in *. subst r.
  destruct (IH _ _ _ _ _ Hs Hok) as (cl' & N' & H1 & H2 & H3 & H4); [lia|].
  exists cl', N'. split_and!; [exact H1|exact H2|exact H3|]. cbn [calls map].
  change (total_weight ((q, o) :: ?l)) with (weight o + total_weight l). lia.
Qed.

Lemma trace_ok_app cl q (os : list op) tr :
  trace_ok cl (map (pair q) os ++ tr) ↔
  trace_ok cl (map (pair q) os) ∧ trace_ok (foldl (λ cl o, noted q o cl) cl os) tr.
Proof.
  revert cl. induction os as [|o os IH]; intros cl; cbn [map app trace_ok foldl]; [tauto|]. rewrite IH. tauto.
Qed.

Lemma total_weight_app tr tr' : total_weight (tr ++ tr') = total_weight tr + total_weight tr'.
Proof. unfold total_weight. induction tr as [|e tr IH]; cbn [app foldr]; lia. Qed.

Lemma serve_sim {W} {I : StorageImpl W} `{!StorageImplLaws W I} {A} (session : list (Z * prog A)) cl N st w :
  impl_sim cl N st w → trace_ok cl (session_calls session st) →
  N + total_weight (session_calls session st) < 2 ^ 61 →
  serve session w = serve (I := store_impl) session st.
Proof.
  revert cl N st w. induction session as [|[q m] session IH]; intros cl N st w Hsim Hok HN; [done|].
  cbn [session_calls] in Hok, HN. apply trace_ok_app in Hok as [Hok1 Hok2]. rewrite total_weight_app in HN.
  pose proof (total_weight_pos (session_calls session (after m st))).
  destruct (run_sim q m cl N st w Hsim Hok1) as (cl' & N' & H1 & H2 & -> & ->); [lia|].
  cbn [serve]. rewrite (run_any_process q m st). destruct (run q m w) as [w1 r]. cbn [fst snd] in *. subst r.
  f_equal. by eapply IH; [exact H2|exact Hok2|lia].
Qed.

(** *** Programs without queues and logs

    Whatever the clears before, their calls are mirrored, and take no ids. *)

Inductive issues {A} (P : op → Prop) : prog A → Prop :=
| issues_ret a : issues P (Ret a)
| issues_fail e : issues P (Fail e)
| issues_call o k : P o → (∀ r, issues P (k r)) → issues P (Call o k).

Lemma issues_bind {A B} P (m : prog A) (f : A → prog B) : issues P m → (∀ a, issues P (f a)) → issues P (m ≫= f).
Proof. intros Hm Hf. induction Hm as [a|e|o k Ho Hk IH]; [apply Hf|constructor|]. cbn. constructor; [done|apply IH]. Qed.
Lemma issues_lift {A} P (r : result A) : issues P (lift r).
Proof. destruct r; constructor. Qed.
Lemma issues_one {A} (P : op → Prop) o (read : out → A) : P o → issues P (call o read).
Proof. intros Ho. constructor; [done|]. intros [v|e]; constructor. Qed.
Lemma issues_for_each {A} P (l : list A) f : (∀ a, issues P (f a)) → issues P (for_each l f).
Proof. intros Hf. induction l as [|a l IH]; cbn; [constructor|]. by apply issues_bind. Qed.
Lemma issues_for_map {A B} P (l : list A) (f : A → prog B) : (∀ a, issues P (f a)) → issues P (for_map l f).
Proof.
  intros Hf. induction l as [|a l IH]; cbn; [constructor|]. apply issues_bind; [done|]. intros b.
  apply issues_bind; [done|constructor].
Qed.
Lemma issues_for_fold {A S} P (l : list A) (f : S → A → prog S) s : (∀ s a, issues P (f s a)) → issues P (for_fold l f s).
Proof. intros Hf. revert s. induction l as [|a l IH]; intros s; cbn; [constructor|]. by apply issues_bind. Qed.
Create HintDb issues.
#[global] Hint Constructors issues : issues.
#[global] Hint Resolve issues_bind issues_lift issues_one issues_for_each issues_for_map issues_for_fold : issues.

(** Values only. *)
Definition kv_op (o : op) : Prop := match o with Kv_get _ _ | Kv_put _ _ _ | Kv_del _ _ | Clear _ => True | _ => False end.

Lemma issues_calls {A} P (m : prog A) st : issues P m → Forall P (calls m st).
Proof. intros Hm. revert st. induction Hm as [a|e|o k Ho Hk IH]; intros st; cbn; auto. Qed.

Lemma kv_calls_ok q os cl : Forall kv_op os → trace_ok cl (map (pair q) os) ∧ total_weight (map (pair q) os) = 0.
Proof.
  intros Hos. revert cl. induction Hos as [|o os Ho Hos IH]; intros cl; [done|].
  destruct (IH (noted q o cl)) as [H1 H2]. split.
  - cbn. split; [by destruct o|done].
  - change (weight o + total_weight (map (pair q) os) = 0). rewrite H2. by destruct o.
Qed.

Lemma kv_session_ok {A} (session : list (Z * prog A)) st cl :
  Forall (λ e, issues kv_op e.2) session →
  trace_ok cl (session_calls session st) ∧ total_weight (session_calls session st) = 0.
Proof.
  intros Hs. revert st cl. induction Hs as [|[q m] session Hm Hs IH]; intros st cl; [done|]. cbn [session_calls snd] in *.
  pose proof (issues_calls kv_op m st Hm) as Hc. rewrite trace_ok_app, total_weight_app.
  destruct (kv_calls_ok q _ cl Hc) as [H1 H2]. destruct (IH (after m st) (foldl (λ cl o, noted q o cl) cl (calls m st))) as [H3 H4].
  split; [done|lia].
Qed.

Lemma kv_clients {D : Disk} `{!Healthy D} base {A} (session : list (Z * prog A)) :
  Forall (λ e, issues kv_op e.2) session →
  serve (I := files_impl base) session empty_world = serve (I := store_impl) session empty_store.
Proof.
  intros Hs. destruct (kv_session_ok session empty_store no_cursors Hs) as [H1 H2]. eapply serve_sim; [apply empty_sim|done|]. rewrite H2. lia.
Qed.

(** Whatever programs use the storage -- looping, branching on its answers,
    catching its errors -- and however their calls fall on the worker processes,
    over the shared files of a disk that works they answer what they answer over
    the abstract store of [StorageSpec.spec]: a map of values and logs of
    increasing ids.  (The conditions on queues and ids of [storage_refines].) *)
Theorem clients_refine `{D : Disk} `{!Healthy D} base {A} (session : list (Z * prog A)) :
  trace_ok no_cursors (session_calls session empty_store) → total_weight (session_calls session empty_store) < 2 ^ 61 →
  serve (I := files_impl base) session empty_world = serve (I := store_impl) session empty_store.
Proof. intros Hok HN. eapply serve_sim; [apply empty_sim|exact Hok|lia]. Qed.

(** ** Two processes keep a counter and a log *)

Definition count_up (scope : bytes) : prog (list (Z * bytes)) :=
  n ← kv_get scope (bs "n");
  let n := default [] n in
  append scope (bs "seen") [] n;;
  kv_put scope (bs "n") (bs "x" ++ n);;
  scan scope (bs "seen") [] 0 10.

#[local] Existing Instance good_disk_healthy.
Lemma clients_refine_witness :
  serve (I := files_impl (D := good_disk) demo_base) [(1, count_up (bs "s")); (2, count_up (bs "s"))] empty_world =
  [Ok [(1, [])]; Ok [(1, []); (2, bs "x")]].
Proof.
  rewrite (clients_refine (D := good_disk) demo_base); [by vm_compute| |by vm_compute].
  vm_compute. tauto.
Defined.

End StorageClient.
