(* ===== verification/Attachment.v ===== *)
(** * What an attachment carries ([src/catalog.cpp])

    ATTACH merges the options the statement set into the ones the catalog
    declares and answers with an opaque value: catalog, data version, alias, a
    fresh id and the options, between NUL bytes.  Every later call brings the
    value back.  On a transport that does not seal it, the options a catalog
    declares secret stay behind, in the shared storage, and are put back by
    whichever worker reads the value.  The theorems: the attachment read is the
    one that was made, and the value of an unsealed transport says nothing of a
    secret option. *)

From S2P Require Import Prelude Text Crypto Arrow ArrowCompute Wire Metadata AttachTicket AttachService Storage StorageSpec StorageClient.
Import Wire Metadata StorageSpec StorageClient.

Module Attachment.

(** What is used here of a catalog model: its name and its attach options. *)
Record CatalogModel := mkCatalog { cm_name : bytes; cm_options : list AttachService.AttachOptionSpec }.

Record Attachment := mkAttachment {
  at_catalog : bytes;
  at_data_version : bytes;
  at_alias : bytes;
  at_id : bytes;
  at_options : option batch;
}.

Definition option_name (o : AttachService.AttachOptionSpec) : string := AttachService.ao_name o.

(** ** The options of an ATTACH *)

Definition equals_ignore_case (a b : string) : bool := bool_decide (AttachTicket.lower a = AttachTicket.lower b).

Section merge.
Context `{A : Arrow} `{C : Compute}.

(** The first column supplied under the option's name. *)
Fixpoint supplied_column (name : string) (fields : list field) (columns : list array) : option array :=
  match fields, columns with
  | f :: fields, c :: columns => if equals_ignore_case (f_name f) name then Some c else supplied_column name fields columns
  | _, _ => None
  end.

Definition cast_option (o : AttachService.AttachOptionSpec) (t : dtype) (column : array) : result array :=
  match cast (D_array column) t with
  | inr (D_array a) => Ok a
  | inr _ => Throw (Undefined_behaviour "the cast of an array is an array")
  | inl status => Throw (Invalid_argument ("Cannot cast ATTACH option '" +:+ option_name o +:+ "' to " +:+
                                           type_to_string t +:+ ": " +:+ status))
  end.

Definition option_value (supplied : option batch) (o : AttachService.AttachOptionSpec) (t : dtype) : result array :=
  value ← (match supplied ≫= λ b, supplied_column (option_name o) (b_schema b) (b_columns b) with
           | Some column => a ← cast_option o t column; Ok (Some a)
           | None => Ok None
           end : result (option array));
  match value, AttachService.ao_default o with
  | Some a, _ => Ok a
  | None, Some a => Ok a
  | None, None =>
      if AttachService.ao_required o
      then Throw (Invalid_argument ("Missing required option '" +:+ option_name o +:+ "' for ATTACH"))
      else match null_array t with inr a => Ok a | inl _ => Throw (Undefined_behaviour "ValueOrDie") end
  end.

(** The type an option is declared with. *)
Definition option_type (o : AttachService.AttachOptionSpec) : dtype := default T_null (AttachService.ao_type o).

Fixpoint option_values (supplied : option batch) (options : list AttachService.AttachOptionSpec) : result (list array) :=
  match options with
  | [] => Ok []
  | o :: options =>
      a ← option_value supplied o (option_type o); l ← option_values supplied options; Ok (a :: l)
  end.

Definition option_fields (options : list AttachService.AttachOptionSpec) : list field :=
  map (λ o, Field (option_name o) (option_type o) true []) options.

Definition merge_attach_options (model : CatalogModel) (attach : option batch) : result (option batch) :=
  match cm_options model with
  | [] => Ok None
  | options =>
      encoded ← get_optional_binary attach "options";
      supplied ← (match encoded with Some ((_ :: _) as s) => decode_ipc s | _ => Ok None end : result (option batch));
      values ← option_values supplied options;
      Ok (Some (mkBatch (option_fields options) None 1 values))
  end.
End merge.

(** ** The value *)

Definition kAttachSecretsScope : bytes := bs "vgi.attach_secrets".

(** [RecordBatch::SelectColumns] *)
Definition select_columns (b : batch) (indices : list nat) : batch :=
  mkBatch (omap (λ i, b_schema b !! i) indices) (b_metadata b) (b_rows b) (omap (λ i, b_columns b !! i) indices).

(** The columns of a schema whose name satisfies [P]. *)
Definition columns_where (P : string → bool) (schema : list field) : list nat :=
  filter (λ i, Is_true (default false (P ∘ f_name <$> schema !! i))) (seq 0 (length schema)).

(** The fields between the NUL bytes. *)
Fixpoint split_nul (s : bytes) : list bytes :=
  match s with
  | [] => [[]]
  | c :: s =>
      if bool_decide (c = NUL) then [] :: split_nul s
      else match split_nul s with f :: fs => (c :: f) :: fs | [] => [[c]] end
  end.

Section attachment.
Context `{A : Arrow} `{B : Base64}.
(** The catalogs of the worker, the primary one first, and whether the transport
    seals the value. *)
Context (primary : CatalogModel) (others : list CatalogModel) (sealing : bool).

Definition find_catalog (name : bytes) : option CatalogModel :=
  List.find (λ m, bool_decide (cm_name m = name)) (primary :: others).

Definition is_secret_option (model : option CatalogModel) (name : string) : bool :=
  match model with
  | None => false
  | Some m => existsb (λ o, AttachService.ao_secret o && bool_decide (option_name o = name)) (cm_options m)
  end.

Definition keep_secrets (model : option CatalogModel) (id : bytes) (carried : batch) : prog batch :=
  let secret := columns_where (is_secret_option model) (b_schema carried) in
  let plain := columns_where (λ n, negb (is_secret_option model n)) (b_schema carried) in
  match secret with
  | [] => Ret carried
  | _ =>
      s ← lift (encode_ipc (select_columns carried secret));
      kv_put kAttachSecretsScope id s;;
      Ret (select_columns carried plain)
  end.

Definition attachment_value (a : Attachment) (options : bytes) : bytes :=
  at_catalog a ++ NUL :: at_data_version a ++ NUL :: at_alias a ++ NUL :: at_id a ++ NUL :: options.

Definition seal_attachment (a : Attachment) : prog bytes :=
  carried ← (match at_options a with
             | Some carried =>
                 if sealing then Ret (Some carried)
                 else c ← keep_secrets (find_catalog (at_catalog a)) (at_id a) carried; Ret (Some c)
             | None => Ret None
             end : prog (option batch));
  options ← (match carried with
             | Some c => s ← lift (encode_ipc c); Ret (bs (base64_encode s))
             | None => Ret []
             end : prog bytes);
  Ret (attachment_value a options).

(** *** Reading it back *)

Definition wants_secrets (model : CatalogModel) (options : option batch) : bool :=
  existsb (λ o, AttachService.ao_secret o &&
                negb (has_column options (option_name o))) (cm_options model).

(** The column of a name with its field. *)
Definition cell (b : batch) (name : string) : option (field * array) :=
  i ← get_field_index (b_schema b) name; f ← b_schema b !! i; c ← b_columns b !! i; Some (f, c).

Definition restored_cell (options secrets : option batch) (name : string) : option (field * array) :=
  match options ≫= λ b, cell b name with
  | Some x => Some x
  | None => secrets ≫= λ b, cell b name
  end.

Definition restore_secret_options (a : Attachment) : prog Attachment :=
  match find_catalog (at_catalog a), at_id a with
  | None, _ | _, [] => Ret a
  | Some model, _ =>
      if negb (wants_secrets model (at_options a)) then Ret a else
      stored ← kv_get kAttachSecretsScope (at_id a);
      match stored with
      | None => Ret a
      | Some s =>
          secrets ← lift (decode_ipc s);
          let cells := omap (λ o, restored_cell (at_options a) secrets (option_name o)) (cm_options model) in
          Ret (mkAttachment (at_catalog a) (at_data_version a) (at_alias a) (at_id a)
                 (Some (mkBatch cells.*1 None 1 cells.*2)))
      end
  end.

Definition no_attachment : Attachment := mkAttachment (cm_name primary) [] [] [] None.

Definition attachment_of (request : option batch) : prog Attachment :=
  match request with
  | None => Ret no_attachment
  | Some _ =>
      value ← lift (get_optional_binary request "attach_opaque_data");
      match value with
      | None | Some [] => Ret no_attachment
      | Some value =>
          match split_nul value with
          | [catalog; data_version; alias; id; options] =>
              match find_catalog catalog with
              | None => if sealing then Fail (Opaque_not_recognized "attach_opaque_data") else Ret no_attachment
              | Some _ =>
                  decoded ← (match options with
                             | [] => Ret None
                             | _ => s ← lift (wire_base64_decode (str options)); lift (decode_ipc s)
                             end : prog (option batch));
                  restore_secret_options (mkAttachment catalog data_version alias id decoded)
              end
          | _ => if sealing then Fail (Opaque_not_recognized "attach_opaque_data") else Ret no_attachment
          end
      end
  end.

(** *** The columns kept and those left *)

Definition entries (b : batch) : list (field * array) := zip (b_schema b) (b_columns b).

Lemma zip_omap_filter {X Y} (P : X → bool) (fs : list X) (cs : list Y) k :
  length fs = length cs →
  let l := filter (λ i, Is_true (default false (P <$> fs !! i))) (seq 0 k) in
  (k <= length fs)%nat →
  zip (omap (λ i, fs !! i) l) (omap (λ i, cs !! i) l) = filter (λ e, Is_true (P e.1)) (take k (zip fs cs)) ∧
  length (omap (λ i, fs !! i) l) = length (omap (λ i, cs !! i) l).
Proof using Type.
  intros Hlen l Hk. subst l. induction k as [|k IH]; [done|].
  destruct IH as [IH IHl]; [lia|]. rewrite seq_S, filter_app, Nat.add_0_l.
  destruct (lookup_lt_is_Some_2 fs k) as [f Hf]; [lia|]. destruct (lookup_lt_is_Some_2 cs k) as [c Hc]; [lia|].
  assert (zip fs cs !! k = Some (f, c)) as Hz by (apply lookup_zip_with_Some; by exists f, c).
  rewrite (take_S_r _ _ _ Hz), filter_app, !omap_app.
  rewrite (filter_cons _ k []), (filter_cons _ (f, c) []), Hf. cbn [fmap option_fmap option_map default fst].
  destruct (P f) eqn:Hp; cbn [Is_true].
  - rewrite !decide_True by done. cbn. rewrite Hf, Hc. rewrite zip_with_app by done. rewrite IH. by rewrite !length_app, IHl.
  - rewrite !decide_False by auto. cbn. by rewrite !app_nil_r.
Qed.

Lemma select_entries P b :
  length (b_schema b) = length (b_columns b) →
  let s := select_columns b (columns_where P (b_schema b)) in
  entries s = filter (λ e, Is_true (P (f_name e.1))) (entries b) ∧ length (b_schema s) = length (b_columns s).
Proof using Type.
  intros Hlen. destruct (zip_omap_filter (P ∘ f_name) (b_schema b) (b_columns b) (length (b_schema b)) Hlen) as [H1 H2]; [lia|].
  split; [|exact H2]. unfold entries, select_columns, columns_where. cbn [b_schema b_columns]. rewrite H1.
  by rewrite take_ge by (rewrite length_zip_with; lia).
Qed.

Lemma entries_schema b : length (b_schema b) = length (b_columns b) → (entries b).*1 = b_schema b.
Proof using Type. intros H. apply fst_zip. lia. Qed.
Lemma entries_columns b : length (b_schema b) = length (b_columns b) → (entries b).*2 = b_columns b.
Proof using Type. intros H. apply snd_zip. lia. Qed.

(** A name that one column has. *)
Lemma cell_spec `{!ArrowLaws A} b name e :
  length (b_schema b) = length (b_columns b) → NoDup (map f_name (b_schema b)) →
  cell b name = Some e ↔ e ∈ entries b ∧ f_name e.1 = name.
Proof using Type.
  intros Hlen Hnd. unfold cell. rewrite bind_Some. split.
  - intros (i & Hi & (f & Hf & (c & Hc & [= <-])%bind_Some)%bind_Some).
    pose proof (get_field_index_found _ _ _ Hi) as Hn. rewrite Hf in Hn. injection Hn as Hn. split; [|done].
    apply list_elem_of_lookup. exists i. apply lookup_zip_with_Some. by exists f, c.
  - intros [(i & Hi)%list_elem_of_lookup Hn]. apply lookup_zip_with_Some in Hi as (f & c & -> & Hf & Hc).
    cbn in Hn. exists i. split; [|by rewrite Hf; cbn; rewrite Hc].
    apply get_field_index_unique; [by rewrite Hf; cbn; rewrite Hn|].
    intros j Hj. apply (NoDup_lookup _ _ _ name Hnd); rewrite list_lookup_fmap; [done|by rewrite Hf; cbn; rewrite Hn].
Qed.

Lemma cell_absent `{!ArrowLaws A} b name : name ∉ map f_name (b_schema b) → cell b name = None.
Proof using Type.
  intros Hn. unfold cell. destruct (get_field_index _ _) as [i|] eqn:Hi; [|done]. destruct Hn.
  apply get_field_index_found in Hi. apply list_elem_of_lookup. exists i. by rewrite list_lookup_fmap.
Qed.

(** *** The value and its fields *)

Lemma split_nul_one a : nul_free a → split_nul a = [a].
Proof using Type.
  unfold nul_free. induction a as [|c a IH]; [done|]. intros Hn. apply not_elem_of_cons in Hn as [Hc Ha].
  cbn [split_nul]. rewrite bool_decide_false by congruence. by rewrite IH.
Qed.

Lemma split_nul_cons a s : nul_free a → split_nul (a ++ NUL :: s) = a :: split_nul s.
Proof using Type.
  unfold nul_free. induction a as [|c a IH]; intros Hn; [done|]. apply not_elem_of_cons in Hn as [Hc Ha].
  cbn [app split_nul]. rewrite bool_decide_false by congruence. by rewrite IH.
Qed.

Definition text_ok (a : Attachment) : Prop :=
  nul_free (at_catalog a) ∧ nul_free (at_data_version a) ∧ nul_free (at_alias a) ∧ nul_free (at_id a).

Lemma split_value a options : text_ok a → nul_free options →
  split_nul (attachment_value a options) = [at_catalog a; at_data_version a; at_alias a; at_id a; options].
Proof using Type.
  intros (H1 & H2 & H3 & H4) H5. unfold attachment_value. by rewrite !split_nul_cons, split_nul_one.
Qed.

(** *** What is put back *)

(** The options of an attachment, as the merge makes them: every declared one. *)
Definition options_ok (model : CatalogModel) (options : option batch) : Prop :=
  match options with
  | None => cm_options model = []
  | Some b => map f_name (b_schema b) = map option_name (cm_options model) ∧
      length (b_schema b) = length (b_columns b) ∧ b_metadata b = None ∧ b_rows b = 1
  end.

Definition secret_name (model : CatalogModel) (name : string) : Prop := Is_true (is_secret_option (Some model) name).

Lemma selected_names P b :
  length (b_schema b) = length (b_columns b) →
  map f_name (b_schema (select_columns b (columns_where P (b_schema b)))) =
  map (λ e, f_name e.1) (filter (λ e, Is_true (P (f_name e.1))) (entries b)).
Proof using Type.
  intros Hl. destruct (select_entries P b Hl) as [He Hs]. rewrite <- (entries_schema _ Hs), He, map_map. done.
Qed.

Lemma selected_cell `{!ArrowLaws A} P b e :
  length (b_schema b) = length (b_columns b) → NoDup (map f_name (b_schema b)) → e ∈ entries b →
  cell (select_columns b (columns_where P (b_schema b))) (f_name e.1) = if P (f_name e.1) then Some e else None.
Proof using Type.
  intros Hl Hnd He. destruct (select_entries P b Hl) as [Hes Hs]. destruct (P (f_name e.1)) eqn:Hp.
  - apply cell_spec; [done| |].
    + rewrite selected_names by done. apply NoDup_map_filter. rewrite <- (entries_schema b Hl), map_map in Hnd. exact Hnd.
    + split; [|done]. rewrite Hes. apply list_elem_of_filter. by rewrite Hp.
  - apply cell_absent. rewrite selected_names by done. intros (e' & Hn & [Hp' _]%list_elem_of_filter)%list_elem_of_fmap.
    rewrite <- Hn, Hp in Hp'. done.
Qed.

Lemma restored_cells `{!ArrowLaws A} model b P :
  options_ok model (Some b) → NoDup (map option_name (cm_options model)) →
  omap (λ o, restored_cell (Some (select_columns b (columns_where (λ n, negb (P n)) (b_schema b))))
               (Some (select_columns b (columns_where P (b_schema b)))) (option_name o)) (cm_options model) = entries b.
Proof using Type.
  intros (Hn & Hl & _) Hnd. rewrite <- Hn in Hnd.
  assert (Forall2 (λ o e, e ∈ entries b ∧ f_name e.1 = option_name o) (cm_options model) (entries b)) as HF.
  { assert (map (λ e, f_name e.1) (entries b) = map option_name (cm_options model)) as Hm.
    { by rewrite <- Hn, <- (entries_schema b Hl), map_map. }
    apply Forall2_same_length_lookup. split; [by rewrite <- (length_map option_name), <- Hm, length_map|].
    intros i o e Ho He. split; [by apply list_elem_of_lookup_2 in He|].
    apply (f_equal (λ l, l !! i)) in Hm. rewrite !list_lookup_fmap, Ho, He in Hm. by injection Hm. }
  clear Hn. revert HF. generalize (entries b) at 2 3. intros es HF. induction HF as [|o e os es [He Ho] _ IH]; [done|].
  cbn [omap list_omap]. rewrite <- Ho. unfold restored_cell at 1. cbn [mbind option_bind].
  rewrite (selected_cell (λ n, negb (P n)) b e), (selected_cell P b e) by done.
  destruct (P (f_name e.1)); cbn [negb]; by rewrite IH.
Qed.

Lemma has_column_cell `{!ArrowLaws A} b name :
  length (b_schema b) = length (b_columns b) → has_column (Some b) name = bool_decide (is_Some (cell b name)).
Proof using Type.
  intros Hl. unfold has_column, column_by_name, cell. apply bool_decide_ext.
  destruct (get_field_index _ _) as [i|] eqn:Hi; [|by split; intros [? [=]]]. cbn.
  apply get_field_index_found in Hi. destruct (b_schema b !! i) as [f|] eqn:Hf; [|done]. cbn.
  destruct (b_columns b !! i) as [c|]; split; intros [? ?]; try done; by eexists.
Qed.

Lemma options_present `{!ArrowLaws A} model b o :
  options_ok model (Some b) → NoDup (map option_name (cm_options model)) → o ∈ cm_options model →
  ∃ e, e ∈ entries b ∧ f_name e.1 = option_name o.
Proof using Type.
  intros (Hn & Hl & _) Hnd Ho. assert (option_name o ∈ map f_name (b_schema b)) as Hin.
  { rewrite Hn. apply list_elem_of_fmap. by exists o. }
  rewrite <- (entries_schema b Hl), map_map in Hin. apply list_elem_of_fmap in Hin as (e & He & Hin). by exists e.
Qed.

Lemma wants_nothing `{!ArrowLaws A} model options :
  options_ok model options → NoDup (map option_name (cm_options model)) → wants_secrets model options = false.
Proof using Type.
  intros Hok Hnd. unfold wants_secrets. apply not_true_iff_false. intros (o & Ho & Hw)%existsb_exists.
  apply list_elem_of_In in Ho. destruct options as [b|]; [|cbn in Hok; rewrite Hok in Ho; by apply elem_of_nil in Ho].
  apply andb_true_iff in Hw as [_ Hw]. destruct (options_present model b o Hok Hnd Ho) as (e & He & Hne).
  destruct Hok as (Hn & Hl & _). rewrite has_column_cell in Hw by done.
  rewrite bool_decide_true in Hw; [done|]. exists e. apply cell_spec; [done|by rewrite Hn|done].
Qed.

(** *** Making the value *)

Lemma keep_answer model id b st c :
  answer (keep_secrets model id b) st = Ok c →
  (columns_where (is_secret_option model) (b_schema b) = [] ∧ c = b ∧ after (keep_secrets model id b) st = st) ∨
  ∃ s, encode_ipc (select_columns b (columns_where (is_secret_option model) (b_schema b))) = Ok s ∧
    c = select_columns b (columns_where (λ n, negb (is_secret_option model n)) (b_schema b)) ∧
    after (keep_secrets model id b) st = (spec (Kv_put kAttachSecretsScope id s) st).1.
Proof using Type.
  unfold keep_secrets. destruct (columns_where _ _) as [|x l] eqn:Hc; [intros [= <-]; by left|].
  autorewrite with storage. intros (s & Hs & H)%bind_Ok. rewrite Hs. right. exists s. split; [done|].
  unfold kv_put in *. rewrite answer_bind in H. by injection H as <-.
Qed.

Lemma seal_answer a st v :
  answer (seal_attachment a) st = Ok v →
  match at_options a with
  | None => v = attachment_value a [] ∧ after (seal_attachment a) st = st
  | Some b =>
      ∃ c s, encode_ipc c = Ok s ∧ v = attachment_value a (bs (base64_encode s)) ∧
        ((sealing = true ∨ columns_where (is_secret_option (find_catalog (at_catalog a))) (b_schema b) = []) ∧ c = b ∧
          after (seal_attachment a) st = st ∨
         sealing = false ∧
         answer (keep_secrets (find_catalog (at_catalog a)) (at_id a) b) st = Ok c ∧
         after (seal_attachment a) st = after (keep_secrets (find_catalog (at_catalog a)) (at_id a) b) st)
  end.
Proof using Type.
  unfold seal_attachment. destruct (at_options a) as [b|]; [|by intros [= <-]].
  destruct sealing; autorewrite with storage.
  - cbn. autorewrite with storage. intros (o & (s & Hs & [= <-])%bind_Ok & [= <-])%bind_Ok. exists b, s.
    split_and!; [done|done|]. left. rewrite Hs. split_and!; [by left|done|done].
  - cbn. autorewrite with storage. intros (o & (c & Hc & [= <-])%bind_Ok & H)%bind_Ok. cbn in H.
    autorewrite with storage in H. apply bind_Ok in H as (o & (s & Hs & [= <-])%bind_Ok & [= <-]). exists c, s.
    split_and!; [done|done|]. right. split_and!; [done|done|]. rewrite Hc. cbn. autorewrite with storage. by rewrite Hs.
Qed.

(** *** Reading it *)

Lemma attachment_value_nonempty a options : attachment_value a options ≠ [].
Proof using Type. unfold attachment_value. by destruct (at_catalog a). Qed.

Definition with_options (a : Attachment) (options : option batch) : Attachment :=
  mkAttachment (at_catalog a) (at_data_version a) (at_alias a) (at_id a) options.

Lemma attachment_of_value `{!Base64Laws B} a b model req st (encoded : bytes) :
  find_catalog (at_catalog a) = Some model → text_ok a → encoded ≠ [] → decode_ipc encoded = Ok (Some b) →
  get_optional_binary req "attach_opaque_data" = Ok (Some (attachment_value a (bs (base64_encode encoded)))) →
  answer (attachment_of req) st = answer (restore_secret_options (with_options a (Some b))) st.
Proof using Type.
  intros Hm Ht He Hd Hreq. unfold attachment_of. destruct req as [req|]; [|done].
  rewrite answer_bind, answer_lift, after_lift, Hreq. cbn [mbind result_bind].
  destruct (attachment_value _ _) as [|x l] eqn:Hv; [by apply attachment_value_nonempty in Hv|]. rewrite <- Hv.
  rewrite split_value by (done || apply base64_nul_free). rewrite Hm.
  destruct (bs (base64_encode encoded)) as [|y m] eqn:Hb.
  { destruct He. assert (base64_encode encoded = base64_encode []) as E.
    { rewrite base64_encode_nil, <- (str_bs (base64_encode encoded)), Hb. done. }
    apply (f_equal base64_decode) in E. rewrite !base64_decode_encode in E. by injection E. }
  rewrite <- Hb, str_bs. rewrite answer_bind, after_bind. unfold wire_base64_decode.
  rewrite base64_decode_encode. cbn [from_opt lift]. autorewrite with storage. cbn [mbind result_bind].
  rewrite Hd. cbn [mbind result_bind]. by autorewrite with storage.
Qed.

Lemma attachment_of_none a model req st :
  find_catalog (at_catalog a) = Some model → text_ok a →
  get_optional_binary req "attach_opaque_data" = Ok (Some (attachment_value a [])) →
  answer (attachment_of req) st = answer (restore_secret_options (with_options a None)) st.
Proof using Type.
  intros Hm Ht Hreq. unfold attachment_of. destruct req as [req|]; [|done].
  rewrite answer_bind, answer_lift, after_lift, Hreq. cbn [mbind result_bind].
  destruct (attachment_value _ _) as [|x l] eqn:Hv; [by apply attachment_value_nonempty in Hv|]. rewrite <- Hv.
  rewrite split_value by (done || apply nul_free_nil). by rewrite Hm.
Qed.

Lemma restore_nothing `{!ArrowLaws A} a model st :
  find_catalog (at_catalog a) = Some model → options_ok model (at_options a) → NoDup (map option_name (cm_options model)) →
  answer (restore_secret_options a) st = Ok a.
Proof using Type.
  intros Hm Hok Hnd. unfold restore_secret_options. rewrite Hm. rewrite wants_nothing by done. by destruct (at_id a).
Qed.

(** Some secret option is not among the columns that went. *)
Lemma wants_something `{!ArrowLaws A} model b :
  options_ok model (Some b) → columns_where (is_secret_option (Some model)) (b_schema b) ≠ [] →
  wants_secrets model
    (Some (select_columns b (columns_where (λ n, negb (is_secret_option (Some model) n)) (b_schema b)))) = true.
Proof using Type.
  intros (Hn & Hl & _) Hs. destruct (columns_where (is_secret_option (Some model)) (b_schema b)) as [|i l] eqn:Hc; [done|].
  assert (i ∈ columns_where (is_secret_option (Some model)) (b_schema b)) as Hi by (rewrite Hc; left).
  apply list_elem_of_filter in Hi as [Hi _]. destruct (b_schema b !! i) as [f|] eqn:Hf; [|done]. cbn in Hi.
  unfold wants_secrets. apply existsb_exists. apply Is_true_true, existsb_exists in Hi as (o & Ho & Hso).
  apply andb_true_iff in Hso as [Hso Hno]. apply bool_decide_eq_true in Hno. exists o. split; [done|].
  rewrite Hso. cbn [andb]. destruct (select_entries (λ n, negb (is_secret_option (Some model) n)) b Hl) as [_ Hl'].
  rewrite has_column_cell by exact Hl'. rewrite cell_absent; [by rewrite bool_decide_false by by intros [? ?]|].
  rewrite selected_names by done. intros (e & He & [Hp _]%list_elem_of_filter)%list_elem_of_fmap.
  rewrite <- He in Hp. apply Is_true_true, negb_true_iff in Hp. apply not_true_iff_false in Hp. destruct Hp.
  unfold is_secret_option. apply existsb_exists. exists o. rewrite Hso. split; [done|]. by rewrite bool_decide_true.
Qed.

(** A value that was made opens as the attachment it was made of. *)
Lemma value_opens `{!ArrowLaws A} `{!Base64Laws B} model a v req st st' :
  find_catalog (at_catalog a) = Some model → NoDup (map option_name (cm_options model)) →
  options_ok model (at_options a) → text_ok a → at_id a ≠ [] →
  answer (seal_attachment a) st = Ok v →
  get_optional_binary req "attach_opaque_data" = Ok (Some v) →
  s_kv st' !! (kAttachSecretsScope, at_id a) = s_kv (after (seal_attachment a) st) !! (kAttachSecretsScope, at_id a) →
  answer (attachment_of req) st' = Ok a.
Proof using Type.
  intros Hm Hnd Hok Ht Hid Hv Hreq Hkv. apply seal_answer in Hv. destruct (at_options a) as [b|] eqn:Ho.
  - destruct Hv as (c & s & (_ & Hne & _ & Hd)%encode_ipc_read & -> & Hc). rewrite (attachment_of_value _ _ _ _ _ _ Hm Ht Hne Hd Hreq).
    assert (c = b → answer (restore_secret_options (with_options a (Some c))) st' = Ok a) as Hsame.
    { intros ->. rewrite (restore_nothing _ model); [|done..]. rewrite <- Ho. by destruct a. }
    destruct Hc as [(_ & -> & _)|(_ & Hk & Hafter)]; [by apply Hsame|].
    destruct (keep_answer _ _ _ _ _ Hk) as [(_ & -> & _)|(s2 & Hs2 & -> & Hst)]; [by apply Hsame|].
    rewrite Hafter, Hst in Hkv. cbn [spec fst s_kv] in Hkv. rewrite lookup_insert_eq in Hkv.
    destruct (columns_where (is_secret_option (find_catalog (at_catalog a))) (b_schema b)) as [|x l] eqn:Hcw.
    { apply Hsame. unfold keep_secrets in Hk. rewrite Hcw in Hk. by injection Hk. }
    rewrite Hm in *. unfold restore_secret_options. cbn [at_catalog at_id at_options with_options]. rewrite Hm.
    rewrite wants_something; [|done|by rewrite Hcw]. destruct (at_id a) as [|y m] eqn:Hida; [done|]. cbn [negb].
    rewrite answer_bind. unfold kv_get. rewrite answer_call, after_call. cbn [spec fst snd value_of]. rewrite Hkv.
    cbn [mbind result_bind]. rewrite <- Hcw in Hs2. apply encode_ipc_read in Hs2 as (_ & _ & _ & Hd2).
    rewrite answer_bind, answer_lift, after_lift, Hd2. cbn [mbind result_bind].
    rewrite (restored_cells model b (is_secret_option (Some model)) Hok Hnd).
    destruct Hok as (_ & Hl & Hmd & Hr). unfold answer. cbn. rewrite entries_schema, entries_columns by done.
    destruct b as [bsch bm br bc], a as [ac adv aa ai ao]. cbn in *. by subst.
  - destruct Hv as [-> _]. rewrite (attachment_of_none _ _ _ _ Hm Ht Hreq). rewrite (restore_nothing _ model); [|done..].
    rewrite <- Ho. by destruct a.
Qed.

(** What an attachment carries survives the round: whoever reads the value
    ATTACH answered with -- any worker process, on a transport that seals it or
    not, while the storage still holds what was left there -- has the attachment
    back, with every option in its place, the secret ones too. *)
Theorem attachment_survives `{!ArrowLaws A} `{!Base64Laws B} model a v req st st' :
  find_catalog (at_catalog a) = Some model → NoDup (map option_name (cm_options model)) →
  options_ok model (at_options a) → text_ok a → at_id a ≠ [] →
  answer (seal_attachment a) st = Ok v →
  get_optional_binary req "attach_opaque_data" = Ok (Some v) →
  s_kv st' !! (kAttachSecretsScope, at_id a) = s_kv (after (seal_attachment a) st) !! (kAttachSecretsScope, at_id a) →
  answer (attachment_of req) st' = Ok a.
Proof using Type. apply value_opens. Qed.

(** What stays of the options on a transport that does not seal. *)
Lemma kept_columns model id b c st (Q R : Prop) :
  sealing = false →
  (sealing = true ∨ columns_where (is_secret_option model) (b_schema b) = []) ∧ c = b ∧ Q ∨
  sealing = false ∧ answer (keep_secrets model id b) st = Ok c ∧ R →
  columns_where (is_secret_option model) (b_schema b) = [] ∧ c = b ∨
  c = select_columns b (columns_where (λ n, negb (is_secret_option model n)) (b_schema b)).
Proof using Type.
  intros Hs [([H|H] & -> & _)|(_ & H & _)]; [congruence|by left|].
  destruct (keep_answer _ _ _ _ _ H) as [(H1 & -> & _)|(? & _ & -> & _)]; [by left|by right].
Qed.

(** Selecting columns that are the same. *)
Lemma select_columns_ext b b' l :
  b_schema b = b_schema b' → b_metadata b = b_metadata b' → b_rows b = b_rows b' →
  (∀ i, i ∈ l → b_columns b !! i = b_columns b' !! i) → select_columns b l = select_columns b' l.
Proof using Type.
  intros Hsch Hmd Hr Hin. unfold select_columns. rewrite Hsch, Hmd, Hr. f_equal.
  induction l as [|i l IH]; [done|]. cbn [omap list_omap]. rewrite (Hin i) by left.
  rewrite IH by (intros j Hj; apply Hin; by right). done.
Qed.

Lemma filter_all {X} (Q : X → Prop) `{!∀ x, Decision (Q x)} (l : list X) : (∀ x, x ∈ l → Q x) → filter Q l = l.
Proof using Type.
  induction l as [|x l IH]; intros HQ; [done|]. rewrite filter_cons, decide_True by (apply HQ; left).
  rewrite IH; [done|]. intros y Hy. apply HQ. by right.
Qed.

Lemma select_all b : length (b_columns b) = length (b_schema b) → ∀ P,
  columns_where P (b_schema b) = [] → select_columns b (columns_where (λ n, negb (P n)) (b_schema b)) = b.
Proof using Type.
  intros Hl P Hp. symmetry in Hl. destruct (select_entries (λ n, negb (P n)) b Hl) as [He Hs].
  assert (filter (λ e, Is_true (negb (P (f_name e.1)))) (entries b) = entries b) as Hall.
  { apply filter_all. intros e He'. apply Is_true_true, negb_true_iff, not_true_iff_false. intros HP.
    destruct (select_entries P b Hl) as [He2 _]. unfold entries at 1 in He2. unfold select_columns in He2. rewrite Hp in He2.
    cbn in He2. assert (e ∈ @nil (field * array)) as Hn; [|by apply elem_of_nil in Hn].
    rewrite He2. apply list_elem_of_filter. by rewrite HP. }
  rewrite Hall in He. pose proof (entries_schema _ Hs) as H1. pose proof (entries_columns _ Hs) as H2.
  rewrite He in H1, H2. rewrite entries_schema in H1 by done. rewrite entries_columns in H2 by done.
  unfold select_columns in *. cbn [b_schema b_columns] in H1, H2. rewrite <- H1, <- H2. by destruct b.
Qed.

(** C23. On a transport that does not seal the value, a secret option leaves no
    trace in it: two attachments that differ in secret options alone -- whatever
    they are, and whatever else is stored -- are answered with the same bytes. *)
Theorem secrets_stay_behind a a' b b' v v' st st' :
  sealing = false → at_options a = Some b → at_options a' = Some b' →
  with_options a None = with_options a' None → b_schema b = b_schema b' → b_metadata b = b_metadata b' →
  b_rows b = b_rows b' → length (b_columns b) = length (b_schema b) → length (b_columns b') = length (b_schema b) →
  (∀ i f, b_schema b !! i = Some f → is_secret_option (find_catalog (at_catalog a)) (f_name f) = false →
     b_columns b !! i = b_columns b' !! i) →
  answer (seal_attachment a) st = Ok v → answer (seal_attachment a') st' = Ok v' → v = v'.
Proof using Type.
  intros Hs Ho Ho' Ha Hsch Hmd Hr Hl Hl' Hcols Hv Hv'. apply seal_answer in Hv, Hv'. rewrite Ho in Hv. rewrite Ho' in Hv'.
  assert (at_catalog a = at_catalog a' ∧ at_data_version a = at_data_version a' ∧ at_alias a = at_alias a' ∧ at_id a = at_id a')
    as (E1 & E2 & E3 & E4) by (by injection Ha).
  destruct Hv as (c & s & Hc & -> & Hcase%kept_columns), Hv' as (c' & s' & Hc' & -> & Hcase'%kept_columns); [|done..].
  rewrite <- E1, <- Hsch in Hcase'. set (P := is_secret_option (find_catalog (at_catalog a))) in *.
  assert (c = select_columns b (columns_where (λ n, negb (P n)) (b_schema b))) as ->.
  { destruct Hcase as [[Hp ->]| ->]; [|done]. by rewrite select_all. }
  assert (c' = select_columns b' (columns_where (λ n, negb (P n)) (b_schema b'))) as ->.
  { destruct Hcase' as [[Hp ->]| ->]; [|by rewrite Hsch]. rewrite Hsch in Hp, Hl'. by rewrite select_all. }
  rewrite Hsch, (select_columns_ext b b') in Hc; [|done..|].
  - rewrite Hc in Hc'. injection Hc' as <-. unfold attachment_value. by rewrite E1, E2, E3, E4.
  - intros i [Hi _]%list_elem_of_filter. rewrite <- Hsch in Hi. destruct (b_schema b !! i) as [f|] eqn:Hf; [|done].
    cbn in Hi. apply (Hcols i f Hf). by apply Is_true_true, negb_true_iff in Hi.
Qed.

End attachment.

(** What ATTACH merges is every declared option, in order. *)
Lemma option_values_length `{A : Arrow} `{C : Compute} supplied options l :
  option_values supplied options = Ok l → length l = length options.
Proof.
  revert l. induction options as [|o options IH]; intros l; cbn [option_values]; [by intros [= <-]|].
  intros (a & _ & (l1 & Hl & [= <-])%bind_Ok)%bind_Ok. cbn. by rewrite (IH l1).
Qed.

Lemma merge_options_ok `{A : Arrow} `{C : Compute} model attach options :
  merge_attach_options model attach = Ok options → options_ok model options.
Proof.
  unfold merge_attach_options. destruct (cm_options model) as [|o os] eqn:Ho; [by intros [= <-]|].
  intros (e & _ & (b & _ & (l & Hl%option_values_length & [= <-])%bind_Ok)%bind_Ok)%bind_Ok.
  unfold options_ok. cbn [b_schema b_columns b_metadata b_rows]. rewrite Ho.
  split_and!; [..|done|done].
  - cbn. unfold option_fields. by rewrite map_map.
  - rewrite Hl. cbn. unfold option_fields. by rewrite length_map.
Qed.

(** ** A catalog with a password *)

Definition option_spec (name : string) (secret : bool) : AttachService.AttachOptionSpec :=
  AttachService.mkOption name [] (Some T_binary) None false secret.
Definition sample_catalog : CatalogModel := mkCatalog (bs "app") [option_spec "user" false; option_spec "password" true].
Definition sample_options (user password : string) : batch :=
  mkBatch [Field "user" T_binary true []; Field "password" T_binary true []] None 1
    [mkArray T_binary [V_text (bs user)]; mkArray T_binary [V_text (bs password)]].
Definition sample_attachment (password : string) : Attachment :=
  mkAttachment (bs "app") (bs "1") (bs "alias") (bs "id") (Some (sample_options "alice" password)).

#[local] Existing Instances toy_arrow hex_base64.

Definition seal_sample (password : string) : prog bytes :=
  seal_attachment sample_catalog [] false (sample_attachment password).
Definition sample_value : bytes := match answer (seal_sample "hunter2") empty_store with Ok v => v | Throw _ => [] end.
Definition sample_request : option batch :=
  Some (mkBatch [Field "attach_opaque_data" T_binary true []] None 1 [mkArray T_binary [V_text sample_value]]).

(** The password is in the storage, not in the value; it comes back. *)
Lemma attachment_survives_witness :
  answer (seal_sample "hunter2") empty_store = Ok sample_value ∧
  answer (attachment_of sample_catalog [] false sample_request) (after (seal_sample "hunter2") empty_store) =
    Ok (sample_attachment "hunter2") ∧
  answer (attachment_of sample_catalog [] false sample_request) empty_store ≠ Ok (sample_attachment "hunter2").
Proof.
  split; [vm_compute; reflexivity|]. split; [|vm_compute; discriminate].
  apply (attachment_survives sample_catalog [] false sample_catalog (sample_attachment "hunter2") sample_value
    sample_request empty_store); try reflexivity; try by_decide; discriminate.
Defined.

Lemma secrets_stay_behind_witness :
  answer (seal_sample "hunter2") empty_store = Ok sample_value ∧ answer (seal_sample "12345678") empty_store = Ok sample_value.
Proof.
  assert (is_ok (answer (seal_sample "12345678") empty_store) = true) as H by (vm_compute; reflexivity).
  split; [vm_compute; reflexivity|]. destruct (answer (seal_sample "12345678") empty_store) as [v|] eqn:E; [|done]. f_equal.
  symmetry. apply (secrets_stay_behind sample_catalog [] false (sample_attachment "hunter2") (sample_attachment "12345678")
    (sample_options "alice" "hunter2") (sample_options "alice" "12345678") sample_value v empty_store empty_store);
    try reflexivity; [|exact E].
  intros [|[|i]] f; cbn; intros [= <-]; [reflexivity|vm_compute; discriminate].
Defined.

(** A NUL byte in the alias of an ATTACH splits the value in six: the attachment
    is then read as one of the primary catalog, without options -- or, where the
    value is sealed, refused. *)
Example alias_with_nul :
  let a := mkAttachment (bs "app") (bs "1") [zb 65; NUL; zb 66] (bs "id") None in
  ∃ v, answer (seal_attachment sample_catalog [] true a) empty_store = Ok v ∧
    (let request := Some (mkBatch [Field "attach_opaque_data" T_binary true []] None 1 [mkArray T_binary [V_text v]]) in
     answer (attachment_of sample_catalog [] false request) empty_store = Ok (no_attachment sample_catalog) ∧
     answer (attachment_of sample_catalog [] true request) empty_store = Throw (Opaque_not_recognized "attach_opaque_data")).
Proof. eexists. split; [vm_compute; reflexivity|]. vm_compute. by split. Qed.

End Attachment.
