(* ===== verification/WireSchema.v ===== *)
(** * Schemas on the wire ([src/wire.cpp])

    A schema travels as an IPC stream without batches.  Arrow's reader and writer
    of such streams are parameters; the three functions of the source around them
    are here. *)

From S2P Require Import Prelude Arrow ArrowRecord Wire.
Import Wire.

Module WireSchema.

(** [arrow::Schema]: the fields, and the metadata, which may be absent. *)
Abbreviation schema := (list field * option (list (string * string)))%type.

(** [RecordBatchStreamReader::Open] with [schema], and [MakeStreamWriter] with
    [Close]. *)
Class SchemaCodec := {
  read_schema : bytes → string + schema;
  write_schema : schema → string + bytes;
}.
Class SchemaCodecLaws (A : Arrow) (S : SchemaCodec) : Prop := {
  read_write_schema s b : write_schema s = inr b → b ≠ [] ∧ read_schema b = inr s;
  (** Such a stream has no batch; and a stream with a batch starts with its schema. *)
  no_batch s b : write_schema s = inr b → read_stream b = inr None;
  read_batch_schema b s : write_stream b = inr s → read_schema s = inr (b_schema b, b_metadata b);
}.

Section codec.
Context `{A : Arrow} `{S : SchemaCodec}.

Definition decode_schema (b : bytes) : result (option schema) :=
  match b with [] => Ok None | _ => s ← unwrap (read_schema b) "reading an embedded IPC schema"; Ok (Some s) end.

Definition get_schema (b : option batch) (field : string) : result (option schema) :=
  o ← get_optional_binary b field;
  match o with Some s => decode_schema s | None => Ok None end.

Definition encode_schema (s : schema) : result bytes := unwrap (write_schema s) "closing a schema-only IPC stream".

Lemma decode_encode_schema `{!SchemaCodecLaws A S} s b : encode_schema s = Ok b → decode_schema b = Ok (Some s).
Proof using Type.
  unfold encode_schema, unwrap. destruct (write_schema s) as [|b'] eqn:Hw; [done|]. intros [= <-].
  destruct (read_write_schema s b' Hw) as [Hb Hr]. destruct b'; [done|]. cbn. by rewrite Hr.
Qed.

(** A schema is no batch to [decode_ipc]. *)
Lemma decode_ipc_schema `{!SchemaCodecLaws A S} s b : encode_schema s = Ok b → decode_ipc b = Ok None.
Proof using Type.
  unfold encode_schema, unwrap. destruct (write_schema s) as [|b'] eqn:Hw; [done|]. intros [= <-].
  destruct (read_write_schema s b' Hw) as [Hb _]. pose proof (no_batch s b' Hw) as Hn. destruct b'; [done|].
  unfold decode_ipc. by rewrite Hn.
Qed.
End codec.

(** ** A concrete instance

    The streams of [table_arrow], and the schemas of a list, each written as its
    place after a byte that no batch starts with. *)
Section schemas.
Context (table : list batch) (schemas : list schema).

Definition schema_byte : ascii := zb 4.

Definition schema_arrow : Arrow :=
  {| type_equals := type_equals (Arrow := table_arrow table); type_to_string := type_to_string (Arrow := table_arrow table);
     get_field_index := get_field_index (Arrow := table_arrow table);
     get_all_field_indices := get_all_field_indices (Arrow := table_arrow table);
     read_stream := λ s, match s with
       | c :: _ => if bool_decide (c = schema_byte) then inr None else read_stream (Arrow := table_arrow table) s
       | [] => inl "empty"%string
       end;
     validate := validate (Arrow := table_arrow table); write_stream := write_stream (Arrow := table_arrow table);
     dictionary_of := dictionary_of (Arrow := table_arrow table); null_array := null_array (Arrow := table_arrow table);
     empty_array := empty_array (Arrow := table_arrow table) |}.

Lemma batch_byte b s : table_write table b = inr s → ∃ c r, s = c :: r ∧ c ≠ schema_byte.
Proof using Type.
  unfold table_write. destruct (binary_recordb b); [intros [= <-]; by eexists _, _|].
  destruct (list_find _ table) as [[i c]|]; [|done]. intros [= <-]. by eexists _, _.
Qed.

#[global] Instance schema_arrow_laws : ArrowLaws schema_arrow.
Proof using Type.
  assert (∀ b s, table_write table b = inr s → read_stream (Arrow := schema_arrow) s = read_stream (Arrow := table_arrow table) s) as Hr.
  { intros b s (c & r & -> & Hc)%batch_byte. cbn. by rewrite bool_decide_false. }
  destruct (table_arrow_laws table) as [L1 L2 L3 L4 L5 L6 L7 L8 L9 L10]. split; try assumption.
  - intros b s Hw. cbn in Hw. rewrite (Hr b s Hw). by apply L5.
  - intros b Hb. destruct (L10 b Hb) as (Hv & s & Hw & Hs & Hread). split; [done|]. exists s. split_and!; [done..|].
    by rewrite (Hr b s Hw).
Qed.

Definition list_codec : SchemaCodec :=
  {| read_schema := λ s, match s with
       | c :: r =>
           if bool_decide (c = schema_byte)
           then match dec_len r with
                | Some (i, []) => match schemas !! i with Some x => inr x | None => inl "no such schema"%string end
                | _ => inl "not a schema"%string
                end
           else match table_read table s with
                | inr (Some b) => inr (b_schema b, b_metadata b)
                | _ => inl "not a stream"%string
                end
       | [] => inl "empty"%string
       end;
     write_schema := λ x, match list_find (λ y, y = x) schemas with
       | Some (i, _) => inr (schema_byte :: enc_len i)
       | None => inl "not supported"%string
       end |}.

#[global] Instance list_codec_laws : SchemaCodecLaws schema_arrow list_codec.
Proof using Type.
  split.
  - intros x b. cbn. destruct (list_find _ schemas) as [[i y]|] eqn:Hf; [|done]. intros [= <-]. split; [done|].
    apply list_find_Some in Hf as (Hi & -> & _). cbn [read_schema list_codec]. rewrite bool_decide_true by done.
    pose proof (dec_enc_len i []) as Hd. rewrite app_nil_r in Hd. by rewrite Hd, Hi.
  - intros x b. cbn. destruct (list_find _ schemas) as [[i y]|] eqn:Hf; [|done]. intros [= <-]. cbn. done.
  - intros b s Hw. destruct (table_read_write table b s Hw) as [_ Hr]. apply batch_byte in Hw as (c & r & -> & Hc).
    cbn [read_schema list_codec]. rewrite bool_decide_false by done. by rewrite Hr.
Qed.
End schemas.

End WireSchema.
