(* ===== verification/FunctionSpec.v ===== *)
(** * What a function declares ([include/vgi/types.h], [src/function.cpp],
    [src/arg_schema.cpp])

    The arguments of a function: their place in the call, their types, what they
    must satisfy.  The constructors the authors use, the Arrow types of the type
    names, the shape of a scalar function's output and the filter semantics a
    function advertises. *)

From Stdlib Require Import SpecFloat.
From S2P Require Import Prelude Arrow.

Module FunctionSpec.

Record TypeBound := mkTypeBound { tb_name : string; tb_accepts : option (dtype → bool) }.

Record ArgSpec := mkArgSpec {
  sp_name : string;
  (** An [int]: none for an argument passed by name only. *)
  sp_index : option Z;
  sp_type : string;
  sp_description : string;
  sp_constant : bool;
  sp_required : bool;
  sp_varargs : bool;
  sp_arrow_type : option dtype;
  sp_type_bound : option TypeBound;
  sp_ge : option spec_float;
  sp_le : option spec_float;
  sp_gt : option spec_float;
  sp_lt : option spec_float;
  sp_choices : option string;
  sp_pattern : option string;
  sp_default_value : option string;
}.

(** *** The constructors *)

Definition plain_spec (name : string) (index : option Z) (type description : string) (constant required : bool)
    (arrow_type : option dtype) : ArgSpec :=
  mkArgSpec name index type description constant required false arrow_type None None None None None None None None.

Definition column (name : string) (index : Z) (type description : string) : ArgSpec :=
  plain_spec name (Some index) type description false true None.
Definition constant_arg (name : string) (index : Z) (type description : string) : ArgSpec :=
  plain_spec name (Some index) type description true true None.
Definition named (name type description : string) : ArgSpec :=
  plain_spec name None type description false false None.
Definition table (name : string) (index : Z) (description : string) : ArgSpec := column name index "table" description.
Definition any_column (name : string) (index : Z) (description : string) : ArgSpec := column name index "any" description.
Definition column_typed (name : string) (index : Z) (type : dtype) (description : string) : ArgSpec :=
  plain_spec name (Some index) "" description false true (Some type).
Definition constant_typed (name : string) (index : Z) (type : dtype) (description : string) : ArgSpec :=
  plain_spec name (Some index) "" description true true (Some type).

Definition with_varargs (s : ArgSpec) : ArgSpec :=
  mkArgSpec (sp_name s) (sp_index s) (sp_type s) (sp_description s) (sp_constant s) (sp_required s) true
    (sp_arrow_type s) (sp_type_bound s) (sp_ge s) (sp_le s) (sp_gt s) (sp_lt s) (sp_choices s) (sp_pattern s)
    (sp_default_value s).
Definition with_range (low high : option spec_float) (s : ArgSpec) : ArgSpec :=
  mkArgSpec (sp_name s) (sp_index s) (sp_type s) (sp_description s) (sp_constant s) (sp_required s) (sp_varargs s)
    (sp_arrow_type s) (sp_type_bound s) low high (sp_gt s) (sp_lt s) (sp_choices s) (sp_pattern s) (sp_default_value s).
Definition with_bound (b : TypeBound) (s : ArgSpec) : ArgSpec :=
  mkArgSpec (sp_name s) (sp_index s) (sp_type s) (sp_description s) (sp_constant s) (sp_required s) (sp_varargs s)
    (sp_arrow_type s) (Some b) (sp_ge s) (sp_le s) (sp_gt s) (sp_lt s) (sp_choices s) (sp_pattern s) (sp_default_value s).

(** *** Types *)

Definition kByName : list (string * dtype) :=
  [("int8", T_int8); ("int16", T_int16); ("int32", T_int32);
   ("int64", T_int64); ("uint8", T_uint8); ("uint16", T_uint16);
   ("uint32", T_uint32); ("uint64", T_uint64); ("float32", T_float);
   ("float", T_float); ("float64", T_double); ("double", T_double);
   ("bool", T_bool); ("boolean", T_bool); ("varchar", T_string);
   ("string", T_string); ("utf8", T_string); ("blob", T_binary);
   ("binary", T_binary)]%string.

(** The null type for a name that is none of these. *)
Definition arg_type_to_arrow (name : string) : dtype :=
  from_option snd T_null (List.find (λ e, bool_decide (e.1 = name)) kByName).

Definition build_scalar_output_schema (return_type : option dtype) : list field :=
  match return_type with
  | Some t => [Field "result" t true []]
  | None => [Field "result" T_null false [("vgi:any", "true")]]
  end%string.

(** The position of an argument that has one. *)
Definition position (s : ArgSpec) : option Z := i ← sp_index s; if i <? 0 then None else Some i.

(** *** Filter semantics *)

Definition kDuckDBStandardV1 : string := "vgi.duckdb.standard.v1".

Definition resolved_filter_semantic_profiles (filter_pushdown : bool) (declared : list string) : result (list string) :=
  let profiles := match declared with [] => if filter_pushdown then [kDuckDBStandardV1] else [] | _ => declared end in
  if forallb (λ p, bool_decide (p = kDuckDBStandardV1)) profiles then Ok profiles
  else Throw (Invalid_argument ("C++ SDK supports only " +:+ kDuckDBStandardV1 +:+ " filter semantics")).

End FunctionSpec.
