(* ===== verification/Arguments.v ===== *)
(** * The arguments of a call ([src/arguments.cpp])

    The engine ships arguments as a one-row batch: a struct column [args] whose
    children are [positional_<i>] and [named_<name>], or one column an argument.
    [parse] reads both; [remap_positional] puts the constants, which the engine
    numbers among themselves, at the positions the function declares them at.
    The theorems: after both every argument is where its declaration says, the
    writes of [parse] stay within its vectors for every name but one, and the
    arguments a catalog table serializes for its scan read back. *)

From stdpp Require Import sorting.
From S2P Require Import Prelude Text Arrow ArrowCompute ArrowRecord Wire Metadata WireSchema FunctionSpec.
Import Wire WireSchema FunctionSpec.

Module Arguments.

(** The most elements a [std::vector] of pointers can be given: its
    [max_size], or less where memory is short. *)
Class Memory := vector_capacity : Z.

Definition kPrefix : string := "positional_".

(** The digits [s] starts with, and the rest. *)
Fixpoint span_digits (s : bytes) : bytes * bytes :=
  match s with
  | c :: r => if is_digit c then let '(d, r) := span_digits r in (c :: d, r) else ([], s)
  | [] => ([], [])
  end.

(** [std::from_chars] into a [size_t]: no digits and a value that does not fit are errors. *)
Definition from_chars (s : bytes) : option (Z * bytes) :=
  let '(d, r) := span_digits s in
  match d with
  | [] => None
  | _ => let v := read_digits d 0 in if v <? 2 ^ 64 then Some (v, r) else None
  end.

Definition positional_index (name : string) : option Z :=
  if (String.length name <=? String.length kPrefix)%nat || negb (String.prefix kPrefix name) then None
  else match from_chars (bs (String.substring (String.length kPrefix) (String.length name) name)) with
       | Some (v, []) => Some v
       | _ => None
       end.

Record Arguments := mkArguments {
  positional_ : list (option array);
  positional_fields_ : list (option field);
  named_ : gmap string array;
}.
Definition no_arguments : Arguments := mkArguments [] [] ∅.

Definition kNamed : string := "named_".
Definition strip_named (name : string) : string := String.substring (String.length kNamed) (String.length name) name.

(** [v[i] = x] on a [std::vector], which checks no index: past the end of the
    vector it is undefined behaviour. *)
Definition write_at {X} (v : list X) (e : Z * X) : result (list X) :=
  if e.1 <? Z.of_nat (length v) then Ok (<[Z.to_nat e.1 := e.2]> v)
  else Throw (Undefined_behaviour "a write past the end of a vector").
Fixpoint write_each {X} (l : list (Z * X)) (v : list X) : result (list X) :=
  match l with
  | [] => Ok v
  | e :: l => v ← write_at v e; write_each l v
  end.

(** What the writes leave where they are all within the vector, and
    [m[key] = x] for each of [l]. *)
Definition write_all {X} (l : list (Z * X)) (v : list X) : list X :=
  foldl (λ v e, <[Z.to_nat e.1 := e.2]> v) v l.
Definition insert_all {X} (l : list (string * X)) (m : gmap string X) : gmap string X :=
  foldl (λ m e, <[e.1 := e.2]> m) m l.

(** [v.assign(n, nullptr)], and then the writes. *)
Definition seat {X} (n : Z) (l : list (Z * X)) : result (list (option X)) :=
  write_each (map (λ e, (e.1, Some e.2)) l) (replicate (Z.to_nat n) None).

Definition highest (l : list Z) : Z := foldl Z.max 0 l.

Section arguments.
Context `{A : Arrow} `{C : Compute} `{M : Memory}.

(** ** Parsing *)

(** What the loop over the children of [args] gathers. *)
Record children := mkChildren {
  ch_positional : list (Z * array);
  ch_fields : list (Z * field);
  ch_named : gmap string array;
}.

Definition read_child (structs : array) (st : children) (i : nat) (f : field) : children :=
  let name := f_name f in
  let column := struct_field structs i in
  match positional_index name with
  | Some index =>
      mkChildren (ch_positional st ++ [(index, column)]) (ch_fields st ++ [(index, f)])
        (insert_all [(name, column)] (ch_named st))
  | None =>
      let names := if String.prefix kNamed name then [strip_named name; name] else [name] in
      mkChildren (ch_positional st) (ch_fields st) (insert_all (map (λ n, (n, column)) names) (ch_named st))
  end.

Fixpoint read_children (structs : array) (i : nat) (fields : list field) (st : children) : children :=
  match fields with
  | [] => st
  | f :: fields => read_children structs (S i) fields (read_child structs st i f)
  end.

Definition parse_struct (column : array) : result Arguments :=
  match a_type column with
  | T_struct fields =>
      let st := read_children column 0 fields (mkChildren [] [] ∅) in
      match ch_positional st with
      | [] => Ok (mkArguments [] [] (ch_named st))
      | _ =>
          (** [highest + 1] is a [size_t]. *)
          let size := to_uint64 (highest (ch_positional st).*1 + 1) in
          throw_if (vector_capacity <? size) (Runtime_error "std::bad_alloc");;
          positional ← seat size (ch_positional st);
          fields ← seat size (ch_fields st);
          Ok (mkArguments positional fields (ch_named st))
      end
  | _ => Ok no_arguments
  end.

Definition parse_flat (b : batch) : Arguments :=
  let cells := zip (b_schema b) (b_columns b) in
  mkArguments (Some <$> b_columns b) (Some <$> b_schema b)
    (insert_all (map (λ e, (f_name e.1, e.2)) cells) ∅).

Definition parse (ipc_bytes : bytes) : result Arguments :=
  match ipc_bytes with
  | [] => Ok no_arguments
  | _ =>
      b ← decode_ipc ipc_bytes;
      match b with
      | None => Ok no_arguments
      | Some b =>
          match b_schema b, b_columns b with
          | [f], [column] => if bool_decide (f_name f = "args"%string) then parse_struct column else Ok (parse_flat b)
          | _, _ => Ok (parse_flat b)
          end
      end
  end.

(** ** Reading *)

Definition positional (a : Arguments) (index : nat) : option array := mjoin (positional_ a !! index).
Definition named_value (a : Arguments) (name : string) : option array := named_ a !! name.
Definition positional_field (a : Arguments) (index : nat) : option field := mjoin (positional_fields_ a !! index).
Definition positional_type (a : Arguments) (index : nat) : option dtype := f_type <$> positional_field a index.

(** [array && array->length() > 0 && array->IsNull(0)] *)
Definition null_at_0 (a : option array) : bool :=
  match a with Some a => match a_values a with v :: _ => is_null v | [] => false end | None => false end.
Definition positional_is_null (a : Arguments) (index : nat) : bool := null_at_0 (positional a index).
Definition named_is_null (a : Arguments) (name : string) : bool := null_at_0 (named_value a name).

Definition cast_scalar (a : option array) (t : dtype) : option array :=
  match a with
  | None => None
  | Some a =>
      match a_values a with
      | [] | V_null :: _ => None
      | _ => if type_equals (a_type a) t then Some a
             else match cast (D_array a) t with inr (D_array a) => Some a | _ => None end
      end
  end.

Definition read_as {X} (get : value → option X) (t : dtype) (a : option array) : option X :=
  a ← cast_scalar a t; get (first a).
Definition const_int64 (a : Arguments) (index : nat) := read_as int_of T_int64 (positional a index).
Definition const_double (a : Arguments) (index : nat) := read_as float_of T_double (positional a index).
Definition const_string (a : Arguments) (index : nat) := read_as text_of T_string (positional a index).
Definition const_bool (a : Arguments) (index : nat) := read_as bool_of T_bool (positional a index).
Definition named_int64 (a : Arguments) (name : string) := read_as int_of T_int64 (named_value a name).
Definition named_double (a : Arguments) (name : string) := read_as float_of T_double (named_value a name).
Definition named_string (a : Arguments) (name : string) := read_as text_of T_string (named_value a name).
Definition named_bool (a : Arguments) (name : string) := read_as bool_of T_bool (named_value a name).

(** ** Re-seating the constants *)

Definition constants (specs : list ArgSpec) : list Z :=
  omap (λ s, i ← position s; if sp_constant s then Some i else None) specs.

Definition remap_positional (specs : list ArgSpec) (a : Arguments) : Arguments :=
  match positional_ a, specs with
  | [], _ | _, [] => a
  | _, _ =>
      let declared := constants specs in
      let highest := highest (omap position specs) in
      if bool_decide (length declared = length specs) then a
      else if highest <? Z.of_nat (length (positional_ a)) then a
      else
        (** Each vector takes what there is at the first places of [declared]. *)
        let moved {X} (v : list (option X)) : list (option X) :=
          write_all (zip declared (take (length (positional_ a)) v)) (replicate (Z.to_nat (highest + 1)) None) in
        mkArguments (moved (positional_ a)) (moved (positional_fields_ a)) (named_ a)
  end.

(** ** Serializing the arguments of a scan *)

Definition arg_name (i : nat) : string := "arg_" +:+ Metadata.number (Z.of_nat i).

Definition serialize_scan_arguments `{S : SchemaCodec} (positional : list array) (named : list (string * array)) : result bytes :=
  match positional, named with
  | [], [] => encode_schema ([], None)
  | _, _ =>
      let fields := imap (λ i a, Field (arg_name i) (a_type a) false []) positional ++
                    map (λ e, Field e.1 (a_type e.2) false []) named in
      let columns := positional ++ named.*2 in
      let rows := match columns with [] => 0 | c :: _ => Z.of_nat (length (a_values c)) end in
      encode_ipc (mkBatch fields None rows columns)
  end.

(** ** Vectors and maps that are written to *)

Lemma write_all_app {X} (l l' : list (Z * X)) v : write_all (l ++ l') v = write_all l' (write_all l v).
Proof using Type. apply foldl_app. Qed.

Lemma write_all_length {X} (l : list (Z * X)) v : length (write_all l v) = length v.
Proof using Type.
  revert v. induction l as [|e l IH]; intros v; [done|].
  change (write_all (e :: l) v) with (write_all l (<[Z.to_nat e.1 := e.2]> v)). by rewrite IH, length_insert.
Qed.

Lemma write_all_absent {X} (l : list (Z * X)) v i :
  Forall (λ j, 0 ≤ j) l.*1 → 0 ≤ i → i ∉ l.*1 → write_all l v !! Z.to_nat i = v !! Z.to_nat i.
Proof using Type.
  revert v. induction l as [|[j x] l IH]; intros v Hpos Hi Hn; [done|].
  change (write_all (_ :: l) v) with (write_all l (<[Z.to_nat j := x]> v)). cbn in Hpos, Hn.
  apply Forall_cons in Hpos as [Hj Hpos]. apply not_elem_of_cons in Hn as [Hij Hn].
  rewrite IH by done. by rewrite list_lookup_insert_ne by lia.
Qed.

Lemma write_all_lookup {X} (l : list (Z * X)) v i x :
  Forall (λ j, 0 ≤ j) l.*1 → NoDup l.*1 → (i, x) ∈ l → (Z.to_nat i < length v)%nat →
  write_all l v !! Z.to_nat i = Some x.
Proof using Type.
  revert v. induction l as [|[j y] l IH]; intros v Hpos Hnd Hin Hi; [by apply elem_of_nil in Hin|].
  change (write_all (_ :: l) v) with (write_all l (<[Z.to_nat j := y]> v)). cbn in Hpos, Hnd.
  apply Forall_cons in Hpos as [Hj Hpos]. apply NoDup_cons in Hnd as [Hjl Hnd].
  apply elem_of_cons in Hin as [[= -> ->]|Hin].
  - rewrite write_all_absent by done.
    by rewrite list_lookup_insert_eq.
  - apply IH; [done..|]. by rewrite length_insert.
Qed.

Lemma write_each_within {X} (l : list (Z * X)) v :
  Forall (λ i, i < Z.of_nat (length v)) l.*1 → write_each l v = Ok (write_all l v).
Proof using Type.
  revert v. induction l as [|e l IH]; intros v Hl; [done|]. cbn in Hl. apply Forall_cons in Hl as [He Hl].
  cbn [write_each]. unfold write_at. rewrite (proj2 (Z.ltb_lt _ _) He). cbn [mbind result_bind].
  rewrite IH by (by rewrite length_insert). done.
Qed.

Lemma write_each_past {X} (l : list (Z * X)) v i :
  i ∈ l.*1 → Z.of_nat (length v) ≤ i → ∃ what, write_each l v = Throw (Undefined_behaviour what).
Proof using Type.
  revert v. induction l as [|e l IH]; intros v Hin Hi; [by apply elem_of_nil in Hin|].
  cbn [write_each]. unfold write_at. destruct (Z.ltb_spec e.1 (Z.of_nat (length v))) as [Hlt|]; [|by eexists].
  apply elem_of_cons in Hin as [->|Hin]; [lia|]. cbn [mbind result_bind]. apply IH; [done|]. by rewrite length_insert.
Qed.

Lemma seat_keys {X} (l : list (Z * X)) : (map (λ e, (e.1, Some e.2)) l).*1 = l.*1.
Proof using Type. by rewrite map_map. Qed.

(** A vector that is long enough takes every write, a shorter one none past its end. *)
Lemma seat_within {X} n (l : list (Z * X)) :
  Forall (λ i, i < n) l.*1 →
  seat n l = Ok (write_all (map (λ e, (e.1, Some e.2)) l) (replicate (Z.to_nat n) None)).
Proof using Type.
  intros Hl. unfold seat. apply write_each_within. rewrite seat_keys, length_replicate.
  eapply Forall_impl; [exact Hl|]. intros i Hi. cbn in *. lia.
Qed.

Lemma seat_past {X} n (l : list (Z * X)) i :
  i ∈ l.*1 → 0 ≤ n ≤ i → ∃ what, seat n l = Throw (Undefined_behaviour what).
Proof using Type.
  intros Hi Hn. unfold seat. apply (write_each_past _ _ i); [by rewrite seat_keys|]. rewrite length_replicate. lia.
Qed.

Lemma insert_all_lookup {X} (l : list (string * X)) m k x :
  (k, x) ∈ l → (∀ y, (k, y) ∈ l → y = x) → insert_all l m !! k = Some x.
Proof using Type.
  induction l as [|[k' y] l IH] using rev_ind; intros Hin Hall; [by apply elem_of_nil in Hin|].
  unfold insert_all. rewrite foldl_app. cbn. destruct (decide (k' = k)) as [->|Hk].
  - rewrite lookup_insert_eq. f_equal. apply Hall. set_solver.
  - rewrite lookup_insert_ne by done. apply IH; [set_solver|]. intros z Hz. apply Hall. set_solver.
Qed.

Lemma insert_all_app {X} (l l' : list (string * X)) m : insert_all (l ++ l') m = insert_all l' (insert_all l m).
Proof using Type. apply foldl_app. Qed.

(** ** What the children are *)

(** The children by their place. *)
Definition placed (i : nat) (fields : list field) : list (nat * field) := zip (seq i (length fields)) fields.

Definition index_of (e : nat * field) : option Z := positional_index (f_name e.2).

(** The names a child is reachable by. *)
Definition names_of (f : field) : list string :=
  match positional_index (f_name f) with
  | Some _ => [f_name f]
  | None => if String.prefix kNamed (f_name f) then [strip_named (f_name f); f_name f] else [f_name f]
  end.

Lemma read_children_spec structs i fields st :
  let l := placed i fields in
  let r := read_children structs i fields st in
  ch_positional r = ch_positional st ++ omap (λ e, (λ k, (k, struct_field structs e.1)) <$> index_of e) l ∧
  ch_fields r = ch_fields st ++ omap (λ e, (λ k, (k, e.2)) <$> index_of e) l ∧
  ch_named r = insert_all (l ≫= λ e, map (λ n, (n, struct_field structs e.1)) (names_of e.2)) (ch_named st).
Proof using Type.
  revert i st. induction fields as [|f fields IH]; intros i st; cbn [placed length seq zip_with].
  - by rewrite !app_nil_r.
  - cbn [read_children]. destruct (IH (S i) (read_child structs st i f)) as (H1 & H2 & H3). cbn in H1, H2, H3.
    cbn [omap list_omap mbind list_bind]. unfold index_of, names_of, read_child in *. cbn [fst snd] in *.
    rewrite insert_all_app. destruct (positional_index (f_name f)) as [k|]; cbn [fmap option_fmap option_map] in *.
    + rewrite H1, H2, H3. cbn [ch_positional ch_fields ch_named]. by rewrite <- !app_assoc.
    + rewrite H1, H2, H3. cbn [ch_positional ch_fields ch_named]. done.
Qed.

Lemma placed_lookup i fields j f : (j, f) ∈ placed i fields ↔ (i <= j)%nat ∧ fields !! (j - i)%nat = Some f.
Proof using Type.
  unfold placed. rewrite list_elem_of_lookup. split.
  - intros (k & Hk). apply lookup_zip_with_Some in Hk as (a & b & [= <- <-] & Ha & Hb).
    apply lookup_seq in Ha as [-> Hk]. split; [lia|]. by replace (i + k - i)%nat with k by lia.
  - intros [Hij Hf]. exists (j - i)%nat. apply lookup_zip_with_Some. exists j, f. split_and!; [done| |done].
    apply lookup_seq. apply lookup_lt_Some in Hf. lia.
Qed.

Lemma placed_0 fields j f : (j, f) ∈ placed 0 fields ↔ fields !! j = Some f.
Proof using Type. rewrite placed_lookup, Nat.sub_0_r. split; [tauto|]. intros. split; [lia|done]. Qed.

Lemma highest_max l : 0 ≤ highest l ∧ (∀ x, x ∈ l → x ≤ highest l) ∧ (highest l = 0 ∨ highest l ∈ l).
Proof using Type.
  unfold highest. induction l as [|x l IH] using rev_ind; [split_and!; [done|set_solver|by left]|].
  rewrite foldl_app. cbn. destruct IH as (H1 & H2 & H3). split_and!; [lia| |].
  - intros y [Hy|Hy]%elem_of_app; [pose proof (H2 y Hy); lia|]. apply list_elem_of_singleton in Hy as ->. lia.
  - destruct (Z.max_spec (foldl Z.max 0 l) x) as [[_ ->]|[_ ->]]; [right; set_solver|].
    destruct H3 as [->|H3]; [by left|right; set_solver].
Qed.

Lemma read_digits_pos l acc : 0 ≤ acc → 0 ≤ read_digits l acc.
Proof using Type.
  revert acc. induction l as [|c l IH]; intros acc Ha; [done|]. cbn. destruct (is_digit c) eqn:Hc; [|done].
  apply bool_decide_eq_true in Hc. apply IH. lia.
Qed.

Lemma positional_index_range name i : positional_index name = Some i → 0 ≤ i < 2 ^ 64.
Proof using Type.
  unfold positional_index. destruct (_ || _); [done|]. unfold from_chars. destruct (span_digits _) as [d r].
  destruct d as [|c d]; [done|]. destruct (read_digits (c :: d) 0 <? 2 ^ 64) eqn:Hlt; [|done].
  destruct r; [|done]. intros [= <-]. apply Z.ltb_lt in Hlt. split; [by apply (read_digits_pos (c :: d) 0)|exact Hlt].
Qed.

(** The positions of the children, and what is written at them. *)
Definition indices (fields : list field) : list Z := omap index_of (placed 0 fields).

Lemma entries_fst {X} (g : nat * field → X) l :
  (omap (λ e, (λ k, (k, g e)) <$> index_of e) l).*1 = omap index_of l.
Proof using Type.
  induction l as [|e l IH]; [done|]. cbn. destruct (index_of e); cbn; [by f_equal|done].
Qed.

Lemma indices_spec fields i : i ∈ indices fields ↔ ∃ f, f ∈ fields ∧ positional_index (f_name f) = Some i.
Proof using Type.
  unfold indices. rewrite list_elem_of_omap. unfold index_of. split.
  - intros ([j f] & Hf%placed_lookup & Hi). destruct Hf as [_ Hf]. exists f. split; [by eapply list_elem_of_lookup_2|done].
  - intros (f & (j & Hj)%list_elem_of_lookup & Hi). exists (j, f). split; [by apply placed_0|done].
Qed.

Lemma indices_pos fields : Forall (λ i, 0 ≤ i) (indices fields).
Proof using Type. apply Forall_forall. intros i (f & _ & Hi%positional_index_range)%indices_spec. lia. Qed.

Lemma seat_children {X} (g : nat * field → X) fields n :
  NoDup (indices fields) → Forall (λ i, i < n) (indices fields) →
  ∃ v, seat n (omap (λ e, (λ k, (k, g e)) <$> index_of e) (placed 0 fields)) = Ok v ∧ length v = Z.to_nat n ∧
    ∀ j f i, fields !! j = Some f → positional_index (f_name f) = Some i → v !! Z.to_nat i = Some (Some (g (j, f))).
Proof using Type.
  intros Hnd Hn. rewrite seat_within by (by rewrite entries_fst). eexists. split; [done|].
  split; [by rewrite write_all_length, length_replicate|]. intros j f i Hf Hi.
  pose proof (positional_index_range _ _ Hi).
  assert (i ∈ indices fields) as Hin.
  { apply indices_spec. exists f. split; [by eapply list_elem_of_lookup_2|done]. }
  assert ((map (λ e, (e.1, Some e.2)) (omap (λ e, (λ k, (k, g e)) <$> index_of e) (placed 0 fields))).*1 = indices fields) as Hfst.
  { unfold indices. rewrite <- (entries_fst g (placed 0 fields)), map_map. done. }
  apply write_all_lookup.
  - rewrite Hfst. apply indices_pos.
  - by rewrite Hfst.
  - apply list_elem_of_fmap. exists (i, g (j, f)). split; [done|]. apply list_elem_of_omap. exists (j, f). split.
    + by apply placed_0.
    + unfold index_of. cbn. by rewrite Hi.
  - rewrite length_replicate. rewrite Forall_forall in Hn. specialize (Hn i Hin). cbn in Hn. lia.
Qed.

(** The children of the engine's form: [k] positions, each once. *)
Definition dense (fields : list field) (k : nat) : Prop :=
  NoDup (indices fields) ∧ ∀ i, i ∈ indices fields ↔ 0 ≤ i < Z.of_nat k.

Lemma dense_highest fields k : dense fields k → k ≠ 0%nat → highest (indices fields) + 1 = Z.of_nat k.
Proof using Type.
  intros [_ Hd] Hk. destruct (highest_max (indices fields)) as (H1 & H2 & H3).
  assert (Z.of_nat k - 1 ∈ indices fields) as Hin by (apply Hd; lia). apply H2 in Hin.
  destruct H3 as [H3|H3%Hd]; lia.
Qed.

Lemma parse_struct_dense column fields k :
  a_type column = T_struct fields → dense fields k → Z.of_nat k ≤ vector_capacity → Z.of_nat k < 2 ^ 64 →
  ∃ a, parse_struct column = Ok a ∧ length (positional_ a) = k ∧ length (positional_fields_ a) = k ∧
    (∀ j f i, fields !! j = Some f → positional_index (f_name f) = Some i →
       positional_ a !! Z.to_nat i = Some (Some (struct_field column j)) ∧
       positional_fields_ a !! Z.to_nat i = Some (Some f)) ∧
    named_ a = insert_all (placed 0 fields ≫= λ e, map (λ n, (n, struct_field column e.1)) (names_of e.2)) ∅.
Proof using Type.
  intros Ht Hd Hc H64. unfold parse_struct. rewrite Ht.
  destruct (read_children_spec column 0 fields (mkChildren [] [] ∅)) as (H1 & H2 & H3).
  cbn [ch_positional ch_fields ch_named app] in H1, H2, H3. rewrite H3.
  assert ((ch_positional (read_children column 0 fields (mkChildren [] [] ∅))).*1 = indices fields) as Hfst
    by (by rewrite H1, entries_fst).
  destruct (ch_positional _) as [|x l] eqn:Hl.
  - eexists. split; [done|]. cbn [positional_ positional_fields_ named_].
    assert (k = 0%nat) as ->.
    { destruct k as [|k]; [done|]. assert (0 ∈ indices fields) as Hin by (apply Hd; lia). rewrite <- Hfst in Hin. set_solver. }
    split_and!; [done..| |done]. intros j f i Hj Hi. assert (i ∈ indices fields) as Hin.
    { apply indices_spec. exists f. split; [by eapply list_elem_of_lookup_2|done]. }
    rewrite <- Hfst in Hin. set_solver.
  - assert (k ≠ 0%nat) as Hk.
    { intros ->. assert (x.1 ∈ indices fields) as Hin by (rewrite <- Hfst; by left). apply Hd in Hin. lia. }
    rewrite Hfst, (dense_highest fields k Hd Hk). unfold to_uint64. rewrite Z.mod_small by lia.
    assert (Forall (λ i, i < Z.of_nat k) (indices fields)) as Hlt by (apply Forall_forall; intros i Hi%Hd; cbn; lia).
    rewrite (proj2 (Z.ltb_ge _ _) Hc), H1, H2. cbn [throw_if mbind result_bind].
    destruct (seat_children (λ e, struct_field column e.1) fields (Z.of_nat k) (proj1 Hd) Hlt) as (ps & -> & Lp & Hp).
    destruct (seat_children snd fields (Z.of_nat k) (proj1 Hd) Hlt) as (fs & -> & Lf & Hf).
    cbn [mbind result_bind]. eexists. split; [done|]. cbn [positional_ positional_fields_ named_].
    split_and!; [lia..| |done]. intros j f i Hj Hi. split; [exact (Hp j f i Hj Hi)|exact (Hf j f i Hj Hi)].
Qed.

(** *** Re-seating *)

(** The positional arguments are declared in call order, each position once. *)
Definition in_order (specs : list ArgSpec) (n : nat) : Prop := omap position specs = seqZ 0 (Z.of_nat n).

Lemma constants_sublist specs : sublist (constants specs) (omap position specs).
Proof using Type.
  unfold constants. induction specs as [|s specs IH]; [constructor|]. cbn.
  destruct (position s) as [i|]; cbn; [|done]. destruct (sp_constant s); by constructor.
Qed.

Lemma sublist_same_length {X} (l k : list X) : sublist l k → (length k <= length l)%nat → l = k.
Proof using Type.
  induction 1 as [|x l k Hs IH|x l k Hs IH]; cbn; intros Hl; [done| |].
  - f_equal. apply IH. lia.
  - apply sublist_length in Hs. lia.
Qed.

Lemma omap_length_le {X Y} (f : X → option Y) l : (length (omap f l) <= length l)%nat.
Proof using Type. induction l as [|x l IH]; cbn; [done|]. destruct (f x); cbn; lia. Qed.

Lemma constants_order specs n :
  in_order specs n →
  NoDup (constants specs) ∧ (∀ i, i ∈ constants specs → 0 ≤ i < Z.of_nat n) ∧
  (length (constants specs) <= n)%nat ∧ ((n <= length (constants specs))%nat → constants specs = seqZ 0 (Z.of_nat n)).
Proof using Type.
  intros Ho. pose proof (constants_sublist specs) as Hs. unfold in_order in Ho. rewrite Ho in Hs.
  pose proof (NoDup_seqZ 0 (Z.of_nat n)) as Hnd. pose proof (sublist_length _ _ Hs) as Hl.
  rewrite length_seqZ, Nat2Z.id in Hl. split_and!.
  - by eapply sublist_NoDup.
  - intros i Hi. apply sublist_submseteq in Hs. eapply (elem_of_submseteq _ _ _ Hi) in Hs.
    apply elem_of_seqZ in Hs. lia.
  - done.
  - intros Hn. apply sublist_same_length; [done|]. rewrite length_seqZ. lia.
Qed.

Lemma in_order_highest specs n : in_order specs n → n ≠ 0%nat → highest (omap position specs) = Z.of_nat n - 1.
Proof using Type.
  intros Ho Hn. rewrite Ho. destruct (highest_max (seqZ 0 (Z.of_nat n))) as (H1 & H2 & H3).
  pose proof (H2 (Z.of_nat n - 1)) as H. rewrite elem_of_seqZ in H.
  destruct H3 as [H3|H3]; [|apply elem_of_seqZ in H3]; lia.
Qed.

(** The [i]-th constant goes to the [i]-th place declared constant; the others stay empty. *)
Lemma moved_lookup {X} (declared : list Z) (v : list (option X)) n :
  NoDup declared → (∀ p, p ∈ declared → 0 ≤ p < Z.of_nat n) → (length v <= length declared)%nat →
  let r := write_all (zip declared v) (replicate n None) in
  (∀ i p x, declared !! i = Some p → v !! i = Some x → r !! Z.to_nat p = Some x) ∧
  (∀ p, 0 ≤ p → p ∉ take (length v) declared → mjoin (r !! Z.to_nat p) = None).
Proof using Type.
  intros Hnd Hr Hl. cbn zeta.
  assert ((zip declared v).*1 = take (length v) declared) as Hfst.
  { clear -Hl. revert v Hl. induction declared as [|d ds IH]; intros [|x v] Hl; cbn in *; [done..|]. f_equal. apply IH. lia. }
  assert (Forall (λ j, 0 ≤ j) (take (length v) declared)) as Hpos.
  { apply Forall_forall. intros p Hp. apply elem_of_take in Hp as (i & Hi & _). by eapply Hr, list_elem_of_lookup_2. }
  split.
  - intros i p x Hp Hx. apply write_all_lookup; rewrite ?Hfst; [done| | |].
    + eapply sublist_NoDup; [exact Hnd|apply sublist_take].
    + apply list_elem_of_lookup. exists i. apply lookup_zip_with_Some. by exists p, x.
    + rewrite length_replicate. apply list_elem_of_lookup_2, Hr in Hp. lia.
  - intros p Hp Hn. rewrite write_all_absent; rewrite ?Hfst; [|done..].
    destruct (replicate n None !! Z.to_nat p) as [x|] eqn:Hx; [|done]. by apply lookup_replicate in Hx as [-> _].
Qed.

Lemma remap_lookup specs n a :
  in_order specs n → (length (positional_ a) <= length (constants specs))%nat →
  length (positional_fields_ a) = length (positional_ a) →
  let r := remap_positional specs a in
  named_ r = named_ a ∧
  (∀ i p x f, constants specs !! i = Some p → positional_ a !! i = Some x → positional_fields_ a !! i = Some f →
     positional r (Z.to_nat p) = x ∧ positional_field r (Z.to_nat p) = f) ∧
  (∀ p, 0 ≤ p → p ∉ take (length (positional_ a)) (constants specs) → positional r (Z.to_nat p) = None).
Proof using Type.
  intros Ho Hl Hf. destruct (constants_order specs n Ho) as (Hnd & Hr & Hln & Hall). cbn zeta.
  assert ((n <= length (constants specs))%nat →
    (∀ i p x f, constants specs !! i = Some p → positional_ a !! i = Some x → positional_fields_ a !! i = Some f →
       positional a (Z.to_nat p) = x ∧ positional_field a (Z.to_nat p) = f) ∧
    (∀ p, 0 ≤ p → p ∉ take (length (positional_ a)) (constants specs) → positional a (Z.to_nat p) = None)) as Hid.
  { intros Hn. rewrite (Hall Hn). split.
    - intros i p x f Hp Hx Hfx. apply lookup_seqZ in Hp as [-> Hi]. unfold positional, positional_field.
      by rewrite Z.add_0_l, Nat2Z.id, Hx, Hfx.
    - intros p Hp Hnp. unfold positional. destruct (positional_ a !! Z.to_nat p) as [x|] eqn:Hx; [|done].
      destruct Hnp. apply list_elem_of_lookup. exists (Z.to_nat p). apply lookup_lt_Some in Hx.
      rewrite lookup_take_lt by done. apply lookup_seqZ. rewrite (Hall Hn), length_seqZ in Hl. lia. }
  unfold remap_positional. destruct (positional_ a) as [|x0 l0] eqn:Hp0.
  { split; [done|]. split; [by intros i p x f _ Hx|]. intros p _ _. unfold positional. by rewrite Hp0. }
  destruct specs as [|s0 ss] eqn:Hss; [cbn in Hl; lia|]. rewrite <- Hss in *. rewrite <- Hp0 in *.
  assert (n ≠ 0%nat) as Hn0 by (rewrite Hp0 in Hl; cbn [length] in Hl; lia).
  destruct (bool_decide_reflect (length (constants specs) = length specs)) as [He|_].
  { split; [done|]. apply Hid. pose proof (f_equal length Ho) as Hlo. rewrite length_seqZ in Hlo.
    pose proof (omap_length_le position specs). lia. }
  rewrite (in_order_highest specs n Ho Hn0).
  destruct (Z.ltb_spec (Z.of_nat n - 1) (Z.of_nat (length (positional_ a)))) as [Hlt|_].
  { split; [done|]. apply Hid. lia. }
  replace (Z.of_nat n - 1 + 1) with (Z.of_nat n) by lia. rewrite Nat2Z.id, !take_ge by lia.
  destruct (moved_lookup (constants specs) (positional_ a) n Hnd Hr Hl) as [H1 H2].
  destruct (moved_lookup (constants specs) (positional_fields_ a) n Hnd Hr ltac:(lia)) as [F1 _].
  split; [done|]. split.
  - intros i p x f Hp Hx Hfx. unfold positional, positional_field. cbn [positional_ positional_fields_].
    by rewrite (H1 i p x Hp Hx), (F1 i p f Hp Hfx).
  - intros p Hp Hnp. by apply (H2 p Hp).
Qed.

(** The batch the engine ships: one struct column. *)
Definition args_batch (column : array) (nullable : bool) (rows : Z) : batch :=
  mkBatch [Field "args" (a_type column) nullable []] None rows [column].

Lemma parse_args `{!ArrowLaws A} column nullable rows s :
  encode_ipc (args_batch column nullable rows) = Ok s → parse s = parse_struct column.
Proof using Type.
  intros (_ & Hs & _ & Hd)%encode_ipc_read. unfold parse. destruct s; [done|]. by rewrite Hd.
Qed.

(** What the engine ships -- the constants of a call, numbered among
    themselves, in any order between the named arguments -- is, after [parse] and
    [remap_positional], where the declaration says: the [i]-th constant with its
    field at the position of the [i]-th parameter declared constant, nothing at the
    position of any other, and every named argument under its name unless another
    argument claims it. *)
Theorem arguments_seated `{!ArrowLaws A} specs n column fields k nullable rows s :
  in_order specs n → a_type column = T_struct fields → dense fields k → (k <= length (constants specs))%nat →
  Z.of_nat k ≤ vector_capacity → Z.of_nat k < 2 ^ 64 → encode_ipc (args_batch column nullable rows) = Ok s →
  ∃ a, parse s = Ok a ∧ let r := remap_positional specs a in
    (∀ j f i p, fields !! j = Some f → positional_index (f_name f) = Some i → constants specs !! Z.to_nat i = Some p →
       positional r (Z.to_nat p) = Some (struct_field column j) ∧ positional_field r (Z.to_nat p) = Some f) ∧
    (∀ p, 0 ≤ p → p ∉ take k (constants specs) → positional r (Z.to_nat p) = None) ∧
    (∀ j f name, fields !! j = Some f → name ∈ names_of f →
       (∀ j' f', fields !! j' = Some f' → name ∈ names_of f' → j' = j) → named_value r name = Some (struct_field column j)).
Proof using Type.
  intros Ho Ht Hd Hk Hc H64 Hs. rewrite (parse_args _ _ _ _ Hs).
  destruct (parse_struct_dense column fields k Ht Hd Hc H64) as (a & Ha & Hl & Hlf & Hp & Hn).
  exists a. split; [done|]. cbn zeta. destruct (remap_lookup specs n a Ho) as (Rn & Rp & Re); [lia..|].
  split_and!.
  - intros j f i p Hj Hi Hcp. destruct (Hp j f i Hj Hi) as [H1 H2]. exact (Rp _ p _ _ Hcp H1 H2).
  - intros p Hp0 Hnp. apply Re; [done|]. by rewrite Hl.
  - intros j f name Hj Hin Huniq. unfold named_value. rewrite Rn, Hn. apply insert_all_lookup.
    + apply list_elem_of_bind. exists (j, f). split; [|by apply placed_0].
      apply list_elem_of_fmap. by exists name.
    + intros y ([j' f'] & (name' & [= <- ->] & Hin')%list_elem_of_fmap & Hj'%placed_0)%list_elem_of_bind.
      by rewrite (Huniq j' f' Hj' Hin').
Qed.

Lemma decode_ipc_defined s what : decode_ipc s ≠ Throw (Undefined_behaviour what).
Proof using Type. unfold decode_ipc, unwrap. destruct s; [done|]. by destruct (read_stream _). Qed.

(** What the writes of [parse_struct] come to: within both vectors, unless a child
    has the largest index there is. *)
Lemma parse_struct_writes column fields :
  a_type column = T_struct fields → 0 ≤ vector_capacity →
  ((2 ^ 64 - 1) ∈ indices fields → ∃ what, parse_struct column = Throw (Undefined_behaviour what)) ∧
  ((2 ^ 64 - 1) ∉ indices fields → ∀ what, parse_struct column ≠ Throw (Undefined_behaviour what)).
Proof using Type.
  intros Ht Hcap. unfold parse_struct. rewrite Ht.
  destruct (read_children_spec column 0 fields (mkChildren [] [] ∅)) as (H1 & H2 & _). cbn [ch_positional ch_fields app] in H1, H2.
  assert ((ch_positional (read_children column 0 fields (mkChildren [] [] ∅))).*1 = indices fields) as Hp
    by (by rewrite H1, entries_fst).
  assert ((ch_fields (read_children column 0 fields (mkChildren [] [] ∅))).*1 = indices fields) as Hf
    by (by rewrite H2, entries_fst).
  destruct (highest_max (indices fields)) as (M1 & M2 & M3).
  destruct (ch_positional _) as [|x l] eqn:Hl; [rewrite <- Hp; split; [by intros Hi%elem_of_nil|done]|].
  rewrite Hp. split.
  - intros Hi. apply M2 in Hi as Hh. assert (highest (indices fields) = 2 ^ 64 - 1) as ->.
    { destruct M3 as [M3|(g & _ & Hg%positional_index_range)%indices_spec]; [rewrite M3 in Hh|]; lia. }
    change (to_uint64 (2 ^ 64 - 1 + 1)) with 0. rewrite (proj2 (Z.ltb_ge _ _) Hcap). cbn [throw_if mbind result_bind].
    destruct (seat_past 0 (x :: l) (2 ^ 64 - 1)) as [what ->]; [by rewrite Hp|lia|by exists what].
  - intros Hn what. assert (highest (indices fields) + 1 < 2 ^ 64) as Hh.
    { destruct M3 as [M3|M3]; [rewrite M3; lia|]. apply indices_spec in M3 as Hr.
      destruct Hr as (g & _ & Hg%positional_index_range).
      destruct (Z.eq_dec (highest (indices fields)) (2 ^ 64 - 1)) as [He|]; [|lia]. rewrite <- He in Hn. by destruct Hn. }
    assert (Forall (λ i, i < highest (indices fields) + 1) (indices fields)) as Hlt
      by (apply Forall_forall; intros i Hi%M2; cbn; lia).
    unfold to_uint64. rewrite Z.mod_small by lia. rewrite !seat_within by (by rewrite ?Hp, ?Hf).
    by destruct (vector_capacity <? _).
Qed.

(** C38. Every write [parse] makes into its two vectors is within the vector it is
    made to, for every batch but those with a child named
    [positional_18446744073709551615], the largest index, of which [highest + 1] is
    zero: for these, where the memory is there, it is undefined behaviour. *)
Theorem parse_in_bounds s :
  0 ≤ vector_capacity →
  (∃ what, parse s = Throw (Undefined_behaviour what)) ↔
  ∃ b f column fields, s ≠ [] ∧ decode_ipc s = Ok (Some b) ∧ b_schema b = [f] ∧ b_columns b = [column] ∧
    f_name f = "args"%string ∧ a_type column = T_struct fields ∧ (2 ^ 64 - 1) ∈ indices fields.
Proof using Type.
  intros Hcap. split.
  - intros [what H]. unfold parse in H. destruct s as [|c s]; [done|].
    apply bind_Throw in H as [H|([b|] & Hb & H)]; [by apply decode_ipc_defined in H| |discriminate H].
    destruct (b_schema b) as [|f [|]] eqn:Hf; [discriminate H| |discriminate H].
    destruct (b_columns b) as [|column [|]] eqn:Hc; [discriminate H| |discriminate H].
    destruct (bool_decide_reflect (f_name f = "args"%string)) as [Hn|]; [|done].
    destruct (a_type column) as [] eqn:Ht; try (unfold parse_struct in H; rewrite Ht in H; discriminate H).
    match type of Ht with _ = T_struct ?fs => exists b, f, column, fs end. split_and!; try done.
    destruct (parse_struct_writes column _ Ht Hcap) as [_ Hw]. destruct (decide ((2 ^ 64 - 1) ∈ indices fields)); [done|].
    by destruct (Hw n what).
  - intros (b & f & column & fields & Hs & Hb & Hf & Hc & Hn & Ht & Hi).
    unfold parse. destruct s as [|c s]; [done|]. rewrite Hb. cbn [mbind result_bind].
    rewrite Hf, Hc, bool_decide_true by done. by apply (parse_struct_writes column fields).
Qed.

(** The writes [remap_positional] makes are within its vectors, too, so that what
    they leave is what [write_all] says. *)
Lemma remap_in_bounds {X} specs (v : list (option X)) :
  let r := replicate (Z.to_nat (highest (omap position specs) + 1)) None in
  write_each (zip (constants specs) v) r = Ok (write_all (zip (constants specs) v) r).
Proof using Type.
  cbn zeta. apply write_each_within. rewrite length_replicate. apply Forall_forall.
  intros i ([p x] & -> & Hin)%list_elem_of_fmap. cbn.
  apply list_elem_of_lookup in Hin as (k & Hk). apply lookup_zip_with_Some in Hk as (? & ? & [= <- <-] & Hp & _).
  apply list_elem_of_lookup_2 in Hp.
  assert (p ∈ omap position specs) as Hin.
  { apply list_elem_of_omap in Hp as (sp & Hsp & Hp). apply list_elem_of_omap. exists sp. split; [done|].
    destruct (position sp) as [q|]; [|done]. cbn in Hp. by destruct (sp_constant sp). }
  destruct (highest_max (omap position specs)) as (H1 & H2 & _). pose proof (H2 p Hin). lia.
Qed.

(** *** What a scan is given *)

Lemma zip_app_r {X Y} (l1 l2 : list X) (k1 k2 : list Y) :
  length l1 = length k1 → zip (l1 ++ l2) (k1 ++ k2) = zip l1 k1 ++ zip l2 k2.
Proof using Type. apply zip_with_app. Qed.

(** What a catalog table serializes for its scan function, [parse] reads back:
    the positional values in their places, the named ones after them and under
    their names, provided the names differ from each other and from [arg_<i>], and
    there is more than the one argument [args] that would be read as the engine's
    struct. *)
Theorem scan_arguments_roundtrip `{S : SchemaCodec} `{!ArrowLaws A} `{!SchemaCodecLaws A S} positional_values named_values s :
  NoDup named_values.*1 → (∀ i name, name ∈ named_values.*1 → (i < length positional_values)%nat → name ≠ arg_name i) →
  (positional_values = [] → named_values.*1 ≠ ["args"%string]) →
  serialize_scan_arguments positional_values named_values = Ok s →
  ∃ a, parse s = Ok a ∧
    (∀ i x, (positional_values ++ named_values.*2) !! i = Some x → positional a i = Some x ∧ positional_type a i = Some (a_type x)) ∧
    (∀ i, (length positional_values + length named_values <= i)%nat → positional a i = None) ∧
    (∀ name x, (name, x) ∈ named_values → named_value a name = Some x).
Proof using Type.
  intros Hnd Harg Hargs Hs.
  set (fields := imap (λ i a, Field (arg_name i) (a_type a) false []) positional_values ++
                 map (λ e, Field e.1 (a_type e.2) false []) named_values).
  set (columns := positional_values ++ named_values.*2).
  assert (named_values = [] ∧ positional_values = [] ∧ parse s = Ok no_arguments ∨
          ∃ rows, parse s = Ok (parse_flat (mkBatch fields None rows columns))) as [(-> & -> & Hp)|(rows & Hp)].
  { unfold serialize_scan_arguments in Hs. destruct positional_values as [|x xs] eqn:Hpv, named_values as [|[n y] nv] eqn:Hnv.
    { left. split_and!; [done..|]. unfold encode_schema, WireSchema.encode_schema in Hs. pose proof (decode_ipc_schema _ _ Hs) as Hd.
      unfold parse. destruct s; [done|]. by rewrite Hd. }
    all: right; apply encode_ipc_read in Hs as (_ & Hs0 & _ & Hd); eexists; unfold parse; destruct s; [done|];
      rewrite Hd; cbn [mbind result_bind b_schema b_columns]; fold fields columns.
    - destruct nv as [|e nv]; [|done]. cbn. rewrite bool_decide_false; [done|]. intros ->. by destruct Hargs.
    - destruct xs as [|x' xs]; [|done]. cbn. by rewrite bool_decide_false by done.
    - subst fields columns. destruct xs; cbn; [by destruct nv|done]. }
  { exists no_arguments. split_and!; [done|by intros i x Hx|by intros i _; unfold positional; destruct i|by intros n x Hx%elem_of_nil]. }
  exists (parse_flat (mkBatch fields None rows columns)). split; [done|]. unfold positional, positional_type, positional_field, named_value.
  cbn [parse_flat positional_ positional_fields_ named_ b_schema b_columns].
  assert (∀ i x, columns !! i = Some x → f_type <$> fields !! i = Some (a_type x)) as Hft.
  { intros i x Hx. subst fields columns. destruct (decide (i < length positional_values)%nat) as [Hi|Hi].
    - rewrite lookup_app_l in Hx by done. rewrite lookup_app_l by (by rewrite length_imap). rewrite list_lookup_imap, Hx. done.
    - rewrite lookup_app_r in Hx by lia. rewrite lookup_app_r by (rewrite length_imap; lia). rewrite length_imap, list_lookup_fmap.
      rewrite list_lookup_fmap in Hx. by destruct (named_values !! _) as [[]|]; [injection Hx as <-|]. }
  split_and!.
  - intros i x Hx. rewrite !list_lookup_fmap, Hx. split; [done|]. specialize (Hft i x Hx). by destruct (fields !! i).
  - intros i Hi. rewrite list_lookup_fmap, lookup_ge_None_2; [done|]. subst columns. rewrite length_app, length_fmap. lia.
  - intros name x Hin.
    assert (map (λ e, (f_name e.1, e.2)) (zip fields columns) =
            imap (λ i a, (arg_name i, a)) positional_values ++ named_values) as ->.
    { subst fields columns. rewrite zip_app_r by apply length_imap. rewrite map_app. f_equal.
      - clear. apply list_eq. intros i. rewrite list_lookup_fmap, list_lookup_imap.
        destruct (positional_values !! i) as [a|] eqn:Ha; cbn.
        + assert (zip (imap (λ i a, Field (arg_name i) (a_type a) false []) positional_values) positional_values !! i =
            Some (Field (arg_name i) (a_type a) false [], a)) as ->; [|done].
          apply lookup_zip_with_Some. eexists _, _. split_and!; [done| |done]. by rewrite list_lookup_imap, Ha.
        + rewrite lookup_ge_None_2; [done|]. rewrite length_zip_with, length_imap. apply lookup_ge_None in Ha. lia.
      - clear. induction named_values as [|[n y] l IH]; [done|]. cbn. by f_equal. }
    apply insert_all_lookup; [by apply elem_of_app; right|]. intros y [Hy|Hy]%elem_of_app.
    + apply list_elem_of_lookup in Hy as (i & Hy). rewrite list_lookup_imap in Hy.
      destruct (positional_values !! i) as [a|] eqn:Ha; [|done]. injection Hy as Hn _. apply lookup_lt_Some in Ha.
      destruct (Harg i name); [|done|done]. apply list_elem_of_fmap. by exists (name, x).
    + by eapply NoDup_fst_inj.
Qed.

End arguments.

(** ** [multiply(value, factor, offset, sep := ...)] *)

#[local] Instance sample_memory : Memory := 1024.

Definition sample_specs : list ArgSpec :=
  [named "sep" "varchar" ""; column "value" 0 "int64" ""; constant_arg "factor" 1 "int64" ""; constant_arg "offset" 2 "int64" ""].
Definition sample_fields : list field :=
  [Field "named_sep" T_string true []; Field "positional_1" T_int64 true []; Field "positional_0" T_int64 true []].
Definition sample_struct : array := mkArray (T_struct sample_fields) [V_struct [V_text (bs ","); V_int 7; V_int 3]].
Definition sample_args : batch := args_batch sample_struct true 1.
Definition sample_arrow : Arrow := table_arrow [sample_args].
Definition sample_bytes : bytes := match encode_ipc (H := sample_arrow) sample_args with Ok s => s | Throw _ => [] end.

Lemma arguments_seated_witness :
  ∃ a, parse (A := sample_arrow) (C := toy_compute) sample_bytes = Ok a ∧
    let r := remap_positional sample_specs a in
    const_int64 (A := sample_arrow) (C := toy_compute) r 1 = Some 3 ∧
    const_int64 (A := sample_arrow) (C := toy_compute) r 2 = Some 7 ∧ positional r 0 = None ∧
    named_string (A := sample_arrow) (C := toy_compute) r "sep" = Some (bs ",").
Proof.
  assert (dense sample_fields 2) as Hd.
  { assert (indices sample_fields = [1; 0]) as Hi by (vm_compute; reflexivity). unfold dense. rewrite Hi. split; [by_decide|].
    intros i. rewrite !elem_of_cons, elem_of_nil. lia. }
  destruct (@arguments_seated sample_arrow toy_compute sample_memory _ sample_specs 3 sample_struct sample_fields 2 true 1 sample_bytes)
    as (a & Ha & Hp & He & Hn); [reflexivity|reflexivity|exact Hd|vm_compute; lia|vm_compute; discriminate|vm_compute; reflexivity|vm_compute; reflexivity|].
  exists a. split; [exact Ha|]. cbn zeta. unfold const_int64, named_string.
  assert (positional (remap_positional sample_specs a) 1 = Some (@struct_field toy_compute sample_struct 2)) as ->
    by exact (proj1 (Hp 2%nat _ 0 1 eq_refl eq_refl eq_refl)).
  assert (positional (remap_positional sample_specs a) 2 = Some (@struct_field toy_compute sample_struct 1)) as ->
    by exact (proj1 (Hp 1%nat _ 1 2 eq_refl eq_refl eq_refl)).
  rewrite (Hn 0%nat _ "sep"%string eq_refl).
  - split_and!; [vm_compute; reflexivity..|apply (He 0); [lia|by_decide]|vm_compute; reflexivity].
  - by_decide.
  - intros [|[|[|j]]] f' Hj; cbn in Hj; [done| | |done]; injection Hj as <-; vm_compute; intros Hin; repeat (apply elem_of_cons in Hin as [Hin|Hin]; [done|]); by apply elem_of_nil in Hin.
Defined.

(** The struct with the one child that is too far. *)
Definition far_fields : list field := [Field "positional_18446744073709551615" T_int64 true []].
Definition far_struct : array := mkArray (T_struct far_fields) [V_struct [V_int 1]].
Definition far_arrow : Arrow := table_arrow [args_batch far_struct true 1].
Definition far_bytes : bytes := match encode_ipc (H := far_arrow) (args_batch far_struct true 1) with Ok s => s | Throw _ => [] end.

Lemma parse_in_bounds_witness :
  ∃ what, parse (A := far_arrow) (C := toy_compute) far_bytes = Throw (Undefined_behaviour what).
Proof.
  apply (@parse_in_bounds far_arrow toy_compute sample_memory far_bytes); [vm_compute; discriminate|].
  eexists _, _, far_struct, far_fields. split_and!; [vm_compute; discriminate|vm_compute; reflexivity..|].
  apply list_elem_of_lookup. exists 0%nat. vm_compute. reflexivity.
Defined.

(** The rows of a scan: [arg_0], [arg_1] and [limit]. *)
Definition scan_values : list array := [mkArray T_int64 [V_int 1]; mkArray T_string [V_text (bs "x")]].
Definition scan_named : list (string * array) := [("limit"%string, mkArray T_int64 [V_int 9])].
Definition scan_batch : batch :=
  mkBatch [Field "arg_0" T_int64 false []; Field "arg_1" T_string false []; Field "limit" T_int64 false []] None 1
    (scan_values ++ scan_named.*2).

Definition scan_bytes : bytes :=
  match serialize_scan_arguments (A := schema_arrow [scan_batch]) (S := list_codec [scan_batch] []) scan_values scan_named with
  | Ok s => s | Throw _ => [] end.

Lemma scan_arguments_roundtrip_witness :
  ∃ a, serialize_scan_arguments (A := schema_arrow [scan_batch]) (S := list_codec [scan_batch] []) scan_values scan_named = Ok scan_bytes ∧
    parse (A := schema_arrow [scan_batch]) (C := toy_compute) scan_bytes = Ok a ∧
    const_int64 (A := schema_arrow [scan_batch]) (C := toy_compute) a 0 = Some 1 ∧
    named_int64 (A := schema_arrow [scan_batch]) (C := toy_compute) a "limit" = Some 9.
Proof.
  destruct (@scan_arguments_roundtrip (schema_arrow [scan_batch]) toy_compute sample_memory (list_codec [scan_batch] []) _ _
    scan_values scan_named scan_bytes) as (a & Ha & Hp & _ & Hn).
  - by_decide.
  - intros i name Hname Hi. apply list_elem_of_singleton in Hname as ->. by destruct i as [|[|]]; [..|cbn in Hi; lia].
  - done.
  - vm_compute. reflexivity.
  - exists a. split; [vm_compute; reflexivity|]. split; [exact Ha|]. unfold const_int64, named_int64.
    rewrite (proj1 (Hp 0%nat _ eq_refl)), (Hn "limit"%string (mkArray T_int64 [V_int 9])) by by left. by vm_compute.
Defined.

(** ** Where it goes wrong *)

(** A column and then a variadic constant: of two values shipped for it, the
    second is lost. *)
Example variadic_constant_lost :
  let specs := [column "value" 0 "any" ""; with_varargs (constant_arg "keys" 1 "varchar" "")] in
  let shipped := mkArguments [Some (mkArray T_string [V_text (bs "a")]); Some (mkArray T_string [V_text (bs "b")])] [None; None] ∅ in
  let more := with_varargs (constant_arg "keys" 2 "varchar" "") in
  (** with one column, they stay where they were shipped: the second value is read
      as the first *)
  positional (remap_positional specs shipped) 1 = Some (mkArray T_string [V_text (bs "b")]) ∧
  (** with two, only one is seated *)
  positional_ (remap_positional [column "value" 0 "any" ""; column "other" 1 "any" ""; more] shipped) =
    [None; None; Some (mkArray T_string [V_text (bs "a")])].
Proof. vm_compute. done. Qed.

End Arguments.
