(* ===== verification/Settings.v ===== *)
(** * Settings and secrets ([src/settings.cpp])

    What the engine forwards to a call: settings, one column each, and the
    secrets it resolved, rendered to strings.  A function asks for a secret by
    its type and the path it is about.  The theorem: it gets the secret of that
    type whose scope is the longest prefix of the path -- among equals the one
    whose name comes first. *)

From stdpp Require Import sorting.
From S2P Require Import Prelude Text Arrow ArrowCompute Wire Arguments.
Import Wire Arguments.

Module Settings.

(** [Array::GetScalar] and [Scalar::ToString]; none for an error. *)
Class ScalarText := scalar_text : array → nat → option string.

Section settings.
Context `{A : Arrow} `{C : Compute} `{X : ScalarText}.

(** The same as [cast_scalar] of [src/arguments.cpp], repeated in the source. *)
Definition as_type (a : option array) (t : dtype) : option array :=
  match a with
  | None => None
  | Some a =>
      match a_values a with
      | [] | V_null :: _ => None
      | _ => if type_equals (a_type a) t then Some a
             else match cast (D_array a) t with inr (D_array a) => Some a | _ => None end
      end
  end.

Definition render (a : array) (row : nat) : string :=
  match a_values a !! row with
  | None | Some V_null => ""
  | Some v =>
      match a_type a, v with
      | T_string, V_text s => str s
      | _, _ => default "" (scalar_text a row)
      end
  end.

(** ** Settings *)

Definition Settings : Type := gmap string array.

Definition columns_of (b : batch) : list (string * array) := zip (map f_name (b_schema b)) (b_columns b).

Definition parse_settings (ipc_bytes : bytes) : result Settings :=
  match ipc_bytes with
  | [] => Ok ∅
  | _ => b ← decode_ipc ipc_bytes; Ok match b with Some b => insert_all (columns_of b) ∅ | None => ∅ end
  end.

Definition get (s : Settings) (name : string) : option array := s !! name.
Definition get_as {Y} (read : value → option Y) (t : dtype) (s : Settings) (name : string) : option Y :=
  a ← as_type (get s name) t; read (first a).
Definition get_int64 := get_as int_of T_int64.
Definition get_double := get_as float_of T_double.
Definition get_string := get_as text_of T_string.
Definition get_bool := get_as bool_of T_bool.

(** ** Secrets *)

Definition fields : Type := gmap string string.
Definition Secrets : Type := gmap string fields.

(** One secret's column: a struct's children, or the one value. *)
Definition secret_of (name : string) (column : array) : fields :=
  match a_type column with
  | T_struct fs => insert_all (imap (λ j f, (f_name f, render (struct_field column j) 0)) fs) ∅
  | _ => <[name := render column 0]> ∅
  end.

Definition parse_secrets (ipc_bytes : bytes) : result Secrets :=
  match ipc_bytes with
  | [] => Ok ∅
  | _ =>
      b ← decode_ipc ipc_bytes;
      Ok match b with Some b => insert_all (map (λ e, (e.1, secret_of e.1 e.2)) (columns_of b)) ∅ | None => ∅ end
  end.
End settings.

Definition field (s : Secrets) (secret_name field_name : string) : option string :=
  secret ← s !! secret_name; secret !! field_name.
Definition secret (s : Secrets) (secret_name : string) : option fields := s !! secret_name.

(** The order a [std::map] is iterated in: that of the names. *)
Definition by_name (a b : string * fields) : Prop := string_le a.1 b.1.
#[global] Instance by_name_dec a b : Decision (by_name a b).
Proof. unfold by_name. apply _. Defined.
Definition all (s : Secrets) : list (string * fields) := merge_sort by_name (map_to_list s).

Definition has_type (type : string) (f : fields) : bool := bool_decide (f !! "type"%string = Some type).

Definition of_type (s : Secrets) (type : string) : option fields :=
  snd <$> List.find (λ e, has_type type e.2) (all s).

Definition typed_field (s : Secrets) (type field_name : string) : option string :=
  f ← of_type s type; f !! field_name.

(** The prefix a secret is for; any path for one without a scope. *)
Definition scope_of (f : fields) : string := default "" (f !! "scope"%string).
Definition scope_length (f : fields) : Z := Z.of_nat (String.length (scope_of f)).

(** One turn of the loop: [best] with its length. *)
Definition scope_step (path type : string) (best : option (fields * Z)) (e : string * fields) : option (fields * Z) :=
  if negb (has_type type e.2) then best
  else if negb (bool_decide (scope_of e.2 = ""%string)) && negb (String.prefix (scope_of e.2) path) then best
  else match best with
       | None => Some (e.2, scope_length e.2)
       | Some (_, best_length) => if best_length <? scope_length e.2 then Some (e.2, scope_length e.2) else best
       end.

Definition for_scope_of_type (s : Secrets) (path type : string) : option fields :=
  fst <$> foldl (scope_step path type) None (all s).

(** ** The secret that is chosen *)

(** A secret that may be used for a path. *)
Definition serves (path type : string) (f : fields) : Prop :=
  f !! "type"%string = Some type ∧ String.prefix (scope_of f) path = true.

Definition scope_score (path type : string) (e : string * fields) : option Z :=
  if has_type type e.2 && String.prefix (scope_of e.2) path then Some (scope_length e.2) else None.

Lemma prefix_nil path : String.prefix "" path = true.
Proof. by destruct path. Qed.

Lemma loop_best path type l best :
  foldl (scope_step path type) ((λ b, (b.1.2, b.2)) <$> best) l =
  (λ b, (b.1.2, b.2)) <$> foldl (better (scope_score path type)) best l.
Proof.
  revert best. induction l as [|e l IH]; intros best; [done|]. cbn [foldl]. rewrite <- IH. f_equal.
  unfold scope_step, better, scope_score. destruct (has_type type e.2); [|by destruct best]. cbn [negb andb].
  case_bool_decide as Hs; cbn [negb andb].
  - rewrite Hs, prefix_nil. destruct best as [[x b]|]; [|done]. cbn. by destruct (b <? _).
  - destruct (String.prefix _ _); cbn [negb]; [|by destruct best].
    destruct best as [[x b]|]; [|done]. cbn. by destruct (b <? _).
Qed.

Lemma for_scope_best s path type : for_scope_of_type s path type = snd <$> first_best (scope_score path type) (all s).
Proof.
  unfold for_scope_of_type, first_best.
  assert (foldl (scope_step path type) None (all s) =
    (λ b, (b.1.2, b.2)) <$> foldl (better (scope_score path type)) None (all s)) as -> by apply (loop_best _ _ _ None).
  by destruct (foldl (better _) _ _) as [[[] ?]|].
Qed.

Lemma scope_score_Some path type e n : scope_score path type e = Some n ↔ serves path type e.2 ∧ n = scope_length e.2.
Proof.
  unfold scope_score, serves, has_type. case_bool_decide as Ht; cbn [andb]; [|naive_solver].
  destruct (String.prefix _ _); naive_solver.
Qed.

Lemma all_perm s : all s ≡ₚ map_to_list s.
Proof. apply merge_sort_Permutation. Qed.

Lemma elem_of_all s name f : (name, f) ∈ all s ↔ s !! name = Some f.
Proof. rewrite (all_perm s). apply elem_of_map_to_list. Qed.

#[global] Instance by_name_total : Total by_name.
Proof. intros a b. apply lex_le_total. Qed.
#[global] Instance by_name_trans : Transitive by_name.
Proof. intros a b c. apply lex_le_trans. Qed.

Lemma all_sorted s : StronglySorted by_name (all s).
Proof. apply (StronglySorted_merge_sort by_name). Qed.

Lemma sorted_lookup {T} (R : T → T → Prop) l i j x y :
  StronglySorted R l → l !! i = Some x → l !! j = Some y → (i < j)%nat → R x y.
Proof.
  intros Hs. revert i j. induction Hs as [|z l Hs IH Hz]; [done|]. intros [|i] [|j] Hi Hj Hij; try lia.
  - injection Hi as ->. rewrite Forall_forall in Hz. apply Hz. by eapply list_elem_of_lookup_2.
  - apply (IH i j); [done..|lia].
Qed.

(** A secret is chosen for a path exactly when it is of the type, its scope
    is a prefix of the path, no secret like that has a longer scope, and of those
    with as long a scope its name is the first. *)
Theorem for_scope_exact s path type f :
  for_scope_of_type s path type = Some f ↔
  ∃ name, s !! name = Some f ∧ serves path type f ∧
    ∀ name' f', s !! name' = Some f' → serves path type f' →
      scope_length f' < scope_length f ∨ scope_length f' = scope_length f ∧ string_le name name'.
Proof.
  rewrite for_scope_best. split.
  - intros ([name g] & (i & n & Hi & [Hg ->]%scope_score_Some & Hall)%first_best_Some & ->)%fmap_Some. cbn in *.
    exists name. split_and!; [by eapply elem_of_all, list_elem_of_lookup_2|done|]. intros name' f' Hs' Hf'.
    apply elem_of_all, list_elem_of_lookup in Hs' as (j & Hj).
    destruct (Hall j _ (scope_length f') Hj) as [?|[? Hij]]; [by apply scope_score_Some|by left|]. right. split; [done|].
    destruct (decide (i = j)) as [->|Hne]; [|apply (sorted_lookup by_name (all s) i j _ _ (all_sorted s) Hi Hj); lia].
    rewrite Hi in Hj. injection Hj as -> _. apply lex_le_refl.
  - intros (name & Hs & Hf & Hall). apply elem_of_all, list_elem_of_lookup in Hs as (i & Hi).
    apply fmap_Some. exists (name, f). split; [|done]. apply first_best_Some. exists i, (scope_length f).
    split_and!; [done|by apply scope_score_Some|]. intros j [name' f'] t Hj [Hf' ->]%scope_score_Some. cbn in *.
    assert (s !! name' = Some f') as Hs' by (by eapply elem_of_all, list_elem_of_lookup_2).
    destruct (Hall name' f' Hs' Hf') as [?|[He Hle]]; [by left|]. right. split; [done|].
    destruct (Nat.le_gt_cases i j) as [?|Hji]; [done|]. exfalso.
    pose proof (sorted_lookup by_name (all s) j i _ _ (all_sorted s) Hj Hi Hji) as Hle'. cbn in Hle'.
    assert (name' = name) as ->.
    { rewrite <- (str_bs name'), <- (str_bs name). f_equal. by apply lex_le_antisym. }
    assert (NoDup (all s).*1) as Hnd by (rewrite all_perm; apply NoDup_fst_map_to_list).
    assert (i = j) as ->; [|lia]. apply (NoDup_lookup _ _ _ name Hnd); rewrite list_lookup_fmap; [by rewrite Hi|by rewrite Hj].
Qed.

(** There is one to be had whenever some secret of the type serves the path. *)
Lemma for_scope_found s path type name f :
  s !! name = Some f → serves path type f → ∃ g, for_scope_of_type s path type = Some g.
Proof.
  intros Hs Hf. rewrite for_scope_best. destruct (first_best _ _) as [[n g]|] eqn:Hb; [by exists g|].
  rewrite first_best_None in Hb. apply elem_of_all, Hb in Hs.
  assert (scope_score path type (name, f) = Some (scope_length f)) by (by apply scope_score_Some). congruence.
Qed.

(** A bucket's secret, one for a folder of it, and one for anything. *)
Definition sample_secrets : Secrets :=
  {["anywhere"%string := {["type"%string := "s3"%string; "key"%string := "k0"%string]};
    "bucket"%string := {["type"%string := "s3"%string; "scope"%string := "s3://b"%string]};
    "folder"%string := {["type"%string := "s3"%string; "scope"%string := "s3://b/x"%string]};
    "azure"%string := {["type"%string := "azure"%string; "scope"%string := "s3://b/x/y"%string]}]}.

Example folder_wins :
  (λ f : fields, f !! "scope"%string) <$> for_scope_of_type sample_secrets "s3://b/x/y.csv" "s3" = Some (Some "s3://b/x"%string).
Proof. vm_compute. reflexivity. Qed.

(** Two secrets with the same scope: not the first that was registered, whatever
    that was, but the first by name. *)
Example tie_by_name :
  let secret key : fields := {["type"%string := "s3"%string; "scope"%string := "s3://b"%string; "key"%string := key]} in
  (λ f : fields, f !! "key"%string) <$>
    for_scope_of_type (insert_all [("later"%string, secret "first registered"%string); ("earlier"%string, secret "second"%string)] ∅)
      "s3://b/x" "s3" = Some (Some "second"%string).
Proof. vm_compute. reflexivity. Qed.

End Settings.
