(* ===== verification/Json.v ===== *)
(** * JSON documents, as [src/pushdown.cpp] reads them

    The parser is nlohmann's: a parameter, the class [Json].  It calls back for
    each event while it reads and yields a value in which a repeated key is
    gone; [document_for] finds repeated keys from the events alone. *)

From Stdlib Require Import SpecFloat.
From S2P Require Import Prelude.

Module Json.

(** A parsed value: an object's members by key, without repetition. *)
Inductive json : Type :=
| J_null
| J_bool (b : bool)
| J_uint (z : Z)
| J_int (z : Z)
| J_float (f : spec_float)
| J_string (s : string)
| J_array (l : list json)
| J_object (l : list (string * json)).

(** The text as read: members in order, repetitions included. *)
Inductive raw : Type :=
| R_atom (j : json)
| R_array (l : list raw)
| R_object (l : list (string * raw)).

(** The parser's callbacks that the source listens to. *)
Inductive event : Type :=
| Object_start (depth : nat)
| Key (depth : nat) (key : string).

(** [json::parse(text, callback)]: what went wrong, or the events and the value. *)
Class JsonParser := json_parse : string → string + (list event * json).

(** Depth counts the arrays and objects around: 0 for the document, and one
    more inside it. *)
Fixpoint events_of (d : nat) (r : raw) : list event :=
  match r with
  | R_atom _ => []
  | R_array l => concat (map (events_of (S d)) l)
  | R_object l => Object_start d :: concat (map (λ m, Key (S d) m.1 :: events_of (S d) m.2) l)
  end.

Class JsonParserLaws (J : JsonParser) : Prop :=
  parse_events text evs j : json_parse text = inr (evs, j) → ∃ r, evs = events_of 0 r.

(** ** Access *)

Fixpoint j_find (l : list (string * json)) (key : string) : option json :=
  match l with
  | [] => None
  | (k, v) :: l => if bool_decide (k = key) then Some v else j_find l key
  end.

Definition is_object (j : json) : bool := match j with J_object _ => true | _ => false end.
Definition is_array (j : json) : bool := match j with J_array _ => true | _ => false end.
Definition is_string (j : json) : bool := match j with J_string _ => true | _ => false end.
Definition is_boolean (j : json) : bool := match j with J_bool _ => true | _ => false end.

Definition contains (j : json) (key : string) : bool :=
  match j with J_object l => bool_decide (is_Some (j_find l key)) | _ => false end.

Definition at_ (j : json) (key : string) : result json :=
  match j with
  | J_object l => from_opt (Json_error ("key '" +:+ key +:+ "' not found")) (j_find l key)
  | _ => Throw (Json_error "cannot use at() with this type")
  end.

Definition elements_of (j : json) : list json :=
  match j with J_array l => l | _ => [] end.
Definition keys_of (j : json) : list string :=
  match j with J_object l => l.*1 | _ => [] end.

(** [json::empty()] *)
Definition is_empty (j : json) : bool :=
  match j with
  | J_null => true
  | J_array l => bool_decide (l = [])
  | J_object l => bool_decide (l = [])
  | _ => false
  end.

Instance json_nil_dec (l : list json) : Decision (l = []).
Proof. destruct l; [by left|by right]. Defined.

(** ** Repeated keys *)

(** The callback's state: the keys seen of the object open at each depth, and
    whether one came twice. *)
Definition seen := (list (gset string) * bool)%type.

Definition callback (st : seen) (e : event) : seen :=
  let '(keys, dup) := st in
  match e with
  | Object_start d =>
      let keys := if (length keys <=? d)%nat then keys ++ replicate (S d - length keys) ∅ else keys in
      (<[d := ∅]> keys, dup)
  | Key d k =>
      match d with
      | O => st
      | S d =>
          let s := default ∅ (keys !! d) in
          (<[d := {[k]} ∪ s]> keys, dup || bool_decide (k ∈ s))
      end
  end.

Definition duplicate_key (evs : list event) : bool := (foldl callback ([], false) evs).2.

Definition invalid {A} (message : string) : result A :=
  Throw (Invalid_argument ("Filter Encoding v2: " +:+ message)).

Definition document_for `{JsonParser} (text : string) : result json :=
  match json_parse text with
  | inl what => invalid ("invalid filter JSON: " +:+ what)
  | inr (evs, document) =>
      if duplicate_key evs then invalid "invalid filter JSON: duplicate object key" else Ok document
  end.

(** Whether some object of the text repeats a key. *)
Fixpoint repeats (r : raw) : bool :=
  match r with
  | R_atom _ => false
  | R_array l => existsb repeats l
  | R_object l => negb (bool_decide (NoDup l.*1)) || existsb (λ m, repeats m.2) l
  end.

(** ** Lemmas *)

Lemma raw_ind' (P : raw → Prop) :
  (∀ j, P (R_atom j)) → (∀ l, Forall P l → P (R_array l)) →
  (∀ l, Forall (λ m, P m.2) l → P (R_object l)) → ∀ r, P r.
Proof.
  intros Ha Hl Ho. fix IH 1. intros [j|l|l]; [apply Ha|apply Hl|apply Ho].
  - induction l as [|r l IHl]; constructor; [apply IH|apply IHl].
  - induction l as [|[k r] l IHl]; constructor; [apply IH|apply IHl].
Qed.

(** Keys that repeat one of [s] or one before them. *)
Fixpoint dup_keys (s : gset string) (ks : list string) : bool :=
  match ks with [] => false | k :: ks => bool_decide (k ∈ s) || dup_keys ({[k]} ∪ s) ks end.

Lemma dup_keys_false s ks : dup_keys s ks = false ↔ NoDup ks ∧ ∀ k, k ∈ ks → k ∉ s.
Proof.
  revert s. induction ks as [|k ks IH]; intros s; cbn.
  - split; [|done]. intros _. split; [constructor|set_solver].
  - rewrite orb_false_iff, bool_decide_eq_false, IH, NoDup_cons. split.
    + intros (Hk & Hnd & Hs). split_and!; [|done|]; set_solver.
    + intros ((Hk & Hnd) & Hs). split_and!; [|done|]; set_solver.
Qed.

Lemma dup_keys_NoDup ks : dup_keys ∅ ks = negb (bool_decide (NoDup ks)).
Proof.
  destruct (dup_keys ∅ ks) eqn:E.
  - symmetry. apply negb_true_iff, bool_decide_eq_false. intros Hnd.
    assert (dup_keys ∅ ks = false) as E'.
    { apply (proj2 (dup_keys_false ∅ ks)). split; [exact Hnd|]. intros k _. apply not_elem_of_empty. }
    congruence.
  - symmetry. apply negb_false_iff, bool_decide_eq_true. apply dup_keys_false in E as [E _]. exact E.
Qed.

(** Reading [evs] below depth [d] leaves the sets of shallower objects alone. *)
Definition reads (d : nat) (evs : list event) (b : bool) : Prop :=
  ∀ keys dup, ∃ keys', foldl callback (keys, dup) evs = (keys', dup || b) ∧
    (length keys ≤ length keys')%nat ∧
    ∀ i, (i < d)%nat → (i < length keys)%nat → keys' !! i = keys !! i.

Lemma reads_nil d : reads d [] false.
Proof. intros keys dup. exists keys. rewrite orb_false_r. done. Qed.

Lemma reads_app d a b x y : reads d a x → reads d b y → reads d (a ++ b) (x || y).
Proof.
  intros Ha Hb keys dup. destruct (Ha keys dup) as (k1 & E1 & L1 & P1).
  destruct (Hb k1 (dup || x)) as (k2 & E2 & L2 & P2). exists k2.
  rewrite foldl_app, E1, E2, orb_assoc. split_and!; [done|lia|].
  intros i Hi Hl. rewrite P2, P1 by lia. done.
Qed.

Lemma reads_weaken d d' evs b : (d' ≤ d)%nat → reads d evs b → reads d' evs b.
Proof.
  intros Hd Hr keys dup. destruct (Hr keys dup) as (k & E & L & P). exists k.
  split_and!; [done..|]. intros i Hi Hl. apply P; lia.
Qed.

(** The members of an object open at depth [d], whose set so far is [s]. *)
Lemma reads_members d (l : list (string * raw)) :
  Forall (λ m, reads (S d) (events_of (S d) m.2) (repeats m.2)) l →
  ∀ keys dup s, keys !! d = Some s →
  ∃ keys', foldl callback (keys, dup) (concat (map (λ m, Key (S d) m.1 :: events_of (S d) m.2) l)) =
      (keys', dup || (dup_keys s l.*1 || existsb (λ m, repeats m.2) l)) ∧
    (length keys ≤ length keys')%nat ∧
    ∀ i, (i < d)%nat → (i < length keys)%nat → keys' !! i = keys !! i.
Proof.
  induction 1 as [|[k r] l Hr _ IH]; intros keys dup s Hs; cbn [map concat fmap list_fmap existsb fst snd].
  { exists keys. cbn. rewrite orb_false_r. done. }
  assert (callback (keys, dup) (Key (S d) k) = (<[d := {[k]} ∪ s]> keys, dup || bool_decide (k ∈ s)))
    as Hcb by (unfold callback; by rewrite Hs).
  cbn [foldl app dup_keys]. rewrite Hcb, foldl_app.
  pose proof (lookup_lt_Some _ _ _ Hs) as Hlen.
  destruct (Hr (<[d := {[k]} ∪ s]> keys) (dup || bool_decide (k ∈ s))) as (k1 & E1 & L1 & P1).
  cbn [fst snd] in E1. rewrite E1. rewrite length_insert in L1, P1.
  destruct (IH k1 (dup || bool_decide (k ∈ s) || repeats r) ({[k]} ∪ s)) as (k2 & E2 & L2 & P2).
  { rewrite P1 by lia. by apply list_lookup_insert_eq. }
  exists k2. split_and!; [|lia|].
  - rewrite E2. f_equal.
    by destruct dup, (bool_decide (k ∈ s)), (repeats r), (dup_keys ({[k]} ∪ s) l.*1).
  - intros i Hi Hl. rewrite P2, P1 by lia. apply list_lookup_insert_ne. lia.
Qed.

Lemma reads_events d r : reads d (events_of d r) (repeats r).
Proof.
  revert d. induction r as [j|l IH|l IH] using raw_ind'; intros d; cbn [events_of repeats].
  - apply reads_nil.
  - induction IH as [|r l Hr _ IHl]; cbn [map concat existsb]; [apply reads_nil|].
    apply reads_app; [|done]. apply (reads_weaken (S d)); [lia|apply Hr].
  - intros keys dup. cbn [foldl callback].
    set (keys1 := if (length keys <=? d)%nat then keys ++ replicate (S d - length keys) ∅ else keys).
    assert (d < length keys1)%nat as Hlen.
    { unfold keys1. destruct (Nat.leb_spec (length keys) d); [|done].
      rewrite length_app, length_replicate. lia. }
    destruct (reads_members d l) with (keys := <[d := ∅]> keys1) (dup := dup) (s := ∅ : gset string)
      as (k & E & L & P).
    + eapply Forall_impl; [exact IH|]. intros m Hm. apply Hm.
    + by apply list_lookup_insert_eq.
    + exists k. rewrite E, dup_keys_NoDup. split; [done|]. rewrite length_insert in L, P.
      assert (length keys ≤ length keys1)%nat as Hle.
      { unfold keys1. destruct (length keys <=? d)%nat; [rewrite length_app|]; lia. }
      split; [lia|]. intros i Hi Hl. rewrite P, list_lookup_insert_ne by lia.
      unfold keys1. destruct (length keys <=? d)%nat; [|done]. by apply lookup_app_l.
Qed.

(** ** Properties *)

(**  The callback finds repeated keys exactly: over the events of any text,
    at every nesting of objects and arrays, [duplicate_key] says whether some
    object of it repeats a key. *)
Theorem duplicate_key_exact r : duplicate_key (events_of 0 r) = repeats r.
Proof.
  destruct (reads_events 0 r [] false) as (k & E & _). unfold duplicate_key. by rewrite E.
Qed.

End Json.
