(* ===== verification/Pushdown.v ===== *)
(** * Pushed-down filters: the expression tree and its parser ([src/pushdown.cpp])

    [Spec] with every field of the struct, the checks of the types it carries,
    and [Parser::expression], which turns the JSON of Filter Encoding v2 into a
    tree resolved against the authoritative output schema. *)

From S2P Require Import Prelude Text Arrow Json.
Import Json.

Module Pushdown.

Definition kMaxPayloadBytes : Z := Z.shiftl 16 20.
Definition kMaxJsonBytes : Z := Z.shiftl 1 20.
Definition kMaxDepth : nat := 64.
Definition kMaxNodes : Z := 10000.
Definition kMaxPredicates : Z := 1024.
Definition kMaxPredicateIds : Z := 4096.

(** The strings [Spec::kind] can be. *)
Inductive kind : Type :=
| K_column | K_field | K_literal | K_constant | K_and | K_or | K_not | K_is_null | K_is_not_null
| K_in | K_cast | K_arithmetic | K_negate | K_call | K_runtime_filter.

#[global] Instance kind_eq_dec : EqDecision kind.
Proof. solve_decision. Defined.

Inductive Spec : Type := mkSpec {
  s_kind : kind;
  column_name : string;
  column_index : Z;
  field_index : Z;
  field_name : string;
  op : string;
  function : string;
  data_type : option dtype;
  s_value : option array;
  negated : bool;
  advisory : bool;
  s_id : string;
  revision : Z;
  children : list Spec;
}.

(** A freshly made [Spec] of a kind: every other field as initialised. *)
Definition make (k : kind) : Spec :=
  mkSpec k "" 0 0 "" "" "" None None false false "" 0 [].

Definition with_children (cs : list Spec) (t : option dtype) (s : Spec) : Spec :=
  mkSpec (s_kind s) (column_name s) (column_index s) (field_index s) (field_name s) (op s)
    (function s) t (s_value s) (negated s) (advisory s) (s_id s) (revision s) cs.
Definition with_column (name : string) (s : Spec) : Spec :=
  mkSpec (s_kind s) name (column_index s) (field_index s) (field_name s) (op s)
    (function s) (data_type s) (s_value s) (negated s) (advisory s) (s_id s) (revision s) (children s).
Definition with_op (o : string) (s : Spec) : Spec :=
  mkSpec (s_kind s) (column_name s) (column_index s) (field_index s) (field_name s) o
    (function s) (data_type s) (s_value s) (negated s) (advisory s) (s_id s) (revision s) (children s).
Definition with_function (f : string) (s : Spec) : Spec :=
  mkSpec (s_kind s) (column_name s) (column_index s) (field_index s) (field_name s) (op s)
    f (data_type s) (s_value s) (negated s) (advisory s) (s_id s) (revision s) (children s).
Definition with_value (v : option array) (s : Spec) : Spec :=
  mkSpec (s_kind s) (column_name s) (column_index s) (field_index s) (field_name s) (op s)
    (function s) (data_type s) v (negated s) (advisory s) (s_id s) (revision s) (children s).
Definition with_negated (b : bool) (s : Spec) : Spec :=
  mkSpec (s_kind s) (column_name s) (column_index s) (field_index s) (field_name s) (op s)
    (function s) (data_type s) (s_value s) b (advisory s) (s_id s) (revision s) (children s).
Definition with_identity (i : string) (r : Z) (adv : bool) (s : Spec) : Spec :=
  mkSpec (s_kind s) (column_name s) (column_index s) (field_index s) (field_name s) (op s)
    (function s) (data_type s) (s_value s) (negated s) adv i r (children s).

(** ** JSON access with the document's errors *)

Definition require_keys (object : json) (required optional : list string) (where_ : string)
    : result unit :=
  if negb (is_object object) then invalid (where_ +:+ " must be an object") else
  (fix missing (ks : list string) : result unit :=
     match ks with
     | [] => Ok tt
     | k :: ks => if negb (contains object k) then invalid (where_ +:+ " is missing '" +:+ k +:+ "'")
                  else missing ks
     end) required;;
  (fix unknown (ks : list string) : result unit :=
     match ks with
     | [] => Ok tt
     | k :: ks => if bool_decide (k ∈ required ++ optional) then unknown ks
                  else invalid (where_ +:+ " has unknown property '" +:+ k +:+ "'")
     end) (keys_of object).

Definition required_string (object : json) (key where_ : string) : result string :=
  v ← at_ object key;
  match v with
  | J_string s => if bool_decide (s = ""%string) then invalid (where_ +:+ "." +:+ key +:+ " must be a nonempty string")
                  else Ok s
  | _ => invalid (where_ +:+ "." +:+ key +:+ " must be a nonempty string")
  end.

Definition required_uint (object : json) (key where_ : string) : result Z :=
  v ← at_ object key;
  match v with
  | J_uint z => Ok z
  | _ => invalid (where_ +:+ "." +:+ key +:+ " must be uint64")
  end.

(** ** Types *)

Definition known_extensions : list string :=
  ["arrow.bool8"; "arrow.json"; "arrow.uuid"; "geoarrow.linestring"; "geoarrow.multilinestring";
   "geoarrow.multipoint"; "geoarrow.multipolygon"; "geoarrow.point"; "geoarrow.polygon";
   "geoarrow.wkb"]%string.

(** [KeyValueMetadata::Get]. *)
Fixpoint meta_get (m : list (string * string)) (key : string) : option string :=
  match m with
  | [] => None
  | (k, v) :: m => if bool_decide (k = key) then Some v else meta_get m key
  end.

(** The two checks on the field itself. *)
Definition check_extension (name : string) (t : dtype) (metadata : list (string * string)) : result unit :=
  match meta_get metadata "ARROW:extension:name" with
  | Some ext => if bool_decide (ext ∈ known_extensions) then Ok tt
                else invalid ("unknown Arrow extension type on field '" +:+ name +:+ "'")
  | None => Ok tt
  end;;
  match t with
  | T_extension ext _ => if bool_decide (ext ∈ known_extensions) then Ok tt
                         else invalid ("unknown Arrow extension type '" +:+ ext +:+ "'")
  | _ => Ok tt
  end.

Fixpoint validate_arrow_extensions (f : field) : result unit :=
  match f with
  | Field name t _ metadata =>
      check_extension name t metadata;;
      match t with
      | T_struct fields =>
          (fix each (fs : list field) : result unit :=
             match fs with [] => Ok tt | f :: fs => validate_arrow_extensions f;; each fs end) fields
      | T_list item | T_large_list item | T_fixed_size_list item _ => validate_arrow_extensions item
      | _ => Ok tt
      end
  end.

Fixpoint logical_type (t : dtype) : dtype :=
  match t with T_dictionary _ v => logical_type v | _ => t end.

Definition same_logical_type `{Arrow} (left right : option dtype) : bool :=
  match left, right with
  | Some l, Some r => type_equals (logical_type l) (logical_type r)
  | _, _ => false
  end.

Definition boolean_type (t : option dtype) : bool :=
  match logical_type <$> t with Some T_bool => true | _ => false end.

Definition numeric_type (t : option dtype) : bool :=
  match logical_type <$> t with
  | Some (T_uint8 | T_int8 | T_uint16 | T_int16 | T_uint32 | T_int32 | T_uint64 | T_int64
         | T_half_float | T_float | T_double | T_decimal128 _ _ | T_decimal256 _ _) => true
  | _ => false
  end.

Definition exact_context_free_cast `{Arrow} (source target : option dtype) : bool :=
  match source, target with
  | Some s, Some t =>
      if type_equals s t then true
      else if is_integer s && is_integer t then true
      else match s, t with T_float, T_double => true | _, _ => false end
  | _, _ => false
  end.

Definition contextual_type (t : option dtype) : bool :=
  match logical_type <$> t with
  | Some (T_string | T_large_string | T_date32 | T_date64 | T_time32 _ | T_time64 _ | T_timestamp _ _) => true
  | _ => false
  end.

(** ** Identities *)

Definition is_lower (c : ascii) : bool := bool_decide (97 ≤ bz c ≤ 122).
Definition is_name_char (c : ascii) : bool := is_lower c || is_digit c || bool_decide (c = "_"%char).

(** [[a-z][a-z0-9_]*] *)
Definition name_pattern (s : bytes) : bool :=
  match s with [] => false | c :: s => is_lower c && forallb is_name_char s end.

(** Segments separated by dots, each a lower-case letter followed by letters,
    digits and -- after the first dot -- underscores: the state says whether a
    segment is about to start, and whether an underscore may come. *)
Fixpoint namespace_rest (start under : bool) (s : bytes) : bool :=
  match s with
  | [] => negb start
  | c :: s =>
      if start then is_lower c && namespace_rest false under s
      else if bool_decide (c = "."%char) then namespace_rest true true s
      else (is_lower c || is_digit c || (under && bool_decide (c = "_"%char))) && namespace_rest false under s
  end.
Definition namespace_pattern (s : bytes) : bool := namespace_rest true false s.

Definition validate_identity (identity : json) (where_ : string) : result unit :=
  require_keys identity ["namespace"; "name"; "version"] [] where_;;
  ns ← required_string identity "namespace" where_;
  name ← required_string identity "name" where_;
  version ← required_uint identity "version" where_;
  if negb (namespace_pattern (bs ns)) || negb (name_pattern (bs name)) || bool_decide (version = 0)
  then invalid (where_ +:+ " has a noncanonical identity") else Ok tt.

(** ** Payload columns *)

(** The one column of that name ([prefix]_[reference]). *)
Definition payload `{Arrow} (b : batch) (prefix : string) (reference : Z) : result array :=
  let name := prefix +:+ "_" +:+ str (to_string reference) in
  match get_all_field_indices (b_schema b) name with
  | [position] =>
      match b_schema b !! position, b_columns b !! position with
      | Some f, Some c =>
          (if bool_decide (prefix = "artifact"%string) then Ok tt else validate_arrow_extensions f);;
          Ok c
      | _, _ => Throw (Json_error "no such column")
      end
  | _ => invalid ("missing or duplicate payload field '" +:+ name +:+ "'")
  end.

Fixpoint root_column (e : Spec) : string :=
  match s_kind e, children e with
  | K_column, _ => column_name e
  | K_field, c :: _ => root_column c
  | _, _ => ""
  end.

(** A list array's element at row 0. *)
Definition list_value_slice (a : array) (item : field) : option array :=
  match a_values a with
  | V_list l :: _ => Some (mkArray (f_type item) l)
  | _ => None
  end.

(** ** The parser

    [Parser] threads the count of nodes; an error leaves nothing behind. *)
Definition P (A : Type) : Type := Z → result (A * Z).

Definition p_ret {A} (a : A) : P A := λ n, Ok (a, n).
Definition p_bind {A B} (m : P A) (f : A → P B) : P B :=
  λ n, '(a, n) ← m n; f a n.
Definition lift {A} (r : result A) : P A := λ n, a ← r; Ok (a, n).

#[global] Instance P_ret : MRet P := @p_ret.
#[global] Instance P_bind : MBind P := λ A B f m, p_bind m f.

(** [++nodes > kMaxNodes] *)
Definition count_node : P unit := λ n,
  if kMaxNodes <? n + 1 then invalid "document exceeds expression-node limit" else Ok (tt, n + 1).

Definition guard (b : bool) (message : string) : P unit := lift (if b then invalid message else Ok tt).

Fixpoint p_map {A B} (f : A → P B) (l : list A) : P (list B) :=
  match l with
  | [] => mret []
  | a :: l => b ← f a; bs ← p_map f l; mret (b :: bs)
  end.

Definition child_type (s : Spec) (i : nat) : option dtype := children s !! i ≫= data_type.

Definition comparison_ops : list string :=
  ["eq"; "ne"; "lt"; "le"; "gt"; "ge"; "distinct_from"; "not_distinct_from"]%string.
Definition arithmetic_ops : list string := ["add"; "subtract"; "multiply"; "divide"; "modulo"]%string.
Definition string_functions : list string := ["starts_with"; "ends_with"; "contains"]%string.

Section parser.
Context `{Arrow}.
Variables (b : batch) (join_keys : list batch) (output_schema : option (list field)).

Definition column_ref (node : json) : P Spec :=
  lift (require_keys node ["node"; "column_index"; "column_name"] [] "column_ref");;
  index ← lift (required_uint node "column_index" "column_ref");
  name ← lift (required_string node "column_name" "column_ref");
  match output_schema ≫= (λ fs, fs !! Z.to_nat index) with
  | None => lift (invalid "column_ref index is outside the authoritative output schema")
  | Some f =>
      lift (validate_arrow_extensions f);;
      guard (negb (bool_decide (f_name f = name))) "column_ref name does not match authoritative index";;
      mret (mkSpec K_column name index 0 "" "" "" (Some (f_type f)) None false false "" 0 [])
  end.

Definition literal (node : json) : P Spec :=
  lift (require_keys node ["node"; "value_ref"] [] "literal");;
  ref ← lift (required_uint node "value_ref" "literal");
  v ← lift (payload b "value" ref);
  mret (with_value (Some v) (with_children [] (Some (a_type v)) (make K_literal))).

(** The set of an IN: the elements of a literal list, or a column of a join-key
    batch. *)
Definition in_set (set : json) : result array :=
  if negb (is_object set && contains set "kind" &&
           match at_ set "kind" with Ok k => is_string k | _ => false end)
  then invalid "in.set must have a string kind" else
  k ← at_ set "kind";
  match k with
  | J_string "literal" =>
      require_keys set ["kind"; "value_ref"] [] "in.set";;
      ref ← required_uint set "value_ref" "in.set";
      list ← payload b "value" ref;
      match a_type list with
      | T_list item | T_large_list item =>
          match list_value_slice list item with
          | Some values => Ok values
          | None => invalid "literal IN list must not be NULL"
          end
      | _ => invalid "literal IN payload must be a list scalar"
      end
  | J_string "external" =>
      require_keys set ["kind"; "batch_index"; "column_index"; "column_name"] [] "in.set";;
      bi ← required_uint set "batch_index" "in.set";
      ci ← required_uint set "column_index" "in.set";
      name ← required_string set "column_name" "in.set";
      match join_keys !! Z.to_nat bi with
      | None => invalid "external IN batch/column index is unavailable"
      | Some keys =>
          match b_schema keys !! Z.to_nat ci, b_columns keys !! Z.to_nat ci with
          | Some f, Some c =>
              if negb (bool_decide (f_name f = name))
              then invalid "external IN column name does not match authoritative index"
              else validate_arrow_extensions f;; Ok c
          | _, _ => invalid "external IN batch/column index is unavailable"
          end
      end
  | _ => invalid "in.set has an unknown kind"
  end.

Section recursive.
(** The call [expression(child, depth + 1)]. *)
Variable rec : json → P Spec.

Definition member (node : json) (key : string) : P Spec := e ← lift (at_ node key); rec e.

Definition field_ref (node : json) : P Spec :=
  lift (require_keys node ["node"; "expression"; "field_index"; "field_name"] [] "field_ref");;
  c ← member node "expression";
  index ← lift (required_uint node "field_index" "field_ref");
  name ← lift (required_string node "field_name" "field_ref");
  match data_type c with
  | Some (T_struct fields) =>
      match fields !! Z.to_nat index with
      | Some f =>
          if negb (bool_decide (f_name f = name))
          then lift (invalid "field_ref name/index does not match authoritative struct") else
          lift (validate_arrow_extensions f);;
          mret (mkSpec K_field (root_column c) 0 index name "" "" (Some (f_type f)) None false false "" 0 [c])
      | None => lift (invalid "field_ref name/index does not match authoritative struct")
      end
  | _ => lift (invalid "field_ref input must be STRUCT")
  end.

Definition comparison (node : json) : P Spec :=
  lift (require_keys node ["node"; "op"; "left"; "right"] [] "comparison");;
  o ← lift (required_string node "op" "comparison");
  guard (negb (bool_decide (o ∈ comparison_ops))) ("unknown comparison operator '" +:+ o +:+ "'");;
  l ← member node "left";
  r ← member node "right";
  guard (negb (same_logical_type (data_type l) (data_type r))) "comparison operands have incompatible types";;
  let name := if bool_decide (root_column l = ""%string) then root_column r else root_column l in
  let v := if bool_decide (s_kind r = K_literal) then s_value r else None in
  mret (with_value v (with_op o (with_column name (with_children [l; r] (Some T_bool) (make K_constant))))).

Definition connective (k : kind) (name : string) (node : json) : P Spec :=
  lift (require_keys node ["node"; "children"] [] name);;
  cs ← lift (at_ node "children");
  guard (negb (is_array cs) || bool_decide (length (elements_of cs) < 2)%nat)
    (name +:+ " requires at least two children");;
  children ← p_map rec (elements_of cs);
  guard (negb (forallb (λ c, boolean_type (data_type c)) children)) (name +:+ " children must be BOOLEAN");;
  mret (with_children children (Some T_bool) (make k)).

Definition negation (node : json) : P Spec :=
  lift (require_keys node ["node"; "expression"] [] "not");;
  c ← member node "expression";
  guard (negb (boolean_type (data_type c))) "not operand must be BOOLEAN";;
  mret (with_children [c] (Some T_bool) (make K_not)).

Definition required_bool (node : json) (message : string) : P bool :=
  v ← lift (at_ node "negated");
  match v with J_bool x => mret x | _ => lift (invalid message) end.

Definition null_test (node : json) : P Spec :=
  lift (require_keys node ["node"; "expression"; "negated"] [] "is_null");;
  neg ← required_bool node "is_null.negated must be Boolean";
  c ← member node "expression";
  mret (with_negated neg (with_column (root_column c)
    (with_children [c] (Some T_bool) (make (if neg then K_is_not_null else K_is_null))))).

Definition in_expression (node : json) : P Spec :=
  lift (require_keys node ["node"; "expression"; "set"; "negated"] [] "in");;
  neg ← required_bool node "in.negated must be Boolean";
  c ← member node "expression";
  set ← lift (at_ node "set");
  v ← lift (in_set set);
  guard (negb (same_logical_type (data_type c) (Some (a_type v)))) "IN expression and set have incompatible types";;
  mret (with_value (Some v) (with_negated neg (with_column (root_column c)
    (with_children [c] (Some T_bool) (make K_in))))).

Definition cast_expression (node : json) : P Spec :=
  lift (require_keys node ["node"; "expression"; "type_ref"] [] "cast");;
  c ← member node "expression";
  ref ← lift (required_uint node "type_ref" "cast");
  v ← lift (payload b "type" ref);
  guard (negb (match a_values v with V_null :: _ => true | _ => false end))
    "cast type payload must contain NULL";;
  guard (contextual_type (data_type c) && contextual_type (Some (a_type v)))
    "context-dependent cast requires vgi.duckdb.session.v1";;
  guard (negb (exact_context_free_cast (data_type c) (Some (a_type v))))
    "cast has no exact context-free standard-v1 evaluator";;
  mret (with_value (Some v) (with_children [c] (Some (a_type v)) (make K_cast))).

Definition arithmetic (node : json) : P Spec :=
  lift (require_keys node ["node"; "op"; "left"; "right"] [] "arithmetic");;
  o ← lift (required_string node "op" "arithmetic");
  guard (negb (bool_decide (o ∈ arithmetic_ops))) "unknown arithmetic operator";;
  guard (bool_decide (o = "divide"%string) || bool_decide (o = "modulo"%string))
    "context-dependent arithmetic requires vgi.duckdb.session.v1";;
  l ← member node "left";
  r ← member node "right";
  guard (negb (numeric_type (data_type l)) || negb (same_logical_type (data_type l) (data_type r)))
    "arithmetic operands require one exact numeric type";;
  mret (with_op o (with_children [l; r] (data_type l) (make K_arithmetic))).

Definition negate (node : json) : P Spec :=
  lift (require_keys node ["node"; "expression"] [] "negate");;
  c ← member node "expression";
  guard (negb (numeric_type (data_type c))) "negate operand must be numeric";;
  mret (with_children [c] (data_type c) (make K_negate)).

(** The argument types of the standard functions. *)
Definition check_arguments (f : string) (args : list Spec) : result unit :=
  if bool_decide (f ∈ string_functions) then
    if forallb (λ a, match data_type a with Some T_string => true | _ => false end) args then Ok tt
    else invalid "string function arguments must be UTF8"
  else
    match args ≫= (λ a, [data_type a]) with
    | [Some (T_list item); needle] =>
        if same_logical_type (Some (f_type item)) needle then Ok tt
        else invalid "list_contains element type mismatch"
    | _ => invalid "list_contains first argument must be LIST"
    end.

Definition call_expression (node : json) : P Spec :=
  lift (require_keys node ["node"; "function"; "arguments"] ["options"] "call");;
  f ← lift (at_ node "function");
  match f with
  | J_string f =>
      guard (negb (bool_decide (f ∈ string_functions ++ ["list_contains"%string])))
        "unknown standard filter function";;
      args ← lift (at_ node "arguments");
      guard (negb (is_array args) || negb (bool_decide (length (elements_of args) = 2%nat)))
        "standard filter functions require exactly two arguments";;
      guard (contains node "options" && match at_ node "options" with Ok o => negb (is_empty o) | _ => false end)
        "standard filter functions do not accept options";;
      cs ← p_map rec (elements_of args);
      lift (check_arguments f cs);;
      mret (with_function f (with_children cs (Some T_bool) (make K_call)))
  | _ =>
      lift (validate_identity f "call.function");;
      lift (invalid "extension filter functions were not advertised")
  end.

Definition runtime_filter (root : bool) (node : json) : P Spec :=
  lift (require_keys node ["node"; "algorithm"; "input"; "artifact_ref"; "null_handling"] [] "runtime_filter");;
  guard (negb root) "runtime_filter may appear only at a predicate root";;
  algorithm ← lift (at_ node "algorithm");
  lift (validate_identity algorithm "runtime_filter.algorithm");;
  ns ← lift (required_string algorithm "namespace" "runtime_filter.algorithm");
  name ← lift (required_string algorithm "name" "runtime_filter.algorithm");
  version ← lift (required_uint algorithm "version" "runtime_filter.algorithm");
  guard (negb (bool_decide (ns = "duckdb.runtime_filter"%string)) ||
         negb (bool_decide (name ∈ ["bloom"; "prefix_range"]%string)) ||
         negb (bool_decide (version = 1)))
    "unknown runtime-filter algorithm";;
  nulls ← lift (required_string node "null_handling" "runtime_filter");
  guard (negb (bool_decide (nulls ∈ ["pass"; "reject"]%string)))
    "runtime_filter.null_handling must be pass or reject";;
  c ← member node "input";
  ref ← lift (required_uint node "artifact_ref" "runtime_filter");
  lift (payload b "artifact" ref);;
  mret (with_children [c] None (make K_runtime_filter)).

Definition dispatch (root : bool) (kind_ : string) (node : json) : P Spec :=
  if bool_decide (kind_ = "column_ref"%string) then column_ref node
  else if bool_decide (kind_ = "field_ref"%string) then field_ref node
  else if bool_decide (kind_ = "literal"%string) then literal node
  else if bool_decide (kind_ = "comparison"%string) then comparison node
  else if bool_decide (kind_ = "and"%string) then connective K_and "and" node
  else if bool_decide (kind_ = "or"%string) then connective K_or "or" node
  else if bool_decide (kind_ = "not"%string) then negation node
  else if bool_decide (kind_ = "is_null"%string) then null_test node
  else if bool_decide (kind_ = "in"%string) then in_expression node
  else if bool_decide (kind_ = "cast"%string) then cast_expression node
  else if bool_decide (kind_ = "arithmetic"%string) then arithmetic node
  else if bool_decide (kind_ = "negate"%string) then negate node
  else if bool_decide (kind_ = "call"%string) then call_expression node
  else if bool_decide (kind_ = "runtime_filter"%string) then runtime_filter root node
  else lift (invalid ("unknown expression node '" +:+ kind_ +:+ "'")).

End recursive.

(** [expression(node, depth, root)] with [fuel = kMaxDepth + 1 - depth]: the
    code's own depth limit bounds the recursion. *)
Fixpoint expression (fuel : nat) (root : bool) (node : json) : P Spec :=
  match fuel with
  | O => lift (invalid "expression exceeds nesting-depth limit")
  | S fuel =>
      count_node;;
      match at_ node "node" with
      | Ok (J_string kind_) => dispatch (expression fuel false) root kind_ node
      | _ => lift (invalid "expression must have a string node")
      end
  end.

End parser.

(** ** What the parser lets through *)

(** A property of every node of a tree. *)
Inductive every (Q : Spec → Prop) : Spec → Prop :=
| every_intro s : Q s → Forall (every Q) (children s) → every Q s.

Fixpoint size (s : Spec) : Z := 1 + foldr (λ c n, size c + n) 0 (children s).
Fixpoint depth (s : Spec) : nat := S (foldr (λ c n, Nat.max (depth c) n) O (children s)).

Section well_formed.
Context `{Arrow}.
Variable output_schema : option (list field).

(** The typing rule of each kind of node: references agree with the output
    schema and the struct they enter, operands have the types the operator
    takes, and the type recorded is the one of the result. *)
Definition wf_node (s : Spec) : Prop :=
  match s_kind s with
  | K_column => children s = [] ∧ ∃ fs f, output_schema = Some fs ∧
      fs !! Z.to_nat (column_index s) = Some f ∧ f_name f = column_name s ∧
      data_type s = Some (f_type f)
  | K_field => ∃ c fs f, children s = [c] ∧ data_type c = Some (T_struct fs) ∧
      fs !! Z.to_nat (field_index s) = Some f ∧ f_name f = field_name s ∧
      data_type s = Some (f_type f)
  | K_literal => children s = [] ∧ ∃ v, s_value s = Some v ∧ data_type s = Some (a_type v)
  | K_constant => ∃ l r, children s = [l; r] ∧ op s ∈ comparison_ops ∧
      same_logical_type (data_type l) (data_type r) = true ∧ data_type s = Some T_bool
  | K_and | K_or => (2 ≤ length (children s))%nat ∧
      Forall (λ c, boolean_type (data_type c) = true) (children s) ∧ data_type s = Some T_bool
  | K_not => ∃ c, children s = [c] ∧ boolean_type (data_type c) = true ∧ data_type s = Some T_bool
  | K_is_null | K_is_not_null => ∃ c, children s = [c] ∧ data_type s = Some T_bool
  | K_in => ∃ c v, children s = [c] ∧ s_value s = Some v ∧
      same_logical_type (data_type c) (Some (a_type v)) = true ∧ data_type s = Some T_bool
  | K_cast => ∃ c t, children s = [c] ∧ data_type s = Some t ∧
      exact_context_free_cast (data_type c) (Some t) = true ∧
      contextual_type (data_type c) && contextual_type (Some t) = false
  | K_arithmetic => ∃ l r, children s = [l; r] ∧ op s ∈ ["add"; "subtract"; "multiply"]%string ∧
      numeric_type (data_type l) = true ∧ same_logical_type (data_type l) (data_type r) = true ∧
      data_type s = data_type l
  | K_negate => ∃ c, children s = [c] ∧ numeric_type (data_type c) = true ∧ data_type s = data_type c
  | K_call => function s ∈ string_functions ++ ["list_contains"%string] ∧ length (children s) = 2%nat ∧
      check_arguments (function s) (children s) = Ok tt ∧ data_type s = Some T_bool
  | K_runtime_filter => ∃ c, children s = [c] ∧ data_type s = None
  end.

(** A parsed tree: well formed, within the depth left, its nodes counted, no
    runtime filter but where one is allowed. *)
Record parsed (fuel : nat) (root : bool) (n n' : Z) (s : Spec) : Prop := {
  parsed_wf : every wf_node s;
  parsed_depth : (depth s ≤ fuel)%nat;
  parsed_nodes : n' = n + size s;
  parsed_limit : n' ≤ kMaxNodes;
  parsed_runtime : Forall (every (λ c, s_kind c ≠ K_runtime_filter)) (children s);
  parsed_root : root = false → s_kind s ≠ K_runtime_filter;
}.

(** The same of a node whose count has been taken: what each case returns. *)
Record made (fuel : nat) (root : bool) (n n' : Z) (s : Spec) : Prop := {
  made_wf : wf_node s;
  made_children : Forall (λ c, every wf_node c ∧ (depth c ≤ fuel)%nat ∧
    every (λ c, s_kind c ≠ K_runtime_filter) c) (children s);
  made_nodes : n' = n + foldr (λ c m, size c + m) 0 (children s);
  made_limit : n' ≤ kMaxNodes;
  made_root : root = false → s_kind s ≠ K_runtime_filter;
}.

End well_formed.

Lemma spec_ind' (Q : Spec → Prop) : (∀ s, Forall Q (children s) → Q s) → ∀ s, Q s.
Proof.
  intros H. fix IH 1. intros s. apply H. destruct s as [k cn ci fi fn o f t v n a i r cs]. cbn.
  induction cs as [|c cs IHcs]; constructor; [apply IH|apply IHcs].
Qed.

(** ** Lemmas: the parser's monad *)

Lemma p_bind_Ok {A B} (m : P A) (f : A → P B) n r n' :
  (m ≫= f) n = Ok (r, n') ↔ ∃ a n1, m n = Ok (a, n1) ∧ f a n1 = Ok (r, n').
Proof.
  change ((m ≫= f) n) with (p_bind m f n). unfold p_bind. rewrite bind_Ok. split.
  - intros ([a n1] & ? & ?). by exists a, n1.
  - intros (a & n1 & ? & ?). by exists (a, n1).
Qed.

Lemma lift_Ok {A} (r : result A) n a n' : lift r n = Ok (a, n') ↔ r = Ok a ∧ n' = n.
Proof. unfold lift. destruct r; simpl; naive_solver. Qed.

Lemma guard_Ok (c : bool) m n u n' : guard c m n = Ok (u, n') ↔ c = false ∧ n' = n.
Proof. unfold guard. rewrite lift_Ok. destruct c, u; unfold invalid; naive_solver. Qed.

Lemma ret_Ok {A} (a : A) n x n' : (mret a : P A) n = Ok (x, n') ↔ x = a ∧ n' = n.
Proof. unfold mret, P_ret, p_ret. naive_solver. Qed.

Lemma invalid_Ok {A} m (a : A) : invalid m ≠ Ok a.
Proof. done. Qed.

Ltac inv_P :=
  repeat match goal with
  | H : (_ ≫= _) _ = Ok (_, _) |- _ =>
      apply p_bind_Ok in H; let a := fresh "a" in let n := fresh "n" in let E := fresh "E" in
      destruct H as (a & n & E & H)
  | H : lift _ _ = Ok (_, _) |- _ => apply lift_Ok in H as [H ->]
  | H : guard _ _ _ = Ok (_, _) |- _ => apply guard_Ok in H as [H ->]
  | H : mret _ _ = Ok (_, _) |- _ => apply ret_Ok in H as [-> ->]
  | H : invalid _ = Ok _ |- _ => by apply invalid_Ok in H
  | H : negb _ = false |- _ => apply negb_false_iff in H
  | H : _ || _ = false |- _ => apply orb_false_iff in H; destruct H
  | H : bool_decide _ = true |- _ => apply bool_decide_eq_true in H
  | H : bool_decide _ = false |- _ => apply bool_decide_eq_false in H
  end.

Section parser_lemmas.
Context `{Arrow}.
Variables (b : batch) (join_keys : list batch) (output_schema : option (list field)).

Abbreviation parsed_ := (parsed output_schema).
Abbreviation made_ := (made output_schema).

Section recursive.
Context (rec : json → P Spec) (fuel : nat).
Hypothesis Hrec : ∀ j n s n', rec j n = Ok (s, n') → parsed_ fuel false n n' s.

Definition child_ok (c : Spec) : Prop :=
  every (wf_node output_schema) c ∧ (depth c ≤ fuel)%nat ∧ every (λ c, s_kind c ≠ K_runtime_filter) c.

Lemma rec_child j n s n' :
  rec j n = Ok (s, n') → child_ok s ∧ n' = n + size s ∧ n' ≤ kMaxNodes.
Proof using Hrec.
  intros [H1 H2 H3 H4 H5 H6]%Hrec. split_and!; [|done|done]. split_and!; [done..|].
  constructor; [by apply H6|done].
Qed.

Lemma member_child node key n s n' :
  member rec node key n = Ok (s, n') → child_ok s ∧ n' = n + size s ∧ n' ≤ kMaxNodes.
Proof using Hrec. unfold member. intros Hm. inv_P. by eapply rec_child. Qed.

Lemma map_children l n cs n' :
  p_map rec l n = Ok (cs, n') → n ≤ kMaxNodes →
  Forall child_ok cs ∧ n' = n + foldr (λ c m, size c + m) 0 cs ∧ n' ≤ kMaxNodes ∧ length cs = length l.
Proof using Hrec.
  revert n cs. induction l as [|j l IH]; intros n cs Hm Hn; cbn [p_map] in Hm; inv_P.
  - cbn. split_and!; [constructor|lia|done|done].
  - apply rec_child in E as (Hc & -> & Hle). apply IH in E0 as (Hcs & -> & Hle' & Hlen); [|done].
    cbn. split_and!; [by constructor|lia|lia|by rewrite Hlen].
Qed.

(** A node with no child, and one with one. *)
Lemma made_leaf root n s :
  wf_node output_schema s → children s = [] → n ≤ kMaxNodes →
  (root = false → s_kind s ≠ K_runtime_filter) → made_ fuel root n n s.
Proof using Type. intros Hw Hc Hn Hr. split; rewrite ?Hc; [done|constructor|cbn; lia|done|done]. Qed.

Lemma made_unary root n n' c s :
  wf_node output_schema s → children s = [c] → child_ok c → n' = n + size c → n' ≤ kMaxNodes →
  (root = false → s_kind s ≠ K_runtime_filter) → made_ fuel root n n' s.
Proof using Type.
  intros Hw Hc Hok Hn Hl Hr. split; rewrite ?Hc; [done|by constructor|cbn; lia|done|done].
Qed.

Lemma made_binary root n n1 n' l r s :
  wf_node output_schema s → children s = [l; r] → child_ok l → child_ok r →
  n1 = n + size l → n' = n1 + size r → n' ≤ kMaxNodes →
  (root = false → s_kind s ≠ K_runtime_filter) → made_ fuel root n n' s.
Proof using Type.
  intros Hw Hc Hl Hr Hn1 Hn Hle Hroot. split; rewrite ?Hc;
    [done|constructor; [exact Hl|constructor; [exact Hr|constructor]]|cbn; lia|done|done].
Qed.

Lemma column_ref_made root node n s n' :
  n ≤ kMaxNodes → column_ref output_schema node n = Ok (s, n') → made_ fuel root n n' s.
Proof using Type.
  unfold column_ref. intros Hn Hm. inv_P.
  destruct (output_schema ≫= _) as [f|] eqn:Hf; inv_P.
  apply bind_Some in Hf as (fs & Hs & Hf).
  apply made_leaf; [|done..]. cbn. split; [done|]. by exists fs, f.
Qed.

Lemma literal_made root node n s n' :
  n ≤ kMaxNodes → literal b node n = Ok (s, n') → made_ fuel root n n' s.
Proof using Type.
  unfold literal. intros Hn Hm. inv_P. apply made_leaf; [|done..]. cbn. split; [done|]. by eexists.
Qed.

Lemma field_ref_made root node n s n' :
  field_ref rec node n = Ok (s, n') → made_ fuel root n n' s.
Proof using Hrec.
  unfold field_ref. intros Hm. inv_P. apply member_child in E0 as (Hc & -> & Hle).
  destruct (data_type a0) as [[]|] eqn:Ht; inv_P.
  destruct (fields !! Z.to_nat a1) as [f|] eqn:Hf; inv_P.
  destruct (negb (bool_decide (f_name f = a2))) eqn:Hname; inv_P.
  eapply made_unary; [|done..]. cbn. by exists a0, fields, f.
Qed.

Lemma comparison_made root node n s n' :
  comparison rec node n = Ok (s, n') → made_ fuel root n n' s.
Proof using Hrec.
  unfold comparison. intros Hm. inv_P.
  repeat match goal with H : member _ _ _ _ = Ok _ |- _ => apply member_child in H as (? & -> & ?) end.
  eapply made_binary; [|done..]. cbn. eexists _, _. by split_and!.
Qed.

Lemma connective_made root k name node n s n' :
  k = K_and ∨ k = K_or → n ≤ kMaxNodes →
  connective rec k name node n = Ok (s, n') → made_ fuel root n n' s.
Proof using Hrec.
  unfold connective. intros Hk Hn Hm. inv_P.
  match goal with H : p_map _ _ _ = Ok _ |- _ => apply map_children in H as (Hcs & -> & Hle & Hlen); [|done] end.
  split; try done.
  - assert (wf_node output_schema (with_children a2 (Some T_bool) (make K_and))) as Hw.
    { cbn. split_and!; [lia| |done]. apply Forall_forall. intros c Hc.
      match goal with H : forallb _ _ = true |- _ => rewrite forallb_forall in H; by apply H, list_elem_of_In end. }
    by destruct Hk as [-> | ->].
  - by destruct Hk as [-> | ->].
Qed.

Lemma negation_made root node n s n' :
  negation rec node n = Ok (s, n') → made_ fuel root n n' s.
Proof using Hrec.
  unfold negation. intros Hm. inv_P. apply member_child in E0 as (Hc & -> & Hle).
  eapply made_unary; [|done..]. cbn. by eexists.
Qed.

Lemma null_test_made root node n s n' :
  null_test rec node n = Ok (s, n') → made_ fuel root n n' s.
Proof using Hrec.
  unfold null_test, required_bool. intros Hm. inv_P.
  match goal with H : match ?j with _ => _ end _ = Ok _ |- _ => destruct j; inv_P end.
  match goal with H : member _ _ _ _ = Ok _ |- _ => apply member_child in H as (? & -> & ?) end.
  match goal with |- context [if ?x then K_is_not_null else _] => destruct x end;
    (eapply made_unary; [|done..]; cbn; by eexists).
Qed.

Lemma in_expression_made root node n s n' :
  in_expression b join_keys rec node n = Ok (s, n') → made_ fuel root n n' s.
Proof using Hrec.
  unfold in_expression, required_bool. intros Hm. inv_P.
  match goal with H : match ?j with _ => _ end _ = Ok _ |- _ => destruct j; inv_P end.
  match goal with H : member _ _ _ _ = Ok _ |- _ => apply member_child in H as (? & -> & ?) end.
  eapply made_unary; [|done..]. cbn. eexists _, _. by split_and!.
Qed.

Lemma cast_made root node n s n' :
  cast_expression b rec node n = Ok (s, n') → made_ fuel root n n' s.
Proof using Hrec.
  unfold cast_expression. intros Hm. inv_P. apply member_child in E0 as (Hc & -> & Hle).
  eapply made_unary; [|done..]. cbn. eexists _, _. by split_and!.
Qed.

Lemma arithmetic_made root node n s n' :
  arithmetic rec node n = Ok (s, n') → made_ fuel root n n' s.
Proof using Hrec.
  unfold arithmetic. intros Hm. inv_P.
  repeat match goal with H : member _ _ _ _ = Ok _ |- _ => apply member_child in H as (? & -> & ?) end.
  eapply made_binary; [|done..]. cbn. eexists _, _. split_and!; try done.
  match goal with H : _ ∈ arithmetic_ops |- _ => unfold arithmetic_ops in H; set_solver end.
Qed.

Lemma negate_made root node n s n' :
  negate rec node n = Ok (s, n') → made_ fuel root n n' s.
Proof using Hrec.
  unfold negate. intros Hm. inv_P. apply member_child in E0 as (Hc & -> & Hle).
  eapply made_unary; [|done..]. cbn. by eexists.
Qed.

Lemma call_made root node n s n' :
  n ≤ kMaxNodes → call_expression rec node n = Ok (s, n') → made_ fuel root n n' s.
Proof using Hrec.
  unfold call_expression. intros Hn Hm. inv_P.
  match goal with H : match ?j with _ => _ end _ = Ok _ |- _ => destruct j; inv_P end.
  match goal with H : p_map _ _ _ = Ok _ |- _ => apply map_children in H as (Hcs & -> & Hle & Hlen); [|done] end.
  match goal with H : check_arguments _ _ = Ok ?u |- _ => destruct u end.
  split; cbn; try done. split_and!; [done|lia|done|done].
Qed.

Lemma runtime_filter_made root node n s n' :
  runtime_filter b rec root node n = Ok (s, n') → made_ fuel root n n' s.
Proof using Hrec.
  unfold runtime_filter. intros Hm. inv_P.
  match goal with H : member _ _ _ _ = Ok _ |- _ => apply member_child in H as (? & -> & ?) end.
  eapply made_unary; [|done..|]; cbn; [by eexists|]. by intros ->.
Qed.

Lemma dispatch_made root kind_ node n s n' :
  n ≤ kMaxNodes → dispatch b join_keys output_schema rec root kind_ node n = Ok (s, n') →
  made_ fuel root n n' s.
Proof using Hrec.
  intros Hn. unfold dispatch.
  repeat (case_bool_decide; [eauto using column_ref_made, literal_made, field_ref_made, comparison_made,
    connective_made, negation_made, null_test_made, in_expression_made, cast_made, arithmetic_made,
    negate_made, call_made, runtime_filter_made|]).
  intros Hm. inv_P.
Qed.

End recursive.
End parser_lemmas.

Lemma size_eq s : size s = 1 + foldr (λ c m, size c + m) 0 (children s).
Proof. by destruct s. Qed.

Lemma depth_eq s : depth s = S (foldr (λ c m, Nat.max (depth c) m) O (children s)).
Proof. by destruct s. Qed.

Lemma depth_children (cs : list Spec) (n : nat) :
  Forall (λ c, (depth c ≤ n)%nat) cs → (foldr (λ c m, Nat.max (depth c) m) O cs ≤ n)%nat.
Proof. induction 1; cbn; [lia|]. by apply Nat.max_lub. Qed.

Section parse_expression.
Context `{Arrow}.
Variables (b : batch) (join_keys : list batch) (output_schema : option (list field)).

Lemma made_parsed fuel root n n' s :
  made output_schema fuel root (n + 1) n' s → parsed output_schema (S fuel) root n n' s.
Proof using Type.
  intros [Hw Hc Hn Hl Hr]. split.
  - constructor; [done|]. eapply Forall_impl; [exact Hc|]. by intros c (? & _).
  - rewrite depth_eq. apply le_n_S, depth_children.
    eapply Forall_impl; [exact Hc|]. by intros c (_ & ? & _).
  - rewrite size_eq, Hn. lia.
  - done.
  - eapply Forall_impl; [exact Hc|]. by intros c (_ & _ & ?).
  - done.
Qed.

Lemma expression_parsed fuel root node n s n' :
  expression b join_keys output_schema fuel root node n = Ok (s, n') →
  parsed output_schema fuel root n n' s.
Proof using Type.
  revert root node n s n'. induction fuel as [|fuel IH]; intros root node n s n' He;
    cbn [expression] in He; [inv_P|].
  apply p_bind_Ok in He as ([] & n1 & Hc & He). unfold count_node in Hc.
  destruct (Z.ltb_spec kMaxNodes (n + 1)); [done|]. injection Hc as <-.
  destruct (at_ node "node") as [[]|]; try (by inv_P).
  eapply made_parsed, dispatch_made; [|done|done]. intros. by apply (IH false j).
Qed.

(** C21. What the parser accepts is well formed: every reference agrees with the
    output schema, every operand has the type its operator takes, the tree is no
    deeper than the depth left, its nodes have been counted and are within the
    limit, and no runtime filter stands below the root. *)
Theorem expression_wellformed fuel root node n s n' :
  expression b join_keys output_schema fuel root node n = Ok (s, n') →
  every (wf_node output_schema) s ∧ (depth s ≤ fuel)%nat ∧ n' = n + size s ∧ n' ≤ kMaxNodes ∧
  Forall (every (λ c, s_kind c ≠ K_runtime_filter)) (children s) ∧
  (root = false → s_kind s ≠ K_runtime_filter).
Proof using Type. by intros [H1 H2 H3 H4 H5 H6]%expression_parsed. Qed.

End parse_expression.

(** ** At work: [x >= 3] *)

Definition sample_schema : list field := [Field "x" T_int64 true []; Field "ok" T_bool true []].
Definition sample_payload : batch :=
  mkBatch [Field "filter_spec" T_string false []; Field "value_0" T_int64 true []] None 1
    [mkArray T_string [V_text []]; mkArray T_int64 [V_int 3]].
Definition sample_node : json :=
  J_object [("node", J_string "comparison"); ("op", J_string "ge");
    ("left", J_object [("node", J_string "column_ref"); ("column_index", J_uint 0); ("column_name", J_string "x")]);
    ("right", J_object [("node", J_string "literal"); ("value_ref", J_uint 0)])]%string.
Definition sample_spec : Spec :=
  mkSpec K_constant "x" 0 0 "" "ge" "" (Some T_bool) (Some (mkArray T_int64 [V_int 3])) false false "" 0
    [mkSpec K_column "x" 0 0 "" "" "" (Some T_int64) None false false "" 0 [];
     mkSpec K_literal "" 0 0 "" "" "" (Some T_int64) (Some (mkArray T_int64 [V_int 3])) false false "" 0 []].

Lemma expression_wellformed_witness :
  @expression toy_arrow sample_payload [] (Some sample_schema) kMaxDepth true sample_node 0 = Ok (sample_spec, 3) ∧
  every (@wf_node toy_arrow (Some sample_schema)) sample_spec.
Proof.
  split; [reflexivity|].
  apply (@expression_wellformed toy_arrow sample_payload [] (Some sample_schema) kMaxDepth true sample_node 0
    sample_spec 3). reflexivity.
Defined.

End Pushdown.
