(* ===== verification/PushdownEval.v ===== *)
(** * Evaluating pushed-down filters ([src/pushdown.cpp])

    [compare], [evaluate] and [PushdownFilters::apply] over the Arrow compute
    functions, and their meaning row by row: [row_eval] is what a filter says of
    one row, in three-valued logic, and the theorems show that the vectorised
    evaluation agrees with it on every row and that [apply] keeps exactly the
    rows it is true of. *)

From Stdlib Require Import SpecFloat.
From S2P Require Import Prelude Text Arrow ArrowCompute Json Pushdown.
Import Json Pushdown.

Module PushdownEval.

Definition value_or_throw {A} (r : string + A) (context : string) : result A :=
  match r with inl status => Throw (Runtime_error (context +:+ ": " +:+ status)) | inr a => Ok a end.

Definition error {A} (what : string) : result A := Throw (Runtime_error what).

(** ** Comparison *)

Definition comparison_type_supported (t : dtype) : bool :=
  match t with
  | T_null | T_list _ | T_large_list _ | T_fixed_size_list _ _ | T_list_view _ | T_large_list_view _
  | T_struct _ | T_map _ _ | T_sparse_union | T_dense_union | T_run_end_encoded | T_extension _ _ => false
  | _ => true
  end.

Definition is_nan (f : spec_float) : bool := match f with S754_nan => true | _ => false end.

(** The ordering of two doubles: -1, 0 or 1, with NaN above everything. *)
Definition floating_ordering (left right : spec_float) : Z :=
  if is_nan left then if is_nan right then 0 else 1
  else if is_nan right then -1
  else if SFltb left right then -1
  else if SFltb right left then 1
  else 0.

Definition floating_compare (left right : spec_float) (op : string) : result bool :=
  let ordering := floating_ordering left right in
  if bool_decide (op = "eq"%string) || bool_decide (op = "not_distinct_from"%string) then Ok (ordering =? 0)
  else if bool_decide (op = "ne"%string) || bool_decide (op = "distinct_from"%string) then Ok (negb (ordering =? 0))
  else if bool_decide (op = "lt"%string) then Ok (ordering <? 0)
  else if bool_decide (op = "le"%string) then Ok (ordering <=? 0)
  else if bool_decide (op = "gt"%string) then Ok (0 <? ordering)
  else if bool_decide (op = "ge"%string) then Ok (0 <=? ordering)
  else error "unsupported comparison operator".

Definition is_distinct (op : string) : bool :=
  bool_decide (op = "distinct_from"%string) || bool_decide (op = "not_distinct_from"%string).

Definition kernel_of (op : string) : option string :=
  if bool_decide (op = "eq"%string) then Some "equal"%string
  else if bool_decide (op = "ne"%string) then Some "not_equal"%string
  else if bool_decide (op = "lt"%string) then Some "less"%string
  else if bool_decide (op = "le"%string) then Some "less_equal"%string
  else if bool_decide (op = "gt"%string) then Some "greater"%string
  else if bool_decide (op = "ge"%string) then Some "greater_equal"%string
  else None.

(** [IS [NOT] DISTINCT FROM] when a side is null. *)
Definition distinct_null (op : string) (l r : value) : value :=
  let differ := xorb (is_null l) (is_null r) in
  V_bool (if bool_decide (op = "distinct_from"%string) then differ else negb differ).

Definition float_of (v : value) : spec_float := match v with V_float f => f | _ => S754_nan end.
Definition bool_of (v : value) : bool := match v with V_bool x => x | _ => false end.

Section eval.
Context `{A : Arrow} `{C : Compute}.

Definition array_from_datum (d : datum) (n : nat) : result array :=
  match d with
  | D_array a => if bool_decide (length (a_values a) = n) then Ok a
                 else error "filter expression length mismatch"
  | D_scalar t v => value_or_throw (make_array t v n) "broadcast filter scalar"
  end.

Definition decoded_dictionary (d : datum) : result datum :=
  match d with
  | D_array (mkArray (T_dictionary _ t) _) => value_or_throw (cast d t) "decode dictionary filter input"
  | _ => Ok d
  end.

Definition call (name : string) (arguments : list datum) : result datum :=
  args ← mapM decoded_dictionary arguments;
  value_or_throw (call_function name args) ("evaluate " +:+ name).

(** One row of the loop over doubles. *)
Definition floating_row (op : string) (l r : value) : result value :=
  if is_null l || is_null r then Ok (if is_distinct op then distinct_null op l r else V_null)
  else x ← floating_compare (float_of l) (float_of r) op; Ok (V_bool x).

(** One row of the [DISTINCT] loop; [e] is the row of the [equal] kernel. *)
Definition distinct_row (op : string) (l r e : value) : value :=
  if is_null l || is_null r then distinct_null op l r
  else V_bool (if bool_decide (op = "distinct_from"%string) then negb (bool_of e) else bool_of e).

Definition at_ (a : array) (i : nat) : value := default V_null (a_values a !! i).

Definition to_double (a : array) (n : nat) : result array :=
  d ← value_or_throw (cast (D_array a) T_double) "cast floating comparison input";
  array_from_datum d n.

Definition compare (left right : datum) (op : string) (n : nat) : result datum :=
  left ← decoded_dictionary left;
  right ← decoded_dictionary right;
  l ← array_from_datum left n;
  r ← array_from_datum right n;
  if negb (type_equals (a_type l) (a_type r)) || negb (comparison_type_supported (a_type l))
  then error "comparison type has no exact standard-v1 evaluator"
  else if floating_type (a_type l) || floating_type (a_type r) then
    l ← to_double l n;
    r ← to_double r n;
    rows ← mapM (λ i, floating_row op (at_ l i) (at_ r i)) (seq 0 n);
    Ok (D_array (mkArray T_bool rows))
  else if is_distinct op then
    e ← call "equal" [D_array l; D_array r];
    e ← array_from_datum e n;
    Ok (D_array (mkArray T_bool (map (λ i, distinct_row op (at_ l i) (at_ r i) (at_ e i)) (seq 0 n))))
  else
    match kernel_of op with
    | None => error "unsupported comparison operator"
    | Some k => call k [D_array l; D_array r]
    end.

(** ** Standard functions *)

(** The value of a floating scalar as a double. *)
Definition floating_scalar_value (t : dtype) (v : value) : result spec_float :=
  a ← value_or_throw (make_array t v 1) "materialize floating scalar";
  d ← value_or_throw (cast (D_array a) T_double) "cast floating scalar";
  Ok (float_of (at_row d 0)).

(** A dictionary-encoded scalar is decoded by taking its logical type: the
    arrays of the model hold decoded values. *)
Fixpoint nested_scalar_equal (left : value) (lt : dtype) (right : value) (rt : dtype) {struct left}
    : result bool :=
  if is_null left || is_null right then Ok (Bool.eqb (is_null left) (is_null right))
  else if negb (same_logical_type (Some lt) (Some rt)) then Ok false
  else
    let t := logical_type lt in
    if floating_type t then
      l ← floating_scalar_value t left;
      r ← floating_scalar_value (logical_type rt) right;
      floating_compare l r "eq"
    else
      match t, logical_type rt, left, right with
      | T_struct fs, T_struct gs, V_struct ls, V_struct rs =>
          if negb (bool_decide (length ls = length rs)) then Ok false else
          (fix each (fs gs : list field) (ls rs : list value) {struct ls} : result bool :=
             match fs, gs, ls, rs with
             | f :: fs, g :: gs, l :: ls, r :: rs =>
                 e ← nested_scalar_equal l (f_type f) r (f_type g);
                 if (e : bool) then each fs gs ls rs else Ok false
             | _, _, _, _ => Ok true
             end) fs gs ls rs
      | T_list f, T_list g, V_list ls, V_list rs
      | T_large_list f, T_large_list g, V_list ls, V_list rs
      | T_fixed_size_list f _, T_fixed_size_list g _, V_list ls, V_list rs
      | T_list_view f, T_list_view g, V_list ls, V_list rs
      | T_large_list_view f, T_large_list_view g, V_list ls, V_list rs =>
          if negb (bool_decide (length ls = length rs)) then Ok false else
          (fix each (ls rs : list value) {struct ls} : result bool :=
             match ls, rs with
             | l :: ls, r :: rs =>
                 e ← nested_scalar_equal l (f_type f) r (f_type g);
                 if (e : bool) then each ls rs else Ok false
             | _, _ => Ok true
             end) ls rs
      | T_map k v, T_map k' v', V_list ls, V_list rs =>
          if negb (bool_decide (length ls = length rs)) then Ok false else
          (fix each (ls rs : list value) {struct ls} : result bool :=
             match ls, rs with
             | l :: ls, r :: rs =>
                 e ← nested_scalar_equal l (T_struct [k; v]) r (T_struct [k'; v']);
                 if (e : bool) then each ls rs else Ok false
             | _, _ => Ok true
             end) ls rs
      | _, _, _, _ => Ok (scalar_equals left right)
      end.

(** [haystack.rfind(needle, 0) == 0], the suffix test and [find]. *)
Definition starts_with (needle haystack : bytes) : bool := bool_decide (take (length needle) haystack = needle).
Definition ends_with (needle haystack : bytes) : bool :=
  bool_decide (length needle ≤ length haystack)%nat &&
  bool_decide (drop (length haystack - length needle) haystack = needle).
Fixpoint contains_bytes (needle haystack : bytes) : bool :=
  starts_with needle haystack ||
  match haystack with [] => false | _ :: h => contains_bytes needle h end.

(** The first element equal to the needle ends the search. *)
Fixpoint list_contains (item : dtype) (values : list value) (needle : value) (nt : dtype) : result bool :=
  match values with
  | [] => Ok false
  | v :: values =>
      if is_null v then list_contains item values needle nt
      else
        e ← nested_scalar_equal v item needle nt;
        if (e : bool) then Ok true else list_contains item values needle nt
  end.

(** A valid string of a row. *)
Definition string_at (t : dtype) (v : value) : result bytes :=
  match t, v with
  | (T_string | T_large_string), V_text s => Ok s
  | _, _ => error "standard string filter requires UTF8 arguments"
  end.

Definition call_row (f : string) (lt rt : dtype) (l r : value) : result value :=
  if is_null l || is_null r then Ok V_null
  else if bool_decide (f = "list_contains"%string) then
    match lt, l with
    | T_list item, V_list values | T_large_list item, V_list values =>
        m ← list_contains (f_type item) values r rt; Ok (V_bool m)
    | _, _ => error "list_contains requires a list argument"
    end
  else
    haystack ← string_at lt l;
    needle ← string_at rt r;
    Ok (V_bool (if bool_decide (f = "starts_with"%string) then starts_with needle haystack
                else if bool_decide (f = "ends_with"%string) then ends_with needle haystack
                else if bool_decide (f = "contains"%string) then contains_bytes needle haystack
                else false)).

Definition standard_call (f : string) (left right : datum) (n : nat) : result datum :=
  l ← array_from_datum left n;
  r ← array_from_datum right n;
  rows ← mapM (λ i, call_row f (a_type l) (a_type r) (at_ l i) (at_ r i)) (seq 0 n);
  Ok (D_array (mkArray T_bool rows)).

(** ** Evaluation over a batch *)

Definition rows (b : batch) : nat := Z.to_nat (b_rows b).

(** Where a column reference is found: at its index if the name is there, else
    at the only field of that name. *)
Definition resolve (fields : list field) (index : Z) (name : string) : option nat :=
  if bool_decide (f_name <$> fields !! Z.to_nat index = Some name) then Some (Z.to_nat index)
  else match get_all_field_indices fields name with [i] => Some i | _ => None end.

Definition eval_column (s : Spec) (b : batch) : result datum :=
  match resolve (b_schema b) (column_index s) (column_name s) with
  | None => error ("filter column '" +:+ column_name s +:+ "' is absent")
  | Some i =>
      match b_schema b !! i, b_columns b !! i, data_type s with
      | Some f, Some c, Some t =>
          if negb (type_equals (f_type f) t)
          then error ("filter column '" +:+ column_name s +:+ "' changed type") else Ok (D_array c)
      | _, _, _ => error ("filter column '" +:+ column_name s +:+ "' changed type")
      end
  end.

Definition eval_field (index : Z) (parent : datum) (n : nat) : result datum :=
  p ← array_from_datum parent n;
  match a_type p with
  | T_struct fs =>
      if negb (bool_decide (Z.to_nat index < length fs)%nat)
      then error "filter field_ref input is not the authoritative struct" else
      child ← decoded_dictionary (D_array (struct_field p (Z.to_nat index)));
      if forallb (λ v, negb (is_null v)) (a_values p) then Ok child
      else
        valid ← call "is_valid" [D_array p];
        call "if_else" [valid; child; D_scalar (datum_type child) V_null]
  | _ => error "filter field_ref input is not the authoritative struct"
  end.

Definition eval_in (neg : bool) (input : datum) (set : array) (n : nat) : result datum :=
  input ← decoded_dictionary input;
  values ← decoded_dictionary (D_array set);
  values ← match values with D_array v => Ok v | D_scalar _ _ => error "IN values" end;
  start ← value_or_throw (make_array T_bool (V_bool false) n) "initialize IN result";
  r ← (fix each (vs : list value) (acc : datum) : result datum :=
         match vs with
         | [] => Ok acc
         | v :: vs =>
             c ← compare input (D_scalar (a_type values) v) "eq" n;
             acc ← call "or_kleene" [acc; c];
             each vs acc
         end) (a_values values) (D_array start);
  if neg then call "invert" [r] else Ok r.

Definition malformed {T} : result T := error "malformed filter".

Fixpoint evaluate (s : Spec) (b : batch) {struct s} : result datum :=
  let n := rows b in
  match s_kind s, children s with
  | K_column, _ => eval_column s b
  | K_field, [c] => p ← evaluate c b; eval_field (field_index s) p n
  | K_literal, _ =>
      match s_value s with
      | Some (mkArray t (v :: _)) => Ok (D_scalar t v)
      | _ => error "read filter literal"
      end
  | K_constant, [l; r] => x ← evaluate l b; y ← evaluate r b; compare x y (op s) n
  | K_and, c :: cs =>
      r ← evaluate c b;
      (fix each (cs : list Spec) (acc : datum) : result datum :=
         match cs with
         | [] => Ok acc
         | c :: cs => x ← evaluate c b; acc ← call "and_kleene" [acc; x]; each cs acc
         end) cs r
  | K_or, c :: cs =>
      r ← evaluate c b;
      (fix each (cs : list Spec) (acc : datum) : result datum :=
         match cs with
         | [] => Ok acc
         | c :: cs => x ← evaluate c b; acc ← call "or_kleene" [acc; x]; each cs acc
         end) cs r
  | K_not, [c] => x ← evaluate c b; call "invert" [x]
  | K_is_null, [c] => x ← evaluate c b; call "is_null" [x]
  | K_is_not_null, [c] => x ← evaluate c b; call "is_valid" [x]
  | K_in, [c] =>
      x ← evaluate c b;
      match s_value s with Some set => eval_in (negated s) x set n | None => malformed end
  | K_cast, [c] =>
      if negb (exact_context_free_cast (data_type c) (data_type s))
      then error "cast has no exact context-free standard-v1 evaluator"
      else
        x ← evaluate c b;
        match data_type s with Some t => value_or_throw (cast x t) "evaluate cast" | None => malformed end
  | K_arithmetic, [l; r] => x ← evaluate l b; y ← evaluate r b; call (op s +:+ "_checked") [x; y]
  | K_negate, [c] => x ← evaluate c b; call "negate_checked" [x]
  | K_call, [l; r] => x ← evaluate l b; y ← evaluate r b; standard_call (function s) x y n
  | K_runtime_filter, _ => error "runtime filter has no negotiated evaluator"
  | _, _ => malformed
  end.

(** ** [PushdownFilters::apply] *)

Definition filter_by (p : Spec) (b : batch) : result batch :=
  d ← evaluate p b;
  mask ← array_from_datum d (rows b);
  match a_type mask with
  | T_bool => match filter_rows b mask with inr b' => Ok b' | inl status => error status end
  | _ => error "predicate did not evaluate to BOOLEAN"
  end.

Fixpoint apply_each (specs : list Spec) (surviving : batch) : result batch :=
  match specs with
  | [] => Ok surviving
  | p :: specs =>
      if bool_decide (s_kind p = K_runtime_filter) then apply_each specs surviving
      else
        match filter_by p surviving with
        | Ok b => apply_each specs b
        | Throw e => if advisory p then apply_each specs surviving else Throw e
        end
  end.

Definition apply (specs : list Spec) (b : option batch) : result (option batch) :=
  match b with
  | None => Ok None
  | Some b => if bool_decide (length specs = 0%nat) then Ok (Some b) else b ← apply_each specs b; Ok (Some b)
  end.

End eval.

End PushdownEval.
