(* ===== verification/PushdownRows.v ===== *)
(** * What a filter says of a row, and that evaluation agrees

    [row_eval] reads a filter as a three-valued predicate on one row.  The
    theorems: [evaluate] gives on every row of a batch what [row_eval] says,
    [apply] keeps exactly the rows the predicates are true of, failing closed
    on required ones; and [floating_compare] orders the doubles totally. *)

From Stdlib Require Import SpecFloat.
From S2P Require Import Prelude Text Arrow ArrowCompute Json Pushdown PushdownEval.
Import Json Pushdown PushdownEval.

Module PushdownRows.

Section rows.
Context `{A : Arrow} `{C : Compute}.

(** Whether two values, of the types [lt] and [rt], are equal; floats by
    [floating_ordering]. *)
Definition row_equal (lt rt : dtype) (l r : value) : bool :=
  match l, r with
  | V_float f, V_float g => floating_ordering f g =? 0
  | _, _ => bool_of (kernel "equal" [lt; rt] [l; r])
  end.

Definition compare_row (lt rt : dtype) (op : string) (l r : value) : value :=
  if is_null l || is_null r then if is_distinct op then distinct_null op l r else V_null
  else if is_distinct op then
    V_bool (if bool_decide (op = "distinct_from"%string) then negb (row_equal lt rt l r) else row_equal lt rt l r)
  else
    match l, r with
    | V_float f, V_float g => match floating_compare f g op with Ok x => V_bool x | Throw _ => V_null end
    | _, _ => match kernel_of op with Some k => kernel k [lt; rt] [l; r] | None => V_null end
    end.

Definition in_row (neg : bool) (t u : dtype) (x : value) (vs : list value) : value :=
  let found := fold_left (λ acc v, kleene_or acc (compare_row t u "eq" x v)) vs (V_bool false) in
  if neg then kleene_not found else found.

(** The type of what a filter evaluates to, dictionary encoding aside. *)
Fixpoint etype (fields : list field) (s : Spec) : dtype :=
  match s_kind s, children s with
  | K_column, _ =>
      match resolve fields (column_index s) (column_name s) ≫= (λ i, fields !! i) with
      | Some f => value_type (f_type f)
      | None => T_null
      end
  | K_field, [c] =>
      match value_type (etype fields c) with
      | T_struct fs => match fs !! Z.to_nat (field_index s) with Some f => value_type (f_type f) | None => T_null end
      | _ => T_null
      end
  | K_literal, _ => match s_value s with Some a => value_type (a_type a) | None => T_null end
  | K_cast, _ => match data_type s with Some t => value_type t | None => T_null end
  | K_arithmetic, [l; r] => kernel_type (op s +:+ "_checked") [value_type (etype fields l); value_type (etype fields r)]
  | K_negate, [c] => kernel_type "negate_checked" [value_type (etype fields c)]
  | K_and, [c] | K_or, [c] => etype fields c
  | _, _ => T_bool
  end.

Definition call_value (f : string) (lt rt : dtype) (l r : value) : value :=
  match call_row f lt rt l r with Ok v => v | Throw _ => V_null end.

Fixpoint row_eval (fields : list field) (s : Spec) (row : list value) : value :=
  match s_kind s, children s with
  | K_column, _ =>
      match resolve fields (column_index s) (column_name s) with
      | Some i => default V_null (row !! i)
      | None => V_null
      end
  | K_field, [c] =>
      match row_eval fields c row with
      | V_struct l => default V_null (l !! Z.to_nat (field_index s))
      | _ => V_null
      end
  | K_literal, _ => match s_value s with Some (mkArray _ (v :: _)) => v | _ => V_null end
  | K_constant, [l; r] =>
      compare_row (value_type (etype fields l)) (value_type (etype fields r)) (op s) (row_eval fields l row) (row_eval fields r row)
  | K_and, c :: cs => fold_left (λ acc c, kleene_and acc (row_eval fields c row)) cs (row_eval fields c row)
  | K_or, c :: cs => fold_left (λ acc c, kleene_or acc (row_eval fields c row)) cs (row_eval fields c row)
  | K_not, [c] => kleene_not (row_eval fields c row)
  | K_is_null, [c] => V_bool (is_null (row_eval fields c row))
  | K_is_not_null, [c] => V_bool (negb (is_null (row_eval fields c row)))
  | K_in, [c] =>
      match s_value s with
      | Some a => in_row (negated s) (value_type (etype fields c)) (value_type (a_type a)) (row_eval fields c row) (a_values a)
      | None => V_null
      end
  | K_cast, [c] =>
      match data_type s with
      | Some t => cast_value (etype fields c) t (row_eval fields c row)
      | None => V_null
      end
  | K_arithmetic, [l; r] =>
      kernel (op s +:+ "_checked") [value_type (etype fields l); value_type (etype fields r)] [row_eval fields l row; row_eval fields r row]
  | K_negate, [c] => kernel "negate_checked" [value_type (etype fields c)] [row_eval fields c row]
  | K_call, [l; r] =>
      call_value (function s) (value_type (etype fields l)) (value_type (etype fields r))
        (row_eval fields l row) (row_eval fields r row)
  | _, _ => V_null
  end.

(** The values of a row, and the rows of a batch. *)
Definition row_of (b : batch) (i : nat) : list value :=
  map (λ c, default V_null (a_values c !! i)) (b_columns b).
Definition batch_rows (b : batch) : list (list value) := map (row_of b) (seq 0 (rows b)).

(** A batch as Arrow has it: the columns are of the schema's types and of one length. *)
Record batch_ok (b : batch) : Prop := {
  ok_width : length (b_columns b) = length (b_schema b);
  ok_type i f c : b_schema b !! i = Some f → b_columns b !! i = Some c → a_type c = f_type f;
  ok_length c : c ∈ b_columns b → length (a_values c) = rows b;
  ok_typed c : c ∈ b_columns b → array_typed c;
  ok_simple f : f ∈ b_schema b → simple_type (f_type f);
}.

(** The payloads of a filter are arrays as Arrow has them; literals and cast types
    are not dictionary-encoded; and the operators of arithmetic are those the parser
    accepts ([Pushdown.expression_wellformed]). *)
Definition payload_ok (s : Spec) : Prop :=
  (∀ a, s_value s = Some a → array_typed a ∧ simple_type (a_type a) ∧
     (s_kind s = K_literal → decoded_type (a_type a))) ∧
  (s_kind s = K_cast → ∀ t, data_type s = Some t → decoded_type t) ∧
  (s_kind s = K_arithmetic → op s ∈ ["add"; "subtract"; "multiply"]%string).

End rows.

(** ** Doubles as keys

    The sign and infinities first, then the exponent and the mantissa. *)
Definition float_key (f : spec_float) : Z * Z * Z :=
  match f with
  | S754_infinity true => (-2, 0, 0)
  | S754_finite true m e => (-1, -e, - Z.pos m)
  | S754_zero _ => (0, 0, 0)
  | S754_finite false m e => (1, e, Z.pos m)
  | S754_infinity false => (2, 0, 0)
  | S754_nan => (3, 0, 0)
  end.

Definition key_le (a b : Z * Z * Z) : Prop :=
  let '(s, e, m) := a in let '(s', e', m') := b in
  s < s' ∨ (s = s' ∧ (e < e' ∨ (e = e' ∧ m ≤ m'))).

(** ** Lemmas *)

Lemma mapM_Ok {X Y} (f : X → result Y) l k : mapM f l = Ok k ↔ Forall2 (λ x y, f x = Ok y) l k.
Proof.
  revert k. induction l as [|x l IH]; intros k; cbn.
  - split; [by intros [= <-]|by inversion 1].
  - split.
    + intros H. apply bind_Ok in H as (y & Hy & H). apply bind_Ok in H as (k' & Hk & [= <-]).
      constructor; [done|by apply IH].
    + inversion_clear 1 as [|? y ? k' Hy Hk]. rewrite Hy. cbn. apply IH in Hk. rewrite Hk. done.
Qed.

Lemma mapM_seq {Y} (f : nat → result Y) n k :
  mapM f (seq 0 n) = Ok k → length k = n ∧ ∀ i, (i < n)%nat → ∃ y, k !! i = Some y ∧ f i = Ok y.
Proof.
  intros Hm%mapM_Ok. pose proof (Forall2_length _ _ _ Hm) as Hl. rewrite length_seq in Hl.
  split; [done|]. intros i Hi. destruct (Forall2_lookup_l _ _ _ i i Hm) as (y & Hy & Hf); [by apply lookup_seq_lt|].
  by exists y.
Qed.

Lemma value_type_idemp t : value_type (value_type t) = value_type t.
Proof. induction t; done. Qed.

Lemma value_type_not_dict t i s : value_type t ≠ T_dictionary i s.
Proof. induction t; done. Qed.

Lemma logical_type_eq t : logical_type t = value_type t.
Proof. induction t; done. Qed.

Lemma value_or_throw_Ok {X} (r : string + X) c x : value_or_throw r c = Ok x ↔ r = inr x.
Proof. destruct r; cbn; naive_solver. Qed.

Section eval_lemmas.
Context `{A : Arrow} `{!ArrowLaws A} `{C : Compute} `{!ComputeLaws C}.
Variable n : nat.

(** A datum whose row [i] holds [v i]. *)
Record holds (d : datum) (t : dtype) (v : nat → value) : Prop := {
  h_typed : datum_typed d;
  h_fits : fits n d;
  h_type : value_type (datum_type d) = value_type t;
  h_row i : (i < n)%nat → at_row d i = v i;
  h_simple : simple_type (datum_type d);
  h_scalar u w : d = D_scalar u w → value_type u = u;
}.

Definition decoded_datum (d : datum) : Prop := value_type (datum_type d) = datum_type d.

Lemma decoded_holds d d' t v :
  decoded_dictionary d = Ok d' → holds d t v → holds d' t v ∧ decoded_datum d'.
Proof using Type*.
  unfold decoded_dictionary, decoded_datum. intros Hd Hh.
  destruct d as [[s vs]|s w].
  2: { simplify_eq. split; [done|]. by apply (h_scalar _ _ _ Hh s w). }
  destruct s; simplify_eq; try done.
  apply value_or_throw_Ok in Hd. destruct Hh as [H1 H2 H3 H4 [H5 H6] _].
  destruct (cast_rows _ _ _ n Hd H2) as (F1 & F2 & F3 & F4). rewrite F2. split; [|done]. split.
  - by eapply cast_typed.
  - done.
  - by rewrite F2, <- H3.
  - intros i' Hi. rewrite F4, <- H4 by done. apply cast_value_dictionary.
  - by rewrite F2.
  - intros u w ->. by destruct (F3 _ eq_refl).
Qed.

Lemma mapM_decoded ds ds' ts vs :
  mapM decoded_dictionary ds = Ok ds' → Forall3 holds ds ts vs →
  Forall3 holds ds' ts vs ∧ Forall decoded_datum ds'.
Proof using Type*.
  intros Hm%mapM_Ok Hh. revert ds' Hm. induction Hh as [|d t v ds ts vs Hd _ IH]; intros ds' Hm.
  - inversion_clear Hm. split; constructor.
  - inversion_clear Hm as [|? d' ? ds'' Hd' Hm']. destruct (IH _ Hm').
    destruct (decoded_holds _ _ _ _ Hd' Hd). by split; constructor.
Qed.

Lemma boolean_row f : f ∈ boolean_kernels → f ∈ row_kernels.
Proof using Type. unfold row_kernels. rewrite elem_of_app. by left. Qed.

Lemma arithmetic_row o : o ∈ ["add"; "subtract"; "multiply"]%string → o +:+ "_checked" ∈ row_kernels.
Proof using Type. intros H. repeat (apply elem_of_cons in H as [->|H]; [by_decide|]). by apply elem_of_nil in H. Qed.

Lemma call_holds f ds ts vs d :
  f ∈ row_kernels → call f ds = Ok d → Forall3 holds ds ts vs →
  holds d (kernel_type f (map value_type ts)) (λ i, kernel f (map value_type ts) (map (λ v : nat → value, v i) vs)) ∧
  decoded_datum d.
Proof using Type*.
  unfold call, decoded_datum. intros Hf Hc Hh. apply bind_Ok in Hc as (args & Ha & Hc).
  apply value_or_throw_Ok in Hc. apply (mapM_decoded _ _ _ _ Ha) in Hh as [Hh Hdec]. clear Ha.
  assert (Forall datum_typed args ∧ Forall (fits n) args ∧
    map (λ a, value_type (datum_type a)) args = map value_type ts ∧ map datum_type args = map value_type ts ∧
    (∀ i, (i < n)%nat → map (λ a, at_row a i) args = map (λ v : nat → value, v i) vs) ∧
    Forall decoded_type (map (λ a, value_type (datum_type a)) args)) as (H1 & H2 & H3 & H3' & H4 & H5).
  { clear Hc. induction Hh as [|a t v args ts vs [G1 G2 G3 G4 G5 _] _ IH]; [by repeat constructor|].
    inversion_clear Hdec as [|? ? Hd Hdec']. destruct (IH Hdec') as (I1 & I2 & I3 & I3' & I4 & I5).
    split_and!; [by constructor|by constructor|cbn; congruence|cbn; unfold decoded_datum in Hd; congruence| |].
    - intros i Hi. cbn. rewrite G4, I4 by done. done.
    - cbn. constructor; [by apply simple_value_type|done]. }
  destruct (call_rows _ _ _ n Hf Hc H2) as [F1 F2]. pose proof (call_type _ _ _ Hf Hc) as Ht.
  destruct (kernel_type_decoded f _ Hf H5) as [K1 K2].
  split; [|by rewrite Ht, K1]. split.
  - by eapply call_typed.
  - done.
  - by rewrite Ht, H3.
  - intros i Hi. by rewrite F2, H3', H4 by done.
  - by rewrite Ht.
  - intros u w ->. cbn in Ht. by rewrite Ht, K1.
Qed.

Lemma holds_1 a t v : holds a t v → Forall3 holds [a] [t] [v].
Proof using Type. intros H. constructor; [exact H|constructor]. Qed.

Lemma holds_2 a b t u v w : holds a t v → holds b u w → Forall3 holds [a; b] [t; u] [v; w].
Proof using Type. intros H1 H2. constructor; [exact H1|by apply holds_1]. Qed.

Lemma holds_3 a b c t u s v w x :
  holds a t v → holds b u w → holds c s x → Forall3 holds [a; b; c] [t; u; s] [v; w; x].
Proof using Type. intros H1 H2 H3. constructor; [exact H1|by apply holds_2]. Qed.

Lemma array_from_datum_holds d a t v :
  array_from_datum d n = Ok a → holds d t v → holds (D_array a) t v ∧ a_type a = datum_type d.
Proof using Type*.
  intros Ha [H1 H2 H3 H4 H5 H6]. destruct d as [a'|u w]; cbn in Ha.
  - case_bool_decide; [|done]. simplify_eq. by split.
  - apply value_or_throw_Ok, make_array_spec in Ha as ->. split; [|done]. split; cbn in *.
    + apply Forall_replicate. exact H1.
    + by rewrite length_replicate.
    + done.
    + intros i Hi. rewrite lookup_replicate_2 by done. cbn. by apply H4.
    + done.
    + done.
Qed.

Lemma at_holds a t v i : holds (D_array a) t v → (i < n)%nat → at_ a i = v i.
Proof using Type. intros [_ _ _ H4 _ _] Hi. by apply H4. Qed.

Lemma lookup_holds a t v i : holds (D_array a) t v → (i < n)%nat → a_values a !! i = Some (v i).
Proof using Type.
  intros [_ H2 _ H4 _ _] Hi. specialize (H4 i Hi). cbn in H2, H4.
  destruct (a_values a !! i) as [w|] eqn:Hw; cbn in H4; [by subst|].
  apply lookup_ge_None in Hw. lia.
Qed.

Lemma typed_holds a t v i :
  holds (D_array a) t v → (i < n)%nat → decoded_datum (D_array a) → plain_typed (a_type a) (v i).
Proof using Type.
  intros Hh Hi Hd. pose proof (lookup_holds _ _ _ _ Hh Hi) as Hl. destruct Hh as [H1 _ _ _ _ _].
  cbn in H1. unfold array_typed in H1. rewrite Forall_lookup in H1. specialize (H1 i _ Hl).
  unfold decoded_datum in Hd. cbn in Hd. unfold value_typed in H1. destruct (a_type a) eqn:E; try done.
  by apply value_type_not_dict in Hd.
Qed.

(** An array of booleans made row by row. *)
Lemma rows_hold (vs : list value) (v : nat → value) :
  length vs = n → (∀ i, (i < n)%nat → vs !! i = Some (v i)) →
  (∀ i, (i < n)%nat → is_null (v i) = true ∨ ∃ x, v i = V_bool x) →
  holds (D_array (mkArray T_bool vs)) T_bool v.
Proof using Type.
  intros Hl Hv Hb. split; cbn.
  - apply Forall_lookup. cbn. intros i w Hw.
    assert (i < n)%nat as Hi by (rewrite <- Hl; by eapply lookup_lt_Some).
    rewrite Hv in Hw by done. simplify_eq. destruct (Hb i Hi) as [Hn|[x ->]]; [by destruct (v i)|done].
  - done.
  - done.
  - intros i Hi. by rewrite Hv.
  - done.
  - done.
Qed.

Lemma floating_values t v : plain_typed t v → floating_type t = true → v = V_null ∨ ∃ f, v = V_float f.
Proof using Type.
  intros Hp Hf. destruct v; cbn in Hp; try (by left); try (by right; eexists);
    destruct t; try done; by exfalso.
Qed.

Lemma not_floating_values t v f : plain_typed t v → floating_type t = false → v ≠ V_float f.
Proof using Type. intros Hp Hf ->. cbn in Hp. congruence. Qed.

Lemma floating_decoded t : floating_type t = true → value_type t = t.
Proof using Type. by destruct t. Qed.

(** Casting a floating array to double leaves the values. *)
Lemma to_double_holds a t v a' :
  to_double a n = Ok a' → holds (D_array a) t v → floating_type (a_type a) = true → 
  (∀ i, (i < n)%nat → at_ a' i = v i) ∧ ∀ i, (i < n)%nat → v i = V_null ∨ ∃ f, v i = V_float f.
Proof using Type*.
  unfold to_double. intros Hd Hh Hf. apply bind_Ok in Hd as (d & Hc & Ha).
  apply value_or_throw_Ok in Hc.
  assert (∀ i, (i < n)%nat → v i = V_null ∨ ∃ f, v i = V_float f) as Hv.
  { intros i Hi. eapply floating_values; [|exact Hf]. eapply typed_holds; [done..|].
    by apply floating_decoded. }
  split; [|done]. intros i Hi.
  destruct (cast_rows _ _ _ n Hc) as (F1 & F2 & F3 & F4); [apply Hh|].
  destruct (F3 a eq_refl) as [b ->]. cbn in Ha. case_bool_decide; [|done]. simplify_eq.
  unfold at_. change (default V_null (a_values a' !! i)) with (at_row (D_array a') i).
  rewrite F4 by done. rewrite (h_row _ _ _ Hh) by done.
  destruct (Hv i Hi) as [-> |[f ->]]; [apply cast_value_null|apply cast_value_double].
Qed.

Lemma floating_row_compare lt rt op l r x :
  floating_row op l r = Ok x → (l = V_null ∨ ∃ f, l = V_float f) → (r = V_null ∨ ∃ f, r = V_float f) →
  x = compare_row lt rt op l r ∧ (is_null x = true ∨ ∃ y, x = V_bool y).
Proof using Type.
  unfold floating_row, compare_row, distinct_null.
  intros Hx [-> |[f ->]] [-> |[g ->]]; cbn [is_null orb] in *;
    try (simplify_eq; split; [done|]; destruct (is_distinct op); cbn; by eauto).
  apply bind_Ok in Hx as (y & Hy & [= <-]). split; [|by right; eexists].
  cbn [float_of] in Hy. destruct (is_distinct op) eqn:Hd; [|by rewrite Hy].
  unfold is_distinct in Hd. unfold floating_compare in Hy. f_equal. cbn [row_equal].
  apply orb_true_iff in Hd as [Hd|Hd]; apply bool_decide_eq_true in Hd; subst op; cbn in Hy;
    by injection Hy as <-.
Qed.

Lemma kernel_of_boolean op k : kernel_of op = Some k → k ∈ boolean_kernels ∧
  k ∈ ["equal"; "not_equal"; "less"; "less_equal"; "greater"; "greater_equal"]%string.
Proof using Type.
  unfold kernel_of. repeat (case_bool_decide; [intros [= <-]; split; apply (bool_decide_unpack _); by vm_compute|]).
  done.
Qed.

Lemma compare_holds l r op d tl tr vl vr :
  compare l r op n = Ok d → holds l tl vl → holds r tr vr →
  holds d T_bool (λ i, compare_row (value_type tl) (value_type tr) op (vl i) (vr i)).
Proof using Type*.
  unfold compare. intros Hc Hl Hr.
  apply bind_Ok in Hc as (l1 & El & Hc). apply (decoded_holds _ _ _ _ El) in Hl as [Hl Dl].
  apply bind_Ok in Hc as (r1 & Er & Hc). apply (decoded_holds _ _ _ _ Er) in Hr as [Hr Dr].
  apply bind_Ok in Hc as (la & El' & Hc). apply (array_from_datum_holds _ _ _ _ El') in Hl as [Hl Tl].
  apply bind_Ok in Hc as (ra & Er' & Hc). apply (array_from_datum_holds _ _ _ _ Er') in Hr as [Hr Tr].
  assert (decoded_datum (D_array la)) as Dla by (unfold decoded_datum in *; cbn; congruence).
  assert (decoded_datum (D_array ra)) as Dra by (unfold decoded_datum in *; cbn; congruence).
  clear El Er El' Er' Dl Dr Tl Tr l r l1 r1.
  destruct (type_equals _ _) eqn:Heq; cbn [negb orb] in Hc; [|done].
  apply type_equals_floating in Heq. destruct (comparison_type_supported _); cbn [negb] in Hc; [|done].
  destruct (floating_type (a_type la)) eqn:Fl; rewrite <- Heq in Hc; cbn [orb] in Hc.
  - apply bind_Ok in Hc as (ld & Hld & Hc). apply bind_Ok in Hc as (rd & Hrd & Hc).
    apply bind_Ok in Hc as (vs & Hvs & [= <-]).
    destruct (to_double_holds _ _ _ _ Hld Hl Fl) as [Ll Vl].
    destruct (to_double_holds _ _ _ _ Hrd Hr) as [Lr Vr]; [congruence|].
    apply mapM_seq in Hvs as [Hlen Hvs].
    assert (∀ i, (i < n)%nat → vs !! i = Some (compare_row (value_type tl) (value_type tr) op (vl i) (vr i)) ∧
      (is_null (compare_row (value_type tl) (value_type tr) op (vl i) (vr i)) = true ∨ ∃ y, compare_row (value_type tl) (value_type tr) op (vl i) (vr i) = V_bool y)) as Hrow.
    { intros i Hi. destruct (Hvs i Hi) as (x & Hx & Hf). rewrite Ll, Lr in Hf by done.
      apply (floating_row_compare (value_type tl) (value_type tr)) in Hf as [<- ?]; [done|by apply Vl|by apply Vr]. }
    apply rows_hold; [done|..]; intros i Hi; by apply Hrow.
  - assert (∀ i f, (i < n)%nat → vl i ≠ V_float f) as NFl.
    { intros i f Hi. eapply not_floating_values; [|exact Fl]. by eapply typed_holds. }
    assert (∀ i f, (i < n)%nat → vr i ≠ V_float f) as NFr.
    { intros i f Hi. eapply not_floating_values; [|symmetry; exact Heq]. by eapply typed_holds. }
    assert (∀ i, (i < n)%nat → row_equal (value_type tl) (value_type tr) (vl i) (vr i) = bool_of (kernel "equal" [value_type tl; value_type tr] [vl i; vr i])) as Hre.
    { intros i Hi. specialize (NFl i). unfold row_equal. destruct (vl i); try done. by destruct (NFl f Hi). }
    destruct (is_distinct op) eqn:Hd.
    + apply bind_Ok in Hc as (e & He & Hc). apply bind_Ok in Hc as (ea & Hea & [= <-]).
      destruct (call_holds "equal" [D_array la; D_array ra] [tl; tr] [vl; vr] e ltac:(by_decide) He) as [Hh _];
        [by apply holds_2|].
      apply (array_from_datum_holds _ _ _ _ Hea) in Hh as [Hh _].
      assert (∀ i, (i < n)%nat →
        distinct_row op (at_ la i) (at_ ra i) (at_ ea i) = compare_row (value_type tl) (value_type tr) op (vl i) (vr i)) as Hrow.
      { intros i Hi. rewrite (at_holds _ _ _ i Hl), (at_holds _ _ _ i Hr), (at_holds _ _ _ i Hh) by done.
        unfold distinct_row, compare_row. rewrite Hd. destruct (_ || _); [done|].
        cbn [map]. by rewrite Hre. }
      apply rows_hold.
      * by rewrite length_map, length_seq.
      * intros i Hi. rewrite (list_lookup_fmap _ (seq 0 n)), lookup_seq_lt by done. cbn. by rewrite Hrow.
      * intros i Hi. right. unfold compare_row, distinct_null. rewrite Hd. destruct (_ || _); by eexists.
    + destruct (kernel_of op) as [k|] eqn:Hk; [|done]. destruct (kernel_of_boolean op k Hk) as [Hb Hc6].
      destruct (call_holds k [D_array la; D_array ra] [tl; tr] [vl; vr] d (boolean_row k Hb) Hc) as [Hh _];
        [by apply holds_2|].
      rewrite (kernel_type_bool k) in Hh by done. destruct Hh as [G1 G2 G3 G4 G5 G6]. split; try done.
      intros i Hi. rewrite G4 by done. cbn [map]. unfold compare_row. rewrite Hd, Hk.
      destruct (_ || _) eqn:Hn; [by apply kernel_null|].
      specialize (NFl i). destruct (vl i); try done. by destruct (NFl f Hi).
Qed.

End eval_lemmas.

Section evaluate_lemmas.
Context `{A : Arrow} `{!ArrowLaws A} `{C : Compute} `{!ComputeLaws C}.

Lemma plain_struct fs v : plain_typed (T_struct fs) v → is_null v = false → ∃ l, v = V_struct l.
Proof using Type. intros Hp Hn. destruct v; try done. by eexists. Qed.

(** The row of a field reference. *)
Definition field_value (i : nat) (v : value) : value :=
  match v with V_struct l => default V_null (l !! i) | _ => V_null end.

Lemma struct_field_holds n p t v fs (i : nat) f :
  holds n (D_array p) t v → a_type p = T_struct fs → fs !! i = Some f →
  holds n (D_array (struct_field p i)) (f_type f) (at_row (D_array (struct_field p i))) ∧
  ∀ j, (j < n)%nat → is_null (v j) = false →
    at_row (D_array (struct_field p i)) j = field_value i (v j).
Proof using Type*.
  intros Hh Ht Hf. pose proof (typed_holds n p t v) as Hty.
  pose proof (lookup_holds n p t v) as Hlk. destruct Hh as [H1 H2 H3 H4 H5 H6].
  destruct (struct_field_typed p fs i f H1 Ht Hf) as [F1 F2]. split.
  - split; cbn in *; try done.
    + by rewrite struct_field_length.
    + by rewrite F1.
    + rewrite F1. rewrite Ht in H5. by eapply simple_field.
  - intros j Hj Hn.
    assert (plain_typed (T_struct fs) (v j)) as Hp.
    { rewrite <- Ht. apply Hty; [by split|done|]. unfold decoded_datum. cbn. by rewrite Ht. }
    destruct (plain_struct _ _ Hp Hn) as [l Hl]. cbn.
    assert (a_values p !! j = Some (V_struct l)) as Hj' by (rewrite <- Hl; apply Hlk; [by split|done]).
    rewrite (struct_field_valid _ i j l Hj'), Hl. done.
Qed.

Lemma holds_ext n d t v w : holds n d t v → (∀ i, (i < n)%nat → v i = w i) → holds n d t w.
Proof using Type. intros [H1 H2 H3 H4 H5 H6] He. split; try done. intros i Hi. rewrite H4; auto. Qed.

Lemma holds_type n d t u v : holds n d t v → value_type t = value_type u → holds n d u v.
Proof using Type. intros [H1 H2 H3 H4 H5 H6] He. split; try done. congruence. Qed.

Lemma eval_field_holds n index parent d t v :
  eval_field index parent n = Ok d → holds n parent t v →
  holds n d match value_type t with
            | T_struct fs => match fs !! Z.to_nat index with Some f => value_type (f_type f) | None => T_null end
            | _ => T_null
            end (λ i, field_value (Z.to_nat index) (v i)).
Proof using Type*.
  unfold eval_field. intros He Hh. apply bind_Ok in He as (p & Hp & He).
  apply (array_from_datum_holds _ _ _ _ _ Hp) in Hh as [Hh _].
  pose proof (h_type _ _ _ _ Hh) as Ht. cbn in Ht.
  destruct (a_type p) as [| | | | | | | | | | | | | | | | | | | | | | | | | | | | | | | | | |fs| | | | | |] eqn:Hap; try done.
  cbn in Ht. rewrite <- Ht. case_bool_decide as Hlt; cbn [negb] in He; [|done].
  destruct (lookup_lt_is_Some_2 fs (Z.to_nat index) Hlt) as [f Hf]. rewrite Hf.
  destruct (struct_field_holds n p t v fs _ f Hh Hap Hf) as [Hc Hrow].
  apply bind_Ok in He as (child & Hd & He).
  apply (decoded_holds _ _ _ _ _ Hd) in Hc as [Hc Hdc].
  assert (value_type (f_type f) = value_type (value_type (f_type f))) as Hvt by by rewrite value_type_idemp.
  destruct (forallb _ _) eqn:Hall.
  - simplify_eq. eapply holds_type; [|exact Hvt]. eapply holds_ext; [exact Hc|].
    intros i Hi. apply Hrow; [done|]. rewrite forallb_forall in Hall.
    specialize (Hall (v i)). apply negb_true_iff, Hall, list_elem_of_In.
    eapply list_elem_of_lookup_2. by eapply lookup_holds.
  - apply bind_Ok in He as (valid & Hv & He).
    destruct (call_holds n "is_valid" [D_array p] [t] [v] valid ltac:(by_decide) Hv) as [Hvalid _]; [by apply holds_1|].
    assert (holds n (D_scalar (datum_type child) V_null) (f_type f) (λ _, V_null)) as Hnull.
    { split; [|done|exact (h_type _ _ _ _ Hc)|done|exact (h_simple _ _ _ _ Hc)|by intros u w [= <- _]].
      cbn. unfold value_typed. by destruct (datum_type child). }
    destruct (call_holds n "if_else" [valid; child; D_scalar (datum_type child) V_null] _ _ d ltac:(by_decide) He
      (holds_3 _ _ _ _ _ _ _ _ _ _ Hvalid Hc Hnull)) as [Hr _].
    cbn [map] in Hr. rewrite kernel_type_if_else in Hr. eapply holds_ext; [exact Hr|].
    intros i Hi. cbn [map]. rewrite kernel_is_valid, kernel_if_else.
    destruct (is_null (v i)) eqn:Hn; cbn [negb]; [by destruct (v i)|by apply Hrow].
Qed.

(** The connectives' loops. *)
Lemma fold_holds n (b : batch) (name : string) (k : value → value → value) (cs : list Spec)
    (fields : list field) (row : nat → list value) acc d v :
  (∀ ts x y, kernel name ts [x; y] = k x y) → name ∈ boolean_kernels →
  Forall (λ c, ∀ x, evaluate c b = Ok x → holds n x (etype fields c) (λ i, row_eval fields c (row i))) cs →
  (fix each (cs : list Spec) (acc : datum) : result datum :=
     match cs with
     | [] => Ok acc
     | c :: cs => x ← evaluate c b; acc ← call name [acc; x]; each cs acc
     end) cs acc = Ok d →
  holds n acc T_bool v →
  holds n d T_bool (λ i, fold_left (λ a c, k a (row_eval fields c (row i))) cs (v i)).
Proof using Type*.
  intros Hk Hb Hcs. revert acc v. induction Hcs as [|c cs Hc _ IH]; intros acc v He Hv.
  - by simplify_eq.
  - apply bind_Ok in He as (x & Hx & He). apply bind_Ok in He as (acc' & Ha & He).
    destruct (call_holds n name [acc; x] [T_bool; etype fields c] _ acc' (boolean_row name Hb) Ha
      (holds_2 _ _ _ _ _ _ _ Hv (Hc x Hx))) as [Hr _].
    rewrite kernel_type_bool in Hr by done.
    apply (IH _ _ He). eapply holds_ext; [exact Hr|]. intros i Hi. cbn [map]. by rewrite Hk.
Qed.

Lemma decoded_set a x :
  decoded_dictionary (D_array a) = Ok x → array_typed a → simple_type (a_type a) →
  ∃ a', x = D_array a' ∧ a_values a' = a_values a ∧ value_type (a_type a') = value_type (a_type a) ∧ array_typed a' ∧ decoded_type (a_type a').
Proof using Type*.
  intros Hd Ht Hs.
  assert (holds (length (a_values a)) (D_array a) (a_type a) (at_row (D_array a))) as Hh by done.
  apply (decoded_holds _ _ _ _ _ Hd) in Hh as [Hh Hdec].
  assert (∃ a', x = D_array a') as [a' ->].
  { destruct a as [ty vs]. unfold decoded_dictionary in Hd. destruct ty; simplify_eq; try by eexists.
    apply value_or_throw_Ok in Hd. destruct (cast_rows _ _ _ (length vs) Hd) as (_ & _ & F & _); [done|].
    by apply (F _ eq_refl). }
  exists a'. destruct Hh as [H1 H2 H3 H4 H5 H6]. split_and!; [done| |done|done|by split].
  cbn in H2, H4. apply list_eq. intros i. destruct (decide (i < length (a_values a))%nat) as [Hi|Hi].
  - specialize (H4 i Hi). 
    destruct (lookup_lt_is_Some_2 (a_values a) i Hi) as [w Hw].
    destruct (lookup_lt_is_Some_2 (a_values a') i) as [w' Hw']; [lia|].
    rewrite Hw, Hw' in H4. cbn in H4. by rewrite Hw, Hw', H4.
  - rewrite !lookup_ge_None_2; [done|lia|lia].
Qed.

Lemma in_loop_holds n input t v ty vs acc u res :
  holds n input t v → Forall (value_typed ty) vs → decoded_type ty →
  (fix each (vs : list value) (acc : datum) : result datum :=
     match vs with
     | [] => Ok acc
     | w :: vs =>
         c ← compare input (D_scalar ty w) "eq" n;
         acc ← call "or_kleene" [acc; c];
         each vs acc
     end) vs acc = Ok res →
  holds n acc T_bool u →
  holds n res T_bool (λ i, fold_left (λ acc w, kleene_or acc (compare_row (value_type t) (value_type ty) "eq" (v i) w)) vs (u i)).
Proof using Type*.
  intros Hh Hty [Hd1 Hd2]. revert u acc. induction Hty as [|w vs Hw _ IH]; intros u acc Hres Hacc; [by simplify_eq|].
  apply bind_Ok in Hres as (c & Hc & Hres). apply bind_Ok in Hres as (acc' & Ha & Hres).
  assert (holds n (D_scalar ty w) ty (λ _, w)) as Hw'.
  { split; try done. by intros ? ? [= <- _]. }
  pose proof (compare_holds n _ _ _ _ _ _ _ _ Hc Hh Hw') as Hcmp.
  destruct (call_holds n "or_kleene" _ _ _ acc' ltac:(by_decide) Ha (holds_2 _ _ _ _ _ _ _ Hacc Hcmp)) as [Hor _].
  rewrite kernel_type_bool in Hor by (apply (bool_decide_unpack _); by vm_compute).
  eapply holds_ext; [apply (IH _ _ Hres Hor)|]. intros i Hi. cbn [map fold_left]. by rewrite kernel_or.
Qed.

Lemma eval_in_holds n neg input set d t v :
  eval_in neg input set n = Ok d → holds n input t v → array_typed set → simple_type (a_type set) →
  holds n d T_bool (λ i, in_row neg (value_type t) (value_type (a_type set)) (v i) (a_values set)).
Proof using Type*.
  unfold eval_in, in_row. intros He Hh Hset Hsimple.
  apply bind_Ok in He as (x & Hx & He). apply (decoded_holds _ _ _ _ _ Hx) in Hh as [Hh _].
  apply bind_Ok in He as (sd & Hs & He).
  destruct (decoded_set set sd Hs Hset Hsimple) as (a' & -> & Hvals & Hsame & Hty & Hdec).
  cbn [mbind result_bind] in He.
  apply bind_Ok in He as (start & Hst & He). apply value_or_throw_Ok, make_array_spec in Hst as ->.
  apply bind_Ok in He as (res & Hres & He).
  assert (holds n (D_array (mkArray T_bool (replicate n (V_bool false)))) T_bool (λ _, V_bool false)) as Hacc.
  { apply rows_hold; [by rewrite length_replicate| |intros i Hi; right; by eexists].
    intros i Hi. by apply lookup_replicate_2. }
  pose proof (in_loop_holds _ _ _ _ _ _ _ _ _ Hh Hty Hdec Hres Hacc) as Hr. cbn beta in Hr.
  rewrite Hvals, Hsame in Hr.
  destruct neg; [|by simplify_eq].
  destruct (call_holds n "invert" _ _ _ d ltac:(by_decide) He (holds_1 _ _ _ _ Hr)) as [Hn _].
  rewrite kernel_type_bool in Hn by (apply (bool_decide_unpack _); by vm_compute).
  eapply holds_ext; [exact Hn|]. intros i Hi. cbn [map]. by rewrite kernel_invert.
Qed.

Lemma nested_equal_decoded l lt r rt :
  nested_scalar_equal l lt r (value_type rt) = nested_scalar_equal l lt r rt.
Proof using Type.
  destruct l; cbn; rewrite ?logical_type_eq, ?value_type_idemp; reflexivity.
Qed.

Lemma list_contains_decoded item vs v rt :
  list_contains item vs v (value_type rt) = list_contains item vs v rt.
Proof using Type.
  induction vs as [|w vs IH]; cbn; [done|]. rewrite nested_equal_decoded, IH. done.
Qed.

Lemma string_at_decoded t v s : string_at t v = Ok s → string_at (value_type t) v = Ok s.
Proof using Type. by destruct t. Qed.

Lemma call_row_decoded f lt rt l r v :
  call_row f lt rt l r = Ok v →
  call_value f (value_type lt) (value_type rt) l r = v ∧ (is_null v = true ∨ ∃ x, v = V_bool x).
Proof using Type.
  unfold call_value, call_row. destruct (_ || _); [intros [= <-]; split; [done|by left]|].
  case_bool_decide.
  - intros Hc. destruct lt; try done; destruct l; try done; cbn [value_type];
      apply bind_Ok in Hc as (m & Hm & [= <-]); rewrite list_contains_decoded, Hm; cbn;
      (split; [done|by right; eexists]).
  - intros Hc. apply bind_Ok in Hc as (h & Hh & Hc). apply bind_Ok in Hc as (nd & Hn & [= <-]).
    rewrite (string_at_decoded _ _ _ Hh), (string_at_decoded _ _ _ Hn). cbn.
    split; [done|by right; eexists].
Qed.

Lemma standard_call_holds n f x y d tl tr vl vr :
  standard_call f x y n = Ok d → holds n x tl vl → holds n y tr vr →
  holds n d T_bool (λ i, call_value f (value_type tl) (value_type tr) (vl i) (vr i)).
Proof using Type*.
  unfold standard_call. intros Hc Hx Hy.
  apply bind_Ok in Hc as (l & Hl & Hc). apply (array_from_datum_holds _ _ _ _ _ Hl) in Hx as [Hx _].
  apply bind_Ok in Hc as (r & Hr & Hc). apply (array_from_datum_holds _ _ _ _ _ Hr) in Hy as [Hy _].
  apply bind_Ok in Hc as (vs & Hvs & [= <-]). apply mapM_seq in Hvs as [Hlen Hvs].
  assert (∀ i, (i < n)%nat → vs !! i = Some (call_value f (value_type tl) (value_type tr) (vl i) (vr i)) ∧
    (is_null (call_value f (value_type tl) (value_type tr) (vl i) (vr i)) = true ∨
     ∃ z, call_value f (value_type tl) (value_type tr) (vl i) (vr i) = V_bool z)) as Hrow.
  { intros i Hi. destruct (Hvs i Hi) as (w & Hw & Hf).
    rewrite (at_holds _ _ _ _ i Hx), (at_holds _ _ _ _ i Hy) in Hf by done.
    apply call_row_decoded in Hf as [Hf Hb]. pose proof (h_type _ _ _ _ Hx) as Tx.
    pose proof (h_type _ _ _ _ Hy) as Ty. cbn in Tx, Ty. rewrite Tx, Ty in Hf. by rewrite Hf. }
  apply rows_hold; [done|..]; intros i Hi; by apply Hrow.
Qed.

Lemma row_of_lookup b j c i :
  b_columns b !! j = Some c → default V_null (row_of b i !! j) = default V_null (a_values c !! i).
Proof using Type. intros Hc. unfold row_of. by rewrite (list_lookup_fmap _ (b_columns b)), Hc. Qed.

Lemma eval_column_holds s b d :
  s_kind s = K_column → batch_ok b → eval_column s b = Ok d →
  holds (rows b) d (etype (b_schema b) s) (λ i, row_eval (b_schema b) s (row_of b i)).
Proof using Type*.
  intros Hk [Hw Hty Hlen Htyped Hsimple]. unfold eval_column.
  destruct (resolve _ _ _) as [j|] eqn:Hj; [|done].
  destruct (b_schema b !! j) as [f|] eqn:Hf; [|done].
  destruct (b_columns b !! j) as [c|] eqn:Hc; [|done]. destruct (data_type s); [|done].
  destruct (type_equals _ _); cbn [negb]; [|done]. intros [= <-].
  assert (etype (b_schema b) s = value_type (f_type f)) as ->
    by (destruct s; cbn in Hk, Hj |- *; subst; by rewrite Hj; cbn; rewrite Hf).
  assert (c ∈ b_columns b) as Hin by (by eapply list_elem_of_lookup_2).
  split; cbn.
  - by apply Htyped.
  - by apply Hlen.
  - by rewrite (Hty j f c Hf Hc), value_type_idemp.
  - intros i Hi. destruct s; cbn in Hk, Hj |- *; subst. rewrite Hj. symmetry. by apply row_of_lookup.
  - rewrite (Hty j f c Hf Hc). apply Hsimple. by eapply list_elem_of_lookup_2.
  - done.
Qed.

(** A connective is its first operand, or the loop over the others. *)
Lemma connective_holds n (b : batch) (name : string) (k : value → value → value) c (cs : list Spec)
    (fields : list field) (row : nat → list value) d :
  (∀ ts x y, kernel name ts [x; y] = k x y) → name ∈ boolean_kernels →
  Forall (λ c, ∀ x, evaluate c b = Ok x → holds n x (etype fields c) (λ i, row_eval fields c (row i))) (c :: cs) →
  (x ← evaluate c b;
   (fix each (cs : list Spec) (acc : datum) : result datum :=
      match cs with
      | [] => Ok acc
      | c :: cs => x ← evaluate c b; acc ← call name [acc; x]; each cs acc
      end) cs x) = Ok d →
  holds n d match cs with [] => etype fields c | _ => T_bool end
    (λ i, fold_left (λ a c, k a (row_eval fields c (row i))) cs (row_eval fields c (row i))).
Proof using Type*.
  intros Hk Hb Hcs He. inversion_clear Hcs as [|? ? Hc Hcs'].
  apply bind_Ok in He as (x & Hx & He). specialize (Hc x Hx). destruct Hcs' as [|c' cs Hc' Hcs].
  { by injection He as <-. }
  apply bind_Ok in He as (y & Hy & He). apply bind_Ok in He as (acc & Ha & He).
  destruct (call_holds n name [x; y] _ _ acc (boolean_row name Hb) Ha (holds_2 _ _ _ _ _ _ _ Hc (Hc' y Hy))) as [Hr _].
  rewrite kernel_type_bool in Hr by done.
  eapply holds_ext; [exact (fold_holds n b name k cs fields row acc d _ Hk Hb Hcs He Hr)|].
  intros i Hi. cbn [map fold_left]. by rewrite Hk.
Qed.

Lemma unary_holds n name x t v d :
  name ∈ boolean_kernels → call name [x] = Ok d → holds n x t v →
  holds n d T_bool (λ i, kernel name [value_type t] [v i]).
Proof using Type*.
  intros Hb Hc Hx. destruct (call_holds n name [x] [t] [v] d (boolean_row name Hb) Hc (holds_1 _ _ _ _ Hx)) as [Hr _].
  by rewrite kernel_type_bool in Hr.
Qed.

Lemma cast_holds n x u t v d :
  cast x t = inr d → holds n x u v → decoded_type t →
  holds n d (value_type t) (λ i, cast_value u t (v i)).
Proof using Type*.
  intros Hc Hh [Hd1 Hd2]. destruct (cast_rows _ _ _ n Hc (h_fits _ _ _ _ Hh)) as (F1 & F2 & F3 & F4).
  split.
  - eapply cast_typed; [exact Hc|apply Hh].
  - done.
  - by rewrite F2, value_type_idemp.
  - intros i Hi. rewrite F4, (h_row _ _ _ _ Hh) by done.
    by rewrite cast_value_decoded, (h_type _ _ _ _ Hh), <- cast_value_decoded.
  - by rewrite F2.
  - intros s w ->. by cbn in F2; subst.
Qed.

(** Membership in [boolean_kernels], and the case of a kernel of one operand. *)
Ltac bmem := apply (bool_decide_unpack _); by vm_compute.
Ltac unary_case cs He Hchild :=
  destruct cs as [|c [|]]; try done; inversion_clear Hchild as [|? ? Hop _];
  apply bind_Ok in He as (x & Ex & He);
  eapply holds_ext; [eapply unary_holds; [|exact He|exact (Hop x Ex)]; bmem|];
  intros ? _; cbn.

Lemma evaluate_holds s b d :
  every payload_ok s → batch_ok b → evaluate s b = Ok d →
  holds (rows b) d (etype (b_schema b) s) (λ i, row_eval (b_schema b) s (row_of b i)).
Proof using Type*.
  intros Hp Hb. revert d. induction s as [s IH] using spec_ind'. intros d He.
  inversion Hp as [s' (Hlit & Hcast & Harith) Hcs E]; subst s'.
  assert (Forall (λ c, ∀ x, evaluate c b = Ok x →
    holds (rows b) x (etype (b_schema b) c) (λ i, row_eval (b_schema b) c (row_of b i))) (children s)) as Hchild.
  { rewrite Forall_forall in IH, Hcs. apply Forall_forall. intros c Hc. apply IH; [done|by apply Hcs]. }
  clear IH Hcs Hp. destruct s as [k cn ci fi fn o f t v ng ad sid rev cs]. cbn in Hchild, Hlit, Hcast, Harith.
  destruct k; cbn in He.
  - by apply eval_column_holds.
  - destruct cs as [|c [|]]; try done. inversion_clear Hchild as [|? ? Hc _].
    apply bind_Ok in He as (p & Ep & He). apply (eval_field_holds _ _ _ _ _ _ He), Hc, Ep.
  - destruct v as [[ty [|w ws]]|]; try done. simplify_eq.
    destruct (Hlit _ eq_refl) as (Ha & _ & Hd). destruct (Hd eq_refl) as [Hd1 Hd2]. cbn in Hd1, Hd2.
    split; cbn; try done.
    + unfold array_typed in Ha. cbn in Ha. by inversion Ha.
    + by rewrite value_type_idemp.
    + by intros ? ? [= <- _].
  - destruct cs as [|l [|r [|]]]; try done. rewrite !Forall_cons in Hchild. destruct Hchild as (Hl & Hr & _).
    apply bind_Ok in He as (x & Ex & He). apply bind_Ok in He as (y & Ey & He).
    exact (compare_holds _ _ _ _ _ _ _ _ _ He (Hl x Ex) (Hr y Ey)).
  - destruct cs as [|c cs]; [done|].
    pose proof (connective_holds _ b "and_kleene" kleene_and c cs _ (row_of b) d kernel_and ltac:(bmem) Hchild He) as Hr.
    by destruct cs.
  - destruct cs as [|c cs]; [done|].
    pose proof (connective_holds _ b "or_kleene" kleene_or c cs _ (row_of b) d kernel_or ltac:(bmem) Hchild He) as Hr.
    by destruct cs.
  - unary_case cs He Hchild. by apply kernel_invert.
  - unary_case cs He Hchild. by apply kernel_is_null.
  - unary_case cs He Hchild. by apply kernel_is_valid.
  - destruct cs as [|c [|]]; try done. inversion_clear Hchild as [|? ? Hc _].
    apply bind_Ok in He as (x & Ex & He). destruct v as [set|]; [|done].
    destruct (Hlit _ eq_refl) as (Ha & Hs & _).
    exact (eval_in_holds _ _ _ _ _ _ _ He (Hc x Ex) Ha Hs).
  - destruct cs as [|c [|]]; try done. inversion_clear Hchild as [|? ? Hc _].
    destruct (exact_context_free_cast _ _); cbn [negb] in He; [|done].
    apply bind_Ok in He as (x & Ex & He). destruct t as [t|]; [|done].
    apply value_or_throw_Ok in He.
    exact (cast_holds _ _ _ _ _ _ He (Hc x Ex) (Hcast eq_refl t eq_refl)).
  - destruct cs as [|l [|r [|]]]; try done. rewrite !Forall_cons in Hchild. destruct Hchild as (Hl & Hr & _).
    apply bind_Ok in He as (x & Ex & He). apply bind_Ok in He as (y & Ey & He).
    exact (proj1 (call_holds _ (o +:+ "_checked") [x; y] _ _ d (arithmetic_row o (Harith eq_refl)) He (holds_2 _ _ _ _ _ _ _ (Hl x Ex) (Hr y Ey)))).
  - destruct cs as [|c [|]]; try done. inversion_clear Hchild as [|? ? Hc _].
    apply bind_Ok in He as (x & Ex & He).
    exact (proj1 (call_holds _ "negate_checked" [x] _ _ d ltac:(by_decide) He (holds_1 _ _ _ _ (Hc x Ex)))).
  - destruct cs as [|l [|r [|]]]; try done. rewrite !Forall_cons in Hchild. destruct Hchild as (Hl & Hr & _).
    apply bind_Ok in He as (x & Ex & He). apply bind_Ok in He as (y & Ey & He).
    exact (standard_call_holds _ _ _ _ _ _ _ _ _ He (Hl x Ex) (Hr y Ey)).
  - done.
Qed.

Lemma keep_length {X Y} (m : list value) (l : list X) (k : list Y) :
  length l = length k → length (keep m l) = length (keep m k).
Proof using Type.
  revert l k. induction m as [|x m IH]; intros [|y l] [|z k] H; cbn in H |- *; try done.
  destruct (is_true x); cbn; rewrite (IH l k) by lia; done.
Qed.

Lemma keep_elem {X} (m : list value) (l : list X) x : x ∈ keep m l → x ∈ l.
Proof using Type.
  revert l. induction m as [|y m IH]; intros [|z l]; cbn; rewrite ?elem_of_nil; try done.
  destruct (is_true y); rewrite ?elem_of_cons; intros H; [destruct H as [->|H]|]; auto.
Qed.

(** The rows of the kept columns are the kept rows. *)
Lemma keep_lookup {X} (m : list value) (l : list X) j i :
  length m = length l → keep m (seq 0 (length l)) !! j = Some i → keep m l !! j = l !! i.
Proof using Type.
  intros Hl. enough (∀ k, keep m (seq k (length l)) !! j = Some i → ∃ i', i = (k + i')%nat ∧ keep m l !! j = l !! i') as H.
  { intros (i' & -> & E)%H. exact E. }
  revert l j Hl. induction m as [|x m IH]; intros [|y l] j Hl k Hk; cbn in Hl, Hk |- *; try done.
  destruct (is_true x); [destruct j as [|j]; cbn in Hk |- *|].
  - simplify_eq. exists 0%nat. split; [lia|done].
  - apply IH in Hk as (i' & -> & E); [|lia]. exists (S i'). split; [lia|done].
  - apply IH in Hk as (i' & -> & E); [|lia]. exists (S i'). split; [lia|done].
Qed.

Lemma keep_map {X Y} (f : X → Y) (m : list value) (l : list X) : keep m (map f l) = map f (keep m l).
Proof using Type.
  revert l. induction m as [|x m IH]; intros [|y l]; cbn; try done.
  destruct (is_true x); cbn; by rewrite IH.
Qed.

Lemma keep_filter {X} (f : X → value) (l : list X) :
  keep (map f l) l = filter (λ x, is_true (f x)) l.
Proof using Type.
  induction l as [|x l IH]; cbn; [done|]. unfold filter in *. cbn.
  destruct (is_true (f x)) eqn:E.
  - rewrite decide_True by done. by rewrite IH.
  - rewrite decide_False by auto. by rewrite IH.
Qed.

Lemma batch_rows_length b : length (batch_rows b) = rows b.
Proof using Type. unfold batch_rows. by rewrite length_map, length_seq. Qed.

(** Filtering a batch by a mask filters its rows. *)
Lemma filter_rows_rows b m b' :
  filter_rows b m = inr b' → batch_ok b → length (a_values m) = rows b →
  batch_ok b' ∧ b_schema b' = b_schema b ∧ batch_rows b' = keep (a_values m) (batch_rows b).
Proof using Type*.
  intros Hf Hb Hm. apply filter_rows_spec in Hf as (Hs & _ & Hn & Hc). destruct Hb as [B1 B2 B3 B4 B5].
  assert (rows b' = length (keep (a_values m) (a_values m))) as Hr by (unfold rows; rewrite Hn; lia).
  split_and!; [split|done|].
  - by rewrite Hc, Hs, length_map.
  - intros i f c Hf. rewrite Hs in Hf. rewrite Hc, list_lookup_fmap.
    destruct (b_columns b !! i) as [c'|] eqn:E; [|done]. intros [= <-]. cbn. by apply (B2 i).
  - rewrite Hc. intros c (c' & -> & Hc')%list_elem_of_fmap. cbn. rewrite Hr. apply keep_length.
    rewrite Hm. by apply B3.
  - rewrite Hc. intros c (c' & -> & Hc')%list_elem_of_fmap. unfold array_typed. cbn.
    apply Forall_forall. intros v Hv%keep_elem. specialize (B4 c' Hc'). unfold array_typed in B4.
    rewrite Forall_forall in B4. by apply B4.
  - rewrite Hs. exact B5.
  - unfold batch_rows. rewrite keep_map. apply list_eq. intros j. rewrite !list_lookup_fmap.
    assert (length (keep (a_values m) (seq 0 (rows b))) = rows b') as Hlen.
    { rewrite Hr. apply keep_length. by rewrite length_seq. }
    destruct (decide (j < rows b')%nat) as [Hj|Hj].
    + rewrite lookup_seq_lt by done. destruct (keep _ _ !! j) as [i|] eqn:E.
      2: { apply lookup_ge_None in E. lia. }
      cbn. f_equal. unfold row_of. rewrite Hc, map_map. apply map_ext_in. intros c Hin%list_elem_of_In. cbn.
      rewrite (keep_lookup _ _ j i); [done|by rewrite (B3 c Hin)|by rewrite (B3 c Hin)].
    + rewrite !lookup_ge_None_2; [done|by rewrite Hlen; lia|rewrite length_seq; lia].
Qed.

(** One filter: the rows it is true of, in order. *)
Lemma filter_by_rows p b b' :
  filter_by p b = Ok b' → every payload_ok p → batch_ok b →
  batch_ok b' ∧ b_schema b' = b_schema b ∧
  batch_rows b' = filter (λ row, is_true (row_eval (b_schema b) p row)) (batch_rows b).
Proof using Type*.
  unfold filter_by. intros He Hp Hb. apply bind_Ok in He as (d & Hd & He).
  apply bind_Ok in He as (mask & Hmask & He).
  apply (evaluate_holds p b d Hp Hb) in Hd. destruct (array_from_datum_holds _ _ _ _ _ Hmask Hd) as [Hh _].
  destruct (a_type mask); try done.
  destruct (filter_rows b mask) as [|b''] eqn:Hf; [done|]. injection He as ->.
  assert (a_values mask = map (row_eval (b_schema b) p) (batch_rows b)) as Hv.
  { unfold batch_rows. rewrite map_map. apply list_eq. intros i. rewrite list_lookup_fmap.
    destruct (decide (i < rows b)%nat) as [Hi|Hi].
    - rewrite lookup_seq_lt by done. by apply (lookup_holds _ _ _ _ _ Hh).
    - rewrite !lookup_ge_None_2; [done|rewrite length_seq; lia|].
      pose proof (h_fits _ _ _ _ Hh) as Hl. cbn in Hl. lia. }
  destruct (filter_rows_rows b mask b' Hf Hb) as (H1 & H2 & H3).
  { by rewrite Hv, length_map, batch_rows_length. }
  split_and!; [done..|]. by rewrite H3, Hv, keep_filter.
Qed.

Lemma filter_filter_and {X} (f g : X → bool) (l : list X) :
  filter (λ x, f x) (filter (λ x, g x) l) = filter (λ x, g x && f x) l.
Proof using Type.
  induction l as [|x l IH]; [done|]. rewrite !(filter_cons _ x l).
  destruct (g x) eqn:Hg; cbn [andb].
  - rewrite decide_True by done. rewrite filter_cons, IH. done.
  - rewrite !decide_False by auto. done.
Qed.

(** The filters that took part: all that must, and in order. *)
Definition passes (fields : list field) (used : list Spec) (row : list value) : bool :=
  forallb (λ p, is_true (row_eval fields p row)) used.

Lemma apply_each_rows specs b b' :
  apply_each specs b = Ok b' → Forall (every payload_ok) specs → batch_ok b →
  ∃ used, sublist used specs ∧
    (∀ p, p ∈ specs → s_kind p ≠ K_runtime_filter → advisory p = false → p ∈ used) ∧
    batch_ok b' ∧ b_schema b' = b_schema b ∧
    batch_rows b' = filter (λ row, passes (b_schema b) used row) (batch_rows b).
Proof using Type*.
  intros He Hp. revert b He. induction Hp as [|p specs Hp _ IH]; intros b He Hb; cbn [apply_each] in He.
  { injection He as <-. exists []. split_and!; [done|by intros ? ?%elem_of_nil|done..|].
    unfold passes. cbn. induction (batch_rows b) as [|row l IHl]; [done|]. rewrite filter_cons, decide_True by done.
    by rewrite <- IHl. }
  assert (∀ used, sublist used specs → sublist used (p :: specs)) as Hsub by (intros; by constructor).
  case_bool_decide as Hk.
  { destruct (IH b He Hb) as (used & H1 & H2 & H3). exists used. split_and!; [by apply Hsub| |apply H3..].
    intros q [->|Hq]%elem_of_cons ??; [done|by apply H2]. }
  destruct (filter_by p b) as [b1|e] eqn:Hf.
  - destruct (filter_by_rows p b b1 Hf Hp Hb) as (F1 & F2 & F3).
    destruct (IH b1 He F1) as (used & H1 & H2 & H3 & H4 & H5). exists (p :: used).
    split_and!; [by constructor| |done|congruence|].
    + intros q [->|Hq]%elem_of_cons ??; [by left|right; by apply H2].
    + rewrite H5, F2, F3. apply filter_filter_and.
  - destruct (advisory p) eqn:Ha; [|done].
    destruct (IH b He Hb) as (used & H1 & H2 & H3). exists used. split_and!; [by apply Hsub| |apply H3..].
    intros q [->|Hq]%elem_of_cons ??; [congruence|by apply H2].
Qed.

(** C14. Vectorised evaluation agrees with the meaning of the filter on every
    row: where [evaluate] returns for a batch, the result holds, at each row, the
    value [row_eval] gives to that row alone. *)
Theorem evaluate_rows s b d i :
  every payload_ok s → batch_ok b → evaluate s b = Ok d → (i < rows b)%nat →
  at_row d i = row_eval (b_schema b) s (row_of b i).
Proof using Type*. intros Hp Hb He Hi. by apply (evaluate_holds s b d Hp Hb He). Qed.

(** C13. [apply] keeps exactly the rows, in order and with the schema, of which
    every filter that took part is TRUE -- not false, not NULL -- and every
    required filter takes part: one that cannot be evaluated is an error, never a
    filter skipped.  Only advisory filters and runtime filters may be left out. *)
Theorem apply_rows specs b b' :
  apply specs (Some b) = Ok (Some b') → Forall (every payload_ok) specs → batch_ok b →
  ∃ used, sublist used specs ∧
    (∀ p, p ∈ specs → s_kind p ≠ K_runtime_filter → advisory p = false → p ∈ used) ∧
    batch_ok b' ∧ b_schema b' = b_schema b ∧
    batch_rows b' = filter (λ row, passes (b_schema b) used row) (batch_rows b).
Proof using Type*.
  unfold apply. intros He Hp Hb. case_bool_decide as Hl.
  - injection He as <-. apply (apply_each_rows [] b b eq_refl) in Hb as (used & H1 & H2 & H3); [|done].
    apply nil_length_inv in Hl as ->. exists used. split_and!; [done|done|apply H3..].
  - apply bind_Ok in He as (b1 & He & [= <-]). by apply apply_each_rows.
Qed.

End evaluate_lemmas.

(** ** The order of doubles *)

Lemma floating_ordering_le f g : floating_ordering f g ≤ 0 ↔ key_le (float_key f) (float_key g).
Proof.
  unfold floating_ordering, SFltb.
  destruct f as [| [] | |[] m e], g as [| [] | |[] m' e']; cbn [is_nan SFcompare float_key key_le]; try lia;
    change (Pos.compare_cont Eq m m') with (m ?= m')%positive;
    change (Pos.compare_cont Eq m' m) with (m' ?= m)%positive;
    rewrite (Z.compare_antisym e e'), (Pos.compare_antisym m m');
    destruct (Z.compare_spec e e'); cbn [CompOpp]; try lia;
    destruct (Pos.compare_spec m m'); cbn [CompOpp]; lia.
Qed.

Lemma floating_ordering_antisym f g : floating_ordering g f = - floating_ordering f g.
Proof.
  unfold floating_ordering, SFltb.
  destruct f as [| [] | |[] m e], g as [| [] | |[] m' e']; cbn [is_nan SFcompare]; try done;
    change (Pos.compare_cont Eq m m') with (m ?= m')%positive;
    change (Pos.compare_cont Eq m' m) with (m' ?= m)%positive;
    rewrite (Z.compare_antisym e e'), (Pos.compare_antisym m m');
    destruct (Z.compare_spec e e'); cbn [CompOpp]; try done;
    destruct (Pos.compare_spec m m'); done.
Qed.

(** [floating_compare] is a total order of the doubles, up to the equality
    of the two zeros, in which NaN equals itself and is above every number: exactly one of [lt],
    [eq], [gt] holds; the six operators are the readings of one ordering;
    [le] is transitive; NaN is equal to NaN alone and above all. *)
Theorem floating_compare_total f g h :
  floating_compare f g "le" = Ok true → floating_compare g h "le" = Ok true →
  floating_compare f h "le" = Ok true ∧
  (∃ o, o = floating_ordering f g ∧ (o = -1 ∨ o = 0 ∨ o = 1) ∧
    floating_compare f g "eq" = Ok (o =? 0) ∧ floating_compare f g "ne" = Ok (negb (o =? 0)) ∧
    floating_compare f g "lt" = Ok (o =? -1) ∧ floating_compare f g "gt" = Ok (o =? 1) ∧
    floating_compare f g "ge" = Ok (negb (o =? -1)) ∧
    floating_compare g f "lt" = Ok (o =? 1) ∧ floating_compare g f "le" = Ok (negb (o =? -1))) ∧
  floating_compare f S754_nan "le" = Ok true ∧
  floating_compare f S754_nan "eq" = Ok (is_nan f).
Proof.
  intros [= Hfg] [= Hgh].
  assert (∀ a b, floating_ordering a b = -1 ∨ floating_ordering a b = 0 ∨ floating_ordering a b = 1) as H3.
  { intros a b. unfold floating_ordering. destruct (is_nan a), (is_nan b), (SFltb a b), (SFltb b a); auto. }
  assert (floating_compare f h "le" = Ok true) as Hfh.
  { unfold floating_compare. cbn. f_equal. apply Z.leb_le in Hfg, Hgh. apply Z.leb_le.
    rewrite floating_ordering_le in *. destruct (float_key f) as [[]], (float_key g) as [[]], (float_key h) as [[]].
    cbn in *. lia. }
  split_and!; [done| |by destruct f|by destruct f].
  exists (floating_ordering f g). pose proof (H3 f g) as Ho. split_and!; try done;
    unfold floating_compare; cbn; rewrite ?(floating_ordering_antisym f g); f_equal;
    destruct Ho as [->|[->| ->]]; done.
Qed.

Lemma floating_compare_total_witness :
  floating_compare (S754_zero true) (S754_finite false 3 0) "le" = Ok true ∧
  floating_compare (S754_zero true) S754_nan "le" = Ok true.
Proof.
  split; [reflexivity|].
  apply (floating_compare_total (S754_zero true) (S754_finite false 3 0) S754_nan); reflexivity.
Defined.

(** ** A batch to evaluate on *)

Definition sample_batch : batch :=
  mkBatch [Field "x" T_int64 true []; Field "ok" T_bool true []] None 3
    [mkArray T_int64 [V_int 1; V_null; V_int 5]; mkArray T_bool [V_bool true; V_bool true; V_bool true]].

Definition sample_column : Spec :=
  mkSpec K_column "x" 0 0 "" "" "" (Some T_int64) None false false "" 0 [].
Definition sample_literal : Spec :=
  with_value (Some (mkArray T_int64 [V_int 3])) (with_children [] (Some T_int64) (make K_literal)).
(** [x >= 3] *)
Definition sample_filter : Spec :=
  with_op "ge" (with_column "x" (with_children [sample_column; sample_literal] (Some T_bool) (make K_constant))).

Lemma sample_batch_ok : batch_ok sample_batch.
Proof.
  split.
  - done.
  - intros [|[|i]] f c; cbn; [by intros [= <-] [= <-]..|done].
  - intros c Hc. by repeat (apply elem_of_cons in Hc as [->|Hc]); [..|apply elem_of_nil in Hc].
  - intros c Hc. unfold array_typed.
    repeat (apply elem_of_cons in Hc as [->|Hc]; [by repeat (constructor; [done|])|]). by apply elem_of_nil in Hc.
  - intros f Hf. repeat (apply elem_of_cons in Hf as [->|Hf]; [done|]). by apply elem_of_nil in Hf.
Qed.

Lemma sample_filter_ok : every payload_ok sample_filter.
Proof.
  constructor; [by split|]. cbn.
  constructor; [|constructor; [|constructor]]; (constructor; [|constructor]); split; try done.
  cbn. intros a [= <-]. split_and!; [|done|done]. unfold array_typed. cbn. by constructor.
Qed.

Lemma evaluate_rows_witness :
  at_row (D_array (mkArray T_bool [V_bool false; V_null; V_bool true])) 2 =
  @row_eval toy_arrow toy_compute (b_schema sample_batch) sample_filter [V_int 5; V_bool true].
Proof.
  apply (@evaluate_rows toy_arrow _ toy_compute _ sample_filter sample_batch
    (D_array (mkArray T_bool [V_bool false; V_null; V_bool true])) 2).
  - apply sample_filter_ok.
  - apply sample_batch_ok.
  - reflexivity.
  - vm_compute. lia.
Defined.

Lemma apply_rows_witness :
  ∃ b' used, @apply toy_arrow toy_compute [sample_filter] (Some sample_batch) = Ok (Some b') ∧
    sample_filter ∈ used ∧
    batch_rows b' = filter (λ row, @passes toy_arrow toy_compute (b_schema sample_batch) used row) (batch_rows sample_batch) ∧
    batch_rows b' = [[V_int 5; V_bool true]].
Proof.
  eexists. destruct (@apply_rows toy_arrow _ toy_compute _ [sample_filter] sample_batch
    (mkBatch (b_schema sample_batch) None 1 [mkArray T_int64 [V_int 5]; mkArray T_bool [V_bool true]])
    eq_refl) as (used & _ & H2 & _ & _ & H5).
  - constructor; [apply sample_filter_ok|constructor].
  - apply sample_batch_ok.
  - exists used. split_and!; [reflexivity|apply H2; [by left|done|done]|exact H5|reflexivity].
Defined.

End PushdownRows.
