(* ===== verification/PushdownBounds.v ===== *)
(** * What filters say of a column: bounds and values ([src/pushdown.cpp])

    [column_bounds] and [column_values] project the filters onto a column, for
    a scan that skips files or partitions.  A projection may be loose but never
    wrong: the theorems show that a row every filter is TRUE of has its value
    within the bounds and among the values, and that a BOOLEAN column standing
    as a predicate is read exactly. *)

From Stdlib Require Import SpecFloat.
From S2P Require Import Prelude Text Arrow ArrowCompute Json Pushdown PushdownEval PushdownRows.
Import Json Pushdown PushdownEval PushdownRows.

Module PushdownBounds.

Definition is_direct_column (e : Spec) (column : string) : bool :=
  bool_decide (s_kind e = K_column) && bool_decide (column_name e = column).

(** A BOOLEAN column, or the negation of one, as a predicate. *)
Definition boolean_column (e : Spec) : option string :=
  if bool_decide (s_kind e = K_column) && boolean_type (data_type e) then Some (column_name e) else None.

Definition boolean_column_leaf (s : Spec) : option (string * bool) :=
  match s_kind s, children s with
  | K_not, [c] => name ← boolean_column c; Some (name, false)
  | _, _ => name ← boolean_column s; Some (name, true)
  end.

Record Bounds := mkBounds { b_min : option Z; b_max : option Z }.

Definition intersect (left right : Bounds) : Bounds :=
  mkBounds
    match b_min right with
    | Some r => Some match b_min left with Some l => Z.max l r | None => r end
    | None => b_min left
    end
    match b_max right with
    | Some r => Some match b_max left with Some l => Z.min l r | None => r end
    | None => b_max left
    end.

Definition unite (left right : Bounds) : Bounds :=
  mkBounds
    match b_min left, b_min right with Some l, Some r => Some (Z.min l r) | _, _ => None end
    match b_max left, b_max right with Some l, Some r => Some (Z.max l r) | _, _ => None end.

Definition int64_max : Z := 2 ^ 63 - 1.
Definition int64_min : Z := - 2 ^ 63.

(** The bounds of a comparison [column op value]. *)
Definition comparison_bounds (op : string) (value : Z) : option Bounds :=
  if bool_decide (op = "eq"%string) then Some (mkBounds (Some value) (Some value))
  else if bool_decide (op = "gt"%string) then Some (mkBounds (Some (if value =? int64_max then value else value + 1)) None)
  else if bool_decide (op = "ge"%string) then Some (mkBounds (Some value) None)
  else if bool_decide (op = "lt"%string) then Some (mkBounds None (Some (if value =? int64_min then value else value - 1)))
  else if bool_decide (op = "le"%string) then Some (mkBounds None (Some value))
  else None.

(** The comparison read from the other side. *)
Definition flip (op : string) : string :=
  if bool_decide (op = "gt"%string) then "lt"
  else if bool_decide (op = "ge"%string) then "le"
  else if bool_decide (op = "lt"%string) then "gt"
  else if bool_decide (op = "le"%string) then "ge"
  else op.

(** The least and greatest of the values that are not NULL. *)
Definition list_bounds (vs : list value) : Bounds :=
  fold_left (λ r v,
    match v with
    | V_int z => mkBounds (Some match b_min r with Some m => Z.min m z | None => z end)
                          (Some match b_max r with Some m => Z.max m z | None => z end)
    | _ => r
    end) vs (mkBounds None None).

Section projections.
Context `{C : Compute}.
Variable column : string.

Definition scalar_int64 (v : option array) : option Z :=
  match v with
  | Some (mkArray t (x :: _)) =>
      if is_null x || negb (is_integer (logical_type t)) then None
      else match cast (D_array (mkArray t [x])) T_int64 with
           | inr (D_array (mkArray _ (V_int z :: _))) => Some z
           | _ => None
           end
  | _ => None
  end.

Definition constant_bounds (op : string) (l r : Spec) : option Bounds :=
  if is_direct_column l column && bool_decide (s_kind r = K_literal)
  then scalar_int64 (s_value r) ≫= comparison_bounds op
  else if is_direct_column r column && bool_decide (s_kind l = K_literal)
  then scalar_int64 (s_value l) ≫= comparison_bounds (flip op)
  else None.

Definition in_bounds (v : option array) : option Bounds :=
  match v with
  | Some a =>
      if negb (is_integer (logical_type (a_type a))) then None
      else match cast (D_array a) T_int64 with
           | inr (D_array a) =>
               let r := list_bounds (a_values a) in
               match b_min r with Some _ => Some r | None => None end
           | _ => None
           end
  | None => None
  end.

Fixpoint bounds_for (s : Spec) : option Bounds :=
  match s_kind s, children s with
  | K_constant, [l; r] => constant_bounds (op s) l r
  | K_in, c :: _ => if negb (negated s) && is_direct_column c column then in_bounds (s_value s) else None
  | K_and, cs =>
      (fix each (cs : list Spec) (acc : option Bounds) : option Bounds :=
         match cs with
         | [] => acc
         | c :: cs =>
             match bounds_for c with
             | None => each cs acc
             | Some b => each cs (Some match acc with Some r => intersect r b | None => b end)
             end
         end) cs None
  | K_or, cs =>
      (fix each (cs : list Spec) (acc : option Bounds) : option Bounds :=
         match cs with
         | [] => acc
         | c :: cs =>
             match bounds_for c with
             | None => None
             | Some b => each cs (Some match acc with Some r => unite r b | None => b end)
             end
         end) cs None
  | _, _ => None
  end.

Definition column_bounds (specs : list Spec) : Bounds :=
  default (mkBounds None None)
    (fold_left (λ acc s,
       match bounds_for s with
       | Some b => Some match acc with Some r => intersect r b | None => b end
       | None => acc
       end) specs None).

(** The values the column can take, when they are enumerated. *)
Fixpoint discrete_values (s : Spec) : option array :=
  if match s_kind s, children s with
     | K_constant, [l; r] => bool_decide (op s = "eq"%string) && is_direct_column l column &&
                             bool_decide (s_kind r = K_literal)
     | _, _ => false
     end then match children s with [_; r] => s_value r | _ => None end else
  match boolean_column_leaf s with
  | Some (name, b) => if bool_decide (name = column) then Some (mkArray T_bool [V_bool b]) else None
  | None =>
      match s_kind s, children s with
      | K_in, c :: _ => if negb (negated s) && is_direct_column c column then s_value s else None
      | K_and, cs =>
          (fix each (cs : list Spec) : option array :=
             match cs with
             | [] => None
             | c :: cs => match discrete_values c with Some a => Some a | None => each cs end
             end) cs
      | K_or, cs =>
          arrays ← (fix each (cs : list Spec) : option (list array) :=
                      match cs with
                      | [] => Some []
                      | c :: cs => a ← discrete_values c; l ← each cs; Some (a :: l)
                      end) cs;
          if bool_decide (length arrays = 0%nat) then None else
          match concatenate arrays with
          | inl _ => None
          | inr all => match unique all with inl _ => None | inr a => Some a end
          end
      | _, _ => None
      end
  end.

Fixpoint column_values (specs : list Spec) : option array :=
  match specs with
  | [] => None
  | s :: specs => match discrete_values s with Some a => Some a | None => column_values specs end
  end.

End projections.

(** ** Lemmas *)

Section lemmas.
Context `{A : Arrow} `{!ArrowLaws A} `{C : Compute} `{!ComputeLaws C}.

Lemma kleene_and_true x y : is_true (kleene_and x y) = is_true x && is_true y.
Proof using Type. by destruct x as [|[]| | | | |], y as [|[]| | | | |]. Qed.

Lemma kleene_or_true x y : is_true (kleene_or x y) = is_true x || is_true y.
Proof using Type. by destruct x as [|[]| | | | |], y as [|[]| | | | |]. Qed.

Lemma fold_and_true {X} (f : X → value) l x :
  is_true (fold_left (λ a c, kleene_and a (f c)) l x) = is_true x && forallb (λ c, is_true (f c)) l.
Proof using Type.
  revert x. induction l as [|c l IH]; intros x; cbn; [by rewrite andb_true_r|].
  by rewrite IH, kleene_and_true, andb_assoc.
Qed.

Lemma fold_or_true {X} (f : X → value) l x :
  is_true (fold_left (λ a c, kleene_or a (f c)) l x) = is_true x || existsb (λ c, is_true (f c)) l.
Proof using Type.
  revert x. induction l as [|c l IH]; intros x; cbn; [by rewrite orb_false_r|].
  by rewrite IH, kleene_or_true, orb_assoc.
Qed.

Lemma is_true_eq v : is_true v = true ↔ v = V_bool true.
Proof using Type. destruct v as [|[]| | | | |]; cbn; naive_solver. Qed.

(** An AND is TRUE when every operand is, an OR when one is. *)
Lemma and_true fields s row :
  s_kind s = K_and → is_true (row_eval fields s row) = true →
  Forall (λ c, is_true (row_eval fields c row) = true) (children s).
Proof using Type.
  destruct s as [k ? ? ? ? ? ? ? ? ? ? ? ? [|c cs]]; cbn; intros -> H; [done|].
  rewrite fold_and_true in H. apply andb_true_iff in H as [H1 H2].
  constructor; [done|]. apply Forall_forall. intros x Hx. rewrite forallb_forall in H2.
  by apply H2, list_elem_of_In.
Qed.

Lemma or_true fields s row :
  s_kind s = K_or → is_true (row_eval fields s row) = true →
  Exists (λ c, is_true (row_eval fields c row) = true) (children s).
Proof using Type.
  destruct s as [k ? ? ? ? ? ? ? ? ? ? ? ? [|c cs]]; cbn; intros -> H; [done|].
  rewrite fold_or_true in H. apply orb_true_iff in H as [H|H]; [by left|right].
  apply existsb_exists in H as (x & Hx%list_elem_of_In & Ht). apply Exists_exists. by exists x.
Qed.

(** A membership test is TRUE when the value equals one of the set's. *)
Lemma in_true t u x vs :
  is_true (in_row false t u x vs) = true → ∃ v, v ∈ vs ∧ is_true (compare_row t u "eq" x v) = true.
Proof using Type.
  unfold in_row. rewrite fold_or_true. cbn. intros (v & Hv%list_elem_of_In & Ht)%existsb_exists.
  by exists v.
Qed.

Lemma value_typed_plain t v : simple_type t → value_typed t v → plain_typed (value_type t) v.
Proof using Type. destruct t; cbn; try done. by intros [-> _]. Qed.

Lemma integer_values t v : is_integer t = true → plain_typed t v → v = V_null ∨ ∃ z, v = V_int z.
Proof using Type.
  intros Ht. destruct v; cbn; intros Hv; [by left| |right; by eexists|..]; exfalso.
  - by subst.
  - by destruct t.
  - unfold other_type in Hv. by rewrite Ht, andb_false_r in Hv.
  - unfold other_type in Hv. by rewrite Ht, andb_false_r in Hv.
  - by destruct t.
Qed.

(** What an integer comparison says. *)
Definition int_test (op : string) (x z : Z) : bool :=
  if bool_decide (op = "eq"%string) then x =? z
  else if bool_decide (op = "ne"%string) then negb (x =? z)
  else if bool_decide (op = "lt"%string) then x <? z
  else if bool_decide (op = "le"%string) then x <=? z
  else if bool_decide (op = "gt"%string) then z <? x
  else if bool_decide (op = "ge"%string) then z <=? x
  else false.

Lemma compare_ints t u op x z : is_integer t = true → is_integer u = true →
  is_distinct op = false → is_true (compare_row t u op (V_int x) (V_int z)) = int_test op x z.
Proof using Type*.
  intros Ht Hu Hd. unfold compare_row, int_test. cbn [is_null orb]. rewrite Hd. unfold kernel_of.
  repeat (case_bool_decide; [subst; rewrite ?kernel_equal, ?kernel_not_equal, ?kernel_less,
    ?kernel_less_equal, ?kernel_greater, ?kernel_greater_equal by done; cbn; by repeat case_match|]). done.
Qed.

Lemma compare_not_null t u op x y :
  is_distinct op = false → is_true (compare_row t u op x y) = true → is_null x = false ∧ is_null y = false.
Proof using Type.
  unfold compare_row. intros ->. destruct (is_null x), (is_null y); done.
Qed.

Lemma flip_test op x z : int_test op z x = int_test (flip op) x z.
Proof using Type.
  unfold int_test, flip. repeat (case_bool_decide; subst; try done); by rewrite Z.eqb_sym.
Qed.

Definition within (b : Bounds) (v : value) : Prop :=
  ∃ z, v = V_int z ∧ (∀ m, b_min b = Some m → m ≤ z) ∧ (∀ m, b_max b = Some m → z ≤ m).

(** A value that has the bounds there are. *)
Definition respects (b : Bounds) (v : value) : Prop :=
  (∀ m, b_min b = Some m → ∃ z, v = V_int z ∧ m ≤ z) ∧
  (∀ m, b_max b = Some m → ∃ z, v = V_int z ∧ z ≤ m).

Lemma within_intersect b b' v : within b v → within b' v → within (intersect b b') v.
Proof using Type.
  intros (z & -> & H1 & H2) (z' & [= <-] & H3 & H4). exists z. split; [done|]. cbn.
  destruct b as [[l|] [u|]], b' as [[l'|] [u'|]]; cbn in *;
    split; intros m [= <-]; try specialize (H1 _ eq_refl); try specialize (H2 _ eq_refl);
    try specialize (H3 _ eq_refl); try specialize (H4 _ eq_refl); lia.
Qed.

Lemma within_unite b b' v : within b v ∨ within b' v → within (unite b b') v.
Proof using Type.
  intros [(z & -> & H1 & H2)|(z & -> & H1 & H2)]; exists z; (split; [done|]); cbn;
    destruct b as [[l|] [u|]], b' as [[l'|] [u'|]]; cbn in *;
    split; intros m [= <-]; try specialize (H1 _ eq_refl); try specialize (H2 _ eq_refl); lia.
Qed.

Lemma comparison_within op z b x :
  comparison_bounds op z = Some b → int_test op x z = true → within b (V_int x).
Proof using Type.
  unfold comparison_bounds, int_test. intros Hb Ht. exists x. split; [done|].
  repeat (case_bool_decide; subst; try done); simplify_eq; cbn; split; intros m Hm; simplify_eq;
    try destruct (_ =? _) eqn:?; lia.
Qed.

(** [list_bounds] covers every integer listed. *)
Definition covers (b : Bounds) (z : Z) : Prop :=
  ∃ l u, b_min b = Some l ∧ b_max b = Some u ∧ l ≤ z ≤ u.

Lemma covers_within b z : covers b z → within b (V_int z).
Proof using Type.
  intros (l & u & Hl & Hu & H). exists z. rewrite Hl, Hu. split_and!; [done|..]; intros m [= <-]; lia.
Qed.

Lemma list_bounds_covers vs z : V_int z ∈ vs → covers (list_bounds vs) z.
Proof using Type.
  unfold list_bounds. generalize (mkBounds None None). induction vs as [|v vs IH]; intros b Hz; cbn.
  { by apply elem_of_nil in Hz. }
  apply elem_of_cons in Hz as [<-|Hz]; [clear IH|by apply IH].
  set (b1 := mkBounds _ _). assert (covers b1 z) as H.
  { eexists _, _. split_and!; [done|done|..]; destruct b as [[] []]; cbn; lia. }
  clearbody b1. revert b1 H. clear b. induction vs as [|v vs IH]; intros b (l & u & Hl & Hu & H); cbn.
  { by exists l, u. }
  apply IH. destruct v; try (by exists l, u). eexists _, _. cbn. rewrite Hl, Hu. split_and!; [done|done|lia..].
Qed.

End lemmas.

(** ** A row and one of its columns

    The column is the only one of its name. *)
Section sound.
Context `{A : Arrow} `{!ArrowLaws A} `{C : Compute} `{!ComputeLaws C}.
Context (fields : list field) (i : nat) (f : field).
Abbreviation column := (f_name f).
Hypothesis Hfield : fields !! i = Some f.
Hypothesis Hunique : ∀ j, f_name <$> fields !! j = Some column → j = i.
Variable row : list value.

Abbreviation this := (default V_null (row !! i)).
Abbreviation true_of s := (is_true (row_eval fields s row) = true).

Lemma resolve_unique index : resolve fields index column = Some i.
Proof using All.
  unfold resolve. case_bool_decide as Hj; [by rewrite (Hunique _ Hj)|].
  rewrite (NoDup_all_eq (get_all_field_indices fields column) i); [done| | |].
  - apply get_all_field_indices_NoDup.
  - apply get_all_field_indices_spec. by rewrite Hfield.
  - intros j Hin. by apply Hunique, get_all_field_indices_spec.
Qed.

Lemma direct_value c : is_direct_column c column = true → row_eval fields c row = this.
Proof using All.
  unfold is_direct_column. intros [Hk Hn]%andb_true_iff. apply bool_decide_eq_true in Hk, Hn.
  destruct c. cbn in Hk, Hn |- *. by rewrite Hk, Hn, resolve_unique.
Qed.

Lemma literal_value s :
  s_kind s = K_literal → row_eval fields s row = match s_value s with Some (mkArray _ (v :: _)) => v | _ => V_null end.
Proof using Type. destruct s; cbn; by intros ->. Qed.

Lemma literal_type s :
  s_kind s = K_literal → etype fields s = match s_value s with Some a => value_type (a_type a) | None => T_null end.
Proof using Type. destruct s; cbn; by intros ->. Qed.

Lemma direct_type c : is_direct_column c column = true → etype fields c = value_type (f_type f).
Proof using All.
  unfold is_direct_column. intros [Hk Hn]%andb_true_iff. apply bool_decide_eq_true in Hk, Hn.
  destruct c. cbn in Hk, Hn |- *. by rewrite Hk, Hn, resolve_unique; cbn; rewrite Hfield.
Qed.

(** *** Bounds *)

Hypothesis Hinteger : is_integer (value_type (f_type f)) = true.
Hypothesis Hsimple : simple_type (f_type f).
Hypothesis Htyped : value_typed (f_type f) this.

Lemma this_integer : is_null this = false → ∃ z, this = V_int z.
Proof using Hinteger Hsimple Htyped.
  intros Hn. destruct (integer_values (value_type (f_type f)) this) as [H|H];
    [done|by apply value_typed_plain|by rewrite H in Hn|done].
Qed.

Lemma array_int_cast a b z :
  cast (D_array a) T_int64 = inr (D_array b) → is_integer (value_type (a_type a)) = true →
  V_int z ∈ a_values a → V_int z ∈ a_values b.
Proof using ComputeLaws0.
  intros Hc Hi (j & Hj)%list_elem_of_lookup.
  destruct (cast_rows _ _ _ (length (a_values a)) Hc) as (F1 & _ & _ & F4); [done|].
  specialize (F4 j (lookup_lt_Some _ _ _ Hj)). cbn in F1, F4. rewrite Hj in F4. cbn in F4.
  rewrite cast_value_int64 in F4 by done.
  destruct (a_values b !! j) as [w|] eqn:Hw; cbn in F4; [|done].
  subst. by eapply list_elem_of_lookup_2.
Qed.

Lemma scalar_int64_value t v vs z :
  scalar_int64 (Some (mkArray t (v :: vs))) = Some z → simple_type t → value_typed t v → v = V_int z.
Proof using ComputeLaws0.
  cbn. intros Hs Hst Hv. destruct (is_null v || _) eqn:Hn; [done|].
  apply orb_false_iff in Hn as [Hn Hi%negb_false_iff]. rewrite logical_type_eq in Hi.
  destruct (integer_values _ _ Hi (value_typed_plain _ _ Hst Hv)) as [-> |[z' ->]]; [done|].
  destruct (cast _ _) as [|[[t' [|[] ?]]|]] eqn:Hc; simplify_eq.
  destruct (cast_rows _ _ _ 1 Hc) as (_ & _ & _ & F4); [done|].
  specialize (F4 0%nat ltac:(lia)). cbn in F4. rewrite cast_value_int64 in F4 by done. by simplify_eq.
Qed.

Lemma literal_bounds r z :
  s_kind r = K_literal → every payload_ok r → scalar_int64 (s_value r) = Some z →
  row_eval fields r row = V_int z ∧ is_integer (value_type (etype fields r)) = true.
Proof using ComputeLaws0.
  intros Hk Hp Hs. rewrite literal_value by done. inversion Hp as [? [Hv _] _]. rewrite literal_type by done.
  destruct (s_value r) as [[t [|v vs]]|]; [done| |done].
  destruct (Hv _ eq_refl) as (Ht & Hst & _). unfold array_typed in Ht. cbn in Ht, Hst.
  inversion_clear Ht. split; [by eapply scalar_int64_value|]. rewrite value_type_idemp. cbn in Hs |- *.
  destruct (is_null v || _) eqn:Hn; [done|]. by apply orb_false_iff in Hn as [_ Hi%negb_false_iff]; rewrite logical_type_eq in Hi.
Qed.

Lemma comparison_bounds_op op z b : comparison_bounds op z = Some b → is_distinct op = false.
Proof using Type.
  unfold comparison_bounds, is_distinct. repeat (case_bool_decide; subst; try done).
Qed.

Lemma compare_flip t u op x y : is_integer t = true → is_integer u = true →
  is_true (compare_row t u op (V_int x) (V_int y)) = true → is_distinct (flip op) = false →
  is_true (compare_row u t (flip op) (V_int y) (V_int x)) = true.
Proof using ComputeLaws0.
  intros Hit Hiu Ht Hf. assert (is_distinct op = false) as Hd.
  { unfold flip, is_distinct in *. by repeat (case_bool_decide; subst; try done). }
  rewrite compare_ints in * by done. by rewrite <- flip_test.
Qed.

Lemma constant_within o l r b :
  constant_bounds column o l r = Some b → every payload_ok l → every payload_ok r →
  is_true (compare_row (value_type (etype fields l)) (value_type (etype fields r)) o (row_eval fields l row) (row_eval fields r row)) = true →
  within b this.
Proof using All.
  unfold constant_bounds. intros Hb Hl Hr Ht.
  destruct (is_direct_column l column && _) eqn:Hd; [|destruct (is_direct_column r column && _) eqn:Hd'; [|done]].
  - apply andb_true_iff in Hd as [Hd Hk%bool_decide_eq_true].
    apply bind_Some in Hb as (z & Hz & Hb). pose proof (comparison_bounds_op _ _ _ Hb) as Ho.
    destruct (literal_bounds r z) as [Hlv Hlt]; [done..|].
    assert (is_integer (value_type (etype fields l)) = true) as Hct by by rewrite (direct_type _ Hd), value_type_idemp.
    rewrite (direct_value _ Hd), Hlv in Ht.
    destruct (compare_not_null _ _ _ _ _ Ho Ht) as [Hn _]. destruct (this_integer Hn) as [x Hx].
    rewrite Hx in Ht |- *. rewrite compare_ints in Ht by done. by eapply comparison_within.
  - apply andb_true_iff in Hd' as [Hd' Hk%bool_decide_eq_true].
    apply bind_Some in Hb as (z & Hz & Hb). pose proof (comparison_bounds_op _ _ _ Hb) as Ho.
    destruct (literal_bounds l z) as [Hlv Hlt]; [done..|].
    assert (is_integer (value_type (etype fields r)) = true) as Hct by by rewrite (direct_type _ Hd'), value_type_idemp.
    rewrite (direct_value _ Hd'), Hlv in Ht.
    assert (is_distinct o = false) as Ho'.
    { unfold flip, is_distinct in *. by repeat (case_bool_decide; subst; try done). }
    destruct (compare_not_null _ _ _ _ _ Ho' Ht) as [_ Hn]. destruct (this_integer Hn) as [x Hx].
    rewrite Hx in Ht |- *. apply compare_flip in Ht; [|done..].
    rewrite compare_ints in Ht by done. by eapply comparison_within.
Qed.

Lemma in_within a b c :
  in_bounds (Some a) = Some b → is_direct_column c column = true → array_typed a → simple_type (a_type a) →
  is_true (in_row false (value_type (etype fields c)) (value_type (a_type a)) (row_eval fields c row) (a_values a)) = true → within b this.
Proof using All.
  cbn. intros Hb Hd Ha Hs Ht. rewrite (direct_value _ Hd) in Ht.
  apply in_true in Ht as (v & Hv & Ht).
  destruct (is_integer (logical_type (a_type a))) eqn:Hi; cbn in Hb; [|done]. rewrite logical_type_eq in Hi.
  assert (is_integer (value_type (etype fields c)) = true) as Hct by by rewrite (direct_type _ Hd), value_type_idemp.
  destruct (compare_not_null _ _ "eq" _ _ eq_refl Ht) as [Hn Hnv]. destruct (this_integer Hn) as [x Hx].
  assert (value_typed (a_type a) v) as Hvt by (unfold array_typed in Ha; rewrite Forall_forall in Ha; by apply Ha).
  destruct (integer_values _ _ Hi (value_typed_plain _ _ Hs Hvt)) as [-> |[z ->]]; [done|].
  rewrite Hx in Ht |- *. rewrite compare_ints in Ht by done. cbn in Ht. apply Z.eqb_eq in Ht as ->.
  destruct (cast _ _) as [|[a'|]] eqn:Hc; [done| |done].
  pose proof (array_int_cast _ _ _ Hc Hi Hv) as Hin. apply list_bounds_covers in Hin.
  destruct (b_min (list_bounds (a_values a'))); [|done]. injection Hb as <-. by apply covers_within.
Qed.

(** The loops over the operands. *)
Lemma and_loop_within cs acc b :
  Forall (λ c, ∀ b, bounds_for column c = Some b → within b this) cs →
  (fix each (cs : list Spec) (acc : option Bounds) : option Bounds :=
     match cs with
     | [] => acc
     | c :: cs =>
         match bounds_for column c with
         | None => each cs acc
         | Some b => each cs (Some match acc with Some r => intersect r b | None => b end)
         end
     end) cs acc = Some b →
  (∀ a, acc = Some a → within a this) → within b this.
Proof using Type.
  intros Hcs. revert acc. induction Hcs as [|c cs Hc _ IH]; intros acc Hb Hacc; [by apply Hacc|].
  destruct (bounds_for column c) as [b'|]; [|by eapply IH].
  apply (IH _ Hb). intros a [= <-]. specialize (Hc b' eq_refl).
  destruct acc as [r|]; [apply within_intersect|]; auto.
Qed.

Lemma or_loop_within cs acc b :
  Forall (λ c, ∀ b, bounds_for column c = Some b → true_of c → within b this) cs →
  (fix each (cs : list Spec) (acc : option Bounds) : option Bounds :=
     match cs with
     | [] => acc
     | c :: cs =>
         match bounds_for column c with
         | None => None
         | Some b => each cs (Some match acc with Some r => unite r b | None => b end)
         end
     end) cs acc = Some b →
  (∃ a, acc = Some a ∧ within a this) ∨ Exists (λ c, true_of c) cs → within b this.
Proof using Type.
  intros Hcs. revert acc. induction Hcs as [|c cs Hc _ IH]; intros acc Hb Hor.
  { destruct Hor as [(a & -> & Ha)|H]; [by simplify_eq|by inversion H]. }
  destruct (bounds_for column c) as [b'|]; [|done]. apply (IH _ Hb). rewrite Exists_cons in Hor.
  destruct Hor as [(a & -> & Ha)|[H|H]]; [left|left|by right]; eexists; (split; [done|]).
  - apply within_unite. by left.
  - specialize (Hc b' eq_refl H). destruct acc; [apply within_unite; by right|done].
Qed.

Lemma bounds_for_within s b :
  bounds_for column s = Some b → every payload_ok s → true_of s → within b this.
Proof using All.
  revert b. induction s as [s IH] using spec_ind'. intros b Hb Hp Ht.
  inversion Hp as [s' (Hv & _) Hcs E]; subst s'. destruct s as [k cn ci fi fn o fu t v ng ad sid rev cs].
  cbn [children s_value] in IH, Hcs, Hv.
  assert (Forall (λ c, ∀ b, bounds_for column c = Some b → true_of c → within b this) cs) as IHcs.
  { rewrite Forall_forall in IH, Hcs |- *. intros c Hc b' ??. apply (IH c); auto. }
  clear IH. destruct k; cbn in Hb; try done.
  - destruct cs as [|l [|r [|]]]; try done. rewrite !Forall_cons in Hcs. destruct Hcs as (Hl & Hr & _). cbn in Ht.
    by apply (constant_within o l r).
  - apply and_true in Ht; [|done]. cbn in Ht. apply (and_loop_within cs None b); [|exact Hb|done].
    rewrite Forall_forall in IHcs, Ht |- *. intros c Hc b' ?. apply (IHcs c); auto.
  - apply or_true in Ht; [|done]. cbn in Ht. apply (or_loop_within cs None b); [done|exact Hb|by right].
  - destruct cs as [|c cs]; [done|]. destruct ng; [done|]. cbn in Hb.
    destruct (is_direct_column c column) eqn:Hd; [|done]. destruct v as [a|]; [|done].
    destruct (Hv a eq_refl) as (Ha & Hs & _). cbn in Ht. destruct cs; [|done].
    by eapply in_within.
Qed.

Lemma column_bounds_within specs :
  Forall (every payload_ok) specs → Forall (λ s, true_of s) specs →
  respects (column_bounds column specs) this.
Proof using All.
  intros Hp Ht. unfold column_bounds.
  enough (∀ acc, (∀ a, acc = Some a → within a this) → ∀ b, fold_left (λ acc s,
       match bounds_for column s with
       | Some b => Some match acc with Some r => intersect r b | None => b end
       | None => acc
       end) specs acc = Some b → within b this) as H.
  { destruct (fold_left _ specs None) as [b|] eqn:E; cbn; [|done].
    destruct (H None ltac:(done) b E) as (z & Hz & H1 & H2). split; intros m Hm; exists z; auto. }
  induction Hp as [|s specs Hs _ IH]; inversion_clear Ht as [|? ? Ht' Hts]; intros acc Hacc b Hb; cbn in Hb;
    [by apply Hacc|].
  apply (IH Hts _) in Hb; [done|]. intros a Ha. destruct (bounds_for column s) as [b'|] eqn:Hbs; [|by apply Hacc].
  injection Ha as <-. pose proof (bounds_for_within _ _ Hbs Hs Ht') as Hw.
  destruct acc as [r|]; [apply within_intersect|]; auto.
Qed.

(** *** Values *)

(** Some listed value compares equal. *)
Definition listed (a : array) : Prop :=
  ∃ v u, v ∈ a_values a ∧ is_true (compare_row (value_type (f_type f)) u "eq" this v) = true.

Lemma boolean_column_inv s name :
  boolean_column s = Some name → s_kind s = K_column ∧ column_name s = name ∧ boolean_type (data_type s) = true.
Proof using Type.
  unfold boolean_column. destruct (_ && _) eqn:E; [|done]. intros [= <-].
  apply andb_true_iff in E as [Hk%bool_decide_eq_true Hb]. done.
Qed.

Lemma boolean_column_leaf_inv s name x :
  boolean_column_leaf s = Some (name, x) →
  ∃ c, s_kind c = K_column ∧ column_name c = name ∧ boolean_type (data_type c) = true ∧
    if x then s = c else s_kind s = K_not ∧ children s = [c].
Proof using Type.
  unfold boolean_column_leaf. intros H.
  assert (∀ b c, (name' ← boolean_column c; Some (name', b)) = Some (name, x) →
    s_kind c = K_column ∧ column_name c = name ∧ boolean_type (data_type c) = true ∧ x = b) as Hbc.
  { intros b c (n & Hn & [= <- <-])%bind_Some. apply boolean_column_inv in Hn as (? & ? & ?). done. }
  destruct (s_kind s) eqn:Hk; try (apply Hbc in H as (? & ? & ? & ->); by exists s).
  destruct (children s) as [|c [|c' cs]] eqn:Hcs; try (apply Hbc in H as (? & ? & ? & ->); by exists s).
  apply Hbc in H as (? & ? & ? & ->). by exists c.
Qed.

Lemma is_true_kleene_not v : is_true (kleene_not v) = true ↔ v = V_bool false.
Proof using Type. destruct v as [|[]| | | | |]; cbn; naive_solver. Qed.

Lemma leaf_true s x :
  boolean_column_leaf s = Some (column, x) → true_of s → this = V_bool x.
Proof using ArrowLaws0 ComputeLaws0 Hfield Hunique.
  intros (c & Hk & Hn & _ & Hs)%boolean_column_leaf_inv Ht.
  assert (row_eval fields c row = this) as Hv
    by (apply direct_value; unfold is_direct_column; by rewrite Hk, Hn, !bool_decide_true).
  destruct x.
  - subst c. rewrite Hv in Ht. by apply is_true_eq.
  - destruct Hs as [Hk' Hcs]. rewrite <- Hv. apply is_true_kleene_not.
    destruct s; cbn in Hk', Hcs, Ht. by subst.
Qed.

Lemma eq_bool t u x : is_true (compare_row t u "eq" (V_bool x) (V_bool x)) = true.
Proof using ComputeLaws0.
  change (is_true (kernel "equal" [t; u] [V_bool x; V_bool x]) = true). rewrite kernel_equal_bool. by destruct x.
Qed.

Lemma constant_listed l r a o :
  is_direct_column l column = true → s_kind r = K_literal → s_value r = Some a →
  is_true (compare_row (value_type (etype fields l)) (value_type (etype fields r)) o (row_eval fields l row) (row_eval fields r row)) = true →
  o = "eq"%string → listed a.
Proof using ArrowLaws0 ComputeLaws0 Hfield Hunique.
  intros Hl Hr Hv Ht ->. rewrite (direct_value _ Hl), (direct_type _ Hl), value_type_idemp, literal_value, Hv in Ht by done.
  destruct a as [t [|v vs]].
  - by destruct (compare_not_null _ _ "eq" _ _ eq_refl Ht).
  - exists v. eexists. split; [by left|exact Ht].
Qed.

Lemma or_loop_listed cs arrays :
  Forall (λ c, ∀ a, discrete_values column c = Some a → true_of c → listed a) cs →
  (fix each (cs : list Spec) : option (list array) :=
     match cs with
     | [] => Some []
     | c :: cs => a ← discrete_values column c; l ← each cs; Some (a :: l)
     end) cs = Some arrays →
  Exists (λ c, true_of c) cs → ∃ a, a ∈ arrays ∧ listed a.
Proof using Type.
  intros Hcs. revert arrays. induction Hcs as [|c cs Hc _ IH]; intros arrays Ha Hex; [by inversion Hex|].
  apply bind_Some in Ha as (a & Hca & Ha). apply bind_Some in Ha as (l & Hl & [= <-]).
  apply Exists_cons in Hex as [H|H]; [exists a; split; [by left|by apply Hc]|].
  destruct (IH l Hl H) as (a' & Hin & Hlist). exists a'. split; [by right|done].
Qed.

Lemma union_listed arrays all a :
  concatenate arrays = inr all → unique all = inr a → (∃ b, b ∈ arrays ∧ listed b) → listed a.
Proof using ComputeLaws0.
  intros Hc Hu (b & Hb & v & t & Hv & Ht). exists v, t. split; [|done].
  apply (unique_spec _ _ Hu). rewrite (concatenate_spec _ _ Hc). apply list_elem_of_In, in_concat.
  exists (a_values b). split; [by apply in_map, list_elem_of_In|by apply list_elem_of_In].
Qed.

Lemma discrete_values_listed s a : discrete_values column s = Some a → true_of s → listed a.
Proof using ArrowLaws0 ComputeLaws0 Hfield Hunique.
  revert a. induction s as [s IH] using spec_ind'. intros a Ha Ht.
  destruct s as [k cn ci fi fn o fu t v ng ad sid rev cs]. cbn [children] in IH. cbn [discrete_values s_kind children op] in Ha.
  destruct (match k with K_constant => _ | _ => _ end) eqn:Hconst.
  { destruct k; try done. destruct cs as [|l [|r [|]]]; try done.
    apply andb_true_iff in Hconst as [[Ho Hl]%andb_true_iff Hr]. apply bool_decide_eq_true in Ho, Hr.
    exact (constant_listed l r a o Hl Hr Ha Ht Ho). }
  destruct (boolean_column_leaf _) as [[name x]|] eqn:Hleaf.
  { case_bool_decide as Hn; [|done]. injection Ha as <-. subst name. apply leaf_true in Hleaf; [|done].
    exists (V_bool x), T_bool. split; [by left|]. rewrite Hleaf. apply eq_bool. }
  destruct k; try done.
  - apply and_true in Ht; [|done]. cbn in Ht. clear Hconst Hleaf.
    induction cs as [|c cs IHcs]; [done|]. inversion_clear IH as [|? ? Hc IH']. inversion_clear Ht as [|? ? Htc Hts].
    destruct (discrete_values column c) as [a'|] eqn:Hd; [injection Ha as ->; by apply Hc|by apply IHcs].
  - apply or_true in Ht; [|done]. cbn in Ht. apply bind_Some in Ha as (arrays & Hl & Ha).
    case_bool_decide; [done|]. destruct (concatenate arrays) as [|all] eqn:Hcat; [done|].
    destruct (unique all) as [|u] eqn:Hu; [done|]. injection Ha as <-.
    eapply union_listed; [done..|]. by eapply or_loop_listed.
  - destruct cs as [|c cs]; [done|]. destruct ng; [done|]. cbn in Ha.
    destruct (is_direct_column c column) eqn:Hd; [|done]. subst v. destruct cs; [|done]. cbn in Ht.
    rewrite (direct_value _ Hd), (direct_type _ Hd), value_type_idemp in Ht. apply in_true in Ht as (w & Hw & Ht). exists w. eexists. split; [exact Hw|exact Ht].
Qed.

Lemma column_values_listed specs a :
  column_values column specs = Some a → Forall (λ s, true_of s) specs → listed a.
Proof using ArrowLaws0 ComputeLaws0 Hfield Hunique.
  intros Ha Ht. induction Ht as [|s specs Hs _ IH]; [done|]. cbn in Ha.
  destruct (discrete_values column s) as [a'|] eqn:Hd; [injection Ha as ->|by apply IH].
  by eapply discrete_values_listed.
Qed.

End sound.
(** ** The projections are sound *)

Section theorems.
Context `{A : Arrow} `{!ArrowLaws A} `{C : Compute} `{!ComputeLaws C}.

Lemma row_column_typed b i f row :
  batch_ok b → b_schema b !! i = Some f → row ∈ batch_rows b →
  value_typed (f_type f) (default V_null (row !! i)).
Proof using Type.
  intros [B1 B2 B3 B4 B5] Hf (k & -> & Hk%elem_of_seq)%list_elem_of_fmap.
  destruct (b_columns b !! i) as [c|] eqn:Hc.
  2: { apply lookup_ge_None in Hc. apply lookup_lt_Some in Hf. lia. }
  rewrite (row_of_lookup b i c k Hc). assert (c ∈ b_columns b) as Hin by (by eapply list_elem_of_lookup_2).
  rewrite <- (B2 i f c Hf Hc).
  destruct (lookup_lt_is_Some_2 (a_values c) k) as [v Hv]; [rewrite B3 by done; lia|].
  rewrite Hv. cbn. specialize (B4 c Hin). unfold array_typed in B4. rewrite Forall_lookup in B4. by eapply B4.
Qed.

Lemma passes_true fields specs row :
  passes fields specs row = true → Forall (λ s, is_true (row_eval fields s row) = true) specs.
Proof using Type.
  unfold passes. rewrite forallb_forall. intros H. apply Forall_forall. intros s Hs. by apply H, list_elem_of_In.
Qed.

(** C19. The bounds of a column are never wrong: on every row all the filters are
    TRUE of, the value of an integer column of that name is not NULL and within
    the bounds [column_bounds] gives -- whatever the nesting of AND and OR, on
    which side the literal stands, and at the ends of the int64 range. *)
Theorem column_bounds_sound specs b i f row :
  batch_ok b → b_schema b !! i = Some f →
  (∀ j, f_name <$> b_schema b !! j = Some (f_name f) → j = i) →
  is_integer (value_type (f_type f)) = true → Forall (every payload_ok) specs →
  row ∈ batch_rows b → passes (b_schema b) specs row = true →
  respects (column_bounds (f_name f) specs) (default V_null (row !! i)).
Proof using Type*.
  intros Hb Hf Hu Hi Hp Hrow Ht. apply (column_bounds_within (b_schema b) i f Hf Hu row Hi); [|..|done|by apply passes_true].
  - apply Hb. by eapply list_elem_of_lookup_2.
  - by eapply row_column_typed.
Qed.

(** The values of a column are complete: where [column_values] enumerates,
    every row all the filters are TRUE of has a value that equals one of them, so a
    scan that opens only the files of those values loses no row. *)
Theorem column_values_sound specs fields i f row a :
  fields !! i = Some f → (∀ j, f_name <$> fields !! j = Some (f_name f) → j = i) →
  column_values (f_name f) specs = Some a → passes fields specs row = true →
  ∃ v u, v ∈ a_values a ∧ is_true (compare_row (value_type (f_type f)) u "eq" (default V_null (row !! i)) v) = true.
Proof using Type*.
  intros Hf Hu Ha Ht. eapply (column_values_listed fields i f Hf Hu row); [exact Ha|by apply passes_true].
Qed.

(** The comparison [column = TRUE] or [column = FALSE]. *)
Definition equals (c : Spec) (x : bool) : Spec :=
  with_op "eq" (with_children [c; with_value (Some (mkArray T_bool [V_bool x])) (make K_literal)]
    (Some T_bool) (make K_constant)).

(** A BOOLEAN column standing as a predicate is exactly the comparison with
    TRUE, and its negation exactly the comparison with FALSE: they are TRUE of the
    same rows, NULLs included. *)
Theorem boolean_leaf_exact s name x :
  boolean_column_leaf s = Some (name, x) →
  ∃ c, is_direct_column c name = true ∧ ∀ fields row,
    (row_eval fields c row = V_null ∨ ∃ y, row_eval fields c row = V_bool y) →
    is_true (row_eval fields s row) = is_true (row_eval fields (equals c x) row).
Proof using ComputeLaws0.
  intros (c & Hk & Hn & _ & Hs)%boolean_column_leaf_inv. exists c.
  split; [unfold is_direct_column; by rewrite Hk, Hn, !bool_decide_true|].
  intros fields row Hv.
  change (row_eval fields (equals c x) row) with (compare_row (value_type (etype fields c)) T_bool "eq" (row_eval fields c row) (V_bool x)).
  assert (is_true (row_eval fields s row) =
    is_true (if x then row_eval fields c row else kleene_not (row_eval fields c row))) as ->.
  { destruct x; [by subst|]. destruct Hs as [Hk' Hcs]. destruct s. cbn in Hk', Hcs. by subst. }
  destruct Hv as [-> |[y ->]]; [by destruct x|].
  change (compare_row (value_type (etype fields c)) T_bool "eq" (V_bool y) (V_bool x)) with (kernel "equal" [value_type (etype fields c); T_bool] [V_bool y; V_bool x]).
  rewrite kernel_equal_bool. by destruct x, y.
Qed.

End theorems.

(** ** At work: [x >= 3 AND ok] *)

Definition sample_leaf : Spec :=
  mkSpec K_column "ok" 1 0 "" "" "" (Some T_bool) None false false "" 0 [].
Definition sample_and : Spec := with_children [sample_filter; sample_leaf] (Some T_bool) (make K_and).

Lemma sample_and_ok : every payload_ok sample_and.
Proof.
  constructor; [by split|]. constructor; [apply sample_filter_ok|constructor; [|constructor]].
  constructor; [by split|constructor].
Qed.

Lemma column_bounds_sound_witness :
  @column_bounds toy_compute "x" [sample_and] = mkBounds (Some 3) None ∧
  respects (@column_bounds toy_compute "x" [sample_and]) (V_int 5).
Proof.
  split; [reflexivity|].
  apply (@column_bounds_sound toy_arrow _ toy_compute _ [sample_and] sample_batch 0 (Field "x" T_int64 true [])
    [V_int 5; V_bool true]).
  - apply sample_batch_ok.
  - reflexivity.
  - intros [|[|j]]; cbn; done.
  - reflexivity.
  - constructor; [apply sample_and_ok|constructor].
  - apply (list_elem_of_lookup_2 _ 2). reflexivity.
  - reflexivity.
Defined.

Lemma column_values_sound_witness :
  @column_values toy_compute "ok" [sample_and] = Some (mkArray T_bool [V_bool true]) ∧
  ∃ v u, v ∈ [V_bool true] ∧ is_true (@compare_row toy_compute T_bool u "eq" (V_bool true) v) = true.
Proof.
  split; [reflexivity|].
  apply (@column_values_sound toy_arrow _ toy_compute _ [sample_and] (b_schema sample_batch) 1
    (Field "ok" T_bool true []) [V_int 5; V_bool true] (mkArray T_bool [V_bool true])).
  - reflexivity.
  - intros [|[|j]]; cbn; done.
  - reflexivity.
  - reflexivity.
Defined.

Lemma boolean_leaf_exact_witness :
  boolean_column_leaf sample_leaf = Some ("ok"%string, true) ∧ ∃ c, is_direct_column c "ok" = true.
Proof.
  split; [reflexivity|].
  destruct (@boolean_leaf_exact toy_arrow toy_compute _ sample_leaf "ok" true eq_refl) as (c & H & _).
  by exists c.
Defined.

End PushdownBounds.
