(* ===== verification/PushdownState.v ===== *)
(** * The filters of a scan: snapshot and deltas ([src/pushdown.cpp])

    [PushdownFilters::parse] reads the snapshot a scan starts with and
    [apply_delta] the changes sent while it runs.  The theorems: a delta never
    touches a required filter, its revisions only grow, a stale or repeated
    update changes nothing, and a rejected delta leaves the filters as they
    were. *)

From Stdlib Require Import SpecFloat.
From S2P Require Import Prelude Text Arrow Json Pushdown.
Import Json Pushdown.

Module PushdownState.

(** ** The batch that carries a document *)

Definition starts (prefix s : string) : bool :=
  bool_decide (take (length (bs prefix)) (bs s) = bs prefix).

(** [value_N], [type_N] or [artifact_N] with [N] in canonical decimal. *)
Definition canonical_payload_name (name : string) : bool :=
  (fix each (prefixes : list string) : bool :=
     match prefixes with
     | [] => false
     | prefix :: prefixes =>
         if negb (starts prefix name) then each prefixes else
         let suffix := drop (length (bs prefix)) (bs name) in
         if bool_decide (length suffix = 0%nat) ||
            (bool_decide (1 < length suffix)%nat && bool_decide (head suffix = Some "0"%char))
         then false else forallb is_digit suffix
     end) ["value_"; "type_"; "artifact_"]%string.

Definition metadata_value (metadata : option (list (string * string))) (key : string) : result string :=
  match metadata ≫= (λ m, meta_get m key) with
  | Some v => Ok v
  | None => invalid ("missing schema metadata '" +:+ key +:+ "'")
  end.

Definition session_keys : list string :=
  ["vgi_time_zone"; "vgi_calendar"; "vgi_default_collation"; "vgi_ieee_floating_point_ops";
   "vgi_integer_division"; "vgi_context_provider_fingerprint"]%string.

(** The payload columns: canonical, distinct, the types all NULL. *)
Fixpoint validate_payload_fields (names : gset string) (fields : list field) (columns : list array)
    : result unit :=
  match fields with
  | [] => Ok tt
  | f :: fields =>
      if bool_decide (f_name f ∈ names) || negb (canonical_payload_name (f_name f))
      then invalid ("noncanonical or duplicate payload field '" +:+ f_name f +:+ "'")
      else if starts "type_" (f_name f) &&
              negb (is_null match columns with c :: _ => default V_null (head (a_values c)) | [] => V_null end)
      then invalid "type payload must contain NULL"
      else validate_payload_fields ({[f_name f]} ∪ names) fields (tail columns)
  end.

(** The value of [filter_spec]. *)
Definition filter_text (b : batch) : option bytes :=
  match b_columns b with
  | c :: _ => match a_values c with V_text s :: _ => Some s | _ => None end
  | [] => None
  end.

Definition validate_batch (b : option batch) : result string :=
  match b with
  | None => invalid "filter RecordBatch must contain exactly one row"
  | Some b =>
      if negb (b_rows b =? 1) then invalid "filter RecordBatch must contain exactly one row" else
      match b_schema b with
      | [] => invalid "filter RecordBatch has no filter_spec field"
      | first :: rest =>
          if negb (bool_decide (f_name first = "filter_spec"%string)) ||
             negb match f_type first with T_string => true | _ => false end || f_nullable first
          then invalid "first field must be filter_spec: utf8 not null" else
          match filter_text b with
          | None => invalid "filter_spec value must not be NULL"
          | Some text =>
              if kMaxJsonBytes <? Z.of_nat (length text) then invalid "filter JSON exceeds 1 MiB" else
              validate_payload_fields {["filter_spec"%string]} rest (tail (b_columns b));;
              encoding ← metadata_value (b_metadata b) "vgi_filter_encoding";
              (if bool_decide (encoding = "vgi.filters.v2"%string) then Ok tt
               else invalid "unsupported filter encoding/version");;
              version ← metadata_value (b_metadata b) "vgi_filter_version";
              (if bool_decide (version = "2"%string) then Ok tt
               else invalid "unsupported filter encoding/version");;
              context ← metadata_value (b_metadata b) "vgi_evaluation_context";
              if negb (bool_decide (context = "vgi.none.v1"%string))
              then invalid ("evaluation context '" +:+ context +:+ "' was not advertised")
              else if existsb (λ key, bool_decide (is_Some (b_metadata b ≫= λ m, meta_get m key))) session_keys
              then invalid "vgi.none.v1 forbids session-context metadata"
              else Ok context
          end
      end
  end.

Definition json_is (j : json) (s : string) : bool :=
  match j with J_string t => bool_decide (t = s) | _ => false end.

Definition validate_header (document : json) (kind_ member : string) : result unit :=
  require_keys document ["encoding"; "semantics"; "kind"; member] [] "filter document";;
  encoding ← at_ document "encoding";
  if negb (json_is encoding "vgi.filters.v2") then invalid "document encoding must be vgi.filters.v2" else
  semantics ← at_ document "semantics";
  if negb (json_is semantics "vgi.duckdb.standard.v1") then invalid "unsupported filter semantics" else
  k ← at_ document "kind";
  if negb (json_is k kind_) then invalid ("expected a " +:+ kind_ +:+ " filter document") else
  m ← at_ document member;
  if negb (is_array m) then invalid (member +:+ " must be an array") else Ok tt.

(** ** One predicate *)

Definition sources : list string := ["query"; "join"; "top_n"; "split_refinement"; "other"]%string.

Section predicate.
Context `{Arrow}.
Variables (b : batch) (join_keys : list batch) (output_schema : option (list field)).

Definition parse_predicate (item : json) (delta : bool) : P Spec :=
  lift (require_keys item ["id"; "revision"; "mode"; "source"; "expression"]
          (if delta then ["operation"%string] else []) "predicate");;
  node ← lift (at_ item "expression");
  e ← expression b join_keys output_schema kMaxDepth true node;
  id ← lift (required_string item "id" "predicate");
  guard (128 <? Z.of_nat (String.length id)) "predicate ID exceeds 128 bytes";;
  revision ← lift (required_uint item "revision" "predicate");
  mode ← lift (required_string item "mode" "predicate");
  guard (negb (bool_decide (mode = "required"%string)) && negb (bool_decide (mode = "advisory"%string)))
    "unknown predicate mode";;
  guard (delta && negb (bool_decide (mode = "advisory"%string))) "delta upserts must be advisory";;
  let advisory := bool_decide (mode = "advisory"%string) in
  source ← lift (required_string item "source" "predicate");
  guard (negb (bool_decide (source ∈ sources))) "unknown predicate source";;
  guard (bool_decide (s_kind e = K_runtime_filter) && negb advisory) "runtime_filter predicates must be advisory";;
  guard (negb (bool_decide (s_kind e = K_runtime_filter)) && negb (boolean_type (data_type e)))
    "predicate root must resolve to BOOLEAN";;
  mret (with_identity id revision advisory e).

End predicate.

(** ** The flattened view *)

Inductive filter_kind : Type := Constant | In | IsNull | IsNotNull | JoinKeys | Other.

Record Filter := mkFilter { fl_kind : filter_kind; fl_column : string; fl_op : string }.

Definition kind_of (k : kind) : filter_kind :=
  match k with
  | K_constant => Constant
  | K_in => In
  | K_is_null => IsNull
  | K_is_not_null => IsNotNull
  | _ => Other
  end.

Fixpoint collect_columns (s : Spec) : list string :=
  (if bool_decide (s_kind s = K_column) then [column_name s] else []) ++
  (fix each (cs : list Spec) : list string :=
     match cs with [] => [] | c :: cs => collect_columns c ++ each cs end) (children s).

Fixpoint flatten (s : Spec) : list Filter :=
  match s_kind s with
  | K_and | K_or =>
      (fix each (cs : list Spec) : list Filter :=
         match cs with [] => [] | c :: cs => flatten c ++ each cs end) (children s)
  | k =>
      let columns := collect_columns s in
      (if bool_decide (length columns = 0%nat) then [mkFilter (kind_of k) (column_name s) (op s)] else []) ++
      map (λ column, mkFilter (kind_of k) column (op s)) columns
  end.

(** ** The state of a scan *)

Record PushdownFilters := mkFilters {
  filters : list Filter;
  specs : list Spec;
  revisions : gmap string Z;
  required_ids : gset string;
  join_keys_ : list batch;
  output_schema_ : option (list field);
  evaluation_context : string;
}.

Definition flatten_all (specs : list Spec) : list Filter := concat (map flatten specs).

Section state.
Context `{Arrow} `{JsonParser}.

(** The join-key batches. *)
Fixpoint decode_join_keys (l : list bytes) : result (list batch) :=
  match l with
  | [] => Ok []
  | x :: l =>
      b ← decode_ipc x;
      match b with
      | None => invalid "join-key IPC stream contains no batch"
      | Some b => bs ← decode_join_keys l; Ok (b :: bs)
      end
  end.

(** The snapshot's loop over the predicates; [n] counts the nodes. *)
Fixpoint snapshot_loop (b : batch) (items : list json) (st : PushdownFilters) (n : Z) : result PushdownFilters :=
  match items with
  | [] => Ok st
  | item :: items =>
      '(p, n) ← parse_predicate b (join_keys_ st) (output_schema_ st) item false n;
      if negb (revision p =? 0) then invalid "snapshot predicate revisions must be zero"
      else if bool_decide (is_Some (revisions st !! s_id p)) then invalid "duplicate predicate ID"
      else snapshot_loop b items
             (mkFilters (filters st) (specs st ++ [p]) (<[s_id p := 0]> (revisions st))
                (if advisory p then required_ids st else {[s_id p]} ∪ required_ids st)
                (join_keys_ st) (output_schema_ st) (evaluation_context st)) n
  end.

(** The document of a batch: its text is what [validate_batch] found. *)
Definition document (b : batch) : result json :=
  match filter_text b with
  | Some text => document_for (str text)
  | None => invalid "filter_spec value must not be NULL"
  end.

Definition parse (ipc_bytes : bytes) (join_key_batches : list bytes) (output_schema : option (list field))
    : result PushdownFilters :=
  keys ← decode_join_keys join_key_batches;
  let empty := mkFilters [] [] ∅ ∅ keys output_schema "" in
  if bool_decide (length ipc_bytes = 0%nat) then Ok empty
  else if kMaxPayloadBytes <? Z.of_nat (length ipc_bytes) then invalid "filter payload exceeds 16 MiB" else
  batch_ ← decode_ipc ipc_bytes;
  context ← validate_batch batch_;
  match batch_ with
  | None => invalid "filter RecordBatch must contain exactly one row"
  | Some b =>
      d ← document b;
      validate_header d "snapshot" "predicates";;
      predicates ← at_ d "predicates";
      if kMaxPredicates <? Z.of_nat (length (elements_of predicates)) then invalid "snapshot exceeds predicate limit"
      else if negb (bool_decide (length (elements_of predicates) = 0%nat)) &&
              negb (bool_decide (is_Some output_schema))
      then invalid "non-empty snapshot requires the authoritative unprojected bind output schema" else
      st ← snapshot_loop b (elements_of predicates) (mkFilters [] [] ∅ ∅ keys output_schema context) 0;
      Ok (mkFilters (flatten_all (specs st)) (specs st) (revisions st) (required_ids st) (join_keys_ st)
            (output_schema_ st) (evaluation_context st))
  end.

(** One update: what to do and to which id. *)
Record update := mkUpdate { u_id : string; u_revision : Z; u_spec : option Spec }.

(** Reading an update; [seen] are the ids the delta has named before. *)
Definition read_update (b : batch) (st : PushdownFilters) (seen : gset string) (j : json) : P update :=
  guard (negb (is_object j)) "delta update must be an object";;
  guard (negb (contains j "operation") || negb (contains j "id") || negb (contains j "revision"))
    "delta update is missing required properties";;
  operation ← lift (required_string j "operation" "update");
  id ← lift (required_string j "id" "update");
  revision ← lift (required_uint j "revision" "update");
  guard (128 <? Z.of_nat (String.length id)) "predicate ID exceeds 128 bytes";;
  guard (bool_decide (id ∈ seen)) "duplicate delta predicate ID";;
  guard (bool_decide (id ∈ required_ids st)) "delta targets required predicate";;
  if bool_decide (operation = "remove"%string) then
    lift (require_keys j ["operation"; "id"; "revision"] [] "remove update");;
    mret (mkUpdate id revision None)
  else if bool_decide (operation = "upsert"%string) then
    lift (require_keys j ["operation"; "id"; "revision"; "mode"; "source"; "expression"] [] "upsert update");;
    p ← parse_predicate b (join_keys_ st) (output_schema_ st) j true;
    mret (mkUpdate id revision (Some p))
  else lift (invalid "delta operation must be remove or upsert").

(** Its effect: none for a revision that is not new. *)
Definition stale (u : update) (old : option Z) : bool :=
  match old with Some r => u_revision u <=? r | None => false end.

Definition apply_update (u : update) (st : PushdownFilters) : PushdownFilters :=
  if stale u (revisions st !! u_id u) then st
  else
    mkFilters (filters st)
      (filter (λ s, s_id s ≠ u_id u) (specs st) ++ match u_spec u with Some p => [p] | None => [] end)
      (<[u_id u := u_revision u]> (revisions st)) (required_ids st) (join_keys_ st) (output_schema_ st)
      (evaluation_context st).

Fixpoint delta_loop (b : batch) (updates : list json) (seen : gset string) (next : PushdownFilters) (n : Z)
    : result PushdownFilters :=
  match updates with
  | [] => Ok next
  | j :: updates =>
      '(u, n) ← read_update b next seen j n;
      delta_loop b updates ({[u_id u]} ∪ seen) (apply_update u next) n
  end.

Definition apply_delta (ipc_bytes : bytes) (st : PushdownFilters) : result PushdownFilters :=
  if bool_decide (length ipc_bytes = 0%nat) then invalid "dynamic filter delta is empty"
  else if kMaxPayloadBytes <? Z.of_nat (length ipc_bytes) then invalid "filter payload exceeds 16 MiB" else
  batch_ ← decode_ipc ipc_bytes;
  context ← validate_batch batch_;
  if negb (bool_decide (context = evaluation_context st)) then invalid "evaluation context changed within one scan" else
  match batch_ with
  | None => invalid "filter RecordBatch must contain exactly one row"
  | Some b =>
      d ← document b;
      validate_header d "delta" "updates";;
      updates ← at_ d "updates";
      next ← delta_loop b (elements_of updates) ∅ st 0;
      if kMaxPredicateIds <? Z.of_nat (base.size (revisions next)) then invalid "delta exceeds predicate-ID limit" else
      Ok (mkFilters (flatten_all (specs next)) (specs next) (revisions next) (required_ids next)
            (join_keys_ next) (output_schema_ next) (evaluation_context next))
  end.

(** What a scan holds after a delta: the new filters, or the old ones when the
    delta is refused. *)
Definition deliver (st : PushdownFilters) (ipc_bytes : bytes) : PushdownFilters :=
  match apply_delta ipc_bytes st with Ok st' => st' | Throw _ => st end.

End state.

(** ** Invariant *)

(** The identities are distinct, the required ones are known, each filter is at
    the revision recorded for it, and the trees are what the parser makes. *)
Record core (st : PushdownFilters) `{Arrow} : Prop := {
  c_nodup : NoDup (map s_id (specs st));
  c_required id : id ∈ required_ids st ↔ ∃ s, s ∈ specs st ∧ s_id s = id ∧ advisory s = false;
  c_revision s : s ∈ specs st → revisions st !! s_id s = Some (revision s);
  c_wf : Forall (every (wf_node (output_schema_ st))) (specs st);
  c_runtime s : s ∈ specs st → s_kind s = K_runtime_filter → advisory s = true;
}.

Record inv (st : PushdownFilters) `{Arrow} : Prop := {
  i_core : core st;
  i_filters : filters st = flatten_all (specs st);
}.

Definition required_specs (st : PushdownFilters) : list Spec := filter (λ s, advisory s = false) (specs st).

(** What a scan keeps for its whole life. *)
Definition same_scan (st st' : PushdownFilters) : Prop :=
  required_ids st' = required_ids st ∧ join_keys_ st' = join_keys_ st ∧
  output_schema_ st' = output_schema_ st ∧ evaluation_context st' = evaluation_context st.

Definition revisions_grow (st st' : PushdownFilters) : Prop :=
  ∀ id r, revisions st !! id = Some r → ∃ r', revisions st' !! id = Some r' ∧ r ≤ r'.

#[global] Instance same_scan_preorder : PreOrder same_scan.
Proof. split; [by intros st|]. intros x y z (? & ? & ? & ?) (? & ? & ? & ?). split_and!; congruence. Qed.

#[global] Instance revisions_grow_preorder : PreOrder revisions_grow.
Proof.
  split; [intros st id r H; by exists r|]. intros x y z Hxy Hyz id r (r1 & H1 & ?)%Hxy.
  destruct (Hyz _ _ H1) as (r2 & ? & ?). exists r2. split; [done|lia].
Qed.

Section lemmas.
Context `{A : Arrow} `{J : JsonParser}.

Lemma required_string_where j k w w' s : required_string j k w = Ok s → required_string j k w' = Ok s.
Proof using Type.
  unfold required_string. intros (v & -> & H)%bind_Ok. cbn. destruct v; try done. by case_bool_decide.
Qed.

Lemma required_uint_where j k w w' s : required_uint j k w = Ok s → required_uint j k w' = Ok s.
Proof using Type. unfold required_uint. intros (v & -> & H)%bind_Ok. cbn. by destruct v. Qed.

Lemma every_root (Q : Spec → Prop) s s' : every Q s → children s' = children s → Q s' → every Q s'.
Proof using Type. intros [? _ Hc] E HQ. constructor; [done|]. by rewrite E. Qed.

Lemma parse_predicate_Ok b jk os item delta n p n' :
  parse_predicate b jk os item delta n = Ok (p, n') →
  required_string item "id" "predicate" = Ok (s_id p) ∧
  required_uint item "revision" "predicate" = Ok (revision p) ∧
  (delta = true → advisory p = true) ∧ (s_kind p = K_runtime_filter → advisory p = true) ∧
  every (wf_node os) p.
Proof using Type.
  unfold parse_predicate. intros Hp. inv_P.
  match goal with H : expression _ _ _ _ _ _ _ = Ok _ |- _ => apply expression_parsed in H as [Hw _ _ _ _ _] end.
  cbn. split_and!; [done|done| | |].
  - intros ->. match goal with H : true && _ = false |- _ => cbn in H; by apply negb_false_iff in H end.
  - intros Hk. match goal with H : bool_decide (s_kind _ = _) && _ = false |- _ =>
      rewrite bool_decide_true in H by done; cbn in H; by apply negb_false_iff in H end.
  - eapply every_root; [exact Hw|done|]. inversion Hw as [? Hq _]. exact Hq.
Qed.

Lemma read_update_Ok b st seen j n u n' :
  read_update b st seen j n = Ok (u, n') →
  (u_id u ∉ seen) ∧ (u_id u ∉ required_ids st) ∧
  ∀ p, u_spec u = Some p → s_id p = u_id u ∧ revision p = u_revision u ∧ advisory p = true ∧
    every (wf_node (output_schema_ st)) p.
Proof using Type.
  unfold read_update. intros Hu. inv_P. case_bool_decide; inv_P; [by cbn|].
  case_bool_decide; inv_P. cbn. split_and!; [done..|]. intros p [= <-].
  match goal with H : parse_predicate _ _ _ _ _ _ = Ok _ |- _ => apply parse_predicate_Ok in H as (Hi & Hr & Ha & _ & Hw) end.
  repeat match goal with
  | H : required_string _ "id" "update" = _ |- _ => apply (required_string_where _ _ _ "predicate") in H
  | H : required_uint _ "revision" "update" = _ |- _ => apply (required_uint_where _ _ _ "predicate") in H
  end.
  split_and!; [congruence|congruence|by apply Ha|done].
Qed.

(** Reading the updates of a delta does not depend on the advisory filters. *)
Fixpoint read_all (b : batch) (st : PushdownFilters) (js : list json) (seen : gset string) (n : Z)
    : result (list update) :=
  match js with
  | [] => Ok []
  | j :: js =>
      '(u, n) ← read_update b st seen j n;
      us ← read_all b st js ({[u_id u]} ∪ seen) n;
      Ok (u :: us)
  end.

Definition apply_all (us : list update) (st : PushdownFilters) : PushdownFilters :=
  foldl (λ st u, apply_update u st) st us.

Lemma read_update_scan b st st' seen j n :
  same_scan st st' → read_update b st' seen j n = read_update b st seen j n.
Proof using Type. unfold read_update. intros (-> & -> & -> & _). done. Qed.

Lemma read_all_scan b st st' js seen n :
  same_scan st st' → read_all b st' js seen n = read_all b st js seen n.
Proof using Type.
  intros Hs. revert seen n. induction js as [|j js IH]; intros seen n; [done|]. cbn.
  rewrite (read_update_scan b st st') by done. destruct (read_update _ _ _ _ _) as [[u n']|]; cbn; [|done].
  by rewrite IH.
Qed.

Lemma apply_update_scan u st : same_scan st (apply_update u st).
Proof using Type.
  unfold apply_update. destruct (stale _ _); [reflexivity|by split_and!].
Qed.

Lemma apply_all_scan us st : same_scan st (apply_all us st).
Proof using Type.
  revert st. induction us as [|u us IH]; intros st; [done|]. cbn.
  transitivity (apply_update u st); [apply apply_update_scan|apply IH].
Qed.

Lemma delta_loop_Ok b js seen next n st' :
  delta_loop b js seen next n = Ok st' ↔
  ∃ us, read_all b next js seen n = Ok us ∧ st' = apply_all us next.
Proof using Type.
  revert seen next n. induction js as [|j js IH]; intros seen next n; cbn [delta_loop read_all].
  - split; [intros [= <-]; by exists []|]. by intros (us & [= <-] & ->).
  - split.
    + intros ([u n'] & Hu & H)%bind_Ok. apply IH in H as (us & Hus & ->).
      rewrite (read_all_scan b next) in Hus by apply apply_update_scan.
      exists (u :: us). split; [|done]. rewrite Hu. cbn. by rewrite Hus.
    + intros (us & ([u n'] & Hu & H)%bind_Ok & ->). apply bind_Ok in H as (us' & Hus & [= <-]).
      rewrite Hu. cbn. apply IH. exists us'. split; [|done].
      by rewrite (read_all_scan b next) by apply apply_update_scan.
Qed.

(** What reading a delta establishes of its updates. *)
Definition update_ok (st : PushdownFilters) (u : update) : Prop :=
  (u_id u ∉ required_ids st) ∧
  ∀ p, u_spec u = Some p → s_id p = u_id u ∧ revision p = u_revision u ∧ advisory p = true ∧
    every (wf_node (output_schema_ st)) p.

Lemma read_all_Ok b st js seen n us :
  read_all b st js seen n = Ok us →
  Forall (update_ok st) us ∧ NoDup (map u_id us) ∧ ∀ u, u ∈ us → u_id u ∉ seen.
Proof using Type.
  revert seen n us. induction js as [|j js IH]; intros seen n us; cbn; intros Hr.
  - injection Hr as <-. split_and!; [constructor|constructor|by intros ? ?%elem_of_nil].
  - apply bind_Ok in Hr as ([u n'] & Hu & Hr). apply bind_Ok in Hr as (us' & Hus & [= <-]).
    apply read_update_Ok in Hu as (H1 & H2). apply IH in Hus as (I1 & I2 & I3). cbn.
    split_and!; [by constructor| |].
    + constructor; [|done]. intros (v & Hv & Hin)%list_elem_of_fmap. specialize (I3 v Hin). set_solver.
    + intros v [->|Hv]%elem_of_cons; [done|]. specialize (I3 v Hv). set_solver.
Qed.

(** ** One update *)

Lemma apply_update_core u st : core st → update_ok st u → core (apply_update u st).
Proof using Type.
  intros [C1 C2 C3 C4 C5] [Hreq Hspec]. unfold apply_update. destruct (stale _ _); [by split|].
  assert (∀ s, s ∈ filter (λ s, s_id s ≠ u_id u) (specs st) ++ match u_spec u with Some p => [p] | None => [] end →
    (s ∈ specs st ∧ s_id s ≠ u_id u) ∨ u_spec u = Some s) as Hin.
  { intros s [[H1 H2]%list_elem_of_filter|H]%elem_of_app; [by left|right].
    destruct (u_spec u); [by apply list_elem_of_singleton in H as ->|by apply elem_of_nil in H]. }
  split; cbn [specs required_ids revisions output_schema_].
  - rewrite map_app. apply NoDup_app. split_and!.
    + by apply NoDup_map_filter.
    + intros id (s & -> & [Hs _]%list_elem_of_filter)%list_elem_of_fmap.
      destruct (u_spec u) as [p|]; cbn; [|by intros ?%elem_of_nil].
      destruct (Hspec p eq_refl) as (Hp & _). rewrite Hp. by intros ?%list_elem_of_singleton.
    + destruct (u_spec u); cbn; [apply NoDup_singleton|constructor].
  - intros id. rewrite C2. split; intros (s & Hs & Hid & Ha).
    + exists s. split_and!; [|done..]. apply elem_of_app. left. apply list_elem_of_filter. split; [|done].
      intros E. apply Hreq, C2. by exists s.
    + apply Hin in Hs as [[Hs _]|Hs]; [by exists s|]. destruct (Hspec s Hs) as (_ & _ & Ha' & _). congruence.
  - intros s [[Hs Hne]|Hs]%Hin; [rewrite lookup_insert_ne by done; by apply C3|].
    destruct (Hspec s Hs) as (-> & -> & _). by rewrite lookup_insert_eq.
  - apply Forall_forall. intros s [[Hs _]|Hs]%Hin; [by rewrite Forall_forall in C4; apply C4|].
    by destruct (Hspec s Hs) as (_ & _ & _ & Hw).
  - intros s [[Hs _]|Hs]%Hin; [by apply C5|]. by destruct (Hspec s Hs) as (_ & _ & Ha & _).
Qed.

Lemma apply_update_required u st :
  core st → update_ok st u → required_specs (apply_update u st) = required_specs st.
Proof using Type.
  intros [C1 C2 C3 C4 C5] [Hreq Hspec]. unfold apply_update, required_specs. destruct (stale _ _); [done|].
  cbn [specs]. rewrite filter_app.
  assert (filter (λ s, advisory s = false) match u_spec u with Some p => [p] | None => [] end = []) as ->.
  { destruct (u_spec u) as [p|]; [|done]. destruct (Hspec p eq_refl) as (_ & _ & Ha & _).
    rewrite filter_cons_False; [done|congruence]. }
  rewrite app_nil_r, list_filter_filter. 
  assert (∀ s, s ∈ specs st → advisory s = false → s_id s ≠ u_id u) as Hne.
  { intros s Hs Ha E. apply Hreq, C2. by exists s. }
  clear C1 C2 C3 C4 C5. induction (specs st) as [|s l IH]; [done|].
  rewrite !filter_cons. rewrite IH by (intros x Hx; apply Hne; by right).
  destruct (decide (advisory s = false)) as [Ha|Ha].
  - rewrite decide_True; [done|]. split; [done|]. apply Hne; [by left|done].
  - rewrite decide_False; [done|]. by intros [? ?].
Qed.

Lemma apply_update_grow u st : revisions_grow st (apply_update u st).
Proof using Type.
  unfold apply_update. destruct (stale _ _) eqn:Hs; [reflexivity|]. intros id r Hr. cbn.
  destruct (decide (u_id u = id)) as [<-|Hne].
  - exists (u_revision u). rewrite lookup_insert_eq. split; [done|]. rewrite Hr in Hs. cbn in Hs. lia.
  - exists r. by rewrite lookup_insert_ne.
Qed.

Lemma update_ok_scan st st' u : same_scan st st' → update_ok st u → update_ok st' u.
Proof using Type. unfold update_ok. intros (-> & _ & -> & _). done. Qed.

(** All of a delta's updates. *)
Lemma apply_all_ok us st :
  core st → Forall (update_ok st) us →
  core (apply_all us st) ∧ required_specs (apply_all us st) = required_specs st ∧
  revisions_grow st (apply_all us st).
Proof using Type.
  revert st. induction us as [|u us IH]; intros st Hc Hus; [split_and!; [done|done|reflexivity]|].
  inversion_clear Hus as [|? ? Hu Hus']. cbn.
  destruct (IH (apply_update u st)) as (I1 & I2 & I3).
  - by apply apply_update_core.
  - eapply Forall_impl; [exact Hus'|]. intros v. apply update_ok_scan, apply_update_scan.
  - split_and!; [done| |].
    + unfold apply_all in I2. rewrite I2. by apply apply_update_required.
    + etransitivity; [apply apply_update_grow|exact I3].
Qed.

(** After a delta every update it holds is stale. *)
Lemma apply_update_stale u st : stale u (revisions (apply_update u st) !! u_id u) = true.
Proof using Type.
  unfold apply_update. destruct (stale u (revisions st !! u_id u)) eqn:Hs; [done|]. cbn [revisions]. rewrite lookup_insert_eq. cbn. lia.
Qed.

Lemma stale_grow u st st' :
  revisions_grow st st' → stale u (revisions st !! u_id u) = true → stale u (revisions st' !! u_id u) = true.
Proof using Type.
  intros Hg. destruct (revisions st !! u_id u) as [r|] eqn:Hr; [|done]. cbn. intros Hs.
  destruct (Hg _ _ Hr) as (r' & -> & ?). cbn. lia.
Qed.

Lemma apply_all_grow us st : revisions_grow st (apply_all us st).
Proof using Type.
  revert st. induction us as [|u us IH]; intros st; [reflexivity|].
  etransitivity; [apply apply_update_grow|apply IH].
Qed.

Lemma apply_all_stale us st : Forall (λ u, stale u (revisions (apply_all us st) !! u_id u) = true) us.
Proof using Type.
  revert st. induction us as [|u us IH]; intros st; [done|].
  change (apply_all (u :: us) st) with (apply_all us (apply_update u st)). constructor; [|apply IH].
  apply (stale_grow u (apply_update u st)); [apply apply_all_grow|apply apply_update_stale].
Qed.

Lemma apply_all_same us st :
  Forall (λ u, stale u (revisions st !! u_id u) = true) us → apply_all us st = st.
Proof using Type.
  induction 1 as [|u us Hu _ IH]; [done|]. cbn. unfold apply_update. by rewrite Hu.
Qed.

(** ** Whole deltas and snapshots *)

Lemma apply_delta_Ok bytes st st' :
  apply_delta bytes st = Ok st' →
  ∃ b js us, read_all b st js ∅ 0 = Ok us ∧ 
    specs st' = specs (apply_all us st) ∧ revisions st' = revisions (apply_all us st) ∧
    same_scan st st' ∧ filters st' = flatten_all (specs st') ∧ Z.of_nat (base.size (revisions st')) ≤ kMaxPredicateIds.
Proof using Type.
  unfold apply_delta. intros Hd. case_bool_decide; [done|]. destruct (_ <? _); [done|].
  apply bind_Ok in Hd as (b & Hb & Hd). apply bind_Ok in Hd as (context & Hctx & Hd).
  destruct (negb _); [done|]. destruct b as [b|]; [|done].
  apply bind_Ok in Hd as (d & Hdoc & Hd). apply bind_Ok in Hd as ([] & Hh & Hd).
  apply bind_Ok in Hd as (ups & Hups & Hd). apply bind_Ok in Hd as (next & Hn & Hd).
  destruct (_ <? _) eqn:Hsize; [done|]. injection Hd as <-. apply delta_loop_Ok in Hn as (us & Hus & ->).
  exists b, (elements_of ups), us. cbn. split_and!; try done; [apply apply_all_scan..|lia].
Qed.

Lemma core_eq st st' : specs st' = specs st → revisions st' = revisions st → same_scan st st' → core st → core st'.
Proof using Type.
  intros Hs Hr (Hq & _ & Ho & _) [C1 C2 C3 C4 C5]. split; rewrite ?Hs, ?Hr, ?Hq, ?Ho; done.
Qed.

Lemma snapshot_loop_core b items st n st' :
  snapshot_loop b items st n = Ok st' → core st → core st'.
Proof using Type.
  revert st n. induction items as [|item items IH]; intros st n Hl; cbn [snapshot_loop] in Hl; [by injection Hl as <-|].
  intros Hc. apply bind_Ok in Hl as ([p n'] & Hp & Hl). destruct (revision p =? 0) eqn:Hr; [|done].
  case_bool_decide as Hid; [done|]. apply (IH _ _ Hl). clear Hl IH.
  apply parse_predicate_Ok in Hp as (_ & _ & _ & Hrun & Hw). destruct Hc as [C1 C2 C3 C4 C5].
  assert (∀ s, s ∈ specs st → s_id s ≠ s_id p) as Hne.
  { intros s Hs E. apply Hid. rewrite <- E, (C3 s Hs). by eexists. }
  split; cbn [specs required_ids revisions output_schema_].
  - rewrite map_app. apply NoDup_app. split_and!; [done| |apply NoDup_singleton].
    intros id (s & -> & Hs)%list_elem_of_fmap. cbn. intros E%list_elem_of_singleton. by apply (Hne s Hs).
  - intros id. split.
    + intros Hin. assert (id ∈ required_ids st ∨ (id = s_id p ∧ advisory p = false)) as [Hi|[-> Ha]].
      { destruct (advisory p); set_solver. }
      * apply C2 in Hi as (s & Hs & ?). exists s. split; [|done]. apply elem_of_app. by left.
      * exists p. split_and!; [|done|done]. apply elem_of_app. right. by apply list_elem_of_singleton.
    + intros (s & [Hs| ->%list_elem_of_singleton]%elem_of_app & <- & Ha).
      * assert (s_id s ∈ required_ids st) by (apply C2; by exists s). destruct (advisory p); set_solver.
      * rewrite Ha. set_solver.
  - intros s [Hs| ->%list_elem_of_singleton]%elem_of_app.
    + rewrite lookup_insert_ne; [by apply C3|]. intros E. by apply (Hne s Hs).
    + rewrite lookup_insert_eq. f_equal. lia.
  - apply Forall_app. split; [done|]. by constructor.
  - intros s [Hs| ->%list_elem_of_singleton]%elem_of_app; [by apply C5|done].
Qed.

Lemma core_empty keys os context : core (mkFilters [] [] ∅ ∅ keys os context).
Proof using Type.
  split; cbn; [constructor| |by intros s ?%elem_of_nil|constructor|by intros s ?%elem_of_nil].
  intros id. split; [set_solver|]. by intros (s & ?%elem_of_nil & _).
Qed.

Lemma parse_core ipc keys os st : parse ipc keys os = Ok st → inv st.
Proof using Type.
  unfold parse. intros Hp. apply bind_Ok in Hp as (jk & Hjk & Hp).
  case_bool_decide; [injection Hp as <-; split; [apply core_empty|done]|]. destruct (_ <? _); [done|].
  apply bind_Ok in Hp as (b & Hb & Hp). apply bind_Ok in Hp as (context & Hctx & Hp).
  destruct b as [b|]; [|done].
  apply bind_Ok in Hp as (d & Hdoc & Hp). apply bind_Ok in Hp as ([] & Hh & Hp).
  apply bind_Ok in Hp as (ps & Hps & Hp). destruct (_ <? _); [done|]. destruct (_ && _); [done|].
  apply bind_Ok in Hp as (next & Hn & [= <-]). split; [|done].
  apply snapshot_loop_core in Hn; [|apply core_empty]. by eapply (core_eq next).
Qed.

Lemma apply_delta_core bytes st st' :
  apply_delta bytes st = Ok st' → core st →
  inv st' ∧ same_scan st st' ∧ required_specs st' = required_specs st ∧ revisions_grow st st'.
Proof using Type.
  intros (b & js & us & Hus & Hs & Hr & Hscan & Hf & _)%apply_delta_Ok Hc.
  apply read_all_Ok in Hus as (Hok & _). destruct (apply_all_ok us st Hc Hok) as (H1 & H2 & H3).
  split_and!; [split; [|done]|done| |].
  - apply (core_eq (apply_all us st)); [done|done| |done].
    destruct Hscan as (? & ? & ? & ?), (apply_all_scan us st) as (? & ? & ? & ?). split_and!; congruence.
  - unfold required_specs in *. by rewrite Hs.
  - intros id r Hid. rewrite Hr. by apply H3.
Qed.

(** ** The filters by identity *)

Definition held (st : PushdownFilters) (id : string) : option Spec :=
  List.find (λ s, bool_decide (s_id s = id)) (specs st).

(** What one update does to what is held under its identity. *)
Definition supersede (u : update) (cell : option Spec * option Z) : option Spec * option Z :=
  if stale u cell.2 then cell else (u_spec u, Some (u_revision u)).

Lemma find_other (l : list Spec) id id' :
  id ≠ id' → List.find (λ s, bool_decide (s_id s = id')) (filter (λ s, s_id s ≠ id) l) =
  List.find (λ s, bool_decide (s_id s = id')) l.
Proof using Type.
  intros Hne. induction l as [|s l IH]; [done|]. rewrite filter_cons. cbn.
  destruct (decide (s_id s ≠ id)) as [H|H]; cbn; [by rewrite IH|].
  apply dec_stable in H. rewrite bool_decide_false by congruence. done.
Qed.

Lemma find_gone (l : list Spec) id : List.find (λ s, bool_decide (s_id s = id)) (filter (λ s, s_id s ≠ id) l) = None.
Proof using Type.
  induction l as [|s l IH]; [done|]. rewrite filter_cons. destruct (decide _) as [H|H]; [|done].
  cbn. by rewrite bool_decide_false.
Qed.

Lemma find_app {X} (p : X → bool) l k :
  List.find p (l ++ k) = match List.find p l with Some x => Some x | None => List.find p k end.
Proof using Type. induction l as [|x l IH]; [done|]. cbn. by destruct (p x). Qed.

Lemma held_update u st id :
  (∀ p, u_spec u = Some p → s_id p = u_id u) →
  (held (apply_update u st) id, revisions (apply_update u st) !! id) =
  (if bool_decide (u_id u = id) then supersede u else λ c, c) (held st id, revisions st !! id).
Proof using Type.
  intros Hp. unfold apply_update, supersede, held. case_bool_decide as Hid; [subst id|].
  - cbn [snd]. destruct (stale u _); [done|]. cbn [specs revisions]. rewrite lookup_insert_eq, find_app, find_gone.
    destruct (u_spec u) as [p|]; [|done]. cbn. by rewrite bool_decide_true by auto.
  - destruct (stale u _); [done|]. cbn [specs revisions]. rewrite lookup_insert_ne, find_app, find_other by done.
    destruct (u_spec u) as [p|]; cbn.
    + rewrite (bool_decide_false (s_id p = id)); [by destruct (List.find _ _)|]. rewrite (Hp p); done.
    + by destruct (List.find _ _).
Qed.

Lemma supersede_swap u v c :
  (u_revision u = u_revision v → u = v) → supersede u (supersede v c) = supersede v (supersede u c).
Proof using Type.
  intros H. destruct (decide (u_revision u = u_revision v)) as [E|E]; [by rewrite (H E)|].
  destruct c as [s r]. unfold supersede. cbn [snd].
  destruct r as [r|]; cbn [stale snd]; repeat (case_match; cbn [stale snd] in *); try done; lia.
Qed.

Lemma held_all us st id :
  Forall (λ u, ∀ p, u_spec u = Some p → s_id p = u_id u) us →
  (held (apply_all us st) id, revisions (apply_all us st) !! id) =
  foldl (λ c u, supersede u c) (held st id, revisions st !! id) (filter (λ u, u_id u = id) us).
Proof using Type.
  intros Hus. revert st. induction Hus as [|u us Hu _ IH]; intros st; [done|]. cbn [apply_all foldl].
  change (foldl (λ st u, apply_update u st) (apply_update u st) us) with (apply_all us (apply_update u st)).
  rewrite IH, (held_update u st id Hu), filter_cons.
  case_bool_decide; [by rewrite decide_True|by rewrite decide_False].
Qed.

Lemma fold_supersede_perm us us' c :
  us ≡ₚ us' → (∀ u v, u ∈ us → v ∈ us → u_revision u = u_revision v → u = v) →
  foldl (λ c u, supersede u c) c us = foldl (λ c u, supersede u c) c us'.
Proof using Type.
  intros Hp. revert c. induction Hp as [|u us us' _ IH|u v us|us us' us'' Hp1 IH1 Hp2 IH2]; intros c Hd; cbn.
  - done.
  - apply IH. intros x y Hx Hy. apply Hd; by right.
  - f_equal. apply supersede_swap. apply Hd; set_solver.
  - rewrite IH1 by done. apply IH2. intros x y Hx Hy. apply Hd; by rewrite Hp1.
Qed.

(** ** The theorems *)

(** C20. Whatever deltas reach a scan, accepted or refused, in any order: the
    identities of its filters stay distinct and each filter is at the recorded
    revision; the required filters are the very ones of the snapshot; no revision
    goes back; the flattened view is that of the filters. *)
Theorem scan_invariant ipc keys os st (deltas : list bytes) :
  parse ipc keys os = Ok st →
  inv (foldl deliver st deltas) ∧ same_scan st (foldl deliver st deltas) ∧
  required_specs (foldl deliver st deltas) = required_specs st ∧
  revisions_grow st (foldl deliver st deltas).
Proof using Type.
  intros Hp%parse_core. revert st Hp. induction deltas as [|d deltas IH]; intros st Hi; [by split_and!|].
  cbn [foldl]. assert (inv (deliver st d) ∧ same_scan st (deliver st d) ∧
    required_specs (deliver st d) = required_specs st ∧ revisions_grow st (deliver st d)) as (D1 & D2 & D3 & D4).
  { unfold deliver. destruct (apply_delta d st) as [st'|] eqn:Hd; [|by split_and!].
    apply (apply_delta_core d); [done|apply Hi]. }
  destruct (IH _ D1) as (I1 & I2 & I3 & I4). split_and!; [done| |congruence|]; etransitivity; done.
Qed.

(** A delta that comes twice changes nothing the second time: the filters
    after it accept it again and stay as they are. *)
Theorem apply_delta_idempotent bytes st st' : apply_delta bytes st = Ok st' → apply_delta bytes st' = Ok st'.
Proof using Type.
  intros Hd. pose proof Hd as (_ & _ & _ & _ & _ & _ & (S1 & S2 & S3 & S4) & Hf & Hsize)%apply_delta_Ok.
  assert (same_scan st st') as Hscan by (by split_and!).
  revert Hd. unfold apply_delta. case_bool_decide; [done|]. destruct (_ <? _); [done|].
  destruct (decode_ipc bytes) as [b|]; [|done]. cbn.
  destruct (validate_batch b) as [context|]; [|done]. cbn. rewrite S4. destruct (negb _); [done|].
  destruct b as [b|]; [|done]. destruct (document b) as [d|]; [|done]. cbn.
  destruct (validate_header d _ _) as [[]|]; [|done]. cbn.
  destruct (at_ d "updates") as [ups|]; [|done]. cbn. intros (next & Hn & Hd)%bind_Ok.
  destruct (kMaxPredicateIds <? _) eqn:Hlim; [done|]. injection Hd as Hd.
  apply delta_loop_Ok in Hn as (us & Hus & ->).
  assert (revisions st' = revisions (apply_all us st)) as Hr by (by rewrite <- Hd).
  assert (apply_all us st' = st') as Hsame.
  { apply apply_all_same. rewrite Hr. apply apply_all_stale. }
  assert (delta_loop b (elements_of ups) ∅ st' 0 = Ok st') as ->.
  { apply delta_loop_Ok. exists us. split; [|done]. by rewrite (read_all_scan b st). }
  cbn. rewrite Hr, Hlim, <- Hr. f_equal. rewrite <- Hf. by destruct st'.
Qed.

(** Filters converge: the updates of any number of deltas, in whatever order
    they come, leave under each identity the same filter -- the one of the
    greatest revision -- provided no two different updates share an identity and a revision. *)
Theorem updates_converge us us' st id :
  us ≡ₚ us' → Forall (update_ok st) us →
  (∀ u v, u ∈ us → v ∈ us → u_id u = u_id v → u_revision u = u_revision v → u = v) →
  held (apply_all us st) id = held (apply_all us' st) id ∧
  revisions (apply_all us st) !! id = revisions (apply_all us' st) !! id.
Proof using Type.
  intros Hp Hok Hd.
  assert (∀ us, Forall (update_ok st) us → Forall (λ u, ∀ p, u_spec u = Some p → s_id p = u_id u) us) as Hid.
  { intros l Hl. eapply Forall_impl; [exact Hl|]. intros u [_ Hu] p Hup. by destruct (Hu p Hup). }
  pose proof (held_all us st id (Hid us Hok)) as H1.
  assert (Forall (update_ok st) us') as Hok' by (by rewrite <- Hp).
  pose proof (held_all us' st id (Hid us' Hok')) as H2.
  rewrite (fold_supersede_perm _ (filter (λ u, u_id u = id) us')) in H1.
  - rewrite <- H2 in H1. by injection H1.
  - by rewrite Hp.
  - intros u v [Hu Hu']%list_elem_of_filter [Hv Hv']%list_elem_of_filter. apply Hd; congruence.
Qed.

(** The flattened view is empty just when there is no filter. *)
Lemma flatten_nonempty os s : every (wf_node os) s → flatten s ≠ [].
Proof using Type.
  induction s as [s IH] using spec_ind'. intros Hs.
  inversion Hs as [s' Hw Hc E]. subst s'. clear Hs. destruct s as [k ? ? ? ? ? ? ? ? ? ? ? ? cs]. cbn in *.
  assert (∀ k f o cols, (if bool_decide (length cols = 0%nat) then [mkFilter k f o] else []) ++
    map (λ column, mkFilter k column o) cols ≠ []) as Hleaf.
  { intros k' f o [|]; done. }
  destruct k; try apply Hleaf; destruct Hw as (Hl & _); destruct cs as [|c cs]; cbn in Hl; try lia;
    apply Forall_cons in IH as [IHc _]; inversion_clear Hc;
    intros [E _]%app_eq_nil; by apply IHc.
Qed.

(** [empty()] asks the flattened view, and is right to: it is empty just when
    no filter is held. *)
Theorem filters_empty st : inv st → filters st = [] ↔ specs st = [].
Proof using Type.
  intros [[_ _ _ C4 _] ->]. unfold flatten_all. split; [|by intros ->].
  destruct C4 as [|s l Hs _]; [done|]. cbn. intros [E _]%app_eq_nil. by apply flatten_nonempty in Hs.
Qed.

End lemmas.

(** ** At work: a snapshot, and a delta that adds a filter *)

Definition stream_arrow (streams : list (string * batch)) : Arrow :=
  {| type_equals := flat_equals; type_to_string := λ _, "type"%string;
     get_field_index := unique_index; get_all_field_indices := λ s n, find_indices s n 0;
     read_stream s :=
       match List.find (λ x, bool_decide (bs x.1 = s)) streams with
       | Some x => inr (Some x.2)
       | None => inl "not a stream"%string
       end;
     validate := λ _, None; write_stream := λ b, inr (toy_write b);
     dictionary_of := λ _ _ _, inl "types"%string;
     null_array := λ t, inr (mkArray t [V_null]); empty_array := λ t, inr (mkArray t [V_null]) |}.

Definition text_parser (texts : list (string * json)) : JsonParser := λ text,
  match List.find (λ x, bool_decide (x.1 = text)) texts with
  | Some x => inr ([], x.2)
  | None => inl "syntax error"%string
  end.

Definition sample_document (text : string) : batch :=
  mkBatch (b_schema sample_payload)
    (Some [("vgi_filter_encoding", "vgi.filters.v2"); ("vgi_filter_version", "2");
           ("vgi_evaluation_context", "vgi.none.v1")]%string) 1
    [mkArray T_string [V_text (bs text)]; mkArray T_int64 [V_int 3]].

Definition sample_header (kind_ member : string) (l : list json) : json :=
  J_object [("encoding", J_string "vgi.filters.v2"); ("semantics", J_string "vgi.duckdb.standard.v1");
    ("kind", J_string kind_); (member, J_array l)]%string.
Definition sample_item (id mode : string) (r : Z) : list (string * json) :=
  [("id", J_string id); ("revision", J_uint r); ("mode", J_string mode); ("source", J_string "query");
   ("expression", sample_node)]%string.

#[local] Instance sample_arrow : Arrow :=
  stream_arrow [("S", sample_document "snapshot"); ("D", sample_document "delta")]%string.
#[local] Instance sample_parser : JsonParser :=
  text_parser
    [("snapshot", sample_header "snapshot" "predicates" [J_object (sample_item "p" "required" 0)]);
     ("delta", sample_header "delta" "updates"
        [J_object (("operation", J_string "upsert") :: sample_item "q" "advisory" 4)])]%string.

Definition sample_filters : PushdownFilters :=
  match parse (bs "S") [] (Some sample_schema) with
  | Ok st => st
  | Throw _ => mkFilters [] [] ∅ ∅ [] None ""
  end.

Lemma scan_invariant_witness :
  parse (bs "S") [] (Some sample_schema) = Ok sample_filters ∧
  map s_id (specs (foldl deliver sample_filters [bs "D"; bs "?"])) = ["p"; "q"]%string ∧
  inv (foldl deliver sample_filters [bs "D"; bs "?"]).
Proof.
  split; [vm_compute; reflexivity|]. split; [vm_compute; reflexivity|].
  apply (scan_invariant (bs "S") [] (Some sample_schema)). vm_compute. reflexivity.
Defined.

Lemma apply_delta_idempotent_witness :
  apply_delta (bs "D") sample_filters = Ok (deliver sample_filters (bs "D")) ∧
  apply_delta (bs "D") (deliver sample_filters (bs "D")) = Ok (deliver sample_filters (bs "D")).
Proof.
  split; [vm_compute; reflexivity|].
  apply (apply_delta_idempotent (bs "D") sample_filters). vm_compute. reflexivity.
Defined.

Lemma updates_converge_witness :
  held (apply_all [mkUpdate "q" 2 None; mkUpdate "q" 1 None] sample_filters) "q" =
  held (apply_all [mkUpdate "q" 1 None; mkUpdate "q" 2 None] sample_filters) "q".
Proof.
  apply (updates_converge [mkUpdate "q" 2 None; mkUpdate "q" 1 None] [mkUpdate "q" 1 None; mkUpdate "q" 2 None]
    sample_filters "q").
  - constructor.
  - assert ("q"%string ∉ required_ids sample_filters) by (apply (bool_decide_unpack _); vm_compute; exact I).
    constructor; [|constructor; [|constructor]]; split; done.
  - intros u v Hu Hv _ Hr. 
    repeat (apply elem_of_cons in Hu as [->|Hu]; [|]); repeat (apply elem_of_cons in Hv as [->|Hv]; [|]); try done;
      by apply elem_of_nil in Hu || apply elem_of_nil in Hv.
Defined.

Lemma filters_empty_witness : filters sample_filters ≠ [] ∧ (filters sample_filters = [] ↔ specs sample_filters = []).
Proof.
  split; [vm_compute; discriminate|]. apply (filters_empty sample_filters).
  apply (parse_core (bs "S") [] (Some sample_schema)). vm_compute. reflexivity.
Defined.

End PushdownState.
