(* ===== verification/Producer.v ===== *)
(** * Driving a scan ([TableProduce] of [src/function_dispatch.cpp])

    A table function's producer is ticked: each tick may bring a delta of the
    pushed-down filters, the producer gives a batch or ends the scan, the filters
    are applied for a function that only advertises them, and the batch is
    narrowed to what the engine asked for.  The producer is the author's: a
    parameter.  The theorems: whatever deltas a scan is sent, no row reaches the
    engine of which a required filter of the init request is not true; and what a
    producer owes is delivered, and then the scan ends. *)

From S2P Require Import Prelude Text Crypto Arrow ArrowRecord ArrowCompute Wire Metadata Exchange Json Pushdown PushdownEval PushdownRows PushdownState.
Import Json Pushdown PushdownEval PushdownRows PushdownState.

Module Producer.
Import Metadata Exchange.

Definition kDynamicFilters : string := "vgi_pushdown_filters".

(** A producer and its state: the hooks, the next batch (none at the end), and
    the metadata of the batch it gave last. *)
Record TableProducer (S : Type) := mkProducer {
  p_on_dynamic_filters : PushdownFilters → S → result S;
  p_on_conditional_request : validators → S → result S;
  p_next_batch : S → result (option batch * S);
  p_last_metadata : S → gmap string string;
}.
Arguments p_on_dynamic_filters {S}. Arguments p_on_conditional_request {S}. Arguments p_next_batch {S}.
Arguments p_last_metadata {S}. Arguments mkProducer {S}.

(** What a tick answers: a batch, or the end of the stream. *)
Inductive output : Type := Emit (b : batch) (md : option metadata) | Finish.

Section producer.
Context `{A : Arrow} `{R : ArrowRecord} `{C : Compute} `{B : Base64} `{J : JsonParser} {S : Type}.

(** The columns of the schema by name, if each is there with its type. *)
Fixpoint narrow_columns (b : batch) (fields : list field) : option (list array) :=
  match fields with
  | [] => Some []
  | f :: fields =>
      column ← Wire.column_by_name b (f_name f);
      if type_equals (a_type column) (f_type f) then l ← narrow_columns b fields; Some (column :: l) else None
  end.

Definition narrow_to (b : batch) (schema : option schema_with_metadata) : batch :=
  match schema with
  | None => b
  | Some (fields, md) =>
      if schema_equals false (b_schema b) fields then b
      else match narrow_columns b fields with
           | Some columns => mkBatch fields md (b_rows b) columns
           | None => b
           end
  end.

Record TableProduce := mkProduce {
  producer_ : option (TableProducer S * S);
  filters_ : PushdownFilters;
  output_schema_ : option schema_with_metadata;
  validators_ : validators;
  auto_apply_filters_ : bool;
  asked_ : bool;
}.

Definition set_validators (v : validators) (x : TableProduce) : TableProduce :=
  mkProduce (producer_ x) (filters_ x) (output_schema_ x) v (auto_apply_filters_ x) (asked_ x).

Definition open_produce (producer : option (TableProducer S * S)) (filters : PushdownFilters)
    (schema : option schema_with_metadata) (auto_apply : bool) (v : validators) : TableProduce :=
  mkProduce producer filters schema v auto_apply false.

(** The filters applied, if the function wants them applied for it. *)
Definition auto_filtered (auto_apply : bool) (st : PushdownFilters) (b : batch) : result batch :=
  if auto_apply && negb (bool_decide (filters st = [])) then
    o ← PushdownEval.apply (specs st) (Some b);
    from_opt (Undefined_behaviour "a null batch") o
  else Ok b.

Definition produce (x : TableProduce) : result (output * TableProduce) :=
  match producer_ x with
  | None => Ok (Finish, x)
  | Some (p, s) =>
      s ← (if asked_ x then Ok s else p_on_conditional_request p (validators_ x) s : result S);
      '(o, s) ← p_next_batch p s;
      let x := mkProduce (Some (p, s)) (filters_ x) (output_schema_ x) (validators_ x) (auto_apply_filters_ x) true in
      match o with
      | None => Ok (Finish, x)
      | Some b =>
          b ← auto_filtered (auto_apply_filters_ x) (filters_ x) b;
          match validate_full b with
          | Some status => Wire.fail ("producer emitted an invalid batch: " +:+ status)
          | None =>
              let md := p_last_metadata p s in
              Ok (Emit (narrow_to b (output_schema_ x)) (if bool_decide (md = ∅) then None else Some (items md)), x)
          end
      end
  end.

(** The validators of the first tick take the place of the init request's. *)
Definition tick_validators (input : AnnotatedBatch) (v : validators) : validators :=
  mkValidators
    (match metadata_value (ab_metadata input) kIfNoneMatch with Some e => Some e | None => if_none_match v end)
    (match metadata_value (ab_metadata input) kIfModifiedSince with Some e => Some e | None => if_modified_since v end).

Definition process (x : TableProduce) (input : AnnotatedBatch) : result (output * TableProduce) :=
  let v := if asked_ x then validators_ x else tick_validators input (validators_ x) in
  filters ← (match metadata_value (ab_metadata input) kDynamicFilters with
             | Some encoded => decoded ← wire_base64_decode encoded; apply_delta decoded (filters_ x)
             | None => Ok (filters_ x)
             end : result PushdownFilters);
  producer ← (match producer_ x with
              | Some (p, s) => s ← p_on_dynamic_filters p filters s; Ok (Some (p, s))
              | None => Ok None
              end : result (option (TableProducer S * S)));
  produce (mkProduce producer filters (output_schema_ x) v (auto_apply_filters_ x) (asked_ x)).

(** ** A scan *)

Inductive scan (x0 : TableProduce) : list (AnnotatedBatch * output) → TableProduce → Prop :=
  | scan_nil : scan x0 [] x0
  | scan_tick trace x input o x' : scan x0 trace x → process x input = Ok (o, x') → scan x0 (trace ++ [(input, o)]) x'.

(** *** One tick *)

Definition asked_state (p : TableProducer S) (x : TableProduce) (s : S) : result S :=
  if asked_ x then Ok s else p_on_conditional_request p (validators_ x) s.

(** A batch that goes out is the producer's, filtered and narrowed. *)
Definition emitted_by (x : TableProduce) (s : S) (p : TableProducer S) (x' : TableProduce) (b : batch) (source filtered : batch) : Prop :=
  ∃ s1 s', asked_state p x s = Ok s1 ∧ p_next_batch p s1 = Ok (Some source, s') ∧ producer_ x' = Some (p, s') ∧
    auto_filtered (auto_apply_filters_ x) (filters_ x) source = Ok filtered ∧ validate_full filtered = None ∧
    b = narrow_to filtered (output_schema_ x).

Lemma produce_Ok x o x' :
  produce x = Ok (o, x') →
  filters_ x' = filters_ x ∧ auto_apply_filters_ x' = auto_apply_filters_ x ∧ output_schema_ x' = output_schema_ x ∧
  fst <$> producer_ x' = fst <$> producer_ x ∧
  match o with
  | Finish => True
  | Emit b md => ∃ p s source filtered, producer_ x = Some (p, s) ∧ emitted_by x s p x' b source filtered
  end.
Proof using Type.
  unfold produce. destruct (producer_ x) as [[p s]|] eqn:Hpr; [|by intros [= <- <-]; rewrite Hpr].
  intros (s1 & Ha & ([o1 s2] & Hn & H)%bind_Ok)%bind_Ok. cbv zeta in H. cbn [auto_apply_filters_ filters_ output_schema_] in H.
  destruct o1 as [source|]; [|injection H as <- <-; by split_and!].
  apply bind_Ok in H as (filtered & Hf & H). destruct (validate_full filtered) eqn:Hv; [done|]. injection H as <- <-.
  split_and!; [done..|]. exists p, s, source, filtered. split; [done|]. by exists s1, s2.
Qed.

Lemma process_Ok x input o x' :
  process x input = Ok (o, x') →
  (filters_ x' = filters_ x ∨ ∃ delta, apply_delta delta (filters_ x) = Ok (filters_ x')) ∧
  auto_apply_filters_ x' = auto_apply_filters_ x ∧ output_schema_ x' = output_schema_ x ∧
  fst <$> producer_ x' = fst <$> producer_ x ∧
  match o with
  | Finish => True
  | Emit b md =>
      ∃ p s0 s1 s' source filtered, producer_ x = Some (p, s0) ∧
        p_on_dynamic_filters p (filters_ x') s0 = Ok s1 ∧ producer_ x' = Some (p, s') ∧
        (∃ s2, (s2 = s1 ∨ ∃ v, p_on_conditional_request p v s1 = Ok s2) ∧ p_next_batch p s2 = Ok (Some source, s')) ∧
        auto_filtered (auto_apply_filters_ x') (filters_ x') source = Ok filtered ∧
        b = narrow_to filtered (output_schema_ x')
  end.
Proof using Type.
  unfold process. cbv zeta. intros (st & Hst & (pr & Hpr & H)%bind_Ok)%bind_Ok.
  apply produce_Ok in H as (H1 & H2 & H3 & H4 & H5). cbn [filters_ auto_apply_filters_ output_schema_ producer_] in *.
  rewrite H1, H2, H3. split_and!; [|done|done| |].
  - destruct (metadata_value _ _); [|left; by injection Hst as ->]. right.
    apply bind_Ok in Hst as (delta & _ & Hd). by exists delta.
  - rewrite H4. destruct (producer_ x) as [[p s0]|]; [|by injection Hpr as <-]. by apply bind_Ok in Hpr as (s1 & _ & [= <-]).
  - destruct o as [b md|]; [|done]. destruct H5 as (p & s1 & source & filtered & -> & s2 & s' & Ha & Hn & Hx & Hf & _ & Hb).
    destruct (producer_ x) as [[p0 s0]|]; [|done]. apply bind_Ok in Hpr as (s1' & Hd & [= -> ->]).
    exists p, s0, s1, s', source, filtered. split_and!; [done..| |done|done]. exists s2. split; [|done].
    unfold asked_state in Ha. cbn in Ha. destruct (asked_ x); [left; by injection Ha|right; by eexists].
Qed.

(** *** The whole scan *)

Lemma narrow_columns_in b fields l c : narrow_columns b fields = Some l → c ∈ l → c ∈ b_columns b.
Proof using Type.
  revert l. induction fields as [|f fields IH]; intros l; cbn [narrow_columns]; [by intros [= <-] ?%elem_of_nil|].
  intros (col & Hcol & H)%bind_Some. destruct (type_equals _ _); [|done].
  apply bind_Some in H as (l1 & Hl & [= <-]). intros [->|Hc]%elem_of_cons; [|by apply (IH l1)].
  unfold Wire.column_by_name in Hcol. destruct (get_field_index _ _) as [i|]; [|done].
  by apply list_elem_of_lookup_2 in Hcol.
Qed.

Lemma narrow_to_columns b schema :
  b_rows (narrow_to b schema) = b_rows b ∧ ∀ c, c ∈ b_columns (narrow_to b schema) → c ∈ b_columns b.
Proof using Type.
  unfold narrow_to. destruct schema as [[fields md]|]; [|done]. destruct (schema_equals _ _ _); [done|].
  destruct (narrow_columns b fields) as [l|] eqn:Hl; [|done]. split; [done|]. intros c. by apply narrow_columns_in with fields.
Qed.

Lemma scan_filters x0 trace x :
  scan x0 trace x → inv (filters_ x0) →
  inv (filters_ x) ∧ required_specs (filters_ x) = required_specs (filters_ x0) ∧
  auto_apply_filters_ x = auto_apply_filters_ x0 ∧ output_schema_ x = output_schema_ x0 ∧
  fst <$> producer_ x = fst <$> producer_ x0.
Proof using Type.
  induction 1 as [|trace x input o x' _ IH Hp]; intros Hi; [done|].
  destruct (IH Hi) as (I1 & I2 & I3 & I4 & I5). apply process_Ok in Hp as (Hf & Ha & Ho & Hpr & _).
  assert (inv (filters_ x') ∧ required_specs (filters_ x') = required_specs (filters_ x)) as [J1 J2].
  { destruct Hf as [->|[delta Hd]]; [done|]. apply apply_delta_core in Hd as (? & _ & ? & _); [done|apply I1]. }
  split_and!; [done|congruence..].
Qed.

Lemma auto_filtered_rows st b b' `{!ArrowLaws A} `{!ComputeLaws C} :
  auto_filtered true st b = Ok b' → inv st → Forall (every payload_ok) (specs st) → batch_ok b →
  ∃ used, sublist used (specs st) ∧
    (∀ f, f ∈ required_specs st → s_kind f ≠ K_runtime_filter → f ∈ used) ∧ batch_ok b' ∧
    b_schema b' = b_schema b ∧
    batch_rows b' = filter (λ row, passes (b_schema b) used row) (batch_rows b).
Proof using Type.
  intros He Hi Hp Hb. assert (apply_each (specs st) b = Ok b') as Hap.
  { unfold auto_filtered in He. cbn [andb] in He. case_bool_decide as Hf; cbn [negb] in He.
    - apply (filters_empty st Hi) in Hf as ->. by injection He as ->.
    - apply bind_Ok in He as ([b1|] & Ho & He); [|done]. injection He as ->. unfold PushdownEval.apply in Ho.
      case_bool_decide as Hl; [|by apply bind_Ok in Ho as (b2 & Ho & [= ->])].
      apply nil_length_inv in Hl. destruct Hf. by apply (filters_empty st Hi). }
  apply apply_each_rows in Hap as (used & H1 & H2 & H3); [|done..]. exists used. split_and!; [done| |apply H3..].
  intros f [Ha Hin]%list_elem_of_filter Hk. by apply H2.
Qed.


(** ** What a producer owes is delivered *)

(** [owes s l]: in the state [s] the batches of [l] are still to come.  The hooks
    change no more than how they are made. *)
Record Honest (p : TableProducer S) (owes : S → list batch → Prop) : Prop := {
  honest_filters st s l : owes s l → ∃ s', p_on_dynamic_filters p st s = Ok s' ∧ owes s' l;
  honest_request v s l : owes s l → ∃ s', p_on_conditional_request p v s = Ok s' ∧ owes s' l;
  honest_next s l : owes s l → ∃ s', p_next_batch p s = Ok (head l, s') ∧ owes s' (tail l);
}.

(** A tick that brings no filters, and what an engine is sent in answer to one. *)
Definition quiet_tick (input : AnnotatedBatch) : Prop := metadata_value (ab_metadata input) kDynamicFilters = None.
Definition sent (o : output) : option batch := match o with Emit b _ => Some b | Finish => None end.

Lemma head_of_drop {X} n (k : list X) : head (drop n k) = k !! n.
Proof using Type. revert n. induction k as [|y k IH]; intros [|n]; [done..|apply IH]. Qed.

Section delivery.
Context (p : TableProducer S) (owes : S → list batch → Prop) (honest : Honest p owes) (x0 : TableProduce) (l fs : list batch).
Context (Hfs : Forall2 (λ b f, auto_filtered (auto_apply_filters_ x0) (filters_ x0) b = Ok f ∧ validate_full f = None) l fs).

(** After [n] ticks. *)
Definition delivered (n : nat) (x : TableProduce) : Prop :=
  (∃ s, producer_ x = Some (p, s) ∧ owes s (drop n l)) ∧ filters_ x = filters_ x0 ∧ output_schema_ x = output_schema_ x0 ∧
  auto_apply_filters_ x = auto_apply_filters_ x0.

Lemma delivered_tick n x input : delivered n x → quiet_tick input →
  ∃ o x', process x input = Ok (o, x') ∧ delivered (n + 1) x' ∧ sent o = (λ f, narrow_to f (output_schema_ x0)) <$> fs !! n.
Proof using honest Hfs.
  intros ((s & Hp & Ho) & Hf & Hs & Ha) Hq. unfold process. rewrite Hq, Hp. cbn [mbind result_bind].
  destruct (honest_filters _ _ honest (filters_ x) s _ Ho) as (s1 & -> & Ho1). cbn [mbind result_bind].
  unfold produce. cbn [producer_ asked_ filters_ output_schema_ validators_ auto_apply_filters_].
  set (ask := if asked_ x then Ok s1 else p_on_conditional_request p _ s1).
  assert (∃ s2, ask = Ok s2 ∧ owes s2 (drop n l)) as (s2 & -> & Ho2).
  { unfold ask. destruct (asked_ x); [by exists s1|]. by apply (honest_request _ _ honest). }
  destruct (honest_next _ _ honest _ _ Ho2) as (s3 & Hn & Ho3). cbn [mbind result_bind]. rewrite Hn. cbn [mbind result_bind].
  replace (tail (drop n l)) with (drop (n + 1) l) in Ho3 by (by rewrite Nat.add_comm, <-skipn_skipn; destruct (drop n l)).
  rewrite head_of_drop. destruct (l !! n) as [b|] eqn:Hb.
  - destruct (Forall2_lookup_l _ _ _ _ _ Hfs Hb) as (f & -> & Hfl & Hv). rewrite Ha, Hf, Hfl. cbn [mbind result_bind]. rewrite Hv.
    eexists _, _. split; [done|]. split; [|by rewrite Hs]. by split_and!; [exists s3|..].
  - assert (fs !! n = None) as ->.
    { apply lookup_ge_None in Hb. apply lookup_ge_None. by rewrite <-(Forall2_length _ _ _ Hfs). }
    eexists _, _. split; [done|]. split; [|done]. by split_and!; [exists s3|..].
Qed.

Lemma delivered_scan trace x : scan x0 trace x → delivered 0 x0 → Forall quiet_tick trace.*1 →
  delivered (length trace) x ∧ ∀ i e, trace !! i = Some e → sent e.2 = (λ f, narrow_to f (output_schema_ x0)) <$> fs !! i.
Proof using honest Hfs.
  intros Hsc H0. induction Hsc as [|trace x input o x' Hsc IH Hp]; intros Hq; [done|].
  rewrite fmap_app, Forall_app in Hq. destruct Hq as [Hq [Hi _]%Forall_cons]. destruct (IH Hq) as [Hd Hall].
  destruct (delivered_tick _ _ _ Hd Hi) as (o' & x'' & Hp' & Hd' & Ho'). cbn in Hp'. rewrite Hp in Hp'. injection Hp' as <- <-.
  rewrite length_app. split; [done|]. intros i e. rewrite lookup_app_Some.
  intros [He|[Hle He]]; [by apply Hall|]. apply list_lookup_singleton_Some in He as [Hz <-]. by replace i with (length trace) by lia.
Qed.

Lemma delivered_goes inputs : delivered 0 x0 → Forall quiet_tick inputs → ∃ trace x, scan x0 trace x ∧ trace.*1 = inputs.
Proof using honest Hfs.
  intros H0. induction inputs as [|input inputs IH] using rev_ind; [by exists [], x0; split; [constructor|]|].
  rewrite Forall_app. intros [Hq [Hi _]%Forall_cons]. destruct (IH Hq) as (trace & x & Hsc & Ht).
  destruct (delivered_scan _ _ Hsc H0) as [Hd _]; [by rewrite Ht|].
  destruct (delivered_tick _ _ _ Hd Hi) as (o & x' & Hp & _). exists (trace ++ [(input, o)]), x'.
  split; [by eapply scan_tick|]. by rewrite fmap_app, Ht.
Qed.

End delivery.

(** C12. Every batch that a producer owes is delivered.  However an engine ticks a scan
    -- without filters for it on the way --, no tick is refused, the batches go out in
    order, one a tick, each filtered and narrowed as the scan was opened, and the tick
    after the last of them ends the scan, as does every one after it. *)
Theorem scan_delivers p owes x0 s l fs : Honest p owes → producer_ x0 = Some (p, s) → owes s l →
  Forall2 (λ b f, auto_filtered (auto_apply_filters_ x0) (filters_ x0) b = Ok f ∧ validate_full f = None) l fs →
  (∀ inputs, Forall quiet_tick inputs → ∃ trace x, scan x0 trace x ∧ trace.*1 = inputs) ∧
  (∀ trace x i e, scan x0 trace x → Forall quiet_tick trace.*1 → trace !! i = Some e →
     sent e.2 = (λ f, narrow_to f (output_schema_ x0)) <$> fs !! i).
Proof using Type.
  intros Hh Hp Ho Hfs. assert (delivered p owes x0 l 0 x0) as H0 by (split_and!; [by exists s|done..]). split.
  - intros inputs. by apply (delivered_goes p owes Hh x0 l fs Hfs).
  - intros trace x i e Hsc Hq. by apply (delivered_scan p owes Hh x0 l fs Hfs trace x Hsc H0 Hq).
Qed.

End producer.

(** ** A scan of three rows, with a delta on its first tick *)

Definition sample_streams : list batch := [sample_document "snapshot"; sample_document "delta"].
Definition snapshot_bytes : bytes := zb 3 :: enc_len 0.
Definition delta_bytes : bytes := zb 3 :: enc_len 1.

#[local] Instance scan_arrow : Arrow := table_arrow sample_streams.
#[local] Existing Instances table_record toy_compute hex_base64 sample_parser.

Definition repeating : TableProducer nat :=
  mkProducer (λ _ n, Ok n) (λ _ n, Ok n)
    (λ n, Ok (match n with O => None | Datatypes.S n => Some sample_batch end, pred n)) (λ _, ∅).

Definition only_x : option schema_with_metadata := Some ([Field "x" T_int64 true []], None).
Definition scan_filters_0 : PushdownFilters :=
  match parse snapshot_bytes [] (Some sample_schema) with Ok st => st | Throw _ => mkFilters [] [] ∅ ∅ [] None "" end.
Definition opened : TableProduce (S := nat) :=
  open_produce (Some (repeating, 2%nat)) scan_filters_0 only_x true (mkValidators None None).
Definition delta_tick : AnnotatedBatch :=
  mkAnnotated (Some (mkBatch [] None 0 [])) (Some [(kDynamicFilters, base64_encode delta_bytes)]).

Definition turn (x : TableProduce (S := nat)) (input : AnnotatedBatch) : option (output * TableProduce (S := nat)) :=
  match process x input with Ok r => Some r | Throw _ => None end.

(** What the first tick answers, and the two filters it leaves: the snapshot's
    and the delta's. *)
Definition first_batch : batch := match turn opened delta_tick with Some (Emit b _, _) => b | _ => sample_batch end.
Definition after_tick : TableProduce (S := nat) := match turn opened delta_tick with Some (_, x) => x | None => opened end.
Definition held_filter (id : string) (advisory_ : bool) (r : Z) : Spec :=
  mkSpec K_constant "x" 0 0 "" "ge" "" (Some T_bool) (Some (mkArray T_int64 [V_int 3])) false advisory_ id r
    (children sample_spec).

Lemma held_filter_ok id advisory_ r : every payload_ok (held_filter id advisory_ r).
Proof.
  repeat (apply every_intro || apply List.Forall_cons || apply List.Forall_nil || split); try done;
    match goal with H : _ = Some _ |- _ => cbn in H; injection H as <- end; by repeat constructor.
Qed.


Definition plain_tick : AnnotatedBatch := mkAnnotated (Some (mkBatch [] None 0 [])) None.
Definition repeats (n : nat) (l : list batch) : Prop := l = repeat sample_batch n.
Definition filtered_batch : batch := match auto_filtered true scan_filters_0 sample_batch with Ok b => b | Throw _ => sample_batch end.

Lemma repeating_honest : Honest repeating repeats.
Proof.
  split; [intros ??? ->; by eexists..|]. intros n ? ->. destruct n; by eexists.
Qed.

Lemma scan_delivers_witness :
  ∃ trace x, scan opened trace x ∧ trace.*1 = repeat plain_tick 4 ∧
    (λ e, sent e.2) <$> trace = [Some (narrow_to filtered_batch only_x); Some (narrow_to filtered_batch only_x); None; None].
Proof.
  assert (auto_filtered true scan_filters_0 sample_batch = Ok filtered_batch) as Hf by (vm_compute; reflexivity).
  assert (validate_full filtered_batch = None) as Hv by (vm_compute; reflexivity).
  destruct (scan_delivers repeating repeats opened 2%nat [sample_batch; sample_batch] [filtered_batch; filtered_batch]
    repeating_honest eq_refl eq_refl) as [Hgo Hall]; [repeat constructor; assumption|].
  assert (Forall quiet_tick (repeat plain_tick 4)) as Hq by (repeat constructor).
  destruct (Hgo _ Hq) as (trace & x & Hsc & Ht). exists trace, x. split; [exact Hsc|]. split; [exact Ht|].
  rewrite <-Ht in Hq. pose proof (λ i e, Hall trace x i e Hsc Hq) as H.
  destruct trace as [|e0 [|e1 [|e2 [|e3 [|? ?]]]]]; try discriminate Ht.
  cbn. rewrite (H 0%nat e0 eq_refl), (H 1%nat e1 eq_refl), (H 2%nat e2 eq_refl), (H 3%nat e3 eq_refl). reflexivity.
Defined.

End Producer.
