(* ===== verification/Functions.v ===== *)
(** * What a worker is made of ([include/vgi/function.h],
    [include/vgi/table_function.h], [include/vgi/buffering.h],
    [include/vgi/aggregate.h], [include/vgi/copy_to.h], [include/vgi/copy_from.h])

    The parameters of a bind and of a call, and the interfaces of the functions a
    worker's author writes.  A function is the record of its hooks; the ones that
    may keep state are programs over the storage ([StorageClient.prog]). *)

From Stdlib Require Import SpecFloat.
From S2P Require Import Prelude Text Crypto Arrow ArrowCompute Wire Metadata Exchange StorageSpec StorageClient WireSchema FunctionSpec Arguments Settings Json Pushdown PushdownState Producer.
Import Wire StorageClient WireSchema FunctionSpec Arguments Settings.

Module Functions.

(** ** The parameters of a bind *)

Record BindParams := mkBind {
  bp_input_schema : option schema;
  bp_arguments : Arguments;
  bp_argument_names : option (list (option bytes));
  bp_settings : Settings;
  bp_secrets : Secrets;
  bp_secrets_resolved : bool;
  bp_copy_to_format : option bytes;
  bp_copy_to_path : option bytes;
  bp_copy_from_format : option bytes;
  bp_copy_from_path : option bytes;
  bp_copy_from_schema : option schema;
  bp_catalog_name : bytes;
  bp_schema_path : list bytes;
  bp_attach_options : option batch;
  bp_attachment_id : bytes;
  bp_transaction_opaque_data : option bytes;
  bp_at_unit : option bytes;
  bp_at_value : option bytes;
}.

(** The arguments replaced. *)
Definition with_arguments (a : Arguments) (p : BindParams) : BindParams :=
  mkBind (bp_input_schema p) a (bp_argument_names p) (bp_settings p) (bp_secrets p) (bp_secrets_resolved p)
    (bp_copy_to_format p) (bp_copy_to_path p) (bp_copy_from_format p) (bp_copy_from_path p) (bp_copy_from_schema p)
    (bp_catalog_name p) (bp_schema_path p) (bp_attach_options p) (bp_attachment_id p) (bp_transaction_opaque_data p)
    (bp_at_unit p) (bp_at_value p).

(** And the source of a COPY FROM. *)
Definition with_copy_from (format path : option bytes) (s : option schema) (p : BindParams) : BindParams :=
  mkBind (bp_input_schema p) (bp_arguments p) (bp_argument_names p) (bp_settings p) (bp_secrets p) (bp_secrets_resolved p)
    (bp_copy_to_format p) (bp_copy_to_path p) format path s
    (bp_catalog_name p) (bp_schema_path p) (bp_attach_options p) (bp_attachment_id p) (bp_transaction_opaque_data p)
    (bp_at_unit p) (bp_at_value p).

(** The declared type of an argument, or that of the input's column at its place
    where the declaration leaves it open. *)
Definition input_type (p : BindParams) (index : nat) : option dtype :=
  let from_input := f_type <$> (s ← bp_input_schema p; s.1 !! index) in
  match positional_type (bp_arguments p) index with
  | Some T_null | None => from_input
  | Some t => Some t
  end.

Record SecretLookup := mkLookup { secret_type : bytes; lookup_scope : option bytes; lookup_name : option bytes }.

(** ** The parameters of a call *)

Record ScanHints := mkHints {
  order_by_column : option bytes;
  order_by_direction : option bytes;
  order_by_null_order : option bytes;
  order_by_limit : option Z;
  tablesample_percentage : option spec_float;
  tablesample_seed : option Z;
}.
Definition no_hints : ScanHints := mkHints None None None None None None.

(** The storage and the client's log, which every call has, are not fields here:
    the first is what programs call, the second is not modelled. *)
Record ProcessParams := mkProcess {
  pp_bind_opaque_data : bytes;
  pp_output_schema : option schema;
  pp_arguments : Arguments;
  pp_settings : Settings;
  pp_secrets : Secrets;
  pp_catalog_name : bytes;
  pp_schema_path : list bytes;
  pp_attach_options : option batch;
  pp_attachment_id : bytes;
  pp_input_batch_index : option Z;
  pp_substream_id : bytes;
  pp_execution_id : bytes;
  pp_transaction_opaque_data : option bytes;
  pp_at_unit : option bytes;
  pp_at_value : option bytes;
  pp_pushdown_filters : PushdownState.PushdownFilters;
  pp_scan_hints : ScanHints;
  pp_copy_to_format : option bytes;
  pp_copy_to_path : option bytes;
  pp_copy_from_format : option bytes;
  pp_copy_from_path : option bytes;
  pp_auth_principal : option bytes;
  pp_split_payloads : option (list bytes);
}.

Definition no_filters : PushdownState.PushdownFilters := PushdownState.mkFilters [] [] ∅ ∅ [] None "".

(** ** Scalar functions *)

Record ScalarFunction := mkScalar {
  sf_name : bytes;
  sf_argument_specs : list ArgSpec;
  sf_bind : BindParams → result (option schema);
  sf_process : ProcessParams → option batch → result (option batch);
  sf_secret_lookups : BindParams → list SecretLookup;
  sf_cache_control : option Metadata.CacheControl;
}.

(** [ScalarFunction::bind], for a function with a fixed return type. *)
Definition scalar_bind (name : bytes) (return_type : option dtype) (_ : BindParams) : result (option schema) :=
  match return_type with
  | None => fail ("scalar function '" +:+ str name +:+ "' declares no fixed return_type and does not override bind()")
  | Some t => Ok (Some ([Field "result" t true []], None))
  end.

(** ** Table functions *)

Record ScanSplit := mkSplit {
  sp_payload : bytes;
  sp_estimated_rows : option Z;
  sp_rows_exact : bool;
  sp_estimated_bytes : option Z;
  sp_key_value : option bytes;
  sp_range_index : option Z;
  sp_column_bounds : option bytes;
  sp_partition_bounds : option bytes;
  sp_column_statistics : option bytes;
  sp_location_ids : option (list Z);
  sp_start_position : option bytes;
  sp_end_position : option bytes;
}.
(** A split that says nothing: the whole scan. *)
Definition whole_scan : ScanSplit := mkSplit [] None false None None None None None None None None None.

Record PlanParams := mkPlan {
  target_split_bytes : option Z;
  min_splits : option Z;
  max_splits_per_response : option Z;
  cursor : option bytes;
  row_limit : option Z;
  filters_complete : bool;
  pushdown_filters : PushdownState.PushdownFilters;
  (** [int32_t]s *)
  projection_ids : list Z;
}.

Record PlanResult := mkPlanResult {
  splits : list ScanSplit;
  max_workers : option Z;
  estimated_total_splits : option Z;
  estimated_total_rows : option Z;
  estimated_total_bytes : option Z;
  catalog_version : option Z;
  next_cursor : option bytes;
  locations : list bytes;
  key_grouping : option bytes;
  range_partitioning : option bytes;
}.

Record TableCardinality := mkCardinality { estimate : option Z; card_max : option Z }.

Inductive BindRepeatability : Type := Unknown | StableWithinQuery.
#[global] Instance BindRepeatability_eq_dec : EqDecision BindRepeatability.
Proof. solve_decision. Defined.

(** [S] is the state of a producer. *)
Record TableFunction (S : Type) := mkTable {
  tf_name : bytes;
  tf_argument_specs : list ArgSpec;
  tf_auto_apply_filters : bool;
  tf_bind : BindParams → prog (option schema);
  tf_init : ProcessParams → prog (option (Producer.TableProducer S * S));
  tf_projection_expression_profiles : BindParams → list bytes;
  tf_repeatability : BindParams → BindRepeatability;
  tf_cardinality : ProcessParams → prog TableCardinality;
  tf_supports_splits : bool;
  tf_plan : BindParams → PlanParams → prog PlanResult;
  tf_secret_lookups : BindParams → list SecretLookup;
  tf_dynamic_to_string : bytes → prog (list (bytes * bytes));
  tf_max_workers : ProcessParams → prog Z;
  tf_on_init : ProcessParams → prog unit;
}.
Arguments tf_name {S}. Arguments tf_argument_specs {S}. Arguments tf_auto_apply_filters {S}. Arguments tf_bind {S}.
Arguments tf_init {S}. Arguments tf_projection_expression_profiles {S}. Arguments tf_repeatability {S}.
Arguments tf_cardinality {S}. Arguments tf_supports_splits {S}. Arguments tf_plan {S}. Arguments tf_secret_lookups {S}.
Arguments tf_dynamic_to_string {S}. Arguments tf_max_workers {S}. Arguments tf_on_init {S}. Arguments mkTable {S}.

(** ** Table-in-out functions: [S] is the state of a continuation *)

Record TableInOut (S : Type) := mkTableInOut {
  to_name : bytes;
  to_argument_specs : list ArgSpec;
  to_input_from_args : bool;
  to_input_rows_per_call : option Z;
  to_bind : BindParams → prog (option schema);
  to_secret_lookups : BindParams → list SecretLookup;
  to_open : ProcessParams → Exchange.TableInOutFunction S;
  to_finish : ProcessParams → prog (list Exchange.EmittedBatch);
}.
Arguments to_name {S}. Arguments to_argument_specs {S}. Arguments to_input_from_args {S}. Arguments to_input_rows_per_call {S}.
Arguments to_bind {S}. Arguments to_secret_lookups {S}. Arguments to_open {S}. Arguments to_finish {S}. Arguments mkTableInOut {S}.

(** ** Buffering functions *)

Record TableBufferingFunction (S : Type) := mkBuffering {
  bf_name : bytes;
  bf_argument_specs : list ArgSpec;
  bf_required_secrets : list SecretLookup;
  bf_bind : BindParams → prog (option schema);
  bf_process : ProcessParams → batch → prog bytes;
  bf_combine : ProcessParams → list bytes → prog (list bytes);
  bf_finalize_producer : ProcessParams → bytes → prog (option (Producer.TableProducer S * S));
}.
Arguments bf_name {S}. Arguments bf_argument_specs {S}. Arguments bf_required_secrets {S}. Arguments bf_bind {S}.
Arguments bf_process {S}. Arguments bf_combine {S}. Arguments bf_finalize_producer {S}. Arguments mkBuffering {S}.

(** ** Aggregates *)

Record AggregateFunction := mkAggregate {
  ag_name : bytes;
  ag_bind : BindParams → result (option schema);
  (** States by group, the group of each row, and the columns of values. *)
  ag_update : gmap Z bytes → list Z → list array → result (gmap Z bytes);
  ag_combine : bytes → bytes → result bytes;
  ag_finalize : schema → list Z → list (option bytes) → Arguments → result batch;
  ag_streaming_chunk : batch → Z → Z → gmap bytes bytes → result (array * gmap bytes bytes);
  ag_window : option batch → schema → list (list (Z * Z)) → list bool → result array;
}.

(** ** COPY readers and writers *)

Record CopyToFunction := mkCopyTo {
  ct_format : bytes;
  ct_handler_name : bytes;
  ct_argument_specs : list ArgSpec;
  ct_required_secrets : list SecretLookup;
  ct_secret_lookups : BindParams → list SecretLookup;
  ct_write : ProcessParams → batch → prog unit;
  ct_close : ProcessParams → prog Z;
}.

Record CopyFromFunction := mkCopyFrom {
  cf_format : bytes;
  cf_handler_name : bytes;
  cf_argument_specs : list ArgSpec;
  cf_secret_lookups : BindParams → list SecretLookup;
  cf_auto_apply_filters : bool;
  cf_read : ProcessParams → prog (list batch);
}.

(** *** A writer as a buffering function, and a reader as a table function *)

Section copy.
Context {S : Type}.

Definition to_sink (w : CopyToFunction) : TableBufferingFunction S :=
  mkBuffering (ct_handler_name w) (ct_argument_specs w) (ct_required_secrets w)
    (λ params, match bp_input_schema params with
               | None => Fail (Invalid_argument (str (ct_handler_name w) +:+
                   " is a COPY TO format writer; invoke it via COPY <source> TO '<path>' (FORMAT " +:+
                   str (ct_format w) +:+ "), not directly."))
               | Some s => Ret (Some s)
               end)
    (λ params b, (if 0 <? b_rows b then ct_write w params b else Ret tt);; Ret (pp_execution_id params))
    (λ params _, ct_close w params;; Ret [])
    (λ _ _, Ret None).

(** The batches a scan drains, one after the other. *)
Definition rows_producer : Producer.TableProducer (list batch) :=
  Producer.mkProducer (λ _ s, Ok s) (λ _ s, Ok s)
    (λ s, Ok match s with [] => (None, []) | b :: s => (Some b, s) end) (λ _, ∅).

(** It owes what it was made with. *)
Lemma rows_honest : Producer.Honest rows_producer eq.
Proof using Type. split; [by eexists..|]. intros s l <-. by destruct s; eexists. Qed.

Definition misuse_message (r : CopyFromFunction) : string :=
  str (cf_handler_name r) +:+ " is a COPY FROM format reader; invoke it via COPY " +:+
  "<table> FROM '<path>' (FORMAT " +:+ str (cf_format r) +:+ "), not directly.".

(** [from_rows] is the producer of the batches read, among the states of this worker's producers. *)
Definition from_scan (from_rows : list batch → Producer.TableProducer S * S) (r : CopyFromFunction) : TableFunction S :=
  mkTable (cf_handler_name r) (cf_argument_specs r) (cf_auto_apply_filters r)
    (λ params, match bp_copy_from_schema params with
               | None => Fail (Invalid_argument (misuse_message r))
               | Some s => Ret (Some s)
               end)
    (λ params, match pp_copy_from_path params with
               | None => Fail (Invalid_argument (misuse_message r))
               | Some _ => rows ← cf_read r params; Ret (Some (from_rows rows))
               end)
    (λ _, []) (λ _, Unknown) (λ _, Ret (mkCardinality None None)) false
    (λ _ _, Fail (Runtime_error ("table function '" +:+ str (cf_handler_name r) +:+
                                 "' declares supports_splits but does not override plan()")))
    (cf_secret_lookups r) (λ _, Ret []) (λ _, Ret 1) (λ _, Ret tt).
End copy.

End Functions.
