(* ===== verification/Dispatch.v ===== *)
(** * Which function serves a call ([src/function_dispatch.cpp],
    [src/dispatcher.cpp], [src/catalog_model.cpp])

    The registries of the five kinds of function, where each registration is
    declared, the overloads of a name and how one is chosen, and the checks of a
    call's arguments against the declaration.  The theorems: a registry answers,
    for a name and a scope, the registrations of that name there, in order,
    whatever was registered; and of the overloads the first with the most
    argument types matched is taken. *)

From Stdlib Require Import SpecFloat.
From S2P Require Import Prelude Text Crypto Arrow ArrowRecord ArrowCompute Wire Metadata StorageSpec StorageClient AttachService Attachment WireSchema FunctionSpec Arguments Settings Json Producer Functions.
Import Wire StorageClient FunctionSpec Arguments Functions.

Module Dispatch.

(** ** Scopes and registries *)

Record Scope := mkScope { sc_catalog : bytes; sc_schema_path : list bytes }.
#[global] Instance Scope_eq_dec : EqDecision Scope.
Proof. solve_decision. Defined.

(** An empty path wants any schema. *)
Definition in_scope (declared wanted : Scope) : bool :=
  if negb (bool_decide (sc_catalog declared = sc_catalog wanted)) then false
  else bool_decide (sc_schema_path wanted = []) || bool_decide (sc_schema_path declared = sc_schema_path wanted).

(** [schema_path_string] *)
Fixpoint path_from (value : bytes) (path : list bytes) : bytes :=
  match path with
  | [] => value
  | c :: path => path_from ((match value with [] => [] | _ => value ++ [zb 46] end) ++ c) path
  end.
Definition schema_path_string (path : list bytes) : bytes := path_from [] path.

(** The functions of a kind, where each is declared, and the places of a name. *)
Record registry (F : Type) := mkRegistry {
  functions : list F;
  scopes : list Scope;
  by_name : gmap bytes (list nat);
}.
Arguments functions {F}. Arguments scopes {F}. Arguments by_name {F}. Arguments mkRegistry {F}.

Section registry.
Context {F : Type} (name_of : F → bytes).

Definition empty_registry : registry F := mkRegistry [] [] ∅.

(** [xs_by_name_[fn->name()].push_back(xs_.size())] and the two other pushes. *)
Definition register (r : registry F) (scope : Scope) (fn : F) : registry F :=
  mkRegistry (functions r ++ [fn]) (scopes r ++ [scope])
    (<[name_of fn := default [] (by_name r !! name_of fn) ++ [length (functions r)]]> (by_name r)).

(** The function at a place, if it is declared in the scope. *)
Definition at_place (r : registry F) (scope : Scope) (i : nat) : option F :=
  match scopes r !! i with
  | Some s => if in_scope s scope then functions r !! i else None
  | None => None
  end.

(** The registrations of a name in a scope: [scalars_named]. *)
Definition named_in (r : registry F) (name : bytes) (scope : Scope) : list F :=
  match by_name r !! name with None => [] | Some places => omap (at_place r scope) places end.

(** The first of them: [find_buffering], [find_table_in_out], [require_aggregate]. *)
Definition find_in (r : registry F) (name : bytes) (scope : Scope) : option F := head (named_in r name scope).

(** All there are in a scope: [scalars_in_schema] and its likes. *)
Definition in_schema (r : registry F) (scope : Scope) : list F := omap (at_place r scope) (seq 0 (length (functions r))).

(** *** What the lookups answer *)

(** A registry after some registrations. *)
Definition registered (l : list (Scope * F)) : registry F := foldl (λ r e, register r e.1 e.2) empty_registry l.

Definition matches (name : bytes) (scope : Scope) (e : Scope * F) : bool :=
  bool_decide (name_of e.2 = name) && in_scope e.1 scope.

(** A declaration serves a scope of its own catalog that names its schema, or none. *)
Definition serves (declared wanted : Scope) : Prop :=
  sc_catalog declared = sc_catalog wanted ∧ (sc_schema_path wanted = [] ∨ sc_schema_path declared = sc_schema_path wanted).
#[global] Instance serves_dec declared wanted : Decision (serves declared wanted).
Proof. unfold serves. apply _. Defined.

Lemma in_scope_serves declared wanted : in_scope declared wanted = bool_decide (serves declared wanted).
Proof using Type.
  unfold in_scope, serves. repeat (case_bool_decide; cbn); tauto.
Qed.

Lemma registered_snoc l e : registered (l ++ [e]) = register (registered l) e.1 e.2.
Proof using Type. unfold registered. by rewrite foldl_app. Qed.

Lemma registered_lists l : functions (registered l) = l.*2 ∧ scopes (registered l) = l.*1.
Proof using Type.
  induction l as [|e l [IHf IHs]] using rev_ind; [done|]. rewrite registered_snoc. cbn.
  by rewrite IHf, IHs, !fmap_app.
Qed.

(** The places of a name, in order. *)
Definition places (name : bytes) (l : list (Scope * F)) : list nat :=
  omap (λ e : nat * (Scope * F), if bool_decide (name_of e.2.2 = name) then Some e.1 else None) (imap pair l).

Lemma places_snoc name l e :
  places name (l ++ [e]) = places name l ++ (if bool_decide (name_of e.2 = name) then [length l] else []).
Proof using Type.
  unfold places. rewrite imap_app, omap_app. f_equal. cbn. rewrite Nat.add_0_r. by case_bool_decide.
Qed.

Lemma registered_places l name : default [] (by_name (registered l) !! name) = places name l.
Proof using Type.
  induction l as [|e l IH] using rev_ind.
  { unfold registered. cbn [foldl by_name empty_registry]. by rewrite lookup_empty. }
  rewrite registered_snoc, places_snoc. cbn.
  destruct (registered_lists l) as [-> _]. rewrite length_fmap. case_bool_decide as E.
  - subst name. by rewrite lookup_insert_eq, IH.
  - by rewrite lookup_insert_ne, IH, app_nil_r.
Qed.

Lemma at_place_registered l scope i :
  at_place (registered l) scope i = e ← l !! i; if in_scope e.1 scope then Some e.2 else None.
Proof using Type.
  unfold at_place. destruct (registered_lists l) as [-> ->]. rewrite !list_lookup_fmap.
  by destruct (l !! i) as [[s f]|].
Qed.

Lemma omap_places l name (g : nat → option F) (h : Scope * F → option F) :
  (∀ i e, l !! i = Some e → g i = h e) →
  omap g (places name l) = omap (λ e, if bool_decide (name_of e.2 = name) then h e else None) l.
Proof using Type.
  induction l as [|e l IH] using rev_ind; intros Hg; [done|].
  rewrite places_snoc, !omap_app, IH by (intros i x Hi; apply Hg; by apply lookup_app_l_Some). f_equal. cbn.
  rewrite <- (Hg (length l) e) by (by apply list_lookup_middle). case_bool_decide; cbn; [|done]. by destruct (g (length l)).
Qed.

Lemma omap_if {X} (P : X → bool) {Y} (f : X → Y) (l : list X) :
  omap (λ x, if P x then Some (f x) else None) l = map f (filter (λ x, Is_true (P x)) l).
Proof using Type.
  induction l as [|x l IH]; [done|]. cbn [omap list_omap]. rewrite filter_cons.
  destruct (P x) eqn:E; cbn [Is_true]; [rewrite decide_True by done|rewrite decide_False by auto]; cbn; [by f_equal|done].
Qed.

Lemma filter_of_matches name scope (l : list (Scope * F)) :
  filter (λ e, name_of e.2 = name ∧ serves e.1 scope) l = filter (λ e, Is_true (matches name scope e)) l.
Proof using Type.
  apply list_filter_iff. intros e. unfold matches.
  by rewrite in_scope_serves, andb_True, !bool_decide_spec.
Qed.

Lemma filter_of_scope scope (l : list (Scope * F)) :
  filter (λ e, serves e.1 scope) l = filter (λ e, Is_true (in_scope e.1 scope)) l.
Proof using Type. apply list_filter_iff. intros e. by rewrite in_scope_serves, bool_decide_spec. Qed.

(** A lookup by name answers the functions registered under the name in the
    scope, in the order they were registered, whatever else was registered
    between, under this name in other scopes included; and the listing of a scope
    likewise. *)
Theorem lookups_exact (l : list (Scope * F)) name scope :
  named_in (registered l) name scope = map snd (filter (λ e, name_of e.2 = name ∧ serves e.1 scope) l) ∧
  in_schema (registered l) scope = map snd (filter (λ e, serves e.1 scope) l).
Proof using Type.
  rewrite filter_of_matches, filter_of_scope. split.
  - unfold named_in. pose proof (registered_places l name) as Hp.
    assert (omap (at_place (registered l) scope) (places name l) = map snd (filter (λ e, Is_true (matches name scope e)) l)) as Ho.
    { rewrite (omap_places l name _ (λ e, if in_scope e.1 scope then Some e.2 else None)).
      - rewrite <- omap_if. apply list_omap_ext. apply Forall_Forall2_diag, Forall_forall. intros e _. unfold matches.
        by case_bool_decide; cbn [andb].
      - intros i e Hi. rewrite at_place_registered, Hi. done. }
    destruct (by_name (registered l) !! name) as [ps|]; cbn in Hp; [by rewrite Hp|].
    rewrite <- Hp in Ho. by rewrite <- Ho.
  - unfold in_schema. rewrite <- omap_if. destruct (registered_lists l) as [-> _]. rewrite length_fmap.
    induction l as [|e l IH] using rev_ind; [done|]. rewrite length_app, seq_app, !omap_app. f_equal.
    + rewrite <- IH. apply list_omap_ext, Forall_Forall2_diag, Forall_forall. intros i Hi%list_elem_of_In%in_seq.
      rewrite !at_place_registered. by rewrite lookup_app_l by lia.
    + cbn. rewrite at_place_registered, list_lookup_middle by done. cbn. by destruct (in_scope e.1 scope).
Qed.

End registry.

Arguments empty_registry {F}.

(** ** Overloads *)

Section overloads.
Context `{A : Arrow} `{C : Compute}.

(** The type an argument is declared with: none for one that takes any. *)
Definition declared_type (s : ArgSpec) : option dtype :=
  match (match sp_arrow_type s with Some t => t | None => arg_type_to_arrow (sp_type s) end) with
  | T_null => None
  | t => Some t
  end.

(** -1 when the candidate cannot serve the call. *)
Fixpoint score_from (score : Z) (specs : list ArgSpec) (actual_type : nat → option dtype) : Z :=
  match specs with
  | [] => score
  | s :: specs =>
      match position s, declared_type s with
      | Some i, Some declared =>
          match actual_type (Z.to_nat i) with
          | Some actual => if type_equals declared actual then score_from (score + 1) specs actual_type else -1
          | None => score_from score specs actual_type
          end
      | _, _ => score_from score specs actual_type
      end
  end.
Definition score_overload (specs : list ArgSpec) (actual_type : nat → option dtype) : Z := score_from 0 specs actual_type.

Section choice.
Context {F : Type} (specs_of : F → list ArgSpec).

(** The loop over the candidates: [best] with its score. *)
Fixpoint best_from (candidates : list F) (actual_type : nat → option dtype) (best : option F) (best_score : Z) : option F :=
  match candidates with
  | [] => best
  | c :: candidates =>
      let score := score_overload (specs_of c) actual_type in
      if best_score <? score then best_from candidates actual_type (Some c) score
      else best_from candidates actual_type best best_score
  end.

(** A candidate alone is taken unasked, and the first if none matches. *)
Definition choose (candidates : list F) (actual_type : nat → option dtype) : option F :=
  match candidates with
  | [] => None
  | [c] => Some c
  | c :: _ => match best_from candidates actual_type None (-1) with Some best => Some best | None => Some c end
  end.

(** *** The one that is chosen *)

Definition overload_score (actual_type : nat → option dtype) (c : F) : option Z :=
  let score := score_overload (specs_of c) actual_type in if score <? 0 then None else Some score.

Lemma score_from_range specs actual_type score : 0 ≤ score → score_from score specs actual_type = -1 ∨ score ≤ score_from score specs actual_type.
Proof using Type.
  revert score. induction specs as [|s specs IH]; intros score Hs; cbn; [right; lia|].
  destruct (position s); [|by apply IH]. destruct (declared_type s); [|by apply IH].
  destruct (actual_type _); [|by apply IH]. destruct (type_equals _ _); [|by left].
  destruct (IH (score + 1)); [lia|by left|right; lia].
Qed.

Lemma score_overload_range specs actual_type : -1 ≤ score_overload specs actual_type.
Proof using Type. unfold score_overload. destruct (score_from_range specs actual_type 0); lia. Qed.

Lemma best_from_better candidates actual_type best :
  (∀ x s, best = Some (x, s) → 0 ≤ s) →
  best_from candidates actual_type (fst <$> best) (from_option snd (-1) best) =
  fst <$> foldl (better (overload_score actual_type)) best candidates.
Proof using Type.
  revert best. induction candidates as [|c candidates IH]; intros best Hb; [done|]. cbn [best_from foldl].
  unfold better at 2, overload_score. pose proof (score_overload_range (specs_of c) actual_type) as Hr.
  set (n := score_overload (specs_of c) actual_type) in *.
  destruct (Z.ltb_spec n 0) as [Hn|Hn].
  - assert (n = -1) as -> by lia. rewrite (proj2 (Z.ltb_ge _ _)).
    + by apply IH.
    + destruct best as [[x b]|]; cbn; [|lia]. specialize (Hb x b eq_refl). lia.
  - destruct best as [[x b]|]; cbn [from_option snd fst fmap option_fmap option_map].
    + destruct (Z.ltb_spec b n) as [Hlt|Hge].
      * rewrite <- IH; [done|]. intros ? ? [= <- <-]. lia.
      * rewrite <- IH; [done|]. intros ? ? [= <- <-]. by apply (Hb x b).
    + rewrite (proj2 (Z.ltb_lt _ _)) by lia. rewrite <- IH; [done|]. intros ? ? [= <- <-]. lia.
Qed.

Lemma choose_best candidates actual_type :
  choose candidates actual_type =
  match candidates with
  | [c] => Some c
  | _ => match first_best (overload_score actual_type) candidates with Some c => Some c | None => head candidates end
  end.
Proof using Type.
  unfold choose, first_best. destruct candidates as [|c [|c' l]]; [done..|].
  rewrite <- (best_from_better (c :: c' :: l) actual_type None) by done. done.
Qed.

(** Among several overloads that one is taken which matches the most of the
    call's argument types exactly, provided none of its own is mismatched -- the
    first registered of those -- and the first of all when every overload has a
    mismatch; so a call of a registered name always has a function. *)
Theorem overload_chosen candidates actual_type c :
  (2 <= length candidates)%nat →
  choose candidates actual_type = Some c ↔
  (∃ i s, best_at (overload_score actual_type) candidates i c s) ∨
  (∀ x, x ∈ candidates → score_overload (specs_of x) actual_type < 0) ∧ head candidates = Some c.
Proof using Type.
  intros Hl. rewrite choose_best.
  assert (match candidates with [c0] => Some c0 | _ =>
    match first_best (overload_score actual_type) candidates with Some c0 => Some c0 | None => head candidates end end =
    match first_best (overload_score actual_type) candidates with Some c0 => Some c0 | None => head candidates end) as ->
    by (destruct candidates as [|? [|]]; cbn in Hl; [lia|lia|done]).
  assert (∀ x, overload_score actual_type x = None ↔ score_overload (specs_of x) actual_type < 0) as Hnone.
  { intros x. unfold overload_score. destruct (Z.ltb_spec (score_overload (specs_of x) actual_type) 0); naive_solver lia. }
  destruct (first_best _ _) as [b|] eqn:Hb.
  - pose proof Hb as Hb'. apply first_best_Some in Hb. split.
    + intros [= ->]. by left.
    + intros [H|[H _]]; [|].
      * apply first_best_Some in H. congruence.
      * destruct Hb as (i & s & Hi & Hs & _). apply list_elem_of_lookup_2, H, Hnone in Hi. congruence.
  - rewrite first_best_None in Hb. split.
    + intros Hc. right. split; [|done]. intros x Hx. by apply Hnone, Hb.
    + intros [(i & s & Hi & Hs & _)|[_ H]]; [|done]. apply list_elem_of_lookup_2, Hb in Hi. congruence.
Qed.

End choice.
End overloads.

(** Two overloads of one column, and a call with a text. *)
Definition int_overload : list ArgSpec := [column "x" 0 "int64" ""].
Definition text_overload : list ArgSpec := [column "x" 0 "varchar" ""].
Definition text_call (i : nat) : option dtype := match i with O => Some T_string | _ => None end.

Lemma overload_chosen_witness :
  @choose (table_arrow []) _ id [int_overload; text_overload] text_call = Some text_overload ∧
  ((∃ i s, best_at (@overload_score (table_arrow []) _ id text_call) [int_overload; text_overload] i text_overload s) ∨
   (∀ x, x ∈ [int_overload; text_overload] → @score_overload (table_arrow []) (id x) text_call < 0) ∧
   head [int_overload; text_overload] = Some text_overload).
Proof.
  assert (@choose (table_arrow []) _ id [int_overload; text_overload] text_call = Some text_overload) as H
    by (vm_compute; reflexivity).
  split; [exact H|].
  apply (proj1 (@overload_chosen (table_arrow []) _ id [int_overload; text_overload] text_call text_overload (le_n 2)) H).
Defined.

(** ** The dispatcher *)

(** A catalog as registration sees it: its declaration and its schemas. *)
Record Catalog := mkCatalogue { ct_model : Attachment.CatalogModel; ct_schemas : list (list bytes) }.

(** A new catalog has [main]. *)
Definition new_catalog (name : bytes) : Catalog := mkCatalogue (Attachment.mkCatalog name []) [[bs "main"]].

(** [CatalogModel::schema]: found or made. *)
Definition with_schema (path : list bytes) (c : Catalog) : Catalog :=
  if existsb (λ p, bool_decide (p = path)) (ct_schemas c) then c else mkCatalogue (ct_model c) (ct_schemas c ++ [path]).
(** [CatalogModel::find_schema] *)
Definition find_schema (c : Catalog) (path : list bytes) : option (list bytes) :=
  List.find (λ p, bool_decide (p = path)) (ct_schemas c).

Definition catalog_name_of (c : Catalog) : bytes := Attachment.cm_name (ct_model c).

Section dispatcher.
Context {S : Type}.

Record Dispatcher := mkDispatcher {
  (** The primary first. *)
  catalogs_ : list Catalog;
  scalars_ : registry ScalarFunction;
  tables_ : registry (TableFunction S);
  table_in_outs_ : registry (TableInOut S);
  aggregates_ : registry AggregateFunction;
  bufferings_ : registry (TableBufferingFunction S);
  copy_to_ : list CopyToFunction;
  copy_from_ : list CopyFromFunction;
}.

Definition new_dispatcher : Dispatcher :=
  mkDispatcher [new_catalog []] empty_registry empty_registry empty_registry empty_registry empty_registry [] [].

(** [catalog(name).schema(path)]: both made on first use. *)
Fixpoint declare (name : bytes) (path : list bytes) (l : list Catalog) : list Catalog :=
  match l with
  | [] => [with_schema path (new_catalog name)]
  | c :: l => if bool_decide (catalog_name_of c = name) then with_schema path c :: l else c :: declare name path l
  end.
Definition declared (scope : Scope) (d : Dispatcher) : list Catalog := declare (sc_catalog scope) (sc_schema_path scope) (catalogs_ d).

Definition null_function {T} (what : string) : result T := Throw (Invalid_argument (what +:+ ": null function")).

Definition register_scalar_in (scope : Scope) (fn : option ScalarFunction) (d : Dispatcher) : result Dispatcher :=
  match fn with
  | None => null_function "register_scalar"
  | Some fn => Ok (mkDispatcher (declared scope d) (register sf_name (scalars_ d) scope fn) (tables_ d) (table_in_outs_ d)
                     (aggregates_ d) (bufferings_ d) (copy_to_ d) (copy_from_ d))
  end.
Definition register_table_in (scope : Scope) (fn : option (TableFunction S)) (d : Dispatcher) : result Dispatcher :=
  match fn with
  | None => null_function "register_table"
  | Some fn => Ok (mkDispatcher (declared scope d) (scalars_ d) (register tf_name (tables_ d) scope fn) (table_in_outs_ d)
                     (aggregates_ d) (bufferings_ d) (copy_to_ d) (copy_from_ d))
  end.

Definition check_input_rows_per_call (fn : TableInOut S) : result unit :=
  match to_input_rows_per_call fn with
  | None => Ok tt
  | Some rows =>
      throw_if (negb (to_input_from_args fn)) (Invalid_argument (str (to_name fn) +:+
        ": input_rows_per_call applies only to a blended (input_from_args) table-in-out " +:+
        "function, whose per-row input the client can split into calls"));;
      throw_if (rows <? 1) (Invalid_argument (str (to_name fn) +:+
        ": input_rows_per_call must be a positive row count, got " +:+ Metadata.number rows))
  end.

Definition register_table_in_out_in (scope : Scope) (fn : option (TableInOut S)) (d : Dispatcher) : result Dispatcher :=
  match fn with
  | None => null_function "register_table_in_out"
  | Some fn =>
      check_input_rows_per_call fn;;
      Ok (mkDispatcher (declared scope d) (scalars_ d) (tables_ d) (register to_name (table_in_outs_ d) scope fn)
            (aggregates_ d) (bufferings_ d) (copy_to_ d) (copy_from_ d))
  end.
Definition register_aggregate_in (scope : Scope) (fn : option AggregateFunction) (d : Dispatcher) : result Dispatcher :=
  match fn with
  | None => null_function "register_aggregate"
  | Some fn => Ok (mkDispatcher (declared scope d) (scalars_ d) (tables_ d) (table_in_outs_ d)
                     (register ag_name (aggregates_ d) scope fn) (bufferings_ d) (copy_to_ d) (copy_from_ d))
  end.
Definition register_buffering_in (scope : Scope) (fn : option (TableBufferingFunction S)) (d : Dispatcher) : result Dispatcher :=
  match fn with
  | None => null_function "register_buffering"
  | Some fn => Ok (mkDispatcher (declared scope d) (scalars_ d) (tables_ d) (table_in_outs_ d) (aggregates_ d)
                     (register bf_name (bufferings_ d) scope fn) (copy_to_ d) (copy_from_ d))
  end.

(** Without a scope: the schema [main] of the primary catalog. *)
Definition primary_scope (d : Dispatcher) : Scope :=
  mkScope match catalogs_ d with c :: _ => catalog_name_of c | [] => [] end [bs "main"].

Definition register_copy_to (writer : option CopyToFunction) (d : Dispatcher) : result Dispatcher :=
  match writer with
  | None => Throw (Invalid_argument "register_copy_to: null writer")
  | Some w =>
      let d := mkDispatcher (catalogs_ d) (scalars_ d) (tables_ d) (table_in_outs_ d) (aggregates_ d) (bufferings_ d)
                 (copy_to_ d ++ [w]) (copy_from_ d) in
      register_buffering_in (primary_scope d) (Some (to_sink w)) d
  end.
Definition register_copy_from (from_rows : list batch → Producer.TableProducer S * S) (reader : option CopyFromFunction)
    (d : Dispatcher) : result Dispatcher :=
  match reader with
  | None => Throw (Invalid_argument "register_copy_from: null reader")
  | Some r =>
      let d := mkDispatcher (catalogs_ d) (scalars_ d) (tables_ d) (table_in_outs_ d) (aggregates_ d) (bufferings_ d)
                 (copy_to_ d) (copy_from_ d ++ [r]) in
      register_table_in (primary_scope d) (Some (from_scan from_rows r)) d
  end.

(** ** Finding a function *)

Context `{A : Arrow} `{C : Compute}.
Context (d : Dispatcher).

Definition scope_of (p : BindParams) : Scope := mkScope (bp_catalog_name p) (bp_schema_path p).

Definition find_buffering (name : bytes) (scope : Scope) := find_in (bufferings_ d) name scope.
Definition require_buffering (name : bytes) (scope : Scope) : result (TableBufferingFunction S) :=
  from_opt (Invalid_argument ("no buffering function named '" +:+ str name +:+ "'")) (find_buffering name scope).

Definition require_aggregate (name : bytes) (scope : Scope) : result AggregateFunction :=
  from_opt (Invalid_argument ("no aggregate function named '" +:+ str name +:+ "' in schema '" +:+
                              str (schema_path_string (sc_schema_path scope)) +:+ "'"))
    (find_in (aggregates_ d) name scope).

Definition find_table_in_out (name : bytes) (scope : Scope) := find_in (table_in_outs_ d) name scope.

Definition find_table (name : bytes) (scope : Scope) (params : option BindParams) : option (TableFunction S) :=
  match params with
  | None => find_in (tables_ d) name scope
  | Some p => choose tf_argument_specs (named_in (tables_ d) name scope) (input_type p)
  end.

Definition resolve_scalar (name : bytes) (p : BindParams) : result ScalarFunction :=
  from_opt (Invalid_argument ("no scalar function named '" +:+ str name +:+ "'"))
    (choose sf_argument_specs (named_in (scalars_ d) name (scope_of p)) (input_type p)).

(** The secrets a function asks for, on its first bind only. *)
Definition required_secrets_of (name : bytes) (p : BindParams) : list SecretLookup :=
  if bp_secrets_resolved p then []
  else match find_buffering name (scope_of p) with
       | Some fn =>
           match List.find (λ w, bool_decide (ct_handler_name w = name)) (copy_to_ d) with
           | Some w => ct_secret_lookups w p
           | None => bf_required_secrets fn
           end
       | None =>
           match find_table_in_out name (scope_of p) with
           | Some fn => to_secret_lookups fn p
           | None =>
               match find_table name (scope_of p) (Some p) with
               | Some fn => tf_secret_lookups fn p
               | None => match named_in (scalars_ d) name (scope_of p) with fn :: _ => sf_secret_lookups fn p | [] => [] end
               end
           end
       end.

Definition argument_specs_of (name : bytes) (p : BindParams) : list ArgSpec :=
  match find_buffering name (scope_of p) with
  | Some fn => bf_argument_specs fn
  | None =>
      match find_table_in_out name (scope_of p) with
      | Some fn => to_argument_specs fn
      | None =>
          match find_table name (scope_of p) (Some p) with
          | Some fn => tf_argument_specs fn
          | None => match named_in (scalars_ d) name (scope_of p) with fn :: _ => sf_argument_specs fn | [] => [] end
          end
      end
  end.

End dispatcher.
Arguments Dispatcher : clear implicits.

End Dispatch.
