(* ===== verification/ArgCheck.v ===== *)
(** * The checks of a call's arguments ([src/function_dispatch.cpp])

    What a declaration demands of the types and of the constant arguments of a
    call, refused at bind with an error that names the function and the argument.
    Regular expressions and the JSON reader are parameters.  The theorem: what the
    checks let through keeps every demand of the declaration. *)

From Stdlib Require Import SpecFloat.
From S2P Require Import Prelude Text Crypto Arrow ArrowCompute Wire Metadata WireSchema FunctionSpec Arguments Json Functions.
Import Wire FunctionSpec Arguments Functions.

Module ArgCheck.

(** [std::regex(pattern)] and [std::regex_search]; none for a [std::regex_error]. *)
Class Regex := regex_search : string → bytes → option bool.
(** [json::dump]; none for an exception. *)
Class JsonDump := json_dump : Json.json → option string.

(** ** [std::to_string(double)]: six digits after the point *)

Definition round_half_even (num den : Z) : Z :=
  let q := num / den in
  let r := 2 * (num mod den) in
  if (den <? r) || ((r =? den) && Z.odd q) then q + 1 else q.

(** The value times a million, rounded. *)
Definition millionths (m : positive) (e : Z) : Z :=
  let n := Z.pos m * 10 ^ 6 in
  if 0 <=? e then n * 2 ^ e else round_half_even n (2 ^ (- e)).

(** The largest double has 309 digits before the point. *)
Definition decimal (z : Z) : bytes := dec_loop 320 z [].

Definition fixed (n : Z) : bytes :=
  let frac := decimal (n mod 10 ^ 6) in
  decimal (n / 10 ^ 6) ++ zb 46 :: replicate (6 - length frac) (zb 48) ++ frac.

Definition double_text (f : spec_float) : string :=
  let sign (s : bool) := if s then "-"%string else "" in
  match f with
  | S754_nan => "nan"
  | S754_infinity s => sign s +:+ "inf"
  | S754_zero s => sign s +:+ "0.000000"
  | S754_finite s m e => sign s +:+ str (fixed (millionths m e))
  end.

Section check.
Context `{A : Arrow} `{C : Compute} `{J : Json.JsonParser} `{D : JsonDump} `{X : Regex}.

(** Whether the text is one of a JSON array of choices; a declaration that is no
    such array, or whose reading throws, allows everything. *)
Fixpoint among (choices : list Json.json) (value : bytes) : bool :=
  match choices with
  | [] => false
  | c :: choices =>
      match (match c with Json.J_string s => Some s | c => json_dump c end) with
      | None => true
      | Some s => bool_decide (bs s = value) || among choices value
      end
  end.
Definition json_array_contains (choices : string) (value : bytes) : bool :=
  match Json.json_parse choices with
  | inl _ => true
  | inr (_, Json.J_array l) => among l value
  | inr _ => true
  end.

Definition check_type_bounds (function_name : bytes) (specs : list ArgSpec) (p : BindParams) : result unit :=
  foldr (λ s (rest : result unit),
    match sp_type_bound s, position s with
    | Some (mkTypeBound bound (Some accepts)), Some i =>
        match input_type p (Z.to_nat i) with
        | Some t =>
            if accepts t then rest
            else Throw (Invalid_argument ("function '" +:+ str function_name +:+ "' argument '" +:+ sp_name s +:+
                                          "' requires " +:+ bound +:+ ", got " +:+ type_to_string t))
        | None => rest
        end
    | _, _ => rest
    end) (Ok tt) specs.

(** *** One argument *)

(** The place a spec is checked at: a negative index is read as the first. *)
Definition check_position (s : ArgSpec) : nat := Z.to_nat (default 0 (position s)).
Definition by_position (s : ArgSpec) : bool := bool_decide (is_Some (sp_index s)).

Definition supplied_null (s : ArgSpec) (a : Arguments) : bool :=
  if by_position s then positional_is_null a (check_position s) else named_is_null a (sp_name s).
Definition double_of (s : ArgSpec) (a : Arguments) : option spec_float :=
  if by_position s then const_double a (check_position s) else named_double a (sp_name s).
Definition text_of_arg (s : ArgSpec) (a : Arguments) : option bytes :=
  if by_position s then const_string a (check_position s) else named_string a (sp_name s).

Definition refuse {T} (function_name : bytes) (s : ArgSpec) (bound : string) : result T :=
  Throw (Invalid_argument ("function '" +:+ str function_name +:+ "' argument '" +:+ sp_name s +:+ "' must be " +:+ bound)).

(** A refusal, when the declaration has the bound and the value fails it. *)
Definition refuse_if {X} (function_name : bytes) (s : ArgSpec) (x : option X) (fails : X → bool) (bound : X → string) : result unit :=
  match x with
  | Some x => if fails x then refuse function_name s (bound x) else Ok tt
  | None => Ok tt
  end.
Definition check_bound (function_name : bytes) (s : ArgSpec) (bound : option spec_float) (fails : spec_float → bool) (op : string)
    : result unit :=
  refuse_if function_name s bound fails (λ b, op +:+ double_text b).

Definition check_range (function_name : bytes) (s : ArgSpec) (a : Arguments) : result unit :=
  match sp_ge s, sp_le s, sp_gt s, sp_lt s with
  | None, None, None, None => Ok tt
  | _, _, _, _ =>
      match double_of s a with
      | None => Ok tt
      | Some v =>
          check_bound function_name s (sp_ge s) (λ b, SFltb v b) ">= ";;
          check_bound function_name s (sp_gt s) (λ b, SFleb v b) "> ";;
          check_bound function_name s (sp_le s) (λ b, SFltb b v) "<= ";;
          check_bound function_name s (sp_lt s) (λ b, SFleb b v) "< "
      end
  end.

Definition check_text (function_name : bytes) (s : ArgSpec) (a : Arguments) : result unit :=
  match sp_choices s, sp_pattern s with
  | None, None => Ok tt
  | choices, pattern =>
      match text_of_arg s a with
      | None => Ok tt
      | Some text =>
          refuse_if function_name s choices (λ c, negb (json_array_contains c text)) (λ c, "one of " +:+ c);;
          refuse_if function_name s pattern (λ p, bool_decide (regex_search p text = Some false))
            (λ p, "a match for /" +:+ p +:+ "/")
      end
  end.

Definition check_spec (function_name : bytes) (a : Arguments) (s : ArgSpec) : result unit :=
  throw_if (negb (by_position s) && sp_required s && negb (bool_decide (is_Some (named_value a (sp_name s)))))
    (Invalid_argument ("function '" +:+ str function_name +:+ "' requires argument '" +:+ sp_name s +:+ "'"));;
  throw_if ((sp_constant s || negb (by_position s)) && negb (sp_varargs s) && supplied_null s a)
    (Invalid_argument ("function '" +:+ str function_name +:+ "' argument '" +:+ sp_name s +:+ "' cannot be NULL"));;
  if negb (sp_constant s) && by_position s then Ok tt
  else check_range function_name s a;; check_text function_name s a.

Fixpoint check_arg_constraints (function_name : bytes) (specs : list ArgSpec) (a : Arguments) : result unit :=
  match specs with
  | [] => Ok tt
  | s :: specs => check_spec function_name a s;; check_arg_constraints function_name specs a
  end.

(** ** What is demanded of an argument *)

(** A constant of the call: a constant parameter, or a named one. *)
Definition is_constant (s : ArgSpec) : Prop := sp_constant s = true ∨ sp_index s = None.

(** The value is at least [ge], more than [gt], at most [le] and less than [lt]. *)
Definition in_range (s : ArgSpec) (v : spec_float) : Prop :=
  (∀ b, sp_ge s = Some b → SFleb b v = true) ∧ (∀ b, sp_gt s = Some b → SFltb b v = true) ∧
  (∀ b, sp_le s = Some b → SFleb v b = true) ∧ (∀ b, sp_lt s = Some b → SFltb v b = true).

Definition admissible (a : Arguments) (s : ArgSpec) : Prop :=
  (sp_index s = None → sp_required s = true → is_Some (named_value a (sp_name s))) ∧
  (is_constant s →
     (sp_varargs s = false → supplied_null s a = false) ∧
     (∀ v, double_of s a = Some v → in_range s v) ∧
     (∀ t, text_of_arg s a = Some t →
        (∀ c, sp_choices s = Some c → json_array_contains c t = true) ∧
        (∀ p, sp_pattern s = Some p → regex_search p t ≠ Some false))).

(** The declared bounds of the constants are numbers, and so are the values the
    call has for them. *)
Definition numbers (a : Arguments) (s : ArgSpec) : Prop :=
  (∀ b, b ∈ [sp_ge s; sp_gt s; sp_le s; sp_lt s] → b ≠ Some S754_nan) ∧ (is_constant s → double_of s a ≠ Some S754_nan).

(** Of two numbers one is below the other or the other at most the one. *)
Lemma compare_swap (x y : spec_float) : SFcompare x y = CompOpp <$> SFcompare y x.
Proof using Type.
  destruct x as [[]|[]| |[] m e], y as [[]|[]| |[] m' e']; cbn; try done; f_equal;
    rewrite (Z.compare_antisym e' e), (ZC4 m m'); destruct (e' ?= e); cbn; try done; by rewrite CompOpp_involutive.
Qed.

Lemma compare_some (x y : spec_float) : x ≠ S754_nan → y ≠ S754_nan → is_Some (SFcompare x y).
Proof using Type.
  destruct x as [[]|[]| |[] m e], y as [[]|[]| |[] m' e']; cbn; try done; by eexists.
Qed.

Lemma not_below (x y : spec_float) :
  x ≠ S754_nan → y ≠ S754_nan → (SFltb x y = false ↔ SFleb y x = true) ∧ (SFleb x y = false ↔ SFltb y x = true).
Proof using Type.
  intros Hx Hy. destruct (compare_some x y Hx Hy) as [c Hc]. unfold SFltb, SFleb. rewrite (compare_swap y x), Hc. by destruct c.
Qed.

Lemma refuse_if_Ok {T} name s (x : option T) fails bound :
  refuse_if name s x fails bound = Ok tt ↔ ∀ y, x = Some y → fails y = false.
Proof using Type.
  unfold refuse_if, refuse. destruct x as [y|]; [|split; [by intros _ b|done]].
  destruct (fails y) eqn:E; (split; [|intros H; specialize (H y eq_refl); congruence]); [done|by intros _ ? [= <-]].
Qed.

(** What the checks compare: the negations of what a range demands. *)
Definition passes (s : ArgSpec) (v : spec_float) : Prop :=
  (∀ b, sp_ge s = Some b → SFltb v b = false) ∧ (∀ b, sp_gt s = Some b → SFleb v b = false) ∧
  (∀ b, sp_le s = Some b → SFltb b v = false) ∧ (∀ b, sp_lt s = Some b → SFleb b v = false).

Lemma passes_in_range a s v :
  numbers a s → is_constant s → double_of s a = Some v → passes s v ↔ in_range s v.
Proof using Type.
  intros [Hb Hv] Hc Hd. assert (v ≠ S754_nan) as Hn by (intros ->; exact (Hv Hc Hd)).
  assert (∀ (o : option spec_float) b, o ∈ [sp_ge s; sp_gt s; sp_le s; sp_lt s] → o = Some b → b ≠ S754_nan) as Hbn
    by (intros o b Ho -> ->; exact (Hb _ Ho eq_refl)).
  unfold passes, in_range. split; intros (H1 & H2 & H3 & H4); split_and!; intros b E;
    (assert (b ≠ S754_nan) as Hbb by (eapply Hbn; [|exact E]; set_solver));
    first [apply H1 in E | apply H2 in E | apply H3 in E | apply H4 in E];
    first [by apply (not_below v b)|by apply (not_below b v)].
Qed.

(** Every comparison with NaN is false, so that none refuses it. *)
Lemma nan_passes s : passes s S754_nan.
Proof using Type. unfold passes, SFltb, SFleb. split_and!; intros b _; by destruct b as [[]|[]| |[]]. Qed.

Lemma check_range_Ok name s a : check_range name s a = Ok tt ↔ ∀ v, double_of s a = Some v → passes s v.
Proof using Type.
  assert (check_range name s a = Ok tt ↔ match double_of s a with Some v =>
    (check_bound name s (sp_ge s) (λ b, SFltb v b) ">= ";; check_bound name s (sp_gt s) (λ b, SFleb v b) "> ";;
     check_bound name s (sp_le s) (λ b, SFltb b v) "<= ";; check_bound name s (sp_lt s) (λ b, SFleb b v) "< ") = Ok tt
    | None => True end) as ->.
  { unfold check_range. destruct (double_of s a) as [v|]; [|by destruct (sp_ge s), (sp_le s), (sp_gt s), (sp_lt s)].
    by destruct (sp_ge s), (sp_le s), (sp_gt s), (sp_lt s). }
  destruct (double_of s a) as [v|]; [|naive_solver]. rewrite !seq_Ok. unfold check_bound. rewrite !refuse_if_Ok. unfold passes.
  split; [intros H ? [= <-]; tauto|intros H; by apply H].
Qed.

Lemma check_text_Ok name s a :
  check_text name s a = Ok tt ↔ ∀ t, text_of_arg s a = Some t →
    (∀ c, sp_choices s = Some c → json_array_contains c t = true) ∧
    (∀ p, sp_pattern s = Some p → regex_search p t ≠ Some false).
Proof using Type.
  assert (check_text name s a = Ok tt ↔ match text_of_arg s a with Some t =>
    (refuse_if name s (sp_choices s) (λ c, negb (json_array_contains c t)) (λ c, "one of " +:+ c);;
     refuse_if name s (sp_pattern s) (λ p, bool_decide (regex_search p t = Some false)) (λ p, "a match for /" +:+ p +:+ "/")) = Ok tt
    | None => True end) as ->.
  { unfold check_text. by destruct (sp_choices s), (sp_pattern s), (text_of_arg s a). }
  destruct (text_of_arg s a) as [t|]; [|naive_solver]. rewrite seq_Ok, !refuse_if_Ok.
  setoid_rewrite negb_false_iff. setoid_rewrite bool_decide_eq_false.
  split; [intros H ? [= <-]; exact H|intros H; by apply H].
Qed.

Lemma check_arg_Ok name a s : numbers a s → check_spec name a s = Ok tt ↔ admissible a s.
Proof using Type.
  intros Hnum. assert (is_constant s → (∀ v, double_of s a = Some v → in_range s v) ↔ ∀ v, double_of s a = Some v → passes s v) as Hr
    by (intros Hc; split; intros H v Hv; apply (passes_in_range a s v Hnum Hc Hv); auto).
  transitivity ((sp_index s = None → sp_required s = true → is_Some (named_value a (sp_name s))) ∧
    (is_constant s → (sp_varargs s = false → supplied_null s a = false) ∧
     (∀ v, double_of s a = Some v → passes s v) ∧
     (∀ t, text_of_arg s a = Some t →
        (∀ c, sp_choices s = Some c → json_array_contains c t = true) ∧
        (∀ p, sp_pattern s = Some p → regex_search p t ≠ Some false)))); [clear Hr Hnum|unfold admissible; tauto].
  unfold check_spec, is_constant. rewrite !bind_throw_if_Ok.
  assert ((if negb (sp_constant s) && by_position s then Ok tt else check_range name s a;; check_text name s a) = Ok tt ↔
    (sp_constant s = true ∨ sp_index s = None → check_range name s a = Ok tt ∧ check_text name s a = Ok tt)) as ->.
  { unfold by_position. destruct (sp_constant s), (sp_index s); cbn; rewrite ?seq_Ok; naive_solver. }
  rewrite check_range_Ok, check_text_Ok. unfold by_position.
  destruct (sp_index s) as [i|]; cbn; destruct (sp_constant s), (sp_required s), (sp_varargs s); cbn;
    try (case_bool_decide as E; cbn); destruct (supplied_null s a); first [intuition congruence|naive_solver].
Qed.

Lemma check_args_Ok name specs a :
  Forall (numbers a) specs → check_arg_constraints name specs a = Ok tt ↔ Forall (admissible a) specs.
Proof using Type.
  induction 1 as [|s specs Hs _ IH]; [split; [by constructor|done]|]. cbn.
  by rewrite seq_Ok, IH, check_arg_Ok, Forall_cons.
Qed.

(** Whatever the bounds, an argument that is checked against numbers is admissible. *)
Lemma checked_admissible name specs a :
  check_arg_constraints name specs a = Ok tt → Forall (λ s, numbers a s → admissible a s) specs.
Proof using Type.
  induction specs as [|s specs IH]; [by constructor|]. cbn. rewrite seq_Ok. intros [Hs Hr].
  constructor; [|by apply IH]. intros Hn. by apply (check_arg_Ok name).
Qed.

Definition invalid_argument (e : exn) : Prop := ∃ what, e = Invalid_argument what.

Lemma refuse_if_throws {T} name s (x : option T) fails bound : throws_only invalid_argument (refuse_if name s x fails bound).
Proof using Type.
  unfold refuse_if, refuse. destruct x as [y|]; [|apply throws_only_Ok]. destruct (fails y); [|done].
  cbn. unfold invalid_argument. eauto.
Qed.

Lemma check_spec_throws name a s : throws_only invalid_argument (check_spec name a s).
Proof using Type.
  unfold check_spec, check_range, check_text, check_bound.
  apply throws_only_bind; [apply throws_only_throw_if; by eexists|intros _].
  apply throws_only_bind; [apply throws_only_throw_if; by eexists|intros _].
  destruct (_ && _); [apply throws_only_Ok|]. apply throws_only_bind; [|intros _].
  - assert (∀ v, throws_only invalid_argument
      (refuse_if name s (sp_ge s) (λ b, SFltb v b) (λ b, ">= " +:+ double_text b);;
       refuse_if name s (sp_gt s) (λ b, SFleb v b) (λ b, "> " +:+ double_text b);;
       refuse_if name s (sp_le s) (λ b, SFltb b v) (λ b, "<= " +:+ double_text b);;
       refuse_if name s (sp_lt s) (λ b, SFleb b v) (λ b, "< " +:+ double_text b))) as Hr
      by (intros v; repeat (apply throws_only_bind; [apply refuse_if_throws|intros _]); apply refuse_if_throws).
    destruct (sp_ge s), (sp_le s), (sp_gt s), (sp_lt s), (double_of s a); try apply throws_only_Ok; apply Hr.
  - destruct (sp_choices s), (sp_pattern s), (text_of_arg s a); try apply throws_only_Ok;
      (apply throws_only_bind; [apply refuse_if_throws|intros _; apply refuse_if_throws]).
Qed.

End check.

(** *** [clamp(level, mode := ...)]: a level from 1 to 10 and one of two modes *)

Definition number (z : Z) : spec_float := binary_normalize 53 1024 z 0 false.
Definition clamp_specs : list ArgSpec :=
  [with_range (Some (number 1)) (Some (number 10)) (constant_arg "level" 0 "double" "")].
Definition clamp_args (v : spec_float) : Arguments := mkArguments [Some (mkArray T_double [V_float v])] [None] ∅.
#[local] Existing Instances toy_compute sample_arrow.
#[local] Instance no_regex : Regex := λ _ _, None.
#[local] Instance no_json : Json.JsonParser := λ _, inl "no JSON"%string.
#[local] Instance no_dump : JsonDump := λ _, None.


(** NaN is let through, although it is in no range. *)
Example nan_unbounded :
  check_arg_constraints (bs "clamp") clamp_specs (clamp_args S754_nan) = Ok tt ∧
  ¬ Forall (admissible (clamp_args S754_nan)) clamp_specs.
Proof.
  split; [vm_compute; reflexivity|]. intros Ha. apply Forall_cons in Ha as [[_ Hc] _]. destruct Hc as (_ & Hr & _); [by left|].
  destruct (Hr S754_nan) as (Hge & _); [vm_compute; reflexivity|]. pose proof (Hge (number 1) eq_refl) as E. discriminate E.
Qed.

Example double_texts :
  double_text (S754_finite false 1 (-1)) = "0.500000"%string ∧ double_text (S754_finite true 5 1) = "-10.000000"%string ∧
  double_text (S754_finite false 7205759403792794 (-56)) = "0.100000"%string.
Proof. vm_compute. done. Qed.

End ArgCheck.
