(* ===== verification/Calls.v ===== *)
(** * The call a request describes ([src/function_dispatch.cpp], [src/wire.cpp])

    Every call of a function carries its bind request: the arguments, settings
    and secrets, the catalog the attachment says, the place in it, the COPY it
    serves.  [read_bind_request] puts them together; the attachment's secret
    options may come from the storage, so that it is a program.  The theorem: the
    parameters of a call are those its request carries -- with the catalog, id and
    options of the attachment, and the constants re-seated for the function the
    name and the arguments choose. *)

From S2P Require Import Prelude Text Crypto Arrow ArrowCompute Wire Metadata Protocol StorageSpec StorageClient AttachService Attachment WireSchema FunctionSpec Arguments Settings Functions Dispatch.
Import Wire Metadata StorageClient WireSchema FunctionSpec Arguments Functions Dispatch.

Module Calls.

Section calls.
Context `{A : Arrow} `{C : Compute} `{B : Base64} `{M : Memory} `{X : Settings.ScalarText} `{L : SchemaCodec} {S : Type}.
(** The worker, and whether its transport seals opaque values. *)
Context (d : Dispatcher S) (sealing : bool).

(** ** A struct's cells as text *)

(** [child->IsNull(0)] skips a child, and so does a scalar that has no text. *)
Definition struct_text (column : array) (j : nat) (f : field) : list (string * string) :=
  let child := struct_field column j in
  match first child with
  | V_null => []
  | V_text s => match f_type f with
                | T_string => [(f_name f, str s)]
                | _ => match Settings.scalar_text child 0 with Some t => [(f_name f, t)] | None => [] end
                end
  | _ => match Settings.scalar_text child 0 with Some t => [(f_name f, t)] | None => [] end
  end.

Definition get_struct_fields (b : option batch) (field : string) : result (option (gmap string string)) :=
  if negb (has_column b field) then Ok None else
  column ← Wire.column b field;
  Ok match a_type column, a_values column with
     | T_struct _, [] | T_struct _, V_null :: _ => None
     | T_struct fs, _ => Some (insert_all (mjoin (imap (struct_text column) fs)) ∅)
     | _, _ => None
     end.

(** ** The bind request *)

(** [attachment_of] for the catalogs of the worker. *)
Definition attachment_of (request : option batch) : prog Attachment.Attachment :=
  match map ct_model (catalogs_ d) with
  | [] => Fail (Undefined_behaviour "no primary catalog")
  | primary :: others => Attachment.attachment_of primary others sealing request
  end.

Definition text_or_empty (b : option batch) (field : string) : result bytes :=
  s ← get_optional_binary b field; Ok (default [] s).

(** An empty clause is none. *)
Definition clause (b : option batch) (field : string) : result (option bytes) :=
  s ← get_optional_string b field; Ok match s with Some [] => None | s => s end.

Definition cell_of (m : option (gmap string string)) (name : string) : option bytes := bs <$> (m ≫= λ m, m !! name).

Definition seated (name : bytes) (p : BindParams) : BindParams :=
  with_arguments (remap_positional (argument_specs_of d name p) (bp_arguments p)) p.

Definition with_source (b : option batch) (p : BindParams) : result BindParams :=
  copy_from ← get_struct_fields b "copy_from";
  match copy_from with
  | None => Ok p
  | Some m =>
      s ← get_struct_binary b "copy_from" "expected_schema";
      schema ← decode_schema (default [] s);
      Ok (with_copy_from (cell_of (Some m) "format") (cell_of (Some m) "file_path") schema p)
  end.

Definition read_bind_request (b : option batch) : prog BindParams :=
  input_schema ← lift (get_schema b "input_schema");
  arguments ← lift (text_or_empty b "arguments" ≫= parse);
  settings ← lift (text_or_empty b "settings" ≫= Settings.parse_settings);
  secrets ← lift (text_or_empty b "secrets" ≫= Settings.parse_secrets);
  path ← lift (get_schema_path b "schema_path");
  argument_names ← lift (get_optional_string_list b "argument_names");
  a ← attachment_of b;
  transaction ← lift (get_optional_binary b "transaction_opaque_data");
  at_unit ← lift (clause b "at_unit");
  at_value ← lift (clause b "at_value");
  resolved ← lift (get_optional_bool b "resolved_secrets_provided");
  copy_to ← lift (get_struct_fields b "copy_to");
  name ← lift (get_string b "function_name");
  lift (with_source b (seated name
    (mkBind input_schema arguments argument_names settings secrets (default false resolved)
       (cell_of copy_to "format") (cell_of copy_to "file_path") None None None
       (Attachment.at_catalog a) path (Attachment.at_options a) (Attachment.at_id a) transaction at_unit at_value))).

(** ** What a call reads *)

Lemma attachment_of_reads b : reads_only (attachment_of b).
Proof using Type.
  unfold attachment_of. destruct (map ct_model (catalogs_ d)) as [|primary others]; [reads_only|].
  unfold Attachment.attachment_of, Attachment.restore_secret_options. reads_only.
Qed.

(** Reading a request writes nothing. *)
Lemma read_bind_request_reads b : reads_only (read_bind_request b).
Proof using Type.
  unfold read_bind_request. repeat (apply reads_only_bind; [auto using attachment_of_reads with reads_only|intros ?]).
  apply reads_only_lift.
Qed.

(** What the parameters of a call are. *)
Record describes (b : option batch) (st : StorageSpec.store) (p : BindParams) : Prop := {
  described_attachment : ∃ a, answer (attachment_of b) st = Ok a ∧ bp_catalog_name p = Attachment.at_catalog a ∧
    bp_attachment_id p = Attachment.at_id a ∧ bp_attach_options p = Attachment.at_options a;
  described_path : get_schema_path b "schema_path" = Ok (bp_schema_path p);
  described_arguments : ∃ name args p0, get_string b "function_name" = Ok name ∧
    text_or_empty b "arguments" ≫= parse = Ok args ∧ bp_arguments p0 = args ∧ bp_input_schema p0 = bp_input_schema p ∧
    scope_of p0 = scope_of p ∧ bp_arguments p = remap_positional (argument_specs_of d name p0) args;
  described_settings : text_or_empty b "settings" ≫= Settings.parse_settings = Ok (bp_settings p);
  described_secrets : text_or_empty b "secrets" ≫= Settings.parse_secrets = Ok (bp_secrets p);
  described_resolved : ∃ r, get_optional_bool b "resolved_secrets_provided" = Ok r ∧ bp_secrets_resolved p = default false r;
}.

Lemma read_describes b st p : answer (read_bind_request b) st = Ok p → describes b st p.
Proof using Type.
  unfold read_bind_request.
  intros (isch & His & (args & Hargs & (ss & Hss & (secrets & Hsec & (path & Hpath & (names & Hnames &
    (a & Ha & H)%answer_bind_Ok)%answer_lift_Ok)%answer_lift_Ok)%answer_lift_Ok)%answer_lift_Ok)%answer_lift_Ok)%answer_lift_Ok.
  rewrite attachment_of_reads in H.
  apply answer_lift_Ok in H as (tx & Htx & (unit & Hunit & (value & Hvalue & (resolved & Hresolved & (copy & Hcopy &
    (name & Hname & H)%answer_lift_Ok)%answer_lift_Ok)%answer_lift_Ok)%answer_lift_Ok)%answer_lift_Ok).
  rewrite answer_lift in H. unfold with_source in H. apply bind_Ok in H as (from & Hfrom & H).
  match type of H with context [seated name ?q] => set (p0 := q) in * end.
  assert (∃ m f1 f2 s, p = seated name p0 ∨ (from = Some m ∧ p = with_copy_from f1 f2 s (seated name p0))) as (m & f1 & f2 & s & Hp).
  { destruct from as [m|]; [|injection H as <-; by exists ∅, None, None, None; left].
    apply bind_Ok in H as (e & _ & (schema & _ & [= <-])%bind_Ok). by exists m; do 3 eexists; right. }
  split.
  - exists a. by destruct Hp as [-> | [_ ->]].
  - by destruct Hp as [-> | [_ ->]].
  - exists name, args, p0. by destruct Hp as [-> | [_ ->]].
  - by destruct Hp as [-> | [_ ->]].
  - by destruct Hp as [-> | [_ ->]].
  - exists resolved. by destruct Hp as [-> | [_ ->]].
Qed.
End calls.

(** ** Library parameters to try calls with *)

Definition trial_memory : Memory := 1024.
Definition trial_text : Settings.ScalarText := λ _ _, None.

End Calls.
