(* ===== verification/Aggregate.v ===== *)
(** * Aggregates ([src/aggregate.cpp])

    An aggregate is driven by separate calls -- bind, updates, combines, finalize
    -- that may reach any worker process; the state of each group is in the
    storage, under the execution.  The windowed and the streaming forms keep their
    partition and their running states there too.  Each handler is a program over
    the storage. *)

From stdpp Require Import sorting.
From S2P Require Import Prelude Text Crypto Arrow ArrowRecord ArrowCompute Wire Metadata Protocol StorageSpec StorageClient AttachService Attachment WireSchema FunctionSpec Arguments Settings Producer Functions Dispatch Calls.
Import Wire Metadata Protocol StorageClient WireSchema Arguments Functions Dispatch Calls.

Module Aggregate.

Definition kGroupColumnName : string := "__vgi_group_id".

(** [Int64Array::Value] of each row; what is under a null is not specified, and
    zero here, as Arrow's builders leave it. *)
Definition raw_ints (a : array) : list Z := map (λ v, default 0 (int_of v)) (a_values a).

(** ** Keys *)

Definition state_key (group_id : Z) : bytes := bs "aggregate.state." ++ to_string group_id.
Definition partition_key (partition_id : Z) : bytes := bs "window.partition." ++ to_string partition_id.
Definition schema_key (partition_id : Z) : bytes := bs "window.schema." ++ to_string partition_id.
Definition mask_key (partition_id : Z) : bytes := bs "window.mask." ++ to_string partition_id.
Definition rows_key (partition_id : Z) : bytes := bs "window.rows." ++ to_string partition_id.

#[global] Arguments state_key : simpl never.
#[global] Arguments partition_key : simpl never.
#[global] Arguments schema_key : simpl never.
#[global] Arguments mask_key : simpl never.
#[global] Arguments rows_key : simpl never.

(** ** The FILTER mask *)

(** The bit of row [i], the least significant of a byte first. *)
Definition mask_bit (packed : bytes) (i : nat) : bool :=
  match packed !! (i / 8)%nat with Some c => Z.testbit (bz c) (Z.of_nat (i mod 8)) | None => false end.
Definition unpack_mask (packed : bytes) (row_count : Z) : list bool :=
  if bool_decide (packed = []) || (row_count <=? 0) then []
  else map (mask_bit packed) (seq 0 (Z.to_nat row_count)).

(** ** Iterating maps in the order of their keys *)

Definition group_le (a b : Z * bytes) : Prop := a.1 <= b.1.
#[global] Instance group_le_dec a b : Decision (group_le a b).
Proof. unfold group_le. apply _. Defined.
Definition groups_in_order (m : gmap Z bytes) : list (Z * bytes) := merge_sort group_le (map_to_list m).

Definition state_le (a b : bytes * bytes) : Prop := lex_le a.1 b.1 = true.
#[global] Instance state_le_dec a b : Decision (state_le a b).
Proof. unfold state_le. apply _. Defined.
Definition states_in_order (m : gmap bytes bytes) : list (bytes * bytes) := merge_sort state_le (map_to_list m).

(** ** The states of groups in the storage *)

Section states.
Context (fn : AggregateFunction) (execution_id : bytes).

Definition load_group (states : gmap Z bytes) (id : Z) : prog (gmap Z bytes) :=
  match states !! id with
  | Some _ => Ret states
  | None => held ← kv_get execution_id (state_key id);
            Ret match held with Some v => <[id := v]> states | None => states end
  end.

(** Only groups that already have a state are loaded. *)
Definition update_states (group_ids : list Z) (columns : list array) : prog unit :=
  states ← for_fold group_ids load_group ∅;
  states ← lift (ag_update fn states group_ids columns);
  for_each (groups_in_order states) (λ e, kv_put execution_id (state_key e.1) e.2).

Definition combine_pair (pair : Z * Z) : prog unit :=
  source ← kv_get execution_id (state_key pair.1);
  match source with
  | None => Ret tt
  | Some source =>
      target ← kv_get execution_id (state_key pair.2);
      merged ← (match target with Some target => lift (ag_combine fn target source) | None => Ret source end : prog bytes);
      kv_put execution_id (state_key pair.2) merged
  end.
Definition combine_states (pairs : list (Z * Z)) : prog unit := for_each pairs combine_pair.

Definition states_of (group_ids : list Z) : prog (list (option bytes)) :=
  for_map group_ids (λ id, kv_get execution_id (state_key id)).

Definition kArguments : bytes := bs "aggregate.arguments".

#[global] Arguments kArguments : simpl never.

Definition keep_arguments (arguments : option bytes) : prog unit :=
  match arguments with Some a => kv_put execution_id kArguments a | None => Ret tt end.

Definition release : prog unit := match execution_id with [] => Ret tt | _ => clear execution_id end.

Section finalize.
Context `{A : Arrow} `{C : Compute} `{M : Memory}.

Definition finalize_states (output_schema : schema) (group_ids : list Z) : prog batch :=
  states ← states_of group_ids;
  stash ← kv_get execution_id kArguments;
  arguments ← lift (parse (default [] stash));
  lift (ag_finalize fn output_schema group_ids states arguments).
End finalize.

(** ** Running states *)

Definition kStreaming : bytes := bs "streaming".

(** A logged state: the key, up to the first NUL byte, and the state after it. *)
Fixpoint cut_nul (s : bytes) : option (bytes * bytes) :=
  match s with
  | [] => None
  | c :: s => if bool_decide (c = NUL) then Some ([], s) else '(k, v) ← cut_nul s; Some (c :: k, v)
  end.
Definition add_logged (states : gmap bytes bytes) (e : Z * bytes) : gmap bytes bytes :=
  match cut_nul e.2 with Some (k, v) => <[k := v]> states | None => states end.
Definition logged_states (l : list (Z * bytes)) : gmap bytes bytes := foldl add_logged ∅ l.

Definition key_count (key : string) : prog Z :=
  v ← kv_get execution_id (bs key); Ret (strtoull (default (bs "0") v)).

(** One chunk: its values, and the states logged for the next. *)
Definition chunk_values (chunk : batch) : prog array :=
  logged ← scan execution_id kStreaming [] 0 (2 ^ 64 - 1);
  partition_keys ← key_count "streaming.partition_keys";
  order_keys ← key_count "streaming.order_keys";
  '(values, states) ← lift (ag_streaming_chunk fn chunk partition_keys order_keys (logged_states logged));
  for_each (states_in_order states) (λ e, append execution_id kStreaming [] (e.1 ++ NUL :: e.2);; Ret tt);;
  Ret values.

(** ** A window's partition *)

Section window.
Context `{A : Arrow} `{L : SchemaCodec}.

(** The mask and the row count are read from the request between the writes. *)
Definition keep_partition (partition_id : Z) (partition : option batch) (output_schema : option schema)
    (filter_mask : result bytes) (row_count : result Z) : prog unit :=
  p ← lift (match partition with Some b => encode_ipc b | None => Ok [] end);
  kv_put execution_id (partition_key partition_id) p;;
  s ← lift (match output_schema with Some s => encode_schema s | None => Ok [] end);
  kv_put execution_id (schema_key partition_id) s;;
  mask ← lift filter_mask;
  kv_put execution_id (mask_key partition_id) mask;;
  rows ← lift row_count;
  kv_put execution_id (rows_key partition_id) (to_string rows).

Definition drop_partition (partition_id : Z) : prog unit :=
  kv_del execution_id (partition_key partition_id);;
  kv_del execution_id (schema_key partition_id);;
  kv_del execution_id (mask_key partition_id);;
  kv_del execution_id (rows_key partition_id).

Definition held_partition (partition_id : Z) : prog (option batch * schema) :=
  stored ← kv_get execution_id (partition_key partition_id);
  match stored with
  | None => Fail (Runtime_error ("aggregate_window: unknown partition " +:+ number partition_id))
  | Some stored =>
      partition ← lift (decode_ipc stored);
      s ← kv_get execution_id (schema_key partition_id);
      output_schema ← lift (decode_schema (default [] s));
      match output_schema with
      | None => Fail (Runtime_error ("aggregate_window: partition " +:+ number partition_id +:+ " has no output schema"))
      | Some output_schema => Ret (partition, output_schema)
      end
  end.

Definition held_mask (partition_id : Z) : prog (list bool) :=
  rows ← kv_get execution_id (rows_key partition_id);
  mask ← kv_get execution_id (mask_key partition_id);
  Ret (unpack_mask (default [] mask) (strtoll (default (bs "0") rows))).
End window.
End states.

(** The frames of a batched call: [frames_per_row] says how many each row takes of
    those left. *)
Fixpoint frames_of (per_row : list Z) (frames : list (Z * Z)) : list (list (Z * Z)) :=
  match per_row with
  | [] => []
  | n :: per_row => take (Z.to_nat n) frames :: frames_of per_row (drop (Z.to_nat n) frames)
  end.

(** ** The handlers *)

Section handlers.
Context `{A : Arrow} `{C : Compute} `{B : Base64} `{M : Memory} `{X : Settings.ScalarText} `{L : SchemaCodec} {S : Type}.
Context (d : Dispatcher S) (sealing : bool).

Definition split_group_ids (b : batch) : result (list Z * list array) :=
  match column_by_name b kGroupColumnName with
  | Some (mkArray T_int64 _ as ids) =>
      Ok (raw_ints ids,
          omap (λ e : field * array, if bool_decide (f_name e.1 = kGroupColumnName) then None else Some e.2)
            (zip (b_schema b) (b_columns b)))
  | _ => fail ("aggregate batch has no int64 '" +:+ kGroupColumnName +:+ "' column")
  end.

(** By name, or else by position. *)
Definition int64_column (b : batch) (name : string) (position : nat) : result (list Z) :=
  match (match column_by_name b name with Some a => Some a | None => b_columns b !! position end) with
  | Some (mkArray T_int64 _ as a) => Ok (raw_ints a)
  | _ => fail ("aggregate combine: no int64 '" +:+ name +:+ "' column")
  end.

Definition empty_envelope : result batch := envelope_of (mkBatch [] None 0 []).

Definition request_of (method : string) (request : option batch) : prog (option batch) :=
  dto ← lift (get_ipc request "request");
  match dto with None => Fail (Runtime_error (method +:+ ": empty request")) | Some _ => Ret dto end.

(** The function and the scope a request names. *)
Definition named_scope (dto : option batch) : prog (bytes * Scope) :=
  name ← lift (get_string dto "function_name");
  path ← lift (get_schema_path dto "schema_path");
  a ← attachment_of d sealing dto;
  Ret (name, mkScope (Attachment.at_catalog a) path).

Definition aggregate_bind (fresh : bytes) (request : option batch) : prog batch :=
  dto ← request_of "aggregate_bind" request;
  '(name, scope) ← named_scope dto;
  fn ← lift (require_aggregate d name scope);
  input_schema ← lift (get_schema dto "input_schema");
  arguments ← lift (text_or_empty dto "arguments" ≫= parse);
  names ← lift (get_optional_string_list dto "argument_names");
  settings ← lift (text_or_empty dto "settings" ≫= Settings.parse_settings);
  secrets ← lift (text_or_empty dto "secrets" ≫= Settings.parse_secrets);
  s ← lift (ag_bind fn (mkBind input_schema arguments names settings secrets false None None None None None
                          (sc_catalog scope) (sc_schema_path scope) None [] None None None));
  match s with
  | None => Fail (Runtime_error ("aggregate '" +:+ str name +:+ "' bound to no schema"))
  | Some s =>
      encoded ← lift (get_optional_binary dto "arguments");
      keep_arguments fresh encoded;;
      e ← lift (encode_schema s);
      lift (answer_payload "aggregate_bind" [("output_schema", Cell_binary e); ("execution_id", Cell_binary fresh)]%string)
  end.

Definition aggregate_update (request : option batch) : prog batch :=
  dto ← request_of "aggregate_update" request;
  '(name, scope) ← named_scope dto;
  execution_id ← lift (get_binary dto "execution_id");
  fn ← lift (require_aggregate d name scope);
  b ← lift (get_binary dto "input_batch" ≫= decode_ipc);
  match b with
  | None => lift empty_envelope
  | Some b =>
      '(group_ids, columns) ← lift (split_group_ids b);
      update_states fn execution_id group_ids columns;;
      lift empty_envelope
  end.

Definition aggregate_combine (request : option batch) : prog batch :=
  dto ← request_of "aggregate_combine" request;
  '(name, scope) ← named_scope dto;
  execution_id ← lift (get_binary dto "execution_id");
  fn ← lift (require_aggregate d name scope);
  b ← lift (get_binary dto "merge_batch" ≫= decode_ipc);
  match b with
  | None => lift empty_envelope
  | Some b =>
      sources ← lift (int64_column b "source_group_id" 0);
      targets ← lift (int64_column b "target_group_id" 1);
      combine_states fn execution_id (zip sources targets);;
      lift empty_envelope
  end.

(** The group ids of a finalize: the first column, if it is of int64. *)
Definition finalized_ids (b : option batch) : list Z :=
  match b ≫= λ b, b_columns b !! 0%nat with
  | Some (mkArray T_int64 _ as a) => raw_ints a
  | _ => []
  end.

Definition aggregate_finalize (request : option batch) : prog batch :=
  dto ← request_of "aggregate_finalize" request;
  '(name, scope) ← named_scope dto;
  execution_id ← lift (get_binary dto "execution_id");
  fn ← lift (require_aggregate d name scope);
  output_schema ← lift (get_schema dto "output_schema");
  match output_schema with
  | None => Fail (Runtime_error "aggregate_finalize: no output_schema")
  | Some output_schema =>
      ids ← lift (get_binary dto "group_ids_batch" ≫= decode_ipc);
      b ← finalize_states fn execution_id output_schema (finalized_ids ids);
      e ← lift (encode_ipc b);
      lift (answer_payload "aggregate_finalize" [("result_batch", Cell_binary e)]%string)
  end.

Definition count_text (dto : option batch) (field : string) : result bytes :=
  n ← get_optional_int64 dto field; Ok (to_string (default 0 n)).

Definition aggregate_streaming_open (fresh : bytes) (request : option batch) : prog batch :=
  dto ← request_of "aggregate_streaming_open" request;
  '(name, scope) ← named_scope dto;
  _ ← lift (require_aggregate d name scope);
  partition_keys ← lift (count_text dto "partition_key_count");
  kv_put fresh (bs "streaming.partition_keys") partition_keys;;
  order_keys ← lift (count_text dto "order_key_count");
  kv_put fresh (bs "streaming.order_keys") order_keys;;
  s ← lift (text_or_empty dto "output_schema");
  kv_put fresh (bs "streaming.output_schema") s;;
  lift (answer_payload "aggregate_streaming_open" [("execution_id", Cell_binary fresh)]%string).

Definition one_column (s : schema) (a : array) : batch := mkBatch s.1 s.2 (Z.of_nat (length (a_values a))) [a].

Definition aggregate_streaming_chunk (request : option batch) : prog batch :=
  dto ← request_of "aggregate_streaming_chunk" request;
  '(name, scope) ← named_scope dto;
  execution_id ← lift (get_binary dto "execution_id");
  fn ← lift (require_aggregate d name scope);
  s ← kv_get execution_id (bs "streaming.output_schema");
  output_schema ← lift (decode_schema (default [] s));
  chunk ← lift (get_binary dto "input_batch" ≫= decode_ipc);
  match chunk with
  | None => Fail (Runtime_error "aggregate_streaming_chunk: empty chunk")
  | Some chunk =>
      values ← chunk_values fn execution_id chunk;
      e ← lift (encode_ipc (one_column (default ([Field "result" (a_type values) true []], None) output_schema) values));
      lift (answer_payload "aggregate_streaming_chunk" [("result_batch", Cell_binary e)]%string)
  end.

(** The calls that release an execution never raise. *)
Definition released (request : option batch) : prog unit :=
  dto ← lift (get_ipc request "request");
  match dto with
  | None => Ret tt
  | Some _ => execution_id ← lift (text_or_empty dto "execution_id"); release execution_id
  end.
Definition aggregate_streaming_close (request : option batch) : prog batch := catch (released request) tt;; lift empty_envelope.
Definition aggregate_destructor (request : option batch) : prog batch := catch (released request) tt;; lift empty_envelope.

Definition aggregate_window_init (request : option batch) : prog batch :=
  dto ← request_of "aggregate_window_init" request;
  execution_id ← lift (get_binary dto "execution_id");
  partition_id ← lift (get_int64 dto "partition_id");
  partition ← lift (get_binary dto "partition_batch" ≫= decode_ipc);
  output_schema ← lift (get_schema dto "output_schema");
  keep_partition execution_id partition_id partition output_schema (text_or_empty dto "filter_mask")
    (n ← get_optional_int64 dto "row_count"; Ok (default 0 n));;
  lift empty_envelope.

Definition dropped (request : option batch) : prog unit :=
  dto ← lift (get_ipc request "request");
  match dto with
  | None => Ret tt
  | Some _ =>
      execution_id ← lift (text_or_empty dto "execution_id");
      match execution_id with
      | [] => Ret tt
      | _ =>
          partition_id ← lift (get_optional_int64 dto "partition_id");
          match partition_id with None => Ret tt | Some id => drop_partition execution_id id end
      end
  end.
Definition aggregate_window_destructor (request : option batch) : prog batch := catch (dropped request) tt;; lift empty_envelope.

Definition window_result (dto : option batch) (batched : bool) : prog batch :=
  '(name, scope) ← named_scope dto;
  execution_id ← lift (get_binary dto "execution_id");
  partition_id ← lift (get_int64 dto "partition_id");
  fn ← lift (require_aggregate d name scope);
  '(partition, output_schema) ← held_partition execution_id partition_id;
  starts ← lift (get_int64_list dto "frame_starts");
  ends ← lift (get_int64_list dto "frame_ends");
  frames ← (if batched then per_row ← lift (get_int64_list dto "frames_per_row"); Ret (frames_of per_row (zip starts ends))
            else Ret [zip starts ends] : prog (list (list (Z * Z))));
  mask ← held_mask execution_id partition_id;
  values ← lift (ag_window fn partition output_schema frames mask);
  e ← lift (encode_ipc (one_column output_schema values));
  lift (answer_payload (if batched then "aggregate_window_batch" else "aggregate_window") [("result_batch", Cell_binary e)]%string).

Definition aggregate_window (request : option batch) : prog batch :=
  dto ← request_of "aggregate_window" request; window_result dto false.
Definition aggregate_window_batch (request : option batch) : prog batch :=
  dto ← request_of "aggregate_window_batch" request; window_result dto true.
End handlers.

End Aggregate.
