(* ===== verification/AggregateSpec.v ===== *)
(** * What the aggregate calls compute ([src/aggregate.cpp])

    The abstract machine of an aggregation: a map of group states and the stashed
    arguments for each execution.  The theorem: the calls of any executions, in any
    order and on any worker processes that share the files, answer what the machine
    answers -- groups without a state are absent, never seeded; an execution never
    sees another's states. *)

From stdpp Require Import sorting.
From S2P Require Import Prelude Text Crypto Arrow ArrowRecord ArrowCompute Wire Storage StorageSpec StorageClient WireSchema FunctionSpec Arguments Functions Dispatch Calls Aggregate.
Import Storage StorageSpec StorageClient WireSchema Arguments Functions Calls Aggregate.

Module AggregateSpec.

(** ** The machine *)

Record exec_state := mkExec { x_groups : gmap Z bytes; x_arguments : option bytes }.
Definition fresh_exec : exec_state := mkExec ∅ None.

Inductive step : Type :=
| S_arguments (a : option bytes)
| S_update (group_ids : list Z) (columns : list array)
| S_combine (pairs : list (Z * Z))
| S_finalize (output_schema : schema) (group_ids : list Z)
| S_release.

Section machine.
Context `{A : Arrow} `{C : Compute} `{M : Memory}.
Context (fn : AggregateFunction).

Definition merge_pair (m : gmap Z bytes) (pair : Z * Z) : result (gmap Z bytes) :=
  match m !! pair.1 with
  | None => Ok m
  | Some source =>
      merged ← match m !! pair.2 with Some target => ag_combine fn target source | None => Ok source end;
      Ok (<[pair.2 := merged]> m)
  end.
(** The pairs merged until one fails. *)
Fixpoint merge_pairs (m : gmap Z bytes) (pairs : list (Z * Z)) : gmap Z bytes * result unit :=
  match pairs with
  | [] => (m, Ok tt)
  | p :: pairs => match merge_pair m p with Ok m => merge_pairs m pairs | Throw e => (m, Throw e) end
  end.

Definition seen (group_ids : list Z) (m : gmap Z bytes) : gmap Z bytes := filter (λ e, e.1 ∈ group_ids) m.

Definition model_step (exec : bytes) (x : exec_state) (s : step) : exec_state * result (option batch) :=
  match s with
  | S_arguments None => (x, Ok None)
  | S_arguments (Some a) => (mkExec (x_groups x) (Some a), Ok None)
  | S_update group_ids columns =>
      match ag_update fn (seen group_ids (x_groups x)) group_ids columns with
      | Ok m => (mkExec (m ∪ x_groups x) (x_arguments x), Ok None)
      | Throw e => (x, Throw e)
      end
  | S_combine pairs =>
      let '(m, r) := merge_pairs (x_groups x) pairs in (mkExec m (x_arguments x), r ≫= λ _, Ok None)
  | S_finalize output_schema group_ids =>
      (x, arguments ← parse (default [] (x_arguments x));
          b ← ag_finalize fn output_schema group_ids (map (λ id, x_groups x !! id) group_ids) arguments;
          Ok (Some b))
  | S_release => (match exec with [] => x | _ => fresh_exec end, Ok None)
  end.

Definition state_at (xs : gmap bytes exec_state) (exec : bytes) : exec_state := default fresh_exec (xs !! exec).

(** Calls of any executions, one after the other. *)
Fixpoint model_session (session : list (bytes * step)) (xs : gmap bytes exec_state) : list (result (option batch)) :=
  match session with
  | [] => []
  | (exec, s) :: session =>
      let '(x, r) := model_step exec (state_at xs exec) s in r :: model_session session (<[exec := x]> xs)
  end.

(** The program of a call. *)
Definition perform (exec : bytes) (s : step) : prog (option batch) :=
  match s with
  | S_arguments a => keep_arguments exec a;; Ret None
  | S_update group_ids columns => update_states fn exec group_ids columns;; Ret None
  | S_combine pairs => combine_states fn exec pairs;; Ret None
  | S_finalize output_schema group_ids => b ← finalize_states fn exec output_schema group_ids; Ret (Some b)
  | S_release => release exec;; Ret None
  end.

(** ** The storage holds the machine's state *)

(** The ids are those of an [Int64Array]. *)
Definition step_ok (s : step) : Prop :=
  match s with
  | S_update group_ids _ | S_finalize _ group_ids => Forall is_int64 group_ids
  | S_combine pairs => Forall (λ p, is_int64 p.1 ∧ is_int64 p.2) pairs
  | _ => True
  end.
Definition int_keys (m : gmap Z bytes) : Prop := ∀ id, is_Some (m !! id) → is_int64 id.
Definition update_typed : Prop := ∀ m group_ids columns m',
  ag_update fn m group_ids columns = Ok m' → int_keys m → Forall is_int64 group_ids → int_keys m'.

Record holds (st : store) (exec : bytes) (x : exec_state) : Prop := {
  holds_groups id : is_int64 id → s_kv st !! (exec, state_key id) = x_groups x !! id;
  holds_arguments : s_kv st !! (exec, kArguments) = x_arguments x;
  holds_int : int_keys (x_groups x);
}.

Lemma state_key_inj i j : is_int64 i → is_int64 j → state_key i = state_key j → i = j.
Proof using Type. intros Hi Hj H%app_inv_head. by apply to_string_inj. Qed.
Lemma state_key_arguments i : state_key i ≠ kArguments.
Proof using Type. done. Qed.

(** What a program writes is of one execution. *)
Definition confined {Y} (exec : bytes) (m : prog Y) : Prop :=
  ∀ st e k, e ≠ exec → s_kv (after m st) !! (e, k) = s_kv st !! (e, k).

Lemma confined_bind {Y Z} exec (m : prog Y) (f : Y → prog Z) :
  confined exec m → (∀ y, confined exec (f y)) → confined exec (m ≫= f).
Proof using Type.
  intros Hm Hf st e k He. rewrite after_bind. destruct (answer m st) as [y|]; [rewrite (Hf y _ _ _ He)|]; by apply Hm.
Qed.
Lemma confined_reads {Y} exec (m : prog Y) : reads_only m → confined exec m.
Proof using Type. intros Hm st e k _. by rewrite Hm. Qed.
Lemma confined_put exec key v : confined exec (kv_put exec key v).
Proof using Type. intros st e k He. unfold kv_put. rewrite after_call. cbn. rewrite lookup_insert_ne; [done|congruence]. Qed.
Lemma confined_clear exec : confined exec (clear exec).
Proof using Type.
  intros st e k He. unfold clear. rewrite after_call. cbn. destruct exec; [done|].
  cbn. apply option_eq. intros v. rewrite map_lookup_filter_Some. cbn. naive_solver.
Qed.
Lemma confined_for_each {Y} exec (l : list Y) f : (∀ y, confined exec (f y)) → confined exec (for_each l f).
Proof using Type.
  intros Hf. induction l as [|y l IH]; [by apply confined_reads|]. cbn. apply confined_bind; [apply Hf|by intros _].
Qed.

Lemma reads_only_for_fold {Y Z} (l : list Y) (f : Z → Y → prog Z) z : (∀ z y, reads_only (f z y)) → reads_only (for_fold l f z).
Proof using Type. intros Hf. revert z. induction l as [|y l IH]; intros z; cbn; [reads_only|]. apply reads_only_bind; auto. Qed.
Lemma reads_only_for_map {Y Z} (l : list Y) (f : Y → prog Z) : (∀ y, reads_only (f y)) → reads_only (for_map l f).
Proof using Type.
  intros Hf. induction l as [|y l IH]; cbn; [reads_only|]. apply reads_only_bind; [apply Hf|intros z].
  apply reads_only_bind; [apply IH|reads_only].
Qed.
Lemma load_reads exec m id : reads_only (load_group exec m id).
Proof using Type. unfold load_group. reads_only. Qed.

Lemma perform_confined exec s : confined exec (perform exec s).
Proof using Type.
  destruct s as [[a|]|ids cols|pairs|sch ids|]; cbn [perform];
    (apply confined_bind; [|intros; apply confined_reads; reads_only]).
  - apply confined_put.
  - by apply confined_reads.
  - unfold update_states. apply confined_bind; [apply confined_reads, reads_only_for_fold; apply load_reads|intros m].
    apply confined_bind; [apply confined_reads; reads_only|intros m'].
    apply confined_for_each. intros e. apply confined_put.
  - apply confined_for_each. intros p. unfold combine_pair.
    apply confined_bind; [apply confined_reads; reads_only|intros [source|]]; [|by apply confined_reads].
    apply confined_bind; [apply confined_reads; reads_only|intros target].
    apply confined_bind; [apply confined_reads; reads_only|intros v]. apply confined_put.
  - apply confined_reads. unfold finalize_states, states_of. apply reads_only_bind; [apply reads_only_for_map; reads_only|reads_only].
  - unfold release. destruct exec; [by apply confined_reads|apply confined_clear].
Qed.

(** ** Loading and saving *)

Lemma load_groups exec x st l m :
  holds st exec x → Forall is_int64 l →
  ∃ m', answer (for_fold l (load_group exec) m) st = Ok m' ∧
    ∀ id, m' !! id = match m !! id with Some v => Some v | None => if decide (id ∈ l) then x_groups x !! id else None end.
Proof using Type.
  intros Hx. revert m. induction l as [|i l IH]; intros m Hl.
  { exists m. split; [done|]. intros id. by destruct (m !! id). }
  apply Forall_cons in Hl as [Hi Hl].
  assert (∃ m1, answer (load_group exec m i) st = Ok m1 ∧
    ∀ id, m1 !! id = match m !! id with Some v => Some v | None => if decide (id = i) then x_groups x !! id else None end) as (m1 & H1 & Hm1).
  { unfold load_group. destruct (m !! i) as [v|] eqn:Hv.
    { exists m. split; [done|]. intros id. destruct (m !! id) eqn:E; [done|]. case_decide; congruence. }
    rewrite answer_bind. unfold kv_get. rewrite answer_call. cbn. eexists. split; [done|]. intros id.
    rewrite (holds_groups st exec x Hx i Hi). destruct (decide (id = i)) as [->|Hne].
    - rewrite Hv. destruct (x_groups x !! i); [by rewrite lookup_insert_eq|done].
    - destruct (x_groups x !! i); [rewrite lookup_insert_ne by done|]; by destruct (m !! id). }
  destruct (IH m1 Hl) as (m' & Ha & Hm'). exists m'. split.
  { cbn [for_fold]. rewrite answer_bind, H1. cbn. by rewrite (load_reads exec m i st). }
  intros id. rewrite Hm', Hm1. destruct (m !! id); [done|].
  destruct (decide (id = i)) as [->|Hne].
  - rewrite (decide_True (P := i ∈ i :: l)) by left. destruct (x_groups x !! i); [done|by case_decide].
  - destruct (decide (id ∈ l)); [rewrite decide_True by (by right)|rewrite decide_False by (by intros [?|?]%elem_of_cons)]; done.
Qed.

Lemma save_groups exec st (l : list (Z * bytes)) :
  let st' := after (for_each l (λ e, kv_put exec (state_key e.1) e.2)) st in
  answer (for_each l (λ e, kv_put exec (state_key e.1) e.2)) st = Ok tt ∧
  (∀ k, (∀ i, k ≠ state_key i) → s_kv st' !! (exec, k) = s_kv st !! (exec, k)) ∧
  (Forall is_int64 l.*1 → NoDup l.*1 → ∀ id, is_int64 id →
     s_kv st' !! (exec, state_key id) = match list_to_map (M := gmap Z bytes) l !! id with
                                        | Some v => Some v | None => s_kv st !! (exec, state_key id) end).
Proof using Type.
  revert st. induction l as [|[i v] l IH]; intros st st'; [done|]. subst st'. cbn [for_each].
  rewrite answer_bind, after_bind. unfold kv_put at 1 3 5 7. rewrite !answer_call, !after_call. cbn [spec fst snd].
  set (st1 := mkStore (<[(exec, state_key i) := v]> (s_kv st)) (s_logs st)).
  destruct (IH st1) as (H1 & H2 & H3). split_and!; [exact H1| |].
  - intros k Hk. rewrite H2 by done. cbn. rewrite lookup_insert_ne; [done|]. intros E. apply (Hk i). congruence.
  - cbn [fmap list_fmap fst]. intros [Hi Hl]%Forall_cons [Hn Hnd]%NoDup_cons id Hid. rewrite H3 by done. cbn [list_to_map foldr uncurry].
    destruct (decide (id = i)) as [->|Hne].
    + rewrite lookup_insert_eq, (not_elem_of_list_to_map_1 _ i Hn). cbn. by rewrite lookup_insert_eq.
    + rewrite lookup_insert_ne by done. destruct (list_to_map l !! id); [done|]. cbn. rewrite lookup_insert_ne; [done|].
      intros E. apply Hne. symmetry. apply state_key_inj; [done..|congruence].
Qed.

Lemma groups_in_order_perm m : groups_in_order m ≡ₚ map_to_list m.
Proof using Type. apply merge_sort_Permutation. Qed.

Lemma put_holds exec st x k v :
  holds st exec x → is_int64 k →
  holds (mkStore (<[(exec, state_key k) := v]> (s_kv st)) (s_logs st)) exec (mkExec (<[k := v]> (x_groups x)) (x_arguments x)).
Proof using Type.
  intros [Hg Ha Hi] Hk. split; cbn.
  - intros id Hid. destruct (decide (id = k)) as [->|Hne]; [by rewrite !lookup_insert_eq|].
    rewrite !lookup_insert_ne; [by apply Hg|done|]. intros E. apply Hne. symmetry. apply state_key_inj; [done..|congruence].
  - rewrite lookup_insert_ne; [done|]. intros E. apply (state_key_arguments k). congruence.
  - intros id [w Hw]. destruct (decide (id = k)) as [->|Hne]; [done|]. rewrite lookup_insert_ne in Hw by done. apply Hi. by exists w.
Qed.

(** A call answers what the machine answers, and leaves what it leaves. *)
Definition mirrors (exec : bytes) (x' : exec_state * result (option batch)) (o : store * result (option batch)) : Prop :=
  o.2 = x'.2 ∧ holds o.1 exec x'.1.

Lemma update_mirrors exec st x ids cols :
  update_typed → holds st exec x → Forall is_int64 ids →
  mirrors exec (model_step exec x (S_update ids cols)) (outcome (perform exec (S_update ids cols)) st).
Proof using Type.
  intros Hty Hx Hids. destruct (load_groups exec x st ids ∅ Hx Hids) as (m & Hload & Hm).
  assert (m = seen ids (x_groups x)) as ->.
  { apply map_eq. intros id. rewrite Hm, lookup_empty. unfold seen. rewrite map_lookup_filter.
    destruct (x_groups x !! id) as [v|]; cbn; [by case_guard|by case_decide]. }
  assert (reads_only (for_fold ids (load_group exec) ∅)) as Hr by (apply reads_only_for_fold; apply load_reads).
  cbn [perform model_step]. unfold update_states. autorewrite with outcome.
  rewrite (outcome_reads _ st Hr), Hload. autorewrite with outcome.
  destruct (ag_update fn _ ids cols) as [m|e] eqn:Hu; [|by split].
  destruct (save_groups exec st (groups_in_order m)) as (H1 & H2 & H3). rewrite outcome_split, H1. autorewrite with outcome.
  split; [done|]. cbn [fst].
  assert (int_keys (seen ids (x_groups x))) as Hseen.
  { intros id [v [Hv _]%map_lookup_filter_Some]. apply (holds_int st exec x Hx). by exists v. }
  pose proof (Hty _ _ _ _ Hu Hseen Hids) as Hmk.
  assert (list_to_map (groups_in_order m) = m) as Hl.
  { rewrite (list_to_map_proper _ (map_to_list m)); [apply list_to_map_to_list| |apply groups_in_order_perm].
    rewrite groups_in_order_perm. apply NoDup_fst_map_to_list. }
  split; cbn.
  - intros id Hid. rewrite H3, Hl.
    + rewrite lookup_union, (holds_groups st exec x Hx id Hid). by destruct (m !! id), (x_groups x !! id).
    + rewrite groups_in_order_perm. apply Forall_forall. intros i (e & -> & He)%list_elem_of_fmap. apply Hmk.
      destruct e as [i v]. apply elem_of_map_to_list in He. by exists v.
    + rewrite groups_in_order_perm. apply NoDup_fst_map_to_list.
    + done.
  - rewrite H2 by (intros i E; by apply (state_key_arguments i)). apply Hx.
  - intros id [v Hv]. apply lookup_union_Some_raw in Hv as [Hv|[_ Hv]]; [apply Hmk|apply (holds_int st exec x Hx)]; by exists v.
Qed.

Lemma pair_outcome exec st x i j :
  holds st exec x → is_int64 i → is_int64 j →
  match merge_pair (x_groups x) (i, j) with
  | Ok m => ∃ st', outcome (combine_pair fn exec (i, j)) st = (st', Ok tt) ∧ holds st' exec (mkExec m (x_arguments x))
  | Throw e => outcome (combine_pair fn exec (i, j)) st = (st, Throw e)
  end.
Proof using Type.
  intros Hx Hi Hj. unfold combine_pair, merge_pair. cbn [fst snd]. autorewrite with outcome. rewrite (holds_groups st exec x Hx i Hi).
  destruct (x_groups x !! i) as [source|]; [|exists st; by destruct x].
  autorewrite with outcome. rewrite (holds_groups st exec x Hx j Hj). destruct (x_groups x !! j) as [target|].
  - autorewrite with outcome. destruct (ag_combine fn target source) as [v|e]; [|done].
    autorewrite with outcome. cbn. eexists. split; [done|]. by apply put_holds.
  - autorewrite with outcome. cbn. eexists. split; [done|]. by apply put_holds.
Qed.

Lemma combine_holds exec st x pairs :
  holds st exec x → Forall (λ p, is_int64 p.1 ∧ is_int64 p.2) pairs →
  (outcome (combine_states fn exec pairs) st).2 = (merge_pairs (x_groups x) pairs).2 ∧
  holds (outcome (combine_states fn exec pairs) st).1 exec (mkExec (merge_pairs (x_groups x) pairs).1 (x_arguments x)).
Proof using Type.
  unfold combine_states. revert st x. induction pairs as [|[i j] pairs IH]; intros st x Hx Hp; [by destruct x|].
  apply Forall_cons in Hp as [[Hi Hj] Hp]. cbn [fst snd] in Hi, Hj. cbn [for_each merge_pairs]. rewrite outcome_bind.
  pose proof (pair_outcome exec st x i j Hx Hi Hj) as Hpair. destruct (merge_pair (x_groups x) (i, j)) as [m|e].
  - destruct Hpair as (st' & -> & Hh). by apply (IH st' (mkExec m (x_arguments x))).
  - rewrite Hpair. by destruct x.
Qed.

Lemma states_reads exec ids : reads_only (states_of exec ids).
Proof using Type. apply reads_only_for_map. reads_only. Qed.

Lemma states_answer exec st x ids :
  holds st exec x → Forall is_int64 ids → answer (states_of exec ids) st = Ok (map (λ id, x_groups x !! id) ids).
Proof using Type.
  intros Hx. unfold states_of. induction ids as [|i ids IH]; [done|]. intros [Hi Hids]%Forall_cons. cbn [for_map].
  change (answer ?m st) with (outcome m st).2. autorewrite with outcome.
  rewrite outcome_reads by apply states_reads. rewrite IH by done. cbn. by rewrite (holds_groups st exec x Hx i Hi).
Qed.

Lemma step_mirrors exec st x s :
  update_typed → holds st exec x → step_ok s → mirrors exec (model_step exec x s) (outcome (perform exec s) st).
Proof using Type.
  intros Hty Hx Hs. destruct s as [[a|]|ids cols|pairs|sch ids|]; cbn [step_ok] in Hs.
  - cbn [perform model_step keep_arguments]. autorewrite with outcome. split; [done|].
    destruct Hx as [Hg Ha Hi]. split; cbn; [|by rewrite lookup_insert_eq|done].
    intros id Hid. rewrite lookup_insert_ne; [by apply Hg|]. intros E. apply (state_key_arguments id). congruence.
  - by split.
  - by apply update_mirrors.
  - cbn [perform model_step]. autorewrite with outcome. destruct (combine_holds exec st x pairs Hx Hs) as [H1 H2].
    destruct (outcome _ st) as [st' r]. cbn [fst snd] in H1, H2. subst r.
    destruct (merge_pairs (x_groups x) pairs) as [m [[]|e]]; by split.
  - cbn [perform model_step]. unfold finalize_states. autorewrite with outcome.
    rewrite outcome_reads, (states_answer exec st x ids Hx Hs) by apply states_reads.
    autorewrite with outcome. rewrite (holds_arguments st exec x Hx).
    destruct (parse _) as [args|e]; autorewrite with outcome; [|by split]. cbn [mbind result_bind].
    destruct (ag_finalize _ _ _ _ _); autorewrite with outcome; by split.
  - cbn [perform model_step]. unfold release. destruct exec as [|c exec]; [by split|].
    autorewrite with outcome. split; [done|]. cbn. split; cbn.
    + intros id _. apply map_lookup_filter_None. right. intros v _. cbn. tauto.
    + apply map_lookup_filter_None. right. intros v _. cbn. tauto.
    + intros id [v Hv]. by rewrite lookup_empty in Hv.
Qed.

(** ** Sessions *)

Lemma other_holds exec e st x s : e ≠ exec → holds st e x → holds (after (perform exec s) st) e x.
Proof using Type.
  intros He [Hg Ha Hi]. split; [|by rewrite (perform_confined exec s st e _ He)|done].
  intros id Hid. rewrite (perform_confined exec s st e _ He). by apply Hg.
Qed.

Lemma session_answers st xs (session : list (Z * (bytes * step))) :
  update_typed → (∀ e, holds st e (state_at xs e)) → Forall (λ e, step_ok e.2.2) session →
  serve (I := store_impl) (map (λ e, (e.1, perform e.2.1 e.2.2)) session) st = model_session (map snd session) xs.
Proof using Type.
  intros Hty. revert st xs. induction session as [|[q [exec s]] session IH]; intros st xs Hh Hs; [done|].
  apply Forall_cons in Hs as [Hs Hok]. cbn [fst snd] in Hs. cbn [map serve fst snd model_session]. rewrite run_any_process.
  destruct (step_mirrors exec st (state_at xs exec) s Hty (Hh exec) Hs) as [H1 H2]. rewrite outcome_split in H1, H2.
  cbn [fst snd] in H1, H2. destruct (model_step exec (state_at xs exec) s) as [x r]. cbn [fst snd] in H1, H2. rewrite H1. f_equal.
  apply IH; [|done]. intros e. unfold state_at. destruct (decide (e = exec)) as [->|Hne].
  - by rewrite lookup_insert_eq.
  - rewrite lookup_insert_ne by done. by apply other_holds.
Qed.

Lemma empty_holds e : holds empty_store e (state_at ∅ e).
Proof using Type.
  unfold state_at. rewrite lookup_empty. split; cbn; [intros; by rewrite !lookup_empty|done|].
  intros id [v Hv]. by rewrite lookup_empty in Hv.
Qed.

Lemma perform_issues exec s : issues kv_op (perform exec s).
Proof using Type.
  assert (∀ m id, issues kv_op (load_group exec m id)) as Hload.
  { intros m id. unfold load_group. case_match; [constructor|]. apply issues_bind; [by apply issues_one|constructor]. }
  destruct s as [[a|]|ids cols|pairs|sch ids|]; cbn [perform]; (apply issues_bind; [|constructor]).
  - by apply issues_one.
  - constructor.
  - unfold update_states. apply issues_bind; [by apply issues_for_fold|intros m].
    apply issues_bind; [apply issues_lift|intros m']. apply issues_for_each. intros e. by apply issues_one.
  - apply issues_for_each. intros p. unfold combine_pair. apply issues_bind; [by apply issues_one|intros [source|]]; [|constructor].
    apply issues_bind; [by apply issues_one|intros [t|]]; (apply issues_bind; [auto with issues|intros v; by apply issues_one]).
  - unfold finalize_states, states_of. apply issues_bind; [apply issues_for_map; intros; by apply issues_one|intros l].
    apply issues_bind; [by apply issues_one|intros v]. apply issues_bind; intros; apply issues_lift.
  - unfold release. destruct exec; [constructor|by apply issues_one].
Qed.

(** C2. Whatever worker processes serve the calls of an aggregation and in whatever
    order the calls of several executions come, over the shared files of a disk
    that works they answer what the machine of group states answers: an update sees
    and changes exactly the groups of its batch that have a state, a combine merges
    pair by pair and leaves a target of a stateless source alone, a finalize gets
    for each group the state that was accumulated, or none, with the arguments of
    the bind, a release forgets the execution; and no execution sees another's. *)
Theorem aggregation_exact {D : Disk} `{!Healthy D} base (session : list (Z * (bytes * step))) :
  update_typed → Forall (λ e, step_ok e.2.2) session →
  serve (I := files_impl base) (map (λ e, (e.1, perform e.2.1 e.2.2)) session) empty_world =
  model_session (map snd session) ∅.
Proof using Type.
  intros Hty Hs. rewrite (kv_clients base).
  - apply session_answers; [done|apply empty_holds|done].
  - apply Forall_map, Forall_forall. intros e _. apply perform_issues.
Qed.
End machine.

(** ** A sum, over two workers and two executions *)

Definition sum_text (z : Z) : bytes := to_string z.
Fixpoint sum_rows (m : gmap Z bytes) (ids vals : list Z) : gmap Z bytes :=
  match ids, vals with
  | i :: ids, v :: vals => sum_rows (<[i := sum_text (v + strtoll (default [] (m !! i)))]> m) ids vals
  | _, _ => m
  end.
Definition sum_function : AggregateFunction :=
  mkAggregate (bs "sum") (λ _, Ok None)
    (λ m ids columns, Ok (sum_rows m ids (mjoin (map raw_ints (take 1 columns)))))
    (λ t s, Ok (sum_text (strtoll t + strtoll s)))
    (λ s ids states _, Ok (mkBatch s.1 s.2 (Z.of_nat (length ids))
       [mkArray T_int64 (map (λ o, match o with Some v => V_int (strtoll v) | None => V_null end) states)]))
    (λ _ _ _ _, Throw (Runtime_error "streaming_chunk() not supported by this aggregate"))
    (λ _ _ _ _, Throw (Runtime_error "window() not supported by this aggregate")).

Lemma sum_typed : update_typed sum_function.
Proof.
  intros m ids columns m' [= <-]. generalize (mjoin (map raw_ints (take 1 columns))) as vals. intros vals Hm Hids.
  revert m vals Hm. induction Hids as [|i ids Hi Hids IH]; intros m [|v vals] Hm; cbn; [done..|]. apply IH.
  intros id [w Hw]. destruct (decide (id = i)) as [->|Hne]; [done|]. rewrite lookup_insert_ne in Hw by done. apply Hm. by exists w.
Qed.

Definition sum_session : list (Z * (bytes * step)) :=
  let column l := [mkArray T_int64 (map V_int l)] in
  [(1, (bs "a", S_update [1; 2; 1] (column [10; 5; 7]))); (2, (bs "b", S_update [1] (column [100])));
   (2, (bs "a", S_update [1] (column [3]))); (1, (bs "a", S_combine [(1, 2); (9, 1)]));
   (1, (bs "a", S_finalize ([Field "result" T_int64 true []], None) [2; 1; 3]))].
Definition sums (l : list value) : batch := mkBatch [Field "result" T_int64 true []] None (Z.of_nat (length l)) [mkArray T_int64 l].

#[local] Existing Instance good_disk_healthy.
Lemma aggregation_exact_witness :
  serve (I := files_impl (D := good_disk) demo_base)
    (map (λ e, (e.1, perform (A := table_arrow []) (C := toy_compute) (M := trial_memory) sum_function e.2.1 e.2.2)) sum_session)
    empty_world =
  [Ok None; Ok None; Ok None; Ok None; Ok (Some (sums [V_int 25; V_int 20; V_null]))].
Proof.
  assert (Forall (λ e : Z * (bytes * step), step_ok e.2.2) sum_session) as Hs.
  { unfold sum_session, step_ok, is_int64. cbn. repeat constructor; cbn; lia. }
  rewrite (@aggregation_exact (table_arrow []) toy_compute trial_memory sum_function good_disk _ demo_base sum_session sum_typed Hs).
  vm_compute. reflexivity.
Defined.

End AggregateSpec.
