(* ===== verification/AggregateWindow.v ===== *)
(** * Windows and running aggregates ([src/aggregate.cpp])

    What the storage carries from call to call for the two other forms: the
    partition a window is evaluated over, and the states of a running aggregate by
    partition key.  The theorems: a stored partition is what every later window
    call gets, until it is dropped, whatever else is stored and dropped meanwhile;
    and a running aggregate continues with the states of the chunk before. *)

From stdpp Require Import sorting.
From S2P Require Import Prelude Text Crypto Arrow ArrowRecord ArrowCompute Wire Metadata Storage StorageSpec StorageClient WireSchema FunctionSpec Arguments Functions Dispatch Calls Aggregate.
Import Wire Storage StorageSpec StorageClient WireSchema Functions Aggregate.

Module AggregateWindow.

(** ** The FILTER mask is packed as it is read *)

Fixpoint pack_byte (bits : list bool) : Z :=
  match bits with [] => 0 | b :: bits => Z.b2z b + 2 * pack_byte bits end.
Fixpoint pack_from (n : nat) (bits : list bool) : bytes :=
  match n with O => [] | S n => zb (pack_byte (take 8 bits)) :: pack_from n (drop 8 bits) end.
(** The flags eight to a byte, the first the least significant. *)
Definition pack_mask (bits : list bool) : bytes := pack_from ((length bits + 7) / 8) bits.

Lemma pack_byte_bit bits i : (i < length bits)%nat → Some (Z.testbit (pack_byte bits) (Z.of_nat i)) = bits !! i.
Proof.
  revert i. induction bits as [|b bits IH]; intros [|i] Hi; cbn [length] in Hi; [lia|lia| |]; cbn [pack_byte lookup list_lookup].
  - by rewrite Z.add_comm, Z.testbit_0_r.
  - rewrite <- IH by lia. rewrite Z.add_comm, Nat2Z.inj_succ, Z.testbit_succ_r; [done|lia].
Qed.

Lemma pack_byte_range bits : (length bits <= 8)%nat → 0 ≤ pack_byte bits < 256.
Proof.
  assert (∀ n, (length bits <= n)%nat → 0 ≤ pack_byte bits < 2 ^ Z.of_nat n) as H; [|intros Hl; by apply (H 8%nat)].
  induction bits as [|b bits IH]; intros n Hn; cbn [length pack_byte] in *; [lia|].
  destruct n as [|n]; [lia|]. specialize (IH n ltac:(lia)). rewrite Nat2Z.inj_succ, Z.pow_succ_r by lia. destruct b; cbn; lia.
Qed.

Lemma pack_from_lookup n bits j : (j < n)%nat → pack_from n bits !! j = Some (zb (pack_byte (take 8 (drop (8 * j) bits)))).
Proof.
  revert bits j. induction n as [|n IH]; intros bits [|j] Hj; [lia|lia|done|]. cbn [pack_from lookup list_lookup].
  rewrite IH by lia. replace (8 * S j)%nat with (8 + 8 * j)%nat by lia. by rewrite drop_drop.
Qed.

Lemma mask_bit_pack bits i b : bits !! i = Some b → mask_bit (pack_mask bits) i = b.
Proof.
  intros Hi. pose proof (lookup_lt_Some _ _ _ Hi) as Hl. unfold mask_bit, pack_mask.
  pose proof (Nat.div_mod_eq i 8) as Hdm. pose proof (Nat.mod_upper_bound i 8 ltac:(lia)) as Hm.
  assert (i / 8 < (length bits + 7) / 8)%nat as Hq.
  { apply Nat.Div0.div_lt_upper_bound. pose proof (Nat.div_mod_eq (length bits + 7) 8).
    pose proof (Nat.mod_upper_bound (length bits + 7) 8 ltac:(lia)). lia. }
  rewrite pack_from_lookup by done. set (q := (i / 8)%nat) in *. set (r := (i mod 8)%nat) in *.
  assert (take 8 (drop (8 * q) bits) !! r = Some b) as Hr by (rewrite lookup_take_lt, lookup_drop by lia; by rewrite <- Hdm).
  pose proof (lookup_lt_Some _ _ _ Hr) as Hrl. rewrite bz_zb, Z.mod_small by (apply pack_byte_range; rewrite length_take; lia).
  rewrite <- (pack_byte_bit _ r Hrl) in Hr. congruence.
Qed.

Lemma unpack_pack bits : unpack_mask (pack_mask bits) (Z.of_nat (length bits)) = bits.
Proof.
  unfold unpack_mask. destruct bits as [|b bits]; [done|].
  rewrite bool_decide_false, (proj2 (Z.leb_gt _ _)); [|cbn [length]; lia|].
  2: { unfold pack_mask. destruct ((length (b :: bits) + 7) / 8)%nat eqn:E; [|done].
       apply Nat.div_small_iff in E; cbn [length] in E; lia. }
  cbn [orb]. rewrite Nat2Z.id. apply list_eq. intros i. rewrite list_lookup_fmap. destruct ((b :: bits) !! i) as [x|] eqn:Hx.
  - rewrite lookup_seq_lt by (by eapply lookup_lt_Some). cbn [fmap option_fmap option_map]. rewrite Nat.add_0_l. f_equal. by apply mask_bit_pack.
  - rewrite lookup_seq_ge; [done|]. by apply lookup_ge_None.
Qed.

(** ** Partitions *)

Inductive window_op : Type :=
| W_keep (partition : option batch) (output_schema : option schema) (mask : result bytes) (rows : result Z)
| W_drop.

Section window.
Context `{A : Arrow} `{L : SchemaCodec}.

Definition window_prog (exec : bytes) (id : Z) (o : window_op) : prog unit :=
  match o with
  | W_keep partition output_schema mask rows => keep_partition exec id partition output_schema mask rows
  | W_drop => drop_partition exec id
  end.

Definition part_keys (id : Z) : list bytes := [partition_key id; schema_key id; mask_key id; rows_key id].

Lemma part_keys_inj i j k : is_int64 i → is_int64 j → k ∈ part_keys i → k ∈ part_keys j → i = j.
Proof using Type.
  unfold part_keys. rewrite !elem_of_cons, !elem_of_nil. intros Hi Hj [->|[->|[->|[->|[]]]]] [H|[H|[H|[H|[]]]]];
    first [discriminate H|apply app_inv_head in H; by apply to_string_inj].
Qed.

(** What a program writes is under the keys of one partition. *)
Definition part_confined {Y} (exec : bytes) (id : Z) (m : prog Y) : Prop :=
  ∀ st e k, e ≠ exec ∨ k ∉ part_keys id → s_kv (after m st) !! (e, k) = s_kv st !! (e, k).

Lemma part_confined_bind {Y Z} exec id (m : prog Y) (f : Y → prog Z) :
  part_confined exec id m → (∀ y, part_confined exec id (f y)) → part_confined exec id (m ≫= f).
Proof using Type.
  intros Hm Hf st e k He. rewrite after_bind. destruct (answer m st) as [y|]; [rewrite (Hf y _ _ _ He)|]; by apply Hm.
Qed.
Lemma part_confined_lift {Y} exec id (r : result Y) : part_confined exec id (lift r).
Proof using Type. by destruct r. Qed.
Lemma part_confined_put exec id key v : key ∈ part_keys id → part_confined exec id (kv_put exec key v).
Proof using Type.
  intros Hk st e k He. change (after (kv_put exec key v) st) with (outcome (kv_put exec key v) st).1. rewrite outcome_kv_put. cbn.
  rewrite lookup_insert_ne; [done|]. intros [= -> ->]. by destruct He.
Qed.
Lemma part_confined_del exec id key : key ∈ part_keys id → part_confined exec id (kv_del exec key).
Proof using Type.
  intros Hk st e k He. change (after (kv_del exec key) st) with (outcome (kv_del exec key) st).1. rewrite outcome_kv_del. cbn.
  rewrite lookup_delete_ne; [done|]. intros [= -> ->]. by destruct He.
Qed.

Lemma window_confined exec id o : part_confined exec id (window_prog exec id o).
Proof using Type.
  destruct o as [p s mask rows|]; cbn [window_prog]; unfold keep_partition, drop_partition;
    repeat first [apply part_confined_lift | apply part_confined_bind; [|intros]
                 | apply part_confined_put; unfold part_keys; set_solver | apply part_confined_del; unfold part_keys; set_solver].
Qed.

(** What else happens in the storage: other partitions stored and dropped. *)
Fixpoint window_ops (ops : list (bytes * Z * window_op)) (st : store) : store :=
  match ops with [] => st | (exec, id, o) :: ops => window_ops ops (after (window_prog exec id o) st) end.

Definition elsewhere (exec : bytes) (id : Z) (e : bytes * Z * window_op) : Prop :=
  is_int64 e.1.2 ∧ (e.1.1 ≠ exec ∨ e.1.2 ≠ id).

Lemma window_ops_keep exec id k ops st :
  is_int64 id → Forall (elsewhere exec id) ops → k ∈ part_keys id →
  s_kv (window_ops ops st) !! (exec, k) = s_kv st !! (exec, k).
Proof using Type.
  intros Hid Hops Hk. revert st. induction Hops as [|[[e i] o] ops [Hi He] Hops IH]; intros st; [done|]. cbn [window_ops fst snd] in *.
  rewrite IH. apply window_confined. destruct He as [He|He]; [left; congruence|].
  destruct (decide (exec = e)); [|by left]. right. intros Hk'. by apply He, (part_keys_inj i id k).
Qed.

Lemma kept_outcome exec id b s mask rows st st1 :
  outcome (keep_partition exec id (Some b) (Some s) (Ok mask) (Ok rows)) st = (st1, Ok tt) →
  ∃ pb sb, encode_ipc b = Ok pb ∧ encode_schema s = Ok sb ∧ s_kv st1 !! (exec, partition_key id) = Some pb ∧
    s_kv st1 !! (exec, schema_key id) = Some sb ∧ s_kv st1 !! (exec, mask_key id) = Some mask ∧
    s_kv st1 !! (exec, rows_key id) = Some (to_string rows).
Proof using Type.
  unfold keep_partition. autorewrite with outcome. destruct (encode_ipc b) as [pb|]; [|done]. autorewrite with outcome.
  destruct (encode_schema s) as [sb|]; [|done]. autorewrite with outcome. intros [= <-].
  exists pb, sb. cbn [s_kv]. split_and!; [done|done|..]; repeat (rewrite lookup_insert_eq || rewrite lookup_insert_ne by (intros E; discriminate E)); done.
Qed.

(** C25. A partition that was stored is what every window call of that execution
    and partition is evaluated over -- its rows, its output schema, its FILTER
    mask --, whatever other partitions are stored and dropped in between, until it
    is dropped itself; then the call fails. *)
Theorem window_survives `{!ArrowLaws A} `{!SchemaCodecLaws A L} exec id b s mask rows st st1 ops :
  outcome (keep_partition exec id (Some b) (Some s) (Ok mask) (Ok rows)) st = (st1, Ok tt) →
  is_int64 id → is_int64 rows → Forall (elsewhere exec id) ops →
  let st2 := window_ops ops st1 in
  answer (held_partition exec id) st2 = Ok (Some b, s) ∧
  answer (held_mask exec id) st2 = Ok (unpack_mask mask rows) ∧
  answer (held_partition exec id) (after (drop_partition exec id) st2) =
    Throw (Runtime_error ("aggregate_window: unknown partition " +:+ Metadata.number id)).
Proof using Type.
  intros Hk Hid Hrows Hops st2. apply kept_outcome in Hk as (pb & sb & Hpb & Hsb & H1 & H2 & H3 & H4).
  assert (∀ k, k ∈ part_keys id → s_kv st2 !! (exec, k) = s_kv st1 !! (exec, k)) as Hkeep
    by (intros k Hk; by apply window_ops_keep with id).
  assert (partition_key id ∈ part_keys id ∧ schema_key id ∈ part_keys id ∧ mask_key id ∈ part_keys id ∧ rows_key id ∈ part_keys id)
    as (K1 & K2 & K3 & K4) by (unfold part_keys; set_solver).
  apply encode_ipc_read in Hpb as (_ & _ & _ & Hd). apply decode_encode_schema in Hsb.
  change (answer ?m ?x) with (outcome m x).2. split_and!.
  - unfold held_partition. autorewrite with outcome. rewrite (Hkeep _ K1), H1. autorewrite with outcome. rewrite Hd.
    autorewrite with outcome. rewrite (Hkeep _ K2), H2. cbn [default from_option Datatypes.id]. rewrite Hsb. by autorewrite with outcome.
  - unfold held_mask. autorewrite with outcome. rewrite (Hkeep _ K4), H4, (Hkeep _ K3), H3. cbn [default from_option Datatypes.id].
    by rewrite strtoll_to_string.
  - change (after ?m ?x) with (outcome m x).1. unfold drop_partition. autorewrite with outcome. cbn [fst].
    unfold held_partition. autorewrite with outcome. cbn [s_kv].
    repeat (rewrite lookup_delete_ne by (intros E; discriminate E)). by rewrite lookup_delete_eq.
Qed.
End window.

(** ** Running states *)

Section running.
Context (fn : AggregateFunction) (exec : bytes).

(** What a session of chunks answers: each chunk gets the states of all before it,
    the newest of each key. *)
Fixpoint running_model (partition_keys order_keys : Z) (chunks : list batch) (m : gmap bytes bytes) : list (result array) :=
  match chunks with
  | [] => []
  | c :: chunks =>
      match ag_streaming_chunk fn c partition_keys order_keys m with
      | Ok (values, m') => Ok values :: running_model partition_keys order_keys chunks (m' ∪ m)
      | Throw e => Throw e :: running_model partition_keys order_keys chunks m
      end
  end.

Definition nul_free_keys (m : gmap bytes bytes) : Prop := ∀ k, is_Some (m !! k) → nul_free k.
(** Keys without NUL bytes, at most [K] of them. *)
Definition states_bounded (K : nat) : Prop := ∀ c pk ok m values m',
  ag_streaming_chunk fn c pk ok m = Ok (values, m') → nul_free_keys m → nul_free_keys m' ∧ (size m' <= K)%nat.

Lemma cut_nul_item k v : nul_free k → cut_nul (k ++ NUL :: v) = Some (k, v).
Proof using Type.
  unfold nul_free. induction k as [|c k IH]; intros Hk; [done|]. apply not_elem_of_cons in Hk as [Hc Hk].
  cbn [app cut_nul]. rewrite bool_decide_false by congruence. by rewrite IH.
Qed.

Definition logged_item (e : bytes * bytes) : bytes := e.1 ++ NUL :: e.2.

(** The log of the execution carries the states [m] in at most [n] entries. *)
Record carries (st : store) (n : nat) (m : gmap bytes bytes) : Prop := {
  carries_pos : 0 < (log_of st exec kStreaming []).1;
  carries_ids : Forall (λ e, 0 < e.1) (log_of st exec kStreaming []).2;
  carries_length : (length (log_of st exec kStreaming []).2 <= n)%nat;
  carries_states : logged_states (log_of st exec kStreaming []).2 = m;
}.

Lemma log_one st n m k v :
  carries st n m → nul_free k →
  ∃ st', outcome (append exec kStreaming [] (logged_item (k, v));; Ret tt) st = (st', Ok tt) ∧ carries st' (S n) (<[k := v]> m) ∧
    s_kv st' = s_kv st.
Proof using Type.
  intros [Hp Hi Hl Hs] Hk. rewrite outcome_bind. unfold append. rewrite outcome_split, answer_call, after_call. cbn [spec].
  destruct (log_of st exec kStreaming []) as [next l] eqn:Hlog. cbn [fst snd] in *. eexists. split; [done|]. split; [|done].
  assert (log_of (set_log exec kStreaming [] (next + 1, l ++ [(next, logged_item (k, v))]) st) exec kStreaming [] =
    (next + 1, l ++ [(next, logged_item (k, v))])) as Hl'.
  { unfold log_of, set_log. cbn. by rewrite lookup_insert_eq. }
  split; rewrite Hl'; cbn [fst snd].
  - lia.
  - apply Forall_app. split; [done|]. by repeat constructor.
  - rewrite length_app. cbn. lia.
  - unfold logged_states in *. rewrite foldl_app. cbn. rewrite Hs. unfold add_logged, logged_item. cbn [fst snd].
    by rewrite (cut_nul_item k v Hk).
Qed.

Lemma log_states st n m (l : list (bytes * bytes)) :
  carries st n m → Forall (λ e, nul_free e.1) l → NoDup l.*1 →
  ∃ st', outcome (for_each l (λ e, append exec kStreaming [] (logged_item e);; Ret tt)) st = (st', Ok tt) ∧
    carries st' (n + length l) (list_to_map l ∪ m) ∧ s_kv st' = s_kv st.
Proof using Type.
  intros Hc Hl. revert st n m Hc. induction Hl as [|[k v] l Hk Hl IH]; intros st n m Hc Hnd.
  { exists st. split; [done|]. split; [|done]. cbn. by rewrite Nat.add_0_r, (left_id_L ∅ (∪)). }
  cbn [fmap list_fmap fst] in Hnd. apply NoDup_cons in Hnd as [Hn Hnd]. cbn [for_each]. rewrite outcome_bind.
  destruct (log_one st n m k v Hc Hk) as (st1 & -> & Hc1 & Hkv1). destruct (IH st1 _ _ Hc1 Hnd) as (st2 & -> & Hc2 & Hkv2).
  exists st2. split; [done|]. split; [|congruence]. cbn [length]. rewrite Nat.add_succ_r. cbn [list_to_map foldr uncurry fst snd].
  rewrite <- insert_union_l, (insert_union_r (list_to_map l)) by (by apply not_elem_of_list_to_map_1). exact Hc2.
Qed.

Lemma scanned st n m : carries st n m → Z.of_nat n < 2 ^ 64 →
  ∃ l, outcome (scan exec kStreaming [] 0 (2 ^ 64 - 1)) st = (st, Ok l) ∧ logged_states l = m.
Proof using Type.
  intros [Hp Hi Hl Hs] Hn. rewrite (outcome_reads _ st (reads_only_scan _ _ _ _ _)). unfold scan. rewrite answer_call. cbn [spec snd entries_of].
  eexists. split; [done|]. set (l := (log_of st exec kStreaming []).2) in *.
  assert (filter (λ e : Z * bytes, 0 < e.1) l = l) as ->.
  { clear Hs Hl. induction Hi as [|e l' He Hi IH]; [done|]. rewrite filter_cons_True by done. by rewrite IH. }
  rewrite take_ge; [done|]. lia.
Qed.

Lemma states_in_order_perm m : states_in_order m ≡ₚ map_to_list m.
Proof using Type. apply merge_sort_Permutation. Qed.

Lemma chunk_outcome st n m K c pk ok :
  carries st n m → states_bounded K → nul_free_keys m → Z.of_nat n < 2 ^ 64 →
  s_kv st !! (exec, bs "streaming.partition_keys") = Some pk → s_kv st !! (exec, bs "streaming.order_keys") = Some ok →
  match ag_streaming_chunk fn c (strtoull pk) (strtoull ok) m with
  | Ok (values, m') => ∃ st', outcome (chunk_values fn exec c) st = (st', Ok values) ∧ carries st' (n + K) (m' ∪ m) ∧
      nul_free_keys (m' ∪ m) ∧ s_kv st' = s_kv st
  | Throw e => outcome (chunk_values fn exec c) st = (st, Throw e)
  end.
Proof using Type.
  intros Hc HK Hm Hn Hpk Hok. destruct (scanned st n m Hc Hn) as (l & Hscan & Hl).
  unfold chunk_values, key_count. rewrite outcome_bind, Hscan. autorewrite with outcome. rewrite Hpk. autorewrite with outcome. rewrite Hok.
  autorewrite with outcome. rewrite Hl. cbn [default from_option id].
  destruct (ag_streaming_chunk fn c (strtoull pk) (strtoull ok) m) as [[values m']|e] eqn:Hchunk; [|done].
  destruct (HK _ _ _ _ _ _ Hchunk Hm) as [Hfree Hsize].
  destruct (log_states st n m (states_in_order m') Hc) as (st' & Hlog & Hc' & Hkv).
  { rewrite states_in_order_perm. apply Forall_forall. intros [k v] Hkv%elem_of_map_to_list. apply Hfree. by exists v. }
  { rewrite states_in_order_perm. apply NoDup_fst_map_to_list. }
  exists st'. rewrite outcome_bind. unfold logged_item in Hlog. rewrite Hlog. autorewrite with outcome. split; [done|]. split_and!; [|..|done].
  - assert (list_to_map (states_in_order m') = m') as Hmap.
    { rewrite (list_to_map_proper _ (map_to_list m')); [apply list_to_map_to_list| |apply states_in_order_perm].
      rewrite states_in_order_perm. apply NoDup_fst_map_to_list. }
    rewrite Hmap in Hc'. destruct Hc' as [H1 H2 H3 H4]. split; [done..| |done].
    assert (length (states_in_order m') = size m') as Hlen by (rewrite states_in_order_perm; apply length_map_to_list). lia.
  - intros k [v Hv]. apply lookup_union_Some_raw in Hv as [Hv|[_ Hv]]; [apply Hfree|apply Hm]; by exists v.
Qed.

(** A running aggregate goes on where the chunk before left off: each chunk is
    given the newest state of every partition key any earlier chunk left, for keys
    that hold no NUL byte and fewer than 2^64 logged states. *)
Theorem running_carries K (session : list (Z * batch)) st pk ok :
  log_of st exec kStreaming [] = (1, []) → states_bounded K → Z.of_nat (length session * K) < 2 ^ 64 →
  s_kv st !! (exec, bs "streaming.partition_keys") = Some pk → s_kv st !! (exec, bs "streaming.order_keys") = Some ok →
  serve (I := store_impl) (map (λ e, (e.1, chunk_values fn exec e.2)) session) st =
  running_model (strtoull pk) (strtoull ok) (map snd session) ∅.
Proof using Type.
  intros Hlog HK Hlen Hpk Hok.
  assert (∀ n m st, carries st n m → nul_free_keys m → Z.of_nat (n + length session * K) < 2 ^ 64 →
    s_kv st !! (exec, bs "streaming.partition_keys") = Some pk → s_kv st !! (exec, bs "streaming.order_keys") = Some ok →
    serve (I := store_impl) (map (λ e, (e.1, chunk_values fn exec e.2)) session) st =
    running_model (strtoull pk) (strtoull ok) (map snd session) m) as H.
  { clear -HK. induction session as [|[q c] session IH]; intros n m st Hc Hm Hlen Hpk Hok; [done|].
    cbn [map serve fst snd running_model length] in *. rewrite run_any_process.
    assert (Z.of_nat n < 2 ^ 64) as Hn by lia.
    pose proof (chunk_outcome st n m K c pk ok Hc HK Hm Hn Hpk Hok) as Hout. rewrite outcome_split in Hout.
    destruct (ag_streaming_chunk fn c _ _ m) as [[values m']|e].
    - destruct Hout as (st' & [= -> ->] & Hc' & Hm' & Hkv). f_equal.
      apply (IH (n + K)%nat); [done|done|lia|by rewrite Hkv..].
    - injection Hout as -> ->. f_equal. apply (IH n); [done|done|lia|done|done]. }
  apply (H 0%nat); [|intros k [v Hv]; by rewrite lookup_empty in Hv|lia|done|done]. by split; rewrite Hlog.
Qed.
End running.

(** ** A partition of three rows *)

Definition part_batch (l : list Z) : batch := mkBatch [Field "x" T_int64 true []] None (Z.of_nat (length l)) [mkArray T_int64 (map V_int l)].
Definition part_schema : schema := ([Field "result" T_int64 true []], None).
Definition part_arrow : Arrow := schema_arrow [part_batch [1; 2; 3]; part_batch [9]].
Definition part_codec : SchemaCodec := list_codec [part_batch [1; 2; 3]; part_batch [9]] [part_schema].

Definition keep_three : prog unit :=
  keep_partition (A := part_arrow) (L := part_codec) (bs "x") 7 (Some (part_batch [1; 2; 3])) (Some part_schema)
    (Ok (pack_mask [true; false; true])) (Ok 3).
Definition meanwhile : list (bytes * Z * window_op) :=
  [(bs "x", 8, W_keep (Some (part_batch [9])) (Some part_schema) (Ok []) (Ok 1)); (bs "y", 7, W_drop); (bs "x", 8, W_drop)].
Definition after_meanwhile : store :=
  window_ops (A := part_arrow) (L := part_codec) meanwhile (outcome keep_three empty_store).1.

Lemma window_survives_witness :
  answer (held_partition (A := part_arrow) (L := part_codec) (bs "x") 7) after_meanwhile = Ok (Some (part_batch [1; 2; 3]), part_schema) ∧
  answer (held_mask (bs "x") 7) after_meanwhile = Ok [true; false; true].
Proof.
  assert (outcome keep_three empty_store = ((outcome keep_three empty_store).1, Ok tt)) as Hk by (vm_compute; reflexivity).
  assert (Forall (elsewhere (bs "x") 7) meanwhile) as Hm.
  { unfold meanwhile, elsewhere, is_int64. cbn [fst snd].
    apply Forall_cons_2; [split; cbn [fst snd]; [lia|right; lia]|]. apply Forall_cons_2; [split; cbn [fst snd]; [lia|left; by_decide]|].
    apply Forall_cons_2; [split; cbn [fst snd]; [lia|right; lia]|apply Forall_nil_2]. }
  destruct (window_survives (A := part_arrow) (L := part_codec) (bs "x") 7 (part_batch [1; 2; 3]) part_schema
              (pack_mask [true; false; true]) 3 empty_store _ meanwhile Hk) as (H1 & H2 & _).
  - unfold is_int64. lia.
  - unfold is_int64. lia.
  - exact Hm.
  - split; [exact H1|]. etransitivity; [exact H2|]. vm_compute. reflexivity.
Defined.

(** ** A running count *)

(** Each chunk adds its rows to the total of its one partition. *)
Definition running_count (key : bytes) : AggregateFunction :=
  mkAggregate (bs "count") (λ _, Ok None) (λ m _ _, Ok m) (λ t _, Ok t) (λ s _ _ _, Ok (mkBatch s.1 s.2 0 []))
    (λ c _ _ m, let n := b_rows c + strtoll (default (bs "0") (m !! key)) in
                Ok (mkArray T_int64 [V_int n], <[key := to_string n]> ∅))
    (λ _ _ _ _, Throw (Runtime_error "window() not supported by this aggregate")).

Definition opened_store : store :=
  (outcome (kv_put (bs "x") (bs "streaming.partition_keys") (bs "1");; kv_put (bs "x") (bs "streaming.order_keys") (bs "0")) empty_store).1.
Definition count_session (key : bytes) : list (result array) :=
  serve (I := store_impl) (map (λ e, (e.1, chunk_values (running_count key) (bs "x") e.2))
    [(1, part_batch [1; 2]); (2, part_batch [5]); (1, part_batch [7; 7; 7])]) opened_store.
Definition counts (l : list Z) : list (result array) := map (λ z, Ok (mkArray T_int64 [V_int z])) l.

Lemma running_carries_witness : count_session (bs "k") = counts [2; 3; 6].
Proof.
  assert (states_bounded (running_count (bs "k")) 1) as HK.
  { intros c pk ok m values m' [= <- <-] Hm. split.
    - intros k [v Hv]. apply lookup_insert_Some in Hv as [[<- _]|[_ Hv]]; [by_decide|by rewrite lookup_empty in Hv].
    - by rewrite insert_empty, map_size_singleton. }
  unfold count_session.
  rewrite (running_carries (running_count (bs "k")) (bs "x") 1 _ opened_store (bs "1") (bs "0")).
  - vm_compute. reflexivity.
  - vm_compute. reflexivity.
  - exact HK.
  - vm_compute. reflexivity.
  - vm_compute. reflexivity.
  - vm_compute. reflexivity.
Defined.

(** A partition key with a NUL byte finds no state again: the count starts over. *)
Example nul_key_forgotten : count_session (bs "a" ++ NUL :: bs "b") = counts [2; 1; 3].
Proof. vm_compute. reflexivity. Qed.

(** A state the function drops comes back with the next chunk. *)
Definition forgetful : AggregateFunction :=
  mkAggregate (bs "forget") (λ _, Ok None) (λ m _ _, Ok m) (λ t _, Ok t) (λ s _ _ _, Ok (mkBatch s.1 s.2 0 []))
    (λ c _ _ m, Ok (mkArray T_int64 [V_int (Z.of_nat (size m))], if b_rows c =? 1 then ∅ else <[bs "k" := bs "v"]> m))
    (λ _ _ _ _, Throw (Runtime_error "window() not supported by this aggregate")).
Example dropped_state_returns :
  serve (I := store_impl) (map (λ c, (1, chunk_values forgetful (bs "x") c)) [part_batch [1; 2]; part_batch [5]; part_batch [7; 7]])
    opened_store = counts [0; 1; 1].
Proof. vm_compute. reflexivity. Qed.

End AggregateWindow.
