(* ===== verification/Buffering.v ===== *)
(** * Buffering functions ([src/buffering.cpp])

    A function that sinks a whole relation before it produces anything.  Init keeps
    what was settled at bind in the storage ([stash] of [src/function_dispatch.cpp]),
    under the execution; the calls that sink a batch, combine the sunk states and
    release them carry nothing of it and may reach any worker.  [stash_then_params]
    says what such a call works with; [Init] puts it together with the init. *)

From S2P Require Import Prelude Text Crypto Arrow ArrowRecord ArrowCompute Wire Metadata Protocol Storage StorageSpec StorageClient AttachService Attachment WireSchema FunctionSpec Arguments Settings Producer Functions Dispatch Calls Aggregate.
Import Wire Metadata Protocol StorageClient WireSchema FunctionSpec Arguments Functions Dispatch Calls.

Module Buffering.

(** ** What init keeps for the calls after it *)

Definition kBindArguments : bytes := bs "bind.arguments".
Definition kBindSettings : bytes := bs "bind.settings".
Definition kBindSecrets : bytes := bs "bind.secrets".
Definition kBindFormat : bytes := bs "bind.copy_to_format".
Definition kBindPath : bytes := bs "bind.copy_to_path".
Definition kBindSchema : bytes := bs "bind.schema".

(** An empty value is not written. *)
Definition stash (execution_id key value : bytes) : prog unit :=
  match value with [] => Ret tt | _ => kv_put execution_id key value end.

Section buffering.
Context `{A : Arrow} `{C : Compute} `{B : Base64} `{M : Memory} `{X : Settings.ScalarText} `{L : SchemaCodec} {S : Type}.
Context (d : Dispatcher S) (sealing : bool).

Definition stash_bind (execution_id : bytes) (bind_call : option batch) (format path : option bytes) (output_schema : schema) : prog unit :=
  a ← lift (text_or_empty bind_call "arguments"); stash execution_id kBindArguments a;;
  s ← lift (text_or_empty bind_call "settings"); stash execution_id kBindSettings s;;
  x ← lift (text_or_empty bind_call "secrets"); stash execution_id kBindSecrets x;;
  stash execution_id kBindFormat (default [] format);;
  stash execution_id kBindPath (default [] path);;
  e ← lift (encode_schema output_schema); stash execution_id kBindSchema e.

(** ** The parameters of a call *)

Definition stashed (execution_id key : bytes) : prog bytes := v ← kv_get execution_id key; Ret (default [] v).

Definition filled (v : bytes) : option bytes := match v with [] => None | _ => Some v end.

Definition buffering_params (dto : option batch) : prog ProcessParams :=
  a ← attachment_of d sealing dto;
  path ← lift (get_schema_path dto "schema_path");
  execution_id ← lift (text_or_empty dto "execution_id");
  arguments ← stashed execution_id kBindArguments; arguments ← lift (parse arguments);
  settings ← stashed execution_id kBindSettings; settings ← lift (Settings.parse_settings settings);
  secrets ← stashed execution_id kBindSecrets; secrets ← lift (Settings.parse_secrets secrets);
  format ← stashed execution_id kBindFormat;
  copy_path ← stashed execution_id kBindPath;
  s ← stashed execution_id kBindSchema; output_schema ← lift (decode_schema s);
  Ret (mkProcess [] output_schema arguments settings secrets (Attachment.at_catalog a) path (Attachment.at_options a)
         (Attachment.at_id a) None [] execution_id None None None no_filters no_hints (filled format) (filled copy_path)
         None None None None).

Definition with_batch_index (i : option Z) (p : ProcessParams) : ProcessParams :=
  mkProcess (pp_bind_opaque_data p) (pp_output_schema p) (pp_arguments p) (pp_settings p) (pp_secrets p) (pp_catalog_name p)
    (pp_schema_path p) (pp_attach_options p) (pp_attachment_id p) i (pp_substream_id p) (pp_execution_id p)
    (pp_transaction_opaque_data p) (pp_at_unit p) (pp_at_value p) (pp_pushdown_filters p) (pp_scan_hints p)
    (pp_copy_to_format p) (pp_copy_to_path p) (pp_copy_from_format p) (pp_copy_from_path p) (pp_auth_principal p) (pp_split_payloads p).

(** ** The handlers *)

Definition table_buffering_process (request : option batch) : prog batch :=
  dto ← Aggregate.request_of "table_buffering_process" request;
  '(name, scope) ← Aggregate.named_scope d sealing dto;
  fn ← lift (require_buffering d name scope);
  b ← lift (get_binary dto "input_batch" ≫= decode_ipc);
  params ← buffering_params dto;
  index ← lift (get_optional_int64 dto "batch_index");
  state_id ← (match b with Some b => bf_process fn (with_batch_index index params) b | None => Ret [] end : prog bytes);
  lift (answer_payload "table_buffering_process" [("state_id", Cell_binary state_id)]%string).

Definition table_buffering_combine (request : option batch) : prog batch :=
  dto ← Aggregate.request_of "table_buffering_combine" request;
  '(name, scope) ← Aggregate.named_scope d sealing dto;
  fn ← lift (require_buffering d name scope);
  params ← buffering_params dto;
  state_ids ← lift (get_binary_list dto "state_ids");
  finalize_ids ← bf_combine fn params state_ids;
  lift (answer_payload "table_buffering_combine" [("finalize_state_ids", Cell_binary_list finalize_ids)]%string).

Definition table_buffering_destructor (request : option batch) : prog batch :=
  catch (Aggregate.released request) tt;; lift (envelope_of (mkBatch [] None 0 [])).

(** ** What a call after init works with *)

(** The values under the keys of an execution. *)
Definition kept (st : StorageSpec.store) (execution_id key : bytes) : bytes :=
  default [] (StorageSpec.s_kv st !! (execution_id, key)).

Lemma outcome_stash e key v st :
  outcome (stash e key v) st =
  (match v with [] => st | _ => StorageSpec.mkStore (<[(e, key) := v]> (StorageSpec.s_kv st)) (StorageSpec.s_logs st) end, Ok tt).
Proof using Type. by destruct v. Qed.

Lemma outcome_stashed e key st : outcome (stashed e key) st = (st, Ok (kept st e key)).
Proof using Type. done. Qed.

(** An execution whose id is new has nothing stored yet. *)
Definition unused (st : StorageSpec.store) (e : bytes) : Prop := ∀ key, StorageSpec.s_kv st !! (e, key) = None.

Lemma kept_stash e key v k st :
  kept st e key = [] →
  kept match v with [] => st | _ => StorageSpec.mkStore (<[(e, key) := v]> (StorageSpec.s_kv st)) (StorageSpec.s_logs st) end e k =
  if decide (k = key) then v else kept st e k.
Proof using Type.
  intros Hk. destruct v as [|c v]; [case_decide; [by subst|done]|]. unfold kept. cbn.
  case_decide as E; [subst; by rewrite lookup_insert_eq|by rewrite lookup_insert_ne by congruence].
Qed.

(** What the keys hold after the stash. *)
Record settled (st : StorageSpec.store) (e : bytes) (bind_call : option batch) (format path : option bytes) (s : schema) : Prop := {
  settled_arguments : text_or_empty bind_call "arguments" = Ok (kept st e kBindArguments);
  settled_settings : text_or_empty bind_call "settings" = Ok (kept st e kBindSettings);
  settled_secrets : text_or_empty bind_call "secrets" = Ok (kept st e kBindSecrets);
  settled_format : kept st e kBindFormat = default [] format;
  settled_path : kept st e kBindPath = default [] path;
  settled_schema : encode_schema s = Ok (kept st e kBindSchema);
}.

Lemma stash_settles e bind_call format path s st st' :
  unused st e → outcome (stash_bind e bind_call format path s) st = (st', Ok tt) → settled st' e bind_call format path s.
Proof using Type.
  intros Hu. unfold stash_bind.
  assert (∀ k, kept st e k = []) as H0 by (intros k; unfold kept; by rewrite Hu).
  autorewrite with outcome. destruct (text_or_empty bind_call "arguments") as [a|] eqn:Ea; [|done].
  autorewrite with outcome. rewrite outcome_stash. cbn iota. set (st1 := match a with [] => _ | _ => _ end).
  assert (∀ k, kept st1 e k = if decide (k = kBindArguments) then a else []) as H1
    by (intros k; unfold st1; rewrite kept_stash by done; by rewrite H0).
  autorewrite with outcome. destruct (text_or_empty bind_call "settings") as [x|] eqn:Ex; [|done].
  autorewrite with outcome. rewrite outcome_stash. cbn iota. set (st2 := match x with [] => _ | _ => _ end).
  assert (∀ k, kept st2 e k = if decide (k = kBindSettings) then x else kept st1 e k) as H2
    by (intros k; unfold st2; by rewrite kept_stash by (by rewrite H1)).
  autorewrite with outcome. destruct (text_or_empty bind_call "secrets") as [y|] eqn:Ey; [|done].
  autorewrite with outcome. rewrite outcome_stash. cbn iota. set (st3 := match y with [] => _ | _ => _ end).
  assert (∀ k, kept st3 e k = if decide (k = kBindSecrets) then y else kept st2 e k) as H3
    by (intros k; unfold st3; by rewrite kept_stash by (by rewrite H2, H1)).
  autorewrite with outcome. rewrite outcome_stash. cbn iota. set (st4 := match default [] format with [] => _ | _ => _ end).
  assert (∀ k, kept st4 e k = if decide (k = kBindFormat) then default [] format else kept st3 e k) as H4
    by (intros k; unfold st4; by rewrite kept_stash by (by rewrite H3, H2, H1)).
  autorewrite with outcome. rewrite outcome_stash. cbn iota. set (st5 := match default [] path with [] => _ | _ => _ end).
  assert (∀ k, kept st5 e k = if decide (k = kBindPath) then default [] path else kept st4 e k) as H5
    by (intros k; unfold st5; by rewrite kept_stash by (by rewrite H4, H3, H2, H1)).
  autorewrite with outcome. destruct (encode_schema s) as [z|] eqn:Ez; [|done]. rewrite outcome_stash. intros [= <-].
  assert (∀ k, kept match z with [] => st5 | _ => StorageSpec.mkStore (<[(e, kBindSchema) := z]> (StorageSpec.s_kv st5)) (StorageSpec.s_logs st5) end e k
    = if decide (k = kBindSchema) then z else kept st5 e k) as H6 by (intros k; by rewrite kept_stash by (by rewrite H5, H4, H3, H2, H1)).
  split; rewrite H6, ?H5, ?H4, ?H3, ?H2, ?H1; done.
Qed.

Lemma settled_kv st st' e bind_call format path s :
  (∀ k, StorageSpec.s_kv st' !! (e, k) = StorageSpec.s_kv st !! (e, k)) →
  settled st e bind_call format path s → settled st' e bind_call format path s.
Proof using Type. intros Hk [H1 H2 H3 H4 H5 H6]. split; unfold kept in *; by rewrite Hk. Qed.

(** A call that sinks or combines works with what was stored. *)
Lemma stash_then_params `{!ArrowLaws A} `{!SchemaCodecLaws A L} e bind_call format path s st st1 st2 dto p :
  unused st e → outcome (stash_bind e bind_call format path s) st = (st1, Ok tt) →
  (∀ k, StorageSpec.s_kv st2 !! (e, k) = StorageSpec.s_kv st1 !! (e, k)) →
  text_or_empty dto "execution_id" = Ok e → answer (buffering_params dto) st2 = Ok p →
  pp_execution_id p = e ∧
  text_or_empty bind_call "arguments" ≫= parse = Ok (pp_arguments p) ∧
  text_or_empty bind_call "settings" ≫= Settings.parse_settings = Ok (pp_settings p) ∧
  text_or_empty bind_call "secrets" ≫= Settings.parse_secrets = Ok (pp_secrets p) ∧
  pp_copy_to_format p = filled (default [] format) ∧ pp_copy_to_path p = filled (default [] path) ∧
  pp_output_schema p = Some s.
Proof using Type.
  intros Hu Hst Hk He Hp. apply stash_settles in Hst; [|done]. apply (settled_kv _ st2) in Hst; [|done].
  destruct Hst as [H1 H2 H3 H4 H5 H6]. unfold buffering_params in Hp.
  apply answer_read_Ok in Hp as (a & _ & Hp); [|apply attachment_of_reads].
  apply answer_lift_Ok in Hp as (pth & _ & Hp). rewrite He in Hp. apply answer_lift_Ok in Hp as (e' & [= <-] & Hp).
  change (answer ?m ?x) with (outcome m x).2 in Hp. autorewrite with outcome in Hp. rewrite outcome_stashed in Hp. autorewrite with outcome in Hp.
  rewrite H1, H2, H3. cbn [mbind result_bind].
  destruct (parse (kept st2 e kBindArguments)) as [args|]; [|done]. autorewrite with outcome in Hp. rewrite outcome_stashed in Hp. autorewrite with outcome in Hp.
  destruct (Settings.parse_settings (kept st2 e kBindSettings)) as [ss|]; [|done]. autorewrite with outcome in Hp. rewrite outcome_stashed in Hp. autorewrite with outcome in Hp.
  destruct (Settings.parse_secrets (kept st2 e kBindSecrets)) as [xs|]; [|done].
  autorewrite with outcome in Hp. rewrite outcome_stashed in Hp. autorewrite with outcome in Hp. rewrite outcome_stashed in Hp.
  autorewrite with outcome in Hp. rewrite outcome_stashed in Hp. autorewrite with outcome in Hp.
  apply decode_encode_schema in H6. rewrite H6 in Hp. autorewrite with outcome in Hp. injection Hp as <-. rewrite <- H4, <- H5. done.
Qed.
End buffering.

(** ** A sink called on another worker

    The function of the trial declares a table and then a number, and is called
    with the number 7: init keeps the arguments as the request spelled them. *)

#[local] Existing Instances hex_base64 trial_memory trial_text toy_compute.

Definition seven : batch := mkBatch [Field "arg_0" T_int64 true []] None 1 [mkArray T_int64 [V_int 7]].
Definition seven_bytes : bytes := zb 3 :: enc_len 0.
Definition number_column : schema := ([Field "n" T_int64 true []], None).
Definition trial_arrow : Arrow := schema_arrow [seven].
Definition trial_codec : SchemaCodec := list_codec [seven] [number_column].
#[local] Existing Instances trial_arrow trial_codec.

Definition sink_bind : option batch := Some (mkBatch [Field "arguments" T_binary true []] None 1 [mkArray T_binary [V_text seven_bytes]]).
Definition sink_call : option batch := Some (mkBatch [Field "execution_id" T_binary true []] None 1 [mkArray T_binary [V_text (bs "e1")]]).
Definition sink_store : StorageSpec.store :=
  (outcome (stash_bind (bs "e1") sink_bind (Some (bs "lines")) None number_column) StorageSpec.empty_store).1.
Definition sink_arguments : Arguments :=
  match answer (buffering_params (new_dispatcher (S := nat)) false sink_call) sink_store with
  | Ok p => pp_arguments p
  | Throw _ => no_arguments
  end.

(** Init re-seats the constants behind a table argument; the calls that sink and
    combine do not. *)
Example sink_arguments_not_seated :
  let specs := [table "rows" 0 ""; constant_arg "n" 1 "int64" ""] in
  let seven := Some (mkArray T_int64 [V_int 7]) in
  positional (remap_positional specs sink_arguments) 1 = seven ∧
  positional sink_arguments 0 = seven ∧ positional sink_arguments 1 = None.
Proof. vm_compute. auto. Qed.
End Buffering.
