(* ===== verification/Plan.v ===== *)
(** * Planning a scan ([Dispatcher::table_function_plan] and its neighbours in
    [src/function_dispatch.cpp])

    A function that supports splits divides its scan; each split goes out in a
    token that names the bind and the catalog's version it was planned for, and
    comes back in the init that scans it.  [plan] and [redeem] are the two ends;
    beside them the cardinality of a scan and what it says of itself in a profile.
    The theorem: what a plan answers is redeemed, by the same caller for the same
    bind, for the payloads the function planned, in any order and selection --
    unless the function planned against another version, when every token is told
    to have expired. *)

From S2P Require Import Prelude Text Crypto SplitToken Arrow ArrowRecord ArrowCompute Wire Protocol Metadata Exchange Storage StorageSpec StorageClient AttachService Attachment WireSchema FunctionSpec Arguments Settings Json Pushdown PushdownState Producer Functions Dispatch Calls.
Import Wire Protocol Metadata StorageClient WireSchema Arguments Functions Dispatch Calls.

Module Plan.

(** ** The version of the catalog *)

Definition current_catalog_version : option Z := Some 1.

(** What a call without an answer from the function says: the whole scan as one unit. *)
Definition whole_plan : PlanResult := mkPlanResult [whole_scan] None None None None None None [] None None.

(** A cell that may be null. *)
Definition optional_cell {T} (cell_of : T → cell) (o : option T) : cell :=
  match o with Some v => cell_of v | None => Cell_null end.

Section plan.
Context `{A : Arrow} `{C : Compute} `{B : Base64} `{M : Memory} `{X : Settings.ScalarText} `{L : SchemaCodec}.
Context `{J : Json.JsonParser} `{K : Crypto} {S : Type}.
Context (d : Dispatcher S) (sealing : bool).
(** The key of the process, if it has one. *)
Context (signing_key : option bytes).

(** ** A split on the wire *)

Definition split_cells (s : ScanSplit) (token : bytes) : list (string * cell) :=
  [("payload", Cell_binary (sp_payload s));
   ("token", Cell_binary token);
   ("rows_exact", Cell_bool (sp_rows_exact s));
   ("estimated_rows", optional_cell Cell_int64 (sp_estimated_rows s));
   ("estimated_bytes", optional_cell Cell_int64 (sp_estimated_bytes s));
   ("key_value", optional_cell Cell_binary (sp_key_value s));
   ("range_index", optional_cell Cell_int64 (sp_range_index s));
   ("column_bounds", optional_cell Cell_binary (sp_column_bounds s));
   ("partition_bounds", optional_cell Cell_binary (sp_partition_bounds s));
   ("column_statistics", optional_cell Cell_binary (sp_column_statistics s));
   ("location_ids", optional_cell Cell_int64_list (sp_location_ids s));
   ("start_position", optional_cell Cell_binary (sp_start_position s));
   ("end_position", optional_cell Cell_binary (sp_end_position s))]%string.

Definition encode_scan_split (s : ScanSplit) (token : bytes) : result bytes :=
  b ← build ScanSplitSchema None (split_cells s token); encode_ipc b.

(** ** The bind a token names *)

Definition fingerprint_of (path : list bytes) (name : bytes) (call : option batch) : result bytes :=
  arguments ← text_or_empty call "arguments";
  settings ← text_or_empty call "settings";
  Ok (SplitToken.bind_fingerprint path name arguments settings).

(** ** Plan *)

Definition plan_params (request : option batch) (output_schema : schema) : result PlanParams :=
  target ← get_optional_int64 request "target_split_bytes";
  least ← get_optional_int64 request "min_splits";
  most ← get_optional_int64 request "max_splits_per_response";
  row_limit ← get_optional_int64 request "row_limit";
  cursor ← get_optional_binary request "cursor";
  complete ← get_optional_bool request "filters_complete";
  ids ← get_int64_list request "projection_ids";
  filters ← text_or_empty request "pushdown_filters";
  join_keys ← get_binary_list request "join_keys";
  f ← PushdownState.parse filters join_keys (Some output_schema.1);
  Ok (mkPlan target least most cursor row_limit (default true complete) f (map Exchange.to_int32 ids)).

(** What the function plans, if it does. *)
Definition planned (name : bytes) (p : BindParams) (request : option batch) : prog PlanResult :=
  match find_table d name (scope_of p) (Some p) with
  | Some table =>
      if tf_supports_splits table then
        s ← tf_bind table p;
        match s with
        | None => Fail (Runtime_error "plan: function bound to no output schema")
        | Some s => pp ← lift (plan_params request s); tf_plan table p pp
        end
      else Ret whole_plan
  | None => Ret whole_plan
  end.

Definition stamped_version (r : PlanResult) : option Z :=
  match catalog_version r with Some v => Some v | None => current_catalog_version end.

(** One record per split; the nonces are drawn one after the other. *)
Fixpoint stamp_splits (fingerprint anchor : bytes) (auth : AuthContext) (nonces : nat → bytes) (l : list ScanSplit) (i : nat)
    : result (list bytes) :=
  match l with
  | [] => Ok []
  | s :: l =>
      token ← SplitToken.build (sp_payload s) fingerprint anchor signing_key auth (nonces i);
      e ← encode_scan_split s token;
      rest ← stamp_splits fingerprint anchor auth nonces l (Datatypes.S i);
      Ok (e :: rest)
  end.

Definition plan_cells (r : PlanResult) (records : list bytes) : list (string * cell) :=
  [("splits", Cell_binary_list records);
   ("next_cursors", Cell_binary_list (option_list (next_cursor r)));
   ("scope", Cell_string []);
   ("locations", match locations r with [] => Cell_null | l => Cell_string_list l end);
   ("key_grouping", optional_cell Cell_binary (key_grouping r));
   ("range_partitioning", optional_cell Cell_binary (range_partitioning r));
   ("max_workers", optional_cell Cell_int64 (max_workers r));
   ("estimated_total_splits", optional_cell Cell_int64 (estimated_total_splits r));
   ("estimated_total_rows", optional_cell Cell_int64 (estimated_total_rows r));
   ("estimated_total_bytes", optional_cell Cell_int64 (estimated_total_bytes r));
   ("catalog_version", optional_cell Cell_int64 (catalog_version r))]%string.

(** The bind call a request carries. *)
Definition bind_call_of (what : string) (request : option batch) : result (batch * batch) :=
  req ← get_ipc request "request";
  req ← from_opt (Runtime_error (what +:+ ": empty request")) req;
  call ← get_ipc (Some req) "bind_call";
  call ← from_opt (Runtime_error (what +:+ ": request carries no bind_call")) call;
  Ok (req, call).

Definition table_function_plan (request : option batch) (auth : AuthContext) (nonces : nat → bytes) : prog batch :=
  '(req, call) ← lift (bind_call_of "plan" request);
  name ← lift (get_string (Some call) "function_name");
  p ← read_bind_request d sealing (Some call);
  r ← planned name p (Some req);
  fingerprint ← lift (fingerprint_of (bp_schema_path p) name (Some call));
  records ← lift (stamp_splits fingerprint (SplitToken.anchor_for (stamped_version r)) auth nonces (splits r) 0);
  lift (answer_payload "table_function_plan" (plan_cells r records)).

(** ** Redemption, in [init] *)

Definition expired_message (name : bytes) : string :=
  "SPLIT_SNAPSHOT_EXPIRED: split token for '" +:+ str name +:+ "' names a snapshot this worker no longer serves; " +:+
  "re-run the query to plan against the current snapshot".
Definition invalid_message (name : bytes) : string :=
  "SPLIT_TOKEN_INVALID: split token for '" +:+ str name +:+ "' is malformed or bound elsewhere".

Fixpoint open_tokens (name fingerprint anchor : bytes) (auth : AuthContext) (tokens : list bytes) : result (list bytes) :=
  match tokens with
  | [] => Ok []
  | t :: tokens =>
      let opened := SplitToken.open t fingerprint anchor signing_key auth in
      match SplitToken.payload opened with
      | None =>
          if bool_decide (SplitToken.error opened = SplitToken.SnapshotExpired) then fail (expired_message name)
          else fail (invalid_message name)
      | Some payload => rest ← open_tokens name fingerprint anchor auth tokens; Ok (payload :: rest)
      end
  end.

(** None for an init without tokens, which scans everything. *)
Definition redeem (path : list bytes) (name : bytes) (call : option batch) (auth : AuthContext) (tokens : list bytes)
    : result (option (list bytes)) :=
  match tokens with
  | [] => Ok None
  | _ =>
      fingerprint ← fingerprint_of path name call;
      payloads ← open_tokens name fingerprint (SplitToken.anchor_for current_catalog_version) auth tokens;
      Ok (Some payloads)
  end.

(** ** Cardinality, and what a scan says of itself *)

(** What a call before init has: no execution, no output schema. *)
Definition early_params (p : BindParams) : ProcessParams :=
  mkProcess [] None (bp_arguments p) (bp_settings p) (bp_secrets p) (bp_catalog_name p) (bp_schema_path p) None [] None []
    [] None None None no_filters no_hints None None None None None None.

Definition table_function_cardinality (request : option batch) : prog batch :=
  '(_, call) ← lift (bind_call_of "cardinality" request);
  name ← lift (get_string (Some call) "function_name");
  p ← read_bind_request d sealing (Some call);
  r ← (match find_table d name (scope_of p) (Some p) with
       | Some table => tf_cardinality table (early_params p)
       | None => Ret (mkCardinality None None)
       end : prog TableCardinality);
  lift (payload ← (schema ← payload_schema_of "table_function_cardinality";
                   schema ← from_opt (Undefined_behaviour "a builder without a schema") schema;
                   build schema None [("estimate", optional_cell Cell_int64 (estimate r));
                                      ("max", optional_cell Cell_int64 (card_max r))]%string);
        envelope_of payload).

Definition table_function_dynamic_to_string (request : option batch) : prog batch :=
  '(req, call) ← lift (bind_call_of "dynamic_to_string" request);
  name ← lift (get_string (Some call) "function_name");
  p ← read_bind_request d sealing (Some call);
  execution_id ← lift (text_or_empty (Some req) "global_execution_id");
  said ← (match find_table d name (scope_of p) (Some p) with
          | Some table => tf_dynamic_to_string table execution_id
          | None => Ret []
          end : prog (list (bytes * bytes)));
  lift (answer_payload "table_function_dynamic_to_string"
          [("keys", Cell_string_list said.*1); ("values", Cell_string_list said.*2)]%string).

(** ** What a plan answers is redeemed *)

(** The record of a split as the engine reads it. *)
Definition carries (e : bytes) (x : ScanSplit * bytes) : Prop :=
  ∃ b, decode_ipc e = Ok (Some b) ∧ b_schema b = ScanSplitSchema ∧
    get_binary (Some b) "token" = Ok x.2 ∧ get_binary (Some b) "payload" = Ok (sp_payload x.1) ∧
    get_optional_int64 (Some b) "estimated_rows" = Ok (sp_estimated_rows x.1) ∧
    get_bool (Some b) "rows_exact" = Ok (sp_rows_exact x.1).

Context `{!ArrowLaws A}.

Lemma optional_int64_reads b f o : reads T_int64 b f (optional_cell Cell_int64 o) → get_optional_int64 b f = Ok o.
Proof using Type. destruct o; cbn; [by intros [_ ?]|]. intros (_ & _ & H). by apply H. Qed.

Lemma encode_scan_split_carries s token e : encode_scan_split s token = Ok e → carries e (s, token).
Proof using Type*.
  intros (b & Hb & (_ & _ & _ & He)%encode_ipc_read)%bind_Ok.
  assert (NoDup (split_cells s token).*1) as Hnd by by_decide.
  assert (NoDup (map f_name ScanSplitSchema)) as Hns by by_decide.
  pose proof (λ g c, built_reads _ _ _ _ g c Hb Hnd Hns) as Hr.
  destruct (build_shape _ _ _ _ Hb Hnd) as (Hs & _).
  assert (∀ i g c, ScanSplitSchema !! i = Some g → (f_name g, c) ∈ split_cells s token → reads (f_type g) (Some b) (f_name g) c) as Hread.
  { intros i g c Hi Hin. destruct (Hr g c) as (? & ? & _ & _ & _ & ?); [by eapply list_elem_of_lookup_2|done|done]. }
  exists b. split_and!; [done|done|..].
  - destruct (Hread 1%nat _ (Cell_binary token) eq_refl) as [_ H]; [apply (list_elem_of_lookup_2 _ 1); done|]. by apply H.
  - destruct (Hread 0%nat _ (Cell_binary (sp_payload s)) eq_refl) as [_ H]; [apply (list_elem_of_lookup_2 _ 0); done|]. by apply H.
  - apply optional_int64_reads. apply (Hread 2%nat _ _ eq_refl), (list_elem_of_lookup_2 _ 3). done.
  - destruct (Hread 3%nat _ (Cell_bool (sp_rows_exact s)) eq_refl) as [H _]; [apply (list_elem_of_lookup_2 _ 2); done|done].
Qed.

Lemma stamp_splits_Ok fingerprint anchor auth nonces l i records :
  stamp_splits fingerprint anchor auth nonces l i = Ok records →
  ∃ tokens, length tokens = length l ∧ Forall2 carries records (zip l tokens) ∧
    Forall (λ x : ScanSplit * bytes, ∃ n, SplitToken.build (sp_payload x.1) fingerprint anchor signing_key auth (nonces n) = Ok x.2)
      (zip l tokens).
Proof using Type*.
  revert i records. induction l as [|s l IH]; intros i records; cbn [stamp_splits].
  { intros [= <-]. exists []. split_and!; constructor. }
  intros (token & Ht & (e & He & (rest & Hr & [= <-])%bind_Ok)%bind_Ok)%bind_Ok.
  apply IH in Hr as (tokens & Hl & Hc & Hb). exists (token :: tokens). cbn [length zip zip_with]. split_and!; [by rewrite Hl| |].
  - constructor; [by apply encode_scan_split_carries|done].
  - constructor; [by exists i|done].
Qed.

Lemma open_tokens_Ok name fingerprint anchor auth (chosen : list (ScanSplit * bytes)) :
  Forall (λ x, SplitToken.open x.2 fingerprint anchor signing_key auth = SplitToken.mkOpen (Some (sp_payload x.1)) SplitToken.NoError) chosen →
  open_tokens name fingerprint anchor auth chosen.*2 = Ok (map sp_payload chosen.*1).
Proof using Type. induction 1 as [|[s t] l Ho _ IH]; [done|]. cbn in *. by rewrite Ho, IH. Qed.

Lemma redeem_chosen path name call auth fingerprint (chosen : list (ScanSplit * bytes)) :
  fingerprint_of path name call = Ok fingerprint → chosen ≠ [] →
  redeem path name call auth chosen.*2 =
  (payloads ← open_tokens name fingerprint (SplitToken.anchor_for current_catalog_version) auth chosen.*2; Ok (Some payloads)).
Proof using Type. intros Hf Hc. destruct chosen as [|x l]; [done|]. unfold redeem. by rewrite Hf. Qed.

Lemma anchor_current v : - 2 ^ 63 ≤ v < 2 ^ 63 →
  SplitToken.anchor_for (Some v) = SplitToken.anchor_for current_catalog_version → v = 1.
Proof using Type.
  intros Hv H. unfold SplitToken.anchor_for, current_catalog_version in H. cbn [default from_option id] in H.
  apply (f_equal le_value) in H. rewrite !le_value_le_bytes in H. unfold to_uint64 in H.
  change (256 ^ Z.of_nat 8) with (2 ^ 64) in H. rewrite !Zmod_mod in H.
  change (2 ^ 64) with 18446744073709551616 in H. change (2 ^ 63) with 9223372036854775808 in Hv.
  Z.to_euclidean_division_equations. lia.
Qed.

(** C6. What a plan answers is redeemed.  The records of a plan's answer carry, in
    order, the splits the function planned, each with a token; any of the tokens,
    in any order and however often, presented by the same caller with the same bind
    call, are redeemed for the payloads of their splits -- if the function planned
    for the catalog's version or named none.  If it named another, the answer says
    which, and every token is told to have expired. *)
Theorem plan_redeemed `{!CryptoLaws K} request auth nonces st ans :
  (∀ i, length (nonces i) = kAeadNonceBytes) →
  answer (table_function_plan request auth nonces) st = Ok ans →
  ∃ req call name p r payload records tokens,
    bind_call_of "plan" request = Ok (req, call) ∧ get_string (Some call) "function_name" = Ok name ∧
    answer (read_bind_request d sealing (Some call)) st = Ok p ∧ answer (planned name p (Some req)) st = Ok r ∧
    read_payload ans = Ok (Some payload) ∧ get_binary_list (Some payload) "splits" = Ok records ∧
    get_optional_int64 (Some payload) "catalog_version" = Ok (catalog_version r) ∧
    length tokens = length (splits r) ∧ Forall2 carries records (zip (splits r) tokens) ∧
    ∀ chosen : list (ScanSplit * bytes), chosen ≠ [] → (∀ x, x ∈ chosen → x ∈ zip (splits r) tokens) →
      (catalog_version r = None ∨ catalog_version r = current_catalog_version →
       redeem (bp_schema_path p) name (Some call) auth chosen.*2 = Ok (Some (map sp_payload chosen.*1))) ∧
      (∀ v, catalog_version r = Some v → - 2 ^ 63 ≤ v < 2 ^ 63 → v ≠ 1 →
       redeem (bp_schema_path p) name (Some call) auth chosen.*2 = fail (expired_message name)).
Proof using Type*.
  intros Hn ([req call] & Hcall & H)%answer_lift_Ok. apply answer_lift_Ok in H as (name & Hname & H).
  apply answer_read_Ok in H as (p & Hp & H); [|apply read_bind_request_reads].
  apply answer_bind_Ok in H as (r & Hr & H).
  apply answer_lift_Ok in H as (fingerprint & Hf & (records & Hs & H)%answer_lift_Ok). rewrite answer_lift in H.
  apply stamp_splits_Ok in Hs as (tokens & Hl & Hc & Hb).
  apply answer_payload_reads in H as (schema & payload & Hsch & Hpay & _ & _ & Hreads); [|by_decide].
  exists req, call, name, p, r, payload, records, tokens. split_and!; try done.
  { destruct (Hreads "splits"%string (Cell_binary_list records)) as (? & _ & _ & Hx); [by left|exact Hx]. }
  { destruct (Hreads "catalog_version"%string (optional_cell Cell_int64 (catalog_version r))) as (g & Hg & Hgn & Hx).
    - apply (list_elem_of_lookup_2 _ 10). done.
    - assert (f_type g = T_int64) as Hty; [|rewrite Hty in Hx; by apply optional_int64_reads].
      vm_compute in Hsch. injection Hsch as <-. apply list_elem_of_lookup in Hg as [i Hi].
      repeat (destruct i as [|i]; [cbn in Hi; injection Hi as <-; done|]). done. }
  intros chosen Hne Hin. rewrite (redeem_chosen _ _ _ _ fingerprint) by done.
  assert (Forall (λ x : ScanSplit * bytes, ∀ cur, SplitToken.open x.2 fingerprint cur signing_key auth =
    if bool_decide (SplitToken.anchor_for (stamped_version r) = cur) then SplitToken.mkOpen (Some (sp_payload x.1)) SplitToken.NoError
    else SplitToken.mkOpen None SplitToken.SnapshotExpired) chosen) as Ho.
  { apply Forall_forall. intros x Hx%Hin cur. rewrite Forall_forall in Hb. destruct (Hb x Hx) as [n Hbuild].
    by eapply SplitToken.open_build. }
  split.
  - intros Hv. rewrite open_tokens_Ok; [done|]. eapply Forall_impl; [exact Ho|]. intros x Hx. rewrite Hx.
    rewrite bool_decide_true; [done|]. unfold stamped_version. by destruct Hv as [-> | ->].
  - intros v Hv Hrange Hv1. destruct chosen as [|x l]; [done|]. apply Forall_cons in Ho as [Hx _]. cbn [fmap list_fmap open_tokens].
    rewrite Hx. rewrite bool_decide_false; [done|]. unfold stamped_version. rewrite Hv. intros E. by apply anchor_current in E.
Qed.

End plan.

(** ** A scan of two splits, sealed for a caller *)

#[local] Existing Instances hex_base64 trial_memory trial_text toy_compute toy_crypto.
Definition no_json : Json.JsonParser := λ _, inl "no JSON here"%string.
#[local] Existing Instance no_json.

Definition split_of (payload : bytes) (rows : Z) : ScanSplit :=
  mkSplit payload (Some rows) true None None None None None None None None None.
Definition first_half : ScanSplit := split_of (bs "rows 0-4") 5.
Definition second_half : ScanSplit := split_of (bs "rows 5-9") 5.
Definition row_column : schema := ([Field "n" T_int64 true []], None).
Definition halves : TableFunction nat :=
  mkTable (bs "halves") [] false (λ _, Ret (Some row_column)) (λ _, Ret None) (λ _, []) (λ _, Unknown)
    (λ _, Ret (mkCardinality None None)) true
    (λ _ _, Ret (mkPlanResult [first_half; second_half] (Some 2) (Some 2) None None None None [] None None))
    (λ _, []) (λ _, Ret []) (λ _, Ret 1) (λ _, Ret tt).
Definition halves_worker : Dispatcher nat :=
  match register_table_in (mkScope [] [bs "main"]) (Some halves) new_dispatcher with Ok d => d | Throw _ => new_dispatcher end.

Definition halves_key : option bytes := Some SplitToken.demo_key.
Definition halves_nonces (i : nat) : bytes := zb (Z.of_nat i) :: replicate 23 (zb 7).
Definition halves_call : batch := mkBatch [Field "function_name" T_string false []] None 1 [mkArray T_string [V_text (bs "halves")]].
Definition halves_fingerprint : bytes := SplitToken.bind_fingerprint [bs "main"] (bs "halves") [] [].
Definition halves_token (s : ScanSplit) (i : nat) : bytes :=
  match SplitToken.build (sp_payload s) halves_fingerprint (SplitToken.anchor_for (Some 1)) halves_key SplitToken.demo_alice (halves_nonces i) with
  | Ok t => t
  | Throw _ => []
  end.
Definition split_record (s : ScanSplit) (i : nat) : batch :=
  match build (A := table_arrow []) ScanSplitSchema None (split_cells s (halves_token s i)) with Ok b => b | Throw _ => halves_call end.

(** The streams of the trial, in order: the call, the request, the two records, the answer's record. *)
Definition stream_bytes (i : nat) : bytes := zb 3 :: enc_len i.
Definition halves_request : batch := mkBatch [Field "bind_call" T_binary true []] None 1 [mkArray T_binary [V_text (stream_bytes 0)]].
Definition halves_record : batch :=
  match build_payload (A := table_arrow []) "table_function_plan"
    (plan_cells (mkPlanResult [first_half; second_half] (Some 2) (Some 2) None None None None [] None None) [stream_bytes 2; stream_bytes 3]) with
  | Ok b => b
  | Throw _ => halves_call
  end.
Definition halves_streams : list batch :=
  [halves_call; halves_request; split_record first_half 0; split_record second_half 1; halves_record].
Definition halves_arrow : Arrow := schema_arrow halves_streams.
Definition halves_codec : SchemaCodec := list_codec halves_streams [row_column].
#[local] Existing Instances halves_arrow halves_codec.

Definition plan_request : option batch :=
  Some (mkBatch [Field "request" T_binary true []] None 1 [mkArray T_binary [V_text (stream_bytes 1)]]).
Definition plan_halves : prog batch :=
  table_function_plan halves_worker false halves_key plan_request SplitToken.demo_alice halves_nonces.
Definition plan_answer : batch := match answer plan_halves StorageSpec.empty_store with Ok b => b | Throw _ => halves_call end.

Lemma plan_redeemed_witness :
  answer plan_halves StorageSpec.empty_store = Ok plan_answer ∧
  ∃ path name call t1 t2,
    redeem halves_key path name (Some call) SplitToken.demo_alice [t2; t1] =
      Ok (Some [sp_payload second_half; sp_payload first_half]).
Proof.
  assert (answer plan_halves StorageSpec.empty_store = Ok plan_answer) as Ha by (vm_compute; reflexivity).
  split; [exact Ha|].
  pose proof (schema_arrow_laws halves_streams) as L1.
  destruct (plan_redeemed halves_worker false halves_key plan_request SplitToken.demo_alice halves_nonces StorageSpec.empty_store
    plan_answer) as (req & call & name & p & r & payload & records & tokens & Hc & Hname & Hp & Hr & _ & _ & _ & Hl & _ & Hredeem).
  - intros i. reflexivity.
  - exact Ha.
  - assert (bind_call_of "plan" plan_request = Ok (halves_request, halves_call)) as E1 by (vm_compute; reflexivity).
    assert (get_string (Some halves_call) "function_name" = Ok (bs "halves")) as E2 by (vm_compute; reflexivity).
    assert (∃ p0 r0, answer (read_bind_request halves_worker false (Some halves_call)) StorageSpec.empty_store = Ok p0 ∧
      answer (planned halves_worker (bs "halves") p0 (Some halves_request)) StorageSpec.empty_store = Ok r0 ∧
      splits r0 = [first_half; second_half] ∧ catalog_version r0 = None) as (p0 & r0 & E3 & E4 & E5 & E6)
      by (eexists _, _; split_and!; [vm_compute; reflexivity..]).
    assert (req = halves_request ∧ call = halves_call) as [-> ->] by (split; congruence).
    assert (name = bs "halves") as -> by congruence. assert (p = p0) as -> by congruence. assert (r = r0) as -> by congruence.
    rewrite E5 in Hl, Hredeem. destruct tokens as [|t1 [|t2 [|]]]; [done|done| |done].
    exists (bp_schema_path p0), (bs "halves"), halves_call, t1, t2.
    destruct (Hredeem [(second_half, t2); (first_half, t1)]) as [Hok _].
    + done.
    + intros x Hx. apply elem_of_cons in Hx as [->|Hx]; [right; left|]. apply elem_of_cons in Hx as [->|Hx]; [left|].
      destruct (not_elem_of_nil _ Hx).
    + pose proof (Hok (or_introl E6)) as H. cbn [map fmap list_fmap fst snd] in H. exact H.
Defined.
End Plan.
