(* ===== verification/Init.v ===== *)
(** * Opening a stream ([Dispatcher::init] of [src/function_dispatch.cpp])

    Init makes the parameters of every later turn of a call out of the bind call
    and the plan: the schema narrowed to the columns asked for, the execution's id,
    the payloads of its splits, the optimizer's hints and the filters.  It then
    opens the stream of the function: a producer for a table function, an exchange
    for a table-in-out or scalar function, and for a buffering function the sink,
    or the drain of one state.  The theorems: an execution's work is divided
    once, by its first init; and what a sinking call works with is what this init
    was told. *)

From Stdlib Require Import SpecFloat.
From S2P Require Import Prelude Text Crypto SplitToken Arrow ArrowRecord ArrowCompute Wire Protocol Metadata Exchange Storage StorageSpec StorageClient AttachService Attachment WireSchema FunctionSpec Arguments Settings Json Pushdown PushdownState Producer Functions Dispatch Calls Aggregate Buffering Plan.
Import Wire Protocol Metadata StorageClient WireSchema Arguments Functions Dispatch Calls Buffering Plan.

Module Init.

(** ** The id of an execution *)

(** [std::hex]: no leading zeros, at most sixteen digits. *)
Fixpoint hex_from (n : nat) (z : Z) (l : bytes) : bytes :=
  match n with
  | O => l
  | S n => let l := hex_digit (z mod 16) :: l in if z / 16 =? 0 then l else hex_from n (z / 16) l
  end.
Definition hex_text (z : Z) : bytes := hex_from 16 (to_uint64 z) [].

Definition dash : ascii := zb 45.

(** The process, and when it drew its first id by either clock. *)
Record process := mkProc { pid : Z; wall : Z; now : Z }.
Definition execution_prefix (p : process) : bytes :=
  hex_text (pid p) ++ [dash] ++ hex_text (wall p) ++ [dash] ++ hex_text (now p) ++ [dash].
(** [counter] executions have been numbered before. *)
Definition next_execution_id (p : process) (counter : Z) : bytes :=
  execution_prefix p ++ Text.to_string (to_uint64 (counter + 1)).

(** ** The phases of a buffering or table-in-out function *)

Definition kPhaseFinalize : bytes := bs "FINALIZE".
Definition kPhaseTableBufferingFinalize : bytes := bs "TABLE_BUFFERING_FINALIZE".
(** [enums::function_type::kTableBuffering] *)
Definition kTableBuffering : bytes := bs "table_buffering".

Definition empty_schema : schema := ([], None).

(** ** Projection: the columns at the places asked for *)

Fixpoint pick_fields (fields : list field) (ids : list Z) : result (list field) :=
  match ids with
  | [] => Ok []
  | i :: ids =>
      throw_if ((i <? 0) || (Z.of_nat (length fields) <=? i))
        (Runtime_error ("init: projection id " +:+ number i +:+ " is outside the bound output schema"));;
      f ← from_opt (Undefined_behaviour "a field past the end of the schema") (fields !! Z.to_nat i);
      rest ← pick_fields fields ids;
      Ok (f :: rest)
  end.

(** No ids: the whole schema.  A narrowed one has no metadata. *)
Definition narrowed (s : schema) (ids : list Z) : result schema :=
  match ids with [] => Ok s | _ => fields ← pick_fields s.1 ids; Ok (fields, None) end.

(** ** Scalar functions: one batch for each *)

Definition scalar_exchange (fn : ScalarFunction) (params : ProcessParams) (input : option batch)
    : result (batch * option metadata) :=
  r ← sf_process fn params input;
  match r with
  | None => fail ("scalar function '" +:+ str (sf_name fn) +:+ "' returned no batch")
  | Some b =>
      throw_if (match input with Some i => negb (b_rows b =? b_rows i) | None => false end)
        (Runtime_error ("scalar function '" +:+ str (sf_name fn) +:+ "' returned " +:+ number (b_rows b) +:+ " rows for " +:+
                        number (from_option b_rows 0 input) +:+ " input rows"));;
      Ok (b, cache_metadata (sf_cache_control fn))
  end.

Section init.
Context `{A : Arrow} `{C : Compute} `{B : Base64} `{M : Memory} `{X : Settings.ScalarText} `{L : SchemaCodec}.
Context `{J : Json.JsonParser} `{K : Crypto} {S : Type}.
Context (d : Dispatcher S) (sealing : bool) (signing_key : option bytes).

(** ** The stream of a call *)

Inductive stream_state : Type :=
| Scans (x : Producer.TableProduce (S := S))
| Drains (x : Producer.TableProduce (S := list batch))
| Transforms (x : Exchange.TableInOutExchange (S := S))
| Maps (fn : ScalarFunction) (params : ProcessParams).

Record opened := mkOpened {
  op_header : batch;
  op_input_schema : schema;
  op_output_schema : schema;
  op_params : ProcessParams;
  op_state : stream_state;
}.

(** A producer that is not filtered, narrowed or asked anything. *)
Definition plain_produce {T} (producer : option (Producer.TableProducer T * T)) : Producer.TableProduce (S := T) :=
  Producer.open_produce producer no_filters None false Exchange.no_validators.

(** ** The parameters *)

Definition scan_hints (req : option batch) : result ScanHints :=
  column ← get_optional_string req "order_by_column_name";
  direction ← get_optional_enum req "order_by_direction";
  nulls ← get_optional_enum req "order_by_null_order";
  limit ← get_optional_int64 req "order_by_limit";
  percentage ← get_optional_double req "tablesample_percentage";
  seed ← get_optional_int64 req "tablesample_seed";
  Ok (mkHints column direction nulls limit percentage seed).

(** What is settled before the function is asked: the bound and the narrowed
    schema, whether this init is the execution's first, and the parameters. *)
Record settings_of_init := mkSettled { in_primary : bool; in_schema_ : schema; in_params : ProcessParams }.

Definition read_init (req call : option batch) (name : bytes) (p : BindParams) (auth : AuthContext) (fresh : bytes)
    : result settings_of_init :=
  bound ← get_schema req "output_schema";
  bound ← from_opt (Runtime_error "init: request carries no output_schema") bound;
  ids ← get_int64_list req "projection_ids";
  output_schema ← narrowed bound ids;
  opaque ← text_or_empty req "bind_opaque_data";
  given ← text_or_empty req "execution_id";
  let primary := bool_decide (given = []) in
  substream ← text_or_empty req "substream_id";
  tokens ← get_binary_list req "split_tokens";
  payloads ← redeem signing_key (bp_schema_path p) name call auth tokens;
  hints ← scan_hints req;
  pushed ← text_or_empty req "pushdown_filters";
  join_keys ← get_binary_list req "join_keys";
  filters ← PushdownState.parse pushed join_keys (Some bound.1);
  Ok (mkSettled primary output_schema
    (mkProcess opaque (Some output_schema) (bp_arguments p) (bp_settings p) (bp_secrets p) (bp_catalog_name p) (bp_schema_path p)
       (bp_attach_options p) (bp_attachment_id p) None substream (if primary then fresh else given)
       (bp_transaction_opaque_data p) (bp_at_unit p) (bp_at_value p) filters hints
       (bp_copy_to_format p) (bp_copy_to_path p) (bp_copy_from_format p) (bp_copy_from_path p)
       (if authenticated auth then principal auth else None) payloads)).

(** ** Dividing the work *)

(** [std::max<int64_t>(1, table->max_workers(params))], and [on_init] on the first init only. *)
Definition divide_work (name : bytes) (p : BindParams) (call : option batch) (primary : bool) (params : ProcessParams) : prog Z :=
  kind ← lift (get_optional_enum call "function_type");
  let buffering := bool_decide (kind = Some kTableBuffering) && bool_decide (is_Some (find_buffering d name (scope_of p))) in
  match (if buffering then None else find_table d name (scope_of p) (Some p)) with
  | None => Ret 1
  | Some table =>
      n ← tf_max_workers table params;
      (if primary then tf_on_init table params else Ret tt);;
      Ret (Z.max 1 n)
  end.

(** ** The stream *)

Definition open_sink (sink : TableBufferingFunction S) (req call : option batch) (s : settings_of_init) : prog stream_state :=
  let params := in_params s in
  (if in_primary s
   then stash_bind (pp_execution_id params) call (pp_copy_to_format params) (pp_copy_to_path params) (in_schema_ s)
   else Ret tt);;
  phase ← lift (get_optional_enum req "phase");
  if bool_decide (default [] phase = kPhaseTableBufferingFinalize) then
    state_id ← lift (text_or_empty req "finalize_state_id");
    producer ← bf_finalize_producer sink params state_id;
    Ret (Scans (plain_produce producer))
  else Ret (Scans (plain_produce None)).

Definition open_scan (table : TableFunction S) (md : option metadata) (s : settings_of_init) : prog stream_state :=
  producer ← tf_init table (in_params s);
  Ret (Scans (Producer.set_validators
    (Exchange.mkValidators (metadata_value md Exchange.kIfNoneMatch) (metadata_value md Exchange.kIfModifiedSince))
    (Producer.open_produce producer (pp_pushdown_filters (in_params s)) (Some (in_schema_ s)) (tf_auto_apply_filters table)
       Exchange.no_validators))).

Definition input_schema_or_empty (call : option batch) : result schema :=
  s ← get_schema call "input_schema"; Ok (default empty_schema s).

Definition open_transform (transform : TableInOut S) (req call : option batch) (s : settings_of_init) : prog (schema * stream_state) :=
  phase ← lift (get_optional_enum req "phase");
  if bool_decide (default [] phase = kPhaseFinalize) then
    emitted ← to_finish transform (in_params s);
    rows ← lift (Exchange.finalize_batches (str (to_name transform)) emitted);
    Ret (empty_schema, Drains (plain_produce (Some (rows_producer, rows))))
  else
    input ← lift (input_schema_or_empty call);
    x ← lift (Exchange.open_exchange (to_open transform (in_params s)) (in_schema_ s));
    Ret (input, Transforms x).

(** Which stream it is, and what comes in on it. *)
Definition open_stream (req call : option batch) (md : option metadata) (name : bytes) (p : BindParams) (s : settings_of_init)
    : prog (schema * stream_state) :=
  match find_buffering d name (scope_of p) with
  | Some sink => x ← open_sink sink req call s; Ret (empty_schema, x)
  | None =>
      match find_table d name (scope_of p) (Some p) with
      | Some table => x ← open_scan table md s; Ret (empty_schema, x)
      | None =>
          match find_table_in_out d name (scope_of p) with
          | Some transform => open_transform transform req call s
          | None =>
              fn ← lift (resolve_scalar d name p);
              input ← lift (input_schema_or_empty call);
              Ret (input, Maps fn (in_params s))
          end
      end
  end.

Definition header_cells (execution_id : bytes) (workers : Z) : list (string * cell) :=
  [("execution_id", Cell_binary execution_id); ("max_workers", Cell_int64 workers); ("opaque_data", Cell_null)]%string.

(** [fresh] is what [next_execution_id] would give. *)
Definition init (request : option batch) (md : option metadata) (auth : AuthContext) (fresh : bytes) : prog opened :=
  '(req, call) ← lift (bind_call_of "init" request);
  name ← lift (get_string (Some call) "function_name");
  p ← read_bind_request d sealing (Some call);
  s ← lift (read_init (Some req) (Some call) name p auth fresh);
  workers ← divide_work name p (Some call) (in_primary s) (in_params s);
  header ← lift (build GlobalInitResponseSchema None (header_cells (pp_execution_id (in_params s)) workers));
  '(input, x) ← open_stream (Some req) (Some call) md name p s;
  Ret (mkOpened header input (in_schema_ s) (in_params s) x).

(** ** What an init does, in order *)

Lemma init_Ok request md auth fresh st st' o :
  outcome (init request md auth fresh) st = (st', Ok o) →
  ∃ req call name p s workers st1,
    bind_call_of "init" request = Ok (req, call) ∧ get_string (Some call) "function_name" = Ok name ∧
    answer (read_bind_request d sealing (Some call)) st = Ok p ∧
    read_init (Some req) (Some call) name p auth fresh = Ok s ∧
    outcome (divide_work name p (Some call) (in_primary s) (in_params s)) st = (st1, Ok workers) ∧
    build GlobalInitResponseSchema None (header_cells (pp_execution_id (in_params s)) workers) = Ok (op_header o) ∧
    outcome (open_stream (Some req) (Some call) md name p s) st1 = (st', Ok (op_input_schema o, op_state o)) ∧
    op_output_schema o = in_schema_ s ∧ op_params o = in_params s.
Proof using Type.
  unfold init. autorewrite with outcome. destruct (bind_call_of "init" request) as [[req call]|]; [|done].
  autorewrite with outcome. destruct (get_string (Some call) "function_name") as [name|] eqn:Hname; [|done].
  autorewrite with outcome. rewrite outcome_reads by apply read_bind_request_reads.
  destruct (answer (read_bind_request d sealing (Some call)) st) as [p|] eqn:Hp; [|done].
  autorewrite with outcome. destruct (read_init (Some req) (Some call) name p auth fresh) as [s|] eqn:Hs; [|done].
  autorewrite with outcome. destruct (outcome (divide_work _ _ _ _ _) st) as [st1 [workers|]] eqn:Hw; [|done].
  autorewrite with outcome. destruct (build _ _ _) as [header|] eqn:Hb; [|done].
  autorewrite with outcome. destruct (outcome (open_stream _ _ _ _ _ _) st1) as [st2 [[input x]|]] eqn:Hx; [|done].
  autorewrite with outcome. intros [= <- <-]. by exists req, call, name, p, s, workers, st1.
Qed.

Lemma read_init_Ok req call name p auth fresh s :
  read_init req call name p auth fresh = Ok s →
  ∃ bound ids given, get_schema req "output_schema" = Ok (Some bound) ∧ get_int64_list req "projection_ids" = Ok ids ∧
    narrowed bound ids = Ok (in_schema_ s) ∧ text_or_empty req "execution_id" = Ok given ∧
    in_primary s = bool_decide (given = []) ∧
    pp_execution_id (in_params s) = (if bool_decide (given = []) then fresh else given) ∧
    pp_output_schema (in_params s) = Some (in_schema_ s) ∧ pp_arguments (in_params s) = bp_arguments p ∧
    pp_settings (in_params s) = bp_settings p ∧ pp_secrets (in_params s) = bp_secrets p ∧
    pp_copy_to_format (in_params s) = bp_copy_to_format p ∧ pp_copy_to_path (in_params s) = bp_copy_to_path p.
Proof using Type.
  unfold read_init. intros (b & Hb & (bound & ->%from_opt_Ok & (ids & Hids & (os & Hos & (opaque & _ & (given & Hg & H)%bind_Ok)%bind_Ok)%bind_Ok)%bind_Ok)%bind_Ok)%bind_Ok.
  cbv zeta in H.
  apply bind_Ok in H as (sub & _ & (tokens & _ & (payloads & _ & (hints & _ & (pushed & _ & (keys & _ & (f & _ & [= <-])%bind_Ok)%bind_Ok)%bind_Ok)%bind_Ok)%bind_Ok)%bind_Ok).
  exists bound, ids, given. done.
Qed.

Lemma header_reads `{!ArrowLaws A} execution_id workers header :
  build GlobalInitResponseSchema None (header_cells execution_id workers) = Ok header →
  get_optional_binary (Some header) "execution_id" = Ok (Some execution_id) ∧ get_int64 (Some header) "max_workers" = Ok workers.
Proof using Type.
  intros Hb.
  assert (∀ i g c, GlobalInitResponseSchema !! i = Some g → (f_name g, c) ∈ header_cells execution_id workers →
    reads (f_type g) (Some header) (f_name g) c) as Hread.
  { intros i g c Hi Hin. destruct (built_reads _ _ _ _ g c Hb) as (? & ? & _ & _ & _ & ?); try done; try by_decide.
    by eapply list_elem_of_lookup_2. }
  split.
  - destruct (Hread 0%nat _ (Cell_binary execution_id) eq_refl) as [H _]; [apply (list_elem_of_lookup_2 _ 0); done|done].
  - destruct (Hread 2%nat _ (Cell_int64 workers) eq_refl) as [H _]; [apply (list_elem_of_lookup_2 _ 1); done|done].
Qed.

(** The function an init scans with: a table function, of a name nothing sinks to. *)
Definition scans_with (call : option batch) (st : StorageSpec.store) (t : TableFunction S) : Prop :=
  ∃ name p, get_string call "function_name" = Ok name ∧ answer (read_bind_request d sealing call) st = Ok p ∧
    find_buffering d name (scope_of p) = None ∧ find_table d name (scope_of p) (Some p) = Some t.

Lemma init_scans `{!ArrowLaws A} request md auth fresh st st' o req call t :
  (∀ params, reads_only (tf_max_workers t params) ∧ reads_only (tf_init t params)) →
  bind_call_of "init" request = Ok (req, call) → scans_with (Some call) st t →
  outcome (init request md auth fresh) st = (st', Ok o) →
  ∃ given n, text_or_empty (Some req) "execution_id" = Ok given ∧ answer (tf_max_workers t (op_params o)) st = Ok n ∧
    let e := if bool_decide (given = []) then fresh else given in
    pp_execution_id (op_params o) = e ∧ get_optional_binary (Some (op_header o)) "execution_id" = Ok (Some e) ∧
    get_int64 (Some (op_header o)) "max_workers" = Ok (Z.max 1 n) ∧
    st' = if bool_decide (given = []) then after (tf_on_init t (op_params o)) st else st.
Proof using Type.
  intros Hreads Hc (name & p & Hname & Hp & Hbuf & Htab)
    (req' & call' & name' & p' & s & workers & st1 & Hc' & Hname' & Hp' & Hs & Hw & Hh & Hx & _ & ->)%init_Ok.
  rewrite Hc in Hc'. injection Hc' as <- <-. rewrite Hname in Hname'. injection Hname' as <-. rewrite Hp in Hp'. injection Hp' as <-.
  apply read_init_Ok in Hs as (bound & ids & given & _ & _ & _ & Hg & Hprim & He & _). apply header_reads in Hh as [H1 H2].
  destruct (Hreads (in_params s)) as [Rw Ri].
  unfold open_stream in Hx. rewrite Hbuf, Htab in Hx. unfold open_scan in Hx. autorewrite with outcome in Hx.
  rewrite outcome_reads in Hx by done. destruct (answer (tf_init t (in_params s)) st1); [|done].
  autorewrite with outcome in Hx. injection Hx as <- _ _.
  unfold divide_work in Hw. autorewrite with outcome in Hw. destruct (get_optional_enum (Some call) "function_type"); [|done].
  rewrite Hbuf, (bool_decide_false (is_Some None)), andb_false_r, Htab in Hw by (by intros []).
  autorewrite with outcome in Hw. rewrite outcome_reads in Hw by done.
  destruct (answer (tf_max_workers t (in_params s)) st) as [n|]; [|done]. autorewrite with outcome in Hw.
  exists given, n. rewrite Hprim in Hw. rewrite <- He, H1, H2. case_bool_decide.
  - rewrite outcome_split in Hw. destruct (answer (tf_on_init _ _) st); [|done]. autorewrite with outcome in Hw. by injection Hw as <- <-.
  - autorewrite with outcome in Hw. by injection Hw as <- <-.
Qed.

(** C10. The work of an execution is divided once.  The init that comes without an
    execution id names the execution in its header and has the function divide the
    work -- that is all it does to the storage, if the function's other hooks only
    read; an init that comes with the id of the header, on whatever worker and
    after whatever else happened, works under the same id and leaves the storage
    as it found it. *)
Theorem work_divided_once `{!ArrowLaws A} request md auth fresh st st1 o req call t :
  (∀ params, reads_only (tf_max_workers t params) ∧ reads_only (tf_init t params)) → fresh ≠ [] →
  bind_call_of "init" request = Ok (req, call) → text_or_empty (Some req) "execution_id" = Ok [] →
  scans_with (Some call) st t → outcome (init request md auth fresh) st = (st1, Ok o) →
  (∃ workers, get_int64 (Some (op_header o)) "max_workers" = Ok workers ∧ 1 ≤ workers) ∧
  pp_execution_id (op_params o) = fresh ∧ get_optional_binary (Some (op_header o)) "execution_id" = Ok (Some fresh) ∧
  st1 = after (tf_on_init t (op_params o)) st ∧
  ∀ request' md' auth' fresh' st2 st3 o' req' call' e,
    get_optional_binary (Some (op_header o)) "execution_id" = Ok (Some e) →
    bind_call_of "init" request' = Ok (req', call') → text_or_empty (Some req') "execution_id" = Ok e →
    scans_with (Some call') st2 t → outcome (init request' md' auth' fresh') st2 = (st3, Ok o') →
    st3 = st2 ∧ pp_execution_id (op_params o') = fresh.
Proof using Type.
  intros Hreads Hfresh Hc Hg Ht Ho. destruct (init_scans _ _ _ _ _ _ _ _ _ _ Hreads Hc Ht Ho) as (given & n & Hg' & _ & H1 & H2 & H3 & H4).
  rewrite Hg in Hg'. injection Hg' as <-. rewrite bool_decide_true in H1, H2, H4 by done.
  split_and!; [exists (Z.max 1 n); split; [done|lia]|done..|].
  intros request' md' auth' fresh' st2 st3 o' req' call' e He Hc' Hge Ht' Ho'. rewrite H2 in He. injection He as <-.
  destruct (init_scans _ _ _ _ _ _ _ _ _ _ Hreads Hc' Ht' Ho') as (given & m & Hg'' & _ & G1 & _ & _ & G4).
  rewrite Hge in Hg''. injection Hg'' as <-. by rewrite bool_decide_false in G1, G4 by done.
Qed.

(** ** What a sinking call works with is what init was told *)

(** A function that only sinks, and an init of its sink. *)
Definition sinks (sink : TableBufferingFunction S) (call req : option batch) (st : StorageSpec.store) : Prop :=
  ∃ name p phase, get_string call "function_name" = Ok name ∧ answer (read_bind_request d sealing call) st = Ok p ∧
    find_buffering d name (scope_of p) = Some sink ∧ find_table d name (scope_of p) (Some p) = None ∧
    get_optional_enum req "phase" = Ok phase ∧ default [] phase ≠ kPhaseTableBufferingFinalize.

Lemma init_sinks sink request md auth fresh st st1 o req call :
  bind_call_of "init" request = Ok (req, call) → text_or_empty (Some req) "execution_id" = Ok [] →
  sinks sink (Some call) (Some req) st → outcome (init request md auth fresh) st = (st1, Ok o) →
  ∃ name p s, get_string (Some call) "function_name" = Ok name ∧ find_buffering d name (scope_of p) = Some sink ∧
    describes d sealing (Some call) st p ∧ pp_execution_id (op_params o) = fresh ∧
    pp_output_schema (op_params o) = Some s ∧ pp_arguments (op_params o) = bp_arguments p ∧
    pp_settings (op_params o) = bp_settings p ∧ pp_secrets (op_params o) = bp_secrets p ∧
    outcome (stash_bind fresh (Some call) (pp_copy_to_format (op_params o)) (pp_copy_to_path (op_params o)) s) st = (st1, Ok tt).
Proof using Type.
  intros Hc Hg (name & p & phase & Hname & Hp & Hbuf & Htab & Hph & Hne)
    (req' & call' & name' & p' & s & workers & st2 & Hc' & Hname' & Hp' & Hs & Hw & _ & Hx & _ & ->)%init_Ok.
  rewrite Hc in Hc'. injection Hc' as <- <-. rewrite Hname in Hname'. injection Hname' as <-. rewrite Hp in Hp'. injection Hp' as <-.
  apply read_init_Ok in Hs as (bound & ids & given & _ & _ & _ & Hg' & Hprim & He & Hos & Ha & Hss & Hse & Hcf & Hcp).
  rewrite Hg in Hg'. injection Hg' as <-. rewrite bool_decide_true in Hprim, He by done.
  exists name, p, (in_schema_ s). apply read_describes in Hp as Hd. split_and!; try done.
  unfold divide_work in Hw. autorewrite with outcome in Hw. destruct (get_optional_enum (Some call) "function_type"); [|done].
  rewrite Htab in Hw. destruct (_ && _) in Hw; autorewrite with outcome in Hw; injection Hw as -> _;
  (unfold open_stream in Hx; rewrite Hbuf in Hx; unfold open_sink in Hx; rewrite Hprim, He in Hx; autorewrite with outcome in Hx;
  destruct (outcome (stash_bind _ _ _ _ _) st2) as [st3 [[]|]]; [|done]; autorewrite with outcome in Hx; rewrite Hph in Hx;
  autorewrite with outcome in Hx; rewrite bool_decide_false in Hx by done; autorewrite with outcome in Hx; by injection Hx as ->).
Qed.

(** C9. A call that sinks or combines, on any worker, works with what the bind call of
    its execution said: its arguments are those of that call, as the request
    spelled them, its settings and secrets those of that call, which are the ones the
    init had, and the output schema and the COPY destination are the init's.  The init has
    the same arguments in the places that the function declares.  All this if the
    execution id was new and its keys were left alone since. *)
Theorem sink_settled `{!ArrowLaws A} `{!SchemaCodecLaws A L} sink request md auth fresh st st1 st2 o req call dto p :
  bind_call_of "init" request = Ok (req, call) → text_or_empty (Some req) "execution_id" = Ok [] →
  sinks sink (Some call) (Some req) st → unused st fresh → outcome (init request md auth fresh) st = (st1, Ok o) →
  (∀ k, StorageSpec.s_kv st2 !! (fresh, k) = StorageSpec.s_kv st1 !! (fresh, k)) →
  text_or_empty dto "execution_id" = Ok fresh → answer (buffering_params d sealing dto) st2 = Ok p →
  pp_execution_id (op_params o) = fresh ∧ pp_execution_id p = fresh ∧
  (text_or_empty (Some call) "arguments" ≫= parse) = Ok (pp_arguments p) ∧
  pp_arguments (op_params o) = remap_positional (bf_argument_specs sink) (pp_arguments p) ∧
  (text_or_empty (Some call) "settings" ≫= Settings.parse_settings) = Ok (pp_settings p) ∧
  (text_or_empty (Some call) "secrets" ≫= Settings.parse_secrets) = Ok (pp_secrets p) ∧
  pp_settings p = pp_settings (op_params o) ∧ pp_secrets p = pp_secrets (op_params o) ∧
  pp_output_schema p = pp_output_schema (op_params o) ∧
  pp_copy_to_format p = filled (default [] (pp_copy_to_format (op_params o))) ∧
  pp_copy_to_path p = filled (default [] (pp_copy_to_path (op_params o))).
Proof using Type.
  intros Hc Hg Hs Hu Ho Hk He Hp.
  destruct (init_sinks _ _ _ _ _ _ _ _ _ _ Hc Hg Hs Ho) as (name & bp & s & Hname & Hsink & Hd & H1 & H2 & H3 & H4 & H5 & Hst).
  destruct (stash_then_params d sealing _ _ _ _ _ _ _ _ _ _ Hu Hst Hk He Hp) as (G0 & G1 & G2 & G3 & G4 & G5 & G6).
  destruct Hd as [_ _ (name' & args & p0 & Hname' & Hargs & _ & _ & Hscope & Hremap) Hss Hse _].
  rewrite Hname in Hname'. injection Hname' as <-.
  assert (argument_specs_of d name p0 = bf_argument_specs sink) as Hspecs by (unfold argument_specs_of; by rewrite Hscope, Hsink).
  rewrite G1 in Hargs. injection Hargs as <-. split_and!; congruence.
Qed.

End init.

(** ** An execution of two workers *)

#[local] Existing Instances hex_base64 trial_memory trial_text toy_compute toy_crypto no_json.

(** A scan that leaves its chunks in the storage when the work is divided. *)
Definition chunks : TableFunction nat :=
  mkTable (bs "chunks") [] false (λ _, Ret (Some row_column)) (λ _, Ret None) (λ _, []) (λ _, Unknown)
    (λ _, Ret (mkCardinality None None)) false (λ _ _, Ret whole_plan) (λ _, []) (λ _, Ret []) (λ _, Ret 2)
    (λ p, kv_put (pp_execution_id p) (bs "chunks") (bs "01")).
Definition chunks_worker : Dispatcher nat :=
  match register_table_in (mkScope [] [bs "main"]) (Some chunks) new_dispatcher with Ok d => d | Throw _ => new_dispatcher end.

Definition chunks_call : batch := mkBatch [Field "function_name" T_string false []] None 1 [mkArray T_string [V_text (bs "chunks")]].
Definition row_column_bytes : bytes := schema_byte :: enc_len 0.
Definition init_batch (execution_id : option bytes) : batch :=
  mkBatch [Field "bind_call" T_binary true []; Field "output_schema" T_binary true []; Field "execution_id" T_binary true []] None 1
    [mkArray T_binary [V_text (stream_bytes 0)]; mkArray T_binary [V_text row_column_bytes];
     mkArray T_binary [from_option V_text V_null execution_id]].
Definition init_streams : list batch := [chunks_call; init_batch None; init_batch (Some (bs "e1"))].
Definition init_arrow : Arrow := schema_arrow init_streams.
Definition init_codec : SchemaCodec := list_codec init_streams [row_column].
Section first_trial.
#[local] Existing Instances init_arrow init_codec.

Definition request_of_stream (i : nat) : option batch :=
  Some (mkBatch [Field "request" T_binary true []] None 1 [mkArray T_binary [V_text (stream_bytes i)]]).
(** The execution's first init, and the one of another worker. *)
Definition first_init : prog (opened (S := nat)) := init chunks_worker false None (request_of_stream 1) None anonymous (bs "e1").
Definition second_init : prog (opened (S := nat)) := init chunks_worker false None (request_of_stream 2) None anonymous (bs "e2").
Definition init_store : StorageSpec.store := (outcome first_init StorageSpec.empty_store).1.

Lemma work_divided_once_witness :
  ∃ o o', outcome first_init StorageSpec.empty_store = (init_store, Ok o) ∧
    StorageSpec.s_kv init_store !! (bs "e1", bs "chunks") = Some (bs "01") ∧
    init_store = after (tf_on_init chunks (op_params o)) StorageSpec.empty_store ∧
    outcome second_init init_store = (init_store, Ok o') ∧ pp_execution_id (op_params o') = bs "e1".
Proof.
  assert (∃ o, outcome first_init StorageSpec.empty_store = (init_store, Ok o)) as [o Ho] by (eexists; vm_compute; reflexivity).
  assert (∃ o', outcome second_init init_store = (init_store, Ok o')) as [o' Ho'] by (eexists; vm_compute; reflexivity).
  pose proof (schema_arrow_laws init_streams) as L1.
  assert (bind_call_of "init" (request_of_stream 1) = Ok (init_batch None, chunks_call)) as E1 by (vm_compute; reflexivity).
  assert (bind_call_of "init" (request_of_stream 2) = Ok (init_batch (Some (bs "e1")), chunks_call)) as E2 by (vm_compute; reflexivity).
  destruct (work_divided_once chunks_worker false None (request_of_stream 1) None anonymous (bs "e1") StorageSpec.empty_store
    init_store o (init_batch None) chunks_call chunks) as (_ & _ & Hh & Hst & Hnext).
  - intros params. split; apply reads_only_ret.
  - discriminate.
  - exact E1.
  - vm_compute. reflexivity.
  - eexists _, _. split_and!; [vm_compute; reflexivity..].
  - exact Ho.
  - destruct (Hnext (request_of_stream 2) None anonymous (bs "e2") init_store init_store o' (init_batch (Some (bs "e1"))) chunks_call (bs "e1"))
      as [_ He].
    + exact Hh.
    + exact E2.
    + vm_compute. reflexivity.
    + eexists _, _. split_and!; [vm_compute; reflexivity..].
    + exact Ho'.
    + exists o, o'. split_and!; [exact Ho|vm_compute; reflexivity|exact Hst|exact Ho'|exact He].
Defined.

End first_trial.

(** ** A sink called on another worker

    The function of the trial declares a table and then a number, and is called
    with the number 7. *)

Definition counted_specs : list FunctionSpec.ArgSpec := [FunctionSpec.table "rows" 0 ""; FunctionSpec.constant_arg "n" 1 "int64" ""].
Definition counted : TableBufferingFunction nat :=
  mkBuffering (bs "counted") counted_specs [] (λ _, Ret (Some row_column)) (λ _ _, Ret []) (λ _ l, Ret l) (λ _ _, Ret None).
Definition counted_worker : Dispatcher nat :=
  match register_buffering_in (mkScope [] [bs "main"]) (Some counted) new_dispatcher with Ok d => d | Throw _ => new_dispatcher end.

Definition counted_call : batch :=
  mkBatch [Field "function_name" T_string false []; Field "arguments" T_binary true []] None 1
    [mkArray T_string [V_text (bs "counted")]; mkArray T_binary [V_text (stream_bytes 2)]].
Definition counted_streams : list batch := [counted_call; init_batch None; seven].
Definition counted_arrow : Arrow := schema_arrow counted_streams.
Definition counted_codec : SchemaCodec := list_codec counted_streams [row_column].
#[local] Existing Instances counted_arrow counted_codec.

Definition counted_init : prog (opened (S := nat)) := init counted_worker false None (request_of_stream 1) None anonymous (bs "e1").
Definition counted_store : StorageSpec.store := (outcome counted_init StorageSpec.empty_store).1.
Definition counted_params : prog ProcessParams := buffering_params counted_worker false sink_call.

Lemma sink_settled_witness :
  ∃ o p, outcome counted_init StorageSpec.empty_store = (counted_store, Ok o) ∧ answer counted_params counted_store = Ok p ∧
    pp_output_schema p = pp_output_schema (op_params o) ∧ pp_output_schema p = Some row_column ∧
    (text_or_empty (Some counted_call) "arguments" ≫= parse) = Ok (pp_arguments p) ∧
    pp_arguments (op_params o) = remap_positional counted_specs (pp_arguments p) ∧
    positional (pp_arguments p) 0 = Some (mkArray T_int64 [V_int 7]) ∧
    positional (pp_arguments (op_params o)) 1 = Some (mkArray T_int64 [V_int 7]).
Proof.
  assert (∃ o, outcome counted_init StorageSpec.empty_store = (counted_store, Ok o) ∧
    positional (pp_arguments (op_params o)) 1 = Some (mkArray T_int64 [V_int 7])) as (o & Ho & Ho1)
    by (eexists; split; vm_compute; reflexivity).
  assert (∃ p, answer counted_params counted_store = Ok p ∧ positional (pp_arguments p) 0 = Some (mkArray T_int64 [V_int 7]) ∧
    pp_output_schema p = Some row_column) as (p & Hp & Hp0 & Hps) by (eexists; split_and!; vm_compute; reflexivity).
  pose proof (schema_arrow_laws counted_streams) as L1. pose proof (list_codec_laws counted_streams [row_column]) as L2.
  destruct (sink_settled counted_worker false None counted (request_of_stream 1) None anonymous (bs "e1") StorageSpec.empty_store
    counted_store counted_store o (init_batch None) counted_call sink_call p) as (_ & _ & Hargs & Ha & _ & _ & _ & _ & Hs & _).
  - vm_compute. reflexivity.
  - vm_compute. reflexivity.
  - eexists _, _, _. split_and!; [vm_compute; reflexivity..|discriminate].
  - intros k. reflexivity.
  - exact Ho.
  - intros k. reflexivity.
  - vm_compute. reflexivity.
  - exact Hp.
  - exists o, p. split_and!; [exact Ho|exact Hp|exact Hs|exact Hps|exact Hargs|exact Ha|exact Hp0|exact Ho1].
Defined.

(** ** Executions have ids of their own *)

(** What the digits say. *)
Definition read_hex (v : Z) (l : bytes) : Z := foldl (λ v c, 16 * v + default 0 (hex_value c)) v l.

Lemma hex_digit_value z : 0 ≤ z < 16 → hex_value (hex_digit z) = Some z.
Proof.
  intros Hz. assert (Forall (λ z, hex_value (hex_digit z) = Some z) (seqZ 0 16)) as H by by_decide.
  rewrite Forall_forall in H. apply H, elem_of_seqZ. lia.
Qed.

Lemma read_hex_from n z l : 0 ≤ z < 16 ^ Z.of_nat n → read_hex 0 (hex_from n z l) = read_hex z l.
Proof.
  revert z l. induction n as [|n IH]; intros z l Hz; [change (16 ^ Z.of_nat 0) with 1 in Hz; by assert (z = 0) as -> by lia|].
  assert (0 ≤ z mod 16 < 16) as Hm by (apply Z.mod_pos_bound; lia). pose proof (Z.div_mod z 16 ltac:(lia)) as Hd.
  assert (read_hex (z / 16) (hex_digit (z mod 16) :: l) = read_hex z l) as Hstep.
  { cbn. rewrite hex_digit_value by done. cbn. f_equal. lia. }
  cbn [hex_from]. cbv zeta. destruct (Z.eqb_spec (z / 16) 0) as [E|E]; [by rewrite E in Hstep|].
  rewrite IH; [done|]. rewrite Nat2Z.inj_succ, Z.pow_succ_r in Hz by lia. split; [apply Z.div_pos; lia|].
  apply Z.div_lt_upper_bound; lia.
Qed.

Lemma hex_from_dash n z l : dash ∉ l → dash ∉ hex_from n z l.
Proof.
  revert z l. induction n as [|n IH]; intros z l Hl; [done|]. cbn [hex_from]. cbv zeta.
  assert (dash ∉ hex_digit (z mod 16) :: l) as H.
  { apply not_elem_of_cons. split; [|done]. intros E. pose proof (hex_digit_value (z mod 16)) as Hv.
    rewrite <- E in Hv. discriminate Hv. apply Z.mod_pos_bound. lia. }
  destruct (_ =? _); [done|by apply IH].
Qed.

Lemma hex_text_dash z : dash ∉ hex_text z.
Proof. apply hex_from_dash. by apply not_elem_of_nil. Qed.

Definition is_uint64 (z : Z) : Prop := 0 ≤ z < 2 ^ 64.

Lemma hex_text_inj y z : is_uint64 y → is_uint64 z → hex_text y = hex_text z → y = z.
Proof.
  unfold is_uint64. intros Hy Hz E. apply (f_equal (read_hex 0)) in E. unfold hex_text, to_uint64 in E.
  rewrite !Z.mod_small in E by done. change (2 ^ 64) with (16 ^ Z.of_nat 16) in *. by rewrite !read_hex_from in E.
Qed.

Lemma hex_field_inj y z a b :
  is_uint64 y → is_uint64 z → hex_text y ++ [dash] ++ a = hex_text z ++ [dash] ++ b → y = z ∧ a = b.
Proof.
  intros Hy Hz E. cbn [app] in E. apply split_inj in E as [E ->]; [|apply hex_text_dash..]. split; [by apply hex_text_inj|done].
Qed.

(** C40. No two executions share an id: not in one process, of fewer than 2^63, and
    not in processes that differ in their number or in when either clock says they
    began.  So the state kept under an execution is that execution's alone. *)
Theorem execution_ids_distinct p q i j :
  Forall is_uint64 [pid p; wall p; now p; pid q; wall q; now q] → 0 ≤ i < 2 ^ 63 - 1 → 0 ≤ j < 2 ^ 63 - 1 →
  next_execution_id p i = next_execution_id q j ↔ p = q ∧ i = j.
Proof.
  rewrite !Forall_cons. intros (P1 & P2 & P3 & Q1 & Q2 & Q3 & _) Hi Hj. split; [|by intros [-> ->]].
  unfold next_execution_id, execution_prefix. rewrite <- !app_assoc. intros E.
  apply hex_field_inj in E as [E1 E]; [|done..]. apply hex_field_inj in E as [E2 E]; [|done..].
  apply hex_field_inj in E as [E3 E]; [|done..]. unfold to_uint64 in E. rewrite !Z.mod_small in E by lia.
  apply Text.to_string_inj in E; [|unfold is_int64; lia..]. split; [|lia].
  destruct p, q. cbn in *. congruence.
Qed.

Definition one_process : process := mkProc 4711 1700000000000000000 5000000000.
Lemma execution_ids_distinct_witness :
  next_execution_id one_process 0 = bs "1267-17979cfe362a0000-12a05f200-1" ∧
  (next_execution_id one_process 0 = next_execution_id one_process 1 ↔ one_process = one_process ∧ 0 = 1).
Proof.
  split; [vm_compute; reflexivity|].
  apply (execution_ids_distinct one_process one_process 0 1); [|lia|lia].
  unfold one_process, is_uint64. repeat (apply Forall_cons_2; [cbn; lia|]). apply Forall_nil_2.
Defined.

End Init.
