(* ===== verification/PushdownView.v ===== *)
(** * What a worker is told of its filters ([src/pushdown.cpp])

    The columns the filters name, the flattened list by column, and the text of
    the filters for diagnostics.  The theorem: [filtered_columns] is sorted,
    without repetition, and names exactly the columns
    [has_filter_for_column] answers for. *)

From Stdlib Require Import SpecFloat Sorted.
From stdpp Require Import sorting.
From S2P Require Import Prelude Text Arrow ArrowCompute Json Pushdown PushdownEval PushdownRows PushdownBounds.
From S2P Require Import PushdownState.
Import Json Pushdown PushdownEval PushdownRows PushdownBounds PushdownState.

Module PushdownView.

(** ** Columns *)

Definition mentions (s : Spec) (column : string) : bool := bool_decide (column ∈ collect_columns s).

Definition column_filters (st : PushdownFilters) (column : string) : list Filter :=
  filter (λ f, fl_column f = column) (filters st).

Definition has_filter_for_column (st : PushdownFilters) (column : string) : bool :=
  existsb (λ s, mentions s column) (specs st).

Definition column_specs (st : PushdownFilters) (column : string) : list Spec :=
  filter (λ s, mentions s column = true) (specs st).


(** [std::unique]: neighbours that are equal become one. *)
Fixpoint unique_adjacent (l : list string) : list string :=
  match l with
  | a :: (b :: _) as r => if bool_decide (a = b) then unique_adjacent r else a :: unique_adjacent r
  | l => l
  end.

Definition filtered_columns (st : PushdownFilters) : list string :=
  unique_adjacent (merge_sort string_le (concat (map collect_columns (specs st)))).

(** ** Text *)

Definition op_symbol (op : string) : string :=
  if bool_decide (op = "eq"%string) then "="
  else if bool_decide (op = "ne"%string) then "!="
  else if bool_decide (op = "lt"%string) then "<"
  else if bool_decide (op = "le"%string) then "<="
  else if bool_decide (op = "gt"%string) then ">"
  else if bool_decide (op = "ge"%string) then ">="
  else if bool_decide (op = "distinct_from"%string) then "IS DISTINCT FROM"
  else if bool_decide (op = "not_distinct_from"%string) then "IS NOT DISTINCT FROM"
  else "?".

Section text.
Context `{C : Compute}.

Definition format_scalar (a : option array) (index : nat) : string :=
  match a with
  | None => "NULL"
  | Some a =>
      match a_values a !! index with
      | None | Some V_null => "NULL"
      | Some v =>
          match a_type a, v with
          | (T_string | T_large_string), V_text s => "'" +:+ str s +:+ "'"
          | T_bool, V_bool b => if b then "True" else "False"
          | t, v =>
              match cast (D_array (mkArray t [v])) T_string with
              | inr (D_array (mkArray _ (V_text s :: _))) => str s
              | _ => ""
              end
          end
      end
  end.

(** A predicate's text: a boolean column's, or the rendering. *)
Definition predicate_text (s : Spec) (rendered : string) : string :=
  match boolean_column_leaf s with
  | Some (name, b) => name +:+ (if b then " = true" else " = false")
  | None => rendered
  end.

Fixpoint join (separator : string) (l : list string) : string :=
  match l with
  | [] => ""
  | [x] => x
  | x :: l => x +:+ separator +:+ join separator l
  end.

Definition in_values (a : option array) : string :=
  match a with
  | None => ""
  | Some a =>
      if (20 <? length (a_values a))%nat then str (to_string (Z.of_nat (length (a_values a)))) +:+ " values"
      else join ", " (map (format_scalar (Some a)) (seq 0 (length (a_values a))))
  end.

Fixpoint render (s : Spec) : string :=
  match s_kind s, children s with
  | K_column, _ => column_name s
  | K_field, c :: _ => render c +:+ "." +:+ field_name s
  | K_literal, _ => format_scalar (s_value s) 0
  | K_constant, l :: r :: _ => render l +:+ " " +:+ op_symbol (op s) +:+ " " +:+ render r
  | K_and, cs => "(" +:+ join " AND " (map (λ c, predicate_text c (render c)) cs) +:+ ")"
  | K_or, cs => "(" +:+ join " OR " (map (λ c, predicate_text c (render c)) cs) +:+ ")"
  | K_not, c :: _ => "NOT (" +:+ render c +:+ ")"
  | K_is_null, c :: _ => render c +:+ " IS NULL"
  | K_is_not_null, c :: _ => render c +:+ " IS NOT NULL"
  | K_in, c :: _ =>
      render c +:+ (if negated s then " NOT IN (" else " IN (") +:+ in_values (s_value s) +:+ ")"
  | _, _ => "(expression)"
  end.
Definition render_predicate (s : Spec) : string := predicate_text s (render s).

Fixpoint render_repr (s : Spec) : string :=
  match s_kind s with
  | K_constant => "ConstantFilter(" +:+ render s +:+ ")"
  | K_and => "AndFilter([" +:+ join ", " (map render_repr (children s)) +:+ "])"
  | K_or => "OrFilter([" +:+ join ", " (map render_repr (children s)) +:+ "])"
  | _ => render s
  end.

(** [result] is separated once it is not empty. *)
Definition format (st : PushdownFilters) : string :=
  match specs st with
  | [] => "(none)"
  | l => fold_left (λ result s,
           (if bool_decide (result = ""%string) then result else result +:+ " AND ") +:+ render_predicate s) l ""%string
  end.

Definition format_repr (st : PushdownFilters) : string :=
  match specs st with
  | [] => "(none)"
  | l => "PushdownFilters([" +:+ join ", " (map render_repr l) +:+ "])"
  end.

End text.

(** ** Lemmas *)

Lemma unique_adjacent_elem l x : x ∈ unique_adjacent l ↔ x ∈ l.
Proof.
  induction l as [|a l IH]; [done|]. destruct l as [|b l]; [done|].
  change (unique_adjacent (a :: b :: l)) with
    (if bool_decide (a = b) then unique_adjacent (b :: l) else a :: unique_adjacent (b :: l)).
  case_bool_decide as E; [subst|]; rewrite ?elem_of_cons, IH, ?elem_of_cons; [naive_solver|done].
Qed.

(** Sorted and without repetition. *)
Definition increasing (l : list string) : Prop := StronglySorted (λ a b, string_le a b ∧ a ≠ b) l.

Lemma unique_adjacent_sorted l : StronglySorted string_le l → increasing (unique_adjacent l).
Proof.
  intros Hs. induction Hs as [|a l Hs IH Hall]; [constructor|]. destruct l as [|b l]; [by repeat constructor|].
  change (unique_adjacent (a :: b :: l)) with
    (if bool_decide (a = b) then unique_adjacent (b :: l) else a :: unique_adjacent (b :: l)).
  case_bool_decide as E; [done|]. constructor; [done|]. apply Forall_forall. intros x Hx. apply (proj1 (unique_adjacent_elem (b :: l) x)) in Hx.
  rewrite Forall_forall in Hall. split; [exact (Hall x Hx)|]. intros ->.
  apply E. apply (anti_symm string_le); [apply Hall; by left|].
  apply elem_of_cons in Hx as [->|Hx]; [by apply Hall; left|].
  inversion_clear Hs as [|? ? _ Hb]. rewrite Forall_forall in Hb. by apply Hb.
Qed.

(** [filtered_columns] is sorted and without repetition, and a column is in
    it just when [has_filter_for_column] says that a filter constrains it. *)
Theorem filtered_columns_exact st :
  increasing (filtered_columns st) ∧
  ∀ column, column ∈ filtered_columns st ↔ has_filter_for_column st column = true.
Proof.
  split.
  - apply unique_adjacent_sorted, (StronglySorted_merge_sort string_le).
  - intros column. unfold filtered_columns, has_filter_for_column.
    rewrite unique_adjacent_elem, merge_sort_Permutation, existsb_exists, list_elem_of_In, in_concat. split.
    + intros (l & Hl & Hc). apply in_map_iff in Hl as (s & <- & Hs). exists s. split; [done|].
      apply bool_decide_eq_true. by apply list_elem_of_In.
    + intros (s & Hs & Hm%bool_decide_eq_true). exists (collect_columns s).
      split; [by apply in_map|by apply list_elem_of_In].
Qed.

(** The text of a BOOLEAN column standing as a predicate is not that of its
    comparison with TRUE, which means the same. *)
Lemma boolean_spelling :
  @format toy_compute (mkFilters [] [sample_leaf] ∅ ∅ [] None "") = "ok = true"%string ∧
  @format toy_compute (mkFilters [] [equals sample_leaf true] ∅ ∅ [] None "") = "ok = True"%string.
Proof. split; reflexivity. Qed.

End PushdownView.
