(* ===== verification/SqlScalar.v ===== *)
(** * The scalar SQL the engine reads ([src/sql_scalar.cpp])

    A lexer, a recursive-descent parser and the two grammars checked on its
    trees: a numeric CHECK and a generated column, with the walk over what the
    generated columns read.  The theorems are in [SqlParse] and
    [SqlGenerated]. *)

From stdpp Require Import sorting.
From S2P Require Import Prelude Text Arrow.

Module SqlScalar.

(** ** Characters *)

Definition is_upper (c : ascii) : bool := bool_decide (65 ≤ bz c ≤ 90).
Definition is_alpha (c : ascii) : bool := is_upper c || bool_decide (97 ≤ bz c ≤ 122).
Definition is_word (c : ascii) : bool := is_alpha c || is_digit c || bool_decide (c = "_"%char).

Definition lower_char (c : ascii) : ascii := if is_upper c then zb (bz c + 32) else c.
Definition lower (s : bytes) : bytes := map lower_char s.

Definition refuse {A} (message : string) : result A := Throw (Invalid_argument message).

(** ** Tokens *)

Inductive Tok : Type := Ident | Quoted | String_ | Number | Op | End_.

#[global] Instance Tok_eq_dec : EqDecision Tok.
Proof. solve_decision. Defined.

Record Token := mkToken { t_kind : Tok; t_text : bytes }.

#[global] Instance Token_eq_dec : EqDecision Token.
Proof. solve_decision. Defined.

(** The longest prefix of characters that satisfy [p], and the rest. *)
Fixpoint span (p : ascii → bool) (s : bytes) : bytes * bytes :=
  match s with
  | c :: r => if p c then let '(a, b) := span p r in (c :: a, b) else ([], s)
  | [] => ([], [])
  end.

(** What follows the next [*/]. *)
Fixpoint after_comment (s : bytes) : option bytes :=
  match s with
  | c :: r =>
      match r with
      | d :: r' => if bool_decide (c = "*"%char) && bool_decide (d = "/"%char) then Some r' else after_comment r
      | [] => None
      end
  | [] => None
  end.

(** The text up to the closing quote [q], a doubled quote standing for one. *)
Fixpoint read_quoted (q : ascii) (s : bytes) : option (bytes * bytes) :=
  match s with
  | [] => None
  | c :: r =>
      if bool_decide (c = q) then
        match r with
        | d :: r' =>
            if bool_decide (d = q) then '(t, rest) ← read_quoted q r'; Some (q :: t, rest) else Some ([], r)
        | [] => Some ([], [])
        end
      else '(t, rest) ← read_quoted q r; Some (c :: t, rest)
  end.

Definition starts_digit (s : bytes) : bool := match s with c :: _ => is_digit c | [] => false end.

(** The point and what follows it, and the exponent, where there are any. *)
Definition read_fraction (s : bytes) : bytes * bytes :=
  match s with
  | c :: r => if bool_decide (c = "."%char) then let '(f, r) := span is_digit r in (c :: f, r) else ([], s)
  | [] => ([], s)
  end.

Definition read_exponent (s : bytes) : result (bytes * bytes) :=
  match s with
  | c :: r =>
      if bool_decide (c = "e"%char) || bool_decide (c = "E"%char) then
        let '(sign, r) :=
          match r with
          | d :: r' => if bool_decide (d = "+"%char) || bool_decide (d = "-"%char) then ([d], r') else ([], r)
          | [] => ([], r)
          end in
        if starts_digit r then let '(x, r) := span is_digit r in Ok (c :: sign ++ x, r)
        else refuse "malformed numeric literal"
      else Ok ([], s)
  | [] => Ok ([], s)
  end.

Definition read_number (s : bytes) : result (bytes * bytes) :=
  let '(a, s) := span is_digit s in
  let '(b, s) := read_fraction s in
  '(e, s) ← read_exponent s;
  match s with
  | c :: _ => if is_alpha c || bool_decide (c = "_"%char) then refuse "malformed numeric literal"
              else Ok (a ++ b ++ e, s)
  | [] => Ok (a ++ b ++ e, s)
  end.

Definition kOps : list bytes :=
  map bs ["::"; "||"; "<="; ">="; "<>"; "!="; "=="; "="; "<"; ">"; "+"; "-"; "*"; "/"; "%"; "("; ")"; ","]%string.

(** The first operator that the text starts with. *)
Fixpoint read_op (ops : list bytes) (s : bytes) : option (bytes * bytes) :=
  match ops with
  | [] => None
  | op :: ops => if bool_decide (take (length op) s = op) then Some (op, drop (length op) s) else read_op ops s
  end.

(** One turn of the loop: the token read, if any, and the rest. *)
Definition token_at (c : ascii) (r : bytes) : result (option Token * bytes) :=
  let s := c :: r in
  if is_space c then Ok (None, r)
  else if bool_decide (c = "-"%char) && bool_decide (head r = Some "-"%char)
  then Ok (None, (span (λ d, negb (bool_decide (d = zb 10))) s).2)
  else if bool_decide (c = "/"%char) && bool_decide (head r = Some "*"%char)
  then match after_comment (tail r) with Some rest => Ok (None, rest) | None => refuse "unterminated comment" end
  else if is_alpha c || bool_decide (c = "_"%char) then
    let '(word, rest) := span is_word s in
    match rest with
    | d :: _ => if bool_decide (d = "'"%char) || bool_decide (d = "$"%char)
                then refuse "prefixed string literals and parameters are unsupported"
                else Ok (Some (mkToken Ident word), rest)
    | [] => Ok (Some (mkToken Ident word), rest)
    end
  else if bool_decide (bz c = 34) || bool_decide (c = "'"%char) then
    match read_quoted c r with
    | None => refuse "unterminated quoted text"
    | Some (text, rest) =>
        if bool_decide (bz c = 34) && bool_decide (length text = 0%nat) then refuse "empty quoted identifier"
        else Ok (Some (mkToken (if bool_decide (bz c = 34) then Quoted else String_) text), rest)
    end
  else if is_digit c || (bool_decide (c = "."%char) && starts_digit r) then
    '(text, rest) ← read_number s; Ok (Some (mkToken Number text), rest)
  else
    match read_op kOps s with
    | Some (op, rest) => Ok (Some (mkToken Op op), rest)
    | None => refuse ("unsupported character '" +:+ str [c] +:+ "'")
    end.

(** Every turn consumes a character: the length of the text is enough fuel. *)
Fixpoint tokenize_loop (fuel : nat) (s : bytes) : result (list Token) :=
  match s, fuel with
  | [], _ => Ok [mkToken End_ []]
  | c :: r, O => Throw Out_of_fuel
  | c :: r, S fuel =>
      '(t, rest) ← token_at c r;
      l ← tokenize_loop fuel rest;
      Ok (match t with Some t => t :: l | None => l end)
  end.

Definition tokenize (sql : bytes) : result (list Token) := tokenize_loop (length sql) sql.

(** ** Trees *)

Inductive Kind : Type := Constant | Column | Cast | Comparison | Conjunction | Not | IsNull | Coalesce | Function_.
Inductive Literal : Type := Integer | Bigint | Hugeint | Decimal | Double | Varchar | Boolean | Null.

#[global] Instance Kind_eq_dec : EqDecision Kind.
Proof. solve_decision. Defined.
#[global] Instance Literal_eq_dec : EqDecision Literal.
Proof. solve_decision. Defined.

Inductive Node : Type := mkNode {
  n_kind : Kind;
  n_literal : Literal;
  n_text : bytes;
  n_children : list Node;
}.

Definition make (k : Kind) (text : bytes) (children : list Node) : Node := mkNode k Null text children.

(** The digits without the zeros in front, the last digit kept. *)
Fixpoint strip_zeros (s : bytes) : bytes :=
  match s with
  | c :: r => if bool_decide (c = "0"%char) && negb (bool_decide (length r = 0%nat)) then strip_zeros r else s
  | [] => []
  end.

(** The order of [std::string]. *)
Fixpoint bytes_le (a b : bytes) : bool :=
  match a, b with
  | [], _ => true
  | _, [] => false
  | x :: a, y :: b => (bz x <? bz y) || ((bz x =? bz y) && bytes_le a b)
  end.

Definition bytes_order (a b : bytes) : Prop := bytes_le a b = true.
#[global] Instance bytes_order_dec : RelDecision bytes_order.
Proof. intros a b. unfold bytes_order. apply _. Defined.

Definition fits (digits limit : bytes) : bool :=
  (length digits <? length limit)%nat || ((length digits =? length limit)%nat && bytes_le digits limit).

Definition has_char (p : ascii → bool) (s : bytes) : bool := existsb p s.

Definition classify_number (text : bytes) : Literal :=
  if has_char (λ c, bool_decide (c = "e"%char) || bool_decide (c = "E"%char)) text then Double
  else if has_char (λ c, bool_decide (c = "."%char)) text then Decimal
  else
    let negative := bool_decide (head text = Some "-"%char) in
    let digits := strip_zeros (if negative then tail text else text) in
    if fits digits (bs (if negative then "2147483648" else "2147483647")) then Integer
    else if fits digits (bs (if negative then "9223372036854775808" else "9223372036854775807")) then Bigint
    else Hugeint.

Definition numeric (n : Node) : bool :=
  bool_decide (n_kind n = Constant) &&
  match n_literal n with Integer | Bigint | Hugeint | Decimal | Double => true | _ => false end.

(** ** The parser *)

Definition P (A : Type) : Type := list Token → result (A * list Token).

Definition p_bind {A B} (m : P A) (f : A → P B) : P B := λ l, '(a, l) ← m l; f a l.
#[global] Instance P_ret : MRet P := λ A a l, Ok (a, l).
#[global] Instance P_bind : MBind P := λ A B f m, p_bind m f.
Definition p_refuse {A} (message : string) : P A := λ _, refuse message.

(** Past the end the last token is seen again. *)
Definition peek (l : list Token) : Token := match l with t :: _ => t | [] => mkToken End_ [] end.
Definition tokens : P (list Token) := λ l, Ok (l, l).
Definition advance : P () := λ l, Ok (tt, tail l).
Definition next : P Token := λ l, Ok (peek l, tail l).

Definition at_op (text : bytes) (l : list Token) : bool :=
  bool_decide (t_kind (peek l) = Op) && bool_decide (t_text (peek l) = text).
Definition at_keyword (word : bytes) (l : list Token) : bool :=
  bool_decide (t_kind (peek l) = Ident) && bool_decide (lower (t_text (peek l)) = word).
Definition op (text : string) : P bool := λ l, Ok (at_op (bs text) l, l).
Definition keyword (word : string) : P bool := λ l, Ok (at_keyword (bs word) l, l).

Definition expect (text : string) : P () :=
  b ← op text; if (b : bool) then advance else p_refuse ("expected '" +:+ text +:+ "'").

(** A loop over the tokens: a turn that goes on has consumed one, so their
    number is enough fuel. *)
Fixpoint loop_ {A} (fuel : nat) (step : A → P (A * bool)) (a : A) : P A := λ l,
  match fuel with
  | O => Throw Out_of_fuel
  | S fuel =>
      '(r, l) ← (step a l : result (A * bool * list Token));
      if (snd r : bool) then loop_ fuel step (fst r) l else Ok (fst r, l)
  end.
Definition loop {A} (step : A → P (A * bool)) (a : A) : P A := λ l, loop_ (S (length l)) step a l.

(** The operator of a list that is next. *)
Definition which_op (ops : list string) : P (option bytes) := λ l,
  Ok (List.find (λ o, at_op o l) (map bs ops), l).

(** [left op right op ...]: [make_node] builds the tree, to the left. *)
Definition left_chain (ops : list string) (sub : P Node) (make_node : bytes → Node → Node → Node) : P Node :=
  left ← sub;
  loop (λ left,
    o ← which_op ops;
    match o with
    | Some text => advance;; right ← sub; mret (make_node text left right, true)
    | None => mret (left, false)
    end) left.

Definition keyword_chain (word : string) (sub : P Node) : P Node :=
  left ← sub;
  loop (λ left,
    b ← keyword word;
    if (b : bool) then advance;; right ← sub; mret (make Conjunction (bs word) [left; right], true)
    else mret (left, false)) left.

Definition function_node (text : bytes) (l r : Node) : Node := make Function_ text [l; r].

Definition kTypes : list (string * string) :=
  [("boolean", "BOOLEAN"); ("bool", "BOOLEAN"); ("logical", "BOOLEAN");
   ("tinyint", "TINYINT"); ("int1", "TINYINT"); ("smallint", "SMALLINT");
   ("int2", "SMALLINT"); ("short", "SMALLINT"); ("integer", "INTEGER");
   ("int", "INTEGER"); ("int4", "INTEGER"); ("signed", "INTEGER");
   ("bigint", "BIGINT"); ("int8", "BIGINT"); ("long", "BIGINT");
   ("varchar", "VARCHAR"); ("text", "VARCHAR"); ("string", "VARCHAR");
   ("char", "VARCHAR"); ("bpchar", "VARCHAR"); ("character", "VARCHAR");
   ("float", "FLOAT"); ("float4", "FLOAT"); ("real", "FLOAT");
   ("double", "DOUBLE"); ("float8", "DOUBLE"); ("decimal", "DECIMAL");
   ("numeric", "DECIMAL")]%string.

Definition normal_type (name : bytes) : bytes :=
  match List.find (λ e, bool_decide (bs e.1 = name)) kTypes with Some e => bs e.2 | None => name end.

(** The numbers of a type modifier, the opening bracket read. *)
Definition type_modifier : P () :=
  loop (A:=()) (λ _,
    l ← tokens;
    if negb (bool_decide (t_kind (peek l) = Number)) then p_refuse "expected a type modifier"
    else
      advance;;
      b ← op ")";
      if (b : bool) then mret (tt, false) else expect ",";; mret (tt, true)) tt;;
  advance.

Definition type_name : P bytes :=
  l ← tokens;
  if negb (bool_decide (t_kind (peek l) = Ident)) then p_refuse "expected a type name" else
  t ← next;
  let name := lower (t_text t) in
  b ← keyword "precision";
  (if bool_decide (name = bs "double") && b then advance else mret tt);;
  b ← keyword "varying";
  name ← (if bool_decide (name = bs "character") && b then advance;; mret (bs "varchar") else mret name);
  b ← op "(";
  (if (b : bool) then advance;; type_modifier else mret tt);;
  mret (normal_type name).

Definition kReserved : list bytes :=
  map bs ["and"; "or"; "not"; "is"; "isnull"; "notnull"; "as"; "case"; "when"; "then"; "else"; "end"; "in";
          "between"; "like"; "ilike"; "select"; "from"; "where"; "exists"; "distinct"; "all"; "any"; "some"]%string.

Definition kComparisons : list string := ["="; "=="; "<>"; "!="; "<"; ">"; "<="; ">="]%string.
Definition normal_comparison (o : bytes) : bytes :=
  if bool_decide (o = bs "==") then bs "=" else if bool_decide (o = bs "!=") then bs "<>" else o.

Section levels.
(** [expression] one level deeper. *)
Variable expression : P Node.

Definition arguments : P (list Node) :=
  expect "(";;
  b ← op ")";
  if (b : bool) then advance;; mret [] else
  d ← keyword "distinct"; a ← keyword "all"; s ← op "*";
  if d || a || s then p_refuse "DISTINCT, ALL and * arguments are unsupported" else
  args ← loop (λ args,
    e ← expression;
    b ← op ")";
    if (b : bool) then mret (args ++ [e], false) else expect ",";; mret (args ++ [e], true)) [];
  advance;; mret args.

(** A name, or a call when a bracket follows. *)
Definition name_or_call (name : bytes) (k : Kind) (text : bytes) : P Node :=
  b ← op "(";
  if (b : bool) then args ← arguments; mret (make k text args) else mret (make Column name []).

Definition word_node (token : Token) : P Node :=
  let word := lower (t_text token) in
  if bool_decide (word ∈ [bs "true"; bs "false"; bs "null"]) then
    advance;; mret (mkNode Constant (if bool_decide (word = bs "null") then Null else Boolean) word [])
  else if bool_decide (word = bs "try_cast") then p_refuse "TRY_CAST is unsupported"
  else if bool_decide (word = bs "cast") then
    advance;; expect "(";;
    child ← expression;
    b ← keyword "as";
    if negb b then p_refuse "expected AS in CAST" else
    advance;;
    type ← type_name;
    expect ")";;
    mret (make Cast type [child])
  else if bool_decide (word ∈ kReserved) then p_refuse ("unexpected keyword " +:+ str (t_text token))
  else
    t ← next;
    if bool_decide (word = bs "coalesce") then name_or_call (t_text t) Coalesce (bs "coalesce")
    else name_or_call (t_text t) Function_ (t_text t).

Definition primary : P Node :=
  l ← tokens;
  let token := peek l in
  if at_op (bs "(") l then advance;; inner ← expression; expect ")";; mret inner
  else
    match t_kind token with
    | Number => t ← next; mret (mkNode Constant (classify_number (t_text t)) (t_text t) [])
    | String_ => t ← next; mret (mkNode Constant Varchar (t_text t) [])
    | Quoted => t ← next; name_or_call (t_text t) Function_ (t_text t)
    | Ident => word_node token
    | _ => p_refuse ("unexpected '" +:+ str (t_text token) +:+ "'")
    end.

Definition postfix : P Node :=
  node ← primary;
  loop (λ node,
    b ← op "::";
    if (b : bool) then advance;; type ← type_name; mret (make Cast type [node], true) else mret (node, false)) node.

(** The minus sign in front of a number is part of it. *)
Definition negate (child : Node) : Node :=
  if numeric child then
    let text := match n_text child with
                | c :: r => if bool_decide (c = "-"%char) then r else "-"%char :: c :: r
                | [] => ["-"%char]
                end in
    mkNode Constant (classify_number text) text (n_children child)
  else make Function_ (bs "-") [child].

Variable unary_ : P Node.

Definition unary_body : P Node :=
  b ← op "-";
  if (b : bool) then advance;; child ← unary_; mret (negate child)
  else
    b ← op "+";
    if (b : bool) then advance;; child ← unary_; mret (make Function_ (bs "+") [child]) else postfix.

End levels.

Section operators.
Variable unary : P Node.

Definition multiplicative : P Node := left_chain ["*"; "/"; "%"]%string unary function_node.
Definition additive : P Node := left_chain ["+"; "-"]%string multiplicative function_node.
Definition concatenation : P Node := left_chain ["||"]%string additive function_node.

Definition comparison : P Node :=
  left ← concatenation;
  o ← which_op kComparisons;
  match o with
  | None => mret left
  | Some text =>
      advance;;
      right ← concatenation;
      again ← which_op kComparisons;
      match again with
      | Some _ => p_refuse "comparisons do not chain"
      | None => mret (make Comparison (normal_comparison text) [left; right])
      end
  end.

Definition null_node (is_not : bool) (node : Node) : Node :=
  make IsNull (bs (if is_not then "is not null" else "is null")) [node].

Definition null_test : P Node :=
  node ← comparison;
  loop (λ node,
    isnull ← keyword "isnull"; notnull ← keyword "notnull";
    if isnull || notnull then advance;; mret (null_node notnull node, true) else
    is_ ← keyword "is";
    if (is_ : bool) then
      advance;;
      is_not ← keyword "not";
      (if (is_not : bool) then advance else mret tt);;
      n ← keyword "null";
      if negb n then p_refuse "only IS [NOT] NULL is supported" else
      advance;; mret (null_node is_not node, true)
    else mret (node, false)) node.

End operators.

(** The functions whose calls are counted: [depth_] is at most 256, and the
    argument is what is left of it. *)
Fixpoint expression (d : nat) : P Node :=
  match d with
  | O => p_refuse "expression is too deeply nested"
  | S d => keyword_chain "or" (keyword_chain "and" (negation d))
  end
with negation (d : nat) : P Node :=
  match d with
  | O => p_refuse "expression is too deeply nested"
  | S d =>
      b ← keyword "not";
      if (b : bool) then advance;; n ← negation d; mret (make Not (bs "not") [n]) else null_test (unary d)
  end
with unary (d : nat) : P Node :=
  match d with
  | O => p_refuse "expression is too deeply nested"
  | S d => unary_body (expression d) (unary d)
  end.

Definition kMaxDepth : nat := 256.

Definition parse_tokens (l : list Token) : result Node :=
  '(node, rest) ← expression kMaxDepth l;
  if bool_decide (t_kind (peek rest) = End_) then Ok node
  else refuse ("unexpected '" +:+ str (t_text (peek rest)) +:+ "' after the expression").

Definition parse (sql : bytes) : result Node :=
  if bool_decide (length sql = 0%nat) || (2 ^ 20 <? Z.of_nat (length sql)) ||
     existsb (λ c, bool_decide (bz c = 0)) sql
  then refuse "invalid SQL size or text"
  else l ← tokenize sql; parse_tokens l.

(** ** A reference against the table's columns *)

Definition is_extension (t : dtype) : bool := match t with T_extension _ _ => true | _ => false end.
Definition has_key (f : field) (key : string) : bool := bool_decide (key ∈ (f_metadata f).*1).

Definition has_extension_name (f : field) : bool := is_extension (f_type f) || has_key f "ARROW:extension:name".
Definition is_row_id (f : field) : bool := has_key f "is_row_id".

Definition name_matches (name : bytes) (f : field) : bool := bool_decide (lower (bs (f_name f)) = lower name).

(** The loop over the fields, [i] the index of the first of [fields]. *)
Fixpoint resolve_loop (name : bytes) (what : string) (i : nat) (fields : list field) (index : option nat) :
    result (option nat) :=
  match fields with
  | [] => Ok index
  | f :: fields =>
      if negb (name_matches name f) then resolve_loop name what (S i) fields index
      else
        match index with
        | Some _ => refuse (what +:+ " column reference '" +:+ str name +:+ "' is ambiguous")
        | None => resolve_loop name what (S i) fields (Some i)
        end
  end.

Definition resolve (columns : list field) (name : bytes) (what : string) : result (nat * field) :=
  index ← resolve_loop name what 0 columns None;
  match index ≫= (λ i, pair i <$> columns !! i) with
  | Some (i, f) =>
      if is_row_id f
      then refuse (what +:+ " references a missing or synthetic column '" +:+ str name +:+ "'")
      else Ok (i, f)
  | None => refuse (what +:+ " references a missing or synthetic column '" +:+ str name +:+ "'")
  end.

Definition signed_numeric (t : dtype) : bool :=
  match t with T_int8 | T_int16 | T_int32 | T_int64 | T_float | T_double => true | _ => false end.

Section checks.
Context `{Arrow}.

Definition check_operand (columns : list field) (operand : Node) : result () :=
  match n_kind operand with
  | Constant => throw_if (negb (numeric operand)) (Invalid_argument "CHECK requires numeric operands")
  | Column =>
      '(_, f) ← resolve columns (n_text operand) "CHECK";
      if has_extension_name f then refuse "CHECK extension-typed operands are unsupported"
      else if signed_numeric (f_type f) then Ok tt
      else refuse ("CHECK requires primitive signed numeric columns; '" +:+ f_name f +:+ "' is " +:+
                   type_to_string (f_type f))
  | _ => refuse "CHECK supports only numeric column/constant comparisons"
  end.

Fixpoint check_operands (columns : list field) (l : list Node) : result () :=
  match l with [] => Ok tt | n :: l => _ ← check_operand columns n; check_operands columns l end.

Definition validate_numeric_check (sql : bytes) (columns : list field) : result () :=
  node ← parse sql;
  if negb (bool_decide (n_kind node = Comparison))
  then refuse "CHECK supports only a Boolean comparison of numeric columns and constants"
  else check_operands columns (n_children node).

(** ** Generated columns *)

Definition kPrimitive : list bytes :=
  map bs ["BOOLEAN"; "TINYINT"; "SMALLINT"; "INTEGER"; "BIGINT"; "VARCHAR"]%string.
Definition kAllowed : list bytes := map bs ["+"; "-"; "*"; "%"; "abs"; "lower"; "upper"; "||"]%string.

Definition wide_literal (l : Literal) : bool :=
  match l with Hugeint | Decimal | Double => true | _ => false end.

(** The grammar at one node; the column it names. *)
Definition generated_kind (n : Node) : result (list bytes) :=
  match n_kind n with
  | Constant =>
      if wide_literal (n_literal n)
      then refuse ("unsupported scalar literal type in '" +:+ str (n_text n) +:+
                   "' (generated columns take Boolean, signed integer or string literals)")
      else Ok []
  | Column => if (4096 <? Z.of_nat (length (n_text n))) then refuse "invalid column name" else Ok [lower (n_text n)]
  | Cast =>
      if bool_decide (n_text n ∈ kPrimitive) then Ok []
      else refuse ("unsupported scalar cast to " +:+ str (n_text n) +:+
                   " (generated columns cast only to BOOLEAN, signed integer or VARCHAR)")
  | Function_ =>
      if bool_decide ((if bool_decide (n_text n = bs "||") then n_text n else lower (n_text n)) ∈ kAllowed) then Ok []
      else refuse ("unsupported scalar function '" +:+ str (n_text n) +:+
                   "' (generated columns allow + - * % || abs lower upper)")
  | _ => Ok []
  end.

(** The counter [nodes] and the set [refs] go through the walk. *)
Fixpoint generated_node (n : Node) (depth : nat) (nodes : nat) (refs : gset bytes) : result (nat * gset bytes) :=
  if (64 <? depth)%nat || (4096 <? S nodes)%nat then refuse "scalar expression is too complex" else
  names ← generated_kind n;
  (fix children (l : list Node) (nodes : nat) (refs : gset bytes) : result (nat * gset bytes) :=
     match l with
     | [] => Ok (nodes, refs)
     | c :: l => '(nodes, refs) ← generated_node c (S depth) nodes refs; children l nodes refs
     end) (n_children n) (S nodes) (list_to_set names ∪ refs).

Definition generated_operand_type (f : field) : bool :=
  negb (has_extension_name f) &&
  match f_type f with
  | T_bool | T_int8 | T_int16 | T_int32 | T_int64 | T_string | T_large_string | T_string_view => true
  | _ => false
  end.

Definition generated_type (t : dtype) : bool :=
  match t with T_bool | T_int8 | T_int16 | T_int32 | T_int64 | T_string => true | _ => false end.

(** The columns that the names of an expression resolve to. *)
Fixpoint operand_columns (columns : list field) (names : list bytes) : result (gset nat) :=
  match names with
  | [] => Ok ∅
  | name :: names =>
      '(i, f) ← resolve columns name "generated expression";
      if negb (generated_operand_type f)
      then refuse ("unsupported generated operand type: column '" +:+ f_name f +:+ "' is " +:+
                   type_to_string (f_type f))
      else rest ← operand_columns columns names; Ok ({[i]} ∪ rest)
  end.

Definition generated_column (columns : list field) (f : field) (sql : bytes) : result (gset nat) :=
  if negb (f_nullable f)
  then refuse "generated columns must be nullable (a NOT_NULL or PRIMARY_KEY record names it)"
  else if has_extension_name f then refuse "generated columns cannot have an extension type"
  else if negb (generated_type (f_type f))
  then refuse ("generated columns require a signed integer, Boolean or utf8 type, not " +:+ type_to_string (f_type f))
  else
    node ← parse sql;
    '(_, refs) ← generated_node node 0 0 ∅;
    operand_columns columns (merge_sort bytes_order (elements refs)).

(** A refusal is thrown again under the column's name. *)
Definition where_ {A} (f : field) (r : result A) : result A :=
  match r with
  | Throw (Invalid_argument m) => refuse ("generated column '" +:+ f_name f +:+ "': " +:+ m)
  | _ => r
  end.

(** The loop over the columns, [i] the first of [fields]: is there a physical
    column, and what does each generated column read ([dependencies[i]] is
    only made by the insertion of a column read). *)
Fixpoint generated_loop (columns : list field) (generated_sql : list bytes) (i : nat) (fields : list field)
    (physical : bool) (dependencies : gmap nat (gset nat)) : result (bool * gmap nat (gset nat)) :=
  match fields with
  | [] => Ok (physical, dependencies)
  | f :: fields =>
      match default [] (generated_sql !! i) with
      | [] => generated_loop columns generated_sql (S i) fields (physical || negb (is_row_id f)) dependencies
      | sql =>
          reads ← where_ f (generated_column columns f sql);
          generated_loop columns generated_sql (S i) fields physical
            (if bool_decide (reads = ∅) then dependencies else <[i := reads]> dependencies)
      end
  end.

(** ** The walk over the dependencies *)

Inductive mark : Type := Open | Closed.

(** The elements of a [std::set<int>], or the keys of a map, in order. *)
Definition in_order (s : gset nat) : list nat := merge_sort le (elements s).

(** A loop that passes a state through. *)
Fixpoint each {S} (f : nat → S → result S) (l : list nat) (s : S) : result S :=
  match l with [] => Ok s | x :: l => s ← f x s; each f l s end.

(** [visit]: a column still open is reached again only through itself.
    [fuel]: the columns open at once are different columns.  The empty entries
    that [dependencies[column]] adds for physical columns read nothing. *)
Fixpoint visit (columns : list field) (dependencies : gmap nat (gset nat)) (fuel : nat) (column : nat)
    (state : gmap nat mark) : result (gmap nat mark) :=
  match fuel with
  | O => Throw Out_of_fuel
  | S fuel =>
      match state !! column with
      | Some Closed => Ok state
      | Some Open =>
          refuse ("generated column '" +:+ default "" (f_name <$> columns !! column) +:+ "' depends on itself")
      | None =>
          state ← each (visit columns dependencies fuel) (in_order (default ∅ (dependencies !! column)))
                       (<[column := Open]> state);
          Ok (<[column := Closed]> state)
      end
  end.

Definition validate_generated_columns (columns : list field) (generated_sql : list bytes) : result () :=
  '(physical, dependencies) ← generated_loop columns generated_sql 0 columns false ∅;
  if negb (existsb (λ sql, negb (bool_decide (sql = []))) generated_sql) then Ok tt
  else if negb physical then refuse "a table with generated columns requires a physical column"
  else _ ← each (visit columns dependencies (S (length columns))) (in_order (dom dependencies)) ∅; Ok tt.

End checks.

End SqlScalar.
