(* ===== verification/SqlParse.v ===== *)
(** * The SQL lexer and parser: termination, and the value of a number

    That lexing and parsing answer for every text ([src/sql_scalar.cpp]), by a
    weakest precondition over the tokens left, and that an integer literal is
    classified by its value. *)

From stdpp Require Import sorting.
From S2P Require Import Prelude Text Arrow SqlScalar.

Module SqlParse.
Import SqlScalar.

(** ** Termination *)

(** The one exception that is thrown on purpose. *)
Definition refused (e : exn) : Prop := match e with Invalid_argument _ => True | _ => False end.

(** What a parser leaves, unless it refuses. *)
Definition wp {A} (m : P A) (l : list Token) (Q : A → list Token → Prop) : Prop :=
  match m l with Ok (a, l') => Q a l' | Throw e => refused e end.

(** It ends, and puts no token back. *)
Definition ends {A} (m : P A) : Prop := ∀ l, wp m l (λ _ l', (length l' ≤ length l)%nat).

Lemma wp_mono {A} (m : P A) l (Q R : A → list Token → Prop) :
  (∀ a l', Q a l' → R a l') → wp m l Q → wp m l R.
Proof. unfold wp. destruct (m l) as [[a l']|e]; auto. Qed.

Lemma wp_bind {A B} (m : P A) (f : A → P B) l Q : wp m l (λ a l', wp (f a) l' Q) → wp (m ≫= f) l Q.
Proof. unfold wp, mbind, P_bind, p_bind, mbind, result_bind. by destruct (m l) as [[a l']|e]. Qed.

Lemma wp_ret {A} (a : A) l (Q : A → list Token → Prop) : Q a l → wp (mret a) l Q.
Proof. done. Qed.

Lemma wp_refuse {A} msg l (Q : A → list Token → Prop) : wp (p_refuse msg) l Q.
Proof. done. Qed.

Lemma wp_if {A} (b : bool) (m n : P A) l Q :
  (b = true → wp m l Q) → (b = false → wp n l Q) → wp (if b then m else n) l Q.
Proof. destruct b; auto. Qed.

Lemma wp_advance l (Q : () → list Token → Prop) :
  (∀ l', (length l' ≤ length l)%nat → (l ≠ [] → (length l' < length l)%nat) → Q tt l') → wp advance l Q.
Proof. intros HQ. apply HQ; destruct l; simpl; intros; first [lia|congruence]. Qed.

Lemma wp_next l (Q : Token → list Token → Prop) :
  (∀ t l', (length l' ≤ length l)%nat → Q t l') → wp next l Q.
Proof. intros HQ. apply HQ. destruct l; simpl; lia. Qed.

Lemma at_op_cons o l : at_op o l = true → l ≠ [].
Proof. destruct l; [|done]. intros [Hk _]%andb_true_iff. by apply bool_decide_eq_true in Hk. Qed.
Lemma at_keyword_cons w l : at_keyword w l = true → l ≠ [].
Proof. destruct l; [|done]. intros [Hk _]%andb_true_iff. by apply bool_decide_eq_true in Hk. Qed.

Lemma wp_op t l (Q : bool → list Token → Prop) : (∀ b, (b = true → l ≠ []) → Q b l) → wp (op t) l Q.
Proof. intros HQ. apply HQ, at_op_cons. Qed.
Lemma wp_keyword t l (Q : bool → list Token → Prop) :
  (∀ b, (b = true → l ≠ []) → Q b l) → wp (keyword t) l Q.
Proof. intros HQ. apply HQ, at_keyword_cons. Qed.
Lemma wp_which_op ops l (Q : option bytes → list Token → Prop) :
  (∀ o, (match o with Some _ => l ≠ [] | None => True end) → Q o l) → wp (which_op ops) l Q.
Proof.
  intros HQ. apply HQ. clear HQ. induction (map bs ops) as [|o os IH]; [done|]. cbn [List.find].
  destruct (at_op o l) eqn:E; [by apply at_op_cons in E|exact IH].
Qed.
Lemma wp_tokens l (Q : list Token → list Token → Prop) : Q l l → wp tokens l Q.
Proof. done. Qed.

Lemma wp_expect t l (Q : () → list Token → Prop) :
  (∀ l', (length l' < length l)%nat → Q tt l') → wp (expect t) l Q.
Proof.
  intros HQ. apply wp_bind, wp_op. intros b Hb. apply wp_if; intros Eb; [|apply wp_refuse].
  apply wp_advance. auto.
Qed.

(** A call of what is known to end. *)
Lemma wp_ends {A} (m : P A) l (Q : A → list Token → Prop) :
  ends m → (∀ a l', (length l' ≤ length l)%nat → Q a l') → wp m l Q.
Proof. intros Hm HQ. eapply wp_mono; [|apply Hm]. simpl. auto. Qed.

Lemma ends_loop {A} (step : A → P (A * bool)) a :
  (∀ a l, wp (step a) l (λ r l', (length l' ≤ length l)%nat ∧ (r.2 = true → (length l' < length l)%nat))) →
  ends (loop step a).
Proof.
  intros Hs l. unfold loop. assert (∀ fuel a l, (length l < fuel)%nat →
    wp (loop_ fuel step a) l (λ _ l', (length l' ≤ length l)%nat)) as Hall; [|apply Hall; lia].
  clear a l. induction fuel as [|fuel IH]; intros a l Hf; [lia|].
  specialize (Hs a l). unfold wp in *. cbn [loop_]. unfold mbind, result_bind.
  destruct (step a l) as [[[a' b] l']|e]; [|done]. destruct Hs as [Hle Hlt]. simpl in *.
  destruct b; [|done]. specialize (Hlt eq_refl). specialize (IH a' l' ltac:(lia)).
  destruct (loop_ fuel step a' l') as [[a'' l'']|e]; [lia|done].
Qed.

Ltac wp_step :=
  lazymatch goal with
  | |- wp (mbind _ _) _ _ => apply wp_bind
  | |- wp (mret _) _ _ => apply wp_ret
  | |- wp (p_refuse _) _ _ => apply wp_refuse
  | |- wp advance _ _ => apply wp_advance; intros ? ? ?
  | |- wp next _ _ => apply wp_next; intros ? ? ?
  | |- wp (op _) _ _ => apply wp_op; intros ? ?
  | |- wp (keyword _) _ _ => apply wp_keyword; intros ? ?
  | |- wp (which_op _) _ _ => apply wp_which_op; intros ? ?
  | |- wp tokens _ _ => apply wp_tokens
  | |- wp (expect _) _ _ => apply wp_expect; intros ? ?
  | |- wp (match ?x with _ => _ end) _ _ => destruct x eqn:?
  | |- wp _ _ _ => eapply wp_ends; [solve [eauto with ends]|intros ? ? ?]
  end.
Ltac wp_done := simpl in *; rewrite ?negb_false_iff, ?orb_true_iff in *; first [lia | done | intuition (first [lia | congruence])].
Ltac wp_solve := repeat first [progress cbv zeta | wp_step]; wp_done.

Create HintDb ends.

Lemma ends_left_chain ops sub mk : ends sub → ends (left_chain ops sub mk).
Proof.
  intros Hs l. unfold left_chain. wp_step. wp_step. eapply wp_mono; [|apply ends_loop].
  - simpl. lia.
  - intros left k. wp_solve.
Qed.

Lemma ends_keyword_chain w sub : ends sub → ends (keyword_chain w sub).
Proof.
  intros Hs l. unfold keyword_chain. wp_step. wp_step. eapply wp_mono; [|apply ends_loop].
  - simpl. lia.
  - intros left k. wp_solve.
Qed.

#[local] Hint Resolve ends_left_chain ends_keyword_chain : ends.

(** The head of a loop: what it starts from, then its turns. *)
Ltac wp_loop := eapply wp_mono; [|apply ends_loop; intros ? ?; wp_solve]; simpl; intros; try lia.

Lemma ends_type_modifier : ends type_modifier.
Proof. intros l. unfold type_modifier. wp_step. wp_loop. wp_solve. Qed.
#[local] Hint Resolve ends_type_modifier : ends.

Lemma ends_type_name : ends type_name.
Proof. intros l. unfold type_name. wp_solve. Qed.
#[local] Hint Resolve ends_type_name : ends.

Section ends_levels.
Context (e u : P Node) (He : ends e) (Hu : ends u).

Lemma ends_arguments : ends (arguments e).
Proof using Type*. intros l. unfold arguments. repeat wp_step; [wp_done|]. wp_loop. repeat wp_step; wp_done. Qed.
#[local] Hint Resolve ends_arguments : ends.

Lemma ends_name_or_call name k text : ends (name_or_call e name k text).
Proof using Type*. intros l. unfold name_or_call. wp_solve. Qed.
#[local] Hint Resolve ends_name_or_call : ends.

Lemma ends_word_node token : ends (word_node e token).
Proof using Type*. intros l. unfold word_node. wp_solve. Qed.
#[local] Hint Resolve ends_word_node : ends.

Lemma ends_primary : ends (primary e).
Proof using Type*. intros l. unfold primary. wp_solve. Qed.
#[local] Hint Resolve ends_primary : ends.

Lemma ends_postfix : ends (postfix e).
Proof using Type*. intros l. unfold postfix. wp_step. wp_step. wp_loop. Qed.
#[local] Hint Resolve ends_postfix : ends.

Lemma ends_unary_body : ends (unary_body e u).
Proof using Type*. intros l. unfold unary_body. wp_solve. Qed.

Lemma ends_comparison : ends (comparison u).
Proof using Type*. intros l. unfold comparison, concatenation, additive, multiplicative. wp_solve. Qed.
#[local] Hint Resolve ends_comparison : ends.

Lemma ends_null_test : ends (null_test u).
Proof using Type*. intros l. unfold null_test. wp_step. wp_step. wp_loop. Qed.

End ends_levels.

Lemma ends_expression d : ends (expression d) ∧ ends (negation d) ∧ ends (unary d).
Proof.
  induction d as [|d (He & Hn & Hu)]; [split_and!; intros l; apply wp_refuse|].
  cbn [expression negation unary]. split_and!.
  - eauto with ends.
  - pose proof (ends_null_test _ Hu) as Ht. intros l. wp_solve.
  - by apply ends_unary_body.
Qed.

(** The lexer: every turn leaves less. *)
Lemma span_le p s : (length (span p s).2 ≤ length s)%nat.
Proof. induction s as [|c s IH]; [done|]. cbn [span]. destruct (p c), (span p s); simpl in *; lia. Qed.

Lemma span_lt p c s : p c = true → (length (span p (c :: s)).2 ≤ length s)%nat.
Proof. intros Hp. cbn [span]. rewrite Hp. pose proof (span_le p s). by destruct (span p s). Qed.

Lemma after_comment_le s rest : after_comment s = Some rest → (length rest ≤ length s)%nat.
Proof.
  induction s as [|c s IH]; [done|]. destruct s as [|d s]; [done|]. cbn [after_comment].
  destruct (_ && _); intros Hr; simplify_eq/=; [lia|]. apply IH in Hr. simpl in Hr. lia.
Qed.

Lemma read_quoted_le q s t rest : read_quoted q s = Some (t, rest) → (length rest ≤ length s)%nat.
Proof.
  revert t rest. induction s as [s IH] using (induction_ltof1 _ length). unfold ltof in IH.
  destruct s as [|c s]; [done|]. intros t rest. cbn [read_quoted].
  assert (∀ s' q', (length s' ≤ length s)%nat →
    ('(t, r) ← read_quoted q s'; Some (q' :: t, r)) = Some (t, rest) → (length rest ≤ length s)%nat) as Hin.
  { intros s' q' Hs' ([t' r'] & Hq & ?)%bind_Some. simplify_eq/=. apply IH in Hq; simpl in *; lia. }
  case_bool_decide; [|intros Hr%Hin; simpl; lia]. destruct s as [|d s]; [intros [= <- <-]; simpl; lia|].
  case_bool_decide; [intros Hr%Hin; simpl in *; lia|]. intros [= <- <-]. simpl. lia.
Qed.

Lemma read_op_lt ops s t rest :
  Forall (λ o, o ≠ []) ops → s ≠ [] → read_op ops s = Some (t, rest) → (length rest < length s)%nat.
Proof.
  intros Ho Hs. induction Ho as [|o ops Hne _ IH]; [done|]. cbn [read_op].
  case_bool_decide; [|done]. intros [= <- <-]. rewrite length_drop. destruct s, o; simpl; [done..|lia].
Qed.


Lemma read_fraction_le s : (length (read_fraction s).2 ≤ length s)%nat.
Proof.
  destruct s as [|c s]; [simpl; lia|]. cbn [read_fraction]. case_bool_decide; [|simpl; lia].
  pose proof (span_le is_digit s). destruct (span is_digit s). simpl in *. lia.
Qed.

Lemma read_exponent_le s :
  match read_exponent s with Ok (_, r) => (length r ≤ length s)%nat | Throw e => refused e end.
Proof.
  destruct s as [|c s]; [simpl; lia|]. cbn [read_exponent]. destruct (_ || _); [|simpl; lia].
  set (m := match s with [] => _ | _ => _ end). assert (length m.2 ≤ length s)%nat as Hm.
  { subst m. destruct s as [|d s]; [simpl; lia|]. destruct (_ || _); simpl; lia. }
  destruct m as [sign r]. simpl in Hm. destruct (starts_digit r); [|done].
  pose proof (span_le is_digit r). destruct (span is_digit r). simpl in *. lia.
Qed.

Lemma read_number_lt c s :
  is_digit c = true ∨ c = "."%char →
  match read_number (c :: s) with Ok (_, r) => (length r ≤ length s)%nat | Throw e => refused e end.
Proof.
  intros Hc. unfold read_number.
  assert (length (read_fraction (span is_digit (c :: s)).2).2 ≤ length s)%nat as Hf.
  { destruct (is_digit c) eqn:Ed.
    - pose proof (span_lt is_digit c s Ed). pose proof (read_fraction_le (span is_digit (c :: s)).2). lia.
    - destruct Hc as [|Hc]; [done|]. cbn [span]. rewrite Ed. subst c. cbn.
      pose proof (span_le is_digit s). by destruct (span is_digit s). }
  destruct (span is_digit (c :: s)) as [a s1]. simpl in Hf. destruct (read_fraction s1) as [b s2]. simpl in Hf.
  pose proof (read_exponent_le s2) as He. unfold mbind, result_bind.
  destruct (read_exponent s2) as [[x s3]|e]; [|done].
  destruct s3; [simpl; lia|]. destruct (_ || _); [done|lia].
Qed.

(** The next condition of a chain of them. *)
Ltac branch E :=
  lazymatch goal with
  | |- match (if ?b then _ else _) with _ => _ end => destruct b eqn:E
  end.

Lemma token_at_lt c r :
  match token_at c r with Ok (_, rest) => (length rest ≤ length r)%nat | Throw e => refused e end.
Proof.
  unfold token_at. cbv zeta. branch Es; [done|]. branch Ed.
  { apply andb_true_iff in Ed as [Ed _]. apply bool_decide_eq_true in Ed. subst c. by apply span_lt. }
  branch Ec.
  { destruct (after_comment _) eqn:Ea; [|done]. apply after_comment_le in Ea. destruct r; simpl in *; lia. }
  branch Ew.
  { assert (is_word c = true) as Hw by (unfold is_word; destruct (is_alpha c), (is_digit c); done).
    pose proof (span_lt is_word c r Hw). destruct (span is_word (c :: r)) as [w rest]. cbn [snd] in *.
    destruct rest; [done|]. by branch Ep. }
  branch Equ.
  { destruct (read_quoted c r) as [[t rest]|] eqn:Er; [|done]. apply read_quoted_le in Er. by branch Ee. }
  branch En.
  { pose proof (read_number_lt c r) as Hn. unfold mbind, result_bind.
    destruct (read_number (c :: r)) as [[t rest]|e]; apply Hn;
      (apply orb_true_iff in En as [?|[? _]%andb_true_iff]; [by left|right; by apply bool_decide_eq_true in H]). }
  destruct (read_op kOps (c :: r)) as [[o rest]|] eqn:Eo; [|done].
  apply read_op_lt in Eo; [simpl in *; lia| |done]. by repeat constructor.
Qed.

Lemma tokenize_ends s : throws_only refused (tokenize s).
Proof.
  unfold tokenize. assert (∀ fuel s, (length s ≤ fuel)%nat → throws_only refused (tokenize_loop fuel s))
    as Hall; [|by apply Hall].
  clear s. induction fuel as [|fuel IH]; intros [|c s] Hf; simpl in Hf; [done|lia|done|]. cbn [tokenize_loop].
  pose proof (token_at_lt c s) as Ht. unfold mbind, result_bind.
  destruct (token_at c s) as [[t rest]|e]; [|done].
  specialize (IH rest ltac:(lia)). by destruct (tokenize_loop fuel rest).
Qed.

Lemma parse_tokens_ends l : throws_only refused (parse_tokens l).
Proof.
  unfold parse_tokens. generalize kMaxDepth. intros d. pose proof (proj1 (ends_expression d) l) as He.
  unfold wp in He. apply throws_only_bind; [by destruct (expression d l) as [[]|]|].
  intros [n rest]. by case_bool_decide.
Qed.

Lemma parse_refuses sql : throws_only refused (parse sql).
Proof.
  unfold parse. destruct (_ || _); [done|].
  apply throws_only_bind; [apply tokenize_ends|apply parse_tokens_ends].
Qed.

(** C39. Reading a SQL text always ends, for every text: lexing and parsing
    answer with a tree or with [std::invalid_argument], never with another
    exception.  The bounds the model puts on their loops are not reached, and
    the parser's own bound on nesting is a refusal. *)
Theorem parse_total sql : (∃ node, parse sql = Ok node) ∨ ∃ e, parse sql = Throw e ∧ refused e.
Proof.
  pose proof (parse_refuses sql) as Hp. destruct (parse sql) as [n|e]; [by left; exists n|].
  by right; exists e.
Qed.

(** ** Numbers *)

Definition digits (l : bytes) : Prop := Forall (λ c, is_digit c = true) l.

Lemma digit_range c : is_digit c = true → 0 ≤ bz c - 48 ≤ 9.
Proof. unfold is_digit. rewrite bool_decide_eq_true. lia. Qed.

Lemma read_digits_acc l acc :
  digits l → read_digits l acc = acc * 10 ^ Z.of_nat (length l) + read_digits l 0.
Proof.
  intros Hl. revert acc. induction Hl as [|c l Hc _ IH]; intros acc; [cbn; lia|].
  cbn [read_digits length]. rewrite Hc, (IH (10 * acc + _)), (IH (10 * 0 + _)), Nat2Z.inj_succ, Z.pow_succ_r by lia.
  lia.
Qed.

Lemma read_digits_cons c l :
  digits (c :: l) → read_digits (c :: l) 0 = (bz c - 48) * 10 ^ Z.of_nat (length l) + read_digits l 0.
Proof. intros [Hc Hl]%Forall_cons. cbn [read_digits]. rewrite Hc, read_digits_acc by done. lia. Qed.

Lemma read_digits_bound l : digits l → 0 ≤ read_digits l 0 < 10 ^ Z.of_nat (length l).
Proof.
  induction l as [|c l IH]; [cbn; lia|]. intros Hd. rewrite read_digits_cons by done.
  apply Forall_cons in Hd as [Hc Hl]. specialize (IH Hl). apply digit_range in Hc.
  cbn [length]. rewrite Nat2Z.inj_succ, Z.pow_succ_r by lia. nia.
Qed.

(** Equal lengths: the order of the texts is the order of the numbers. *)
Lemma bytes_le_digits a b :
  digits a → digits b → length a = length b → bytes_le a b = (read_digits a 0 <=? read_digits b 0).
Proof.
  revert b. induction a as [|x a IH]; intros [|y b] Ha Hb Hl; try done. injection Hl as Hl.
  rewrite !read_digits_cons by done. cbn [bytes_le]. rewrite Hl.
  apply Forall_cons in Ha as [_ Ha]. apply Forall_cons in Hb as [_ Hb]. rewrite (IH b) by done.
  pose proof (read_digits_bound a Ha) as Ba. pose proof (read_digits_bound b Hb) as Bb. rewrite Hl in Ba.
  set (p := 10 ^ Z.of_nat (length b)) in *. clearbody p.
  destruct (Z.ltb_spec (bz x) (bz y)), (Z.eqb_spec (bz x) (bz y)); cbn [orb andb];
    symmetry; first [apply Z.leb_le; nia | apply Z.leb_gt; nia | idtac].
  destruct (Z.leb_spec (read_digits a 0) (read_digits b 0)); first [apply Z.leb_le; nia | apply Z.leb_gt; nia].
Qed.

(** A number without zeros in front of it. *)
Definition plain (l : bytes) : Prop :=
  match l with c :: r => r = [] ∨ c ≠ "0"%char | [] => False end.

Lemma plain_bound c r : digits (c :: r) → plain (c :: r) → r ≠ [] → 10 ^ Z.of_nat (length r) ≤ read_digits (c :: r) 0.
Proof.
  intros Hd [?|Hc] Hr; [done|]. rewrite read_digits_cons by done. apply Forall_cons in Hd as [Hx Hd].
  pose proof (read_digits_bound r Hd). apply digit_range in Hx.
  assert (bz c ≠ 48) by (intros E; apply Hc, bz_inj; by rewrite E). nia.
Qed.

Lemma fits_value d limit :
  digits d → plain d → digits limit → plain limit → (1 < length limit)%nat →
  fits d limit = (read_digits d 0 <=? read_digits limit 0).
Proof.
  intros Hd Pd Hm Pm Hl. unfold fits. destruct d as [|c r]; [done|]. destruct limit as [|m s]; [done|].
  pose proof (read_digits_bound _ Hd) as Bd. pose proof (read_digits_bound _ Hm) as Bm.
  assert (s ≠ []) as Hs by (intros ->; simpl in Hl; lia). pose proof (plain_bound _ _ Hm Pm Hs) as Lm.
  destruct (Nat.ltb_spec (length (c :: r)) (length (m :: s))) as [H1|H1]; cbn [orb].
  - symmetry. apply Z.leb_le.
    assert (10 ^ Z.of_nat (length (c :: r)) ≤ 10 ^ Z.of_nat (length s)) by (apply Z.pow_le_mono_r; simpl in *; lia). lia.
  - destruct (Nat.eqb_spec (length (c :: r)) (length (m :: s))) as [H2|H2]; cbn [andb].
    + by apply bytes_le_digits.
    + symmetry. apply Z.leb_gt. assert (r ≠ []) as Hr by (intros ->; simpl in *; lia).
      pose proof (plain_bound _ _ Hd Pd Hr).
      assert (10 ^ Z.of_nat (length (m :: s)) ≤ 10 ^ Z.of_nat (length r)) by (apply Z.pow_le_mono_r; simpl in *; lia). lia.
Qed.

Lemma strip_zeros_value l :
  digits l → l ≠ [] →
  digits (strip_zeros l) ∧ plain (strip_zeros l) ∧ read_digits (strip_zeros l) 0 = read_digits l 0.
Proof.
  induction l as [|c l IH]; intros Hd Hne; [done|]. cbn [strip_zeros].
  destruct (bool_decide_reflect (c = "0"%char)) as [Hc|Hc]; cbn [andb]; [|split_and!; [done|by right|done]].
  destruct l as [|d l]; [split_and!; [done|by left|done]|]. cbn [length bool_decide negb].
  rewrite bool_decide_false by done. cbn [negb].
  pose proof Hd as [_ Hd']%Forall_cons. destruct (IH Hd' ltac:(done)) as (H1 & H2 & H3).
  split_and!; [done..|]. rewrite H3, (read_digits_cons c) by done. subst c. cbn [bz]. by vm_compute (bz _).
Qed.

(** [[-]digits], and the number it is. *)
Definition integer_value (negative : bool) (l : bytes) : Z := (if negative then -1 else 1) * read_digits l 0.
Definition integer_text (negative : bool) (l : bytes) : bytes := (if negative then ["-"%char] else []) ++ l.

Lemma has_char_digits p l :
  digits l → (∀ c, is_digit c = true → p c = false) → has_char p l = false.
Proof. intros Hl Hp. induction Hl as [|c l Hc _ IH]; [done|]. unfold has_char in *. cbn. by rewrite Hp, IH. Qed.

Lemma digit_not c d : is_digit c = true → is_digit d = false → bool_decide (c = d) = false.
Proof. intros H1 H2. apply bool_decide_eq_false. intros ->. congruence. Qed.

Lemma fits_limit d limit m :
  digits d → plain d → forallb is_digit limit = true → plain limit → (1 < length limit)%nat →
  read_digits limit 0 = m → fits d limit = bool_decide (read_digits d 0 ≤ m).
Proof.
  intros Hd Pd Hl Pl Hn <-. rewrite fits_value; try done.
  - apply eq_bool_prop_intro. rewrite bool_decide_spec. destruct (Z.leb_spec (read_digits d 0) (read_digits limit 0)); simpl; naive_solver lia.
  - apply Forall_forall. intros x Hx. rewrite forallb_forall in Hl. by apply Hl, list_elem_of_In.
Qed.

(** An integer literal is classified by its value: INTEGER exactly when it
    is a 32-bit number, BIGINT exactly when it is a 64-bit and not a 32-bit
    one, HUGEINT otherwise -- whatever zeros stand in front, and for the most
    negative numbers too. *)
Theorem classify_number_value negative l :
  digits l → l ≠ [] →
  classify_number (integer_text negative l) =
    let v := integer_value negative l in
    if bool_decide (- 2 ^ 31 ≤ v < 2 ^ 31) then Integer
    else if bool_decide (- 2 ^ 63 ≤ v < 2 ^ 63) then Bigint else Hugeint.
Proof.
  intros Hl Hne. destruct (strip_zeros_value l Hl Hne) as (Hd & Hp & Hv).
  pose proof (read_digits_bound l Hl) as [Hpos _].
  assert (∀ p, (∀ c, is_digit c = true → p c = false) → p "-"%char = false →
    has_char p (integer_text negative l) = false) as Hno.
  { intros p Hp1 Hp2. pose proof (has_char_digits p l Hl Hp1) as Hc.
    destruct negative; [|done]. cbn. by rewrite Hp2. }
  unfold classify_number. rewrite Hno; [|by intros c Hc; rewrite !digit_not|done].
  rewrite Hno; [|by intros c Hc; rewrite !digit_not|done]. cbv zeta.
  assert (bool_decide (head (integer_text negative l) = Some "-"%char) = negative) as ->.
  { destruct negative; [done|]. destruct l as [|c l]; [done|]. apply Forall_cons in Hl as [Hc _].
    apply bool_decide_eq_false. intros [= ->]. done. }
  replace (if negative then tail _ else _) with l by by destruct negative.
  unfold integer_value. destruct negative.
  - rewrite (fits_limit _ _ (2 ^ 31)), (fits_limit _ _ (2 ^ 63)); try done; try (simpl; lia); try by right.
    rewrite Hv. repeat case_bool_decide; try done; lia.
  - rewrite (fits_limit _ _ (2 ^ 31 - 1)), (fits_limit _ _ (2 ^ 63 - 1)); try done; try (simpl; lia); try by right.
    rewrite Hv. repeat case_bool_decide; try done; lia.
Qed.

Lemma classify_number_value_witness :
  classify_number (bs "-0002147483648") = Integer ∧ classify_number (integer_text false (bs "2147483648")) = Bigint.
Proof.
  split.
  - apply (classify_number_value true (bs "0002147483648")); [by repeat constructor|done].
  - apply (classify_number_value false (bs "2147483648")); [by repeat constructor|done].
Defined.

End SqlParse.
