(* ===== verification/SqlGenerated.v ===== *)
(** * Generated columns: the grammar and the walk ([src/sql_scalar.cpp])

    What [generated_node] accepts and collects, that [visit] ends and refuses
    exactly a cycle, and from both what [validate_generated_columns] accepts. *)

From stdpp Require Import sorting relations.
From S2P Require Import Prelude Text Arrow SqlScalar.

Module SqlGenerated.
Import SqlScalar.

(** ** The walk over a dependency graph *)

Section walk.
Context (columns : list field) (deps : gmap nat (gset nat)).

Definition edge (i j : nat) : Prop := j ∈ default (∅ : gset nat) (deps !! i).
Definition in_range : Prop :=
  (∀ i, i ∈ dom deps → (i < length columns)%nat) ∧ ∀ i j, edge i j → (j < length columns)%nat.

Definition closed (state : gmap nat mark) (c : nat) : Prop := state !! c = Some Closed.

(** The closed columns read only closed columns, and none reads itself. *)
Definition inv (state : gmap nat mark) : Prop :=
  (∀ c j, closed state c → edge c j → closed state j) ∧ (∀ c, closed state c → ¬ tc edge c c).

(** The open columns are those of [path]. *)
Definition opened (state : gmap nat mark) (path : gset nat) : Prop := ∀ c, state !! c = Some Open ↔ c ∈ path.

(** What a visit of the columns [l] makes of a state, or that there is a cycle. *)
Definition visited (path : gset nat) (state : gmap nat mark) (l : list nat) (r : result (gmap nat mark)) : Prop :=
  match r with
  | Ok state' => inv state' ∧ opened state' path ∧ (∀ c, closed state c → closed state' c) ∧ ∀ c, c ∈ l → closed state' c
  | Throw e => (∃ m, e = Invalid_argument m) ∧ ∃ c, tc edge c c
  end.

Lemma closed_tc state c j : inv state → closed state c → tc edge c j → closed state j.
Proof. intros [Hc _] H Ht. revert H. induction Ht; eauto. Qed.

Lemma each_visited f path l state :
  inv state → opened state path →
  (∀ c state, c ∈ l → inv state → opened state path → visited path state [c] (f c state)) →
  visited path state l (each f l state).
Proof.
  intros Hi Ho Hf. revert state Hi Ho. induction l as [|c l IH]; intros state Hi Ho; cbn [each].
  { split_and!; [done..|]. intros c Hc. by apply elem_of_nil in Hc. }
  pose proof (Hf c state ltac:(left) Hi Ho) as H1. unfold mbind, result_bind.
  destruct (f c state) as [state1|e]; [|done]. destruct H1 as (Hi1 & Ho1 & Hm1 & Hc1).
  pose proof (IH ltac:(intros; apply Hf; [by right|done..]) state1 Hi1 Ho1) as H2.
  destruct (each f l state1) as [state2|e]; [|done]. destruct H2 as (Hi2 & Ho2 & Hm2 & Hc2).
  split_and!; [done..|eauto|]. intros d [->|Hd]%elem_of_cons; [|eauto]. apply Hm2, Hc1. left.
Qed.

Lemma opened_path_fuel fuel (path : gset nat) :
  (∀ c, c ∈ path → (c < length columns)%nat) → (length columns < fuel + base.size path)%nat → fuel ≠ O.
Proof.
  intros Hp Hf ->. assert (path ⊆ set_seq 0 (length columns)) as Hs.
  { intros c Hc. apply elem_of_set_seq. specialize (Hp c Hc). lia. }
  apply subseteq_size in Hs. rewrite size_set_seq in Hs. simpl in Hf. lia.
Qed.

Lemma edges_in_order c j : j ∈ in_order (default ∅ (deps !! c)) ↔ edge c j.
Proof. unfold in_order, edge. by rewrite merge_sort_Permutation, elem_of_elements. Qed.

Lemma visit_visited fuel column state path :
  in_range → (column < length columns)%nat → (∀ c, c ∈ path → (c < length columns)%nat) →
  (length columns < fuel + base.size path)%nat → inv state → opened state path →
  (∀ o, o ∈ path → tc edge o column) →
  visited path state [column] (visit columns deps fuel column state).
Proof.
  intros Hr. revert column state path. induction fuel as [|fuel IH]; intros column state path Hcol Hpath Hf Hi Ho Ht.
  { by destruct (opened_path_fuel 0 path Hpath Hf). }
  cbn [visit]. destruct (state !! column) as [[|]|] eqn:Es.
  - split; [by eexists|]. exists column. by apply Ht, Ho.
  - split_and!; [done..|]. by intros c ->%list_elem_of_singleton.
  - assert (column ∉ path) as Hnp by (intros Hc%Ho; congruence).
    set (state0 := <[column:=Open]> state).
    assert (inv state0) as Hi0.
    { destruct Hi as [H1 H2]. unfold inv, closed, state0 in *. split.
      - intros c j Hc He. apply lookup_insert_Some in Hc as [[_ [=]]|[Hne Hc]].
        rewrite lookup_insert_ne; [by eapply H1|]. intros <-. specialize (H1 c column Hc He). congruence.
      - intros c Hc. apply lookup_insert_Some in Hc as [[_ [=]]|[Hne Hc]]. by apply H2. }
    assert (opened state0 ({[column]} ∪ path)) as Ho0.
    { intros c. unfold state0. rewrite elem_of_union, elem_of_singleton, <- (Ho c). 
      destruct (decide (c = column)) as [->|Hne]; [rewrite lookup_insert_eq; naive_solver|].
      rewrite lookup_insert_ne by done. naive_solver. }
    assert (visited ({[column]} ∪ path) state0 (in_order (default ∅ (deps !! column)))
              (each (visit columns deps fuel) (in_order (default ∅ (deps !! column))) state0)) as Hv.
    { apply each_visited; [done..|]. intros j st Hj%edges_in_order Hij Hoj.
      pose proof (proj2 Hr column j Hj) as Hjr. apply IH; [done| | |done|done|].
      - intros c [->%elem_of_singleton|Hc]%elem_of_union; [done|eauto].
      - rewrite size_union, size_singleton by set_solver. lia.
      - intros o [->%elem_of_singleton|Hc]%elem_of_union; [by apply tc_once|].
        eapply tc_r; [by apply Ht|done]. }
    unfold mbind, result_bind. destruct (each _ _ state0) as [st|e]; [|done].
    destruct Hv as (Hi1 & Ho1 & Hm1 & Hc1).
    assert (st !! column = Some Open) as Hopen by (apply Ho1; set_solver).
    assert (∀ c, closed (<[column:=Closed]> st) c ↔ c = column ∨ closed st c) as Hcl.
    { intros c. unfold closed. destruct (decide (c = column)) as [->|]; [rewrite lookup_insert_eq; naive_solver|].
      rewrite lookup_insert_ne by done. naive_solver. }
    split_and!.
    + destruct Hi1 as [H1 H2]. split.
      * intros c j [->|Hc]%Hcl He; apply Hcl; right; [by apply Hc1, edges_in_order|by eapply H1].
      * intros c [->|Hc]%Hcl Hcyc; [|by eapply H2].
        assert (closed st column) as Hbad; [|unfold closed in Hbad; congruence].
        inversion Hcyc as [? ? He|? j ? He Hj]; simplify_eq; [by apply Hc1, edges_in_order|].
        eapply closed_tc; [by split| |done]. by apply Hc1, edges_in_order.
    + intros c. destruct (decide (c = column)) as [->|Hne]; [rewrite lookup_insert_eq; naive_solver|].
      rewrite lookup_insert_ne, (Ho1 c) by done. set_solver.
    + intros c Hc. apply Hcl. right. apply Hm1. unfold closed, state0 in *.
      rewrite lookup_insert_ne; [done|]. intros <-. congruence.
    + intros c ->%list_elem_of_singleton. apply Hcl. by left.
Qed.

(** The walk from every column with an entry: it succeeds exactly when no
    column reads itself, and otherwise it refuses. *)
Lemma walk_acyclic :
  in_range →
  match each (visit columns deps (S (length columns))) (in_order (dom deps)) ∅ with
  | Ok _ => ∀ c, ¬ tc edge c c
  | Throw e => (∃ m, e = Invalid_argument m) ∧ ∃ c, tc edge c c
  end.
Proof.
  intros Hr. assert (∀ c j, edge c j → c ∈ dom deps) as Hdom.
  { intros c j He. apply elem_of_dom. unfold edge in He. destruct (deps !! c); [by eexists|set_solver]. }
  assert (∀ c, c ∈ in_order (dom deps) ↔ c ∈ dom deps) as Hin.
  { intros c. unfold in_order. by rewrite merge_sort_Permutation, elem_of_elements. }
  assert (visited ∅ ∅ (in_order (dom deps))
            (each (visit columns deps (S (length columns))) (in_order (dom deps)) ∅)) as Hv.
  { apply each_visited.
    - split; intros c; unfold closed; rewrite lookup_empty; done.
    - intros c. rewrite lookup_empty. set_solver.
    - intros c state Hc Hi Ho. apply visit_visited; [done| | | |done|done|].
      + by apply (proj1 Hr), Hin.
      + set_solver.
      + rewrite size_empty. lia.
      + set_solver. }
  destruct (each _ _ _) as [st|e]; [|done]. destruct Hv as ([_ Hi] & _ & _ & Hc).
  intros c Ht. apply (Hi c); [|done]. apply Hc, Hin. inversion Ht; eauto.
Qed.

End walk.

(** ** The tree of a generated column *)

Fixpoint Node_ind' (P : Node → Prop) (IH : ∀ k l t ch, Forall P ch → P (mkNode k l t ch)) (n : Node) : P n :=
  match n with
  | mkNode k l t ch =>
      IH k l t ch ((fix each (ch : list Node) : Forall P ch :=
                      match ch with [] => Forall_nil_2 P | c :: ch => Forall_cons_2 P c ch (Node_ind' P IH c) (each ch) end) ch)
  end.

(** The nodes of a tree, the levels under its root, the columns it names. *)
Fixpoint subtrees (n : Node) : list Node := n :: flat_map subtrees (n_children n).
Fixpoint height (n : Node) : nat := foldr max 0%nat (map (λ c, S (height c)) (n_children n)).
Definition column_names (n : Node) : list bytes :=
  n_text <$> filter (λ m, n_kind m = Column) (subtrees n).

Definition fine (n : Node) : Prop := ∃ names, generated_kind n = Ok names.

Lemma generated_kind_names n names :
  generated_kind n = Ok names → names = if bool_decide (n_kind n = Column) then [lower (n_text n)] else [].
Proof.
  unfold generated_kind. destruct (n_kind n); intros Hk; try (by case_bool_decide; simplify_eq); try (by simplify_eq).
  - by destruct (wide_literal _); simplify_eq.
  - by destruct (_ <? _); simplify_eq.
Qed.

Definition generated_children (depth : nat) : list Node → nat → gset bytes → result (nat * gset bytes) :=
  fix children (l : list Node) (nodes : nat) (refs : gset bytes) : result (nat * gset bytes) :=
    match l with
    | [] => Ok (nodes, refs)
    | c :: l => '(nodes, refs) ← generated_node c (S depth) nodes refs; children l nodes refs
    end.

Lemma generated_node_eq n depth nodes refs :
  generated_node n depth nodes refs =
    if (64 <? depth)%nat || (4096 <? S nodes)%nat then refuse "scalar expression is too complex" else
    names ← generated_kind n; generated_children depth (n_children n) (S nodes) (list_to_set names ∪ refs).
Proof. by destruct n. Qed.

(** What a walk over the nodes [ms], [h] levels deep, accepts and returns. *)
Definition walks (ms : list Node) (h depth nodes : nat) (refs : gset bytes) (r : result (nat * gset bytes)) : Prop :=
  match r with
  | Ok (k, refs') =>
      (depth + h ≤ 64)%nat ∧ k = (nodes + length ms)%nat ∧ (k ≤ 4096)%nat ∧ Forall fine ms ∧
      refs' = list_to_set (lower ∘ n_text <$> filter (λ m, n_kind m = Column) ms) ∪ refs
  | Throw e =>
      (∃ m, e = Invalid_argument m) ∧
      ((64 < depth + h)%nat ∨ (4096 < nodes + length ms)%nat ∨ ¬ Forall fine ms)
  end.

Lemma generated_kind_refuses n e : generated_kind n = Throw e → ∃ m, e = Invalid_argument m.
Proof.
  unfold generated_kind. destruct (n_kind n); try done; repeat case_match; try done; intros [= <-]; eauto.
Qed.

Lemma generated_children_walks depth l nodes refs :
  (nodes ≤ 4096)%nat → (depth ≤ 64)%nat →
  Forall (λ c, ∀ nodes refs, (nodes ≤ 4096)%nat →
     walks (subtrees c) (height c) (S depth) nodes refs (generated_node c (S depth) nodes refs)) l →
  walks (flat_map subtrees l) (foldr max 0%nat (map (λ c, S (height c)) l)) depth nodes refs
    (generated_children depth l nodes refs).
Proof.
  intros Hn Hd Hl. revert nodes refs Hn. induction Hl as [|c l Hc _ IH]; intros nodes refs Hn.
  { unfold walks. cbn. split_and!; [lia..|done|set_solver]. }
  cbn [generated_children flat_map map foldr]. specialize (Hc nodes refs Hn). unfold mbind, result_bind.
  destruct (generated_node c (S depth) nodes refs) as [[k1 r1]|e].
  - destruct Hc as (H1 & -> & H3 & H4 & ->). specialize (IH _ (list_to_set (lower ∘ n_text <$> filter (λ m, n_kind m = Column) (subtrees c)) ∪ refs) H3).
    fold (generated_children depth). destruct (generated_children _ _ _ _) as [[k2 r2]|e]; unfold walks in *.
    + destruct IH as (I1 & -> & I3 & I4 & ->). rewrite length_app, Forall_app, filter_app, fmap_app, list_to_set_app_L.
      split_and!; [lia..|done|done|set_solver].
    + destruct IH as (I1 & I2). split; [done|]. rewrite length_app, Forall_app.
      destruct I2 as [I2|[I2|I2]]; [left; lia|right; left; lia|right; right; tauto].
  - destruct Hc as (H1 & H2). split; [done|]. rewrite length_app, Forall_app.
    destruct H2 as [I2|[I2|I2]]; [left; lia|right; left; lia|right; right; tauto].
Qed.

Lemma generated_node_walks n : ∀ depth nodes refs, (nodes ≤ 4096)%nat →
  walks (subtrees n) (height n) depth nodes refs (generated_node n depth nodes refs).
Proof.
  induction n as [k lit t ch IH] using Node_ind'. intros depth nodes refs Hn. rewrite generated_node_eq.
  change (subtrees (mkNode k lit t ch)) with (mkNode k lit t ch :: flat_map subtrees ch).
  change (height (mkNode k lit t ch)) with (foldr max 0%nat (map (λ c, S (height c)) ch)).
  destruct (Nat.ltb_spec 64 depth) as [Hd|Hd]; cbn [orb]; [by split; [eexists|left; lia]|].
  destruct (Nat.ltb_spec 4096 (S nodes)) as [Hs|Hs]; [by split; [eexists|right; left; cbn [length]; lia]|].
  destruct (generated_kind (mkNode k lit t ch)) as [names|e] eqn:Ek.
  - cbn [mbind result_bind n_children].
    pose proof (generated_children_walks depth ch (S nodes) (list_to_set names ∪ refs) ltac:(lia) Hd
      ltac:(apply (Forall_impl _ _ _ IH); auto)) as Hc.
    unfold walks in *. destruct (generated_children _ _ _ _) as [[k2 r2]|e].
    + destruct Hc as (I1 & -> & I3 & I4 & ->).
      cbn [length]. split_and!; [lia..|constructor; [by eexists|done]|].
      apply generated_kind_names in Ek as ->. rewrite filter_cons. cbn [n_kind n_text].
      case_bool_decide; destruct (decide _); try done; rewrite ?fmap_cons, ?list_to_set_cons, list_to_set_nil.
      { rewrite (right_id_L ∅ (∪)), (assoc_L (∪)). f_equal. by rewrite (comm_L (∪)). }
      by rewrite (left_id_L ∅ (∪)).
    + destruct Hc as (I1 & I2).
      split; [done|]. rewrite Forall_cons. cbn [length].
      destruct I2 as [I2|[I2|I2]]; [left; lia|right; left; lia|right; right; tauto].
  - split; [by eapply generated_kind_refuses|]. right; right. rewrite Forall_cons. intros [[names Hf] _]. congruence.
Qed.

(** ** The columns an expression reads *)

Definition refuses {A} (r : result A) : Prop := ∀ e, r = Throw e → ∃ m, e = Invalid_argument m.

Lemma refuses_refuse {A} m : refuses (@refuse A m).
Proof. intros e [= <-]. eauto. Qed.
Lemma refuses_bind {A B} (r : result A) (f : A → result B) : refuses r → (∀ a, refuses (f a)) → refuses (r ≫= f).
Proof. intros Hr Hf e [->|(a & _ & Ha)]%bind_Throw; [by apply Hr|by apply Hf in Ha]. Qed.

(** The fields a name matches are at most one, and it is [r]. *)
Definition only_match (name : bytes) (fields : list field) (i : nat) (r : option nat) : Prop :=
  ∀ k, (∃ f, fields !! k = Some f ∧ name_matches name f = true) ↔ r = Some (i + k)%nat.

Lemma only_match_cons name f fields i r :
  name_matches name f = false → only_match name fields (S i) r → (∀ j, r = Some j → (i < j)%nat) →
  only_match name (f :: fields) i r.
Proof.
  intros Hf Hm Hr [|k]; cbn.
  - rewrite Nat.add_0_r. split; [intros (g & [= <-] & Hg); congruence|intros Hj%Hr; lia].
  - rewrite <- Nat.add_succ_comm. apply Hm.
Qed.

Lemma resolve_loop_spec name what i fields index :
  match resolve_loop name what i fields index with
  | Ok r => match index with
            | None => only_match name fields i r ∧ ∀ j, r = Some j → (i ≤ j)%nat
            | Some a => r = Some a ∧ ∀ k f, fields !! k = Some f → name_matches name f = false
            end
  | Throw e => ∃ m, e = Invalid_argument m
  end.
Proof.
  revert i index. induction fields as [|f fields IH]; intros i index; cbn [resolve_loop].
  { destruct index; [done|]. split; [|done]. intros k. split; [by intros (? & ? & _)|done]. }
  destruct (name_matches name f) eqn:Ef; cbn [negb].
  - destruct index as [a|]; [by eexists|]. specialize (IH (S i) (Some i)).
    destruct (resolve_loop _ _ _ _ _) as [r|e]; [|done]. destruct IH as [-> IH]. split; [|intros j [= <-]; lia].
    intros [|k]; cbn.
    + rewrite Nat.add_0_r. split; [done|]. intros _. by exists f.
    + split; [intros (g & Hg & Hm); apply IH in Hg; congruence|intros [= Hk]; lia].
  - specialize (IH (S i) index). destruct (resolve_loop _ _ _ _ _) as [r|e]; [|done].
    destruct index as [a|].
    + destruct IH as [-> IH]. split; [done|]. intros [|k] g; cbn; [by intros [= <-]|apply IH].
    + destruct IH as [Hm Hr]. split; [|intros j Hj; specialize (Hr j Hj); lia].
      apply only_match_cons; [done..|]. intros j Hj. specialize (Hr j Hj). lia.
Qed.

Lemma resolve_Ok columns name what i f :
  resolve columns name what = Ok (i, f) →
  columns !! i = Some f ∧ is_row_id f = false ∧
  ∀ k g, columns !! k = Some g → name_matches name g = true ↔ k = i.
Proof.
  unfold resolve. pose proof (resolve_loop_spec name what 0 columns None) as Hl. cbn in Hl.
  destruct (resolve_loop _ _ _ _ _) as [[j|]|e]; cbn; [|done..].
  destruct (columns !! j) as [g|] eqn:Eg; cbn; [|done]. destruct (is_row_id g) eqn:Er; [done|].
  intros [= <- <-]. split_and!; [done..|]. destruct Hl as [Hm _]. intros k h Hk. specialize (Hm k). simpl in Hm.
  split; [intros Hn; assert (Some j = Some k) as [= ->] by (apply Hm; eauto); done|].
  intros ->. destruct Hm as [_ Hm]. destruct (Hm eq_refl) as (h' & Hh & ?). congruence.
Qed.

Lemma resolve_refuses columns name what : refuses (resolve columns name what).
Proof.
  unfold resolve. apply refuses_bind.
  - intros e He. pose proof (resolve_loop_spec name what 0 columns None) as Hl. by rewrite He in Hl.
  - intros r. destruct (_ ≫= _) as [[i f]|]; [|apply refuses_refuse].
    destruct (is_row_id f); [apply refuses_refuse|done].
Qed.

Section columns.
Context `{A : Arrow}.

Lemma operand_columns_Ok columns names r :
  operand_columns columns names = Ok r →
  ∀ j, j ∈ r ↔ ∃ name f, name ∈ names ∧ columns !! j = Some f ∧ name_matches name f = true.
Proof.
  revert r. induction names as [|name names IH]; intros r; cbn [operand_columns].
  { intros [= <-] j. set_solver. }
  intros ([i f] & Hres & Hr)%bind_Ok. destruct (negb _); [done|].
  apply bind_Ok in Hr as (rest & Hrest & [= <-]). specialize (IH rest Hrest).
  apply resolve_Ok in Hres as (Hi & _ & Hm). intros j. rewrite elem_of_union, elem_of_singleton, IH. split.
  - intros [->|(nm & g & Hnm & Hg & Hj)].
    + exists name, f. split_and!; [left|done|by apply (Hm i)].
    + exists nm, g. split_and!; [by right|done..].
  - intros (nm & g & [->|Hnm]%elem_of_cons & Hg & Hj); [left; by apply (Hm j g)|right; eauto].
Qed.

Lemma operand_columns_refuses columns names : refuses (operand_columns columns names).
Proof.
  induction names as [|name names IH]; [done|]. cbn [operand_columns].
  apply refuses_bind; [apply resolve_refuses|]. intros [i f]. destruct (negb _); [apply refuses_refuse|].
  by apply refuses_bind.
Qed.

(** Column [i] reads column [j]: its expression names it, in whatever case. *)
Definition reads (columns : list field) (generated_sql : list bytes) (i j : nat) : Prop :=
  ∃ f sql node name g,
    columns !! i = Some f ∧ generated_sql !! i = Some sql ∧ sql ≠ [] ∧ parse sql = Ok node ∧
    name ∈ column_names node ∧ columns !! j = Some g ∧ lower (bs (f_name g)) = lower name.

Lemma lower_idemp s : lower (lower s) = lower s.
Proof.
  unfold lower. rewrite map_map. apply map_ext. intros c. unfold lower_char.
  destruct (is_upper c) eqn:E; [|by rewrite E].
  unfold is_upper in *. apply bool_decide_eq_true in E. rewrite bz_zb, Z.mod_small by lia.
  by rewrite bool_decide_false by lia.
Qed.

Lemma generated_column_Ok columns f sql r :
  generated_column columns f sql = Ok r →
  ∃ node, parse sql = Ok node ∧
    ∀ j, j ∈ r ↔ ∃ name g, name ∈ column_names node ∧ columns !! j = Some g ∧ lower (bs (f_name g)) = lower name.
Proof.
  unfold generated_column. do 3 (case_match; [done|]).
  intros (node & Hp & ([k refs] & Hg & Hr)%bind_Ok)%bind_Ok. exists node. split; [done|].
  pose proof (generated_node_walks node 0 0 ∅ ltac:(lia)) as Hw. rewrite Hg in Hw. destruct Hw as (_ & _ & _ & _ & ->).
  intros j. rewrite (operand_columns_Ok _ _ _ Hr). rewrite (right_id_L ∅ (∪)).
  setoid_rewrite (merge_sort_Permutation bytes_order). setoid_rewrite elem_of_elements.
  setoid_rewrite elem_of_list_to_set. unfold column_names, name_matches. setoid_rewrite bool_decide_eq_true. split.
  - intros (nm & g & (m & -> & Hm)%list_elem_of_fmap & Hg' & Hj). cbn in Hj. rewrite lower_idemp in Hj.
    exists (n_text m), g. split_and!; [by apply list_elem_of_fmap_2|done..].
  - intros (nm & g & (m & -> & Hm)%list_elem_of_fmap & Hg' & Hj).
    exists (lower (n_text m)), g. rewrite lower_idemp. split_and!; [|done..].
    by apply (list_elem_of_fmap_2 (lower ∘ n_text)).
Qed.

(** ** The loop over the columns *)

(** There is a column that is stored, from [fields], the columns from [i] on. *)
Definition physical_at (generated_sql : list bytes) (fields : list field) (i : nat) : Prop :=
  ∃ k f, fields !! k = Some f ∧ default [] (generated_sql !! (i + k)%nat) = [] ∧ is_row_id f = false.

Lemma where_Ok {B} f (r : result B) b : where_ f r = Ok b ↔ r = Ok b.
Proof. destruct r as [|[]]; naive_solver. Qed.

(** Field [k] of [fields], the columns from [i] on, is generated and reads [r]. *)
Definition reads_at (columns : list field) (generated_sql : list bytes) (fields : list field) (i k : nat) (r : gset nat) : Prop :=
  ∃ f sql, fields !! k = Some f ∧ generated_sql !! (i + k)%nat = Some sql ∧ sql ≠ [] ∧ generated_column columns f sql = Ok r.

(** Every generated field of [fields] is accepted. *)
Definition all_accepted (columns : list field) (generated_sql : list bytes) (fields : list field) (i : nat) : Prop :=
  ∀ k f sql, fields !! k = Some f → generated_sql !! (i + k)%nat = Some sql → sql ≠ [] →
    ∃ r, generated_column columns f sql = Ok r.

Definition loop_done (columns : list field) (generated_sql : list bytes) (fields : list field) (i : nat)
    (physical : bool) (deps : gmap nat (gset nat)) (p : bool) (deps' : gmap nat (gset nat)) : Prop :=
  all_accepted columns generated_sql fields i ∧
  (p = true ↔ physical = true ∨ physical_at generated_sql fields i) ∧
  (∀ c, c ∈ dom deps' → c ∈ dom deps ∨ (i ≤ c < i + length fields)%nat) ∧
  (∀ c j, edge deps' c j ↔ edge deps c j ∨ ∃ k r, c = (i + k)%nat ∧ reads_at columns generated_sql fields i k r ∧ j ∈ r).

Lemma edge_insert deps i (r : gset nat) c j :
  i ∉ dom deps → edge (<[i := r]> deps) c j ↔ edge deps c j ∨ (c = i ∧ j ∈ r).
Proof.
  intros Hi%not_elem_of_dom. unfold edge. destruct (decide (c = i)) as [->|Hne].
  - rewrite lookup_insert_eq, Hi. set_solver.
  - rewrite lookup_insert_ne by done. naive_solver.
Qed.

Lemma reads_at_cons columns generated_sql f fields i k r :
  reads_at columns generated_sql (f :: fields) i (S k) r ↔ reads_at columns generated_sql fields (S i) k r.
Proof. unfold reads_at. cbn. by rewrite Nat.add_succ_r. Qed.

Lemma loop_done_skip columns generated_sql f fields i physical deps p deps' :
  default [] (generated_sql !! i) = [] →
  loop_done columns generated_sql fields (S i) (physical || negb (is_row_id f)) deps p deps' →
  loop_done columns generated_sql (f :: fields) i physical deps p deps'.
Proof.
  intros Hs (H1 & H2 & H3 & H4). split_and!.
  - intros [|k] g sql; cbn; [|rewrite Nat.add_succ_r; apply H1].
    intros _. rewrite Nat.add_0_r. intros E Hne. rewrite E in Hs. done.
  - rewrite H2, orb_true_iff, negb_true_iff. unfold physical_at. split.
    + intros [[Hp|Hf]|(k & g & Hk)]; [by left|right; exists 0%nat, f; by rewrite Nat.add_0_r|].
      right. exists (S k), g. by rewrite Nat.add_succ_r.
    + intros [Hp|([|k] & g & Hk & Hd & Hr)]; [by left; left| |].
      * cbn in Hk. simplify_eq. by left; right.
      * right. exists k, g. by rewrite Nat.add_succ_r in Hd.
  - intros c [Hc|Hc]%H3; [by left|right; cbn; lia].
  - intros c j. rewrite H4. split.
    + intros [He|(k & r & -> & Hr & Hj)]; [by left|]. right. exists (S k), r.
      rewrite reads_at_cons. split_and!; [lia|done..].
    + intros [He|([|k] & r & -> & Hr & Hj)]; [by left| |].
      * destruct Hr as (g & sql & _ & E & Hne & _). rewrite Nat.add_0_r in E. rewrite E in Hs. done.
      * right. exists k, r. rewrite reads_at_cons in Hr. split_and!; [lia|done..].
Qed.

Lemma loop_done_insert columns generated_sql f fields i physical deps sql r p deps' :
  generated_sql !! i = Some sql → sql ≠ [] → generated_column columns f sql = Ok r → i ∉ dom deps →
  loop_done columns generated_sql fields (S i) physical (if bool_decide (r = ∅) then deps else <[i := r]> deps) p deps' →
  loop_done columns generated_sql (f :: fields) i physical deps p deps'.
Proof.
  intros Hs Hne Hg Hi (H1 & H2 & H3 & H4). split_and!.
  - intros [|k] g sql'; cbn; [|rewrite Nat.add_succ_r; apply H1].
    intros [= <-]. rewrite Nat.add_0_r, Hs. intros [= <-] _. by exists r.
  - rewrite H2. unfold physical_at. split.
    + intros [Hp|(k & g & Hk)]; [by left|]. right. exists (S k), g. by rewrite Nat.add_succ_r.
    + intros [Hp|([|k] & g & Hk & Hd & Hr)]; [by left| |].
      * rewrite Nat.add_0_r, Hs in Hd. done.
      * right. exists k, g. by rewrite Nat.add_succ_r in Hd.
  - intros c [Hc|Hc]%H3; [|right; cbn; lia]. case_bool_decide; [by left|].
    apply dom_insert, elem_of_union in Hc as [->%elem_of_singleton|Hc]; [right; cbn; lia|by left].
  - intros c j. rewrite H4.
    assert (edge (if bool_decide (r = ∅) then deps else <[i:=r]> deps) c j ↔ edge deps c j ∨ (c = i ∧ j ∈ r)) as ->.
    { case_bool_decide as Hr; [set_solver|by apply edge_insert]. }
    split.
    + intros [[He|[-> Hj]]|(k & r' & -> & Hr & Hj)]; [by left| |].
      * right. exists 0%nat, r. split_and!; [lia| |done]. exists f, sql. by rewrite Nat.add_0_r.
      * right. exists (S k), r'. rewrite reads_at_cons. split_and!; [lia|done..].
    + intros [He|([|k] & r' & -> & Hr & Hj)]; [by left; left| |].
      * destruct Hr as (g & sql' & [= <-] & E & _ & Hg'). rewrite Nat.add_0_r, Hs in E.
        injection E as <-. rewrite Hg in Hg'. injection Hg' as <-. left; right. split; [lia|done].
      * right. exists k, r'. rewrite reads_at_cons in Hr. split_and!; [lia|done..].
Qed.

Lemma generated_loop_spec columns generated_sql fields i physical deps :
  (∀ c, c ∈ dom deps → (c < i)%nat) →
  match generated_loop columns generated_sql i fields physical deps with
  | Ok (p, deps') => loop_done columns generated_sql fields i physical deps p deps'
  | Throw _ => ¬ all_accepted columns generated_sql fields i
  end.
Proof.
  revert i physical deps. induction fields as [|f fields IH]; intros i physical deps Hd; cbn [generated_loop].
  { split_and!.
    - done.
    - split; [by left|]. by intros [?|(k & g & Hk & _)].
    - by left.
    - intros c j. split; [by left|]. by intros [?|(k & r & _ & (g & sql & Hk & _) & _)]. }
  assert (¬ all_accepted columns generated_sql fields (S i) → ¬ all_accepted columns generated_sql (f :: fields) i) as Hno.
  { intros Hn Ha. apply Hn. intros k g sql Hk Hs. apply (Ha (S k) g sql Hk). by rewrite Nat.add_succ_r. }
  destruct (default [] (generated_sql !! i)) as [|x s] eqn:Es.
  - specialize (IH (S i) (physical || negb (is_row_id f)) deps ltac:(intros c Hc%Hd; lia)).
    destruct (generated_loop _ _ _ _ _ _) as [[p deps']|e]; [by apply (loop_done_skip _ _ f)|by apply Hno].
  - destruct (generated_sql !! i) as [sql|] eqn:Ei; [|done]. cbn in Es. subst sql.
    unfold mbind, result_bind. destruct (where_ f (generated_column columns f (x :: s))) as [r|e] eqn:Ew.
    + apply where_Ok in Ew. assert (i ∉ dom deps) as Hi by (intros Hc%Hd; lia).
      specialize (IH (S i) physical (if bool_decide (r = ∅) then deps else <[i:=r]> deps)).
      destruct (generated_loop _ _ _ _ _ _) as [[p deps']|e].
      * eapply loop_done_insert; [done..|]. apply IH. intros c Hc. case_bool_decide; [apply Hd in Hc; lia|].
        apply dom_insert, elem_of_union in Hc as [->%elem_of_singleton|Hc%Hd]; lia.
      * apply Hno, IH. intros c Hc. case_bool_decide; [apply Hd in Hc; lia|].
        apply dom_insert, elem_of_union in Hc as [->%elem_of_singleton|Hc%Hd]; lia.
    + intros Ha. destruct (Ha 0%nat f (x :: s) eq_refl) as [r Hr]; [by rewrite Nat.add_0_r|done|].
      assert (where_ f (generated_column columns f (x :: s)) = Ok r) by by apply where_Ok. congruence.
Qed.

Lemma tc_impl {B} (R S : relation B) : (∀ x y, R x y → S x y) → ∀ x y, tc R x y → tc S x y.
Proof. intros H x y Ht. induction Ht; [apply tc_once; auto|eapply tc_l; eauto]. Qed.

(** The dependencies the loop has found are the names in the expressions. *)
Lemma edges_reads columns generated_sql p deps :
  loop_done columns generated_sql columns 0 false ∅ p deps →
  (∀ c j, edge deps c j ↔ reads columns generated_sql c j) ∧ in_range columns deps.
Proof.
  intros (Hall & _ & Hdom & Hedge).
  assert (∀ c j, edge deps c j ↔ reads columns generated_sql c j) as Hreads.
  { intros c j. rewrite Hedge. unfold edge at 1. rewrite lookup_empty. split.
    - intros [He|(k & r & -> & (f & sql & Hf & Hs & Hne & Hg) & Hj)]; [set_solver|].
      destruct (generated_column_Ok _ _ _ _ Hg) as (node & Hn & Hr). destruct (proj1 (Hr j) Hj) as (name & g & ? & ? & ?).
      exists f, sql, node, name, g. by split_and!.
    - intros (f & sql & node & name & g & Hf & Hs & Hne & Hn & Hname & Hg & Heq).
      destruct (Hall c f sql Hf Hs Hne) as [r Hr]. right. exists c, r. split_and!; [done|by exists f, sql|].
      destruct (generated_column_Ok _ _ _ _ Hr) as (node' & Hn' & Hj). assert (node' = node) as E by congruence.
      rewrite E in Hj. apply Hj. exists name, g. by split_and!. }
  split; [done|split]; [intros i [Hi|Hi]%Hdom; [set_solver|lia]|].
  intros i j (f & sql & node & name & g & _ & _ & _ & _ & _ & Hg & _)%Hreads. by eapply lookup_lt_Some.
Qed.

Lemma existsb_generated generated_sql :
  existsb (λ sql, negb (bool_decide (sql = []))) generated_sql = true ↔ Exists (λ sql : bytes, sql ≠ []) generated_sql.
Proof.
  rewrite existsb_exists, Exists_exists. apply exist_proper. intros sql.
  by rewrite list_elem_of_In, negb_true_iff, bool_decide_eq_false.
Qed.

(** The generated columns of a table are accepted exactly when each one's
    expression is, and -- where there is one at all -- the table has a stored
    column, and no generated column depends on itself through any chain of
    the names in the expressions, compared without their case. *)
Theorem generated_columns_accepted columns generated_sql :
  validate_generated_columns columns generated_sql = Ok tt ↔
  all_accepted columns generated_sql columns 0 ∧
  (Exists (λ sql, sql ≠ []) generated_sql →
     physical_at generated_sql columns 0 ∧ ∀ c, ¬ tc (reads columns generated_sql) c c).
Proof.
  unfold validate_generated_columns.
  pose proof (generated_loop_spec columns generated_sql columns 0 false ∅ ltac:(set_solver)) as Hl.
  destruct (generated_loop _ _ _ _ _ _) as [[physical deps]|e]; cbn [mbind result_bind]; [|by split; [done|intros []]].
  destruct (edges_reads _ _ _ _ Hl) as [Hreads Hrange]. destruct Hl as (Hall & Hp & _).
  pose proof (walk_acyclic columns deps Hrange) as Hw.
  assert (∀ c, tc (edge deps) c c ↔ tc (reads columns generated_sql) c c) as Htc.
  { intros c. split; apply tc_impl; intros x y; apply Hreads. }
  rewrite <- existsb_generated. destruct (existsb _ generated_sql); cbn [negb]; [|by split].
  destruct physical; cbn [negb].
  - assert (physical_at generated_sql columns 0) as Hph by (destruct Hp as [Hp _]; by destruct Hp).
    destruct (each _ _ _) as [st|e]; cbn [mbind result_bind].
    + split; [|done]. intros _. split; [done|]. intros _. split; [done|]. intros c Hc%Htc. by apply (Hw c).
    + split; [done|]. intros [_ Hc]. destruct Hw as [_ [c Hcyc]]. apply Htc in Hcyc.
      destruct (Hc eq_refl) as [_ Hno]. by destruct (Hno c).
  - split; [done|]. intros [_ Hc]. destruct (Hc eq_refl) as [Hph _]. destruct Hp as [_ Hp].
    discriminate Hp. by right.
Qed.

End columns.

(** The walk over an expression's tree accepts it exactly when the tree is
    at most 64 levels under its root, has at most 4096 nodes and every node is
    in the grammar; it then has counted all of them and collected exactly the
    names of the tree's columns. *)
Theorem generated_node_accepted n k refs :
  generated_node n 0 0 ∅ = Ok (k, refs) ↔
  (height n ≤ 64)%nat ∧ k = length (subtrees n) ∧ (k ≤ 4096)%nat ∧ Forall fine (subtrees n) ∧
  refs = list_to_set (lower <$> column_names n).
Proof.
  pose proof (generated_node_walks n 0 0 ∅ ltac:(lia)) as Hw.
  assert (list_to_set (lower <$> column_names n) =@{gset bytes}
    list_to_set (lower ∘ n_text <$> filter (λ m, n_kind m = Column) (subtrees n)) ∪ ∅) as ->.
  { unfold column_names. by rewrite <- list_fmap_compose, (right_id_L ∅ (∪)). }
  destruct (generated_node n 0 0 ∅) as [[k' refs']|e]; unfold walks in Hw.
  - destruct Hw as (H1 & -> & H3 & H4 & ->). split; [intros [= <- <-]; by split_and!|].
    by intros (_ & -> & _ & _ & ->).
  - split; [done|]. intros (H1 & -> & H3 & H4 & _). destruct Hw as [_ [Hw|[Hw|Hw]]]; [lia|simpl in Hw; lia|done].
Qed.

End SqlGenerated.
