(* ===== verification/Constraints.v ===== *)
(** * Canonical constraint records ([src/constraints.cpp])

    A constraint as an IPC record: [constraint_record] makes it, and
    [decode_constraint_record] reads it; [serve_schema] makes the nullability of
    a served table agree with its records; [validate_records] holds them to the
    rules of the engine; the catalog capabilities that are offered, decoded and
    selected.  Theorems about them are in [ConstraintsSpec]. *)

From S2P Require Import Prelude Text Arrow ArrowRecord Wire SqlScalar.

Module Constraints.
Import Wire.

Definition invalid {A} (message : string) : result A := Throw (Invalid_argument message).

Definition column_path : Type := list bytes.

(** ** Enumerations *)

Inductive ConstraintKind : Type := NotNull | PrimaryKey | Unique | Check_ | ForeignKey.
Inductive ConstraintEnforcement : Type := Enforced | MetadataOnly.
Inductive ConstraintValidation : Type := AllRows | FutureWrites | Unvalidated.

#[global] Instance ConstraintKind_eq_dec : EqDecision ConstraintKind.
Proof. solve_decision. Defined.
#[global] Instance ConstraintEnforcement_eq_dec : EqDecision ConstraintEnforcement.
Proof. solve_decision. Defined.
#[global] Instance ConstraintValidation_eq_dec : EqDecision ConstraintValidation.
Proof. solve_decision. Defined.

Definition kKinds : list (ConstraintKind * string) :=
  [(NotNull, "NOT_NULL"); (PrimaryKey, "PRIMARY_KEY"); (Unique, "UNIQUE"); (Check_, "CHECK"); (ForeignKey, "FOREIGN_KEY")]%string.
Definition kEnforcements : list (ConstraintEnforcement * string) :=
  [(Enforced, "ENFORCED"); (MetadataOnly, "METADATA_ONLY")]%string.
Definition kValidations : list (ConstraintValidation * string) :=
  [(AllRows, "ALL_ROWS"); (FutureWrites, "FUTURE_WRITES"); (Unvalidated, "UNVALIDATED")]%string.

Fixpoint spell {E} `{EqDecision E} (table : list (E * string)) (e : E) : result string :=
  match table with
  | [] => invalid "unknown constraint enum value"
  | (key, name) :: table => if bool_decide (key = e) then Ok name else spell table e
  end.

Fixpoint parse {E} (table : list (E * string)) (value : bytes) (what : string) : result E :=
  match table with
  | [] => invalid ("unknown constraint " +:+ what +:+ ": " +:+ str value)
  | (key, name) :: table => if bool_decide (value = bs name) then Ok key else parse table value what
  end.

Definition kind_string (k : ConstraintKind) : result string := spell kKinds k.
Definition enforcement_string (e : ConstraintEnforcement) : result string := spell kEnforcements e.
Definition validation_string (v : ConstraintValidation) : result string := spell kValidations v.

(** ** Checks of names and paths *)

Definition add_component (out component : bytes) : bytes :=
  match out with [] => component | _ => out ++ ["."%char] ++ component end.
Definition path_string (path : column_path) : string := str (fold_left add_component path []).

Definition has_nul (s : bytes) : bool := bool_decide (NUL ∈ s).

Definition require_name (value : bytes) (what : string) : result () :=
  throw_if (bool_decide (length value = 0%nat) || has_nul value) (Invalid_argument (what +:+ " must be nonempty without NUL")).

Fixpoint require_names (values : list bytes) (what : string) : result () :=
  match values with [] => Ok tt | v :: values => require_name v what;; require_names values what end.

Fixpoint require_paths_loop (paths : list column_path) (seen : gset column_path) : result () :=
  match paths with
  | [] => Ok tt
  | path :: paths =>
      throw_if (bool_decide (length path = 0%nat)) (Invalid_argument "constraint column path must be nonempty");;
      require_names path "column path component";;
      throw_if (bool_decide (path ∈ seen)) (Invalid_argument ("duplicate constraint column path: " +:+ path_string path));;
      require_paths_loop paths ({[path]} ∪ seen)
  end.
Definition require_paths (paths : list column_path) : result () := require_paths_loop paths ∅.

(** ** The schemas of the records ([vgi_protocol_schemas.hpp]) *)

Definition utf8 (name : string) (nullable : bool) : field := Field name T_string nullable [].
Definition binary (name : string) (nullable : bool) : field := Field name T_binary nullable [].
Definition utf8_list (name : string) : field := Field name (list_of T_string) false [].
Definition utf8_list_list (name : string) : field := Field name (list_of (list_of T_string)) false [].
Definition enum_type : dtype := T_dictionary T_int16 T_string.
Definition enum (name : string) : field := Field name enum_type false [].

Definition CatalogObjectRefSchema : list field :=
  [utf8 "kind" false; utf8_list "schema_path"; utf8 "name" false; utf8 "owner_table" true].
Definition QueryEvaluationContextSchema : list field :=
  [utf8 "timezone" false; utf8 "collation" false; utf8 "default_order" false; utf8 "default_null_order" false;
   Field "preserve_insertion_order" T_bool false []].
Definition SqlExpressionSchema : list field :=
  [utf8 "sql" false; utf8 "profile" false; utf8_list "schema_path";
   Field "evaluation_context" (T_struct QueryEvaluationContextSchema) false []].
Definition ForeignKeyDefinitionSchema : list field :=
  [binary "referenced_table" false; utf8_list_list "referenced_column_paths"; enum "match"; enum "on_update";
   enum "on_delete"].
Definition ConstraintDefinitionSchema : list field :=
  [enum "kind"; utf8_list_list "column_paths"; utf8 "declared_name" true; binary "check_expression" true;
   binary "foreign_key" true].
Definition ConstraintInfoSchema : list field :=
  [binary "ref" false; binary "definition" false; enum "enforcement"; enum "validation";
   binary "referenced_constraint" true].

(** ** What a constraint says *)

Record ConstraintReference := mkReference {
  ref_schema_path : list bytes;
  ref_table : bytes;
  ref_columns : list column_path;
  ref_constraint_id : bytes;
}.

Record ConstraintRecordSpec := mkSpec {
  cs_schema_path : list bytes;
  cs_table : bytes;
  cs_id : bytes;
  cs_kind : ConstraintKind;
  cs_columns : list column_path;
  cs_enforcement : option ConstraintEnforcement;
  cs_validation : option ConstraintValidation;
  cs_declared_name : option bytes;
  cs_check_sql : option bytes;
  cs_references : option ConstraintReference;
}.

Record ConstraintRecordView := mkView {
  cv_schema_path : list bytes;
  cv_table : bytes;
  cv_id : bytes;
  cv_kind : ConstraintKind;
  cv_columns : list column_path;
  cv_enforcement : ConstraintEnforcement;
  cv_validation : ConstraintValidation;
  cv_declared_name : option bytes;
  cv_check_sql : option bytes;
  cv_references : option ConstraintReference;
}.

Record DecodedRecord := mkDecoded {
  view : ConstraintRecordView;
  key_schema_path : list bytes;
  key_owner : bytes;
  has_key : bool;
  match_ : bytes;
  on_update : bytes;
  on_delete : bytes;
  check_profile : bytes;
  check_schema_path : list bytes;
  default_context : bool;
}.

Definition CONSTRAINT_RECORDS_READ : bytes := bs "vgi.constraint.records.read.v1".
Definition SCALAR_EXPRESSION_READ : bytes := bs "vgi.expression.duckdb.scalar.v1".
Definition CONSTRAINT_CREATE : bytes := bs "vgi.constraint.create.v1".
Definition CONSTRAINT_ENFORCE : bytes := bs "vgi.constraint.enforce.v1".

Section records.
Context `{Arrow} `{ArrowRecord}.

(** ** Writing *)

Definition optional_binary (o : option bytes) : cell :=
  match o with Some s => Cell_binary s | None => Cell_null end.

Definition object_ref (kind : bytes) (schema_path : list bytes) (name : bytes) (owner : option bytes) : result bytes :=
  b ← build CatalogObjectRefSchema None
        [("kind", Cell_string kind); ("schema_path", Cell_string_list schema_path); ("name", Cell_string name);
         ("owner_table", Cell_optional_string owner)]%string;
  encode_ipc b.

(** What [constraint_record] refuses before it writes anything. *)
Definition check_spec (spec : ConstraintRecordSpec) : result (ConstraintEnforcement * ConstraintValidation) :=
  let check := bool_decide (cs_kind spec = Check_) in
  let foreign := bool_decide (cs_kind spec = ForeignKey) in
  throw_if (bool_decide (length (cs_schema_path spec) = 0%nat)) (Invalid_argument "constraint schema_path is empty");;
  require_names (cs_schema_path spec) "schema path component";;
  require_name (cs_table spec) "constraint table";;
  require_name (cs_id spec) "constraint id";;
  match cs_enforcement spec, cs_validation spec with
  | Some e, Some v =>
      throw_if (negb (Bool.eqb check (bool_decide (is_Some (cs_check_sql spec)))))
        (Invalid_argument "check_sql is required for CHECK and only CHECK");;
      throw_if (check && bool_decide (cs_check_sql spec = Some [])) (Invalid_argument "check_sql is empty");;
      kind ← kind_string (cs_kind spec);
      throw_if (if check then negb (bool_decide (length (cs_columns spec) = 0%nat))
                else bool_decide (length (cs_columns spec) = 0%nat))
        (Invalid_argument (if check then "CHECK takes no column paths" else kind +:+ " requires column paths"));;
      throw_if (bool_decide (cs_kind spec = NotNull) && negb (bool_decide (length (cs_columns spec) = 1%nat)))
        (Invalid_argument "NOT_NULL requires exactly one column path");;
      require_paths (cs_columns spec);;
      throw_if (negb (Bool.eqb foreign (bool_decide (is_Some (cs_references spec)))))
        (Invalid_argument "references is required for FOREIGN_KEY and only FOREIGN_KEY");;
      (match cs_declared_name spec with Some n => require_name n "declared_name" | None => Ok tt end);;
      Ok (e, v)
  | _, _ => invalid ("constraint '" +:+ str (cs_id spec) +:+ "': enforcement and validation must be stated explicitly")
  end.

Definition default_context_cells : list (string * cell) :=
  [("timezone", Cell_string (bs "UTC")); ("collation", Cell_string (bs "binary"));
   ("default_order", Cell_string (bs "asc")); ("default_null_order", Cell_string (bs "nulls_last"));
   ("preserve_insertion_order", Cell_bool true)]%string.

(** The [SqlExpression] of a CHECK. *)
Definition check_expression (sql : bytes) (schema_path : list bytes) : result bytes :=
  context ← build QueryEvaluationContextSchema None default_context_cells;
  context_struct ← match struct_array (b_columns context) (b_schema context) with
                   | inl status => fail status
                   | inr a => Ok a
                   end;
  b ← build SqlExpressionSchema None
        [("sql", Cell_string sql); ("profile", Cell_string SCALAR_EXPRESSION_READ);
         ("schema_path", Cell_string_list schema_path); ("evaluation_context", Cell_array (Some context_struct))]%string;
  encode_ipc b.

(** The [ForeignKeyDefinition] and the reference to the key. *)
Definition foreign_key (ref : ConstraintReference) (local : list column_path) : result (bytes * bytes) :=
  throw_if (bool_decide (length (ref_schema_path ref) = 0%nat)) (Invalid_argument "foreign key schema_path is empty");;
  require_name (ref_table ref) "foreign key referenced table";;
  require_name (ref_constraint_id ref) "foreign key referenced constraint_id";;
  require_paths (ref_columns ref);;
  throw_if (negb (bool_decide (length (ref_columns ref) = length local)))
    (Invalid_argument "foreign key local and referenced arity must match");;
  table ← object_ref (bs "table") (ref_schema_path ref) (ref_table ref) None;
  b ← build ForeignKeyDefinitionSchema None
        [("referenced_table", Cell_binary table); ("referenced_column_paths", Cell_string_list_list (ref_columns ref));
         ("match", Cell_enum (bs "SIMPLE")); ("on_update", Cell_enum (bs "NO_ACTION"));
         ("on_delete", Cell_enum (bs "NO_ACTION"))]%string;
  fk ← encode_ipc b;
  key ← object_ref (bs "constraint") (ref_schema_path ref) (ref_constraint_id ref) (Some (ref_table ref));
  Ok (fk, key).

Definition definition_cells (kind : string) (spec : ConstraintRecordSpec) (check fk : option bytes) : list (string * cell) :=
  [("kind", Cell_enum (bs kind)); ("column_paths", Cell_string_list_list (cs_columns spec));
   ("declared_name", Cell_optional_string (cs_declared_name spec)); ("check_expression", optional_binary check);
   ("foreign_key", optional_binary fk)]%string.

Definition constraint_record (spec : ConstraintRecordSpec) : result bytes :=
  '(e, v) ← check_spec spec;
  check ← (match cs_kind spec, cs_check_sql spec with
           | Check_, Some sql => c ← check_expression sql (cs_schema_path spec); Ok (Some c)
           | _, _ => Ok None
           end : result (option bytes));
  foreign ← (match cs_kind spec, cs_references spec with
             | ForeignKey, Some ref => f ← foreign_key ref (cs_columns spec); Ok (Some f)
             | _, _ => Ok None
             end : result (option (bytes * bytes)));
  kind ← kind_string (cs_kind spec);
  definition ← set_cells (definition_cells kind spec check (fst <$> foreign)) (new_builder ConstraintDefinitionSchema None);
  ref ← object_ref (bs "constraint") (cs_schema_path spec) (cs_id spec) (Some (cs_table spec));
  batch ← finish definition;
  definition ← encode_ipc batch;
  enforcement ← enforcement_string e;
  validation ← validation_string v;
  info ← build ConstraintInfoSchema None
           [("ref", Cell_binary ref); ("definition", Cell_binary definition); ("enforcement", Cell_enum (bs enforcement));
            ("validation", Cell_enum (bs validation)); ("referenced_constraint", optional_binary (snd <$> foreign))]%string;
  encode_ipc info.

(** ** Reading *)

(** [std::exception], of any kind, becomes a refusal of the record. *)
Definition message_of (e : exn) : option string :=
  match e with
  | Invalid_argument m | Runtime_error m | Attach_ticket_invalid m | Attach_ticket_expired m | Json_error m => Some m
  | Invalid_request m _ | Action_denied m | Not_implemented m => Some m
  | Opaque_not_recognized m => Some m
  | Undefined_behaviour _ | Out_of_fuel => None
  end.

Definition decode_record (b : bytes) (schema : list field) (what : string) : result batch :=
  o ← (match decode_ipc b with
       | Throw e => match message_of e with
                    | Some m => invalid ("invalid " +:+ what +:+ " record: " +:+ m)
                    | None => Throw e
                    end
       | r => r
       end : result (option batch));
  match o with
  | Some batch =>
      if (b_rows batch =? 1) && schema_equals false (b_schema batch) schema then Ok batch
      else invalid ("invalid " +:+ what +:+ " record")
  | None => invalid ("invalid " +:+ what +:+ " record")
  end.

(** A cast that the schema check has made safe. *)
Definition bad_cast {A} : result A := Throw (Undefined_behaviour "static_pointer_cast").

Fixpoint get_components (field : string) (l : list value) : result column_path :=
  match l with
  | [] => Ok []
  | V_null :: _ => invalid ("null element in " +:+ field)
  | V_text s :: l => p ← get_components field l; Ok (s :: p)
  | _ :: _ => bad_cast
  end.

Fixpoint get_path_list (field : string) (l : list value) : result (list column_path) :=
  match l with
  | [] => Ok []
  | V_null :: _ => invalid ("null element in " +:+ field)
  | V_list c :: l => p ← get_components field c; ps ← get_path_list field l; Ok (p :: ps)
  | _ :: _ => bad_cast
  end.

Definition get_paths (b : batch) (field : string) : result (list column_path) :=
  a ← column (Some b) field;
  match first a with
  | V_null => invalid ("null " +:+ field)
  | V_list l => get_path_list field l
  | _ => bad_cast
  end.

(** A member of the evaluation context, as text; a null is the empty text. *)
Definition context_text (fs : list field) (vs : list value) (name : string) : bytes :=
  match get_field_index fs name ≫= λ i, vs !! i with Some (V_text s) => s | _ => [] end.
Definition context_bool (fs : list field) (vs : list value) (name : string) : bool :=
  match get_field_index fs name ≫= λ i, vs !! i with Some (V_bool b) => b | _ => false end.

Definition is_default_context (a : array) : bool :=
  match a_type a, first a with
  | T_struct fs, V_struct vs =>
      bool_decide (context_text fs vs "timezone" = bs "UTC") && bool_decide (context_text fs vs "collation" = bs "binary") &&
      bool_decide (context_text fs vs "default_order" = bs "asc") &&
      bool_decide (context_text fs vs "default_null_order" = bs "nulls_last") &&
      context_bool fs vs "preserve_insertion_order"
  | _, _ => false
  end.

(** The CHECK part: the text, and what is only checked. *)
Definition decode_check (definition : batch) : result (option (bytes * bytes * list bytes * bool)) :=
  o ← get_optional_binary (Some definition) "check_expression";
  match o with
  | None => Ok None
  | Some check =>
      expression ← decode_record check SqlExpressionSchema "SqlExpression";
      sql ← get_string (Some expression) "sql";
      profile ← get_string (Some expression) "profile";
      path ← get_string_list (Some expression) "schema_path";
      context ← column (Some expression) "evaluation_context";
      Ok (Some (sql, profile, path, is_default_context context))
  end.

Record foreign_part := mkForeign {
  fp_reference : ConstraintReference;
  fp_match : bytes;
  fp_on_update : bytes;
  fp_on_delete : bytes;
  fp_key : option (list bytes * bytes);
}.

Definition decode_key (info : batch) : result (option (bytes * list bytes * bytes)) :=
  o ← get_optional_binary (Some info) "referenced_constraint";
  match o with
  | None => Ok None
  | Some key =>
      target ← decode_record key CatalogObjectRefSchema "CatalogObjectRef";
      kind ← get_string (Some target) "kind";
      if negb (bool_decide (kind = bs "constraint"))
      then invalid "referenced_constraint is not a constraint reference" else
      name ← get_string (Some target) "name";
      path ← get_string_list (Some target) "schema_path";
      owner ← get_optional_string (Some target) "owner_table";
      Ok (Some (name, path, default [] owner))
  end.

Definition decode_foreign (definition info : batch) : result (option foreign_part) :=
  o ← get_optional_binary (Some definition) "foreign_key";
  match o with
  | None =>
      key ← get_optional_binary (Some info) "referenced_constraint";
      match key with
      | Some _ => invalid "referenced_constraint is set on a non-FOREIGN_KEY record"
      | None => Ok None
      end
  | Some foreign =>
      fk ← decode_record foreign ForeignKeyDefinitionSchema "ForeignKeyDefinition";
      table ← get_binary (Some fk) "referenced_table";
      target ← decode_record table CatalogObjectRefSchema "CatalogObjectRef";
      kind ← get_string (Some target) "kind";
      owner ← (if negb (bool_decide (kind = bs "table")) then Ok (Some [])
               else get_optional_string (Some target) "owner_table" : result (option bytes));
      if bool_decide (is_Some owner) then invalid "foreign key referenced_table is not a table reference" else
      path ← get_string_list (Some target) "schema_path";
      name ← get_string (Some target) "name";
      columns ← get_paths fk "referenced_column_paths";
      m ← get_enum (Some fk) "match";
      u ← get_enum (Some fk) "on_update";
      d ← get_enum (Some fk) "on_delete";
      key ← decode_key info;
      Ok (Some match key with
               | Some (id, kpath, kowner) => mkForeign (mkReference path name columns id) m u d (Some (kpath, kowner))
               | None => mkForeign (mkReference path name columns []) m u d None
               end)
  end.

Definition decode_constraint_record (b : bytes) : result DecodedRecord :=
  info ← decode_record b ConstraintInfoSchema "ConstraintInfo";
  r ← get_binary (Some info) "ref";
  ref ← decode_record r CatalogObjectRefSchema "CatalogObjectRef";
  rkind ← get_string (Some ref) "kind";
  if negb (bool_decide (rkind = bs "constraint")) then invalid "ConstraintInfo.ref is not a constraint reference" else
  d ← get_binary (Some info) "definition";
  definition ← decode_record d ConstraintDefinitionSchema "ConstraintDefinition";
  schema_path ← get_string_list (Some ref) "schema_path";
  table ← get_optional_string (Some ref) "owner_table";
  id ← get_string (Some ref) "name";
  kind_text ← get_enum (Some definition) "kind";
  kind ← parse kKinds kind_text "kind";
  columns ← get_paths definition "column_paths";
  enforcement_text ← get_enum (Some info) "enforcement";
  enforcement ← parse kEnforcements enforcement_text "enforcement";
  validation_text ← get_enum (Some info) "validation";
  validation ← parse kValidations validation_text "validation";
  declared_name ← get_optional_string (Some definition) "declared_name";
  check ← decode_check definition;
  foreign ← decode_foreign definition info;
  Ok {| view := {| cv_schema_path := schema_path; cv_table := default [] table; cv_id := id; cv_kind := kind;
                   cv_columns := columns; cv_enforcement := enforcement; cv_validation := validation;
                   cv_declared_name := declared_name;
                   cv_check_sql := (λ c : bytes * bytes * list bytes * bool, c.1.1.1) <$> check;
                   cv_references := fp_reference <$> foreign |};
        key_schema_path := default [] (f ← foreign; fst <$> fp_key f);
        key_owner := default [] (f ← foreign; snd <$> fp_key f);
        has_key := bool_decide (is_Some (foreign ≫= fp_key));
        match_ := default [] (fp_match <$> foreign);
        on_update := default [] (fp_on_update <$> foreign);
        on_delete := default [] (fp_on_delete <$> foreign);
        check_profile := default [] ((λ c : bytes * bytes * list bytes * bool, c.1.1.2) <$> check);
        check_schema_path := default [] ((λ c : bytes * bytes * list bytes * bool, c.1.2) <$> check);
        default_context := default false ((λ c : bytes * bytes * list bytes * bool, c.2) <$> check) |}.

Definition read_constraint_record (b : bytes) : result ConstraintRecordView :=
  d ← decode_constraint_record b; Ok (view d).

End records.

(** ** The served schema *)

Definition row_id (f : field) : bool := SqlScalar.has_key f "is_row_id".

Definition requires (k : ConstraintKind) : bool := match k with NotNull | PrimaryKey => true | _ => false end.

Definition required_paths (records : list DecodedRecord) : gset column_path :=
  foldr (λ r required, if requires (cv_kind (view r)) then list_to_set (cv_columns (view r)) ∪ required else required)
    ∅ records.

(** The metadata of an extension or logical type. *)
Definition kLogicalType : bytes := bs "vgi.logical_type.".
Definition marks_type (key : string) : bool :=
  bool_decide (key = "ARROW:extension:name"%string) || bool_decide (take (length kLogicalType) (bs key) = kLogicalType).
Definition ordinary (f : field) : bool := negb (existsb marks_type (f_metadata f).*1).

Definition ordinary_struct_children (f : field) : option (list field) :=
  match f_type f with
  | T_struct fs => if ordinary f then Some fs else None
  | _ => None
  end.

Fixpoint serve_field (f : field) (path : column_path) (required : gset column_path) {struct f} : field :=
  match f with
  | Field name t nullable metadata =>
      Field name
        (match t with
         | T_struct fs =>
             if ordinary f then
               T_struct ((fix each (fs : list field) : list field :=
                            match fs with
                            | [] => []
                            | c :: fs => serve_field c (path ++ [bs (f_name c)]) required :: each fs
                            end) fs)
             else t
         | _ => t
         end)
        (bool_decide (path ∉ required)) metadata
  end.

Definition serve_schema (columns : list field) (required : gset column_path) : list field :=
  map (λ f, if row_id f then f else serve_field f [bs (f_name f)] required) columns.

(** The children of a struct that have the name: the one there is. *)
Fixpoint nested_loop (children : list field) (name : bytes) (found : option field) : option field :=
  match children with
  | [] => found
  | c :: children =>
      if negb (bool_decide (bs (f_name c) = name)) then nested_loop children name found
      else match found with Some _ => None | None => nested_loop children name (Some c) end
  end.
Definition nested (children : list field) (name : bytes) : option field := nested_loop children name None.

(** A column path followed down from the field that its first component names. *)
Fixpoint descend (f : field) (path : column_path) : option field :=
  match path with
  | [] => Some f
  | name :: path =>
      match ordinary_struct_children f with
      | Some children => match nested children name with Some g => descend g path | None => None end
      | None => None
      end
  end.

(** Where a column's nullability disagrees with the required paths. *)
Fixpoint walk_field (required : gset column_path) (path : column_path) (f : field) {struct f} : option column_path :=
  match f with
  | Field name t nullable metadata =>
      if negb (Bool.eqb nullable (bool_decide (path ∉ required))) then Some path
      else
        match t with
        | T_struct fs =>
            if ordinary f then
              (fix each (fs : list field) : option column_path :=
                 match fs with
                 | [] => None
                 | c :: fs => match walk_field required (path ++ [bs (f_name c)]) c with
                              | Some p => Some p
                              | None => each fs
                              end
                 end) fs
            else None
        | _ => None
        end
  end.

Fixpoint walk_columns (required : gset column_path) (columns : list field) : option column_path :=
  match columns with
  | [] => None
  | f :: columns =>
      if row_id f then walk_columns required columns
      else match walk_field required [bs (f_name f)] f with
           | Some p => Some p
           | None => walk_columns required columns
           end
  end.

(** ** The engine's rules *)

Section validation.
Context `{Arrow} `{ArrowRecord}.

Fixpoint decode_all (constraints : list bytes) : result (list DecodedRecord) :=
  match constraints with
  | [] => Ok []
  | b :: constraints => r ← decode_constraint_record b; l ← decode_all constraints; Ok (r :: l)
  end.

Definition served_columns (columns : list field) (constraints : list bytes) : result (list field) :=
  records ← decode_all constraints; Ok (serve_schema columns (required_paths records)).

Definition top_level (columns : list field) (name : bytes) : option field :=
  match get_all_field_indices columns (str name) with
  | [i] => match columns !! i with Some f => if row_id f then None else Some f | None => None end
  | _ => None
  end.

(** Sizes in bytes of what is decoded, and the decoding. *)
Fixpoint decode_checked (prefix : string) (constraints : list bytes) (total : Z) : result (list DecodedRecord) :=
  match constraints with
  | [] => Ok []
  | b :: constraints =>
      let total := (total + Z.of_nat (length b)) mod 2 ^ 64 in
      if bool_decide (length b = 0%nat) || (8 * 1024 * 1024 <? total)
      then invalid (prefix +:+ "constraint records must be nonempty and total at most 8 MiB")
      else
        r ← (match decode_constraint_record b with
             | Throw (Invalid_argument m) => invalid (prefix +:+ m)
             | r => r
             end : result DecodedRecord);
        l ← decode_checked prefix constraints total; Ok (r :: l)
  end.

Definition identifier (bad : string) (value : bytes) (what : string) : result () :=
  throw_if (bool_decide (length value = 0%nat) || (4096 <? Z.of_nat (length value)) || has_nul value)
    (Invalid_argument (bad +:+ "has an invalid " +:+ what)).
Fixpoint identifiers (bad : string) (values : list bytes) (what : string) : result () :=
  match values with [] => Ok tt | v :: values => identifier bad v what;; identifiers bad values what end.

Fixpoint check_paths (bad : string) (paths : list column_path) : result () :=
  match paths with
  | [] => Ok tt
  | path :: paths =>
      throw_if (bool_decide (length path = 0%nat) || (64 <? length path)%nat)
        (Invalid_argument (bad +:+ "has an empty or oversized column path"));;
      identifiers bad path "column path component";;
      check_paths bad paths
  end.

Fixpoint check_columns (bad kind : string) (columns : list field) (paths : list column_path) : result () :=
  match paths with
  | [] => Ok tt
  | path :: paths =>
      throw_if (negb (bool_decide (length path = 1%nat)))
        (Invalid_argument (bad +:+ kind +:+ " column " +:+ path_string path +:+
                           " is nested; DuckDB reads nested paths only for NOT_NULL"));;
      throw_if (negb (bool_decide (is_Some (top_level columns (default [] (head path))))))
        (Invalid_argument (bad +:+ kind +:+ " column " +:+ str (default [] (head path)) +:+ " is not a column of the table"));;
      check_columns bad kind columns paths
  end.

Definition action_ok (a : bytes) : bool := bool_decide (a = bs "NO_ACTION") || bool_decide (a = bs "RESTRICT").

(** The rules of a FOREIGN_KEY; [*record.references] of a record without them is
    undefined. *)
Definition check_foreign (bad : string) (d : DecodedRecord) : result () :=
  ref ← from_opt (Undefined_behaviour "the value of an empty std::optional") (cv_references (view d));
  throw_if (negb (bool_decide (ref_schema_path ref = cv_schema_path (view d)) && has_key d &&
                  bool_decide (key_schema_path d = ref_schema_path ref) && bool_decide (key_owner d = ref_table ref)))
    (Invalid_argument (bad +:+ "must reference an identified key of a table in the same schema"));;
  identifier bad (ref_table ref) "referenced table";;
  identifier bad (ref_constraint_id ref) "referenced constraint id";;
  throw_if (negb (bool_decide (length (ref_columns ref) = length (cv_columns (view d)))))
    (Invalid_argument (bad +:+ "local and referenced column counts differ"));;
  throw_if (existsb (λ p : column_path, negb (bool_decide (length p = 1%nat))) (ref_columns ref))
    (Invalid_argument (bad +:+ "referenced column paths must be top-level"));;
  throw_if (negb (bool_decide (match_ d = bs "SIMPLE"))) (Invalid_argument (bad +:+ "must be MATCH SIMPLE"));;
  throw_if (negb (action_ok (on_update d)))
    (Invalid_argument (bad +:+ "uses referential action " +:+ str (on_update d) +:+ "; DuckDB reads only NO_ACTION and RESTRICT"));;
  throw_if (negb (action_ok (on_delete d)))
    (Invalid_argument (bad +:+ "uses referential action " +:+ str (on_delete d) +:+ "; DuckDB reads only NO_ACTION and RESTRICT")).

Definition check_check (bad : string) (columns : list field) (d : DecodedRecord) : result () :=
  throw_if (negb (bool_decide (check_profile d = SCALAR_EXPRESSION_READ)))
    (Invalid_argument (bad +:+ "CHECK expression profile must be " +:+ str SCALAR_EXPRESSION_READ));;
  throw_if (negb (bool_decide (check_schema_path d = cv_schema_path (view d))))
    (Invalid_argument (bad +:+ "CHECK expression belongs to another schema"));;
  throw_if (negb (default_context d))
    (Invalid_argument (bad +:+ "CHECK requires the default evaluation context (UTC, binary, asc, nulls_last, preserve_insertion_order)"));;
  sql ← from_opt (Undefined_behaviour "the value of an empty std::optional") (cv_check_sql (view d));
  match SqlScalar.validate_numeric_check sql columns with
  | Throw (Invalid_argument m) => invalid (bad +:+ "CHECK (" +:+ str sql +:+ "): " +:+ m)
  | r => r
  end.

Definition check_not_null (bad : string) (columns : list field) (paths : list column_path) : result () :=
  match paths with
  | [path] =>
      throw_if (negb (bool_decide (is_Some (f ← top_level columns (default [] (head path)); descend f (tail path)))))
        (Invalid_argument (bad +:+ "NOT_NULL column " +:+ path_string path +:+
                           " is not a column (or an ordinary STRUCT member) of the table"))
  | _ => invalid (bad +:+ "NOT_NULL requires exactly one column path")
  end.

(** The [switch] on the kind; the flag is whether there has been a primary key. *)
Definition check_kind (bad : string) (columns : list field) (d : DecodedRecord) (primary : bool) : result bool :=
  kind ← kind_string (cv_kind (view d));
  match cv_kind (view d) with
  | NotNull => check_not_null bad columns (cv_columns (view d));; Ok primary
  | Check_ => check_check bad columns d;; Ok primary
  | PrimaryKey =>
      check_columns bad kind columns (cv_columns (view d));;
      throw_if primary (Invalid_argument (bad +:+ "is a second PRIMARY_KEY; a table has at most one"));;
      Ok true
  | Unique => check_columns bad kind columns (cv_columns (view d));; Ok primary
  | ForeignKey => check_columns bad kind columns (cv_columns (view d));; check_foreign bad d;; Ok primary
  end.

Record checked := mkChecked { ids : gset bytes; labels : gset bytes; primary : bool }.

(** One turn of the loop over the records. *)
Definition check_record (owner_schema : option (list bytes)) (owner : bytes) (prefix : string) (columns : list field)
    (d : DecodedRecord) (st : checked) : result checked :=
  let record := view d in
  let bad := prefix +:+ "constraint '" +:+ str (cv_id record) +:+ "' " in
  identifier bad (cv_id record) "id";;
  throw_if (negb (bool_decide (length (cv_schema_path record) = 1%nat)))
    (Invalid_argument (bad +:+ "must name a one-component schema path; DuckDB reads no other"));;
  identifiers bad (cv_schema_path record) "schema name";;
  identifier bad (cv_table record) "owner table";;
  throw_if (match owner_schema with
            | Some path => negb (bool_decide (cv_schema_path record = path)) || negb (bool_decide (cv_table record = owner))
            | None => false
            end)
    (Invalid_argument (bad +:+ "belongs to " +:+ path_string (cv_schema_path record) +:+ "." +:+
                       str (cv_table record) +:+ ", not this table"));;
  throw_if (bool_decide (cv_id record ∈ ids st)) (Invalid_argument (bad +:+ "duplicates another constraint id"));;
  labels' ← (match cv_declared_name record with
             | None => Ok (labels st)
             | Some name =>
                 identifier bad name "declared name";;
                 throw_if (bool_decide (SqlScalar.lower name ∈ labels st))
                   (Invalid_argument (bad +:+ "reuses declared name '" +:+ str name +:+
                                      "' (names are compared case-insensitively)"));;
                 Ok ({[SqlScalar.lower name]} ∪ labels st)
             end : result (gset bytes));
  e ← enforcement_string (cv_enforcement record);
  v ← validation_string (cv_validation record);
  throw_if (negb (bool_decide (cv_enforcement record = Enforced) && bool_decide (cv_validation record = AllRows)))
    (Invalid_argument (prefix +:+ "constraint '" +:+ str (cv_id record) +:+ "' is " +:+ e +:+ "/" +:+ v +:+
                       "; DuckDB accepts only ENFORCED + ALL_ROWS records"));;
  throw_if (1024 <? Z.of_nat (length (cv_columns record))) (Invalid_argument (bad +:+ "has more than 1024 column paths"));;
  check_paths bad (cv_columns record);;
  primary' ← check_kind bad columns d (primary st);
  Ok (mkChecked ({[cv_id record]} ∪ ids st) labels' primary').

Fixpoint check_records (owner_schema : option (list bytes)) (owner : bytes) (prefix : string) (columns : list field)
    (records : list DecodedRecord) (st : checked) : result checked :=
  match records with
  | [] => Ok st
  | d :: records =>
      st ← check_record owner_schema owner prefix columns d st;
      check_records owner_schema owner prefix columns records st
  end.

Definition validate_records (owner_schema : option (list bytes)) (owner : bytes) (display : string)
    (raw_columns : list field) (constraints : list bytes) : result () :=
  let prefix := "Table '" +:+ display +:+ "': " in
  throw_if (1024 <? Z.of_nat (length constraints)) (Invalid_argument (prefix +:+ "more than 1024 constraint records"));;
  records ← decode_checked prefix constraints 0;
  let columns := serve_schema raw_columns (required_paths records) in
  _ ← check_records owner_schema owner prefix columns records (mkChecked ∅ ∅ false);
  match walk_columns (required_paths records) columns with
  | Some path => invalid (prefix +:+ "column " +:+ path_string path +:+
                          " nullability disagrees with its NOT_NULL/PRIMARY_KEY records")
  | None => Ok tt
  end.

Definition validate_constraint_records (schema_path : list bytes) (table : bytes) (columns : list field)
    (constraints : list bytes) : result () :=
  validate_records (Some schema_path) table (path_string schema_path +:+ "." +:+ str table) columns constraints.
Definition validate_named_records (table : bytes) (columns : list field) (constraints : list bytes) : result () :=
  validate_records None [] (str table) columns constraints.

End validation.

End Constraints.
