(* ===== verification/Capabilities.v ===== *)
(** * Catalog capabilities ([src/constraints.cpp])

    The profiles an attachment offers and selects: the regular expression of a
    profile's name, the record that carries the profiles, and what is selected.
    The theorems: the names the expression accepts, the round trip of the
    record, and that the selection is the greatest one that respects the rules
    between profiles. *)

From S2P Require Import Prelude Text Arrow ArrowRecord Wire Constraints.

Module Capabilities.
Import Wire Constraints.

(** ** Regular expressions, matched by derivatives *)

Inductive re : Type :=
| Empty | Eps
| Chars (p : ascii → bool)
| Seq (r s : re) | Alt (r s : re) | Star (r : re).

Fixpoint nullable (r : re) : bool :=
  match r with
  | Empty | Chars _ => false
  | Eps | Star _ => true
  | Seq r s => nullable r && nullable s
  | Alt r s => nullable r || nullable s
  end.

Fixpoint derive (c : ascii) (r : re) : re :=
  match r with
  | Empty | Eps => Empty
  | Chars p => if p c then Eps else Empty
  | Seq r s => if nullable r then Alt (Seq (derive c r) s) (derive c s) else Seq (derive c r) s
  | Alt r s => Alt (derive c r) (derive c s)
  | Star r => Seq (derive c r) (Star r)
  end.

Fixpoint matches (r : re) (s : bytes) : bool :=
  match s with [] => nullable r | c :: s => matches (derive c r) s end.

Definition is_char (d : ascii) : ascii → bool := λ c, bool_decide (c = d).
Definition in_range (a b : ascii) : ascii → bool := λ c, bool_decide (bz a ≤ bz c ≤ bz b).

(** [[a-z]], [[a-z0-9_]], [[1-9]] and [[0-9]]. *)
Definition az : ascii → bool := in_range "a" "z".
Definition word_char : ascii → bool := λ c, az c || in_range "0" "9" c || is_char "_" c.
Definition non_zero : ascii → bool := in_range "1" "9".
Definition digit : ascii → bool := in_range "0" "9".

Definition word_re : re := Seq (Chars az) (Star (Chars word_char)).
Definition identifier_re : re :=
  Seq word_re (Seq (Star (Seq (Chars (is_char ".")) word_re))
    (Seq (Chars (is_char ".")) (Seq (Chars (is_char "v")) (Seq (Chars non_zero) (Star (Chars digit)))))).

(** ** Profiles *)

Record CatalogCapabilityProfiles := mkProfiles {
  read : list bytes;
  ddl : list bytes;
  write : list bytes;
  transaction : list bytes;
}.

Definition no_profiles : CatalogCapabilityProfiles := mkProfiles [] [] [] [].

Fixpoint validate_profile_loop (profiles : list bytes) (seen : gset bytes) : result () :=
  match profiles with
  | [] => Ok tt
  | profile :: profiles =>
      throw_if ((256 <? Z.of_nat (length profile)) || negb (matches identifier_re profile) || bool_decide (profile ∈ seen))
        (Invalid_argument ("invalid or duplicate catalog capability profile: " +:+ str profile));;
      validate_profile_loop profiles ({[profile]} ∪ seen)
  end.
Definition validate_profiles (profiles : list bytes) : result () :=
  throw_if (256 <? Z.of_nat (length profiles)) (Invalid_argument "too many catalog capability profiles");;
  validate_profile_loop profiles ∅.

Definition CatalogCapabilitiesSchema : list field :=
  [utf8_list "read"; utf8_list "ddl"; utf8_list "write"; utf8_list "transaction"].
Definition QueryPushdownSchema : list field :=
  [utf8_list "encodings"; utf8_list "semantic_profiles"; utf8 "engine_version" false;
   Field "max_query_bytes" T_int64 false []].
Definition ClientCapabilitiesSchema : list field :=
  [utf8 "engine" false; utf8_list "native_formats"; utf8_list "catalogs"; Field "can_stream" T_bool false [];
   utf8_list "filter_encodings"; binary "catalog" true; Field "query_pushdown" (T_struct QueryPushdownSchema) true []].

Definition capability_cells (p : CatalogCapabilityProfiles) : list (string * cell) :=
  [("read", Cell_string_list (read p)); ("ddl", Cell_string_list (ddl p)); ("write", Cell_string_list (write p));
   ("transaction", Cell_string_list (transaction p))]%string.

Section records.
Context `{Arrow} `{ArrowRecord}.

Definition encode_catalog_capabilities (p : CatalogCapabilityProfiles) : result bytes :=
  validate_profiles (read p);; validate_profiles (ddl p);; validate_profiles (write p);;
  validate_profiles (transaction p);;
  b ← build CatalogCapabilitiesSchema None (capability_cells p);
  encode_ipc b.

(** A null in a required column of the row. *)
Fixpoint null_required (schema : list field) (columns : list array) : bool :=
  match schema, columns with
  | f :: schema, c :: columns => (negb (f_nullable f) && is_null (first c)) || null_required schema columns
  | _, _ => false
  end.

Definition no_metadata (b : batch) : bool := match b_metadata b with None | Some [] => true | _ => false end.

Definition capability_record (b : bytes) (schema : list field) : result batch :=
  throw_if (bool_decide (length b = 0%nat) || (8 * 1024 * 1024 <? Z.of_nat (length b)))
    (Invalid_argument "invalid catalog capability record size");;
  o ← (match read_stream b with inl status => invalid status | inr o => Ok o end : result (option batch));
  match o with
  | None => invalid "invalid catalog capability record"
  | Some batch =>
      throw_if (negb ((b_rows batch =? 1) && schema_equals true (b_schema batch) schema && no_metadata batch &&
                      bool_decide (validate_full batch = None)))
        (Invalid_argument "invalid catalog capability record");;
      throw_if (null_required schema (b_columns batch)) (Invalid_argument "null required catalog capability field");;
      let tail := stream_rest b in
      throw_if (negb (bool_decide (tail = []) || bool_decide (tail = replicate 4 NUL) || bool_decide (tail = kEndOfStream)))
        (Invalid_argument "trailing catalog capability data");;
      Ok batch
  end.

(** One category of the record. *)
Definition decode_profiles (record : batch) (category : string) : result (list bytes) :=
  values ← column (Some record) category;
  throw_if (match first values with V_list l => existsb is_null l | _ => true end)
    (Invalid_argument "null catalog capability profile");;
  l ← get_string_list (Some record) category;
  validate_profiles l;; Ok l.

Definition decode_catalog_capabilities (b : bytes) : result CatalogCapabilityProfiles :=
  record ← capability_record b CatalogCapabilitiesSchema;
  r ← decode_profiles record "read";
  d ← decode_profiles record "ddl";
  w ← decode_profiles record "write";
  t ← decode_profiles record "transaction";
  Ok (mkProfiles r d w t).

Definition client_catalog_offer (client_capabilities : option bytes) : result CatalogCapabilityProfiles :=
  match client_capabilities with
  | None => Ok no_profiles
  | Some b =>
      client ← capability_record b ClientCapabilitiesSchema;
      catalog ← get_optional_binary (Some client) "catalog";
      match catalog with Some c => decode_catalog_capabilities c | None => Ok no_profiles end
  end.

End records.

(** ** Selection *)

Definition intersect (mine theirs : list bytes) : list bytes := filter (λ p, p ∈ theirs) mine.
Definition drop_profile (profile : bytes) (l : list bytes) : list bytes := filter (λ p, p ≠ profile) l.

Definition select_catalog_capabilities (available offered : CatalogCapabilityProfiles) : CatalogCapabilityProfiles :=
  let out := mkProfiles (intersect (read available) (read offered)) (intersect (ddl available) (ddl offered))
               (intersect (write available) (write offered)) (intersect (transaction available) (transaction offered)) in
  let out := if bool_decide (CONSTRAINT_RECORDS_READ ∈ read out) then out
             else mkProfiles (drop_profile SCALAR_EXPRESSION_READ (read out)) (drop_profile CONSTRAINT_CREATE (ddl out))
                    (drop_profile CONSTRAINT_ENFORCE (write out)) (transaction out) in
  if bool_decide (CONSTRAINT_ENFORCE ∈ write out) then out
  else mkProfiles (read out) (drop_profile CONSTRAINT_CREATE (ddl out)) (write out) (transaction out).

(** ** The language of an expression *)

Inductive lang : re → bytes → Prop :=
| lang_eps : lang Eps []
| lang_chars p c : p c = true → lang (Chars p) [c]
| lang_seq r s a b : lang r a → lang s b → lang (Seq r s) (a ++ b)
| lang_left r s a : lang r a → lang (Alt r s) a
| lang_right r s a : lang s a → lang (Alt r s) a
| lang_star_nil r : lang (Star r) []
| lang_star_cons r a b : lang r a → lang (Star r) b → lang (Star r) (a ++ b).

Lemma nullable_lang r : nullable r = true ↔ lang r [].
Proof.
  induction r as [| |p|r IHr s IHs|r IHr s IHs|r IHr]; cbn.
  - split; [done|by inversion 1].
  - split; [constructor|done].
  - split; [done|by inversion 1].
  - rewrite andb_true_iff, IHr, IHs. split.
    + intros [H1 H2]. by apply (lang_seq r s [] []).
    + inversion 1 as [| |? ? a b Ha Hb E1 E| | | |]; subst. apply app_eq_nil in E as [-> ->]. done.
  - rewrite orb_true_iff, IHr, IHs. split; [intros [?|?]; by constructor|]. inversion 1; auto.
  - split; [constructor|done].
Qed.

Lemma star_cons r c s : lang (Star r) (c :: s) → ∃ a b, s = a ++ b ∧ lang r (c :: a) ∧ lang (Star r) b.
Proof.
  remember (Star r) as q eqn:Hq. remember (c :: s) as w eqn:Hw. intros Hl. revert Hq Hw.
  induction Hl as [| | | | | |r' a b Ha _ Hb IH]; intros Hq Hw; try done. injection Hq as ->.
  destruct a as [|x a]; [by apply IH|]. injection Hw as -> <-. by exists a, b.
Qed.

Lemma derive_lang c r : ∀ s, lang (derive c r) s ↔ lang r (c :: s).
Proof.
  induction r as [| |p|r IHr q IHq|r IHr q IHq|r IHr]; intros s; cbn [derive].
  - split; by inversion 1.
  - split; by inversion 1.
  - destruct (p c) eqn:Hp; split.
    + inversion 1. by constructor.
    + inversion 1. constructor.
    + by inversion 1.
    + inversion 1; subst. congruence.
  - assert (lang (Seq (derive c r) q) s → lang (Seq r q) (c :: s)) as H1.
    { inversion 1 as [| |? ? a b Ha Hb E1 E| | | |]; subst. apply IHr in Ha. by apply (lang_seq r q (c :: a) b). }
    assert (lang (Seq r q) (c :: s) → lang (Seq (derive c r) q) s ∨ (nullable r = true ∧ lang q (c :: s))) as H2.
    { inversion 1 as [| |? ? a b Ha Hb E1 E| | | |]; subst. destruct a as [|x a].
      - right. cbn in E. subst b. by rewrite nullable_lang.
      - left. injection E as -> <-. constructor; [by apply IHr|done]. }
    destruct (nullable r) eqn:Hn.
    + split.
      * inversion 1; subst; [by apply H1|]. apply (lang_seq r q []); [by apply nullable_lang|by apply IHq].
      * intros [Hs|[_ Hs]]%H2; [by apply lang_left|apply lang_right; by apply IHq].
    + split; [apply H1|]. intros [Hs|[? _]]%H2; done.
  - split; inversion 1; subst; (by apply lang_left, IHr) || (by apply lang_right, IHq).
  - split.
    + inversion 1 as [| |? ? a b Ha Hb E1 E| | | |]; subst. apply IHr in Ha. by apply (lang_star_cons r (c :: a) b).
    + intros (a & b & -> & Ha & Hb)%star_cons. constructor; [by apply IHr|done].
Qed.

Lemma matches_lang r s : matches r s = true ↔ lang r s.
Proof.
  revert r. induction s as [|c s IH]; intros r; cbn [matches]; [apply nullable_lang|]. by rewrite IH, derive_lang.
Qed.

Lemma lang_seq_inv r q s : lang (Seq r q) s ↔ ∃ a b, s = a ++ b ∧ lang r a ∧ lang q b.
Proof. split; [inversion 1; subst; eauto|]. intros (a & b & -> & ? & ?). by constructor. Qed.

Lemma lang_chars_inv p s : lang (Chars p) s ↔ ∃ c, s = [c] ∧ p c = true.
Proof. split; [inversion 1; subst; eauto|]. intros (c & -> & ?). by constructor. Qed.

(** A star is a list of words of its body, none of them empty where it has no empty word. *)
Lemma lang_star r s : lang (Star r) s ↔ ∃ l, s = concat l ∧ Forall (lang r) l.
Proof.
  split.
  - remember (Star r) as q eqn:Hq. intros Hl. revert Hq.
    induction Hl as [| | | | |r'|r' a b Ha _ Hb IH]; intros Hq; try done; injection Hq as ->.
    + by exists [].
    + destruct (IH eq_refl) as (l & -> & Hl). exists (a :: l). by split; [|constructor].
  - intros (l & -> & Hl). induction Hl as [|a l Ha _ IH]; [constructor|]. by apply lang_star_cons.
Qed.

Lemma lang_star_chars p s : lang (Star (Chars p)) s ↔ Forall (λ c, p c = true) s.
Proof.
  rewrite lang_star. split.
  - intros (l & -> & Hl). induction Hl as [|a l (c & -> & Hc)%lang_chars_inv _ IH]; [constructor|]. by constructor.
  - intros Hs. exists (map (λ c, [c]) s). split; [by induction Hs as [|c s _ _ IH]; [|cbn; f_equal]|].
    apply Forall_map. eapply Forall_impl; [exact Hs|]. intros c Hc. by constructor.
Qed.

(** ** The names of profiles *)

Definition word (w : bytes) : Prop := ∃ c r, w = c :: r ∧ az c = true ∧ Forall (λ c, word_char c = true) r.
Definition version (v : bytes) : Prop := ∃ d r, v = d :: r ∧ non_zero d = true ∧ Forall (λ c, digit c = true) r.

(** Words with points between them, then [.v] and a number. *)
Definition profile_name (s : bytes) : Prop :=
  ∃ w ws v, word w ∧ Forall word ws ∧ version v ∧
    s = w ++ concat (map (cons "."%char) ws) ++ "."%char :: "v"%char :: v.

Lemma lang_word s : lang word_re s ↔ word s.
Proof.
  unfold word_re. rewrite lang_seq_inv. split.
  - intros (a & b & -> & (c & -> & Hc)%lang_chars_inv & Hb%lang_star_chars). by exists c, b.
  - intros (c & r & -> & Hc & Hr). exists [c], r. by rewrite lang_chars_inv, lang_star_chars; eauto.
Qed.

Lemma lang_version s : lang (Seq (Chars non_zero) (Star (Chars digit))) s ↔ version s.
Proof.
  rewrite lang_seq_inv. split.
  - intros (a & b & -> & (c & -> & Hc)%lang_chars_inv & Hb%lang_star_chars). by exists c, b.
  - intros (c & r & -> & Hc & Hr). exists [c], r. by rewrite lang_chars_inv, lang_star_chars; eauto.
Qed.

Lemma lang_char c s : lang (Chars (is_char c)) s ↔ s = [c].
Proof.
  rewrite lang_chars_inv. unfold is_char. setoid_rewrite bool_decide_eq_true. naive_solver.
Qed.

Lemma lang_words s : lang (Star (Seq (Chars (is_char ".")) word_re)) s ↔ ∃ ws, s = concat (map (cons "."%char) ws) ∧ Forall word ws.
Proof.
  rewrite lang_star. split.
  - intros (l & -> & Hl). induction Hl as [|a l Ha _ IH]; [by exists []|].
    apply lang_seq_inv in Ha as (x & w & -> & ->%lang_char & Hw%lang_word). destruct IH as (ws & E & Hws).
    exists (w :: ws). split; [cbn; by rewrite E|by constructor].
  - intros (ws & -> & Hws). exists (map (cons "."%char) ws). split; [done|]. apply Forall_map.
    eapply Forall_impl; [exact Hws|]. intros w Hw. apply lang_seq_inv. exists ["."%char], w.
    by rewrite lang_char, lang_word.
Qed.

Lemma identifier_profile_name s : matches identifier_re s = true ↔ profile_name s.
Proof.
  rewrite matches_lang. unfold identifier_re. rewrite lang_seq_inv. split.
  - intros (w & b & -> & Hw%lang_word & (x & y & -> & (ws & -> & Hws)%lang_words & Hy)%lang_seq_inv).
    apply lang_seq_inv in Hy as (? & z & -> & ->%lang_char & (? & v & -> & ->%lang_char & Hv%lang_version)%lang_seq_inv).
    exists w, ws, v. by split_and!.
  - intros (w & ws & v & Hw & Hws & Hv & ->). exists w. eexists. rewrite lang_word. split_and!; [done..|].
    apply lang_seq_inv. eexists _, _. split_and!; [done|apply lang_words; by exists ws|].
    apply lang_seq_inv. exists ["."%char], ("v"%char :: v). rewrite lang_char. split_and!; [done..|].
    apply lang_seq_inv. exists ["v"%char], v. by rewrite lang_char, lang_version.
Qed.

Lemma validate_profile_loop_Ok l seen :
  validate_profile_loop l seen = Ok tt ↔
  NoDup l ∧ Forall (λ p, (Z.of_nat (length p) ≤ 256) ∧ profile_name p ∧ p ∉ seen) l.
Proof.
  revert seen. induction l as [|p l IH]; intros seen; cbn [validate_profile_loop].
  { split; [by repeat constructor|done]. }
  rewrite bind_throw_if_Ok, IH, !orb_false_iff, negb_false_iff, identifier_profile_name, bool_decide_eq_false,
    NoDup_cons, Forall_cons, Z.ltb_ge. split.
  - intros [[[H1 H2] H3] [H4 H5]]. split_and!; [|done..|].
    + intros Hin. rewrite Forall_forall in H5. destruct (H5 p Hin) as (_ & _ & H6). set_solver.
    + eapply Forall_impl; [exact H5|]. intros q (? & ? & Hq). split_and!; [done..|set_solver].
  - intros [[H1 H2] [(H3 & H4 & H5) H6]]. split_and!; try done. rewrite Forall_forall in H6 |- *.
    intros q Hq. destruct (H6 q Hq) as (? & ? & ?). split_and!; [done..|]. set_solver.
Qed.

Lemma validate_profiles_Ok l :
  validate_profiles l = Ok tt ↔
  Z.of_nat (length l) ≤ 256 ∧ NoDup l ∧ Forall (λ p, Z.of_nat (length p) ≤ 256 ∧ profile_name p) l.
Proof.
  unfold validate_profiles. rewrite bind_throw_if_Ok, Z.ltb_ge, validate_profile_loop_Ok.
  assert (∀ p : bytes, Z.of_nat (length p) ≤ 256 ∧ profile_name p ∧ p ∉ (∅ : gset bytes) ↔
    Z.of_nat (length p) ≤ 256 ∧ profile_name p) as E by set_solver.
  by setoid_rewrite E.
Qed.

(** A list of profiles is accepted exactly when it has at most 256, all
    different, each of at most 256 characters and a profile's name: lower-case
    words with points between them, then [.v] and a positive number without a
    zero in front -- which is the language of the regular expression. *)
Theorem profiles_accepted l :
  validate_profiles l = Ok tt ↔
  Z.of_nat (length l) ≤ 256 ∧ NoDup l ∧ Forall (λ p, Z.of_nat (length p) ≤ 256 ∧ profile_name p) l.
Proof. apply validate_profiles_Ok. Qed.

(** ** The record *)

Section roundtrip.
Context `{A : Arrow} `{R : ArrowRecord} `{!ArrowLaws A} `{!ArrowRecordLaws A R}.

Lemma null_required_false schema columns :
  (∀ i f a, schema !! i = Some f → columns !! i = Some a → ∃ v, a_values a = [v]) →
  no_bad_null schema columns → null_required schema columns = false.
Proof using Type.
  revert columns. induction schema as [|f schema IH]; intros [|c columns] Hrow Hn; try done. cbn [null_required].
  apply orb_false_iff. split; [|apply IH; [intros i; apply (Hrow (S i))|intros i; apply (Hn (S i))]].
  destruct (Hrow 0%nat f c eq_refl eq_refl) as [v Hv]. unfold first. rewrite Hv. cbn.
  destruct (f_nullable f) eqn:Ef; [done|]. destruct v; try done. destruct (Hn 0%nat f c V_null eq_refl eq_refl).
  - rewrite Hv. left.
  - by constructor.
Qed.

(** A record that was built and written is accepted back. *)
Lemma capability_record_built schema cells b s :
  build schema None cells = Ok b → NoDup cells.*1 → NoDup (map f_name schema) →
  (∀ f, f ∈ schema → f_name f ∈ cells.*1) →
  encode_ipc b = Ok s → Z.of_nat (length s) ≤ 8 * 1024 * 1024 → capability_record s schema = Ok b.
Proof using Type*.
  intros Hb Hnd Hns Hall Hs Hlen. destruct (encode_ipc_read _ _ Hs) as (Hw & Hne & Hr & _).
  destruct (build_shape _ _ _ _ Hb Hnd) as (B1 & B2 & B3 & _ & B5).
  unfold capability_record. rewrite (bool_decide_false (length s = 0%nat)) by (by destruct s).
  destruct (Z.ltb_spec (8 * 1024 * 1024) (Z.of_nat (length s))); [lia|]. cbn [orb throw_if mbind result_bind].
  rewrite Hr. cbn [mbind result_bind]. rewrite B1, B3, schema_equals_refl. unfold no_metadata. rewrite B2.
  rewrite (validate_full_binary _ _ Hw), (bool_decide_true (None = None)) by reflexivity.
  cbn [Z.eqb Pos.eqb andb negb throw_if mbind result_bind].
  rewrite null_required_false; [|intros i f a Hf Ha; destruct (build_one_row _ _ _ _ Hb Hnd Hns Hall i f a Hf Ha) as (? & v & _ & _ & Hv); eauto|done].
  cbn [throw_if mbind result_bind]. destruct (stream_rest_spec _ _ Hw) as [-> | ->].
  - by rewrite (bool_decide_true ([] = [])) by reflexivity.
  - by rewrite (bool_decide_true (kEndOfStream = kEndOfStream)), !orb_true_r by reflexivity.
Qed.

Lemma decode_profiles_built cells b category l :
  build CatalogCapabilitiesSchema None cells = Ok b → NoDup cells.*1 → (category, Cell_string_list l) ∈ cells →
  validate_profiles l = Ok tt → decode_profiles b category = Ok l.
Proof using Type*.
  intros Hb Hnd Hin Hl. destruct (build_column _ _ _ _ _ _ Hb Hnd Hin) as (_ & _ & i & a & g & _ & _ & Hc & Hh).
  unfold decode_profiles. pose proof (cell_reads _ _ _ _ _ Hc Hh) as [Hr _]. rewrite Hr.
  cbn in Hh. cbn [column]. rewrite Hc, Hh. cbn [mbind result_bind].
  change (first (list_array T_string (map V_text l))) with (V_list (map V_text l)).
  cbv iota beta. assert (existsb is_null (map V_text l) = false) as -> by (clear; induction l; done).
  cbn [throw_if]. by rewrite Hl.
Qed.

(** The record of capabilities a catalog offers is read back as it was
    written: what [encode_catalog_capabilities] made within the limit of 8 MiB
    [decode_catalog_capabilities] decodes to the same profiles, and they are
    valid ones. *)
Theorem capabilities_roundtrip p s :
  encode_catalog_capabilities p = Ok s → Z.of_nat (length s) ≤ 8 * 1024 * 1024 →
  decode_catalog_capabilities s = Ok p ∧
  Forall (λ l, validate_profiles l = Ok tt) [read p; ddl p; write p; transaction p].
Proof using Type*.
  unfold encode_catalog_capabilities.
  intros ([] & H1 & ([] & H2 & ([] & H3 & ([] & H4 & (b & Hb & Hs)%bind_Ok)%bind_Ok)%bind_Ok)%bind_Ok)%bind_Ok Hlen.
  split; [|by repeat constructor].
  assert (∀ f, f ∈ CatalogCapabilitiesSchema → f_name f ∈ ["read"; "ddl"; "write"; "transaction"]%string) as Hall.
  { intros f Hf. apply (list_elem_of_fmap_2 f_name) in Hf. exact Hf. }
  unfold decode_catalog_capabilities.
  rewrite (capability_record_built _ _ _ _ Hb ltac:(by_decide) ltac:(by_decide) Hall Hs Hlen). cbn [mbind result_bind].
  assert (∀ category l, (category, Cell_string_list l) ∈ capability_cells p → validate_profiles l = Ok tt →
    decode_profiles b category = Ok l) as Hread.
  { intros category l. by apply (decode_profiles_built _ _ _ _ Hb ltac:(by_decide)). }
  rewrite (Hread "read" (read p)), (Hread "ddl" (ddl p)), (Hread "write" (write p)),
    (Hread "transaction" (transaction p)) by (done || set_solver).
  by destruct p.
Qed.

End roundtrip.

(** ** Selection *)

(** What the engine accepts together. *)
Definition together (p : CatalogCapabilityProfiles) : Prop :=
  (CONSTRAINT_RECORDS_READ ∉ read p →
     (SCALAR_EXPRESSION_READ ∉ read p) ∧ (CONSTRAINT_CREATE ∉ ddl p) ∧ CONSTRAINT_ENFORCE ∉ write p) ∧
  (CONSTRAINT_ENFORCE ∉ write p → CONSTRAINT_CREATE ∉ ddl p).

Definition below (p q : CatalogCapabilityProfiles) : Prop :=
  read p ⊆ read q ∧ ddl p ⊆ ddl q ∧ write p ⊆ write q ∧ transaction p ⊆ transaction q.

Lemma elem_intersect p a b : p ∈ intersect a b ↔ p ∈ a ∧ p ∈ b.
Proof. unfold intersect. rewrite list_elem_of_filter. naive_solver. Qed.
Lemma elem_drop p x l : p ∈ drop_profile x l ↔ p ∈ l ∧ p ≠ x.
Proof. unfold drop_profile. rewrite list_elem_of_filter. naive_solver. Qed.
Lemma sublist_intersect a b : sublist (intersect a b) a.
Proof. apply sublist_filter. Qed.
Lemma sublist_drop x l : sublist (drop_profile x l) l.
Proof. apply sublist_filter. Qed.
Lemma sublist_drop_of x l k : sublist l k → sublist (drop_profile x l) k.
Proof. intros H. etransitivity; [apply sublist_drop|done]. Qed.

(** The selection is in both the profiles available and those offered, in
    the order of the available ones, holds no profile without the ones it needs, and is the greatest such: every
    choice in both that respects the rules is in it. *)
Theorem select_greatest available offered :
  let out := select_catalog_capabilities available offered in
  (sublist (read out) (read available) ∧ sublist (ddl out) (ddl available) ∧
   sublist (write out) (write available) ∧ sublist (transaction out) (transaction available)) ∧
  below out offered ∧ together out ∧
  ∀ p, together p → below p available → below p offered → below p out.
Proof.
  intros out. unfold out, select_catalog_capabilities. clear out.
  assert (SCALAR_EXPRESSION_READ ≠ CONSTRAINT_RECORDS_READ) as Hne by by vm_compute.
  split; [|split; [|split]].
  - repeat (case_bool_decide; cbn [read ddl write transaction]); split_and!; eauto using sublist_intersect, sublist_drop_of.
  - unfold below. repeat (case_bool_decide; cbn [read ddl write transaction]); split_and!; intros q;
      rewrite ?elem_drop, ?elem_intersect; naive_solver.
  - unfold together. repeat (case_bool_decide; cbn [read ddl write transaction] in *); rewrite ?elem_drop; naive_solver.
  - intros p [H1 H2] (Ar & Ad & Aw & At) (Or & Od & Ow & Ot). unfold below.
    assert (CONSTRAINT_RECORDS_READ ∈ read p → CONSTRAINT_RECORDS_READ ∈ intersect (read available) (read offered)) as Hr
      by (rewrite elem_intersect; auto).
    assert (CONSTRAINT_ENFORCE ∈ write p → CONSTRAINT_ENFORCE ∈ intersect (write available) (write offered)) as He
      by (rewrite elem_intersect; auto).
    assert (∀ q l a o, q ∈ l → l ⊆ a → l ⊆ o → q ∈ intersect a o) as Hin by (intros; rewrite elem_intersect; auto).
    cbn [read ddl write transaction].
    destruct (bool_decide_reflect (CONSTRAINT_RECORDS_READ ∈ intersect (read available) (read offered)));
      cbn [read ddl write transaction]; case_bool_decide; cbn [read ddl write transaction]; split_and!; intros q Hq;
      rewrite ?elem_drop; rewrite ?elem_drop in *; repeat split; try (by eapply Hin); intros ->;
      destruct (decide (CONSTRAINT_RECORDS_READ ∈ read p)); destruct (decide (CONSTRAINT_ENFORCE ∈ write p)); tauto.
Qed.

(** ** At work *)

Definition sample_profiles : CatalogCapabilityProfiles :=
  mkProfiles [CONSTRAINT_RECORDS_READ; SCALAR_EXPRESSION_READ] [CONSTRAINT_CREATE] [CONSTRAINT_ENFORCE] [].
Definition sample_record : batch :=
  mkBatch CatalogCapabilitiesSchema None 1
    (map (λ l, list_array T_string (map V_text l)) [read sample_profiles; ddl sample_profiles; write sample_profiles; []]).
Definition sample_bytes : bytes := zb 3 :: enc_len 0.

Lemma capabilities_roundtrip_witness :
  @encode_catalog_capabilities (table_arrow [sample_record]) sample_profiles = Ok sample_bytes ∧
  @decode_catalog_capabilities (table_arrow [sample_record]) table_record sample_bytes = Ok sample_profiles.
Proof.
  assert (@encode_catalog_capabilities (table_arrow [sample_record]) sample_profiles = Ok sample_bytes) as E
    by (vm_compute; reflexivity).
  split; [exact E|].
  apply (@capabilities_roundtrip (table_arrow [sample_record]) table_record _ _ sample_profiles sample_bytes E).
  vm_compute. discriminate.
Defined.

(** CREATE goes when no profile that enforces is offered, and everything goes with the records. *)
Example select_prunes :
  select_catalog_capabilities sample_profiles (mkProfiles [SCALAR_EXPRESSION_READ] [CONSTRAINT_CREATE] [CONSTRAINT_ENFORCE] []) =
  no_profiles.
Proof. vm_compute. reflexivity. Qed.

End Capabilities.
