(* ===== verification/Columns.v ===== *)
(** * The metadata of columns ([src/column_metadata.h], [src/column_expressions.h])

    A column's comment and tags travel in its field's metadata, and so does the
    expression of a generated column, as a record in base64.  Here are the checks
    every catalog makes of them, at any depth of a column's type, and the making
    of such an expression ([generated_expression_metadata] of [src/catalog.cpp]).
    The theorems: an expression that is made passes the check and reads back as
    its text; and a schema passes exactly when every field, however deep, is fine
    on its own. *)

From S2P Require Import Prelude Text Utf8 Crypto Arrow ArrowRecord ArrowCompute Wire Metadata Json WireSchema SqlScalar Constraints Capabilities.
Import Wire Metadata Json Constraints.

Module Columns.

(** ** Comments and tags *)

(** The callback's one set of keys, whatever the depth. *)
Fixpoint repeated_key (keys : gset string) (evs : list event) : bool :=
  match evs with
  | [] => false
  | Key _ k :: evs => bool_decide (k ∈ keys) || repeated_key ({[k]} ∪ keys) evs
  | Object_start _ :: evs => repeated_key keys evs
  end.

(** A text that repeats a key and is malformed besides is refused either way;
    which of the two is said is not modelled. *)
Definition check_tags `{JsonParser} (value : string) : result () :=
  match json_parse value with
  | inl what => Throw (Json_error what)
  | inr (evs, tags) =>
      throw_if (repeated_key ∅ evs) (Invalid_argument "duplicate column tag key");;
      match tags with
      | J_object l => throw_if (existsb (λ e : string * json, negb (is_string e.2)) l) (Invalid_argument "column tag values must be strings")
      | _ => Throw (Invalid_argument "column tags must be a JSON object of strings")
      end
  end.

Definition is_text_key (key : string) : bool := bool_decide (key = "comment"%string) || bool_decide (key = "tags"%string).

Fixpoint check_entries `{JsonParser} (keys : gset string) (metadata : list (string * string)) : result () :=
  match metadata with
  | [] => Ok tt
  | (key, value) :: metadata =>
      throw_if (bool_decide (key ∈ keys)) (Invalid_argument "duplicate column metadata key");;
      (if is_text_key key then
         throw_if (negb (Utf8.valid_utf8 (bs value))) (Invalid_argument "column metadata must be UTF-8");;
         (if bool_decide (key = "tags"%string) then check_tags value else Ok tt)
       else Ok tt);;
      check_entries ({[key]} ∪ keys) metadata
  end.

(** Both headers walk a type alike: [check] is asked of every field's metadata.
    [type->fields()] of a map is the struct of its key and item. *)
Fixpoint walk_field (check : list (string * string) → result ()) (f : field) {struct f} : result () :=
  match f with
  | Field _ t _ metadata => check metadata;; walk_type check t
  end
with walk_type (check : list (string * string) → result ()) (t : dtype) {struct t} : result () :=
  match t with
  | T_dictionary _ v => walk_type check v
  | T_extension _ s => walk_type check s
  | T_list f | T_large_list f | T_fixed_size_list f _ | T_list_view f | T_large_list_view f => walk_field check f
  | T_struct fs => (fix go (fs : list field) : result () := match fs with [] => Ok tt | f :: fs => walk_field check f;; go fs end) fs
  | T_map k i => walk_field check k;; walk_field check i
  | _ => Ok tt
  end.

Definition validate_column_field `{JsonParser} : field → result () := walk_field (check_entries ∅).
Definition validate_column_type `{JsonParser} : dtype → result () := walk_type (check_entries ∅).

Fixpoint each_field (check : field → result ()) (fields : list field) : result () :=
  match fields with [] => Ok tt | f :: fields => check f;; each_field check fields end.
Definition validate_column_metadata `{JsonParser} (schema : list field) : result () := each_field validate_column_field schema.

(** ** Generated expressions *)

Definition GENERATED_COLUMN_KEY : string := "vgi.column.generated.v1".
Definition GENERATION_COLUMN_KEY : string := "vgi.column.generation.v1".

Definition generated_text (value : bytes) (maximum : Z) : result () :=
  throw_if (bool_decide (value = []) || (maximum <? Z.of_nat (length value)) || has_nul value || negb (Utf8.valid_utf8 value))
    (Invalid_argument "invalid generated expression text").

Definition eight_mib : Z := 8 * 1024 * 1024.

Definition is_blank (c : ascii) : bool := bool_decide (bz c ∈ [32; 9; 13; 10]).
Definition scalar_profile : bytes := bs "vgi.expression.duckdb.scalar.v1".

(** What is left of a stream after its first batch is the end of it, however marked. *)
Definition at_end (rest : bytes) : bool :=
  bool_decide (rest = []) || bool_decide (rest = replicate 4 NUL) || bool_decide (rest = kEndOfStream).

Definition each_text (l : list bytes) (maximum : Z) : result () :=
  (fix go (l : list bytes) : result () := match l with [] => Ok tt | s :: l => generated_text s maximum;; go l end) l.

Definition text_at (vs : list value) (i : nat) : result bytes :=
  match vs !! i with Some (V_text s) => Ok s | _ => Throw (Undefined_behaviour "static_pointer_cast") end.

Definition null_orders : list bytes :=
  [bs "nulls_first"; bs "nulls_last"; bs "nulls_first_on_asc_last_on_desc"; bs "nulls_last_on_asc_first_on_desc"].

Definition check_context (context : array) : result () :=
  match first context with
  | V_struct vs =>
      throw_if (existsb is_null vs) (Invalid_argument "required expression context is NULL");;
      timezone ← text_at vs 0; generated_text timezone 256;;
      collation ← text_at vs 1; generated_text collation 256;;
      order ← text_at vs 2;
      null_order ← text_at vs 3;
      throw_if ((negb (bool_decide (order = bs "asc")) && negb (bool_decide (order = bs "desc"))) ||
                negb (bool_decide (null_order ∈ null_orders)))
        (Invalid_argument "invalid expression evaluation context")
  | _ => Throw (Undefined_behaviour "static_pointer_cast")
  end.

Definition metadata_get (metadata : list (string * string)) (key : string) : option string :=
  snd <$> List.find (λ e, bool_decide (e.1 = key)) metadata.
Definition metadata_has (metadata : list (string * string)) (key : string) : bool := bool_decide (key ∈ metadata.*1).

Section expressions.
Context `{A : Arrow} `{R : ArrowRecord} `{B : Base64}.

(** The record of an expression, checked. *)
Definition check_expression_row (row : batch) (owner : list bytes) : result () :=
  throw_if (bool_decide (is_Some (validate_full row))) (Invalid_argument "invalid expression buffers");;
  throw_if (existsb (λ a, is_null (first a)) (b_columns row)) (Invalid_argument "required expression field is NULL");;
  sql ← get_string (Some row) "sql";
  generated_text sql (1024 * 1024);;
  profile ← (if forallb is_blank sql then Ok [] else get_string (Some row) "profile");
  throw_if (forallb is_blank sql || negb (bool_decide (profile = scalar_profile)))
    (Invalid_argument "unsupported generated profile or empty SQL");;
  path ← get_string_list (Some row) "schema_path";
  throw_if ((32 <? Z.of_nat (length path)) || negb (bool_decide (path = owner)))
    (Invalid_argument "generated expression owner differs from table schema");;
  each_text path 4096;;
  context ← column (Some row) "evaluation_context";
  check_context context.

(** A stream that does not open and one whose first batch does not read are both refused. *)
Definition validate_generated_expression (encoded : string) (owner : list bytes) : result () :=
  throw_if (bool_decide (encoded = ""%string) || (4 * ((eight_mib + 2) / 3) <? Z.of_nat (String.length encoded)))
    (Invalid_argument "invalid expression size");;
  b ← wire_base64_decode encoded;
  throw_if (bool_decide (b = []) || (eight_mib <? Z.of_nat (length b)) || negb (bool_decide (base64_encode b = encoded)))
    (Invalid_argument "expression requires canonical base64 IPC");;
  o ← (match read_stream b with inl status => Throw (Invalid_argument status) | inr o => Ok o end : result (option batch));
  row ← from_opt (Invalid_argument "invalid SqlExpression record schema") o;
  throw_if (negb ((b_rows row =? 1) && schema_equals false (b_schema row) SqlExpressionSchema))
    (Invalid_argument "invalid SqlExpression record schema");;
  check_expression_row row owner;;
  throw_if (negb (at_end (stream_rest b))) (Invalid_argument "expression requires exactly one complete IPC batch").

Definition generated_expression_sql (encoded : string) : result bytes :=
  b ← wire_base64_decode encoded; row ← decode_ipc b; get_string row "sql".

Definition generated_column_sql (schema : list field) : result (list bytes) :=
  mapM (λ f, match metadata_get (f_metadata f) GENERATED_COLUMN_KEY with
             | Some encoded => generated_expression_sql encoded
             | None => Ok []
             end) schema.

(** *** The making of one *)

Definition generated_expression_metadata (sql : bytes) (owner : list bytes) : result string :=
  context ← build QueryEvaluationContextSchema None default_context_cells;
  context_struct ← match struct_array (b_columns context) (b_schema context) with
                   | inl status => Throw (Undefined_behaviour "ValueOrDie")
                   | inr a => Ok a
                   end;
  expression ← build SqlExpressionSchema None
    [("sql", Cell_string sql); ("profile", Cell_string scalar_profile);
     ("schema_path", Cell_string_list owner); ("evaluation_context", Cell_array (Some context_struct))]%string;
  b ← encode_ipc expression;
  let encoded := base64_encode b in
  validate_generated_expression encoded owner;;
  Ok encoded.

(** ** The columns of a table *)

Definition unknown_version (key : string) : bool :=
  (String.prefix "vgi.column.generated." key && negb (bool_decide (key = GENERATED_COLUMN_KEY))) ||
  (String.prefix "vgi.column.generation." key && negb (bool_decide (key = GENERATION_COLUMN_KEY))).

Definition check_generated (owner : list bytes) (allow_generated : bool) (metadata : list (string * string)) : result () :=
  throw_if (existsb unknown_version metadata.*1) (Invalid_argument "unknown generated metadata version");;
  throw_if (metadata_has metadata "generated_expression")
    (Invalid_argument ("legacy generated_expression metadata cannot be read here; declare " +:+
                       "vgi.column.generated.v1 with vgi::generated_expression_metadata()"));;
  throw_if (negb (Bool.eqb (metadata_has metadata GENERATED_COLUMN_KEY) (metadata_has metadata GENERATION_COLUMN_KEY)))
    (Invalid_argument "generated expression and category must occur together");;
  match metadata_get metadata GENERATED_COLUMN_KEY with
  | None => Ok tt
  | Some encoded =>
      throw_if (negb (bool_decide (metadata_get metadata GENERATION_COLUMN_KEY = Some "virtual"%string)))
        (Invalid_argument "only VIRTUAL generated columns are supported");;
      throw_if (metadata_has metadata "default" || metadata_has metadata "vgi.column.default.v1")
        (Invalid_argument "generated column cannot have a default");;
      validate_generated_expression encoded owner;;
      throw_if (negb allow_generated) (Invalid_argument "generated columns unsupported by this catalog")
  end.

Definition validate_column_expressions (schema : list field) (owner : list bytes) (allow_generated : bool) : result () :=
  each_field (walk_field (check_generated owner allow_generated)) schema.
End expressions.

(** ** Every field of a column *)

(** The fields a type has at its top: those of a dictionary's values, or of an extension's storage. *)
Fixpoint type_children (t : dtype) : list field :=
  match t with
  | T_dictionary _ v => type_children v
  | T_extension _ s => type_children s
  | T_list f | T_large_list f | T_fixed_size_list f _ | T_list_view f | T_large_list_view f => [f]
  | T_struct fs => fs
  | T_map k i => [k; i]
  | _ => []
  end.

Inductive inside (f : field) : field → Prop :=
| inside_self : inside f f
| inside_child g h : g ∈ type_children (f_type f) → inside g h → inside f h.

Lemma walk_struct check fs :
  walk_type check (T_struct fs) = Ok tt ↔ ∀ f, f ∈ fs → walk_field check f = Ok tt.
Proof.
  cbn. induction fs as [|f fs IH]; [by split; [intros _ f ?%elem_of_nil|]|]. rewrite seq_Ok, IH. split.
  - intros [H1 H2] g [->|Hg]%elem_of_cons; auto.
  - intros H. split; [apply H; by left|]. intros g Hg. apply H. by right.
Qed.

Lemma each_field_Ok check fields : each_field check fields = Ok tt ↔ ∀ f, f ∈ fields → check f = Ok tt.
Proof.
  induction fields as [|f fields IH]; cbn; [by split; [intros _ f ?%elem_of_nil|]|]. rewrite seq_Ok, IH. split.
  - intros [H1 H2] g [->|Hg]%elem_of_cons; auto.
  - intros H. split; [apply H; by left|]. intros g Hg. apply H. by right.
Qed.

Lemma walk_type_iff check t :
  walk_type check t = Ok tt ↔ ∀ g, g ∈ type_children t → walk_field check g = Ok tt.
Proof.
  apply (dtype_ind' (λ t, walk_type check t = Ok tt ↔ ∀ g, g ∈ type_children t → walk_field check g = Ok tt) (λ _, True)); [|done].
  clear t. intros [] IH; try (by split; [intros _ g ?%elem_of_nil|]);
    try (cbn; split; [intros ? g ->%list_elem_of_singleton; done|intros Hg; apply Hg; by left]).
  - apply walk_struct.
  - cbn. rewrite seq_Ok. split.
    + intros [H1 H2] g [->|Hg]%elem_of_cons; [done|]. by apply list_elem_of_singleton in Hg as ->.
    + intros Hg. split; apply Hg; [by left|right; by left].
  - apply IH.
  - apply IH.
Qed.

Lemma walk_field_iff check f : walk_field check f = Ok tt ↔ ∀ g, inside f g → check (f_metadata g) = Ok tt.
Proof.
  apply (field_ind' (λ t, ∀ g, g ∈ type_children t → (walk_field check g = Ok tt ↔ ∀ h, inside g h → check (f_metadata h) = Ok tt))
    (λ f, walk_field check f = Ok tt ↔ ∀ g, inside f g → check (f_metadata g) = Ok tt)).
  - clear f. intros [] IH g; cbn [type_children]; try (by intros ?%elem_of_nil);
      try (by intros ->%list_elem_of_singleton).
    + rewrite Forall_forall in IH. apply IH.
    + destruct IH as [I1 I2]. intros [->|Hg]%elem_of_cons; [done|]. by apply list_elem_of_singleton in Hg as ->.
    + apply IH; done.
    + apply IH; done.
  - clear f. intros n t b m IH. cbn [walk_field]. rewrite seq_Ok, walk_type_iff. split.
    + intros [H1 H2] g Hg. inversion Hg as [|g' h Hc Hi]; subst; [done|]. apply (IH g' Hc); auto.
    + intros H. split; [apply (H (Field n t b m)); constructor|]. intros g Hg. apply (IH g Hg). intros h Hh. apply H.
      by eapply inside_child.
Qed.

(** The checks of a table's columns miss no field: the comments and tags, or
    the generated expressions, are accepted exactly when those of every field are,
    the children of lists, structs and maps, of a dictionary's values and of an
    extension's storage included, at any depth. *)
Theorem columns_checked `{J : JsonParser} `{A : Arrow} `{R : ArrowRecord} `{B : Base64} schema owner allow_generated :
  (validate_column_metadata schema = Ok tt ↔
   ∀ f g, f ∈ schema → inside f g → check_entries ∅ (f_metadata g) = Ok tt) ∧
  (validate_column_expressions schema owner allow_generated = Ok tt ↔
   ∀ f g, f ∈ schema → inside f g → check_generated owner allow_generated (f_metadata g) = Ok tt).
Proof.
  split; unfold validate_column_metadata, validate_column_expressions, validate_column_field; rewrite each_field_Ok;
    setoid_rewrite walk_field_iff; naive_solver.
Qed.

(** ** An expression reads back *)

Definition fine_text (value : bytes) (maximum : Z) : Prop :=
  value ≠ [] ∧ Z.of_nat (length value) ≤ maximum ∧ nul_free value ∧ Utf8.valid_utf8 value = true.

Lemma generated_text_Ok value maximum : generated_text value maximum = Ok tt ↔ fine_text value maximum.
Proof.
  unfold generated_text, fine_text, has_nul, nul_free. rewrite throw_if_Ok, !orb_false_iff, negb_false_iff, Z.ltb_ge.
  rewrite !bool_decide_eq_false. naive_solver.
Qed.

Section roundtrip.
Context `{A : Arrow} `{R : ArrowRecord} `{B : Base64}.

Lemma validated_expression encoded owner :
  validate_generated_expression encoded owner = Ok tt →
  ∃ sql, generated_expression_sql encoded = Ok sql ∧ fine_text sql (1024 * 1024) ∧ forallb is_blank sql = false.
Proof using Type.
  unfold validate_generated_expression, generated_expression_sql. intros [_ H]%bind_throw_if_Ok.
  apply bind_Ok in H as (b & -> & H). apply bind_throw_if_Ok in H as [Hb H].
  apply bind_Ok in H as (o & Ho & (row & ->%from_opt_Ok & H)%bind_Ok). apply bind_throw_if_Ok in H as [_ H].
  apply bind_Ok in H as (u & H & _). unfold check_expression_row in H.
  apply bind_throw_if_Ok in H as [_ H]. apply bind_throw_if_Ok in H as [_ H].
  apply bind_Ok in H as (sql & Hsql & H). apply bind_Ok in H as ([] & Ht & H). apply bind_Ok in H as (profile & _ & H).
  apply bind_throw_if_Ok in H as [Hblank _]. apply orb_false_iff in Hblank as [Hblank _].
  exists sql. split_and!; [|by apply generated_text_Ok|done]. cbn [mbind result_bind].
  assert (decode_ipc b = Ok (Some row)) as ->.
  { unfold decode_ipc. destruct b; [done|]. destruct (read_stream _); [done|]. by injection Ho as ->. }
  exact Hsql.
Qed.

Lemma generated_expression_made `{!ArrowLaws A} `{!Base64Laws B} encoded owner sql :
  generated_expression_metadata sql owner = Ok encoded →
  validate_generated_expression encoded owner = Ok tt ∧ generated_expression_sql encoded = Ok sql.
Proof using Type.
  unfold generated_expression_metadata.
  intros (context & _ & (cs & _ & (e & He & (b & Hb & H)%bind_Ok)%bind_Ok)%bind_Ok)%bind_Ok. cbv zeta in H.
  apply bind_Ok in H as ([] & Hv & [= <-]). split; [done|].
  apply encode_ipc_read in Hb as (_ & _ & _ & Hd). unfold generated_expression_sql, wire_base64_decode.
  rewrite base64_decode_encode. cbn [from_opt mbind result_bind]. rewrite Hd. cbn [mbind result_bind].
  destruct (built_reads _ _ _ _ (utf8 "sql" false) (Cell_string sql) He) as (? & ? & _ & _ & _ & Hr & _); try by_decide; [by left..|].
  exact Hr.
Qed.

(** A generated column's expression reads back.  What
    [generated_expression_metadata] makes of a text passes the check for its
    owner and gives the text back; and whatever passes the check holds a text that
    is not blank, of at most a mebibyte, valid UTF-8 and without NUL. *)
Theorem generated_expression_read `{!ArrowLaws A} `{!Base64Laws B} encoded owner sql :
  (generated_expression_metadata sql owner = Ok encoded →
   validate_generated_expression encoded owner = Ok tt ∧ generated_expression_sql encoded = Ok sql) ∧
  (validate_generated_expression encoded owner = Ok tt →
   ∃ sql, generated_expression_sql encoded = Ok sql ∧ fine_text sql (1024 * 1024) ∧ forallb is_blank sql = false).
Proof using Type.
  split; [apply generated_expression_made|apply validated_expression].
Qed.
End roundtrip.

(** ** The expression of a column *)

#[local] Existing Instances table_record hex_base64.

Definition next_sql : bytes := bs "n + 1".
Definition context_struct : array :=
  match build (A := table_arrow []) QueryEvaluationContextSchema None default_context_cells with
  | Ok context => match struct_array (b_columns context) (b_schema context) with inr a => a | inl _ => mkArray T_null [] end
  | Throw _ => mkArray T_null []
  end.
Definition next_row : batch :=
  match build (A := table_arrow []) SqlExpressionSchema None
    [("sql", Cell_string next_sql); ("profile", Cell_string scalar_profile);
     ("schema_path", Cell_string_list [bs "main"]); ("evaluation_context", Cell_array (Some context_struct))]%string with
  | Ok b => b
  | Throw _ => mkBatch [] None 0 []
  end.
Definition expression_arrow : Arrow := table_arrow [next_row].
#[local] Existing Instance expression_arrow.
Definition next_encoded : string := base64_encode (zb 3 :: enc_len 0).

Lemma generated_expression_read_witness :
  generated_expression_metadata next_sql [bs "main"] = Ok next_encoded ∧
  validate_generated_expression next_encoded [bs "main"] = Ok tt ∧ generated_expression_sql next_encoded = Ok next_sql.
Proof.
  assert (generated_expression_metadata next_sql [bs "main"] = Ok next_encoded) as H by (vm_compute; reflexivity).
  split; [exact H|].
  exact (proj1 (generated_expression_read (A := expression_arrow) (R := table_record) (B := hex_base64) next_encoded [bs "main"] next_sql) H).
Defined.

(** Another owner's expression is refused, and a blank one. *)
Example generated_expression_refused :
  validate_generated_expression next_encoded [bs "other"] =
    Throw (Invalid_argument "generated expression owner differs from table schema") ∧
  check_expression_row (mkBatch SqlExpressionSchema None 1 (mkArray T_string [V_text (bs " ")] :: tail (b_columns next_row))) [bs "main"] =
    Throw (Invalid_argument "unsupported generated profile or empty SQL").
Proof. vm_compute. done. Qed.

End Columns.
