(* ===== verification/Contents.v ===== *)
(** * A catalog's contents in one answer ([src/catalog_contents.cpp])

    A client may ask for everything a catalog holds at once and keep it under an
    etag.  The answer comes from a handler of the worker's author or from the
    catalog itself; here are the rules it is held to, the order its schemas are
    served in, the six streams it is sent as and the hash that may serve as etag.
    The theorems: what is served obeys the rules -- every schema after its parent,
    no path twice --, and a client is told that nothing changed only on the etag it
    sent; with the hash for an etag, only if the streams are the same or SHA-256 has
    a collision. *)

From stdpp Require Import sorting.
From S2P Require Import Prelude Text Utf8 Crypto Arrow ArrowRecord ArrowCompute Wire Protocol Metadata WireSchema Constraints.
Import Wire Protocol WireSchema Constraints.

Module Contents.

(** Two messages of one digest. *)
Definition sha256_collision `{Crypto} : Prop := ∃ m m', m ≠ m' ∧ sha256 m = sha256 m'.

(** ** Library functions

    A stream of several batches, and a batch with one column replaced. *)

Class BatchStream := { write_batches : list batch → string + bytes; read_batches : bytes → option (list batch) }.
Class BatchStreamLaws (W : BatchStream) : Prop :=
  read_write_batches l s : l ≠ [] → write_batches l = inr s → read_batches s = Some l.

(** [RecordBatch::SetColumn] *)
Class SetColumn := set_column : batch → nat → field → array → string + batch.
Class SetColumnLaws (E : SetColumn) : Prop :=
  set_column_spec b i f a b' : set_column b i f a = inr b' →
    b' = mkBatch (<[i := f]> (b_schema b)) (b_metadata b) (b_rows b) (<[i := a]> (b_columns b)).

(** ** Paths *)

Fixpoint joined (separator : ascii) (path : list bytes) : bytes :=
  match path with
  | [] => []
  | [c] => c
  | c :: path => c ++ separator :: joined separator path
  end.
Definition path_key (path : list bytes) : bytes := joined NUL path.
Definition path_display (path : list bytes) : bytes := joined (zb 46) path.

(** The path without its last component. *)
Definition parent_of (path : list bytes) : list bytes := take (length path - 1) path.

(** ** What an answer holds *)

Record SchemaContents := mkContents {
  co_path : list bytes;
  co_schema : bytes;
  co_tables : list bytes;
  co_views : list bytes;
  co_scalar_functions : list bytes;
  co_aggregate_functions : list bytes;
  co_table_functions : list bytes;
  co_scalar_macros : list bytes;
  co_table_macros : list bytes;
  co_indexes : list bytes;
}.
Definition with_tables (tables : list bytes) (s : SchemaContents) : SchemaContents :=
  mkContents (co_path s) (co_schema s) tables (co_views s) (co_scalar_functions s) (co_aggregate_functions s)
    (co_table_functions s) (co_scalar_macros s) (co_table_macros s) (co_indexes s).

Record CatalogContentsResult := mkResult { cr_schemas : list SchemaContents; cr_etag : option bytes; cr_not_modified : bool }.

Record CatalogContentsCall := mkCall {
  cc_catalog_name : bytes;
  cc_catalog_version : Z;
  cc_if_none_match : option bytes;
  cc_contents : result (list SchemaContents);
}.
Definition Handler : Type := CatalogContentsCall → result CatalogContentsResult.

Inductive CatalogContentsEtag : Type := Etag_none | ContentHash.
#[global] Instance CatalogContentsEtag_eq_dec : EqDecision CatalogContentsEtag.
Proof. solve_decision. Defined.

(** In wire order: schemas, tables, views, functions, macros, indexes. *)
Definition CatalogCollections : Type := list (option bytes).
Definition kCollectionNames : list string := ["schemas"; "tables"; "views"; "functions"; "macros"; "indexes"]%string.
Definition no_collections : CatalogCollections := replicate 6 None.

Record CatalogContentsAnswer := mkAnswer { an_result : CatalogContentsResult; an_collections : CatalogCollections }.

(** ** The order of service *)

Definition depth (s : SchemaContents) : nat := length (co_path s).

(** A stable sort: an element goes before the first that is no shallower. *)
Fixpoint insert_schema (s : SchemaContents) (l : list SchemaContents) : list SchemaContents :=
  match l with
  | [] => [s]
  | t :: l => if bool_decide (depth s ≤ depth t)%nat then s :: t :: l else t :: insert_schema s l
  end.
Definition sort_parents_first (l : list SchemaContents) : list SchemaContents := foldr insert_schema [] l.

Section contents.
Context `{A : Arrow} `{R : ArrowRecord} `{L : SchemaCodec} `{W : BatchStream} `{E : SetColumn} `{K : Crypto}.

(** ** The rules *)

Definition shown (path : list bytes) : string := str (path_display path).

Fixpoint check_each (verify_items : bool) (schemas : list SchemaContents) (keys : gset bytes) : result (gset bytes) :=
  match schemas with
  | [] => Ok keys
  | s :: schemas =>
      throw_if (bool_decide (co_path s = [])) (Invalid_argument "catalog_contents returned a schema with an empty path");;
      throw_if (bool_decide (path_key (co_path s) ∈ keys))
        (Invalid_argument ("catalog_contents returned duplicate schema path " +:+ shown (co_path s)));;
      (if verify_items then
         info ← decode_ipc (co_schema s);
         path ← (match info with Some _ => p ← get_schema_path info "path"; Ok (Some p) | None => Ok None end : result (option (list bytes)));
         throw_if (negb (bool_decide (path = Some (co_path s))))
           (Invalid_argument ("catalog_contents schema path " +:+ shown (co_path s) +:+ " does not match its SchemaInfo.path"))
       else Ok tt);;
      check_each verify_items schemas ({[path_key (co_path s)]} ∪ keys)
  end.

Fixpoint check_parents (keys : gset bytes) (schemas : list SchemaContents) : result () :=
  match schemas with
  | [] => Ok tt
  | s :: schemas =>
      throw_if (negb (bool_decide (length (co_path s) < 2)%nat) && negb (bool_decide (path_key (parent_of (co_path s)) ∈ keys)))
        (Invalid_argument ("catalog_contents returned schema " +:+ shown (co_path s) +:+ " without its parent " +:+
                           shown (parent_of (co_path s))));;
      check_parents keys schemas
  end.

Definition check_paths (schemas : list SchemaContents) (verify_items : bool) : result () :=
  keys ← check_each verify_items schemas ∅; check_parents keys schemas.

(** ** A table of a handler *)

Definition serve_table_item (item : bytes) : result bytes :=
  info ← decode_ipc item;
  throw_if (negb (match info with Some b => b_rows b =? 1 | None => false end))
    (Invalid_argument "catalog_contents returned a malformed TableInfo");;
  path ← get_schema_path info "schema_path";
  name ← get_string info "name";
  columns_bytes ← get_binary info "columns";
  if bool_decide (columns_bytes = []) then Ok item else
  constraints ← get_binary_list info "constraints";
  columns ← decode_schema columns_bytes;
  columns ← from_opt (Undefined_behaviour "a null schema") columns;
  validate_constraint_records path name columns.1 constraints;;
  served ← served_columns columns.1 constraints;
  if schema_equals true served columns.1 then Ok item else
  info ← from_opt (Undefined_behaviour "a null batch") info;
  i ← from_opt (Undefined_behaviour "a column past the end") (get_field_index (b_schema info) "columns");
  f ← from_opt (Undefined_behaviour "a column past the end") (b_schema info !! i);
  encoded ← encode_schema (served, columns.2);
  replaced ← (match set_column info i f (mkArray T_binary [V_text encoded]) with inl status => fail status | inr b => Ok b end : result batch);
  encode_ipc replaced.

(** ** The streams *)

(** Which of several failures is said is not modelled. *)
Fixpoint decode_items (items : list bytes) : result (list batch) :=
  match items with
  | [] => Ok []
  | item :: items =>
      b ← decode_ipc item;
      b ← from_opt (Runtime_error "concatenating IPC: an item has no batch") b;
      rest ← decode_items items; Ok (b :: rest)
  end.
Definition concat_ipc (groups : list (list bytes)) : result (option bytes) :=
  l ← decode_items (mjoin groups);
  match l with
  | [] => Ok None
  | _ => match write_batches l with inl status => fail status | inr s => Ok (Some s) end
  end.

(** Functions of every kind share a stream, both kinds of macro another. *)
Definition encode_collections (schemas : list SchemaContents) : result CatalogCollections :=
  mapM concat_ipc
    [[map co_schema schemas];
     map co_tables schemas;
     map co_views schemas;
     mjoin (map (λ s, [co_scalar_functions s; co_aggregate_functions s; co_table_functions s]) schemas);
     mjoin (map (λ s, [co_scalar_macros s; co_table_macros s]) schemas);
     map co_indexes schemas].

(** ** The hash *)

Definition framed (e : string * option bytes) : bytes :=
  bs e.1 ++ [NUL] ++
  match e.2 with None => [zb 0] | Some data => zb 1 :: le_bytes 8 (to_uint64 (Z.of_nat (length data))) ++ data end.
Definition digest_message (c : CatalogCollections) : bytes :=
  bs "vgi.catalog.contents.2.2" ++ [NUL] ++ mjoin (map framed (zip kCollectionNames c)).
Definition collections_digest (c : CatalogCollections) : bytes := hex_encode (sha256 (digest_message c)).

Definition catalog_contents_digest (schemas : list SchemaContents) : result bytes :=
  c ← encode_collections (sort_parents_first schemas); Ok (collections_digest c).

(** ** The answer *)

Definition not_modified (etag : bytes) : CatalogContentsAnswer := mkAnswer (mkResult [] (Some etag) true) no_collections.

Definition serve_tables (s : SchemaContents) : result SchemaContents :=
  tables ← mapM serve_table_item (co_tables s); Ok (with_tables tables s).

(** Both tags are there and the same. *)
Definition tag_matches (etag if_none_match : option bytes) : bool :=
  match etag, if_none_match with Some e, Some m => bool_decide (e = m) | _, _ => false end.

Definition answer_full (etag_mode : CatalogContentsEtag) (if_none_match : option bytes) (r : CatalogContentsResult)
    : result CatalogContentsAnswer :=
  c ← encode_collections (cr_schemas r);
  if bool_decide (cr_etag r = None) && bool_decide (etag_mode = ContentHash) then
    let etag := collections_digest c in
    if tag_matches (Some etag) if_none_match then Ok (not_modified etag)
    else Ok (mkAnswer (mkResult (cr_schemas r) (Some etag) (cr_not_modified r)) c)
  else Ok (mkAnswer r c).

Definition answer_catalog_contents (handler : option Handler) (etag_mode : CatalogContentsEtag) (call : CatalogContentsCall)
    : result CatalogContentsAnswer :=
  r ← (match handler with
       | Some handler => handler call
       | None => schemas ← cc_contents call; Ok (mkResult schemas None false)
       end : result CatalogContentsResult);
  if cr_not_modified r then
    throw_if (negb (tag_matches (cr_etag r) (cc_if_none_match call)))
      (Invalid_argument ("catalog_contents returned not_modified, but only a catalog whose etag equals " +:+
                         "if_none_match may (and it must return that etag)"));;
    throw_if (negb (bool_decide (cr_schemas r = [])))
      (Invalid_argument "catalog_contents returned not_modified with schemas; it must return none");;
    Ok (not_modified (default [] (cr_etag r)))
  else
    check_paths (cr_schemas r) (bool_decide (is_Some handler));;
    schemas ← (match handler with Some _ => mapM serve_tables (cr_schemas r) | None => Ok (cr_schemas r) end : result (list SchemaContents));
    let r := mkResult (sort_parents_first schemas) (cr_etag r) false in
    if tag_matches (cr_etag r) (cc_if_none_match call) then Ok (not_modified (default [] (cr_etag r)))
    else answer_full etag_mode (cc_if_none_match call) r.

Definition collection_cell (c : option bytes) : cell := match c with Some s => Cell_binary s | None => Cell_null end.

Definition contents_cells (catalog_version : Z) (a : CatalogContentsAnswer) : list (string * cell) :=
  [("catalog_version", Cell_int64 catalog_version); ("etag", Cell_optional_string (cr_etag (an_result a)));
   ("not_modified", Cell_bool (cr_not_modified (an_result a)))]%string ++
  map (λ e, (e.1, collection_cell e.2)) (zip kCollectionNames (an_collections a)).

Definition encode_catalog_contents (catalog_version : Z) (a : CatalogContentsAnswer) : result batch :=
  schema ← payload_schema_of "catalog_contents";
  schema ← from_opt (Undefined_behaviour "a builder without a schema") schema;
  build schema None (contents_cells catalog_version a).

End contents.

(** ** Paths and their keys *)

Lemma joined_inj c p q :
  p ≠ [] → q ≠ [] → Forall (λ x, c ∉ x) p → Forall (λ x, c ∉ x) q → joined c p = joined c q → p = q.
Proof.
  revert q. induction p as [|x p IH]; intros q Hp Hq Fp Fq E; [done|]. destruct q as [|y q]; [done|].
  apply Forall_cons in Fp as [Fx Fp], Fq as [Fy Fq].
  destruct p as [|x' p], q as [|y' q]; cbn [joined] in E.
  - congruence.
  - destruct Fx. rewrite E. apply elem_of_app. right. left.
  - destruct Fy. rewrite <- E. apply elem_of_app. right. left.
  - apply split_inj in E as [-> E]; [|done..]. f_equal. by apply IH.
Qed.

Definition nul_free_path (p : list bytes) : Prop := Forall nul_free p.

Lemma path_key_inj p q : p ≠ [] → q ≠ [] → nul_free_path p → nul_free_path q → path_key p = path_key q → p = q.
Proof. apply joined_inj. Qed.

(** ** The order *)

Lemma insert_schema_perm s l : insert_schema s l ≡ₚ s :: l.
Proof. induction l as [|t l IH]; cbn; [done|]. case_bool_decide; [done|]. rewrite IH. by apply perm_swap. Qed.

Lemma sort_perm l : sort_parents_first l ≡ₚ l.
Proof. induction l as [|s l IH]; cbn; [done|]. by rewrite insert_schema_perm, IH. Qed.

Definition shallower (s t : SchemaContents) : Prop := (depth s ≤ depth t)%nat.

Lemma insert_schema_sorted s l : StronglySorted shallower l → StronglySorted shallower (insert_schema s l).
Proof.
  induction 1 as [|t l Hl IH Ht]; cbn; [repeat constructor|]. case_bool_decide as Hd.
  - constructor; [by constructor|]. constructor; [done|]. eapply Forall_impl; [exact Ht|]. unfold shallower in *. intros; lia.
  - constructor; [done|]. rewrite insert_schema_perm. constructor; [unfold shallower; lia|done].
Qed.

Lemma sort_sorted l : StronglySorted shallower (sort_parents_first l).
Proof. induction l; cbn; [constructor|by apply insert_schema_sorted]. Qed.

(** Stable: schemas of one depth keep their order. *)
Lemma sort_stable n l : filter (λ s, depth s = n) (sort_parents_first l) = filter (λ s, depth s = n) l.
Proof.
  assert (∀ s l, filter (λ s, depth s = n) (insert_schema s l) = filter (λ s, depth s = n) (s :: l)) as Hins.
  { clear l. intros s l. induction l as [|t l IH]; [done|]. cbn [insert_schema]. case_bool_decide as Hd; [done|].
    rewrite filter_cons, IH, !filter_cons. repeat case_decide; try done. lia. }
  induction l as [|s l IH]; [done|]. cbn [sort_parents_first foldr]. rewrite Hins, !filter_cons.
  change (foldr insert_schema [] l) with (sort_parents_first l). by rewrite IH.
Qed.

Lemma sorted_before l i j s t :
  StronglySorted shallower l → l !! i = Some s → l !! j = Some t → (depth t < depth s)%nat → (j < i)%nat.
Proof.
  intros Hs Hi Hj Hd. destruct (decide (j < i)%nat); [done|]. exfalso.
  assert (i = j ∨ i < j)%nat as [->|Hlt] by lia; [rewrite Hi in Hj; injection Hj as ->; lia|].
  revert i j Hi Hj Hlt n. induction Hs as [|u l Hl IH Hu]; intros i j Hi Hj Hlt n; [done|].
  destruct i as [|i], j as [|j]; [lia| |lia|].
  - injection Hi as ->. rewrite Forall_forall in Hu. change (l !! j = Some t) in Hj. apply list_elem_of_lookup_2, Hu in Hj. unfold shallower in Hj. lia.
  - apply (IH i j); [done|done|lia|lia].
Qed.

Section served.
Context `{A : Arrow} `{R : ArrowRecord} `{L : SchemaCodec} `{W : BatchStream} `{E : SetColumn} `{K : Crypto}.

(** ** The rules are kept *)

Definition key_of (s : SchemaContents) : bytes := path_key (co_path s).

Lemma check_each_Ok verify l keys keys' :
  check_each verify l keys = Ok keys' →
  Forall (λ s, co_path s ≠ []) l ∧ NoDup (map key_of l) ∧ (∀ k, k ∈ map key_of l → k ∉ keys) ∧
  ∀ k, k ∈ keys' ↔ k ∈ keys ∨ k ∈ map key_of l.
Proof using Type.
  revert keys. induction l as [|s l IH]; intros keys; cbn [check_each map].
  { intros [= <-]. split_and!; [constructor|constructor|by intros k ?%elem_of_nil|]. intros k. rewrite elem_of_nil. tauto. }
  intros [Hp H]%bind_throw_if_Ok. apply bind_throw_if_Ok in H as [Hd H]. apply bind_Ok in H as (u & _ & H).
  rewrite bool_decide_eq_false in Hp, Hd. apply IH in H as (I1 & I2 & I3 & I4). fold (key_of s) in *. split_and!.
  - by constructor.
  - constructor; [|done]. intros Hin. apply I3 in Hin. set_solver.
  - intros k [->|Hk]%elem_of_cons; [done|]. apply I3 in Hk. set_solver.
  - intros k. rewrite I4, elem_of_cons. set_solver.
Qed.

Lemma check_parents_Ok keys l :
  check_parents keys l = Ok tt → Forall (λ s, (length (co_path s) < 2)%nat ∨ path_key (parent_of (co_path s)) ∈ keys) l.
Proof using Type.
  induction l as [|s l IH]; cbn; [constructor|]. intros [H1 H2]%bind_throw_if_Ok. constructor; [|by apply IH].
  apply andb_false_iff in H1 as [H|H]; apply negb_false_iff, bool_decide_eq_true in H; auto.
Qed.

Lemma serve_tables_paths l l' : mapM serve_tables l = Ok l' → map co_path l' = map co_path l.
Proof using Type.
  revert l'. induction l as [|s l IH]; intros l'; [by intros [= <-]|]. cbn.
  intros (s' & (tables & _ & [= <-])%bind_Ok & (rest & Hr & [= <-])%bind_Ok)%bind_Ok. cbn. f_equal. by apply IH.
Qed.

(** The paths an answer may hold: none empty, none twice, each with its parent. *)
Definition well_kept (paths : list (list bytes)) : Prop :=
  Forall (λ p, p ≠ []) paths ∧ NoDup paths ∧
  Forall (λ p, (length p < 2)%nat ∨ path_key (parent_of p) ∈ map path_key paths) paths.

Lemma contents_paths_Ok l verify : check_paths l verify = Ok tt → well_kept (map co_path l).
Proof using Type.
  unfold check_paths. intros (keys & (H1 & H2 & _ & H4)%check_each_Ok & H5%check_parents_Ok)%bind_Ok.
  assert (map key_of l = map path_key (map co_path l)) as Hk by (by rewrite map_map). split_and!.
  - by apply List.Forall_map.
  - rewrite Hk in H2. by apply NoDup_fmap_1 in H2.
  - apply List.Forall_map. eapply Forall_impl; [exact H5|]. cbn. intros s [Hs|Hs]; [by left|right]. rewrite <- Hk.
    apply H4 in Hs. set_solver.
Qed.

Lemma well_kept_perm l l' : l' ≡ₚ l → well_kept l → well_kept l'.
Proof using Type.
  intros Heq (H1 & H2 & H3). unfold well_kept. split_and!; [by rewrite Heq|by rewrite Heq|].
  rewrite Heq. eapply Forall_impl; [exact H3|]. cbn. intros s [Hs|Hs]; [by left|right]. by rewrite Heq.
Qed.

Lemma parent_shape p : (2 <= length p)%nat → parent_of p ≠ [] ∧ (length (parent_of p) < length p)%nat.
Proof using Type.
  intros Hl. unfold parent_of. split; [intros Hnil; apply (f_equal length) in Hnil|]; rewrite length_take in *; cbn in *; lia.
Qed.

Lemma parents_first l i s :
  well_kept (map co_path l) → StronglySorted shallower l → Forall (λ s, nul_free_path (co_path s)) l →
  l !! i = Some s → (2 <= length (co_path s))%nat →
  ∃ j t, (j < i)%nat ∧ l !! j = Some t ∧ co_path t = parent_of (co_path s).
Proof using Type.
  intros (H1 & _ & H3) Hsort Hnul Hi Hlen. rewrite List.Forall_map in H1, H3.
  rewrite Forall_forall in H1, H3, Hnul. pose proof (list_elem_of_lookup_2 _ _ _ Hi) as Hin.
  destruct (H3 s Hin) as [?|Hk]; [lia|]. rewrite map_map in Hk. apply list_elem_of_fmap in Hk as (t & Hk & Ht).
  destruct (parent_shape _ Hlen) as [Hne Hshort].
  apply path_key_inj in Hk; [|done|by apply H1|by apply Forall_take, Hnul|by apply Hnul].
  apply list_elem_of_lookup in Ht as [j Hj]. exists j, t. split_and!; [|done|done].
  eapply sorted_before; [done..|]. unfold depth. by rewrite <- Hk.
Qed.

Lemma answer_full_Ok mode m r a :
  answer_full mode m r = Ok a → cr_not_modified r = false → tag_matches (cr_etag r) m = false →
  ∃ c, encode_collections (cr_schemas r) = Ok c ∧
    (a = not_modified (collections_digest c) ∧ mode = ContentHash ∧ cr_etag r = None ∧ m = Some (collections_digest c) ∨
     cr_schemas (an_result a) = cr_schemas r ∧ cr_not_modified (an_result a) = false ∧ an_collections a = c ∧
     tag_matches (cr_etag (an_result a)) m = false ∧
     (mode = ContentHash → cr_etag r = None → cr_etag (an_result a) = Some (collections_digest c) ∧ m ≠ Some (collections_digest c))).
Proof using Type.
  unfold answer_full. intros (c & Hc & H)%bind_Ok Hm Ht. exists c. split; [done|].
  repeat case_bool_decide; cbn [andb] in H.
  - destruct (tag_matches (Some (collections_digest c)) m) eqn:Htag; injection H as <-.
    + left. split_and!; [done..|]. unfold tag_matches in Htag. destruct m; [|done]. apply bool_decide_eq_true in Htag. congruence.
    + right. split_and!; [done..|]. intros _ _. split; [done|]. intros ->. unfold tag_matches in Htag. by rewrite bool_decide_true in Htag.
  - injection H as <-. right. by split_and!.
  - injection H as <-. right. by split_and!.
  - injection H as <-. right. by split_and!.
Qed.

(** C30. What an answer serves.  An answer that says nothing changed carries no
    stream, and the etag the client sent; any other carries the streams of its
    schemas and a tag that is not the client's.  The schemas it serves have a path
    each, no path twice, and -- where no component holds a NUL byte -- every schema
    comes after its parent, whatever order a handler gave them in. *)
Theorem contents_served handler mode call a :
  answer_catalog_contents handler mode call = Ok a →
  let l := cr_schemas (an_result a) in
  (cr_not_modified (an_result a) = true →
   l = [] ∧ an_collections a = no_collections ∧ ∃ e, cr_etag (an_result a) = Some e ∧ cc_if_none_match call = Some e) ∧
  (cr_not_modified (an_result a) = false →
   tag_matches (cr_etag (an_result a)) (cc_if_none_match call) = false ∧ encode_collections l = Ok (an_collections a) ∧
   NoDup (map co_path l) ∧
   (Forall (λ s, nul_free_path (co_path s)) l → ∀ i s, l !! i = Some s → (2 <= length (co_path s))%nat →
    ∃ j t, (j < i)%nat ∧ l !! j = Some t ∧ co_path t = parent_of (co_path s))).
Proof using Type.
  assert (∀ o m, tag_matches o m = true → m = Some (default [] o)) as Htag.
  { intros [e|] [m|]; cbn; try done. by intros ->%bool_decide_eq_true. }
  unfold answer_catalog_contents. intros (r & _ & H)%bind_Ok. destruct (cr_not_modified r) eqn:Hr.
  { apply bind_throw_if_Ok in H as [Ht%negb_false_iff H]. apply bind_throw_if_Ok in H as [_ [= <-]]. apply Htag in Ht.
    cbn. split; [|done]. intros _. split_and!; [done..|]. by eexists. }
  apply bind_Ok in H as ([] & Hp%contents_paths_Ok & H). apply bind_Ok in H as (schemas & Hs & H). cbv zeta in H.
  assert (well_kept (map co_path (sort_parents_first schemas))) as Hw.
  { apply (well_kept_perm (map co_path schemas)); [apply fmap_Permutation, sort_perm|].
    destruct handler; [by rewrite (serve_tables_paths _ _ Hs)|by injection Hs as <-]. }
  destruct (tag_matches _ _) eqn:Ht.
  { injection H as <-. apply Htag in Ht. cbn in *. split; [|done]. intros _. split_and!; [done..|]. by eexists. }
  apply answer_full_Ok in H as (c & Hc & [(-> & _ & _ & Hm)|(E1 & E2 & E3 & E4 & _)]); [| |done|done].
  - cbn. split; [|done]. intros _. split_and!; [done..|]. by eexists.
  - cbn [cr_schemas] in E1. rewrite E1, E2, E3. split; [done|]. intros _. split_and!; [done|done|apply Hw|].
    intros Hnul i s. apply parents_first; [done|apply sort_sorted|done].
Qed.

(** ** The hash tells contents apart *)

Definition sized (c : CatalogCollections) : Prop :=
  length c = 6%nat ∧ Forall (λ o : option bytes, Z.of_nat (length (default [] o)) < 2 ^ 64) c.

Lemma framed_inj n o o' a b :
  Z.of_nat (length (default [] o)) < 2 ^ 64 → Z.of_nat (length (default [] o')) < 2 ^ 64 →
  framed (n, o) ++ a = framed (n, o') ++ b → o = o' ∧ a = b.
Proof using Type.
  intros Ho Ho'. unfold framed. cbn [fst snd]. rewrite <- !app_assoc. intros H%app_inv_head%app_inv_head.
  destruct o as [x|], o' as [y|]; cbn [default from_option] in Ho, Ho'.
  - rewrite <- !app_comm_cons, <- !app_assoc in H.
    apply (f_equal tail) in H; cbn [tail] in H. apply app_inj_len in H as [Hl H]; [|by rewrite !le_bytes_length].
    apply (f_equal le_value) in Hl. rewrite !le_value_le_bytes in Hl. change (256 ^ Z.of_nat 8) with (2 ^ 64) in Hl.
    unfold to_uint64 in Hl. rewrite !Zmod_mod, !Z.mod_small in Hl by (split; [lia|assumption]).
    apply app_inj_len in H as [-> ->]; [done|]. lia.
  - by apply (f_equal head) in H.
  - by apply (f_equal head) in H.
  - by apply (f_equal tail) in H.
Qed.

Lemma framed_list_inj names c c' :
  length c = length names → length c' = length names →
  Forall (λ o : option bytes, Z.of_nat (length (default [] o)) < 2 ^ 64) c →
  Forall (λ o : option bytes, Z.of_nat (length (default [] o)) < 2 ^ 64) c' →
  mjoin (map framed (zip names c)) = mjoin (map framed (zip names c')) → c = c'.
Proof using Type.
  revert c c'. induction names as [|n names IH]; intros [|o c] [|o' c'] Hl Hl' Hc Hc' H; try done.
  apply Forall_cons in Hc as [Ho Hc], Hc' as [Ho' Hc']. cbn in H. apply framed_inj in H as [-> H]; [|done..].
  f_equal. by apply IH; [cbn in *; lia..|done|done|].
Qed.

Lemma digest_inj c c' : sized c → sized c' → collections_digest c = collections_digest c' → c = c' ∨ sha256_collision.
Proof using Type.
  intros [Hl Hc] [Hl' Hc'] H. unfold collections_digest in H. apply (f_equal hex_decode) in H. rewrite !hex_decode_encode in H.
  injection H as H. destruct (decide (digest_message c = digest_message c')) as [Heq|Hne]; [left|right; by do 2 eexists].
  unfold digest_message in Heq. apply app_inv_head in Heq. cbn [app] in Heq. injection Heq as Heq.
  by apply (framed_list_inj kCollectionNames).
Qed.

(** Revalidation by the hash of the contents is exact.  When a client got a
    catalog's contents with the hash for etag and later sends it, it is told that
    nothing changed if the streams of the contents are the same as those it has,
    and only then -- or else SHA-256 has a collision --; otherwise it gets the new
    ones. *)
Theorem revalidation_exact call call' a a' e :
  answer_catalog_contents None ContentHash call = Ok a → cr_not_modified (an_result a) = false → cr_etag (an_result a) = Some e →
  cc_if_none_match call' = Some e → answer_catalog_contents None ContentHash call' = Ok a' →
  ∃ l c, cc_contents call' = Ok l ∧ encode_collections (sort_parents_first l) = Ok c ∧
    (c = an_collections a → a' = not_modified e) ∧
    (sized c → sized (an_collections a) → a' = not_modified e → c = an_collections a ∨ sha256_collision) ∧
    (a' ≠ not_modified e → an_collections a' = c ∧ cr_etag (an_result a') = Some (collections_digest c)).
Proof using Type.
  assert (∀ call a, answer_catalog_contents None ContentHash call = Ok a → ∃ l c, cc_contents call = Ok l ∧
    encode_collections (sort_parents_first l) = Ok c ∧
    (a = not_modified (collections_digest c) ∧ cc_if_none_match call = Some (collections_digest c) ∨
     cr_not_modified (an_result a) = false ∧ an_collections a = c ∧ cr_etag (an_result a) = Some (collections_digest c) ∧
     cc_if_none_match call ≠ Some (collections_digest c))) as Hans.
  { clear. intros call a. unfold answer_catalog_contents. intros (r & (l & Hl & [= <-])%bind_Ok & H)%bind_Ok. cbn [cr_not_modified] in H.
    apply bind_Ok in H as (_ & _ & (schemas & [= <-] & H)%bind_Ok). cbn [cr_schemas cr_etag tag_matches] in H.
    apply answer_full_Ok in H as (c & Hc & H); [|done..]. exists l, c. split_and!; [done..|].
    destruct H as [(-> & _ & _ & Hm)|(_ & H1 & H2 & _ & H3)]; [by left|right]. destruct (H3 eq_refl eq_refl). done. }
  intros Ha Hfull He Hm Ha'. destruct (Hans _ _ Ha) as (l0 & c0 & _ & _ & [[-> _]|(_ & Hc0 & He0 & _)]); [done|].
  rewrite He in He0. injection He0 as ->. destruct (Hans _ _ Ha') as (l & c & Hl & Hc & H). exists l, c. rewrite Hc0.
  rewrite Hm in H. split_and!; [done|done|..].
  - intros ->. by destruct H as [[-> _]|(_ & _ & _ & H)].
  - intros Hs Hs0 ->. destruct H as [[Hd _]|(H & _)]; [|done].
    assert (collections_digest c0 = collections_digest c) as Hcd by (unfold not_modified in Hd; congruence). by apply digest_inj.
  - intros Hn. destruct H as [[Hd [= Hcd]]|(_ & H1 & H2 & _)]; [|done]. destruct Hn. by rewrite Hd, <- Hcd.
Qed.

(** ** What the streams hold *)

(** A stream reads back as the batches of its items, in order. *)
Lemma stream_holds_items `{!BatchStreamLaws W} groups s :
  concat_ipc groups = Ok (Some s) → ∃ l, decode_items (mjoin groups) = Ok l ∧ read_batches s = Some l.
Proof using Type.
  unfold concat_ipc. intros (l & Hl & H)%bind_Ok. exists l. split; [done|]. destruct l as [|b l]; [done|].
  destruct (write_batches _) as [|s'] eqn:Hw; [done|]. injection H as <-. by apply read_write_batches.
Qed.

(** A table is served as the handler gave it, or with its columns replaced by those
    that its constraint records call for -- and nothing else. *)
Theorem table_served_as_given `{!ArrowLaws A} `{!SchemaCodecLaws A L} `{!SetColumnLaws E} item item' :
  serve_table_item item = Ok item' → item' ≠ item →
  ∃ b b' i columns constraints served encoded,
    decode_ipc item = Ok (Some b) ∧ decode_ipc item' = Ok (Some b') ∧ get_field_index (b_schema b) "columns" = Some i ∧
    get_binary_list (Some b) "constraints" = Ok constraints ∧ served_columns columns.1 constraints = Ok served ∧
    decode_schema encoded = Ok (Some (served, columns.2)) ∧
    (i < length (b_columns b) → b_columns b' !! i = Some (mkArray T_binary [V_text encoded]))%nat ∧
    (∀ j, j ≠ i → b_columns b' !! j = b_columns b !! j ∧ b_schema b' !! j = b_schema b !! j) ∧ b_rows b' = b_rows b.
Proof using Type.
  unfold serve_table_item. intros (o & Ho & H)%bind_Ok Hne. apply bind_throw_if_Ok in H as [_ H].
  apply bind_Ok in H as (path & _ & H). apply bind_Ok in H as (name & _ & H). apply bind_Ok in H as (cb & _ & H).
  case_bool_decide; [by injection H as ->|]. apply bind_Ok in H as (constraints & Hc & H).
  apply bind_Ok in H as (oc & _ & H). apply bind_Ok in H as (columns & _ & H). apply bind_Ok in H as ([] & _ & H).
  apply bind_Ok in H as (served & Hs & H). destruct (schema_equals _ _ _); [by injection H as ->|].
  apply bind_Ok in H as (b & Hb%from_opt_Ok & H). subst o. apply bind_Ok in H as (i & Hi%from_opt_Ok & H).
  apply bind_Ok in H as (f & Hf%from_opt_Ok & H). apply bind_Ok in H as (encoded & He%decode_encode_schema & H).
  apply bind_Ok in H as (b' & Hset & H). destruct (set_column _ _ _ _) as [|b''] eqn:Hsc; [done|]. injection Hset as ->.
  apply set_column_spec in Hsc as ->. apply encode_ipc_read in H as (_ & _ & _ & Hd).
  do 7 eexists. split_and!; [done..| | |done].
  - intros Hl. cbn. by apply list_lookup_insert_eq.
  - intros j Hj. cbn. by rewrite !list_lookup_insert_ne.
Qed.
End served.

(** ** Witnesses and examples *)

Section listed.
Variable streams : list (list batch).

(** A stream that says which of a list it is. *)
Definition listed_stream : BatchStream :=
  {| write_batches := λ l, match list_find (λ l', l' = l) streams with
       | Some (i, _) => inr (zb 4 :: enc_len i)
       | None => inl "not supported"%string
       end;
     read_batches := λ s, match s with
       | _ :: r => match dec_len r with Some (i, []) => streams !! i | _ => None end
       | [] => None
       end |}.
Lemma listed_stream_laws : BatchStreamLaws listed_stream.
Proof using Type.
  intros l s _. cbn. destruct (list_find _ streams) as [[i y]|] eqn:Hf; [|done]. intros [= <-].
  apply list_find_Some in Hf as (Hi & -> & _). pose proof (dec_enc_len i []) as Hd. rewrite app_nil_r in Hd. by rewrite Hd, Hi.
Qed.
End listed.

Definition plain_set : SetColumn := λ b i f a, inr (mkBatch (<[i := f]> (b_schema b)) (b_metadata b) (b_rows b) (<[i := a]> (b_columns b))).
Lemma plain_set_laws : SetColumnLaws plain_set.
Proof. by intros b i f a b' [= <-]. Qed.

Definition schema_batch (path : list string) : batch :=
  mkBatch [Field "path" (list_of T_string) false []] None 1 [mkArray (list_of T_string) [V_list (map (V_text ∘ bs) path)]].
Definition trial_batches : list batch := [schema_batch ["main"]; schema_batch ["main"; "sub"]]%string.
Definition trial_schema (path : list string) (i : nat) : SchemaContents := mkContents (map bs path) (zb 3 :: enc_len i) [] [] [] [] [] [] [] [].
Definition trial_arrow : Arrow := schema_arrow trial_batches.
Definition trial_codec : SchemaCodec := list_codec trial_batches [].
Definition trial_stream : BatchStream := listed_stream [trial_batches].

(** A handler that names the child first. *)
Definition backwards : Handler :=
  λ _, Ok (mkResult [trial_schema ["main"; "sub"] 1; trial_schema ["main"] 0]%string (Some (bs "v2")) false).
Definition trial_call (m : option bytes) : CatalogContentsCall := mkCall (bs "db") 1 m (Ok [trial_schema ["main"; "sub"] 1; trial_schema ["main"] 0]%string).
Definition trial_answer (handler : option Handler) (mode : CatalogContentsEtag) (m : option bytes) : result CatalogContentsAnswer :=
  answer_catalog_contents (A := trial_arrow) (R := table_record) (L := trial_codec) (W := trial_stream) (E := plain_set) (K := toy_crypto)
    handler mode (trial_call m).
Definition or_none (r : result CatalogContentsAnswer) : CatalogContentsAnswer :=
  match r with Ok a => a | Throw _ => not_modified [] end.
Definition served_answer : CatalogContentsAnswer := or_none (trial_answer (Some backwards) Etag_none (Some (bs "v1"))).

Lemma contents_served_witness :
  trial_answer (Some backwards) Etag_none (Some (bs "v1")) = Ok served_answer ∧
  map co_path (cr_schemas (an_result served_answer)) = [[bs "main"]; [bs "main"; bs "sub"]] ∧
  tag_matches (cr_etag (an_result served_answer)) (Some (bs "v1")) = false.
Proof.
  assert (trial_answer (Some backwards) Etag_none (Some (bs "v1")) = Ok served_answer) as Ha by (vm_compute; reflexivity).
  assert (cr_not_modified (an_result served_answer) = false) as Hn by (vm_compute; reflexivity).
  split; [exact Ha|]. split; [vm_compute; reflexivity|].
  destruct (@contents_served trial_arrow table_record trial_codec trial_stream plain_set toy_crypto _ _ _ _ Ha) as [_ H].
  destruct (H Hn) as [Ht _]. exact Ht.
Defined.

(** The first answer, and the same again. *)
Definition first_answer : CatalogContentsAnswer := or_none (trial_answer None ContentHash None).
Definition first_etag : bytes := default [] (cr_etag (an_result first_answer)).

Lemma revalidation_exact_witness :
  trial_answer None ContentHash None = Ok first_answer ∧
  trial_answer None ContentHash (Some first_etag) = Ok (not_modified first_etag) ∧
  ∃ l c, cc_contents (trial_call (Some first_etag)) = Ok l ∧
    @encode_collections trial_arrow trial_stream (sort_parents_first l) = Ok c ∧
    (c = an_collections first_answer → not_modified first_etag = not_modified first_etag).
Proof.
  assert (trial_answer None ContentHash None = Ok first_answer) as Ha by (vm_compute; reflexivity).
  assert (trial_answer None ContentHash (Some first_etag) = Ok (not_modified first_etag)) as Ha' by (vm_compute; reflexivity).
  assert (cr_not_modified (an_result first_answer) = false) as Hn by (vm_compute; reflexivity).
  assert (cr_etag (an_result first_answer) = Some first_etag) as He by (vm_compute; reflexivity).
  assert (cc_if_none_match (trial_call (Some first_etag)) = Some first_etag) as Hm by (vm_compute; reflexivity).
  split; [exact Ha|]. split; [exact Ha'|].
  destruct (@revalidation_exact trial_arrow table_record trial_codec trial_stream plain_set toy_crypto _ _ _ _ _ Ha Hn He Hm Ha')
    as (l & c & H1 & H2 & H3 & _).
  exists l, c. split; [exact H1|]. split; [exact H2|]. exact H3.
Defined.

(** A path component may hold a NUL byte, and the key of a path joins its components
    with one: the key of a two-component path with such a component is that of a
    three-component path, so a schema passes the check without its parent. *)
Definition orphan_paths : list SchemaContents :=
  map (λ p, mkContents p [] [] [] [] [] [] [] [] []) [[bs "a"]; [bs "a" ++ [NUL] ++ bs "b"]; [bs "a"; bs "b"; bs "c"]].
Example orphan_passes :
  @check_paths trial_arrow orphan_paths false = Ok tt ∧ [bs "a"; bs "b"] ∉ map co_path orphan_paths.
Proof. split; [by vm_compute|]. apply (bool_decide_eq_false_1 ([bs "a"; bs "b"] ∈ map co_path orphan_paths)). by vm_compute. Qed.

End Contents.
