(* ===== verification/MemoryCatalog.v ===== *)
(** * The in-memory catalog ([src/memory_catalog.cpp])

    A catalog of schemas, tables and views that exist only as definitions, kept
    per attachment.  Here is its state, every method it serves and the row of
    information it keeps of a table.  The theorems: calls on one attachment leave
    the others alone and a refused call leaves everything; a schema is filed under
    its own path with its parent there; the version an attachment reports rises
    with every change, so that a client that saw the same version twice saw the
    same contents. *)

From stdpp Require Import sorting.
From S2P Require Import Prelude Text Crypto Arrow ArrowRecord ArrowCompute Wire OpaqueSeal Protocol Metadata Json WireSchema SqlScalar Constraints Capabilities Columns Contents.
Import Wire Protocol Metadata Json WireSchema Constraints Capabilities Columns Contents.

Module MemoryCatalog.

(** ** The rows of information *)

Definition CatalogInfoSchema : list field :=
  [fld "name" T_string false; fld "implementation_version" T_string true; fld "data_version_spec" T_string true;
   fld "attach_option_specs" (list_of T_binary) false;
   fld "releases" (list_of (T_struct [fld "version" T_string false; fld "released_at" (T_timestamp 2 "UTC") true;
     fld "summary" T_string false; fld "notes_url" T_string true])) false;
   fld "source_url" T_string true].
Definition SchemaInfoSchema : list field :=
  [fld "comment" T_string true; fld "tags" (map_of T_string T_string) false; fld "path" (list_of T_string) false;
   fld "estimated_object_count" (map_of T_string T_int64) true; fld "options" T_binary true].
Definition TableInfoSchema : list field :=
  [fld "comment" T_string true; fld "tags" (map_of T_string T_string) false; fld "name" T_string false;
   fld "schema_path" (list_of T_string) false; fld "columns" T_binary false;
   fld "constraints" (list_of T_binary) false; fld "definition_revision" T_binary true;
   fld "write_result_modes" (map_of T_string T_string) false; fld "supports_column_statistics" T_bool false;
   fld "scan_function" T_binary true; fld "insert_function" T_binary true; fld "update_function" T_binary true;
   fld "delete_function" T_binary true; fld "cardinality_estimate" T_int64 true; fld "cardinality_max" T_int64 true;
   fld "column_statistics" T_binary true; fld "bind_result" T_binary true;
   fld "required_filters" (list_of (list_of (list_of T_string))) false; fld "options" T_binary true;
   fld "layout" T_binary true].
Definition ViewInfoSchema : list field :=
  [fld "comment" T_string true; fld "tags" (map_of T_string T_string) false; fld "name" T_string false;
   fld "schema_path" (list_of T_string) false; fld "definition" T_string false;
   fld "column_comments" (map_of T_string T_string) false; fld "aliases" (list_of T_string) false;
   fld "security" T_string false].

(** ** The state *)

Record Object := mkObject { ob_name : bytes; ob_item : bytes }.
Record Schema := mkSchema {
  sc_path : list bytes;
  sc_comment : option bytes;
  sc_tags : gmap bytes bytes;
  sc_tables : gmap bytes Object;
  sc_views : gmap bytes Object;
}.
Record State := mkState { st_version : Z; st_constraints : bool; st_schemas : gmap bytes Schema }.
Abbreviation Attaches := (gmap bytes State).

Record MemoryCatalogOptions := mkOptions {
  mo_name : bytes;
  mo_comment : option bytes;
  mo_unversioned : bool;
  mo_supports_catalog_contents : bool;
  mo_catalog_contents_handler : option Handler;
  mo_catalog_contents_etag : CatalogContentsEtag;
}.

(** What a call finds around it: the next random token, and the call that an
    attachment is sealed for, if there is one, with its nonce. *)
Record Surroundings := mkSurroundings { sr_token : bytes; sr_call : option OpaqueSeal.Call; sr_nonce : bytes }.

Definition view_of (view : bool) (s : Schema) : gmap bytes Object := if view then sc_views s else sc_tables s.
Definition with_objects (view : bool) (objects : gmap bytes Object) (s : Schema) : Schema :=
  if view then mkSchema (sc_path s) (sc_comment s) (sc_tags s) (sc_tables s) objects
  else mkSchema (sc_path s) (sc_comment s) (sc_tags s) objects (sc_views s).
Definition with_schemas (version : Z) (schemas : gmap bytes Schema) (s : State) : State :=
  mkState version (st_constraints s) schemas.

(** The entries of a [std::map], in the order of its keys. *)
Definition key_before {X} (a b : bytes * X) : Prop := string_le (str a.1) (str b.1).
#[global] Instance key_before_dec {X} (a b : bytes * X) : Decision (key_before a b).
Proof. unfold key_before. apply _. Defined.
Definition in_order {X} (m : gmap bytes X) : list (bytes * X) := merge_sort key_before (map_to_list m).

(** ++version: past the last [int64_t] undefined. *)
Definition next_version (version : Z) : result Z :=
  throw_if (2 ^ 63 - 1 <=? version) (Undefined_behaviour "signed overflow");; Ok (version + 1).

Create HintDb memory discriminated.

Section catalog.
Context `{A : Arrow} `{R : ArrowRecord} `{L : SchemaCodec} `{W : BatchStream} `{E : SetColumn} `{K : Crypto} `{B : Base64} `{J : JsonParser}.

(** ** Helpers *)

Definition memory_catalog_capabilities : CatalogCapabilityProfiles :=
  mkProfiles [CONSTRAINT_RECORDS_READ] [CONSTRAINT_CREATE] [CONSTRAINT_ENFORCE] [].

(** The first field that is of an extension's type, or says it is one, at any depth;
    the fields of a map are its key and its item, and an extension or a dictionary
    has none. *)
Definition logical_key (key : string) : bool := String.prefix "ARROW:extension:" key || String.prefix "vgi.logical_type." key.
Definition is_extension (t : dtype) : bool := match t with T_extension _ _ => true | _ => false end.
Definition or_else {X} (a b : option X) : option X := match a with Some x => Some x | None => b end.

Fixpoint logical_field (f : field) : option string :=
  match f with
  | Field name t _ metadata => if is_extension t || existsb logical_key metadata.*1 then Some name else logical_child t
  end
with logical_child (t : dtype) : option string :=
  match t with
  | T_list f | T_large_list f | T_fixed_size_list f _ | T_list_view f | T_large_list_view f => logical_field f
  | T_struct fs =>
      (fix go (fs : list field) : option string := match fs with [] => None | f :: fs => or_else (logical_field f) (go fs) end) fs
  | T_map k i => or_else (logical_field k) (logical_field i)
  | _ => None
  end.
Definition require_plain_type (f : field) : result () :=
  match logical_field f with
  | Some name =>
      Throw (Not_implemented ("catalog_table_create: the in-memory catalog cannot store logical-type column " +:+ name +:+
                              " (UUID, JSON and other extension types)"))
  | None => Ok tt
  end.

(** One definition's column. *)
Definition not_null_column (encoded : bytes) (columns : list field) : result bytes :=
  o ← decode_ipc encoded;
  definition ← from_opt (Invalid_argument "catalog_table_create: malformed constraint definition") o;
  throw_if (negb (b_rows definition =? 1) || negb (schema_equals false (b_schema definition) ConstraintDefinitionSchema))
    (Invalid_argument "catalog_table_create: malformed constraint definition");;
  kind ← get_enum o "kind";
  throw_if (negb (bool_decide (kind = bs "NOT_NULL")))
    (Not_implemented ("catalog_table_create: the in-memory catalog supports only NOT NULL constraints; " +:+ str kind +:+
                      " (PRIMARY KEY, UNIQUE, CHECK, FOREIGN KEY) cannot be enforced by it"));;
  check ← column o "check_expression"; foreign ← column o "foreign_key"; declared ← column o "declared_name";
  throw_if (negb (is_null (first check)) || negb (is_null (first foreign)) || negb (is_null (first declared)))
    (Not_implemented "catalog_table_create: named or expression NOT NULL is unsupported");;
  outer ← column o "column_paths";
  match first outer with
  | V_list [V_list [component]] =>
      let name := default [] (text_of component) in
      match get_all_field_indices columns (str name) with
      | [_] => Ok name
      | _ => Throw (Invalid_argument ("catalog_table_create: NOT NULL column " +:+ str name +:+ " is not a column of the table"))
      end
  | _ => Throw (Not_implemented "catalog_table_create: NOT NULL must name one top-level column")
  end.

Fixpoint not_null_loop (definitions : list bytes) (columns : list field) (out : list bytes) : result (list bytes) :=
  match definitions with
  | [] => Ok out
  | d :: definitions =>
      name ← not_null_column d columns;
      not_null_loop definitions columns (if bool_decide (name ∈ out) then out else out ++ [name])
  end.
Definition not_null_columns (definitions : list bytes) (columns : list field) : result (list bytes) := not_null_loop definitions columns [].

(** The entries of a map of strings; the first of a key that is repeated. *)
Fixpoint map_entries (entries : list value) (m : gmap bytes bytes) : result (gmap bytes bytes) :=
  match entries with
  | [] => Ok m
  | V_struct [V_text key; V_text item] :: entries =>
      map_entries entries (match m !! key with Some _ => m | None => <[key := item]> m end)
  | _ => Throw (Invalid_argument "view metadata cannot contain null entries")
  end.
Definition view_map (b : option batch) (field : string) : result (gmap bytes bytes) :=
  values ← column b field;
  match a_type values with
  | T_map k i =>
      match first values with
      | V_list entries =>
          throw_if (negb (is_string_type (f_type k)) || negb (is_string_type (f_type i))) (Invalid_argument "view metadata must be a string map");;
          map_entries entries ∅
      | _ => Ok ∅
      end
  | _ => Throw (Invalid_argument "view metadata must be a string map")
  end.
Definition view_pairs (b : option batch) (field : string) : result (list (bytes * bytes)) :=
  m ← view_map b field; Ok (in_order m).

Definition upper_char (c : ascii) : ascii := if bool_decide (97 ≤ bz c ≤ 122) then zb (bz c - 32) else c.
Definition upper (s : bytes) : bytes := map upper_char s.

Definition quoted (name : bytes) : string := str (zb 34 :: name ++ [zb 34]).

(** CREATE of what exists: replace it (true), keep it (false), or fail. *)
Definition on_conflict_replaces (kind : string) (name on_conflict : bytes) : result bool :=
  if bool_decide (upper on_conflict = bs "REPLACE") then Ok true
  else if bool_decide (upper on_conflict = bs "IGNORE") then Ok false
  else Throw (Invalid_argument (kind +:+ " with name " +:+ quoted name +:+ " already exists")).

Definition payload (method : string) (cells : list (string * cell)) : result batch :=
  schema ← payload_schema_of method; schema ← from_opt (Undefined_behaviour "a builder without a schema") schema;
  build schema None cells.
Definition payload_filled (method : string) (cells : list (string * cell)) : result batch :=
  schema ← payload_schema_of method; schema ← from_opt (Undefined_behaviour "a builder without a schema") schema;
  build_filled schema None cells.
Definition items_payload (method : string) (items : list bytes) : result batch :=
  payload method [("items", Cell_binary_list items)]%string.

Definition unwrap_request (params : option batch) : result (option batch) :=
  match params with
  | Some b =>
      if bool_decide (is_Some (get_field_index (b_schema b) "request")) && bool_decide (get_field_index (b_schema b) "attach_opaque_data" = None)
      then inner ← get_ipc params "request"; Ok (match inner with Some _ => inner | None => params end)
      else Ok params
  | None => Ok params
  end.

(** A field that is set: the row has it and it is not null. *)
Definition is_set (params : option batch) (field : string) : result bool :=
  b ← from_opt (Undefined_behaviour "a null batch") params;
  match get_field_index (b_schema b) field with
  | None => Ok false
  | Some _ => a ← column params field; Ok (negb (is_null (first a)))
  end.

(** The name before the first NUL of an attachment. *)
Fixpoint until_nul (s : bytes) : option bytes :=
  match s with
  | [] => None
  | c :: s => if bool_decide (c = NUL) then Some [] else (λ r, c :: r) <$> until_nul s
  end.
Definition catalog_of (attach : bytes) : option bytes :=
  match until_nul attach with Some (c :: name) => Some (c :: name) | _ => None end.

Definition seal_attach_out (sr : Surroundings) (plaintext : bytes) : bytes :=
  match sr_call sr with Some c => OpaqueSeal.call_seal_attach c plaintext (sr_nonce sr) | None => plaintext end.

Section options.
Variable options_ : MemoryCatalogOptions.

Definition catalog_info : result bytes :=
  b ← build_filled CatalogInfoSchema None [("name", Cell_string (mo_name options_))]%string; encode_ipc b.

Definition state (attaches : Attaches) (attach : bytes) : result State :=
  from_opt (Invalid_argument (str (mo_name options_) +:+ ": not attached (its state lives in the worker process that attached it)"))
    (attaches !! attach).
Definition reported_version (s : State) : Z := if mo_unversioned options_ then 0 else st_version s.

(** Parents first, then by the key of the path: a stable sort of what is in that order. *)
Definition shallower (s t : Schema) : Prop := (length (sc_path s) ≤ length (sc_path t))%nat.
#[local] Instance shallower_dec s t : Decision (shallower s t).
Proof. unfold shallower. apply _. Defined.
Fixpoint insert_stable (s : Schema) (l : list Schema) : list Schema :=
  match l with [] => [s] | t :: l => if decide (shallower s t) then s :: t :: l else t :: insert_stable s l end.
Definition sorted_schemas (s : State) : list Schema := foldr insert_stable [] (in_order (st_schemas s)).*2.

Definition schema_item (s : Schema) : result bytes :=
  b ← build_filled SchemaInfoSchema None
    [("path", Cell_string_list (sc_path s)); ("comment", Cell_optional_string (sc_comment s));
     ("tags", Cell_string_map (in_order (sc_tags s)))]%string;
  encode_ipc b.

Definition items_of (objects : gmap bytes Object) : list bytes := map (λ e, ob_item e.2) (in_order objects).

Definition schema_contents (s : Schema) : result SchemaContents :=
  item ← schema_item s;
  Ok (mkContents (sc_path s) item (items_of (sc_tables s)) (items_of (sc_views s)) [] [] [] [] [] []).
Definition snapshot (attaches : Attaches) (attach : bytes) : result (list SchemaContents) :=
  s ← state attaches attach; mapM schema_contents (sorted_schemas s).

(** ** ATTACH *)

Definition attachment (token : bytes) : bytes := mo_name options_ ++ replicate 3 NUL ++ token ++ [NUL].
Definition main_schema : Schema := mkSchema [bs "main"] None ∅ ∅ ∅.
Definition new_state (selected : CatalogCapabilityProfiles) : State :=
  mkState 1 (negb (bool_decide (ddl selected = []))) {[path_key [bs "main"] := main_schema]}.

(** What the client and the catalog have in common. *)
Definition negotiated (params : option batch) : result CatalogCapabilityProfiles :=
  request ← unwrap_request params;
  name ← get_string request "name";
  throw_if (negb (bool_decide (name = mo_name options_)))
    (Invalid_argument ("Unknown catalog: '" +:+ str name +:+ "'. Available: " +:+ str (mo_name options_)));;
  offer ← get_optional_binary request "client_capabilities";
  offered ← client_catalog_offer offer;
  Ok (select_catalog_capabilities memory_catalog_capabilities offered).

Definition attach_answer (sr : Surroundings) (selected : CatalogCapabilityProfiles) : result batch :=
  available ← encode_catalog_capabilities memory_catalog_capabilities;
  chosen ← encode_catalog_capabilities selected;
  payload_filled "catalog_attach"
    [("attach_opaque_data", Cell_binary (seal_attach_out sr (attachment (sr_token sr))));
     ("catalog_version", Cell_int64 (reported_version (new_state selected)));
     ("catalog_version_frozen", Cell_bool false); ("attach_opaque_data_required", Cell_bool true);
     ("default_schema", Cell_string (bs "main")); ("supports_catalog_contents", Cell_bool (mo_supports_catalog_contents options_));
     ("catalog_capabilities", Cell_binary available); ("selected_capabilities", Cell_binary chosen);
     ("comment", Cell_optional_string (mo_comment options_))]%string.

(** The attachment is kept before its answer is built. *)
Definition attach (sr : Surroundings) (params : option batch) (attaches : Attaches) : result (option batch) * Attaches :=
  match negotiated params with
  | Throw e => (Throw e, attaches)
  | Ok selected =>
      (b ← attach_answer sr selected; Ok (Some b), <[attachment (sr_token sr) := new_state selected]> attaches)
  end.

(** ** Contents

    The version is read first and the contents after, each under the lock: another
    call may come between.  [later] is the state the second finds. *)
Definition contents (attaches later : Attaches) (attach : bytes) (params : option batch) : result batch :=
  s ← state attaches attach;
  let version := reported_version s in
  if_none_match ← get_optional_string params "if_none_match";
  let call := mkCall (mo_name options_) version if_none_match (snapshot later attach) in
  answer ← answer_catalog_contents (mo_catalog_contents_handler options_) (mo_catalog_contents_etag options_) call;
  encode_catalog_contents version answer.

(** ** Schemas *)

Definition schema_missing (path : list bytes) : exn := Invalid_argument ("Schema " +:+ str (path_display path) +:+ " does not exist").

Definition schema_create (params : option batch) (s : result State) : result State :=
  path ← get_schema_path params "path";
  throw_if (bool_decide (path = [])) (Invalid_argument "schema path is empty");;
  s ← s;
  go ← (match st_schemas s !! path_key path with
        | Some _ => on_conflict ← get_optional_enum params "on_conflict";
                    on_conflict_replaces "Schema" (path_display path) (default [] on_conflict)
        | None => Ok true
        end : result bool);
  if negb go then Ok s else
  throw_if (bool_decide (1 < length path)%nat && bool_decide (st_schemas s !! path_key (parent_of path) = None))
    (schema_missing (parent_of path));;
  comment ← get_optional_string params "comment";
  tags ← view_map params "tags";
  version ← next_version (st_version s);
  Ok (with_schemas version (<[path_key path := mkSchema path comment tags ∅ ∅]> (st_schemas s)) s).

(** [other] is longer than [key], starts with it and has a NUL byte next. *)
Definition below (key other : bytes) : bool :=
  bool_decide (length key < length other)%nat && bool_decide (take (length key) other = key) &&
  bool_decide (other !! length key = Some NUL).

Definition is_empty_schema (s : Schema) : bool := bool_decide (sc_tables s = ∅) && bool_decide (sc_views s = ∅).

Definition schema_drop (params : option batch) (s : result State) : result State :=
  path ← get_schema_path params "path";
  s ← s;
  let key := path_key path in
  match st_schemas s !! key with
  | None =>
      ignore ← get_optional_bool params "ignore_not_found";
      if default false ignore then Ok s else Throw (schema_missing path)
  | Some found =>
      let children := filter (λ e, below key e.1 = true) (st_schemas s) in
      (if is_empty_schema found && bool_decide (children = ∅) then Ok tt else
         cascade ← get_optional_bool params "cascade";
         throw_if (negb (default false cascade)) (Invalid_argument ("Schema " +:+ str (path_display path) +:+ " is not empty; use CASCADE")));;
      version ← next_version (st_version s);
      Ok (with_schemas version (delete key (filter (λ e, below key e.1 = false) (st_schemas s))) s)
  end.

(** ** Objects *)

Definition put_object (path : list bytes) (name : bytes) (kind : string) (on_conflict : bytes) (view : bool) (item : bytes)
    (s : result State) : result State :=
  s ← s;
  schema ← from_opt (schema_missing path) (st_schemas s !! path_key path);
  let objects := view_of view schema in
  go ← (match objects !! SqlScalar.lower name with
        | Some _ => on_conflict_replaces kind name on_conflict
        | None => Ok true
        end : result bool);
  if negb go then Ok s else
  version ← next_version (st_version s);
  Ok (with_schemas version (<[path_key path := with_objects view (<[SqlScalar.lower name := mkObject name item]> objects) schema]> (st_schemas s)) s).

Definition find_object (path : list bytes) (name : bytes) (view : bool) (s : State) : option Object :=
  schema ← st_schemas s !! path_key path; view_of view schema !! SqlScalar.lower name.

Definition drop_object (path : list bytes) (name : bytes) (kind : string) (ignore_not_found view : bool) (s : result State) : result State :=
  s ← s;
  match st_schemas s !! path_key path, find_object path name view s with
  | Some schema, Some _ =>
      version ← next_version (st_version s);
      Ok (with_schemas version (<[path_key path := with_objects view (delete (SqlScalar.lower name) (view_of view schema)) schema]> (st_schemas s)) s)
  | _, _ =>
      if ignore_not_found then Ok s
      else Throw (Invalid_argument (kind +:+ " with name " +:+ str name +:+ " does not exist"))
  end.

Definition object_drop (view : bool) (params : option batch) (s : result State) : result State :=
  path ← get_schema_path params "schema_path"; name ← get_string params "name";
  ignore ← get_optional_bool params "ignore_not_found";
  drop_object path name (if view then "View" else "Table") (default false ignore) view s.

(** *** CREATE TABLE *)

Definition not_null_spec (path : list bytes) (table column : bytes) : ConstraintRecordSpec :=
  mkSpec path table (bs "not_null:" ++ column) NotNull [[column]] (Some Enforced) (Some AllRows) None None None.

Definition refuse_extras (params : option batch) : result () :=
  each ← mapM (is_set params) ["comment"; "tags"; "options"; "layout"]%string;
  throw_if (existsb id each) (Not_implemented "catalog_table_create: table metadata/options/layout profiles are not supported").

(** The schema of the columns, checked. *)
Definition created_columns (params : option batch) (path : list bytes) : result (list field * option (list (string * string))) :=
  encoded ← get_binary params "columns";
  throw_if (bool_decide (encoded = [])) (Invalid_argument "catalog_table_create: missing columns schema");;
  o ← decode_schema encoded;
  columns ← from_opt (Undefined_behaviour "a null schema") o;
  validate_column_metadata columns.1;;
  validate_column_expressions columns.1 path false;;
  each_field (λ f, if row_id f then Ok tt else require_plain_type f) columns.1;;
  Ok columns.

(** The rows of information of the table that is made. *)
Definition table_item (token : bytes) (params : option batch) (name : bytes) (path : list bytes) (s : result State) : result bytes :=
  columns ← created_columns params path;
  definitions ← get_binary_list params "constraint_definitions";
  (if bool_decide (definitions = []) then Ok tt else
     s ← s;
     throw_if (negb (st_constraints s))
       (Not_implemented "catalog_table_create: constraint definitions need the negotiated vgi.constraint.create.v1 profile"));;
  names ← not_null_columns definitions columns.1;
  records ← mapM (λ column, constraint_record (not_null_spec path name column)) names;
  validate_constraint_records path name columns.1 records;;
  served ← served_columns columns.1 records;
  encoded ← (if schema_equals true served columns.1 then get_binary params "columns" else encode_schema (served, columns.2) : result bytes);
  b ← build_filled TableInfoSchema None
    [("name", Cell_string name); ("schema_path", Cell_string_list path); ("columns", Cell_binary encoded);
     ("constraints", Cell_binary_list records);
     ("definition_revision", match records with [] => Cell_null | _ => Cell_binary token end)]%string;
  encode_ipc b.

(** The attachment is looked up for its profiles, where there are definitions, and again to put the table. *)
Definition table_create (token : bytes) (params : option batch) (s : result State) : result State :=
  refuse_extras params;;
  name ← get_string params "name";
  path ← get_schema_path params "schema_path";
  item ← table_item token params name path s;
  on_conflict ← get_optional_enum params "on_conflict";
  put_object path name "Table" (default [] on_conflict) false item s.

(** *** Views *)

(** One raw identifier: not empty and without a NUL byte. *)
Definition raw_identifier (s : bytes) : bool := negb (bool_decide (s = [])) && negb (has_nul s).

Definition view_item (params : option batch) (name : bytes) (path : list bytes) : result bytes :=
  column_comments ← view_pairs params "column_comments";
  throw_if (negb (forallb (λ e : bytes * bytes, raw_identifier e.1) column_comments))
    (Invalid_argument "view column comments require raw output identifiers");;
  definition ← get_string params "definition"; aliases ← get_string_list params "aliases";
  comment ← get_optional_string params "comment"; tags ← view_pairs params "tags";
  b ← build_filled ViewInfoSchema None
    [("name", Cell_string name); ("schema_path", Cell_string_list path); ("definition", Cell_string definition);
     ("aliases", Cell_string_list aliases); ("security", Cell_string (bs "regular"));
     ("comment", Cell_optional_string comment); ("tags", Cell_string_map tags);
     ("column_comments", Cell_string_map column_comments)]%string;
  encode_ipc b.

Definition view_create (params : option batch) (s : result State) : result State :=
  security ← get_string params "security";
  throw_if (negb (bool_decide (security = bs "regular"))) (Runtime_error "view security mode is unsupported");;
  name ← get_string params "name"; path ← get_schema_path params "schema_path";
  item ← view_item params name path;
  on_conflict ← get_optional_enum params "on_conflict";
  put_object path name "View" (default [] on_conflict) true item s.

Definition commented_column (params : option batch) : result bytes :=
  path ← get_string_list params "column_path";
  match path with
  | [c] => throw_if (negb (raw_identifier c)) (Invalid_argument "view column comments require one raw output identifier");; Ok c
  | _ => Throw (Invalid_argument "view column comments require one raw output identifier")
  end.

(** The item of a view with one of its comments replaced. *)
Definition commented_item (column_name comment : option bytes) (item : bytes) : result bytes :=
  o ← decode_ipc item;
  change ← (match column_name with
                 | Some name =>
                     comments ← view_map o "column_comments";
                     Ok ("column_comments"%string,
                         Cell_string_map (in_order (match comment with Some text => <[name := text]> comments | None => delete name comments end)))
                 | None => Ok ("comment"%string, Cell_optional_string comment)
                 end : result (string * cell));
  let field := change.1 in
  replacement ← build_filled ViewInfoSchema None [change];
  values ← from_opt (Undefined_behaviour "a null array") (column_by_name replacement field);
  b ← from_opt (Undefined_behaviour "a null batch") o;
  i ← from_opt (Undefined_behaviour "a column past the end") (get_field_index (b_schema b) field);
  f ← from_opt (Undefined_behaviour "a column past the end") (b_schema b !! i);
  updated ← (match set_column b i f values with inl status => fail status | inr u => Ok u end : result batch);
  encode_ipc updated.

Definition view_comment_set (column : bool) (params : option batch) (s : result State) : result State :=
  column_name ← (if column then c ← commented_column params; Ok (Some c) else Ok None : result (option bytes));
  name ← get_string params "name";
  path ← get_schema_path params "schema_path";
  comment ← get_optional_string params "comment";
  ignore ← get_bool params "ignore_not_found";
  s ← s;
  match st_schemas s !! path_key path, find_object path name true s with
  | Some schema, Some view =>
      item ← commented_item column_name comment (ob_item view);
      version ← next_version (st_version s);
      Ok (with_schemas version (<[path_key path := with_objects true (<[SqlScalar.lower name := mkObject (ob_name view) item]> (sc_views schema)) schema]> (st_schemas s)) s)
  | _, _ => if (ignore : bool) then Ok s else Throw (Invalid_argument ("View with name " +:+ str name +:+ " does not exist"))
  end.

(** ** Every method *)

(** A method that changes an attachment. *)
Definition change (attaches : Attaches) (attach : bytes) (f : result State → result State) : result (option batch * Attaches) :=
  s' ← f (state attaches attach); Ok (None, <[attach := s']> attaches).
(** One that answers items. *)
Definition ask (method : string) (attaches : Attaches) (attach : bytes) (f : State → result (list bytes)) : result (option batch * Attaches) :=
  s ← state attaches attach; items ← f s; b ← items_payload method items; Ok (Some b, attaches).

Definition schema_at (params : option batch) (field : string) (s : State) : result (option Schema) :=
  path ← get_schema_path params field; Ok (st_schemas s !! path_key path).
Definition no_items : list string :=
  ["catalog_schema_contents_functions"; "catalog_schema_contents_macros"; "catalog_schema_contents_indexes";
   "catalog_macro_get"; "catalog_index_get"; "catalog_copy_from_formats"]%string.

Definition get_object (params : option batch) (view : bool) (s : State) : result (list bytes) :=
  found ← schema_at params "schema_path" s;
  match found with
  | Some schema =>
      name ← get_string params "name";
      Ok (match view_of view schema !! SqlScalar.lower name with Some object => [ob_item object] | None => [] end)
  | None => Ok []
  end.

Definition serve_method (sr : Surroundings) (method : string) (params : option batch) (attaches : Attaches)
    : result (option batch * Attaches) :=
  attach ← get_binary params "attach_opaque_data";
  if bool_decide (method = "catalog_detach"%string) then Ok (None, delete attach attaches)
  else if bool_decide (method = "catalog_version"%string) then
    s ← state attaches attach; b ← payload method [("version", Cell_int64 (reported_version s))]%string; Ok (Some b, attaches)
  else if bool_decide (method = "catalog_contents"%string) then
    b ← contents attaches attaches attach params; Ok (Some b, attaches)
  else if bool_decide (method = "catalog_transaction_begin"%string) then b ← payload_filled method []; Ok (Some b, attaches)
  else if bool_decide (method = "catalog_transaction_commit"%string) || bool_decide (method = "catalog_transaction_rollback"%string)
  then Ok (None, attaches)
  else if bool_decide (method = "catalog_schemas"%string) then ask method attaches attach (λ s, mapM schema_item (sorted_schemas s))
  else if bool_decide (method = "catalog_schema_get"%string) then
    ask method attaches attach (λ s,
      found ← schema_at params "path" s;
      match found with Some schema => item ← schema_item schema; Ok [item] | None => Ok [] end)
  else if bool_decide (method = "catalog_schema_contents_tables"%string) || bool_decide (method = "catalog_schema_contents_views"%string) then
    ask method attaches attach (λ s,
      found ← schema_at params "path" s;
      Ok (match found with
          | Some schema => items_of (view_of (bool_decide (method = "catalog_schema_contents_views"%string)) schema)
          | None => []
          end))
  else if bool_decide (method = "catalog_table_get"%string) || bool_decide (method = "catalog_view_get"%string) then
    ask method attaches attach (get_object params (bool_decide (method = "catalog_view_get"%string)))
  else if bool_decide (method ∈ no_items) then b ← items_payload method []; Ok (Some b, attaches)
  else if bool_decide (method = "catalog_schema_create"%string) then
    options ← get_optional_binary params "options";
    throw_if (bool_decide (is_Some options))
      (Not_implemented "catalog_schema_create requires negotiated vgi.schema.options.create.v1");;
    change attaches attach (schema_create params)
  else if bool_decide (method = "catalog_schema_drop"%string) then change attaches attach (schema_drop params)
  else if bool_decide (method = "catalog_table_create"%string) then
    change attaches attach (table_create (sr_token sr) params)
  else if bool_decide (method = "catalog_table_drop"%string) || bool_decide (method = "catalog_view_drop"%string) then
    change attaches attach (object_drop (bool_decide (method = "catalog_view_drop"%string)) params)
  else if bool_decide (method = "catalog_view_comment_set"%string) || bool_decide (method = "catalog_view_column_comment_set"%string) then
    change attaches attach (view_comment_set (bool_decide (method = "catalog_view_column_comment_set"%string)) params)
  else if bool_decide (method = "catalog_view_create"%string) then
    change attaches attach (view_create params)
  else Throw (Invalid_argument (str (mo_name options_) +:+ ": " +:+ method +:+ " is not supported by an in-memory catalog")).

Definition serve (sr : Surroundings) (method : string) (raw_params : option batch) (attaches : Attaches)
    : result (option batch) * Attaches :=
  if bool_decide (method = "catalog_attach"%string) then attach sr raw_params attaches else
  match params ← unwrap_request raw_params; serve_method sr method params attaches with
  | Ok (answer, attaches') => (Ok answer, attaches')
  | Throw e => (Throw e, attaches)
  end.


(** ** What an operation does to an attachment *)

(** The edits of a tree of schemas: a schema put in its place, a schema dropped with
    all below it, and the objects of a schema replaced. *)
Inductive edit : gmap bytes Schema → gmap bytes Schema → Prop :=
| edit_put m path comment tags :
    path ≠ [] → ((1 < length path)%nat → is_Some (m !! path_key (parent_of path))) →
    edit m (<[path_key path := mkSchema path comment tags ∅ ∅]> m)
| edit_drop m key : edit m (delete key (filter (λ e, below key e.1 = false) m))
| edit_object m key schema view name object :
    m !! key = Some schema → SqlScalar.lower (ob_name object) = name →
    edit m (<[key := with_objects view (<[name := object]> (view_of view schema)) schema]> m)
| edit_item m key schema view name object item :
    m !! key = Some schema → view_of view schema !! name = Some object →
    edit m (<[key := with_objects view (<[name := mkObject (ob_name object) item]> (view_of view schema)) schema]> m)
| edit_remove m key schema view name :
    m !! key = Some schema → edit m (<[key := with_objects view (delete name (view_of view schema)) schema]> m).

(** One more version, and an edit. *)
Definition advance (s s' : State) : Prop :=
  st_version s' = st_version s + 1 ∧ st_constraints s' = st_constraints s ∧ edit (st_schemas s) (st_schemas s').

(** An operation needs its attachment, and leaves it or advances it. *)
Definition sound (f : result State → result State) : Prop :=
  ∀ r s', f r = Ok s' → ∃ s, r = Ok s ∧ (s' = s ∨ advance s s').

Lemma next_version_Ok v v' : next_version v = Ok v' → v' = v + 1.
Proof using Type. unfold next_version. by intros [_ [= <-]]%bind_throw_if_Ok. Qed.

Lemma schema_create_sound params : sound (schema_create params).
Proof using Type.
  intros r s' H. unfold schema_create in H. apply bind_Ok in H as (path & _ & H).
  apply bind_throw_if_Ok in H as [Hp%bool_decide_eq_false H]. apply bind_Ok in H as (s & -> & H). exists s. split; [done|].
  apply bind_Ok in H as (go & _ & H). destruct go; cbn [negb] in H; [right|left; by injection H].
  apply bind_throw_if_Ok in H as [Hparent H]. apply bind_Ok in H as (comment & _ & H). apply bind_Ok in H as (tags & _ & H).
  apply bind_Ok in H as (v & ->%next_version_Ok & [= <-]). split_and!; [done..|]. apply edit_put; [done|]. intros Hl.
  apply andb_false_iff in Hparent as [Hn|Hn]; [by rewrite bool_decide_eq_false in Hn|].
  rewrite bool_decide_eq_false in Hn. destruct (_ !! _); [by eexists|done].
Qed.

Lemma schema_drop_sound params : sound (schema_drop params).
Proof using Type.
  intros r s' H. unfold schema_drop in H. apply bind_Ok in H as (path & _ & H). apply bind_Ok in H as (s & -> & H).
  exists s. split; [done|]. destruct (st_schemas s !! _) as [found|].
  - apply bind_Ok in H as (_ & _ & H). apply bind_Ok in H as (v & ->%next_version_Ok & [= <-]). right. split_and!; [done..|].
    apply edit_drop.
  - apply bind_Ok in H as (ignore & _ & H). destruct (default false ignore); [|done]. injection H as <-. by left.
Qed.

Lemma put_object_sound path name kind on_conflict view item : sound (put_object path name kind on_conflict view item).
Proof using Type.
  intros r s' H. unfold put_object in H. apply bind_Ok in H as (s & -> & H). exists s. split; [done|].
  apply bind_Ok in H as (schema & Hs%from_opt_Ok & H). apply bind_Ok in H as (go & _ & H).
  destruct go; cbn [negb] in H; [right|left; by injection H]. apply bind_Ok in H as (v & ->%next_version_Ok & [= <-]).
  split_and!; [done..|]. by apply edit_object.
Qed.

Lemma drop_object_sound path name kind ignore view : sound (drop_object path name kind ignore view).
Proof using Type.
  intros r s' H. unfold drop_object in H. apply bind_Ok in H as (s & -> & H). exists s. split; [done|].
  destruct (st_schemas s !! _) as [schema|] eqn:Hs; [destruct (find_object _ _ _ _)|].
  - apply bind_Ok in H as (v & ->%next_version_Ok & [= <-]). right. split_and!; [done..|]. by apply edit_remove.
  - destruct ignore; [|done]. injection H as <-. by left.
  - destruct ignore; [|done]. injection H as <-. by left.
Qed.

Lemma object_drop_sound view params : sound (object_drop view params).
Proof using Type.
  intros r s' H. unfold object_drop in H. apply bind_Ok in H as (path & _ & H). apply bind_Ok in H as (name & _ & H).
  apply bind_Ok in H as (ignore & _ & H). by apply drop_object_sound in H.
Qed.

Lemma table_create_sound token params : sound (table_create token params).
Proof using Type.
  intros r s' H. unfold table_create in H. apply bind_Ok in H as (_ & _ & H). apply bind_Ok in H as (name & _ & H).
  apply bind_Ok in H as (path & _ & H). apply bind_Ok in H as (item & _ & H). apply bind_Ok in H as (on_conflict & _ & H).
  by apply put_object_sound in H.
Qed.

Lemma view_create_sound params : sound (view_create params).
Proof using Type.
  intros r s' H. unfold view_create in H. apply bind_Ok in H as (security & _ & H). apply bind_throw_if_Ok in H as [_ H].
  apply bind_Ok in H as (name & _ & H). apply bind_Ok in H as (path & _ & H). apply bind_Ok in H as (item & _ & H).
  apply bind_Ok in H as (on_conflict & _ & H). by apply put_object_sound in H.
Qed.

Lemma view_comment_set_sound is_column params : sound (view_comment_set is_column params).
Proof using Type.
  intros r s' H. unfold view_comment_set in H. apply bind_Ok in H as (cn & _ & H). apply bind_Ok in H as (name & _ & H).
  apply bind_Ok in H as (path & _ & H). apply bind_Ok in H as (comment & _ & H). apply bind_Ok in H as (ignore & _ & H).
  apply bind_Ok in H as (s & -> & H). exists s. split; [done|].
  destruct (st_schemas s !! _) as [schema|] eqn:Hs; [destruct (find_object _ _ _ _) as [o|] eqn:Ho|].
  - apply bind_Ok in H as (item & _ & H). apply bind_Ok in H as (v & ->%next_version_Ok & [= <-]). right. split_and!; [done..|].
    apply (edit_item _ _ _ true); [done|]. unfold find_object in Ho. by rewrite Hs in Ho.
  - destruct ignore; [|done]. injection H as <-. by left.
  - destruct ignore; [|done]. injection H as <-. by left.
Qed.

(** ** What a call does to the attachments *)

(** A call that is answered leaves every attachment, drops its own or advances it. *)
Definition tended (a : bytes) (m m' : Attaches) : Prop :=
  m' = m ∨ m' = delete a m ∨ ∃ s s', m !! a = Some s ∧ advance s s' ∧ m' = <[a := s']> m.

Lemma change_tended m a f o m' : sound f → change m a f = Ok (o, m') → tended a m m'.
Proof using Type.
  intros Hf H. unfold change in H. apply bind_Ok in H as (s' & Hs & [= <- <-]).
  apply Hf in Hs as (s & Hs%from_opt_Ok & [->|Hadv]); [left; by apply insert_id|]. right. right. by exists s, s'.
Qed.

Lemma ask_same method m a f o m' : ask method m a f = Ok (o, m') → m' = m.
Proof using Type.
  unfold ask. intros (s & _ & H)%bind_Ok. apply bind_Ok in H as (items & _ & H). by apply bind_Ok in H as (b & _ & [= _ <-]).
Qed.

#[local] Hint Resolve schema_create_sound schema_drop_sound object_drop_sound table_create_sound view_create_sound
  view_comment_set_sound : memory.

Lemma serve_method_tended sr method params m o m' :
  serve_method sr method params m = Ok (o, m') → ∃ a, get_binary params "attach_opaque_data" = Ok a ∧ tended a m m'.
Proof using Type.
  unfold serve_method. intros (a & Ha & H)%bind_Ok. exists a. split; [done|].
  repeat match type of H with
         | (if ?b then _ else _) = _ => destruct b
         | ask _ _ _ _ = _ => apply ask_same in H; by left
         | change _ _ _ = _ => eapply change_tended, H; by auto with memory
         | Ok (_, _) = _ => injection H as _ <-
         | mbind _ _ = _ => apply bind_Ok in H as (? & _ & H)
         | Throw _ = _ => done
         end; solve [by left|by (right; left)].
Qed.

(** What a call may do: as above if it is answered, make one attachment if it is an
    ATTACH, answered or not, and nothing else. *)
Lemma serve_transition sr method raw m r m' :
  serve sr method raw m = (r, m') →
  (∃ selected, method = "catalog_attach"%string ∧ negotiated raw = Ok selected ∧ m' = <[attachment (sr_token sr) := new_state selected]> m) ∨
  (∃ params a, unwrap_request raw = Ok params ∧ get_binary params "attach_opaque_data" = Ok a ∧ tended a m m' ∧ is_ok r = true) ∨
  m' = m.
Proof using Type.
  unfold serve. case_bool_decide as Hm.
  - unfold attach. destruct (negotiated raw) as [selected|e]; [|intros [= _ <-]; do 2 right; reflexivity].
    intros H. apply (f_equal snd) in H. cbn [snd] in H. left. exists selected. by rewrite <- H.
  - destruct (unwrap_request raw) as [params|e]; cbn [mbind result_bind].
    2:{ intros H. apply (f_equal snd) in H. cbn [snd] in H. do 2 right. by rewrite <- H. }
    destruct (serve_method _ _ _ _) as [[o m1]|e] eqn:Hs; [|intros [= _ <-]; do 2 right; reflexivity]. intros [= <- <-]. right. left.
    apply serve_method_tended in Hs as (a & Ha & Ht). by exists params, a.
Qed.

Lemma tended_other a b m m' : tended a m m' → b ≠ a → m' !! b = m !! b.
Proof using Type.
  intros [->|[->|(s & s' & _ & _ & ->)]] Hb; [done|by rewrite lookup_delete_ne|by rewrite lookup_insert_ne].
Qed.

(** Attachments are apart.  Where a call changes what an attachment holds, the
    call is an ATTACH that makes it, under the token it drew, or it names that
    attachment and is answered: a call leaves the attachments of others alone, and
    one that is refused leaves its own. *)
Theorem attachments_apart sr method raw m r m' a :
  serve sr method raw m = (r, m') → m' !! a ≠ m !! a →
  (method = "catalog_attach"%string ∧ a = attachment (sr_token sr) ∧ ∃ selected, negotiated raw = Ok selected ∧ m' !! a = Some (new_state selected)) ∨
  (is_ok r = true ∧ ∃ params, unwrap_request raw = Ok params ∧ get_binary params "attach_opaque_data" = Ok a ∧
     (m' !! a = None ∨ ∃ s s', m !! a = Some s ∧ m' !! a = Some s' ∧ advance s s')).
Proof using Type.
  intros H Hne. apply serve_transition in H as [(selected & -> & Hn & ->)|[(params & b & Hp & Hb & Ht & Hr)| ->]]; [| |done].
  - left. destruct (decide (a = attachment (sr_token sr))) as [->|Ha]; [|by rewrite lookup_insert_ne in Hne].
    split_and!; [done..|]. exists selected. split; [done|]. apply lookup_insert_eq.
  - right. split; [done|]. destruct (decide (a = b)) as [->|Ha]; [|by rewrite (tended_other b a m m') in Hne].
    exists params. split; [done|]. split; [done|]. destruct Ht as [->|[->|(s & s' & Hs & Hadv & ->)]]; [done|left; apply lookup_delete_eq|].
    right. exists s, s'. split; [done|]. split; [apply lookup_insert_eq|done].
Qed.

(** *** A run of calls *)

Definition call : Type := Surroundings * string * option batch.
Definition after (m : Attaches) (c : call) : Attaches := (serve c.1.1 c.1.2 c.2 m).2.
Definition run (calls : list call) (m : Attaches) : Attaches := fold_left after calls m.

Lemma after_kept m c a :
  attachment (sr_token c.1.1) ≠ a →
  after m c !! a = m !! a ∨ after m c !! a = None ∨ ∃ s s', m !! a = Some s ∧ after m c !! a = Some s' ∧ advance s s'.
Proof using Type.
  intros Ha. unfold after. destruct (serve _ _ _ _) as [r m'] eqn:H. cbn [snd].
  apply serve_transition in H as [(selected & _ & _ & ->)|[(params & b & _ & _ & Ht & _)| ->]]; [| |by left].
  - left. by rewrite lookup_insert_ne.
  - destruct (decide (a = b)) as [->|Hb]; [|left; by eapply tended_other].
    destruct Ht as [->|[->|(s & s' & Hs & Hadv & ->)]]; [by left|right; left; apply lookup_delete_eq|].
    right. right. exists s, s'. split; [done|]. split; [apply lookup_insert_eq|done].
Qed.

Lemma gone_stays calls m a :
  Forall (λ c : call, attachment (sr_token c.1.1) ≠ a) calls → m !! a = None → run calls m !! a = None.
Proof using Type.
  intros Hf. revert m. induction Hf as [|c calls Hc Hf IH]; intros m Hm; [done|]. cbn. apply IH.
  destruct (after_kept m c a Hc) as [->|[->|(s & s' & Hs & _)]]; [done|done|congruence].
Qed.

Lemma version_rises calls m a s :
  Forall (λ c : call, attachment (sr_token c.1.1) ≠ a) calls → m !! a = Some s →
  run calls m !! a = None ∨
  ∃ s', run calls m !! a = Some s' ∧ (s' = s ∨ st_version s < st_version s').
Proof using Type.
  intros Hf. revert m s. induction Hf as [|c calls Hc Hf IH]; intros m s Hm; [right; exists s; auto|]. cbn.
  destruct (after_kept m c a Hc) as [Hk|[Hk|(s0 & s1 & Hs & Hk & Hadv)]].
  - apply IH. by rewrite Hk.
  - left. by apply gone_stays.
  - rewrite Hm in Hs. injection Hs as <-. destruct Hadv as [Hv _].
    destruct (IH _ _ Hk) as [?|(s' & H' & Hs')]; [by left|right]. exists s'. split; [done|]. right.
    destruct Hs' as [->|?]; lia.
Qed.

(** C32. A version tells the contents.  Whatever calls come between -- to this
    attachment or to others, answered or refused --, an attachment that is still
    there has a version that is no smaller; and where a catalog with versions reports
    the same one again, the attachment holds exactly what it held, down to the rows
    served of it.  A client may keep what it fetched for as long as the version it
    asks for stays. *)
Theorem version_tells_contents calls m a s s' :
  Forall (λ c : call, attachment (sr_token c.1.1) ≠ a) calls → m !! a = Some s → run calls m !! a = Some s' →
  st_version s ≤ st_version s' ∧
  (mo_unversioned options_ = false → reported_version s' = reported_version s →
   s' = s ∧ snapshot (run calls m) a = snapshot m a).
Proof using Type.
  intros Hf Hm Hm'. destruct (version_rises _ _ _ _ Hf Hm) as [H|(s1 & H1 & H2)]; [congruence|].
  rewrite Hm' in H1. injection H1 as <-. split; [destruct H2 as [->|H2]; lia|]. unfold reported_version. intros -> Hv.
  destruct H2 as [->|H2]; [|lia]. split; [done|]. unfold snapshot, state. by rewrite Hm, Hm'.
Qed.

(** ** How schemas are filed *)

(** Every schema is under the key of its own path, with its parent there; and every
    object under its own name, in lower case. *)
Record filed (m : gmap bytes Schema) : Prop := {
  filed_key k schema : m !! k = Some schema → k = path_key (sc_path schema) ∧ sc_path schema ≠ [];
  filed_parent k schema : m !! k = Some schema → (1 < length (sc_path schema))%nat → is_Some (m !! path_key (parent_of (sc_path schema)));
  filed_name k schema view n o : m !! k = Some schema → view_of view schema !! n = Some o → SqlScalar.lower (ob_name o) = n;
}.

Lemma joined_snoc c p x : p ≠ [] → joined c (p ++ [x]) = joined c p ++ c :: x.
Proof using Type.
  induction p as [|y p IH]; [done|]. intros _. destruct p as [|z p]; [done|].
  change (y ++ c :: joined c ((z :: p) ++ [x]) = (y ++ c :: joined c (z :: p)) ++ c :: x). rewrite IH by done.
  by rewrite <- app_assoc.
Qed.

Lemma parent_key path : (1 < length path)%nat → ∃ x, path_key path = path_key (parent_of path) ++ NUL :: x.
Proof using Type.
  intros Hl. destruct path as [|x l _] using rev_ind; [cbn in Hl; lia|]. exists x. unfold parent_of.
  rewrite length_app, Nat.add_sub, take_app_length. apply joined_snoc. intros ->. cbn in Hl. lia.
Qed.

Lemma below_iff key other : below key other = true ↔ ∃ x, other = key ++ NUL :: x.
Proof using Type.
  unfold below. rewrite !andb_true_iff, !bool_decide_eq_true. split.
  - intros [[Hl Ht] Hn]. exists (drop (S (length key)) other). rewrite <- Ht at 1.
    rewrite <- (take_drop_middle other (length key) NUL Hn) at 1. by rewrite Ht.
  - intros [x ->]. rewrite length_app. cbn. split_and!; [lia|by apply take_app_len|]. by rewrite lookup_app_r, Nat.sub_diag by lia.
Qed.

Lemma below_parent key path :
  (1 < length path)%nat → path_key (parent_of path) = key ∨ below key (path_key (parent_of path)) = true → below key (path_key path) = true.
Proof using Type.
  intros [x Hx]%parent_key [<-|[y Hy]%below_iff]; apply below_iff; rewrite Hx; [by exists x|]. rewrite Hy, <- app_assoc. by eexists.
Qed.

Lemma with_objects_view view view' objects schema :
  view_of view' (with_objects view objects schema) = if Bool.eqb view' view then objects else view_of view' schema.
Proof using Type. by destruct view, view'. Qed.
Lemma with_objects_path view objects schema : sc_path (with_objects view objects schema) = sc_path schema.
Proof using Type. by destruct view. Qed.

(** Objects may change, the tree stays. *)
Lemma filed_objects m key schema view objects :
  filed m → m !! key = Some schema → (∀ n o, objects !! n = Some o → SqlScalar.lower (ob_name o) = n) →
  filed (<[key := with_objects view objects schema]> m).
Proof using Type.
  intros [F1 F2 F3] Hm Ho. split.
  - intros k s [[<- <-]|[_ Hs]]%lookup_insert_Some; [rewrite with_objects_path|]; by eapply F1.
  - intros k s Hs Hl. rewrite lookup_insert_is_Some.
    destruct (decide (key = path_key (parent_of (sc_path s)))); [by left|right; split; [done|]].
    apply lookup_insert_Some in Hs as [[<- <-]|[_ Hs]]; [rewrite with_objects_path in *|]; by eapply F2.
  - intros k s v n o [[<- <-]|[_ Hs]]%lookup_insert_Some; [|by eapply F3]. rewrite with_objects_view.
    destruct (Bool.eqb v view); [apply Ho|by eapply F3].
Qed.

Lemma edit_filed m m' : edit m m' → filed m → filed m'.
Proof using Type.
  intros He Hm. destruct He as [m path comment tags Hp Hparent|m key|m key schema view name object Hk Hn|m key schema view name object item Hk Hn|m key schema view name Hk].
  - destruct Hm as [F1 F2 F3]. split.
    + intros k s [[<- <-]|[_ Hs]]%lookup_insert_Some; [done|by apply F1].
    + intros k s Hs Hl. rewrite lookup_insert_is_Some.
      destruct (decide (path_key path = path_key (parent_of (sc_path s)))); [by left|right; split; [done|]].
      apply lookup_insert_Some in Hs as [[<- <-]|[_ Hs]]; [by apply Hparent|by eapply F2].
    + intros k s [] n o [[<- <-]|[_ Hs]]%lookup_insert_Some; [done|by apply (F3 k s true)|done|by apply (F3 k s false)].
  - destruct Hm as [F1 F2 F3]. assert (∀ k s, delete key (filter (λ e, below key e.1 = false) m) !! k = Some s ↔
      k ≠ key ∧ below key k = false ∧ m !! k = Some s) as Hlook.
    { intros k s. rewrite lookup_delete_Some, map_lookup_filter_Some. cbn. naive_solver. }
    split.
    + intros k s (_ & _ & Hs)%Hlook. by apply F1.
    + intros k s (Hne & Hb & Hs)%Hlook Hl. destruct (F2 k s Hs Hl) as [parent Hparent]. exists parent. apply Hlook.
      destruct (F1 k s Hs) as [-> _]. split_and!; [| |done].
      * intros E'. apply not_true_iff_false in Hb. apply Hb, below_parent; [done|by left].
      * apply not_true_iff_false. intros E'. apply not_true_iff_false in Hb. apply Hb, below_parent; [done|by right].
    + intros k s v n o (_ & _ & Hs)%Hlook. by eapply F3.
  - apply filed_objects; [done..|]. intros n o [[<- <-]|[_ Ho]]%lookup_insert_Some; [done|]. by eapply Hm.
  - apply filed_objects; [done..|]. intros n o [[<- <-]|[_ Ho]]%lookup_insert_Some; cbn; by eapply Hm.
  - apply filed_objects; [done..|]. intros n o [_ Ho]%lookup_delete_Some. by eapply Hm.
Qed.

Definition all_filed (m : Attaches) : Prop := ∀ a s, m !! a = Some s → filed (st_schemas s).

Lemma new_state_filed selected : filed (st_schemas (new_state selected)).
Proof using Type.
  split; cbn.
  - by intros k s [<- <-]%lookup_singleton_Some.
  - intros k s [<- <-]%lookup_singleton_Some. cbn. lia.
  - intros k s [] n o [<- <-]%lookup_singleton_Some; cbn; by rewrite lookup_empty.
Qed.

Lemma after_filed m c : all_filed m → all_filed (after m c).
Proof using Type.
  intros Hm. unfold after. destruct (serve _ _ _ _) as [r m'] eqn:H. cbn [snd].
  apply serve_transition in H as [(selected & _ & _ & ->)|[(params & b & _ & _ & Ht & _)| ->]]; [| |done].
  - intros a s [[<- <-]|[_ Hs]]%lookup_insert_Some; [apply new_state_filed|by eapply Hm].
  - destruct Ht as [->|[->|(s & s' & Hs & (_ & _ & Hadv) & ->)]]; [done|intros a s [_ Hs]%lookup_delete_Some; by eapply Hm|].
    intros a t [[<- <-]|[_ Ht]]%lookup_insert_Some; [|by eapply Hm]. eapply edit_filed; [done|by eapply Hm].
Qed.

Lemma run_filed calls m : all_filed m → all_filed (run calls m).
Proof using Type. revert m. induction calls as [|c calls IH]; intros m Hm; [done|]. by apply IH, after_filed. Qed.

(** *** The snapshot *)

Lemma insert_stable_perm s l : insert_stable s l ≡ₚ s :: l.
Proof using Type. induction l as [|t l IH]; cbn; [done|]. case_decide; [done|]. rewrite IH. apply perm_swap. Qed.

Lemma sorted_schemas_perm s : sorted_schemas s ≡ₚ (map_to_list (st_schemas s)).*2.
Proof using Type.
  unfold sorted_schemas. assert (∀ l, foldr insert_stable [] l ≡ₚ l) as ->.
  { induction l as [|t l IH]; cbn; [done|]. by rewrite insert_stable_perm, IH. }
  apply fmap_Permutation. apply merge_sort_Permutation.
Qed.

Lemma elem_sorted s schema : schema ∈ sorted_schemas s ↔ ∃ k, st_schemas s !! k = Some schema.
Proof using Type.
  rewrite sorted_schemas_perm, list_elem_of_fmap. setoid_rewrite <- elem_of_map_to_list. split.
  - intros ([k t] & -> & Hin). by exists k.
  - intros [k Hin]. by exists (k, schema).
Qed.

Lemma snapshot_paths l rows : mapM schema_contents l = Ok rows → map co_path rows = map sc_path l.
Proof using Type.
  revert rows. induction l as [|s l IH]; intros rows; [by intros [= <-]|]. cbn [mapM].
  intros (row & (item & _ & [= <-])%bind_Ok & (rest & Hr & [= <-])%bind_Ok)%bind_Ok. cbn. f_equal. by apply IH.
Qed.

Lemma NoDup_sorted_keys s : filed (st_schemas s) → NoDup (map (λ schema, path_key (sc_path schema)) (sorted_schemas s)).
Proof using Type.
  intros [F1 _ _]. rewrite sorted_schemas_perm. rewrite map_map.
  assert (∀ l, (∀ e, e ∈ l → e.1 = path_key (sc_path e.2)) → map (λ e : bytes * Schema, path_key (sc_path e.2)) l = l.*1) as Hkeys.
  { induction l as [|e l IH]; [done|]. intros H. cbn. f_equal; [symmetry; apply H; left|apply IH; intros e' He'; apply H; by right]. }
  rewrite Hkeys; [apply NoDup_fst_map_to_list|]. intros [k t] Hin%elem_of_map_to_list. cbn. by destruct (F1 k t Hin).
Qed.

End options.
End catalog.

End MemoryCatalog.
