(* ===== verification/Bind.v ===== *)
(** * Binding a call ([Dispatcher::bind] of [src/function_dispatch.cpp])

    Bind finds the function a call means, checks the call's arguments against the
    declaration, asks the function for its output schema, and answers with the
    schema and the secrets the function wants.  The theorem: an answered bind went
    to the function the routing says, with arguments its declaration admits, and
    the client reads back the schema that function gave and the secrets that
    function asks for -- none once they were resolved.  The secrets are looked up by
    the name again, apart from the routing: where the two disagree, which
    [same_function] excludes, another function's are told. *)

From S2P Require Import Prelude Text Crypto Arrow ArrowRecord ArrowCompute Wire Metadata Protocol Exchange Storage StorageSpec StorageClient AttachService Attachment WireSchema FunctionSpec Arguments Settings Json Producer Functions Dispatch ArgCheck Capabilities Calls.
Import Wire Metadata Protocol StorageClient WireSchema FunctionSpec Arguments Functions Dispatch ArgCheck Calls.

Module Bind.

(** ** Projection profiles and repeatability *)

(** The same expression as for the capabilities of a catalog. *)
Fixpoint profiles_from (seen : gset bytes) (profiles : list bytes) : bool :=
  match profiles with
  | [] => true
  | p :: profiles =>
      if (256 <? Z.of_nat (length p)) || negb (Capabilities.matches Capabilities.identifier_re p) || bool_decide (p ∈ seen)
      then false else profiles_from ({[p]} ∪ seen) profiles
  end.
Definition valid_projection_profiles (profiles : list bytes) : bool :=
  if 64 <? Z.of_nat (length profiles) then false else profiles_from ∅ profiles.

Definition repeatability_wire_value (r : BindRepeatability) : bytes :=
  match r with Unknown => bs "UNKNOWN" | StableWithinQuery => bs "STABLE_WITHIN_QUERY" end.

(** [enums::function_type::kTable] *)
Definition kTable : bytes := bs "table".

Section bind.
Context `{A : Arrow} `{C : Compute} `{B : Base64} `{M : Memory} `{X : Settings.ScalarText} `{L : SchemaCodec}.
Context `{J : Json.JsonParser} `{D : JsonDump} `{E : Regex} {S : Type}.
Context (d : Dispatcher S) (sealing : bool).

(** ** Which function serves the call *)

Inductive target : Type :=
| Sink (fn : TableBufferingFunction S)
| Transform (fn : TableInOut S)
| Table (fn : TableFunction S)
| Scalar (fn : ScalarFunction).

Definition route (name : bytes) (p : BindParams) (prefers_table : bool) : result target :=
  match (if prefers_table then None else find_buffering d name (scope_of p)) with
  | Some sink => Ok (Sink sink)
  | None =>
      match find_table_in_out d name (scope_of p) with
      | Some transform => Ok (Transform transform)
      | None =>
          match find_table d name (scope_of p) (Some p) with
          | Some table => Ok (Table table)
          | None =>
              match find_buffering d name (scope_of p) with
              | Some late => Ok (Sink late)
              | None => fn ← resolve_scalar d name p; Ok (Scalar fn)
              end
          end
      end
  end.

Definition specs_of (t : target) : list ArgSpec :=
  match t with
  | Sink fn => bf_argument_specs fn
  | Transform fn => to_argument_specs fn
  | Table fn => tf_argument_specs fn
  | Scalar fn => sf_argument_specs fn
  end.

(** The function's own [bind]. *)
Definition hook (t : target) (p : BindParams) : prog (option schema) :=
  match t with
  | Sink fn => bf_bind fn p
  | Transform fn => to_bind fn p
  | Table fn => tf_bind fn p
  | Scalar fn => lift (sf_bind fn p)
  end.

(** What a bind settles. *)
Record bound := mkBound { bd_schema : option schema; bd_profiles : list bytes; bd_repeatability : BindRepeatability }.

Definition bind_target (name : bytes) (p : BindParams) (t : target) : prog bound :=
  match t with
  | Sink _ =>
      s ← hook t p;
      lift (check_arg_constraints name (specs_of t) (bp_arguments p));;
      Ret (mkBound s [] Unknown)
  | Transform _ =>
      lift (check_arg_constraints name (specs_of t) (bp_arguments p));;
      s ← hook t p; Ret (mkBound s [] Unknown)
  | Table fn =>
      lift (check_arg_constraints name (specs_of t) (bp_arguments p));;
      s ← hook t p;
      let profiles := tf_projection_expression_profiles fn p in
      lift (throw_if (negb (valid_projection_profiles profiles)) (Invalid_argument "unsupported projection profile offer"));;
      Ret (mkBound s profiles (tf_repeatability fn p))
  | Scalar fn =>
      lift (check_type_bounds (sf_name fn) (sf_argument_specs fn) p);;
      lift (check_arg_constraints name (specs_of t) (bp_arguments p));;
      s ← hook t p; Ret (mkBound s [] Unknown)
  end.

(** ** The answer *)

Definition bind_cells (lookups : list SecretLookup) (output_schema : bytes) (r : bound) : list (string * cell) :=
  [("lookup_secret_types", Cell_string_list (map secret_type lookups));
   ("lookup_scopes", Cell_string_list (map (λ l, default [] (lookup_scope l)) lookups));
   ("lookup_names", Cell_string_list (map (λ l, default [] (lookup_name l)) lookups));
   ("output_schema", Cell_binary output_schema);
   ("opaque_data", Cell_binary []);
   ("projection_expression_profiles", Cell_string_list (bd_profiles r));
   ("repeatability", Cell_enum (repeatability_wire_value (bd_repeatability r)))]%string.

Definition bind_call (call : option batch) : prog batch :=
  name ← lift (get_string call "function_name");
  p ← read_bind_request d sealing call;
  kind ← lift (get_optional_enum call "function_type");
  t ← lift (route name p (bool_decide (kind = Some kTable)));
  r ← bind_target name p t;
  match bd_schema r with
  | None => Fail (Runtime_error ("function '" +:+ str name +:+ "' bound to no schema"))
  | Some s =>
      e ← lift (encode_schema s);
      lift (answer_payload "bind" (bind_cells (required_secrets_of d name p) e r))
  end.

Definition bind (request : option batch) : prog batch :=
  call ← lift (get_ipc request "request");
  match call with
  | None => Fail (Runtime_error "bind: empty request")
  | Some _ => bind_call call
  end.

(** ** What an answered bind has done *)

(** A bind of call [b] with parameters [p] that [t] serves, and its schema. *)
Record binds (b : option batch) (st : StorageSpec.store) (name : bytes) (p : BindParams) (t : target) (s : schema) : Prop := {
  binds_name : get_string b "function_name" = Ok name;
  binds_params : describes d sealing b st p;
  binds_routed : ∃ kind, get_optional_enum b "function_type" = Ok kind ∧ route name p (bool_decide (kind = Some kTable)) = Ok t;
  binds_admissible : Forall (λ s, numbers (bp_arguments p) s → admissible (bp_arguments p) s) (specs_of t);
  binds_schema : answer (hook t p) st = Ok (Some s);
}.

Lemma bind_target_Ok name p t r st :
  answer (bind_target name p t) st = Ok r →
  Forall (λ s, numbers (bp_arguments p) s → admissible (bp_arguments p) s) (specs_of t) ∧
  answer (hook t p) st = Ok (bd_schema r).
Proof using Type.
  destruct t as [fn|fn|fn|fn]; cbn [bind_target].
  - intros (s & Hs & ([] & Hc%checked_admissible & [= <-])%answer_lift_Ok)%answer_bind_Ok. by split.
  - intros ([] & Hc%checked_admissible & (s & Hs & [= <-])%answer_bind_Ok)%answer_lift_Ok. by split.
  - intros ([] & Hc%checked_admissible & (s & Hs & ([] & _ & [= <-])%answer_lift_Ok)%answer_bind_Ok)%answer_lift_Ok. by split.
  - intros ([] & _ & ([] & Hc%checked_admissible & (s & Hs & [= <-])%answer_bind_Ok)%answer_lift_Ok)%answer_lift_Ok. by split.
Qed.

(** The schema and the secrets asked for, as the client reads them. *)
Definition told (ans : batch) (s : schema) (lookups : list SecretLookup) : Prop :=
  ∃ payload, read_payload ans = Ok (Some payload) ∧ b_schema payload = BindResultSchema ∧
    get_schema (Some payload) "output_schema" = Ok (Some s) ∧
    get_string_list (Some payload) "lookup_secret_types" = Ok (map secret_type lookups) ∧
    get_string_list (Some payload) "lookup_scopes" = Ok (map (λ l, default [] (lookup_scope l)) lookups) ∧
    get_string_list (Some payload) "lookup_names" = Ok (map (λ l, default [] (lookup_name l)) lookups).

Lemma answer_told `{!ArrowLaws A} `{!SchemaCodecLaws A L} s e r lookups ans :
  encode_schema s = Ok e → answer_payload "bind" (bind_cells lookups e r) = Ok ans → told ans s lookups.
Proof using Type.
  intros He Ha. destruct (answer_payload_reads _ _ _ Ha) as (schema & payload & Hs & Hp & Hsch & _ & Hr); [by_decide|].
  exists payload. split; [done|]. split; [rewrite Hsch; vm_compute in Hs |- *; congruence|].
  assert (∀ f c, (f, c) ∈ bind_cells lookups e r → ∃ t, reads t (Some payload) f c) as Hcell
    by (intros f c Hin; destruct (Hr f c Hin) as (g & _ & _ & H); by exists (f_type g)).
  destruct (Hcell "output_schema"%string (Cell_binary e)) as (t1 & H1 & _); [unfold bind_cells; set_solver|].
  destruct (Hcell "lookup_secret_types"%string (Cell_string_list (map secret_type lookups))) as (t2 & H2 & _);
    [unfold bind_cells; set_solver|].
  destruct (Hcell "lookup_scopes"%string (Cell_string_list (map (λ l, default [] (lookup_scope l)) lookups))) as (t3 & H3 & _);
    [unfold bind_cells; set_solver|].
  destruct (Hcell "lookup_names"%string (Cell_string_list (map (λ l, default [] (lookup_name l)) lookups))) as (t4 & H4 & _);
    [unfold bind_cells; set_solver|].
  split_and!; [|done..]. unfold get_schema. rewrite H1. cbn. by apply decode_encode_schema.
Qed.

(** ** The secrets of the function that serves the call *)

(** The writer a COPY handler's name stands for. *)
Definition writer_of (name : bytes) : option CopyToFunction :=
  List.find (λ w, bool_decide (ct_handler_name w = name)) (copy_to_ d).

(** What the function asks for: its own lookups for this call; for a sink, those of
    the COPY writer it is, if it is one. *)
Definition secrets_of (name : bytes) (p : BindParams) (t : target) : list SecretLookup :=
  match t with
  | Sink fn => match writer_of name with Some w => ct_secret_lookups w p | None => bf_required_secrets fn end
  | Transform fn => to_secret_lookups fn p
  | Table fn => tf_secret_lookups fn p
  | Scalar fn => sf_secret_lookups fn p
  end.

(** The lookup of the secrets means the function the call was routed to: no sink
    has the name of a transform or table function that serves a call of the declared
    kind [table], and of the overloads of a scalar function the first registered
    serves it. *)
Definition same_function (name : bytes) (p : BindParams) (t : target) : Prop :=
  match t with
  | Sink _ => True
  | Transform _ | Table _ => find_buffering d name (scope_of p) = None
  | Scalar fn => head (named_in (scalars_ d) name (scope_of p)) = Some fn
  end.

Lemma secrets_of_routed name p prefers t :
  route name p prefers = Ok t → same_function name p t →
  required_secrets_of d name p = if bp_secrets_resolved p then [] else secrets_of name p t.
Proof using Type.
  unfold route, required_secrets_of, same_function, secrets_of, writer_of. intros Ht Hs.
  destruct (bp_secrets_resolved p); [done|].
  destruct (find_buffering d name (scope_of p)) as [sink|] eqn:Eb.
  - destruct prefers; [|by injection Ht as <-].
    destruct (find_table_in_out d name (scope_of p)); [by injection Ht as <-|].
    destruct (find_table d name (scope_of p) (Some p)); [by injection Ht as <-|]. by injection Ht as <-.
  - assert ((if prefers then None else @None (TableBufferingFunction S)) = None) as E0 by (by destruct prefers). rewrite E0 in Ht.
    destruct (find_table_in_out d name (scope_of p)) eqn:Et; [by injection Ht as <-|].
    destruct (find_table d name (scope_of p) (Some p)) eqn:Ef; [by injection Ht as <-|].
    apply bind_Ok in Ht as (fn & _ & [= <-]).
    by destruct (named_in (scalars_ d) name (scope_of p)) as [|f l]; [|injection Hs as ->].
Qed.

End bind.

(** ** A worker with a COPY format

    Its reader and its writer share a name; [rows] is a table function. *)

Definition trial_parser : Json.JsonParser := λ _, inl "no JSON here"%string.
Definition trial_dump : JsonDump := λ _, None.
Definition trial_regex : Regex := λ _ _, None.
#[local] Existing Instances hex_base64 trial_memory trial_text trial_parser trial_dump trial_regex toy_compute.

Definition int_column : schema := ([Field "n" T_int64 true []], None).
Definition trial_table (name : bytes) : TableFunction nat :=
  mkTable name [] false (λ _, Ret (Some int_column)) (λ _, Ret None) (λ _, []) (λ _, Unknown) (λ _, Ret (mkCardinality None None))
    false (λ _ _, Fail (Runtime_error "no plan")) (λ _, [mkLookup (bs "s3") None None]) (λ _, Ret []) (λ _, Ret 1) (λ _, Ret tt).
Definition trial_writer : CopyToFunction :=
  mkCopyTo (bs "lines") (bs "lines") [] [] (λ _, []) (λ _ _, Ret tt) (λ _, Ret 0).

Definition trial_worker : Dispatcher nat :=
  match (d ← register_table_in (mkScope [] [bs "main"]) (Some (trial_table (bs "rows"))) new_dispatcher;
         d ← register_copy_to (Some trial_writer) d;
         register_table_in (mkScope [] [bs "main"]) (Some (trial_table (bs "lines"))) d) with
  | Ok d => d
  | Throw _ => new_dispatcher
  end.

Definition call_of (name kind : bytes) : batch :=
  mkBatch [Field "function_name" T_string false []; Field "function_type" enum_type true []] None 1
    [mkArray T_string [V_text name]; mkArray enum_type [V_text kind]].
Definition rows_call : batch := call_of (bs "rows") (bs "TABLE").

(** The streams of the trial: the call and the record of the answer. *)
Definition rows_cells (schema_bytes : bytes) : list (string * cell) :=
  bind_cells [mkLookup (bs "s3") None None] schema_bytes (mkBound (Some int_column) [] Unknown).
Definition rows_record (schema_bytes : bytes) : batch :=
  match build_payload (A := table_arrow []) "bind" (rows_cells schema_bytes) with Ok b => b | Throw _ => rows_call end.
Definition int_column_bytes : bytes := schema_byte :: enc_len 0.
Definition trial_streams : list batch := [rows_call; rows_record int_column_bytes].

Definition trial_arrow : Arrow := schema_arrow trial_streams.
Definition trial_codec : SchemaCodec := list_codec trial_streams [int_column].
#[local] Existing Instances trial_arrow trial_codec.

Definition rows_request : option batch :=
  match encode_ipc rows_call with
  | Ok s => Some (mkBatch [Field "request" T_binary true []] None 1 [mkArray T_binary [V_text s]])
  | Throw _ => None
  end.
Definition bind_rows : prog batch := bind trial_worker false rows_request.
Definition rows_answer : batch := match answer bind_rows StorageSpec.empty_store with Ok b => b | Throw _ => rows_call end.


(** The kind as the engine sends it, [TABLE], is not what [bind] compares with: a
    call of the format's reader reaches the writer.  A kind that is spelled [table]
    reaches the reader, and is told the writer's secrets. *)
Example reader_is_not_preferred (p : BindParams) :
  scope_of p = mkScope [] [bs "main"] →
  (∃ fn, route trial_worker (bs "lines") p (bool_decide (Some (bs "TABLE") = Some kTable)) = Ok (Sink fn)) ∧
  (∃ fn, route trial_worker (bs "lines") p (bool_decide (Some (bs "table") = Some kTable)) = Ok (Table fn) ∧
    (** and the secrets told are not this function's, but the writer's *)
    tf_secret_lookups fn p = [mkLookup (bs "s3") None None]) ∧ required_secrets_of trial_worker (bs "lines") p = [].
Proof.
  intros Hs. unfold route. rewrite Hs. split_and!.
  - rewrite bool_decide_false by by_decide. cbn [negb]. eexists. vm_compute. reflexivity.
  - rewrite bool_decide_true by reflexivity. unfold find_table. eexists. split; [vm_compute; reflexivity|]. reflexivity.
  - unfold required_secrets_of. rewrite Hs. by destruct (bp_secrets_resolved p).
Qed.

(** Where the lookup of the secrets means another function than the one that binds:
    of two overloads the second serves a varchar and asks for a secret, and the
    first, which asks for none, is the one whose secrets are told. *)
Definition trial_scalar (type : dtype) (lookups : list SecretLookup) : ScalarFunction :=
  mkScalar (bs "fetch") [column_typed "x" 0 type ""] (λ _, Ok (Some int_column)) (λ _ _, Ok None) (λ _, lookups) None.
Definition overloaded_worker : Dispatcher nat :=
  match (d ← register_scalar_in (mkScope [] [bs "main"]) (Some (trial_scalar T_int64 [])) new_dispatcher;
         register_scalar_in (mkScope [] [bs "main"]) (Some (trial_scalar T_string [mkLookup (bs "s3") None None])) d) with
  | Ok d => d
  | Throw _ => new_dispatcher
  end.

Example overload_secrets_forgotten (p : BindParams) :
  scope_of p = mkScope [] [bs "main"] → bp_secrets_resolved p = false → input_type p 0 = Some T_string →
  (∃ fn, route overloaded_worker (bs "fetch") p false = Ok (Scalar fn) ∧ sf_secret_lookups fn p = [mkLookup (bs "s3") None None]) ∧
  required_secrets_of overloaded_worker (bs "fetch") p = [].
Proof.
  intros Hs Hr Ht. split.
  - exists (trial_scalar T_string [mkLookup (bs "s3") None None]). split; [|reflexivity]. unfold route, resolve_scalar. rewrite Hs.
    assert (named_in (scalars_ overloaded_worker) (bs "fetch") (mkScope [] [bs "main"]) =
      [trial_scalar T_int64 []; trial_scalar T_string [mkLookup (bs "s3") None None]]) as -> by (vm_compute; reflexivity).
    unfold find_buffering, find_table_in_out, find_table.
    assert (named_in (tables_ overloaded_worker) (bs "fetch") (mkScope [] [bs "main"]) = []) as -> by (vm_compute; reflexivity).
    assert (find_in (bufferings_ overloaded_worker) (bs "fetch") (mkScope [] [bs "main"]) = None) as -> by (vm_compute; reflexivity).
    assert (find_in (table_in_outs_ overloaded_worker) (bs "fetch") (mkScope [] [bs "main"]) = None) as -> by (vm_compute; reflexivity).
    generalize dependent (input_type p). intros types Hty. unfold choose. cbn [best_from]. unfold score_overload.
    cbn [trial_scalar sf_argument_specs score_from position column_typed plain_spec sp_index]. cbn. change (Z.to_nat 0) with 0%nat. by rewrite Hty.
  - unfold required_secrets_of. rewrite Hr, Hs. vm_compute. reflexivity.
Qed.

End Bind.
