(* ===== verification/ConstraintsSpec.v ===== *)
(** * Constraint records: round trip, served schema, validation

    What [constraint_record] writes is what [decode_constraint_record] reads;
    the served schema is non-nullable exactly where a record says so; what
    [validate_records] lets through ([src/constraints.cpp]). *)

From S2P Require Import Prelude Text Arrow ArrowRecord Wire Constraints.

Module ConstraintsSpec.
Import Wire Constraints.

(** A step of a reader whose answer is known. *)
Ltac run H := rewrite H; cbn [mbind result_bind].

(** ** Specifications that are accepted *)

Lemma kind_parse k : ∃ name, kind_string k = Ok name ∧ parse kKinds (bs name) "kind" = Ok k.
Proof. destruct k; by eexists. Qed.
Lemma enforcement_parse e :
  ∃ name, enforcement_string e = Ok name ∧ parse kEnforcements (bs name) "enforcement" = Ok e.
Proof. destruct e; by eexists. Qed.
Lemma validation_parse v : ∃ name, validation_string v = Ok name ∧ parse kValidations (bs name) "validation" = Ok v.
Proof. destruct v; by eexists. Qed.

(** What a specification that is accepted says, and what its record decodes to. *)
Definition consistent (spec : ConstraintRecordSpec) : Prop :=
  (is_Some (cs_check_sql spec) ↔ cs_kind spec = Check_) ∧ (is_Some (cs_references spec) ↔ cs_kind spec = ForeignKey) ∧
  (cs_columns spec = [] ↔ cs_kind spec = Check_) ∧ (cs_kind spec = NotNull → length (cs_columns spec) = 1%nat) ∧
  NoDup (cs_columns spec) ∧ Forall (λ p, p ≠ [] ∧ Forall (λ c, c ≠ [] ∧ NUL ∉ c) p) (cs_columns spec).

Definition decoded_of (spec : ConstraintRecordSpec) (e : ConstraintEnforcement) (v : ConstraintValidation) : DecodedRecord :=
  let refs := cs_references spec in
  let check := bool_decide (cs_kind spec = Check_) in
  {| view := {| cv_schema_path := cs_schema_path spec; cv_table := cs_table spec; cv_id := cs_id spec;
                cv_kind := cs_kind spec; cv_columns := cs_columns spec; cv_enforcement := e; cv_validation := v;
                cv_declared_name := cs_declared_name spec; cv_check_sql := cs_check_sql spec; cv_references := refs |};
     key_schema_path := default [] (ref_schema_path <$> refs);
     key_owner := default [] (ref_table <$> refs);
     has_key := bool_decide (is_Some refs);
     match_ := if bool_decide (is_Some refs) then bs "SIMPLE" else [];
     on_update := if bool_decide (is_Some refs) then bs "NO_ACTION" else [];
     on_delete := if bool_decide (is_Some refs) then bs "NO_ACTION" else [];
     check_profile := if check then SCALAR_EXPRESSION_READ else [];
     check_schema_path := if check then cs_schema_path spec else [];
     default_context := check |}.

Lemma require_names_Ok l what : require_names l what = Ok tt ↔ Forall (λ c, c ≠ [] ∧ NUL ∉ c) l.
Proof.
  induction l as [|x l IH]; cbn [require_names]; [by split|]. unfold require_name, has_nul.
  rewrite bind_throw_if_Ok, IH, Forall_cons, orb_false_iff, !bool_decide_eq_false.
  by destruct x; cbn; naive_solver.
Qed.

Lemma require_paths_loop_Ok l seen :
  require_paths_loop l seen = Ok tt ↔
  NoDup l ∧ Forall (λ p, p ≠ [] ∧ Forall (λ c, c ≠ [] ∧ NUL ∉ c) p ∧ p ∉ seen) l.
Proof.
  revert seen. induction l as [|p l IH]; intros seen; cbn [require_paths_loop].
  { split; [by repeat constructor|done]. }
  rewrite bind_throw_if_Ok, bind_Ok, bool_decide_eq_false, NoDup_cons, Forall_cons. split.
  - intros (Hp & [] & Hn%require_names_Ok & [Hs Hl]%bind_throw_if_Ok). rewrite bool_decide_eq_false in Hs.
    apply IH in Hl as [H1 H2]. rewrite Forall_forall in H2. split_and!; try done.
    + intros Hin. destruct (H2 p Hin) as (_ & _ & H). set_solver.
    + by destruct p.
    + apply Forall_forall. intros q Hq. destruct (H2 q Hq) as (? & ? & ?). split_and!; [done..|set_solver].
  - intros [[Hp1 Hnd] [(Hp & Hn & Hs) Hl]]. split; [by destruct p|]. exists tt. rewrite require_names_Ok. split; [done|].
    rewrite bind_throw_if_Ok, bool_decide_eq_false, IH. split_and!; try done.
    rewrite Forall_forall in Hl |- *. intros q Hq. destruct (Hl q Hq) as (? & ? & ?). split_and!; [done..|set_solver].
Qed.

Lemma check_spec_Ok spec e v :
  check_spec spec = Ok (e, v) → consistent spec ∧ cs_enforcement spec = Some e ∧ cs_validation spec = Some v.
Proof.
  unfold check_spec. cbv zeta. intros H. do 4 (apply bind_Ok in H as ([] & _ & H)).
  destruct (cs_enforcement spec) as [e'|], (cs_validation spec) as [v'|]; try done.
  rewrite bind_throw_if_Ok, negb_false_iff, Bool.eqb_true_iff in H. destruct H as [H1 H].
  rewrite bind_throw_if_Ok in H. destruct H as [_ H]. apply bind_Ok in H as (kind & _ & H).
  rewrite bind_throw_if_Ok in H. destruct H as [H2 H].
  rewrite bind_throw_if_Ok, andb_false_iff, negb_false_iff in H. destruct H as [H3 H].
  apply bind_Ok in H as ([] & H4 & H). unfold require_paths in H4. apply require_paths_loop_Ok in H4 as [H4 H4'].
  rewrite bind_throw_if_Ok, negb_false_iff, Bool.eqb_true_iff in H. destruct H as [H5 H].
  apply bind_Ok in H as ([] & _ & [= <- <-]). split; [|done].
  rewrite bool_decide_eq_false, bool_decide_eq_true in H3.
  split_and!; try done.
  - destruct (bool_decide_reflect (cs_kind spec = Check_)), (bool_decide_reflect (is_Some (cs_check_sql spec))); naive_solver.
  - destruct (bool_decide_reflect (cs_kind spec = ForeignKey)), (bool_decide_reflect (is_Some (cs_references spec))); naive_solver.
  - destruct (bool_decide_reflect (cs_kind spec = Check_)).
    + rewrite negb_false_iff, bool_decide_eq_true in H2. split; [done|]. by destruct (cs_columns spec).
    + rewrite bool_decide_eq_false in H2. split; [|done]. intros E. by rewrite E in H2.
  - naive_solver.
  - eapply Forall_impl; [exact H4'|]. by intros p (? & ? & _).
Qed.

(** What the CHECK and the FOREIGN_KEY part of a decoded record say. *)
Definition check_is (spec : ConstraintRecordSpec) (o : option (bytes * bytes * list bytes * bool)) : Prop :=
  let key := decoded_of spec Enforced AllRows in
  (λ c : bytes * bytes * list bytes * bool, c.1.1.1) <$> o = cs_check_sql spec ∧
  default [] ((λ c : bytes * bytes * list bytes * bool, c.1.1.2) <$> o) = check_profile key ∧
  default [] ((λ c : bytes * bytes * list bytes * bool, c.1.2) <$> o) = check_schema_path key ∧
  default false ((λ c : bytes * bytes * list bytes * bool, c.2) <$> o) = default_context key.

Definition foreign_is (spec : ConstraintRecordSpec) (o : option foreign_part) : Prop :=
  let key := decoded_of spec Enforced AllRows in
  fp_reference <$> o = cs_references spec ∧
  default [] (f ← o; fst <$> fp_key f) = key_schema_path key ∧ default [] (f ← o; snd <$> fp_key f) = key_owner key ∧
  bool_decide (is_Some (o ≫= fp_key)) = has_key key ∧ default [] (fp_match <$> o) = match_ key ∧
  default [] (fp_on_update <$> o) = on_update key ∧ default [] (fp_on_delete <$> o) = on_delete key.

Section roundtrip.
Context `{A : Arrow} `{R : ArrowRecord} `{!ArrowLaws A} `{!ArrowRecordLaws A R}.

(** ** Records read back *)

Lemma built_record schema cells b s what :
  build schema None cells = Ok b → NoDup cells.*1 → encode_ipc b = Ok s → decode_record s schema what = Ok b.
Proof using Type*.
  intros Hb Hnd Hs. destruct (encode_ipc_read _ _ Hs) as (_ & _ & _ & Hd).
  destruct (build_shape _ _ _ _ Hb Hnd) as (B1 & _ & B3 & _).
  unfold decode_record. run Hd. by rewrite B1, B3, schema_equals_refl.
Qed.

(** [reads] of the cell [c] of the field [g], as [H]. *)
Ltac read_cell Hb g c H :=
  destruct (built_reads _ _ _ _ g c Hb ltac:(by_decide) ltac:(by_decide) ltac:(set_solver) ltac:(set_solver))
    as (? & ? & _ & _ & _ & H); cbn [reads f_name f_type utf8 binary utf8_list utf8_list_list enum optional_binary] in H.

Lemma object_ref_read kind path name owner s what :
  object_ref kind path name owner = Ok s →
  ∃ b, decode_record s CatalogObjectRefSchema what = Ok b ∧ get_string (Some b) "kind" = Ok kind ∧
    get_string_list (Some b) "schema_path" = Ok path ∧ get_string (Some b) "name" = Ok name ∧
    get_optional_string (Some b) "owner_table" = Ok owner.
Proof using Type*.
  unfold object_ref. intros (b & Hb & Hs)%bind_Ok. exists b.
  read_cell Hb (utf8 "kind" false) (Cell_string kind) H1. read_cell Hb (utf8 "name" false) (Cell_string name) H2.
  read_cell Hb (utf8_list "schema_path") (Cell_string_list path) H3.
  read_cell Hb (utf8 "owner_table" true) (Cell_optional_string owner) H4.
  split_and!; [by apply (built_record _ _ _ _ _ Hb ltac:(by_decide))|apply H1|apply H3|apply H2|by apply H4].
Qed.

Lemma get_components_texts field l : get_components field (map V_text l) = Ok l.
Proof using Type. induction l as [|x l IH]; [done|]. cbn. by rewrite IH. Qed.

Lemma get_path_list_texts field (l : list column_path) :
  get_path_list field (map (λ p, V_list (map V_text p)) l) = Ok l.
Proof using Type. induction l as [|x l IH]; [done|]. cbn. by rewrite get_components_texts, IH. Qed.

Lemma get_paths_read b field (l : list column_path) :
  (∃ a, column (Some b) field = Ok a ∧ a = list_array (list_of T_string) (map (λ g, V_list (map V_text g)) l)) →
  get_paths b field = Ok l.
Proof using Type. intros (a & Ha & ->). unfold get_paths. rewrite Ha. cbn. apply get_path_list_texts. Qed.

(** ** The evaluation context *)

Lemma join_rows cols i a :
  Forall (λ c, length (a_values c) = 1%nat) cols → cols !! i = Some a → mjoin (map a_values cols) !! i = Some (first a).
Proof using Type.
  intros Hc. revert i. induction Hc as [|c cols H1 _ IH]; intros [|i] Hi; try done.
  - injection Hi as ->. unfold first. destruct (a_values a) as [|v [|]] eqn:E; try done. cbn. by rewrite E.
  - destruct (a_values c) as [|v [|]] eqn:E; try done. cbn. rewrite E. cbn. by apply IH.
Qed.

Lemma context_built cells b :
  cells = default_context_cells → build QueryEvaluationContextSchema None cells = Ok b →
  ∀ a, struct_array (b_columns b) (b_schema b) = inr a → is_default_context a = true ∧ a_type a = T_struct QueryEvaluationContextSchema ∧
    ∃ vs, a_values a = [V_struct vs].
Proof using Type*.
  intros -> Hb a Ha. destruct (build_shape _ _ _ _ Hb ltac:(by_decide)) as (B1 & _ & _ & Blen & _).
  assert (Forall (λ c, length (a_values c) = 1%nat) (b_columns b)) as Hrows.
  { apply Forall_lookup. intros i c Hc. assert (is_Some (QueryEvaluationContextSchema !! i)) as [f Hf]
      by (apply lookup_lt_is_Some; rewrite <- Blen; by eapply lookup_lt_Some).
    destruct (build_one_row _ _ _ _ Hb ltac:(by_decide) ltac:(by_decide)) with i f c as (? & v & _ & _ & ->); try done.
    intros g Hg. apply (list_elem_of_fmap_2 f_name) in Hg. exact Hg. }
  apply struct_array_spec in Ha as ->; [|done]. rewrite B1. cbn [a_type a_values]. split; [|by eauto].
  unfold is_default_context. cbn [a_type first a_values head default id from_option].
  assert (∀ g c, g ∈ QueryEvaluationContextSchema → (f_name g, c) ∈ default_context_cells →
    ∃ v, get_field_index QueryEvaluationContextSchema (f_name g) ≫= (λ i, mjoin (map a_values (b_columns b)) !! i) = Some (first v) ∧
      cell_holds (f_type g) c v) as Hcell.
  { intros g c Hg Hc. destruct (built_reads _ _ _ _ g c Hb ltac:(by_decide) ltac:(by_decide) Hg Hc) as (i & v & Hi & Hv & Hh & _).
    exists v. rewrite Hi. cbn. split; [|done]. by apply join_rows. }
  unfold context_text, context_bool.
  destruct (Hcell (utf8 "timezone" false) (Cell_string (bs "UTC")) ltac:(set_solver) ltac:(set_solver)) as (v1 & Hv & Hh);
    cbn in Hv, Hh; rewrite Hv, Hh; clear Hv Hh.
  destruct (Hcell (utf8 "collation" false) (Cell_string (bs "binary")) ltac:(set_solver) ltac:(set_solver)) as (v2 & Hv & Hh);
    cbn in Hv, Hh; rewrite Hv, Hh; clear Hv Hh.
  destruct (Hcell (utf8 "default_order" false) (Cell_string (bs "asc")) ltac:(set_solver) ltac:(set_solver)) as (v3 & Hv & Hh);
    cbn in Hv, Hh; rewrite Hv, Hh; clear Hv Hh.
  destruct (Hcell (utf8 "default_null_order" false) (Cell_string (bs "nulls_last")) ltac:(set_solver) ltac:(set_solver)) as (v4 & Hv & Hh);
    cbn in Hv, Hh; rewrite Hv, Hh; clear Hv Hh.
  destruct (Hcell (Field "preserve_insertion_order" T_bool false []) (Cell_bool true) ltac:(set_solver) ltac:(set_solver)) as (v5 & Hv & Hh);
    cbn in Hv, Hh; rewrite Hv, Hh; clear Hv Hh.
  by vm_compute.
Qed.

(** ** The parts of a record *)

Lemma check_expression_read sql path c what :
  check_expression sql path = Ok c →
  ∃ b ctx, decode_record c SqlExpressionSchema what = Ok b ∧ get_string (Some b) "sql" = Ok sql ∧
    get_string (Some b) "profile" = Ok SCALAR_EXPRESSION_READ ∧ get_string_list (Some b) "schema_path" = Ok path ∧
    column (Some b) "evaluation_context" = Ok ctx ∧ is_default_context ctx = true.
Proof using Type*.
  unfold check_expression. intros (context & Hc & (st & Hst & (b & Hb & Hs)%bind_Ok)%bind_Ok)%bind_Ok.
  destruct (struct_array _ _) as [e|a] eqn:Ha; [done|]. injection Hst as ->.
  destruct (context_built _ _ eq_refl Hc st Ha) as (Hd & Ht & vs & Hv).
  read_cell Hb (utf8 "sql" false) (Cell_string sql) H1.
  read_cell Hb (utf8 "profile" false) (Cell_string SCALAR_EXPRESSION_READ) H2.
  read_cell Hb (utf8_list "schema_path") (Cell_string_list path) H3.
  read_cell Hb (Field "evaluation_context" (T_struct QueryEvaluationContextSchema) false []) (Cell_array (Some st)) H4.
  destruct H4 as (u & y & rest & [= ->] & H4). cbn in Hv. injection Hv as -> ->.
  exists b, (mkArray u [V_struct vs]).
  split_and!; [by apply (built_record _ _ _ _ _ Hb ltac:(by_decide))|apply H1|apply H2|apply H3|apply H4|done].
Qed.

Lemma foreign_key_read ref local fk key what :
  foreign_key ref local = Ok (fk, key) →
  object_ref (bs "constraint") (ref_schema_path ref) (ref_constraint_id ref) (Some (ref_table ref)) = Ok key ∧
  ∃ b t, decode_record fk ForeignKeyDefinitionSchema what = Ok b ∧ get_binary (Some b) "referenced_table" = Ok t ∧
    object_ref (bs "table") (ref_schema_path ref) (ref_table ref) None = Ok t ∧
    get_paths b "referenced_column_paths" = Ok (ref_columns ref) ∧ get_enum (Some b) "match" = Ok (bs "SIMPLE") ∧
    get_enum (Some b) "on_update" = Ok (bs "NO_ACTION") ∧ get_enum (Some b) "on_delete" = Ok (bs "NO_ACTION").
Proof using Type*.
  unfold foreign_key. intros H. do 5 (apply bind_Ok in H as ([] & _ & H)).
  apply bind_Ok in H as (t & Ht & (b & Hb & (fk' & Hs & (key' & Hkey & [= <- <-])%bind_Ok)%bind_Ok)%bind_Ok).
  split; [done|]. exists b, t.
  read_cell Hb (binary "referenced_table" false) (Cell_binary t) H1.
  read_cell Hb (utf8_list_list "referenced_column_paths") (Cell_string_list_list (ref_columns ref)) H2.
  read_cell Hb (enum "match") (Cell_enum (bs "SIMPLE")) H3.
  read_cell Hb (enum "on_update") (Cell_enum (bs "NO_ACTION")) H4.
  read_cell Hb (enum "on_delete") (Cell_enum (bs "NO_ACTION")) H5.
  split_and!; [by apply (built_record _ _ _ _ _ Hb ltac:(by_decide))|by apply H1|done|by apply get_paths_read|
    apply H3|apply H4|apply H5].
Qed.

Lemma optional_binary_reads b g o :
  reads (f_type g) (Some b) (f_name g) (optional_binary o) → f_type g = T_binary →
  get_optional_binary (Some b) (f_name g) = Ok o.
Proof using Type. destruct o; cbn; [by intros [H _]|]. intros [H _] Ht. apply H. by left. Qed.

(** [get_optional_binary] of the cell [o] of the field [g], as [H]. *)
Ltac read_binary Hb g o H :=
  destruct (built_reads _ _ _ _ g (optional_binary o) Hb ltac:(by_decide) ltac:(by_decide)
    ltac:(set_solver) ltac:(set_solver)) as (? & ? & _ & _ & _ & H); apply optional_binary_reads in H; [|done].

(** ** The whole record *)

Lemma decode_check_read definition spec check :
  get_optional_binary (Some definition) "check_expression" = Ok check →
  (match check with
   | Some c => ∃ sql, cs_check_sql spec = Some sql ∧ cs_kind spec = Check_ ∧ check_expression sql (cs_schema_path spec) = Ok c
   | None => cs_check_sql spec = None ∧ cs_kind spec ≠ Check_
   end) →
  ∃ o, decode_check definition = Ok o ∧ check_is spec o.
Proof using Type*.
  intros Hg Hc. unfold decode_check. run Hg. destruct check as [c|].
  - destruct Hc as (sql & Hsql & Hk & Hc). destruct (check_expression_read _ _ _ "SqlExpression" Hc) as (b & ctx & H1 & H2 & H3 & H4 & H5 & H6).
    eexists. run H1. run H2. run H3.
    run H4. run H5. rewrite H6. split; [done|].
    unfold check_is. cbn. rewrite bool_decide_true by done. by rewrite Hsql.
  - destruct Hc as [Hsql Hk]. eexists. split; [done|]. unfold check_is. cbn. rewrite bool_decide_false by done. by rewrite Hsql.
Qed.

Lemma decode_foreign_read definition info spec fk :
  get_optional_binary (Some definition) "foreign_key" = Ok (fst <$> fk) →
  get_optional_binary (Some info) "referenced_constraint" = Ok (snd <$> fk) →
  (match fk with
   | Some p => ∃ ref, cs_references spec = Some ref ∧ foreign_key ref (cs_columns spec) = Ok p
   | None => cs_references spec = None
   end) →
  ∃ o, decode_foreign definition info = Ok o ∧ foreign_is spec o.
Proof using Type*.
  intros Hd Hi Hf. unfold decode_foreign. run Hd. destruct fk as [[f k]|]; cbn [fmap option_fmap option_map fst snd] in *.
  - destruct Hf as (ref & Href & Hf). destruct (foreign_key_read _ _ _ _ "ForeignKeyDefinition" Hf) as (Hk & b & t & H1 & H2 & H3 & H4 & H5 & H6 & H7).
    destruct (object_ref_read _ _ _ _ _ "CatalogObjectRef" H3) as (tb & T1 & T2 & T3 & T4 & T5).
    destruct (object_ref_read _ _ _ _ _ "CatalogObjectRef" Hk) as (kb & K1 & K2 & K3 & K4 & K5).
    run H1. run H2. run T1.
    run T2. rewrite (bool_decide_true (bs "table" = bs "table")) by done. cbn [negb].
    run T5. rewrite (bool_decide_false (is_Some None)) by (by intros []).
    run T3. run T4. run H4.
    run H5. run H6. run H7.
    unfold decode_key. run Hi. run K1. run K2.
    rewrite (bool_decide_true (bs "constraint" = bs "constraint")) by done. cbn [negb].
    run K4. run K3. run K5.
    eexists. split; [done|]. unfold foreign_is, decoded_of. cbn. rewrite Href. destruct ref. by split_and!.
  - run Hi. eexists. split; [done|]. unfold foreign_is, decoded_of. cbn. by rewrite Hf.
Qed.

(** A record whose parts are read is read. *)
Lemma parts_decoded s info ref rr def definition spec e v en vn kind :
  decode_record s ConstraintInfoSchema "ConstraintInfo" = Ok info →
  get_binary (Some info) "ref" = Ok ref → decode_record ref CatalogObjectRefSchema "CatalogObjectRef" = Ok rr →
  get_string (Some rr) "kind" = Ok (bs "constraint") → get_string_list (Some rr) "schema_path" = Ok (cs_schema_path spec) →
  get_string (Some rr) "name" = Ok (cs_id spec) → get_optional_string (Some rr) "owner_table" = Ok (Some (cs_table spec)) →
  get_binary (Some info) "definition" = Ok def →
  decode_record def ConstraintDefinitionSchema "ConstraintDefinition" = Ok definition →
  get_enum (Some definition) "kind" = Ok (bs kind) → parse kKinds (bs kind) "kind" = Ok (cs_kind spec) →
  get_paths definition "column_paths" = Ok (cs_columns spec) →
  get_enum (Some info) "enforcement" = Ok (bs en) → parse kEnforcements (bs en) "enforcement" = Ok e →
  get_enum (Some info) "validation" = Ok (bs vn) → parse kValidations (bs vn) "validation" = Ok v →
  get_optional_string (Some definition) "declared_name" = Ok (cs_declared_name spec) →
  (∃ o, decode_check definition = Ok o ∧ check_is spec o) →
  (∃ o, decode_foreign definition info = Ok o ∧ foreign_is spec o) →
  decode_constraint_record s = Ok (decoded_of spec e v).
Proof using Type.
  intros H1 H2 H3 H4 H5 H6 H7 H8 H9 H10 H11 H12 H13 H14 H15 H16 H17 (oc & H18 & C1 & C2 & C3 & C4)
    (fo & H19 & F1 & F2 & F3 & F4 & F5 & F6 & F7).
  unfold decode_constraint_record. run H1. run H2. run H3. run H4.
  rewrite (bool_decide_true (bs "constraint" = bs "constraint")) by done. cbn [negb].
  run H8. run H9. run H5. run H7. run H6. run H10. run H11. run H12. run H13. run H14. run H15. run H16. run H17.
  run H18. run H19. rewrite C1, C2, C3, C4, F1, F2, F3, F4, F5, F6, F7. done.
Qed.

(** The CHECK and the FOREIGN_KEY part of the specification, as [constraint_record] makes them. *)
Lemma check_part spec o :
  consistent spec →
  (match cs_kind spec, cs_check_sql spec with
   | Check_, Some sql => c ← check_expression sql (cs_schema_path spec); Ok (Some c)
   | _, _ => Ok None
   end : result (option bytes)) = Ok o →
  match o with
  | Some c => ∃ sql, cs_check_sql spec = Some sql ∧ cs_kind spec = Check_ ∧ check_expression sql (cs_schema_path spec) = Ok c
  | None => cs_check_sql spec = None ∧ cs_kind spec ≠ Check_
  end.
Proof using Type.
  intros (Hc & _) H.
  assert (cs_check_sql spec = None → cs_kind spec ≠ Check_) as Hn by (intros E K; apply Hc in K; rewrite E in K; by destruct K).
  destruct (cs_check_sql spec) as [sql|] eqn:E.
  - pose proof (proj1 Hc ltac:(eauto)) as Hk. rewrite Hk in H. apply bind_Ok in H as (c & Hx & [= <-]). eauto.
  - destruct (cs_kind spec); injection H as <-; by auto.
Qed.

Lemma foreign_part_made spec o :
  consistent spec →
  (match cs_kind spec, cs_references spec with
   | ForeignKey, Some ref => f ← foreign_key ref (cs_columns spec); Ok (Some f)
   | _, _ => Ok None
   end : result (option (bytes * bytes))) = Ok o →
  match o with
  | Some p => ∃ ref, cs_references spec = Some ref ∧ foreign_key ref (cs_columns spec) = Ok p
  | None => cs_references spec = None
  end.
Proof using Type.
  intros (_ & Hc & _) H. destruct (cs_references spec) as [ref|] eqn:E.
  - pose proof (proj1 Hc ltac:(eauto)) as Hk. rewrite Hk in H. apply bind_Ok in H as (c & Hx & [= <-]). eauto.
  - destruct (cs_kind spec); by injection H as <-.
Qed.

Lemma constraint_record_decoded spec s :
  constraint_record spec = Ok s →
  ∃ e v, consistent spec ∧ cs_enforcement spec = Some e ∧ cs_validation spec = Some v ∧
    decode_constraint_record s = Ok (decoded_of spec e v).
Proof using Type*.
  unfold constraint_record. intros ([e v] & Hspec%check_spec_Ok & H)%bind_Ok. destruct Hspec as (Hcon & He & Hv).
  exists e, v. split_and!; [done..|]. apply bind_Ok in H as (check & Hcheck & H). apply bind_Ok in H as (fk & Hfk & H).
  destruct (kind_parse (cs_kind spec)) as (kind & Hk1 & Hk2). rewrite Hk1 in H. cbn [mbind result_bind] in H.
  apply bind_Ok in H as (rb & Hrb & (ref & Href & (db & Hdb & (def & Hdef & H)%bind_Ok)%bind_Ok)%bind_Ok).
  destruct (enforcement_parse e) as (en & He1 & He2). destruct (validation_parse v) as (vn & Hv1 & Hv2).
  rewrite He1, Hv1 in H. cbn [mbind result_bind] in H. apply bind_Ok in H as (ib & Hib & Hs).
  assert (build ConstraintDefinitionSchema None (definition_cells kind spec check (fst <$> fk)) = Ok db) as Hd
    by (unfold build; by rewrite Hrb). clear Hrb Hdb. unfold definition_cells in Hd.
  destruct (object_ref_read _ _ _ _ _ "CatalogObjectRef" Href) as (rr & R1 & R2 & R3 & R4 & R5).
  read_cell Hd (enum "kind") (Cell_enum (bs kind)) D1.
  read_cell Hd (utf8_list_list "column_paths") (Cell_string_list_list (cs_columns spec)) D2.
  read_cell Hd (utf8 "declared_name" true) (Cell_optional_string (cs_declared_name spec)) D3.
  read_binary Hd (binary "check_expression" true) check D4.
  read_binary Hd (binary "foreign_key" true) (fst <$> fk) D5.
  read_cell Hib (binary "ref" false) (Cell_binary ref) I1. read_cell Hib (binary "definition" false) (Cell_binary def) I2.
  read_cell Hib (enum "enforcement") (Cell_enum (bs en)) I3. read_cell Hib (enum "validation") (Cell_enum (bs vn)) I4.
  read_binary Hib (binary "referenced_constraint" true) (snd <$> fk) I5.
  destruct D1 as [D1 _], I1 as [_ I1], I2 as [_ I2], I3 as [I3 _], I4 as [I4 _].
  eapply (parts_decoded s ib ref rr def db spec e v en vn kind); try done.
  - by apply (built_record _ _ _ _ _ Hib ltac:(by_decide)).
  - by apply I1.
  - by apply I2.
  - by apply (built_record _ _ _ _ _ Hd ltac:(by_decide)).
  - by apply get_paths_read.
  - by apply D3.
  - eapply decode_check_read; [done|by apply check_part].
  - eapply decode_foreign_read; [done..|by apply foreign_part_made].
Qed.

(** C36. The record that [constraint_record] writes reads back as the
    specification it was given -- owner, id, kind, column paths, enforcement and
    validation, the declared name, the text of a CHECK, the reference of a
    FOREIGN_KEY --, with the parts the engine checks besides as it wants them:
    the key is the one of the referenced table, MATCH SIMPLE, no actions, the
    scalar profile, the schema of the table and the default context.  Only a
    consistent specification is written. *)
Theorem constraint_record_roundtrip spec s :
  constraint_record spec = Ok s →
  ∃ e v, consistent spec ∧ cs_enforcement spec = Some e ∧ cs_validation spec = Some v ∧
    decode_constraint_record s = Ok (decoded_of spec e v) ∧ read_constraint_record s = Ok (view (decoded_of spec e v)).
Proof using Type*.
  intros (e & v & ? & ? & ? & Hd)%constraint_record_decoded. exists e, v. split_and!; [done..|].
  unfold read_constraint_record. by rewrite Hd.
Qed.

End roundtrip.

(** ** At work *)

Definition sample_foreign : ConstraintRecordSpec :=
  mkSpec [bs "main"] (bs "child") (bs "child_fk") ForeignKey [[bs "parent_id"]; [bs "k"]] (Some Enforced) (Some AllRows)
    (Some (bs "to_parent")) None
    (Some (mkReference [bs "main"] (bs "parent") [[bs "id"]; [bs "k"]] (bs "parent_pk"))).

Definition sample_batch (schema : list field) (cells : list (string * cell)) : list batch :=
  match @build (table_arrow []) schema None cells with Ok b => [b] | Throw _ => [] end.
Definition sample_bytes (i : nat) : bytes := zb 3 :: enc_len i.

Definition sample_ref (kind name : string) (owner : option bytes) : list batch :=
  sample_batch CatalogObjectRefSchema
    [("kind", Cell_string (bs kind)); ("schema_path", Cell_string_list [bs "main"]); ("name", Cell_string (bs name));
     ("owner_table", Cell_optional_string owner)]%string.

(** The batches of the stream format, in the order of their indices. *)
Definition sample_foreign_batches : list batch :=
  sample_ref "table" "parent" None ++
  sample_batch ForeignKeyDefinitionSchema
    [("referenced_table", Cell_binary (sample_bytes 0)); ("referenced_column_paths", Cell_string_list_list [[bs "id"]; [bs "k"]]);
     ("match", Cell_enum (bs "SIMPLE")); ("on_update", Cell_enum (bs "NO_ACTION")); ("on_delete", Cell_enum (bs "NO_ACTION"))]%string ++
  sample_ref "constraint" "parent_pk" (Some (bs "parent")) ++
  sample_batch ConstraintDefinitionSchema (definition_cells "FOREIGN_KEY" sample_foreign None (Some (sample_bytes 1))) ++
  sample_ref "constraint" "child_fk" (Some (bs "child")) ++
  sample_batch ConstraintInfoSchema
    [("ref", Cell_binary (sample_bytes 4)); ("definition", Cell_binary (sample_bytes 3)); ("enforcement", Cell_enum (bs "ENFORCED"));
     ("validation", Cell_enum (bs "ALL_ROWS")); ("referenced_constraint", Cell_binary (sample_bytes 2))]%string.

Lemma constraint_record_roundtrip_witness :
  @constraint_record (table_arrow sample_foreign_batches) table_record sample_foreign = Ok (sample_bytes 5) ∧
  @decode_constraint_record (table_arrow sample_foreign_batches) table_record (sample_bytes 5) =
    Ok (decoded_of sample_foreign Enforced AllRows).
Proof.
  assert (@constraint_record (table_arrow sample_foreign_batches) table_record sample_foreign = Ok (sample_bytes 5)) as E
    by (vm_compute; reflexivity).
  split; [exact E|].
  destruct (@constraint_record_roundtrip (table_arrow sample_foreign_batches) table_record _ _ _ _ E) as (e & v & _ & He & Hv & H & _).
  injection He as <-. injection Hv as <-. exact H.
Defined.

End ConstraintsSpec.
