(* ===== verification/ConstraintsServed.v ===== *)
(** * The served schema and what validation lets through

    [serve_schema] gives every column, and every ordinary struct member, the
    nullability that the NOT_NULL and PRIMARY_KEY records state, and nothing
    else; what [validate_records] accepts keeps the rules of the engine
    ([src/constraints.cpp]). *)

From S2P Require Import Prelude Text Arrow ArrowRecord Wire SqlScalar Constraints ConstraintsSpec.

Module ConstraintsServed.
Import Wire Constraints ConstraintsSpec.

(** ** The columns of a schema *)

(** [g] is reached at [p] from [f], which stands at [path], through ordinary structs. *)
Inductive under (f : field) (path : column_path) : column_path → field → Prop :=
  | under_here : under f path path f
  | under_child p g fs h :
      under f path p g → ordinary_struct_children g = Some fs → h ∈ fs → under f path (p ++ [bs (f_name h)]) h.

Definition column_at (columns : list field) (p : column_path) (g : field) : Prop :=
  ∃ f, f ∈ columns ∧ row_id f = false ∧ under f [bs (f_name f)] p g.

(** The only field of a list that has a name; and the field that a path names: each
    component the only one of its name, in ordinary structs, at the top no row id. *)
Definition named_once (l : list field) (name : bytes) (f : field) : Prop :=
  ∃ i, l !! i = Some f ∧ ∀ j g, l !! j = Some g → bs (f_name g) = name ↔ j = i.
Inductive resolves : list field → column_path → field → Prop :=
  | resolves_last l name f : named_once l name f → resolves l [name] f
  | resolves_in l name g fs path f :
      named_once l name g → ordinary_struct_children g = Some fs → resolves fs path f → resolves l (name :: path) f.
Definition names_column (columns : list field) (p : column_path) (f : field) : Prop :=
  resolves columns p f ∧ ∀ g, named_once columns (default [] (head p)) g → row_id g = false.

(** Every column of the schema is nullable exactly where no record requires it. *)
Definition agrees (required : gset column_path) (columns : list field) : Prop :=
  ∀ p g, column_at columns p g → f_nullable g = bool_decide (p ∉ required).

Lemma ordinary_ind (P : field → Prop) :
  (∀ f, (∀ fs, ordinary_struct_children f = Some fs → Forall P fs) → P f) → ∀ f, P f.
Proof.
  intros H. fix IH 1. intros [n t b m]. apply H. unfold ordinary_struct_children. cbn [f_type].
  intros fs. destruct t; try discriminate. destruct (ordinary _); [|discriminate]. intros E. injection E as <-.
  induction fields as [|g l IHl]; constructor; [apply IH|exact IHl].
Qed.

Lemma under_below f path fs h p g :
  ordinary_struct_children f = Some fs → h ∈ fs → under h (path ++ [bs (f_name h)]) p g → under f path p g.
Proof. intros Hf Hh. induction 1; econstructor; eauto using under. Qed.

Lemma under_inv f path p g :
  under f path p g →
  (p = path ∧ g = f) ∨ ∃ fs h, ordinary_struct_children f = Some fs ∧ h ∈ fs ∧ under h (path ++ [bs (f_name h)]) p g.
Proof.
  induction 1 as [|p g fs h _ [[-> ->]|(gs & k & Hf & Hk & Hu)] Hg Hh]; [by left|right..].
  - exists fs, h. by repeat (constructor || split).
  - exists gs, k. split_and!; [done..|]. by eapply under_child.
Qed.

(** ** The equations of the two walks *)

Definition first_path (l : list (option column_path)) : option column_path :=
  foldr (λ o rest, match o with Some p => Some p | None => rest end) None l.

Lemma first_path_None l : first_path l = None ↔ Forall (eq None) l.
Proof. induction l as [|[p|] l IH]; cbn; [by split; [constructor|]|..]; rewrite Forall_cons; naive_solver. Qed.

Lemma walk_field_eq required path f :
  walk_field required path f =
  if negb (Bool.eqb (f_nullable f) (bool_decide (path ∉ required))) then Some path
  else match ordinary_struct_children f with
       | Some fs => first_path (map (λ c, walk_field required (path ++ [bs (f_name c)]) c) fs)
       | None => None
       end.
Proof.
  destruct f as [n t b m]. cbn -[Bool.eqb]. destruct (negb _); [done|]. unfold ordinary_struct_children.
  destruct t; try done. cbn [f_type]. destruct (ordinary _); [|done].
  by induction fields as [|c l IH]; cbn; [|rewrite IH].
Qed.

Lemma serve_field_eq f path required :
  serve_field f path required =
  Field (f_name f)
    (match ordinary_struct_children f with
     | Some fs => T_struct (map (λ c, serve_field c (path ++ [bs (f_name c)]) required) fs)
     | None => f_type f
     end)
    (bool_decide (path ∉ required)) (f_metadata f).
Proof.
  destruct f as [n t b m]. cbn [f_name f_metadata]. unfold ordinary_struct_children. cbn [f_type].
  destruct t; try done. cbn. by destruct (ordinary _).
Qed.

Lemma walk_columns_None required columns :
  walk_columns required columns = None ↔
  ∀ f, f ∈ columns → row_id f = false → walk_field required [bs (f_name f)] f = None.
Proof.
  rewrite <- Forall_forall. induction columns as [|f l IH]; cbn [walk_columns]; [by split|]. rewrite Forall_cons.
  destruct (row_id f) eqn:Hr; [rewrite IH; intuition congruence|].
  destruct (walk_field _ _ _) eqn:E; [|rewrite IH; tauto].
  split; [done|]. intros [H _]. by specialize (H eq_refl).
Qed.

(** The walk finds no path exactly where there is no disagreement. *)
Lemma walk_field_None required f path :
  walk_field required path f = None ↔ ∀ p g, under f path p g → f_nullable g = bool_decide (p ∉ required).
Proof.
  revert path. induction f as [f IH] using ordinary_ind. intros path. rewrite walk_field_eq. split.
  - intros H p g Hu. destruct (Bool.eqb _ _) eqn:E; [|done]. cbn in H. apply Bool.eqb_prop in E.
    destruct (under_inv _ _ _ _ Hu) as [[-> ->]|(fs & h & Hf & Hh & Hu')]; [done|].
    rewrite Hf, first_path_None, Forall_map, Forall_forall in H. specialize (IH fs Hf). rewrite Forall_forall in IH.
    by apply (proj1 (IH h Hh (path ++ [bs (f_name h)])) (eq_sym (H h Hh))).
  - intros H. rewrite (H path f) by constructor. rewrite Bool.eqb_reflx. cbn.
    destruct (ordinary_struct_children f) as [fs|] eqn:Hf; [|done]. specialize (IH fs eq_refl).
    rewrite Forall_forall in IH. apply first_path_None, Forall_map, Forall_forall. intros h Hh. symmetry. apply IH; [done|].
    intros p g Hu. by apply H, (under_below _ _ _ _ _ _ Hf Hh).
Qed.

Lemma walk_agrees required columns : walk_columns required columns = None ↔ agrees required columns.
Proof.
  rewrite walk_columns_None. unfold agrees, column_at. setoid_rewrite walk_field_None. naive_solver.
Qed.

(** ** Serving *)

Lemma serve_field_name f path required : f_name (serve_field f path required) = f_name f.
Proof. by destruct f. Qed.
Lemma serve_field_metadata f path required : f_metadata (serve_field f path required) = f_metadata f.
Proof. by destruct f. Qed.

Lemma serve_field_children f path required :
  ordinary_struct_children (serve_field f path required) =
  map (λ c, serve_field c (path ++ [bs (f_name c)]) required) <$> ordinary_struct_children f.
Proof.
  rewrite serve_field_eq. unfold ordinary_struct_children at 1. unfold ordinary. cbn [f_type f_metadata].
  unfold ordinary_struct_children, ordinary. destruct (f_type f); try done. by destruct (existsb _ _).
Qed.

Lemma serve_row_id f path required : row_id (serve_field f path required) = row_id f.
Proof. by destruct f. Qed.

Lemma serve_field_walks f path required : walk_field required path (serve_field f path required) = None.
Proof.
  revert path. induction f as [f IH] using ordinary_ind. intros path. rewrite walk_field_eq, serve_field_children.
  rewrite serve_field_eq at 1. cbn [f_nullable]. rewrite Bool.eqb_reflx. cbn [negb].
  destruct (ordinary_struct_children f) as [fs|] eqn:Hf; cbn; [|done]. specialize (IH fs eq_refl).
  apply first_path_None. rewrite map_map, Forall_map. eapply Forall_impl; [exact IH|]. intros c Hc. cbn.
  by rewrite serve_field_name, Hc.
Qed.

Lemma serve_field_id f path required : walk_field required path f = None → serve_field f path required = f.
Proof.
  revert path. induction f as [f IH] using ordinary_ind. intros path. rewrite walk_field_eq, serve_field_eq.
  destruct (Bool.eqb _ _) eqn:E; [|done]. apply Bool.eqb_prop in E. rewrite <- E. cbn [negb].
  destruct (ordinary_struct_children f) as [fs|] eqn:Hf; [|by destruct f]. intros H%first_path_None.
  specialize (IH fs eq_refl). rewrite Forall_map in H.
  assert (map (λ c, serve_field c (path ++ [bs (f_name c)]) required) fs = fs) as ->.
  { clear Hf E. induction H; [done|]. inversion_clear IH. cbn. f_equal; eauto. }
  destruct f as [n t b m]. unfold ordinary_struct_children in Hf. cbn in *. destruct t; try done.
  destruct (ordinary _); [|done]. by injection Hf as ->.
Qed.

Lemma serve_field_twice f path r1 r2 : serve_field (serve_field f path r1) path r2 = serve_field f path r2.
Proof.
  revert path. induction f as [f IH] using ordinary_ind. intros path.
  rewrite (serve_field_eq (serve_field f path r1)), serve_field_children, serve_field_name, serve_field_metadata.
  rewrite (serve_field_eq f path r2). destruct (ordinary_struct_children f) as [fs|] eqn:Hf; cbn; f_equal.
  - f_equal. rewrite map_map. specialize (IH fs eq_refl). clear Hf. induction IH as [|c l Hc _ IHl]; [done|]. cbn.
    by rewrite serve_field_name, Hc, IHl.
  - rewrite serve_field_eq, Hf. done.
Qed.

Lemma serve_walks columns required : walk_columns required (serve_schema columns required) = None.
Proof.
  apply walk_columns_None. intros f (g & -> & _)%list_elem_of_fmap Hr. destruct (row_id g) eqn:Hg; [congruence|].
  by rewrite serve_field_name, serve_field_walks.
Qed.

Lemma serve_agrees columns required : agrees required (serve_schema columns required).
Proof. apply walk_agrees, serve_walks. Qed.

(** C34. Serving makes every column and every member of an ordinary struct
    nullable exactly where no NOT_NULL or PRIMARY_KEY record requires it, so the
    check that [validate_records] makes of the served schema never fails; it
    touches nothing else: names, metadata, the row id and a schema that already
    agrees are kept, and what one serving did a second one forgets. *)
Theorem served_columns_exact columns required :
  agrees required (serve_schema columns required) ∧ walk_columns required (serve_schema columns required) = None ∧
  map f_name (serve_schema columns required) = map f_name columns ∧
  map f_metadata (serve_schema columns required) = map f_metadata columns ∧
  (serve_schema columns required = columns ↔ agrees required columns) ∧
  ∀ other, serve_schema (serve_schema columns other) required = serve_schema columns required.
Proof.
  split_and!; [apply serve_agrees|apply serve_walks|..]; unfold serve_schema; rewrite ?map_map.
  - apply map_ext. intros f. destruct (row_id f); [done|]. apply serve_field_name.
  - apply map_ext. intros f. destruct (row_id f); [done|]. apply serve_field_metadata.
  - split; [intros E; rewrite <- E; apply serve_agrees|]. rewrite <- walk_agrees, walk_columns_None. intros H.
    rewrite <- (map_id columns) at 2. apply map_ext_in. intros f Hf%list_elem_of_In. destruct (row_id f) eqn:Hr; [done|].
    by apply serve_field_id, H.
  - intros other. rewrite map_map. apply map_ext. intros f. destruct (row_id f) eqn:Hr; [by rewrite Hr|].
    by rewrite serve_row_id, Hr, serve_field_name, serve_field_twice.
Qed.

(** ** What is accepted *)

Definition is_primary (d : DecodedRecord) : bool := bool_decide (cv_kind (view d) = PrimaryKey).

Definition owned (owner_schema : option (list bytes)) (owner : bytes) (d : DecodedRecord) : Prop :=
  ∀ path, owner_schema = Some path → cv_schema_path (view d) = path ∧ cv_table (view d) = owner.

Definition label (d : DecodedRecord) : option bytes := SqlScalar.lower <$> cv_declared_name (view d).

(** What the state of the loop lets the rest of the records be. *)
Definition fresh_records (st : checked) (records : list DecodedRecord) : Prop :=
  NoDup (map (λ d, cv_id (view d)) records) ∧ Forall (λ d, cv_id (view d) ∉ ids st) records ∧
  NoDup (omap label records) ∧ Forall (λ l, l ∉ labels st) (omap label records) ∧
  (length (filter (λ d, is_primary d = true) records) ≤ if primary st then 0 else 1)%nat.

Lemma fresh_cons st st' d records :
  (cv_id (view d) ∉ ids st) → ids st' = {[cv_id (view d)]} ∪ ids st → (∀ l, label d = Some l → l ∉ labels st) →
  labels st' = list_to_set (option_list (label d)) ∪ labels st → primary st' = primary st || is_primary d →
  (is_primary d = true → primary st = false) → fresh_records st' records → fresh_records st (d :: records).
Proof.
  unfold fresh_records. intros Hi Hi' Hl Hl' Hp Hp'. rewrite Hi', Hl', Hp. intros (N1 & F1 & N2 & F2 & Hlen).
  rewrite Forall_forall in F1. rewrite Forall_forall in F2.
  assert (NoDup (omap label (d :: records)) ∧ Forall (λ l, l ∉ labels st) (omap label (d :: records))) as [N2' F2'].
  { cbn. destruct (label d) as [l|]; cbn in *.
    - rewrite NoDup_cons, Forall_cons. split_and!; [|done|by apply Hl|].
      + intros Hin. destruct (F2 l Hin). set_solver.
      + apply Forall_forall. intros k Hk. specialize (F2 k Hk). set_solver.
    - split; [done|]. apply Forall_forall. intros k Hk. specialize (F2 k Hk). set_solver. }
  split_and!; [| |done|done|].
  - cbn. apply NoDup_cons. split; [|done]. intros (e & He & Hin)%list_elem_of_fmap. destruct (F1 e Hin). set_solver.
  - constructor; [done|]. apply Forall_forall. intros e He. specialize (F1 e He). set_solver.
  - rewrite filter_cons. destruct (decide (is_primary d = true)) as [E|E].
    + rewrite E, orb_true_r in Hlen. rewrite (Hp' E). cbn. lia.
    + apply Bool.not_true_is_false in E. by rewrite E, orb_false_r in Hlen.
Qed.

(** The paths of a record that requires them are required. *)
Lemma required_of d records p :
  d ∈ records → requires (cv_kind (view d)) = true → p ∈ cv_columns (view d) → p ∈ required_paths records.
Proof.
  intros Hd Hr Hp. unfold required_paths. induction records as [|e l IH]; [by apply elem_of_nil in Hd|].
  cbn [foldr]. apply elem_of_cons in Hd as [->|Hd].
  - rewrite Hr. set_solver.
  - destruct (requires (cv_kind (view e))); [set_solver|by apply IH].
Qed.

Section validation.
Context `{A : Arrow} `{R : ArrowRecord} `{!ArrowLaws A}.

Lemma named_once_unique l name f g : named_once l name f → named_once l name g → f = g.
Proof using Type.
  intros (i & Hi & H) (j & Hj & Hjs). assert (j = i) as ->; [|congruence].
  apply (H j g Hj). by apply (Hjs j g Hj).
Qed.

Lemma top_level_column columns name f :
  top_level columns name = Some f → named_once columns name f ∧ row_id f = false.
Proof using Type*.
  unfold top_level. destruct (get_all_field_indices columns (str name)) as [|i [|]] eqn:E; try done.
  assert (∀ j, f_name <$> columns !! j = Some (str name) ↔ j = i) as Hi
    by (intros j; by rewrite <- get_all_field_indices_spec, E, list_elem_of_singleton).
  destruct (columns !! i) as [g|] eqn:Hg; [|done]. destruct (row_id g) eqn:Hr; [done|]. intros [= <-]. split; [|done].
  exists i. split; [done|]. intros j h Hh. rewrite <- Hi, Hh. cbn. split.
  - intros <-. by rewrite str_bs.
  - intros [= ->]. by rewrite bs_str.
Qed.

Lemma nested_found children name found g :
  nested_loop children name found = Some g →
  match found with
  | Some c => g = c ∧ ∀ h, h ∈ children → bs (f_name h) ≠ name
  | None => named_once children name g
  end.
Proof using Type.
  revert found. induction children as [|c l IH]; intros found; cbn [nested_loop]; [destruct found; [intros [= ->]|done]; split; [done|by intros h ?%elem_of_nil]|].
  case_bool_decide as Hc; cbn [negb].
  - destruct found; [done|]. intros [-> Hl]%IH. exists 0%nat. split; [done|].
    intros [|j] h; cbn; [by intros [= <-]|]. intros Hh%list_elem_of_lookup_2. split; [|done]. intros Hn. by destruct (Hl _ Hh).
  - intros H%IH. destruct found as [f|].
    + destruct H as [-> Hl]. split; [done|]. intros h [->|Hh]%elem_of_cons; [done|by apply Hl].
    + destruct H as (i & Hi & H). exists (S i). split; [done|]. intros [|j] h; cbn; [intros [= <-]; split; [done|lia]|].
      intros Hh. rewrite (H j h Hh). lia.
Qed.

Lemma descend_resolves l name f path g : named_once l name f → descend f path = Some g → resolves l (name :: path) g.
Proof using Type.
  revert l name f. induction path as [|n path IH]; intros l name f Hf; cbn [descend]; [intros [= ->]; by constructor|].
  destruct (ordinary_struct_children f) as [fs|] eqn:Hfs; [|done]. destruct (nested fs n) as [h|] eqn:Hn; [|done].
  apply nested_found in Hn. intros H. econstructor; [done|done|by eapply IH].
Qed.

Lemma top_level_names columns name path f g :
  top_level columns name = Some f → descend f path = Some g → names_column columns (name :: path) g.
Proof using Type*.
  intros [Hf Hr]%top_level_column Hg. split; [by eapply descend_resolves|]. intros h Hh. cbn in Hh.
  by rewrite (named_once_unique _ _ _ _ Hh Hf).
Qed.

(** A column named by its path is one of the schema. *)
Lemma resolves_at columns f p prefix :
  resolves columns p f → ∃ g, g ∈ columns ∧ bs (f_name g) = default [] (head p) ∧ named_once columns (default [] (head p)) g ∧
    under g (prefix ++ [bs (f_name g)]) (prefix ++ p) f.
Proof using Type.
  intros H. revert prefix. induction H as [l name f Hf|l name g fs path f Hg Hfs _ IH]; intros prefix.
  - pose proof Hf as (i & Hi & Hn). exists f. assert (bs (f_name f) = name) as E by by apply (Hn i f Hi).
    split_and!; [by eapply list_elem_of_lookup_2|done|done|]. rewrite E. constructor.
  - pose proof Hg as (i & Hi & Hn). exists g. assert (bs (f_name g) = name) as E by by apply (Hn i g Hi).
    split_and!; [by eapply list_elem_of_lookup_2|done|done|].
    destruct (IH (prefix ++ [bs (f_name g)])) as (h & Hh & _ & _ & Hu).
    replace (prefix ++ name :: path) with ((prefix ++ [bs (f_name g)]) ++ path) by (by rewrite <- app_assoc, E).
    by eapply under_below.
Qed.
Lemma names_column_at columns p f : names_column columns p f → column_at columns p f.
Proof using Type.
  intros [(g & Hg & _ & Hn & Hu)%(resolves_at _ _ _ []) Hr]. exists g. split_and!; [done|by apply Hr|done].
Qed.

(** What the engine reads: a name, a path, an action. *)
Definition identifies (value : bytes) : Prop := value ≠ [] ∧ Z.of_nat (length value) ≤ 4096 ∧ has_nul value = false.
Definition path_rules (p : column_path) : Prop := p ≠ [] ∧ (length p ≤ 64)%nat ∧ Forall identifies p.
Definition action_read (a : bytes) : Prop := a = bs "NO_ACTION" ∨ a = bs "RESTRICT".

(** The columns of a key: top-level ones. *)
Definition key_columns (columns : list field) (paths : list column_path) : Prop :=
  Forall (λ p, ∃ name f, p = [name] ∧ names_column columns [name] f) paths.

Definition foreign_rules (d : DecodedRecord) (ref : ConstraintReference) : Prop :=
  ref_schema_path ref = cv_schema_path (view d) ∧ has_key d = true ∧ key_schema_path d = ref_schema_path ref ∧
  key_owner d = ref_table ref ∧ identifies (ref_table ref) ∧ identifies (ref_constraint_id ref) ∧
  length (ref_columns ref) = length (cv_columns (view d)) ∧ Forall (λ p, length p = 1%nat) (ref_columns ref) ∧
  match_ d = bs "SIMPLE" ∧ action_read (on_update d) ∧ action_read (on_delete d).

(** What the engine takes for granted of an accepted record. *)
Definition record_rules (columns : list field) (d : DecodedRecord) : Prop :=
  let record := view d in
  identifies (cv_id record) ∧ identifies (cv_table record) ∧
  (∃ schema, cv_schema_path record = [schema] ∧ identifies schema) ∧
  (∀ name, cv_declared_name record = Some name → identifies name) ∧
  cv_enforcement record = Enforced ∧ cv_validation record = AllRows ∧
  Z.of_nat (length (cv_columns record)) ≤ 1024 ∧ Forall path_rules (cv_columns record) ∧
  match cv_kind record with
  | NotNull => ∃ p f, cv_columns record = [p] ∧ names_column columns p f
  | PrimaryKey | Unique => key_columns columns (cv_columns record)
  | Check_ =>
      check_profile d = SCALAR_EXPRESSION_READ ∧ default_context d = true ∧ check_schema_path d = cv_schema_path record ∧
      ∃ sql, cv_check_sql record = Some sql ∧ SqlScalar.validate_numeric_check sql columns = Ok tt
  | ForeignKey => key_columns columns (cv_columns record) ∧ ∃ ref, cv_references record = Some ref ∧ foreign_rules d ref
  end.

Lemma identifier_Ok bad value what : identifier bad value what = Ok tt → identifies value.
Proof using Type.
  unfold identifier. rewrite throw_if_Ok, !orb_false_iff, bool_decide_eq_false. intros [[Hn Hl] Hz].
  split_and!; [by destruct value|lia|done].
Qed.
Lemma identifiers_Ok bad values what : identifiers bad values what = Ok tt → Forall identifies values.
Proof using Type.
  induction values as [|v values IH]; cbn [identifiers]; [by constructor|].
  intros ([] & H%identifier_Ok & H')%bind_Ok. constructor; [done|by apply IH].
Qed.

Lemma singleton_path (p : column_path) : length p = 1%nat → ∃ name, p = [name].
Proof using Type. destruct p as [|name [|]]; [done| |done]. by exists name. Qed.

Lemma check_columns_Ok bad kind columns paths : check_columns bad kind columns paths = Ok tt → key_columns columns paths.
Proof using Type*.
  unfold key_columns. induction paths as [|p paths IH]; cbn [check_columns]; [by constructor|].
  intros [H1 [H2 H]%bind_throw_if_Ok]%bind_throw_if_Ok. rewrite negb_false_iff, bool_decide_eq_true in H1, H2.
  constructor; [|by apply IH]. apply singleton_path in H1 as [name ->]. destruct H2 as [f Hf].
  exists name, f. split; [done|by eapply top_level_names].
Qed.

Lemma check_not_null_Ok bad columns paths :
  check_not_null bad columns paths = Ok tt → Forall path_rules paths → ∃ p f, paths = [p] ∧ names_column columns p f.
Proof using Type*.
  unfold check_not_null. destruct paths as [|p [|]]; try done. rewrite throw_if_Ok, negb_false_iff, bool_decide_eq_true.
  intros [g (f & Hf & Hg)%bind_Some] [Hp _]%Forall_inv.
  exists p, g. split; [done|]. destruct p as [|name path]; [by destruct Hp|]. by eapply top_level_names.
Qed.

Lemma action_ok_reads a : action_ok a = true → action_read a.
Proof using Type. unfold action_ok, action_read. by rewrite orb_true_iff, !bool_decide_eq_true. Qed.

Lemma check_foreign_Ok bad d : check_foreign bad d = Ok tt → ∃ ref, cv_references (view d) = Some ref ∧ foreign_rules d ref.
Proof using Type.
  unfold check_foreign. intros (ref & Hr%from_opt_Ok & [H1 H]%bind_throw_if_Ok)%bind_Ok. exists ref. split; [done|].
  apply bind_Ok in H as ([] & Ht%identifier_Ok & ([] & Hc%identifier_Ok & H)%bind_Ok).
  rewrite !bind_throw_if_Ok, throw_if_Ok in H. destruct H as (Hn & Hp & Hm & Hu & Hd).
  rewrite negb_false_iff in H1, Hn, Hm, Hu, Hd. rewrite !andb_true_iff, !bool_decide_eq_true in H1. rewrite bool_decide_eq_true in Hn, Hm.
  destruct H1 as [[[? ?] ?] ?]. unfold foreign_rules. split_and!; try done; [|by apply action_ok_reads..].
  apply Forall_forall. intros p Hin. destruct (decide (length p = 1%nat)) as [|Hl]; [done|].
  exfalso. apply Bool.not_true_iff_false in Hp. apply Hp, existsb_exists. exists p. split; [by apply list_elem_of_In|].
  by rewrite bool_decide_false.
Qed.

Lemma check_check_Ok bad columns d :
  check_check bad columns d = Ok tt →
  check_profile d = SCALAR_EXPRESSION_READ ∧ default_context d = true ∧ check_schema_path d = cv_schema_path (view d) ∧
  ∃ sql, cv_check_sql (view d) = Some sql ∧ SqlScalar.validate_numeric_check sql columns = Ok tt.
Proof using Type.
  unfold check_check.
  intros [H0 [H1 [H2 (sql & Hs%from_opt_Ok & H)%bind_Ok]%bind_throw_if_Ok]%bind_throw_if_Ok]%bind_throw_if_Ok.
  rewrite negb_false_iff, ?bool_decide_eq_true in H0, H1. rewrite negb_false_iff in H2.
  split_and!; [done..|]. exists sql. split; [done|].
  by destruct (SqlScalar.validate_numeric_check sql columns) as [[]|[]].
Qed.

Lemma check_paths_Ok bad paths : check_paths bad paths = Ok tt → Forall path_rules paths.
Proof using Type.
  induction paths as [|p paths IH]; cbn [check_paths]; [by constructor|].
  rewrite bind_throw_if_Ok, orb_false_iff, bool_decide_eq_false, Nat.ltb_ge.
  intros [[Hp Hl] ([] & Hi%identifiers_Ok & H)%bind_Ok]. constructor; [|by apply IH]. by split_and!; [destruct p| |].
Qed.

Lemma check_kind_Ok bad columns d p p' :
  check_kind bad columns d p = Ok p' → cv_enforcement (view d) = Enforced → cv_validation (view d) = AllRows →
  Forall path_rules (cv_columns (view d)) → identifies (cv_id (view d)) → identifies (cv_table (view d)) →
  (∃ schema, cv_schema_path (view d) = [schema] ∧ identifies schema) → (∀ name, cv_declared_name (view d) = Some name → identifies name) →
  Z.of_nat (length (cv_columns (view d))) ≤ 1024 →
  record_rules columns d ∧ p' = p || is_primary d ∧ (is_primary d = true → p = false).
Proof using Type*.
  unfold check_kind. intros (kind & _ & H)%bind_Ok He Hv Hp Hi Ht Hs Hn Hl. unfold record_rules, is_primary. rewrite He, Hv.
  destruct (cv_kind (view d)); (case_bool_decide as Hb; [try discriminate Hb|try (by destruct Hb)]); clear Hb.
  - apply bind_Ok in H as ([] & H & [= <-]). rewrite orb_false_r. split_and!; try done.
    by eapply check_not_null_Ok.
  - apply bind_Ok in H as ([] & H%check_columns_Ok & [-> [= <-]]%bind_throw_if_Ok). by split_and!.
  - apply bind_Ok in H as ([] & H%check_columns_Ok & [= <-]). rewrite orb_false_r. by split_and!.
  - apply bind_Ok in H as ([] & H%check_check_Ok & [= <-]). rewrite orb_false_r. destruct H as (? & ? & ? & ?). by split_and!.
  - apply bind_Ok in H as ([] & H%check_columns_Ok & ([] & Hf%check_foreign_Ok & [= <-])%bind_Ok).
    rewrite orb_false_r. by split_and!.
Qed.

Lemma check_record_Ok owner_schema owner prefix columns d st st' :
  check_record owner_schema owner prefix columns d st = Ok st' →
  (record_rules columns d ∧ owned owner_schema owner d) ∧
  (cv_id (view d) ∉ ids st) ∧ ids st' = {[cv_id (view d)]} ∪ ids st ∧
  (∀ l, label d = Some l → l ∉ labels st) ∧ labels st' = list_to_set (option_list (label d)) ∪ labels st ∧
  primary st' = primary st || is_primary d ∧ (is_primary d = true → primary st = false).
Proof using Type*.
  unfold check_record. cbv zeta. intros H. apply bind_Ok in H as ([] & Hi%identifier_Ok & H). apply bind_throw_if_Ok in H as [Hs H].
  apply bind_Ok in H as ([] & Hsn%identifiers_Ok & H). apply bind_Ok in H as ([] & Ht%identifier_Ok & H). apply bind_throw_if_Ok in H as [Ho H].
  apply bind_throw_if_Ok in H as [Hid H]. rewrite bool_decide_eq_false in Hid. rewrite negb_false_iff, bool_decide_eq_true in Hs.
  apply bind_Ok in H as (labels' & Hl & (e & _ & (v & _ & [Hev H]%bind_throw_if_Ok)%bind_Ok)%bind_Ok).
  rewrite negb_false_iff, andb_true_iff, !bool_decide_eq_true in Hev. destruct Hev as [He Hv].
  apply bind_throw_if_Ok in H as [Hmany ([] & Hp%check_paths_Ok & (primary' & Hk & [= <-])%bind_Ok)%bind_Ok].
  assert (owned owner_schema owner d).
  { intros path ->. by rewrite orb_false_iff, !negb_false_iff, !bool_decide_eq_true in Ho. }
  assert ((∀ name, cv_declared_name (view d) = Some name → identifies name) ∧
    (∀ l, label d = Some l → l ∉ labels st) ∧ labels' = list_to_set (option_list (label d)) ∪ labels st) as (Hname & ? & ->).
  { unfold label. destruct (cv_declared_name (view d)) as [name|]; cbn.
    - apply bind_Ok in Hl as ([] & Hn'%identifier_Ok & [Hn [= <-]]%bind_throw_if_Ok). rewrite bool_decide_eq_false in Hn.
      split_and!; [by intros ? [= <-]|by intros l [= <-]|]. by rewrite (right_id_L ∅ (∪)).
    - injection Hl as <-. split_and!; [done|done|]. by rewrite (left_id_L ∅ (∪)). }
  assert (∃ schema, cv_schema_path (view d) = [schema] ∧ identifies schema) as Hschema.
  { apply singleton_path in Hs as [schema E]. exists schema. split; [done|]. rewrite E in Hsn. by apply Forall_inv in Hsn. }
  destruct (check_kind_Ok _ _ _ _ _ Hk He Hv Hp Hi Ht Hschema Hname ltac:(lia)) as (Hr & Hp1 & Hp2). cbn [ids labels primary].
  by split_and!.
Qed.

Lemma check_records_Ok owner_schema owner prefix columns records st st' :
  check_records owner_schema owner prefix columns records st = Ok st' →
  Forall (λ d, record_rules columns d ∧ owned owner_schema owner d) records ∧ fresh_records st records.
Proof using Type*.
  revert st. induction records as [|d records IH]; intros st; cbn [check_records].
  - intros [= ->]. split; [constructor|]. unfold fresh_records. cbn. split_and!; try by constructor. destruct (primary st'); lia.
  - intros (st1 & (? & ? & ? & ? & ? & ? & ?)%check_record_Ok & [Hr Hf]%IH)%bind_Ok.
    split; [by constructor|]. by eapply fresh_cons.
Qed.

(** The sizes are added up as 64-bit numbers. *)
Definition total_size (l : list bytes) : Z := foldr (λ b n, Z.of_nat (length b) + n) 0 l.
Lemma decode_checked_sizes prefix constraints total records :
  decode_checked prefix constraints total = Ok records → 0 ≤ total ≤ 8 * 1024 * 1024 → Forall (λ b, Z.of_nat (length b) < 2 ^ 63) constraints →
  Forall (λ b, b ≠ []) constraints ∧ total + total_size constraints ≤ 8 * 1024 * 1024.
Proof using Type*.
  revert total records. induction constraints as [|b l IH]; intros total records; cbn [decode_checked total_size foldr].
  - intros _ Ht _. split; [constructor|lia].
  - intros H Ht [Hb Hl]%Forall_cons. cbv zeta in H. rewrite Z.mod_small in H by lia.
    destruct (_ || _) eqn:E; [done|]. apply orb_false_iff in E as [Hne Hle]. rewrite bool_decide_eq_false in Hne.
    apply bind_Ok in H as (r & _ & (k & Hk & _)%bind_Ok). apply IH in Hk as [Hf Hs]; [|lia|done].
    split; [constructor; [by destruct b|done]|]. fold (total_size l). lia.
Qed.

Lemma decode_checked_all prefix constraints total records :
  decode_checked prefix constraints total = Ok records → decode_all constraints = Ok records.
Proof using Type*.
  revert total records. induction constraints as [|b l IH]; intros total records; cbn [decode_checked decode_all]; [done|].
  cbv zeta. destruct (_ || _); [done|]. destruct (decode_constraint_record b) as [r|[]]; cbn; try done.
  intros (k & Hk & [= <-])%bind_Ok. by rewrite (IH _ _ Hk).
Qed.

(** C35. Records that [validate_records] lets through keep every rule of the engine.  There
    are 1,024 at most, none empty, of 8 MiB together; they decode; their ids are
    distinct, and so are their declared names up to case; at most one is a
    PRIMARY_KEY.  Each is ENFORCED and ALL_ROWS, in a schema of a one-component path and,
    where an owner is given, of that table; its names are 1 to 4,096 bytes
    without NUL, and its columns, 1,024 at most, are paths of 1 to 64 such names,
    each that of one column of the served schema: of one on top, but for NOT_NULL,
    which may name a member of ordinary structs and has one path.  A CHECK is of the profile that
    is read, an accepted numeric check over that schema, in the default context
    and the schema of the table; a FOREIGN_KEY refers to an identified key of a
    table of the same schema, to as many columns as it has, all of them on top, is MATCH SIMPLE
    and does NO_ACTION or RESTRICT.  And the served schema says of nullability what the
    records do: a column that a NOT_NULL or a PRIMARY_KEY names is non-nullable. *)
Theorem validated_records owner_schema owner display raw constraints :
  validate_records owner_schema owner display raw constraints = Ok tt →
  (length constraints ≤ 1024)%nat ∧
  (Forall (λ b, Z.of_nat (length b) < 2 ^ 63) constraints →
   Forall (λ b, b ≠ []) constraints ∧ total_size constraints ≤ 8 * 1024 * 1024) ∧
  ∃ records, decode_all constraints = Ok records ∧
    served_columns raw constraints = Ok (serve_schema raw (required_paths records)) ∧
    fresh_records (mkChecked ∅ ∅ false) records ∧
    Forall (λ d, record_rules (serve_schema raw (required_paths records)) d ∧ owned owner_schema owner d) records ∧
    ∀ d p, d ∈ records → requires (cv_kind (view d)) = true → p ∈ cv_columns (view d) →
      (∃ f, names_column (serve_schema raw (required_paths records)) p f) ∧
      ∀ f, column_at (serve_schema raw (required_paths records)) p f → f_nullable f = false.
Proof using Type*.
  unfold validate_records. cbv zeta. intros [Hlen (records & Hd & (st & Hc & _)%bind_Ok)%bind_Ok]%bind_throw_if_Ok.
  split; [lia|]. split; [intros Hsmall; by apply (decode_checked_sizes _ _ 0 _ Hd)|].
  apply decode_checked_all in Hd. apply check_records_Ok in Hc as [Hr Hf]. exists records.
  split_and!; [done| |done|done|].
  - unfold served_columns. by rewrite Hd.
  - intros d p Hin Hreq Hp. split.
    + rewrite Forall_forall in Hr. destruct (Hr d Hin) as [(_ & _ & _ & _ & _ & _ & _ & _ & Hk) _].
      destruct (cv_kind (view d)) eqn:Ek; try done; [destruct Hk as (q & f & Hq & Hn)|unfold key_columns in Hk; rewrite Forall_forall in Hk].
      * rewrite Hq in Hp. apply list_elem_of_singleton in Hp as ->. by exists f.
      * destruct (Hk p Hp) as (name & f & -> & Hn). by exists f.
    + intros f Hat. rewrite (serve_agrees _ _ _ _ Hat), bool_decide_eq_false. intros Hn. apply Hn. by eapply required_of.
Qed.

End validation.

(** ** At work *)

Definition sample_columns : list field :=
  [Field "parent_id" T_int64 true []; Field "k" T_int64 false []; Field "rowid" T_int64 false [("is_row_id", "1")]]%string.

(** The batches of one more record, after [n] others: its definition, its own reference and itself. *)
Definition record_batches (n : nat) (id : string) (cells : list (string * cell)) : list batch :=
  sample_batch ConstraintDefinitionSchema cells ++ sample_ref "constraint" id (Some (bs "child")) ++
  sample_batch ConstraintInfoSchema
    [("ref", Cell_binary (sample_bytes (n + 1))); ("definition", Cell_binary (sample_bytes n));
     ("enforcement", Cell_enum (bs "ENFORCED")); ("validation", Cell_enum (bs "ALL_ROWS"));
     ("referenced_constraint", Cell_null)]%string.

Definition sample_not_null : ConstraintRecordSpec :=
  mkSpec [bs "main"] (bs "child") (bs "child_nn") NotNull [[bs "parent_id"]] (Some Enforced) (Some AllRows) None None None.

Definition sample_table : list batch :=
  sample_foreign_batches ++ record_batches 6 "child_nn" (definition_cells "NOT_NULL" sample_not_null None None).

Lemma validated_records_witness :
  @validate_records (table_arrow sample_table) table_record (Some [bs "main"]) (bs "child") "main.child" sample_columns
    [sample_bytes 5; sample_bytes 8] = Ok tt ∧
  @served_columns (table_arrow sample_table) table_record sample_columns [sample_bytes 5; sample_bytes 8] =
    Ok [Field "parent_id" T_int64 false []; Field "k" T_int64 true []; Field "rowid" T_int64 false [("is_row_id", "1")]]%string.
Proof.
  assert (@validate_records (table_arrow sample_table) table_record (Some [bs "main"]) (bs "child") "main.child" sample_columns
    [sample_bytes 5; sample_bytes 8] = Ok tt) as E by (vm_compute; reflexivity).
  split; [exact E|].
  destruct (@validated_records (table_arrow sample_table) table_record _ _ _ _ _ _ E) as (_ & _ & records & Hd & Hs & _).
  rewrite Hs.
  assert (@decode_all (table_arrow sample_table) table_record [sample_bytes 5; sample_bytes 8] =
    Ok [decoded_of sample_foreign Enforced AllRows; decoded_of sample_not_null Enforced AllRows]) as Hd'
    by (vm_compute; reflexivity).
  rewrite Hd' in Hd. injection Hd as <-. vm_compute. reflexivity.
Defined.

(** ** Where it goes wrong *)

(** A FOREIGN_KEY whose definition has no [foreign_key] decodes, and
    [validate_records] then takes the reference that is not there. *)
Example foreign_key_without_reference :
  let batches := record_batches 0 "fk" (definition_cells "FOREIGN_KEY" sample_foreign None None) in
  @validate_records (table_arrow batches) table_record None [] "child" sample_columns [sample_bytes 2] =
  Throw (Undefined_behaviour "the value of an empty std::optional").
Proof. vm_compute. reflexivity. Qed.

(** A null where the schema has none is a [std::runtime_error] of the getters,
    which [validate_records] does not turn into its [std::invalid_argument]. *)
Example null_kind_escapes :
  let batches := record_batches 0 "nn" (definition_cells "NOT_NULL" sample_not_null None None) in
  let null_kind (b : batch) := mkBatch (b_schema b) (b_metadata b) (b_rows b) (mkArray enum_type [V_null] :: tail (b_columns b)) in
  let batches := match batches with d :: rest => null_kind d :: rest | [] => [] end in
  ∃ message, @validate_records (table_arrow batches) table_record None [] "child" sample_columns [sample_bytes 2] =
  Throw (Runtime_error message).
Proof. eexists. vm_compute. reflexivity. Qed.

End ConstraintsServed.
