(* ===== verification/MemoryTables.v ===== *)
(** * The in-memory catalog: what is found, and what a table is

    What every operation of [MemoryCatalog] does to the objects a client finds, the
    record a CREATE TABLE leaves and the rules its snapshot keeps.  The theorems: a
    table that is created is found under its name with the columns and the NOT NULL
    records that were asked for, and nothing else changes; what is dropped is gone,
    with all below it; and no snapshot of the catalog is refused when its contents
    are served. *)

From S2P Require Import Prelude Text Crypto Arrow ArrowRecord ArrowCompute Wire OpaqueSeal Protocol Metadata Json WireSchema SqlScalar Constraints Capabilities Columns ConstraintsSpec ConstraintsServed Contents Plan MemoryCatalog.
Import Wire Protocol Metadata Json WireSchema Constraints Capabilities Columns ConstraintsSpec ConstraintsServed Contents MemoryCatalog.

Module MemoryTables.

Section tables.
Context `{A : Arrow} `{R : ArrowRecord} `{L : SchemaCodec} `{W : BatchStream} `{E : SetColumn} `{K : Crypto} `{B : Base64} `{J : JsonParser}.

(** ** What is found *)

(** Two names of one object: paths of one key, names the same in lower case. *)
Definition same_object (path path' : list bytes) (name name' : bytes) (view view' : bool) : bool :=
  bool_decide (path_key path' = path_key path) && bool_decide (SqlScalar.lower name' = SqlScalar.lower name) && Bool.eqb view' view.

Lemma find_in_updated m key schema view objects v c path' name' view' :
  m !! key = Some schema →
  find_object path' name' view' (mkState v c (<[key := with_objects view objects schema]> m)) =
  if bool_decide (path_key path' = key) && Bool.eqb view' view then objects !! SqlScalar.lower name'
  else find_object path' name' view' (mkState v c m).
Proof using Type.
  intros Hm. unfold find_object. cbn [st_schemas]. case_bool_decide as Hk; cbn [andb].
  - rewrite Hk, lookup_insert_eq. cbn [mbind option_bind]. rewrite with_objects_view, Hm. cbn. by destruct (Bool.eqb view' view).
  - by rewrite lookup_insert_ne by congruence.
Qed.

Lemma put_found path name kind on_conflict view item s s' :
  put_object path name kind on_conflict view item (Ok s) = Ok s' →
  (s' = s ∧ is_Some (find_object path name view s)) ∨
  ∀ path' name' view', find_object path' name' view' s' =
    if same_object path path' name name' view view' then Some (mkObject name item) else find_object path' name' view' s.
Proof using Type.
  unfold put_object. cbn [mbind result_bind]. intros (schema & Hs%from_opt_Ok & H)%bind_Ok.
  apply bind_Ok in H as (go & Hgo & H). destruct go; cbn [negb] in H.
  - apply bind_Ok in H as (v & _ & [= <-]). right. intros path' name' view'. unfold with_schemas. rewrite find_in_updated by done.
    unfold same_object. rewrite andb_comm. destruct (Bool.eqb view' view) eqn:Hv; cbn [andb]; [|by rewrite andb_false_r].
    apply Bool.eqb_prop in Hv as ->. rewrite andb_true_r.
    case_bool_decide as Hk; cbn [andb]; [|done]. case_bool_decide as Hn; [by rewrite Hn, lookup_insert_eq|].
    rewrite lookup_insert_ne by congruence. unfold find_object. by rewrite Hk, Hs.
  - injection H as <-. left. split; [done|]. unfold find_object. rewrite Hs. cbn.
    destruct (view_of view schema !! _); [by eexists|done].
Qed.

Lemma drop_found path name kind ignore view s s' :
  drop_object path name kind ignore view (Ok s) = Ok s' →
  ∀ path' name' view', find_object path' name' view' s' =
    if same_object path path' name name' view view' then None else find_object path' name' view' s.
Proof using Type.
  unfold drop_object. cbn [mbind result_bind]. destruct (st_schemas s !! path_key path) as [schema|] eqn:Hs.
  2:{ destruct ignore; [|done]. intros [= <-] path' name' view'. unfold same_object.
      case_bool_decide as Hk; cbn [andb]; [|done]. destruct (_ && _); [|done]. unfold find_object. by rewrite Hk, Hs. }
  destruct (find_object path name view s) as [o|] eqn:Ho.
  - intros (v & _ & [= <-])%bind_Ok path' name' view'. unfold with_schemas. rewrite find_in_updated by done.
    unfold same_object. rewrite andb_comm. destruct (Bool.eqb view' view) eqn:Hv; cbn [andb]; [|by rewrite andb_false_r].
    apply Bool.eqb_prop in Hv as ->. rewrite andb_true_r.
    case_bool_decide as Hk; cbn [andb]; [|done]. case_bool_decide as Hn; [by rewrite Hn, lookup_delete_eq|].
    rewrite lookup_delete_ne by congruence. unfold find_object. by rewrite Hk, Hs.
  - destruct ignore; [|done]. intros [= <-] path' name' view'. unfold same_object.
    repeat case_bool_decide; cbn [andb]; try done. destruct (Bool.eqb view' view) eqn:Hv; [|done].
    apply Bool.eqb_prop in Hv as ->. rewrite <- Ho. unfold find_object. by repeat match goal with H : _ = _ |- _ => rewrite H; clear H end.
Qed.

(** What is dropped is gone, and nothing else.  After a DROP of a table or a view
    no name of it finds anything, whether it was there or not; after a DROP SCHEMA --
    which needs CASCADE where there is anything in the schema or below it -- the
    schema, every schema below it and all their objects are gone.  Any other object
    is found as before. *)
Theorem dropped_is_gone params s s' :
  (∀ view, object_drop view params (Ok s) = Ok s' →
   ∃ path name, get_schema_path params "schema_path" = Ok path ∧ get_string params "name" = Ok name ∧
     ∀ path' name' view', find_object path' name' view' s' =
       if same_object path path' name name' view view' then None else find_object path' name' view' s) ∧
  (schema_drop params (Ok s) = Ok s' →
   ∃ path, get_schema_path params "path" = Ok path ∧
     (get_optional_bool params "cascade" = Ok (Some true) ∨
      ∀ schema, st_schemas s !! path_key path = Some schema →
        is_empty_schema schema = true ∧ ∀ k, below (path_key path) k = true → st_schemas s !! k = None) ∧
     (∀ path', st_schemas s' !! path_key path' =
        if bool_decide (path_key path' = path_key path) || (bool_decide (is_Some (st_schemas s !! path_key path)) && below (path_key path) (path_key path')) then None
        else st_schemas s !! path_key path')).
Proof using Type.
  split.
  - intros view H. unfold object_drop in H. apply bind_Ok in H as (path & Hp & H). apply bind_Ok in H as (name & Hn & H).
    apply bind_Ok in H as (ignore & _ & H). exists path, name. split_and!; [done..|]. by eapply drop_found.
  - unfold schema_drop. intros (path & Hp & H)%bind_Ok. cbn [mbind result_bind] in H. exists path. split; [done|].
    destruct (st_schemas s !! path_key path) as [found|] eqn:Hs.
    + apply bind_Ok in H as (u & Hu & H). apply bind_Ok in H as (v & _ & [= <-]). split.
      * destruct (is_empty_schema found && _) eqn:He.
        { right. intros schema [= <-]. apply andb_true_iff in He as [He Hc%bool_decide_eq_true]. split; [done|].
          intros k Hk. destruct (st_schemas s !! k) as [t|] eqn:Ht; [|done].
          by destruct (map_filter_empty_not_lookup _ _ k t Hc Hk). }
        left. apply bind_Ok in Hu as (cascade & -> & Hu%throw_if_Ok). destruct cascade as [[]|]; done.
      * clear Hu. intros path'. cbn [st_schemas with_schemas]. rewrite (bool_decide_true (is_Some _)) by by eexists. cbn [andb].
        case_bool_decide as Hk; cbn [orb]; [by rewrite Hk, lookup_delete_eq|]. rewrite lookup_delete_ne by congruence.
        rewrite map_lookup_filter. destruct (st_schemas s !! path_key path') as [t|]; cbn; [|by destruct (below _ _)].
        destruct (below _ _) eqn:Hb; by simplify_option_eq.
    + apply bind_Ok in H as (ignore & _ & H). destruct (default false ignore); [|done]. injection H as <-. split; [by right|].
      intros path'. rewrite (bool_decide_false (is_Some _)) by (by intros [? ?]). cbn [andb]. rewrite orb_false_r.
      case_bool_decide as Hk; [by rewrite Hk|done].
Qed.

(** ** The NOT NULL columns that are asked for *)

Lemma not_null_loop_Ok definitions columns out names :
  not_null_loop definitions columns out = Ok names → NoDup out →
  NoDup names ∧ (∀ c, c ∈ names ↔ c ∈ out ∨ ∃ d, d ∈ definitions ∧ not_null_column d columns = Ok c) ∧
  Forall (λ d, is_ok (not_null_column d columns) = true) definitions.
Proof using Type.
  revert out. induction definitions as [|d definitions IH]; intros out; cbn [not_null_loop].
  { intros [= <-] Hn. split_and!; [done| |constructor]. intros c. split; [by left|]. intros [?|(? & ?%elem_of_nil & _)]; done. }
  intros (name & Hname & H)%bind_Ok Hn.
  assert (NoDup (if bool_decide (name ∈ out) then out else out ++ [name])) as Hn'.
  { case_bool_decide; [done|]. apply NoDup_app. split_and!; [done| |apply NoDup_singleton]. intros x Hx ->%list_elem_of_singleton. done. }
  destruct (IH _ H Hn') as (H1 & H2 & H3). split_and!; [done| |constructor; [by rewrite Hname|done]].
  intros c. rewrite H2. setoid_rewrite elem_of_cons.
  assert (c ∈ (if bool_decide (name ∈ out) then out else out ++ [name]) ↔ c ∈ out ∨ c = name) as ->.
  { case_bool_decide; [|by rewrite elem_of_app, list_elem_of_singleton]. split; [by left|]. by intros [?| ->]. }
  split.
  - intros [[?| ->]|(d' & ? & ?)]; [by left|right; exists d; auto|right; exists d'; auto].
  - intros [?|(d' & [->|?] & Hd)]; [by left; left|left; right; congruence|right; by exists d'].
Qed.

Lemma not_null_column_column d columns c : not_null_column d columns = Ok c → ∃ i, get_all_field_indices columns (str c) = [i].
Proof using Type.
  unfold not_null_column. intros (o & _ & H)%bind_Ok. apply bind_Ok in H as (def & _ & H). apply bind_throw_if_Ok in H as [_ H].
  apply bind_Ok in H as (kind & _ & H). apply bind_throw_if_Ok in H as [_ H]. apply bind_Ok in H as (x1 & _ & H).
  apply bind_Ok in H as (x2 & _ & H). apply bind_Ok in H as (x3 & _ & H). apply bind_throw_if_Ok in H as [_ H].
  apply bind_Ok in H as (outer & _ & H). destruct (first outer) as [| | | | |[|[| | | | |[|x [|? ?]]|] [|? ?]]|]; try done.
  destruct (get_all_field_indices _ _) as [|i [|? ?]] eqn:Hi; [done| |done]. injection H as <-. by exists i.
Qed.

(** ** The record of a table *)

Lemma table_fields_NoDup : NoDup (map f_name TableInfoSchema).
Proof using Type. apply (bool_decide_unpack _). by vm_compute. Qed.

Definition attested (path : list bytes) (table : bytes) (names : list bytes) : list DecodedRecord :=
  map (λ c, decoded_of (not_null_spec path table c) Enforced AllRows) names.

Lemma required_attested path name names c : [c] ∈ required_paths (attested path name names) ↔ c ∈ names.
Proof using Type.
  induction names as [|x names IH]; [cbn; set_solver|]. cbn [attested map required_paths foldr].
  change (map _ names) with (attested path name names). fold (required_paths (attested path name names)).
  cbn. rewrite elem_of_cons. set_solver.
Qed.

Lemma get_schema_path_fine b field path : get_schema_path b field = Ok path → path ≠ [] ∧ Forall (λ c, c ≠ []) path.
Proof using Type.
  assert (bs "main" ≠ []) as Hmain by done.
  unfold get_schema_path. destruct (negb _); [intros [= <-]; by repeat constructor|]. intros (arr & _ & H)%bind_Ok.
  apply bind_Ok in H as (l & _ & H). destruct l; [|injection H as <-; by repeat constructor].
  apply bind_Ok in H as (q & _ & H). case_bool_decide as Hl; [done|]. destruct (existsb _ _) eqn:Hex; [done|]. injection H as <-.
  split; [by intros ->|]. apply Forall_forall. intros c Hc ->. apply not_true_iff_false in Hex. apply Hex, existsb_exists.
  exists []. by rewrite list_elem_of_In in Hc.
Qed.

Lemma columns_binary g : g ∈ TableInfoSchema → f_name g = "columns"%string → f_type g = T_binary.
Proof using Type. unfold TableInfoSchema. intros H Hn. repeat (apply elem_of_cons in H as [->|H]; [done|]). by apply elem_of_nil in H. Qed.

Context `{!ArrowLaws A} `{!ArrowRecordLaws A R} `{!SchemaCodecLaws A L}.

Lemma records_decoded path name names records :
  mapM (λ c, constraint_record (not_null_spec path name c)) names = Ok records → decode_all records = Ok (attested path name names).
Proof using Type*.
  revert records. induction names as [|c names IH]; intros records; [by intros [= <-]|]. cbn [mapM].
  intros (r & Hr & (rest & Hrest & [= <-])%bind_Ok)%bind_Ok. apply constraint_record_decoded in Hr as (e & v & _ & He & Hv & Hd).
  injection He as <-. injection Hv as <-. cbn [decode_all]. rewrite Hd. cbn [mbind result_bind]. by rewrite (IH _ Hrest).
Qed.

(** What the item of a table says: its name, its path, its columns and, of the columns
    that may hold no NULL, a record each that says the whole table is so. *)
Definition describes (item name : bytes) (path : list bytes) (columns : list field) (names : list bytes) : Prop :=
  ∃ row records encoded served s, decode_ipc item = Ok row ∧
    get_string row "name" = Ok name ∧ get_schema_path row "schema_path" = Ok path ∧
    get_binary_list row "constraints" = Ok records ∧ decode_all records = Ok (attested path name names) ∧
    get_binary row "columns" = Ok encoded ∧ served_columns columns records = Ok served ∧
    decode_schema encoded = Ok (Some s) ∧ (s.1 = served ∨ s.1 = columns ∧ schema_equals true served columns = true) ∧
    ∀ c f, column_at served [c] f → f_nullable f = bool_decide (c ∉ names).

Lemma table_item_describes token params name path r item :
  get_schema_path params "schema_path" = Ok path → table_item token params name path r = Ok item →
  ∃ columns definitions names, created_columns params path = Ok columns ∧
    get_binary_list params "constraint_definitions" = Ok definitions ∧ not_null_columns definitions columns.1 = Ok names ∧
    (definitions ≠ [] → ∃ s, r = Ok s ∧ st_constraints s = true) ∧ describes item name path columns.1 names.
Proof using Type*.
  intros [Hne Hfull]%get_schema_path_fine. unfold table_item. intros (columns & Hc & H)%bind_Ok.
  apply bind_Ok in H as (definitions & Hd & H). apply bind_Ok in H as (u & Hneg & H). apply bind_Ok in H as (names & Hn & H).
  apply bind_Ok in H as (records & Hr%records_decoded & H). apply bind_Ok in H as (u' & _ & H).
  apply bind_Ok in H as (served & Hs & H). apply bind_Ok in H as (encoded & He & H). apply bind_Ok in H as (b & Hb & H).
  exists columns, definitions, names. split_and!; [done..| |].
  { intros Hdef. rewrite bool_decide_false in Hneg by done. apply bind_Ok in Hneg as (s & -> & Hneg%throw_if_Ok). exists s.
    split; [done|]. by apply negb_false_iff. }
  apply build_filled_reads in Hb as (_ & _ & Hreads); [|by apply (bool_decide_unpack _); vm_compute|apply table_fields_NoDup].
  apply encode_ipc_read in H as (_ & _ & _ & Hdec). unfold describes.
  assert (∃ s, decode_schema encoded = Ok (Some s) ∧ (s.1 = served ∨ s.1 = columns.1 ∧ schema_equals true served columns.1 = true)) as (s & Hs1 & Hs2).
  { destruct (schema_equals true served columns.1) eqn:Heq.
    - unfold created_columns in Hc. rewrite He in Hc. cbn [mbind result_bind] in Hc. apply bind_throw_if_Ok in Hc as [_ Hc].
      apply bind_Ok in Hc as (o & Ho & Hc). apply bind_Ok in Hc as (cs & ->%from_opt_Ok & Hc).
      repeat (apply bind_Ok in Hc as (? & _ & Hc)). injection Hc as <-. exists cs. split; [done|]. by right.
    - apply decode_encode_schema in He. eexists. split; [done|]. by left. }
  exists (Some b), records, encoded, served, s.
  destruct (Hreads "name"%string (Cell_string name)) as (g1 & _ & _ & [H1 _]); [set_solver|].
  destruct (Hreads "schema_path"%string (Cell_string_list path)) as (g2 & _ & _ & (_ & _ & H2)); [set_solver|].
  destruct (Hreads "constraints"%string (Cell_binary_list records)) as (g3 & _ & _ & H3); [set_solver|].
  destruct (Hreads "columns"%string (Cell_binary encoded)) as (g4 & Hg4 & Hn4 & [_ H4]); [set_solver|].
  split_and!; [done|done|by apply H2|done|done| |done|done|done|].
  - apply H4. intros i t. by rewrite (columns_binary g4).
  - intros c f Hat. unfold served_columns in Hs. rewrite Hr in Hs. injection Hs as <-. rewrite (serve_agrees _ _ _ _ Hat).
    apply bool_decide_ext. by rewrite required_attested.
Qed.

(** What CREATE TABLE makes.  A CREATE TABLE that is answered either finds the
    table there and is told to keep it, or leaves a table that is found under its
    schema and its name, in any case of letters -- and changes what is found under no
    other name.  Its row reads back with the name and the path it was given, and with
    one record for every column that a NOT NULL was asked of, each of them a column of
    the table, enforced and valid for all rows; the columns it serves may hold NULL
    exactly where none was asked.  Constraints are taken only from a client that
    negotiated them. *)
Theorem table_created token params s s' :
  table_create token params (Ok s) = Ok s' →
  ∃ name path, get_string params "name" = Ok name ∧ get_schema_path params "schema_path" = Ok path ∧
    ((s' = s ∧ is_Some (find_object path name false s)) ∨
     ∃ item columns definitions names, created_columns params path = Ok columns ∧
       get_binary_list params "constraint_definitions" = Ok definitions ∧ (definitions ≠ [] → st_constraints s = true) ∧
       NoDup names ∧ (∀ c, c ∈ names ↔ ∃ d, d ∈ definitions ∧ not_null_column d columns.1 = Ok c) ∧
       Forall (λ c, ∃ i, get_all_field_indices columns.1 (str c) = [i]) names ∧
       describes item name path columns.1 names ∧
       ∀ path' name' view', find_object path' name' view' s' =
         if same_object path path' name name' false view' then Some (mkObject name item) else find_object path' name' view' s).
Proof using Type*.
  unfold table_create. intros (u & _ & H)%bind_Ok. apply bind_Ok in H as (name & Hname & H). apply bind_Ok in H as (path & Hpath & H).
  apply bind_Ok in H as (item & Hitem & H). apply bind_Ok in H as (on_conflict & _ & H). exists name, path. split_and!; [done..|].
  apply put_found in H as [H|Hfind]; [by left|right].
  destruct (table_item_describes _ _ _ _ _ _ Hpath Hitem) as (columns & definitions & names & Hc & Hd & Hn & Hneg & Hdesc).
  destruct (not_null_loop_Ok _ _ _ _ Hn) as (N1 & N2 & N3); [constructor|]. exists item, columns, definitions, names. split_and!; [done|done| |done| | |done|done].
  - intros Hdef. by destruct (Hneg Hdef) as (s0 & [= <-] & ?).
  - intros c. rewrite N2. split; [intros [?%elem_of_nil|?]; done|by right].
  - apply Forall_forall. intros c [?%elem_of_nil|(d & _ & Hd')]%N2; [done|]. by eapply not_null_column_column.
Qed.

End tables.

(** ** The snapshot *)

Section snapshot.
Context `{A : Arrow} `{R : ArrowRecord} `{L : SchemaCodec} `{W : BatchStream} `{E : SetColumn} `{K : Crypto} `{B : Base64} `{J : JsonParser}.

(** What a catalog holds after the calls it has served. *)
Definition history (options : MemoryCatalogOptions) (calls : list call) : Attaches := run options calls ∅.

Lemma check_each_fine l keys :
  Forall (λ s, co_path s ≠ []) l → NoDup (map key_of l) → (∀ k, k ∈ map key_of l → k ∉ keys) →
  ∃ keys', check_each false l keys = Ok keys'.
Proof using Type.
  intros Hp. revert keys. induction Hp as [|s l Hs Hp IH]; intros keys; [by eexists|]. cbn [map check_each].
  intros [Hn Hnd]%NoDup_cons Hk. rewrite (bool_decide_false _ Hs). rewrite bool_decide_false by (apply Hk; left).
  cbn [throw_if mbind result_bind]. apply IH; [done|]. intros k Hin. apply not_elem_of_union. split; [|by apply Hk; right].
  rewrite not_elem_of_singleton. intros ->. done.
Qed.

Lemma check_parents_fine keys l :
  Forall (λ s, (length (co_path s) < 2)%nat ∨ path_key (parent_of (co_path s)) ∈ keys) l → check_parents keys l = Ok tt.
Proof using Type.
  induction 1 as [|s l Hs Hl IH]; [done|]. cbn [check_parents]. destruct Hs as [Hs|Hs].
  - by rewrite bool_decide_true.
  - rewrite (bool_decide_true (_ ∈ _)) by done. cbn. by rewrite andb_false_r.
Qed.

Lemma well_kept_checked l : well_kept (map co_path l) → NoDup (map key_of l) → check_paths l false = Ok tt.
Proof using Type.
  intros (H1 & _ & H3) Hn. unfold check_paths. rewrite List.Forall_map in H1, H3.
  destruct (check_each_fine l ∅ H1 Hn) as [keys Hk]; [by intros; apply not_elem_of_empty|]. rewrite Hk. cbn [mbind result_bind].
  apply check_parents_fine. eapply Forall_impl; [exact H3|]. cbn. intros s [Hs|Hs]; [by left|right].
  apply check_each_Ok in Hk as (_ & _ & _ & Hk). apply Hk. right. by rewrite map_map in Hs.
Qed.

(** A snapshot keeps the rules.  Whatever calls a catalog has served, the schemas
    it snapshots of an attachment have a path each, no two of them one key, and each
    its parent among them, so that the check of [answer_catalog_contents] never
    refuses a catalog that answers for itself. *)
Theorem snapshot_keeps_the_rules options calls a rows :
  snapshot options (history options calls) a = Ok rows →
  check_paths rows false = Ok tt ∧ NoDup (map key_of rows) ∧
  ∃ s, history options calls !! a = Some s ∧ ∀ path, path ∈ map co_path rows ↔ ∃ k schema, st_schemas s !! k = Some schema ∧ sc_path schema = path.
Proof using Type.
  unfold history, snapshot, state. intros (s & Hs%from_opt_Ok & Hrows)%bind_Ok. apply snapshot_paths in Hrows.
  assert (filed (st_schemas s)) as Hf by (eapply (run_filed options calls ∅); [by intros ? ?; rewrite lookup_empty|done]).
  assert (NoDup (map key_of rows)) as Hn.
  { unfold key_of. rewrite <- (map_map co_path path_key), Hrows, map_map. by apply NoDup_sorted_keys. }
  split; [|split; [done|]].
  - apply well_kept_checked; [|done]. rewrite Hrows. destruct Hf as [F1 F2 _]. split_and!.
    + apply List.Forall_map, Forall_forall. intros schema (k & Hk)%elem_sorted. by apply (F1 k).
    + rewrite <- Hrows. unfold key_of in Hn. rewrite <- (map_map co_path path_key) in Hn. by apply NoDup_fmap_1 in Hn.
    + apply List.Forall_map, Forall_forall. intros schema (k & Hk)%elem_sorted.
      destruct (decide (1 < length (sc_path schema))%nat) as [Hl|Hl]; [right|left; lia].
      destruct (F2 k schema Hk Hl) as [parent Hparent]. destruct (F1 _ _ Hparent) as [-> _]. rewrite map_map.
      apply (list_elem_of_fmap_2 (λ x, path_key (sc_path x))), elem_sorted. by eexists.
  - exists s. split; [done|]. intros path. rewrite Hrows, list_elem_of_fmap. split.
    + intros (schema & -> & (k & Hk)%elem_sorted). by exists k, schema.
    + intros (k & schema & Hk & <-). exists schema. split; [done|]. apply elem_sorted. by exists k.
Qed.

End snapshot.

(** ** At work *)

Definition trial_columns : list field := [Field "id" T_int64 true []; Field "note" T_string true []]%string.
Definition trial_served : list field := [Field "id" T_int64 false []; Field "note" T_string true []]%string.
Definition stream (i : nat) : bytes := zb 3 :: enc_len i.
Definition schema_stream (i : nat) : bytes := schema_byte :: enc_len i.
Definition main_path : list bytes := [bs "main"].
Definition made (schema : list field) (cells : list (string * cell)) : list batch :=
  match build_filled (A := table_arrow []) schema None cells with Ok b => [b] | Throw _ => [] end.

(** The batches of the stream format: the definition a client sends, the record made of
    it, the row of the table and the one of the schema. *)
Definition trial_batches : list batch :=
  sample_batch ConstraintDefinitionSchema (definition_cells "NOT_NULL" (not_null_spec main_path (bs "T") (bs "id")) None None) ++
  sample_ref "constraint" "not_null:id" (Some (bs "T")) ++
  sample_batch ConstraintInfoSchema
    [("ref", Cell_binary (stream 1)); ("definition", Cell_binary (stream 0)); ("enforcement", Cell_enum (bs "ENFORCED"));
     ("validation", Cell_enum (bs "ALL_ROWS")); ("referenced_constraint", Cell_null)]%string ++
  made TableInfoSchema
    [("name", Cell_string (bs "T")); ("schema_path", Cell_string_list main_path); ("columns", Cell_binary (schema_stream 1));
     ("constraints", Cell_binary_list [stream 2]); ("definition_revision", Cell_binary (bs "token"))]%string ++
  made SchemaInfoSchema
    [("path", Cell_string_list main_path); ("comment", Cell_optional_string None); ("tags", Cell_string_map [])]%string.
Definition trial_arrow : Arrow := schema_arrow trial_batches.
Definition trial_codec : SchemaCodec := list_codec trial_batches [(trial_columns, None); (trial_served, None)].
Definition trial_json : JsonParser := Plan.no_json.
Definition trial_options : MemoryCatalogOptions := mkOptions (bs "mem") None false true None Etag_none.
#[local] Existing Instances trial_arrow table_record trial_codec Contents.plain_set toy_crypto hex_base64 trial_json.
#[local] Instance trial_stream : BatchStream := listed_stream [].

Lemma trial_record_laws : ArrowRecordLaws trial_arrow table_record.
Proof. destruct (table_record_laws trial_batches). by split. Qed.

(** A field of a call, of one row. *)
Definition given (name : string) (t : dtype) (v : value) : field * array := (Field name t true [], mkArray t [v]).
Definition call_of (l : list (field * array)) : option batch := Some (mkBatch l.*1 None 1 l.*2).
Definition texts (l : list bytes) : value := V_list (map V_text l).

Definition trial_attach : bytes := attachment trial_options (bs "1").
Definition trial_state : State := mkState 1 true (st_schemas (new_state no_profiles)).
Definition create_params : option batch :=
  call_of [given "attach_opaque_data" T_binary (V_text trial_attach); given "name" T_string (V_text (bs "T"));
           given "schema_path" (list_of T_string) (texts main_path); given "columns" T_binary (V_text (schema_stream 0));
           given "constraint_definitions" (list_of T_binary) (texts [stream 0])]%string.
Definition created : State :=
  match table_create (bs "token") create_params (Ok trial_state) with Ok s => s | Throw _ => trial_state end.

Lemma table_created_witness :
  table_create (bs "token") create_params (Ok trial_state) = Ok created ∧
  find_object main_path (bs "t") false created = Some (mkObject (bs "T") (stream 3)) ∧
  ∃ name path, get_string create_params "name" = Ok name ∧ get_schema_path create_params "schema_path" = Ok path.
Proof.
  assert (table_create (bs "token") create_params (Ok trial_state) = Ok created) as H by (vm_compute; reflexivity).
  pose proof (schema_arrow_laws trial_batches) as L1. pose proof trial_record_laws as L3.
  pose proof (list_codec_laws trial_batches [(trial_columns, None); (trial_served, None)]) as L2.
  split; [exact H|]. split; [vm_compute; reflexivity|].
  destruct (table_created _ _ _ _ H) as (name & path & H1 & H2 & _). exists name, path. split; [exact H1|exact H2].
Defined.

Definition drop_params : option batch :=
  call_of [given "attach_opaque_data" T_binary (V_text trial_attach); given "name" T_string (V_text (bs "t"));
           given "schema_path" (list_of T_string) (texts main_path)]%string.
Definition dropped : State := match object_drop false drop_params (Ok created) with Ok s => s | Throw _ => created end.
Lemma dropped_is_gone_witness :
  object_drop false drop_params (Ok created) = Ok dropped ∧ find_object main_path (bs "T") false created ≠ None ∧
  find_object main_path (bs "T") false dropped = None.
Proof.
  assert (object_drop false drop_params (Ok created) = Ok dropped) as H by (vm_compute; reflexivity).
  split; [exact H|]. split; [intros Hn; vm_compute in Hn; discriminate|].
  destruct (dropped_is_gone drop_params created dropped) as [Hd _].
  destruct (Hd false H) as (path & name & Hp & Hn & Hfind).
  assert (get_schema_path drop_params "schema_path" = Ok main_path) as Hp' by (vm_compute; reflexivity).
  assert (get_string drop_params "name" = Ok (bs "t")) as Hn' by (vm_compute; reflexivity).
  rewrite Hp' in Hp. injection Hp as <-. rewrite Hn' in Hn. injection Hn as <-. rewrite Hfind. vm_compute. reflexivity.
Defined.

(** A call that is answered, and two that change nothing: a refused one and a question. *)
Definition around : Surroundings := mkSurroundings (bs "token") None [].
Definition held : Attaches := {[trial_attach := trial_state]}.
Definition quiet_calls : list call :=
  [(around, "catalog_table_drop"%string, drop_params); (around, "catalog_table_get"%string, drop_params)].

Lemma attachments_apart_witness :
  ∃ r m', serve trial_options around "catalog_table_create" create_params held = (r, m') ∧ m' !! trial_attach ≠ held !! trial_attach ∧
    is_ok r = true.
Proof.
  destruct (serve trial_options around "catalog_table_create" create_params held) as [r m'] eqn:H.
  assert (m' !! trial_attach ≠ held !! trial_attach) as Hne.
  { assert (st_version <$> m' !! trial_attach = Some 2) as H2.
    { apply (f_equal snd) in H. cbn [snd] in H. rewrite <- H. vm_compute. reflexivity. }
    intros E. rewrite E in H2. vm_compute in H2. discriminate. }
  exists r, m'. split; [reflexivity|]. split; [exact Hne|].
  destruct (attachments_apart _ _ _ _ _ _ _ _ H Hne) as [(Hm & _)|(Hok & _)]; [discriminate|exact Hok].
Defined.

Lemma version_tells_contents_witness :
  run trial_options quiet_calls held !! trial_attach = Some trial_state ∧
  snapshot trial_options (run trial_options quiet_calls held) trial_attach = snapshot trial_options held trial_attach.
Proof.
  assert (run trial_options quiet_calls held !! trial_attach = Some trial_state) as H by (vm_compute; reflexivity).
  split; [exact H|].
  apply (version_tells_contents trial_options quiet_calls held trial_attach trial_state trial_state); [|reflexivity|exact H|reflexivity|reflexivity].
  repeat apply Forall_cons_2; [..|apply Forall_nil_2]; intros E; vm_compute in E; discriminate.
Defined.

(** ATTACH, and the snapshot after it. *)
Definition attach_params : option batch := call_of [given "name" T_string (V_text (bs "mem"))]%string.
Definition attach_calls : list call := [(around, "catalog_attach"%string, attach_params)].
Definition trial_rows : list SchemaContents := [mkContents main_path (stream 4) [] [] [] [] [] [] [] []].
Lemma snapshot_keeps_the_rules_witness :
  snapshot trial_options (history trial_options attach_calls) (attachment trial_options (bs "token")) = Ok trial_rows ∧
  check_paths trial_rows false = Ok tt.
Proof.
  assert (snapshot trial_options (history trial_options attach_calls) (attachment trial_options (bs "token")) = Ok trial_rows) as H
    by (vm_compute; reflexivity).
  split; [exact H|]. apply (snapshot_keeps_the_rules _ _ _ _ H).
Defined.

(** A path component may hold a NUL byte, so one schema can stand in for another: with
    a schema of one component [a NUL b] there, the two-component path [a], [b] is
    taken to exist. *)
Definition nul_name : bytes := bs "a" ++ [NUL] ++ bs "b".
Definition nul_state : State := mkState 1 false {[path_key [nul_name] := mkSchema [nul_name] None ∅ ∅ ∅]}.
Definition child_params : option batch := call_of [given "path" (list_of T_string) (texts [bs "a"; bs "b"])]%string.
Example nul_schema_in_the_way : ∃ what, schema_create child_params (Ok nul_state) = Throw (Invalid_argument what).
Proof. eexists. vm_compute. reflexivity. Qed.

End MemoryTables.
