(* ===== verification/Numeric.v ===== *)
(** * Result types of arithmetic ([src/numeric.cpp], [include/vgi/numeric.h])

    A function over numbers answers at bind with a type that holds its result.
    Here are the rules -- the common type of two arguments, and the headroom of a sum
    -- and the two functions that add by them.  The theorems: the common type of two
    integer types holds the values of both and, unless one of them is of 64 bits, the
    sum of any two; a decimal's does unless it is cut at 38 digits; and only a pair of
    a 64-bit unsigned and a signed type goes to floating point. *)

From S2P Require Import Prelude Arrow ArrowRecord ArrowCompute Wire Metadata.
Import Wire Metadata.

Module Numeric.

(** ** Types *)

(** The width of an integer type, and whether it is signed. *)
Definition int_info (t : dtype) : option (Z * bool) :=
  match t with
  | T_int8 => Some (8, true) | T_int16 => Some (16, true) | T_int32 => Some (32, true) | T_int64 => Some (64, true)
  | T_uint8 => Some (8, false) | T_uint16 => Some (16, false) | T_uint32 => Some (32, false) | T_uint64 => Some (64, false)
  | _ => None
  end.

Definition is_integer_type (t : dtype) : bool := bool_decide (is_Some (int_info t)).
Definition is_floating_type (t : dtype) : bool := match t with T_half_float | T_float | T_double => true | _ => false end.
Definition is_decimal_type (t : dtype) : bool := match t with T_decimal128 _ _ | T_decimal256 _ _ => true | _ => false end.
Definition is_temporal_type (t : dtype) : bool :=
  match t with
  | T_date32 | T_date64 | T_time32 _ | T_time64 _ | T_timestamp _ _ | T_duration _ | T_interval_months
  | T_interval_day_time | T_interval_month_day_nano => true
  | _ => false
  end.
Definition is_addable_type (t : dtype) : bool := is_integer_type t || is_floating_type t || is_decimal_type t || is_temporal_type t.
Definition is_multipliable_type (t : dtype) : bool := is_integer_type t || is_floating_type t || is_decimal_type t.

Section types.
Context `{A : Arrow}.

Definition common_numeric (a b : dtype) : result dtype :=
  if type_equals a b then Ok a
  else if is_floating_type a || is_floating_type b then Ok T_double
  else
    match a, b with
    | T_decimal128 pa sa, T_decimal128 pb sb =>
        let scale := sa `max` sb in
        let integer_digits := (pa - sa) `max` (pb - sb) in
        Ok (T_decimal128 ((integer_digits + scale) `min` 38) scale)
    | _, _ =>
        match int_info a, int_info b with
        | Some (wa, ga), Some (wb, gb) =>
            if Bool.eqb ga gb then Ok (if wb <=? wa then a else b)
            else Ok (if 64 <=? (if ga then wb else wa) then T_double else T_int64)
        | None, None => Throw (Invalid_argument ("no common numeric type for " +:+ type_to_string a +:+ " and " +:+ type_to_string b))
        | Some _, None => Ok b
        | None, Some _ => Ok a
        end
    end.

(** No type, or the type that holds the sum of two of its values. *)
Definition promote (t : dtype) : dtype :=
  if is_temporal_type t then t else
  match t with
  | T_half_float | T_float | T_double => T_double
  | T_int8 => T_int16
  | T_int16 => T_int32
  | T_int32 | T_int64 => T_int64
  | T_uint8 => T_uint16
  | T_uint16 => T_uint32
  | T_uint32 | T_uint64 => T_uint64
  | T_decimal128 p s => T_decimal128 ((p + 1) `min` 38) s
  | t => t
  end.
Definition promote_for_addition (t : option dtype) : dtype := match t with None => T_int64 | Some t => promote t end.

Definition common_type_for_addition (a b : option dtype) : result dtype :=
  match a, b with
  | None, _ => Ok (promote_for_addition b)
  | _, None => Ok (promote_for_addition a)
  | Some a, Some b => c ← common_numeric a b; Ok (promote c)
  end.

(** ** The functions *)

Context `{C : Compute}.

Definition cast_or_throw (a : array) (t : dtype) : result array :=
  if type_equals (a_type a) t then Ok a else
  match cast (D_array a) t with
  | inr (D_array r) => Ok r
  | inr (D_scalar _ _) => Throw (Undefined_behaviour "make_array of a scalar")
  | inl status => fail ("cast " +:+ type_to_string (a_type a) +:+ " -> " +:+ type_to_string t +:+ ": " +:+ status)
  end.

Definition add_arrays (a b : array) (what : string) : result array :=
  match call_function "add" [D_array a; D_array b] with
  | inr (D_array r) => Ok r
  | inr (D_scalar _ _) => Throw (Undefined_behaviour "make_array of a scalar")
  | inl status => fail (what +:+ ": " +:+ status)
  end.

Definition number (n : nat) : string := Metadata.Metadata.number (Z.of_nat n).

Definition bound_output_type (output_schema : option (list field)) (what : string) : result dtype :=
  match output_schema with
  | Some [f] => Ok (f_type f)
  | Some s => fail (what +:+ ": expects a one-column output schema, got " +:+ number (length s) +:+ " columns")
  | None => fail (what +:+ ": expects a one-column output schema, got none")
  end.

Definition input_column (b : option batch) (i : nat) (what : string) : result array :=
  let n := match b with Some b => length (b_columns b) | None => 0%nat end in
  match (b ← b; b_columns b !! i) with
  | Some a => Ok a
  | None => fail (what +:+ ": expects at least " +:+ number (i + 1) +:+ " input column(s), got " +:+ number n)
  end.

(** One column under the output schema. *)
Definition one_column (output_schema : option (list field)) (a : array) : batch :=
  mkBatch (default [] output_schema) None (Z.of_nat (length (a_values a))) [a].

(** A decimal is doubled in 75 digits and narrowed, so that what does not fit is an error. *)
Definition double_first (output_schema : option (list field)) (b : option batch) : result batch :=
  t ← bound_output_type output_schema "double_first";
  first ← input_column b 0 "double_first";
  match t with
  | T_decimal128 _ scale =>
      widened ← cast_or_throw first (T_decimal256 75 scale);
      summed ← add_arrays widened widened "double";
      narrowed ← cast_or_throw summed t;
      Ok (one_column output_schema narrowed)
  | _ =>
      column ← cast_or_throw first t;
      sum ← add_arrays column column "double";
      summed ← cast_or_throw sum t;
      Ok (one_column output_schema summed)
  end.

Definition add_two (output_schema : option (list field)) (b : option batch) : result batch :=
  t ← bound_output_type output_schema "add_two";
  x ← input_column b 0 "add_two"; x ← cast_or_throw x t;
  y ← input_column b 1 "add_two"; y ← cast_or_throw y t;
  sum ← add_arrays x y "add";
  summed ← cast_or_throw sum t;
  Ok (one_column output_schema summed).

(** ** What a type holds *)

(** The numbers of an integer type, and the unscaled numbers of a decimal. *)
Definition holds (t : dtype) (z : Z) : Prop :=
  match t with
  | T_decimal128 p _ => Z.abs z < 10 ^ p
  | _ =>
      match int_info t with
      | Some (w, true) => - 2 ^ (w - 1) ≤ z < 2 ^ (w - 1)
      | Some (w, false) => 0 ≤ z < 2 ^ w
      | None => False
      end
  end.

(** Integer types of fewer than 64 bits. *)
Definition narrow (t : dtype) : bool := match int_info t with Some (w, _) => w <? 64 | None => false end.

(** [DataType::Equals] tells integer types apart. *)
Definition tells_integers_apart : Prop :=
  ∀ a b, is_integer_type a = true → is_integer_type b = true → type_equals a b = true → a = b.

Ltac ranges := unfold holds in *; cbn in *; lia.

Lemma is_integer_type_spec t : is_integer_type t = true → t ∈ [T_int8; T_int16; T_int32; T_int64; T_uint8; T_uint16; T_uint32; T_uint64].
Proof using Type. unfold is_integer_type. destruct t; cbn; try done; intros _; set_solver. Qed.

(** The type of a sum holds the sum.  The type that is answered for the sum of two
    integer columns holds every value of both and, where both are of fewer than 64
    bits, every sum of one and the other; it is an integer type unless one of them is
    the unsigned 64-bit type and the other signed. *)
Theorem sum_type_holds a b c :
  tells_integers_apart → is_integer_type a = true → is_integer_type b = true →
  common_type_for_addition (Some a) (Some b) = Ok c →
  (c = T_double ∧ (a = T_uint64 ∨ b = T_uint64)) ∨
  (is_integer_type c = true ∧ ∀ x y, holds a x → holds b y → holds c x ∧ holds c y ∧ (narrow a = true → narrow b = true → holds c (x + y))).
Proof using Type.
  intros Hd Ha Hb. pose proof (Hd a b Ha Hb) as Hab. apply is_integer_type_spec in Ha, Hb.
  unfold common_type_for_addition, common_numeric. destruct (type_equals a b).
  - rewrite <- Hab by done. intros [= <-]. right.
    repeat (apply elem_of_cons in Ha as [->|Ha]; [split; [reflexivity|]; intros x y; ranges|]). by apply elem_of_nil in Ha.
  - clear Hd Hab.
    repeat (apply elem_of_cons in Ha as [->|Ha];
      [repeat (apply elem_of_cons in Hb as [->|Hb];
         [cbn; intros [= <-]; first [left; split; [done|]; by auto | right; split; [reflexivity|]; intros x y; ranges]|]);
       by apply elem_of_nil in Hb|]).
    by apply elem_of_nil in Ha.
Qed.

(** A number brought from one scale to a larger one. *)
Definition rescaled (z scale scale' : Z) : Z := z * 10 ^ (scale' - scale).

Lemma rescaled_holds p s p' s' z :
  0 ≤ p → s ≤ s' → p - s + s' ≤ p' → Z.abs z < 10 ^ p → Z.abs (rescaled z s s') < 10 ^ p'.
Proof using Type.
  intros Hp Hs Hw Hz. unfold rescaled. rewrite Z.abs_mul, (Z.abs_eq (10 ^ _)) by (apply Z.pow_nonneg; lia).
  apply Z.lt_le_trans with (10 ^ p * 10 ^ (s' - s)).
  - apply Z.mul_lt_mono_pos_r; [apply Z.pow_pos_nonneg; lia|done].
  - rewrite <- Z.pow_add_r by lia. apply Z.pow_le_mono_r; lia.
Qed.

(** The decimal of a sum.  Of two decimal columns the answered decimal holds, at its
    scale, every value of both and every sum of one and the other, unless its digits
    are cut at 38. *)
Theorem decimal_sum_holds pa sa pb sb c :
  0 ≤ pa → 0 ≤ pb → type_equals (T_decimal128 pa sa) (T_decimal128 pb sb) = false →
  common_type_for_addition (Some (T_decimal128 pa sa)) (Some (T_decimal128 pb sb)) = Ok c →
  (pa - sa) `max` (pb - sb) + sa `max` sb < 38 →
  ∃ p s, c = T_decimal128 p s ∧ s = sa `max` sb ∧
    ∀ x y, holds (T_decimal128 pa sa) x → holds (T_decimal128 pb sb) y →
      holds c (rescaled x sa s) ∧ holds c (rescaled y sb s) ∧ holds c (rescaled x sa s + rescaled y sb s).
Proof using Type.
  intros Hpa Hpb Hne. cbn [common_type_for_addition]. unfold common_numeric. rewrite Hne. cbn. intros [= <-] Hcap.
  rewrite (Z.min_l (_ + _) 38) by lia. rewrite Z.min_l by lia.
  set (d := (pa - sa) `max` (pb - sb)) in *. set (s := sa `max` sb) in *. exists (d + s + 1), s. split_and!; [done..|].
  intros x y Hx Hy.
  assert (Z.abs (rescaled x sa s) < 10 ^ (d + s)) as Hx' by (apply (rescaled_holds pa); lia).
  assert (Z.abs (rescaled y sb s) < 10 ^ (d + s)) as Hy' by (apply (rescaled_holds pb); lia).
  assert (10 ^ (d + s + 1) = 10 * 10 ^ (d + s)) as Hpow by (rewrite Z.pow_add_r by lia; lia).
  cbn [holds]. rewrite Hpow. split_and!; lia.
Qed.

End types.

(** ** Witnesses and examples *)

Definition trial_arrow : Arrow := table_arrow [].
#[local] Existing Instance trial_arrow.

Lemma sum_type_holds_witness :
  common_type_for_addition (Some T_uint32) (Some T_int16) = Ok T_int64 ∧ holds T_int64 (4294967295 + 32767).
Proof.
  assert (tells_integers_apart) as Hd by (intros a b _ _ E; by apply dtype_eqb_spec in E).
  assert (common_type_for_addition (Some T_uint32) (Some T_int16) = Ok T_int64) as H by (vm_compute; reflexivity).
  split; [exact H|]. destruct (sum_type_holds T_uint32 T_int16 T_int64 Hd eq_refl eq_refl H) as [[E _]|[_ Hs]]; [discriminate|].
  destruct (Hs 4294967295 32767) as (_ & _ & Hsum); [cbn; lia|cbn; lia|]. apply Hsum; reflexivity.
Defined.

Lemma decimal_sum_holds_witness :
  common_type_for_addition (Some (T_decimal128 10 2)) (Some (T_decimal128 4 3)) = Ok (T_decimal128 12 3) ∧
  holds (T_decimal128 12 3) (rescaled 9999999999 2 3 + rescaled 9999 3 3).
Proof.
  assert (common_type_for_addition (Some (T_decimal128 10 2)) (Some (T_decimal128 4 3)) = Ok (T_decimal128 12 3)) as H
    by (vm_compute; reflexivity).
  assert (type_equals (T_decimal128 10 2) (T_decimal128 4 3) = false) as Hne by (vm_compute; reflexivity).
  split; [exact H|].
  destruct (decimal_sum_holds 10 2 4 3 _ ltac:(lia) ltac:(lia) Hne H ltac:(cbn; lia)) as (p & s & E & Es & Hs).
  injection E as <- <-. apply Hs; cbn; lia.
Defined.

(** The type of a sum of two [BIGINT] columns is [BIGINT]: no headroom. *)
Example bigint_has_no_headroom :
  common_type_for_addition (Some T_int64) (Some T_int64) = Ok T_int64 ∧
  holds T_int64 (2 ^ 63 - 1) ∧ ¬ holds T_int64 (2 ^ 63 - 1 + 1).
Proof. split; [by vm_compute|]. cbn. lia. Qed.

(** A decimal beside an integer: the integers of the other column need not fit. *)
Example decimal_beside_integer :
  common_type_for_addition (Some T_int64) (Some (T_decimal128 4 2)) = Ok (T_decimal128 5 2) ∧
  holds T_int64 1000 ∧ ¬ holds (T_decimal128 5 2) (rescaled 1000 0 2).
Proof. split; [by vm_compute|]. split; [cbn; lia|]. vm_compute. congruence. Qed.

End Numeric.
