(* ===== verification/Versions.v ===== *)
(** * Versions ([src/catalog.cpp])

    The data version an ATTACH asks for, exact or as a range, and the version of a
    table that an AT clause selects.  The theorems: a range is answered with the
    highest supported version it covers, and refused only if it covers none; an AT
    clause selects the version it names or the newest that was current by then, and
    no clause the newest. *)

From stdpp Require Import sorting.
From S2P Require Import Prelude Text Crypto SqlScalar AttachService.

Module Versions.

(** ** Numbers in text *)

(** [std::stoul]: it throws where there is no digit, and past the last [unsigned long]. *)
Definition stoul (s : bytes) : result Z :=
  let '(neg, r) := read_sign (skip_spaces s) in
  match r with
  | c :: _ =>
      if is_digit c then
        let n := read_digits r 0 in
        throw_if (2 ^ 64 - 1 <? n) (Runtime_error "stoul");;
        Ok (if neg then (- n) mod 2 ^ 64 else n)
      else Throw (Invalid_argument "stoul")
  | [] => Throw (Invalid_argument "stoul")
  end.

(** [static_cast<uint32_t>] *)
Definition to_uint32 (z : Z) : Z := z mod 2 ^ 32.

(** ** Versions of three numbers *)

Definition semver : Type := Z * Z * Z.
#[global] Instance semver_eq_dec : EqDecision semver.
Proof. solve_decision. Defined.
Definition major (v : semver) : Z := v.1.1.
Definition minor (v : semver) : Z := v.1.2.
(** The order of the arrays. *)
Definition semver_le (v w : semver) : bool :=
  let '(a, b, c) := v in
  let '(a', b', c') := w in
  (a <? a') || (a =? a') && ((b <? b') || (b =? b') && (c <=? c')).

(** The number a text starts with, and the rest. *)
Definition part (s : bytes) : result (option (Z * bytes)) :=
  match s with
  | c :: _ => if is_digit c then n ← stoul s; Ok (Some (to_uint32 n, AttachService.skip_digits s)) else Ok None
  | [] => Ok None
  end.
Definition after_dot (s : bytes) : option bytes :=
  match s with c :: r => if bool_decide (c = zb 46) then Some r else None | [] => None end.

Definition parse_semver (text : bytes) : result (option semver) :=
  x ← part text;
  match x with
  | Some (a, r) =>
      match after_dot r with
      | Some r =>
          x ← part r;
          match x with
          | Some (b, r) =>
              match after_dot r with
              | Some r => x ← part r; Ok (match x with Some (c, []) => Some (a, b, c) | _ => None end)
              | None => Ok None
              end
          | None => Ok None
          end
      | None => Ok None
      end
  | None => Ok None
  end.
#[global] Arguments parse_semver : simpl never.

Definition quoted (name : bytes) : string := str (zb 34 :: name ++ [zb 34]).
Fixpoint join_quoted (values : list bytes) : string :=
  match values with
  | [] => ""
  | [v] => quoted v
  | v :: values => quoted v +:+ ", " +:+ join_quoted values
  end.

(** ** Ranges *)

(** The supported versions that are versions, in ascending order; of versions of the
    same three numbers the order is [std::sort]'s own. *)
Fixpoint parsed (supported : list bytes) : result (list (semver * bytes)) :=
  match supported with
  | [] => Ok []
  | v :: supported =>
      p ← parse_semver v;
      rest ← parsed supported;
      Ok (match p with Some p => (p, v) :: rest | None => rest end)
  end.
Fixpoint insert_version (e : semver * bytes) (l : list (semver * bytes)) : list (semver * bytes) :=
  match l with
  | [] => [e]
  | f :: l => if semver_le e.1 f.1 then e :: f :: l else f :: insert_version e l
  end.
Definition sort_versions (l : list (semver * bytes)) : list (semver * bytes) := foldr insert_version [] l.

Definition unsupported (label : string) (spec : bytes) (supported : list bytes) : exn :=
  Invalid_argument ("Unsupported " +:+ label +:+ " " +:+ quoted spec +:+ "; this worker serves one of " +:+ join_quoted supported).

(** Highest first. *)
Definition best (refusal : exn) (sorted : list (semver * bytes)) (covers : semver → bool) : result bytes :=
  from_opt refusal (snd <$> List.find (λ e : semver * bytes, covers e.1) (rev sorted)).

Definition in_range (caret : bool) (base v : semver) : bool :=
  (major v =? major base) && semver_le base v && (caret || (minor v =? minor base)).

(** Whether a text has a second dot behind its first. *)
Definition dots (s : bytes) : nat := length (filter (λ c, c = zb 46) s).

Definition resolve_version_npm (spec : option bytes) (supported : list bytes) (fallback : bytes) (label : string) : result bytes :=
  match spec with
  | None | Some [] => Ok fallback
  | Some ((prefix :: rest) as spec) =>
      versions ← parsed supported;
      let sorted := sort_versions versions in
      let refusal := unsupported label spec supported in
      exact ← parse_semver spec;
      if bool_decide (is_Some exact) then throw_if (negb (bool_decide (spec ∈ supported))) refusal;; Ok spec
      else if bool_decide (prefix = zb 94) || bool_decide (prefix = zb 126) then
        base ← parse_semver rest;
        base ← from_opt refusal base;
        best refusal sorted (in_range (bool_decide (prefix = zb 94)) base)
      else if bool_decide (dots spec = 0%nat) then
        n ← (match stoul spec with Ok n => Ok n | Throw _ => Throw refusal end : result Z);
        best refusal sorted (λ v, major v =? to_uint32 n)
      else if bool_decide (dots spec = 1%nat) then
        let pinned := spec ++ bs ".0" in
        throw_if (negb (bool_decide (pinned ∈ supported))) refusal;; Ok pinned
      else Throw refusal
  end.

(** ** Negotiation *)

Definition choose_exact (requested : option bytes) (supported : list bytes) (fallback : option bytes) (refusal : bytes → exn) : result (option bytes) :=
  match requested with
  | Some v => throw_if (negb (bool_decide (v ∈ supported))) (refusal v);; Ok (Some v)
  | None => Ok fallback
  end.

Definition resolve_data_version (npm : bool) (supported : list bytes) (default_version requested : option bytes) : result (option bytes) :=
  if bool_decide (supported = []) then Ok None
  else if npm then v ← resolve_version_npm requested supported (default [] default_version) "data_version_spec"; Ok (Some v)
  else choose_exact requested supported default_version (λ v, unsupported "data_version_spec" v supported).

Definition resolve_implementation_version (npm : bool) (version : bytes) (supported : list bytes) (requested : option bytes) : result (option bytes) :=
  if bool_decide (version = []) then Ok None
  else
    let served := if bool_decide (supported = []) then [version] else supported in
    if npm && negb (bool_decide (supported = [])) then v ← resolve_version_npm requested served version "implementation_version"; Ok (Some v)
    else choose_exact requested served (Some version)
           (λ v, Invalid_argument ("Unsupported implementation_version " +:+ quoted v +:+ "; this worker serves " +:+ join_quoted served)).

(** ** AT clauses *)

(** What the choice of a version looks at. *)
Class Versioned (T : Type) := { version_of : T → Z; year_of : T → option Z }.

Section clauses.
Context {T : Type} `{Versioned T}.

(** The first of the highest version. *)
Fixpoint newest_from (found : option T) (l : list T) : option T :=
  match l with
  | [] => found
  | v :: l => newest_from (match found with
                           | Some w => if version_of w <? version_of v then Some v else found
                           | None => Some v
                           end) l
  end.
Definition newest (l : list T) : option T := newest_from None l.

(** [std::atoi] of the first four characters. *)
Definition year_in (value : option bytes) : Z :=
  match value with
  | Some v => if bool_decide (4 <= length v)%nat then strtoll (take 4 v) else 0
  | None => 0
  end.
(** What a C string holds of a text. *)
Fixpoint c_str (s : bytes) : bytes := match s with [] => [] | c :: s => if bool_decide (c = NUL) then [] else c :: c_str s end.

Definition current_by (year : Z) (v : T) : bool := match year_of v with Some y => y <=? year | None => false end.

Fixpoint earliest_from (earliest : Z) (l : list T) : Z :=
  match l with
  | [] => earliest
  | v :: l => earliest_from (match year_of v with
                             | Some y => if (earliest =? 0) || (y <? earliest) then y else earliest
                             | None => earliest
                             end) l
  end.

Definition upper_char (c : ascii) : ascii := if bool_decide (97 ≤ bz c ≤ 122) then zb (bz c - 32) else c.

(** [travels]: the table takes a clause without versions of its own. *)
Definition resolve_version (time_travel : list T) (travels : bool) (at_unit at_value : option bytes) : result (option T) :=
  let has_clause := match at_unit with Some (_ :: _) => true | _ => false end in
  if bool_decide (length time_travel = 0%nat) then
    throw_if (has_clause && negb travels) (Invalid_argument "this table does not support time travel");; Ok None
  else if negb has_clause then Ok (newest time_travel)
  else
    let unit := map upper_char (default [] at_unit) in
    if bool_decide (unit = bs "VERSION") then
      let wanted := match at_value with Some v => strtoll (c_str v) | None => -1 end in
      v ← from_opt (Invalid_argument ("Unknown version: " +:+ str (default [] at_value)))
            (List.find (λ v, version_of v =? wanted) time_travel);
      Ok (Some v)
    else if bool_decide (unit = bs "TIMESTAMP") then
      match newest (filter (λ v, current_by (year_in at_value) v = true) time_travel) with
      | Some v => Ok (Some v)
      | None => Throw (Invalid_argument ("table did not exist before " +:+ str (to_string (earliest_from 0 time_travel))))
      end
    else Throw (Invalid_argument ("unsupported AT unit: " +:+ str unit)).

(** *** Lemmas *)

Lemma newest_from_spec found l v :
  newest_from found l = Some v →
  (v ∈ l ∨ found = Some v) ∧ (∀ w, w ∈ l ∨ found = Some w → version_of w ≤ version_of v).
Proof using Type.
  revert found. induction l as [|x l IH]; intros found Hn; cbn [newest_from] in Hn.
  - subst found. split; [by right|]. intros w [?%elem_of_nil|[= ->]]; done.
  - apply IH in Hn as [Hv Hmax]. destruct found as [f|].
    + destruct (Z.ltb_spec (version_of f) (version_of x)) as [Hlt|Hge].
      * split; [destruct Hv as [?|[= ->]]; left; set_solver|]. intros w [[->|Hw]%elem_of_cons|[= <-]]; [apply Hmax; by right|apply Hmax; by left|].
        transitivity (version_of x); [lia|]. apply Hmax. by right.
      * split; [destruct Hv as [?|?]; [left; set_solver|by right]|]. intros w [[->|Hw]%elem_of_cons|[= <-]]; [|apply Hmax; by left|apply Hmax; by right].
        transitivity (version_of f); [lia|]. apply Hmax. by right.
    + split; [destruct Hv as [?|[= ->]]; left; set_solver|]. intros w [[->|Hw]%elem_of_cons|?]; [apply Hmax; by right|apply Hmax; by left|done].
Qed.

Lemma newest_from_some found l : newest_from found l = None → l = [] ∧ found = None.
Proof using Type.
  revert found. induction l as [|x l IH]; intros found; cbn [newest_from]; [done|]. intros [_ Hf]%IH.
  destruct found as [f|]; [by destruct (_ <? _)|done].
Qed.

(** The version an AT clause selects.  No clause selects the newest version;
    [VERSION] one of the number that is read of its value, and is refused if there is
    none; [TIMESTAMP] the newest of those that were current by its year, and is
    refused if none was.  A table without versions takes no clause, unless it says it
    does. *)
Theorem clause_selects time_travel travels at_unit at_value r :
  resolve_version time_travel travels at_unit at_value = r →
  time_travel ≠ [] →
  let unit := map upper_char (default [] at_unit) in
  let current v := v ∈ time_travel ∧ current_by (year_in at_value) v = true in
  (at_unit = None ∨ at_unit = Some [] → ∃ v, r = Ok (Some v) ∧ v ∈ time_travel ∧ ∀ w, w ∈ time_travel → version_of w ≤ version_of v) ∧
  (at_unit ≠ None → at_unit ≠ Some [] →
   match r with
   | Ok (Some v) => v ∈ time_travel ∧
       (unit = bs "VERSION" ∧ (∀ s, at_value = Some s → version_of v = strtoll (c_str s)) ∨
        unit = bs "TIMESTAMP" ∧ current v ∧ ∀ w, current w → version_of w ≤ version_of v)
   | Ok None => False
   | Throw _ => (unit = bs "VERSION" → ∀ v s, v ∈ time_travel → at_value = Some s → version_of v ≠ strtoll (c_str s)) ∧
       (unit = bs "TIMESTAMP" → ∀ v, ¬ current v)
   end).
Proof using Type.
  intros <- Hne. unfold resolve_version. rewrite (bool_decide_false (length time_travel = 0%nat)) by (by destruct time_travel).
  cbv zeta. split.
  - intros Hclause. assert (match at_unit with Some (_ :: _) => true | _ => false end = false) as -> by (by destruct Hclause as [->| ->]).
    cbn [negb]. destruct (newest time_travel) as [v|] eqn:Hn; [|by apply newest_from_some in Hn as [? _]].
    exists v. split; [done|]. apply newest_from_spec in Hn as [[Hv|?] Hmax]; [|done]. split; [done|]. intros w Hw. apply Hmax. by left.
  - intros H1 H2. assert (match at_unit with Some (_ :: _) => true | _ => false end = true) as -> by (by destruct at_unit as [[|]|]).
    cbn [negb]. case_bool_decide as Hv; [|case_bool_decide as Ht].
    + destruct (List.find _ _) as [v|] eqn:Hf; cbn [from_opt mbind result_bind].
      * apply List.find_some in Hf as [Hin%list_elem_of_In Heq%Z.eqb_eq]. split; [done|]. left. split; [done|]. by intros s ->.
      * split; [|by rewrite Hv]. intros _ v s Hin%list_elem_of_In -> Heq. apply (List.find_none _ _ Hf) in Hin. lia.
    + destruct (newest _) as [v|] eqn:Hn.
      * apply newest_from_spec in Hn as [[Hin|?] Hmax]; [|done]. apply list_elem_of_filter in Hin as [Hc Hin]. split; [done|]. right.
        split; [done|]. split; [done|]. intros w [Hw Hwc]. apply Hmax. left. by apply list_elem_of_filter.
      * split; [by rewrite Ht|]. intros _ v [Hin Hc]. apply newest_from_some in Hn as [Hn _].
        assert (v ∈ filter (λ v, current_by (year_in at_value) v = true) time_travel) as Hf by (by apply list_elem_of_filter).
        rewrite Hn in Hf. by apply elem_of_nil in Hf.
    + by split.
Qed.
End clauses.

(** ** Ranges are answered with the highest version they cover *)

Lemma semver_le_total v w : semver_le v w = false → semver_le w v = true.
Proof.
  destruct v as [[a b] c], w as [[a' b'] c']. unfold semver_le.
  rewrite orb_false_iff, andb_false_iff, orb_false_iff, andb_false_iff, orb_true_iff, andb_true_iff, orb_true_iff, andb_true_iff. lia.
Qed.
Lemma semver_le_trans u v w : semver_le u v = true → semver_le v w = true → semver_le u w = true.
Proof.
  destruct u as [[a b] c], v as [[a' b'] c'], w as [[a'' b''] c'']. unfold semver_le.
  rewrite !orb_true_iff, !andb_true_iff, !orb_true_iff, !andb_true_iff. lia.
Qed.

Definition ascending (l : list (semver * bytes)) : Prop := StronglySorted (λ e f : semver * bytes, semver_le e.1 f.1 = true) l.

Lemma insert_version_perm e l : insert_version e l ≡ₚ e :: l.
Proof. induction l as [|f l IH]; cbn; [done|]. destruct (semver_le _ _); [done|]. rewrite IH. apply perm_swap. Qed.

Lemma sort_versions_perm l : sort_versions l ≡ₚ l.
Proof. induction l as [|e l IH]; cbn; [done|]. by rewrite insert_version_perm, IH. Qed.

Lemma insert_version_sorted e l : ascending l → ascending (insert_version e l).
Proof.
  unfold ascending. induction 1 as [|f l Hl IH Hf]; cbn; [repeat constructor|]. destruct (semver_le e.1 f.1) eqn:He.
  - constructor; [by constructor|]. constructor; [done|]. eapply Forall_impl; [exact Hf|]. intros g Hg. by eapply semver_le_trans.
  - constructor; [done|]. rewrite insert_version_perm. constructor; [by apply semver_le_total|done].
Qed.

Lemma sort_versions_sorted l : ascending (sort_versions l).
Proof. induction l; cbn; [constructor|by apply insert_version_sorted]. Qed.

Lemma find_in_app {T} (f : T → bool) l k :
  List.find f (l ++ k) = match List.find f l with Some x => Some x | None => List.find f k end.
Proof. induction l as [|x l IH]; cbn; [done|]. by destruct (f x). Qed.

Lemma find_last_sorted (covers : semver → bool) l e :
  ascending l → List.find (λ e : semver * bytes, covers e.1) (rev l) = Some e →
  e ∈ l ∧ covers e.1 = true ∧ ∀ f, f ∈ l → covers f.1 = true → semver_le f.1 e.1 = true.
Proof.
  induction 1 as [|x l Hl IH Hx]; [done|]. cbn [rev]. rewrite find_in_app.
  destruct (List.find _ (rev l)) as [e'|] eqn:Hf.
  - intros [= ->]. destruct (IH eq_refl) as (H1 & H2 & H3). split_and!; [by right|done|].
    intros f [->|Hin]%elem_of_cons Hc; [|by apply H3]. rewrite Forall_forall in Hx. by apply Hx.
  - cbn. destruct (covers x.1) eqn:Hc; [|done]. intros [= <-]. split_and!; [by left|done|].
    intros f [->|Hin]%elem_of_cons Hcf.
    + destruct x as [[[a b] c] v]. cbn. rewrite !Z.ltb_irrefl, !Z.eqb_refl, Z.leb_refl. by rewrite orb_true_r.
    + apply list_elem_of_In in Hin. rewrite in_rev in Hin. apply (List.find_none _ _ Hf) in Hin. congruence.
Qed.

Lemma parsed_spec supported l p v :
  parsed supported = Ok l → (p, v) ∈ l ↔ v ∈ supported ∧ parse_semver v = Ok (Some p).
Proof.
  revert l. induction supported as [|w supported IH]; intros l; cbn [parsed].
  - intros [= <-]. split; [by intros ?%elem_of_nil|]. by intros [?%elem_of_nil _].
  - intros (q & Hq & (rest & Hr & [= <-])%bind_Ok)%bind_Ok. specialize (IH _ Hr). rewrite elem_of_cons. destruct q as [q|].
    + rewrite elem_of_cons, IH. split; [intros [[= -> ->]|[? ?]]; [by split; [left|]|by split; [right|]]|].
      intros [[->|?] Hp]; [left; congruence|by right].
    + rewrite IH. split; [intros [? ?]; by split; [right|]|]. intros [[->|?] Hp]; [congruence|done].
Qed.

(** *** The five forms of a request, by the text they are written as *)

(** A number in decimal that fits 32 bits. *)
Definition numeral (s : bytes) (n : Z) : Prop :=
  s ≠ [] ∧ Forall (λ c, 48 ≤ bz c ≤ 57) s ∧ foldl (λ n c, 10 * n + (bz c - 48)) 0 s = n ∧ n < 2 ^ 32.

Definition version_text (s : bytes) (v : semver) : Prop :=
  ∃ x y z, numeral x v.1.1 ∧ numeral y v.1.2 ∧ numeral z v.2 ∧ s = x ++ zb 46 :: y ++ zb 46 :: z.

Inductive request : Type :=
| Exact (v : semver)
| Caret (v : semver)
| Tilde (v : semver)
| Major (a : Z)
| Pinned (a b : Z).

Inductive asks : bytes → request → Prop :=
| asks_exact s v : version_text s v → asks s (Exact v)
| asks_caret s v : version_text s v → asks (zb 94 :: s) (Caret v)
| asks_tilde s v : version_text s v → asks (zb 126 :: s) (Tilde v)
| asks_major s a : numeral s a → asks s (Major a)
| asks_pinned x y a b : numeral x a → numeral y b → asks (x ++ zb 46 :: y) (Pinned a b).

(** A caret: the versions of the same major number from the base on; a tilde: of the
    same major and minor number; a number: of that major. *)
Definition covers (r : request) (v : semver) : Prop :=
  match r with
  | Exact w => v = w
  | Caret w => v.1.1 = w.1.1 ∧ semver_le w v = true
  | Tilde w => v.1 = w.1 ∧ semver_le w v = true
  | Major a => v.1.1 = a
  | Pinned a b => v = (a, b, 0)
  end.

(** What the code asks of a version for the three forms that are ranges. *)
Definition covering (r : request) : semver → bool :=
  match r with
  | Caret w => in_range true w
  | Tilde w => in_range false w
  | Major a => λ v, major v =? a
  | _ => λ _, false
  end.

Lemma covering_spec r v :
  match r with Exact _ | Pinned _ _ => False | _ => True end → covering r v = true ↔ covers r v.
Proof.
  destruct r as [w|w|w|a|a b], v as [[a1 b1] c1]; cbn; intros []; try destruct w as [[a2 b2] c2]; unfold in_range, major, minor; cbn [fst snd];
    rewrite ?andb_true_iff, ?orb_true_iff, ?Z.eqb_eq; cbn; naive_solver.
Qed.

Lemma numeral_digits s n : numeral s n → Forall (λ c, is_digit c = true) s ∧ 0 ≤ n.
Proof.
  intros (_ & Hd & <- & _). split.
  - eapply Forall_impl; [exact Hd|]. intros c Hc. unfold is_digit. by apply bool_decide_eq_true.
  - enough (∀ acc, 0 ≤ acc → 0 ≤ foldl (λ n c, 10 * n + (bz c - 48)) acc s) as H by (by apply H).
    induction Hd as [|c s Hc _ IH]; intros acc Ha; [done|]. cbn. apply IH. lia.
Qed.

Lemma read_digits_app x r acc :
  Forall (λ c, is_digit c = true) x → read_digits (x ++ r) acc = read_digits r (foldl (λ n c, 10 * n + (bz c - 48)) acc x).
Proof. intros Hx. revert acc. induction Hx as [|c x Hc _ IH]; intros acc; [done|]. cbn. by rewrite Hc, IH. Qed.

Lemma skip_digits_app x r : Forall (λ c, is_digit c = true) x → no_digit r → AttachService.skip_digits (x ++ r) = r.
Proof.
  intros Hx Hr. induction Hx as [|c x Hc _ IH]; cbn; [|by rewrite Hc]. destruct r as [|c r]; [done|]. cbn in *. by rewrite Hr.
Qed.

Lemma numeral_stoul x r n : numeral x n → no_digit r → stoul (x ++ r) = Ok n.
Proof.
  intros Hx Hr. destruct (numeral_digits _ _ Hx) as [Hd Hn]. destruct Hx as (Hne & _ & Hv & Hlt).
  destruct x as [|c x]; [done|]. pose proof Hd as Hc. apply Forall_cons in Hc as [Hc _].
  destruct (digit_not_sign c Hc) as (Hs & H45 & H43). unfold stoul. cbn [app skip_spaces]. rewrite Hs. unfold read_sign.
  rewrite (bool_decide_false (bz c = 45)), (bool_decide_false (bz c = 43)) by done. rewrite Hc.
  change (c :: x ++ r) with ((c :: x) ++ r). rewrite read_digits_app by done. rewrite Hv, read_digits_end by done.
  cbv zeta. by rewrite (proj2 (Z.ltb_ge _ _)) by lia.
Qed.

Lemma numeral_part x r n : numeral x n → no_digit r → part (x ++ r) = Ok (Some (n, r)).
Proof.
  intros Hx Hr. destruct (numeral_digits _ _ Hx) as [Hd Hn]. pose proof (numeral_stoul _ _ _ Hx Hr) as Hs.
  destruct Hx as (Hne & _ & _ & Hlt). destruct x as [|c x]; [done|]. pose proof Hd as Hc. apply Forall_cons in Hc as [Hc _].
  unfold part. cbn [app] in *. rewrite Hc, Hs. cbn [mbind result_bind]. unfold to_uint32. rewrite Z.mod_small by lia.
  change (c :: x ++ r) with ((c :: x) ++ r). by rewrite skip_digits_app.
Qed.

Lemma no_digit_dot r : no_digit (zb 46 :: r).
Proof. by vm_compute. Qed.

Lemma version_text_read s v : version_text s v → parse_semver s = Ok (Some v).
Proof.
  intros (x & y & z & Hx & Hy & Hz & ->). unfold parse_semver.
  rewrite (numeral_part x _ _ Hx (no_digit_dot _)). cbn [mbind result_bind]. change (after_dot (zb 46 :: ?r)) with (Some r). cbv beta iota.
  rewrite (numeral_part y _ _ Hy (no_digit_dot _)). cbn [mbind result_bind]. change (after_dot (zb 46 :: ?r)) with (Some r). cbv beta iota.
  pose proof (numeral_part z [] _ Hz I) as Hp. rewrite app_nil_r in Hp. rewrite Hp. cbn. by destruct v as [[]].
Qed.

Lemma asks_read spec form :
  asks spec form → parse_semver spec = Ok (match form with Exact v => Some v | _ => None end).
Proof.
  intros [s v Hv|s v Hv|s v Hv|s a Ha|x y a b Hx Hy]; [by apply version_text_read|done|done| |].
  - unfold parse_semver. pose proof (numeral_part s [] _ Ha I) as Hp. rewrite app_nil_r in Hp. by rewrite Hp.
  - unfold parse_semver. rewrite (numeral_part x _ _ Hx (no_digit_dot _)). cbn [mbind result_bind].
    change (after_dot (zb 46 :: ?r)) with (Some r). cbv beta iota. pose proof (numeral_part y [] _ Hy I) as Hp. rewrite app_nil_r in Hp. by rewrite Hp.
Qed.

Lemma numeral_head c s n : numeral (c :: s) n → bool_decide (c = zb 94) || bool_decide (c = zb 126) = false.
Proof.
  intros (_ & Hd & _). apply Forall_cons in Hd as [Hc _].
  rewrite !bool_decide_false; [done| |]; intros ->; [change (bz (zb 126)) with 126 in Hc|change (bz (zb 94)) with 94 in Hc]; lia.
Qed.

Lemma numeral_dots s n : numeral s n → dots s = 0%nat.
Proof.
  intros (_ & Hd & _). unfold dots. induction Hd as [|c s Hc _ IH]; [done|]. rewrite filter_cons_False; [done|].
  intros ->. change (bz (zb 46)) with 46 in Hc. lia.
Qed.

Lemma best_Ok refusal supported versions covers v :
  parsed supported = Ok versions → best refusal (sort_versions versions) covers = Ok v →
  ∃ p, v ∈ supported ∧ parse_semver v = Ok (Some p) ∧ covers p = true ∧
    ∀ w q, w ∈ supported → parse_semver w = Ok (Some q) → covers q = true → semver_le q p = true.
Proof.
  intros Hp. unfold best. destruct (List.find _ _) as [[p w]|] eqn:Hf; [|done]. intros [= <-]. cbn.
  apply find_last_sorted in Hf as (Hin & Hc & Hmax); [|apply sort_versions_sorted]. rewrite sort_versions_perm in Hin.
  apply (parsed_spec _ _ _ _ Hp) in Hin as [Hin Hpw]. exists p. split_and!; [done..|].
  intros w' q Hw Hq Hcq. apply (Hmax (q, w')); [|done]. rewrite sort_versions_perm. by apply (parsed_spec _ _ _ _ Hp).
Qed.

Lemma best_Throw refusal supported versions covers e :
  parsed supported = Ok versions → best refusal (sort_versions versions) covers = Throw e →
  e = refusal ∧ ∀ w q, w ∈ supported → parse_semver w = Ok (Some q) → covers q = false.
Proof.
  intros Hp. unfold best. destruct (List.find _ _) as [[p w]|] eqn:Hf; [done|]. intros [= <-]. split; [done|].
  intros w q Hw Hq. assert ((q, w) ∈ sort_versions versions) as Hin by (rewrite sort_versions_perm; by apply (parsed_spec _ _ _ _ Hp)).
  apply list_elem_of_In in Hin. rewrite in_rev in Hin. by apply (List.find_none _ _ Hf) in Hin.
Qed.

(** The supported versions that are versions, by their text. *)
Definition well_written (supported : list bytes) : Prop :=
  ∀ v, v ∈ supported → (∃ p, version_text v p) ∨ parse_semver v = Ok None.

Lemma well_written_parsed supported :
  well_written supported →
  (∃ versions, parsed supported = Ok versions) ∧
  ∀ v p, v ∈ supported → parse_semver v = Ok (Some p) ↔ version_text v p.
Proof.
  intros Hw. split.
  - induction supported as [|v supported IH]; [by eexists|]. cbn [parsed].
    destruct IH as [rest Hr]; [intros w Hin; apply Hw; by right|].
    destruct (Hw v) as [[p Hp%version_text_read]|Hp]; [by left| |]; rewrite Hp, Hr; by eexists.
  - intros v p Hin. split; [|apply version_text_read]. destruct (Hw v Hin) as [[q Hq]|Hn]; [|congruence].
    intros Hp. rewrite (version_text_read _ _ Hq) in Hp. by injection Hp as ->.
Qed.

(** The three forms that are ranges go through [best]. *)
Lemma ranges_best spec form supported versions fallback label :
  asks spec form → parsed supported = Ok versions → match form with Exact _ | Pinned _ _ => False | _ => True end →
  resolve_version_npm (Some spec) supported fallback label =
    best (unsupported label spec supported) (sort_versions versions) (covering form).
Proof.
  intros Ha Hp Hf. pose proof (asks_read _ _ Ha) as He.
  destruct Ha as [s v Hv|s v Hv|s v Hv|s a Hn|x y a b Hx Hy]; try done.
  - cbn [resolve_version_npm]. rewrite Hp, He. cbn [mbind result_bind]. rewrite bool_decide_false by (by intros []).
    rewrite (version_text_read _ _ Hv). done.
  - cbn [resolve_version_npm]. rewrite Hp, He. cbn [mbind result_bind]. rewrite bool_decide_false by (by intros []).
    rewrite (version_text_read _ _ Hv). done.
  - destruct s as [|c s]; [by destruct Hn|]. cbn [resolve_version_npm]. rewrite Hp, He. cbn [mbind result_bind].
    rewrite bool_decide_false by (by intros []). rewrite (numeral_head _ _ _ Hn), (numeral_dots _ _ Hn), bool_decide_true by done.
    pose proof (numeral_stoul _ [] _ Hn I) as Hs. rewrite app_nil_r in Hs. rewrite Hs. cbn [mbind result_bind covering].
    destruct (numeral_digits _ _ Hn) as [_ H0]. destruct Hn as (_ & _ & _ & Hlt). unfold to_uint32. by rewrite Z.mod_small by lia.
Qed.

(** C28. Each of the five forms of a request, of numbers that fit 32 bits, has the
    answer it is documented to have.  A caret, a tilde or a bare major number is
    answered with a supported version it covers, the highest of them, and refused
    only if there is none; an exact version with itself and [X.Y] with [X.Y.0], and
    refused unless that is supported, word for word; every refusal names the request
    and what is served.  No request is answered with the default. *)
Theorem range_resolved spec form supported fallback label :
  asks spec form → well_written supported →
  resolve_version_npm None supported fallback label = Ok fallback ∧
  match form, resolve_version_npm (Some spec) supported fallback label with
  | Exact _, Ok v => v = spec ∧ spec ∈ supported
  | Exact _, Throw e => e = unsupported label spec supported ∧ spec ∉ supported
  | Pinned _ _, Ok v => v = spec ++ bs ".0" ∧ v ∈ supported
  | Pinned _ _, Throw e => e = unsupported label spec supported ∧ spec ++ bs ".0" ∉ supported
  | _, Ok v => v ∈ supported ∧ ∃ p, version_text v p ∧ covers form p ∧
      ∀ w q, w ∈ supported → version_text w q → covers form q → semver_le q p = true
  | _, Throw e => e = unsupported label spec supported ∧
      ∀ w q, w ∈ supported → version_text w q → ¬ covers form q
  end.
Proof.
  intros Ha Hw. split; [done|]. destruct (well_written_parsed _ Hw) as [[versions Hp] Ht].
  assert (match form with Exact _ | Pinned _ _ => False | _ => True end →
    match best (unsupported label spec supported) (sort_versions versions) (covering form) with
    | Ok v => v ∈ supported ∧ ∃ p, version_text v p ∧ covers form p ∧
        ∀ w q, w ∈ supported → version_text w q → covers form q → semver_le q p = true
    | Throw e => e = unsupported label spec supported ∧ ∀ w q, w ∈ supported → version_text w q → ¬ covers form q
    end) as Hbest.
  { intros Hf. destruct (best _ _ _) as [v|e] eqn:Hb.
    - apply (best_Ok _ _ _ _ _ Hp) in Hb as (p & Hin & H1 & H2 & H3). split; [done|]. exists p.
      split; [by apply Ht|]. split; [by apply covering_spec|]. intros w q Hwin Hq Hc. apply (H3 w); [done|by apply Ht|by apply covering_spec].
    - apply (best_Throw _ _ _ _ _ Hp) in Hb as [-> H]. split; [done|]. intros w q Hwin Hq Hc%covering_spec; [|done].
      apply Ht in Hq; [|done]. by rewrite (H w q Hwin Hq) in Hc. }
  pose proof (asks_read _ _ Ha) as He.
  assert (match form with Exact _ | Pinned _ _ => False | _ => True end →
    resolve_version_npm (Some spec) supported fallback label =
      best (unsupported label spec supported) (sort_versions versions) (covering form)) as Hr by (by apply ranges_best).
  destruct form as [v|v|v|a|a b]; [|rewrite Hr by done; by apply Hbest..|].
  - destruct spec as [|c s]; [done|]. cbn [resolve_version_npm]. rewrite Hp. cbn [mbind result_bind]. rewrite He. cbn [mbind result_bind].
    rewrite bool_decide_true by by eexists. by case_bool_decide.
  - inversion Ha as [| | | |x y a' b' Hx Hy E]; subst. pose proof Hx as (Hne & _). destruct x as [|c x]; [done|].
    cbn [resolve_version_npm app] in *. rewrite Hp. cbn [mbind result_bind]. rewrite He. cbn [mbind result_bind].
    rewrite bool_decide_false by (by intros []). rewrite (numeral_head _ _ _ Hx).
    assert (dots (c :: x ++ zb 46 :: y) = 1%nat) as ->.
    { change (c :: x ++ zb 46 :: y) with ((c :: x) ++ zb 46 :: y). unfold dots. rewrite filter_app, length_app, (filter_cons_True _ (zb 46) y) by done.
      pose proof (numeral_dots _ _ Hx) as Dx. pose proof (numeral_dots _ _ Hy) as Dy. unfold dots in Dx, Dy. cbn [length]. lia. }
    rewrite (bool_decide_false (1%nat = 0%nat)), (bool_decide_true (1%nat = 1%nat)) by done.
    clear Hr. case_bool_decide; by split.
Qed.

(** Whatever a request says, what it is answered with is served, or the default. *)
Lemma answer_supported spec supported fallback label v :
  resolve_version_npm spec supported fallback label = Ok v → v ∈ supported ∨ v = fallback ∧ (spec = None ∨ spec = Some []).
Proof.
  destruct spec as [[|prefix rest]|]; [intros [= ->]; auto| |intros [= ->]; auto]. cbn [resolve_version_npm].
  intros (versions & Hp & (exact & He & H)%bind_Ok)%bind_Ok. left.
  assert (∀ refusal f, best refusal (sort_versions versions) f = Ok v → v ∈ supported) as Hb
    by (intros refusal f Hb; by apply (best_Ok _ _ _ _ _ Hp) in Hb as (? & ? & _)).
  destruct (bool_decide (is_Some exact)).
  { apply bind_throw_if_Ok in H as [Hs [= <-]]. by apply negb_false_iff, bool_decide_eq_true in Hs. }
  destruct (_ || _); [by apply bind_Ok in H as (b & _ & (b' & _ & ?%Hb)%bind_Ok)|].
  destruct (bool_decide (dots _ = 0%nat)); [by apply bind_Ok in H as (n & _ & ?%Hb)|].
  destruct (bool_decide (dots _ = 1%nat)); [|done].
  apply bind_throw_if_Ok in H as [Hs [= <-]]. by apply negb_false_iff, bool_decide_eq_true in Hs.
Qed.

(** ** Witnesses and examples *)

Definition served_versions : list bytes := [bs "1.2.0"; bs "1.10.3"; bs "2.0.0"; bs "nightly"].

Lemma small_numeral s n :
  bool_decide (s ≠ []) && forallb is_digit s && (foldl (λ n c, 10 * n + (bz c - 48)) 0 s =? n) && (n <? 2 ^ 32) = true → numeral s n.
Proof.
  rewrite !andb_true_iff, bool_decide_eq_true, Z.eqb_eq, Z.ltb_lt, forallb_forall. intros [[[H1 H2] H3] H4]. split_and!; try done.
  apply Forall_forall. intros c Hc%list_elem_of_In%H2. by apply bool_decide_eq_true in Hc.
Qed.

Lemma served_well_written : well_written served_versions.
Proof.
  intros v Hv. repeat (apply elem_of_cons in Hv as [->|Hv]); [left..|right; by vm_compute|by apply elem_of_nil in Hv].
  - exists (1, 2, 0), (bs "1"), (bs "2"), (bs "0"). split_and!; [by apply small_numeral; vm_compute..|done].
  - exists (1, 10, 3), (bs "1"), (bs "10"), (bs "3"). split_and!; [by apply small_numeral; vm_compute..|done].
  - exists (2, 0, 0), (bs "2"), (bs "0"), (bs "0"). split_and!; [by apply small_numeral; vm_compute..|done].
Qed.

Lemma range_resolved_witness :
  resolve_version_npm (Some (bs "^1.2.0")) served_versions [] "data_version_spec" = Ok (bs "1.10.3") ∧
  bs "1.10.3" ∈ served_versions.
Proof.
  assert (asks (bs "^1.2.0") (Caret (1, 2, 0))) as Ha.
  { apply (asks_caret (bs "1.2.0")). exists (bs "1"), (bs "2"), (bs "0"). split_and!; [by apply small_numeral; vm_compute..|done]. }
  assert (resolve_version_npm (Some (bs "^1.2.0")) served_versions [] "data_version_spec" = Ok (bs "1.10.3")) as H by (vm_compute; reflexivity).
  split; [exact H|]. destruct (range_resolved _ _ served_versions [] "data_version_spec" Ha served_well_written) as [_ Hv].
  rewrite H in Hv. apply Hv.
Defined.

(** Version and year. *)
#[local] Instance numbered : Versioned (Z * option Z) := {| version_of := fst; year_of := snd |}.
Definition two_versions : list (Z * option Z) := [(1, Some 2020); (2, Some 2022)].
Lemma clause_selects_witness :
  resolve_version two_versions false (Some (bs "timestamp")) (Some (bs "2021-06-01")) = Ok (Some (1, Some 2020)) ∧
  (1, Some 2020) ∈ two_versions.
Proof.
  assert (resolve_version two_versions false (Some (bs "timestamp")) (Some (bs "2021-06-01")) = Ok (Some (1, Some 2020))) as H
    by (vm_compute; reflexivity).
  split; [exact H|]. destruct (clause_selects _ _ _ _ _ H ltac:(discriminate)) as [_ Hc].
  apply Hc; discriminate.
Defined.

(** A text that is no number is version 0 of a table, and one that starts with a number is that number. *)
Example not_a_number_is_zero :
  resolve_version [(0, None); (1, None)] false (Some (bs "VERSION")) (Some (bs "latest")) = Ok (Some (0, None)) ∧
  resolve_version [(0, None); (1, None)] false (Some (bs "VERSION")) (Some (bs "1.5")) = Ok (Some (1, None)).
Proof. by vm_compute. Qed.

(** None of the five forms, and answered all the same: a major number may be followed
    by anything without a dot, and is read modulo [2^32]. *)
Example trailing_text_is_a_major :
  resolve_version_npm (Some (bs "1x")) served_versions [] "data_version_spec" = Ok (bs "1.10.3") ∧
  resolve_version_npm (Some (bs "4294967298")) served_versions [] "data_version_spec" = Ok (bs "2.0.0").
Proof. by vm_compute. Qed.

End Versions.
