(* ===== verification/Statistics.v ===== *)
(** * What the optimizer is told of columns ([src/statistics.cpp], [src/partition.cpp])

    Statistics of columns, with their bounds as the two sparse unions the engine
    reads, and the least and greatest values of the partition columns of a batch.
    The theorems: a bound arrives as it was declared or not at all, and the two unions
    are of one type; the partition values of a batch are its own extremes, for every
    partition column it has rows of. *)

From Stdlib Require Import SpecFloat.
From S2P Require Import Prelude Text Arrow ArrowRecord ArrowCompute Wire Protocol Metadata WireSchema.
Import Wire Protocol Metadata WireSchema.

Module Statistics.

(** ** Arrow's own functions

    [SparseUnionArray::Make] of type ids, children, names and codes. *)
Class SparseUnion := sparse_union : array → list array → list string → list Z → string + array.
Definition picked (children : list array) (i : nat) (id : value) : value :=
  match id with V_int z => default V_null (children !! Z.to_nat z ≫= λ c, a_values c !! i) | _ => V_null end.
Class SparseUnionLaws (U : SparseUnion) : Prop := {
  (** A row is the row of the child its id names. *)
  sparse_union_rows ids children names codes a :
    sparse_union ids children names codes = inr a →
    codes = map Z.of_nat (seq 0 (length children)) →
    a_values a = imap (picked children) (a_values ids);
  (** The type is made of the types of the children, their names and their codes. *)
  sparse_union_type ids ids' children children' names codes a a' :
    sparse_union ids children names codes = inr a → sparse_union ids' children' names codes = inr a' →
    map a_type children = map a_type children' → a_type a = a_type a';
}.

(** ** Statistics *)

Inductive Kind : Type := Int64 | Float64 | Utf8 | Binary.
#[global] Instance Kind_eq_dec : EqDecision Kind.
Proof. solve_decision. Defined.

Inductive StatValue : Type := integer (z : Z) | floating (f : spec_float) | text (s : bytes) | raw (s : bytes).
Definition kind (v : StatValue) : Kind :=
  match v with integer _ => Int64 | floating _ => Float64 | text _ => Utf8 | raw _ => Binary end.

Record ColumnStatistics := mkStatistics {
  st_column_name : bytes;
  st_min : option StatValue;
  st_max : option StatValue;
  st_has_null : bool;
  st_has_not_null : bool;
  st_distinct_count : option Z;
  st_contains_unicode : option bool;
  st_max_string_length : option Z;
}.

(** One kind for the two bounds of a row. *)
Definition row_kind (s : ColumnStatistics) : option Kind :=
  match st_min s with Some v => Some (kind v) | None => option_map kind (st_max s) end.

Definition kind_type (k : Kind) : dtype :=
  match k with Int64 => T_int64 | Float64 => T_double | Utf8 => T_string | Binary => T_binary end.
Definition stat_cell (v : StatValue) : value :=
  match v with integer z => V_int z | floating f => V_float f | text s | raw s => V_text s end.

Definition value_of (minimum : bool) (k : Kind) (s : ColumnStatistics) : option StatValue :=
  if negb (bool_decide (row_kind s = Some k)) then None else if minimum then st_min s else st_max s.
Definition child_cell (minimum : bool) (k : Kind) (s : ColumnStatistics) : value :=
  match value_of minimum k s with
  | Some v => if bool_decide (kind v = k) then stat_cell v else V_null
  | None => V_null
  end.
Definition build_child (l : list ColumnStatistics) (minimum : bool) (k : Kind) : array :=
  mkArray (kind_type k) (map (child_cell minimum k) l).

(** Where a kind stands, or none. *)
Fixpoint find_kind (k : Kind) (order : list Kind) : option nat :=
  match order with
  | [] => None
  | x :: order => if bool_decide (x = k) then Some O else option_map S (find_kind k order)
  end.
Definition type_id (order : list Kind) (s : ColumnStatistics) : Z :=
  match row_kind s with
  | Some k => match find_kind k order with Some i => Z.of_nat i | None => 0 end
  | None => 0
  end.

Definition remember (order : list Kind) (k : Kind) : list Kind := if bool_decide (k ∈ order) then order else order ++ [k].
Definition kinds_seen (l : list ColumnStatistics) : list Kind :=
  let order := fold_left (λ order s, match row_kind s with Some k => remember order k | None => order end) l [] in
  match order with [] => [Int64] | _ => order end.

Section statistics.
Context `{A : Arrow} `{L : SchemaCodec} `{U : SparseUnion}.

Definition build_union (l : list ColumnStatistics) (minimum : bool) (order : list Kind) : result array :=
  let ids := mkArray T_int8 (map (λ s, V_int (type_id order s)) l) in
  let positions := seq 0 (length order) in
  match sparse_union ids (map (build_child l minimum) order) (map (λ i, str (to_string (Z.of_nat i))) positions)
          (map Z.of_nat positions) with
  | inl status => fail ("statistics: " +:+ status)
  | inr a => Ok a
  end.

Definition optional_value {T} (f : T → value) (o : option T) : value := match o with Some x => f x | None => V_null end.

Definition statistics_batch (l : list ColumnStatistics) (minimums maximums : array) : batch :=
  mkBatch
    [fld "column_name" T_string true; fld "min" (a_type minimums) true; fld "max" (a_type maximums) true;
     fld "has_null" T_bool true; fld "has_not_null" T_bool true; fld "distinct_count" T_int64 true;
     fld "contains_unicode" T_bool true; fld "max_string_length" T_uint64 true]
    None (Z.of_nat (length l))
    [mkArray T_string (map (λ s, V_text (st_column_name s)) l); minimums; maximums;
     mkArray T_bool (map (λ s, V_bool (st_has_null s)) l); mkArray T_bool (map (λ s, V_bool (st_has_not_null s)) l);
     mkArray T_int64 (map (λ s, optional_value V_int (st_distinct_count s)) l);
     mkArray T_bool (map (λ s, optional_value V_bool (st_contains_unicode s)) l);
     mkArray T_uint64 (map (λ s, optional_value V_int (st_max_string_length s)) l)].

Definition serialize_column_statistics (l : list ColumnStatistics) : result bytes :=
  match l with
  | [] => encode_schema ([], None)
  | _ =>
      let order := kinds_seen l in
      minimums ← build_union l true order;
      maximums ← build_union l false order;
      encode_ipc (statistics_batch l minimums maximums)
  end.
End statistics.

(** ** Partition values *)

Definition kPartitionColumnKey : string := "vgi.partition_column".
Definition kPartitionValuesKey : string := "vgi_partition_values#b64".

(** [KeyValueMetadata::FindKey]: the first. *)
Definition is_partition_field (f : field) : bool :=
  bool_decide ((snd <$> List.find (λ e, bool_decide (e.1 = kPartitionColumnKey)) (f_metadata f)) = Some "true"%string).

Definition partition_field (name : string) (t : dtype) : field := Field name t true [(kPartitionColumnKey, "true"%string)].

(** [MinMax] of an array: a struct scalar of two values.  [append_scalars] is
    [MakeBuilder], an [AppendScalar] for each and [Finish]. *)
Class Extremes := {
  min_max : array → string + list value;
  append_scalars : dtype → list value → string + array;
}.
Class ExtremesLaws (X : Extremes) : Prop := {
  append_scalars_spec t l a : append_scalars t l = inr a → a = mkArray t l;
  (** The extremes of integers, nulls apart. *)
  min_max_ints a v w : min_max a = inr [V_int v; V_int w] →
    (∀ z, V_int z ∈ a_values a → v ≤ z ≤ w) ∧ V_int v ∈ a_values a ∧ V_int w ∈ a_values a;
}.

Section partition.
Context `{A : Arrow} `{B : Base64} `{X : Extremes}.

Definition bounds_of (f : field) (column : array) : result array :=
  let refuse (why : string) : result array := fail ("partition metadata for '" +:+ f_name f +:+ "': " +:+ why) in
  match min_max column with
  | inl status => refuse status
  | inr (least :: greatest :: _) =>
      match append_scalars (a_type column) [least; greatest] with inl status => refuse status | inr both => Ok both end
  | inr _ => refuse "min/max is not a pair"
  end.

(** The fields and the two rows of each partition column that has rows. *)
Fixpoint partition_columns (b : batch) (fields : list field) : result (list (field * array)) :=
  match fields with
  | [] => Ok []
  | f :: fields =>
      match (if is_partition_field f then column_by_name b (f_name f) else None) with
      | Some column =>
          if bool_decide (length (a_values column) = 0%nat) then partition_columns b fields
          else
            both ← bounds_of f column;
            rest ← partition_columns b fields;
            Ok ((Field (f_name f) (a_type column) true [], both) :: rest)
      | None => partition_columns b fields
      end
  end.

Definition partition_metadata (full_schema : option (list field)) (b : option batch) : result (list (string * string)) :=
  match full_schema, b with
  | Some fields, Some b =>
      if b_rows b =? 0 then Ok []
      else
        found ← partition_columns b fields;
        match found with
        | [] => Ok []
        | _ =>
            encoded ← encode_ipc (mkBatch found.*1 None 2 found.*2);
            Ok [(kPartitionValuesKey, base64_encode encoded)]
        end
  | _, _ => Ok []
  end.
End partition.

(** ** Bounds arrive as they were declared or not at all *)

Section bounds.
Context `{A : Arrow} `{L : SchemaCodec} `{U : SparseUnion} `{!ArrowLaws A} `{!SparseUnionLaws U}.

(** What the engine reads of a bound: one of the kind of the row. *)
Definition sent (s : ColumnStatistics) (bound : option StatValue) : value :=
  match bound with
  | Some v => if bool_decide (row_kind s = Some (kind v)) then stat_cell v else V_null
  | None => V_null
  end.

Lemma find_kind_Some k order i : find_kind k order = Some i → order !! i = Some k.
Proof using Type.
  revert i. induction order as [|x order IH]; intros i; cbn; [done|]. case_bool_decide as E; [by intros [= <-]; subst|].
  destruct (find_kind k order) as [j|]; [|done]. intros [= <-]. by apply IH.
Qed.

Lemma find_kind_None k order : find_kind k order = None → k ∉ order.
Proof using Type.
  induction order as [|x order IH]; cbn; [intros _; apply not_elem_of_nil|]. case_bool_decide as E; [done|].
  destruct (find_kind k order); [done|]. intros _. apply not_elem_of_cons. split; [congruence|by apply IH].
Qed.

Lemma remember_elem order k x : x ∈ remember order k ↔ x ∈ order ∨ x = k.
Proof using Type. unfold remember. case_bool_decide as E; [naive_solver|]. rewrite elem_of_app, list_elem_of_singleton. done. Qed.

Lemma kinds_seen_elem l s k : s ∈ l → row_kind s = Some k → k ∈ kinds_seen l.
Proof using Type.
  intros Hs Hk. unfold kinds_seen. set (step := λ order s, match row_kind s with Some k => remember order k | None => order end).
  assert (∀ order, (∃ x, x ∈ order ∧ x = k) ∨ s ∈ l → k ∈ fold_left step l order) as H.
  { clear Hs. induction l as [|x l IH]; intros order; cbn [fold_left].
    - intros [(y & Hy & ->)|Hn]; [done|by apply elem_of_nil in Hn].
    - intros H. apply IH. unfold step. destruct H as [(y & Hy & ->)|[->|Hin]%elem_of_cons].
      + left. exists k. split; [|done]. destruct (row_kind x); [apply remember_elem; by left|done].
      + left. exists k. split; [|done]. rewrite Hk. apply remember_elem. by right.
      + by right. }
  specialize (H [] (or_intror Hs)). destruct (fold_left step l []); [by apply elem_of_nil in H|done].
Qed.

(** The row's child holds the bound. *)
Lemma child_sent minimum s k : row_kind s = Some k → child_cell minimum k s = sent s (if minimum then st_min s else st_max s).
Proof using Type.
  intros Hk. unfold child_cell, value_of, sent. rewrite (bool_decide_true (row_kind s = Some k)) by done. cbn [negb].
  destruct (if minimum then st_min s else st_max s) as [v|]; [|done]. rewrite Hk.
  destruct (decide (kind v = k)) as [->|Hn]; [by rewrite !bool_decide_true|].
  rewrite (bool_decide_false (kind v = k)) by done. rewrite bool_decide_false; [done|]. congruence.
Qed.

Lemma build_union_sent l minimum a :
  build_union l minimum (kinds_seen l) = Ok a →
  a_values a = map (λ s, sent s (if minimum then st_min s else st_max s)) l.
Proof using Type*.
  unfold build_union. destruct (sparse_union _ _ _ _) as [|a'] eqn:Hu; [done|]. intros [= ->].
  apply sparse_union_rows in Hu; [|by rewrite length_map]. rewrite Hu. cbn [a_values]. rewrite imap_fmap.
  apply list_eq. intros i. rewrite list_lookup_imap, list_lookup_fmap. destruct (l !! i) as [s|] eqn:Hs; [|done].
  cbn [fmap option_fmap option_map]. f_equal. unfold compose, picked.
  assert (∀ k j, kinds_seen l !! j = Some k →
    (map (build_child l minimum) (kinds_seen l) !! j ≫= λ c, a_values c !! i) = Some (child_cell minimum k s)) as Hchild.
  { intros k j Hj. rewrite list_lookup_fmap, Hj. cbn. by rewrite list_lookup_fmap, Hs. }
  unfold type_id. destruct (row_kind s) as [k|] eqn:Hk.
  - destruct (find_kind k (kinds_seen l)) as [j|] eqn:Hj.
    + rewrite Nat2Z.id, (Hchild k j) by (by apply find_kind_Some). cbn. by apply child_sent.
    + apply find_kind_None in Hj. destruct Hj. apply (kinds_seen_elem l s); [by apply list_elem_of_lookup_2 in Hs|done].
  - destruct (kinds_seen l) as [|k order] eqn:Ho.
    { unfold kinds_seen in Ho. by destruct (fold_left _ _ _). }
    change (Z.to_nat 0) with 0%nat. rewrite (Hchild k 0%nat) by done. cbn. unfold child_cell, value_of. rewrite bool_decide_false by congruence. cbn.
    unfold row_kind in Hk. unfold sent. destruct minimum; [by destruct (st_min s)|].
    destruct (st_min s); [done|]. by destruct (st_max s).
Qed.

Lemma sent_min s : sent s (st_min s) = match st_min s with Some v => stat_cell v | None => V_null end.
Proof using Type. unfold sent, row_kind. destruct (st_min s); [|done]. by rewrite bool_decide_true. Qed.

(** Bounds are not made up.  What is sent of a table's statistics reads back as a
    row for each column, in order, whose two bounds are of one type; the lower bound
    is the declared one; the upper bound is the declared one, or nothing where the
    lower bound is of another kind; and a bound that was not declared is nothing. *)
Theorem bounds_sent l b :
  l ≠ [] → serialize_column_statistics l = Ok b →
  ∃ row minimums maximums, decode_ipc b = Ok (Some row) ∧ b_rows row = Z.of_nat (length l) ∧
    b_columns row !! 0%nat = Some (mkArray T_string (map (λ s, V_text (st_column_name s)) l)) ∧
    b_columns row !! 1%nat = Some minimums ∧ b_columns row !! 2%nat = Some maximums ∧ a_type minimums = a_type maximums ∧
    ∀ i s, l !! i = Some s →
      a_values minimums !! i = Some (match st_min s with Some v => stat_cell v | None => V_null end) ∧
      a_values maximums !! i = Some (match st_max s, st_min s with
                                     | Some v, Some w => if bool_decide (kind v = kind w) then stat_cell v else V_null
                                     | Some v, None => stat_cell v
                                     | None, _ => V_null
                                     end).
Proof using Type*.
  intros Hne H. unfold serialize_column_statistics in H. destruct l as [|s0 l0] eqn:Hl; [done|]. rewrite <- Hl in *. clear Hl.
  apply bind_Ok in H as (minimums & Hmin & H). apply bind_Ok in H as (maximums & Hmax & H).
  apply encode_ipc_read in H as (_ & _ & _ & H). exists (statistics_batch l minimums maximums), minimums, maximums.
  split_and!; [done..| |].
  - unfold build_union in Hmin, Hmax. destruct (sparse_union _ _ _ _) as [|a] eqn:Ha in Hmin; [done|].
    destruct (sparse_union _ _ _ _) as [|a'] eqn:Ha' in Hmax; [done|]. injection Hmin as <-. injection Hmax as <-.
    eapply sparse_union_type; [exact Ha|exact Ha'|]. by rewrite !map_map.
  - apply build_union_sent in Hmin, Hmax. intros i s Hs. rewrite Hmin, Hmax, !list_lookup_fmap, Hs. cbn.
    rewrite sent_min. split; [done|]. f_equal. unfold sent, row_kind.
    destruct (st_max s) as [v|]; [|done]. destruct (st_min s) as [w|]; cbn.
    + destruct (decide (kind v = kind w)) as [->|Hn]; [by rewrite !bool_decide_true|].
      rewrite !bool_decide_false; congruence.
    + by rewrite bool_decide_true.
Qed.
End bounds.

(** ** Partition values are the extremes of the batch *)

Section extremes.
Context `{A : Arrow} `{B : Base64} `{X : Extremes} `{!ArrowLaws A} `{!Base64Laws B} `{!ExtremesLaws X}.

Lemma bounds_of_Ok f column both :
  bounds_of f column = Ok both → ∃ least greatest rest, min_max column = inr (least :: greatest :: rest) ∧
    both = mkArray (a_type column) [least; greatest].
Proof using Type*.
  unfold bounds_of. destruct (min_max column) as [|[|v [|w rest]]]; try done.
  destruct (append_scalars _ _) as [|a] eqn:Ha; [done|]. intros [= <-]. apply append_scalars_spec in Ha as ->. by exists v, w, rest.
Qed.

(** The partition columns of a batch, with the extremes of each. *)
Definition partitioned (b : batch) (fields : list field) : list (string * array) :=
  omap (λ f, if is_partition_field f then
               column ← column_by_name b (f_name f);
               if bool_decide (a_values column = []) then None else Some (f_name f, column)
             else None) fields.

Definition extremes_of (e : string * array) (x : field * array) : Prop :=
  ∃ least greatest rest, min_max e.2 = inr (least :: greatest :: rest) ∧
    x = (Field e.1 (a_type e.2) true [], mkArray (a_type e.2) [least; greatest]).

Lemma partition_columns_Ok b fields found :
  partition_columns b fields = Ok found → Forall2 extremes_of (partitioned b fields) found.
Proof using Type*.
  revert found. induction fields as [|f fields IH]; intros found; cbn [partition_columns partitioned omap list_omap].
  { intros [= <-]. constructor. }
  destruct (is_partition_field f); [|by apply IH]. destruct (column_by_name b (f_name f)) as [column|]; cbn; [|by apply IH].
  case_bool_decide as Hl.
  { rewrite bool_decide_true by (by apply length_zero_iff_nil). by apply IH. }
  rewrite bool_decide_false by (intros E; apply Hl; by rewrite E). intros (both & Hb & (rest & Hr & [= <-])%bind_Ok)%bind_Ok.
  constructor; [|by apply IH]. apply bounds_of_Ok in Hb as (v & w & l & Hm & ->). by exists v, w, l.
Qed.

(** Partition values cover the batch.  The metadata of a batch is one record of two
    rows that names every partition column the batch has rows of, in the order of the
    schema, with the extremes of the column in that batch -- so that a value of an
    integer partition column lies between them -- and there is no metadata exactly
    when the batch has none of them. *)
Theorem partition_values_cover fields b md :
  partition_metadata (Some fields) (Some b) = Ok md → b_rows b ≠ 0 →
  match partitioned b fields with
  | [] => md = []
  | columns => ∃ text bytes row, md = [(kPartitionValuesKey, text)] ∧ base64_decode text = Some bytes ∧ decode_ipc bytes = Ok (Some row) ∧
      b_rows row = 2 ∧ Forall2 extremes_of columns (zip (b_schema row) (b_columns row)) ∧
      ∀ name column v w, (name, column) ∈ columns → min_max column = inr [V_int v; V_int w] →
        ∀ z, V_int z ∈ a_values column → v ≤ z ≤ w
  end.
Proof using Type*.
  intros H Hrows. unfold partition_metadata in H. rewrite (proj2 (Z.eqb_neq _ _) Hrows) in H.
  apply bind_Ok in H as (found & Hf%partition_columns_Ok & H). destruct found as [|x rest] eqn:Hx.
  { apply Forall2_nil_inv_r in Hf as ->. by injection H as <-. }
  assert (found ≠ []) as Hn by (by rewrite Hx). rewrite <- Hx in *. clear Hx. destruct (partitioned b fields) as [|e columns] eqn:He.
  { by apply Forall2_nil_inv_l in Hf. }
  rewrite <- He in *. apply bind_Ok in H as (encoded & Hb & [= <-]). apply encode_ipc_read in Hb as (_ & _ & _ & Hd).
  eexists _, encoded, _. split_and!; [done|by rewrite base64_decode_encode|done|done| |].
  - cbn. by rewrite zip_fst_snd.
  - intros name column v w _ Hm. by apply min_max_ints.
Qed.
End extremes.

(** ** At work *)

Definition picked_union : SparseUnion := λ ids children names codes, inr (mkArray T_sparse_union (imap (picked children) (a_values ids))).
Lemma picked_union_laws : SparseUnionLaws picked_union.
Proof. split; [by intros ids children names codes a [= <-]|]. by intros ids ids' ch ch' names codes a a' [= <-] [= <-]. Qed.

(** The extremes of integers. *)
Definition int_extremes : Extremes := {|
  min_max a := match ints_of (a_values a) with
               | [] => inr [V_null; V_null]
               | z :: l => inr [V_int (fold_right Z.min z l); V_int (fold_right Z.max z l)]
               end;
  append_scalars t l := inr (mkArray t l);
|}.
Lemma elem_ints_of l z : z ∈ ints_of l ↔ V_int z ∈ l.
Proof.
  unfold ints_of. rewrite list_elem_of_omap. split; [|by intros H; exists (V_int z)].
  intros ([] & H & E); try done. by injection E as ->.
Qed.
Lemma extremes_of_ints z l :
  (∀ y, y ∈ z :: l → fold_right Z.min z l ≤ y ≤ fold_right Z.max z l) ∧
  fold_right Z.min z l ∈ z :: l ∧ fold_right Z.max z l ∈ z :: l.
Proof.
  induction l as [|x l (IH & Hmin & Hmax)]; cbn [fold_right].
  { split_and!; [|by left|by left]. intros y [->|Hn]%elem_of_cons; [lia|by apply elem_of_nil in Hn]. }
  assert (∀ y, y ∈ z :: l → y ∈ z :: x :: l) as Hin by (intros y [->|?]%elem_of_cons; [left|right; by right]).
  split_and!.
  - intros y [->|[->|Hy]%elem_of_cons]%elem_of_cons; [|lia|].
    + specialize (IH z ltac:(left)). lia.
    + specialize (IH y ltac:(by right)). lia.
  - destruct (Z.min_spec x (fold_right Z.min z l)) as [[_ ->]|[_ ->]]; [right; left|by apply Hin].
  - destruct (Z.max_spec x (fold_right Z.max z l)) as [[_ ->]|[_ ->]]; [by apply Hin|right; left].
Qed.
Lemma int_extremes_laws : ExtremesLaws int_extremes.
Proof.
  split; [by intros t l a [= <-]|]. intros a v w. cbn. destruct (ints_of (a_values a)) as [|z l] eqn:Hl; [done|]. intros [= <- <-].
  destruct (extremes_of_ints z l) as (H1 & H2 & H3). rewrite <- Hl in *. rewrite <- !elem_ints_of. split_and!; [|done..].
  intros y Hy. apply H1. by apply elem_ints_of.
Qed.

(** Two columns: one with bounds of two kinds, one without. *)
Definition two_columns : list ColumnStatistics :=
  [mkStatistics (bs "a") (Some (integer 3)) (Some (text (bs "z"))) true true (Some 7) None None;
   mkStatistics (bs "b") None (Some (text (bs "q"))) false true None (Some false) (Some 1)].
Definition two_columns_row : batch :=
  let ids := mkArray T_int8 (map (λ s, V_int (type_id (kinds_seen two_columns) s)) two_columns) in
  let union minimum := mkArray T_sparse_union (imap (picked (map (build_child two_columns minimum) (kinds_seen two_columns))) (a_values ids)) in
  statistics_batch two_columns (union true) (union false).

Lemma bounds_sent_witness :
  serialize_column_statistics (A := table_arrow [two_columns_row]) (L := list_codec [two_columns_row] []) (U := picked_union) two_columns =
    Ok (zb 3 :: enc_len 0) ∧
  a_values (default (mkArray T_null []) (b_columns two_columns_row !! 2%nat)) = [V_null; V_text (bs "q")].
Proof.
  pose proof (table_arrow_laws [two_columns_row]) as HA. pose proof picked_union_laws as HU.
  assert (serialize_column_statistics (A := table_arrow [two_columns_row]) (L := list_codec [two_columns_row] []) (U := picked_union) two_columns =
    Ok (zb 3 :: enc_len 0)) as H by (vm_compute; reflexivity).
  split; [exact H|].
  assert (two_columns ≠ []) as Hne by discriminate.
  destruct (bounds_sent (A := table_arrow [two_columns_row]) two_columns _ Hne H) as (row & mins & maxs & Hd & _ & _ & _ & Hmax & _ & Hv).
  assert (decode_ipc (H := table_arrow [two_columns_row]) (zb 3 :: enc_len 0) = Ok (Some two_columns_row)) as Hd' by (vm_compute; reflexivity).
  rewrite Hd' in Hd. injection Hd as <-. rewrite Hmax. cbn [default from_option id].
  apply list_eq. intros [|[|i]].
  - destruct (Hv 0%nat _ eq_refl) as [_ ->]. reflexivity.
  - destruct (Hv 1%nat _ eq_refl) as [_ ->]. reflexivity.
  - assert (a_values maxs = a_values (default (mkArray T_null []) (b_columns two_columns_row !! 2%nat))) as -> by (by rewrite Hmax).
    by destruct i.
Defined.

(** A batch with one partition column. *)
Definition days : list field := [partition_field "day" T_int64; Field "n" T_int64 true []].
Definition day_batch : batch := mkBatch [Field "day" T_int64 true []; Field "n" T_int64 true []] None 3
  [mkArray T_int64 [V_int 9; V_null; V_int 4]; mkArray T_int64 [V_int 1; V_int 2; V_int 3]].
Definition day_values : batch := mkBatch [Field "day" T_int64 true []] None 2 [mkArray T_int64 [V_int 4; V_int 9]].

Lemma partition_values_cover_witness :
  let A := table_arrow [day_values] in
  partition_metadata (A := A) (B := hex_base64) (X := int_extremes) (Some days) (Some day_batch) =
    Ok [(kPartitionValuesKey, base64_encode (Base64 := hex_base64) (zb 3 :: enc_len 0))] ∧
  Forall2 (extremes_of (X := int_extremes)) [("day"%string, mkArray T_int64 [V_int 9; V_null; V_int 4])] (zip (b_schema day_values) (b_columns day_values)).
Proof.
  intros A. pose proof (table_arrow_laws [day_values]) as HA. pose proof hex_base64_laws as HB. pose proof int_extremes_laws as HX.
  assert (partition_metadata (A := A) (B := hex_base64) (X := int_extremes) (Some days) (Some day_batch) =
    Ok [(kPartitionValuesKey, base64_encode (Base64 := hex_base64) (zb 3 :: enc_len 0))]) as H by (vm_compute; reflexivity).
  split; [exact H|].
  assert (b_rows day_batch ≠ 0) as Hne by discriminate.
  pose proof (partition_values_cover (A := A) (B := hex_base64) (X := int_extremes) days day_batch _ H Hne) as Hc.
  assert (partitioned (A := A) day_batch days = [("day"%string, mkArray T_int64 [V_int 9; V_null; V_int 4])]) as Hp by (vm_compute; reflexivity).
  rewrite Hp in Hc. destruct Hc as (text & bytes & row & E & Ht & Hd & _ & Hf & _). injection E as <-.
  assert (Some bytes = Some (zb 3 :: enc_len 0)) as E' by (rewrite <- Ht; vm_compute; reflexivity). injection E' as ->.
  assert (decode_ipc (H := A) (zb 3 :: enc_len 0) = Ok (Some day_values)) as Hd' by (vm_compute; reflexivity).
  rewrite Hd' in Hd. injection Hd as <-. exact Hf.
Defined.

End Statistics.
