(* ===== verification/Tables.v ===== *)
(** * Declared tables and views ([src/catalog.cpp], [include/vgi/catalog.h])

    What a worker declares of its tables and views, and the rows of information it
    answers of them.  The theorems: the required filters of a table are served as they
    are declared, and only if every path leads through structs to one column; the row
    of a table reads back with its name, its records and its columns, which may hold
    NULL exactly where the records allow it; a column's legacy expression is served as
    the canonical one of the same text. *)

From S2P Require Import Prelude Text Arrow ArrowRecord Wire Protocol Metadata Json WireSchema SqlScalar SqlGenerated Constraints Columns ConstraintsServed Dispatch MemoryCatalog Versions Statistics ConstraintsSpec Plan.
Import Wire Protocol Metadata Json WireSchema Constraints Columns Dispatch Versions Statistics.

Module Tables.

(** ** What is declared *)

Abbreviation required_groups := (list (list (list bytes))).

Record CatalogBranch := mkBranch {
  br_function_name : bytes;
  br_scan_arguments : bytes;
  br_branch_filter : option bytes;
  br_writable : bool;
  br_source_catalog : option bytes;
  br_source_schema_path : option (list bytes);
  br_source_table : option bytes;
  br_format_name : option bytes;
  br_format_locations : option (list bytes);
  br_format_options : option bytes;
  br_schema_path : option (list bytes);
}.

Record TimeTravelVersion := mkVersion {
  tv_version : Z;
  tv_columns : option schema;
  tv_scan_function : bytes;
  tv_scan_arguments : bytes;
  tv_timestamp_year : option Z;
  tv_constraints : option (list bytes);
  tv_definition_revision : option bytes;
}.
#[global] Instance travel_versioned : Versioned TimeTravelVersion := {| version_of := tv_version; year_of := tv_timestamp_year |}.

Record ForeignKey := mkForeignKey {
  fk_columns : list bytes;
  fk_referenced_table : bytes;
  fk_referenced_columns : list bytes;
  fk_referenced_schema_path : option (list bytes);
}.

Record CatalogTable := mkTable {
  ct_constraints : list bytes;
  ct_definition_revision : option bytes;
  ct_name : bytes;
  ct_columns : option schema;
  ct_scan_function : bytes;
  ct_scan_arguments : bytes;
  ct_comment : option bytes;
  ct_cardinality : option Z;
  ct_tags : list (bytes * bytes);
  ct_time_travel : list TimeTravelVersion;
  ct_required_filters : required_groups;
  ct_branches : option (list CatalogBranch);
  ct_required_extensions : list bytes;
  ct_not_null : list Z;
  ct_unique : list (list Z);
  ct_primary_key : list (list Z);
  ct_check : list bytes;
  ct_foreign_keys : list ForeignKey;
  ct_column_statistics : list ColumnStatistics;
  ct_supports_time_travel : bool;
  ct_inline_scan : bool;
}.

Record CatalogView := mkView {
  vw_name : bytes;
  vw_definition : bytes;
  vw_comment : option bytes;
  vw_tags : list (bytes * bytes);
  vw_column_comments : list (bytes * bytes);
  vw_aliases : list bytes;
  vw_security : bytes;
}.

Definition ScanFunctionResultSchema : list field :=
  [fld "function_name" T_string false; fld "arguments" T_binary false;
   fld "required_extensions" (list_of T_string) false; fld "schema_path" (list_of T_string) true].

(** A [catch] of [std::invalid_argument] that throws another in its place. *)
Definition rephrased {T} (say : string → string) (r : result T) : result T :=
  match r with Throw (Invalid_argument m) => Throw (Invalid_argument (say m)) | r => r end.

(** ** Legacy generated columns *)

Definition legacy_key : string := "generated_expression".

Definition ambiguous_legacy : string :=
  "legacy generated_expression beside canonical generated or default metadata is " +:+
  "ambiguous; keep only vgi.column.generated.v1 (vgi::generated_expression_metadata())".

(** ** Required filters *)

Definition refuse_filter {T} (shown : bytes) (what : string) : result T :=
  Throw (Invalid_argument ("required_filters: path " +:+ str shown +:+ what)).

(** The one field of a name. *)
Fixpoint find_member (level : list field) (component shown : bytes) (resolved : option field) : result (option field) :=
  match level with
  | [] => Ok resolved
  | f :: level =>
      if negb (bool_decide (bs (f_name f) = component)) then find_member level component shown resolved
      else match resolved with
           | Some _ => refuse_filter shown " is ambiguous"
           | None => find_member level component shown (Some f)
           end
  end.

(** The members of a struct that is no extension type. *)
Definition members (f : field) : option (list field) :=
  if metadata_has (f_metadata f) "ARROW:extension:name" then None
  else match f_type f with T_struct fs => Some fs | _ => None end.

(** A path followed from the columns down; [shown] is what was followed so far. *)
Fixpoint resolve_path (level : list field) (shown : option bytes) (components : list bytes) : result bytes :=
  match components with
  | [] => Ok (default [] shown)
  | component :: rest =>
      let shown := match shown with Some s => s ++ zb 46 :: component | None => component end in
      if bool_decide (component = []) || has_nul component then refuse_filter shown " has an empty or NUL-bearing component"
      else
        o ← find_member level component shown None;
        match o with
        | None => refuse_filter shown " is not a column"
        | Some f =>
            match rest with
            | [] => Ok shown
            | _ =>
                match members f with
                | Some fs => resolve_path fs (Some shown) rest
                | None => refuse_filter shown " is not a STRUCT and has no members"
                end
            end
        end
  end.

Fixpoint check_group (level : list field) (group paths : list (list bytes)) : result (list (list bytes)) :=
  match group with
  | [] => Ok paths
  | components :: group =>
      throw_if (bool_decide (components = [])) (Invalid_argument "required_filters: a path is empty");;
      shown ← resolve_path level None components;
      if bool_decide (components ∈ paths) then refuse_filter shown " appears twice in one group"
      else check_group level group (paths ++ [components])
  end.

Definition required_filter_paths (groups : required_groups) (columns : option (list field)) : result required_groups :=
  mapM (λ group, throw_if (bool_decide (group = [])) (Invalid_argument "required_filters: a group is empty");;
                 check_group (default [] columns) group []) groups.

(** ** The row of a table *)

Section encode.
Context `{A : Arrow} `{R : ArrowRecord} `{L : SchemaCodec} `{B : Base64} `{J : JsonParser}.

Definition translate_field (owner : list bytes) (f : field) : result field :=
  let metadata := f_metadata f in
  let where_ (m : string) := "column '" +:+ f_name f +:+ "': " +:+ m in
  match metadata_get metadata legacy_key with
  | None => Ok f
  | Some sql =>
      throw_if (metadata_has metadata GENERATED_COLUMN_KEY || metadata_has metadata GENERATION_COLUMN_KEY ||
                metadata_has metadata "default" || metadata_has metadata "vgi.column.default.v1")
        (Invalid_argument (where_ ambiguous_legacy));;
      encoded ← rephrased (λ m, where_ ("legacy generated_expression: " +:+ m)) (generated_expression_metadata (bs sql) owner);
      Ok (Field (f_name f) (f_type f) (f_nullable f)
            (filter (λ e, e.1 ≠ legacy_key) metadata ++
             [(GENERATED_COLUMN_KEY, encoded); (GENERATION_COLUMN_KEY, "virtual"%string)]))
  end.

Definition translate_legacy_generated (s : option schema) (owner : list bytes) : result (option schema) :=
  match s with
  | None => Ok None
  | Some (fields, metadata) => fields ← mapM (translate_field owner) fields; Ok (Some (fields, metadata))
  end.

(** What a version states, or else what its table does. *)
Definition records_of (table : CatalogTable) (version : option TimeTravelVersion) : list bytes :=
  match version ≫= tv_constraints with Some l => l | None => ct_constraints table end.
Definition revision_of (table : CatalogTable) (version : option TimeTravelVersion) : option bytes :=
  match version with
  | Some v => if bool_decide (is_Some (tv_constraints v)) || bool_decide (is_Some (tv_definition_revision v))
              then tv_definition_revision v else ct_definition_revision table
  | None => ct_definition_revision table
  end.
Definition columns_of (table : CatalogTable) (version : option TimeTravelVersion) : option schema :=
  match version with Some v => tv_columns v | None => ct_columns table end.
Definition scan_function_of (table : CatalogTable) (version : option TimeTravelVersion) : bytes :=
  match version with Some v => tv_scan_function v | None => ct_scan_function table end.
Definition scan_arguments_of (table : CatalogTable) (version : option TimeTravelVersion) : bytes :=
  match version with Some v => tv_scan_arguments v | None => ct_scan_arguments table end.

Definition version_scope (version : option TimeTravelVersion) : string :=
  match version with Some v => " (time-travel version " +:+ str (to_string (tv_version v)) +:+ ")" | None => "" end.

(** The record of a scan. *)
Definition scan_record (table : CatalogTable) (path : list bytes) (version : option TimeTravelVersion) : result batch :=
  build ScanFunctionResultSchema None
    [("function_name", Cell_string (scan_function_of table version)); ("arguments", Cell_binary (scan_arguments_of table version));
     ("required_extensions", Cell_string_list []); ("schema_path", Cell_string_list path)]%string.

(** The columns as they are served, and the filters, checked. *)
Definition served_shape (table : CatalogTable) (path : list bytes) (version : option TimeTravelVersion) : result (option schema * required_groups) :=
  let constraints := records_of table version in
  shape ← translate_legacy_generated (columns_of table version) path;
  shape ← (match shape with
           | Some (columns, metadata) =>
               validate_column_metadata columns;;
               validate_column_expressions columns path true;;
               rephrased (λ m, m +:+ version_scope version) (validate_constraint_records path (ct_name table) columns constraints);;
               served ← served_columns columns constraints;
               sql ← generated_column_sql served;
               SqlScalar.validate_generated_columns served sql;;
               Ok (Some (served, metadata))
           | None => throw_if (negb (bool_decide (constraints = []))) (Invalid_argument "constraint records need declared columns");; Ok None
           end : result (option schema));
  filters ← required_filter_paths (ct_required_filters table) (option_map fst shape);
  Ok (shape, filters).

Definition legacy_constraints (table : CatalogTable) : bool :=
  negb (bool_decide (ct_not_null table = []) && bool_decide (ct_unique table = []) && bool_decide (ct_primary_key table = []) &&
        bool_decide (ct_check table = []) && match ct_foreign_keys table with [] => true | _ => false end).

Definition null_or {T} (f : T → cell) (o : option T) : cell := match o with Some x => f x | None => Cell_null end.

Definition table_cells (table : CatalogTable) (path : list bytes) (version : option TimeTravelVersion) (encoded scan : bytes)
    (filters : required_groups) : list (string * cell) :=
  [("name", Cell_string (ct_name table)); ("schema_path", Cell_string_list path); ("columns", Cell_binary encoded);
   ("scan_function", Cell_binary scan); ("write_result_modes", Cell_string_map []);
   ("constraints", Cell_binary_list (records_of table version));
   ("supports_column_statistics", Cell_bool (match ct_column_statistics table with [] => false | _ => true end));
   ("tags", Cell_string_map (ct_tags table)); ("required_filters", Cell_string_list_list_list filters);
   ("definition_revision", null_or Cell_binary (revision_of table version));
   ("cardinality_estimate", null_or Cell_int64 (ct_cardinality table)); ("cardinality_max", null_or Cell_int64 (ct_cardinality table));
   ("comment", null_or Cell_string (ct_comment table))]%string.

Definition encode_table_info (table : CatalogTable) (path : list bytes) (version : option TimeTravelVersion) : result bytes :=
  let prefix := "Table '" +:+ str (schema_path_string path) +:+ "." +:+ str (ct_name table) +:+ "'" +:+ version_scope version +:+ ": " in
  throw_if (legacy_constraints table)
    (Invalid_argument (prefix +:+ "not_null/unique/primary_key/check/foreign_keys are not sent under vgi.v3; " +:+
       "declare canonical records with vgi::constraint_record() in CatalogTable::constraints instead"));;
  throw_if (bool_decide (revision_of table version = Some []))
    (Invalid_argument (prefix +:+ "definition_revision must be nonempty when present"));;
  throw_if (match revision_of table version with Some r => 65536 <? Z.of_nat (length r) | None => false end)
    (Invalid_argument (prefix +:+ "definition_revision exceeds 64 KiB"));;
  scan ← scan_record table path version;
  '(shape, filters) ← rephrased (λ m, if String.prefix "Table '" m then m else prefix +:+ m) (served_shape table path version);
  shape ← from_opt (Undefined_behaviour "a null schema") shape;
  encoded ← encode_schema shape;
  inlined ← (if ct_inline_scan table then encode_ipc scan else Ok []);
  b ← build_filled MemoryCatalog.TableInfoSchema None (table_cells table path version encoded inlined filters);
  encode_ipc b.

Definition encode_view_info (view : CatalogView) (path : list bytes) : result bytes :=
  throw_if (negb (bool_decide (vw_security view = bs "regular")))
    (Invalid_argument ("View '" +:+ str (schema_path_string path) +:+ "." +:+ str (vw_name view) +:+ "': security '" +:+
       str (vw_security view) +:+ "' is unsupported; DuckDB reads only " +:+ quoted (bs "regular") +:+ " views"));;
  b ← build_filled MemoryCatalog.ViewInfoSchema None
        [("name", Cell_string (vw_name view)); ("schema_path", Cell_string_list path); ("definition", Cell_string (vw_definition view));
         ("aliases", Cell_string_list (vw_aliases view)); ("security", Cell_string (vw_security view));
         ("tags", Cell_string_map (vw_tags view)); ("column_comments", Cell_string_map (vw_column_comments view));
         ("comment", null_or Cell_string (vw_comment view))]%string;
  encode_ipc b.
End encode.

(** ** Required filters are served as they are declared *)

Definition fine_component (c : bytes) : Prop := c ≠ [] ∧ has_nul c = false.
Definition only_field (level : list field) (c : bytes) (f : field) : Prop := filter (λ g, bs (f_name g) = c) level = [f].

(** A path that leads to one column or member, through structs. *)
Inductive resolves : list field → list bytes → Prop :=
| resolves_last level c f : fine_component c → only_field level c f → resolves level [c]
| resolves_down level c f fs path :
    fine_component c → only_field level c f → members f = Some fs → resolves fs path → resolves level (c :: path).

Lemma find_member_spec level c shown o :
  match default [] (option_map (λ f, [f]) o) ++ filter (λ g, bs (f_name g) = c) level with
  | [] => find_member level c shown o = Ok None
  | [f] => find_member level c shown o = Ok (Some f)
  | _ => ∃ m, find_member level c shown o = Throw (Invalid_argument m)
  end.
Proof.
  revert o. induction level as [|g level IH]; intros o; cbn [find_member].
  { by destruct o. }
  rewrite filter_cons. case_bool_decide as Hg; cbn [negb].
  - rewrite (decide_True _ _ Hg). destruct o as [f|]; [|apply (IH (Some g))]. cbn. by eexists.
  - rewrite (decide_False _ _ Hg). apply IH.
Qed.

Lemma resolve_path_Ok level shown path s : path ≠ [] → resolve_path level shown path = Ok s → resolves level path.
Proof.
  revert level shown. induction path as [|c path IH]; intros level shown Hne; [done|]. cbn [resolve_path]. clear Hne.
  destruct (bool_decide (c = []) || has_nul c) eqn:Hc; [done|]. apply orb_false_iff in Hc as [Hc1%bool_decide_eq_false Hc2].
  set (t := match shown with Some s => _ | None => _ end).
  pose proof (find_member_spec level c t None) as Hf. cbn [option_map default from_option app] in Hf.
  destruct (filter _ level) as [|f [|g l]] eqn:Hfil; [by rewrite Hf| |by destruct Hf as [m ->]].
  rewrite Hf. cbn [mbind result_bind]. destruct path as [|d path]; [intros _; by econstructor|].
  destruct (members f) as [fs|] eqn:Hm; [|done]. intros H. econstructor; [done|exact Hfil|exact Hm|]. by eapply IH.
Qed.

Lemma resolves_Ok level shown path : resolves level path → ∃ s, resolve_path level shown path = Ok s.
Proof.
  intros H. revert shown. induction H as [level c f [Hc1 Hc2] Hf|level c f fs path [Hc1 Hc2] Hf Hm H IH]; intros shown; cbn [resolve_path];
    rewrite (bool_decide_false _ Hc1), Hc2; cbn [orb]; set (t := match shown with Some s => _ | None => _ end);
    pose proof (find_member_spec level c t None) as Hs; cbn [option_map default from_option app] in Hs; rewrite Hf in Hs; rewrite Hs;
    cbn [mbind result_bind]; [by eexists|].
  rewrite Hm. destruct path as [|d path]; [by inversion H|apply IH].
Qed.

Lemma resolves_cons level path : resolves level path → path ≠ [].
Proof. by destruct 1. Qed.

Lemma check_group_Ok level group paths out :
  check_group level group paths = Ok out ↔
  out = paths ++ group ∧ Forall (resolves level) group ∧ NoDup group ∧ ∀ p, p ∈ group → p ∉ paths.
Proof.
  revert paths. induction group as [|p group IH]; intros paths; cbn [check_group].
  { rewrite app_nil_r. split; [intros [= <-]|by intros [-> _]]. split_and!; [done|constructor|constructor|]. by intros p ?%elem_of_nil. }
  rewrite bind_throw_if_Ok, bool_decide_eq_false. split.
  - intros (Hp & (s & Hs & H)%bind_Ok). case_bool_decide as Hin; [done|]. apply IH in H as (-> & H1 & H2 & H3).
    rewrite <- app_assoc. split_and!; [done|constructor; [by eapply resolve_path_Ok|done]| |].
    + constructor; [|done]. intros Hpg. apply (H3 p Hpg), elem_of_app. right. by left.
    + intros q [->|Hq]%elem_of_cons; [done|]. intros Hqp. apply (H3 q Hq), elem_of_app. by left.
  - intros (-> & [H1 H2]%Forall_cons & [H3 H4]%NoDup_cons & H5). split; [by eapply resolves_cons|].
    destruct (resolves_Ok level None p H1) as [s Hs]. rewrite Hs. cbn [mbind result_bind].
    rewrite bool_decide_false by (apply H5; by left). apply IH. rewrite <- app_assoc. split_and!; [done..|].
    intros q Hq [Hqp|Hqp%list_elem_of_singleton]%elem_of_app; [by apply (H5 q); [right|]|]. by subst.
Qed.

(** The filters that are served: the groups as they are, each of distinct paths that lead to a column. *)
Definition served_group (columns : option (list field)) (group : list (list bytes)) : Prop :=
  group ≠ [] ∧ NoDup group ∧ Forall (resolves (default [] columns)) group.

Lemma required_filter_paths_Ok groups columns out :
  required_filter_paths groups columns = Ok out ↔ out = groups ∧ Forall (served_group columns) groups.
Proof.
  unfold required_filter_paths. revert out. induction groups as [|g groups IH]; intros out; cbn [mapM].
  { split; [intros [= <-]; by split|]. by intros [-> _]. }
  split.
  - intros (x & Hx & (rest & Hrest & [= <-])%bind_Ok)%bind_Ok. apply IH in Hrest as [-> Hall].
    apply bind_throw_if_Ok in Hx as [Hne%bool_decide_eq_false (-> & H1 & H2 & _)%check_group_Ok]. split; [done|]. by constructor.
  - intros (-> & [(Hne & Hnd & Hr) Hall]%Forall_cons). rewrite (bool_decide_false _ Hne). cbn [throw_if mbind result_bind].
    assert (check_group (default [] columns) g [] = Ok g) as ->.
    { apply check_group_Ok. split_and!; [done..|]. intros p _. apply not_elem_of_nil. }
    cbn [mbind result_bind]. by rewrite (proj2 (IH groups) (conj eq_refl Hall)).
Qed.

Lemma resolve_path_refuses level shown path e : resolve_path level shown path = Throw e → ∃ m, e = Invalid_argument m.
Proof.
  revert level shown. induction path as [|c path IH]; intros level shown; cbn [resolve_path]; [done|].
  destruct (_ || _); [by intros [= <-]; eexists|]. set (t := match shown with Some s => _ | None => _ end).
  pose proof (find_member_spec level c t None) as Hf. cbn [option_map default from_option app] in Hf.
  destruct (filter _ level) as [|f [|g l]].
  - rewrite Hf. intros [= <-]. by eexists.
  - rewrite Hf. cbn [mbind result_bind]. destruct path as [|d path]; [done|]. destruct (members f); [apply IH|]. intros [= <-]. by eexists.
  - destruct Hf as [m ->]. intros [= <-]. by eexists.
Qed.

Lemma check_group_refuses level group paths e : check_group level group paths = Throw e → ∃ m, e = Invalid_argument m.
Proof.
  revert paths. induction group as [|p group IH]; intros paths; cbn [check_group]; [done|].
  destruct (bool_decide (p = [])); [by intros [= <-]; eexists|]. cbn [throw_if mbind result_bind].
  destruct (resolve_path _ _ _) as [s|e'] eqn:Hs; cbn [mbind result_bind].
  - case_bool_decide; [by intros [= <-]; eexists|apply IH].
  - intros [= <-]. by eapply resolve_path_refuses.
Qed.

(** Required filters are served as they are declared, or refused.  The groups of
    filters a table declares are answered unchanged exactly when each group has paths,
    no path twice, and each path leads, through structs that are no extension types,
    to one column or member of that spelling at every step; anything else is refused
    as an invalid argument. *)
Theorem required_filters_exact groups columns :
  (∀ out, required_filter_paths groups columns = Ok out ↔ out = groups ∧ Forall (served_group columns) groups) ∧
  (∀ e, required_filter_paths groups columns = Throw e → (∃ m, e = Invalid_argument m) ∧ ¬ Forall (served_group columns) groups).
Proof.
  split; [intros; apply required_filter_paths_Ok|]. intros e He. split.
  - revert He. unfold required_filter_paths. induction groups as [|g groups IH]; [done|]. cbn [mapM].
    destruct (bool_decide (g = [])); [by intros [= <-]; eexists|]. cbn [throw_if mbind result_bind].
    destruct (check_group _ g []) eqn:Hg; [|intros [= <-]; by eapply check_group_refuses]. cbn [mbind result_bind].
    destruct (mapM _ groups); [done|]. intros [= <-]. by apply IH.
  - intros Hall. assert (required_filter_paths groups columns = Ok groups) as H by (by apply required_filter_paths_Ok). by rewrite H in He.
Qed.

(** ** Fields read by name *)

Section by_name.
Context `{A : Arrow} `{!ArrowLaws A}.

Definition type_named (schema : list field) (name : string) : option dtype :=
  f_type <$> List.find (λ g, bool_decide (f_name g = name)) schema.

Lemma type_named_unique schema g : NoDup (map f_name schema) → g ∈ schema → type_named schema (f_name g) = Some (f_type g).
Proof using Type.
  unfold type_named. induction schema as [|h schema IH]; [by intros _ ?%elem_of_nil|]. cbn [map List.find].
  intros [Hn Hnd]%NoDup_cons [->|Hg]%elem_of_cons; [by rewrite bool_decide_true|].
  rewrite bool_decide_false; [by apply IH|]. intros E. apply Hn. rewrite E. by apply list_elem_of_fmap_2.
Qed.

Lemma filled_read schema cells b name c t :
  build_filled schema None cells = Ok b → NoDup (map f_name schema) → NoDup cells.*1 → (name, c) ∈ cells →
  type_named schema name = Some t → Wire.reads t (Some b) name c.
Proof using Type*.
  intros Hb Hs Hc Hin Ht. destruct (build_filled_reads _ _ _ _ Hb Hc Hs) as (_ & _ & Hr).
  destruct (Hr _ _ Hin) as (g & Hg & <- & H). rewrite (type_named_unique _ _ Hs Hg) in Ht. by injection Ht as <-.
Qed.

Lemma built_read schema cells b name c t :
  build schema None cells = Ok b → NoDup (map f_name schema) → NoDup cells.*1 → (name, c) ∈ cells →
  type_named schema name = Some t → Wire.reads t (Some b) name c.
Proof using Type*.
  intros Hb Hs Hc Hin Ht. unfold type_named in Ht. destruct (List.find _ schema) as [g|] eqn:Hf; [|done]. injection Ht as <-.
  apply List.find_some in Hf as [Hg%list_elem_of_In <-%bool_decide_eq_true].
  by destruct (built_reads _ _ _ _ g c Hb Hc Hs Hg Hin) as (? & ? & _ & _ & _ & H).
Qed.

Lemma null_or_binary b f o : Wire.reads T_binary b f (null_or Cell_binary o) → get_optional_binary b f = Ok o.
Proof using Type. destruct o; cbn; [by intros [? _]|]. intros (H & _). by apply H; left. Qed.
Lemma null_or_int64 b f o : Wire.reads T_int64 b f (null_or Cell_int64 o) → get_optional_int64 b f = Ok o.
Proof using Type. destruct o; cbn; [by intros [_ ?]|]. intros (_ & _ & H). by apply H. Qed.
Lemma null_or_string b f o : Wire.reads T_string b f (null_or Cell_string o) → get_optional_string b f = Ok o.
Proof using Type. destruct o; cbn; [by intros [_ ?]|]. intros (_ & H & _). by apply H. Qed.

(** A path as the wire carries one. *)
Definition wire_path (path : list bytes) : Prop := path ≠ [] ∧ Forall (λ c, c ≠ []) path.

(** What a table scans. *)
Definition scan_reads (table : CatalogTable) (path : list bytes) (version : option TimeTravelVersion) (scan : batch) : Prop :=
  get_string (Some scan) "function_name" = Ok (scan_function_of table version) ∧
  get_binary (Some scan) "arguments" = Ok (scan_arguments_of table version) ∧
  (wire_path path → get_schema_path (Some scan) "schema_path" = Ok path).

Lemma scan_record_reads table path version scan : scan_record table path version = Ok scan → scan_reads table path version scan.
Proof using Type*.
  intros H. assert (NoDup (map f_name ScanFunctionResultSchema)) as Hs by by_decide.
  pose proof (λ n c t, built_read _ _ _ n c t H Hs) as Hr. cbn [fmap list_fmap fst] in Hr. split_and!.
  - eapply (Hr "function_name"%string (Cell_string _) T_string); [by_decide|set_solver|done].
  - eapply (Hr "arguments"%string (Cell_binary _) T_binary); [by_decide|set_solver|done|done].
  - intros [Hne Hfull]. eapply (Hr "schema_path"%string (Cell_string_list _)); [by_decide|set_solver|done|done|done].
Qed.
End by_name.

(** ** The row of a table reads back *)

Section served.
Context `{A : Arrow} `{R : ArrowRecord} `{L : SchemaCodec} `{B : Base64} `{J : JsonParser}.
Context `{!ArrowLaws A} `{!SchemaCodecLaws A L} `{!Base64Laws B}.

Lemma rephrased_Ok {T} say (r : result T) x : rephrased say r = Ok x ↔ r = Ok x.
Proof using Type. destruct r as [y|[]]; cbn; naive_solver. Qed.

Lemma metadata_get_app md k key :
  metadata_get (md ++ k) key = match metadata_get md key with Some v => Some v | None => metadata_get k key end.
Proof using Type. unfold metadata_get. induction md as [|e md IH]; cbn; [done|]. by destruct (bool_decide (e.1 = key)). Qed.

Lemma metadata_get_filter md key : key ≠ legacy_key → metadata_get (filter (λ e, e.1 ≠ legacy_key) md) key = metadata_get md key.
Proof using Type.
  intros Hk. unfold metadata_get. induction md as [|e md IH]; [done|]. rewrite filter_cons. cbn [List.find].
  destruct (decide (e.1 ≠ legacy_key)) as [Hn|Hn].
  - cbn [List.find]. by destruct (bool_decide (e.1 = key)).
  - rewrite bool_decide_false; [done|]. intros He. apply Hn. by rewrite He.
Qed.

Lemma metadata_has_get md key : metadata_has md key = false ↔ metadata_get md key = None.
Proof using Type.
  unfold metadata_has, metadata_get. rewrite bool_decide_eq_false. induction md as [|e md IH]; cbn; [split; [done|by intros _ ?%elem_of_nil]|].
  rewrite not_elem_of_cons. case_bool_decide as He; cbn; [naive_solver|]. rewrite <- IH. naive_solver.
Qed.

(** What becomes of a column: nothing, or its legacy expression is the canonical one of the same text. *)
Definition translated (owner : list bytes) (f g : field) : Prop :=
  f_name g = f_name f ∧ f_type g = f_type f ∧ f_nullable g = f_nullable f ∧ metadata_get (f_metadata g) legacy_key = None ∧
  match metadata_get (f_metadata f) legacy_key with
  | None => g = f
  | Some sql =>
      ∃ encoded, metadata_get (f_metadata g) GENERATED_COLUMN_KEY = Some encoded ∧
        metadata_get (f_metadata g) GENERATION_COLUMN_KEY = Some "virtual"%string ∧
        validate_generated_expression encoded owner = Ok tt ∧ generated_expression_sql encoded = Ok (bs sql) ∧
        ∀ key, key ∉ [legacy_key; GENERATED_COLUMN_KEY; GENERATION_COLUMN_KEY] →
          metadata_get (f_metadata g) key = metadata_get (f_metadata f) key
  end.

Lemma translate_field_Ok owner f g : translate_field owner f = Ok g → translated owner f g.
Proof using Type*.
  unfold translate_field, translated. destruct (metadata_get (f_metadata f) legacy_key) as [sql|] eqn:Hl.
  - rewrite bind_throw_if_Ok, !orb_false_iff, !metadata_has_get. intros ((((H1 & H2) & _) & _) & H).
    apply bind_Ok in H as (encoded & [Hv Hs]%rephrased_Ok%generated_expression_made & [= <-]). cbn [f_name f_type f_nullable f_metadata].
    split_and!; [done..| |].
    + rewrite metadata_get_app. rewrite (proj1 (metadata_has_get _ _)); [by vm_compute|].
      apply bool_decide_eq_false. intros (e & He & [Hn _]%list_elem_of_filter)%list_elem_of_fmap. by rewrite He in Hn.
    + exists encoded. rewrite !metadata_get_app, !metadata_get_filter by by_decide. rewrite H1, H2.
      split_and!; [by vm_compute|by vm_compute|done|done|]. intros key Hk. rewrite metadata_get_app, metadata_get_filter by set_solver.
      destruct (metadata_get (f_metadata f) key); [done|]. unfold metadata_get. cbn [List.find fst].
      rewrite !bool_decide_false by set_solver. done.
  - by intros [= <-].
Qed.

Lemma translate_fields_Ok owner fields fields' : mapM (translate_field owner) fields = Ok fields' → Forall2 (translated owner) fields fields'.
Proof using Type*.
  revert fields'. induction fields as [|f fields IH]; intros fields'; cbn [mapM]; [intros [= <-]; constructor|].
  intros (g & Hg & (rest & Hr & [= <-])%bind_Ok)%bind_Ok. constructor; [by apply translate_field_Ok|by apply IH].
Qed.

(** A legacy expression is served as the canonical one.  Of the columns that are
    translated every one keeps its name, its type and its nullability; none has the
    legacy key; a column without it is untouched; and one with it has a canonical
    expression, made for the table it is in, whose text is that of the legacy key,
    with the mark of a virtual column and every other key as before. *)
Theorem legacy_translated owner fields metadata s :
  translate_legacy_generated (Some (fields, metadata)) owner = Ok s →
  ∃ fields', s = Some (fields', metadata) ∧ Forall2 (translated owner) fields fields'.
Proof using Type*.
  cbn [translate_legacy_generated]. intros (fields' & H & [= <-])%bind_Ok. exists fields'. split; [done|].
  by apply translate_fields_Ok.
Qed.

(** The columns that are served of declared ones: translated, and open to NULL where the records allow it. *)
Definition served_as (path : list bytes) (declared : option schema) (records : list bytes) (shape : schema) : Prop :=
  ∃ fields fields' decoded, declared = Some (fields, shape.2) ∧ Forall2 (translated path) fields fields' ∧
    decode_all records = Ok decoded ∧ shape.1 = serve_schema fields' (required_paths decoded) ∧
    ConstraintsServed.agrees (required_paths decoded) shape.1.

Lemma served_shape_Ok table path version shape filters :
  served_shape table path version = Ok (Some shape, filters) →
  served_as path (columns_of table version) (records_of table version) shape ∧
  filters = ct_required_filters table ∧ Forall (served_group (Some shape.1)) filters.
Proof using Type*.
  unfold served_shape. destruct (columns_of table version) as [[fields metadata]|]; cbv zeta.
  - intros (s & Hs & H)%bind_Ok. cbn [translate_legacy_generated] in Hs.
    apply bind_Ok in Hs as (fields' & Hf%translate_fields_Ok & [= <-]).
    apply bind_Ok in H as (shape' & Hshape & H). apply bind_Ok in H as (fs & Hfs & H). injection H as -> ->.
    do 3 apply bind_Ok in Hshape as ([] & _ & Hshape). apply bind_Ok in Hshape as (served & Hserved & Hshape).
    apply bind_Ok in Hshape as (sql & _ & Hshape). apply bind_Ok in Hshape as ([] & _ & [= <-]).
    apply bind_Ok in Hserved as (decoded & Hd & [= <-]). apply required_filter_paths_Ok in Hfs as [-> Hall].
    split; [|done]. exists fields, fields', decoded. split_and!; [done..|]. apply ConstraintsServed.serve_agrees.
  - cbn [translate_legacy_generated mbind result_bind]. intros (shape' & (u & _ & [= <-])%bind_Ok & H)%bind_Ok.
    by apply bind_Ok in H as (fs & _ & [= ? ?]).
Qed.

Lemma table_info_NoDup : NoDup (map f_name MemoryCatalog.TableInfoSchema).
Proof using Type. by_decide. Qed.

(** The column of the required filters: a list of groups of paths. *)
Definition filters_column (groups : required_groups) : array :=
  list_array (list_of (list_of T_string)) (map (λ g, V_list (map (λ p, V_list (map V_text p)) g)) groups).
Definition tags_column (tags : list (bytes * bytes)) : array := map_array T_string (map (λ e, (e.1, V_text e.2)) tags).

(** C16. The row of a table reads back.  What is answered of a declared table, or of one
    of its versions, is a row with its name and schema, its comment and its tags,
    with the records the version states or else the table, its revision and its size;
    with the columns of that version, open to NULL exactly where no NOT_NULL or
    PRIMARY_KEY record is; with the required filters as they are declared, each of
    which leads to one of the columns; with statistics exactly if it declares some;
    and, if the scan is inlined, with the function and the arguments of that version. *)
Theorem table_served table path version item :
  encode_table_info table path version = Ok item →
  ∃ row shape, decode_ipc item = Ok (Some row) ∧
    get_string (Some row) "name" = Ok (ct_name table) ∧
    (wire_path path → get_schema_path (Some row) "schema_path" = Ok path) ∧
    get_binary_list (Some row) "constraints" = Ok (records_of table version) ∧
    get_optional_binary (Some row) "definition_revision" = Ok (revision_of table version) ∧ revision_of table version ≠ Some [] ∧
    get_optional_int64 (Some row) "cardinality_estimate" = Ok (ct_cardinality table) ∧
    get_optional_int64 (Some row) "cardinality_max" = Ok (ct_cardinality table) ∧
    get_optional_string (Some row) "comment" = Ok (ct_comment table) ∧
    Wire.column (Some row) "tags" = Ok (tags_column (ct_tags table)) ∧
    Wire.column (Some row) "write_result_modes" = Ok (tags_column []) ∧
    get_bool (Some row) "supports_column_statistics" = Ok (negb (bool_decide (length (ct_column_statistics table) = 0%nat))) ∧
    Wire.column (Some row) "required_filters" = Ok (filters_column (ct_required_filters table)) ∧
    get_schema (Some row) "columns" = Ok (Some shape) ∧ served_as path (columns_of table version) (records_of table version) shape ∧
    Forall (served_group (Some shape.1)) (ct_required_filters table) ∧
    ∃ scan, get_binary (Some row) "scan_function" = Ok scan ∧
      if ct_inline_scan table then ∃ b, decode_ipc scan = Ok (Some b) ∧ scan_reads table path version b else scan = [].
Proof using Type*.
  unfold encode_table_info. rewrite !bind_throw_if_Ok. intros (_ & Hrev%bool_decide_eq_false & _ & H).
  apply bind_Ok in H as (scan & Hscan%scan_record_reads & H). apply bind_Ok in H as ([shape filters] & Hshape%rephrased_Ok & H).
  apply bind_Ok in H as (s & ->%from_opt_Ok & H). apply bind_Ok in H as (encoded & He & H). apply bind_Ok in H as (inlined & Hi & H).
  apply bind_Ok in H as (b & Hb & H). apply served_shape_Ok in Hshape as (Hs & -> & Hfilters).
  apply encode_ipc_read in H as (_ & _ & _ & Hd). exists b, s.
  pose proof (λ n c t, filled_read _ _ _ n c t Hb table_info_NoDup) as Hr. unfold table_cells in Hr. cbn [fmap list_fmap fst] in Hr.
  split_and!; [done| | | | |done| | | | | | | | |done|done|].
  - eapply (Hr "name"%string (Cell_string _) T_string); [by_decide|set_solver|done].
  - intros [Hne Hfull]. eapply (Hr "schema_path"%string (Cell_string_list _)); [by_decide|set_solver|done|done|done].
  - eapply (Hr "constraints"%string (Cell_binary_list _)); [by_decide|set_solver|done].
  - apply null_or_binary. eapply (Hr "definition_revision"%string); [by_decide|set_solver|done].
  - apply null_or_int64. eapply (Hr "cardinality_estimate"%string); [by_decide|set_solver|done].
  - apply null_or_int64. eapply (Hr "cardinality_max"%string); [by_decide|set_solver|done].
  - apply null_or_string. eapply (Hr "comment"%string); [by_decide|set_solver|done].
  - eapply (Hr "tags"%string (Cell_string_map _)); [by_decide|set_solver|done].
  - eapply (Hr "write_result_modes"%string (Cell_string_map _)); [by_decide|set_solver|done].
  - assert (negb (bool_decide (length (ct_column_statistics table) = 0%nat)) =
            match ct_column_statistics table with [] => false | _ => true end) as -> by (by destruct (ct_column_statistics table)).
    eapply (Hr "supports_column_statistics"%string (Cell_bool _) T_bool); [by_decide|set_solver|done].
  - eapply (Hr "required_filters"%string (Cell_string_list_list_list _)); [by_decide|set_solver|done].
  - unfold get_schema. destruct (Hr "columns"%string (Cell_binary encoded) T_binary) as [-> _]; [by_decide|set_solver|done|].
    by apply decode_encode_schema.
  - exists inlined. split; [by eapply (Hr "scan_function"%string (Cell_binary _) T_binary); [by_decide|set_solver|done|]|].
    destruct (ct_inline_scan table); [|by injection Hi]. apply encode_ipc_read in Hi as (_ & _ & _ & Hi). by exists scan.
Qed.
End served.

(** ** At work *)

(** A table with a foreign key, a NOT NULL and a legacy generated column. *)
Definition child_columns : list field :=
  [Field "parent_id" T_int64 true []; Field "k" T_int64 false []; Field "n" T_int64 true [];
   Field "next" T_int64 true [(legacy_key, "n + 1")]]%string.
Definition child_encoded : string := base64_encode (Base64 := hex_base64) (ConstraintsSpec.sample_bytes 9).
Definition child_served : list field :=
  [Field "parent_id" T_int64 false []; Field "k" T_int64 true []; Field "n" T_int64 true [];
   Field "next" T_int64 true [(GENERATED_COLUMN_KEY, child_encoded); (GENERATION_COLUMN_KEY, "virtual")]]%string.
Definition child_table : CatalogTable :=
  mkTable [ConstraintsSpec.sample_bytes 5; ConstraintsSpec.sample_bytes 8] None (bs "child") (Some (child_columns, None))
    (bs "scan_child") [] None (Some 3) [] [] [[[bs "k"]; [bs "parent_id"]]] None [] [] [] [] [] [] [] false true.
Definition main_schema : list bytes := [bs "main"].
Definition schema_bytes (i : nat) : bytes := schema_byte :: enc_len i.

Definition row_of (r : result batch) : list batch := match r with Ok b => [b] | Throw _ => [] end.
Definition child_batches : list batch :=
  ConstraintsServed.sample_table ++ [next_row] ++ row_of (scan_record (A := table_arrow []) child_table main_schema None) ++
  row_of (build_filled (A := table_arrow []) MemoryCatalog.TableInfoSchema None
            (table_cells child_table main_schema None (schema_bytes 0) (ConstraintsSpec.sample_bytes 10) (ct_required_filters child_table))).
Definition child_arrow : Arrow := schema_arrow child_batches.
Definition child_codec : SchemaCodec := list_codec child_batches [(child_served, None)].
#[local] Existing Instances child_arrow table_record child_codec hex_base64 Plan.no_json.

Lemma table_served_witness :
  encode_table_info child_table main_schema None = Ok (ConstraintsSpec.sample_bytes 11) ∧
  ∃ row, decode_ipc (ConstraintsSpec.sample_bytes 11) = Ok (Some row) ∧ get_string (Some row) "name" = Ok (bs "child") ∧
    get_optional_int64 (Some row) "cardinality_estimate" = Ok (Some 3) ∧
    Wire.column (Some row) "required_filters" = Ok (filters_column [[[bs "k"]; [bs "parent_id"]]]).
Proof.
  pose proof (schema_arrow_laws child_batches) as HA. pose proof (list_codec_laws child_batches [(child_served, None)]) as HL.
  assert (encode_table_info child_table main_schema None = Ok (ConstraintsSpec.sample_bytes 11)) as H by (vm_compute; reflexivity).
  split; [exact H|].
  destruct (table_served (A := child_arrow) (L := child_codec) (B := hex_base64) _ _ _ _ H) as (row & shape & Hd & Hn & _ & _ & _ & _ & Hc & _ & _ & _ & _ & _ & Hf & _).
  exists row. split_and!; [exact Hd|exact Hn|exact Hc|exact Hf].
Defined.

Lemma legacy_translated_witness :
  translate_legacy_generated (Some (child_columns, None)) main_schema =
    Ok (Some (take 3 child_columns ++ drop 3 child_served, None)) ∧
  generated_expression_sql child_encoded = Ok (bs "n + 1").
Proof.
  pose proof (schema_arrow_laws child_batches) as HA.
  assert (translate_legacy_generated (Some (child_columns, None)) main_schema = Ok (Some (take 3 child_columns ++ drop 3 child_served, None))) as H
    by (vm_compute; reflexivity).
  split; [exact H|]. destruct (legacy_translated (A := child_arrow) (B := hex_base64) _ _ _ _ H) as (fields & E & Hall).
  injection E as <-. pose proof (Forall2_lookup_lr _ _ _ 3%nat _ _ Hall eq_refl eq_refl) as (_ & _ & _ & _ & Ht).
  destruct Ht as (encoded & Hg & _ & _ & Hs & _). injection Hg as <-. exact Hs.
Defined.

(** A path through a struct, and what is refused: a name that is not there, two of a
    name, a member of a column that is no struct. *)
Example filters_refused :
  let columns := [Field "box" (T_struct [fld "x" T_int64 true; fld "y" T_int64 true; fld "y" T_int64 true]) true []; fld "k" T_int64 true]%string in
  required_filter_paths [[[bs "box"; bs "x"]; [bs "k"]]] (Some columns) = Ok [[[bs "box"; bs "x"]; [bs "k"]]] ∧
  required_filter_paths [[[bs "box"; bs "z"]]] (Some columns) = refuse_filter (bs "box.z") " is not a column" ∧
  required_filter_paths [[[bs "box"; bs "y"]]] (Some columns) = refuse_filter (bs "box.y") " is ambiguous" ∧
  required_filter_paths [[[bs "k"; bs "x"]]] (Some columns) = refuse_filter (bs "k") " is not a STRUCT and has no members".
Proof. vm_compute. done. Qed.

End Tables.
