(* ===== verification/Macros.v ===== *)
(** * Declared macros ([src/catalog.cpp], [include/vgi/catalog.h])

    The overloads of a macro and the row of information of a family.  The theorems: an
    overload that is made has parameters of distinct names, whatever their case, with
    its defaults behind all parameters that have none, and reads back as its
    declaration; the row of a simple macro has the one overload of its declaration. *)

From S2P Require Import Prelude Text Arrow ArrowRecord ArrowCompute Wire Protocol Metadata WireSchema SqlScalar Constraints ConstraintsSpec Capabilities Dispatch Tables.
Import Wire Protocol Metadata WireSchema Constraints Dispatch Tables.

Module Macros.

(** ** What is declared *)

Record CatalogMacro := mkMacro {
  mc_name : bytes;
  mc_parameters : list bytes;
  mc_definition : bytes;
  mc_table_macro : bool;
  mc_comment : option bytes;
  mc_defaults : list (bytes * Z);
  mc_parameter_docs : list (bytes * bytes);
  mc_overloads : option (list bytes);
}.

Record MacroParameterSpec := mkParameter {
  mp_name : bytes;
  mp_declared_type : option dtype;
  mp_default_value : option array;
  mp_documentation : option bytes;
}.

Record MacroOverloadSpec := mkOverload {
  mo_schema_path : list bytes;
  mo_table_macro : bool;
  mo_parameters : list MacroParameterSpec;
  mo_definition : bytes;
}.

(** ** The schemas of the records ([vgi_protocol_schemas.hpp]) *)

Definition MacroParameterSchema : list field :=
  [fld "name" T_string false; fld "declared_type" T_binary true; fld "default_value" T_binary true;
   fld "default_expression" T_binary true; fld "documentation" T_string true].
Definition MacroOverloadSchema : list field :=
  [fld "parameters" (list_of (T_struct MacroParameterSchema)) false;
   fld "definition" T_string false; fld "profile" T_string false; fld "schema_path" (list_of T_string) false;
   fld "macro_type" T_string false; fld "evaluation_context" (T_struct QueryEvaluationContextSchema) false].
Definition MacroInfoSchema : list field :=
  [fld "comment" T_string true; fld "tags" (map_of T_string T_string) false; fld "name" T_string false;
   fld "schema_path" (list_of T_string) false; fld "macro_type" enum_type false;
   fld "overloads" (list_of (T_struct MacroOverloadSchema)) false].

(** [ListArray::FromArrays] with the offsets 0 and the number of the values: one row
    that is their list. *)
Class ListOf := one_list : dtype → array → string + array.
Class ListOfLaws (M : ListOf) : Prop :=
  one_list_spec t values a : one_list t values = inr a → a = mkArray t [V_list (a_values values)].

(** A [catch] of nothing: [ValueOrDie] ends the process. *)
Definition or_die {T} (r : string + T) : result T :=
  match r with inr x => Ok x | inl _ => Throw (Undefined_behaviour "ValueOrDie") end.

Definition check_text (value : bytes) (limit : Z) (what : string) : result () :=
  throw_if (bool_decide (value = []) || (limit <? Z.of_nat (length value)) || has_nul value)
    (Invalid_argument ("macro overload: " +:+ what +:+ " must be nonempty without NUL")).

Section macros.
Context `{A : Arrow} `{R : ArrowRecord} `{C : Compute} `{L : SchemaCodec} `{M : ListOf}.

Definition macro_struct (b : batch) : result array := or_die (struct_array (b_columns b) (b_schema b)).

Fixpoint structs_of (records : list batch) : result (list array) :=
  match records with [] => Ok [] | r :: records => a ← macro_struct r; l ← structs_of records; Ok (a :: l) end.

Definition element_type (t : dtype) : dtype := match t with T_list f => f_type f | _ => T_null end.

Definition macro_record_list (t : dtype) (records : list batch) : result array :=
  arrays ← structs_of records;
  values ← (match arrays with [] => Ok (mkArray (element_type t) []) | _ => or_die (concatenate arrays) end : result array);
  or_die (one_list t values).

(** ** The making of an overload *)

(** A batch of one row and one column of the name. *)
Definition default_batch (name : bytes) (v : array) : batch :=
  mkBatch [Field (str name) (a_type v) true []] None 1 [v].

Definition declared_cell (item : MacroParameterSpec) : result cell :=
  match mp_declared_type item with
  | Some T_null => Throw (Invalid_argument ("macro overload: parameter " +:+ str (mp_name item) +:+ " cannot be declared NULL-typed"))
  | Some t => b ← encode_schema ([Field (str (mp_name item)) t true []], None); Ok (Cell_binary b)
  | None => Ok Cell_null
  end.

Definition default_cell (item : MacroParameterSpec) (seen_default : bool) : result cell :=
  match mp_default_value item with
  | Some v =>
      throw_if (negb (bool_decide (length (a_values v) = 1%nat)))
        (Invalid_argument ("macro overload: the default of " +:+ str (mp_name item) +:+ " must be a one-element array"));;
      b ← encode_ipc (default_batch (mp_name item) v);
      Ok (Cell_binary b)
  | None =>
      throw_if seen_default (Invalid_argument ("macro overload: required parameter " +:+ str (mp_name item) +:+ " follows a default"));;
      Ok Cell_null
  end.

Definition documentation_cell (item : MacroParameterSpec) : result cell :=
  match mp_documentation item with
  | Some d =>
      throw_if ((64 * 1024 <? Z.of_nat (length d)) || has_nul d)
        (Invalid_argument ("macro overload: invalid documentation for " +:+ str (mp_name item)));;
      Ok (Cell_string d)
  | None => Ok Cell_null
  end.

Fixpoint overload_parameters (items : list MacroParameterSpec) (names : gset bytes) (seen_default : bool) : result (list batch) :=
  match items with
  | [] => Ok []
  | item :: items =>
      check_text (mp_name item) 4096 "parameter name";;
      let folded := SqlScalar.lower (mp_name item) in
      throw_if (bool_decide (folded ∈ names)) (Invalid_argument ("macro overload: duplicate parameter " +:+ str (mp_name item)));;
      declared ← declared_cell item;
      default ← default_cell item seen_default;
      documentation ← documentation_cell item;
      b ← build MacroParameterSchema None
            [("name", Cell_string (mp_name item)); ("default_expression", Cell_null); ("declared_type", declared);
             ("default_value", default); ("documentation", documentation)]%string;
      rest ← overload_parameters items ({[folded]} ∪ names) (seen_default || bool_decide (is_Some (mp_default_value item)));
      Ok (b :: rest)
  end.

Fixpoint check_components (path : list bytes) : result () :=
  match path with [] => Ok tt | c :: path => check_text c 4096 "schema path component";; check_components path end.

Definition macro_type (table_macro : bool) : bytes := if table_macro then bs "table" else bs "scalar".

Definition parameters_type : dtype := list_of (T_struct MacroParameterSchema).
Definition overload_cells (spec : MacroOverloadSpec) (parameters context : array) : list (string * cell) :=
  [("parameters", Cell_array (Some parameters)); ("definition", Cell_string (mo_definition spec));
   ("profile", Cell_string (bs "duckdb.macro.v1")); ("schema_path", Cell_string_list (mo_schema_path spec));
   ("macro_type", Cell_string (macro_type (mo_table_macro spec))); ("evaluation_context", Cell_array (Some context))]%string.

(** The record; then its stream. *)
Definition overload_record (spec : MacroOverloadSpec) : result batch :=
  check_text (mo_definition spec) (1024 * 1024) "definition";;
  throw_if (bool_decide (mo_schema_path spec = [])) (Invalid_argument "macro overload: empty schema_path");;
  check_components (mo_schema_path spec);;
  throw_if (1024 <? Z.of_nat (length (mo_parameters spec))) (Invalid_argument "macro overload: more than 1024 parameters");;
  parameters ← overload_parameters (mo_parameters spec) ∅ false;
  context ← build QueryEvaluationContextSchema None default_context_cells;
  parameters ← macro_record_list parameters_type parameters;
  context ← macro_struct context;
  build MacroOverloadSchema None (overload_cells spec parameters context).
Definition macro_overload (spec : MacroOverloadSpec) : result bytes := b ← overload_record spec; encode_ipc b.

(** ** The row of a family *)

(** The default expressions of an overload's parameters. *)
Definition default_expressions (overload : batch) : result array :=
  parameters ← column (Some overload) "parameters";
  entries ← (match a_type parameters, first parameters with
             | T_list f, V_list l => Ok (mkArray (f_type f) l)
             | T_list f, _ => Ok (mkArray (f_type f) [])
             | _, _ => Throw (Undefined_behaviour "static_pointer_cast")
             end : result array);
  match a_type entries with
  | T_struct fs => match get_field_index fs "default_expression" with
                   | Some i => Ok (struct_field entries i)
                   | None => Throw (Undefined_behaviour "a null array")
                   end
  | _ => Throw (Undefined_behaviour "static_pointer_cast")
  end.

(** One overload of a family, as it was made. *)
Definition family_overload (path : list bytes) (kind encoded : bytes) : result batch :=
  let mismatch {T} : result T := Throw (Invalid_argument "macro overload shape, kind and owner must equal parent macro") in
  o ← decode_ipc encoded;
  overload ← from_opt (Undefined_behaviour "a null record batch") o;
  if negb (b_rows overload =? 1) then mismatch
  else if negb (schema_equals true (b_schema overload) MacroOverloadSchema && Capabilities.no_metadata overload) then mismatch
  else
    owner ← get_schema_path (Some overload) "schema_path";
    if negb (bool_decide (owner = path)) then mismatch
    else
      declared ← get_string (Some overload) "macro_type";
      if negb (bool_decide (declared = kind)) then mismatch
      else
        expressions ← default_expressions overload;
        throw_if (negb (forallb is_null (a_values expressions))) (Invalid_argument "discovery macro defaults must be resolved values");;
        Ok overload.

Definition find_first {T} (name : bytes) (l : list (bytes * T)) : option T :=
  snd <$> List.find (λ e, bool_decide (e.1 = name)) l.
Definition count_of {T} (name : bytes) (l : list (bytes * T)) : nat := length (filter (λ e, e.1 = name) l).

Fixpoint known_names {T} (parameters : list bytes) (l : list (bytes * T)) (what : string) : result () :=
  match l with
  | [] => Ok tt
  | e :: l => throw_if (negb (bool_decide (e.1 ∈ parameters))) (Invalid_argument what);; known_names parameters l what
  end.

Fixpoint simple_names (macro : CatalogMacro) (parameters names : list bytes) : result () :=
  match parameters with
  | [] => Ok tt
  | name :: parameters =>
      let folded := SqlScalar.lower name in
      throw_if (bool_decide (name = []) || has_nul name || bool_decide (folded ∈ names))
        (Invalid_argument "invalid or duplicate macro parameter");;
      throw_if ((1 <? count_of name (mc_defaults macro))%nat || (1 <? count_of name (mc_parameter_docs macro))%nat)
        (Invalid_argument "duplicate macro default or documentation");;
      simple_names macro parameters (names ++ [folded])
  end.

Definition simple_parameter (macro : CatalogMacro) (name : bytes) : MacroParameterSpec :=
  mkParameter name None (option_map (λ z, mkArray T_int64 [V_int z]) (find_first name (mc_defaults macro)))
    (find_first name (mc_parameter_docs macro)).
Definition simple_overload (macro : CatalogMacro) (path : list bytes) : MacroOverloadSpec :=
  mkOverload path (mc_table_macro macro) (map (simple_parameter macro) (mc_parameters macro)) (mc_definition macro).

Definition simple_fields (macro : CatalogMacro) : bool :=
  negb (bool_decide (mc_parameters macro = []) && bool_decide (mc_definition macro = []) && bool_decide (mc_defaults macro = []) &&
        bool_decide (mc_parameter_docs macro = [])).

Definition macro_overloads (macro : CatalogMacro) (path : list bytes) : result (list batch) :=
  match mc_overloads macro with
  | Some l =>
      throw_if (bool_decide (l = []) || simple_fields macro)
        (Invalid_argument "a nonempty macro family cannot coexist with simple-definition fields");;
      mapM (family_overload path (macro_type (mc_table_macro macro))) l
  | None =>
      throw_if (bool_decide (mc_definition macro = []) || has_nul (mc_definition macro))
        (Invalid_argument "macro definition must be nonempty SQL without NUL");;
      known_names (mc_parameters macro) (mc_defaults macro) "unknown macro default parameter";;
      known_names (mc_parameters macro) (mc_parameter_docs macro) "unknown documented macro parameter";;
      simple_names macro (mc_parameters macro) [];;
      b ← macro_overload (simple_overload macro path);
      o ← decode_ipc b;
      overload ← from_opt (Undefined_behaviour "a null record batch") o;
      Ok [overload]
  end.

Definition overloads_type : dtype := list_of (T_struct MacroOverloadSchema).
Definition info_cells (macro : CatalogMacro) (path : list bytes) (overloads : array) : list (string * cell) :=
  [("name", Cell_string (mc_name macro)); ("schema_path", Cell_string_list path);
   ("macro_type", Cell_enum (if mc_table_macro macro then bs "TABLE" else bs "SCALAR"));
   ("overloads", Cell_array (Some overloads)); ("comment", Cell_optional_string (mc_comment macro))]%string.

Definition encode_macro_info (macro : CatalogMacro) (path : list bytes) : result bytes :=
  overloads ← macro_overloads macro path;
  overloads ← macro_record_list overloads_type overloads;
  b ← build_filled MacroInfoSchema None (info_cells macro path overloads);
  encode_ipc b.
End macros.

(** ** What an overload holds *)

Section made.
Context `{A : Arrow} `{R : ArrowRecord} `{C : Compute} `{L : SchemaCodec} `{M : ListOf}.
Context `{!ArrowLaws A} `{!ArrowRecordLaws A R} `{!ComputeLaws C} `{!SchemaCodecLaws A L} `{!ListOfLaws M}.

Lemma NoDup_key_unique {X Y} (l : list (X * Y)) k x y : NoDup l.*1 → (k, x) ∈ l → (k, y) ∈ l → x = y.
Proof using Type.
  intros Hnd [i Hi]%list_elem_of_lookup [j Hj]%list_elem_of_lookup.
  assert (i = j) as -> by (eapply (NoDup_lookup l.*1); [done|by rewrite list_lookup_fmap, Hi|by rewrite list_lookup_fmap, Hj]).
  rewrite Hi in Hj. by injection Hj.
Qed.

(** The struct of a built record: the cells at the places of their fields. *)
Lemma struct_row schema cells b a :
  build schema None cells = Ok b → NoDup (map f_name schema) → NoDup cells.*1 → (∀ f, f ∈ schema → f_name f ∈ cells.*1) →
  macro_struct b = Ok a →
  ∃ vs, a = mkArray (T_struct schema) [V_struct vs] ∧ length vs = length schema ∧
    ∀ i f, schema !! i = Some f → ∃ c arr v, (f_name f, c) ∈ cells ∧ cell_holds (f_type f) c arr ∧ a_values arr = [v] ∧ vs !! i = Some v.
Proof using ArrowLaws0 ArrowRecordLaws0.
  intros Hb Hs Hc Hall Ha. destruct (build_shape _ _ _ _ Hb Hc) as (B1 & _ & _ & Blen & _).
  assert (∀ i f arr, schema !! i = Some f → b_columns b !! i = Some arr →
    ∃ c v, (f_name f, c) ∈ cells ∧ cell_holds (f_type f) c arr ∧ a_values arr = [v]) as Hrow by (by eapply build_one_row).
  assert (Forall (λ c, length (a_values c) = 1%nat) (b_columns b)) as Hrows.
  { apply Forall_lookup. intros i arr Harr. destruct (lookup_lt_is_Some_2 schema i) as [f Hf]; [rewrite <- Blen; by eapply lookup_lt_Some|].
    by destruct (Hrow i f arr Hf Harr) as (c & v & _ & _ & ->). }
  unfold macro_struct, or_die in Ha. destruct (struct_array _ _) as [|a'] eqn:Hst; [done|]. injection Ha as <-.
  apply struct_array_spec in Hst as ->; [|done]. rewrite B1. eexists. split; [done|].
  assert (∀ i f, schema !! i = Some f → ∃ c arr v, (f_name f, c) ∈ cells ∧ cell_holds (f_type f) c arr ∧ a_values arr = [v] ∧
    mjoin (map a_values (b_columns b)) !! i = Some v) as Hat.
  { intros i f Hf. destruct (lookup_lt_is_Some_2 (b_columns b) i) as [arr Harr]; [rewrite Blen; by eapply lookup_lt_Some|].
    destruct (Hrow i f arr Hf Harr) as (c & v & Hin & Hh & Hv). exists c, arr, v. split_and!; [done..|].
    rewrite (ConstraintsSpec.join_rows _ _ _ Hrows Harr). unfold first. by rewrite Hv. }
  split; [|done]. rewrite <- Blen. clear -Hrows. induction Hrows as [|c cols H1 _ IH]; [done|].
  change (mjoin (map a_values (c :: cols))) with (a_values c ++ mjoin (map a_values cols)). rewrite length_app, H1, IH. done.
Qed.

(** What is read of one parameter. *)
Definition declared_is (item : MacroParameterSpec) (v : value) : Prop :=
  match mp_declared_type item with
  | Some t => t ≠ T_null ∧ ∃ b, v = V_text b ∧ decode_schema b = Ok (Some ([Field (str (mp_name item)) t true []], None))
  | None => v = V_null
  end.
Definition default_is (item : MacroParameterSpec) (v : value) : Prop :=
  match mp_default_value item with
  | Some d => length (a_values d) = 1%nat ∧ ∃ b, v = V_text b ∧ decode_ipc b = Ok (Some (default_batch (mp_name item) d))
  | None => v = V_null
  end.
Definition parameter_is (item : MacroParameterSpec) (v : value) : Prop :=
  ∃ declared default, declared_is item declared ∧ default_is item default ∧
    v = V_struct [V_text (mp_name item); declared; default; V_null;
                  match mp_documentation item with Some d => V_text d | None => V_null end].

Lemma declared_cell_Ok item c arr v :
  declared_cell item = Ok c → cell_holds T_binary c arr → a_values arr = [v] → declared_is item v.
Proof using ArrowLaws0 SchemaCodecLaws0.
  unfold declared_cell, declared_is. destruct (mp_declared_type item) as [t|].
  - destruct (decide (t = T_null)) as [->|Hn]; [done|]. intros H Hh Hv. split; [done|].
    assert (∃ b, encode_schema ([Field (str (mp_name item)) t true []], None) = Ok b ∧ c = Cell_binary b) as (b & Hb & ->)
      by (destruct t; try done; apply bind_Ok in H as (b & Hb & [= <-]); by exists b).
    destruct Hh as [Hh _]. rewrite Hh in Hv. injection Hv as <-. exists b. split; [done|]. by apply decode_encode_schema.
  - intros [= <-] -> [= <-]. done.
Qed.

Lemma default_cell_Ok item seen c arr v :
  default_cell item seen = Ok c → cell_holds T_binary c arr → a_values arr = [v] →
  default_is item v ∧ (mp_default_value item = None → seen = false).
Proof using ArrowLaws0.
  unfold default_cell, default_is. destruct (mp_default_value item) as [d|].
  - rewrite bind_throw_if_Ok, negb_false_iff, bool_decide_eq_true. intros (Hl & (b & Hb & [= <-])%bind_Ok) [-> _] [= <-].
    split; [|done]. split; [done|]. exists b. split; [done|]. by apply encode_ipc_read in Hb as (_ & _ & _ & ?).
  - rewrite bind_throw_if_Ok. intros (Hs & [= <-]) -> [= <-]. done.
Qed.

Lemma documentation_cell_Ok item c arr v :
  documentation_cell item = Ok c → cell_holds T_string c arr → a_values arr = [v] →
  v = match mp_documentation item with Some d => V_text d | None => V_null end.
Proof using Type.
  unfold documentation_cell. destruct (mp_documentation item) as [d|].
  - rewrite bind_throw_if_Ok. by intros (_ & [= <-]) -> [= <-].
  - by intros [= <-] -> [= <-].
Qed.

Lemma parameter_struct item declared default documentation seen b a :
  declared_cell item = Ok declared → default_cell item seen = Ok default → documentation_cell item = Ok documentation →
  build MacroParameterSchema None
    [("name", Cell_string (mp_name item)); ("default_expression", Cell_null); ("declared_type", declared);
     ("default_value", default); ("documentation", documentation)]%string = Ok b →
  macro_struct b = Ok a →
  (∃ v, a_values a = [v] ∧ parameter_is item v) ∧ (mp_default_value item = None → seen = false).
Proof using All.
  intros H1 H2 H3 Hb Ha.
  destruct (struct_row _ _ _ _ Hb ltac:(by_decide) ltac:(by_decide) ltac:(intros f Hf; apply (list_elem_of_fmap_2 f_name) in Hf; cbn in Hf |- *; set_solver) Ha) as (vs & -> & Hl & Hat).
  destruct vs as [|v0 [|v1 [|v2 [|v3 [|v4 [|? ?]]]]]]; try done.
  assert (∀ i f c, MacroParameterSchema !! i = Some f → (f_name f, c) ∈
    [("name", Cell_string (mp_name item)); ("default_expression", Cell_null); ("declared_type", declared);
     ("default_value", default); ("documentation", documentation)]%string →
    ∃ arr v, cell_holds (f_type f) c arr ∧ a_values arr = [v] ∧ [v0; v1; v2; v3; v4] !! i = Some v) as Hcell.
  { intros i f c Hf Hc. destruct (Hat i f Hf) as (c' & arr & v & Hc' & Hh & Hv & Hi). exists arr, v. split; [|done].
    replace c with c'; [done|]. eapply NoDup_key_unique; [|exact Hc'|exact Hc]. by_decide. }
  destruct (Hcell 0%nat (fld "name" T_string false) (Cell_string (mp_name item)) eq_refl ltac:(set_solver)) as (a0 & x0 & -> & [= <-] & [= ->]).
  destruct (Hcell 1%nat (fld "declared_type" T_binary true) declared eq_refl ltac:(set_solver)) as (a1 & x1 & Hh1 & Hv1 & [= ->]).
  destruct (Hcell 2%nat (fld "default_value" T_binary true) default eq_refl ltac:(set_solver)) as (a2 & x2 & Hh2 & Hv2 & [= ->]).
  destruct (Hcell 3%nat (fld "default_expression" T_binary true) Cell_null eq_refl ltac:(set_solver)) as (a3 & x3 & -> & [= <-] & [= ->]).
  destruct (Hcell 4%nat (fld "documentation" T_string true) documentation eq_refl ltac:(set_solver)) as (a4 & x4 & Hh4 & Hv4 & [= ->]).
  destruct (default_cell_Ok _ _ _ _ _ H2 Hh2 Hv2) as [Hd Hseen]. split; [|done]. eexists. split; [done|]. exists x1, x2.
  split_and!; [by eapply declared_cell_Ok|done|]. by rewrite (documentation_cell_Ok _ _ _ _ H3 Hh4 Hv4).
Qed.

(** Parameters without a default come first. *)
Definition defaults_last (items : list MacroParameterSpec) : Prop :=
  ∃ required optional, items = required ++ optional ∧
    Forall (λ i, mp_default_value i = None) required ∧ Forall (λ i, mp_default_value i ≠ None) optional.
Definition folded (item : MacroParameterSpec) : bytes := SqlScalar.lower (mp_name item).

Lemma overload_parameters_Ok items names seen l :
  overload_parameters items names seen = Ok l →
  NoDup (map folded items) ∧ (∀ i, i ∈ items → (folded i ∉ names) ∧ mp_name i ≠ []) ∧
  (if seen then Forall (λ i, mp_default_value i ≠ None) items else defaults_last items) ∧
  Forall2 (λ i b, ∀ a, macro_struct b = Ok a → ∃ v, a_values a = [v] ∧ parameter_is i v) items l.
Proof using All.
  revert names seen l. induction items as [|item items IH]; intros names seen l; cbn [overload_parameters].
  { intros [= <-]. split_and!; [constructor|by intros ? ?%elem_of_nil| |constructor]. destruct seen; [constructor|]. by exists [], []. }
  unfold check_text at 1. rewrite !bind_throw_if_Ok, !orb_false_iff, !bool_decide_eq_false. intros ([[Hne _] _] & Hn & H).
  apply bind_Ok in H as (declared & H1 & H). apply bind_Ok in H as (default & H2 & H). apply bind_Ok in H as (documentation & H3 & H).
  apply bind_Ok in H as (b & Hb & H). apply bind_Ok in H as (rest & Hrest & [= <-]).
  destruct (IH _ _ _ Hrest) as (I1 & I2 & I3 & I4). cbn [map].
  assert (mp_default_value item = None → seen = false) as Hseen.
  { unfold default_cell in H2. destruct (mp_default_value item); [done|]. by apply bind_throw_if_Ok in H2 as [? _]. }
  split_and!.
  - constructor; [|done]. intros (i & Hi & Hin)%list_elem_of_fmap. destruct (I2 i Hin) as [Hni _]. apply Hni.
    apply elem_of_union. left. apply elem_of_singleton. symmetry. exact Hi.
  - intros i [->|Hi]%elem_of_cons; [done|]. destruct (I2 i Hi) as [Hni ?]. split; [|done]. intros Hin. apply Hni, elem_of_union. by right.
  - destruct (mp_default_value item) as [d|] eqn:Hd.
    + rewrite (bool_decide_true (is_Some _)), orb_true_r in I3 by done. destruct seen; [constructor; [congruence|done]|].
      exists [], (item :: items). split_and!; [done|constructor|]. constructor; [congruence|done].
    + specialize (Hseen eq_refl) as ->. rewrite (bool_decide_false (is_Some _)) in I3 by (by intros [? ?]). cbn [orb] in I3.
      destruct I3 as (required & optional & -> & R1 & R2). exists (item :: required), optional. split_and!; [done|by constructor|done].
  - constructor; [|done]. intros a Ha. by apply (parameter_struct _ _ _ _ _ _ _ H1 H2 H3 Hb Ha).
Qed.

(** A list of records is one row of their structs. *)
Lemma record_list_Ok {X} (P : X → value → Prop) t items records a :
  Forall2 (λ x b, ∀ a, macro_struct b = Ok a → ∃ v, a_values a = [v] ∧ P x v) items records →
  macro_record_list t records = Ok a → ∃ vs, a = mkArray t [V_list vs] ∧ Forall2 P items vs.
Proof using ComputeLaws0 ListOfLaws0.
  intros Hall. unfold macro_record_list. intros (arrays & Hs & (values & Hv & H)%bind_Ok)%bind_Ok.
  assert (∃ vs, concat (map a_values arrays) = vs ∧ Forall2 P items vs) as (vs & Hvs & HP).
  { clear Hv H. revert arrays Hs. induction Hall as [|x b items records Hx Hall IH]; intros arrays; cbn [structs_of].
    - intros [= <-]. exists []. by split.
    - intros (s & Hstr & (l & Hl & [= <-])%bind_Ok)%bind_Ok. destruct (Hx s Hstr) as (v & Hv & Hp). destruct (IH _ Hl) as (vs & Hc & HP).
      exists (v :: vs). cbn. rewrite Hv, Hc. by split; [|constructor]. }
  exists vs. split; [|done]. unfold or_die in H. destruct (one_list _ _) as [|a'] eqn:Ha; [done|]. injection H as <-.
  apply one_list_spec in Ha as ->. do 2 f_equal. destruct arrays as [|x arrays].
  - injection Hv as <-. by rewrite <- Hvs.
  - unfold or_die in Hv. destruct (concatenate _) as [|values'] eqn:Hc; [done|]. injection Hv as <-.
    apply concatenate_spec in Hc. rewrite Hc. by rewrite Hvs.
Qed.

(** A record of one row, and the row as a struct. *)
Definition whole (b : batch) : Prop := Forall (λ c, length (a_values c) = 1%nat) (b_columns b).
Definition row_struct (b : batch) : value := V_struct (map first (b_columns b)).

Lemma macro_struct_row b a : whole b → macro_struct b = Ok a → a_values a = [row_struct b].
Proof using ArrowRecordLaws0.
  intros Hw. unfold macro_struct, or_die. destruct (struct_array _ _) as [|a'] eqn:Hs; [done|]. intros [= <-].
  apply struct_array_spec in Hs as ->; [|done]. cbn [a_values]. unfold row_struct. do 2 f_equal. unfold whole in Hw.
  induction Hw as [|c cs Hc _ IH]; [done|]. change (mjoin (map a_values (c :: cs))) with (a_values c ++ mjoin (map a_values cs)).
  rewrite IH. cbn [map]. unfold first. by destruct (a_values c) as [|v [|]].
Qed.

Lemma record_list_rows t records a :
  macro_record_list t records = Ok a → ∃ vs, a = mkArray t [V_list vs] ∧ (Forall whole records → vs = map row_struct records).
Proof using ArrowRecordLaws0 ComputeLaws0 ListOfLaws0.
  intros H. assert (∃ vs, a = mkArray t [V_list vs]) as [vs ->].
  { unfold macro_record_list in H. apply bind_Ok in H as (arrays & _ & (values & _ & H)%bind_Ok). unfold or_die in H.
    destruct (one_list _ _) as [|a'] eqn:Ha; [done|]. injection H as <-. apply one_list_spec in Ha as ->. by eexists. }
  exists vs. split; [done|]. intros Hw. apply (record_list_Ok (λ b v, v = row_struct b) _ records) in H as (vs' & [= <-] & Hall).
  - clear -Hall. induction Hall as [|b v bs vs -> _ IH]; cbn; [done|]. by f_equal.
  - apply Forall_Forall2_diag. eapply Forall_impl; [exact Hw|]. intros b Hb a Ha. cbn in Hb.
    exists (row_struct b). split; [by apply macro_struct_row|done].
Qed.

(** What an overload's record holds of its declaration. *)
Definition overload_is (spec : MacroOverloadSpec) (row : batch) : Prop :=
  b_schema row = MacroOverloadSchema ∧ b_rows row = 1 ∧
  get_string (Some row) "definition" = Ok (mo_definition spec) ∧
  get_string (Some row) "macro_type" = Ok (macro_type (mo_table_macro spec)) ∧
  get_schema_path (Some row) "schema_path" = Ok (mo_schema_path spec) ∧
  ∃ parameters, column (Some row) "parameters" = Ok (mkArray parameters_type [V_list parameters]) ∧
    Forall2 parameter_is (mo_parameters spec) parameters.

Lemma check_components_Ok path : check_components path = Ok tt → Forall (λ c, c ≠ []) path.
Proof using Type.
  induction path as [|c path IH]; cbn; [constructor|]. unfold check_text. rewrite bind_throw_if_Ok, !orb_false_iff, bool_decide_eq_false.
  intros [[[Hc _] _] H]. constructor; [done|by apply IH].
Qed.

Lemma macro_overload_Ok spec b :
  macro_overload spec = Ok b →
  (∃ row, decode_ipc b = Ok (Some row) ∧ overload_is spec row ∧ whole row) ∧
  NoDup (map folded (mo_parameters spec)) ∧ Forall (λ i, mp_name i ≠ []) (mo_parameters spec) ∧ defaults_last (mo_parameters spec).
Proof using All.
  unfold macro_overload. intros (row & Hrow & H)%bind_Ok. unfold overload_record in Hrow. unfold check_text at 1 in Hrow.
  rewrite !bind_throw_if_Ok in Hrow. destruct Hrow as (_ & Hpath%bool_decide_eq_false & Hrow).
  apply bind_Ok in Hrow as ([] & Hc%check_components_Ok & Hrow). apply bind_throw_if_Ok in Hrow as [_ Hrow].
  apply bind_Ok in Hrow as (ps & Hps & Hrow). apply bind_Ok in Hrow as (context & _ & Hrow). apply bind_Ok in Hrow as (parameters & Hp & Hrow).
  apply bind_Ok in Hrow as (context_struct & _ & Hrow).
  apply overload_parameters_Ok in Hps as (H1 & H2 & H3 & H4). destruct (record_list_Ok _ _ _ _ _ H4 Hp) as (vs & -> & HP).
  apply encode_ipc_read in H as (_ & _ & _ & Hd). split_and!; [|done|apply Forall_forall; intros; by apply H2|done].
  exists row. split; [done|]. destruct (build_shape _ _ _ _ Hrow ltac:(by_decide)) as (B1 & _ & B3 & Blen & _).
  assert (NoDup (map f_name MacroOverloadSchema)) as Hs by by_decide. split; cycle 1.
  { apply Forall_lookup. intros i arr Harr. destruct (lookup_lt_is_Some_2 MacroOverloadSchema i) as [f Hf].
    { rewrite <- Blen. by eapply lookup_lt_Some. }
    destruct (build_one_row _ _ _ _ Hrow Hs ltac:(by_decide) ltac:(by apply Forall_forall; by_decide) i f arr Hf Harr) as (c & v & _ & _ & ->). done. }
  assert (∀ n c t, NoDup (overload_cells spec (mkArray parameters_type [V_list vs]) context_struct).*1 →
    (n, c) ∈ overload_cells spec (mkArray parameters_type [V_list vs]) context_struct → type_named MacroOverloadSchema n = Some t → Wire.reads t (Some row) n c) as Hr.
  { intros n c t. by apply (built_read _ _ _ n c t Hrow Hs). }
  split_and!; [done|done| | | |].
  - eapply (Hr "definition"%string (Cell_string _) T_string); [by_decide|set_solver|done].
  - eapply (Hr "macro_type"%string (Cell_string _) T_string); [by_decide|set_solver|done].
  - eapply (Hr "schema_path"%string (Cell_string_list _)); [by_decide|set_solver|done|done|done].
  - exists vs. split; [|done]. destruct (Hr "parameters"%string (Cell_array (Some (mkArray parameters_type [V_list vs]))) parameters_type) as (u & x & rest & E & Hcol);
      [by_decide|set_solver|done|]. injection E as <- <- _. exact Hcol.
Qed.

(** An overload reads back as its declaration.  What [macro_overload] makes is the
    record of one overload with the definition, the kind and the schema that were
    given and a parameter for each that was given, in their order, with its type, its
    default and its documentation; it is made only of parameters whose names differ
    in more than case, and with no parameter without a default behind one that has
    one. *)
Theorem overload_reads spec b :
  macro_overload spec = Ok b →
  (∃ row, decode_ipc b = Ok (Some row) ∧ overload_is spec row) ∧
  NoDup (map folded (mo_parameters spec)) ∧ Forall (λ i, mp_name i ≠ []) (mo_parameters spec) ∧ defaults_last (mo_parameters spec).
Proof using All. intros ((row & ? & ? & _) & ?)%macro_overload_Ok. split; [by exists row|done]. Qed.

(** *** The row of a family *)

Lemma known_names_Ok {T} parameters (l : list (bytes * T)) what : known_names parameters l what = Ok tt ↔ Forall (λ e, e.1 ∈ parameters) l.
Proof using Type.
  induction l as [|e l IH]; cbn [known_names]; [by split; [constructor|]|].
  rewrite bind_throw_if_Ok, negb_false_iff, bool_decide_eq_true, IH. by rewrite Forall_cons.
Qed.

Lemma simple_names_Ok macro parameters names :
  simple_names macro parameters names = Ok tt →
  Forall (λ n, (count_of n (mc_defaults macro) ≤ 1)%nat ∧ (count_of n (mc_parameter_docs macro) ≤ 1)%nat) parameters.
Proof using Type.
  revert names. induction parameters as [|n parameters IH]; intros names; cbn [simple_names]; [constructor|].
  rewrite !bind_throw_if_Ok. intros (_ & [H1%Nat.ltb_ge H2%Nat.ltb_ge]%orb_false_iff & H). constructor; [done|by eapply IH].
Qed.

Lemma macro_overloads_simple macro path l :
  mc_overloads macro = None → macro_overloads macro path = Ok l →
  (∃ o, l = [o] ∧ overload_is (simple_overload macro path) o ∧ whole o) ∧
  NoDup (map SqlScalar.lower (mc_parameters macro)) ∧ Forall (λ n, n ≠ []) (mc_parameters macro) ∧
  Forall (λ e, e.1 ∈ mc_parameters macro) (mc_defaults macro) ∧ Forall (λ e, e.1 ∈ mc_parameters macro) (mc_parameter_docs macro) ∧
  Forall (λ n, (count_of n (mc_defaults macro) ≤ 1)%nat ∧ (count_of n (mc_parameter_docs macro) ≤ 1)%nat) (mc_parameters macro).
Proof using All.
  intros Hnone. unfold macro_overloads. rewrite Hnone. rewrite bind_throw_if_Ok. intros (_ & H).
  apply bind_Ok in H as ([] & H1%known_names_Ok & H). apply bind_Ok in H as ([] & H2%known_names_Ok & H).
  apply bind_Ok in H as ([] & H3%simple_names_Ok & H). apply bind_Ok in H as (b & Hb & H).
  apply bind_Ok in H as (o & Ho & H). apply bind_Ok in H as (overload & ->%from_opt_Ok & [= <-]).
  apply macro_overload_Ok in Hb as ((row & Hd & His & Hwh) & H4 & H5 & _). rewrite Hd in Ho. injection Ho as ->.
  cbn [simple_overload mo_parameters] in H4, H5. rewrite map_map in H4. rewrite List.Forall_map in H5.
  split_and!; [by eexists|exact H4|exact H5|done..].
Qed.

Lemma family_overload_Ok path kind e o :
  family_overload path kind e = Ok o →
  decode_ipc e = Ok (Some o) ∧ b_rows o = 1 ∧ get_schema_path (Some o) "schema_path" = Ok path ∧ get_string (Some o) "macro_type" = Ok kind ∧
  ∃ expressions, default_expressions o = Ok expressions ∧ Forall (λ v, v = V_null) (a_values expressions).
Proof using Type.
  unfold family_overload. intros (r & Hd & H)%bind_Ok. apply bind_Ok in H as (overload & ->%from_opt_Ok & H).
  destruct (b_rows overload =? 1) eqn:H1; [|done]. cbn [negb] in H. destruct (schema_equals _ _ _ && _); [|done]. cbn [negb] in H.
  apply bind_Ok in H as (owner & Hp & H). case_bool_decide as Hpath; [|done]. cbn [negb] in H.
  apply bind_Ok in H as (declared & Hk & H). case_bool_decide as Hkind; [|done]. cbn [negb] in H. subst.
  apply bind_Ok in H as (expressions & He & H). apply bind_throw_if_Ok in H as [Hnull [= <-]]. apply negb_false_iff in Hnull.
  split_and!; [done|by apply Z.eqb_eq|done|done|]. exists expressions. split; [done|]. apply Forall_forall.
  intros v Hv%list_elem_of_In. pose proof (proj1 (forallb_forall _ _) Hnull v Hv) as Hn. by destruct v.
Qed.

(** C17. The row of a macro is that of its declaration.  The row of a family reads back
    with its name, its schema, its kind and its comment, and its column of overloads
    is the list of their records, in order.  A
    simple macro has one, that of its definition: its parameters in their order, each
    with the one default and the one text that the declaration has for its name --
    which no other parameter has in any case of letters -- and every default and every
    text is of a parameter.  The overloads of a declared family are those it was given,
    each of this macro's kind and schema and without unresolved defaults. *)
Theorem macro_served macro path item :
  encode_macro_info macro path = Ok item →
  ∃ row overloads listed, decode_ipc item = Ok (Some row) ∧
    get_string (Some row) "name" = Ok (mc_name macro) ∧
    (wire_path path → get_schema_path (Some row) "schema_path" = Ok path) ∧
    get_enum (Some row) "macro_type" = Ok (if mc_table_macro macro then bs "TABLE" else bs "SCALAR") ∧
    get_optional_string (Some row) "comment" = Ok (mc_comment macro) ∧
    column (Some row) "overloads" = Ok (mkArray overloads_type [V_list listed]) ∧
    match mc_overloads macro with
    | None => (∃ o, overloads = [o] ∧ listed = [row_struct o] ∧ overload_is (simple_overload macro path) o) ∧
        NoDup (map SqlScalar.lower (mc_parameters macro)) ∧
        Forall (λ e, e.1 ∈ mc_parameters macro) (mc_defaults macro) ∧ Forall (λ e, e.1 ∈ mc_parameters macro) (mc_parameter_docs macro) ∧
        Forall (λ n, (count_of n (mc_defaults macro) ≤ 1)%nat ∧ (count_of n (mc_parameter_docs macro) ≤ 1)%nat) (mc_parameters macro)
    | Some l => l ≠ [] ∧ simple_fields macro = false ∧ (Forall whole overloads → listed = map row_struct overloads) ∧
        Forall2 (λ e o, decode_ipc e = Ok (Some o) ∧ b_rows o = 1 ∧ get_schema_path (Some o) "schema_path" = Ok path ∧
                        get_string (Some o) "macro_type" = Ok (macro_type (mc_table_macro macro)) ∧
                        ∃ expressions, default_expressions o = Ok expressions ∧ Forall (λ v, v = V_null) (a_values expressions)) l overloads
    end.
Proof using All.
  unfold encode_macro_info. intros (overloads & Ho & H)%bind_Ok. apply bind_Ok in H as (a & Ha & H). apply bind_Ok in H as (row & Hrow & H).
  apply encode_ipc_read in H as (_ & _ & _ & Hd). apply record_list_rows in Ha as (listed & -> & Hlisted). exists row, overloads, listed.
  assert (NoDup (map f_name MacroInfoSchema)) as Hs by by_decide. set (a := mkArray overloads_type [V_list listed]) in *.
  assert (∀ n c t, NoDup (info_cells macro path a).*1 → (n, c) ∈ info_cells macro path a → type_named MacroInfoSchema n = Some t → Wire.reads t (Some row) n c) as Hr.
  { intros n c t. by apply (filled_read _ _ _ n c t Hrow Hs). }
  split_and!; [done| | | | | |].
  - eapply (Hr "name"%string (Cell_string _) T_string); [by_decide|set_solver|done].
  - intros [Hne Hfull]. eapply (Hr "schema_path"%string (Cell_string_list _)); [by_decide|set_solver|done|done|done].
  - eapply (Hr "macro_type"%string (Cell_enum _)); [by_decide|set_solver|done].
  - eapply (Hr "comment"%string (Cell_optional_string _)); [by_decide|set_solver|done|done].
  - destruct (Hr "overloads"%string (Cell_array (Some a)) overloads_type) as (u & x & rest & E & Hcol); [by_decide|set_solver|done|].
    injection E as <- <- _. exact Hcol.
  - destruct (mc_overloads macro) as [l|] eqn:Hm.
    + unfold macro_overloads in Ho. rewrite Hm in Ho. apply bind_throw_if_Ok in Ho as [[Hne%bool_decide_eq_false Hsimple]%orb_false_iff Ho].
      split_and!; [done..|]. clear -Ho ArrowLaws0. revert overloads Ho. induction l as [|e l IH]; intros overloads; cbn [mapM].
      { intros [= <-]. constructor. }
      intros (o & He & (rest & Hrest & [= <-])%bind_Ok)%bind_Ok. constructor; [|by apply IH].
      apply family_overload_Ok in He as (H1 & H0 & H2 & H3 & H4). done.
    + apply macro_overloads_simple in Ho as ((o & -> & Ho & Hw) & H2 & _ & H3); [|done].
      split; [|done]. exists o. split_and!; [done| |done]. apply Hlisted. by constructor.
Qed.
End made.

(** ** At work *)

Definition plain_list : ListOf := λ t values, inr (mkArray t [V_list (a_values values)]).
Lemma plain_list_laws : ListOfLaws plain_list.
Proof. by intros t values a [= <-]. Qed.
#[local] Existing Instances table_record toy_compute plain_list.

(** [add(a, b := 3)] *)
Definition add_macro : CatalogMacro := mkMacro (bs "add") [bs "a"; bs "B"] (bs "a + b") false None [(bs "B", 3)] [(bs "a", bs "left")] None.
Definition add_overload : MacroOverloadSpec := simple_overload add_macro main_schema.
Definition three_batches : list batch := [default_batch (bs "B") (mkArray T_int64 [V_int 3])].
Definition add_batches : list batch :=
  three_batches ++
  row_of (overload_record (A := schema_arrow three_batches) (L := list_codec three_batches []) add_overload) ++
  match macro_record_list overloads_type (row_of (overload_record (A := schema_arrow three_batches) (L := list_codec three_batches []) add_overload)) with
  | Ok overloads => row_of (build_filled (A := table_arrow []) MacroInfoSchema None (info_cells add_macro main_schema overloads))
  | Throw _ => []
  end.
Definition add_arrow : Arrow := schema_arrow add_batches.
Definition add_codec : SchemaCodec := list_codec add_batches [].
#[local] Existing Instances add_arrow add_codec.

Lemma add_record_laws : ArrowRecordLaws add_arrow table_record.
Proof. destruct (table_record_laws add_batches). by split. Qed.

Lemma overload_reads_witness :
  macro_overload add_overload = Ok (ConstraintsSpec.sample_bytes 1) ∧
  ∃ row, decode_ipc (ConstraintsSpec.sample_bytes 1) = Ok (Some row) ∧ get_string (Some row) "definition" = Ok (bs "a + b").
Proof.
  pose proof (schema_arrow_laws add_batches) as HA. pose proof add_record_laws as HR. pose proof toy_compute_laws as HC.
  pose proof (list_codec_laws add_batches []) as HL. pose proof plain_list_laws as HM.
  assert (macro_overload add_overload = Ok (ConstraintsSpec.sample_bytes 1)) as H by (vm_compute; reflexivity).
  split; [exact H|]. destruct (overload_reads (A := add_arrow) (L := add_codec) _ _ H) as ((row & Hd & _ & _ & Hdef & _) & _).
  exists row. split; [exact Hd|exact Hdef].
Defined.

Lemma macro_served_witness :
  encode_macro_info add_macro main_schema = Ok (ConstraintsSpec.sample_bytes 2) ∧
  ∃ row o, decode_ipc (ConstraintsSpec.sample_bytes 2) = Ok (Some row) ∧ get_string (Some row) "name" = Ok (bs "add") ∧
    get_enum (Some row) "macro_type" = Ok (bs "SCALAR") ∧
    column (Some row) "overloads" = Ok (mkArray overloads_type [V_list [row_struct o]]) ∧
    get_string (Some o) "definition" = Ok (bs "a + b").
Proof.
  pose proof (schema_arrow_laws add_batches) as HA. pose proof add_record_laws as HR. pose proof toy_compute_laws as HC.
  pose proof (list_codec_laws add_batches []) as HL. pose proof plain_list_laws as HM.
  assert (encode_macro_info add_macro main_schema = Ok (ConstraintsSpec.sample_bytes 2)) as H by (vm_compute; reflexivity).
  split; [exact H|]. destruct (macro_served (A := add_arrow) (L := add_codec) _ _ _ H)
    as (row & overloads & listed & Hd & Hn & _ & Hk & _ & Hl & (o & _ & Ho & _ & _ & Hdef & _) & _).
  exists row, o. rewrite Ho in Hl. split_and!; [exact Hd|exact Hn|exact Hk|exact Hl|exact Hdef].
Defined.

End Macros.
