(* ===== verification/Catalogs.v ===== *)
(** * Declared catalogs ([src/catalog.cpp], [include/vgi/catalog.h])

    What a worker declares of its catalogs, and the check it makes of all of it when
    it starts.  The theorem: of a declaration that passes, the row of information of
    every table, in every version an AT clause can select, of every view and of every
    macro is made without an error, and every foreign key refers to a key of a table
    of the same catalog, over the columns that the key has. *)

From S2P Require Import Prelude Text Arrow ArrowRecord ArrowCompute Wire Metadata Json WireSchema Constraints ConstraintsSpec Capabilities AttachService Attachment Plan Dispatch Contents MemoryCatalog Versions Statistics Tables Macros.
Import Wire Metadata Json WireSchema Constraints Capabilities Dispatch Versions Statistics Tables Macros.

Module Catalogs.

(** ** What is declared *)

Record SettingSpec := mkSetting { se_name : bytes; se_description : bytes; se_type : dtype }.
Record SecretTypeSpec := mkSecretType { sy_name : bytes; sy_description : bytes; sy_parameters : schema }.

Record CatalogSchema := mkCatalogSchema {
  sh_path : list bytes;
  sh_comment : option bytes;
  sh_tags : list (bytes * bytes);
  sh_tables : list CatalogTable;
  sh_views : list CatalogView;
  sh_macros : list CatalogMacro;
}.

(** [cl_model]: the name and the options of an ATTACH.  [cl_version_schemas] is in the
    order of its keys. *)
Record CatalogModel := mkCatalogModel {
  cl_model : Attachment.CatalogModel;
  cl_implementation_version : bytes;
  cl_source_url : bytes;
  cl_supported_data_versions : list bytes;
  cl_default_data_version : option bytes;
  cl_supported_implementation_versions : list bytes;
  cl_data_version_spec : option bytes;
  cl_comment : option bytes;
  cl_tags : list (bytes * bytes);
  cl_catalog_read_profiles : list bytes;
  cl_global_functions : list bytes;
  cl_global_function_prefix : bytes;
  cl_supports_time_travel : bool;
  cl_supports_transactions : bool;
  cl_supports_catalog_contents : bool;
  cl_catalog_contents_handler : option Contents.Handler;
  cl_catalog_contents_etag : Contents.CatalogContentsEtag;
  cl_settings : list SettingSpec;
  cl_secret_types : list SecretTypeSpec;
  cl_npm_version_resolution : bool;
  cl_version_schemas : list (bytes * list CatalogSchema);
  cl_schemas : list CatalogSchema;
}.
Definition cl_name (m : CatalogModel) : bytes := Attachment.cm_name (cl_model m).

(** ** The check *)

(** The version a clause selects of a table. *)
Definition table_version (table : CatalogTable) (at_unit at_value : option bytes) : result (option TimeTravelVersion) :=
  resolve_version (ct_time_travel table) (bool_decide (is_Some (ct_branches table)) || ct_supports_time_travel table) at_unit at_value.

Definition versions_of (table : CatalogTable) : list (option TimeTravelVersion) :=
  match ct_time_travel table with [] => [None] | l => map Some l end.

(** A table of a schema, by name. *)
Abbreviation table_key := (list bytes * bytes)%type.
Abbreviation records_by_table := (gmap (list bytes * bytes) (list ConstraintRecordView)).

Section catalogs.
Context `{A : Arrow} `{R : ArrowRecord} `{C : Compute} `{L : SchemaCodec} `{B : Base64} `{J : JsonParser} `{M : ListOf}.

Definition is_foreign (record : ConstraintRecordView) : bool := match cv_kind record with Constraints.ForeignKey => true | _ => false end.

Definition version_owner (table : CatalogTable) (path : list bytes) (version : option TimeTravelVersion) : string :=
  str (schema_path_string path) +:+ "." +:+ str (ct_name table) +:+ version_scope version.

(** A version: its row is made; its foreign keys. *)
Definition check_version (path : list bytes) (table : CatalogTable) (version : option TimeTravelVersion)
    : result (list (string * ConstraintRecordView)) :=
  _ ← encode_table_info table path version;
  records ← mapM read_constraint_record (records_of table version);
  Ok (map (pair (version_owner table path version)) (filter (λ r, is_foreign r = true) records)).

(** A table: the foreign keys of its versions, and the records it serves. *)
Definition check_table (path : list bytes) (table : CatalogTable) : result (list (string * ConstraintRecordView) * list ConstraintRecordView) :=
  foreign ← mapM (check_version path table) (versions_of table);
  current ← table_version table None None;
  served ← mapM read_constraint_record (records_of table current);
  Ok (concat foreign, served).

Fixpoint check_tables (path : list bytes) (tables : list CatalogTable) (keys : records_by_table) (foreign : list (string * ConstraintRecordView))
    : result (records_by_table * list (string * ConstraintRecordView)) :=
  match tables with
  | [] => Ok (keys, foreign)
  | table :: tables =>
      '(found, served) ← check_table path table;
      let key := (path, ct_name table) in
      check_tables path tables (<[key := default [] (keys !! key) ++ served]> keys) (foreign ++ found)
  end.

Fixpoint check_views (path : list bytes) (views : list CatalogView) : result () :=
  match views with [] => Ok tt | v :: views => _ ← encode_view_info v path; check_views path views end.
Fixpoint check_macros (path : list bytes) (macros : list CatalogMacro) : result () :=
  match macros with
  | [] => Ok tt
  | m :: macros =>
      _ ← rephrased (λ e, "Macro '" +:+ str (schema_path_string path) +:+ "." +:+ str (mc_name m) +:+ "': " +:+ e) (encode_macro_info m path);
      check_macros path macros
  end.

Fixpoint check_schemas (schemas : list CatalogSchema) (keys : records_by_table) (foreign : list (string * ConstraintRecordView))
    : result (records_by_table * list (string * ConstraintRecordView)) :=
  match schemas with
  | [] => Ok (keys, foreign)
  | s :: schemas =>
      '(keys, foreign) ← check_tables (sh_path s) (sh_tables s) keys foreign;
      check_views (sh_path s) (sh_views s);;
      check_macros (sh_path s) (sh_macros s);;
      check_schemas schemas keys foreign
  end.

Definition is_key (record : ConstraintRecordView) : bool := match cv_kind record with PrimaryKey | Unique => true | _ => false end.

(** A foreign key and the key it names. *)
Definition check_reference (keys : records_by_table) (e : string * ConstraintRecordView) : result () :=
  let '(owner, record) := e in
  ref ← from_opt (Undefined_behaviour "the value of an empty std::optional") (cv_references record);
  let prefix := "Table '" +:+ owner +:+ "': constraint '" +:+ str (cv_id record) +:+ "' " in
  match keys !! (ref_schema_path ref, ref_table ref) with
  | None =>
      Throw (Invalid_argument (prefix +:+ "references table " +:+ str (schema_path_string (ref_schema_path ref)) +:+ "." +:+ str (ref_table ref) +:+
                               ", which this catalog does not declare"))
  | Some records =>
      match List.find (λ r, bool_decide (cv_id r = ref_constraint_id ref)) records with
      | Some key =>
          if is_key key then
            throw_if (negb (bool_decide (cv_columns key = ref_columns ref)))
              (Invalid_argument (prefix +:+ "references columns that differ from key '" +:+ str (ref_constraint_id ref) +:+ "'"))
          else Throw (Invalid_argument (prefix +:+ "references key '" +:+ str (ref_constraint_id ref) +:+
                                        "', which is not a PRIMARY_KEY or UNIQUE record of " +:+ str (ref_table ref)))
      | None => Throw (Invalid_argument (prefix +:+ "references key '" +:+ str (ref_constraint_id ref) +:+
                                         "', which is not a PRIMARY_KEY or UNIQUE record of " +:+ str (ref_table ref)))
      end
  end.
Fixpoint check_references (keys : records_by_table) (foreign : list (string * ConstraintRecordView)) : result () :=
  match foreign with [] => Ok tt | e :: foreign => check_reference keys e;; check_references keys foreign end.

(** The schemas that one attachment is served. *)
Definition check_declared (schemas : list CatalogSchema) : result () :=
  '(keys, foreign) ← check_schemas schemas ∅ [];
  check_references keys foreign.

Fixpoint check_version_schemas (name : bytes) (l : list (bytes * list CatalogSchema)) : result () :=
  match l with
  | [] => Ok tt
  | (data_version, schemas) :: l =>
      rephrased (λ m, "catalog '" +:+ str name +:+ "' data version " +:+ str data_version +:+ ": " +:+ m) (check_declared schemas);;
      check_version_schemas name l
  end.

Definition validate_catalog (m : CatalogModel) : result () :=
  rephrased (λ e, "catalog '" +:+ str (cl_name m) +:+ "': " +:+ e)
    (_ ← encode_catalog_capabilities (mkProfiles (cl_catalog_read_profiles m) [] [] []); check_declared (cl_schemas m));;
  check_version_schemas (cl_name m) (cl_version_schemas m).

Fixpoint validate_catalogs (l : list CatalogModel) : result () :=
  match l with [] => Ok tt | m :: l => validate_catalog m;; validate_catalogs l end.

(** ** What passes is served *)

(** What one attachment may be served of a catalog: its declared schemas, or those of a data version. *)
Definition served_schemas (m : CatalogModel) : list (list CatalogSchema) := cl_schemas m :: (cl_version_schemas m).*2.

Definition table_encodes (path : list bytes) (table : CatalogTable) : Prop :=
  ∀ at_unit at_value version, table_version table at_unit at_value = Ok version → ∃ item, encode_table_info table path version = Ok item.

(** A foreign key finds its key: a record that a table of the schemas serves. *)
Definition reference_found (schemas : list CatalogSchema) (record : ConstraintRecordView) : Prop :=
  ∃ ref, cv_references record = Some ref ∧
    ∃ s table current b key, s ∈ schemas ∧ table ∈ sh_tables s ∧ sh_path s = ref_schema_path ref ∧ ct_name table = ref_table ref ∧
      table_version table None None = Ok current ∧ b ∈ records_of table current ∧ read_constraint_record b = Ok key ∧
      cv_id key = ref_constraint_id ref ∧ is_key key = true ∧ cv_columns key = ref_columns ref.

Definition sound_schemas (schemas : list CatalogSchema) : Prop :=
  ∀ s, s ∈ schemas →
    (∀ table, table ∈ sh_tables s → table_encodes (sh_path s) table ∧
       ∀ version b record, version ∈ versions_of table → b ∈ records_of table version → read_constraint_record b = Ok record →
         is_foreign record = true → reference_found schemas record) ∧
    (∀ view, view ∈ sh_views s → ∃ item, encode_view_info view (sh_path s) = Ok item) ∧
    (∀ macro, macro ∈ sh_macros s → ∃ item, encode_macro_info macro (sh_path s) = Ok item).

Lemma mapM_all {X Y} (f : X → result Y) l k : mapM f l = Ok k → Forall2 (λ x y, f x = Ok y) l k.
Proof using Type.
  revert k. induction l as [|x l IH]; intros k; cbn [mapM]; [intros [= <-]; constructor|].
  intros (y & Hy & (rest & Hr & [= <-])%bind_Ok)%bind_Ok. constructor; [done|by apply IH].
Qed.

Lemma newest_from_elem (l : list TimeTravelVersion) found v : newest_from found l = Some v → v ∈ l ∨ found = Some v.
Proof using Type.
  revert found. induction l as [|x l IH]; intros found; cbn [newest_from]; [by right|]. intros [Hv|Hf]%IH; [left; by right|].
  destruct found as [f|]; [destruct (_ <? _)|]; try (injection Hf as <-; left; left); by right.
Qed.

(** What a clause selects is one of the versions. *)
Lemma selected_version table at_unit at_value version : table_version table at_unit at_value = Ok version → version ∈ versions_of table.
Proof using Type.
  unfold table_version, resolve_version, versions_of. destruct (ct_time_travel table) as [|x l]; cbn [length].
  { rewrite bool_decide_true by done. intros (u & _ & [= <-])%bind_Ok. left. }
  rewrite bool_decide_false by done. cbv zeta.
  assert (∀ v, v ∈ x :: l → Some v ∈ map Some (x :: l)) as Hin by (intros v Hv; by apply (list_elem_of_fmap_2 Some)).
  destruct (negb _).
  - intros [= Hn]. unfold newest in Hn. destruct version as [v|]; [|by apply newest_from_some in Hn as [? _]].
    apply newest_from_elem in Hn as [Hv|?]; [by apply Hin|done].
  - case_bool_decide.
    + intros (v & Hf%from_opt_Ok & [= <-])%bind_Ok. apply List.find_some in Hf as [Hv%list_elem_of_In _]. by apply Hin.
    + case_bool_decide; [|done]. destruct (newest _) as [v|] eqn:Hn; [|done]. intros [= <-].
      apply newest_from_elem in Hn as [Hv|?]; [|done]. apply Hin. by apply list_elem_of_filter in Hv as [_ Hv].
Qed.
(** What the records found so far come from. *)
Definition served_by (schemas : list CatalogSchema) (keys : records_by_table) : Prop :=
  ∀ path name records key, keys !! (path, name) = Some records → key ∈ records →
    ∃ s table current b, s ∈ schemas ∧ table ∈ sh_tables s ∧ sh_path s = path ∧ ct_name table = name ∧
      table_version table None None = Ok current ∧ b ∈ records_of table current ∧ read_constraint_record b = Ok key.

Lemma check_version_Ok path table version foreign : check_version path table version = Ok foreign →
  (∃ item, encode_table_info table path version = Ok item) ∧
  ∀ b record, b ∈ records_of table version → read_constraint_record b = Ok record → is_foreign record = true →
    (version_owner table path version, record) ∈ foreign.
Proof using Type.
  unfold check_version. intros (item & Hi & (records & Hm%mapM_all & [= <-])%bind_Ok)%bind_Ok. split; [by exists item|].
  intros b record [i Hb]%list_elem_of_lookup Hr Hf. destruct (Forall2_lookup_l _ _ _ _ _ Hm Hb) as (r & Hl & Hr').
  assert (r = record) as -> by congruence. apply list_elem_of_fmap. exists record. split; [done|].
  apply list_elem_of_filter. split; [done|]. by eapply list_elem_of_lookup_2.
Qed.

Lemma check_table_Ok path table foreign served : check_table path table = Ok (foreign, served) →
  table_encodes path table ∧
  (∀ version b record, version ∈ versions_of table → b ∈ records_of table version → read_constraint_record b = Ok record →
     is_foreign record = true → ∃ owner, (owner, record) ∈ foreign) ∧
  ∀ key, key ∈ served → ∃ current b, table_version table None None = Ok current ∧ b ∈ records_of table current ∧ read_constraint_record b = Ok key.
Proof using Type.
  unfold check_table. intros H. apply bind_Ok in H as (found & Hm%mapM_all & H).
  apply bind_Ok in H as (current & Hc & H). apply bind_Ok in H as (s & Hs%mapM_all & [= <- <-]). 
  assert (∀ version, version ∈ versions_of table → ∃ l, l ∈ found ∧ check_version path table version = Ok l) as Hv.
  { intros version [i Hi]%list_elem_of_lookup. destruct (Forall2_lookup_l _ _ _ _ _ Hm Hi) as (l & Hl & H).
    exists l. split; [by eapply list_elem_of_lookup_2|done]. }
  split_and!.
  - intros u v version Hsel%selected_version. destruct (Hv _ Hsel) as (l & _ & [H _]%check_version_Ok). done.
  - intros version b record Hin Hb Hr Hf. destruct (Hv _ Hin) as (l & Hl & [_ H]%check_version_Ok).
    eexists. apply list_elem_of_In, in_concat. exists l. split; [by apply list_elem_of_In|]. apply list_elem_of_In. by eapply H.
  - intros key [i Hk]%list_elem_of_lookup. destruct (Forall2_lookup_r _ _ _ _ _ Hs Hk) as (b & Hb & Hr).
    exists current, b. split_and!; [done|by eapply list_elem_of_lookup_2|done].
Qed.

Lemma check_tables_Ok schemas s tables keys foreign keys' foreign' :
  s ∈ schemas → tables ⊆ sh_tables s → served_by schemas keys →
  check_tables (sh_path s) tables keys foreign = Ok (keys', foreign') →
  served_by schemas keys' ∧ foreign ⊆ foreign' ∧
  ∀ table, table ∈ tables → table_encodes (sh_path s) table ∧
    ∀ version b record, version ∈ versions_of table → b ∈ records_of table version → read_constraint_record b = Ok record →
      is_foreign record = true → ∃ owner, (owner, record) ∈ foreign'.
Proof using Type.
  intros Hs. revert keys foreign. induction tables as [|table tables IH]; intros keys foreign Hin Hk; cbn [check_tables].
  { intros [= <- <-]. split_and!; [done|done|]. by intros table ?%not_elem_of_nil. }
  intros H. apply bind_Ok in H as ([found served] & (He & Hf & Hv)%check_table_Ok & H). cbv zeta in H.
  apply IH in H as (Hk' & Hsub & Hall).
  - split_and!; [done|set_solver|]. intros t [->|Ht]%elem_of_cons; [|by apply Hall]. split; [done|].
    intros version b record H1 H2 H3 H4. destruct (Hf _ _ _ H1 H2 H3 H4) as [owner Ho]. exists owner. set_solver.
  - set_solver.
  - intros path name records key. destruct (decide ((sh_path s, ct_name table) = (path, name))) as [[= <- <-]|Hne].
    + rewrite lookup_insert_eq. intros [= <-] [Hold|Hnew]%elem_of_app.
      * destruct (keys !! (sh_path s, ct_name table)) as [old|] eqn:Ho; [by eapply Hk|by apply not_elem_of_nil in Hold].
      * destruct (Hv _ Hnew) as (current & b & ? & ? & ?). exists s, table, current, b. split_and!; try done. apply Hin. left.
    + rewrite lookup_insert_ne by done. apply Hk.
Qed.

Lemma check_views_Ok path views : check_views path views = Ok tt → ∀ view, view ∈ views → ∃ item, encode_view_info view path = Ok item.
Proof using Type.
  induction views as [|v views IH]; cbn [check_views]; [by intros _ view ?%not_elem_of_nil|].
  intros (item & Hi & H)%bind_Ok view [->|Hv]%elem_of_cons; [by exists item|by apply IH].
Qed.
Lemma check_macros_Ok path macros : check_macros path macros = Ok tt → ∀ m, m ∈ macros → ∃ item, encode_macro_info m path = Ok item.
Proof using Type.
  induction macros as [|v macros IH]; cbn [check_macros]; [by intros _ m ?%not_elem_of_nil|].
  intros (item & Hi%rephrased_Ok & H)%bind_Ok m [->|Hv]%elem_of_cons; [by exists item|by apply IH].
Qed.

(** A schema is sound as far as [foreign] holds the foreign keys of its tables. *)
Definition collected (foreign : list (string * ConstraintRecordView)) (s : CatalogSchema) : Prop :=
  (∀ table, table ∈ sh_tables s → table_encodes (sh_path s) table ∧
     ∀ version b record, version ∈ versions_of table → b ∈ records_of table version → read_constraint_record b = Ok record →
       is_foreign record = true → ∃ owner, (owner, record) ∈ foreign) ∧
  (∀ view, view ∈ sh_views s → ∃ item, encode_view_info view (sh_path s) = Ok item) ∧
  (∀ macro, macro ∈ sh_macros s → ∃ item, encode_macro_info macro (sh_path s) = Ok item).

Lemma check_schemas_Ok schemas l keys foreign keys' foreign' :
  l ⊆ schemas → served_by schemas keys → check_schemas l keys foreign = Ok (keys', foreign') →
  served_by schemas keys' ∧ foreign ⊆ foreign' ∧ ∀ s, s ∈ l → collected foreign' s.
Proof using Type.
  revert keys foreign. induction l as [|s l IH]; intros keys foreign Hin Hk; cbn [check_schemas].
  { intros [= <- <-]. split_and!; [done|done|]. by intros s ?%not_elem_of_nil. }
  intros H. apply bind_Ok in H as ([k f] & H1 & H). apply bind_Ok in H as ([] & Hv & H). apply bind_Ok in H as ([] & Hm & H).
  apply (check_tables_Ok schemas) in H1 as (Hk1 & Hf1 & Ht); [|set_solver|done|done].
  apply IH in H as (Hk2 & Hf2 & Hall); [|set_solver|done]. split_and!; [done|set_solver|].
  intros s' [->|Hs]%elem_of_cons; [|by apply Hall]. split_and!; [|by apply check_views_Ok|by apply check_macros_Ok].
  intros table [He Hfor]%Ht. split; [done|]. intros version b record G1 G2 G3 G4.
  destruct (Hfor _ _ _ G1 G2 G3 G4) as [owner Ho]. exists owner. set_solver.
Qed.

Lemma check_reference_Ok schemas keys owner record :
  served_by schemas keys → check_reference keys (owner, record) = Ok tt → reference_found schemas record.
Proof using Type.
  unfold check_reference. intros Hk (ref & Href%from_opt_Ok & H)%bind_Ok. cbv zeta in H. exists ref. split; [done|].
  destruct (keys !! _) as [records|] eqn:Hr; [|done]. destruct (List.find _ _) as [key|] eqn:Hf; [|done].
  apply List.find_some in Hf as [Hin%list_elem_of_In Hid%bool_decide_eq_true]. destruct (is_key key) eqn:Hkey; [|done].
  apply throw_if_Ok in H. apply negb_false_iff, bool_decide_eq_true in H.
  destruct (Hk _ _ _ _ Hr Hin) as (s & table & current & b & ? & ? & ? & ? & ? & ? & ?). by exists s, table, current, b, key.
Qed.
Lemma check_references_Ok keys foreign : check_references keys foreign = Ok tt → ∀ e, e ∈ foreign → check_reference keys e = Ok tt.
Proof using Type.
  induction foreign as [|x foreign IH]; cbn [check_references]; [by intros _ e ?%not_elem_of_nil|].
  intros ([] & Hx & H)%bind_Ok e [->|He]%elem_of_cons; [done|by apply IH].
Qed.

Lemma check_declared_Ok schemas : check_declared schemas = Ok tt → sound_schemas schemas.
Proof using Type.
  unfold check_declared. intros ([keys foreign] & H & Hrefs)%bind_Ok. pose proof (check_references_Ok _ _ Hrefs) as Href.
  apply (check_schemas_Ok schemas) in H as (Hk & _ & Hall); [|done|by intros ???? ?%lookup_empty_Some].
  intros s (Ht & Hv & Hm)%Hall. split_and!; [|done|done]. intros table [He Hf]%Ht. split; [done|].
  intros version b record G1 G2 G3 G4. destruct (Hf _ _ _ G1 G2 G3 G4) as [owner Ho%Href]. by eapply check_reference_Ok.
Qed.

Lemma check_version_schemas_Ok name l : check_version_schemas name l = Ok tt → ∀ schemas, schemas ∈ l.*2 → check_declared schemas = Ok tt.
Proof using Type.
  induction l as [|[v x] l IH]; cbn [check_version_schemas]; [by intros _ s ?%not_elem_of_nil|].
  intros ([] & Hx%rephrased_Ok & H)%bind_Ok s [->|He]%elem_of_cons; [done|by apply IH].
Qed.

(** C29. Of the catalogs that pass the check made when a worker starts, nothing that is
    declared is refused when it is asked for: in the schemas of a catalog and in those of each
    of its data versions, the row of every table is made, at whatever version an AT clause
    selects of it, and so are those of every view and every macro; and every foreign key of every version
    of a table finds the table it names in the same schemas, serving (at no clause) a primary
    or unique key of the name it gives, over the columns it gives. *)
Theorem catalogs_served l : validate_catalogs l = Ok tt →
  ∀ m schemas, m ∈ l → schemas ∈ served_schemas m → sound_schemas schemas.
Proof using Type.
  induction l as [|x l IH]; cbn [validate_catalogs]; [by intros _ m ? ?%not_elem_of_nil|].
  intros ([] & Hx & H)%bind_Ok m schemas [->|He]%elem_of_cons; [|by apply IH]. unfold validate_catalog in Hx.
  apply bind_Ok in Hx as ([] & Hc%rephrased_Ok & Hv). apply bind_Ok in Hc as (? & _ & Hc).
  intros [->|Hin]%elem_of_cons; apply check_declared_Ok; [done|]. by eapply check_version_schemas_Ok.
Qed.
End catalogs.

(** ** At work *)

(** The parent of [Tables.child_table]: its key, over the columns the foreign key names. *)
Definition parent_columns (nullable : bool) : list field := [Field "id" T_int64 nullable []; Field "k" T_int64 nullable []]%string.
Definition parent_key (id : string) : ConstraintRecordSpec :=
  mkSpec [bs "main"] (bs "parent") (bs id) PrimaryKey [[bs "id"]; [bs "k"]] (Some Enforced) (Some AllRows) None None None.
Definition parent_table : CatalogTable :=
  mkTable [ConstraintsSpec.sample_bytes 13] None (bs "parent") (Some (parent_columns true, None))
    (bs "scan_parent") [] None None [] [] [] None [] [] [] [] [] [] [] false true.
Definition parent_schemas : list schema := [(child_served, None); (parent_columns false, None)].
Definition parent_batches : list batch :=
  child_batches ++
  ConstraintsSpec.sample_batch ConstraintDefinitionSchema (definition_cells "PRIMARY_KEY" (parent_key "parent_pk") None None) ++
  ConstraintsSpec.sample_batch ConstraintInfoSchema
    [("ref", Cell_binary (ConstraintsSpec.sample_bytes 2)); ("definition", Cell_binary (ConstraintsSpec.sample_bytes 12));
     ("enforcement", Cell_enum (bs "ENFORCED")); ("validation", Cell_enum (bs "ALL_ROWS"));
     ("referenced_constraint", Cell_null)]%string ++
  row_of (scan_record (A := table_arrow []) parent_table main_schema None) ++
  row_of (build_filled (A := table_arrow []) MemoryCatalog.TableInfoSchema None
            (table_cells parent_table main_schema None (schema_bytes 1) (ConstraintsSpec.sample_bytes 14) (ct_required_filters parent_table))) ++
  ConstraintsSpec.sample_batch CatalogCapabilitiesSchema (capability_cells (mkProfiles [] [] [] [])).
Definition parent_arrow : Arrow := schema_arrow parent_batches.
Definition parent_codec : SchemaCodec := list_codec parent_batches parent_schemas.
#[local] Existing Instances parent_arrow table_record toy_compute parent_codec hex_base64 Plan.no_json Macros.plain_list.

Definition family : CatalogModel :=
  let schemas := [mkCatalogSchema main_schema None [] [child_table; parent_table] [] []] in
  mkCatalogModel (Attachment.mkCatalog (bs "family") []) [] [] [] None [] None None [] [] [] [] true false false None Contents.Etag_none
    [] [] false [(bs "2.0.0", [mkCatalogSchema main_schema None [] [parent_table] [] []])] schemas.

Lemma catalogs_served_witness :
  validate_catalogs [family] = Ok tt ∧
  (∃ item, encode_table_info child_table main_schema None = Ok item) ∧
  ∃ ref, ref_table ref = bs "parent" ∧ ref_constraint_id ref = bs "parent_pk" ∧
    ∃ record, read_constraint_record (ConstraintsSpec.sample_bytes 5) = Ok record ∧ cv_references record = Some ref ∧
      reference_found (cl_schemas family) record.
Proof.
  assert (validate_catalogs [family] = Ok tt) as H by (vm_compute; reflexivity). split; [exact H|].
  assert (family ∈ [family]) as Hin by left. assert (cl_schemas family ∈ served_schemas family) as Hs by left.
  assert (mkCatalogSchema main_schema None [] [child_table; parent_table] [] [] ∈ cl_schemas family) as Hd by left.
  destruct (catalogs_served _ H family (cl_schemas family) Hin Hs _ Hd) as (Ht & _).
  assert (child_table ∈ [child_table; parent_table]) as Hc by left. destruct (Ht _ Hc) as [He Hf]. split.
  - apply (He None None). by vm_compute.
  - pose (record := view (ConstraintsSpec.decoded_of ConstraintsSpec.sample_foreign Enforced AllRows)).
    assert (read_constraint_record (ConstraintsSpec.sample_bytes 5) = Ok record) as Hr by (vm_compute; reflexivity).
    exists (mkReference [bs "main"] (bs "parent") [[bs "id"]; [bs "k"]] (bs "parent_pk")).
    split; [reflexivity|]. split; [reflexivity|]. exists record. split; [exact Hr|]. split; [reflexivity|].
    eapply (Hf None); [left|left|exact Hr|reflexivity].
Defined.

(** A key of another name, and no such table. *)
Example references_refused :
  validate_catalogs [mkCatalogModel (Attachment.mkCatalog (bs "family") []) [] [] [] None [] None None [] [] [] [] true false false None
    Contents.Etag_none [] [] false [] [mkCatalogSchema main_schema None [] [child_table] [] []]] =
  Throw (Invalid_argument "catalog 'family': Table 'main.child': constraint 'child_fk' references table main.parent, which this catalog does not declare").
Proof. vm_compute. done. Qed.

End Catalogs.
