(* ===== verification/Projection.v ===== *)
(** * Projection into a table function ([table_function_projection] of [src/function_dispatch.cpp])

    After a bind the engine may offer scalar expressions over the columns of a scan.
    The function says which of them it will compute; those become columns behind the
    ones it has.  The theorem: what is answered names expressions that the request
    offers, each once and in order, and the bind it puts in place of the one the
    request carries has the columns of that one, then those of the expressions that
    were taken, and nothing else of it is changed. *)

From Stdlib Require Import Sorted.
From S2P Require Import Prelude Text Crypto Arrow ArrowRecord ArrowCompute Wire Metadata Protocol Exchange Storage StorageSpec StorageClient AttachService Attachment WireSchema FunctionSpec Arguments Settings Json SqlScalar Constraints ConstraintsSpec Capabilities Columns Producer Functions Dispatch ArgCheck Calls Bind.
Import Wire Metadata Protocol StorageClient WireSchema FunctionSpec Arguments Columns Functions Dispatch Calls Bind.

Module Projection.

(** ** The schemas of the request ([vgi_protocol_schemas.hpp]) *)

Definition BindRequestSchema : list field :=
  [fld "function_name" T_string false; fld "arguments" T_binary false; fld "function_type" enum_type false;
   fld "input_schema" T_binary true; fld "settings" T_binary true; fld "secrets" T_binary true;
   fld "attach_opaque_data" T_binary true; fld "transaction_opaque_data" T_binary true;
   fld "resolved_secrets_provided" T_bool false; fld "at_unit" T_string true; fld "at_value" T_string true;
   fld "copy_from" (T_struct [fld "format" T_string false; fld "file_path" T_string false; fld "expected_schema" T_binary false]) true;
   fld "copy_to" (T_struct [fld "format" T_string false; fld "file_path" T_string false]) true;
   fld "schema_path" (list_of T_string) true; fld "argument_names" (list_of T_string) true].
Definition TableFunctionProjectionRequestSchema : list field :=
  [fld "bind_call" T_binary false; fld "bind_result" T_binary false; fld "expressions" (list_of T_large_binary) false;
   fld "result_schema" T_binary false].

(** ** What is proposed and what is taken ([include/vgi/table_function.h]) *)

(** The two schemas are there by the time the function sees them. *)
Record ProjectionProposal := mkProposal {
  pp_source_schema : schema;
  pp_result_schema : schema;
  pp_bind_opaque_data : bytes;
  pp_repeatability : BindRepeatability;
  pp_expressions : list batch;
}.
Record ProjectionAcceptance := mkAcceptance {
  pa_accepted_indices : list Z;
  pa_output_schema : option schema;
  pa_opaque_data : bytes;
}.

(** [Array::Equals], [KeyValueMetadata::Equals], and
    [dictionary()->IsNull(GetValueIndex(0))]: whether the first index of a dictionary
    array, itself not null, names a null of the dictionary. *)
Class ArrowEquals := {
  array_equals : array → array → bool;
  metadata_equals : list (string * string) → list (string * string) → bool;
  null_dictionary_value : array → bool;
}.

Definition read_repeatability `{A : Arrow} `{E : ArrowEquals} (row : option batch) : result BindRepeatability :=
  value ← get_enum row "repeatability";
  dictionary ← Wire.column row "repeatability";
  throw_if (null_dictionary_value dictionary) (Invalid_argument "null bind repeatability dictionary value");;
  if bool_decide (value = bs "UNKNOWN") then Ok Unknown
  else if bool_decide (value = bs "STABLE_WITHIN_QUERY") then Ok StableWithinQuery
  else Throw (Invalid_argument "invalid bind repeatability").

(** *** The names of the columns *)

Fixpoint distinct_names (fields : list field) (names : gset bytes) : result () :=
  match fields with
  | [] => Ok tt
  | f :: fields =>
      generated_text (bs (f_name f)) 4096;;
      let name := SqlScalar.lower (bs (f_name f)) in
      throw_if (bool_decide (name ∈ names)) (Invalid_argument "ambiguous projection column names");;
      distinct_names fields ({[name]} ∪ names)
  end.

(** *** The columns of the expressions that are taken *)

Fixpoint append_accepted (results : list field) (count previous : Z) (indices : list Z) : result (list field) :=
  match indices with
  | [] => Ok []
  | index :: indices =>
      throw_if ((index <=? previous) || (count <=? index)) (Invalid_argument "invalid accepted projection index");;
      f ← from_opt (Undefined_behaviour "Schema::field out of range") (results !! Z.to_nat index);
      rest ← append_accepted results count index indices;
      Ok (f :: rest)
  end.

Section projection.
Context `{A : Arrow} `{R : ArrowRecord} `{C : Compute} `{B : Base64} `{M : Memory} `{X : Settings.ScalarText} `{L : SchemaCodec} `{E : ArrowEquals}.
Context {S : Type} (d : Dispatcher S) (sealing : bool).
(** The function's own [projection]. *)
Context (projection : TableFunction S → BindParams → ProjectionProposal → prog ProjectionAcceptance).

Definition projection_record (b : bytes) (expected : list field) : result batch :=
  throw_if (bool_decide (b = []) || (eight_mib <? Z.of_nat (length b))) (Invalid_argument "invalid projection record size");;
  o ← (match read_stream b with inl status => Throw (Invalid_argument status) | inr o => Ok o end : result (option batch));
  row ← from_opt (Invalid_argument "invalid projection record schema/row count") o;
  throw_if (negb ((b_rows row =? 1) && schema_equals true (b_schema row) expected && Capabilities.no_metadata row &&
                  bool_decide (validate_full row = None)))
    (Invalid_argument "invalid projection record schema/row count");;
  throw_if (Capabilities.null_required expected (b_columns row)) (Invalid_argument "required projection field is NULL");;
  throw_if (negb (at_end (stream_rest b))) (Invalid_argument "projection requires one complete IPC batch");;
  Ok row.

Fixpoint no_lookups (original : batch) (names : list string) : result () :=
  match names with
  | [] => Ok tt
  | name :: names =>
      l ← get_string_list (Some original) name;
      throw_if (negb (bool_decide (l = []))) (Invalid_argument "projection cannot request secrets");;
      no_lookups original names
  end.

(** The expressions, of one owner and in one context. *)
Fixpoint read_expressions (owner : list bytes) (profiles : list bytes) (raws : list bytes) (context : option array) : result (list batch) :=
  match raws with
  | [] => Ok []
  | raw :: raws =>
      validate_generated_expression (base64_encode raw) owner;;
      throw_if (negb (bool_decide (scalar_profile ∈ profiles))) (Invalid_argument "projection profile was not offered");;
      expression ← decode_ipc raw;
      current ← Wire.column expression "evaluation_context";
      throw_if (match context with Some c => negb (array_equals c current) | None => false end)
        (Invalid_argument "projection contexts differ");;
      row ← from_opt (Undefined_behaviour "a null record batch") expression;
      rest ← read_expressions owner profiles raws (Some current);
      Ok (row :: rest)
  end.

(** [Schema::Equals], with the metadata of the fields and of the schema. *)
Definition same_metadata (a b : option (list (string * string))) : bool :=
  match default [] a, default [] b with
  | [], [] => true
  | [], _ | _, [] => false
  | a, b => metadata_equals a b
  end.
Definition schema_same (a b : schema) : bool := schema_equals true a.1 b.1 && same_metadata a.2 b.2.

(** The three records of a request. *)
Definition request_bytes (request : option batch) : result bytes :=
  b ← text_or_empty request "request";
  throw_if (eight_mib <? Z.of_nat (length b)) (Invalid_argument "projection exceeds 8MiB");;
  Ok b.

(** Everything that is asked of the request, before the function sees it. *)
Definition read_proposal (proposal call original : batch) (p : BindParams) : result (ProjectionProposal * list bytes) :=
  kind ← get_optional_enum (Some call) "function_type";
  throw_if ((negb (bool_decide (kind = Some kTable)) && negb (bool_decide (kind = Some (bs "TABLE")))) ||
            bool_decide (is_Some (bp_input_schema p)))
    (Invalid_argument "projection requires ordinary table and explicit owner");;
  path ← Wire.column (Some call) "schema_path";
  throw_if (is_null (first path)) (Invalid_argument "projection requires ordinary table and explicit owner");;
  profiles ← get_string_list (Some original) "projection_expression_profiles";
  throw_if (negb (valid_projection_profiles profiles)) (Invalid_argument "unsupported projection profile offer");;
  no_lookups original ["lookup_secret_types"; "lookup_scopes"; "lookup_names"]%string;;
  source ← get_schema (Some original) "output_schema";
  result_schema ← get_schema (Some proposal) "result_schema";
  opaque ← text_or_empty (Some original) "opaque_data";
  repeatability ← read_repeatability (Some original);
  raws ← get_binary_list (Some proposal) "expressions";
  let bad := Invalid_argument "invalid projection result schema/count" in
  throw_if (bool_decide (raws = []) || (1024 <? Z.of_nat (length raws))) bad;;
  source ← from_opt bad source;
  result_schema ← from_opt bad result_schema;
  throw_if (negb (bool_decide (length result_schema.1 = length raws)) || negb (bool_decide (default [] result_schema.2 = []))) bad;;
  distinct_names (source.1 ++ result_schema.1) ∅;;
  expressions ← read_expressions (bp_schema_path p) profiles raws None;
  Ok (mkProposal source result_schema opaque repeatability expressions, profiles).

(** The bind that replaces the first. *)
Definition replacement_cells (input : ProjectionProposal) (profiles : list bytes) (opaque encoded : bytes) : list (string * cell) :=
  [("output_schema", Cell_binary encoded); ("opaque_data", Cell_binary opaque);
   ("projection_expression_profiles", Cell_string_list profiles);
   ("repeatability", Cell_enum (repeatability_wire_value (pp_repeatability input)))]%string.

Definition replacement (input : ProjectionProposal) (profiles : list bytes) (accepted : ProjectionAcceptance) : result (option bytes) :=
  throw_if (negb (Bool.eqb (bool_decide (pa_accepted_indices accepted = [])) (negb (bool_decide (is_Some (pa_output_schema accepted))))))
    (Invalid_argument "indices and accepted bind result must occur together");;
  taken ← append_accepted (pp_result_schema input).1 (Z.of_nat (length (pp_expressions input))) (-1) (pa_accepted_indices accepted);
  match pa_output_schema accepted with
  | None => Ok None
  | Some output =>
      throw_if (negb (schema_same ((pp_source_schema input).1 ++ taken, (pp_source_schema input).2) output))
        (Invalid_argument "accepted projection changed append-only schema");;
      encoded ← encode_schema output;
      payload ← build_payload "bind" (replacement_cells input profiles (pa_opaque_data accepted) encoded);
      b ← encode_ipc payload;
      Ok (Some b)
  end.

Definition projection_payload (accepted : ProjectionAcceptance) (bind_result : option bytes) : result batch :=
  schema ← payload_schema_of "table_function_projection";
  schema ← from_opt (Undefined_behaviour "a null schema") schema;
  Ok (mkBatch schema None 1
        [mkArray (list_of T_int64) [V_list (map V_int (pa_accepted_indices accepted))];
         mkArray T_binary [match bind_result with Some b => V_text b | None => V_null end]]).

Definition projection_answer (accepted : ProjectionAcceptance) (bind_result : option bytes) : result batch :=
  payload ← projection_payload accepted bind_result;
  encoded ← encode_ipc payload;
  throw_if (eight_mib <? Z.of_nat (length encoded)) (Invalid_argument "projection response exceeds 8MiB");;
  build envelope_schema None [("result"%string, Cell_binary encoded)].

Definition table_function_projection (request : option batch) : prog batch :=
  b ← lift (request_bytes request);
  proposal ← lift (projection_record b TableFunctionProjectionRequestSchema);
  b ← lift (text_or_empty (Some proposal) "bind_call");
  call ← lift (projection_record b BindRequestSchema);
  b ← lift (text_or_empty (Some proposal) "bind_result");
  original ← lift (projection_record b BindResultSchema);
  p ← read_bind_request d sealing (Some call);
  input ← lift (read_proposal proposal call original p);
  name ← lift (get_string (Some call) "function_name");
  match find_table d name (scope_of p) (Some p) with
  | None => Fail (Invalid_argument "projection requires ordinary table")
  | Some table =>
      accepted ← projection table p input.1;
      lift (bind_result ← replacement input.1 input.2 accepted; projection_answer accepted bind_result)
  end.
End projection.

(** ** What is taken *)

Lemma distinct_names_Ok fields names : distinct_names fields names = Ok tt →
  NoDup (map (λ f, SqlScalar.lower (bs (f_name f))) fields) ∧ ∀ f, f ∈ fields → SqlScalar.lower (bs (f_name f)) ∉ names.
Proof.
  revert names. induction fields as [|f fields IH]; intros names; cbn [distinct_names map].
  { intros _. split; [constructor|by intros f ?%not_elem_of_nil]. }
  intros ([] & _ & H)%bind_Ok. cbv zeta in H. apply bind_throw_if_Ok in H as [Hn%bool_decide_eq_false (Hnd & Hout)%IH]. split.
  - constructor; [|done]. intros (g & Hg & Hin)%list_elem_of_fmap. apply (Hout g Hin). rewrite <- Hg. set_solver.
  - intros g [->|Hin]%elem_of_cons; [done|]. specialize (Hout g Hin). set_solver.
Qed.

Lemma append_accepted_Ok results count previous indices taken :
  append_accepted results count previous indices = Ok taken → -1 ≤ previous →
  StronglySorted Z.lt indices ∧ Forall (λ i, previous < i < count) indices ∧
  Forall2 (λ i f, results !! Z.to_nat i = Some f) indices taken.
Proof.
  revert previous taken. induction indices as [|i indices IH]; intros previous taken; cbn [append_accepted].
  { intros [= <-] _. split_and!; constructor. }
  rewrite bind_throw_if_Ok, orb_false_iff, !Z.leb_gt. intros [[H1 H2] (f & Hf%from_opt_Ok & (rest & Hrest & [= <-])%bind_Ok)%bind_Ok] Hp.
  destruct (IH i rest Hrest) as (I1 & I2 & I3); [lia|]. split_and!.
  - constructor; [done|]. eapply Forall_impl; [exact I2|]. cbn. lia.
  - constructor; [lia|]. eapply Forall_impl; [exact I2|]. cbn. lia.
  - by constructor.
Qed.

(** Metadata only tells schemas apart; and a value that is built from a text is not a
    null of its dictionary. *)
Class ArrowEqualsLaws (R : ArrowRecord) (E : ArrowEquals) : Prop := {
  schema_equals_weaker s t : schema_equals true s t = true → schema_equals false s t = true;
  text_in_dictionary t c s : null_dictionary_value (mkArray t [V_text (c :: s)]) = false;
}.

Section taken.
Context `{A : Arrow} `{R : ArrowRecord} `{C : Compute} `{B : Base64} `{M : Memory} `{X : Settings.ScalarText} `{L : SchemaCodec} `{E : ArrowEquals}.
Context `{!ArrowLaws A} `{!ArrowRecordLaws A R} `{!SchemaCodecLaws A L} `{!ArrowEqualsLaws R E}.
Context {S : Type} (d : Dispatcher S) (sealing : bool).
Context (projection : TableFunction S → BindParams → ProjectionProposal → prog ProjectionAcceptance).

(** A record in a field of another. *)
Definition carries (b : option batch) (at_ : string) (schema : list field) (row : batch) : Prop :=
  ∃ s, get_optional_binary b at_ = Ok (Some s) ∧ Z.of_nat (length s) ≤ eight_mib ∧ decode_ipc s = Ok (Some row) ∧
    b_rows row = 1 ∧ schema_equals true (b_schema row) schema = true.

(** What the request says: the offer, the call of the first bind and its answer, and
    the name of the function in that call. *)
Record requests (request : option batch) (proposal call original : batch) (name : bytes) : Prop := {
  requests_proposal : carries request "request" TableFunctionProjectionRequestSchema proposal;
  requests_call : carries (Some proposal) "bind_call" BindRequestSchema call;
  requests_original : carries (Some proposal) "bind_result" BindResultSchema original;
  requests_name : get_string (Some call) "function_name" = Ok name;
}.

(** What a request has been held to. *)
Record proposed (proposal call original : batch) (p : BindParams) (input : ProjectionProposal) (profiles : list bytes) : Prop := {
  proposed_kind : ∃ kind, get_optional_enum (Some call) "function_type" = Ok (Some kind) ∧ (kind = bs "table" ∨ kind = bs "TABLE");
  proposed_ordinary : bp_input_schema p = None;
  proposed_offered : scalar_profile ∈ profiles;
  proposed_opaque : ∃ o, get_optional_binary (Some original) "opaque_data" = Ok o ∧ pp_bind_opaque_data input = default [] o;
  proposed_source : get_schema (Some original) "output_schema" = Ok (Some (pp_source_schema input));
  proposed_profiles : get_string_list (Some original) "projection_expression_profiles" = Ok profiles;
  proposed_secrets : ∀ field, field ∈ ["lookup_secret_types"; "lookup_scopes"; "lookup_names"]%string → get_string_list (Some original) field = Ok [];
  proposed_repeatability : read_repeatability (Some original) = Ok (pp_repeatability input);
  proposed_result : get_schema (Some proposal) "result_schema" = Ok (Some (pp_result_schema input));
  proposed_count : length (pp_result_schema input).1 = length (pp_expressions input);
  proposed_names : NoDup (map (λ f, SqlScalar.lower (bs (f_name f))) ((pp_source_schema input).1 ++ (pp_result_schema input).1));
  proposed_expressions : ∃ raws, get_binary_list (Some proposal) "expressions" = Ok raws ∧
    1 <= Z.of_nat (length raws) <= 1024 ∧
    Forall2 (λ raw row, decode_ipc raw = Ok (Some row) ∧ validate_generated_expression (base64_encode raw) (bp_schema_path p) = Ok tt)
      raws (pp_expressions input);
}.

Lemma projection_record_Ok b at_ schema s row :
  text_or_empty b at_ = Ok s → projection_record s schema = Ok row → carries b at_ schema row.
Proof using Type.
  intros (o & Ho & [= <-])%bind_Ok. unfold projection_record. intros [[Hn Hl%Z.ltb_ge]%orb_false_iff H]%bind_throw_if_Ok.
  apply bind_Ok in H as (r & Hr & (row' & ->%from_opt_Ok & H)%bind_Ok).
  apply bind_throw_if_Ok in H as [Hc H]. apply bind_throw_if_Ok in H as [_ H]. apply bind_throw_if_Ok in H as [_ [= <-]].
  apply negb_false_iff in Hc. rewrite !andb_true_iff in Hc. destruct Hc as [[[H1%Z.eqb_eq H2] _] _].
  destruct o as [s|]; [|done]. cbn [default] in *. exists s. split_and!; try done.
  unfold decode_ipc. destruct s; [done|]. destruct (read_stream _); [done|]. by injection Hr as ->.
Qed.

Lemma no_lookups_Ok original names : no_lookups original names = Ok tt → ∀ field, field ∈ names → get_string_list (Some original) field = Ok [].
Proof using Type.
  induction names as [|n names IH]; cbn [no_lookups]; [by intros _ field ?%not_elem_of_nil|].
  intros (l & Hl & [Hn Hr]%bind_throw_if_Ok)%bind_Ok field [->|Hf]%elem_of_cons; [|by apply IH].
  apply negb_false_iff, bool_decide_eq_true in Hn. by subst l.
Qed.

Lemma read_expressions_Ok owner profiles raws context l :
  read_expressions owner profiles raws context = Ok l →
  Forall2 (λ raw row, decode_ipc raw = Ok (Some row) ∧ validate_generated_expression (base64_encode raw) owner = Ok tt) raws l ∧
  (raws ≠ [] → scalar_profile ∈ profiles).
Proof using Type.
  revert context l. induction raws as [|raw raws IH]; intros context l; cbn [read_expressions]; [intros [= <-]; split; [constructor|done]|].
  intros ([] & Hv & H)%bind_Ok. apply bind_throw_if_Ok in H as [Hoff%negb_false_iff%bool_decide_eq_true H]. apply bind_Ok in H as (o & Ho & H).
  apply bind_Ok in H as (current & _ & H). apply bind_throw_if_Ok in H as [_ H]. apply bind_Ok in H as (row & ->%from_opt_Ok & H).
  apply bind_Ok in H as (rest & Hrest & [= <-]). split; [|done]. constructor; [done|by eapply IH].
Qed.

Lemma read_proposal_Ok proposal call original p input profiles :
  read_proposal proposal call original p = Ok (input, profiles) → proposed proposal call original p input profiles.
Proof using Type.
  unfold read_proposal. intros H. apply bind_Ok in H as (kind & Hkind & H).
  apply bind_throw_if_Ok in H as [[Hk Hin%bool_decide_eq_false]%orb_false_iff H].
  apply bind_Ok in H as (path & _ & H). apply bind_throw_if_Ok in H as [_ H]. apply bind_Ok in H as (profiles' & Hp & H).
  apply bind_throw_if_Ok in H as [_ H]. apply bind_Ok in H as ([] & Hl & H). apply bind_Ok in H as (source & Hs & H).
  apply bind_Ok in H as (results & Hr & H). apply bind_Ok in H as (opaque & (o & Ho & [= <-])%bind_Ok & H). apply bind_Ok in H as (rep & Hrep & H).
  apply bind_Ok in H as (raws & Hraws & H). cbv zeta in H.
  apply bind_throw_if_Ok in H as [[Hnone%bool_decide_eq_false Hmany%Z.ltb_ge]%orb_false_iff H].
  apply bind_Ok in H as (source' & ->%from_opt_Ok & H). apply bind_Ok in H as (results' & ->%from_opt_Ok & H).
  apply bind_throw_if_Ok in H as [[Hlen%negb_false_iff%bool_decide_eq_true _]%orb_false_iff H].
  apply bind_Ok in H as ([] & [Hnd _]%distinct_names_Ok & H). apply bind_Ok in H as (l & He & [= <- <-]).
  destruct (read_expressions_Ok _ _ _ _ _ He) as [Hall Hoff]. split; cbn; try done.
  - destruct kind as [kind|]; [|done]. exists kind. split; [done|].
    apply andb_false_iff in Hk as [[= ->]%negb_false_iff%bool_decide_eq_true|[= ->]%negb_false_iff%bool_decide_eq_true]; auto.
  - by destruct (bp_input_schema p); [destruct Hin|].
  - by apply Hoff.
  - by exists o.
  - by apply no_lookups_Ok.
  - rewrite Hlen. by eapply Forall2_length.
  - exists raws. split_and!; try done. destruct raws; [done|]. cbn [length]. lia.
Qed.

(** The bind a client reads in place of the first: the columns of the first, then those taken. *)
Definition appended (input : ProjectionProposal) (profiles : list bytes) (accepted : ProjectionAcceptance) (output : schema) (b : bytes) : Prop :=
  ∃ taken row, Forall2 (λ i f, (pp_result_schema input).1 !! Z.to_nat i = Some f) (pa_accepted_indices accepted) taken ∧
    (let columns := (pp_source_schema input).1 ++ taken in
     map f_name output.1 = map f_name columns ∧ map f_type output.1 = map f_type columns ∧ map f_nullable output.1 = map f_nullable columns) ∧
    decode_ipc b = Ok (Some row) ∧ get_schema (Some row) "output_schema" = Ok (Some output) ∧
    get_optional_binary (Some row) "opaque_data" = Ok (Some (pa_opaque_data accepted)) ∧
    get_string_list (Some row) "projection_expression_profiles" = Ok profiles ∧
    read_repeatability (Some row) = Ok (pp_repeatability input).

(** What is made of an acceptance. *)
Definition replaced (input : ProjectionProposal) (profiles : list bytes) (accepted : ProjectionAcceptance) (bind_result : option bytes) : Prop :=
  match pa_output_schema accepted, bind_result with
  | None, None => pa_accepted_indices accepted = []
  | Some output, Some b => pa_accepted_indices accepted ≠ [] ∧ appended input profiles accepted output b
  | _, _ => False
  end.

Lemma replacement_Ok input profiles accepted bind_result :
  replacement input profiles accepted = Ok bind_result →
  StronglySorted Z.lt (pa_accepted_indices accepted) ∧
  Forall (λ i, 0 ≤ i < Z.of_nat (length (pp_expressions input))) (pa_accepted_indices accepted) ∧
  replaced input profiles accepted bind_result.
Proof using All.
  unfold replacement. intros [Hboth (taken & Ht & H)%bind_Ok]%bind_throw_if_Ok. apply negb_false_iff in Hboth.
  apply append_accepted_Ok in Ht as (T1 & T2 & T3); [|lia]. split; [done|]. split; [eapply Forall_impl; [exact T2|cbn; lia]|].
  unfold replaced. destruct (pa_output_schema accepted) as [output|].
  - apply bind_throw_if_Ok in H as [Hsame%negb_false_iff H]. apply bind_Ok in H as (encoded & He & H).
    apply bind_Ok in H as (payload & Hb & H). apply bind_Ok in H as (b & Henc & [= <-]).
    rewrite (bool_decide_true (is_Some _)) in Hboth by done. cbn [negb] in Hboth. split.
    { intros Hnil. by rewrite bool_decide_true in Hboth. }
    apply encode_ipc_read in Henc as (_ & _ & _ & Hd). exists taken, payload.
    apply andb_true_iff in Hsame as [Hsame%schema_equals_weaker%schema_equals_fields _]. cbn [fst] in Hsame.
    unfold build_payload in Hb. apply bind_Ok in Hb as (sch & Hsch & Hb). apply bind_Ok in Hb as (sch' & ->%from_opt_Ok & Hb).
    destruct (build_filled_reads _ _ _ _ Hb ltac:(by_decide) (payload_names _ _ Hsch)) as (_ & _ & Hr).
    destruct (build_filled_column _ _ _ _ Hb ltac:(by_decide) (payload_names _ _ Hsch)) as (_ & _ & Hcol).
    assert (∀ f c, (f, c) ∈ replacement_cells input profiles (pa_opaque_data accepted) encoded →
      ∃ t, Wire.reads t (Some payload) f c) as Hcell by (intros f c Hin; destruct (Hr f c Hin) as (g & _ & _ & Hg); by exists (f_type g)).
    destruct (Hcell "output_schema"%string (Cell_binary encoded)) as (t1 & H1 & _); [set_solver|].
    destruct (Hcell "opaque_data"%string (Cell_binary (pa_opaque_data accepted))) as (t2 & H2 & _); [set_solver|].
    destruct (Hcell "projection_expression_profiles"%string (Cell_string_list profiles)) as (t3 & H3 & _); [set_solver|].
    destruct (Hcell "repeatability"%string (Cell_enum (repeatability_wire_value (pp_repeatability input)))) as (t4 & H4); [set_solver|].
    split_and!; [done|naive_solver..|done| |done|done|].
    + unfold get_schema. rewrite H1. by apply decode_encode_schema.
    + destruct (Hcol "repeatability"%string (Cell_enum (repeatability_wire_value (pp_repeatability input)))) as (a & g & _ & _ & Ha & Hh);
        [set_solver|]. cbn [cell_holds] in Hh. subst a.
      destruct H4 as [H4 _]. unfold read_repeatability. rewrite H4. cbn [mbind result_bind]. unfold Wire.column. rewrite Ha. cbn [mbind result_bind from_opt].
      match goal with |- context [null_dictionary_value ?a] => assert (null_dictionary_value a = false) as -> end;
        destruct (pp_repeatability input); try done; apply text_in_dictionary.
  - injection H as <-. apply Bool.eqb_prop in Hboth. rewrite (bool_decide_false (is_Some _)) in Hboth by (by intros []).
    by apply bool_decide_eq_true in Hboth.
Qed.

Lemma column_named b name i a :
  b_columns b !! i = Some a → (∀ j, f_name <$> b_schema b !! j = Some name ↔ j = i) → column_by_name b name = Some a.
Proof using ArrowLaws0.
  intros Ha Hi. unfold column_by_name. rewrite (get_field_index_unique _ _ i); [done|by apply Hi|]. intros j Hj. by apply Hi.
Qed.

Lemma projection_answer_Ok accepted bind_result ans :
  projection_answer accepted bind_result = Ok ans →
  ∃ payload, read_payload ans = Ok (Some payload) ∧
    Wire.column (Some payload) "accepted_indices" = Ok (mkArray (list_of T_int64) [V_list (map V_int (pa_accepted_indices accepted))]) ∧
    get_optional_binary (Some payload) "bind_result" = Ok bind_result.
Proof using ArrowLaws0.
  unfold projection_answer, projection_payload. intros (payload & (sch & Hsch & (s & ->%from_opt_Ok & [= <-])%bind_Ok)%bind_Ok & H)%bind_Ok.
  vm_compute in Hsch. injection Hsch as <-. apply bind_Ok in H as (encoded & He & H). apply bind_throw_if_Ok in H as [_ H].
  eexists. split.
  - eapply envelope_read. unfold envelope_of. rewrite He. exact H.
  - match goal with |- Wire.column (Some ?b) _ = _ ∧ _ => set (payload := b) end.
    assert (column_by_name payload "accepted_indices" = Some (mkArray (list_of T_int64) [V_list (map V_int (pa_accepted_indices accepted))])) as C1
      by (apply (column_named _ _ 0%nat); [done|]; intros [|[|j]]; split; cbn; (done || lia || by intros [=])).
    assert (column_by_name payload "bind_result" = Some (mkArray T_binary [match bind_result with Some b => V_text b | None => V_null end])) as C2
      by (apply (column_named _ _ 1%nat); [done|]; intros [|[|j]]; split; cbn; (done || lia || by intros [=])).
    unfold get_optional_binary, typed_column, has_column, Wire.column. rewrite C1, C2. by destruct bind_result.
Qed.

(** C27. What a function takes of the expressions that a request proposes to it is
    appended and changes nothing else.  The function that is asked is the one the
    call in the request names, bound with what that call says, and it is shown what
    the request offers.  An answer names offered expressions only, each once and in
    ascending order; it carries a bind exactly when it names one, and the client
    reads from that bind the columns of the bind in the request, by name, type and
    nullability, followed by the column of each expression named, with the profiles
    and the repeatability of the first.  All of the expressions, of one owner, had passed the
    check of generated ones, no two columns of the source and the results have a
    name in common whatever its case, and the first bind asked for no secrets. *)
Theorem projection_appends request st ans :
  answer (table_function_projection d sealing projection request) st = Ok ans →
  ∃ proposal call original p input profiles name table accepted bind_result payload,
    requests request proposal call original name ∧
    describes d sealing (Some call) st p ∧ proposed proposal call original p input profiles ∧
    find_table d name (scope_of p) (Some p) = Some table ∧ answer (projection table p input) st = Ok accepted ∧
    StronglySorted Z.lt (pa_accepted_indices accepted) ∧
    Forall (λ i, 0 ≤ i < Z.of_nat (length (pp_expressions input))) (pa_accepted_indices accepted) ∧
    replaced input profiles accepted bind_result ∧
    read_payload ans = Ok (Some payload) ∧
    Wire.column (Some payload) "accepted_indices" = Ok (mkArray (list_of T_int64) [V_list (map V_int (pa_accepted_indices accepted))]) ∧
    get_optional_binary (Some payload) "bind_result" = Ok bind_result.
Proof using All.
  unfold table_function_projection. intros H.
  apply answer_lift_Ok in H as (b1 & (b1' & Hb1 & [_ [= <-]]%bind_throw_if_Ok)%bind_Ok & (proposal & Hproposal & H)%answer_lift_Ok).
  apply answer_lift_Ok in H as (b2 & Hb2 & (call & Hcall & H)%answer_lift_Ok).
  apply answer_lift_Ok in H as (b3 & Hb3 & (original & Horiginal & H)%answer_lift_Ok).
  apply answer_read_Ok in H as (p & Hp%read_describes & H); [|apply read_bind_request_reads].
  apply answer_lift_Ok in H as ([input profiles] & Hin%read_proposal_Ok & H). apply answer_lift_Ok in H as (name & Hname & H).
  destruct (find_table _ _ _ _) as [table|] eqn:Ht; [|done]. apply answer_bind_Ok in H as (accepted & Ha & H).
  rewrite answer_lift in H. apply bind_Ok in H as (bind_result & (R1 & R2 & R3)%replacement_Ok & H).
  apply projection_answer_Ok in H as (payload & P1 & P2 & P3).
  exists proposal, call, original, p, input, profiles, name, table, accepted, bind_result, payload.
  split; [|done]. split; [by eapply projection_record_Ok..|done].
Qed.
End taken.

(** ** At work: [n + 1] beside [n] *)

Definition exact_equals : ArrowEquals := Build_ArrowEquals (λ a b, bool_decide (a = b)) (λ a b, bool_decide (a = b)) (λ a, bool_decide (a_values a = [V_text []])).
#[local] Existing Instances table_record hex_base64 trial_memory trial_text toy_compute exact_equals.

Lemma exact_equals_laws : ArrowEqualsLaws table_record exact_equals.
Proof.
  split; [|by intros t c s; apply bool_decide_eq_false]. intros s t. cbn [schema_equals table_record]. rewrite !fields_eqb_spec. by intros ->.
Qed.

Definition next_column : schema := ([Field "next" T_int64 true []], None).
Definition both_columns : schema := (int_column.1 ++ next_column.1, None).
Definition taking (fn : TableFunction nat) (p : BindParams) (input : ProjectionProposal) : prog ProjectionAcceptance :=
  Ret (mkAcceptance [0] (Some both_columns) (bs "taken")).
Definition stream (i : nat) : bytes := ConstraintsSpec.sample_bytes i.
Definition schema_stream (i : nat) : bytes := schema_byte :: enc_len i.

Definition or_none (r : result batch) : batch := match r with Ok b => b | Throw _ => mkBatch [] None 0 [] end.
Definition call_cells : list (string * cell) :=
  [("function_name", Cell_string (bs "rows")); ("arguments", Cell_binary []); ("function_type", Cell_enum (bs "TABLE"));
   ("resolved_secrets_provided", Cell_bool false); ("schema_path", Cell_string_list [bs "main"])]%string.
Definition projected_call : batch := or_none (build_filled (A := table_arrow []) BindRequestSchema None call_cells).
Definition first_bind : batch :=
  or_none (build_payload (A := table_arrow []) "bind" (bind_cells [] (schema_stream 0) (mkBound (Some int_column) [scalar_profile] StableWithinQuery))).
Definition projected : batch :=
  mkBatch TableFunctionProjectionRequestSchema None 1
    [mkArray T_binary [V_text (stream 1)]; mkArray T_binary [V_text (stream 2)];
     mkArray (list_of T_large_binary) [V_list [V_text (stream 0)]]; mkArray T_binary [V_text (schema_stream 1)]].
Definition next_proposal : ProjectionProposal := mkProposal int_column next_column [] StableWithinQuery [next_row].
Definition second_bind : batch :=
  or_none (build_payload (A := table_arrow []) "bind" (replacement_cells next_proposal [scalar_profile] (bs "taken") (schema_stream 2))).
Definition taken_payload : batch :=
  mkBatch TableFunctionProjectionResultSchema None 1 [mkArray (list_of T_int64) [V_list [V_int 0]]; mkArray T_binary [V_text (stream 4)]].
Definition projected_streams : list batch := [next_row; projected_call; first_bind; projected; second_bind; taken_payload].
Definition projected_arrow : Arrow := schema_arrow projected_streams.
Definition projected_codec : SchemaCodec := list_codec projected_streams [int_column; next_column; both_columns].
#[local] Existing Instances projected_arrow projected_codec.

Definition projected_request : option batch := Some (mkBatch [Field "request" T_binary true []] None 1 [mkArray T_binary [V_text (stream 3)]]).
Definition project_next : prog batch := table_function_projection trial_worker false taking projected_request.
Definition projected_answer : batch := or_none (answer project_next StorageSpec.empty_store).

Lemma projected_record_laws : ArrowRecordLaws projected_arrow table_record.
Proof. destruct (table_record_laws projected_streams). by split. Qed.

Lemma projection_appends_witness :
  answer project_next StorageSpec.empty_store = Ok projected_answer ∧
  ∃ proposal call original name input profiles accepted bind_result payload,
    requests projected_request proposal call original name ∧
    replaced input profiles accepted bind_result ∧ read_payload projected_answer = Ok (Some payload) ∧
    get_optional_binary (Some payload) "bind_result" = Ok bind_result.
Proof.
  assert (answer project_next StorageSpec.empty_store = Ok projected_answer) as H by (vm_compute; reflexivity).
  split; [exact H|].
  pose proof (schema_arrow_laws projected_streams) as L1. pose proof (list_codec_laws projected_streams [int_column; next_column; both_columns]) as L2.
  pose proof projected_record_laws as L3. pose proof exact_equals_laws as L4.
  destruct (projection_appends trial_worker false taking _ _ _ H)
    as (proposal & call & original & p & input & profiles & name & table & accepted & bind_result & payload & Hq & _ & _ & _ & _ & _ & _ & Hr & Hp & _ & Hb).
  exists proposal, call, original, name, input, profiles, accepted, bind_result, payload.
  split; [exact Hq|]. split; [exact Hr|]. split; [exact Hp|exact Hb].
Defined.

(** The answer read back; and indices that do not ascend, or columns that are not those taken, are refused. *)
Example projection_read :
  (payload ← read_payload projected_answer; b ← get_optional_binary payload "bind_result"; row ← decode_ipc (default [] b);
   get_schema row "output_schema") = Ok (Some both_columns).
Proof. vm_compute. done. Qed.
Example acceptance_refused :
  append_accepted (next_column.1 ++ next_column.1) 2 (-1) [1; 0] = Throw (Invalid_argument "invalid accepted projection index") ∧
  append_accepted next_column.1 1 (-1) [1] = Throw (Invalid_argument "invalid accepted projection index") ∧
  replacement next_proposal [] (mkAcceptance [0] (Some int_column) []) = Throw (Invalid_argument "accepted projection changed append-only schema") ∧
  replacement next_proposal [] (mkAcceptance [] (Some int_column) []) = Throw (Invalid_argument "indices and accepted bind result must occur together").
Proof. vm_compute. done. Qed.
End Projection.
