(* ===== verification/ArgSchema.v ===== *)
(** * The parameters of a function as a schema ([src/arg_schema.cpp])

    A function's parameters travel as a schema: a field for each, and in the field's
    metadata what is no type -- whether it is a constant, named, variadic, typed at
    the call, and its bounds as an interval.  The theorem: a reader of the metadata
    finds under each key what the declaration says, and nothing under it where the
    declaration says nothing. *)

From Stdlib Require Import SpecFloat.
From S2P Require Import Prelude Text Arrow Metadata FunctionSpec Columns.
Import FunctionSpec Columns.

Module ArgSchema.

(** [std::to_chars] of a [double] that is no whole number, in its shortest form; also of an infinity. *)
Class DoubleText := to_chars : spec_float → string.

(** A finite double as a whole number, when it is one. *)
Definition whole (f : spec_float) : option Z :=
  match f with
  | S754_zero _ => Some 0
  | S754_finite s m e =>
      let signed (z : Z) := if s then - z else z in
      if 0 <=? e then Some (signed (Z.pos m * 2 ^ e))
      else if Z.pos m mod 2 ^ (- e) =? 0 then Some (signed (Z.pos m / 2 ^ (- e))) else None
  | _ => None
  end.

(** [static_cast<int64_t>] of what has no such value is undefined. *)
Definition format_bound `{DoubleText} (value : spec_float) : result string :=
  match whole value with
  | Some z => if (-2 ^ 63 <=? z) && (z <? 2 ^ 63) then Ok (str (to_string z))
              else Throw (Undefined_behaviour "a double that is no int64_t")
  | None => Ok (to_chars value)
  end.

Section arguments.
Context `{T : DoubleText}.

Definition low_bound (spec : ArgSpec) : result string :=
  match sp_gt spec, sp_ge spec with
  | Some b, _ => t ← format_bound b; Ok ("(" +:+ t)
  | None, Some b => t ← format_bound b; Ok ("[" +:+ t)
  | None, None => Ok "(-inf"%string
  end.
Definition high_bound (spec : ArgSpec) : result string :=
  match sp_lt spec, sp_le spec with
  | Some b, _ => t ← format_bound b; Ok (t +:+ ")")
  | None, Some b => t ← format_bound b; Ok (t +:+ "]")
  | None, None => Ok "+inf)"%string
  end.
Definition unbounded (spec : ArgSpec) : bool :=
  match sp_ge spec, sp_le spec, sp_gt spec, sp_lt spec with None, None, None, None => true | _, _, _, _ => false end.
Definition format_range (spec : ArgSpec) : result (option string) :=
  if unbounded spec then Ok None
  else low ← low_bound spec; high ← high_bound spec; Ok (Some (low +:+ ", " +:+ high)).

(** *** One parameter *)

Definition typed (spec : ArgSpec) : bool := bool_decide (is_Some (sp_arrow_type spec)).
Definition any_name (spec : ArgSpec) : bool := bool_decide (sp_type spec = "any"%string) || bool_decide (sp_type spec = ""%string).

(** The mark of a parameter that is no plain type. *)
Definition type_mark (spec : ArgSpec) : option string :=
  if negb (sp_constant spec) then
    if bool_decide (sp_type spec = "table"%string) then Some "table"%string
    else if negb (typed spec) && any_name spec then Some "any"%string else None
  else if negb (typed spec) && (bool_decide (sp_type spec = "struct"%string) || any_name spec) then Some "any"%string else None.

(** A parameter marked [any] loses its type. *)
Definition field_type (spec : ArgSpec) : dtype :=
  if bool_decide (type_mark spec = Some "any"%string) then T_null
  else match sp_arrow_type spec with Some t => t | None => arg_type_to_arrow (sp_type spec) end.

Definition flag (b : bool) (value : string) : option string := if b then Some value else None.

(** The keys in the order they are pushed, each with its value if it is. *)
Definition marks (spec : ArgSpec) (range : option string) : list (string * option string) :=
  [("vgi_arg", flag (bool_decide (sp_index spec = None)) "named"); ("vgi_type", type_mark spec);
   ("vgi_const", flag (sp_constant spec) "true"); ("vgi_varargs", flag (sp_varargs spec) "true");
   ("vgi_doc", flag (negb (bool_decide (sp_description spec = ""%string))) (sp_description spec));
   ("vgi_range", range); ("vgi_choices", sp_choices spec); ("vgi_pattern", sp_pattern spec); ("vgi_default", sp_default_value spec)]%string.
Definition pushed (l : list (string * option string)) : list (string * string) := omap (λ e, pair e.1 <$> e.2) l.
Definition entries (spec : ArgSpec) (range : option string) : list (string * string) := pushed (marks spec range).

Definition arg_field (spec : ArgSpec) : result field :=
  range ← format_range spec; Ok (Field (sp_name spec) (field_type spec) true (entries spec range)).

Definition build_arg_schema (specs : list ArgSpec) : result (list field) := mapM arg_field specs.

(** ** What a reader finds *)

Record declares (spec : ArgSpec) (f : field) : Prop := {
  declares_name : f_name f = sp_name spec;
  declares_nullable : f_nullable f = true;
  declares_once : NoDup (f_metadata f).*1;
  declares_named : metadata_has (f_metadata f) "vgi_arg" = true ↔ sp_index spec = None;
  declares_const : metadata_has (f_metadata f) "vgi_const" = true ↔ sp_constant spec = true;
  declares_varargs : metadata_has (f_metadata f) "vgi_varargs" = true ↔ sp_varargs spec = true;
  declares_mark : metadata_get (f_metadata f) "vgi_type" = type_mark spec;
  declares_doc : default ""%string (metadata_get (f_metadata f) "vgi_doc") = sp_description spec;
  declares_range : ∃ range, format_range spec = Ok range ∧ metadata_get (f_metadata f) "vgi_range" = range;
  declares_choices : metadata_get (f_metadata f) "vgi_choices" = sp_choices spec;
  declares_pattern : metadata_get (f_metadata f) "vgi_pattern" = sp_pattern spec;
  declares_default : metadata_get (f_metadata f) "vgi_default" = sp_default_value spec;
  declares_type : f_type f =
    if bool_decide (metadata_get (f_metadata f) "vgi_type" = Some "any"%string) then T_null
    else default (arg_type_to_arrow (sp_type spec)) (sp_arrow_type spec);
}.

Lemma pushed_elem l k v : (k, v) ∈ pushed l ↔ (k, Some v) ∈ l.
Proof using Type.
  unfold pushed. rewrite list_elem_of_omap. split.
  - intros ([k' [v'|]] & Hin & H); [|done]. by injection H as <- <-.
  - intros Hin. by exists (k, Some v).
Qed.

Lemma pushed_keys l : NoDup l.*1 → NoDup (pushed l).*1.
Proof using Type.
  induction l as [|[k [v|]] l IH]; cbn; [done|..]; rewrite NoDup_cons; intros [Hk Hl]; [|by apply IH].
  constructor; [|by apply IH]. intros ([k' v'] & Hkk & Hin)%list_elem_of_fmap. cbn in Hkk. subst k'. apply Hk, list_elem_of_fmap.
  exists (k, Some v'). split; [done|]. by apply pushed_elem.
Qed.

Lemma metadata_get_pushed l k v : NoDup l.*1 → (k, v) ∈ l → metadata_get (pushed l) k = v.
Proof using Type.
  unfold metadata_get. induction l as [|[k' v'] l IH]; [by intros _ ?%not_elem_of_nil|]. cbn [fmap list_fmap fst].
  rewrite NoDup_cons. intros [Hk Hnd] [[= <- <-]|Hin]%elem_of_cons.
  - destruct v as [v|]; cbn [pushed omap list_omap fst snd fmap option_fmap option_map List.find]; [by rewrite bool_decide_true|].
    destruct (List.find _ _) as [[k' v']|] eqn:Hf; [|done]. apply List.find_some in Hf as [Hin%list_elem_of_In Hkk%bool_decide_eq_true].
    cbn in Hkk. subst k'. exfalso. apply Hk, list_elem_of_fmap. exists (k, Some v'). split; [done|]. by apply pushed_elem.
  - assert (k ≠ k') as Hne by (intros ->; apply Hk, list_elem_of_fmap; by exists (k', v)).
    destruct v' as [v'|]; cbn [pushed omap list_omap fst snd fmap option_fmap option_map List.find]; [rewrite bool_decide_false by done|]; by apply IH.
Qed.

Lemma has_get md key : metadata_has md key = true ↔ is_Some (metadata_get md key).
Proof using Type.
  unfold metadata_has, metadata_get. rewrite bool_decide_eq_true. induction md as [|e md IH]; cbn.
  - split; [by intros ?%not_elem_of_nil|by intros [? ?]].
  - rewrite elem_of_cons, IH. case_bool_decide as He; cbn; [|naive_solver]. split; [by eexists|by left].
Qed.

Lemma marks_NoDup spec range : NoDup (marks spec range).*1.
Proof using Type. by_decide. Qed.

Lemma is_Some_flag b v : is_Some (flag b v) ↔ b = true.
Proof using Type. destruct b; cbn; split; (done || by intros [? ?] || by eexists). Qed.

(** A pair that stands in a list as it is written. *)
Ltac among := unfold marks; repeat first [exact (list_elem_of_here _ _) | apply list_elem_of_further].

Lemma arg_field_declares spec f : arg_field spec = Ok f → declares spec f.
Proof using Type.
  unfold arg_field. intros (range & Hr & [= <-])%bind_Ok.
  assert (∀ k v, (k, v) ∈ marks spec range → metadata_get (entries spec range) k = v) as Hget
    by (intros k v; by apply metadata_get_pushed, marks_NoDup).
  assert (∀ k v, (k, v) ∈ marks spec range → metadata_has (entries spec range) k = true ↔ is_Some v) as Hhas
    by (intros k v Hin; by rewrite has_get, (Hget k v Hin)).
  split; cbn [f_name f_type f_nullable f_metadata]; [done|done| | | | | | | | | | |].
  - apply pushed_keys, marks_NoDup.
  - rewrite (Hhas "vgi_arg"%string (flag (bool_decide (sp_index spec = None)) "named")) by among.
    by rewrite is_Some_flag, bool_decide_eq_true.
  - rewrite (Hhas "vgi_const"%string (flag (sp_constant spec) "true")) by among. by rewrite is_Some_flag.
  - rewrite (Hhas "vgi_varargs"%string (flag (sp_varargs spec) "true")) by among. by rewrite is_Some_flag.
  - apply Hget. among.
  - rewrite (Hget "vgi_doc"%string (flag (negb (bool_decide (sp_description spec = ""%string))) (sp_description spec))) by among.
    unfold flag. by case_bool_decide.
  - exists range. split; [done|]. apply Hget. among.
  - apply Hget. among.
  - apply Hget. among.
  - apply Hget. among.
  - rewrite (Hget "vgi_type"%string (type_mark spec)) by among. unfold field_type. case_bool_decide; [done|]. by destruct (sp_arrow_type spec).
Qed.

(** The parameters of a function are read from the schema that carries them: a
    nullable field for each, in order, with its name, and in the field's metadata,
    each key at most once, exactly what the declaration says: named, constant,
    variadic, its documentation, its bounds as an interval, its choices, pattern and
    default; and the field has the declared type unless it is marked as any. *)
Theorem parameters_declared specs fields : build_arg_schema specs = Ok fields → Forall2 declares specs fields.
Proof using Type.
  unfold build_arg_schema. revert fields. induction specs as [|spec specs IH]; intros fields; cbn [mapM]; [intros [= <-]; constructor|].
  intros (f & Hf & (rest & Hr & [= <-])%bind_Ok)%bind_Ok. constructor; [by apply arg_field_declares|by apply IH].
Qed.
End arguments.

(** ** At work *)

Definition plain_digits : DoubleText := λ _, "2.5"%string.
#[local] Existing Instance plain_digits.
Definition sample_specs : list ArgSpec :=
  [column "x" 0 "int64" "the value"; any_column "y" 1 ""; constant_arg "s" 2 "struct" "";
   with_range (Some (S754_zero false)) (Some (S754_finite false 5 1)) (named "limit" "double" "")]%string.
Lemma parameters_declared_witness :
  ∃ fields, build_arg_schema sample_specs = Ok fields ∧ Forall2 declares sample_specs fields.
Proof.
  assert (build_arg_schema sample_specs = Ok
    [Field "x" T_int64 true [("vgi_doc", "the value")]; Field "y" T_null true [("vgi_type", "any")];
     Field "s" T_null true [("vgi_type", "any"); ("vgi_const", "true")];
     Field "limit" T_double true [("vgi_arg", "named"); ("vgi_range", "[0, 10]")]]%string) as H by (vm_compute; reflexivity).
  eexists. split; [exact H|]. exact (parameters_declared _ _ H).
Defined.

(** A bound with a fraction, an open one, and one that no 64-bit integer holds. *)
Example bounds_shown :
  format_range (mkArgSpec "p" None "double" "" false false false None None None None (Some (S754_finite false 5 (-1))) None None None None) =
    Ok (Some "(2.5, +inf)"%string) ∧
  format_bound (S754_finite false 1 63) = Throw (Undefined_behaviour "a double that is no int64_t") ∧
  format_bound (S754_finite true 1 63) = Ok "-9223372036854775808"%string.
Proof. vm_compute. done. Qed.
End ArgSchema.
