(* ===== verification/FunctionInfo.v ===== *)
(** * The record of a function ([src/catalog.cpp], [src/wire.cpp])

    What discovery says of a function: its parameters and output as schemas, its
    documentation, what the engine may push into it.  The functions of a schema are
    listed by kind, without those that are hidden, and a listing is kept until a
    registration.  The theorems: a record reads back as its function's declaration
    and advertises no capability that the worker has no evaluator for; and a listing
    that is kept is the one that would be made. *)

From S2P Require Import Prelude Text Arrow ArrowRecord Wire Protocol Metadata WireSchema FunctionSpec Constraints ConstraintsSpec Columns Arguments Storage StorageSpec StorageClient Functions Dispatch Tables ArgSchema.
Import Wire Protocol Metadata WireSchema FunctionSpec Functions Dispatch Tables ArgSchema.

Module FunctionInfo.

(** ** What a function declares ([include/vgi/types.h]) *)

Record FunctionExample := mkExample { ex_sql : bytes; ex_description : bytes; ex_expected_output : option bytes }.
Inductive NullHandling : Type := Default | Special.
Inductive Stability : Type := Consistent | Volatile | ConsistentWithinQuery.

(** A namespace, a name and a version. *)
Record FilterFunctionCapability := mkFilterFunction { ff_namespace : bytes; ff_name : bytes; ff_version : Z }.
Record RuntimeFilterAlgorithmCapability := mkAlgorithm { rf_namespace : bytes; rf_name : bytes; rf_version : Z }.
Record EvaluationContextCapability := mkContext { ec_profile : bytes; ec_provider_fingerprint : option bytes }.

Record FunctionMetadata := mkMetadata {
  md_description : bytes;
  md_return_type : option dtype;
  md_tags : list (bytes * bytes);
  md_examples : list FunctionExample;
  md_categories : list bytes;
  md_parameter_default_values : option batch;
  md_stability : Stability;
  md_null_handling : NullHandling;
  md_required_secrets : list SecretLookup;
  md_input_from_args : bool;
  md_input_rows_per_call : option Z;
  md_partition_kind : bytes;
  md_projection_pushdown : bool;
  md_filter_pushdown : bool;
  md_auto_apply_filters : bool;
  md_filter_semantic_profiles : list string;
  md_additional_filter_functions : list FilterFunctionCapability;
  md_runtime_filter_algorithms : list RuntimeFilterAlgorithmCapability;
  md_filter_evaluation_contexts : list EvaluationContextCapability;
  md_filters_exactly_applied : bool;
  md_late_materialization : bool;
  md_requires_input_batch_index : bool;
  md_sink_order_dependent : bool;
  md_source_order_dependent : bool;
  md_supports_batch_index : bool;
  md_split_token_ttl_seconds : option Z;
  md_order_preservation : bytes;
  md_order_dependent : bool;
  md_distinct_dependent : bool;
  md_sampling_pushdown : bool;
  md_required_settings : list bytes;
}.

(** What discovery asks of the functions of a worker beside what calls ask. *)
Class Declarations (S : Type) := {
  scalar_metadata : ScalarFunction → FunctionMetadata;
  table_metadata : TableFunction S → FunctionMetadata;
  table_in_out_metadata : TableInOut S → FunctionMetadata;
  has_finish : TableInOut S → bool;
  buffering_metadata : TableBufferingFunction S → FunctionMetadata;
  aggregate_metadata : AggregateFunction → FunctionMetadata;
  aggregate_argument_specs : AggregateFunction → list ArgSpec;
  supports_window : AggregateFunction → bool;
  streaming_partitioned : AggregateFunction → bool;
  copy_to_metadata : CopyToFunction → FunctionMetadata;
  copy_to_comment : CopyToFunction → option bytes;
  ordered : CopyToFunction → bool;
  copy_from_metadata : CopyFromFunction → FunctionMetadata;
  copy_from_comment : CopyFromFunction → option bytes;
}.

(** *** The schemas of the records ([vgi_protocol_schemas.hpp]) *)

Definition schema_type : dtype := T_dictionary T_int32 T_binary.
Definition identity_type : dtype := T_struct [fld "namespace" T_string false; fld "name" T_string false; fld "version" T_uint64 false].
Definition FunctionInfoSchema : list field :=
  [fld "comment" T_string true; fld "tags" (map_of T_string T_string) false; fld "name" T_string false;
   fld "schema_path" (list_of T_string) false; fld "function_type" enum_type false; fld "arguments" schema_type false;
   fld "output_schema" schema_type false; fld "parameter_default_values" schema_type true; fld "stability" enum_type true;
   fld "null_handling" enum_type true; fld "argument_monotonicity" (list_of T_string) true; fld "description" T_string false;
   fld "examples" (list_of (T_struct [fld "sql" T_string false; fld "description" T_string false; fld "expected_output" T_string true])) false;
   fld "categories" (list_of T_string) false; fld "projection_pushdown" T_bool true; fld "filter_pushdown" T_bool true;
   fld "sampling_pushdown" T_bool true; fld "late_materialization" T_bool true;
   fld "filter_semantic_profiles" (list_of T_string) false; fld "additional_filter_functions" (list_of identity_type) false;
   fld "runtime_filter_algorithms" (list_of identity_type) false;
   fld "filter_evaluation_contexts" (list_of (T_struct [fld "profile" T_string false; fld "provider_fingerprint" T_string true])) false;
   fld "order_preservation" enum_type true; fld "max_workers" T_int32 true; fld "supports_batch_index" T_bool false;
   fld "supports_splits" T_bool false; fld "filters_exactly_applied" T_bool false; fld "supports_positions" T_bool false;
   fld "split_token_ttl_seconds" T_int64 true; fld "partition_kind" enum_type false; fld "order_dependent" enum_type false;
   fld "distinct_dependent" enum_type false; fld "supports_window" T_bool false; fld "streaming_partitioned" T_bool false;
   fld "has_finalize" T_bool false; fld "source_order_dependent" T_bool false; fld "sink_order_dependent" T_bool false;
   fld "requires_input_batch_index" T_bool false; fld "input_from_args" T_bool false; fld "input_rows_per_call" T_int64 true;
   fld "required_settings" (list_of T_string) false;
   fld "required_secrets" (list_of (T_struct [fld "secret_type" T_string false; fld "scope" T_string true; fld "secret_name" T_string true])) false].

(** *** Enumerations *)

Inductive kind : Type := kScalar | kTable | kTableBuffering | kAggregate.
#[global] Instance kind_eq_dec : EqDecision kind.
Proof. solve_decision. Defined.
Definition kind_key (k : kind) : bytes :=
  match k with kScalar => bs "scalar" | kTable => bs "table" | kTableBuffering => bs "table_buffering" | kAggregate => bs "aggregate" end.
Definition function_type_wire_value (k : kind) : bytes :=
  match k with kScalar => bs "SCALAR" | kTable => bs "TABLE" | kTableBuffering => bs "TABLE_BUFFERING" | kAggregate => bs "AGGREGATE" end.
Definition stability_wire_value (s : Stability) : bytes :=
  match s with Volatile => bs "VOLATILE" | ConsistentWithinQuery => bs "CONSISTENT_WITHIN_QUERY" | Consistent => bs "CONSISTENT" end.
Definition null_handling_value (n : NullHandling) : bytes := match n with Special => bs "SPECIAL" | Default => bs "DEFAULT" end.
Definition partition_kind_wire_value (m : FunctionMetadata) : bytes :=
  match md_partition_kind m with [] => bs "NOT_PARTITIONED" | kind => kind end.

(** Advertising a capability promises an evaluator for it. *)
Definition validate_filter_capabilities (m : FunctionMetadata) : result () :=
  throw_if (negb (bool_decide (length (md_additional_filter_functions m) = 0%nat)))
    (Invalid_argument "C++ SDK cannot advertise an extension filter function without an evaluator");;
  throw_if (negb (bool_decide (length (md_runtime_filter_algorithms m) = 0%nat)))
    (Invalid_argument "C++ SDK has no registered runtime-filter artifact evaluator to advertise");;
  throw_if (negb (bool_decide (length (md_filter_evaluation_contexts m) = 0%nat)))
    (Invalid_argument "C++ SDK has no isolated DuckDB session-context evaluator to advertise").

(** The entries of [required_secrets]: an absent scope or name is an empty one. *)
Definition secret_entries (m : FunctionMetadata) : list (bytes * bytes * bytes) :=
  map (λ l, (secret_type l, default [] (lookup_scope l), default [] (lookup_name l))) (md_required_secrets m).
Definition filter_function_identities_of (m : FunctionMetadata) : list (bytes * bytes * Z) :=
  map (λ c, (ff_namespace c, ff_name c, ff_version c)) (md_additional_filter_functions m).
Definition runtime_filter_identities_of (m : FunctionMetadata) : list (bytes * bytes * Z) :=
  map (λ c, (rf_namespace c, rf_name c, rf_version c)) (md_runtime_filter_algorithms m).
Definition evaluation_contexts_of (m : FunctionMetadata) : list (bytes * option bytes) :=
  map (λ c, (ec_profile c, ec_provider_fingerprint c)) (md_filter_evaluation_contexts m).

Section setters.
Context `{A : Arrow}.

(** ** Lists of structs *)

(** The struct of the list a field holds; its children are reached by name. *)
Definition entry_fields (field : string) (t : dtype) : result (list Arrow.field) :=
  match t with
  | T_list item => match f_type item with
                   | T_struct fs => Ok fs
                   | _ => fail ("result field '" +:+ field +:+ "' is not a list of structs")
                   end
  | _ => fail ("result field '" +:+ field +:+ "' is not a list")
  end.

Definition child (ok : dtype → bool) (kind : string) (fs : list Arrow.field) (name : string) : result nat :=
  i ← from_opt (Runtime_error ("struct has no '" +:+ name +:+ "' field")) (get_field_index fs name);
  f ← from_opt (Undefined_behaviour "StructBuilder::field_builder out of range") (fs !! i);
  if ok (f_type f) then Ok i else fail ("struct field '" +:+ name +:+ "' is not " +:+ kind).
Definition string_child := child is_string_type "a string".
Definition uint64_child := child (λ t, match t with T_uint64 => true | _ => false end) "uint64".

(** One entry, its children at their places. *)
Definition entry (fs : list Arrow.field) (cells : list (nat * value)) : value :=
  V_struct (foldl (λ vs c, <[c.1 := c.2]> vs) (replicate (length fs) V_null) cells).

Definition set_entries (field : string) (rows : list Arrow.field → result (list value)) (r : ResultBuilder) : result ResultBuilder :=
  i ← field_index field r;
  fs ← entry_fields field (type_at i r);
  l ← rows fs;
  Ok (put i (mkArray (type_at i r) [V_list l]) r).

Definition text_or_null (o : option bytes) : value := match o with Some s => V_text s | None => V_null end.
Definition text_or_empty_null (s : bytes) : value := match s with [] => V_null | _ => V_text s end.

Definition set_secret_lookups (field : string) (lookups : list (bytes * bytes * bytes)) : ResultBuilder → result ResultBuilder :=
  set_entries field (λ fs,
    t ← string_child fs "secret_type"; s ← string_child fs "scope"; n ← string_child fs "secret_name";
    Ok (map (λ l, entry fs [(t, V_text l.1.1); (s, text_or_empty_null l.1.2); (n, text_or_empty_null l.2)]) lookups)).
Definition set_examples (field : string) (examples : list FunctionExample) : ResultBuilder → result ResultBuilder :=
  set_entries field (λ fs,
    s ← string_child fs "sql"; d ← string_child fs "description"; x ← string_child fs "expected_output";
    Ok (map (λ e, entry fs [(s, V_text (ex_sql e)); (d, V_text (ex_description e)); (x, text_or_null (ex_expected_output e))]) examples)).
Definition set_filter_identities (field : string) (identities : list (bytes * bytes * Z)) : ResultBuilder → result ResultBuilder :=
  set_entries field (λ fs,
    ns ← string_child fs "namespace"; n ← string_child fs "name"; v ← uint64_child fs "version";
    Ok (map (λ e, entry fs [(ns, V_text e.1.1); (n, V_text e.1.2); (v, V_int e.2)]) identities)).
Definition set_evaluation_contexts (field : string) (contexts : list (bytes * option bytes)) : ResultBuilder → result ResultBuilder :=
  set_entries field (λ fs,
    p ← string_child fs "profile"; f ← string_child fs "provider_fingerprint";
    Ok (map (λ e, entry fs [(p, V_text e.1); (f, text_or_null e.2)]) contexts)).
End setters.

(** ** The record *)

Section records.
Context `{A : Arrow} `{L : SchemaCodec} `{T : DoubleText}.

(** The parameters from the one named on; none if there is none. *)
Fixpoint after_parameter (specs : list ArgSpec) (name : string) : option (list ArgSpec) :=
  match specs with
  | [] => None
  | s :: specs => if bool_decide (sp_name s = name) then Some specs else after_parameter specs name
  end.
(** The defaults are of parameters, in the order of the signature. *)
Fixpoint check_default_fields (fields : list field) (specs : list ArgSpec) : result () :=
  match fields with
  | [] => Ok tt
  | f :: fields =>
      match after_parameter specs (f_name f) with
      | None => Throw (Invalid_argument ("parameter_default_values field '" +:+ f_name f +:+
                         "' is absent from the signature or out of order"))
      | Some specs => check_default_fields fields specs
      end
  end.

Definition default_values (m : FunctionMetadata) (specs : list ArgSpec) (r : ResultBuilder) : result ResultBuilder :=
  match md_parameter_default_values m with
  | Some values =>
      throw_if (negb (b_rows values =? 1)) (Invalid_argument "parameter_default_values must contain exactly one row");;
      check_default_fields (b_schema values) specs;;
      b ← encode_ipc values; set_binary "parameter_default_values" b r
  | None => set_null "parameter_default_values" r
  end.

Definition head_cells (name : bytes) (path : list bytes) (k : kind) (arguments output : bytes) (m : FunctionMetadata) : list (string * cell) :=
  [("name", Cell_string name); ("schema_path", Cell_string_list path); ("function_type", Cell_enum (function_type_wire_value k));
   ("arguments", Cell_binary arguments); ("output_schema", Cell_binary output);
   ("stability", Cell_enum (stability_wire_value (md_stability m))); ("null_handling", Cell_enum (null_handling_value (md_null_handling m)));
   ("description", Cell_string (md_description m))]%string.
Definition middle_cells (m : FunctionMetadata) : list (string * cell) :=
  [("categories", Cell_string_list (md_categories m)); ("tags", Cell_string_map (md_tags m));
   ("required_settings", Cell_string_list (md_required_settings m))]%string.
Definition pushdown_cells (m : FunctionMetadata) (profiles : list string) : list (string * cell) :=
  [("projection_pushdown", Cell_bool (md_projection_pushdown m)); ("filter_pushdown", Cell_bool (md_filter_pushdown m));
   ("filter_semantic_profiles", Cell_string_list (map bs profiles))]%string.
Definition tail_cells (m : FunctionMetadata) : list (string * cell) :=
  [("filters_exactly_applied", Cell_bool (md_filters_exactly_applied m)); ("sampling_pushdown", Cell_bool (md_sampling_pushdown m));
   ("input_from_args", Cell_bool (md_input_from_args m)); ("partition_kind", Cell_enum (partition_kind_wire_value m));
   ("order_dependent", Cell_enum (if md_order_dependent m then bs "ORDER_DEPENDENT" else bs "NOT_ORDER_DEPENDENT"));
   ("distinct_dependent", Cell_enum (if md_distinct_dependent m then bs "DISTINCT_DEPENDENT" else bs "NOT_DISTINCT_DEPENDENT"))]%string.

Definition common_function_info (name : bytes) (path : list bytes) (k : kind) (specs : list ArgSpec) (output : schema) (m : FunctionMetadata)
    : result ResultBuilder :=
  validate_filter_capabilities m;;
  profiles ← resolved_filter_semantic_profiles (md_filter_pushdown m) (md_filter_semantic_profiles m);
  parameters ← build_arg_schema specs;
  arguments ← encode_schema (parameters, None);
  output ← encode_schema output;
  r ← set_cells (head_cells name path k arguments output m) (new_builder FunctionInfoSchema None);
  r ← set_examples "examples" (md_examples m) r;
  r ← set_cells (middle_cells m) r;
  r ← set_secret_lookups "required_secrets" (secret_entries m) r;
  r ← set_cells (pushdown_cells m profiles) r;
  r ← set_filter_identities "additional_filter_functions" (filter_function_identities_of m) r;
  r ← set_filter_identities "runtime_filter_algorithms" (runtime_filter_identities_of m) r;
  r ← set_evaluation_contexts "filter_evaluation_contexts" (evaluation_contexts_of m) r;
  r ← set_cells (tail_cells m) r;
  default_values m specs r.

(** What is of the kind, then the defaults, then the stream. *)
Definition info_record (common : result ResultBuilder) (own : list (string * cell)) : result batch :=
  r ← common; r ← set_cells own r; r ← fill_defaults r; finish r.
Definition info_bytes (common : result ResultBuilder) (own : list (string * cell)) : result bytes :=
  b ← info_record common own; encode_ipc b.

(** *** The kinds *)

Context {S : Type} `{D : Declarations S}.

Definition optional_cell {X} (name : string) (o : option X) (c : X → cell) : list (string * cell) :=
  match o with Some x => [(name, c x)] | None => [] end.
Definition non_empty (s : bytes) : option bytes := match s with [] => None | _ => Some s end.

Definition table_cells (fn : TableFunction S) : list (string * cell) :=
  let m := table_metadata fn in
  [("late_materialization", Cell_bool (md_late_materialization m)); ("supports_batch_index", Cell_bool (md_supports_batch_index m));
   ("supports_splits", Cell_bool (tf_supports_splits fn))]%string ++
  optional_cell "split_token_ttl_seconds" (md_split_token_ttl_seconds m) Cell_int64 ++
  optional_cell "order_preservation" (non_empty (md_order_preservation m)) Cell_enum.
Definition encode_table_function_info (fn : TableFunction S) (path : list bytes) : result bytes :=
  info_bytes (common_function_info (tf_name fn) path kTable (tf_argument_specs fn) ([], None) (table_metadata fn)) (table_cells fn).

Definition table_in_out_cells (fn : TableInOut S) : list (string * cell) :=
  [("has_finalize"%string, Cell_bool (has_finish fn))] ++
  optional_cell "input_rows_per_call" (md_input_rows_per_call (table_in_out_metadata fn)) Cell_int64.
Definition encode_table_in_out_info (fn : TableInOut S) (path : list bytes) : result bytes :=
  info_bytes (common_function_info (to_name fn) path kTable (to_argument_specs fn) ([], None) (table_in_out_metadata fn)) (table_in_out_cells fn).

Definition buffering_cells (fn : TableBufferingFunction S) : list (string * cell) :=
  let m := buffering_metadata fn in
  [("requires_input_batch_index", Cell_bool (md_requires_input_batch_index m)); ("sink_order_dependent", Cell_bool (md_sink_order_dependent m));
   ("source_order_dependent", Cell_bool (md_source_order_dependent m)); ("supports_batch_index", Cell_bool (md_supports_batch_index m));
   ("has_finalize", Cell_bool true)]%string.
Definition encode_buffering_info (fn : TableBufferingFunction S) (path : list bytes) : result bytes :=
  info_bytes (common_function_info (bf_name fn) path kTableBuffering (bf_argument_specs fn) ([], None) (buffering_metadata fn)) (buffering_cells fn).

(** [BindParams{}] *)
Definition no_call : BindParams :=
  mkBind None Arguments.no_arguments None ∅ ∅ false None None None None None [] [] None [] None None None.

(** A declared return type; else what bind answers of no call; else the type is deferred. *)
Definition advertised_aggregate_schema (fn : AggregateFunction) : result schema :=
  match md_return_type (aggregate_metadata fn) with
  | Some t => Ok (build_scalar_output_schema (Some t), None)
  | None =>
      match ag_bind fn no_call with
      | Ok (Some bound) => Ok bound
      | Ok None => Ok (build_scalar_output_schema None, None)
      | Throw e => match Constraints.message_of e with Some _ => Ok (build_scalar_output_schema None, None) | None => Throw e end
      end
  end.
Definition encode_aggregate_info (fn : AggregateFunction) (path : list bytes) : result bytes :=
  output ← advertised_aggregate_schema fn;
  info_bytes (common_function_info (ag_name fn) path kAggregate (aggregate_argument_specs fn) output (aggregate_metadata fn))
    [("supports_window", Cell_bool (supports_window fn)); ("streaming_partitioned", Cell_bool (streaming_partitioned fn))]%string.
Definition encode_function_info (fn : ScalarFunction) (path : list bytes) : result bytes :=
  info_bytes (common_function_info (sf_name fn) path kScalar (sf_argument_specs fn)
                (build_scalar_output_schema (md_return_type (scalar_metadata fn)), None) (scalar_metadata fn)) [].

(** ** The functions of a schema *)

Context (d : Dispatcher S) (hidden : gset bytes).

(** Declared in the schema and in the catalog, and not hidden. *)
Definition listed {F} (name_of : F → bytes) (r : registry F) (catalog : bytes) (path : list bytes) : list F :=
  omap (λ e : Scope * F, if bool_decide (sc_schema_path e.1 = path) && bool_decide (sc_catalog e.1 = catalog) &&
                            negb (bool_decide (name_of e.2 ∈ hidden))
                         then Some e.2 else None) (zip (scopes r) (functions r)).

(** A listing of a kind; a kind that is none has none. *)
Definition typed_listing (catalog : bytes) (path : list bytes) (function_type : bytes) : result (list bytes) :=
  if bool_decide (function_type = kind_key kScalar) then mapM (λ fn, encode_function_info fn path) (listed sf_name (scalars_ d) catalog path)
  else if bool_decide (function_type = kind_key kTable) then
    tables ← mapM (λ fn, encode_table_function_info fn path) (listed tf_name (tables_ d) catalog path);
    table_in_outs ← mapM (λ fn, encode_table_in_out_info fn path) (listed to_name (table_in_outs_ d) catalog path);
    bufferings ← mapM (λ fn, encode_buffering_info fn path) (listed bf_name (bufferings_ d) catalog path);
    Ok (tables ++ table_in_outs ++ bufferings)
  else if bool_decide (function_type = kind_key kAggregate) then
    mapM (λ fn, encode_aggregate_info fn path) (listed ag_name (aggregates_ d) catalog path)
  else Ok [].

(** *** The listings that are kept *)

Definition listing_key : Type := bytes * list bytes * bytes.
Abbreviation Listings := (gmap (bytes * list bytes * bytes) (list bytes)).
Definition lister (X : Type) : Type := Listings → result X * Listings.

(** Kept by whoever lands first; an empty one is not. *)
Definition keep (key : listing_key) (built : list bytes) (st : Listings) : list bytes * Listings :=
  if bool_decide (built = []) then (built, st)
  else match st !! key with Some l => (l, st) | None => (built, <[key := built]> st) end.

Definition kept_or (key : listing_key) (build : lister (list bytes)) : lister (list bytes) := λ st,
  match st !! key with
  | Some l => (Ok l, st)
  | None => match build st with
            | (Ok built, st) => let '(l, st) := keep key built st in (Ok l, st)
            | (Throw e, st) => (Throw e, st)
            end
  end.

(** A listing of a kind that has a name. *)
Definition kind_listing (catalog : bytes) (path : list bytes) (function_type : bytes) : lister (list bytes) :=
  kept_or (catalog, path, function_type) (λ st, (typed_listing catalog path function_type, st)).

Fixpoint assemble (catalog : bytes) (path : list bytes) (kinds : list kind) : lister (list bytes) := λ st,
  match kinds with
  | [] => (Ok [], st)
  | k :: kinds =>
      match kind_listing catalog path (kind_key k) st with
      | (Ok part, st) => match assemble catalog path kinds st with (Ok rest, st) => (Ok (part ++ rest), st) | r => r end
      | r => r
      end
  end.

Definition build_function_listing (catalog : bytes) (path : list bytes) (function_type : bytes) : lister (list bytes) :=
  if bool_decide (function_type = []) then assemble catalog path [kScalar; kTable; kAggregate]
  else λ st, (typed_listing catalog path function_type, st).
Definition function_listing (catalog : bytes) (path : list bytes) (function_type : bytes) : lister (list bytes) :=
  kept_or (catalog, path, function_type) (build_function_listing catalog path function_type).
End records.

(** [forget_function_listings], by every registration and by [hide_function]. *)
Definition no_listings : gmap (bytes * list bytes * bytes) (list bytes) := ∅.

(** ** A listing that is kept is the one that would be made *)

Section kept.
Context `{A : Arrow} `{L : SchemaCodec} `{T : DoubleText} {S : Type} `{D : Declarations S}.
Context (d : Dispatcher S) (hidden : gset bytes).

(** What a listing is without those that are kept. *)
Definition fresh_listing (catalog : bytes) (path : list bytes) (function_type : bytes) : result (list bytes) :=
  if bool_decide (function_type = []) then
    scalars ← typed_listing d hidden catalog path (kind_key kScalar);
    tables ← typed_listing d hidden catalog path (kind_key kTable);
    aggregates ← typed_listing d hidden catalog path (kind_key kAggregate);
    Ok (scalars ++ tables ++ aggregates)
  else typed_listing d hidden catalog path function_type.

Definition coherent (st : gmap (bytes * list bytes * bytes) (list bytes)) : Prop :=
  ∀ catalog path function_type l, st !! (catalog, path, function_type) = Some l → fresh_listing catalog path function_type = Ok l.

Lemma kept_or_coherent catalog path function_type (build : lister (list bytes)) st r st' :
  coherent st →
  (∀ st r st', coherent st → build st = (r, st') → r = fresh_listing catalog path function_type ∧ coherent st') →
  kept_or (catalog, path, function_type) build st = (r, st') → r = fresh_listing catalog path function_type ∧ coherent st'.
Proof using Type.
  intros Hc Hb. unfold kept_or. destruct (st !! _) as [l|] eqn:Hl; [intros [= <- <-]; split; [by rewrite (Hc _ _ _ _ Hl)|done]|].
  destruct (build st) as [[built|e] st1] eqn:Hbuild; destruct (Hb _ _ _ Hc Hbuild) as [Hf Hc1]; [|by intros [= <- <-]].
  unfold keep. case_bool_decide; [by intros [= <- <-]|]. destruct (st1 !! _) as [l|] eqn:Hl1.
  - intros [= <- <-]. split; [by rewrite (Hc1 _ _ _ _ Hl1)|done].
  - intros [= <- <-]. split; [done|]. intros c p t l [[[= <- <- <-] <-]|[_ Hk]]%lookup_insert_Some; [done|by apply Hc1].
Qed.

Lemma kind_listing_coherent catalog path function_type st r st' : function_type ≠ [] → coherent st →
  kind_listing d hidden catalog path function_type st = (r, st') → r = typed_listing d hidden catalog path function_type ∧ coherent st'.
Proof using Type.
  intros Hne Hc H. assert (fresh_listing catalog path function_type = typed_listing d hidden catalog path function_type) as Hf
    by (unfold fresh_listing; by rewrite bool_decide_false).
  rewrite <- Hf. eapply kept_or_coherent; [exact Hc| |exact H]. intros s q s' Hs [= <- <-]. by rewrite Hf.
Qed.

Lemma assemble_coherent catalog path kinds st r st' : coherent st →
  assemble d hidden catalog path kinds st = (r, st') →
  r = (l ← mapM (λ k, typed_listing d hidden catalog path (kind_key k)) kinds; Ok (concat l)) ∧ coherent st'.
Proof using Type.
  revert st r st'. induction kinds as [|k kinds IH]; intros st r st' Hc; cbn [assemble mapM]; [by intros [= <- <-]|].
  destruct (kind_listing _ _ _ _ _ _) as [[part|e] st1] eqn:Hk;
    apply kind_listing_coherent in Hk as [<- Hc1]; try done; try (by destruct k); [|by intros [= <- <-]].
  cbn [mbind result_bind]. destruct (assemble _ _ _ _ _ _) as [r1 st2] eqn:Ha. apply (IH _ _ _ Hc1) in Ha as [Hr Hc2].
  destruct (mapM _ kinds) as [l|e]; cbn [mbind result_bind] in *; subst r1; by intros [= <- <-].
Qed.

(** The cache of listings is invisible.  From a state in which every kept listing is
    the one that would be made now, a listing that is asked for is the one that would be made now,
    a refusal included, and the listings kept after it are again so; that holds of
    the empty state that a registration leaves. *)
Theorem listings_fresh catalog path function_type st r st' :
  coherent no_listings ∧
  (coherent st → function_listing d hidden catalog path function_type st = (r, st') →
   r = fresh_listing catalog path function_type ∧ coherent st').
Proof using Type.
  split; [intros ? ? ? ? H; unfold no_listings in H; by rewrite lookup_empty in H|]. intros Hc H. eapply kept_or_coherent; [exact Hc| |exact H]. clear.
  intros st r st' Hc. unfold build_function_listing, fresh_listing. case_bool_decide.
  - intros (-> & Hc')%assemble_coherent; [|done]. split; [|done]. cbn [mapM].
    destruct (typed_listing _ _ _ _ (kind_key kScalar)) as [a|]; [|done]. cbn [mbind result_bind].
    destruct (typed_listing _ _ _ _ (kind_key kTable)) as [b|]; [|done]. cbn [mbind result_bind].
    destruct (typed_listing _ _ _ _ (kind_key kAggregate)) as [c|]; [|done]. cbn. by rewrite app_nil_r.
  - by intros [= <- <-].
Qed.
End kept.

(** ** The record reads back *)

Section served.
Context `{A : Arrow} `{R : ArrowRecord} `{L : SchemaCodec} `{T : DoubleText} {S : Type} `{D : Declarations S}.
Context `{!ArrowLaws A} `{!ArrowRecordLaws A R} `{!SchemaCodecLaws A L}.

Lemma set_cells_app a b r r' : set_cells (a ++ b) r = Ok r' ↔ ∃ r1, set_cells a r = Ok r1 ∧ set_cells b r1 = Ok r'.
Proof using Type.
  revert r. induction a as [|[f c] a IH]; intros r; cbn [app set_cells].
  - split; [intros H; by exists r|by intros (r1 & [= <-] & H)].
  - rewrite bind_Ok. setoid_rewrite IH. setoid_rewrite bind_Ok. naive_solver.
Qed.
Lemma set_cells_one f c r r' : set_cell f c r = Ok r' → set_cells [(f, c)] r = Ok r'.
Proof using Type. intros H. cbn [set_cells]. by rewrite H. Qed.

Lemma set_cells_schema cells r r' : set_cells cells r = Ok r' → rb_schema r' = rb_schema r.
Proof using All.
  revert r. induction cells as [|[f c] cells IH]; intros r; cbn [set_cells]; [by intros [= <-]|].
  intros (r1 & (i & a & _ & -> & _)%set_cell_Ok & H%IH)%bind_Ok. exact H.
Qed.

(** A list of structs is an array of the field's own type, its rows made for the
    children of the schema. *)
Lemma set_entries_cell field fs nullable rows r r' :
  set_entries field rows r = Ok r' → rb_schema r = FunctionInfoSchema →
  type_named FunctionInfoSchema field = Some (T_list (Field "item" (T_struct fs) nullable [])) →
  rb_schema r' = FunctionInfoSchema ∧
  ∃ l, rows fs = Ok l ∧
    set_cell field (Cell_array (Some (mkArray (T_list (Field "item" (T_struct fs) nullable [])) [V_list l]))) r = Ok r'.
Proof using All.
  unfold set_entries. intros (i & Hi & H)%bind_Ok Hs Ht. pose proof Hi as Hi'. apply from_opt_Ok in Hi'. rewrite Hs in Hi'.
  assert (type_at i r = T_list (Field "item" (T_struct fs) nullable [])) as Htype.
  { unfold type_at. rewrite Hs. apply get_field_index_found in Hi'. destruct (FunctionInfoSchema !! i) as [g|] eqn:Eg; [|done].
    injection Hi' as <-. rewrite (type_named_unique _ g) in Ht; [by injection Ht|by_decide|by eapply list_elem_of_lookup_2]. }
  rewrite Htype in H. cbn [entry_fields f_type mbind result_bind] in H. apply bind_Ok in H as (l & Hl & [= <-]).
  split; [done|]. exists l. split; [done|]. cbn [set_cell]. unfold set_array. rewrite Hi. cbn [mbind result_bind].
  by rewrite Htype, type_equals_refl.
Qed.

Lemma child_at ok kind fs name i : child ok kind fs name = Ok i → f_name <$> fs !! i = Some name.
Proof using All.
  unfold child. intros (j & Hj%from_opt_Ok%get_field_index_found & H)%bind_Ok. apply bind_Ok in H as (f & _ & H).
  destruct (ok (f_type f)); [|done]. by injection H as <-.
Qed.

(** ** The lists of structs, as a client reads them *)

Definition list_column (fs : list field) (l : list value) : array := mkArray (list_of (T_struct fs)) [V_list l].

(** The children of each list of the schema. *)
Definition example_fields : list field := [fld "sql" T_string false; fld "description" T_string false; fld "expected_output" T_string true].
Definition secret_fields : list field := [fld "secret_type" T_string false; fld "scope" T_string true; fld "secret_name" T_string true].
Definition identity_fields : list field := [fld "namespace" T_string false; fld "name" T_string false; fld "version" T_uint64 false].
Definition context_fields : list field := [fld "profile" T_string false; fld "provider_fingerprint" T_string true].

Definition optional_text (o : option bytes) : value := match o with Some s => V_text s | None => V_null end.
(** A scope or a name that is absent or empty is a null. *)
Definition narrowing (o : option bytes) : value := match o with Some ((_ :: _) as s) => V_text s | _ => V_null end.
Definition example_row (e : FunctionExample) : value :=
  V_struct [V_text (ex_sql e); V_text (ex_description e); optional_text (ex_expected_output e)].
Definition secret_row (l : SecretLookup) : value :=
  V_struct [V_text (secret_type l); narrowing (lookup_scope l); narrowing (lookup_name l)].

Ltac at_place H i := apply child_at in H; destruct i as [|[|[|i]]]; try discriminate H; clear H.

Lemma set_examples_cell examples r r' :
  set_examples "examples" examples r = Ok r' → rb_schema r = FunctionInfoSchema →
  rb_schema r' = FunctionInfoSchema ∧ set_cell "examples" (Cell_array (Some (list_column example_fields (map example_row examples)))) r = Ok r'.
Proof using All.
  intros H Hs. destruct (set_entries_cell _ example_fields true _ _ _ H Hs eq_refl) as (Hs' & l & Hl & Hc). split; [done|].
  apply bind_Ok in Hl as (i & Hi & Hl). apply bind_Ok in Hl as (j & Hj & Hl). apply bind_Ok in Hl as (k & Hk & [= <-]).
  at_place Hi i. at_place Hj j. at_place Hk k. exact Hc.
Qed.

Lemma set_secrets_cell m r r' :
  set_secret_lookups "required_secrets" (secret_entries m) r = Ok r' → rb_schema r = FunctionInfoSchema →
  rb_schema r' = FunctionInfoSchema ∧
  set_cell "required_secrets" (Cell_array (Some (list_column secret_fields (map secret_row (md_required_secrets m))))) r = Ok r'.
Proof using All.
  intros H Hs. destruct (set_entries_cell _ secret_fields true _ _ _ H Hs eq_refl) as (Hs' & l & Hl & Hc). split; [done|].
  apply bind_Ok in Hl as (i & Hi & Hl). apply bind_Ok in Hl as (j & Hj & Hl). apply bind_Ok in Hl as (k & Hk & [= <-]).
  at_place Hi i. at_place Hj j. at_place Hk k. rewrite <- Hc. unfold list_column, secret_entries. do 6 f_equal. rewrite map_map.
  apply map_ext. intros [t [[|c s]|] [[|c' s']|]]; done.
Qed.

Lemma set_identities_cell field r r' :
  set_filter_identities field [] r = Ok r' → rb_schema r = FunctionInfoSchema →
  type_named FunctionInfoSchema field = Some (list_of identity_type) →
  rb_schema r' = FunctionInfoSchema ∧ set_cell field (Cell_array (Some (list_column identity_fields []))) r = Ok r'.
Proof using All.
  intros H Hs Ht. destruct (set_entries_cell _ identity_fields true _ _ _ H Hs Ht) as (Hs' & l & Hl & Hc). split; [done|].
  apply bind_Ok in Hl as (i & _ & Hl). apply bind_Ok in Hl as (j & _ & Hl). by apply bind_Ok in Hl as (k & _ & [= <-]).
Qed.

Lemma set_contexts_cell r r' :
  set_evaluation_contexts "filter_evaluation_contexts" [] r = Ok r' → rb_schema r = FunctionInfoSchema →
  rb_schema r' = FunctionInfoSchema ∧ set_cell "filter_evaluation_contexts" (Cell_array (Some (list_column context_fields []))) r = Ok r'.
Proof using All.
  intros H Hs. destruct (set_entries_cell _ context_fields true _ _ _ H Hs eq_refl) as (Hs' & l & Hl & Hc). split; [done|].
  apply bind_Ok in Hl as (i & _ & Hl). by apply bind_Ok in Hl as (j & _ & [= <-]).
Qed.

Lemma no_capabilities m : validate_filter_capabilities m = Ok tt →
  md_additional_filter_functions m = [] ∧ md_runtime_filter_algorithms m = [] ∧ md_filter_evaluation_contexts m = [].
Proof using Type.
  unfold validate_filter_capabilities. rewrite !bind_throw_if_Ok, throw_if_Ok, !negb_false_iff, !bool_decide_eq_true, !length_zero_iff_nil. done.
Qed.

Lemma default_values_cell m specs r r' : default_values m specs r = Ok r' →
  ∃ c, set_cell "parameter_default_values" c r = Ok r' ∧
    match md_parameter_default_values m with
    | None => c = Cell_null
    | Some values => b_rows values = 1 ∧ check_default_fields (b_schema values) specs = Ok tt ∧ ∃ b, encode_ipc values = Ok b ∧ c = Cell_binary b
    end.
Proof using Type.
  unfold default_values. destruct (md_parameter_default_values m) as [values|]; [|by exists Cell_null].
  intros [H1%negb_false_iff%Z.eqb_eq ([] & H2 & (b & H3 & H4)%bind_Ok)%bind_Ok]%bind_throw_if_Ok. exists (Cell_binary b). split; [done|].
  split_and!; [done..|]. by exists b.
Qed.

Definition common_names : list string :=
  ["name"; "schema_path"; "function_type"; "arguments"; "output_schema"; "stability"; "null_handling"; "description"; "examples";
   "categories"; "tags"; "required_settings"; "required_secrets"; "projection_pushdown"; "filter_pushdown"; "filter_semantic_profiles";
   "additional_filter_functions"; "runtime_filter_algorithms"; "filter_evaluation_contexts"; "filters_exactly_applied";
   "sampling_pushdown"; "input_from_args"; "partition_kind"; "order_dependent"; "distinct_dependent"; "parameter_default_values"].

(** The lists of structs of a function without extensions. *)
Definition struct_cells (m : FunctionMetadata) : list (string * cell) :=
  [("examples", Cell_array (Some (list_column example_fields (map example_row (md_examples m)))));
   ("required_secrets", Cell_array (Some (list_column secret_fields (map secret_row (md_required_secrets m)))));
   ("additional_filter_functions", Cell_array (Some (list_column identity_fields [])));
   ("runtime_filter_algorithms", Cell_array (Some (list_column identity_fields [])));
   ("filter_evaluation_contexts", Cell_array (Some (list_column context_fields [])))]%string.

(** What a common part has set. *)
Lemma common_cells name path k specs output m r :
  common_function_info name path k specs output m = Ok r →
  ∃ profiles parameters arguments out defaults cells,
    set_cells cells (new_builder FunctionInfoSchema None) = Ok r ∧ cells.*1 = common_names ∧
    head_cells name path k arguments out m ⊆ cells ∧ middle_cells m ⊆ cells ∧ pushdown_cells m profiles ⊆ cells ∧ tail_cells m ⊆ cells ∧
    struct_cells m ⊆ cells ∧ ("parameter_default_values"%string, defaults) ∈ cells ∧
    validate_filter_capabilities m = Ok tt ∧
    resolved_filter_semantic_profiles (md_filter_pushdown m) (md_filter_semantic_profiles m) = Ok profiles ∧
    build_arg_schema specs = Ok parameters ∧ encode_schema (parameters, None) = Ok arguments ∧ encode_schema output = Ok out ∧
    match md_parameter_default_values m with
    | None => defaults = Cell_null
    | Some values => b_rows values = 1 ∧ check_default_fields (b_schema values) specs = Ok tt ∧ ∃ b, encode_ipc values = Ok b ∧ defaults = Cell_binary b
    end.
Proof using All.
  unfold common_function_info. intros H. apply bind_Ok in H as ([] & Hv & H). apply bind_Ok in H as (profiles & Hp & H).
  apply bind_Ok in H as (parameters & Hpar & H). apply bind_Ok in H as (arguments & Ha & H). apply bind_Ok in H as (out & Ho & H).
  apply bind_Ok in H as (r1 & H1 & H). pose proof (set_cells_schema _ _ _ H1) as S1. cbn [rb_schema new_builder] in S1.
  apply bind_Ok in H as (r2 & H2 & H). apply set_examples_cell in H2 as [S2 H2%set_cells_one]; [|done].
  apply bind_Ok in H as (r3 & H3 & H). pose proof (set_cells_schema _ _ _ H3) as S3. rewrite S2 in S3.
  apply bind_Ok in H as (r4 & H4 & H). apply set_secrets_cell in H4 as [S4 H4%set_cells_one]; [|done].
  apply bind_Ok in H as (r5 & H5 & H). pose proof (set_cells_schema _ _ _ H5) as S5. rewrite S4 in S5.
  destruct (no_capabilities _ Hv) as (N1 & N2 & N3).
  unfold filter_function_identities_of, runtime_filter_identities_of, evaluation_contexts_of in H. rewrite N1, N2, N3 in H.
  apply bind_Ok in H as (r6 & H6 & H). apply set_identities_cell in H6 as [S6 H6%set_cells_one]; [|done..].
  apply bind_Ok in H as (r7 & H7 & H). apply set_identities_cell in H7 as [S7 H7%set_cells_one]; [|done..].
  apply bind_Ok in H as (r8 & H8 & H). apply set_contexts_cell in H8 as [S8 H8%set_cells_one]; [|done].
  apply bind_Ok in H as (r9 & H9 & H).
  apply default_values_cell in H as (c & H10%set_cells_one & Hd).
  exists profiles, parameters, arguments, out, c,
    (head_cells name path k arguments out m ++ take 1 (struct_cells m) ++ middle_cells m ++
     take 1 (drop 1 (struct_cells m)) ++ pushdown_cells m profiles ++
     take 1 (drop 2 (struct_cells m)) ++ take 1 (drop 3 (struct_cells m)) ++
     take 1 (drop 4 (struct_cells m)) ++ tail_cells m ++ [("parameter_default_values"%string, c)]).
  split_and!; try done.
  - repeat (apply set_cells_app; eexists; split; [eassumption|]). done.
  - intros x Hx. rewrite !elem_of_app. tauto.
  - intros x Hx. rewrite !elem_of_app. tauto.
  - intros x Hx. rewrite !elem_of_app. tauto.
  - intros x Hx. do 8 (apply elem_of_app; right). apply elem_of_app. by left.
  - intros x Hx. rewrite !elem_of_app.
    assert (struct_cells m = take 1 (struct_cells m) ++ take 1 (drop 1 (struct_cells m)) ++ take 1 (drop 2 (struct_cells m)) ++
      take 1 (drop 3 (struct_cells m)) ++ take 1 (drop 4 (struct_cells m))) as E by done.
    rewrite E, !elem_of_app in Hx. tauto.
  - do 9 (apply elem_of_app; right). by left.
Qed.

(** *** How the enumerations are spelled on the wire *)

Definition kind_spelled (k : kind) : bytes :=
  match k with kScalar => bs "SCALAR" | kTable => bs "TABLE" | kTableBuffering => bs "TABLE_BUFFERING" | kAggregate => bs "AGGREGATE" end.
Definition stability_spelled (s : Stability) : bytes :=
  match s with Consistent => bs "CONSISTENT" | Volatile => bs "VOLATILE" | ConsistentWithinQuery => bs "CONSISTENT_WITHIN_QUERY" end.
Definition nulls_spelled (n : NullHandling) : bytes := match n with Default => bs "DEFAULT" | Special => bs "SPECIAL" end.

(** What is read of the columns of each kind alone. *)
Definition bool_reads (row : batch) (name : string) (b : bool) : Prop := get_bool (Some row) name = Ok b.
Definition table_own (fn : TableFunction S) (row : batch) : Prop :=
  let m := table_metadata fn in
  bool_reads row "late_materialization" (md_late_materialization m) ∧ bool_reads row "supports_batch_index" (md_supports_batch_index m) ∧
  bool_reads row "supports_splits" (tf_supports_splits fn) ∧
  (∀ z, md_split_token_ttl_seconds m = Some z → get_optional_int64 (Some row) "split_token_ttl_seconds" = Ok (Some z)) ∧
  (md_order_preservation m ≠ [] → get_optional_enum (Some row) "order_preservation" = Ok (Some (md_order_preservation m))).
Definition table_in_out_own (fn : TableInOut S) (row : batch) : Prop :=
  bool_reads row "has_finalize" (has_finish fn) ∧
  (∀ z, md_input_rows_per_call (table_in_out_metadata fn) = Some z → get_optional_int64 (Some row) "input_rows_per_call" = Ok (Some z)).
Definition buffering_own (fn : TableBufferingFunction S) (row : batch) : Prop :=
  let m := buffering_metadata fn in
  bool_reads row "requires_input_batch_index" (md_requires_input_batch_index m) ∧
  bool_reads row "sink_order_dependent" (md_sink_order_dependent m) ∧ bool_reads row "source_order_dependent" (md_source_order_dependent m) ∧
  bool_reads row "supports_batch_index" (md_supports_batch_index m) ∧ bool_reads row "has_finalize" true.
Definition aggregate_own (fn : AggregateFunction) (row : batch) : Prop :=
  bool_reads row "supports_window" (supports_window fn) ∧ bool_reads row "streaming_partitioned" (streaming_partitioned fn).

(** A record that was made: of which kind, of what declaration, and what of its own kind it shows. *)
Inductive encodes (path : list bytes) : kind → bytes → list ArgSpec → schema → FunctionMetadata → (batch → Prop) → bytes → Prop :=
| encodes_scalar fn b : encode_function_info fn path = Ok b →
    encodes path kScalar (sf_name fn) (sf_argument_specs fn) (build_scalar_output_schema (md_return_type (scalar_metadata fn)), None)
      (scalar_metadata fn) (λ _, True) b
| encodes_table fn b : encode_table_function_info fn path = Ok b →
    encodes path kTable (tf_name fn) (tf_argument_specs fn) ([], None) (table_metadata fn) (table_own fn) b
| encodes_table_in_out fn b : encode_table_in_out_info fn path = Ok b →
    encodes path kTable (to_name fn) (to_argument_specs fn) ([], None) (table_in_out_metadata fn) (table_in_out_own fn) b
| encodes_buffering fn b : encode_buffering_info fn path = Ok b →
    encodes path kTableBuffering (bf_name fn) (bf_argument_specs fn) ([], None) (buffering_metadata fn) (buffering_own fn) b
| encodes_aggregate fn output b : encode_aggregate_info fn path = Ok b → advertised_aggregate_schema fn = Ok output →
    encodes path kAggregate (ag_name fn) (aggregate_argument_specs fn) output (aggregate_metadata fn) (aggregate_own fn) b.

(** What a client reads of it. *)
Record shows (path : list bytes) (k : kind) (name : bytes) (specs : list ArgSpec) (output : schema) (m : FunctionMetadata)
    (row : batch) : Prop := {
  shows_name : get_string (Some row) "name" = Ok name;
  shows_path : wire_path path → get_schema_path (Some row) "schema_path" = Ok path;
  shows_kind : get_enum (Some row) "function_type" = Ok (kind_spelled k);
  shows_parameters : ∃ fields, build_arg_schema specs = Ok fields ∧ get_schema (Some row) "arguments" = Ok (Some (fields, None));
  shows_output : get_schema (Some row) "output_schema" = Ok (Some output);
  shows_stability : get_enum (Some row) "stability" = Ok (stability_spelled (md_stability m));
  shows_null_handling : get_enum (Some row) "null_handling" = Ok (nulls_spelled (md_null_handling m));
  shows_description : get_string (Some row) "description" = Ok (md_description m);
  shows_examples : Wire.column (Some row) "examples" = Ok (list_column example_fields (map example_row (md_examples m)));
  shows_categories : get_string_list (Some row) "categories" = Ok (md_categories m);
  shows_tags : Wire.column (Some row) "tags" = Ok (map_array T_string (map (λ e, (e.1, V_text e.2)) (md_tags m)));
  shows_settings : get_string_list (Some row) "required_settings" = Ok (md_required_settings m);
  shows_secrets : Wire.column (Some row) "required_secrets" = Ok (list_column secret_fields (map secret_row (md_required_secrets m)));
  shows_pushdown : bool_reads row "projection_pushdown" (md_projection_pushdown m) ∧
    bool_reads row "filter_pushdown" (md_filter_pushdown m) ∧
    bool_reads row "filters_exactly_applied" (md_filters_exactly_applied m) ∧
    bool_reads row "sampling_pushdown" (md_sampling_pushdown m) ∧ bool_reads row "input_from_args" (md_input_from_args m);
  shows_partition : get_enum (Some row) "partition_kind" =
    Ok (if bool_decide (md_partition_kind m = []) then bs "NOT_PARTITIONED" else md_partition_kind m);
  shows_dependence :
    get_enum (Some row) "order_dependent" = Ok (if md_order_dependent m then bs "ORDER_DEPENDENT" else bs "NOT_ORDER_DEPENDENT") ∧
    get_enum (Some row) "distinct_dependent" = Ok (if md_distinct_dependent m then bs "DISTINCT_DEPENDENT" else bs "NOT_DISTINCT_DEPENDENT");
  shows_capabilities : md_additional_filter_functions m = [] ∧ md_runtime_filter_algorithms m = [] ∧ md_filter_evaluation_contexts m = [] ∧
    Wire.column (Some row) "additional_filter_functions" = Ok (list_column identity_fields []) ∧
    Wire.column (Some row) "runtime_filter_algorithms" = Ok (list_column identity_fields []) ∧
    Wire.column (Some row) "filter_evaluation_contexts" = Ok (list_column context_fields []);
  shows_profiles : ∃ profiles, get_string_list (Some row) "filter_semantic_profiles" = Ok (map bs profiles) ∧
    Forall (λ p, p = kDuckDBStandardV1) profiles ∧
    (md_filter_semantic_profiles m ≠ [] → profiles = md_filter_semantic_profiles m) ∧
    (md_filter_semantic_profiles m = [] → profiles = if md_filter_pushdown m then [kDuckDBStandardV1] else []);
  shows_defaults : match md_parameter_default_values m with
    | None => get_optional_binary (Some row) "parameter_default_values" = Ok None
    | Some values => b_rows values = 1 ∧ sublist (map f_name (b_schema values)) (map sp_name specs) ∧
        get_ipc (Some row) "parameter_default_values" = Ok (Some values)
    end;
}.

Lemma after_parameter_sublist specs name rest : after_parameter specs name = Some rest →
  ∀ l, sublist l (map sp_name rest) → sublist (name :: l) (map sp_name specs).
Proof using Type.
  induction specs as [|s specs IH]; cbn [after_parameter map]; [done|]. case_bool_decide as Hn.
  - intros [= <-] l Hl. rewrite Hn. by constructor.
  - intros Hr l Hl. constructor. by apply IH.
Qed.
Lemma check_default_fields_sublist fields specs : check_default_fields fields specs = Ok tt → sublist (map f_name fields) (map sp_name specs).
Proof using Type.
  revert specs. induction fields as [|f fields IH]; intros specs; cbn [check_default_fields map]; [intros _; apply sublist_nil_l|].
  destruct (after_parameter specs (f_name f)) as [rest|] eqn:Hr; [|done]. intros H%IH. by eapply after_parameter_sublist.
Qed.

Lemma resolved_profiles pushdown declared profiles : resolved_filter_semantic_profiles pushdown declared = Ok profiles →
  Forall (λ p, p = kDuckDBStandardV1) profiles ∧ (declared ≠ [] → profiles = declared) ∧
  (declared = [] → profiles = if pushdown then [kDuckDBStandardV1] else []).
Proof using Type.
  unfold resolved_filter_semantic_profiles. destruct (forallb _ _) eqn:Hall; [|done]. intros [= <-]. split.
  - apply Forall_forall. intros p Hp. pose proof (proj1 (forallb_forall _ _) Hall p) as H. rewrite bool_decide_eq_true in H.
    apply H. by apply list_elem_of_In.
  - split; [|by intros ->]. by destruct declared.
Qed.

Lemma info_bytes_shows path k name specs output m own b :
  NoDup (common_names ++ own.*1) → info_bytes (common_function_info name path k specs output m) own = Ok b →
  ∃ row, decode_ipc b = Ok (Some row) ∧ shows path k name specs output m row ∧
    ∀ f c t, (f, c) ∈ own → type_named FunctionInfoSchema f = Some t → Wire.reads t (Some row) f c.
Proof using All.
  intros Hnd. unfold info_bytes, info_record. intros (row & Hrow & He)%bind_Ok. apply bind_Ok in Hrow as (r & Hr & H).
  apply common_cells in Hr as (profiles & parameters & arguments & out & defaults & cells & Hcells & Hnames & Hhead & Hmiddle & Hpush & Htail & Hstruct & Hdef & Hv & Hp & Hpar & Ha & Ho & Hd).
  apply bind_Ok in H as (r1 & H1 & H). apply bind_Ok in H as (r2 & H2 & Hf).
  assert (build_filled FunctionInfoSchema None (cells ++ own) = Ok row) as Hrow.
  { unfold build_filled. rewrite (proj2 (set_cells_app cells own _ r1)) by (by exists r). cbn [mbind result_bind]. rewrite H2. exact Hf. }
  assert (NoDup (cells ++ own).*1) as Hnd' by (by rewrite fmap_app, Hnames).
  assert (NoDup (map f_name FunctionInfoSchema)) as Hs by by_decide.
  assert (∀ f c t, (f, c) ∈ cells → type_named FunctionInfoSchema f = Some t → Wire.reads t (Some row) f c) as Hread
    by (intros f c t Hin; apply (filled_read _ _ _ f c t Hrow Hs Hnd'); apply elem_of_app; by left).
  assert (∀ f c t, (f, c) ∈ head_cells name path k arguments out m → type_named FunctionInfoSchema f = Some t → Wire.reads t (Some row) f c) as Hr1
    by (intros f c t Hin; by apply Hread, Hhead).
  assert (∀ i f c t, tail_cells m !! i = Some (f, c) → type_named FunctionInfoSchema f = Some t → Wire.reads t (Some row) f c) as Hr3
    by (intros i f c t Hin; apply Hread, Htail; by eapply list_elem_of_lookup_2).
  assert (∀ i f fs l, struct_cells m !! i = Some (f, Cell_array (Some (list_column fs l))) → is_Some (type_named FunctionInfoSchema f) →
    Wire.column (Some row) f = Ok (list_column fs l)) as Hr4.
  { intros i f fs l Hin [t Ht]. apply list_elem_of_lookup_2, Hstruct in Hin.
    destruct (Hread _ _ _ Hin Ht) as (u & x & rest & E & Hc). injection E as <- <- _. exact Hc. }
  apply encode_ipc_read in He as (_ & _ & _ & Hdec). exists row. split; [done|]. split;
    [|intros f c t Hin; apply (filled_read _ _ _ f c t Hrow Hs Hnd'); apply elem_of_app; by right]. split.
  - by apply (Hr1 "name"%string (Cell_string name) T_string); [left|].
  - intros [Hne Hfull]. by apply (Hr1 "schema_path"%string (Cell_string_list path) (list_of T_string)); [right; left| | |].
  - assert (kind_spelled k = function_type_wire_value k) as -> by (by destruct k).
    by apply (Hr1 "function_type"%string (Cell_enum _) enum_type); [do 2 right; left|].
  - exists parameters. split; [done|]. unfold get_schema.
    destruct (Hr1 "arguments"%string (Cell_binary arguments) schema_type) as [-> _]; [do 3 right; left|done|]. by apply decode_encode_schema.
  - unfold get_schema. destruct (Hr1 "output_schema"%string (Cell_binary out) schema_type) as [-> _]; [do 4 right; left|done|].
    by apply decode_encode_schema.
  - assert (stability_spelled (md_stability m) = stability_wire_value (md_stability m)) as -> by (by destruct (md_stability m)).
    by apply (Hr1 "stability"%string (Cell_enum _) enum_type); [do 5 right; left|].
  - assert (nulls_spelled (md_null_handling m) = null_handling_value (md_null_handling m)) as -> by (by destruct (md_null_handling m)).
    by apply (Hr1 "null_handling"%string (Cell_enum _) enum_type); [do 6 right; left|].
  - by apply (Hr1 "description"%string (Cell_string _) T_string); [do 7 right; left|].
  - by apply (Hr4 0%nat).
  - by apply (Hread "categories"%string (Cell_string_list _) (list_of T_string)); [apply Hmiddle; left|].
  - apply (Hread "tags"%string (Cell_string_map _) (map_of T_string T_string)); [apply Hmiddle; right; left|done].
  - by apply (Hread "required_settings"%string (Cell_string_list _) (list_of T_string)); [apply Hmiddle; do 2 right; left|].
  - by apply (Hr4 1%nat).
  - unfold bool_reads. split_and!; [apply (Hread "projection_pushdown"%string (Cell_bool _) T_bool); [apply Hpush; left|done]|
      apply (Hread "filter_pushdown"%string (Cell_bool _) T_bool); [apply Hpush; right; left|done]|
      by apply (Hr3 0%nat "filters_exactly_applied"%string (Cell_bool _) T_bool)|
      by apply (Hr3 1%nat "sampling_pushdown"%string (Cell_bool _) T_bool)|by apply (Hr3 2%nat "input_from_args"%string (Cell_bool _) T_bool)].
  - assert ((if bool_decide (md_partition_kind m = []) then bs "NOT_PARTITIONED" else md_partition_kind m) = partition_kind_wire_value m) as ->
      by (unfold partition_kind_wire_value; by destruct (md_partition_kind m)).
    by apply (Hr3 3%nat "partition_kind"%string (Cell_enum _) enum_type).
  - split; [by apply (Hr3 4%nat "order_dependent"%string (Cell_enum _) enum_type)|by apply (Hr3 5%nat "distinct_dependent"%string (Cell_enum _) enum_type)].
  - destruct (no_capabilities _ Hv) as (N1 & N2 & N3). split_and!; [done..| | |]; [by apply (Hr4 2%nat)|by apply (Hr4 3%nat)|by apply (Hr4 4%nat)].
  - exists profiles. apply resolved_profiles in Hp as Hp'. split; [|done].
    by apply (Hread "filter_semantic_profiles"%string (Cell_string_list _) (list_of T_string)); [apply Hpush; do 2 right; left|].
  - pose proof (Hread _ _ schema_type Hdef eq_refl) as Hrd. destruct (md_parameter_default_values m) as [values|].
    + destruct Hd as (D1 & D2%check_default_fields_sublist & e & D3 & ->). split_and!; [done..|].
      apply encode_ipc_read in D3 as (_ & _ & _ & D3). unfold get_ipc. destruct Hrd as [-> _]. exact D3.
    + subst defaults. destruct Hrd as [Hrd _]. apply Hrd. by right; right.
Qed.

(** What is set of a kind alone, read back. *)
Lemma own_bool row (own : list (string * cell)) name b :
  (∀ f c t, (f, c) ∈ own → type_named FunctionInfoSchema f = Some t → Wire.reads t (Some row) f c) →
  (name, Cell_bool b) ∈ own → is_Some (type_named FunctionInfoSchema name) → bool_reads row name b.
Proof using Type. intros H Hin [t Ht]. by apply (H name (Cell_bool b) t). Qed.

(** C18. What discovery says of a function is what the function declares.  The record of a
    function, of any of the five encodings, reads back with its name, schema and
    kind, its parameters and output as the schemas of its declaration, its
    documentation and examples, its stability, its treatment of nulls, the settings
    and the secrets it requires, and what may be pushed into it, with the
    capabilities of its own kind; typed defaults, if there are any, are one row over
    parameters in the order of the signature; the semantics it claims for pushed
    filters are those declared, which are only those the worker has, with some
    whenever filters may be pushed; and it claims no extension function, no
    runtime filter and no evaluation context, which the worker cannot evaluate. *)
Theorem function_served path k name specs output m own b :
  encodes path k name specs output m own b → ∃ row, decode_ipc b = Ok (Some row) ∧ shows path k name specs output m row ∧ own row.
Proof using All.
  intros H. destruct H as [fn b H|fn b H|fn b H|fn b H|fn output b H Ho].
  - destruct (info_bytes_shows _ _ _ _ _ _ [] _ ltac:(by_decide) H) as (row & Hd & Hs & _). by exists row.
  - destruct (λ Hnd, info_bytes_shows _ _ _ _ _ _ (table_cells fn) _ Hnd H) as (row & Hd & Hs & Hown).
    { unfold table_cells, optional_cell. destruct (md_split_token_ttl_seconds _), (non_empty _); by_decide. }
    exists row. split_and!; [done..|]. unfold table_own. cbv zeta.
    split_and!; [by eapply own_bool; [exact Hown|set_solver|]..| |].
    + intros z Hz. apply (Hown "split_token_ttl_seconds"%string (Cell_int64 z) T_int64); [|done]. unfold table_cells. rewrite Hz. set_solver.
    + intros Hne. apply (Hown "order_preservation"%string (Cell_enum (md_order_preservation (table_metadata fn))) enum_type); [|done].
      unfold table_cells. destruct (md_order_preservation (table_metadata fn)) as [|c s]; [done|]. cbn [non_empty optional_cell]. set_solver.
  - destruct (λ Hnd, info_bytes_shows _ _ _ _ _ _ (table_in_out_cells fn) _ Hnd H) as (row & Hd & Hs & Hown).
    { unfold table_in_out_cells, optional_cell. destruct (md_input_rows_per_call _); by_decide. }
    exists row. split_and!; [done..|]. split; [by eapply own_bool; [exact Hown|set_solver|]|].
    intros z Hz. apply (Hown "input_rows_per_call"%string (Cell_int64 z) T_int64); [|done]. unfold table_in_out_cells. rewrite Hz. set_solver.
  - destruct (λ Hnd, info_bytes_shows _ _ _ _ _ _ (buffering_cells fn) _ Hnd H) as (row & Hd & Hs & Hown); [by_decide|].
    exists row. split_and!; [done..|]. unfold buffering_own. cbv zeta. split_and!; (by eapply own_bool; [exact Hown|unfold buffering_cells; set_solver|]).
  - unfold encode_aggregate_info in H. rewrite Ho in H. cbn [mbind result_bind] in H.
    destruct (λ Hnd, info_bytes_shows _ _ _ _ _ _ _ _ Hnd H) as (row & Hd & Hs & Hown); [by_decide|].
    exists row. split_and!; [done..|]. split; (by eapply own_bool; [exact Hown|set_solver|]).
Qed.
End served.

(** ** At work: a scan of four parameters *)

#[local] Existing Instances table_record ArgSchema.plain_digits.

Definition rows_table : TableFunction nat :=
  Functions.mkTable (bs "rows") ArgSchema.sample_specs false (λ _, StorageClient.Ret None) (λ _, StorageClient.Ret None) (λ _, []) (λ _, Unknown)
    (λ _, StorageClient.Ret (mkCardinality None None)) true (λ _ _, StorageClient.Fail (Runtime_error "no plan")) (λ _, []) (λ _, StorageClient.Ret [])
    (λ _, StorageClient.Ret 1) (λ _, StorageClient.Ret tt).
Definition one_default : batch := mkBatch [Field "limit" T_double true []] None 1 [mkArray T_double [V_null]].
Definition plain_metadata (values : option batch) : FunctionMetadata :=
  mkMetadata (bs "Rows.") None [] [mkExample (bs "FROM rows(1)") (bs "one") None] [] values Volatile Default
    [mkLookup (bs "s3") None None] false None [] true true false [] [] [] [] false false false false false false (Some 60) [] false false false [].
Definition plain_declarations : Declarations nat :=
  Build_Declarations nat (λ _, plain_metadata None) (λ _, plain_metadata (Some one_default)) (λ _, plain_metadata None) (λ _, false)
    (λ _, plain_metadata None) (λ _, plain_metadata None) (λ _, []) (λ _, false) (λ _, false) (λ _, plain_metadata None) (λ _, None) (λ _, false)
    (λ _, plain_metadata None) (λ _, None).
#[local] Existing Instance plain_declarations.

Definition rows_schemas : list schema :=
  match build_arg_schema ArgSchema.sample_specs with Ok fields => [(fields, None); ([], None)] | Throw _ => [] end.
Definition rows_row : list batch :=
  row_of (info_record (A := schema_arrow [one_default])
            (common_function_info (A := schema_arrow [one_default]) (L := list_codec [one_default] rows_schemas) (bs "rows") main_schema kTable
               ArgSchema.sample_specs ([], None) (plain_metadata (Some one_default))) (table_cells rows_table)).
Definition rows_streams : list batch := one_default :: rows_row.
Definition rows_arrow : Arrow := schema_arrow rows_streams.
Definition rows_codec : SchemaCodec := list_codec rows_streams rows_schemas.
#[local] Existing Instances rows_arrow rows_codec.
Definition rows_stream : bytes := ConstraintsSpec.sample_bytes 1.

Lemma function_served_witness :
  encode_table_function_info rows_table main_schema = Ok rows_stream ∧
  ∃ row, decode_ipc rows_stream = Ok (Some row) ∧ get_string (Some row) "name" = Ok (bs "rows") ∧
    get_ipc (Some row) "parameter_default_values" = Ok (Some one_default) ∧
    get_enum (Some row) "stability" = Ok (bs "VOLATILE") ∧
    Wire.column (Some row) "required_secrets" = Ok (list_column secret_fields [V_struct [V_text (bs "s3"); V_null; V_null]]) ∧
    bool_reads row "supports_splits" true.
Proof.
  pose proof (schema_arrow_laws rows_streams) as L1. pose proof (list_codec_laws rows_streams rows_schemas) as L2.
  assert (ArrowRecordLaws rows_arrow table_record) as L3 by (destruct (table_record_laws rows_streams); by split).
  assert (encode_table_function_info rows_table main_schema = Ok rows_stream) as H by (vm_compute; reflexivity). split; [exact H|].
  destruct (function_served _ _ _ _ _ _ _ _ (encodes_table main_schema rows_table rows_stream H)) as (row & Hd & Hs).
  destruct Hs as [Hs (_ & _ & Hown & _)]. exists row. split; [exact Hd|]. split; [exact (shows_name _ _ _ _ _ _ _ Hs)|].
  split; [exact (proj2 (proj2 (shows_defaults _ _ _ _ _ _ _ Hs)))|]. split; [exact (shows_stability _ _ _ _ _ _ _ Hs)|].
  split; [exact (shows_secrets _ _ _ _ _ _ _ Hs)|exact Hown].
Defined.

(** A worker of that scan, and of one that is hidden. *)
Definition hiding_worker : Dispatcher nat :=
  match register_table_in (mkScope (bs "c") main_schema) (Some rows_table) new_dispatcher with Ok d => d | Throw _ => new_dispatcher end.

Definition listing_of (function_type : bytes) (st : gmap (bytes * list bytes * bytes) (list bytes)) :=
  function_listing hiding_worker ∅ (bs "c") main_schema function_type st.
Definition first_listing := listing_of [] no_listings.
Definition second_listing := listing_of (bs "table") first_listing.2.

Lemma listings_fresh_witness :
  first_listing.1 = Ok [rows_stream] ∧ base.size first_listing.2 = 2%nat ∧
  second_listing.1 = fresh_listing hiding_worker ∅ (bs "c") main_schema (bs "table") ∧
  fresh_listing hiding_worker {[bs "rows"]} (bs "c") main_schema (bs "table") = Ok [].
Proof.
  split; [vm_compute; reflexivity|]. split; [vm_compute; reflexivity|]. split; [|vm_compute; reflexivity].
  destruct (listings_fresh hiding_worker ∅ (bs "c") main_schema [] no_listings first_listing.1 first_listing.2) as [H0 H1].
  destruct (H1 H0 (surjective_pairing _)) as [_ H2].
  destruct (listings_fresh hiding_worker ∅ (bs "c") main_schema (bs "table") first_listing.2 second_listing.1 second_listing.2) as [_ H3].
  exact (proj1 (H3 H2 (surjective_pairing _))).
Defined.

(** A function that claims an evaluator the worker has not, and defaults out of order. *)
Example info_refused :
  validate_filter_capabilities
    (mkMetadata [] None [] [] [] None Consistent Default [] false None [] false false false [] [mkFilterFunction (bs "x") (bs "f") 1] [] [] false
       false false false false false None [] false false false []) =
    Throw (Invalid_argument "C++ SDK cannot advertise an extension filter function without an evaluator") ∧
  check_default_fields [Field "limit" T_double true []; Field "s" T_null true []] ArgSchema.sample_specs =
    Throw (Invalid_argument "parameter_default_values field 's' is absent from the signature or out of order").
Proof. vm_compute. done. Qed.
End FunctionInfo.
