(* ===== verification/Discovery.v ===== *)
(** * Discovery ([src/catalog.cpp])

    What an attached client asks of a catalog: its schemas and what they hold, one
    object by name, the scans of a table, its statistics, the functions and the COPY
    formats.  Every call names its attachment, and what it shows is the schema of the
    data version that the attachment resolved to.  The theorems: a table is described
    by the same row however it is asked for, the contents of the whole catalog
    included, and scanned as that row says; and no schema is announced with fewer
    objects of a kind than its listing has, so that an engine that skips a kind
    announced as empty misses none. *)

From S2P Require Import Prelude Text Crypto Arrow ArrowRecord ArrowCompute Wire Protocol Metadata Json WireSchema SqlScalar FunctionSpec Constraints ConstraintsSpec Capabilities StorageSpec StorageClient AttachService Attachment Plan Functions Dispatch Contents MemoryCatalog Versions Statistics Tables Macros Catalogs ArgSchema FunctionInfo.
Import Wire Protocol Metadata Json WireSchema FunctionSpec StorageClient Functions Dispatch Versions Statistics Tables Macros Catalogs ArgSchema FunctionInfo.

Module Discovery.

(** ** The records ([vgi_protocol_schemas.hpp]) *)

Definition ScanBranchesResultSchema : list field :=
  [fld "branches" (list_of T_binary) false; fld "required_extensions" (list_of T_string) false].
Definition ScanBranchSchema : list field :=
  [fld "function_name" T_string false; fld "arguments" T_binary false; fld "branch_filter" T_string true;
   fld "writable" T_bool false; fld "source_catalog" T_string true; fld "source_schema_path" (list_of T_string) true;
   fld "source_table" T_string true; fld "format_name" T_string true; fld "format_locations" (list_of T_string) true;
   fld "format_options" T_binary true; fld "schema_path" (list_of T_string) true].
Definition CopyFromFormatInfoSchema : list field :=
  [fld "comment" T_string true; fld "tags" (map_of T_string T_string) false; fld "format_name" T_string false;
   fld "handler" T_string false; fld "options" T_binary false; fld "direction" T_string false;
   fld "description" T_string false; fld "ordered" T_bool false].

(** [_function] is dropped of what is longer; no filter is an empty one. *)
Definition kSuffix : bytes := bs "_function".
Definition normalize_function_type (type : bytes) : option bytes :=
  let lowered := SqlScalar.lower type in
  let kept := (length lowered - length kSuffix)%nat in
  if bool_decide (type = []) then None
  else if bool_decide (length kSuffix < length lowered)%nat && bool_decide (drop kept lowered = kSuffix) then Some (take kept lowered)
  else Some lowered.

(** The outcome of a program that may fail, as a value. *)
Fixpoint attempt {X} (m : prog X) : prog (result X) :=
  match m with
  | Ret x => Ret (Ok x)
  | Fail e => Ret (Throw e)
  | Call o k => Call o (λ r, attempt (k r))
  end.

Lemma length_omap_zip {F X} (P : X * F → option F) (ss : list X) (fs : list F) (g : nat → option F) k :
  (∀ i s f, ss !! i = Some s → fs !! i = Some f → is_Some (P (s, f)) → is_Some (g (k + i)%nat)) →
  (length (omap P (zip ss fs)) ≤ length (omap g (seq k (length fs))))%nat.
Proof.
  revert ss k. induction fs as [|f fs IH]; intros ss k H; [by rewrite zip_with_nil_r|]. destruct ss as [|s ss]; [cbn; lia|].
  assert (length (omap P (zip ss fs)) ≤ length (omap g (seq (S k) (length fs))))%nat as Hrest.
  { apply IH. intros i s' f' Hs Hf HP. replace (S k + i)%nat with (k + S i)%nat by lia. by eapply H. }
  pose proof (H 0%nat s f eq_refl eq_refl) as H0. rewrite Nat.add_0_r in H0. cbn in *.
  destruct (P (s, f)) as [x|]; [destruct H0 as [y ->]; [by exists x|cbn; lia]|]. destruct (g k); cbn; lia.
Qed.

Section discovery.
Context `{A : Arrow} `{R : ArrowRecord} `{C : Compute} `{L : SchemaCodec} `{B : Base64} `{J : JsonParser} `{M : ListOf} `{U : SparseUnion}.
Context `{T : DoubleText} `{W : Contents.BatchStream} `{E : Contents.SetColumn} `{K : Crypto.Crypto} {S : Type} `{D : Declarations S}.
(** The catalogs of the worker, its functions and those that are hidden, and whether
    the transport seals. *)
Context (primary : CatalogModel) (others : list CatalogModel) (d : Dispatcher S) (hidden : gset bytes) (sealing : bool).

(** ** What an attachment is shown *)

Definition attachment_of (request : option batch) : prog Attachment.Attachment :=
  Attachment.attachment_of (cl_model primary) (map cl_model others) sealing request.

Definition find_catalog (name : bytes) : option CatalogModel := List.find (λ m, bool_decide (cl_name m = name)) (primary :: others).
Definition attached (a : Attachment.Attachment) : CatalogModel := default primary (find_catalog (Attachment.at_catalog a)).

(** The schemas of a data version; of none, and of one that has none of its own, the
    declared ones. *)
Definition schemas_at (m : CatalogModel) (data_version : bytes) : list CatalogSchema :=
  if bool_decide (data_version = []) then cl_schemas m
  else match List.find (λ e, bool_decide (e.1 = data_version)) (cl_version_schemas m) with
       | Some e => e.2
       | None => cl_schemas m
       end.
Definition schema_shown (a : Attachment.Attachment) (path : list bytes) : option CatalogSchema :=
  List.find (λ s, bool_decide (sh_path s = path)) (schemas_at (attached a) (Attachment.at_data_version a)).
Definition schema_for (request : option batch) (path : list bytes) : prog (option CatalogSchema) :=
  a ← attachment_of request; Ret (schema_shown a path).

(** ** Answers that are lists *)

Definition items_answer (method : string) (items : list bytes) : result batch :=
  schema ← payload_schema_of method;
  schema ← from_opt (Undefined_behaviour "a builder without a schema") schema;
  payload ← build schema None [("items"%string, Cell_binary_list items)];
  envelope_of payload.
Definition empty_items (method : string) : result batch := items_answer method [].

(** The items of the schema of a path; of none, none. *)
Definition items_in (request : option batch) (path : list bytes) (items : CatalogSchema → result (list bytes)) : prog (list bytes) :=
  schema ← schema_for request path;
  lift (match schema with Some s => items s | None => Ok [] end).

(** *** One object *)

Definition table_item (path : list bytes) (at_unit at_value : option bytes) (table : CatalogTable) : result bytes :=
  version ← table_version table at_unit at_value; encode_table_info table path version.

Definition catalog_table_get (request : option batch) : prog batch :=
  path ← lift (get_schema_path request "schema_path");
  name ← lift (get_string request "name");
  at_unit ← lift (get_optional_string request "at_unit");
  at_value ← lift (get_optional_string request "at_value");
  items ← items_in request path (λ s, mapM (table_item path at_unit at_value) (filter (λ t, ct_name t = name) (sh_tables s)));
  lift (items_answer "catalog_table_get" items).

Definition catalog_view_get (request : option batch) : prog batch :=
  path ← lift (get_schema_path request "schema_path");
  name ← lift (get_string request "name");
  items ← items_in request path (λ s, mapM (λ v, encode_view_info v path) (filter (λ v, vw_name v = name) (sh_views s)));
  lift (items_answer "catalog_view_get" items).

Definition catalog_macro_get (request : option batch) : prog batch :=
  path ← lift (get_schema_path request "schema_path");
  name ← lift (get_string request "name");
  items ← items_in request path (λ s, mapM (λ m, encode_macro_info m path) (filter (λ m, mc_name m = name) (sh_macros s)));
  lift (items_answer "catalog_macro_get" items).

Definition catalog_index_get : prog batch := lift (empty_items "catalog_index_get").

(** *** The objects of a schema *)

Definition catalog_schema_contents_tables (request : option batch) : prog batch :=
  path ← lift (get_schema_path request "path");
  items ← items_in request path (λ s, mapM (table_item path None None) (sh_tables s));
  lift (items_answer "catalog_schema_contents_tables" items).

Definition catalog_schema_contents_views (request : option batch) : prog batch :=
  path ← lift (get_schema_path request "path");
  items ← items_in request path (λ s, mapM (λ v, encode_view_info v path) (sh_views s));
  lift (items_answer "catalog_schema_contents_views" items).

(** The kind is bare or ends in [_macro]. *)
Definition macro_wanted (filter : option bytes) (m : CatalogMacro) : bool :=
  match filter with
  | None => true
  | Some kind => if mc_table_macro m then bool_decide (kind = bs "table") || bool_decide (kind = bs "table_macro")
                 else bool_decide (kind = bs "scalar") || bool_decide (kind = bs "scalar_macro")
  end.
Definition catalog_schema_contents_macros (request : option batch) : prog batch :=
  path ← lift (get_schema_path request "path");
  kind ← lift (get_optional_enum request "type");
  let wanted := normalize_function_type (default [] kind) in
  items ← items_in request path (λ s, mapM (λ m, encode_macro_info m path) (filter (λ m, macro_wanted wanted m = true) (sh_macros s)));
  lift (items_answer "catalog_schema_contents_macros" items).

Definition catalog_schema_contents_indexes : prog batch := lift (empty_items "catalog_schema_contents_indexes").

(** A listing that is kept is the one made now ([FunctionInfo.listings_fresh]). *)
Definition catalog_schema_contents_functions (request : option batch) : prog batch :=
  path ← lift (get_schema_path request "path");
  kind ← lift (get_enum request "type");
  a ← attachment_of request;
  items ← lift (fresh_listing d hidden (Attachment.at_catalog a) path (default [] (normalize_function_type kind)));
  lift (items_answer "catalog_schema_contents_functions" items).

(** ** A table: statistics and scans *)

(** The last of the name. *)
Definition table_named (name : bytes) (s : CatalogSchema) : option CatalogTable :=
  foldl (λ found t, if bool_decide (ct_name t = name) then Some t else found) None (sh_tables s).
Definition find_table_in (request : option batch) (path : list bytes) (name : bytes) : prog (option CatalogTable) :=
  schema ← schema_for request path; Ret (schema ≫= table_named name).
Definition require_table (request : option batch) (path : list bytes) (name : bytes) : prog CatalogTable :=
  found ← find_table_in request path name;
  lift (from_opt (Invalid_argument ("no table '" +:+ str (schema_path_string path) +:+ "." +:+ str name +:+ "'")) found).

Definition catalog_table_column_statistics_get (request : option batch) : prog batch :=
  path ← lift (get_schema_path request "schema_path");
  name ← lift (get_string request "name");
  found ← find_table_in request path name;
  lift (c ← (match found ≫= λ t, match ct_column_statistics t with [] => None | l => Some l end with
             | Some l => s ← serialize_column_statistics l; Ok (Cell_binary s)
             | None => Ok Cell_null
             end : result cell);
        build envelope_schema None [("result"%string, c)]).

Definition catalog_table_scan_function_get (request : option batch) : prog batch :=
  path ← lift (get_schema_path request "schema_path");
  name ← lift (get_string request "name");
  found ← require_table request path name;
  at_unit ← lift (get_optional_string request "at_unit");
  at_value ← lift (get_optional_string request "at_value");
  lift (version ← table_version found at_unit at_value;
        scan ← build ScanFunctionResultSchema None
                 [("function_name", Cell_string (scan_function_of found version)); ("arguments", Cell_binary (scan_arguments_of found version));
                  ("required_extensions", Cell_string_list []); ("schema_path", Cell_string_list path)]%string;
        envelope_of scan).

(** *** Branches *)

(** A table that declares no branches is one. *)
Definition own_branch (table : CatalogTable) (path : list bytes) (version : option TimeTravelVersion) : result bytes :=
  b ← build_filled ScanBranchSchema None
        [("function_name", Cell_string (scan_function_of table version)); ("arguments", Cell_binary (scan_arguments_of table version));
         ("writable", Cell_bool false); ("schema_path", Cell_string_list path)]%string;
  encode_ipc b.
Definition branch_cells (b : CatalogBranch) : list (string * cell) :=
  [("function_name", Cell_string (br_function_name b)); ("arguments", Cell_binary (br_scan_arguments b));
   ("writable", Cell_bool (br_writable b)); ("branch_filter", null_or Cell_string (br_branch_filter b));
   ("source_catalog", null_or Cell_string (br_source_catalog b));
   ("source_schema_path", null_or Cell_string_list (br_source_schema_path b));
   ("schema_path", null_or Cell_string_list (br_schema_path b)); ("source_table", null_or Cell_string (br_source_table b));
   ("format_name", null_or Cell_string (br_format_name b)); ("format_locations", null_or Cell_string_list (br_format_locations b));
   ("format_options", null_or Cell_binary (br_format_options b))]%string.
Definition encode_branch (b : CatalogBranch) : result bytes := r ← build_filled ScanBranchSchema None (branch_cells b); encode_ipc r.

Definition table_branches (table : CatalogTable) (path : list bytes) (version : option TimeTravelVersion) : result (list bytes) :=
  match ct_branches table with
  | None => b ← own_branch table path version; Ok [b]
  | Some l => mapM encode_branch l
  end.

Definition catalog_table_scan_branches_get (request : option batch) : prog batch :=
  path ← lift (get_schema_path request "schema_path");
  name ← lift (get_string request "name");
  found ← require_table request path name;
  at_unit ← lift (get_optional_string request "at_unit");
  at_value ← lift (get_optional_string request "at_value");
  lift (version ← table_version found at_unit at_value;
        branches ← table_branches found path version;
        r ← build ScanBranchesResultSchema None
              [("branches", Cell_binary_list branches); ("required_extensions", Cell_string_list (ct_required_extensions found))]%string;
        envelope_of r).

(** ** Schemas *)

Definition size {X} (l : list X) : Z := Z.of_nat (length l).

(** How many objects of each kind a schema announces: of what the attachment is shown,
    and of the functions declared there. *)
Definition object_counts (owner : bytes) (path : list bytes) (contents : CatalogSchema) : list (bytes * Z) :=
  let scope := mkScope owner path in
  [(bs "view", size (sh_views contents)); (bs "macro", size (sh_macros contents)); (bs "table", size (sh_tables contents));
   (bs "scalar_function", size (in_schema (scalars_ d) scope)); (bs "aggregate_function", size (in_schema (aggregates_ d) scope));
   (bs "table_function", size (in_schema (tables_ d) scope) + size (in_schema (table_in_outs_ d) scope) + size (in_schema (bufferings_ d) scope));
   (bs "index", 0)].
Definition schema_cells (owner : bytes) (schema contents : CatalogSchema) : list (string * cell) :=
  [("path", Cell_string_list (sh_path schema)); ("tags", Cell_string_map (sh_tags schema));
   ("estimated_object_count", Cell_int64_map (object_counts owner (sh_path schema) contents));
   ("comment", null_or Cell_string (sh_comment schema))]%string.
Definition encode_schema_info (owner : bytes) (schema : CatalogSchema) (contents : option CatalogSchema) : result bytes :=
  b ← build_filled MemoryCatalog.SchemaInfoSchema None (schema_cells owner schema (default schema contents)); encode_ipc b.

Definition catalog_schemas (request : option batch) : prog batch :=
  a ← attachment_of request;
  items ← for_map (cl_schemas (attached a)) (λ s,
            contents ← schema_for request (sh_path s); lift (encode_schema_info (Attachment.at_catalog a) s contents));
  lift (items_answer "catalog_schemas" items).

Definition catalog_schema_get (request : option batch) : prog batch :=
  wanted ← lift (get_schema_path request "path");
  a ← attachment_of request;
  items ← for_map (filter (λ s, sh_path s = wanted) (cl_schemas (attached a))) (λ s,
            contents ← schema_for request wanted; lift (encode_schema_info (Attachment.at_catalog a) s contents));
  lift (items_answer "catalog_schema_get" items).

(** *** Everything at once *)

Fixpoint insert_shallow (s : CatalogSchema) (l : list CatalogSchema) : list CatalogSchema :=
  match l with
  | [] => [s]
  | t :: l => if bool_decide (length (sh_path s) ≤ length (sh_path t))%nat then s :: t :: l else t :: insert_shallow s l
  end.
Definition parents_first (l : list CatalogSchema) : list CatalogSchema := foldr insert_shallow [] l.

(** What a schema holds for an attachment, in one row. *)
Definition schema_row (catalog : bytes) (schema : CatalogSchema) (contents : option CatalogSchema) : result Contents.SchemaContents :=
  let path := sh_path schema in
  let shown {X} (l : CatalogSchema → list X) : list X := match contents with Some s => l s | None => [] end in
  info ← encode_schema_info catalog schema contents;
  tables ← mapM (table_item path None None) (shown sh_tables);
  views ← mapM (λ v, encode_view_info v path) (shown sh_views);
  macros ← mapM (λ m, item ← encode_macro_info m path; Ok (mc_table_macro m, item)) (shown sh_macros);
  scalars ← fresh_listing d hidden catalog path (kind_key kScalar);
  aggregates ← fresh_listing d hidden catalog path (kind_key kAggregate);
  functions ← fresh_listing d hidden catalog path (kind_key kTable);
  Ok (Contents.mkContents path info tables views scalars aggregates functions
        (filter (λ e, e.1 = false) macros).*2 (filter (λ e, e.1 = true) macros).*2 []).

Definition compose_catalog_contents (request : option batch) (a : Attachment.Attachment) (m : CatalogModel) : prog (list Contents.SchemaContents) :=
  for_map (parents_first (cl_schemas m)) (λ s, contents ← schema_for request (sh_path s); lift (schema_row (Attachment.at_catalog a) s contents)).

Definition current_catalog_version : Z := 1.

(** What a handler may ask for is made first here; making it changes nothing. *)
Definition catalog_contents (request : option batch) : prog batch :=
  a ← attachment_of request;
  let m := attached a in
  if_none_match ← lift (get_optional_string request "if_none_match");
  contents ← attempt (compose_catalog_contents request a m);
  lift (ans ← Contents.answer_catalog_contents (cl_catalog_contents_handler m) (cl_catalog_contents_etag m)
                (Contents.mkCall (Attachment.at_catalog a) current_catalog_version if_none_match contents);
        payload ← Contents.encode_catalog_contents current_catalog_version ans;
        envelope_of payload).

(** ** COPY formats *)

Definition copy_sides : Type := option CopyToFunction * option CopyFromFunction.

(** The formats in the order they were first declared, and the handlers of each:
    of a direction the last. *)
Definition add_side (st : list bytes * gmap bytes (option CopyToFunction * option CopyFromFunction)) (format : bytes)
    (set : option CopyToFunction * option CopyFromFunction → option CopyToFunction * option CopyFromFunction) :=
  let side := default (None, None) (st.2 !! format) in
  (match side with (None, None) => st.1 ++ [format] | _ => st.1 end, <[format := set side]> st.2).
Definition copy_formats (d : Dispatcher S) : list bytes * gmap bytes (option CopyToFunction * option CopyFromFunction) :=
  foldl (λ st r, add_side st (cf_format r) (λ side, (side.1, Some r)))
    (foldl (λ st w, add_side st (ct_format w) (λ side, (Some w, side.2))) ([], ∅) (copy_to_ d)) (copy_from_ d).

Definition copy_format_info (format : bytes) (side : option CopyToFunction * option CopyFromFunction) : result bytes :=
  throw_if (match side with (Some w, Some r) => negb (bool_decide (ct_handler_name w = cf_handler_name r)) | _ => false end)
    (Invalid_argument ("COPY format '" +:+ str format +:+ "' is declared in both directions with different handlers ('" +:+
       str (from_option ct_handler_name [] side.1) +:+ "' writing, '" +:+ str (from_option cf_handler_name [] side.2) +:+
       "' reading). One name is one handler."));;
  '(handler, direction, specs, metadata, comment, is_ordered) ←
    (match side with
     | (Some w, r) => Ok (ct_handler_name w, if bool_decide (is_Some (cf_handler_name <$> r)) then bs "both" else bs "to",
                          ct_argument_specs w, copy_to_metadata w, copy_to_comment w, ordered w)
     | (None, Some r) => Ok (cf_handler_name r, bs "from", cf_argument_specs r, copy_from_metadata r, copy_from_comment r, false)
     | (None, None) => Throw (Undefined_behaviour "a null reader")
     end : result (bytes * bytes * list ArgSpec * FunctionMetadata * option bytes * bool));
  parameters ← build_arg_schema specs;
  options ← encode_schema (parameters, None);
  b ← build_filled CopyFromFormatInfoSchema None
        [("format_name", Cell_string format); ("handler", Cell_string handler); ("direction", Cell_string direction);
         ("description", Cell_string (md_description metadata)); ("ordered", Cell_bool is_ordered); ("options", Cell_binary options);
         ("tags", Cell_string_map (md_tags metadata)); ("comment", null_or Cell_string comment)]%string;
  encode_ipc b.
Definition catalog_copy_from_formats : prog batch :=
  let '(order, sides) := copy_formats d in
  lift (items ← mapM (λ format, copy_format_info format (default (None, None) (sides !! format))) order;
        items_answer "catalog_copy_from_formats" items).

(** ** What is answered *)

(** An answer that is a list of items. *)
Definition answered (ans : batch) (items : list bytes) : Prop :=
  ∃ payload, read_payload ans = Ok (Some payload) ∧ get_binary_list (Some payload) "items" = Ok items.

(** A call about a table, without an AT clause; a call about a schema. *)
Definition asks_table (request : option batch) (st : StorageSpec.store) (a : Attachment.Attachment) (path : list bytes) (name : bytes) : Prop :=
  answer (attachment_of request) st = Ok a ∧ get_schema_path request "schema_path" = Ok path ∧ get_string request "name" = Ok name ∧
  (∃ u, get_optional_string request "at_unit" = Ok u ∧ default [] u = []) ∧ ∃ v, get_optional_string request "at_value" = Ok v.
Definition asks_schema (request : option batch) (st : StorageSpec.store) (a : Attachment.Attachment) (path : list bytes) : Prop :=
  answer (attachment_of request) st = Ok a ∧ get_schema_path request "path" = Ok path.

Context `{!ArrowLaws A}.

Lemma attached_reads request : reads_only (attachment_of request).
Proof using Type. unfold attachment_of, Attachment.attachment_of, Attachment.restore_secret_options. reads_only. Qed.

Lemma for_map_Ok {X Y} (l : list X) (f : X → prog Y) st ys :
  (∀ x, reads_only (f x)) → answer (for_map l f) st = Ok ys → Forall2 (λ x y, answer (f x) st = Ok y) l ys.
Proof using Type.
  intros Hf. revert ys. induction l as [|x l IH]; intros ys; cbn [for_map]; [intros [= <-]; constructor|].
  intros (y & Hy & H)%answer_read_Ok; [|done]. apply answer_bind_Ok in H as (rest & Hrest & [= <-]). constructor; [done|by apply IH].
Qed.

Lemma for_map_reads {X Y} (l : list X) (f : X → prog Y) : (∀ x, reads_only (f x)) → reads_only (for_map l f).
Proof using Type.
  intros Hf. induction l as [|x l IH]; cbn [for_map]; [apply reads_only_ret|].
  apply reads_only_bind; [done|]. intros y. apply reads_only_bind; [done|]. intros. apply reads_only_ret.
Qed.

Lemma answer_attempt {X} (m : prog X) st : answer (attempt m) st = Ok (answer m st).
Proof using Type. unfold answer. revert st. induction m as [x|e|o k IH]; intros st; cbn; [done..|]. apply IH. Qed.
Lemma attempt_reads {X} (m : prog X) : reads_only m → reads_only (attempt m).
Proof using Type.
  intros H st. rewrite <- (H st) at 2. unfold after. clear H. revert st.
  induction m as [x|e|o k IH]; intros st; cbn; [done..|]. apply IH.
Qed.

(** Every handler looks up the schema that the attachment is shown. *)
Lemma schema_for_reads request path : reads_only (schema_for request path).
Proof using Type. unfold schema_for. apply reads_only_bind; [apply attached_reads|intros; apply reads_only_ret]. Qed.
Lemma schema_for_Ok {X} request st a path (f : option CatalogSchema → prog X) x :
  answer (attachment_of request) st = Ok a → answer (schema_for request path ≫= f) st = Ok x → answer (f (schema_shown a path)) st = Ok x.
Proof using Type.
  intros Ha (o & Ho & H)%answer_read_Ok; [|apply schema_for_reads]. unfold schema_for in Ho.
  apply answer_read_Ok in Ho as (a' & Ha' & [= <-]); [|apply attached_reads]. assert (a' = a) as -> by congruence. done.
Qed.
Lemma for_schemas_Ok {X} request st a (l : list CatalogSchema) (path : CatalogSchema → list bytes) (f : CatalogSchema → option CatalogSchema → result X) xs :
  answer (attachment_of request) st = Ok a →
  answer (for_map l (λ s, contents ← schema_for request (path s); lift (f s contents))) st = Ok xs →
  Forall2 (λ s x, f s (schema_shown a (path s)) = Ok x) l xs.
Proof using Type.
  intros Ha H%for_map_Ok; [|intros; apply reads_only_bind; [apply schema_for_reads|intros; apply reads_only_lift]].
  eapply Forall2_impl; [exact H|]. intros s x Hx%(schema_for_Ok _ _ a); [|done]. by rewrite answer_lift in Hx.
Qed.

Lemma items_answered method items b :
  payload_schema_of method = Ok (Some [fld "items" (list_of T_binary) false]) → items_answer method items = Ok b → answered b items.
Proof using Type*.
  intros Hm. unfold items_answer. rewrite Hm. cbn [mbind result_bind from_opt]. intros (payload & Hp & Hb%envelope_read)%bind_Ok.
  exists payload. split; [done|].
  eapply (built_read _ _ _ "items"%string (Cell_binary_list items) (list_of T_binary) Hp); [by_decide|by_decide|by left|done].
Qed.

Lemma items_in_Ok request st a path f items : answer (attachment_of request) st = Ok a →
  answer (items_in request path f) st = Ok items → (match schema_shown a path with Some s => f s | None => Ok [] end) = Ok items.
Proof using Type.
  intros Ha. unfold items_in. intros H%(schema_for_Ok _ _ a); [|done]. by rewrite answer_lift in H.
Qed.

(** A listing answers the items of the schema that is shown. *)
Lemma listing_answered request st a path method f ans :
  payload_schema_of method = Ok (Some [fld "items" (list_of T_binary) false]) → answer (attachment_of request) st = Ok a →
  answer (items ← items_in request path f; lift (items_answer method items)) st = Ok ans →
  ∃ items, answered ans items ∧ (match schema_shown a path with Some s => f s | None => Ok [] end) = Ok items.
Proof using Type*.
  intros Hm Ha. rewrite answer_bind_Ok. intros (items & Hi%(items_in_Ok _ _ a) & H); [|done].
  rewrite answer_lift in H. exists items. split; [by eapply items_answered|done].
Qed.

Lemma no_clause table u v : default [] u = [] → table_version table u v = table_version table None None.
Proof using Type. unfold table_version, resolve_version. destruct u as [[|]|]; cbn; done. Qed.

Lemma filter_unique {X Y} `{EqDecision Y} (f : X → Y) (l : list X) i x :
  NoDup (map f l) → l !! i = Some x → filter (λ y, f y = f x) l = [x].
Proof using Type.
  revert i. induction l as [|y l IH]; intros i; [done|]. cbn [map]. intros [Hn Hnd]%NoDup_cons.
  destruct i as [|i]; cbn [lookup list_lookup]; [intros [= ->]|intros Hi]; rewrite filter_cons.
  - rewrite decide_True by done. f_equal. destruct (filter _ l) as [|z k] eqn:Hk; [done|]. destruct Hn.
    assert (z ∈ filter (λ y, f y = f x) l) as [<- Hz]%list_elem_of_filter by (rewrite Hk; left). by apply list_elem_of_fmap_2.
  - rewrite decide_False; [by eapply IH|]. intros Heq. apply Hn. rewrite Heq. apply list_elem_of_fmap_2. by eapply list_elem_of_lookup_2.
Qed.

Lemma table_named_unique s i t : NoDup (map ct_name (sh_tables s)) → sh_tables s !! i = Some t → table_named (ct_name t) s = Some t.
Proof using Type.
  intros Hnd Hi. pose proof (filter_unique ct_name _ _ _ Hnd Hi) as Hf. revert Hf. unfold table_named. generalize (sh_tables s). clear.
  assert (∀ l o, foldl (λ found y, if bool_decide (ct_name y = ct_name t) then Some y else found) o l =
                 match last (filter (λ y, ct_name y = ct_name t) l) with Some y => Some y | None => o end) as H.
  { induction l as [|y l IH]; intros o; cbn [foldl]; [done|]. rewrite IH, filter_cons. destruct (decide _) as [He|He].
    - rewrite bool_decide_true, last_cons by done. by destruct (last _).
    - rewrite bool_decide_false by done. done. }
  intros l Hf. by rewrite H, Hf.
Qed.

(** The row of a table inlines the record of its scan. *)
Lemma table_info_scan table path version item : encode_table_info table path version = Ok item →
  ∃ row scan inlined, decode_ipc item = Ok (Some row) ∧ scan_record table path version = Ok scan ∧
    get_binary (Some row) "scan_function" = Ok inlined ∧ if ct_inline_scan table then decode_ipc inlined = Ok (Some scan) else inlined = [].
Proof using Type*.
  unfold encode_table_info. rewrite !bind_throw_if_Ok. intros (_ & _ & _ & H).
  apply bind_Ok in H as (scan & Hscan & H). apply bind_Ok in H as ([shape filters] & _ & H).
  apply bind_Ok in H as (s & _ & H). apply bind_Ok in H as (encoded & He & H). apply bind_Ok in H as (inlined & Hi & H).
  apply bind_Ok in H as (b & Hb & H). apply encode_ipc_read in H as (_ & _ & _ & Hd). exists b, scan, inlined.
  pose proof (λ n c t, filled_read _ _ _ n c t Hb table_info_NoDup) as Hr. unfold table_cells in Hr. cbn [fmap list_fmap fst] in Hr.
  split_and!; [done|done| |].
  - eapply (Hr "scan_function"%string (Cell_binary _) T_binary); [by_decide|set_solver|done|done].
  - destruct (ct_inline_scan table); [|by injection Hi]. by apply encode_ipc_read in Hi as (_ & _ & _ & Hi).
Qed.

(** What a row of the contents holds of the schema that is shown. *)
Lemma schema_row_shows catalog declared contents row : schema_row catalog declared contents = Ok row →
  let shown {X} (l : CatalogSchema → list X) : list X := match contents with Some s => l s | None => [] end in
  mapM (table_item (sh_path declared) None None) (shown sh_tables) = Ok (Contents.co_tables row) ∧
  mapM (λ v, encode_view_info v (sh_path declared)) (shown sh_views) = Ok (Contents.co_views row) ∧
  encode_schema_info catalog declared contents = Ok (Contents.co_schema row).
Proof using Type.
  unfold schema_row. intros (info & Hi & H)%bind_Ok. apply bind_Ok in H as (tables & Ht & H). apply bind_Ok in H as (views & Hv & H).
  apply bind_Ok in H as (macros & _ & H). apply bind_Ok in H as (? & _ & H). apply bind_Ok in H as (? & _ & H).
  apply bind_Ok in H as (? & _ & [= <-]). done.
Qed.

Lemma require_table_reads request path name : reads_only (require_table request path name).
Proof using Type.
  unfold require_table, find_table_in, schema_for. repeat (apply reads_only_bind; [|intros ?]); auto using attached_reads with reads_only.
Qed.
Lemma require_table_Ok request st a path name t : answer (attachment_of request) st = Ok a →
  answer (require_table request path name) st = Ok t → ∃ s, schema_shown a path = Some s ∧ table_named name s = Some t.
Proof using Type.
  intros Ha (found & Hf & Ht)%answer_bind_Ok. rewrite answer_lift in Ht. apply from_opt_Ok in Ht as ->.
  apply answer_bind_Ok in Hf as (schema & Hs & [= Hn]). apply answer_read_Ok in Hs as (a' & Ha' & [= <-]); [|apply attached_reads].
  assert (a' = a) as -> by congruence. destruct (schema_shown a path) as [s|]; [|done]. by exists s.
Qed.

Lemma insert_shallow_perm x l : insert_shallow x l ≡ₚ x :: l.
Proof using Type. induction l as [|t l IH]; cbn; [done|]. case_bool_decide; [done|]. rewrite IH. apply perm_swap. Qed.
Lemma parents_first_perm l : parents_first l ≡ₚ l.
Proof using Type. induction l as [|x l IH]; cbn; [done|]. by rewrite insert_shallow_perm, IH. Qed.

(** The contents of the catalog of an attachment, composed: a row for each schema the
    catalog declares, with what the attachment is shown. *)
Lemma composed_rows request st a rows :
  answer (attachment_of request) st = Ok a → answer (compose_catalog_contents request a (attached a)) st = Ok rows →
  map Contents.co_path rows ≡ₚ map sh_path (cl_schemas (attached a)) ∧
  Forall (λ row, ∃ declared, sh_path declared = Contents.co_path row ∧
    schema_row (Attachment.at_catalog a) declared (schema_shown a (Contents.co_path row)) = Ok row) rows.
Proof using Type.
  intros Ha H. unfold compose_catalog_contents in H. apply (for_schemas_Ok _ _ a) in H; [|done].
  assert (∀ catalog s o row, schema_row catalog s o = Ok row → Contents.co_path row = sh_path s) as Hpath.
  { intros catalog s o row Hr. unfold schema_row in Hr. repeat apply bind_Ok in Hr as (? & _ & Hr). by injection Hr as <-. }
  split.
  - rewrite <- (parents_first_perm (cl_schemas (attached a))). apply reflexive_eq. clear -H Hpath.
    induction H as [|s row l rows Hr _ IH]; [done|]. cbn. by rewrite IH, (Hpath _ _ _ _ Hr).
  - clear -H Hpath. induction H as [|s row l rows Hr _ IH]; constructor; [|done]. exists s. by rewrite (Hpath _ _ _ _ Hr).
Qed.

(** What a catalog without a handler of its own answers: its composed contents, all of
    them, unless the client has them. *)
Definition answers_composed (ans : batch) (rows : list Contents.SchemaContents) : Prop :=
  ∃ result payload, read_payload ans = Ok (Some payload) ∧ Contents.encode_catalog_contents current_catalog_version result = Ok payload ∧
    (Contents.cr_not_modified (Contents.an_result result) = false →
     Contents.encode_collections (Contents.sort_parents_first rows) = Ok (Contents.an_collections result)).

Lemma catalog_contents_composed request st a ans :
  answer (attachment_of request) st = Ok a → cl_catalog_contents_handler (attached a) = None →
  answer (catalog_contents request) st = Ok ans →
  ∃ rows, answer (compose_catalog_contents request a (attached a)) st = Ok rows ∧ answers_composed ans rows.
Proof using ArrowLaws0.
  intros Ha Hnone. unfold catalog_contents. intros (a' & Ha' & H)%answer_read_Ok; [|apply attached_reads].
  assert (a' = a) as -> by congruence. cbv zeta in H. apply answer_lift_Ok in H as (tag & _ & H).
  apply answer_read_Ok in H as (contents & Hc & H); [|apply attempt_reads; unfold compose_catalog_contents; apply for_map_reads;
    intros s; apply reads_only_bind; [apply schema_for_reads|intros; apply reads_only_lift]].
  rewrite answer_attempt in Hc. injection Hc as Hc. rewrite answer_lift, Hnone in H.
  apply bind_Ok in H as (result & Hr & H). apply bind_Ok in H as (payload & Hp & H%envelope_read).
  unfold Contents.answer_catalog_contents in Hr. cbn [Contents.cc_contents] in Hr.
  apply bind_Ok in Hr as (r & (rows & Hrows & [= <-])%bind_Ok & Hr). exists rows. split; [congruence|].
  exists result, payload. split_and!; [done..|]. intros Hm. cbn [Contents.cr_not_modified] in Hr.
  apply bind_Ok in Hr as ([] & _ & (schemas & [= <-] & Hr)%bind_Ok). cbv zeta in Hr.
  cbn [Contents.cr_etag Contents.cr_schemas Contents.tag_matches] in Hr.
  apply Contents.answer_full_Ok in Hr as (c & Hcol & [(-> & _)|(_ & _ & <- & _)]); [done|done|done|done].
Qed.

(** C7. A table is described alike however it is asked for, and scanned as it is described.
    Of an attachment that is shown a schema of distinct tables, a listing of the schema
    and a question for one table without an AT clause give the
    same row of it, each in its place; if the row inlines its scan, what it
    inlines is the record that a question for the scan is answered; and the contents
    of the whole catalog, which a catalog without a handler of its own composes for
    the attachment, have a row for every schema it declares, in which the tables of
    this one are those of the listing. *)
Theorem described_alike st a path s i t listing single scan whole listed got scanned all :
  schema_shown a path = Some s → NoDup (map ct_name (sh_tables s)) → sh_tables s !! i = Some t →
  asks_schema listing st a path → asks_table single st a path (ct_name t) → asks_table scan st a path (ct_name t) →
  answer (attachment_of whole) st = Ok a → cl_catalog_contents_handler (attached a) = None →
  answer (catalog_schema_contents_tables listing) st = Ok listed →
  answer (catalog_table_get single) st = Ok got →
  answer (catalog_table_scan_function_get scan) st = Ok scanned →
  answer (catalog_contents whole) st = Ok all →
  ∃ items item record row inlined rows, answered listed items ∧ items !! i = Some item ∧ answered got [item] ∧
    answers_composed all rows ∧ map Contents.co_path rows ≡ₚ map sh_path (cl_schemas (attached a)) ∧
    (∀ contents, contents ∈ rows → Contents.co_path contents = path → Contents.co_tables contents = items) ∧
    read_payload scanned = Ok (Some record) ∧
    decode_ipc item = Ok (Some row) ∧ get_binary (Some row) "scan_function" = Ok inlined ∧
    if ct_inline_scan t then decode_ipc inlined = Ok (Some record) else inlined = [].
Proof using Type*.
  intros Hs Hnd Hi Hl (Ha1 & Hp1 & Hn1 & (u1 & Hu1 & Hu1') & v1 & Hv1) (Ha2 & Hp2 & Hn2 & (u2 & Hu2 & Hu2') & v2 & Hv2) Hw Hnone.
  unfold catalog_schema_contents_tables, catalog_table_get, catalog_table_scan_function_get.
  rewrite (proj2 Hl), Hp1, Hn1, Hu1, Hv1, Hp2, Hn2. cbn [lift mbind prog_bind p_bind].
  intros (items & Hans & Hitems)%(listing_answered _ _ a); [|done|apply Hl].
  intros (got_items & Hgot & Hg)%(listing_answered _ _ a); [|done..]. rewrite Hs in Hitems, Hg.
  rewrite (filter_unique _ _ _ _ Hnd Hi) in Hg. cbn [mapM] in Hg. apply bind_Ok in Hg as (item & Hitem & [= <-]).
  unfold table_item in Hitem. rewrite no_clause in Hitem by done. fold (table_item path None None t) in Hitem.
  intros (found & Hfound & H3)%answer_read_Ok; [|apply require_table_reads].
  intros (rows & Hrows & Hcomposed)%(catalog_contents_composed _ _ a); [|done..].
  apply (composed_rows _ _ a) in Hrows as [Hpaths Hrows]; [|done].
  apply (require_table_Ok _ _ a) in Hfound as (s' & Hs' & Hfound); [|done]. assert (s' = s) as -> by congruence.
  rewrite (table_named_unique _ _ _ Hnd Hi) in Hfound. injection Hfound as <-.
  rewrite Hu2, Hv2 in H3. cbn [lift mbind prog_bind p_bind] in H3. rewrite answer_lift, no_clause in H3 by done.
  apply bind_Ok in Hitem as (version & Hversion & Hitem). rewrite Hversion in H3. cbn [mbind result_bind] in H3.
  apply bind_Ok in H3 as (record & Hrecord & H3%envelope_read).
  pose proof Hitem as He. apply table_info_scan in Hitem as (row & scanned_record & inlined & Hrow & Hsr & Hinlined & Hscan).
  assert (scanned_record = record) as -> by (unfold scan_record in Hsr; congruence).
  pose proof (mapM_all _ _ _ Hitems) as Hall. destruct (Forall2_lookup_l _ _ _ _ _ Hall Hi) as (item' & Hi' & Hitem').
  unfold table_item in Hitem'. rewrite Hversion in Hitem'. cbn [mbind result_bind] in Hitem'.
  assert (item' = item) as -> by congruence. exists items, item, record, row, inlined, rows. split_and!; try done.
  intros contents Hin <-. rewrite Forall_forall in Hrows. destruct (Hrows _ Hin) as (declared & Hd & Hrow').
  apply schema_row_shows in Hrow' as (Ht & _). cbn in Ht. rewrite Hs, Hd in Ht. congruence.
Qed.

(** *** What a schema announces *)

(** The listings of a schema, and the key each is announced under. *)
Definition function_key (k : kind) : option bytes :=
  match k with
  | kScalar => Some (bs "scalar_function")
  | kAggregate => Some (bs "aggregate_function")
  | kTable => Some (bs "table_function")
  | kTableBuffering => None
  end.
Inductive lists (request : option batch) : bytes → prog batch → Prop :=
| lists_tables : lists request (bs "table") (catalog_schema_contents_tables request)
| lists_views : lists request (bs "view") (catalog_schema_contents_views request)
| lists_macros : lists request (bs "macro") (catalog_schema_contents_macros request)
| lists_functions k key type : get_enum request "type" = Ok type → normalize_function_type type = Some (kind_key k) →
    function_key k = Some key → lists request key (catalog_schema_contents_functions request)
| lists_indexes : lists request (bs "index") catalog_schema_contents_indexes.

Lemma answered_inj ans items items' : answered ans items → answered ans items' → items = items'.
Proof using Type. intros (p & Hp & Hi) (p' & Hp' & Hi'). congruence. Qed.

Lemma listed_counted {F} (name_of : F → bytes) (r : registry F) catalog path :
  size (listed hidden name_of r catalog path) ≤ size (in_schema r (mkScope catalog path)).
Proof using Type.
  unfold size, listed, in_schema. apply Nat2Z.inj_le, length_omap_zip. intros i s f Hs Hf. cbn.
  unfold at_place. rewrite Hs, in_scope_serves. unfold serves. cbn.
  destruct (bool_decide (sc_schema_path s = path)) eqn:E1; [|by intros []]. destruct (bool_decide (sc_catalog s = catalog)) eqn:E2; [|by intros []].
  apply bool_decide_eq_true in E1, E2. intros _. rewrite bool_decide_true by (split; [done|by right]). by exists f.
Qed.

Lemma length_mapM {X Y} (f : X → result Y) l k : mapM f l = Ok k → size k = size l.
Proof using Type. intros H%mapM_all%Forall2_length. unfold size. lia. Qed.
Lemma size_filter {X} (P : X → Prop) `{∀ x, Decision (P x)} (l : list X) : size (filter P l) ≤ size l.
Proof using Type. unfold size. pose proof (length_filter P l). lia. Qed.

(** The functions that are listed, of those that are declared. *)
Lemma functions_counted k key catalog path items contents : function_key k = Some key →
  fresh_listing d hidden catalog path (kind_key k) = Ok items →
  ∃ n, (key, n) ∈ object_counts catalog path contents ∧ size items ≤ n.
Proof using Type.
  intros Hk. unfold fresh_listing. rewrite bool_decide_false by (by destruct k). unfold typed_listing, object_counts.
  pose proof (listed_counted sf_name (scalars_ d) catalog path). pose proof (listed_counted ag_name (aggregates_ d) catalog path).
  pose proof (listed_counted tf_name (tables_ d) catalog path). pose proof (listed_counted to_name (table_in_outs_ d) catalog path).
  pose proof (listed_counted bf_name (bufferings_ d) catalog path).
  destruct k; try done; injection Hk as <-.
  - rewrite bool_decide_true by done. intros Hm%length_mapM. eexists. split; [do 3 right; left|lia].
  - rewrite bool_decide_false, bool_decide_true by by_decide.
    intros (l1 & G1%length_mapM & (l2 & G2%length_mapM & (l3 & G3%length_mapM & [= <-])%bind_Ok)%bind_Ok)%bind_Ok.
    eexists. split; [do 5 right; left|]. unfold size in *. rewrite !length_app. lia.
  - do 2 (rewrite bool_decide_false by by_decide). rewrite bool_decide_true by done. intros Hm%length_mapM. eexists. split; [do 4 right; left|lia].
Qed.

Lemma schema_info_NoDup : NoDup (map f_name MemoryCatalog.SchemaInfoSchema).
Proof using Type. by_decide. Qed.

(** A listing of what a schema is shown with has as many items as objects, at most. *)
Lemma shown_counted {X} request st a path method f (l : CatalogSchema → list X) ans items schema :
  payload_schema_of method = Ok (Some [fld "items" (list_of T_binary) false]) → answer (attachment_of request) st = Ok a →
  (∀ s items, f s = Ok items → size items ≤ size (l s)) →
  answer (items ← items_in request path f; lift (items_answer method items)) st = Ok ans → answered ans items →
  size items ≤ size (l (default schema (schema_shown a path))).
Proof using Type*.
  intros Hm Ha Hf (items' & Hans & Hi)%(listing_answered _ _ a) Hans'; [|done..]. assert (items' = items) as -> by by eapply answered_inj.
  destruct (schema_shown a path) as [s|]; [by apply Hf|]. injection Hi as <-. unfold size. cbn. lia.
Qed.

(** The calls that announce schemas, and the schemas they announce. *)
Inductive announces (request : option batch) (a : Attachment.Attachment) : list CatalogSchema → prog batch → Prop :=
| announces_all : announces request a (cl_schemas (attached a)) (catalog_schemas request)
| announces_one path : get_schema_path request "path" = Ok path →
    announces request a (filter (λ s, sh_path s = path) (cl_schemas (attached a))) (catalog_schema_get request).

(** A row that announces no fewer objects than whatever listing the attachment is answered. *)
Definition covered (st : StorageSpec.store) (a : Attachment.Attachment) (schema : CatalogSchema) (info : bytes) : Prop :=
  ∃ row counts, decode_ipc info = Ok (Some row) ∧ get_string_list (Some row) "path" = Ok (sh_path schema) ∧ NoDup counts.*1 ∧
    Wire.column (Some row) "estimated_object_count" = Ok (map_array T_int64 (map (λ e, (e.1, V_int e.2)) counts)) ∧
    ∀ key request handler ans items, lists request key handler → asks_schema request st a (sh_path schema) →
      answer handler st = Ok ans → answered ans items → ∃ n, (key, n) ∈ counts ∧ size items ≤ n.

Lemma schema_info_covers st a schema info :
  encode_schema_info (Attachment.at_catalog a) schema (schema_shown a (sh_path schema)) = Ok info → covered st a schema info.
Proof using Type*.
  unfold encode_schema_info. intros (row & Hrow & (_ & _ & _ & Hd)%encode_ipc_read)%bind_Ok.
  pose proof (λ n c t, filled_read _ _ _ n c t Hrow schema_info_NoDup) as Hr. unfold schema_cells in Hr. cbn [fmap list_fmap fst] in Hr.
  eexists row, _. split; [done|].
  split; [by eapply (Hr "path"%string (Cell_string_list _)); [by_decide|left|]|].
  split; [|split; [eapply (Hr "estimated_object_count"%string (Cell_int64_map _)); [by_decide|by right; right; left|done]|]].
  { unfold object_counts. cbn [fmap list_fmap fst]. by_decide. }
  intros key request handler ans items Hl [Ha Hp] Hans Hitems. destruct Hl.
  - unfold catalog_schema_contents_tables in Hans. rewrite Hp in Hans. cbn [lift mbind prog_bind p_bind] in Hans.
    eexists. split; [do 2 right; left|]. eapply shown_counted; [| | |exact Hans|done]; [done|done|]. intros s its Hm%length_mapM. lia.
  - unfold catalog_schema_contents_views in Hans. rewrite Hp in Hans. cbn [lift mbind prog_bind p_bind] in Hans.
    eexists. split; [left|]. eapply shown_counted; [| | |exact Hans|done]; [done|done|]. intros s its Hm%length_mapM. lia.
  - unfold catalog_schema_contents_macros in Hans. rewrite Hp in Hans. cbn [lift mbind prog_bind p_bind] in Hans.
    apply answer_lift_Ok in Hans as (kind & _ & Hans). cbv zeta in Hans.
    eexists. split; [right; left|]. eapply shown_counted; [| | |exact Hans|done]; [done|done|].
    intros s its Hm%length_mapM. rewrite Hm. apply size_filter.
  - unfold catalog_schema_contents_functions in Hans. rewrite Hp in Hans. cbn [lift mbind prog_bind p_bind] in Hans.
    rewrite H in Hans. cbn [lift mbind prog_bind p_bind] in Hans. apply answer_read_Ok in Hans as (a' & Ha' & Hans); [|apply attached_reads].
    assert (a' = a) as -> by congruence. rewrite H0 in Hans. apply answer_lift_Ok in Hans as (its & Hf & Hans). rewrite answer_lift in Hans.
    apply items_answered in Hans; [|done]. assert (its = items) as -> by by eapply answered_inj. by eapply functions_counted.
  - unfold catalog_schema_contents_indexes, empty_items in Hans. rewrite answer_lift in Hans. apply items_answered in Hans; [|done].
    assert (items = []) as -> by by eapply answered_inj. eexists. split; [do 6 right; left|done].
Qed.

(** C31. What a schema announces hides nothing.  An engine that reads a count of zero for a
    kind asks no more for it; so of the schemas that the two calls announce to an
    attachment -- all that its catalog declares, or those of a path -- each has a
    row, in order, with its path and a count for every kind, each once; and whatever
    listing of a kind of that schema the attachment is answered has no more items
    than the count of the kind. *)
Theorem counts_cover st a announcing schemas handler ans :
  answer (attachment_of announcing) st = Ok a → announces announcing a schemas handler → answer handler st = Ok ans →
  ∃ infos, answered ans infos ∧ Forall2 (covered st a) schemas infos.
Proof using Type*.
  intros Ha Hann Hans.
  assert (∃ infos, answered ans infos ∧
    Forall2 (λ s info, encode_schema_info (Attachment.at_catalog a) s (schema_shown a (sh_path s)) = Ok info) schemas infos)
    as (infos & Hi & Hall); [|exists infos; split; [done|]; eapply Forall2_impl; [exact Hall|by apply schema_info_covers]].
  destruct Hann as [|path Hpath].
  - unfold catalog_schemas in Hans. apply answer_read_Ok in Hans as (a' & Ha' & H); [|apply attached_reads].
    assert (a' = a) as -> by congruence. apply answer_bind_Ok in H as (infos & Hinfos & H). rewrite answer_lift in H.
    exists infos. split; [by eapply items_answered; [|exact H]|]. by apply (for_schemas_Ok _ _ a _ sh_path) in Hinfos.
  - unfold catalog_schema_get in Hans. rewrite Hpath in Hans. cbn [lift mbind prog_bind p_bind] in Hans.
    apply answer_read_Ok in Hans as (a' & Ha' & H); [|apply attached_reads].
    assert (a' = a) as -> by congruence. apply answer_bind_Ok in H as (infos & Hinfos & H). rewrite answer_lift in H.
    exists infos. split; [by eapply items_answered; [|exact H]|]. apply (for_schemas_Ok _ _ a _ (λ _, path)) in Hinfos; [|done].
    assert (Forall (λ s, sh_path s = path) (filter (λ s, sh_path s = path) (cl_schemas (attached a)))) as Hall
      by (apply Forall_forall; by intros s [? _]%list_elem_of_filter).
    clear -Hinfos Hall. induction Hinfos as [|s info l infos Hs _ IH]; constructor; apply Forall_cons in Hall as [Hp Hall];
      [by rewrite Hp|by apply IH].
Qed.
End discovery.

(** ** At work: the family of [Catalogs] *)

#[local] Existing Instances table_record toy_compute hex_base64 Plan.no_json Macros.plain_list Statistics.picked_union ArgSchema.plain_digits
  Contents.plain_set toy_crypto FunctionInfo.plain_declarations.
Definition bytes_of (r : result bytes) : bytes := match r with Ok b => b | Throw _ => [] end.
Definition item_of (table : CatalogTable) : bytes := bytes_of (encode_table_info (A := parent_arrow) (L := parent_codec) table main_schema None).
Definition items_row (items : list bytes) : list batch :=
  row_of (build (A := table_arrow []) [fld "items" (list_of T_binary) false] None [("items"%string, Cell_binary_list items)]).

(** The schema, shown to an attachment that resolved no version. *)
Definition family_main : CatalogSchema := mkCatalogSchema main_schema None [] [child_table; parent_table] [] [].
Definition family_attachment : Attachment.Attachment := Attachment.mkAttachment (bs "family") [] [] [] None.
Definition family_info : list batch :=
  row_of (build_filled (A := table_arrow []) MemoryCatalog.SchemaInfoSchema None (schema_cells hiding_worker (bs "family") family_main family_main)).
Definition family_items : list bytes := [item_of child_table; item_of parent_table].

(** The rows of the answers; the streams of the contents; and the answer of these. *)
Definition family_rows : list batch := parent_batches ++ items_row family_items ++ items_row [item_of child_table] ++ family_info.
Definition family_announced : bytes :=
  bytes_of (encode_schema_info (A := schema_arrow family_rows) hiding_worker (bs "family") family_main (Some family_main)).
Definition family_streams : list (list batch) :=
  [family_info; match Contents.decode_items (A := parent_arrow) family_items with Ok l => l | Throw _ => [] end].
#[local] Instance listed_streams : Contents.BatchStream := Contents.listed_stream family_streams.
Definition family_contents : list batch :=
  row_of (rows ← (contents ← schema_row (A := schema_arrow family_rows) (L := list_codec family_rows parent_schemas) hiding_worker ∅ (bs "family") family_main (Some family_main); Ok [contents]);
          ans ← Contents.answer_catalog_contents (A := schema_arrow family_rows) (L := list_codec family_rows parent_schemas) None Contents.Etag_none
                  (Contents.mkCall (bs "family") current_catalog_version None (Ok rows));
          Contents.encode_catalog_contents (A := schema_arrow family_rows) current_catalog_version ans).
Definition family_batches : list batch := family_rows ++ items_row [family_announced] ++ family_contents.
Definition family_arrow : Arrow := schema_arrow family_batches.
Definition family_codec : SchemaCodec := list_codec family_batches parent_schemas.
#[local] Existing Instances family_arrow family_codec.

Definition path_field (name : string) : field := Field name (list_of T_string) false [].
Definition path_array : array := list_array T_string [V_text (bs "main")].
Definition list_request : option batch := Some (mkBatch [path_field "path"] None 1 [path_array]).
Definition child_request : option batch :=
  Some (mkBatch [path_field "schema_path"; Field "name" T_string false []] None 1 [path_array; mkArray T_string [V_text (bs "child")]]).

Definition list_family := catalog_schema_contents_tables family [] false list_request.
Definition get_child := catalog_table_get family [] false child_request.
Definition scan_child := catalog_table_scan_function_get family [] false child_request.
Definition whole_family := catalog_contents family [] hiding_worker ∅ false list_request.
Definition announce_family := catalog_schemas family [] hiding_worker false list_request.
Definition answer_of (m : prog batch) : batch :=
  match answer m StorageSpec.empty_store with Ok b => b | Throw _ => mkBatch [] None 0 [] end.

Lemma child_asked : asks_table family [] false child_request StorageSpec.empty_store family_attachment main_schema (bs "child").
Proof. split_and!; try (vm_compute; reflexivity); exists None; [split|]; vm_compute; reflexivity. Qed.
Lemma family_asked : asks_schema family [] false list_request StorageSpec.empty_store family_attachment main_schema.
Proof. split; vm_compute; reflexivity. Qed.

Lemma described_alike_witness :
  answer list_family StorageSpec.empty_store = Ok (answer_of list_family) ∧ answer get_child StorageSpec.empty_store = Ok (answer_of get_child) ∧
  answer whole_family StorageSpec.empty_store = Ok (answer_of whole_family) ∧
  ∃ items item record rows, answered (answer_of list_family) items ∧ items !! 0%nat = Some item ∧ answered (answer_of get_child) [item] ∧
    answers_composed (answer_of whole_family) rows ∧ map Contents.co_path rows ≡ₚ [main_schema] ∧
    (∀ contents, contents ∈ rows → Contents.co_path contents = main_schema → Contents.co_tables contents = items) ∧
    read_payload (answer_of scan_child) = Ok (Some record).
Proof.
  assert (answer list_family StorageSpec.empty_store = Ok (answer_of list_family)) as H1 by (vm_compute; reflexivity).
  assert (answer get_child StorageSpec.empty_store = Ok (answer_of get_child)) as H2 by (vm_compute; reflexivity).
  assert (answer scan_child StorageSpec.empty_store = Ok (answer_of scan_child)) as H3 by (vm_compute; reflexivity).
  assert (answer whole_family StorageSpec.empty_store = Ok (answer_of whole_family)) as H4 by (vm_compute; reflexivity).
  split; [exact H1|]. split; [exact H2|]. split; [exact H4|].
  assert (schema_shown family [] family_attachment main_schema = Some family_main) as Hs by (vm_compute; reflexivity).
  assert (NoDup (map ct_name (sh_tables family_main))) as Hnd by by_decide.
  destruct (described_alike family [] hiding_worker ∅ false StorageSpec.empty_store family_attachment main_schema family_main 0 child_table
    list_request child_request child_request list_request _ _ _ _ Hs Hnd eq_refl family_asked child_asked child_asked (proj1 family_asked) eq_refl H1 H2 H3 H4)
    as (items & item & record & row & inlined & rows & G1 & G2 & G3 & G5 & G6 & G7 & G4 & _).
  exists items, item, record, rows. split; [exact G1|]. split; [exact G2|]. split; [exact G3|]. split; [exact G5|]. split; [exact G6|]. split; [exact G7|exact G4].
Defined.

Lemma counts_cover_witness :
  answer announce_family StorageSpec.empty_store = Ok (answer_of announce_family) ∧
  ∃ info row (counts : list (bytes * Z)), answered (answer_of announce_family) [info] ∧ decode_ipc info = Ok (Some row) ∧
    ∀ items, answered (answer_of list_family) items → ∃ n, (bs "table", n) ∈ counts ∧ size items ≤ n.
Proof.
  assert (answer announce_family StorageSpec.empty_store = Ok (answer_of announce_family)) as H by (vm_compute; reflexivity).
  split; [exact H|].
  destruct (counts_cover family [] hiding_worker ∅ false StorageSpec.empty_store family_attachment list_request [family_main] _ _
    (proj1 family_asked) (announces_all family [] hiding_worker false list_request family_attachment) H) as (infos & Hi & Hall).
  destruct infos as [|info [|]]; [by inversion Hall| |by apply Forall2_cons in Hall as [_ ?%Forall2_nil_inv_l]].
  apply Forall2_cons in Hall as [(row & counts & Hd & _ & _ & _ & Hcounts) _].
  exists info, row, counts. split; [exact Hi|]. split; [exact Hd|]. intros items Hitems.
  assert (answer list_family StorageSpec.empty_store = Ok (answer_of list_family)) as H1 by (vm_compute; reflexivity).
  exact (Hcounts _ _ _ _ _ (lists_tables family [] hiding_worker ∅ false list_request) family_asked H1 Hitems).
Defined.

(** A function that is hidden is counted all the same. *)
Example hidden_is_counted :
  (bs "table_function", 1) ∈ object_counts hiding_worker (bs "c") main_schema family_main ∧
  fresh_listing hiding_worker {[bs "rows"]} (bs "c") main_schema (bs "table") = Ok [].
Proof. split; [vm_compute; do 5 right; left|vm_compute; reflexivity]. Qed.

End Discovery.
