(* ===== verification/Attaching.v ===== *)
(** * Opening a catalog ([src/catalog.cpp])

    ATTACH: which catalog is asked for, which versions of its data and of its
    implementation the client gets, what it is told of the catalog, and the value that
    every later call carries.  With it, the catalogs a worker serves, the
    ends of a transaction and the options that an ATTACH may set.  The theorems: who
    carries the value back is shown the data version that was negotiated, and with its
    own tables where the catalog has versions; and the read profiles that are
    selected are offered by both sides. *)

From stdpp Require Import sorting.
From S2P Require Import Prelude Text Crypto Arrow ArrowRecord ArrowCompute Wire Protocol Metadata Json WireSchema SqlScalar FunctionSpec Constraints ConstraintsSpec Capabilities Storage StorageSpec StorageClient OpaqueSeal AttachService Attachment Plan Functions Dispatch Contents MemoryCatalog Versions Statistics Tables Macros Catalogs ArgSchema FunctionInfo Discovery.
Import Wire Protocol Metadata WireSchema Constraints Capabilities StorageClient Functions Dispatch Versions Tables Catalogs ArgSchema FunctionInfo Discovery.

Module Attaching.

(** ** What is said of a catalog *)

Definition SettingSchema : list field :=
  [fld "name" T_string false; fld "description" T_string false; fld "type" T_binary false; fld "default_value" T_binary true].
Definition SecretTypeSchema : list field :=
  [fld "name" T_string false; fld "description" T_string false; fld "parameters_schema" T_binary false].
Definition AttachOptionSchema : list field :=
  [fld "name" T_string false; fld "description" T_string false; fld "type" T_binary false; fld "default_value" T_binary true;
   fld "required" T_bool true; fld "secret" T_bool true].

(** A table that an AT clause may be put to. *)
Definition travels (s : CatalogSchema) : bool :=
  existsb (λ t, negb (bool_decide (length (ct_time_travel t) = 0%nat)) || ct_supports_time_travel t) (sh_tables s).
Definition supports_time_travel (m : CatalogModel) : bool :=
  cl_supports_time_travel m || existsb travels (cl_schemas m) || existsb (λ e, existsb travels e.2) (cl_version_schemas m).

Definition carries_constraint_records (s : CatalogSchema) : bool :=
  existsb (λ t, negb (bool_decide (ct_constraints t = [])) ||
                existsb (λ v, match tv_constraints v with Some (_ :: _) => true | _ => false end) (ct_time_travel t)) (sh_tables s).

(** In the order of a [std::set]. *)
Definition text_before (a b : bytes) : Prop := MemoryCatalog.key_before (a, tt) (b, tt).
#[local] Instance text_before_dec a b : Decision (text_before a b).
Proof. unfold text_before. apply _. Defined.
Definition sorted (profiles : gset bytes) : list bytes := merge_sort text_before (elements profiles).

Definition version_entry (m : CatalogModel) (data_version : bytes) : option (bytes * list CatalogSchema) :=
  List.find (λ e, bool_decide (e.1 = data_version)) (cl_version_schemas m).
Definition available_read_profiles (m : CatalogModel) (data_version : option bytes) : list bytes :=
  let schemas := match data_version ≫= version_entry m with Some e => e.2 | None => cl_schemas m end in
  sorted (list_to_set (cl_catalog_read_profiles m) ∪
          if existsb carries_constraint_records schemas then {[CONSTRAINT_RECORDS_READ; SCALAR_EXPRESSION_READ]} else ∅).

(** ** Versions *)

(** The version of the data, and that there are schemas of it. *)
Definition negotiate_data (m : CatalogModel) (requested : option bytes) : result (option bytes) :=
  resolved ← resolve_data_version (cl_npm_version_resolution m) (cl_supported_data_versions m) (cl_default_data_version m) requested;
  throw_if (match cl_version_schemas m with [] => false | _ => negb (bool_decide (is_Some (version_entry m (default [] resolved)))) end)
    (Invalid_argument ("data_version " +:+ quoted (default [] resolved) +:+ " has no schemas; this worker serves one of " +:+
                       join_quoted (cl_version_schemas m).*1));;
  Ok resolved.

Section attaching.
Context `{A : Arrow} `{R : ArrowRecord} `{C : Compute} `{L : SchemaCodec} `{B : Base64} `{T : DoubleText} `{K : Crypto} {S : Type} `{D : Declarations S}.

Definition value_schema (t : dtype) : schema := ([Field "value" t true []], None).

Definition encode_setting (s : SettingSpec) : result bytes :=
  t ← encode_schema (value_schema (se_type s));
  b ← build SettingSchema None
        [("name", Cell_string (se_name s)); ("description", Cell_string (se_description s)); ("type", Cell_binary t);
         ("default_value", Cell_null)]%string;
  encode_ipc b.
Definition encode_settings (m : CatalogModel) : result (list bytes) := mapM encode_setting (cl_settings m).

Definition encode_secret_type (s : SecretTypeSpec) : result bytes :=
  p ← encode_schema (sy_parameters s);
  b ← build SecretTypeSchema None
        [("name", Cell_string (sy_name s)); ("description", Cell_string (sy_description s)); ("parameters_schema", Cell_binary p)]%string;
  encode_ipc b.
Definition encode_secret_types (m : CatalogModel) : result (list bytes) := mapM encode_secret_type (cl_secret_types m).

Definition encode_attach_option (o : AttachService.AttachOptionSpec) : result bytes :=
  throw_if (AttachService.ao_required o && bool_decide (is_Some (AttachService.ao_default o)))
    (Invalid_argument ("attach option '" +:+ AttachService.ao_name o +:+ "' is required but also declares a default; an option with a " +:+
                       "default is always satisfiable without the caller. Drop one."));;
  let fields := value_schema (Attachment.option_type o) in
  t ← encode_schema fields;
  d ← (match AttachService.ao_default o with
       | Some v => b ← encode_ipc (mkBatch fields.1 None 1 [v]); Ok (Cell_binary b)
       | None => Ok Cell_null
       end : result cell);
  b ← build AttachOptionSchema None
        [("name", Cell_string (bs (AttachService.ao_name o))); ("description", Cell_string (AttachService.ao_description o));
         ("type", Cell_binary t); ("required", Cell_bool (AttachService.ao_required o)); ("secret", Cell_bool (AttachService.ao_secret o));
         ("default_value", d)]%string;
  encode_ipc b.
Definition encode_attach_options (m : CatalogModel) : result (list bytes) := mapM encode_attach_option (Attachment.cm_options (cl_model m)).

(** The catalogs of the worker and its functions, and the call that is served. *)
Context (primary : CatalogModel) (others : list CatalogModel) (d : Dispatcher S) (call : option OpaqueSeal.Call).

Definition sealing : bool := match call with Some c => bool_decide (is_Some (OpaqueSeal.key_ c)) | None => false end.

(** What a name published globally stands for: of the functions of the main schema,
    the kinds in this order. *)
Definition global_function (m : CatalogModel) (name : bytes) : result bytes :=
  let main := [bs "main"] in
  let scope := mkScope (cl_name m) main in
  match find_buffering d name scope with Some fn => encode_buffering_info fn main | None =>
  match find_table_in_out d name scope with Some fn => encode_table_in_out_info fn main | None =>
  match find_table d name scope None with Some fn => encode_table_function_info fn main | None =>
  match List.find (λ fn, bool_decide (ag_name fn = name)) (in_schema (aggregates_ d) scope) with Some fn => encode_aggregate_info fn main | None =>
  match named_in (scalars_ d) name scope with
  | fn :: _ => encode_function_info fn main
  | [] => Throw (Invalid_argument ("catalog publishes '" +:+ str name +:+ "' globally but no function of that name is registered"))
  end end end end end.
Definition encode_global_functions (m : CatalogModel) : result (list bytes) := mapM (global_function m) (cl_global_functions m).

(** ** ATTACH *)

Record AttachRequest := mkAttach {
  ar_batch : batch;
  ar_name : bytes;
  ar_data : option bytes;
  ar_implementation : option bytes;
}.
Definition read_attach (request : option batch) : result AttachRequest :=
  attach ← get_ipc request "request";
  b ← from_opt (Runtime_error "catalog_attach: empty request") attach;
  name ← get_string attach "name";
  data ← get_optional_string attach "data_version_spec";
  implementation ← get_optional_string attach "implementation_version";
  Ok (mkAttach b name data implementation).

Definition requested_model (r : AttachRequest) : CatalogModel := default primary (find_catalog primary others (ar_name r)).

Definition seal_attach_out (plaintext nonce : bytes) : bytes :=
  match call with Some c => OpaqueSeal.call_seal_attach c plaintext nonce | None => plaintext end.

(** The catalog's profiles and those it has in common with the client; none if it has
    none. *)
Definition capability_answer (m : CatalogModel) (resolved : option bytes) (attach : option batch) : result (list (string * cell)) :=
  _ ← encode_catalog_capabilities (mkProfiles (cl_catalog_read_profiles m) [] [] []);
  match available_read_profiles m resolved with
  | [] => Ok []
  | available =>
      let catalog := mkProfiles available [] [] [] in
      offer ← get_optional_binary attach "client_capabilities";
      offered ← client_catalog_offer offer;
      all ← encode_catalog_capabilities catalog;
      selected ← encode_catalog_capabilities (select_catalog_capabilities catalog offered);
      Ok [("catalog_capabilities", Cell_binary all); ("selected_capabilities", Cell_binary selected)]%string
  end.

Definition attach_cells (m : CatalogModel) (value : bytes) (resolved implementation : option bytes) (functions settings secrets : list bytes)
    : list (string * cell) :=
  [("attach_opaque_data", Cell_binary value); ("supports_transactions", Cell_bool (cl_supports_transactions m));
   ("supports_time_travel", Cell_bool (supports_time_travel m)); ("catalog_version_frozen", Cell_bool true);
   ("catalog_version", Cell_int64 current_catalog_version); ("attach_opaque_data_required", Cell_bool true);
   ("default_schema", Cell_string (bs "main")); ("supports_column_statistics", Cell_bool true);
   ("global_functions", Cell_binary_list functions); ("global_function_prefix", Cell_string (cl_global_function_prefix m));
   ("tags", Cell_string_map (cl_tags m)); ("resolved_data_version", Cell_optional_string resolved);
   ("resolved_implementation_version", Cell_optional_string implementation); ("settings", Cell_binary_list settings);
   ("secret_types", Cell_binary_list secrets); ("supports_catalog_contents", Cell_bool (cl_supports_catalog_contents m))]%string.

(** The answer, once the value is made. *)
Definition attach_answer (m : CatalogModel) (r : AttachRequest) (value : bytes) (resolved implementation : option bytes) : result batch :=
  functions ← encode_global_functions m;
  settings ← encode_settings m;
  secrets ← encode_secret_types m;
  capabilities ← capability_answer m resolved (Some (ar_batch r));
  answer_payload "catalog_attach"
    (attach_cells m value resolved implementation functions settings secrets ++ capabilities ++ [("comment"%string, null_or Cell_string (cl_comment m))]).

(** [id] and [nonce] are what the random generator gives. *)
Definition catalog_attach (request : option batch) (id nonce : bytes) : prog batch :=
  r ← lift (read_attach request);
  let m := requested_model r in
  resolved ← lift (negotiate_data m (ar_data r));
  implementation ← lift (resolve_implementation_version (cl_npm_version_resolution m) (cl_implementation_version m)
                           (cl_supported_implementation_versions m) (ar_implementation r));
  options ← lift (Attachment.merge_attach_options (cl_model m) (Some (ar_batch r)));
  plain ← Attachment.seal_attachment (cl_model primary) (map cl_model others) sealing
            (Attachment.mkAttachment (cl_name m) (default [] resolved) (ar_name r) id options);
  lift (attach_answer m r (seal_attach_out plain nonce) resolved implementation).

(** ** The other calls about a catalog *)

Definition catalog_version : result batch :=
  schema ← payload_schema_of "catalog_version";
  schema ← from_opt (Undefined_behaviour "a builder without a schema") schema;
  payload ← build schema None [("version"%string, Cell_int64 current_catalog_version)];
  envelope_of payload.

(** Nothing of an attachment is freed. *)
Definition catalog_detach : prog () := Ret tt.

Definition seal_transaction_out (plaintext nonce : bytes) : bytes :=
  match call with Some c => OpaqueSeal.call_seal_transaction c plaintext nonce | None => plaintext end.
Definition catalog_transaction_begin (id nonce : bytes) : result batch :=
  schema ← payload_schema_of "catalog_transaction_begin";
  schema ← from_opt (Undefined_behaviour "a builder without a schema") schema;
  payload ← build schema None [("transaction_opaque_data"%string, Cell_binary (seal_transaction_out id nonce))];
  envelope_of payload.

(** The end of a transaction, either way, forgets what it kept. *)
Definition catalog_transaction_commit (request : option batch) : prog () :=
  id ← lift (get_optional_binary request "transaction_opaque_data");
  match id with Some ((_ :: _) as id) => clear (Storage.transaction_scope id) | _ => Ret tt end.
Definition catalog_transaction_rollback (request : option batch) : prog () := catalog_transaction_commit request.

Definition optional_text (s : bytes) : option bytes := match s with [] => None | _ => Some s end.
Definition catalog_item (m : CatalogModel) : result bytes :=
  options ← encode_attach_options m;
  b ← build_filled MemoryCatalog.CatalogInfoSchema None
        [("name", Cell_string (cl_name m)); ("attach_option_specs", Cell_binary_list options);
         ("implementation_version", Cell_optional_string (optional_text (cl_implementation_version m)));
         ("data_version_spec", Cell_optional_string (cl_data_version_spec m));
         ("source_url", Cell_optional_string (optional_text (cl_source_url m)))]%string;
  encode_ipc b.
(** [memory]: the options of the catalogs kept in memory, in the order of their names. *)
Definition catalog_catalogs (memory : list MemoryCatalog.MemoryCatalogOptions) : result batch :=
  items ← mapM catalog_item (primary :: others);
  more ← mapM MemoryCatalog.catalog_info memory;
  items_answer "catalog_catalogs" (items ++ more).

(** ** What an attachment is shown is what was negotiated *)

Context `{!ArrowLaws A} `{!Base64Laws B}.

(** The catalog that was asked for is the one its name finds. *)
Lemma requested_found r : find_catalog primary others (cl_name (requested_model r)) = Some (requested_model r).
Proof using Type.
  unfold requested_model. destruct (find_catalog primary others (ar_name r)) as [m|] eqn:Hf; cbn [from_option]; unfold id.
  - unfold find_catalog in *. pose proof Hf as [_ He%bool_decide_eq_true]%List.find_some. by rewrite He.
  - unfold find_catalog. cbn [List.find]. by rewrite bool_decide_true.
Qed.
Lemma model_found m name : find_catalog primary others name = Some m →
  Attachment.find_catalog (cl_model primary) (map cl_model others) name = Some (cl_model m).
Proof using Type.
  unfold find_catalog, Attachment.find_catalog. change (cl_model primary :: map cl_model others) with (map cl_model (primary :: others)).
  generalize (primary :: others). induction l as [|x l IH]; cbn [List.find map]; [done|]. change (Attachment.cm_name (cl_model x)) with (cl_name x).
  case_bool_decide; [by intros [= <-]|done].
Qed.

(** A version that was negotiated has schemas, where a catalog has them by version. *)
Lemma negotiate_data_Ok m requested resolved : negotiate_data m requested = Ok resolved →
  resolve_data_version (cl_npm_version_resolution m) (cl_supported_data_versions m) (cl_default_data_version m) requested = Ok resolved ∧
  (cl_version_schemas m ≠ [] → default [] resolved ≠ [] →
   ∃ schemas, (default [] resolved, schemas) ∈ cl_version_schemas m ∧ schemas_at m (default [] resolved) = schemas).
Proof using Type.
  unfold negotiate_data. intros (v & Hv & [Hs [= <-]]%bind_throw_if_Ok)%bind_Ok. split; [done|]. intros Hne Hd.
  destruct (cl_version_schemas m) as [|x l] eqn:Hl; [done|]. rewrite <- Hl in *. apply negb_false_iff, bool_decide_eq_true in Hs as [[k schemas] He].
  unfold schemas_at. rewrite bool_decide_false by done. unfold version_entry in He. rewrite He. exists schemas. split; [|done].
  by apply List.find_some in He as [Hin%list_elem_of_In <-%bool_decide_eq_true].
Qed.

Lemma sorted_elem profiles p : p ∈ sorted profiles ↔ p ∈ profiles.
Proof using Type. unfold sorted. by rewrite merge_sort_Permutation, elem_of_elements. Qed.

(** Whoever is shown a schema with constraint records is offered the profiles to read them. *)
Lemma records_offered m resolved s : resolved ≠ Some [] → s ∈ schemas_at m (default [] resolved) → carries_constraint_records s = true →
  CONSTRAINT_RECORDS_READ ∈ available_read_profiles m resolved ∧ SCALAR_EXPRESSION_READ ∈ available_read_profiles m resolved.
Proof using Type.
  intros Hne Hs Hc. unfold available_read_profiles. rewrite !sorted_elem.
  assert (match resolved ≫= version_entry m with Some e => e.2 | None => cl_schemas m end = schemas_at m (default [] resolved)) as ->.
  { unfold schemas_at, version_entry. destruct resolved as [v|]; cbn; [rewrite bool_decide_false by congruence; done|done]. }
  assert (existsb carries_constraint_records (schemas_at m (default [] resolved)) = true) as ->
    by (apply existsb_exists; exists s; split; [by apply list_elem_of_In|done]).
  split; apply elem_of_union; right; apply elem_of_union; [left|right]; by apply elem_of_singleton.
Qed.

Lemma capability_cells_names m resolved attach cells : capability_answer m resolved attach = Ok cells →
  (cells = [] ∧ available_read_profiles m resolved = []) ∨
  ∃ all selected, cells = [("catalog_capabilities", Cell_binary all); ("selected_capabilities", Cell_binary selected)]%string ∧
    encode_catalog_capabilities (mkProfiles (available_read_profiles m resolved) [] [] []) = Ok all.
Proof using Type.
  unfold capability_answer. intros (? & _ & H)%bind_Ok. destruct (available_read_profiles m resolved) as [|p l]; [left; by injection H|right].
  cbv zeta in H. apply bind_Ok in H as (? & _ & H). apply bind_Ok in H as (? & _ & H). apply bind_Ok in H as (all & Ha & H).
  apply bind_Ok in H as (selected & _ & [= <-]). by exists all, selected.
Qed.

(** The record of an ATTACH reads back. *)
Lemma attach_answer_reads m r value resolved implementation ans : attach_answer m r value resolved implementation = Ok ans →
  ∃ payload, read_payload ans = Ok (Some payload) ∧
    get_optional_binary (Some payload) "attach_opaque_data" = Ok (Some value) ∧
    get_optional_string (Some payload) "resolved_data_version" = Ok resolved ∧
    get_bool (Some payload) "supports_time_travel" = Ok (supports_time_travel m) ∧
    (available_read_profiles m resolved ≠ [] →
     ∃ all, get_optional_binary (Some payload) "catalog_capabilities" = Ok (Some all) ∧
       encode_catalog_capabilities (mkProfiles (available_read_profiles m resolved) [] [] []) = Ok all).
Proof using Type*.
  unfold attach_answer. intros (functions & _ & H)%bind_Ok. apply bind_Ok in H as (settings & _ & H).
  apply bind_Ok in H as (secrets & _ & H). apply bind_Ok in H as (cells & Hcells%capability_cells_names & H).
  set (l := attach_cells m value resolved implementation functions settings secrets ++ cells ++ _) in *.
  assert (NoDup l.*1) as Hnd by (destruct Hcells as [[-> _]|(all & selected & -> & _)]; by_decide).
  destruct (answer_payload_reads _ _ _ H Hnd) as (schema & payload & [= <-] & Hp & _ & _ & Hr). exists payload.
  assert (∀ f c t, (f, c) ∈ l → type_named CatalogAttachResultSchema f = Some t → Wire.reads t (Some payload) f c) as Hread.
  { intros f c t (g & Hg & <- & Hread)%Hr Ht. rewrite (type_named_unique _ _) in Ht; [by injection Ht as <-|by_decide|done]. }
  split_and!; [done|..].
  - eapply (Hread _ (Cell_binary value) T_binary); [left|done].
  - eapply (Hread "resolved_data_version"%string (Cell_optional_string resolved) T_string); [|done|done]. do 11 right. left.
  - eapply (Hread "supports_time_travel"%string (Cell_bool _) T_bool); [|done]. do 2 right. left.
  - intros Hne. destruct Hcells as [[_ ?]|(all & selected & -> & He)]; [done|]. exists all. split; [|done].
    eapply (Hread "catalog_capabilities"%string (Cell_binary all) T_binary); [|done].
    apply elem_of_app. right. left.
Qed.

(** The attachment of an ATTACH. *)
Definition attachment_for (r : AttachRequest) (resolved : option bytes) (id : bytes) (options : option batch) : Attachment.Attachment :=
  Attachment.mkAttachment (cl_name (requested_model r)) (default [] resolved) (ar_name r) id options.

(** C4. An ATTACH is negotiated once and holds.  Of an ATTACH that is answered, the answer
    says what version of the data was resolved, and carries a value; whoever
    brings back what was sealed in it -- by then any process of the worker, the secret options still
    stored -- is of an attachment to the same catalog, with the options as they were
    merged, and is shown the schemas of that version: where the catalog has
    tables by version, its own; and is offered the profiles to read whatever
    constraint records these carry. *)
Theorem attach_holds request id nonce st ans : answer (catalog_attach request id nonce) st = Ok ans →
  ∃ r resolved options plain payload, read_attach request = Ok r ∧ let m := requested_model r in
    resolve_data_version (cl_npm_version_resolution m) (cl_supported_data_versions m) (cl_default_data_version m) (ar_data r) = Ok resolved ∧
    Attachment.merge_attach_options (cl_model m) (Some (ar_batch r)) = Ok options ∧
    read_payload ans = Ok (Some payload) ∧
    get_optional_string (Some payload) "resolved_data_version" = Ok resolved ∧
    get_optional_binary (Some payload) "attach_opaque_data" = Ok (Some (seal_attach_out plain nonce)) ∧
    let a := attachment_for r resolved id options in
    (NoDup (map Attachment.option_name (Attachment.cm_options (cl_model m))) → Attachment.text_ok a → id ≠ [] →
     ∀ later st', get_optional_binary later "attach_opaque_data" = Ok (Some plain) →
       StorageSpec.s_kv st' !! (Attachment.kAttachSecretsScope, id) = StorageSpec.s_kv (after (catalog_attach request id nonce) st) !! (Attachment.kAttachSecretsScope, id) →
       answer (attachment_of primary others sealing later) st' = Ok a) ∧
    (cl_version_schemas m ≠ [] → default [] resolved ≠ [] → ∃ schemas, (default [] resolved, schemas) ∈ cl_version_schemas m ∧
       ∀ path, schema_shown primary others a path = List.find (λ s, bool_decide (sh_path s = path)) schemas) ∧
    (resolved ≠ Some [] → ∀ path s, schema_shown primary others a path = Some s → carries_constraint_records s = true →
       ∃ all available, get_optional_binary (Some payload) "catalog_capabilities" = Ok (Some all) ∧
         encode_catalog_capabilities (mkProfiles available [] [] []) = Ok all ∧
         CONSTRAINT_RECORDS_READ ∈ available ∧ SCALAR_EXPRESSION_READ ∈ available).
Proof using Type*.
  unfold catalog_attach. intros (r & Hr & H)%answer_lift_Ok. cbv zeta in H. apply answer_lift_Ok in H as (resolved & Hv & H).
  apply answer_lift_Ok in H as (implementation & Hi & H). apply answer_lift_Ok in H as (options & Ho & H).
  apply answer_bind_Ok in H as (plain & Hplain & H). rewrite answer_lift in H.
  apply attach_answer_reads in H as (payload & Hp & Hvalue & Hresolved & _ & Hcap).
  pose proof (negotiate_data_Ok _ _ _ Hv) as [Hd Hschemas]. pose proof (requested_found r) as Hm.
  exists r, resolved, options, plain, payload. cbv zeta.
  assert (attached primary others (attachment_for r resolved id options) = requested_model r) as Hat
    by (unfold attached, attachment_for; cbn [Attachment.at_catalog]; by rewrite Hm).
  split_and!; try done.
  - intros Hnd Htext Hid later st' Hlater Hkv. unfold attachment_of.
    eapply (Attachment.value_opens _ _ _ (cl_model (requested_model r))); [by apply model_found|done| |done|done|exact Hplain|exact Hlater|].
    + by apply Attachment.merge_options_ok in Ho.
    + cbn [Attachment.at_id attachment_for]. rewrite Hkv. unfold catalog_attach. rewrite Hr. cbn [lift mbind prog_bind p_bind]. cbv zeta. rewrite Hv, Hi, Ho.
      cbn [lift mbind prog_bind p_bind]. rewrite after_bind. unfold attachment_for in *. rewrite Hplain, after_lift. done.
  - intros Hne Hnr. destruct (Hschemas Hne Hnr) as (schemas & Hin & Hs). exists schemas. split; [done|]. intros path.
    unfold schema_shown. rewrite Hat. cbn [Attachment.at_data_version attachment_for]. by rewrite Hs.
  - intros Hne path s Hs Hc. unfold schema_shown in Hs. rewrite Hat in Hs. apply List.find_some in Hs as [Hs%list_elem_of_In _].
    destruct (records_offered _ _ _ Hne Hs Hc) as [H1 H2]. destruct Hcap as (all & Hall & He).
    { intros E. rewrite E in H1. by apply not_elem_of_nil in H1. }
    by exists all, (available_read_profiles (requested_model r) resolved).
Qed.
End attaching.

(** ** At work: a catalog of two releases, the second with constraint records *)

#[local] Existing Instances table_record toy_compute hex_base64 ArgSchema.plain_digits toy_crypto FunctionInfo.plain_declarations.

Definition release_table : CatalogTable :=
  mkTable [bs "record"] None (bs "t") (Some ([Field "n" T_int64 true []], None)) (bs "scan_t") [] None None [] [] [] None [] [] [] [] [] [] [] false true.
Definition releases : CatalogModel :=
  mkCatalogModel (Attachment.mkCatalog (bs "releases") [Attachment.option_spec "password" true]) [] [] [bs "1.0.0"; bs "2.0.0"] (Some (bs "2.0.0")) []
    None None [] [] [] [] false false false None Contents.Etag_none [] [] false
    [(bs "1.0.0", [mkCatalogSchema main_schema None [] [] [] []]); (bs "2.0.0", [mkCatalogSchema main_schema None [] [release_table] [] []])]
    [mkCatalogSchema main_schema None [] [] [] []].

Definition secret_options : batch := mkBatch [Field "password" T_binary true []] None 1 [mkArray T_binary [V_text (bs "hunter2")]].
Definition attach_row (options : bytes) : batch :=
  mkBatch [Field "name" T_string false []; Field "options" T_binary true []] None 1
    [mkArray T_string [V_text (bs "releases")]; mkArray T_binary [V_text options]].
Definition offered_row (available : list bytes) : list batch :=
  ConstraintsSpec.sample_batch CatalogCapabilitiesSchema (capability_cells (mkProfiles available [] [] [])).
Definition attach_batch : batch :=
  attach_row (match encode_ipc (H := table_arrow []) secret_options with Ok s => s | Throw _ => [] end).

(** What is sealed, without the password. *)
Definition release_value : bytes :=
  Attachment.attachment_value (Attachment.mkAttachment (bs "releases") (bs "2.0.0") (bs "releases") (bs "id") None)
    (match encode_ipc (H := table_arrow []) (mkBatch [] None 1 []) with Ok s => bs (base64_encode (Base64 := hex_base64) s) | Throw _ => [] end).
Definition release_answer : list batch :=
  row_of (build_filled (A := table_arrow []) CatalogAttachResultSchema None
    (attach_cells releases release_value (Some (bs "2.0.0")) None [] [] [] ++
     [("catalog_capabilities", Cell_binary (ConstraintsSpec.sample_bytes 2)); ("selected_capabilities", Cell_binary (ConstraintsSpec.sample_bytes 1));
      ("comment", Cell_null)]%string)).
Definition release_batches : list batch :=
  [attach_batch] ++ offered_row [] ++ offered_row [CONSTRAINT_RECORDS_READ; SCALAR_EXPRESSION_READ] ++ release_answer.
Definition release_arrow : Arrow := schema_arrow release_batches.
Definition release_codec : SchemaCodec := list_codec release_batches [].
#[local] Existing Instances release_arrow release_codec.

Definition attach_request : option batch :=
  Some (mkBatch [Field "request" T_binary true []] None 1 [mkArray T_binary [V_text (ConstraintsSpec.sample_bytes 0)]]).
Definition attach_releases : prog batch := catalog_attach (S := nat) releases [] new_dispatcher None attach_request (bs "id") [].
Definition releases_answer : batch := match answer attach_releases StorageSpec.empty_store with Ok b => b | Throw _ => attach_batch end.
Definition later_request : option batch :=
  Some (mkBatch [Field "attach_opaque_data" T_binary true []] None 1 [mkArray T_binary [V_text release_value]]).
Definition release_attachment : Attachment.Attachment :=
  Attachment.mkAttachment (bs "releases") (bs "2.0.0") (bs "releases") (bs "id") (Some secret_options).
Definition release_payload : batch := match release_answer with b :: _ => b | [] => attach_batch end.

(** The password came back from the storage; the tables are those of the second release. *)
Lemma attach_holds_witness :
  answer attach_releases StorageSpec.empty_store = Ok releases_answer ∧
  answer (attachment_of releases [] false later_request) (after attach_releases StorageSpec.empty_store) = Ok release_attachment ∧
  (∃ schemas, (bs "2.0.0", schemas) ∈ cl_version_schemas releases ∧
     schema_shown releases [] release_attachment main_schema = List.find (λ s, bool_decide (sh_path s = main_schema)) schemas) ∧
  ∃ all available, get_optional_binary (Some release_payload) "catalog_capabilities" = Ok (Some all) ∧
    encode_catalog_capabilities (mkProfiles available [] [] []) = Ok all ∧ CONSTRAINT_RECORDS_READ ∈ available.
Proof.
  pose proof (schema_arrow_laws release_batches) as L1.
  assert (answer attach_releases StorageSpec.empty_store = Ok releases_answer) as H by (vm_compute; reflexivity). split; [exact H|].
  destruct (attach_holds releases [] new_dispatcher None attach_request (bs "id") [] StorageSpec.empty_store releases_answer H)
    as (r & resolved & options & plain & payload & Hr & Hv & Ho & Hp & _ & Hvalue & Hlater & Hshown & Hoffered).
  assert (read_attach attach_request = Ok (mkAttach attach_batch (bs "releases") None None)) as Hr' by (vm_compute; reflexivity).
  assert (r = mkAttach attach_batch (bs "releases") None None) as -> by (rewrite Hr' in Hr; by injection Hr).
  change (requested_model _ _ _) with releases in *.
  assert (resolved = Some (bs "2.0.0")) as -> by (vm_compute in Hv; by injection Hv).
  assert (Attachment.merge_attach_options (cl_model releases) (Some attach_batch) = Ok (Some secret_options)) as Ho' by (vm_compute; reflexivity).
  change (Attachment.merge_attach_options (cl_model releases) (Some attach_batch) = Ok options) in Ho.
  assert (options = Some secret_options) as -> by (rewrite Ho' in Ho; by injection Ho).
  assert (read_payload releases_answer = Ok (Some release_payload)) as Hp' by (vm_compute; reflexivity).
  assert (payload = release_payload) as -> by (rewrite Hp' in Hp; by injection Hp).
  assert (get_optional_binary (Some release_payload) "attach_opaque_data" = Ok (Some release_value)) as Hvalue' by (vm_compute; reflexivity).
  assert (plain = release_value) as -> by (rewrite Hvalue' in Hvalue; by injection Hvalue).
  split; [|split].
  - apply Hlater; [by_decide|by_decide|discriminate|vm_compute; reflexivity|reflexivity].
  - destruct (Hshown) as (schemas & Hin & Hs); [discriminate|discriminate|]. exists schemas. split; [exact Hin|exact (Hs main_schema)].
  - destruct (Hoffered ltac:(discriminate) main_schema (mkCatalogSchema main_schema None [] [release_table] [] []))
      as (all & available & G1 & G2 & G3 & _); [vm_compute; reflexivity|vm_compute; reflexivity|]. exists all, available. split; [exact G1|]. split; [exact G2|exact G3].
Defined.

(** A version that is not served, and a name published of no function. *)
Example attach_refused :
  negotiate_data releases (Some (bs "3.0.0")) = Throw (unsupported "data_version_spec" (bs "3.0.0") [bs "1.0.0"; bs "2.0.0"]) ∧
  global_function (S := nat) new_dispatcher releases (bs "f") =
    Throw (Invalid_argument "catalog publishes 'f' globally but no function of that name is registered").
Proof. split; vm_compute; reflexivity. Qed.
End Attaching.
