(* ===== verification/Service.v ===== *)
(** * The boundary of a call ([src/dispatcher.cpp], [src/catalog.cpp])

    What every call passes through before its handler: the values that were sealed are
    opened, an attach ticket is redeemed, a call that is of a catalog kept in memory
    goes to that catalog, and the answer is given the envelope of its method.  Here
    are also the registration of the catalogs in memory, the check a worker makes of its
    options when it starts and the calls that change a catalog, which the declared
    catalogs refuse.  The theorems: a call reaches the catalog that its attachment is
    of and no other; and an ATTACH with a ticket is the one that was sealed. *)

From S2P Require Import Prelude Text Utf8 Crypto AttachTicket Arrow ArrowRecord ArrowCompute Wire OpaqueSeal AttachService Attachment Protocol Metadata Json WireSchema SqlScalar StorageSpec StorageClient Plan Contents MemoryCatalog Versions Tables Catalogs Discovery Attaching.
Import AttachTicket Wire AttachService Protocol Metadata Json WireSchema StorageClient Catalogs.

Module Service.

(** ** Catalogs in memory *)

(** By name: the options of each, and what its attachments hold. *)
Abbreviation MemoryCatalogs := (gmap bytes (MemoryCatalog.MemoryCatalogOptions * gmap bytes MemoryCatalog.State)).

(** ** What a declared catalog refuses *)

Definition read_only_methods : list string :=
  ["catalog_create"; "catalog_drop"; "catalog_schema_create"; "catalog_schema_drop"; "catalog_table_create"; "catalog_table_drop";
   "catalog_table_rename"; "catalog_table_comment_set"; "catalog_table_column_add"; "catalog_table_column_drop";
   "catalog_table_column_rename"; "catalog_table_column_comment_set"; "catalog_table_column_default_set";
   "catalog_table_column_default_drop"; "catalog_table_column_type_change"; "catalog_table_not_null_set";
   "catalog_table_not_null_drop"; "catalog_view_create"; "catalog_view_drop"; "catalog_view_rename"; "catalog_view_comment_set";
   "catalog_view_column_comment_set"; "catalog_macro_create"; "catalog_macro_drop"; "catalog_index_create"; "catalog_index_drop"]%string.
Definition refuse_read_only {T} (method : string) : prog T :=
  Fail (Invalid_argument ("catalog is read-only: " +:+ method +:+ " is not supported")).

Section service.
Context `{A : Arrow} `{R : ArrowRecord} `{L : SchemaCodec} `{W : Contents.BatchStream} `{E : Contents.SetColumn} `{K : Crypto}
  `{U : Base64url} `{B : Base64} `{J : JsonParser} `{Q : SchemaEquals}.
(** The catalogs that are declared. *)
Context (primary : CatalogModel) (others : list CatalogModel).

Definition find_catalog := Discovery.Discovery.find_catalog primary others.

Definition register_memory_catalog (options : MemoryCatalog.MemoryCatalogOptions) (memory : MemoryCatalogs) : result MemoryCatalogs :=
  let name := MemoryCatalog.mo_name options in
  throw_if (bool_decide (name = [])) (Invalid_argument "MemoryCatalog: name is required");;
  throw_if (bool_decide (is_Some (find_catalog name)))
    (Invalid_argument ("register_memory_catalog: catalog '" +:+ str name +:+ "' is already declared"));;
  throw_if (bool_decide (is_Some (memory !! name)))
    (Invalid_argument ("register_memory_catalog: catalog '" +:+ str name +:+ "' is already registered"));;
  Ok (<[name := (options, ∅)]> memory).

(** The options of an ATTACH, of whichever kind of catalog. *)
Definition declared_attach_options (memory : MemoryCatalogs) (name : bytes) : option (list AttachOptionSpec) :=
  match find_catalog name with
  | Some m => Some (Attachment.cm_options (cl_model m))
  | None => if bool_decide (is_Some (memory !! name)) then Some [] else None
  end.

(** *** Which catalog a call is of *)

Definition addressed (method : string) (params : option batch) : result (option bytes) :=
  if bool_decide (method = "catalog_attach"%string) then
    attach ← get_ipc params "request";
    match attach with Some _ => name ← get_string attach "name"; Ok (Some name) | None => Ok None end
  else
    sealed ← get_optional_binary params "attach_opaque_data";
    sealed ← (match sealed, params with
              | None, Some b =>
                  if bool_decide (is_Some (get_field_index (b_schema b) "request")) then
                    inner ← get_ipc params "request";
                    match inner with Some _ => get_optional_binary inner "attach_opaque_data" | None => Ok None end
                  else Ok None
              | _, _ => Ok sealed
              end : result (option bytes));
    Ok (sealed ≫= MemoryCatalog.catalog_of).

(** What is routed is answered by the catalog, perhaps with nothing; the rest is not. *)
Definition route_memory_catalog (sr : MemoryCatalog.Surroundings) (method : string) (params : option batch) (memory : MemoryCatalogs)
    : result (option (option batch)) * MemoryCatalogs :=
  if bool_decide (memory = ∅) || negb (String.prefix "catalog_" method) then (Ok None, memory) else
  match addressed method params with
  | Throw e => (Throw e, memory)
  | Ok name =>
      match name ≫= λ n, pair n <$> memory !! n with
      | None => (Ok None, memory)
      | Some (n, (options, attaches)) =>
          let '(r, attaches) := MemoryCatalog.serve options sr method params attaches in
          (payload ← r; match payload with Some p => b ← envelope_of p; Ok (Some (Some b)) | None => Ok (Some None) end,
           <[n := (options, attaches)]> memory)
      end
  end.

(** ** Tickets *)

Definition with_request (s : bytes) (params : batch) : batch :=
  mkBatch (b_schema params) (b_metadata params) 1
    (zip_with (λ f c, if bool_decide (f_name f = "request"%string) then binary_array s else c) (b_schema params) (b_columns params)).
(** The request with what the ticket sealed in its place. *)
Definition redeem (key : option bytes) (auth : AuthContext) (now : double) (params : option batch) : result (option batch) :=
  attach ← get_ipc params "request";
  restored ← redeem_attach_ticket attach key (attach_ticket_principal auth) now;
  match restored with
  | None => Ok params
  | Some r =>
      s ← encode_ipc r;
      p ← from_opt (Undefined_behaviour "a null batch") params;
      Ok (Some (with_request s p))
  end.

(** ** A call *)

(** [key] seals the values of the transport, [ticket_key] the tickets; [fuel] bounds the nesting of records. *)
Context (fuel : nat) (key ticket_key : option bytes).

(** What a call finds around it: who calls and when, and what the random generator gives. *)
Record Caller := mkCaller { ca_auth : AuthContext; ca_now : double; ca_token : bytes; ca_nonce : bytes }.

Definition opened (c : Caller) (incoming : option batch) : result (option batch * OpaqueSeal.Call) :=
  OpaqueSeal.call_open fuel (OpaqueSeal.mkCall key (ca_auth c) None) incoming.
Definition received (c : Caller) (method : string) (incoming : option batch) : result (option batch * OpaqueSeal.Call) :=
  '(params, call) ← opened c incoming;
  if bool_decide (method = "catalog_attach"%string) then params ← redeem ticket_key (ca_auth c) (ca_now c) params; Ok (params, call)
  else Ok (params, call).

Definition surroundings (c : Caller) (call : OpaqueSeal.Call) : MemoryCatalog.Surroundings :=
  MemoryCatalog.mkSurroundings (ca_token c) (Some call) (ca_nonce c).

(** A call that is answered: by a catalog in memory, or by its handler. *)
Definition serve_unary (c : Caller) (method : string) (declared : list field) (handler : OpaqueSeal.Call → option batch → prog batch)
    (incoming : option batch) (memory : MemoryCatalogs) : prog (option batch) * MemoryCatalogs :=
  match received c method incoming with
  | Throw e => (Fail e, memory)
  | Ok (params, call) =>
      match route_memory_catalog (surroundings c call) method params memory with
      | (Throw e, memory) => (Fail e, memory)
      | (Ok (Some (Some answer)), memory) => (lift (conform (Some answer) declared method), memory)
      | (Ok (Some None), memory) => (Fail (Undefined_behaviour "the value of an empty std::optional"), memory)
      | (Ok None, memory) => (b ← handler call params; lift (conform (Some b) declared method), memory)
      end
  end.

(** One that answers nothing, and one that opens a stream, which no catalog in memory
    serves. *)
Definition serve_void (c : Caller) (method : string) (handler : OpaqueSeal.Call → option batch → prog ()) (incoming : option batch)
    (memory : MemoryCatalogs) : prog () * MemoryCatalogs :=
  match opened c incoming with
  | Throw e => (Fail e, memory)
  | Ok (params, call) =>
      match route_memory_catalog (surroundings c call) method params memory with
      | (Throw e, memory) => (Fail e, memory)
      | (Ok (Some _), memory) => (Ret tt, memory)
      | (Ok None, memory) => (handler call params, memory)
      end
  end.
Definition serve_stream {X} (c : Caller) (handler : OpaqueSeal.Call → option batch → prog X) (incoming : option batch) : prog X :=
  match opened c incoming with Throw e => Fail e | Ok (params, call) => handler call params end.

(** ** The check when a worker starts *)

Definition check_reserved (m : CatalogModel) : result () :=
  match List.find (λ o, is_reserved_attach_option (Attachment.option_name o)) (Attachment.cm_options (cl_model m)) with
  | None => Ok tt
  | Some o =>
      Throw (Invalid_argument ("catalog '" +:+ str (cl_name m) +:+ "' declares attach option '" +:+ Attachment.option_name o +:+
        "', which uses the reserved name '" +:+ kAttachTicketOption +:+
        "': the framework reads it as an attach ticket before any catalog code runs. Rename the option."))
  end.
Fixpoint check_all_reserved (l : list CatalogModel) : result () :=
  match l with [] => Ok tt | m :: l => check_reserved m;; check_all_reserved l end.

(** ** A call reaches the catalog it is of *)

(** No catalog in memory has the name of a declared one, and each is kept under its own. *)
Definition apart (memory : MemoryCatalogs) : Prop :=
  ∀ name options attaches, memory !! name = Some (options, attaches) →
    MemoryCatalog.mo_name options = name ∧ name ≠ [] ∧ find_catalog name = None.

Lemma apart_empty : apart ∅.
Proof using Type. by intros name o a ?%lookup_empty_Some. Qed.

Lemma register_apart options memory memory' : apart memory → register_memory_catalog options memory = Ok memory' → apart memory'.
Proof using Type.
  unfold register_memory_catalog. rewrite !bind_throw_if_Ok.
  intros Ha (Hn%bool_decide_eq_false & Hf%bool_decide_eq_false & _ & [= <-]) name o a.
  rewrite lookup_insert_Some. intros [[<- [= <- <-]]|[_ H]]; [|by eapply Ha]. split_and!; [done|done|].
  by apply eq_None_not_Some.
Qed.

(** A call leaves the catalogs apart, and changes one at most. *)
Lemma route_apart sr method params memory r memory' : apart memory → route_memory_catalog sr method params memory = (r, memory') →
  apart memory' ∧ ∃ name, ∀ other, other ≠ name → memory' !! other = memory !! other.
Proof using Type.
  intros Ha. unfold route_memory_catalog. destruct (_ || _); [intros [= _ <-]; split; [done|by exists []]|].
  destruct (addressed method params) as [[n|]|e]; cbn [mbind option_bind]; [|intros [= _ <-]; split; [done|by exists []]..].
  destruct (memory !! n) as [[options attaches]|] eqn:Hn; cbn; [|intros [= _ <-]; split; [done|by exists []]].
  destruct (MemoryCatalog.serve _ _ _ _ _) as [q attaches'] eqn:Hs. intros [= _ <-]. split.
  - intros name o a. rewrite lookup_insert_Some. intros [[<- [= <- <-]]|[_ H]]; [by eapply Ha|by eapply Ha].
  - exists n. intros other Ho. by rewrite lookup_insert_ne.
Qed.

Lemma catalog_of_value name rest : nul_free name → MemoryCatalog.catalog_of (name ++ NUL :: rest) = match name with [] => None | _ => Some name end.
Proof using Type.
  intros H. unfold MemoryCatalog.catalog_of.
  assert (MemoryCatalog.until_nul (name ++ NUL :: rest) = Some name) as ->; [|by destruct name].
  induction name as [|x name IH]; cbn; [by rewrite bool_decide_true|]. unfold nul_free in H. apply not_elem_of_cons in H as [Hx H].
  rewrite bool_decide_false by congruence. by rewrite IH.
Qed.

(** What a call is answered with, of what a catalog in memory makes of it: its record, in
    the envelope its method declares; nothing of a call that answers nothing; and its
    exceptions. *)
Definition memory_answer (declared : list field) (method : string) (r : result (option batch)) : result (option batch) :=
  payload ← r;
  match payload with
  | Some p => b ← envelope_of p; conform (Some b) declared method
  | None => Throw (Undefined_behaviour "the value of an empty std::optional")
  end.
Definition memory_done (r : result (option batch)) : result () :=
  payload ← r; match payload with Some p => envelope_of p;; Ok tt | None => Ok tt end.

Lemma envelope_schema_of `{!ArrowLaws A} payload b : envelope_of payload = Ok b → b_schema b = envelope_schema.
Proof using Type.
  intros (s & _ & Hb)%bind_Ok. by destruct (build_column _ _ _ _ "result" (Cell_binary s) Hb) as (Hn & _); [by_decide|by left|].
Qed.

(** The client reads the record that the catalog made. *)
Lemma memory_answer_read `{!ArrowLaws A} declared method payload answer :
  declared = ResultEnvelopeSchema ∨ declared = OptionalResultEnvelopeSchema →
  memory_answer declared method (Ok (Some payload)) = Ok (Some answer) → read_payload answer = Ok (Some payload).
Proof using Type*.
  intros Hd (b & Hb & Hc)%bind_Ok. rewrite (conform_read _ _ _ _ (envelope_schema_of _ _ Hb) Hd Hc). by apply envelope_read.
Qed.

(** Where a call that is not an ATTACH goes: by the value it is sent with. *)
Lemma route_declared sr method params memory a options :
  apart memory → method ≠ "catalog_attach"%string →
  get_optional_binary params "attach_opaque_data" = Ok (Some (Attachment.attachment_value a options)) →
  nul_free (Attachment.at_catalog a) → is_Some (find_catalog (Attachment.at_catalog a)) →
  route_memory_catalog sr method params memory = (Ok None, memory).
Proof using Type.
  intros Ha Hm Hv Hn Hf. unfold route_memory_catalog. destruct (_ || _); [done|].
  unfold addressed. rewrite bool_decide_false by done. rewrite Hv. cbn [mbind result_bind option_bind].
  unfold Attachment.attachment_value. rewrite catalog_of_value by done.
  assert (memory !! Attachment.at_catalog a = None) as Hnone.
  { destruct (memory !! _) as [[o at_]|] eqn:Ho; [|done]. apply Ha in Ho as (_ & _ & Hnone). rewrite Hnone in Hf. by destruct Hf. }
  destruct (Attachment.at_catalog a) as [|x l]; [done|]. cbn [mbind option_bind]. by rewrite Hnone.
Qed.
Lemma route_memory sr method params memory name options attaches token :
  apart memory → String.prefix "catalog_" method = true → method ≠ "catalog_attach"%string →
  memory !! name = Some (options, attaches) → nul_free name →
  get_optional_binary params "attach_opaque_data" = Ok (Some (MemoryCatalog.attachment options token)) →
  let served := MemoryCatalog.serve options sr method params attaches in
  route_memory_catalog sr method params memory =
    (payload ← served.1; match payload with Some p => b ← envelope_of p; Ok (Some (Some b)) | None => Ok (Some None) end,
     <[name := (options, served.2)]> memory).
Proof using Type.
  intros Ha Hp Hm Hname Hn Hv. unfold route_memory_catalog. rewrite Hp. cbn [negb]. rewrite orb_false_r.
  destruct (Ha _ _ _ Hname) as (Ho & Hne & _). rewrite bool_decide_false by (intros ->; by apply lookup_empty_Some in Hname).
  unfold addressed. rewrite bool_decide_false by done. rewrite Hv. cbn [mbind result_bind option_bind].
  unfold MemoryCatalog.attachment. rewrite Ho. cbn [replicate app]. rewrite catalog_of_value by done.
  destruct name as [|x l]; [done|]. cbn [mbind option_bind]. rewrite Hname. cbn [fmap option_fmap option_map].
  by destruct (MemoryCatalog.serve _ _ _ _ _) as [q attaches'].
Qed.

(** C5. A call about a catalog reaches the catalog that its attachment is of.  In a worker whose
    catalogs in memory were registered, a call with the value of an attachment to a declared
    catalog goes to the handler of its method and changes none of those in memory;
    and one with the value of an attachment to a catalog in memory is answered with what
    that catalog makes of it and its attachments -- the record, in the envelope of the
    method, as the client reads it back, or the exception -- and leaves that
    catalog with the attachments it then has: no handler runs, nothing is
    stored, and no other catalog changes.  So do the calls that answer nothing. *)
Theorem calls_reach `{!ArrowLaws A} c method declared handler void incoming memory params call :
  apart memory → received c method incoming = Ok (params, call) → String.prefix "catalog_" method = true → method ≠ "catalog_attach"%string →
  (∀ a options, get_optional_binary params "attach_opaque_data" = Ok (Some (Attachment.attachment_value a options)) →
     nul_free (Attachment.at_catalog a) → is_Some (find_catalog (Attachment.at_catalog a)) →
     serve_unary c method declared handler incoming memory = (b ← handler call params; lift (conform (Some b) declared method), memory) ∧
     serve_void c method void incoming memory = (void call params, memory)) ∧
  (∀ name options attaches token, memory !! name = Some (options, attaches) → nul_free name →
     get_optional_binary params "attach_opaque_data" = Ok (Some (MemoryCatalog.attachment options token)) →
     let served := MemoryCatalog.serve options (surroundings c call) method params attaches in
     let memory' := <[name := (options, served.2)]> memory in
     serve_unary c method declared handler incoming memory = (lift (memory_answer declared method served.1), memory') ∧
     serve_void c method void incoming memory = (lift (memory_done served.1), memory') ∧
     ∀ payload answer, served.1 = Ok (Some payload) → memory_answer declared method served.1 = Ok (Some answer) →
       declared = ResultEnvelopeSchema ∨ declared = OptionalResultEnvelopeSchema → read_payload answer = Ok (Some payload)).
Proof using Type*.
  intros Ha Hr Hp Hm.
  assert (opened c incoming = Ok (params, call)) as Hopen.
  { unfold received in Hr. apply bind_Ok in Hr as ([params' call'] & Ho & Hr). cbn beta iota in Hr. by rewrite bool_decide_false in Hr; [congruence|]. }
  unfold serve_unary, serve_void. rewrite Hr, Hopen. cbn beta iota. split.
  - intros a options Hv Hn Hf. by rewrite (route_declared _ _ _ _ a options).
  - intros name options attaches token Hname Hn Hv. cbv zeta. rewrite (route_memory _ _ _ _ name options attaches token) by done.
    destruct (MemoryCatalog.serve _ _ _ _ _) as [r attaches']. cbn [fst snd]. split_and!.
    + destruct r as [[p|]|e]; cbn; [|done..]. by destruct (envelope_of p).
    + destruct r as [[p|]|e]; cbn; [|done..]. by destruct (envelope_of p).
    + intros payload answer -> Hans Hd. by eapply memory_answer_read.
Qed.

(** ** A ticket is the ATTACH that was sealed *)

Context `{!ArrowLaws A} `{!CryptoLaws K} `{!Base64urlLaws U}.

(** The request of a call is read back where it was put. *)
Lemma with_request_reads s params request r :
  get_ipc (Some params) "request" = Ok (Some request) → encode_ipc r = Ok s → get_ipc (Some (with_request s params)) "request" = Ok (Some r).
Proof using Type*.
  intros Hq (_ & _ & _ & Hd)%encode_ipc_read. unfold get_ipc in *. apply bind_Ok in Hq as (o & Ho & Hq). destruct o as [o|]; [|done].
  unfold get_optional_binary in Ho. unfold has_column in Ho. destruct (column_by_name params "request") as [col|] eqn:Hc;
    [|by rewrite bool_decide_false in Ho by by intros []].
  apply bind_Some in Hc as (i & Hi & Hcol). pose proof (get_field_index_found _ _ _ Hi) as Hf. apply fmap_Some in Hf as (f & Hf & Hname).
  assert (column_by_name (with_request s params) "request" = Some (binary_array s)) as Hcol'.
  { unfold column_by_name, with_request. cbn [b_schema b_columns]. rewrite Hi. cbn [mbind option_bind].
    apply lookup_zip_with_Some. exists f, col. split; [by rewrite bool_decide_true|done]. }
  unfold get_optional_binary, has_column, column, typed_column. unfold column. rewrite Hcol'. cbn. exact Hd.
Qed.

(** What a call redeems: nothing, or a request in the place of its own. *)
Lemma redeem_Ok k auth now params request served :
  get_ipc (Some params) "request" = Ok (Some request) → redeem k auth now (Some params) = Ok served →
  (redeem_attach_ticket (Some request) k (attach_ticket_principal auth) now = Ok None ∧ served = Some params) ∨
  ∃ r p, redeem_attach_ticket (Some request) k (attach_ticket_principal auth) now = Ok (Some r) ∧
    served = Some p ∧ get_ipc served "request" = Ok (Some r).
Proof using Type*.
  intros Hq. unfold redeem. rewrite Hq. cbn [mbind result_bind]. intros (o & Ho & H)%bind_Ok. destruct o as [r|]; [right|left; by injection H as <-].
  apply bind_Ok in H as (s & Hs & [= <-]). eexists r, _. split; [done|]. split; [done|]. by eapply with_request_reads.
Qed.

(** C15. An ATTACH with a ticket is the ATTACH that was sealed.  A ticket that
    [seal_attach] answered with, presented alone by its own principal while it is live,
    whatever name the call gives: what is served is a request for the catalog that was sealed, at the
    versions that were sealed and with its options, and it is that catalog that decides
    whether one in memory serves the call. *)
Theorem ticket_served declared k ceiling req auth issued id nonce out :
  seal_attach declared k ceiling req auth issued id nonce = Ok out → length nonce = kAeadNonceBytes → is_int64 issued →
  ∃ r c ticket token, read_seal req = Ok r ∧ get_ipc (Some out) "result" = Ok (Some ticket) ∧ get_string (Some ticket) "ticket" = Ok token ∧
    issued_at c = issued ∧ expires_at c = match lifetime (sr_ttl r) ceiling with Some l => issued + l | None => 0 end ∧
    ∀ params request options f now served,
      get_ipc (Some params) "request" = Ok (Some request) →
      ticket_options request = Ok (Some (options, 0%nat)) → b_schema options = [f] → b_columns options = [string_array token] →
      length (b_columns request) = length (b_schema request) → Forall (λ name, is_Some (column_by_name request name)) sealed_fields →
      Forall (λ t, Utf8.valid_utf8 t = true) [id; sr_catalog r; sr_data_version r; sr_implementation r] →
      not_yet_valid c now = false → expired c now = false →
      redeem (Some k) auth now (Some params) = Ok served →
      addressed "catalog_attach" served = Ok (Some (sr_catalog r)) ∧
      ∃ b, Attaching.read_attach served =
             Ok (Attaching.mkAttach b (sr_catalog r) (nonempty (sr_data_version r)) (nonempty (sr_implementation r))) ∧
           get_optional_binary (Some b) "options" = Ok (nonempty (options_ipc c)) ∧ restores r (options_ipc c) request b.
Proof using Type*.
  intros H Hn Hi. destruct (sealed_attach_redeems _ _ _ _ _ _ _ _ _ H Hn Hi) as (r & c & ticket & token & Hr & Hout & Ht & _ & Hc & Hlife & Hall).
  exists r, c, ticket, token. split_and!; try done; [by destruct (lifetime _ _); [apply Hlife|destruct Hlife]|].
  intros params request options f now served Hq Ho Hs Hcols Hlen Hnames Hutf Hlive Hexp Hserved.
  destruct (Hall request options f now Ho Hs Hcols Hlen Hutf Hlive Hexp) as (Hredeem & Hrestores & _).
  assert (∃ b p, served = Some p ∧ get_ipc served "request" = Ok (Some b) ∧ restores r (options_ipc c) request b) as (b & p & -> & Hb & Hrest).
  { apply (redeem_Ok _ _ _ _ request) in Hserved as [[Hnone _]|(b & p & Hsome & -> & Hb)]; [|..|done].
    - rewrite Hredeem in Hnone. apply bind_Ok in Hnone as (arr & _ & Hv). by destruct (validate_full _).
    - rewrite Hredeem in Hsome. apply bind_Ok in Hsome as (arr & Harr & Hv). destruct (validate_full _); [done|]. injection Hv as <-.
      exists (restored c arr request), p. split_and!; [done|done|by apply Hrestores]. }
  pose proof Hrest as (_ & _ & Hread). unfold sealed_fields in Hnames. rewrite !Forall_cons in Hnames.
  destruct Hnames as ([cn Hcn] & [co Hco] & [cd Hcd] & [ci Hci] & _).
  destruct (Hread _ _ Hcn) as (Hname & _). destruct (Hread _ _ Hco) as (_ & Hopt & _).
  destruct (Hread _ _ Hcd) as (_ & _ & Hdata & _). destruct (Hread _ _ Hci) as (_ & _ & _ & Himpl & _).
  split.
  - unfold addressed. rewrite bool_decide_true by done. rewrite Hb. cbn [mbind result_bind]. by rewrite Hname.
  - exists b. unfold Attaching.read_attach. rewrite Hb. cbn [mbind result_bind from_opt]. rewrite Hname by done. cbn [mbind result_bind].
    rewrite Hdata, Himpl by done. split_and!; [done|by apply Hopt|done].
Qed.
End service.

(** ** At work *)

#[local] Existing Instances table_record toy_crypto hex_base64url hex_base64 Plan.no_json Contents.plain_set.
#[local] Instance no_streams : Contents.BatchStream := Contents.listed_stream [].
#[local] Instance same_schema : SchemaEquals := λ a b, bool_decide (a = b).

Definition version_row : list batch := Tables.row_of (build (A := table_arrow []) [fld "version" T_int64 false] None [("version"%string, Cell_int64 1)]).
Definition service_batches : list batch := AttachService.sample_batches ++ [attach_call; restored_call] ++ version_row.
Definition service_arrow : Arrow := schema_arrow service_batches.
Definition service_codec : SchemaCodec := list_codec service_batches [].
#[local] Existing Instances service_arrow service_codec.

Definition scratch : MemoryCatalog.MemoryCatalogOptions := MemoryCatalog.mkOptions (bs "scratch") None false false None Contents.Etag_none.
Definition registered : MemoryCatalogs :=
  match register_memory_catalog Attaching.releases [] scratch ∅ with Ok m => m | Throw _ => ∅ end.
Definition scratch_attach : bytes := MemoryCatalog.attachment scratch (bs "token").
Definition in_use : MemoryCatalogs := <[bs "scratch" := (scratch, {[scratch_attach := MemoryCatalog.mkState 1 false ∅]})]> registered.
Definition caller : Caller := mkCaller alice (double_of_Z (sample_issued + 100)) (bs "token") [].
Definition value_request (value : bytes) : option batch :=
  Some (mkBatch [Field "attach_opaque_data" T_binary true []] None 1 [mkArray T_binary [V_text value]]).
Definition declared_value : bytes := Attachment.attachment_value (Attachment.mkAttachment (bs "releases") [] [] (bs "id") None) [].
Definition version_handler : OpaqueSeal.Call → option batch → prog batch := λ _ _, lift (Attaching.catalog_version).
Definition version_call (value : bytes) : prog (option batch) * MemoryCatalogs :=
  serve_unary 1 None None caller "catalog_version" ResultEnvelopeSchema version_handler (value_request value) in_use.
Definition read_answer (served : prog (option batch)) : result batch :=
  ans ← answer served StorageSpec.empty_store; from_opt (Runtime_error "no answer") ans.

Lemma calls_reach_witness :
  version_call declared_value =
    (b ← version_handler (OpaqueSeal.mkCall None alice None) (value_request declared_value); lift (conform (Some b) ResultEnvelopeSchema "catalog_version"), in_use) ∧
  ∃ memory answer, version_call scratch_attach = (lift (Ok (Some answer)), memory) ∧ memory !! bs "scratch" = in_use !! bs "scratch" ∧
    (payload ← read_payload answer; get_int64 payload "version") = Ok 1.
Proof.
  pose proof (schema_arrow_laws service_batches) as L1.
  assert (apart Attaching.releases [] in_use) as Ha.
  { assert (apart Attaching.releases [] registered) as Hr
      by (apply (register_apart Attaching.releases [] scratch ∅); [apply apart_empty|vm_compute; reflexivity]).
    intros name o a. unfold in_use. rewrite lookup_insert_Some. intros [[<- [= <- <-]]|[_ H]]; [by split_and!|by eapply Hr]. }
  pose proof (λ value, calls_reach Attaching.releases [] 1 None None caller "catalog_version" ResultEnvelopeSchema version_handler (λ _ _, Ret tt) (value_request value)
    in_use (value_request value) (OpaqueSeal.mkCall None alice None) Ha eq_refl eq_refl ltac:(discriminate)) as H.
  split.
  - destruct (H declared_value) as [H1 _]. apply (H1 (Attachment.mkAttachment (bs "releases") [] [] (bs "id") None) []); [reflexivity|by_decide|].
    exists Attaching.releases. reflexivity.
  - destruct (H scratch_attach) as [_ H2].
    destruct (H2 (bs "scratch") scratch {[scratch_attach := MemoryCatalog.mkState 1 false ∅]} (bs "token")) as (H3 & _ & H4);
      [vm_compute; reflexivity|by_decide|reflexivity|].
    assert (∃ payload answer,
      (MemoryCatalog.serve scratch (surroundings caller (OpaqueSeal.mkCall None alice None)) "catalog_version" (value_request scratch_attach)
         {[scratch_attach := MemoryCatalog.mkState 1 false ∅]}).1 = Ok (Some payload) ∧
      memory_answer ResultEnvelopeSchema "catalog_version" (Ok (Some payload)) = Ok (Some answer) ∧ get_int64 (Some payload) "version" = Ok 1)
      as (payload & answer & E1 & E2 & E3) by (do 2 eexists; split; [vm_compute; reflexivity|split; vm_compute; reflexivity]).
    rewrite E1 in H3. rewrite E2 in H3. eexists _, answer. split; [exact H3|]. split.
    + vm_compute. reflexivity.
    + rewrite E1 in H4. rewrite (H4 payload answer eq_refl E2 (or_introl eq_refl)). exact E3.
Defined.

Definition ticket_call : batch := mkBatch [Field "request" T_binary false []] None 1 [binary_array (AttachService.sample_bytes 4)].
Definition served_call : option batch :=
  match redeem (Some demo_key) alice (double_of_Z (sample_issued + 100)) (Some ticket_call) with Ok p => p | Throw _ => None end.

Lemma ticket_served_witness :
  addressed "catalog_attach" (Some ticket_call) = Ok (Some (bs "anything")) ∧
  addressed "catalog_attach" served_call = Ok (Some (bs "sales")) ∧
  ∃ b, Attaching.read_attach served_call = Ok (Attaching.mkAttach b (bs "sales") (Some (bs "v1")) None).
Proof.
  pose proof (schema_arrow_laws service_batches) as L1.
  split; [vm_compute; reflexivity|].
  assert (seal_attach declared demo_key (Some 3600) (Some seal_call) alice sample_issued sample_id demo_nonce =
    Ok (mkBatch result_envelope None 1 [binary_array (AttachService.sample_bytes 2)])) as E by (vm_compute; reflexivity).
  destruct (ticket_served _ _ _ _ _ _ _ _ _ E) as (r & c & ticket & token & Hr & Hout & Htoken & Hissued & Hexpires & Hall);
    [reflexivity|split; vm_compute; [discriminate|reflexivity]|].
  assert (r = mkSeal (bs "sales") (Some (AttachService.sample_bytes 0)) (bs "v1") [] 86400) as -> by
    (assert (read_seal (Some seal_call) = Ok (mkSeal (bs "sales") (Some (AttachService.sample_bytes 0)) (bs "v1") [] 86400)) as G
       by (vm_compute; reflexivity); rewrite G in Hr; by injection Hr).
  assert (ticket = sample_ticket) as -> by
    (assert (get_ipc (Some (mkBatch result_envelope None 1 [binary_array (AttachService.sample_bytes 2)])) "result" = Ok (Some sample_ticket)) as G
       by (vm_compute; reflexivity); rewrite G in Hout; by injection Hout).
  assert (token = sample_token) as -> by
    (assert (get_string (Some sample_ticket) "ticket" = Ok sample_token) as G by (vm_compute; reflexivity); rewrite G in Htoken; by injection Htoken).
  destruct (Hall ticket_call attach_call ticket_option (Field "VGI_attach_ticket" T_string true []) (double_of_Z (sample_issued + 100)) served_call)
    as (H1 & b & H2 & _).
  - vm_compute. reflexivity.
  - vm_compute. reflexivity.
  - reflexivity.
  - vm_compute. reflexivity.
  - reflexivity.
  - repeat constructor; (eexists; reflexivity).
  - repeat constructor.
  - unfold not_yet_valid. rewrite Hissued. vm_compute. reflexivity.
  - unfold expired. rewrite Hexpires. vm_compute. reflexivity.
  - vm_compute. reflexivity.
  - split; [exact H1|]. exists b. exact H2.
Defined.
End Service.
