(* ===== verification/TableAnswers.v ===== *)
(** * What a scan knows of its columns, and batches for a schema
    ([src/function_dispatch.cpp], [src/table_in_out.cpp])

    The statistics a table function gives before it scans; the schema of a table-in-out
    function that declares none; and the columns of a batch put into a schema, which the
    authors of functions share. *)

From S2P Require Import Prelude Text Crypto Arrow ArrowRecord ArrowCompute Wire Protocol Metadata WireSchema StorageClient FunctionSpec Arguments Settings Json Functions Dispatch Calls Statistics Plan.
Import Wire Protocol Metadata StorageClient WireSchema Arguments Functions Dispatch Calls Statistics Plan.

Module TableAnswers.

(** ** Batches for a schema *)

Section columns.
Context `{A : Arrow} `{C : Compute}.
(** An array of nulls, of a builder of the type; what went wrong is with making the
    builder, with appending or with finishing. *)
Inductive NullsFailure := No_builder (status : string) | No_append | No_array.
Context (nulls : dtype → Z → NullsFailure + array).

(** [TableInOutFunction::bind]: the schema of the input. *)
Definition table_in_out_bind (name : bytes) (params : BindParams) : result (option schema) :=
  match bp_input_schema params with
  | None => Throw (Invalid_argument ("table-in-out function '" +:+ str name +:+ "' requires an input schema"))
  | Some s => Ok (Some s)
  end.

Definition null_column (rows : Z) (f : field) : result array :=
  match nulls (f_type f) rows with
  | inr a => Ok a
  | inl (No_builder status) => Wire.fail ("project_batch: cannot build nulls for '" +:+ f_name f +:+ "': " +:+ status)
  | inl No_append => Wire.fail ("project_batch: cannot append nulls for '" +:+ f_name f +:+ "'")
  | inl No_array => Wire.fail ("project_batch: cannot finish nulls for '" +:+ f_name f +:+ "'")
  end.
Definition cast_column (column : array) (f : field) : result array :=
  if type_equals (a_type column) (f_type f) then Ok column else
  match cast (D_array column) (f_type f) with
  | inr (D_array a) => Ok a
  | _ => Wire.fail ("project_batch: cannot cast '" +:+ f_name f +:+ "' from " +:+ type_to_string (a_type column) +:+ " to " +:+
                    type_to_string (f_type f))
  end.
(** A column that the batch does not have is all nulls. *)
Definition projected_column (b : batch) (f : field) : result array :=
  match Wire.column_by_name b (f_name f) with None => null_column (b_rows b) f | Some column => cast_column column f end.
Fixpoint projected_columns (b : batch) (fields : list field) : result (list array) :=
  match fields with [] => Ok [] | f :: fields => column ← projected_column b f; l ← projected_columns b fields; Ok (column :: l) end.

Definition project_batch (b : option batch) (schema : option schema) : result batch :=
  schema ← from_opt (Invalid_argument "project_batch: null schema") schema;
  b ← from_opt (Invalid_argument "project_batch: null batch") b;
  columns ← projected_columns b schema.1;
  Ok (mkBatch schema.1 schema.2 (b_rows b) columns).

Lemma projected_columns_Ok b fields l : projected_columns b fields = Ok l → Forall2 (λ f c, projected_column b f = Ok c) fields l.
Proof using Type.
  revert l. induction fields as [|f fields IH]; intros l; cbn [projected_columns]; [by intros [= <-]|].
  intros (c & Hc & (l' & Hl & [= <-])%bind_Ok)%bind_Ok. constructor; [done|by apply IH].
Qed.

(** A batch put into a schema has its columns, in its order and of its types, and its
    rows are as many as before; a column that was there and has its type is kept. *)
Lemma project_batch_shape b s p : project_batch (Some b) (Some s) = Ok p →
  (∀ t n a, nulls t n = inr a → type_equals (a_type a) t = true) →
  (∀ c t a, cast (D_array c) t = inr (D_array a) → type_equals (a_type a) t = true) →
  b_schema p = s.1 ∧ b_rows p = b_rows b ∧ Forall2 (λ f c, type_equals (a_type c) (f_type f) = true) s.1 (b_columns p) ∧
  ∀ i f c, s.1 !! i = Some f → Wire.column_by_name b (f_name f) = Some c → type_equals (a_type c) (f_type f) = true → b_columns p !! i = Some c.
Proof using Type.
  unfold project_batch. cbn [from_opt mbind result_bind]. intros (l & Hl%projected_columns_Ok & [= <-])%bind_Ok Hn Hc. cbn.
  split_and!; [done|done| |].
  - eapply Forall2_impl; [done|]. intros f c. unfold projected_column, null_column, cast_column.
    destruct (Wire.column_by_name _ _) as [column|].
    + destruct (type_equals _ _) eqn:E; [by intros [= <-]|]. destruct (cast _ _) as [|[]] eqn:Hx; try done. intros [= <-]. by eapply Hc.
    + destruct (nulls _ _) as [[]|] eqn:Hx; try done. intros [= <-]. by eapply Hn.
  - intros i f c Hf Hb Ht. destruct (Forall2_lookup_l _ _ _ _ _ Hl Hf) as (c' & -> & H).
    unfold projected_column, cast_column in H. rewrite Hb, Ht in H. by injection H as ->.
Qed.

End columns.

(** ** The statistics of a scan *)

Section statistics.
Context `{A : Arrow} `{C : Compute} `{B : Base64} `{M : Memory} `{X : Settings.ScalarText} `{L : SchemaCodec} `{U : SparseUnion}.
Context `{J : Json.JsonParser} `{K : Crypto} {S : Type}.
Context (d : Dispatcher S) (sealing : bool).
(** What a table function says of its columns. *)
Context (tf_statistics : TableFunction S → ProcessParams → prog (option (list ColumnStatistics))).

(** None is not the same as none of any column. *)
Definition table_function_statistics (request : option batch) : prog batch :=
  '(_, call) ← lift (bind_call_of "statistics" request);
  name ← lift (get_string (Some call) "function_name");
  p ← read_bind_request d sealing (Some call);
  l ← (match find_table d name (scope_of p) (Some p) with
       | Some table => tf_statistics table (early_params p)
       | None => Ret None
       end : prog (option (list ColumnStatistics)));
  lift (c ← (match l with Some l => s ← serialize_column_statistics l; Ok (Cell_binary s) | None => Ok Cell_null end : result cell);
        build envelope_schema None [("result"%string, c)]).

End statistics.
End TableAnswers.
