(* ===== verification/Worker.v ===== *)
(** * The start of a worker ([src/worker.cpp], [src/landing.cpp])

    What a worker is given -- its hooks, the command line, the environment -- and what
    it comes to: the server that is built, which protocols it hosts, the keys of the
    transport, the configuration that is served; or the message it refuses to start
    with.  Serving itself is the work of [vgi_rpc], whose parts are parameters.  The
    theorems: what a worker serves is closed -- no protocol that resolves credentials
    without a list of who may ask, nothing sealed with a key that was not given, nothing
    behind the bridge that is not on the loopback --, a bearer is who the configured
    list says, and a launcher's command line is served as it says. *)

From S2P Require Import Prelude Text Strtod Crypto AttachTicket Arrow ArrowRecord Wire Json AttachService SqlScalar Catalogs Discovery Service.
From Stdlib Require Import SpecFloat.
Import AttachTicket AttachService Json Strtod Catalogs.

Module Worker.

(** ** Text *)

Definition comma : ascii := ","%char.

(** What is before the first [c] and, if there is one, what is after it. *)
Fixpoint cut (c : ascii) (s : bytes) : bytes * option bytes :=
  match s with
  | [] => ([], None)
  | d :: s' => if bool_decide (d = c) then ([], Some s') else let '(a, b) := cut c s' in (d :: a, b)
  end.
(** The pieces of the loops over [find(c, begin)]: one more than there are [c]s. *)
Fixpoint pieces (c : ascii) (s : bytes) : list bytes :=
  match s with
  | [] => [[]]
  | d :: s' =>
      if bool_decide (d = c) then [] :: pieces c s'
      else match pieces c s' with [] => [[d]] | p :: l => (d :: p) :: l end
  end.
Fixpoint concat_with (c : ascii) (l : list bytes) : bytes :=
  match l with [] => [] | [p] => p | p :: l => p ++ c :: concat_with c l end.

(** [rfind(c)]: around the last [c]. *)
Definition cut_last (c : ascii) (s : bytes) : option (bytes * bytes) :=
  match cut c (rev s) with (a, Some b) => Some (rev b, rev a) | (_, None) => None end.

(** [strtol] of a whole text, in the range of a port. *)
Definition read_port (text : bytes) : option Z :=
  if bool_decide (text = []) || bool_decide (strtoll_end text ≠ []) || bool_decide (¬ 0 ≤ strtoll text ≤ 65535)
  then None else Some (strtoll text).

Definition without_brackets (host : bytes) : bytes :=
  match host with
  | c :: l =>
      if bool_decide (c = "["%char) && bool_decide (last l = Some "]"%char) then removelast l else host
  | [] => host
  end.
Definition parse_tcp_bind (value : bytes) (flag : string) : result (bytes * Z) :=
  let '(host, port_text) :=
    match cut_last ":"%char value with
    | Some (host, port) => (without_brackets (if bool_decide (host = []) then bs "127.0.0.1" else host), port)
    | None => (bs "127.0.0.1", value)
    end in
  port ← from_opt (Invalid_argument (flag +:+ " needs [HOST:]PORT in 0..65535")) (read_port port_text);
  Ok (host, port).
Definition is_loopback_bind (host : bytes) : bool := bool_decide (host ∈ [bs "127.0.0.1"; bs "::1"; bs "localhost"]).

(** ** Bearers *)

Definition bearer_entry (variable : string) (entry : bytes) : result (bytes * bytes) :=
  match cut "="%char entry with
  | ((_ :: _) as token, Some ((_ :: _) as principal)) => Ok (token, principal)
  | _ => Throw (Invalid_argument (variable +:+ " must contain comma-separated token=principal entries"))
  end.
Fixpoint bearer_entries (variable : string) (l : list bytes) (tokens : gmap bytes bytes) : result (gmap bytes bytes) :=
  match l with
  | [] => Ok tokens
  | e :: l =>
      '(token, principal) ← bearer_entry variable e;
      bearer_entries variable l (if bool_decide (is_Some (tokens !! token)) then tokens else <[token := principal]> tokens)
  end.

Definition bearer_principal (principal : bytes) : AuthContext := mkAuth true (bs "bearer") (Some principal).

(** ** Principals and names *)

Definition split_principals (raw : bytes) : list bytes :=
  omap (λ item, nonempty (trim item)) (pieces comma raw).

Definition ascii_letter (c : ascii) : bool := SqlScalar.is_alpha c.
Definition ascii_word (c : ascii) : bool := SqlScalar.is_alpha c || is_digit c.
Definition valid_routing_key (name : bytes) : bool :=
  match name with
  | [] => false
  | lead :: rest =>
      bool_decide (length name ≤ 255)%nat && (ascii_letter lead || bool_decide (lead = "_"%char)) &&
      forallb (λ c, ascii_word c || bool_decide (c = "_"%char) || bool_decide (c = "."%char)) rest
  end.
Definition has_prefix (prefix s : bytes) : bool := bool_decide (take (length prefix) s = prefix).

Inductive Transport := PIPE | UNIX | TCP | HTTP.
#[global] Instance Transport_eq_dec : EqDecision Transport.
Proof. solve_decision. Defined.

(** How a peer that a bridge forwarded counts: observed, or as the caller. *)
Inductive PeerPolicy := observe_peer_identity | peer_identity_primary (provider : bytes).

Record Asset := mkAsset { as_body : bytes; as_type : bytes; as_status : option bytes }.

(** What the sources set of a [vgi_rpc::HttpConfig]; the rest stays as it is constructed. *)
Record HttpConfig := mkHttp {
  hc_host : bytes; hc_port : Z; hc_token_key : bytes;
  hc_bearer_optional : bool; hc_bearer : option (bytes → option AuthContext);
  hc_static_assets : gmap bytes Asset;
  hc_providers : list (bytes * list bytes); hc_policy : option PeerPolicy;
}.

Record TcpServerOptions := mkTcp {
  to_proxy_protocol_v2_required : bool; to_trusted_proxy_addresses : list bytes; to_iroh_proxy_issuer : bytes; to_policy : PeerPolicy;
}.

(** [vgi_rpc]: its prefixes, its grant keys, the protocols it hosts and the kinds of hook. *)
Class VgiRpc := {
  kGrantTokenPrefix : bytes;
  kReservedProtocolPrefix : bytes;
  kGrantKeysEnv : string;
  GrantKeys : Type;
  max_ttl_seconds : GrantKeys → Z;
  validate : GrantKeys → result ();
  keys_from_env : (string → option bytes) → result (option GrantKeys);
  ProtocolBuilder : Type;
  protocol_name : ProtocolBuilder → bytes;
  ResolveTokenHook : Type;
  MintGrantHook : Type;
}.

Section worker.
Context `{V : VgiRpc} `{K : Crypto}.

Record IdentityOptions := mkIdentity {
  io_resolve_token : option ResolveTokenHook; io_mint_grant : option MintGrantHook; io_grant_keys : option GrantKeys;
  io_introspect_principals : list bytes;
}.

(** What the builder of a server is told, and the dispatcher with it.  The protocol of
    the attach tickets: its key and the longest that a ticket may live. *)
Record Plan := mkPlan {
  pl_protocol : bytes; pl_version : bytes; pl_server_id : option bytes;
  pl_hosted : list ProtocolBuilder; pl_grant_keys : option GrantKeys; pl_access_log : list bytes;
  pl_ticket_key : option bytes; pl_tickets : option (bytes * option Z); pl_identity : option IdentityOptions;
}.

(** The state of a worker besides its dispatcher. *)
Record Worker := mkWorker {
  wk_server_id : bytes;
  wk_hosted_protocols : option (result (list ProtocolBuilder));
  wk_resolve_token : option ResolveTokenHook;
  wk_mint_grant : option MintGrantHook;
  wk_introspect_principals : option (list bytes);
  wk_grant_keys_explicit : bool;
  wk_grant_keys : option GrantKeys;
  wk_configure_http : option (HttpConfig → result HttpConfig);
}.

Definition new_worker : Worker := mkWorker [] None None None None false None None.
Definition set_server_id (id : bytes) (w : Worker) : Worker :=
  mkWorker id (wk_hosted_protocols w) (wk_resolve_token w) (wk_mint_grant w) (wk_introspect_principals w)
    (wk_grant_keys_explicit w) (wk_grant_keys w) (wk_configure_http w).
(** A hook is what it answers: it is consulted once. *)
Definition set_hosted_protocols (hook : option (result (list ProtocolBuilder))) (w : Worker) : Worker :=
  mkWorker (wk_server_id w) hook (wk_resolve_token w) (wk_mint_grant w) (wk_introspect_principals w)
    (wk_grant_keys_explicit w) (wk_grant_keys w) (wk_configure_http w).
Definition set_resolve_token (hook : option ResolveTokenHook) (w : Worker) : Worker :=
  mkWorker (wk_server_id w) (wk_hosted_protocols w) hook (wk_mint_grant w) (wk_introspect_principals w)
    (wk_grant_keys_explicit w) (wk_grant_keys w) (wk_configure_http w).
Definition set_mint_grant (hook : option MintGrantHook) (w : Worker) : Worker :=
  mkWorker (wk_server_id w) (wk_hosted_protocols w) (wk_resolve_token w) hook (wk_introspect_principals w)
    (wk_grant_keys_explicit w) (wk_grant_keys w) (wk_configure_http w).
Definition set_grant_keys (keys : option GrantKeys) (w : Worker) : result Worker :=
  match keys with Some k => validate k | None => Ok tt end;;
  Ok (mkWorker (wk_server_id w) (wk_hosted_protocols w) (wk_resolve_token w) (wk_mint_grant w) (wk_introspect_principals w)
        true keys (wk_configure_http w)).
Definition set_introspect_principals (principals : list bytes) (w : Worker) : Worker :=
  mkWorker (wk_server_id w) (wk_hosted_protocols w) (wk_resolve_token w) (wk_mint_grant w) (Some principals)
    (wk_grant_keys_explicit w) (wk_grant_keys w) (wk_configure_http w).
Definition configure_http (hook : option (HttpConfig → result HttpConfig)) (w : Worker) : Worker :=
  mkWorker (wk_server_id w) (wk_hosted_protocols w) (wk_resolve_token w) (wk_mint_grant w) (wk_introspect_principals w)
    (wk_grant_keys_explicit w) (wk_grant_keys w) hook.

(** ** The server that is built

    [getenv] is the environment; [admits] is what the builder of [vgi_rpc] does not
    refuse, asked after everything it is told; [random_key] the key made for the
    process. *)
Context (getenv : string → option bytes) (admits : Plan → result ()).

(** A variable that is set, and not to nothing. *)
Definition configured (variable : string) : option bytes := getenv variable ≫= nonempty.

Definition bearer_tokens_from_env (variable : string) : result (gmap bytes bytes) :=
  match configured variable with
  | None => Ok ∅
  | Some entries => bearer_entries variable (pieces comma entries) ∅
  end.

Definition with_bearer (optional : bool) (f : bytes → option AuthContext) (c : HttpConfig) : HttpConfig :=
  mkHttp (hc_host c) (hc_port c) (hc_token_key c) optional (Some f) (hc_static_assets c) (hc_providers c) (hc_policy c).
Definition required_bearer (tokens : gmap bytes bytes) (token : bytes) : option AuthContext := bearer_principal <$> tokens !! token.
Definition optional_bearer (tokens : gmap bytes bytes) (token : bytes) : option AuthContext :=
  match tokens !! token with
  | Some principal => Some (bearer_principal principal)
  | None => if has_prefix kGrantTokenPrefix token then None else Some anonymous
  end.
Definition configure_bearer_auth (c : HttpConfig) : result HttpConfig :=
  tokens ← bearer_tokens_from_env "VGI_BEARER_TOKENS";
  if bool_decide (tokens ≠ ∅) then Ok (with_bearer (hc_bearer_optional c) (required_bearer tokens) c) else
  tokens ← bearer_tokens_from_env "VGI_OPTIONAL_BEARER_TOKENS";
  if bool_decide (tokens ≠ ∅) then Ok (with_bearer true (optional_bearer tokens) c) else Ok c.

Definition with_token_key (k : bytes) (c : HttpConfig) : HttpConfig :=
  mkHttp (hc_host c) (hc_port c) k (hc_bearer_optional c) (hc_bearer c) (hc_static_assets c) (hc_providers c) (hc_policy c).
Definition configure_signing_key (c : HttpConfig) : HttpConfig :=
  match configured "VGI_SIGNING_KEY" with
  | None => c
  | Some raw => with_token_key (if bool_decide (length raw = length (hc_token_key c)) then raw else sha256 raw) c
  end.

(** The values of [--grant-key]; what follows one is never read as another. *)
Fixpoint grant_key_args (args : list bytes) : result (list bytes) :=
  match args with
  | [] => Ok []
  | a :: args =>
      if bool_decide (a = bs "--grant-key") then
        match args with
        | [] => Throw (Invalid_argument "--grant-key needs a base64 key")
        | key :: args => keys ← grant_key_args args; Ok (key :: keys)
        end
      else grant_key_args args
  end.
Definition grant_keys_from (args : list bytes) : result (option GrantKeys) :=
  keys ← grant_key_args args;
  match keys with
  | [] => keys_from_env getenv
  | _ => keys_from_env (λ name, if bool_decide (name = kGrantKeysEnv) then Some (concat_with comma keys) else getenv name)
  end.

Definition primary_name : bytes := bs "vgi.v3".
Definition VGI_PROTOCOL_VERSION : bytes := bs "3.1.0".

(** What the names of hosted protocols must be: [i] is the place, [seen] the names before. *)
Definition check_hosted (i : nat) (seen : list bytes) (name : bytes) : result () :=
  let owner := "Worker::set_hosted_protocols hook"%string in
  let where_ := owner +:+ ", entry " +:+ str (to_string (Z.of_nat i)) in
  let quoted := "'" +:+ str name +:+ "'" in
  throw_if (has_prefix kReservedProtocolPrefix name)
    (Invalid_argument (where_ +:+ ": " +:+ quoted +:+ " claims the reserved '" +:+ str kReservedProtocolPrefix +:+
      "' prefix. Framework protocols are not supplied through this hook: reflection is hosted automatically, and " +:+
      "vgi_rpc.Identity.v2 is enabled with Worker::set_resolve_token / Worker::set_mint_grant."));;
  throw_if (negb (valid_routing_key name))
    (Invalid_argument (where_ +:+ ": " +:+ quoted +:+ " is not a valid protocol name ([A-Za-z_][A-Za-z0-9_.]*, at most 255 bytes)"));;
  throw_if (bool_decide (name = primary_name))
    (Invalid_argument (where_ +:+ ": " +:+ quoted +:+ " is the worker's own protocol; give the hosted protocol a distinct name"));;
  throw_if (bool_decide (name ∈ seen))
    (Invalid_argument (owner +:+ " lists protocol " +:+ quoted +:+
      " twice; the name is the routing key, so each hosted protocol needs a distinct one")).
Fixpoint check_hosted_names (i : nat) (seen : list bytes) (names : list bytes) : result () :=
  match names with
  | [] => Ok tt
  | name :: names => check_hosted i seen name;; check_hosted_names (S i) (name :: seen) names
  end.

(** What the builder is told, one thing at a time. *)
Definition told (p : Plan) : result Plan := admits p;; Ok p.
Definition with_server_id (id : bytes) (p : Plan) : Plan :=
  mkPlan (pl_protocol p) (pl_version p) (Some id) (pl_hosted p) (pl_grant_keys p) (pl_access_log p) (pl_ticket_key p) (pl_tickets p) (pl_identity p).
Definition with_hosted (b : ProtocolBuilder) (p : Plan) : Plan :=
  mkPlan (pl_protocol p) (pl_version p) (pl_server_id p) (pl_hosted p ++ [b]) (pl_grant_keys p) (pl_access_log p) (pl_ticket_key p) (pl_tickets p) (pl_identity p).
Definition with_grant_keys (k : option GrantKeys) (p : Plan) : Plan :=
  mkPlan (pl_protocol p) (pl_version p) (pl_server_id p) (pl_hosted p) k (pl_access_log p) (pl_ticket_key p) (pl_tickets p) (pl_identity p).
Definition with_access_log (path : bytes) (p : Plan) : Plan :=
  mkPlan (pl_protocol p) (pl_version p) (pl_server_id p) (pl_hosted p) (pl_grant_keys p) (pl_access_log p ++ [path]) (pl_ticket_key p) (pl_tickets p) (pl_identity p).
Definition with_ticket_key (k : option bytes) (p : Plan) : Plan :=
  mkPlan (pl_protocol p) (pl_version p) (pl_server_id p) (pl_hosted p) (pl_grant_keys p) (pl_access_log p) k (pl_tickets p) (pl_identity p).
Definition with_tickets (t : bytes * option Z) (p : Plan) : Plan :=
  mkPlan (pl_protocol p) (pl_version p) (pl_server_id p) (pl_hosted p) (pl_grant_keys p) (pl_access_log p) (pl_ticket_key p) (Some t) (pl_identity p).
Definition with_identity (o : IdentityOptions) (p : Plan) : Plan :=
  mkPlan (pl_protocol p) (pl_version p) (pl_server_id p) (pl_hosted p) (pl_grant_keys p) (pl_access_log p) (pl_ticket_key p) (pl_tickets p) (Some o).

Fixpoint add_protocols (l : list ProtocolBuilder) (p : Plan) : result Plan :=
  match l with [] => Ok p | b :: l => p ← told (with_hosted b p); add_protocols l p end.

(** Every [--access-log]: what follows one may be another. *)
Fixpoint access_logs (args : list bytes) (p : Plan) : result Plan :=
  match args with
  | [] => Ok p
  | a :: args =>
      if bool_decide (a = bs "--access-log") then
        match args with
        | [] => Throw (Invalid_argument "--access-log needs a path")
        | path :: _ => p ← told (with_access_log path p); access_logs args p
        end
      else access_logs args p
  end.

(** The last [--introspect-principals] that something follows. *)
Fixpoint principals_args (args : list bytes) (principals : list bytes) : list bytes :=
  match args with
  | [] => principals
  | a :: args =>
      principals_args args (match args with
                            | v :: _ => if bool_decide (a = bs "--introspect-principals") then split_principals v else principals
                            | [] => principals
                            end)
  end.
Definition introspectors (w : Worker) (args : list bytes) : list bytes :=
  let principals :=
    match wk_introspect_principals w with
    | Some l => l
    | None =>
        match principals_args args [] with
        | [] => match getenv "VGI_INTROSPECT_PRINCIPALS" with Some v => split_principals v | None => [] end
        | l => l
        end
    end in
  filter (λ p, p ≠ []) principals.

Definition no_allowlist : string :=
  "this worker sets a resolve_token hook, which hosts the vgi_rpc.Identity.v2 protocol, but no introspector allowlist was " +:+
  "configured. Set VGI_INTROSPECT_PRINCIPALS (comma-separated), pass --introspect-principals, or call " +:+
  "Worker::set_introspect_principals. There is no permissive default on purpose: introspection is a separate capability from " +:+
  "authentication, and allowing every authenticated caller lets any user resolve any other user's credential to its owner.".

Context (primary : CatalogModel) (others : list CatalogModel).

Definition protocol_version : bytes := default VGI_PROTOCOL_VERSION (configured "VGI_PROTOCOL_VERSION_OVERRIDE").
Definition host_protocols (w : Worker) (p : Plan) : result Plan :=
  match wk_hosted_protocols w with
  | None => Ok p
  | Some hook =>
      hosted ← hook;
      check_hosted_names 0 [] (map protocol_name hosted);;
      add_protocols hosted p
  end.
Definition grants (w : Worker) (args : list bytes) : result (option GrantKeys) :=
  if wk_grant_keys_explicit w then Ok (wk_grant_keys w) else grant_keys_from args.
Definition ticket_key_of (transport : Transport) : option bytes :=
  if bool_decide (transport = HTTP) then attach_ticket_key <$> configured "VGI_SIGNING_KEY" else None.
(** Tickets are hosted when both a ticket and a grant can be issued. *)
Definition host_tickets (w : Worker) (keys : option GrantKeys) (p : Plan) : result Plan :=
  match pl_ticket_key p with
  | Some k =>
      if bool_decide (is_Some keys) || bool_decide (is_Some (wk_mint_grant w)) then
        ceiling ← attach_ticket_max_ttl (max_ttl_seconds <$> keys) (getenv "VGI_RPC_GRANT_MAX_TTL_SECONDS");
        told (with_tickets (k, ceiling) p)
      else Ok p
  | None => Ok p
  end.
Definition host_identity (w : Worker) (transport : Transport) (args : list bytes) (keys : option GrantKeys) (p : Plan) : result Plan :=
  if bool_decide (transport = HTTP) &&
     (bool_decide (is_Some (wk_resolve_token w)) || bool_decide (is_Some (wk_mint_grant w)) || bool_decide (is_Some keys))
  then
    principals ← (if bool_decide (is_Some (wk_resolve_token w)) then
                    let principals := introspectors w args in
                    throw_if (bool_decide (principals = [])) (Invalid_argument no_allowlist);; Ok principals
                  else Ok [] : result (list bytes));
    told (with_identity (mkIdentity (wk_resolve_token w) (wk_mint_grant w) keys principals) p)
  else Ok p.

Definition build_server (w : Worker) (transport : Transport) (args : list bytes) : result Plan :=
  p ← told (mkPlan primary_name protocol_version None [] None [] None None None);
  p ← (if bool_decide (wk_server_id w = []) then Ok p else told (with_server_id (wk_server_id w) p));
  Service.Service.check_all_reserved (primary :: others);;
  p ← host_protocols w p;
  keys ← grants w args;
  p ← told (with_grant_keys (if bool_decide (transport = HTTP) then keys else None) p);
  p ← access_logs args p;
  p ← host_tickets w keys (with_ticket_key (ticket_key_of transport) p);
  p ← host_identity w transport args keys p;
  told p.

(** ** What a start comes to

    It refuses with a message or with what an exception says, it ends in an exception
    that nothing catches, or it serves. *)
Inductive Stop := Refused (message : string) | Reported (e : exn) | Escaped (e : exn).
Inductive start (X : Type) := Stopped (s : Stop) | Goes (x : X).
#[global] Arguments Stopped {X} s.
#[global] Arguments Goes {X} x.
#[global] Instance start_ret : MRet start := λ X, Goes.
#[global] Instance start_bind : MBind start := λ X Y f r, match r with Goes x => f x | Stopped s => Stopped s end.
Definition refuse {X} (message : string) : start X := Stopped (Refused message).
Definition refuse_if (b : bool) (message : string) : start () := if b then refuse message else Goes tt.
(** With a handler of [std::exception] that refuses, and without one. *)
Definition or_refuse {X} (r : result X) : start X :=
  match r with Ok x => Goes x | Throw e => Stopped (if std_exception e then Reported e else Escaped e) end.
Definition uncaught {X} (r : result X) : start X := match r with Ok x => Goes x | Throw e => Stopped (Escaped e) end.
Definition build_or_refuse (w : Worker) (transport : Transport) (args : list bytes) : start Plan :=
  or_refuse (build_server w transport args).

(** *** The options *)

Record Options := mkOptions {
  op_idle_timeout : option Z; op_iroh_upstream : bytes; op_iroh_issuer : bytes; op_trusted_proxies : list bytes; op_observe : bool;
  op_host : bytes; op_port : option Z;
}.
Definition no_options : Options := mkOptions None [] [] [] false (bs "127.0.0.1") None.

Definition parse_http_port (value : bytes) : start Z :=
  match read_port value with
  | Some port => Goes port
  | None => refuse ("HTTP port must be in 0..65535, got '" +:+ str value +:+ "'")
  end.

(** In milliseconds. *)
Definition parse_idle_timeout (value : bytes) : start Z :=
  let bad := refuse ("--idle-timeout needs a non-negative number of seconds, got '" +:+ str value +:+ "'") in
  match strtod value with
  | Some (seconds, []) =>
      if negb (is_finite seconds) || SFltb seconds (S754_zero false) || SFltb (double_of 1000000000) seconds then bad
      else Goes (llround (times seconds (double_of 1000)))
  | _ => bad
  end.

Definition with_idle_timeout (t : Z) (o : Options) : Options :=
  mkOptions (Some t) (op_iroh_upstream o) (op_iroh_issuer o) (op_trusted_proxies o) (op_observe o) (op_host o) (op_port o).
Definition with_upstream (v : bytes) (o : Options) : Options :=
  mkOptions (op_idle_timeout o) v (op_iroh_issuer o) (op_trusted_proxies o) (op_observe o) (op_host o) (op_port o).
Definition with_issuer (v : bytes) (o : Options) : Options :=
  mkOptions (op_idle_timeout o) (op_iroh_upstream o) v (op_trusted_proxies o) (op_observe o) (op_host o) (op_port o).
Definition with_proxy (v : bytes) (o : Options) : Options :=
  mkOptions (op_idle_timeout o) (op_iroh_upstream o) (op_iroh_issuer o) (op_trusted_proxies o ++ [v]) (op_observe o) (op_host o) (op_port o).
Definition observing (o : Options) : Options :=
  mkOptions (op_idle_timeout o) (op_iroh_upstream o) (op_iroh_issuer o) (op_trusted_proxies o) true (op_host o) (op_port o).
Definition with_host (v : bytes) (o : Options) : Options :=
  mkOptions (op_idle_timeout o) (op_iroh_upstream o) (op_iroh_issuer o) (op_trusted_proxies o) (op_observe o) v (op_port o).
Definition with_port (p : Z) (o : Options) : Options :=
  mkOptions (op_idle_timeout o) (op_iroh_upstream o) (op_iroh_issuer o) (op_trusted_proxies o) (op_observe o) (op_host o) (Some p).

(** The options that take a value: what is missing without one, and what it changes. *)
Definition valued (a : bytes) : option (string * (bytes → Options → start Options)) :=
  if bool_decide (a = bs "--idle-timeout") then
    Some ("--idle-timeout needs a number of seconds", λ v o, t ← parse_idle_timeout v; Goes (with_idle_timeout t o))
  else if bool_decide (a = bs "--iroh-raw-upstream") then
    Some ("--iroh-raw-upstream needs [HOST:]PORT", λ v o, Goes (with_upstream v o))
  else if bool_decide (a = bs "--iroh-issuer") then Some ("--iroh-issuer needs a value", λ v o, Goes (with_issuer v o))
  else if bool_decide (a = bs "--iroh-trusted-proxy") then
    Some ("--iroh-trusted-proxy needs an exact IP address", λ v o, Goes (with_proxy v o))
  else if bool_decide (a = bs "--host") then Some ("--host needs a value", λ v o, Goes (with_host v o))
  else if bool_decide (a = bs "--port") then
    Some ("--port needs a value", λ v o, p ← parse_http_port v; Goes (with_port p o))
  else None.
Fixpoint read_options (args : list bytes) (o : Options) : start Options :=
  match args with
  | [] => Goes o
  | a :: args =>
      match valued a with
      | Some (missing, change) =>
          match args with [] => refuse missing | v :: args => o ← change v o; read_options args o end
      | None => read_options args (if bool_decide (a = bs "--iroh-observe") then observing o else o)
      end
  end.

(** *** What is served

    With the server, the keys the dispatcher was given: of opaque values and of splits. *)
Inductive Listening :=
| On_pipe
| On_unix (path : bytes) (idle_timeout : option Z)
| On_tcp (host : bytes) (port : Z) (options : TcpServerOptions)
| On_http (config : HttpConfig).
Record Serving := mkServing { sv_listening : Listening; sv_plan : Plan; sv_opaque_key : option bytes; sv_split_key : option bytes }.

(** The files that come with the SDK, the text of a JSON value, the defaults of a
    configuration, the identity a server takes if it is given none, and the key made
    for the process. *)
Context (landing_html client_js sdk_version : bytes) (dump : json → result bytes) (fresh : HttpConfig) (server_id_of : Plan → bytes) (random_key : bytes).

Definition proxies_or_loopback (l : list bytes) : list bytes := match l with [] => [bs "127.0.0.1"] | _ => l end.
Definition peer_policy (o : Options) : PeerPolicy := if op_observe o then observe_peer_identity else peer_identity_primary (bs "iroh").

Definition landing_status (name server_id doc : bytes) : json :=
  J_object [("cupola_base", J_string "https://cupola.query-farm.services"); ("doc", J_string (str doc)); ("lang", J_string "cpp");
            ("oauth", J_bool false); ("protocol", J_string (str primary_name)); ("server_id", J_string (str server_id));
            ("status", J_string "ok"); ("version", J_string (str sdk_version)); ("worker", J_string (str name))]%string.
Definition configure_landing (name server_id doc : bytes) (c : HttpConfig) : result HttpConfig :=
  status ← dump (landing_status name server_id doc);
  Ok (mkHttp (hc_host c) (hc_port c) (hc_token_key c) (hc_bearer_optional c) (hc_bearer c)
    (<[bs "/vgi-client.js" := mkAsset client_js (bs "text/javascript; charset=utf-8") None]>
       (<[bs "/" := mkAsset landing_html (bs "text/html; charset=utf-8") (Some status)]> (hc_static_assets c)))
    (hc_providers c) (hc_policy c)).

Definition at_address (host : bytes) (port : Z) (c : HttpConfig) : HttpConfig :=
  mkHttp host port (hc_token_key c) (hc_bearer_optional c) (hc_bearer c) (hc_static_assets c) (hc_providers c) (hc_policy c).
Definition behind_bridge (issuer : bytes) (proxies : list bytes) (policy : PeerPolicy) (c : HttpConfig) : HttpConfig :=
  mkHttp (hc_host c) (hc_port c) (hc_token_key c) (hc_bearer_optional c) (hc_bearer c) (hc_static_assets c)
    (hc_providers c ++ [(issuer, proxies)]) (Some policy).
Definition hooked (w : Worker) (c : HttpConfig) : result HttpConfig :=
  match wk_configure_http w with Some f => f c | None => Ok c end.
Definition based (o : Options) (port : Z) (p : Plan) : result HttpConfig :=
  c ← configure_landing (cl_name primary) (server_id_of p) (default [] (cl_comment primary)) (at_address (op_host o) port fresh);
  Ok (configure_signing_key c).

Definition serve_http (w : Worker) (o : Options) (port : Z) (p : Plan) : start Serving :=
  config ← (if bool_decide (op_iroh_issuer o = []) then
              c ← uncaught (based o port p); c ← uncaught (configure_bearer_auth c); uncaught (hooked w c)
            else
              refuse_if (negb (is_loopback_bind (op_host o)))
                "Iroh HTTP bridge upstream must bind loopback; expose only the Iroh bridge";;
              c ← uncaught (based o port p);
              uncaught (hooked w (behind_bridge (op_iroh_issuer o) (proxies_or_loopback (op_trusted_proxies o)) (peer_policy o) c))
            : start HttpConfig);
  Goes (mkServing (On_http config) p (Some (hc_token_key config)) (Some (hc_token_key config))).

Definition serve_bridge (w : Worker) (args : list bytes) (o : Options) : start Serving :=
  refuse_if (bool_decide (op_iroh_issuer o = [])) "--iroh-raw-upstream requires --iroh-issuer";;
  '(host, port) ← or_refuse (parse_tcp_bind (op_iroh_upstream o) "--iroh-raw-upstream");
  p ← or_refuse (build_server w TCP args);
  refuse_if (negb (is_loopback_bind host)) "--iroh-raw-upstream must bind loopback; expose only the Iroh bridge";;
  Goes (mkServing (On_tcp host port (mkTcp true (proxies_or_loopback (op_trusted_proxies o)) (op_iroh_issuer o) (peer_policy o)))
          p (Some random_key) None).

Definition http_port (o : Options) (rest : list bytes) : start Z :=
  match rest with
  | v :: _ =>
      if has_prefix (bs "--") v then Goes (default 0 (op_port o)) else
      refuse_if (bool_decide (is_Some (op_port o))) "use either --http PORT or --port, not both";; parse_http_port v
  | [] => Goes (default 0 (op_port o))
  end.

(** The first transport that is named; none is the pipe. *)
Fixpoint serve_first (w : Worker) (args : list bytes) (o : Options) (rest : list bytes) : start Serving :=
  match rest with
  | [] => p ← build_or_refuse w PIPE args; Goes (mkServing On_pipe p None None)
  | a :: rest =>
      if bool_decide (a = bs "--unix") then
        match rest with
        | [] => refuse "--unix needs a socket path"
        | path :: _ => p ← build_or_refuse w UNIX args; Goes (mkServing (On_unix path (op_idle_timeout o)) p None None)
        end
      else if bool_decide (a = bs "--http") then
        port ← http_port o rest; p ← build_or_refuse w HTTP args; serve_http w o port p
      else serve_first w args o rest
  end.

(** [compute] is what the kernels of Arrow fail to start with. *)
Definition run (compute : option string) (w : Worker) (args : list bytes) : start Serving :=
  match compute with
  | Some e => Stopped (Escaped (Runtime_error ("cannot initialize Arrow compute: " +:+ e)))
  | None =>
      o ← read_options args no_options;
      if bool_decide (op_iroh_upstream o ≠ []) then serve_bridge w args o else serve_first w args o args
  end.

(** ** What is built *)

Lemma told_Ok p q : told p = Ok q ↔ admits p = Ok tt ∧ q = p.
Proof using Type. unfold told. rewrite bind_Ok. split; [intros ([] & ? & [= <-])|intros [? ->]]; eauto. Qed.

(** The names of the hosted protocols. *)
Definition good_name (name : bytes) : Prop :=
  valid_routing_key name = true ∧ has_prefix kReservedProtocolPrefix name = false ∧ name ≠ primary_name.

Lemma check_hosted_Ok i seen name u : check_hosted i seen name = Ok u → good_name name ∧ name ∉ seen.
Proof using Type.
  unfold check_hosted. rewrite !bind_throw_if_Ok, throw_if_Ok.
  intros (Hr & Hv%negb_false_iff & Hp%bool_decide_eq_false & Hs%bool_decide_eq_false). done.
Qed.

Lemma check_hosted_names_Ok i seen names u : check_hosted_names i seen names = Ok u →
  NoDup names ∧ Forall good_name names ∧ Forall (λ n, n ∉ seen) names.
Proof using Type.
  revert i seen. induction names as [|n names IH]; intros i seen; cbn [check_hosted_names]; [by repeat constructor|].
  rewrite bind_Ok. intros ([] & [Hn Hs]%check_hosted_Ok & (Hd & Hg & Ho)%IH). split_and!.
  - constructor; [|done]. rewrite Forall_forall in Ho. intros Hin. apply (Ho n Hin). by left.
  - by constructor.
  - constructor; [done|]. eapply Forall_impl; [done|]. intros x Hx Hin. apply Hx. by right.
Qed.

(** Two plans that may differ in the hosted protocols and the log alone. *)
Definition keeps (p q : Plan) : Prop :=
  pl_grant_keys q = pl_grant_keys p ∧ pl_ticket_key q = pl_ticket_key p ∧ pl_tickets q = pl_tickets p ∧ pl_identity q = pl_identity p.

Lemma add_protocols_Ok l p q : add_protocols l p = Ok q → pl_hosted q = pl_hosted p ++ l ∧ keeps p q.
Proof using Type.
  revert p. induction l as [|b l IH]; intros p; cbn [add_protocols].
  - intros [= <-]. by rewrite app_nil_r.
  - rewrite bind_Ok. intros (p' & [_ ->]%told_Ok & [Hh Hk]%IH). rewrite Hh. cbn. by rewrite <-app_assoc.
Qed.

Lemma access_logs_Ok args p q : access_logs args p = Ok q → pl_hosted q = pl_hosted p ∧ keeps p q.
Proof using Type.
  revert p. induction args as [|a args IH]; intros p; cbn [access_logs]; [by intros [= <-]|].
  case_bool_decide; [|by apply IH]. destruct args as [|path args]; [done|].
  rewrite bind_Ok. by intros (p' & [_ ->]%told_Ok & [Hh Hk]%IH).
Qed.

Lemma host_protocols_Ok w p q : host_protocols w p = Ok q → pl_hosted p = [] →
  NoDup (map protocol_name (pl_hosted q)) ∧ Forall good_name (map protocol_name (pl_hosted q)) ∧ keeps p q.
Proof using Type.
  unfold host_protocols. intros H Hp. destruct (wk_hosted_protocols w) as [hook|].
  - apply bind_Ok in H as (hosted & -> & H). apply bind_Ok in H as ([] & (Hd & Hg & _)%check_hosted_names_Ok & H).
    apply add_protocols_Ok in H as [Hq Hk]. rewrite Hq, Hp. done.
  - injection H as <-. rewrite Hp. by repeat constructor.
Qed.

Lemma host_tickets_Ok w keys p q : host_tickets w keys p = Ok q → pl_tickets p = None →
  pl_hosted q = pl_hosted p ∧ pl_grant_keys q = pl_grant_keys p ∧ pl_ticket_key q = pl_ticket_key p ∧ pl_identity q = pl_identity p ∧
  ∀ k c, pl_tickets q = Some (k, c) → pl_ticket_key p = Some k ∧ (is_Some keys ∨ is_Some (wk_mint_grant w)).
Proof using Type.
  unfold host_tickets. intros H Hp. destruct (pl_ticket_key p) as [key|] eqn:Hk; [|by injection H as <-; rewrite Hp].
  destruct (_ || _) eqn:Hi; [|by injection H as <-; rewrite Hp, Hk].
  apply bind_Ok in H as (ceiling & _ & [_ ->]%told_Ok). cbn. rewrite Hk. split_and!; [done..|].
  intros k c [= <- <-]. split; [done|]. apply orb_true_iff in Hi as [?%bool_decide_eq_true|?%bool_decide_eq_true]; auto.
Qed.

(** Who may ask for the owner of a credential. *)
Definition guarded (i : IdentityOptions) : Prop :=
  match io_resolve_token i with
  | Some _ => io_introspect_principals i ≠ [] ∧ [] ∉ io_introspect_principals i
  | None => io_introspect_principals i = []
  end.

Lemma introspectors_named w args : [] ∉ introspectors w args.
Proof using Type. unfold introspectors. rewrite list_elem_of_filter. by intros [? _]. Qed.

Lemma host_identity_Ok w transport args keys p q : host_identity w transport args keys p = Ok q → pl_identity p = None →
  pl_hosted q = pl_hosted p ∧ pl_grant_keys q = pl_grant_keys p ∧ pl_ticket_key q = pl_ticket_key p ∧ pl_tickets q = pl_tickets p ∧
  ∀ i, pl_identity q = Some i → transport = HTTP ∧ guarded i.
Proof using Type.
  unfold host_identity. intros H Hp. destruct (_ && _) eqn:Ht; [|by injection H as <-; rewrite Hp].
  apply andb_true_iff in Ht as [Ht%bool_decide_eq_true _].
  apply bind_Ok in H as (principals & Hi & [_ ->]%told_Ok). cbn. split_and!; [done..|]. intros i [= <-]. split; [done|].
  unfold guarded. cbn. destruct (wk_resolve_token w); cbn in Hi.
  - apply bind_throw_if_Ok in Hi as [Hn%bool_decide_eq_false [= <-]]. split; [done|apply introspectors_named].
  - by injection Hi as <-.
Qed.

(** Nothing that needs to know who calls. *)
Definition local_only (p : Plan) : Prop :=
  pl_grant_keys p = None ∧ pl_ticket_key p = None ∧ pl_tickets p = None ∧ pl_identity p = None.

Record Built (transport : Transport) (p : Plan) : Prop := {
  built_distinct : NoDup (map protocol_name (pl_hosted p));
  built_named : Forall good_name (map protocol_name (pl_hosted p));
  built_guarded i : pl_identity p = Some i → transport = HTTP ∧ guarded i;
  built_grants : transport ≠ HTTP → pl_grant_keys p = None;
  built_key : pl_ticket_key p = ticket_key_of transport;
  built_tickets k c : pl_tickets p = Some (k, c) → pl_ticket_key p = Some k;
}.

Lemma build_server_Built w transport args p : build_server w transport args = Ok p → Built transport p.
Proof using Type.
  unfold build_server. intros H.
  apply bind_Ok in H as (p0 & [_ ->]%told_Ok & H). apply bind_Ok in H as (p1 & H1 & H).
  assert (p1 = mkPlan primary_name protocol_version (pl_server_id p1) [] None [] None None None) as E1.
  { destruct (bool_decide (wk_server_id w = [])); [by injection H1 as <-|by apply told_Ok in H1 as [_ ->]]. }
  apply bind_Ok in H as ([] & _ & H). apply bind_Ok in H as (p2 & H2 & H).
  apply host_protocols_Ok in H2 as (Hd & Hg & K2); [|by rewrite E1]. rewrite E1 in K2. destruct K2 as (_ & _ & Ht2 & Hi2). cbn in Ht2, Hi2.
  apply bind_Ok in H as (keys & _ & H). apply bind_Ok in H as (p3 & [_ ->]%told_Ok & H).
  apply bind_Ok in H as (p4 & [Hh4 (Hk4 & _ & Ht4 & Hi4)]%access_logs_Ok & H). cbn in *.
  apply bind_Ok in H as (p5 & H5 & H). apply host_tickets_Ok in H5 as (Hh5 & Hk5 & Hy5 & Hi5 & Ht5); [|cbn; congruence].
  apply bind_Ok in H as (p6 & H6 & [_ ->]%told_Ok). apply host_identity_Ok in H6 as (Hh6 & Hk6 & Hy6 & Ht6 & Hi6); [|cbn in *; congruence].
  cbn in *. split.
  - by rewrite Hh6, Hh5, Hh4.
  - by rewrite Hh6, Hh5, Hh4.
  - done.
  - intros Hn. rewrite Hk6, Hk5, Hk4. by rewrite bool_decide_false.
  - congruence.
  - intros k c Hq. rewrite Ht6 in Hq. rewrite Hy6, Hy5. by apply (Ht5 _ _ Hq).
Qed.

Lemma Built_local transport p : Built transport p → transport ≠ HTTP → local_only p.
Proof using Type.
  intros B Hn. assert (pl_ticket_key p = None) as Hk.
  { rewrite (built_key _ _ B). unfold ticket_key_of. by rewrite bool_decide_false. }
  split_and!; [by apply B|done| |].
  - destruct (pl_tickets p) as [[k c]|] eqn:E; [|done]. apply (built_tickets _ _ B) in E. congruence.
  - destruct (pl_identity p) as [i|] eqn:E; [|done]. by apply (built_guarded _ _ B) in E as [? _].
Qed.

(** ** A start that serves *)

Lemma start_Goes {X Y} (r : start X) (f : X → start Y) y : (r ≫= f) = Goes y ↔ ∃ x, r = Goes x ∧ f x = Goes y.
Proof using Type. destruct r; split; [done|by intros (x & ? & ?)|by exists x|by intros (x' & [= ->] & ?)]. Qed.
Lemma refuse_if_Goes b message u : refuse_if b message = Goes u ↔ b = false.
Proof using Type. by destruct b, u. Qed.
Lemma or_refuse_Goes {X} (r : result X) x : or_refuse r = Goes x ↔ r = Ok x.
Proof using Type. destruct r as [|e]; [by split; intros [= ->]|by split]. Qed.
Lemma uncaught_Goes {X} (r : result X) x : uncaught r = Goes x ↔ r = Ok x.
Proof using Type. destruct r; [by split; intros [= ->]|by split]. Qed.

Lemma proxies_named l : proxies_or_loopback l ≠ [].
Proof using Type. by destruct l. Qed.

Lemma read_port_range text port : read_port text = Some port → 0 ≤ port ≤ 65535.
Proof using Type.
  unfold read_port. destruct (_ || _) eqn:E; [done|]. intros [= <-].
  apply orb_false_iff in E as [_ E%bool_decide_eq_false]. by apply dec_stable.
Qed.
Lemma parse_tcp_bind_port value flag host port : parse_tcp_bind value flag = Ok (host, port) → 0 ≤ port ≤ 65535.
Proof using Type.
  unfold parse_tcp_bind. destruct (match cut_last _ _ with Some _ => _ | None => _ end) as [h t].
  rewrite bind_Ok. intros (q & Hq%from_opt_Ok & [= _ <-]). by eapply read_port_range.
Qed.

(** What listens over HTTP, before the worker's own hook: the key that seals is the one
    of the environment, and a peer is believed on the loopback alone. *)
Definition sound_http (c : HttpConfig) : Prop :=
  (hc_providers c ≠ hc_providers fresh → is_loopback_bind (hc_host c) = true) ∧
  hc_token_key c = match configured "VGI_SIGNING_KEY" with
                   | None => hc_token_key fresh
                   | Some raw => if bool_decide (length raw = length (hc_token_key fresh)) then raw else sha256 raw
                   end.

Lemma based_Ok o port p c : based o port p = Ok c → hc_providers c = hc_providers fresh ∧ hc_host c = op_host o ∧ sound_http c.
Proof using Type.
  unfold based, configure_landing. rewrite bind_Ok. intros (c0 & (status & _ & [= <-])%bind_Ok & [= <-]).
  unfold configure_signing_key, sound_http. by destruct (configured "VGI_SIGNING_KEY").
Qed.

Lemma configure_bearer_keeps c d : configure_bearer_auth c = Ok d → hc_providers d = hc_providers c ∧ hc_host d = hc_host c ∧ hc_token_key d = hc_token_key c.
Proof using Type.
  unfold configure_bearer_auth. rewrite bind_Ok. intros (t & _ & H). destruct (bool_decide (t ≠ ∅)); [by injection H as <-|].
  apply bind_Ok in H as (t' & _ & H). by destruct (bool_decide (t' ≠ ∅)); injection H as <-.
Qed.

Lemma serve_http_Goes w o port p s : serve_http w o port p = Goes s →
  sv_plan s = p ∧ ∃ base c, sound_http base ∧ hooked w base = Ok c ∧
  sv_listening s = On_http c ∧ sv_opaque_key s = Some (hc_token_key c) ∧ sv_split_key s = Some (hc_token_key c).
Proof using Type.
  unfold serve_http. rewrite start_Goes. intros (c & Hc & [= <-]). split; [done|]. case_bool_decide.
  - apply start_Goes in Hc as (b & (Hp & Hh & Hb)%uncaught_Goes%based_Ok & Hc).
    apply start_Goes in Hc as (d & (Hp' & Hh' & Hk')%uncaught_Goes%configure_bearer_keeps & Hc%uncaught_Goes).
    exists d, c. split_and!; try done. destruct Hb as [_ Hk]. split; [by rewrite Hp', Hp|by rewrite Hk'].
  - apply start_Goes in Hc as ([] & Hl%refuse_if_Goes%negb_false_iff & Hc).
    apply start_Goes in Hc as (b & (Hp & Hh & Hb)%uncaught_Goes%based_Ok & Hc%uncaught_Goes).
    eexists _, c. split_and!; [|exact Hc|done..]. destruct Hb as [_ Hk]. split; [|done]. cbn. by rewrite Hh.
Qed.

(** What is served is closed: the transport, the plan and the keys fit each other. *)
Definition closed (w : Worker) (s : Serving) : Prop :=
  let p := sv_plan s in
  match sv_listening s with
  | On_pipe | On_unix _ _ => local_only p ∧ sv_opaque_key s = None ∧ sv_split_key s = None
  | On_tcp host port o =>
      local_only p ∧ sv_opaque_key s = Some random_key ∧ sv_split_key s = None ∧ is_loopback_bind host = true ∧ 0 ≤ port ≤ 65535 ∧
      to_proxy_protocol_v2_required o = true ∧ to_trusted_proxy_addresses o ≠ [] ∧ to_iroh_proxy_issuer o ≠ []
  | On_http c =>
      sv_opaque_key s = Some (hc_token_key c) ∧ sv_split_key s = Some (hc_token_key c) ∧
      pl_ticket_key p = attach_ticket_key <$> configured "VGI_SIGNING_KEY" ∧
      ∃ base, sound_http base ∧ hooked w base = Ok c
  end.

Lemma serve_first_closed w args o rest s : serve_first w args o rest = Goes s →
  (∃ transport, Built transport (sv_plan s)) ∧ closed w s.
Proof using Type.
  induction rest as [|a rest IH]; cbn [serve_first].
  { rewrite start_Goes. intros (p & B%or_refuse_Goes%build_server_Built & [= <-]). split; [eauto|].
    split; [by eapply Built_local|done]. }
  destruct (bool_decide (a = bs "--unix")).
  { destruct rest as [|path rest]; [done|]. rewrite start_Goes. intros (p & B%or_refuse_Goes%build_server_Built & [= <-]).
    split; [eauto|]. split; [by eapply Built_local|done]. }
  destruct (bool_decide (a = bs "--http")); [|by apply IH].
  rewrite start_Goes. intros (port & _ & (p & B%or_refuse_Goes%build_server_Built & H)%start_Goes).
  apply serve_http_Goes in H as (Hp & base & c & Hb & Hc & Hl & Ho & Hs). split; [by rewrite Hp; eauto|].
  unfold closed. rewrite Hl, Hp. split_and!; [done..| |by eauto]. rewrite (built_key _ _ B). unfold ticket_key_of. by rewrite bool_decide_true.
Qed.

Lemma serve_bridge_closed w args o s : serve_bridge w args o = Goes s → (∃ transport, Built transport (sv_plan s)) ∧ closed w s.
Proof using Type.
  unfold serve_bridge. rewrite start_Goes. intros ([] & Hi%refuse_if_Goes%bool_decide_eq_false & H).
  apply start_Goes in H as ([host port] & Hp%or_refuse_Goes%parse_tcp_bind_port & H).
  apply start_Goes in H as (p & B%or_refuse_Goes%build_server_Built & H).
  apply start_Goes in H as ([] & Hl%refuse_if_Goes%negb_false_iff & [= <-]). split; [eauto|].
  unfold closed. cbn. split_and!; try done; [by eapply Built_local|by apply Hp|by apply Hp|apply proxies_named].
Qed.

(** C8. Whatever a worker is started with, what it serves is closed.  The protocols it
    hosts have valid, distinct names that are no other's; a worker that resolves
    credentials has named who may ask; on a pipe and on a unix socket nothing is sealed
    and nothing is hosted that needs to know who calls; a raw socket takes connections
    of the bridge alone, on the loopback, and binds what it seals under a key of its
    own; and over HTTP the values are sealed under the key that the operator gave, a
    ticket is opened under that key and under no other, and a forwarded peer is
    believed on the loopback only. *)
Theorem startup_closed compute w args s : run compute w args = Goes s →
  NoDup (map protocol_name (pl_hosted (sv_plan s))) ∧ Forall good_name (map protocol_name (pl_hosted (sv_plan s))) ∧
  (∀ i, pl_identity (sv_plan s) = Some i → guarded i) ∧
  (∀ k ceiling, pl_tickets (sv_plan s) = Some (k, ceiling) → pl_ticket_key (sv_plan s) = Some k) ∧
  closed w s.
Proof using Type.
  unfold run. destruct compute; [done|]. rewrite start_Goes. intros (o & _ & H).
  assert ((∃ transport, Built transport (sv_plan s)) ∧ closed w s) as [[t B] Hc].
  { destruct (bool_decide _); [by apply serve_bridge_closed in H|by apply serve_first_closed in H]. }
  split_and!; [apply B|apply B|by intros i [_ ?]%(built_guarded _ _ B)|apply B|done].
Qed.

(** ** Who a bearer is *)

Lemma pieces_one c p : c ∉ p → pieces c p = [p].
Proof using Type.
  induction p as [|d p IH]; cbn [pieces]; [done|]. rewrite not_elem_of_cons. intros [Hd Hp].
  rewrite bool_decide_false by congruence. by rewrite IH.
Qed.
Lemma pieces_app c p s : c ∉ p → pieces c (p ++ c :: s) = p :: pieces c s.
Proof using Type.
  induction p as [|d p IH]; cbn [pieces app]; [by rewrite bool_decide_true|]. rewrite not_elem_of_cons. intros [Hd Hp].
  rewrite bool_decide_false by congruence. by rewrite IH.
Qed.
Lemma pieces_concat c l : l ≠ [] → Forall (λ p, c ∉ p) l → pieces c (concat_with c l) = l.
Proof using Type.
  intros Hl H. induction H as [|p l Hp H IH]; [done|]. destruct l as [|q l]; [by apply pieces_one|].
  cbn [concat_with]. rewrite pieces_app by done. f_equal. by apply IH.
Qed.
Lemma cut_app c a b : c ∉ a → cut c (a ++ c :: b) = (a, Some b).
Proof using Type.
  induction a as [|d a IH]; cbn [cut app]; [by rewrite bool_decide_true|]. rewrite not_elem_of_cons. intros [Hd Ha].
  rewrite bool_decide_false by congruence. by rewrite IH.
Qed.
Lemma cut_Some c s a b : cut c s = (a, Some b) → s = a ++ c :: b.
Proof using Type.
  revert a. induction s as [|d s IH]; intros a; cbn [cut]; [done|]. case_bool_decide as Hd; [by intros [= <- <-]; subst|].
  destruct (cut c s) as [a' o] eqn:E. intros [= <- ->]. cbn. by rewrite (IH a').
Qed.

Definition bearer_text (e : bytes * bytes) : bytes := e.1 ++ "="%char :: e.2.
(** What can be configured: no token has a comma or the separator in it. *)
Definition good_bearer (e : bytes * bytes) : Prop := fst e ≠ [] ∧ snd e ≠ [] ∧ ("="%char ∉ e.1) ∧ (comma ∉ e.1) ∧ (comma ∉ e.2).
Definition configured_text (l : list (bytes * bytes)) : bytes := concat_with comma (map bearer_text l).

Lemma bearer_entry_good variable e : good_bearer e → bearer_entry variable (bearer_text e) = Ok e.
Proof using Type.
  destruct e as [t p]. intros (Ht & Hp & Hs & _). cbn in *. unfold bearer_entry, bearer_text. cbn. rewrite cut_app by done. by destruct t, p.
Qed.
Lemma bearer_entry_Ok variable s e : bearer_entry variable s = Ok e → s = bearer_text e.
Proof using Type.
  unfold bearer_entry. destruct (cut _ s) as [[|c t] o] eqn:E; [done|]. destruct o as [p|]; [|done]. destruct p as [|d p]; [done|]. intros [= <-]. by apply cut_Some in E.
Qed.

Lemma bearer_text_apart e : good_bearer e → comma ∉ bearer_text e.
Proof using Type. intros (_ & _ & _ & H1 & H2). unfold bearer_text. rewrite elem_of_app, elem_of_cons. by intros [?|[?|?]]. Qed.

Lemma bearer_entries_good variable l m : Forall good_bearer l → bearer_entries variable (map bearer_text l) m = Ok (m ∪ list_to_map l).
Proof using Type.
  intros H. revert m. induction H as [|[t p] l He H IH]; intros m; cbn [bearer_entries map list_to_map foldr]; [by rewrite map_union_empty|].
  rewrite bearer_entry_good by done. cbn [mbind result_bind]. rewrite IH. f_equal. apply map_eq. intros t'.
  rewrite !lookup_union. cbn. destruct (decide (t' = t)) as [->|Hn].
  - case_bool_decide as Hm; [destruct Hm as [q ->]; cbn; by rewrite !union_Some_l|].
    apply eq_None_not_Some in Hm. by rewrite !lookup_insert_eq, Hm, union_Some_l.
  - rewrite (lookup_insert_ne (list_to_map l)) by done. case_bool_decide; [done|]. by rewrite lookup_insert_ne.
Qed.
Lemma bearer_entries_Ok variable l m tokens t p : bearer_entries variable l m = Ok tokens → tokens !! t = Some p →
  m !! t = Some p ∨ bearer_text (t, p) ∈ l.
Proof using Type.
  revert m. induction l as [|e l IH]; intros m; cbn [bearer_entries]; [intros [= <-]; by left|].
  rewrite bind_Ok. intros ([t' p'] & ->%bearer_entry_Ok & H) Ht. destruct (IH _ H Ht) as [Hm|Hin]; [|right; by right].
  case_bool_decide; [by left|]. apply lookup_insert_Some in Hm as [[-> ->]|[_ Hm]]; [right; by left|by left].
Qed.

Lemma configured_nonempty variable l : l ≠ [] → Forall good_bearer l → getenv variable = Some (configured_text l) →
  bearer_tokens_from_env variable = Ok (list_to_map l) ∧ (list_to_map l : gmap bytes bytes) ≠ ∅.
Proof using Type.
  intros Hl H E. unfold bearer_tokens_from_env, configured. rewrite E. cbn [mbind option_bind].
  assert (nonempty (configured_text l) = Some (configured_text l)) as ->.
  { unfold configured_text. destruct H as [|[[|c t] p] l' (Ht & _) _]; [done|done|]. by destruct l'. }
  unfold configured_text. rewrite pieces_concat; [|by destruct l|rewrite Forall_map; by eapply Forall_impl; [|apply bearer_text_apart]].
  rewrite bearer_entries_good by done. split; [by rewrite map_empty_union|]. destruct l as [|[t p] l]; [done|]. apply insert_non_empty.
Qed.

Lemma find_first (l : list (bytes * bytes)) t :
  (list_to_map l : gmap bytes bytes) !! t = snd <$> List.find (λ e, bool_decide (e.1 = t)) l.
Proof using Type.
  induction l as [|[t' p] l IH]; cbn [list_to_map foldr List.find]; [done|]. cbn. case_bool_decide as Ht.
  - subst. by rewrite lookup_insert_eq.
  - by rewrite lookup_insert_ne.
Qed.

(** Of several entries for a token the first counts. *)
Definition named (l : list (bytes * bytes)) (token : bytes) : option AuthContext :=
  (λ e : bytes * bytes, bearer_principal e.2) <$> List.find (λ e, bool_decide (e.1 = token)) l.

(** A token that is someone is in the text of a variable. *)
Lemma tokens_listed variable tokens t p : bearer_tokens_from_env variable = Ok tokens → tokens !! t = Some p →
  ∃ text, getenv variable = Some text ∧ bearer_text (t, p) ∈ pieces comma text.
Proof using Type.
  unfold bearer_tokens_from_env, configured. destruct (getenv variable) as [[|a text]|]; cbn [mbind option_bind nonempty].
  - intros [= <-] H. by rewrite lookup_empty in H.
  - intros H Ht. destruct (bearer_entries_Ok _ _ _ _ _ _ H Ht) as [H0|Hin]; [by rewrite lookup_empty in H0|eauto].
  - intros [= <-] H. by rewrite lookup_empty in H.
Qed.
Lemma bearer_listed c d f token auth : configure_bearer_auth c = Ok d → hc_bearer c = None → hc_bearer d = Some f →
  f token = Some auth → authenticated auth = true →
  ∃ variable text principal, getenv variable = Some text ∧ variable ∈ ["VGI_BEARER_TOKENS"; "VGI_OPTIONAL_BEARER_TOKENS"]%string ∧
    auth = bearer_principal principal ∧ bearer_text (token, principal) ∈ pieces comma text.
Proof using Type.
  unfold configure_bearer_auth. rewrite bind_Ok. intros (tokens & Ht & H) Hc Hf Ha Hau.
  destruct (bool_decide (tokens ≠ ∅)).
  - injection H as <-. injection Hf as <-. unfold required_bearer in Ha. apply fmap_Some in Ha as (p & Hp & ->).
    destruct (tokens_listed _ _ _ _ Ht Hp) as (text & ? & ?). eexists _, text, p. split_and!; [done|by left|done..].
  - apply bind_Ok in H as (tokens' & Ht' & H). destruct (bool_decide (tokens' ≠ ∅)); [|injection H as <-; congruence].
    injection H as <-. injection Hf as <-. unfold optional_bearer in Ha. destruct (tokens' !! token) as [p|] eqn:Hp.
    + injection Ha as <-. destruct (tokens_listed _ _ _ _ Ht' Hp) as (text & ? & ?).
      eexists _, text, p. split_and!; [done|by right; left|done..].
    + destruct (has_prefix _ _); [done|]. by injection Ha as <-.
Qed.

(** C33. A bearer is who the configured list says.  With a list of [token=principal]
    entries in [VGI_BEARER_TOKENS], a token is the principal of its first entry and an
    unknown one is nobody; with the list in [VGI_OPTIONAL_BEARER_TOKENS] and the other
    variable unset, an unknown one is an anonymous caller, unless it has the form of a
    grant, which is left to those who open grants.  And whatever text the variables
    hold, no token is anyone without an entry that names the two. *)
Theorem bearer_known c l : l ≠ [] → Forall good_bearer l →
  (getenv "VGI_BEARER_TOKENS" = Some (configured_text l) →
   ∃ f d, configure_bearer_auth c = Ok d ∧ hc_bearer d = Some f ∧ ∀ token, f token = named l token) ∧
  (configured "VGI_BEARER_TOKENS" = None → getenv "VGI_OPTIONAL_BEARER_TOKENS" = Some (configured_text l) →
   ∃ f d, configure_bearer_auth c = Ok d ∧ hc_bearer d = Some f ∧ hc_bearer_optional d = true ∧
     ∀ token, f token = match named l token with
                        | Some auth => Some auth
                        | None => if has_prefix kGrantTokenPrefix token then None else Some anonymous
                        end) ∧
  (∀ d f token auth, configure_bearer_auth c = Ok d → hc_bearer c = None → hc_bearer d = Some f → f token = Some auth →
   authenticated auth = true →
   ∃ variable text principal, getenv variable = Some text ∧ variable ∈ ["VGI_BEARER_TOKENS"; "VGI_OPTIONAL_BEARER_TOKENS"]%string ∧
     auth = bearer_principal principal ∧ bearer_text (token, principal) ∈ pieces comma text).
Proof using Type.
  intros Hl H. split_and!.
  - intros E. destruct (configured_nonempty _ _ Hl H E) as [Hf Hn]. unfold configure_bearer_auth. rewrite Hf. cbn [mbind result_bind].
    rewrite bool_decide_true by done. eexists _, _. split_and!; [done..|]. intros token. unfold required_bearer, named.
    rewrite find_first. by destruct (List.find _ l).
  - intros E0 E. destruct (configured_nonempty _ _ Hl H E) as [Hf Hn]. unfold configure_bearer_auth.
    rewrite Hf. unfold bearer_tokens_from_env. rewrite E0. cbn [mbind result_bind]. rewrite bool_decide_false by auto.
    rewrite bool_decide_true by done. eexists _, _. split_and!; [done..|]. intros token. unfold optional_bearer, named.
    rewrite find_first. by destruct (List.find _ l).
  - intros d f token auth Hd Hc Hf Ha Hau. by eapply bearer_listed.
Qed.

End worker.

(** ** A worker at work

    The hooks are named by numbers; a key is read of no variable but the grants'. *)
#[local] Instance plain_rpc : VgiRpc := {|
  kGrantTokenPrefix := bs "vgig1."; kReservedProtocolPrefix := bs "vgi_rpc."; kGrantKeysEnv := "VGI_RPC_GRANT_KEYS";
  GrantKeys := bytes; max_ttl_seconds _ := 3600; validate _ := Ok tt;
  keys_from_env getenv := Ok (getenv "VGI_RPC_GRANT_KEYS"%string);
  ProtocolBuilder := bytes; protocol_name b := b; ResolveTokenHook := nat; MintGrantHook := nat;
|}.
#[local] Existing Instance toy_crypto.

Definition bearers : list (bytes * bytes) := [(bs "t1", bs "alice"); (bs "t2", bs "bob"); (bs "t1", bs "eve")].
Definition environment (name : string) : option bytes :=
  if bool_decide (name = "VGI_BEARER_TOKENS"%string) then Some (bs "t1=alice,t2=bob,t1=eve")
  else if bool_decide (name = "VGI_SIGNING_KEY"%string) then Some (bs "a passphrase")
  else if bool_decide (name = "VGI_INTROSPECT_PRINCIPALS"%string) then Some (bs " proxy , ") else None.
Definition optional_environment (name : string) : option bytes :=
  if bool_decide (name = "VGI_OPTIONAL_BEARER_TOKENS"%string) then Some (bs "t1=alice,t2=bob,t1=eve") else None.
Definition plain_config : HttpConfig := mkHttp [] 0 (replicate 32 NUL) false None ∅ [] None.
Definition resolving : Worker := set_resolve_token (Some 1%nat) (set_hosted_protocols (Some (Ok [bs "extra.v1"])) new_worker).
Definition started (getenv : string → option bytes) (w : Worker) (args : list string) : start Serving :=
  run getenv (λ _, Ok tt) Catalogs.family [] (bs "html") (bs "js") (bs "1") (λ _, Ok (bs "{}")) plain_config (λ _, bs "id") (bs "random")
    None w (map bs args).

Definition told_of (s : start Serving) : option (Listening * list bytes * option (list bytes) * bool) :=
  match s with
  | Goes s => Some (match sv_listening s with On_http c => On_http (with_token_key [] (mkHttp (hc_host c) (hc_port c) [] false None ∅ [] None)) | l => l end,
                    pl_hosted (sv_plan s), io_introspect_principals <$> pl_identity (sv_plan s), bool_decide (is_Some (sv_opaque_key s)))
  | Stopped _ => None
  end.

(** A worker that resolves credentials over HTTP, and on a socket of the launcher; one
    that nobody may ask, and a bridge that is not on the loopback, do not start. *)
Example starts :
  told_of (started environment resolving ["--host"; "0.0.0.0"; "--http"; "8080"]%string) =
    Some (On_http (mkHttp (bs "0.0.0.0") 8080 [] false None ∅ [] None), [bs "extra.v1"], Some [bs "proxy"], true) ∧
  told_of (started environment resolving ["--unix"; "/run/w"; "--idle-timeout"; "0.25"]%string) =
    Some (On_unix (bs "/run/w") (Some 250), [bs "extra.v1"], None, false) ∧
  started optional_environment resolving ["--http"]%string = Stopped (Reported (Invalid_argument no_allowlist)) ∧
  started environment resolving ["--iroh-raw-upstream"; "[::]:70"; "--iroh-issuer"; "i"]%string =
    Stopped (Refused "--iroh-raw-upstream must bind loopback; expose only the Iroh bridge") ∧
  started environment resolving ["--http"; "65536"]%string = Stopped (Refused "HTTP port must be in 0..65535, got '65536'").
Proof. split_and!; vm_compute; reflexivity. Qed.

(** A list of tokens that does not parse stops the start, of an exception that nothing
    between it and the end of the process catches. *)
Example bad_tokens_escape :
  started (λ name, if bool_decide (name = "VGI_BEARER_TOKENS"%string) then Some (bs "t1=alice,") else None) new_worker ["--http"]%string =
    Stopped (Escaped (Invalid_argument "VGI_BEARER_TOKENS must contain comma-separated token=principal entries")).
Proof. vm_compute. reflexivity. Qed.

Definition started_http : Serving :=
  match started environment resolving ["--http"]%string with
  | Goes s => s
  | Stopped _ => mkServing On_pipe (mkPlan [] [] None [] None [] None None None) None None
  end.

Lemma startup_closed_witness :
  started environment resolving ["--http"]%string = Goes started_http ∧
  (∃ c, sv_listening started_http = On_http c ∧ sv_opaque_key started_http = Some (hc_token_key c)) ∧
  pl_ticket_key (sv_plan started_http) = Some (attach_ticket_key (bs "a passphrase")) ∧
  ∀ i, pl_identity (sv_plan started_http) = Some i → guarded i.
Proof.
  assert (started environment resolving ["--http"]%string = Goes started_http) as E by (vm_compute; reflexivity).
  split; [exact E|].
  destruct (startup_closed _ _ _ _ _ _ _ _ _ _ _ _ _ _ _ E) as (_ & _ & Hi & _ & Hc).
  assert (∃ c, sv_listening started_http = On_http c) as [c Hl] by (eexists; vm_compute; reflexivity).
  unfold closed in Hc. rewrite Hl in Hc. destruct Hc as (Ho & _ & Hk & _).
  split; [exists c; by split|]. split; [rewrite Hk; reflexivity|exact Hi].
Defined.

Lemma bearer_known_witness :
  named bearers (bs "t1") = Some (bearer_principal (bs "alice")) ∧
  (∃ f d, configure_bearer_auth environment plain_config = Ok d ∧ hc_bearer d = Some f ∧ ∀ token, f token = named bearers token) ∧
  (∃ f d, configure_bearer_auth optional_environment plain_config = Ok d ∧ hc_bearer d = Some f ∧ f (bs "t3") = Some anonymous ∧
     f (bs "vgig1.x") = None).
Proof.
  assert (Forall good_bearer bearers) as H by (repeat constructor; unfold good_bearer; by_decide).
  split; [vm_compute; reflexivity|]. split.
  - destruct (bearer_known environment plain_config bearers ltac:(discriminate) H) as (H1 & _). by apply H1.
  - destruct (bearer_known optional_environment plain_config bearers ltac:(discriminate) H) as (_ & H2 & _).
    destruct H2 as (f & d & Hd & Hf & _ & Hall); [reflexivity|reflexivity|]. exists f, d.
    split; [exact Hd|]. split; [exact Hf|]. rewrite !Hall. split; vm_compute; reflexivity.
Defined.

End Worker.
